(* ===== verification/_CoqProject ===== *)
-Q . S2P
Prelude.v
Numeral.v
Token.v
Lexer.v
LexerFacts.v
LexerProps.v
Types.v
TypesFacts.v
Embedding.v
EmbeddingFacts.v
Promotion.v
PromotionFacts.v
EmbeddingResults.v
ConstExpr.v
ConstExprFacts.v
Bridge.v
BridgeFacts.v
BridgeHeaders.v
Monomorph.v
MonomorphFacts.v
Terminating.v
TerminatingSound.v
Comptime.v
ComptimeSem.v
ComptimeFacts.v
ComptimeSound.v
ComptimeLimits.v
ComptimeResults.v
ComptimeIntrinsics.v
Escape.v
EscapePasses.v
EscapeFacts.v
EscapeSem.v
EscapeSound.v
EscapeResults.v
EscapeMisses.v
Release.v
ReleaseSem.v
ReleaseFacts.v
ReleaseFlow.v
ReleaseRuns.v
ReleaseInv.v
ReleaseSteps.v
ReleaseWalk.v
ReleaseStmts.v
ReleaseSound.v
ReleaseResults.v
Lane.v
LaneSem.v
LaneFacts.v
LaneSound.v
LaneResults.v
Sched.v
SchedFacts.v
SchedResults.v
Sync.v
SyncFacts.v
Defer.v
Arena.v
Channel.v
ChannelConc.v
ChannelStore.v
Utf8.v
RtMap.v
Arc.v
RtSlice.v
RtString.v
RtStringFacts.v
RtStringResults.v
