(* ===== verification/Prelude.v ===== *)
(** * The core of Goo, a Go dialect compiler and its runtime: a verified model.

    Goo (src/) compiles a Go-like language in C: a hand-written scanner feeds a bison grammar,
    type checking and several flow analyses run on the AST, code generation emits LLVM IR, and
    the program links against a C runtime (memory, maps, slices, strings, channels, scheduler).
    This library models the parts whose behaviour is decided by the C code itself, one file per
    part, and proves what makes each of them correct.

    ** Parts and files

    Front end.
    - [Numeral]: [strtoull] as the compiler uses it.  [Token]: include/token.h,
      src/lexer/token.c.  Kinds and codes, keyword table, names.
    - [Lexer]: include/lexer.h, src/lexer/lexer.c.  The [Lexer] record is the C struct; one
      definition per C function, one per group of cases of the big switch ([lex_*], joined by
      [lex_switch]); [lexer_next_token] is the whole function, [tokenize] its caller's loop.
      [LexerFacts] has the state invariant, progress and positions, [LexerProps] what tokens
      come out of which text.
    - [Bridge]: src/parser/lexer_bridge.c, between scanner and grammar: token codes, semantic
      values, and the look-ahead that marks the braces opening a block.  [BridgeFacts] relates
      the stream to [tokenize], [BridgeHeaders] settles the marking for statement headers.
    - [ConstExpr], [ConstExprFacts]: constant folding (src/types/expression_helpers.c and its
      callers) and the parser actions that expand constant groups and grouped names.

    Types and analyses.
    - [Types], [TypesFacts]: src/types/types.c, the representation, equality, compatibility,
      unification, substitution, scopes.  [Monomorph], [MonomorphFacts]: instantiation of
      generic functions, with its key and its cap.
    - [Embedding], [EmbeddingFacts], [EmbeddingResults]: src/types/embedding.c, the method
      lookup of type_checker.c, interface satisfaction: promotion of embedded members.
      [Promotion] has Go's rules for both, without the code's helpers and limits, and
      [PromotionFacts] their agreement with the tree that the search walks.
    - [Terminating]: src/types/terminating_stmt.c.  The missing-return analysis as the mutual
      recursion of the file.  [TerminatingSound] gives the statements a small-step semantics
      and relates the analysis to it and to Go's rule.
    - [Comptime]: src/comptime/comptime.c and comptime_value.c, the evaluator behind
      [comptime const] and comptime arguments, with the type checker's pass that registers
      functions and its two uses of the engine.  [ComptimeSem] has the runs of a program of
      integers and booleans and the check of such programs (their bodies end by [Terminating]);
      [ComptimeFacts] the lemmas on contexts, [ComptimeSound] the simulation, [ComptimeLimits] what
      no evaluation does, [ComptimeResults] the theorems.  [ComptimeIntrinsics]:
      comptime_intrinsics.c and comptime_types.c, templates, format strings, types from values.
    - [Escape] is the taint engine (escape_core.c, nonretaining.c), [EscapePasses] the
      parameter, local and block passes over it.  [EscapeFacts] has monotonicity and the
      fixpoint, [EscapeSem] a store semantics of the fragment the passes handle, [EscapeSound]
      the simulation, [EscapeResults] the theorems and [EscapeMisses] what gets past.
    - [Release]: src/types/release_decision.c, which locals a function frees; it asks the passes
      of [EscapePasses].  [ReleaseSem] has the executions with the releases that code generation
      emits from the plan (at a store, at the end of an iteration, at a jump and at the exit, as
      in codegen/statement_codegen.c); [ReleaseFacts] what the walk records, [ReleaseFlow] a
      check of the flows between locals, [ReleaseRuns] lemmas on runs, [ReleaseInv] the
      invariant, [ReleaseSteps] one statement's evaluations and stores, [ReleaseWalk] and
      [ReleaseStmts] the link between walk and statement, [ReleaseSound] the induction,
      [ReleaseResults] the theorems.
    - [Lane]: src/types/lane_ownership.c, the moves and views of lanes.Partition and lanes.Run.
      [LaneFacts] has the lemmas of the walk, [LaneSem] a semantics of the bodies it checks,
      [LaneSound] the simulation, [LaneResults] the theorems.

    Runtime.
    - [Arena]: src/runtime/arena.c.  Block chain, bump allocation, reset, free.
    - [Channel], [ChannelConc], [ChannelStore]: src/runtime/channels.c.  The channel record and
      its critical sections; any number of goroutines blocking on one channel; several channels
      with select, publish/subscribe, push/pull and request/reply.
    - [Sched], [SchedFacts], [SchedResults]: src/runtime/concurrency.c, workers, run queue,
      goroutines and the deadlock detector as interleaved steps over a heap.
    - [Sync], [SyncFacts]: the mutex, wait-group and once shims.  [Defer]: the defer stack.
    - [Utf8], [RtMap], [Arc], [RtSlice]: src/runtime/runtime.c.  UTF-8 coding; the map type; the
      reference count and its interleavings; slices over a store of blocks ([RtSlice] takes the
      header size of [Arc]).
    - [RtString], [RtStringFacts], [RtStringResults]: the string functions of
      src/runtime/runtime.c and of the strings and strconv packages, over a heap of byte blocks.

    This file has what they share: wrap-around, outcomes, bit arithmetic, comparison splitting.

    ** How the C code is read

    A w-bit unsigned integer is a [Z] with its wrap-around written out ([wrap], [u64]); a C
    [char] of source text is an [ascii], a byte of runtime data a [Z].  [goo_panic] ends the
    process: [Panic] of [outcome] carries its message; a step system's step is [Next], not
    enabled ([Disabled]), or undefined behaviour ([Fault]).  A pointer that code may follow is a
    key of a store ([ChannelStore], [RtSlice], [Sched]) or one of the kinds the code
    distinguishes ([Arc]); following a dangling one is a result of its own, never a default
    value.  What libc decides (the block [malloc] and [realloc] pick, the answer of a try-lock,
    the clock) is a parameter; the theorems state what they use of it, and the witnesses
    instantiate it.

    ** What the theorems show

    - Scanner: it ends on every text with EOF last; tokens carry the position of the byte at
      which the text spells them; operators are taken longest-first; a word is a keyword exactly by the table; quoted
      strings and rune escapes give back the bytes and values they spell.
    - Bridge: the parser sees the scanner's tokens in order, each once; on the texts of a bracket
      grammar, with at most 64 headers nested, the marked braces are those that open bodies; texts
      outside of it on which they are not.
    - Constants: folding is exact modulo 2^64; the fit test is exact; a group expands to its
      specification.
    - Types: equality is an equivalence and the kernel of an erasure; unification is matching
      up to variadic flags; substitution keeps types well formed and, where parameters occur under
      slices, pointers and functions only, leaves none; assignability follows a table of kinds;
      monomorphization ends.
    - Embedding: the search is Go's promotion where its limits (64 entries, eight levels, names
      that tell types apart) are not reached, with the members the limits lose; interface
      satisfaction is by Go's method sets there, but for results that nobody wants, with the
      programs on which it is not.
    - Missing return: a body it accepts cannot fall off its end under the statement semantics;
      strict mode is Go's terminating-statement rule; relaxed mode accepts whatever that rule
      accepts.
    - Comptime: in a checked program (integers and booleans, functions of distinct names, no
      methods) the engine computes the value that every run computes, and finds it for every run
      without overflow in which all operands have values; its recursion limit and its loops are
      without effect; programs on which it departs from the language; a closed template expands
      inside its block; the check of formats accepts, of those printf can read, the ones with one
      directive of the argument's class, and a few it should not.
    - Escape: a parameter or local reported as not escaping is reachable from no sink under the
      store semantics; the sweep over functions settles; the programs it judges wrongly.
    - Releases: in a body whose flows pass the check, the releases of the plan never free twice,
      never free foreign memory and leave nothing that is read later; programs the analysis
      approves although a release crashes them.
    - Lanes: in a body the pass accepts, no execution reads an array after it was moved, where
      the flow of control is one the walk follows; what it rejects; what it misses.
    - Arena: allocations are aligned, inside their blocks and pairwise disjoint; reset replays
      the same addresses; free gives back exactly what was taken.
    - Channels: FIFO delivery, rendezvous, no lost wake-up, close wakes everyone, the closed
      flag of receive; select's choice, publication, round-robin; and the defects found.
    - Scheduler: no step of any interleaving touches freed memory or runs a goroutine twice;
      the count of goroutines is exact; a reported deadlock is one; while all workers are in
      blocking operations, queued goroutines wait for one of those to return.
      Sync: mutual exclusion, counts and lazy creation under every interleaving.
    - Reference counting: under every interleaving there is no use after free and exactly one
      destruction; immortal objects stay, unless a retain is in flight when they become so.
    - Map: refinement of a finite map on key classes, iteration, exact ownership of keys.
    - Slices: append (doubling the capacity) and bulk append against their list specification
      with a frame, for slices at the base of their array with elements of some size; the three
      ways in which growing in place breaks other slices.
    - UTF-8: round trips, and progress and bounds on any bytes.
    - Strings: split and join, and numbers and their text, are inverse; comparison is the byte
      order of the texts; the length a substring stores is one that the functions of package
      strings with C string arguments ignore.

    ** Fuel and bounds

    Scanner loops get the number of unread bytes (plus one) as fuel, and [tokenize_total] shows
    it is enough from every state reached; the bridge gets the length of the text plus two.
    [arena_bump] needs two rounds ([ARENA_FUEL]): a new block always fits.  [grow_loop] gets 65
    rounds, enough for every capacity below 2^62 (beyond 2^63 the C loop itself never ends).
    The comptime engine's only fuel is the depth of user calls ([Deep] when it runs out):
    expressions and statements are structural and its loops have the code's 1000 rounds; a call
    of a program that has a value ends at some depth ([comptime_const_exact]).
    [range_loop] and [runes] get the length of what they walk, the split loops the length of the
    text plus one.  The count theorems of [Arc]
    assume fewer than 2^64 - 2 steps, the append theorems sizes that fit [size_t].  The caps of
    the code are the code's: [MAX_LOCAL_PASSES] rounds of a local fixpoint, [iteration_cap]
    sweeps, the instantiation cap, the ten levels of an embedding search (its fuel is always
    enough), the hundred polls of the deadlock detector, sixty-four entries of each lane table.
    Wait-group counters are C ints, wrapped.

    ** Limits of the models

    The escape semantics covers the statements the passes walk; a range key carries nothing, and
    the block pass is modelled without a soundness theorem.  The runs with releases keep a local's
    objects inside the function (what the escape verdict is asked for), take the calls that the
    summaries clear to return memory of their own, and do not free the elements of a slice or the
    contents of a map with it.  The comptime engine is modelled without positions, leaks and the
    capacities of its arrays; [atof] and the texts of [%g] and [snprintf] are parameters, and the
    runs it is compared with have integers and booleans only.  The scheduler takes a critical
    section as one step and memory as sequentially consistent; that threads and contexts cannot
    be created is not modelled.  In every file: allocation of the small structs themselves,
    statistics, relaxed memory orders and printing are left out.

    ** Not modelled

    Code generation (src/codegen) apart from the reslice header it emits, the grammar and most
    parser actions, the type and expression checkers, contracts and their solver, the driver, package
    lookup, diagnostics, editor support, and of the runtime the text of floats, formatting, I/O, the environment and network transport.

    What comes next would be import resolution, the value scopes of code generation, the contract
    evaluator, the ownership heuristics of types/ownership_checker.c. *)
From Stdlib Require Import ZArith Lia Ascii String Bool.
From stdpp Require Import base list numbers option gmap strings.

#[global] Set Default Goal Selector "!".

(** ** Machine integers: a w-bit unsigned integer is a [Z] kept below 2^w. *)
Definition wrap (w z : Z) : Z := z mod 2 ^ w.
Abbreviation u64 := (wrap 64).
Definition SIZE_MAX : Z := 2 ^ 64 - 1.
Definition in_u64 (z : Z) : Prop := (0 <= z < 2 ^ 64)%Z.

Lemma wrap_range w z : (0 <= w)%Z -> (0 <= wrap w z < 2 ^ w)%Z.
Proof. intros Hw. unfold wrap. apply Z.mod_pos_bound. by apply Z.pow_pos_nonneg. Qed.

Lemma wrap_small w z : (0 <= z < 2 ^ w)%Z -> wrap w z = z.
Proof. intros. unfold wrap. by apply Z.mod_small. Qed.

(** ** Outcomes: a C call either returns a value or ends the process in
    [goo_panic] with its message. *)
Inductive outcome (A : Type) : Type :=
| Ok (a : A)
| Panic (msg : string).
Arguments Ok {A} _.
Arguments Panic {A} _.

Definition obind {A B} (m : outcome A) (f : A -> outcome B) : outcome B :=
  match m with Ok a => f a | Panic s => Panic s end.

Declare Scope goo_scope.
Delimit Scope goo_scope with goo.
Notation "'let*' x ':=' m 'in' k" := (obind m (fun x => k))
  (at level 200, x pattern, m at level 100, k at level 200) : goo_scope.

Lemma obind_Ok_inv {A B} (m : outcome A) (f : A -> outcome B) b :
  obind m f = Ok b -> exists a, m = Ok a /\ f a = Ok b.
Proof. destruct m; simpl; [eauto | done]. Qed.

(** ** Steps of one thread among several. *)
Inductive res (A : Type) : Type :=
| Next (a : A)
| Disabled              (* this thread cannot do that here *)
| Fault (why : string).
Arguments Next {A} _.
Arguments Disabled {A}.
Arguments Fault {A} _.

Definition rbind {A B} (m : res A) (f : A -> res B) : res B :=
  match m with Next a => f a | Disabled => Disabled | Fault w => Fault w end.

(** ** Two lists of one length, compared element by element with early exit. *)
Definition all2 {A B} (f : A -> B -> bool) :=
  fix all2 (xs : list A) (ys : list B) : bool :=
    match xs, ys with
    | [], [] => true
    | x :: xs, y :: ys => if f x y then all2 xs ys else false
    | _, _ => false
    end.

Lemma all2_true {A B} (f : A -> B -> bool) xs ys :
  all2 f xs ys = true <-> Forall2 (fun x y => f x y = true) xs ys.
Proof.
  revert ys. induction xs as [|x xs IH]; intros [|y ys]; simpl.
  - by split.
  - split; [done|inversion 1].
  - split; [done|inversion 1].
  - rewrite Forall2_cons, <- IH. destruct (f x y); intuition done.
Qed.

(** ** Bit-level arithmetic: disjoint fields combine by addition. *)
Lemma land_shiftl_low a d n : (0 <= n)%Z -> (0 <= d < 2 ^ n)%Z -> Z.land (Z.shiftl a n) d = 0%Z.
Proof.
  intros Hn Hd. apply Z.bits_inj'. intros i Hi. rewrite Z.land_spec, Z.bits_0.
  destruct (Z.ltb_spec i n).
  - by rewrite Z.shiftl_spec_low.
  - assert (2 ^ n <= 2 ^ i)%Z by (apply Z.pow_le_mono_r; lia).
    assert (Z.testbit d i = false) as ->; [|by rewrite andb_false_r].
    apply Z.testbit_false; [done|]. by rewrite Z.div_small by lia.
Qed.

Lemma lor_shiftl_add a d n :
  (0 <= n)%Z -> (0 <= d < 2 ^ n)%Z -> Z.lor (Z.shiftl a n) d = (a * 2 ^ n + d)%Z.
Proof.
  intros Hn Hd. pose proof (land_shiftl_low a d n Hn Hd) as H.
  rewrite <- Z.lxor_lor by done. rewrite <- Z.add_nocarry_lxor by done.
  by rewrite Z.shiftl_mul_pow2.
Qed.

(** ** Comparisons: split every [Z] comparison of the goal, closing impossible cases. *)
Ltac zcases :=
  repeat (match goal with
          | |- context [Z.leb ?a ?b] => destruct (Z.leb_spec a b)
          | |- context [Z.ltb ?a ?b] => destruct (Z.ltb_spec a b)
          | |- context [Z.eqb ?a ?b] => destruct (Z.eqb_spec a b)
          end; try lia).
