(* ===== verification/Numeral.v ===== *)
(** * Numeral: reading and printing integers, as libc does it for the compiler and the runtime.

    [strtoull] is the C function on a text without leading blanks (the overflow clamp included);
    printing ([%lld], [%zu]) is [pretty].  The lemmas say that reading a printed number gives it
    back. *)
From Stdlib Require Import ZArith Lia Ascii String Bool.
From stdpp Require Import base list numbers option strings pretty.
From S2P Require Import Prelude.

#[local] Open Scope string_scope.
#[local] Open Scope Z_scope.

(** ** strtoull *)
Definition digit_value (c : ascii) : Z :=
  let n := Z.of_nat (nat_of_ascii c) in
  if (48 <=? n) && (n <=? 57) then n - 48
  else if (97 <=? n) && (n <=? 122) then n - 87
  else if (65 <=? n) && (n <=? 90) then n - 55
  else 99.

(** The value of the longest prefix of digits, and whether there was one. *)
Fixpoint digits (base : Z) (acc : Z) (s : string) : Z :=
  match s with
  | "" => acc
  | String c s => if digit_value c <? base then digits base (acc * base + digit_value c) s else acc
  end.

Definition starts_digit (base : Z) (s : string) : bool :=
  match s with String c _ => digit_value c <? base | "" => false end.

(** The base that a 0 base stands for, and the text after the prefix; a prefix counts only when a
    digit of its base follows. *)
Definition auto_base (s : string) : Z * string :=
  match s with
  | String "0" (String c rest) =>
      if (Ascii.eqb c "x" || Ascii.eqb c "X") && starts_digit 16 rest then (16, rest)
      else if (Ascii.eqb c "b" || Ascii.eqb c "B") && starts_digit 2 rest then (2, rest)
      else (8, s)
  | String "0" "" => (8, s)
  | _ => (10, s)
  end.

Definition strtoull_unsigned (base : Z) (s : string) : Z :=
  let '(b, s) := if base =? 0 then auto_base s else (base, s) in
  Z.min (digits b 0 s) (2 ^ 64 - 1).

(** The overflow clamp comes before the sign, the negation wraps. *)
Definition strtoull (s : string) (base : Z) : Z :=
  match s with
  | String "-" s' => u64 (- strtoull_unsigned base s')
  | String "+" s' => strtoull_unsigned base s'
  | _ => strtoull_unsigned base s
  end.

Lemma digit_value_nonneg c : 0 <= digit_value c.
Proof. unfold digit_value. zcases; simpl; lia. Qed.

Lemma digits_nonneg b a s : 0 <= b -> 0 <= a -> 0 <= digits b a s.
Proof.
  intros Hb. revert a. induction s as [|c s IH]; intros a Ha; simpl; [done|].
  destruct (digit_value c <? b); [|done]. apply IH. pose proof (digit_value_nonneg c). nia.
Qed.

Lemma strtoull_range s b : 0 <= b -> 0 <= strtoull s b < 2 ^ 64.
Proof.
  intros Hb. assert (Hu : forall s, 0 <= strtoull_unsigned b s < 2 ^ 64).
  { intros s'. unfold strtoull_unsigned.
    destruct (if b =? 0 then auto_base s' else (b, s')) as [b' s''] eqn:E.
    assert (0 <= b').
    { destruct (b =? 0); [|congruence]. unfold auto_base in E. repeat case_match; simplify_eq; lia. }
    pose proof (digits_nonneg b' 0 s''). lia. }
  unfold strtoull. repeat case_match; try apply Hu. apply wrap_range. lia.
Qed.

(** ** Reading what was printed *)
Lemma digit_value_char x : (x < 10)%N -> digit_value (pretty_N_char x) = Z.of_N x.
Proof.
  intros Hx. assert (x = 0 \/ x = 1 \/ x = 2 \/ x = 3 \/ x = 4 \/ x = 5 \/ x = 6 \/ x = 7 \/
    x = 8 \/ x = 9)%N as Hc by lia. by destruct_or! Hc; subst.
Qed.

Lemma digits_pretty_go x s : exists k, 0 <= k /\ forall a,
  digits 10 a (pretty_N_go x s) = digits 10 (a * 10 ^ k + Z.of_N x) s.
Proof.
  revert s. induction (N.lt_wf_0 x) as [x _ IH]; intros s.
  destruct (decide (x = 0)%N) as [->|Hx].
  { exists 0. split; [done|]. intros a. rewrite pretty_N_go_0. f_equal. lia. }
  rewrite pretty_N_go_step by lia.
  destruct (IH (x / 10)%N ltac:(apply N.div_lt; lia) (String (pretty_N_char (x mod 10)) s))
    as (k & Hk & Hd).
  exists (k + 1). split; [lia|]. intros a. rewrite Hd. cbn [digits].
  assert (Hm : (x mod 10 < 10)%N) by (by apply N.mod_lt).
  rewrite digit_value_char by done. destruct (Z.ltb_spec (Z.of_N (x mod 10)) 10); [|lia].
  f_equal. rewrite Z.pow_add_r by lia. rewrite (N.div_mod x 10) at 3 by done. lia.
Qed.

Lemma pretty_go_head x s : (0 < x)%N -> exists c rest, pretty_N_go x s = String c rest /\
  digit_value c < 10 /\ c <> "0"%char.
Proof.
  revert s. induction (N.lt_wf_0 x) as [x _ IH]; intros s Hx. rewrite pretty_N_go_step by done.
  destruct (decide (x < 10)%N) as [Hs|Hs].
  - rewrite N.div_small, N.mod_small by done. rewrite pretty_N_go_0. do 2 eexists. split; [done|].
    rewrite digit_value_char by done. split; [lia|].
    assert (x = 1 \/ x = 2 \/ x = 3 \/ x = 4 \/ x = 5 \/ x = 6 \/ x = 7 \/ x = 8 \/ x = 9)%N as Hc
      by lia. by destruct_or! Hc; subst.
  - apply IH; [apply N.div_lt; lia|]. apply N.div_str_pos. lia.
Qed.

Lemma auto_base_head c rest : c <> "0"%char -> auto_base (String c rest) = (10, String c rest).
Proof. intros Hc. unfold auto_base. repeat case_match; simplify_eq; done. Qed.

Lemma strtoull_unsigned_pretty n :
  strtoull_unsigned 0 (pretty n) = Z.min (Z.of_N n) (2 ^ 64 - 1).
Proof.
  destruct (decide (n = 0)%N) as [->|Hx]; [done|].
  unfold pretty, pretty_N. rewrite decide_False by done. unfold strtoull_unsigned.
  rewrite Z.eqb_refl. destruct (pretty_go_head n "" ltac:(lia)) as (c & rest & E & _ & Hc).
  rewrite E, auto_base_head by done. rewrite <- E.
  destruct (digits_pretty_go n "") as (k & _ & ->). done.
Qed.

Lemma pretty_no_sign (n : N) : exists c rest, pretty n = String c rest /\ c <> "-"%char /\ c <> "+"%char.
Proof.
  destruct (decide (n = 0)%N) as [->|Hx]; [by exists "0"%char, ""|].
  unfold pretty, pretty_N. rewrite decide_False by done.
  destruct (pretty_go_head n "" ltac:(lia)) as (c & rest & E & Hd & _). exists c, rest.
  split; [done|]. split; intros ->; done.
Qed.

Lemma strtoull_decimal (n : N) : strtoull (pretty n) 0 = Z.min (Z.of_N n) (2 ^ 64 - 1).
Proof.
  destruct (pretty_no_sign n) as (c & rest & E & Hm & Hp). rewrite <- strtoull_unsigned_pretty.
  unfold strtoull. rewrite E. repeat case_match; simplify_eq; done.
Qed.

(** Reading back a printed 64-bit integer, signed or unsigned. *)
Lemma strtoull_pretty z : - 2 ^ 63 <= z < 2 ^ 64 -> strtoull (pretty z) 0 = u64 z.
Proof.
  intros Hz. destruct z as [|p|p].
  - done.
  - change (pretty (Zpos p)) with (pretty (Npos p)).
    rewrite strtoull_decimal, wrap_small by lia. lia.
  - change (pretty (Zneg p)) with (String "-" (pretty (Npos p))). unfold strtoull.
    rewrite strtoull_unsigned_pretty. f_equal. lia.
Qed.
