(* ===== verification/Token.v ===== *)
(** * Token: token kinds, positions and the keyword table.

    Models [include/token.h] and [src/lexer/token.c]: the [TokenType] enum, the
    [Position] and [Token] structs, [token_new], [token_copy], the keyword table
    and its two scans, and the [token_strings] name table. *)
From Stdlib Require Import ZArith Lia Ascii String Bool.
From stdpp Require Import base list numbers option strings.
From S2P Require Import Prelude.

(** ** [TokenType], in the order of the enum. *)
Inductive TokenType : Set :=
| TOKEN_EOF
| TOKEN_IDENT
| TOKEN_INT
| TOKEN_FLOAT
| TOKEN_STRING
| TOKEN_CHAR
| TOKEN_TRUE
| TOKEN_FALSE
| TOKEN_NIL
| TOKEN_BREAK
| TOKEN_CASE
| TOKEN_CHAN
| TOKEN_CONST
| TOKEN_CONTINUE
| TOKEN_DEFAULT
| TOKEN_DEFER
| TOKEN_ELSE
| TOKEN_FALLTHROUGH
| TOKEN_FOR
| TOKEN_FUNC
| TOKEN_GO
| TOKEN_GOTO
| TOKEN_IF
| TOKEN_IMPORT
| TOKEN_INTERFACE
| TOKEN_MAP
| TOKEN_PACKAGE
| TOKEN_RANGE
| TOKEN_RETURN
| TOKEN_SELECT
| TOKEN_STRUCT
| TOKEN_ENUM
| TOKEN_SWITCH
| TOKEN_TYPE
| TOKEN_VAR
| TOKEN_COMPTIME
| TOKEN_CONCEPT
| TOKEN_PUB
| TOKEN_SUB
| TOKEN_REQ
| TOKEN_REP
| TOKEN_PUSH
| TOKEN_PULL
| TOKEN_TRY
| TOKEN_CATCH
| TOKEN_UNSAFE
| TOKEN_ASM
| TOKEN_EXTERN
| TOKEN_FROM
| TOKEN_VOLATILE
| TOKEN_INLINE
| TOKEN_NO_STD
| TOKEN_PARALLEL
| TOKEN_REDUCE
| TOKEN_BARRIER
| TOKEN_ATOMIC
| TOKEN_THREAD_LOCAL
| TOKEN_OWNED
| TOKEN_BORROWED
| TOKEN_SHARED
| TOKEN_LET
| TOKEN_MATCH
| TOKEN_KERNEL
| TOKEN_DEVICE
| TOKEN_HOST
| TOKEN_GLOBAL
| TOKEN_SHARED_MEM
| TOKEN_CONSTANT
| TOKEN_LOCAL
| TOKEN_WASM
| TOKEN_EXPORT
| TOKEN_MEMORY
| TOKEN_TABLE
| TOKEN_GLOBAL_WASM
| TOKEN_FUNC_WASM
| TOKEN_TYPE_WASM
| TOKEN_START
| TOKEN_ELEM
| TOKEN_DATA
| TOKEN_PLUS
| TOKEN_MINUS
| TOKEN_MULTIPLY
| TOKEN_DIVIDE
| TOKEN_MODULO
| TOKEN_ASSIGN
| TOKEN_SHORT_ASSIGN
| TOKEN_PLUS_ASSIGN
| TOKEN_MINUS_ASSIGN
| TOKEN_MUL_ASSIGN
| TOKEN_DIV_ASSIGN
| TOKEN_MOD_ASSIGN
| TOKEN_AND_ASSIGN
| TOKEN_OR_ASSIGN
| TOKEN_XOR_ASSIGN
| TOKEN_LSHIFT_ASSIGN
| TOKEN_RSHIFT_ASSIGN
| TOKEN_EQ
| TOKEN_NE
| TOKEN_LT
| TOKEN_LE
| TOKEN_GT
| TOKEN_GE
| TOKEN_AND
| TOKEN_OR
| TOKEN_NOT
| TOKEN_BIT_AND
| TOKEN_BIT_OR
| TOKEN_BIT_XOR
| TOKEN_BIT_NOT
| TOKEN_LSHIFT
| TOKEN_RSHIFT
| TOKEN_INCREMENT
| TOKEN_DECREMENT
| TOKEN_ARROW
| TOKEN_BANG
| TOKEN_QUESTION
| TOKEN_TRY_OP
| TOKEN_CATCH_OP
| TOKEN_DEREF
| TOKEN_ADDR_OF
| TOKEN_ATTRIBUTE
| TOKEN_LPAREN
| TOKEN_RPAREN
| TOKEN_LBRACE
| TOKEN_RBRACE
| TOKEN_LBRACKET
| TOKEN_RBRACKET
| TOKEN_SEMICOLON
| TOKEN_COMMA
| TOKEN_DOT
| TOKEN_COLON
| TOKEN_ELLIPSIS
| TOKEN_NEWLINE
| TOKEN_ERROR
| TOKEN_UNKNOWN
| TOKEN_AND_NOT
| TOKEN_ARENA
| TOKEN_FAT_ARROW.

(** The numeric value of an enumerator: C numbers them from 0 in order. *)
Definition token_code (t : TokenType) : nat :=
  match t with
  | TOKEN_EOF => 0
  | TOKEN_IDENT => 1
  | TOKEN_INT => 2
  | TOKEN_FLOAT => 3
  | TOKEN_STRING => 4
  | TOKEN_CHAR => 5
  | TOKEN_TRUE => 6
  | TOKEN_FALSE => 7
  | TOKEN_NIL => 8
  | TOKEN_BREAK => 9
  | TOKEN_CASE => 10
  | TOKEN_CHAN => 11
  | TOKEN_CONST => 12
  | TOKEN_CONTINUE => 13
  | TOKEN_DEFAULT => 14
  | TOKEN_DEFER => 15
  | TOKEN_ELSE => 16
  | TOKEN_FALLTHROUGH => 17
  | TOKEN_FOR => 18
  | TOKEN_FUNC => 19
  | TOKEN_GO => 20
  | TOKEN_GOTO => 21
  | TOKEN_IF => 22
  | TOKEN_IMPORT => 23
  | TOKEN_INTERFACE => 24
  | TOKEN_MAP => 25
  | TOKEN_PACKAGE => 26
  | TOKEN_RANGE => 27
  | TOKEN_RETURN => 28
  | TOKEN_SELECT => 29
  | TOKEN_STRUCT => 30
  | TOKEN_ENUM => 31
  | TOKEN_SWITCH => 32
  | TOKEN_TYPE => 33
  | TOKEN_VAR => 34
  | TOKEN_COMPTIME => 35
  | TOKEN_CONCEPT => 36
  | TOKEN_PUB => 37
  | TOKEN_SUB => 38
  | TOKEN_REQ => 39
  | TOKEN_REP => 40
  | TOKEN_PUSH => 41
  | TOKEN_PULL => 42
  | TOKEN_TRY => 43
  | TOKEN_CATCH => 44
  | TOKEN_UNSAFE => 45
  | TOKEN_ASM => 46
  | TOKEN_EXTERN => 47
  | TOKEN_FROM => 48
  | TOKEN_VOLATILE => 49
  | TOKEN_INLINE => 50
  | TOKEN_NO_STD => 51
  | TOKEN_PARALLEL => 52
  | TOKEN_REDUCE => 53
  | TOKEN_BARRIER => 54
  | TOKEN_ATOMIC => 55
  | TOKEN_THREAD_LOCAL => 56
  | TOKEN_OWNED => 57
  | TOKEN_BORROWED => 58
  | TOKEN_SHARED => 59
  | TOKEN_LET => 60
  | TOKEN_MATCH => 61
  | TOKEN_KERNEL => 62
  | TOKEN_DEVICE => 63
  | TOKEN_HOST => 64
  | TOKEN_GLOBAL => 65
  | TOKEN_SHARED_MEM => 66
  | TOKEN_CONSTANT => 67
  | TOKEN_LOCAL => 68
  | TOKEN_WASM => 69
  | TOKEN_EXPORT => 70
  | TOKEN_MEMORY => 71
  | TOKEN_TABLE => 72
  | TOKEN_GLOBAL_WASM => 73
  | TOKEN_FUNC_WASM => 74
  | TOKEN_TYPE_WASM => 75
  | TOKEN_START => 76
  | TOKEN_ELEM => 77
  | TOKEN_DATA => 78
  | TOKEN_PLUS => 79
  | TOKEN_MINUS => 80
  | TOKEN_MULTIPLY => 81
  | TOKEN_DIVIDE => 82
  | TOKEN_MODULO => 83
  | TOKEN_ASSIGN => 84
  | TOKEN_SHORT_ASSIGN => 85
  | TOKEN_PLUS_ASSIGN => 86
  | TOKEN_MINUS_ASSIGN => 87
  | TOKEN_MUL_ASSIGN => 88
  | TOKEN_DIV_ASSIGN => 89
  | TOKEN_MOD_ASSIGN => 90
  | TOKEN_AND_ASSIGN => 91
  | TOKEN_OR_ASSIGN => 92
  | TOKEN_XOR_ASSIGN => 93
  | TOKEN_LSHIFT_ASSIGN => 94
  | TOKEN_RSHIFT_ASSIGN => 95
  | TOKEN_EQ => 96
  | TOKEN_NE => 97
  | TOKEN_LT => 98
  | TOKEN_LE => 99
  | TOKEN_GT => 100
  | TOKEN_GE => 101
  | TOKEN_AND => 102
  | TOKEN_OR => 103
  | TOKEN_NOT => 104
  | TOKEN_BIT_AND => 105
  | TOKEN_BIT_OR => 106
  | TOKEN_BIT_XOR => 107
  | TOKEN_BIT_NOT => 108
  | TOKEN_LSHIFT => 109
  | TOKEN_RSHIFT => 110
  | TOKEN_INCREMENT => 111
  | TOKEN_DECREMENT => 112
  | TOKEN_ARROW => 113
  | TOKEN_BANG => 114
  | TOKEN_QUESTION => 115
  | TOKEN_TRY_OP => 116
  | TOKEN_CATCH_OP => 117
  | TOKEN_DEREF => 118
  | TOKEN_ADDR_OF => 119
  | TOKEN_ATTRIBUTE => 120
  | TOKEN_LPAREN => 121
  | TOKEN_RPAREN => 122
  | TOKEN_LBRACE => 123
  | TOKEN_RBRACE => 124
  | TOKEN_LBRACKET => 125
  | TOKEN_RBRACKET => 126
  | TOKEN_SEMICOLON => 127
  | TOKEN_COMMA => 128
  | TOKEN_DOT => 129
  | TOKEN_COLON => 130
  | TOKEN_ELLIPSIS => 131
  | TOKEN_NEWLINE => 132
  | TOKEN_ERROR => 133
  | TOKEN_UNKNOWN => 134
  | TOKEN_AND_NOT => 135
  | TOKEN_ARENA => 136
  | TOKEN_FAT_ARROW => 137
  end.

(** Every enumerator, in order: the inverse of [token_code]. *)
Definition token_types : list TokenType :=
  [TOKEN_EOF; TOKEN_IDENT; TOKEN_INT; TOKEN_FLOAT;
   TOKEN_STRING; TOKEN_CHAR; TOKEN_TRUE; TOKEN_FALSE;
   TOKEN_NIL; TOKEN_BREAK; TOKEN_CASE; TOKEN_CHAN;
   TOKEN_CONST; TOKEN_CONTINUE; TOKEN_DEFAULT; TOKEN_DEFER;
   TOKEN_ELSE; TOKEN_FALLTHROUGH; TOKEN_FOR; TOKEN_FUNC;
   TOKEN_GO; TOKEN_GOTO; TOKEN_IF; TOKEN_IMPORT;
   TOKEN_INTERFACE; TOKEN_MAP; TOKEN_PACKAGE; TOKEN_RANGE;
   TOKEN_RETURN; TOKEN_SELECT; TOKEN_STRUCT; TOKEN_ENUM;
   TOKEN_SWITCH; TOKEN_TYPE; TOKEN_VAR; TOKEN_COMPTIME;
   TOKEN_CONCEPT; TOKEN_PUB; TOKEN_SUB; TOKEN_REQ;
   TOKEN_REP; TOKEN_PUSH; TOKEN_PULL; TOKEN_TRY;
   TOKEN_CATCH; TOKEN_UNSAFE; TOKEN_ASM; TOKEN_EXTERN;
   TOKEN_FROM; TOKEN_VOLATILE; TOKEN_INLINE; TOKEN_NO_STD;
   TOKEN_PARALLEL; TOKEN_REDUCE; TOKEN_BARRIER; TOKEN_ATOMIC;
   TOKEN_THREAD_LOCAL; TOKEN_OWNED; TOKEN_BORROWED; TOKEN_SHARED;
   TOKEN_LET; TOKEN_MATCH; TOKEN_KERNEL; TOKEN_DEVICE;
   TOKEN_HOST; TOKEN_GLOBAL; TOKEN_SHARED_MEM; TOKEN_CONSTANT;
   TOKEN_LOCAL; TOKEN_WASM; TOKEN_EXPORT; TOKEN_MEMORY;
   TOKEN_TABLE; TOKEN_GLOBAL_WASM; TOKEN_FUNC_WASM; TOKEN_TYPE_WASM;
   TOKEN_START; TOKEN_ELEM; TOKEN_DATA; TOKEN_PLUS;
   TOKEN_MINUS; TOKEN_MULTIPLY; TOKEN_DIVIDE; TOKEN_MODULO;
   TOKEN_ASSIGN; TOKEN_SHORT_ASSIGN; TOKEN_PLUS_ASSIGN; TOKEN_MINUS_ASSIGN;
   TOKEN_MUL_ASSIGN; TOKEN_DIV_ASSIGN; TOKEN_MOD_ASSIGN; TOKEN_AND_ASSIGN;
   TOKEN_OR_ASSIGN; TOKEN_XOR_ASSIGN; TOKEN_LSHIFT_ASSIGN; TOKEN_RSHIFT_ASSIGN;
   TOKEN_EQ; TOKEN_NE; TOKEN_LT; TOKEN_LE;
   TOKEN_GT; TOKEN_GE; TOKEN_AND; TOKEN_OR;
   TOKEN_NOT; TOKEN_BIT_AND; TOKEN_BIT_OR; TOKEN_BIT_XOR;
   TOKEN_BIT_NOT; TOKEN_LSHIFT; TOKEN_RSHIFT; TOKEN_INCREMENT;
   TOKEN_DECREMENT; TOKEN_ARROW; TOKEN_BANG; TOKEN_QUESTION;
   TOKEN_TRY_OP; TOKEN_CATCH_OP; TOKEN_DEREF; TOKEN_ADDR_OF;
   TOKEN_ATTRIBUTE; TOKEN_LPAREN; TOKEN_RPAREN; TOKEN_LBRACE;
   TOKEN_RBRACE; TOKEN_LBRACKET; TOKEN_RBRACKET; TOKEN_SEMICOLON;
   TOKEN_COMMA; TOKEN_DOT; TOKEN_COLON; TOKEN_ELLIPSIS;
   TOKEN_NEWLINE; TOKEN_ERROR; TOKEN_UNKNOWN; TOKEN_AND_NOT;
   TOKEN_ARENA; TOKEN_FAT_ARROW].

Definition TOKEN_COUNT : nat := 138.

Lemma token_types_code (t : TokenType) : token_types !! token_code t = Some t.
Proof. by destruct t. Qed.

#[export] Instance token_code_inj : Inj (=) (=) token_code.
Proof.
  intros a b H. pose proof (token_types_code a) as Ha. rewrite H in Ha.
  rewrite token_types_code in Ha. by inversion Ha.
Qed.

(** C compares enumerators by value. *)
#[export] Instance TokenType_eq_dec : EqDecision TokenType :=
  fun a b =>
    match decide (token_code a = token_code b) with
    | left e => left (inj token_code a b e)
    | right n => right (fun e => n (f_equal token_code e))
    end.

Definition token_eqb (a b : TokenType) : bool := (token_code a =? token_code b)%nat.

Lemma token_eqb_spec a b : token_eqb a b = true <-> a = b.
Proof.
  unfold token_eqb. rewrite Nat.eqb_eq. split; [apply (inj token_code) | by intros ->].
Qed.

(** ** [token_strings]: designated initialisers; an enumerator without one is NULL. *)
Definition token_strings (t : TokenType) : option string :=
  match t with
  | TOKEN_EOF => Some "EOF"%string
  | TOKEN_IDENT => Some "IDENT"%string
  | TOKEN_INT => Some "INT"%string
  | TOKEN_FLOAT => Some "FLOAT"%string
  | TOKEN_STRING => Some "STRING"%string
  | TOKEN_CHAR => Some "CHAR"%string
  | TOKEN_TRUE => Some "TRUE"%string
  | TOKEN_FALSE => Some "FALSE"%string
  | TOKEN_NIL => Some "NIL"%string
  | TOKEN_BREAK => Some "BREAK"%string
  | TOKEN_CASE => Some "CASE"%string
  | TOKEN_CHAN => Some "CHAN"%string
  | TOKEN_CONST => Some "CONST"%string
  | TOKEN_CONTINUE => Some "CONTINUE"%string
  | TOKEN_DEFAULT => Some "DEFAULT"%string
  | TOKEN_DEFER => Some "DEFER"%string
  | TOKEN_ELSE => Some "ELSE"%string
  | TOKEN_FALLTHROUGH => Some "FALLTHROUGH"%string
  | TOKEN_FOR => Some "FOR"%string
  | TOKEN_FUNC => Some "FUNC"%string
  | TOKEN_GO => Some "GO"%string
  | TOKEN_GOTO => Some "GOTO"%string
  | TOKEN_IF => Some "IF"%string
  | TOKEN_IMPORT => Some "IMPORT"%string
  | TOKEN_INTERFACE => Some "INTERFACE"%string
  | TOKEN_MAP => Some "MAP"%string
  | TOKEN_PACKAGE => Some "PACKAGE"%string
  | TOKEN_RANGE => Some "RANGE"%string
  | TOKEN_RETURN => Some "RETURN"%string
  | TOKEN_SELECT => Some "SELECT"%string
  | TOKEN_STRUCT => Some "STRUCT"%string
  | TOKEN_ENUM => Some "ENUM"%string
  | TOKEN_SWITCH => Some "SWITCH"%string
  | TOKEN_TYPE => Some "TYPE"%string
  | TOKEN_VAR => Some "VAR"%string
  | TOKEN_COMPTIME => Some "COMPTIME"%string
  | TOKEN_CONCEPT => Some "CONCEPT"%string
  | TOKEN_PUB => Some "PUB"%string
  | TOKEN_SUB => Some "SUB"%string
  | TOKEN_REQ => Some "REQ"%string
  | TOKEN_REP => Some "REP"%string
  | TOKEN_PUSH => Some "PUSH"%string
  | TOKEN_PULL => Some "PULL"%string
  | TOKEN_TRY => Some "TRY"%string
  | TOKEN_CATCH => Some "CATCH"%string
  | TOKEN_UNSAFE => Some "UNSAFE"%string
  | TOKEN_ASM => Some "ASM"%string
  | TOKEN_EXTERN => Some "EXTERN"%string
  | TOKEN_FROM => Some "FROM"%string
  | TOKEN_VOLATILE => Some "VOLATILE"%string
  | TOKEN_INLINE => Some "INLINE"%string
  | TOKEN_NO_STD => Some "NO_STD"%string
  | TOKEN_PARALLEL => Some "PARALLEL"%string
  | TOKEN_REDUCE => Some "REDUCE"%string
  | TOKEN_BARRIER => Some "BARRIER"%string
  | TOKEN_ATOMIC => Some "ATOMIC"%string
  | TOKEN_THREAD_LOCAL => Some "THREAD_LOCAL"%string
  | TOKEN_OWNED => Some "OWNED"%string
  | TOKEN_BORROWED => Some "BORROWED"%string
  | TOKEN_SHARED => Some "SHARED"%string
  | TOKEN_LET => Some "LET"%string
  | TOKEN_MATCH => Some "MATCH"%string
  | TOKEN_KERNEL => Some "KERNEL"%string
  | TOKEN_DEVICE => Some "DEVICE"%string
  | TOKEN_HOST => Some "HOST"%string
  | TOKEN_GLOBAL => Some "GLOBAL"%string
  | TOKEN_SHARED_MEM => Some "SHARED_MEM"%string
  | TOKEN_CONSTANT => Some "CONSTANT"%string
  | TOKEN_LOCAL => Some "LOCAL"%string
  | TOKEN_WASM => Some "WASM"%string
  | TOKEN_EXPORT => Some "EXPORT"%string
  | TOKEN_MEMORY => Some "MEMORY"%string
  | TOKEN_TABLE => Some "TABLE"%string
  | TOKEN_GLOBAL_WASM => Some "GLOBAL_WASM"%string
  | TOKEN_FUNC_WASM => Some "FUNC_WASM"%string
  | TOKEN_TYPE_WASM => Some "TYPE_WASM"%string
  | TOKEN_START => Some "START"%string
  | TOKEN_ELEM => Some "ELEM"%string
  | TOKEN_DATA => Some "DATA"%string
  | TOKEN_PLUS => Some "PLUS"%string
  | TOKEN_MINUS => Some "MINUS"%string
  | TOKEN_MULTIPLY => Some "MULTIPLY"%string
  | TOKEN_DIVIDE => Some "DIVIDE"%string
  | TOKEN_MODULO => Some "MODULO"%string
  | TOKEN_ASSIGN => Some "ASSIGN"%string
  | TOKEN_SHORT_ASSIGN => Some "SHORT_ASSIGN"%string
  | TOKEN_PLUS_ASSIGN => Some "PLUS_ASSIGN"%string
  | TOKEN_MINUS_ASSIGN => Some "MINUS_ASSIGN"%string
  | TOKEN_MUL_ASSIGN => Some "MUL_ASSIGN"%string
  | TOKEN_DIV_ASSIGN => Some "DIV_ASSIGN"%string
  | TOKEN_MOD_ASSIGN => Some "MOD_ASSIGN"%string
  | TOKEN_AND_ASSIGN => Some "AND_ASSIGN"%string
  | TOKEN_OR_ASSIGN => Some "OR_ASSIGN"%string
  | TOKEN_XOR_ASSIGN => Some "XOR_ASSIGN"%string
  | TOKEN_LSHIFT_ASSIGN => Some "LSHIFT_ASSIGN"%string
  | TOKEN_RSHIFT_ASSIGN => Some "RSHIFT_ASSIGN"%string
  | TOKEN_EQ => Some "EQ"%string
  | TOKEN_NE => Some "NE"%string
  | TOKEN_LT => Some "LT"%string
  | TOKEN_LE => Some "LE"%string
  | TOKEN_GT => Some "GT"%string
  | TOKEN_GE => Some "GE"%string
  | TOKEN_AND => Some "AND"%string
  | TOKEN_OR => Some "OR"%string
  | TOKEN_NOT => Some "NOT"%string
  | TOKEN_BIT_AND => Some "BIT_AND"%string
  | TOKEN_BIT_OR => Some "BIT_OR"%string
  | TOKEN_BIT_XOR => Some "BIT_XOR"%string
  | TOKEN_BIT_NOT => Some "BIT_NOT"%string
  | TOKEN_LSHIFT => Some "LSHIFT"%string
  | TOKEN_RSHIFT => Some "RSHIFT"%string
  | TOKEN_INCREMENT => Some "INCREMENT"%string
  | TOKEN_DECREMENT => Some "DECREMENT"%string
  | TOKEN_ARROW => Some "ARROW"%string
  | TOKEN_BANG => Some "BANG"%string
  | TOKEN_QUESTION => Some "QUESTION"%string
  | TOKEN_TRY_OP => Some "TRY_OP"%string
  | TOKEN_CATCH_OP => Some "CATCH_OP"%string
  | TOKEN_DEREF => Some "DEREF"%string
  | TOKEN_ADDR_OF => Some "ADDR_OF"%string
  | TOKEN_ATTRIBUTE => Some "ATTRIBUTE"%string
  | TOKEN_LPAREN => Some "LPAREN"%string
  | TOKEN_RPAREN => Some "RPAREN"%string
  | TOKEN_LBRACE => Some "LBRACE"%string
  | TOKEN_RBRACE => Some "RBRACE"%string
  | TOKEN_LBRACKET => Some "LBRACKET"%string
  | TOKEN_RBRACKET => Some "RBRACKET"%string
  | TOKEN_SEMICOLON => Some "SEMICOLON"%string
  | TOKEN_COMMA => Some "COMMA"%string
  | TOKEN_DOT => Some "DOT"%string
  | TOKEN_COLON => Some "COLON"%string
  | TOKEN_ELLIPSIS => Some "ELLIPSIS"%string
  | TOKEN_NEWLINE => Some "NEWLINE"%string
  | TOKEN_ERROR => Some "ERROR"%string
  | TOKEN_UNKNOWN => Some "UNKNOWN"%string
  | TOKEN_ARENA => Some "ARENA"%string
  | _ => None
  end.

(** [token_type_string]: the argument is any C [int] value of the enum type. *)
Definition token_type_string (ty : Z) : option string :=
  if (0 <=? ty)%Z && (ty <? Z.of_nat TOKEN_COUNT)%Z then
    match token_types !! Z.to_nat ty with
    | Some t => token_strings t
    | None => None
    end
  else Some "INVALID"%string.

(** ** [keywords]: the table, sentinel excluded. *)
Definition keywords : list (string * TokenType) :=
  [("break"%string, TOKEN_BREAK);
   ("case"%string, TOKEN_CASE);
   ("chan"%string, TOKEN_CHAN);
   ("const"%string, TOKEN_CONST);
   ("continue"%string, TOKEN_CONTINUE);
   ("default"%string, TOKEN_DEFAULT);
   ("defer"%string, TOKEN_DEFER);
   ("else"%string, TOKEN_ELSE);
   ("enum"%string, TOKEN_ENUM);
   ("fallthrough"%string, TOKEN_FALLTHROUGH);
   ("false"%string, TOKEN_FALSE);
   ("for"%string, TOKEN_FOR);
   ("func"%string, TOKEN_FUNC);
   ("go"%string, TOKEN_GO);
   ("goto"%string, TOKEN_GOTO);
   ("if"%string, TOKEN_IF);
   ("import"%string, TOKEN_IMPORT);
   ("interface"%string, TOKEN_INTERFACE);
   ("map"%string, TOKEN_MAP);
   ("nil"%string, TOKEN_NIL);
   ("package"%string, TOKEN_PACKAGE);
   ("range"%string, TOKEN_RANGE);
   ("return"%string, TOKEN_RETURN);
   ("select"%string, TOKEN_SELECT);
   ("struct"%string, TOKEN_STRUCT);
   ("switch"%string, TOKEN_SWITCH);
   ("true"%string, TOKEN_TRUE);
   ("type"%string, TOKEN_TYPE);
   ("var"%string, TOKEN_VAR);
   ("comptime"%string, TOKEN_COMPTIME);
   ("concept"%string, TOKEN_CONCEPT);
   ("msg_pub"%string, TOKEN_PUB);
   ("msg_sub"%string, TOKEN_SUB);
   ("msg_req"%string, TOKEN_REQ);
   ("msg_rep"%string, TOKEN_REP);
   ("msg_push"%string, TOKEN_PUSH);
   ("msg_pull"%string, TOKEN_PULL);
   ("try"%string, TOKEN_TRY);
   ("catch"%string, TOKEN_CATCH);
   ("unsafe"%string, TOKEN_UNSAFE);
   ("arena"%string, TOKEN_ARENA);
   ("own_owned"%string, TOKEN_OWNED);
   ("own_borrowed"%string, TOKEN_BORROWED);
   ("own_shared"%string, TOKEN_SHARED);
   ("let"%string, TOKEN_LET);
   ("match"%string, TOKEN_MATCH)].

(** [token_is_keyword]: scan for an entry with the same spelling. *)
Fixpoint scan_is_keyword (entries : list (string * TokenType)) (literal : string) : bool :=
  match entries with
  | [] => false
  | (k, _) :: rest => if String.eqb literal k then true else scan_is_keyword rest literal
  end.

Definition token_is_keyword (literal : string) : bool := scan_is_keyword keywords literal.

(** [token_keyword_type]: the type of the first entry with that spelling. *)
Fixpoint scan_keyword_type (entries : list (string * TokenType)) (literal : string) : TokenType :=
  match entries with
  | [] => TOKEN_IDENT
  | (k, t) :: rest => if String.eqb literal k then t else scan_keyword_type rest literal
  end.

Definition token_keyword_type (literal : string) : TokenType := scan_keyword_type keywords literal.

(** ** [Position]: line, column and byte offset (the file name is constant for a lexer). *)
Record Position : Set := mkPos { line : Z; column : Z; offset : nat }.

(** ** [Token]: its literal is NULL or [length] bytes (the terminator not included). *)
Record Token : Set := mkToken {
  tok_type : TokenType;
  tok_literal : option (list ascii);
  tok_length : nat;
  tok_pos : Position
}.

(** [token_new] copies [length] bytes from [literal].  [literal] is the C string,
    so the byte after its last character is the terminator. *)
Definition token_new (ty : TokenType) (literal : option (list ascii)) (length : nat)
    (p : Position) : Token :=
  {| tok_type := ty;
     tok_literal := option_map (fun l => take length (l ++ [zero])) literal;
     tok_length := length;
     tok_pos := p |}.

(** [token_copy] of a non-NULL token. *)
Definition token_copy (t : Token) : Token :=
  token_new (tok_type t) (tok_literal t) (tok_length t) (tok_pos t).
