(* ===== verification/Lexer.v ===== *)
(** * Lexer: the scanner of [src/lexer/lexer.c].

    State ([Lexer], include/lexer.h), character reading, literal readers, automatic
    semicolon insertion (ASI) and [lexer_next_token].  C's [char] is [ascii]; the
    input is the C string's bytes (no NUL inside it), [ch = zero] means end of input.
    [isalpha]/[isdigit]/[isxdigit] are the "C"-locale classes: false on bytes above 127.
    The loops of the C code that consume characters carry fuel; [LexerFacts] proves
    that the fuel given here is enough for every lexer state the code can reach. *)
From Stdlib Require Import ZArith Lia Ascii String Bool.
From stdpp Require Import base list numbers option strings pretty.
From S2P Require Import Prelude Token.

(** ** Character classes. *)
Definition code (c : ascii) : nat := nat_of_ascii c.
Definition in_range (lo hi c : ascii) : bool := (code lo <=? code c)%nat && (code c <=? code hi)%nat.

Definition isalpha (c : ascii) : bool := in_range "a" "z" c || in_range "A" "Z" c.
Definition isdigit (c : ascii) : bool := in_range "0" "9" c.
Definition isxdigit (c : ascii) : bool :=
  in_range "0" "9" c || in_range "a" "f" c || in_range "A" "F" c.

Definition lexer_is_letter (c : ascii) : bool := isalpha c || Ascii.eqb c "_".
Definition lexer_is_digit (c : ascii) : bool := isdigit c.
Definition lexer_is_hex_digit (c : ascii) : bool := isxdigit c.
Definition tab : ascii := "009".
Definition newline : ascii := "010".
Definition carriage_return : ascii := "013".
Definition lexer_is_whitespace (c : ascii) : bool :=
  Ascii.eqb c " " || Ascii.eqb c tab || Ascii.eqb c carriage_return.

(** ** The lexer state.  [error_count] is the global [goo_lexer_error_count], which
    [lexer_new] resets; [asi_ctx] is the 256-entry bracket stack. *)
Record Lexer : Set := mkLexer {
  input : list ascii;
  input_length : nat;
  position : nat;
  read_position : nat;
  ch : ascii;
  pos : Position;
  prev_token_type : TokenType;
  asi_ctx : list bool;
  asi_depth : Z;
  error_count : nat
}.

Definition ASI_CTX_SIZE : Z := 256.

Definition set_prev (t : TokenType) (lx : Lexer) : Lexer :=
  mkLexer (input lx) (input_length lx) (position lx) (read_position lx) (ch lx) (pos lx)
          t (asi_ctx lx) (asi_depth lx) (error_count lx).
Definition set_asi (ctx : list bool) (d : Z) (lx : Lexer) : Lexer :=
  mkLexer (input lx) (input_length lx) (position lx) (read_position lx) (ch lx) (pos lx)
          (prev_token_type lx) ctx d (error_count lx).
Definition bump_errors (lx : Lexer) : Lexer :=
  mkLexer (input lx) (input_length lx) (position lx) (read_position lx) (ch lx) (pos lx)
          (prev_token_type lx) (asi_ctx lx) (asi_depth lx) (S (error_count lx)).

(** [input\[i\]]; indices used by the code are below [input_length]. *)
Definition char_at (lx : Lexer) (i : nat) : ascii := nth i (input lx) zero.

(** ** Character reading. *)
Definition lexer_read_char (lx : Lexer) : Lexer :=
  let p := pos lx in
  let '(l, c) :=
    if Ascii.eqb (ch lx) newline then ((line p + 1)%Z, 1%Z)
    else if negb (Ascii.eqb (ch lx) zero) then (line p, (column p + 1)%Z)
    else (line p, column p) in
  let next := if (input_length lx <=? read_position lx)%nat then zero
              else char_at lx (read_position lx) in
  mkLexer (input lx) (input_length lx) (read_position lx) (S (read_position lx)) next
          (mkPos l c (read_position lx))
          (prev_token_type lx) (asi_ctx lx) (asi_depth lx) (error_count lx).

Definition lexer_peek_char (lx : Lexer) : ascii :=
  if (input_length lx <=? read_position lx)%nat then zero else char_at lx (read_position lx).

(** [strlen]: bytes before the first NUL. *)
Fixpoint strlen (s : list ascii) : nat :=
  match s with
  | [] => 0
  | c :: s' => if Ascii.eqb c zero then 0 else S (strlen s')
  end.

Definition lexer_new (src : list ascii) : Lexer :=
  lexer_read_char
    (mkLexer src (strlen src) 0 0 zero (mkPos 1 1 0) TOKEN_SEMICOLON
             (replicate (Z.to_nat ASI_CTX_SIZE) false) 0 0).

(** [while (cond) lexer_read_char(lexer)], the loop shape of every scanner below. *)
Fixpoint read_while (cond : Lexer -> bool) (fuel : nat) (lx : Lexer) : Lexer :=
  match fuel with
  | O => lx
  | S f => if cond lx then read_while cond f (lexer_read_char lx) else lx
  end.

(** Characters left to read: an upper bound on the steps of any such loop. *)
Definition left_to_read (lx : Lexer) : nat := input_length lx - position lx.

Definition lexer_skip_whitespace (lx : Lexer) : Lexer :=
  read_while (fun l => lexer_is_whitespace (ch l) && negb (Ascii.eqb (ch l) newline))
             (S (left_to_read lx)) lx.

(** ** Automatic semicolon insertion. *)
Definition token_ends_value (t : TokenType) : bool :=
  match t with
  | TOKEN_IDENT | TOKEN_INT | TOKEN_FLOAT | TOKEN_STRING | TOKEN_CHAR
  | TOKEN_TRUE | TOKEN_FALSE | TOKEN_NIL
  | TOKEN_RPAREN | TOKEN_RBRACKET | TOKEN_RBRACE
  | TOKEN_INCREMENT | TOKEN_DECREMENT => true
  | _ => false
  end.

Definition lexer_line_starts_with_else (lx : Lexer) : bool :=
  let rp := read_position lx in
  if negb (Ascii.eqb (ch lx) "e") then false
  else if (input_length lx <=? rp + 2)%nat then false
  else if negb (Ascii.eqb (char_at lx rp) "l") || negb (Ascii.eqb (char_at lx (rp + 1)) "s")
          || negb (Ascii.eqb (char_at lx (rp + 2)) "e") then false
  else if (rp + 3 <? input_length lx)%nat then
    let after := char_at lx (rp + 3) in
    negb (in_range "a" "z" after || in_range "A" "Z" after || in_range "0" "9" after
          || Ascii.eqb after "_")
  else true.

(** ** Literal readers.  The substring between two positions of the input. *)
Definition slice_of (lx : Lexer) (start len : nat) : list ascii :=
  take len (drop start (input lx)).

Definition lexer_read_identifier (lx : Lexer) : list ascii * nat * Lexer :=
  let start := position lx in
  let lx' := read_while (fun l => lexer_is_letter (ch l) || lexer_is_digit (ch l))
                        (S (left_to_read lx)) lx in
  let len := position lx' - start in
  (slice_of lx start len, len, lx').

(** The text read, its length and [*is_float]. *)
Definition digits (lx : Lexer) : Lexer :=
  read_while (fun l => lexer_is_digit (ch l)) (S (left_to_read lx)) lx.

(** The integer part: a base prefix with its digits, or decimal digits. *)
Definition read_integer_part (lx : Lexer) : Lexer :=
  let next := lexer_peek_char lx in
  if Ascii.eqb (ch lx) "0" &&
     (Ascii.eqb next "x" || Ascii.eqb next "X" || Ascii.eqb next "b" || Ascii.eqb next "B"
      || Ascii.eqb next "o" || Ascii.eqb next "O")
  then
    let l1 := lexer_read_char lx in
    let base := ch l1 in
    let l2 := lexer_read_char l1 in
    let fuel := S (left_to_read l2) in
    if Ascii.eqb base "x" || Ascii.eqb base "X" then
      read_while (fun l => lexer_is_hex_digit (ch l)) fuel l2
    else if Ascii.eqb base "b" || Ascii.eqb base "B" then
      read_while (fun l => Ascii.eqb (ch l) "0" || Ascii.eqb (ch l) "1") fuel l2
    else read_while (fun l => in_range "0" "7" (ch l)) fuel l2
  else digits lx.

Definition read_fraction (lx : Lexer) : bool * Lexer :=
  if Ascii.eqb (ch lx) "." && lexer_is_digit (lexer_peek_char lx)
  then (true, digits (lexer_read_char lx))
  else (false, lx).

Definition read_exponent (lx : Lexer) : bool * Lexer :=
  if Ascii.eqb (ch lx) "e" || Ascii.eqb (ch lx) "E" then
    let l1 := lexer_read_char lx in
    let l2 := if Ascii.eqb (ch l1) "+" || Ascii.eqb (ch l1) "-" then lexer_read_char l1 else l1 in
    (true, digits l2)
  else (false, lx).

Definition lexer_read_number (lx : Lexer) : list ascii * nat * bool * Lexer :=
  let start := position lx in
  let l1 := read_integer_part lx in
  let '(frac, l2) := read_fraction l1 in
  let '(exp, l3) := read_exponent l2 in
  let len := position l3 - start in
  (slice_of lx start len, len, frac || exp, l3).

Definition hex_digit_value (c : ascii) : Z :=
  if in_range "0" "9" c then Z.of_nat (code c - code "0")
  else if in_range "a" "f" c then Z.of_nat (code c - code "a" + 10)
  else if in_range "A" "F" c then Z.of_nat (code c - code "A" + 10)
  else -1.

Definition char_of_Z (z : Z) : ascii := ascii_of_nat (Z.to_nat (z mod 256)).

(** The escape decoding loop of [lexer_read_string] over the raw body. *)
Fixpoint decode_escapes (raw : list ascii) : option (list ascii) :=
  match raw with
  | [] => Some []
  | "\"%char :: next :: rest =>
      let emit c := option_map (cons c) (decode_escapes rest) in
      if Ascii.eqb next "a" then emit "007"%char
      else if Ascii.eqb next "b" then emit "008"%char
      else if Ascii.eqb next "f" then emit "012"%char
      else if Ascii.eqb next "n" then emit newline
      else if Ascii.eqb next "r" then emit carriage_return
      else if Ascii.eqb next "t" then emit tab
      else if Ascii.eqb next "v" then emit "011"%char
      else if Ascii.eqb next "\" then emit "\"%char
      else if Ascii.eqb next "034" then emit "034"%char
      else if Ascii.eqb next "'" then emit "'"%char
      else if Ascii.eqb next "0" then emit zero
      else if Ascii.eqb next "x" then
        match rest with
        | h :: l :: rest' =>
            let hi := hex_digit_value h in
            let lo := hex_digit_value l in
            if (hi <? 0)%Z || (lo <? 0)%Z then None
            else option_map (cons (char_of_Z (Z.lor (Z.shiftl hi 4) lo))) (decode_escapes rest')
        | _ => None
        end
      else emit next
  | c :: rest => option_map (cons c) (decode_escapes rest)
  end.

(** The body-scanning loop: stops at the closing quote or the end of input. *)
Fixpoint scan_string_body (fuel : nat) (lx : Lexer) : Lexer :=
  match fuel with
  | O => lx
  | S f =>
      if Ascii.eqb (ch lx) "034" || Ascii.eqb (ch lx) zero then lx
      else if Ascii.eqb (ch lx) "\" then
        let l1 := lexer_read_char lx in
        scan_string_body f (if Ascii.eqb (ch l1) zero then l1 else lexer_read_char l1)
      else scan_string_body f (lexer_read_char lx)
  end.

(** [None] is the NULL return; the lexer's position after it matters all the same. *)
Definition lexer_read_string (lx : Lexer) : option (list ascii) * Lexer :=
  let l1 := lexer_read_char lx in
  let start := position l1 in
  let l2 := scan_string_body (S (left_to_read l1)) l1 in
  if negb (Ascii.eqb (ch l2) "034") then (None, l2)
  else
    match decode_escapes (slice_of l2 start (position l2 - start)) with
    | None => (None, l2)
    | Some out => (Some out, lexer_read_char l2)
    end.

Definition lexer_read_raw_string (lx : Lexer) : option (list ascii) * Lexer :=
  let l1 := lexer_read_char lx in
  let start := position l1 in
  let l2 := read_while (fun l => negb (Ascii.eqb (ch l) "`") && negb (Ascii.eqb (ch l) zero))
                       (S (left_to_read l1)) l1 in
  if negb (Ascii.eqb (ch l2) "`") then (None, l2)
  else
    (Some (List.filter (fun c => negb (Ascii.eqb c carriage_return))
             (slice_of l2 start (position l2 - start))),
     lexer_read_char l2).

(** The digit loop of a numeric escape: [v = (v << 4) | d]. *)
Fixpoint decode_hex_digits (v : Z) (ds : list ascii) : option Z :=
  match ds with
  | [] => Some v
  | d :: ds' =>
      let x := hex_digit_value d in
      if (x <? 0)%Z then None else decode_hex_digits (Z.lor (Z.shiftl v 4) x) ds'
  end.

(** Length of the hex tail a numeric escape selector asks for. *)
Definition escape_digits (sel : ascii) : nat :=
  if Ascii.eqb sel "x" then 2 else if Ascii.eqb sel "u" then 4
  else if Ascii.eqb sel "U" then 8 else 0.

(** [body\[1\]] of a one-byte body is the C string's terminator. *)
Definition lexer_decode_char_value (body : list ascii) : option Z :=
  match body with
  | [] => None
  | c :: rest =>
      if negb (Ascii.eqb c "\") then
        match rest with [] => Some (Z.of_nat (code c)) | _ => None end
      else
        let sel := nth 0 rest zero in
        if Ascii.eqb sel "x" || Ascii.eqb sel "u" || Ascii.eqb sel "U" then
          let ndig := escape_digits sel in
          if negb (length body =? 2 + ndig)%nat then None
          else decode_hex_digits 0 (drop 1 rest)
        else if negb (length body =? 2)%nat then None
        else if Ascii.eqb sel "n" then Some 10%Z
        else if Ascii.eqb sel "t" then Some 9%Z
        else if Ascii.eqb sel "r" then Some 13%Z
        else if Ascii.eqb sel "\" then Some 92%Z
        else if Ascii.eqb sel "'" then Some 39%Z
        else if Ascii.eqb sel "034" then Some 34%Z
        else if Ascii.eqb sel "0" then Some 0%Z
        else if Ascii.eqb sel "a" then Some 7%Z
        else if Ascii.eqb sel "b" then Some 8%Z
        else if Ascii.eqb sel "f" then Some 12%Z
        else if Ascii.eqb sel "v" then Some 11%Z
        else None
  end.

(** [for (i = 0; i < ndig && ch != 0 && ch != '\''; i++) lexer_read_char]. *)
Fixpoint read_escape_tail (ndig : nat) (lx : Lexer) : Lexer :=
  match ndig with
  | O => lx
  | S n =>
      if negb (Ascii.eqb (ch lx) zero) && negb (Ascii.eqb (ch lx) "'")
      then read_escape_tail n (lexer_read_char lx) else lx
  end.

Definition lexer_read_char_literal (lx : Lexer) : option (list ascii) * Lexer :=
  let l1 := lexer_read_char lx in
  let start := position l1 in
  let l2 :=
    if Ascii.eqb (ch l1) "\" then
      let a := lexer_read_char l1 in
      let esc := ch a in
      let b := if negb (Ascii.eqb esc zero) then lexer_read_char a else a in
      read_escape_tail (escape_digits esc) b
    else if negb (Ascii.eqb (ch l1) zero) then lexer_read_char l1
    else l1 in
  if negb (Ascii.eqb (ch l2) "'") then (None, l2)
  else (Some (slice_of l2 start (position l2 - start)), lexer_read_char l2).

(** ** [lexer_next_token]: one definition per group of [switch] cases.

    [Emit]: the case set [token] and fell out of the switch, to the common tail.
    [Return]: an early [return] (the ASI semicolons skip the tail).
    [Continue]: the case re-entered the [for (;;)] loop. *)
Inductive lex_step : Type :=
| Emit (t : Token) (lx : Lexer)
| Return (t : Token) (lx : Lexer)
| Continue (lx : Lexer).

Definition lit (s : string) : option (list ascii) := Some (list_ascii_of_string s).

Definition emit1 (ty : TokenType) (s : string) (p : Position) (lx : Lexer) : lex_step :=
  Emit (token_new ty (lit s) 1 p) (lexer_read_char lx).
Definition emit2 (ty : TokenType) (s : string) (p : Position) (lx : Lexer) : lex_step :=
  Emit (token_new ty (lit s) 2 p) (lexer_read_char (lexer_read_char lx)).
Definition emit3 (ty : TokenType) (s : string) (p : Position) (lx : Lexer) : lex_step :=
  Emit (token_new ty (lit s) 3 p) (lexer_read_char (lexer_read_char (lexer_read_char lx))).

Definition peek_is (lx : Lexer) (c : ascii) : bool := Ascii.eqb (lexer_peek_char lx) c.

(** The three ASI rules of the newline case, on the state after the newline and the
    blanks that follow it were consumed. *)
Definition asi_keyword (t : TokenType) : bool :=
  match t with
  | TOKEN_RETURN | TOKEN_BREAK | TOKEN_CONTINUE | TOKEN_FALLTHROUGH => true
  | _ => false
  end.

Definition asi_value (lx : Lexer) : bool :=
  token_ends_value (prev_token_type lx) &&
  negb (Ascii.eqb (ch lx) ")") && negb (Ascii.eqb (ch lx) "}") &&
  negb (Ascii.eqb (ch lx) "." && peek_is lx ".") &&
  negb (lexer_line_starts_with_else lx).

Definition asi_scoped (lx : Lexer) : bool :=
  (0 <? asi_depth lx)%Z && (asi_depth lx <=? ASI_CTX_SIZE)%Z &&
  nth (Z.to_nat (asi_depth lx - 1)) (asi_ctx lx) false &&
  token_ends_value (prev_token_type lx).

(** case '\n' *)
Definition lex_newline (p : Position) (lx : Lexer) : lex_step :=
  let l0 := lexer_read_char lx in
  let l1 := read_while (fun l => Ascii.eqb (ch l) " " || Ascii.eqb (ch l) tab
                                 || Ascii.eqb (ch l) carriage_return)
                       (S (left_to_read l0)) l0 in
  let semicolon := token_new TOKEN_SEMICOLON (lit ";") 1 p in
  if asi_keyword (prev_token_type l1) then Return semicolon (set_prev TOKEN_SEMICOLON l1)
  else if asi_value l1 then Return semicolon (set_prev TOKEN_SEMICOLON l1)
  else if asi_scoped l1 then Return semicolon (set_prev TOKEN_SEMICOLON l1)
  else Continue l1.

(** Opening and closing brackets maintain the ASI scope stack. *)
Definition asi_push (scoped : bool) (lx : Lexer) : Lexer :=
  let d := asi_depth lx in
  let ctx := if (0 <=? d)%Z && (d <? ASI_CTX_SIZE)%Z
             then <[Z.to_nat d := scoped]> (asi_ctx lx) else asi_ctx lx in
  set_asi ctx (d + 1) lx.
Definition asi_pop (lx : Lexer) : Lexer :=
  if (0 <? asi_depth lx)%Z then set_asi (asi_ctx lx) (asi_depth lx - 1) lx else lx.

Definition lex_lparen (p : Position) (lx : Lexer) : lex_step :=
  emit1 TOKEN_LPAREN "(" p (asi_push (token_eqb (prev_token_type lx) TOKEN_VAR) lx).
Definition lex_rparen (p : Position) (lx : Lexer) : lex_step :=
  emit1 TOKEN_RPAREN ")" p (asi_pop lx).
Definition lex_lbrace (p : Position) (lx : Lexer) : lex_step :=
  emit1 TOKEN_LBRACE "{" p
    (asi_push (token_eqb (prev_token_type lx) TOKEN_STRUCT
               || token_eqb (prev_token_type lx) TOKEN_INTERFACE) lx).
Definition lex_rbrace (p : Position) (lx : Lexer) : lex_step :=
  emit1 TOKEN_RBRACE "}" p (asi_pop lx).

(** case ':' *)
Definition lex_colon (p : Position) (lx : Lexer) : lex_step :=
  if peek_is lx "=" then emit2 TOKEN_SHORT_ASSIGN ":=" p lx else emit1 TOKEN_COLON ":" p lx.

(** cases '+' '-' '*' '%' *)
Definition lex_plus (p : Position) (lx : Lexer) : lex_step :=
  if peek_is lx "+" then emit2 TOKEN_INCREMENT "++" p lx
  else if peek_is lx "=" then emit2 TOKEN_PLUS_ASSIGN "+=" p lx
  else emit1 TOKEN_PLUS "+" p lx.
Definition lex_minus (p : Position) (lx : Lexer) : lex_step :=
  if peek_is lx "-" then emit2 TOKEN_DECREMENT "--" p lx
  else if peek_is lx "=" then emit2 TOKEN_MINUS_ASSIGN "-=" p lx
  else emit1 TOKEN_MINUS "-" p lx.
Definition lex_star (p : Position) (lx : Lexer) : lex_step :=
  if peek_is lx "=" then emit2 TOKEN_MUL_ASSIGN "*=" p lx else emit1 TOKEN_MULTIPLY "*" p lx.
Definition lex_percent (p : Position) (lx : Lexer) : lex_step :=
  if peek_is lx "=" then emit2 TOKEN_MOD_ASSIGN "%=" p lx else emit1 TOKEN_MODULO "%" p lx.

(** The block-comment loop: reads until the closing star-slash (consumed) or the end. *)
Fixpoint skip_block_comment (fuel : nat) (lx : Lexer) : Lexer :=
  match fuel with
  | O => lx
  | S f =>
      if Ascii.eqb (ch lx) zero then lx
      else if Ascii.eqb (ch lx) "*" && peek_is lx "/"
      then lexer_read_char (lexer_read_char lx)
      else skip_block_comment f (lexer_read_char lx)
  end.

(** case '/': an assignment, a line comment, a block comment or a division. *)
Definition lex_slash (p : Position) (lx : Lexer) : lex_step :=
  if peek_is lx "=" then emit2 TOKEN_DIV_ASSIGN "/=" p lx
  else if peek_is lx "/" then
    Continue (read_while (fun l => negb (Ascii.eqb (ch l) newline) && negb (Ascii.eqb (ch l) zero))
                         (S (left_to_read lx)) lx)
  else if peek_is lx "*" then
    let l1 := lexer_read_char (lexer_read_char lx) in
    Continue (skip_block_comment (S (left_to_read l1)) l1)
  else emit1 TOKEN_DIVIDE "/" p lx.

(** cases '=' '!' '<' '>' *)
Definition lex_equal (p : Position) (lx : Lexer) : lex_step :=
  if peek_is lx "=" then emit2 TOKEN_EQ "==" p lx
  else if peek_is lx ">" then emit2 TOKEN_FAT_ARROW "=>" p lx
  else emit1 TOKEN_ASSIGN "=" p lx.
Definition lex_bang (p : Position) (lx : Lexer) : lex_step :=
  if peek_is lx "=" then emit2 TOKEN_NE "!=" p lx else emit1 TOKEN_BANG "!" p lx.
Definition lex_less (p : Position) (lx : Lexer) : lex_step :=
  if peek_is lx "=" then emit2 TOKEN_LE "<=" p lx
  else if peek_is lx "<" then
    if peek_is (lexer_read_char lx) "=" then emit3 TOKEN_LSHIFT_ASSIGN "<<=" p lx
    else emit2 TOKEN_LSHIFT "<<" p lx
  else if peek_is lx "-" then emit2 TOKEN_ARROW "<-" p lx
  else emit1 TOKEN_LT "<" p lx.
Definition lex_greater (p : Position) (lx : Lexer) : lex_step :=
  if peek_is lx "=" then emit2 TOKEN_GE ">=" p lx
  else if peek_is lx ">" then
    if peek_is (lexer_read_char lx) "=" then emit3 TOKEN_RSHIFT_ASSIGN ">>=" p lx
    else emit2 TOKEN_RSHIFT ">>" p lx
  else emit1 TOKEN_GT ">" p lx.

(** cases '&' '|' '^' *)
Definition lex_amp (p : Position) (lx : Lexer) : lex_step :=
  if peek_is lx "&" then emit2 TOKEN_AND "&&" p lx
  else if peek_is lx "^" then emit2 TOKEN_AND_NOT "&^" p lx
  else if peek_is lx "=" then emit2 TOKEN_AND_ASSIGN "&=" p lx
  else emit1 TOKEN_BIT_AND "&" p lx.
Definition lex_bar (p : Position) (lx : Lexer) : lex_step :=
  if peek_is lx "|" then emit2 TOKEN_OR "||" p lx
  else if peek_is lx "=" then emit2 TOKEN_OR_ASSIGN "|=" p lx
  else emit1 TOKEN_BIT_OR "|" p lx.
Definition lex_caret (p : Position) (lx : Lexer) : lex_step :=
  if peek_is lx "=" then emit2 TOKEN_XOR_ASSIGN "^=" p lx else emit1 TOKEN_BIT_XOR "^" p lx.

(** case '.': two dots without a third are an error token. *)
Definition lex_dot (p : Position) (lx : Lexer) : lex_step :=
  if peek_is lx "." then
    if peek_is (lexer_read_char lx) "." then emit3 TOKEN_ELLIPSIS "..." p lx
    else emit2 TOKEN_ERROR ".." p lx
  else emit1 TOKEN_DOT "." p lx.

(** The quoted literals. *)
Definition lex_string (p : Position) (lx : Lexer) : lex_step :=
  let '(s, l) := lexer_read_string lx in
  match s with
  | Some body => Emit (token_new TOKEN_STRING (Some body) (length body) p) l
  | None => Emit (token_new TOKEN_ERROR (lit "unterminated string") 18 p) l
  end.
Definition lex_raw_string (p : Position) (lx : Lexer) : lex_step :=
  let '(s, l) := lexer_read_raw_string lx in
  match s with
  | Some body => Emit (token_new TOKEN_STRING (Some body) (length body) p) l
  | None => Emit (token_new TOKEN_ERROR (lit "unterminated raw string") 24 p) l
  end.

(** [snprintf("%ld")] of a rune value: at most ten digits, so the 16-byte buffer holds it. *)
Definition decimal (v : Z) : list ascii := list_ascii_of_string (pretty v).

Definition lex_char (p : Position) (lx : Lexer) : lex_step :=
  let '(s, l) := lexer_read_char_literal lx in
  match s ≫= lexer_decode_char_value with
  | Some v => Emit (token_new TOKEN_INT (Some (decimal v)) (length (decimal v)) p) l
  | None => Emit (token_new TOKEN_ERROR (lit "invalid character literal") 25 p) l
  end.

(** The default case: a word, a number, or an unknown byte. *)
Definition lex_default (p : Position) (lx : Lexer) : lex_step :=
  if lexer_is_letter (ch lx) then
    let '(id, len, l) := lexer_read_identifier lx in
    let s := string_of_list_ascii id in
    let ty := if token_is_keyword s then token_keyword_type s else TOKEN_IDENT in
    Emit (token_new ty (Some id) len p) l
  else if lexer_is_digit (ch lx) then
    let '(num, len, is_float, l) := lexer_read_number lx in
    Emit (token_new (if is_float then TOKEN_FLOAT else TOKEN_INT) (Some num) len p) l
  else Emit (token_new TOKEN_UNKNOWN (Some [ch lx]) 1 p) (lexer_read_char lx).

(** The [switch] on the current character. *)
Definition lex_switch (p : Position) (lx : Lexer) : lex_step :=
  let c := ch lx in
  if Ascii.eqb c zero then Emit (token_new TOKEN_EOF None 0 p) lx
  else if Ascii.eqb c newline then lex_newline p lx
  else if Ascii.eqb c "(" then lex_lparen p lx
  else if Ascii.eqb c ")" then lex_rparen p lx
  else if Ascii.eqb c "{" then lex_lbrace p lx
  else if Ascii.eqb c "}" then lex_rbrace p lx
  else if Ascii.eqb c "[" then emit1 TOKEN_LBRACKET "[" p lx
  else if Ascii.eqb c "]" then emit1 TOKEN_RBRACKET "]" p lx
  else if Ascii.eqb c ";" then emit1 TOKEN_SEMICOLON ";" p lx
  else if Ascii.eqb c "," then emit1 TOKEN_COMMA "," p lx
  else if Ascii.eqb c ":" then lex_colon p lx
  else if Ascii.eqb c "~" then emit1 TOKEN_BIT_NOT "~" p lx
  else if Ascii.eqb c "?" then emit1 TOKEN_QUESTION "?" p lx
  else if Ascii.eqb c "@" then emit1 TOKEN_DEREF "@" p lx
  else if Ascii.eqb c "+" then lex_plus p lx
  else if Ascii.eqb c "-" then lex_minus p lx
  else if Ascii.eqb c "*" then lex_star p lx
  else if Ascii.eqb c "/" then lex_slash p lx
  else if Ascii.eqb c "%" then lex_percent p lx
  else if Ascii.eqb c "=" then lex_equal p lx
  else if Ascii.eqb c "!" then lex_bang p lx
  else if Ascii.eqb c "<" then lex_less p lx
  else if Ascii.eqb c ">" then lex_greater p lx
  else if Ascii.eqb c "&" then lex_amp p lx
  else if Ascii.eqb c "|" then lex_bar p lx
  else if Ascii.eqb c "^" then lex_caret p lx
  else if Ascii.eqb c "." then lex_dot p lx
  else if Ascii.eqb c "034" then lex_string p lx
  else if Ascii.eqb c "`" then lex_raw_string p lx
  else if Ascii.eqb c "'" then lex_char p lx
  else lex_default p lx.

(** The tail after the switch: error accounting and [prev_token_type]. *)
Definition lex_finish (t : Token) (lx : Lexer) : Lexer :=
  let l := if token_eqb (tok_type t) TOKEN_ERROR || token_eqb (tok_type t) TOKEN_UNKNOWN
           then bump_errors lx else lx in
  set_prev (tok_type t) l.

(** The [for (;;)] loop; [None] is fuel exhaustion, which [LexerFacts] rules out. *)
Fixpoint next_token_loop (fuel : nat) (lx : Lexer) : option (Token * Lexer) :=
  match fuel with
  | O => None
  | S f =>
      let l := lexer_skip_whitespace lx in
      match lex_switch (pos l) l with
      | Emit t l' => Some (t, lex_finish t l')
      | Return t l' => Some (t, l')
      | Continue l' => next_token_loop f l'
      end
  end.

Definition lexer_next_token (lx : Lexer) : option (Token * Lexer) :=
  next_token_loop (S (left_to_read lx)) lx.

(** The token stream a client sees by calling [lexer_next_token] until EOF. *)
Fixpoint lex_all (fuel : nat) (lx : Lexer) : option (list Token * Lexer) :=
  match fuel with
  | O => None
  | S f =>
      match lexer_next_token lx with
      | None => None
      | Some (t, l) =>
          if token_eqb (tok_type t) TOKEN_EOF then Some ([t], l)
          else match lex_all f l with
               | Some (ts, l') => Some (t :: ts, l')
               | None => None
               end
      end
  end.

Definition tokenize (src : list ascii) : option (list Token * Lexer) :=
  lex_all (S (S (strlen src))) (lexer_new src).
