(* ===== verification/LexerFacts.v ===== *)
(** * LexerFacts: invariant, termination and positions of the scanner.

    [lexer_wf] is the invariant the lexer keeps between calls; [adv n lx lx'] says that
    [lx'] is reached from [lx] by [n] character reads none of which happens at the end
    of input.  Every scanner of [Lexer] is shown to be such a run, so one preservation
    lemma per fact ([adv_wf], [adv_position], ...) covers all of them. *)
From Stdlib Require Import ZArith Lia Ascii String Bool.
From stdpp Require Import base list numbers option strings.
From S2P Require Import Prelude Token Lexer.

Create HintDb lexer.

Lemma aeqb_true a b : Ascii.eqb a b = true <-> a = b.
Proof. apply Ascii.eqb_eq. Qed.
Lemma aeqb_false a b : Ascii.eqb a b = false <-> a <> b.
Proof. apply Ascii.eqb_neq. Qed.

(** Turns the boolean character tests in the context into (in)equalities. *)
Ltac chars :=
  repeat match goal with
  | H : Ascii.eqb _ _ = true |- _ => apply aeqb_true in H
  | H : Ascii.eqb _ _ = false |- _ => apply aeqb_false in H
  | H : negb _ = true |- _ => apply negb_true_iff in H
  | H : negb _ = false |- _ => apply negb_false_iff in H
  | H : _ && _ = true |- _ => apply andb_true_iff in H as [? ?]
  | H : _ || _ = false |- _ => apply orb_false_iff in H as [? ?]
  end.

(** ** [strlen] *)
Lemma strlen_le s : strlen s <= length s.
Proof. induction s as [|c s IH]; simpl; [done | destruct (Ascii.eqb c zero); lia]. Qed.

Lemma strlen_nonzero s i : i < strlen s -> nth i s zero <> zero.
Proof.
  revert i. induction s as [|c s IH]; intros i; simpl; [lia|].
  destruct (Ascii.eqb c zero) eqn:E; [lia|]. apply aeqb_false in E.
  destruct i; [done|]. intros. apply IH. lia.
Qed.

(** ** Line and column of a source position, read off the text before it. *)
Fixpoint count_newlines (s : list ascii) : nat :=
  match s with
  | [] => 0
  | c :: s' => (if Ascii.eqb c newline then 1 else 0) + count_newlines s'
  end.

(** Length of the longest newline-free prefix; of the reversed text, of the last line. *)
Fixpoint newline_free_prefix (s : list ascii) : nat :=
  match s with
  | [] => 0
  | c :: s' => if Ascii.eqb c newline then 0 else S (newline_free_prefix s')
  end.

Definition source_position (src : list ascii) (i : nat) : Position :=
  mkPos (1 + Z.of_nat (count_newlines (take i src)))
        (1 + Z.of_nat (newline_free_prefix (rev (take i src)))) i.

Lemma count_newlines_app a b : count_newlines (a ++ b) = count_newlines a + count_newlines b.
Proof. induction a as [|c a IH]; simpl; [done | rewrite IH; lia]. Qed.

Lemma take_S_nth (s : list ascii) i :
  i < length s -> take (S i) s = take i s ++ [nth i s zero].
Proof.
  revert i. induction s as [|c s IH]; intros i; simpl; [lia|].
  destruct i; [done|]. intros Hi.
  change (c :: take (S i) s = c :: (take i s ++ [nth i s zero])). f_equal. apply IH. lia.
Qed.

Lemma source_position_S src i :
  i < length src ->
  source_position src (S i) =
    let p := source_position src i in
    if Ascii.eqb (nth i src zero) newline then mkPos (line p + 1) 1 (S i)
    else mkPos (line p) (column p + 1) (S i).
Proof.
  intros Hi. unfold source_position. rewrite (take_S_nth src i Hi).
  rewrite count_newlines_app, rev_app_distr. simpl.
  destruct (Ascii.eqb _ newline); simpl; f_equal; lia.
Qed.

Lemma newline_free_prefix_le s : newline_free_prefix s <= length s.
Proof. induction s as [|c s IH]; simpl; [done | destruct (Ascii.eqb c newline); lia]. Qed.

Lemma count_newlines_last s :
  count_newlines s + newline_free_prefix (rev s) <= length s.
Proof.
  induction s as [|c s IH] using rev_ind; [done|].
  rewrite count_newlines_app, rev_app_distr, length_app. simpl.
  destruct (Ascii.eqb c newline); lia.
Qed.

(** ** The invariant. *)
Record lexer_wf (lx : Lexer) : Prop := {
  wf_length : input_length lx = strlen (input lx);
  wf_read : read_position lx = S (position lx);
  wf_position : position lx <= input_length lx;
  wf_ch : ch lx = if (position lx <? input_length lx)%nat then char_at lx (position lx) else zero;
  wf_pos : pos lx = source_position (input lx) (position lx);
  wf_ctx : length (asi_ctx lx) = Z.to_nat ASI_CTX_SIZE;
  wf_depth : (0 <= asi_depth lx)%Z
}.

Lemma lexer_new_wf src : lexer_wf (lexer_new src).
Proof.
  unfold lexer_new. split; simpl; try done; try lia.
  by destruct (strlen src).
Qed.

Lemma wf_at_end lx : lexer_wf lx -> ch lx = zero <-> position lx = input_length lx.
Proof.
  intros H. rewrite (wf_ch _ H). pose proof (wf_position _ H).
  destruct (Nat.ltb_spec (position lx) (input_length lx)) as [Hlt|Hge].
  - pose proof Hlt as Hlt'. rewrite (wf_length _ H) in Hlt'. split; [|lia]. intros Hz.
    by apply strlen_nonzero in Hlt'.
  - split; [lia | done].
Qed.

Lemma read_char_wf lx : lexer_wf lx -> ch lx <> zero -> lexer_wf (lexer_read_char lx).
Proof.
  intros H Hc. pose proof (wf_at_end _ H) as Hend. pose proof (wf_position _ H) as Hp.
  assert (position lx < input_length lx) as Hlt.
  { destruct (decide (position lx = input_length lx)); [tauto | lia]. }
  pose proof (strlen_le (input lx)). pose proof (wf_length _ H) as Hl.
  pose proof (wf_ch _ H) as Hch. rewrite (proj2 (Nat.ltb_lt _ _) Hlt) in Hch.
  unfold lexer_read_char. rewrite (wf_pos _ H).
  pose proof (source_position_S (input lx) (position lx) ltac:(lia)) as HS.
  unfold char_at in Hch. rewrite <- Hch in HS. rewrite (wf_read _ H) in *.
  apply aeqb_false in Hc. rewrite Hc. simpl.
  destruct (Ascii.eqb (ch lx) newline); split; simpl; try done; try lia; try apply H.
  - unfold char_at; simpl. rewrite Nat.ltb_antisym. by destruct (_ <=? _)%nat.
  - unfold char_at; simpl. rewrite Nat.ltb_antisym. by destruct (_ <=? _)%nat.
Qed.

(** ** Runs of character reads. *)
Inductive adv : nat -> Lexer -> Lexer -> Prop :=
| adv_refl lx : adv 0 lx lx
| adv_step n lx lx' : ch lx <> zero -> adv n (lexer_read_char lx) lx' -> adv (S n) lx lx'.

#[export] Hint Constructors adv : lexer.

Lemma adv_trans n m a b c : adv n a b -> adv m b c -> adv (n + m) a c.
Proof. induction 1; simpl; eauto with lexer. Qed.

Lemma adv_1 lx : ch lx <> zero -> adv 1 lx (lexer_read_char lx).
Proof. eauto with lexer. Qed.

Lemma adv_wf n a b : adv n a b -> lexer_wf a -> lexer_wf b.
Proof. induction 1; eauto using read_char_wf. Qed.

(** What a run leaves alone. *)
Record same_frame (a b : Lexer) : Prop := {
  sf_input : input b = input a;
  sf_length : input_length b = input_length a;
  sf_prev : prev_token_type b = prev_token_type a;
  sf_ctx : asi_ctx b = asi_ctx a;
  sf_depth : asi_depth b = asi_depth a;
  sf_errors : error_count b = error_count a
}.

Lemma read_char_frame lx : same_frame lx (lexer_read_char lx).
Proof.
  unfold lexer_read_char. destruct (Ascii.eqb (ch lx) newline); [by split|].
  by destruct (negb _).
Qed.

Lemma read_char_position lx : position (lexer_read_char lx) = read_position lx.
Proof.
  unfold lexer_read_char. destruct (Ascii.eqb (ch lx) newline); [done|].
  by destruct (negb _).
Qed.

Lemma adv_frame n a b : adv n a b -> same_frame a b.
Proof.
  induction 1 as [|n a b Hc _ IH]; [by split|].
  destruct IH, (read_char_frame a). split; congruence.
Qed.

Lemma adv_position n a b : adv n a b -> lexer_wf a -> position b = position a + n.
Proof.
  induction 1 as [|n a b Hc _ IH]; intros Ha; [lia|].
  rewrite IH by (by apply read_char_wf). rewrite read_char_position, (wf_read _ Ha). lia.
Qed.

Lemma adv_le n a b : adv n a b -> lexer_wf a -> n <= left_to_read a.
Proof.
  intros Hn Ha. pose proof (adv_position _ _ _ Hn Ha). pose proof (adv_wf _ _ _ Hn Ha) as Hb.
  pose proof (wf_position _ Hb). rewrite (sf_length _ _ (adv_frame _ _ _ Hn)) in *.
  unfold left_to_read. lia.
Qed.

(** The character after the current one is what [lexer_peek_char] sees. *)
Lemma ch_read_char lx : ch (lexer_read_char lx) = lexer_peek_char lx.
Proof.
  unfold lexer_read_char, lexer_peek_char. destruct (Ascii.eqb (ch lx) newline); [done|].
  by destruct (negb _).
Qed.

Lemma peek_is_ch lx c : peek_is lx c = true -> ch (lexer_read_char lx) = c.
Proof. rewrite ch_read_char. apply aeqb_true. Qed.

Lemma adv_2 lx c : ch lx <> zero -> peek_is lx c = true -> c <> zero ->
  adv 2 lx (lexer_read_char (lexer_read_char lx)).
Proof.
  intros H Hp Hc. apply peek_is_ch in Hp. apply adv_step; [done|]. apply adv_1. congruence.
Qed.

Lemma adv_3 lx c d : ch lx <> zero -> peek_is lx c = true -> c <> zero ->
  peek_is (lexer_read_char lx) d = true -> d <> zero ->
  adv 3 lx (lexer_read_char (lexer_read_char (lexer_read_char lx))).
Proof.
  intros H Hp Hc Hq Hd. apply peek_is_ch in Hp. apply adv_step; [done|].
  eapply adv_2; eauto. congruence.
Qed.

(** ** The reading loops: how far they go and that they finish. *)
Definition stops_at_end (cond : Lexer -> bool) : Prop :=
  forall l, cond l = true -> ch l <> zero.

Lemma read_while_adv cond fuel lx :
  stops_at_end cond -> exists n, adv n lx (read_while cond fuel lx).
Proof.
  intros Hc. revert lx. induction fuel as [|f IH]; intros lx; simpl; [eauto with lexer|].
  destruct (cond lx) eqn:E; [|eauto with lexer].
  destruct (IH (lexer_read_char lx)) as [n Hn]. exists (S n). eauto with lexer.
Qed.

Lemma left_to_read_step lx :
  lexer_wf lx -> ch lx <> zero -> left_to_read lx = S (left_to_read (lexer_read_char lx)).
Proof.
  intros H Hc. pose proof (adv_le _ _ _ (adv_1 _ Hc) H) as Hle.
  unfold left_to_read in *. rewrite read_char_position, (wf_read _ H).
  rewrite (sf_length _ _ (read_char_frame lx)). lia.
Qed.

(** With the fuel the code's definitions pass, the loop exits because its condition fails. *)
Lemma read_while_done cond fuel lx :
  stops_at_end cond -> lexer_wf lx -> left_to_read lx < fuel ->
  cond (read_while cond fuel lx) = false.
Proof.
  intros Hc. revert lx. induction fuel as [|f IH]; intros lx Hwf Hf; simpl; [lia|].
  destruct (cond lx) eqn:E; [|done].
  pose proof (left_to_read_step _ Hwf (Hc _ E)). apply IH; [|lia].
  by apply read_char_wf, Hc.
Qed.

Lemma read_while_pos cond fuel lx :
  stops_at_end cond -> cond lx = true ->
  exists n, adv (S n) lx (read_while cond (S fuel) lx).
Proof.
  intros Hc E. simpl. rewrite E.
  destruct (read_while_adv cond fuel (lexer_read_char lx) Hc) as [n Hn].
  exists n. eauto with lexer.
Qed.

(** ** [run]: some number of reads; [run1]: at least one. *)
Definition run (a b : Lexer) : Prop := exists n, adv n a b.
Definition run1 (a b : Lexer) : Prop := exists n, adv (S n) a b.

Lemma run_refl a : run a a.
Proof. exists 0. constructor. Qed.
Lemma run1_run a b : run1 a b -> run a b.
Proof. intros [n H]. by exists (S n). Qed.
Lemma run_trans a b c : run a b -> run b c -> run a c.
Proof. intros [n H] [m H']. exists (n + m). by eapply adv_trans. Qed.
Lemma run1_l a b c : run1 a b -> run b c -> run1 a c.
Proof. intros [n H] [m H']. exists (n + m). by apply (adv_trans _ _ _ _ _ H H'). Qed.
Lemma run1_r a b c : run a b -> run1 b c -> run1 a c.
Proof.
  intros [n H] [m H']. exists (n + m). pose proof (adv_trans _ _ _ _ _ H H') as Q.
  by rewrite Nat.add_succ_r in Q.
Qed.
Lemma run1_read a : ch a <> zero -> run1 a (lexer_read_char a).
Proof. intros. exists 0. by apply adv_1. Qed.

Lemma run_wf a b : run a b -> lexer_wf a -> lexer_wf b.
Proof. intros [n H]. by eapply adv_wf. Qed.
Lemma run1_position a b : run1 a b -> lexer_wf a -> position a < position b.
Proof. intros [n H] Ha. rewrite (adv_position _ _ _ H Ha). lia. Qed.
Lemma run_position a b : run a b -> lexer_wf a -> position a <= position b.
Proof. intros [n H] Ha. rewrite (adv_position _ _ _ H Ha). lia. Qed.
Lemma run_frame a b : run a b -> same_frame a b.
Proof. intros [n H]. by eapply adv_frame. Qed.
Lemma run_while cond fuel lx : stops_at_end cond -> run lx (read_while cond fuel lx).
Proof. apply read_while_adv. Qed.
Lemma run1_while cond fuel lx :
  stops_at_end cond -> cond lx = true -> run1 lx (read_while cond (S fuel) lx).
Proof. apply read_while_pos. Qed.

#[export] Hint Resolve run_refl run1_run run1_read run_while : lexer.

(** A loop condition that looks at the current character only stops at the end of input. *)
Ltac stops := intros ? ?E ?Hz; cbv beta in *;
  match goal with H : ch _ = zero |- _ => rewrite H in * end; discriminate.

Lemma stops_white :
  stops_at_end (fun l => lexer_is_whitespace (ch l) && negb (Ascii.eqb (ch l) newline)).
Proof. stops. Qed.
Lemma stops_blank :
  stops_at_end (fun l => Ascii.eqb (ch l) " " || Ascii.eqb (ch l) tab
                         || Ascii.eqb (ch l) carriage_return).
Proof. stops. Qed.
Lemma stops_word : stops_at_end (fun l => lexer_is_letter (ch l) || lexer_is_digit (ch l)).
Proof. stops. Qed.
Lemma stops_digit : stops_at_end (fun l => lexer_is_digit (ch l)).
Proof. stops. Qed.
Lemma stops_hex : stops_at_end (fun l => lexer_is_hex_digit (ch l)).
Proof. stops. Qed.
Lemma stops_bin : stops_at_end (fun l => Ascii.eqb (ch l) "0" || Ascii.eqb (ch l) "1").
Proof. stops. Qed.
Lemma stops_oct : stops_at_end (fun l => in_range "0" "7" (ch l)).
Proof. stops. Qed.
Lemma stops_line :
  stops_at_end (fun l => negb (Ascii.eqb (ch l) newline) && negb (Ascii.eqb (ch l) zero)).
Proof. stops. Qed.
Lemma stops_raw :
  stops_at_end (fun l => negb (Ascii.eqb (ch l) "`") && negb (Ascii.eqb (ch l) zero)).
Proof. stops. Qed.
#[export] Hint Resolve stops_white stops_blank stops_word stops_digit stops_hex stops_bin
  stops_oct stops_line stops_raw : lexer.

Lemma skip_whitespace_run lx : run lx (lexer_skip_whitespace lx).
Proof. unfold lexer_skip_whitespace. auto with lexer. Qed.

Lemma digits_run lx : run lx (digits lx).
Proof. unfold digits. auto with lexer. Qed.

(** Nonzero facts about the current character from the tests the code makes. *)
Ltac nonzero := solve [ let Z := fresh in intros Z;
  repeat match goal with
         | H : context [ch _] |- _ => progress (rewrite Z in H)
         end; try discriminate; congruence | congruence | done ].

Lemma scan_string_body_run fuel lx : run lx (scan_string_body fuel lx).
Proof.
  revert lx. induction fuel as [|f IH]; intros lx; simpl; [auto with lexer|].
  destruct (_ || _) eqn:E; [auto with lexer|]. chars.
  destruct (Ascii.eqb (ch lx) "\"); [|eauto using run_trans with lexer].
  eapply run_trans; [apply run1_run, run1_read; done|].
  destruct (Ascii.eqb (ch (lexer_read_char lx)) zero) eqn:E2; [apply IH|]. chars.
  eapply run_trans; [apply run1_run, run1_read; done | apply IH].
Qed.

Lemma skip_block_comment_run fuel lx : run lx (skip_block_comment fuel lx).
Proof.
  revert lx. induction fuel as [|f IH]; intros lx; simpl; [auto with lexer|].
  destruct (Ascii.eqb (ch lx) zero) eqn:E; [auto with lexer|]. chars.
  destruct (_ && _) eqn:E2; chars.
  - exists 2. by eapply adv_2.
  - eapply run_trans; [apply run1_run, run1_read; done | apply IH].
Qed.

Lemma read_escape_tail_run n lx : run lx (read_escape_tail n lx).
Proof.
  revert lx. induction n as [|n IH]; intros lx; simpl; [auto with lexer|].
  destruct (_ && _) eqn:E; [|auto with lexer]. chars.
  eapply run_trans; [apply run1_run, run1_read; done | apply IH].
Qed.

Lemma read_string_run1 lx : ch lx <> zero -> run1 lx (lexer_read_string lx).2.
Proof.
  intros H. unfold lexer_read_string. set (l1 := lexer_read_char lx).
  pose proof (scan_string_body_run (S (left_to_read l1)) l1) as Hs.
  set (l2 := scan_string_body _ l1) in *.
  destruct (negb _) eqn:E; simpl; [eauto using run1_l with lexer|]. chars.
  destruct (decode_escapes _); simpl; [|eauto using run1_l with lexer].
  eapply run1_l; [by apply run1_read|]. eapply run_trans; [exact Hs|].
  apply run1_run, run1_read. rewrite E. done.
Qed.

Lemma read_raw_string_run1 lx : ch lx <> zero -> run1 lx (lexer_read_raw_string lx).2.
Proof.
  intros H. unfold lexer_read_raw_string. set (l1 := lexer_read_char lx).
  pose proof (run_while _ (S (left_to_read l1)) l1 stops_raw) as Hs.
  set (l2 := read_while _ _ l1) in *.
  destruct (negb (Ascii.eqb (ch l2) _)) eqn:E; simpl; [eauto using run1_l with lexer|]. chars.
  eapply run1_l; [by apply run1_read|]. eapply run_trans; [exact Hs|].
  apply run1_run, run1_read. rewrite E. done.
Qed.

Lemma read_char_literal_run1 lx : ch lx <> zero -> run1 lx (lexer_read_char_literal lx).2.
Proof.
  intros H. unfold lexer_read_char_literal. set (l1 := lexer_read_char lx).
  match goal with |- context [negb (Ascii.eqb (ch ?x) "'")] => set (l2 := x) end.
  assert (run l1 l2) as Hs.
  { subst l2. destruct (Ascii.eqb (ch l1) "\") eqn:E; chars.
    - eapply run_trans; [apply run1_run, run1_read; rewrite E; done|].
      destruct (negb (Ascii.eqb (ch (lexer_read_char l1)) zero)) eqn:E2; chars.
      + eapply run_trans; [apply run1_run, run1_read; done | apply read_escape_tail_run].
      + apply read_escape_tail_run.
    - destruct (negb _) eqn:E2; chars; auto with lexer. }
  destruct (negb (Ascii.eqb (ch l2) _)) eqn:E; simpl; [eauto using run1_l with lexer|]. chars.
  eapply run1_l; [by apply run1_read|]. eapply run_trans; [exact Hs|].
  apply run1_run, run1_read. rewrite E. done.
Qed.

Lemma read_integer_part_run1 lx : lexer_is_digit (ch lx) = true -> run1 lx (read_integer_part lx).
Proof.
  intros Hd. unfold read_integer_part. destruct (_ && _) eqn:E.
  - chars.
    assert (ch (lexer_read_char lx) <> zero) as Hn.
    { rewrite ch_read_char. intros Hz. rewrite Hz in *. discriminate. }
    eapply run1_l; [apply run1_read; intros Hz; rewrite Hz in Hd; discriminate|].
    eapply run_trans; [by apply run1_run, run1_read|].
    repeat case_match; auto with lexer.
  - unfold digits. by apply run1_while; [apply stops_digit|].
Qed.

Lemma read_fraction_run lx : run lx (read_fraction lx).2.
Proof.
  unfold read_fraction. destruct (_ && _) eqn:E; simpl; [|auto with lexer]. chars.
  eapply run_trans; [|apply digits_run]. apply run1_run, run1_read.
  match goal with H : ch lx = _ |- _ => rewrite H end. done.
Qed.

Lemma read_exponent_run lx : run lx (read_exponent lx).2.
Proof.
  unfold read_exponent. destruct (_ || _) eqn:E; simpl; [|auto with lexer].
  eapply run_trans; [|apply digits_run].
  eapply run_trans; [apply run1_run, run1_read; intros Hz; rewrite Hz in E; discriminate|].
  destruct (Ascii.eqb (ch (lexer_read_char lx)) "+" || _) eqn:E2; [|auto with lexer].
  apply run1_run, run1_read. intros Hz. rewrite Hz in E2. discriminate.
Qed.

Lemma read_number_run1 lx : lexer_is_digit (ch lx) = true -> run1 lx (lexer_read_number lx).2.
Proof.
  intros Hd. unfold lexer_read_number.
  pose proof (read_integer_part_run1 _ Hd) as H1. set (l1 := read_integer_part lx) in *.
  pose proof (read_fraction_run l1) as H2. destruct (read_fraction l1) as [fr l2]. simpl in *.
  pose proof (read_exponent_run l2) as H3. destruct (read_exponent l2) as [ex l3]. simpl in *.
  eauto using run1_l, run_trans.
Qed.

Lemma read_identifier_run1 lx :
  lexer_is_letter (ch lx) = true -> run1 lx (lexer_read_identifier lx).2.
Proof.
  intros Hl. unfold lexer_read_identifier. cbn [snd].
  apply run1_while; [apply stops_word|]. by rewrite Hl.
Qed.

(** ** What one pass of the [switch] does. *)
(** Equal up to the fields the ASI bookkeeping and the tail write. *)
Record same_scan (a b : Lexer) : Prop := {
  ss_input : input b = input a;
  ss_length : input_length b = input_length a;
  ss_position : position b = position a;
  ss_read : read_position b = read_position a;
  ss_ch : ch b = ch a;
  ss_pos : pos b = pos a;
  ss_ctx : length (asi_ctx b) = length (asi_ctx a);
  ss_depth : (0 <= asi_depth a)%Z -> (0 <= asi_depth b)%Z
}.

Lemma same_scan_refl a : same_scan a a.
Proof. by split. Qed.

Lemma same_scan_wf a b : same_scan a b -> lexer_wf a -> lexer_wf b.
Proof.
  intros [] []. split; try congruence; try lia.
  rewrite ss_ch0, wf_ch0, ss_position0, ss_length0. unfold char_at. by rewrite ss_input0.
Qed.

Lemma asi_push_scan s lx : same_scan lx (asi_push s lx).
Proof.
  unfold asi_push. split; try done; simpl; [|lia].
  destruct (_ && _); [apply length_insert | done].
Qed.
Lemma asi_pop_scan lx : same_scan lx (asi_pop lx).
Proof.
  unfold asi_pop. destruct (0 <? asi_depth lx)%Z eqn:E; [|by split].
  apply Z.ltb_lt in E. split; simpl; try done. lia.
Qed.
Lemma set_prev_scan t lx : same_scan lx (set_prev t lx).
Proof. by split. Qed.
Lemma finish_scan t lx : same_scan lx (lex_finish t lx).
Proof. unfold lex_finish. destruct (_ || _); by split. Qed.

(** A non-EOF token at the position the switch was entered with, and progress. *)
Definition moved (p : Position) (lx : Lexer) (t : Token) (l : Lexer) : Prop :=
  tok_pos t = p /\ tok_type t <> TOKEN_EOF /\ lexer_wf l /\ input l = input lx /\
  position lx < position l.

Definition step_ok (p : Position) (lx : Lexer) (s : lex_step) : Prop :=
  match s with
  | Emit t l =>
      (ch lx = zero /\ l = lx /\ t = token_new TOKEN_EOF None 0 p) \/ moved p lx t l
  | Return t l => moved p lx t l
  | Continue l => lexer_wf l /\ input l = input lx /\ position lx < position l
  end.

Lemma moved_intro p lx l0 l ty s n :
  lexer_wf lx -> same_scan lx l0 -> run1 l0 l -> ty <> TOKEN_EOF ->
  moved p lx (token_new ty s n p) l.
Proof.
  intros Hwf Hs Hr Ht. pose proof (same_scan_wf _ _ Hs Hwf) as H0.
  split_and!; try done.
  - by eapply run_wf, H0; apply run1_run.
  - rewrite (sf_input _ _ (run_frame _ _ (run1_run _ _ Hr))). apply Hs.
  - pose proof (run1_position _ _ Hr H0). by rewrite (ss_position _ _ Hs) in *.
Qed.

Lemma keyword_type_not_eof s : token_keyword_type s <> TOKEN_EOF.
Proof.
  unfold token_keyword_type.
  assert (Forall (fun e => e.2 <> TOKEN_EOF) keywords) as Hk.
  { apply Forall_forall. intros e He. apply list_elem_of_In in He.
    unfold keywords in He. simpl in He. repeat (destruct He as [<-|He]; [done|]). done. }
  revert Hk. generalize keywords. induction l as [|[k t] l IH]; simpl; [done|].
  intros Hf. inversion Hf; subst. destruct (String.eqb s k); [done | by apply IH].
Qed.

#[export] Hint Resolve same_scan_refl asi_push_scan asi_pop_scan : lexer.

(** One operator case: every branch emits a token after one, two or three reads. *)
Ltac operator_case :=
  repeat match goal with
  | |- step_ok _ _ (if ?b then _ else _) => destruct b eqn:?
  end;
  unfold emit1, emit2, emit3; simpl; right;
  (eapply moved_intro; [eassumption | apply same_scan_refl | | done]);
  first [ exists 2; eapply adv_3; [nonzero | eassumption | done | eassumption | done]
        | exists 1; eapply adv_2; [nonzero | eassumption | done]
        | apply run1_read; nonzero ].

Section Switch.
  Context (p : Position) (lx : Lexer) (Hwf : lexer_wf lx) (Hne : ch lx <> zero).

Lemma continue_ok l : run1 lx l -> step_ok p lx (Continue l).
  Proof using Hwf.
    intros Hr. simpl. split_and!.
    - eapply run_wf; [by apply run1_run | done].
    - apply (sf_input _ _ (run_frame _ _ (run1_run _ _ Hr))).
    - by apply run1_position.
  Qed.

Lemma newline_ok : step_ok p lx (lex_newline p lx).
  Proof using Hwf Hne.
    unfold lex_newline. set (l0 := lexer_read_char lx).
    set (l1 := read_while _ _ l0).
    assert (run1 lx l1) as Hr.
    { eapply run1_l; [by apply run1_read|]. apply run_while, stops_blank. }
    assert (step_ok p lx (Return (token_new TOKEN_SEMICOLON (lit ";") 1 p)
                                 (set_prev TOKEN_SEMICOLON l1))) as Hret.
    { destruct (moved_intro p lx lx l1 TOKEN_SEMICOLON (lit ";") 1 Hwf
                  (same_scan_refl _) Hr ltac:(done)) as (?&?&?&?&?).
      simpl. split_and!; try done. by eapply same_scan_wf; [apply set_prev_scan|]. }
    repeat match goal with |- step_ok _ _ (if ?b then _ else _) => destruct b end; try done.
    by apply continue_ok.
  Qed.

Lemma bracket_ok :
    step_ok p lx (lex_lparen p lx) /\ step_ok p lx (lex_rparen p lx) /\
    step_ok p lx (lex_lbrace p lx) /\ step_ok p lx (lex_rbrace p lx).
  Proof using Hwf Hne.
    unfold lex_lparen, lex_rparen, lex_lbrace, lex_rbrace, emit1.
    split_and!; simpl; right; (eapply moved_intro; [done | | apply run1_read | done]);
      auto with lexer; rewrite ?(ss_ch _ _ (asi_push_scan _ _)), ?(ss_ch _ _ (asi_pop_scan _));
      done.
  Qed.

Lemma slash_ok : ch lx = "/"%char -> step_ok p lx (lex_slash p lx).
  Proof using Hwf Hne.
    intros Hs. unfold lex_slash. destruct (peek_is lx "=") eqn:E1; [operator_case|].
    destruct (peek_is lx "/") eqn:E2.
    { apply continue_ok, run1_while; [apply stops_line|]. by rewrite Hs. }
    destruct (peek_is lx "*") eqn:E3; [|operator_case].
    apply continue_ok. eapply run1_l; [|apply skip_block_comment_run].
    exists 1. by eapply adv_2.
  Qed.

Lemma operators_ok :
    Forall (fun f => step_ok p lx (f p lx))
      [lex_colon; lex_plus; lex_minus; lex_star; lex_percent; lex_equal; lex_bang; lex_less;
       lex_greater; lex_amp; lex_bar; lex_caret; lex_dot].
  Proof using Hwf Hne.
    repeat constructor;
      unfold lex_colon, lex_plus, lex_minus, lex_star, lex_percent, lex_equal, lex_bang,
        lex_less, lex_greater, lex_amp, lex_bar, lex_caret, lex_dot; operator_case.
  Qed.

Lemma quoted_ok :
    step_ok p lx (lex_string p lx) /\ step_ok p lx (lex_raw_string p lx) /\
    step_ok p lx (lex_char p lx).
  Proof using Hwf Hne.
    unfold lex_string, lex_raw_string, lex_char.
    pose proof (read_string_run1 lx Hne). pose proof (read_raw_string_run1 lx Hne).
    pose proof (read_char_literal_run1 lx Hne).
    destruct (lexer_read_string lx) as [[?|] ?], (lexer_read_raw_string lx) as [[?|] ?],
      (lexer_read_char_literal lx) as [o ?]; simpl in *.
    all: split_and!; [..|destruct (o ≫= lexer_decode_char_value)].
    all: simpl; right; by eapply moved_intro; [|apply same_scan_refl|..].
  Qed.

Lemma default_ok : step_ok p lx (lex_default p lx).
  Proof using Hwf Hne.
    unfold lex_default. destruct (lexer_is_letter (ch lx)) eqn:E1.
    { pose proof (read_identifier_run1 _ E1) as Hr.
      destruct (lexer_read_identifier lx) as [[? ?] ?]. simpl in *. right.
      eapply moved_intro; [done | apply same_scan_refl | done |].
      destruct (token_is_keyword _); [apply keyword_type_not_eof | done]. }
    destruct (lexer_is_digit (ch lx)) eqn:E2.
    { pose proof (read_number_run1 _ E2) as Hr.
      destruct (lexer_read_number lx) as [[[? ?] b] ?]. simpl in *. right.
      eapply moved_intro; [done | apply same_scan_refl | done |]. by destruct b. }
    simpl. right. by eapply moved_intro; [|apply same_scan_refl|apply run1_read|].
  Qed.
End Switch.

Lemma switch_ok p lx : lexer_wf lx -> step_ok p lx (lex_switch p lx).
Proof.
  intros Hwf. unfold lex_switch.
  destruct (Ascii.eqb (ch lx) zero) eqn:E0; chars; [by left|].
  pose proof (operators_ok p lx Hwf E0) as Hop. rewrite !Forall_cons in Hop.
  pose proof (bracket_ok p lx Hwf E0). pose proof (quoted_ok p lx Hwf E0).
  repeat match goal with
  | |- step_ok _ _ (if Ascii.eqb (ch lx) ?c then _ else _) =>
      destruct (Ascii.eqb (ch lx) c) eqn:?; chars
  end; try tauto.
  all: try (unfold emit1; simpl; right;
            by eapply moved_intro; [|apply same_scan_refl|apply run1_read|]).
  - by apply newline_ok.
  - by apply slash_ok.
  - by apply default_ok.
Qed.

(** ** The loop: it always returns a token, and moves. *)
Lemma next_token_loop_ok fuel lx :
  lexer_wf lx -> left_to_read lx < fuel ->
  exists t l p, next_token_loop fuel lx = Some (t, l) /\ lexer_wf l /\ input l = input lx /\
    tok_pos t = source_position (input lx) p /\ position lx <= p /\
    ((tok_type t = TOKEN_EOF /\ tok_literal t = None /\ position l = p /\ p = strlen (input lx)) \/
     (tok_type t <> TOKEN_EOF /\ p < position l)).
Proof.
  revert lx. induction fuel as [|f IH]; intros lx Hwf Hf; [lia|]. simpl.
  pose proof (skip_whitespace_run lx) as Hr. set (l0 := lexer_skip_whitespace lx) in *.
  pose proof (run_wf _ _ Hr Hwf) as H0. pose proof (run_position _ _ Hr Hwf) as Hp.
  pose proof (sf_input _ _ (run_frame _ _ Hr)) as Hin.
  pose proof (sf_length _ _ (run_frame _ _ Hr)) as Hlen.
  pose proof (switch_ok (pos l0) l0 H0) as Hs. pose proof (wf_pos _ H0) as Hpos.
  destruct (lex_switch (pos l0) l0) as [t l|t l|l]; simpl in Hs.
  - destruct Hs as [(Hc&->&->)|(Ht&Hne&Hw&Hi&Hlt)].
    + apply wf_at_end in Hc; [|done]. eexists _, _, (position l0). split_and!; [done| | | | |].
      * by eapply same_scan_wf; [apply finish_scan|].
      * by rewrite (ss_input _ _ (finish_scan _ _)).
      * simpl. by rewrite Hpos, Hin.
      * done.
      * left. split_and!; try done. rewrite Hc, (wf_length _ H0). by rewrite Hin.
    + eexists _, _, (position l0). split_and!; [done| | | | |].
      * by eapply same_scan_wf; [apply finish_scan|].
      * rewrite (ss_input _ _ (finish_scan _ _)). congruence.
      * by rewrite Ht, Hpos, Hin.
      * done.
      * right. split; [done|]. by rewrite (ss_position _ _ (finish_scan _ _)).
  - destruct Hs as (Ht&Hne&Hw&Hi&Hlt). eexists _, _, (position l0).
    split_and!; try done; [congruence | by rewrite Ht, Hpos, Hin | by right].
  - destruct Hs as (Hw&Hi&Hlt).
    assert (input_length l = input_length lx) as HL.
    { rewrite (wf_length _ Hw), (wf_length _ Hwf). congruence. }
    pose proof (wf_position _ Hw).
    destruct (IH l Hw) as (t&l'&p&?&?&?&?&?&?).
    { unfold left_to_read in *. lia. }
    rewrite Hi, Hin in *. eexists _, _, p. split_and!; try done. lia.
Qed.

Lemma lexer_next_token_ok lx :
  lexer_wf lx ->
  exists t l p, lexer_next_token lx = Some (t, l) /\ lexer_wf l /\ input l = input lx /\
    tok_pos t = source_position (input lx) p /\ position lx <= p /\
    ((tok_type t = TOKEN_EOF /\ tok_literal t = None /\ position l = p /\ p = strlen (input lx)) \/
     (tok_type t <> TOKEN_EOF /\ p < position l)).
Proof. intros. apply next_token_loop_ok; [done|]. lia. Qed.
