(* ===== verification/LexerProps.v ===== *)
(** * LexerProps: what the scanner computes, stated on the source text.

    [rest lx] is the unread source text.  The lemmas of the first half express the
    primitives of [Lexer] on [rest]; the properties follow: the token stream, the
    positions, longest match for operators, words, string and rune literals, and ASI. *)
From Stdlib Require Import ZArith Lia Ascii String Bool Sorting.Sorted.
From stdpp Require Import base list numbers option gmap strings pretty.
From S2P Require Import Prelude Token Lexer LexerFacts.

(** ** The unread text. *)
Definition rest (lx : Lexer) : list ascii := drop (position lx) (take (input_length lx) (input lx)).

Lemma drop_cons_nth (s : list ascii) i : i < length s -> drop i s = nth i s zero :: drop (S i) s.
Proof.
  revert i. induction s as [|c s IH]; intros i; simpl; [lia|].
  destruct i; [done|]. intros. simpl. apply IH. lia.
Qed.

Lemma drop_cons_inv (c : ascii) r i (s : list ascii) : drop i s = c :: r -> drop (S i) s = r.
Proof.
  revert i. induction s as [|d s IH]; intros [|i]; simpl; try done.
  - by intros [= _ ->].
  - intros H. by apply (IH i).
Qed.

Section Rest.
  Context (lx : Lexer) (Hwf : lexer_wf lx).

Lemma rest_unfold :
    rest lx = if (position lx <? input_length lx)%nat
              then ch lx :: drop (S (position lx)) (take (input_length lx) (input lx)) else [].
  Proof using Hwf.
    pose proof (strlen_le (input lx)). pose proof (wf_length _ Hwf). unfold rest.
    rewrite (wf_ch _ Hwf). destruct (Nat.ltb_spec (position lx) (input_length lx)).
    - rewrite drop_cons_nth by (rewrite length_take; lia). unfold char_at. f_equal.
      rewrite nth_lookup, lookup_take_lt by lia. by rewrite <- nth_lookup.
    - apply drop_ge. rewrite length_take. lia.
  Qed.

Lemma rest_nil : ch lx = zero <-> rest lx = [].
  Proof using Hwf.
    rewrite wf_at_end by done. rewrite rest_unfold. pose proof (wf_position _ Hwf).
    destruct (Nat.ltb_spec (position lx) (input_length lx)); split; try done; lia.
  Qed.

Lemma rest_cons : ch lx <> zero ->
    rest lx = ch lx :: rest (lexer_read_char lx).
  Proof using Hwf.
    intros H. rewrite rest_unfold. rewrite wf_at_end in H by done.
    pose proof (wf_position _ Hwf). destruct (Nat.ltb_spec (position lx) (input_length lx)); [|lia].
    unfold rest. rewrite read_char_position, (wf_read _ Hwf).
    by rewrite (sf_input _ _ (read_char_frame _)), (sf_length _ _ (read_char_frame _)).
  Qed.

Lemma ch_rest : ch lx = hd zero (rest lx).
  Proof using Hwf.
    destruct (decide (ch lx = zero)) as [Hz|Hz].
    - by rewrite (proj1 rest_nil Hz).
    - by rewrite (rest_cons Hz).
  Qed.
End Rest.

Lemma rest_read lx c r : lexer_wf lx -> rest lx = c :: r ->
  ch lx = c /\ c <> zero /\ lexer_wf (lexer_read_char lx) /\ rest (lexer_read_char lx) = r.
Proof.
  intros Hwf E. assert (ch lx <> zero) as Hz by (rewrite rest_nil, E by done; done).
  rewrite (rest_cons _ Hwf Hz) in E. injection E as <- <-.
  split_and!; try done. by apply read_char_wf.
Qed.

Lemma peek_rest lx : lexer_wf lx -> ch lx <> zero -> lexer_peek_char lx = hd zero (tl (rest lx)).
Proof.
  intros Hwf Hz. rewrite <- ch_read_char, (rest_cons _ Hwf Hz). simpl.
  apply ch_rest. by apply read_char_wf.
Qed.

Lemma length_rest lx : lexer_wf lx -> length (rest lx) = left_to_read lx.
Proof.
  intros Hwf. unfold rest, left_to_read. rewrite length_drop, length_take.
  pose proof (strlen_le (input lx)). pose proof (wf_length _ Hwf). lia.
Qed.

(** Maximal prefix of a text satisfying a character class, and what follows it. *)
Fixpoint take_while (P : ascii -> bool) (s : list ascii) : list ascii :=
  match s with [] => [] | c :: s' => if P c then c :: take_while P s' else [] end.
Fixpoint drop_while (P : ascii -> bool) (s : list ascii) : list ascii :=
  match s with [] => [] | c :: s' => if P c then drop_while P s' else s end.

Lemma take_drop_while P s : take_while P s ++ drop_while P s = s.
Proof. induction s as [|c s IH]; simpl; [done|]. destruct (P c); simpl; [by rewrite IH | done]. Qed.

(** A run consumes a prefix: the text read is the slice between the positions. *)
Lemma adv_rest n a b : adv n a b -> lexer_wf a -> rest a = take n (rest a) ++ rest b.
Proof.
  induction 1 as [|n a b Hc Hn IH]; intros Ha; [done|].
  rewrite (rest_cons _ Ha Hc). simpl. f_equal. apply IH. by apply read_char_wf.
Qed.

Lemma slice_rest a b start : lexer_wf a -> run a b -> start = position a ->
  slice_of b start (position b - start) ++ rest b = rest a.
Proof.
  intros Ha [n Hn] ->. pose proof (adv_position _ _ _ Hn Ha) as Hp.
  pose proof (adv_le _ _ _ Hn Ha) as Hle. pose proof (adv_frame _ _ _ Hn) as F.
  rewrite (adv_rest _ _ _ Hn Ha) at 1. f_equal.
  unfold slice_of, rest. rewrite (sf_input _ _ F). replace (position b - position a) with n by lia.
  unfold left_to_read in Hle. rewrite !take_drop_commute, take_take.
  pose proof (wf_position _ Ha). do 2 f_equal. lia.
Qed.

Lemma read_while_rest P fuel lx :
  P zero = false -> lexer_wf lx -> left_to_read lx < fuel ->
  let l := read_while (fun l => P (ch l)) fuel lx in
  lexer_wf l /\ run lx l /\ rest l = drop_while P (rest lx).
Proof.
  intros HP. revert lx. induction fuel as [|f IH]; intros lx Hwf Hf; simpl; [lia|].
  destruct (P (ch lx)) eqn:E.
  - assert (ch lx <> zero) as Hz by congruence.
    pose proof (left_to_read_step _ Hwf Hz).
    destruct (IH (lexer_read_char lx)) as (Hw&Hr&Hrest);
      [by apply read_char_wf | lia |].
    split_and!; [done | by eapply run_trans; [apply run1_run, run1_read|] |].
    by rewrite Hrest, (rest_cons _ Hwf Hz); simpl; rewrite E.
  - split_and!; [done | apply run_refl |].
    destruct (decide (ch lx = zero)) as [Hz|Hz].
    + by rewrite (proj1 (rest_nil _ Hwf) Hz).
    + rewrite (rest_cons _ Hwf Hz). simpl. by rewrite E.
Qed.

(** A scanner over a character class returns the maximal prefix in that class. *)
Lemma read_class P fuel lx :
  P zero = false -> lexer_wf lx -> left_to_read lx < fuel ->
  let l := read_while (fun l => P (ch l)) fuel lx in
  lexer_wf l /\ rest l = drop_while P (rest lx) /\
  slice_of l (position lx) (position l - position lx) = take_while P (rest lx).
Proof.
  intros HP Hwf Hf l. destruct (read_while_rest P fuel lx HP Hwf Hf) as (Hw&Hr&Hrest).
  fold l in Hw, Hr, Hrest. split_and!; try done.
  pose proof (slice_rest lx l (position lx) Hwf Hr eq_refl) as E.
  rewrite Hrest in E. rewrite <- (take_drop_while P (rest lx)) in E at 2.
  by apply app_inv_tail in E.
Qed.

Lemma slice_run a b i n : run a b -> slice_of b i n = slice_of a i n.
Proof. intros Hr. unfold slice_of. by rewrite (sf_input _ _ (run_frame _ _ Hr)). Qed.

Lemma length_slice a b : lexer_wf a -> run a b ->
  length (slice_of b (position a) (position b - position a)) = position b - position a.
Proof.
  intros Ha Hr. pose proof (run_wf _ _ Hr Ha) as Hb.
  pose proof (f_equal length (slice_rest a b _ Ha Hr eq_refl)) as E.
  rewrite length_app, !length_rest in E by done. unfold left_to_read in E.
  pose proof (run_position _ _ Hr Ha). pose proof (wf_position _ Hb).
  rewrite (sf_length _ _ (run_frame _ _ Hr)) in *. lia.
Qed.

(** [lexer_next_token] on a character that is not blank runs the switch once. *)
Lemma next_token_switch lx :
  lexer_is_whitespace (ch lx) = false ->
  lexer_next_token lx =
    match lex_switch (pos lx) lx with
    | Emit t l => Some (t, lex_finish t l)
    | Return t l => Some (t, l)
    | Continue l => next_token_loop (left_to_read lx) l
    end.
Proof.
  intros H. unfold lexer_next_token. simpl. unfold lexer_skip_whitespace. simpl. by rewrite H.
Qed.

(** More fuel than the text left never changes the result. *)
Lemma next_token_fuel f g lx : lexer_wf lx ->
  left_to_read lx < f -> left_to_read lx < g -> next_token_loop f lx = next_token_loop g lx.
Proof.
  revert g lx. induction f as [|f IH]; intros g lx Hwf Hf Hg; [lia|].
  destruct g as [|g]; [lia|]. simpl.
  pose proof (skip_whitespace_run lx) as Hr. set (l0 := lexer_skip_whitespace lx) in *.
  pose proof (run_wf _ _ Hr Hwf) as H0. pose proof (run_position _ _ Hr Hwf).
  pose proof (sf_length _ _ (run_frame _ _ Hr)).
  pose proof (switch_ok (pos l0) l0 H0) as Hs.
  destruct (lex_switch (pos l0) l0) as [t l|t l|l]; try done. destruct Hs as (Hw&Hi&Hlt).
  assert (input_length l = input_length lx).
  { rewrite (wf_length _ Hw), Hi, <- (wf_length _ H0). done. }
  pose proof (wf_position _ Hw). apply IH; [done|unfold left_to_read in *; lia..].
Qed.

(** ** The token stream. *)
Lemma lex_all_ok fuel lx : lexer_wf lx -> S (left_to_read lx) < fuel ->
  exists ts eof l, lex_all fuel lx = Some (ts ++ [eof], l) /\
    tok_type eof = TOKEN_EOF /\ Forall (fun t => tok_type t <> TOKEN_EOF) ts /\
    Forall (fun t => position lx <= offset (tok_pos t) <= strlen (input lx) /\
                     tok_pos t = source_position (input lx) (offset (tok_pos t))) (ts ++ [eof]) /\
    StronglySorted lt (map (fun t => offset (tok_pos t)) (ts ++ [eof])) /\
    length ts <= left_to_read lx /\ offset (tok_pos eof) = strlen (input lx).
Proof.
  revert lx. induction fuel as [|f IH]; intros lx Hwf Hf; [lia|]. simpl.
  destruct (lexer_next_token_ok lx Hwf) as (t&l&p&->&Hw&Hi&Hpos&Hle&[(He&_&_&Hp)|(He&Hlt)]).
  - rewrite (proj2 (token_eqb_spec _ _) He). exists [], t, l. simpl. rewrite Hpos. simpl.
    split_and!; try done; [|by repeat constructor | lia].
    apply Forall_singleton. rewrite Hpos. simpl. split; [lia | done].
  - destruct (token_eqb (tok_type t) TOKEN_EOF) eqn:E; [by apply token_eqb_spec in E|].
    assert (left_to_read l < left_to_read lx).
    { unfold left_to_read. rewrite (wf_length _ Hw), Hi, <- (wf_length _ Hwf).
      pose proof (wf_position _ Hw). rewrite (wf_length _ Hw), Hi, <- (wf_length _ Hwf) in *. lia. }
    destruct (IH l Hw) as (ts&eof&l'&->&?&?&Hf'&?&?&?); [lia|].
    exists (t :: ts), eof, l'. simpl. rewrite Hi in *. split_and!; try done; [..|lia].
    + by constructor.
    + pose proof (wf_position _ Hw) as Hle'. rewrite (wf_length _ Hw), Hi in Hle'.
      constructor; [rewrite Hpos; simpl; split; [lia | done]|]. eapply Forall_impl; [exact Hf'|]. simpl. intros ? [? ?].
      split; [lia | done].
    + constructor; [done|]. rewrite Hpos. simpl. apply Forall_fmap.
      eapply Forall_impl; [exact Hf'|]. simpl. intros ? [? ?]. lia.
Qed.

Lemma tokenize_ok src : 
  exists ts eof l, tokenize src = Some (ts ++ [eof], l) /\
    tok_type eof = TOKEN_EOF /\ Forall (fun t => tok_type t <> TOKEN_EOF) ts /\
    Forall (fun t => offset (tok_pos t) <= strlen src /\
                     tok_pos t = source_position src (offset (tok_pos t))) (ts ++ [eof]) /\
    StronglySorted lt (map (fun t => offset (tok_pos t)) (ts ++ [eof])) /\
    length ts <= strlen src /\ offset (tok_pos eof) = strlen src.
Proof.
  destruct (lex_all_ok (S (S (strlen src))) (lexer_new src) (lexer_new_wf src))
    as (ts&eof&l&H&?&?&Hf&?&?&?).
  { unfold left_to_read. simpl. lia. }
  exists ts, eof, l. unfold tokenize. rewrite H.
  assert (input (lexer_new src) = src) as Hi by done.
  assert (left_to_read (lexer_new src) <= strlen src) by (unfold left_to_read; simpl; lia).
  rewrite Hi in *. split_and!; try done; [|lia].
  eapply Forall_impl; [exact Hf|]. by intros ? [[_ ?] ?].
Qed.


(** Line and column stay within the text: no [int] overflow below 2^31 - 2 bytes. *)
Lemma source_position_bound src i : i <= length src ->
  (1 <= line (source_position src i) /\ 1 <= column (source_position src i) /\
   line (source_position src i) + column (source_position src i) <= Z.of_nat i + 2)%Z.
Proof.
  intros Hi. unfold source_position. simpl.
  pose proof (count_newlines_last (take i src)) as H. rewrite length_take in H. lia.
Qed.

(** *** What stands at a token's offset *)
(** The text [r] begins with the token: its spelling, the quote of a literal whose value the token
    carries, or the line break that ends a statement. *)
Definition spells (r : list ascii) (t : Token) : Prop :=
  match r with
  | [] => tok_type t = TOKEN_EOF
  | c :: _ =>
      if Ascii.eqb c newline then tok_type t = TOKEN_SEMICOLON
      else if Ascii.eqb c "034" || Ascii.eqb c "`" then
        tok_type t = TOKEN_STRING \/ tok_type t = TOKEN_ERROR
      else if Ascii.eqb c "'" then tok_type t = TOKEN_INT \/ tok_type t = TOKEN_ERROR
      else ~ In c [" "; tab; carriage_return]%char /\
        exists s, tok_literal t = Some s /\ s <> [] /\ s `prefix_of` r
  end.

Definition step_spells (lx : Lexer) (s : lex_step) : Prop :=
  match s with Emit t _ | Return t _ => spells (rest lx) t | Continue _ => True end.

Section Spelling.
  Context (p : Position) (lx : Lexer) (Hwf : lexer_wf lx) (Hne : ch lx <> zero)
    (Hplain : Ascii.eqb (ch lx) newline = false /\
      Ascii.eqb (ch lx) "034" || Ascii.eqb (ch lx) "`" = false /\ Ascii.eqb (ch lx) "'" = false)
    (Hblank : lexer_is_whitespace (ch lx) = false).

Lemma spells_plain s t l :
    tok_literal t = Some s -> s <> [] -> s `prefix_of` rest lx -> step_spells lx (Emit t l).
  Proof using Hwf Hne Hplain Hblank.
    intros Ht Hs Hp. simpl. unfold spells. destruct Hplain as (E1&E2&E3).
    rewrite (rest_cons _ Hwf Hne) in *. rewrite E1, E2, E3. split; [|by exists s].
    unfold lexer_is_whitespace in Hblank.
    intros [E|[E|[E|[]]]]; rewrite <- E in Hblank; discriminate.
  Qed.

Lemma spells_slice a l t ty : run1 lx a ->
    t = token_new ty (Some (slice_of lx (position lx) (position a - position lx)))
          (position a - position lx) p ->
    step_spells lx (Emit t l).
  Proof using Hwf Hne Hplain Hblank.
    intros Hr ->. rewrite <- (slice_run lx a) by (by apply run1_run).
    pose proof (length_slice lx a Hwf (run1_run _ _ Hr)) as Hl.
    apply (spells_plain (slice_of a (position lx) (position a - position lx))).
    - cbn [tok_literal token_new option_map]. f_equal. apply take_app_length'. by rewrite Hl.
    - intros E. rewrite E in Hl.
      pose proof (run1_position _ _ Hr Hwf). simpl in Hl. lia.
    - exists (rest a). symmetry. by apply slice_rest; [|apply run1_run|].
  Qed.

(** The next characters, as the tests of the operator cases see them. *)
Lemma prefix_1 c : ch lx = c -> [c] `prefix_of` rest lx.
  Proof using Hwf Hne. intros <-. rewrite (rest_cons _ Hwf Hne). by apply prefix_cons, prefix_nil. Qed.

Lemma prefix_2 c d : ch lx = c -> peek_is lx d = true -> d <> zero -> [c; d] `prefix_of` rest lx.
  Proof using Hwf Hne.
    intros <- Hd Hz. rewrite (rest_cons _ Hwf Hne). apply prefix_cons.
    pose proof (peek_is_ch _ _ Hd) as E. rewrite (rest_cons (lexer_read_char lx));
      [|by apply read_char_wf|congruence]. rewrite E. apply prefix_cons, prefix_nil.
  Qed.

Lemma prefix_3 c d e : ch lx = c -> peek_is lx d = true -> d <> zero ->
    peek_is (lexer_read_char lx) e = true -> e <> zero -> [c; d; e] `prefix_of` rest lx.
  Proof using Hwf Hne.
    intros <- Hd Hz He Hz'. rewrite (rest_cons _ Hwf Hne). apply prefix_cons.
    pose proof (peek_is_ch _ _ Hd) as E. pose proof (peek_is_ch _ _ He) as E'.
    rewrite (rest_cons (lexer_read_char lx)); [|by apply read_char_wf|congruence]. rewrite E.
    apply prefix_cons. rewrite (rest_cons (lexer_read_char (lexer_read_char lx))).
    - rewrite E'. apply prefix_cons, prefix_nil.
    - apply read_char_wf; [by apply read_char_wf|congruence].
    - congruence.
  Qed.
End Spelling.

(** An operator case: every branch emits the characters it has tested. *)
Ltac spell_case Hwf Hne Hplain Hblank :=
  repeat match goal with
  | |- step_spells _ (if ?b then _ else _) => destruct b eqn:?
  end; try exact I;
  unfold emit1, emit2, emit3;
  (eapply (spells_plain _ Hwf Hne Hplain Hblank); [reflexivity|discriminate|]);
  first [ apply (prefix_3 _ Hwf Hne); [assumption|assumption|discriminate|assumption|discriminate]
        | apply (prefix_2 _ Hwf Hne); [assumption|assumption|discriminate]
        | apply (prefix_1 _ Hwf Hne); assumption ].

Lemma switch_spells p lx :
  lexer_wf lx -> lexer_is_whitespace (ch lx) = false -> step_spells lx (lex_switch p lx).
Proof.
  intros Hwf Hblank. unfold lex_switch. destruct (Ascii.eqb (ch lx) zero) eqn:Hz; chars.
  { simpl. by rewrite (proj1 (rest_nil _ Hwf) Hz). }
  rename Hz into Hne. destruct (Ascii.eqb (ch lx) newline) eqn:Hn.
  { pose proof Hn as En. apply aeqb_true in En. unfold lex_newline, step_spells, spells.
    rewrite (rest_cons _ Hwf Hne), Hn. repeat case_match; simpl in *; simplify_eq; done. }
  destruct (Ascii.eqb (ch lx) "034" || Ascii.eqb (ch lx) "`") eqn:Hq.
  { assert (forall t l, tok_type t = TOKEN_STRING \/ tok_type t = TOKEN_ERROR -> step_spells lx (Emit t l))
      as Hs. { intros t l H. unfold step_spells, spells. by rewrite (rest_cons _ Hwf Hne), Hn, Hq. }
    apply orb_true_iff in Hq as [E|E]; apply aeqb_true in E; rewrite E; simpl.
    - unfold lex_string. destruct (lexer_read_string lx) as [[]]; apply Hs; simpl; auto.
    - unfold lex_raw_string. destruct (lexer_read_raw_string lx) as [[]]; apply Hs; simpl; auto. }
  destruct (Ascii.eqb (ch lx) "'") eqn:Hc.
  { pose proof Hc as E. apply aeqb_true in E. rewrite E. simpl. unfold lex_char.
    destruct (lexer_read_char_literal lx) as [o l].
    destruct (o ≫= lexer_decode_char_value); unfold step_spells, spells;
      rewrite (rest_cons _ Hwf Hne), Hn, Hq, Hc; simpl; auto. }
  assert (Ascii.eqb (ch lx) newline = false /\ Ascii.eqb (ch lx) "034" || Ascii.eqb (ch lx) "`" = false /\
    Ascii.eqb (ch lx) "'" = false) as Hplain by done.
  apply orb_false_iff in Hq as [Hq1 Hq2]. rewrite Hq1, Hq2.
  repeat match goal with
  | |- step_spells _ (if Ascii.eqb (ch lx) ?c then _ else _) =>
      destruct (Ascii.eqb (ch lx) c) eqn:?; chars
  end;
  try (unfold lex_lparen, lex_rparen, lex_lbrace, lex_rbrace, lex_colon, lex_plus, lex_minus, lex_star,
    lex_percent, lex_slash, lex_equal, lex_bang, lex_less, lex_greater, lex_amp, lex_bar, lex_caret,
    lex_dot; spell_case Hwf Hne Hplain Hblank).
  unfold lex_default. destruct (lexer_is_letter (ch lx)) eqn:E1.
  { pose proof (read_identifier_run1 _ E1) as Hr. unfold lexer_read_identifier in *. cbn [snd] in Hr.
    cbv beta iota zeta. eapply (spells_slice p lx Hwf Hne Hplain Hblank); [exact Hr|reflexivity]. }
  destruct (lexer_is_digit (ch lx)) eqn:E2.
  { pose proof (read_number_run1 _ E2) as Hr. unfold lexer_read_number in *.
    destruct (read_fraction _) as [fr l2]. destruct (read_exponent l2) as [ex l3]. cbn [snd] in Hr.
    cbv beta iota zeta. eapply (spells_slice p lx Hwf Hne Hplain Hblank); [exact Hr|reflexivity]. }
  eapply (spells_plain lx Hwf Hne Hplain Hblank); [reflexivity|discriminate|].
  by apply (prefix_1 lx Hwf Hne).
Qed.

Lemma skip_whitespace_stops lx : lexer_wf lx ->
  lexer_is_whitespace (ch (lexer_skip_whitespace lx)) = false.
Proof.
  intros Hwf.
  pose proof (read_while_done _ (S (left_to_read lx)) lx stops_white Hwf ltac:(lia)) as H. simpl in H.
  apply andb_false_iff in H as [H|H]; [done|]. apply negb_false_iff, aeqb_true in H.
  unfold lexer_skip_whitespace. simpl. by rewrite H.
Qed.

Lemma next_token_loop_spells fuel lx t l : lexer_wf lx -> next_token_loop fuel lx = Some (t, l) ->
  spells (drop (offset (tok_pos t)) (take (strlen (input lx)) (input lx))) t.
Proof.
  revert lx. induction fuel as [|f IH]; intros lx Hwf H; [done|]. simpl in H.
  pose proof (skip_whitespace_run lx) as Hr. pose proof (skip_whitespace_stops lx Hwf) as Hb.
  set (l0 := lexer_skip_whitespace lx) in *.
  pose proof (run_wf _ _ Hr Hwf) as H0. pose proof (sf_input _ _ (run_frame _ _ Hr)) as Hin.
  pose proof (switch_ok (pos l0) l0 H0) as Hs. pose proof (switch_spells (pos l0) l0 H0 Hb) as Hsp.
  assert (rest l0 = drop (offset (pos l0)) (take (strlen (input lx)) (input lx))) as Hrest.
  { unfold rest. by rewrite (wf_pos _ H0), (wf_length _ H0), Hin. }
  destruct (lex_switch (pos l0) l0) as [t' l'|t' l'|l']; simpl in Hs, Hsp.
  - injection H as -> <-. rewrite Hrest in Hsp.
    destruct Hs as [(_&_&->)|(Ht&_)]; [done|]. by rewrite Ht.
  - injection H as -> ->. rewrite Hrest in Hsp. destruct Hs as (Ht&_). by rewrite Ht.
  - destruct Hs as (Hw&Hi&_). rewrite <- Hin, <- Hi. by apply IH.
Qed.

Lemma lex_all_spells fuel lx ts l : lexer_wf lx -> lex_all fuel lx = Some (ts, l) ->
  Forall (fun t => spells (drop (offset (tok_pos t)) (take (strlen (input lx)) (input lx))) t) ts.
Proof.
  revert lx ts. induction fuel as [|f IH]; intros lx ts Hwf H; [done|]. simpl in H.
  destruct (lexer_next_token lx) as [[t l1]|] eqn:E; [|done].
  pose proof (next_token_loop_spells _ _ _ _ Hwf E) as Ht.
  destruct (lexer_next_token_ok lx Hwf) as (t'&l'&p&E'&Hw&Hi&_). rewrite E in E'. injection E' as <- <-.
  destruct (token_eqb _ _); [injection H as <- <-; by constructor|].
  destruct (lex_all f l1) as [[ts' l2]|] eqn:E2; [|done]. injection H as <- <-.
  constructor; [done|]. rewrite <- Hi. by apply (IH l1).
Qed.

(** C2: diagnostics point at the right place: at a token's offset the text spells the token (its
    literal is the text there and does not begin with a blank; a string, raw string or rune begins with
    its quote, an inserted semicolon with the line break, EOF stands at the end), its line and column
    are those of that byte, read off the text (1 + the newlines before it; 1 + the bytes since the last
    newline), and they are bounded by the offset, so the [int] fields cannot overflow on a source below
    2 GiB. *)
Theorem tokenize_positions src ts l :
  tokenize src = Some (ts, l) ->
  Forall (fun t => let i := offset (tok_pos t) in
    i <= strlen src /\ spells (drop i (take (strlen src) src)) t /\
    tok_pos t = source_position src i /\
    (1 <= line (tok_pos t) /\ 1 <= column (tok_pos t) /\
     line (tok_pos t) + column (tok_pos t) <= Z.of_nat i + 2)%Z) ts.
Proof.
  intros H. destruct (tokenize_ok src) as (ts'&eof&l'&H'&_&_&Hf&_).
  pose proof (lex_all_spells _ _ _ _ (lexer_new_wf src) H) as Hs.
  assert (input (lexer_new src) = src) as Hi by done. rewrite Hi in Hs.
  rewrite H in H'. injection H' as -> ->. eapply Forall_impl; [apply Forall_and; split; [exact Hf|exact Hs]|].
  simpl. intros t [[Hle E] Hsp]. pose proof (strlen_le src). split_and!; [done|done|done|..].
  all: rewrite E; pose proof (source_position_bound src (offset (tok_pos t)) ltac:(lia)); simpl in *; lia.
Qed.

Definition positions_example : list ascii := list_ascii_of_string "x ="  ++ [newline] ++
  list_ascii_of_string "  yy+1".

Lemma tokenize_positions_witness :
  exists ts l, tokenize positions_example = Some (ts, l) /\ length ts = 6 /\
  Forall (fun t => let i := offset (tok_pos t) in
    i <= strlen positions_example /\
    spells (drop i (take (strlen positions_example) positions_example)) t /\
    tok_pos t = source_position positions_example i /\
    (1 <= line (tok_pos t) /\ 1 <= column (tok_pos t) /\
     line (tok_pos t) + column (tok_pos t) <= Z.of_nat i + 2)%Z) ts.
Proof.
  eexists _, _. split; [vm_compute; reflexivity|]. split; [reflexivity|].
  eapply tokenize_positions. vm_compute. reflexivity.
Defined.

(** ** Operators and punctuation: a reference table, and longest match over it. *)
Definition operators : list (string * TokenType) :=
  [("(", TOKEN_LPAREN); (")", TOKEN_RPAREN); ("{", TOKEN_LBRACE); ("}", TOKEN_RBRACE);
   ("[", TOKEN_LBRACKET); ("]", TOKEN_RBRACKET); (";", TOKEN_SEMICOLON); (",", TOKEN_COMMA);
   (":", TOKEN_COLON); (":=", TOKEN_SHORT_ASSIGN); ("~", TOKEN_BIT_NOT);
   ("?", TOKEN_QUESTION); ("@", TOKEN_DEREF);
   ("+", TOKEN_PLUS); ("++", TOKEN_INCREMENT); ("+=", TOKEN_PLUS_ASSIGN);
   ("-", TOKEN_MINUS); ("--", TOKEN_DECREMENT); ("-=", TOKEN_MINUS_ASSIGN);
   ("*", TOKEN_MULTIPLY); ("*=", TOKEN_MUL_ASSIGN);
   ("/", TOKEN_DIVIDE); ("/=", TOKEN_DIV_ASSIGN);
   ("%", TOKEN_MODULO); ("%=", TOKEN_MOD_ASSIGN);
   ("=", TOKEN_ASSIGN); ("==", TOKEN_EQ); ("=>", TOKEN_FAT_ARROW);
   ("!", TOKEN_BANG); ("!=", TOKEN_NE);
   ("<", TOKEN_LT); ("<=", TOKEN_LE); ("<<", TOKEN_LSHIFT); ("<<=", TOKEN_LSHIFT_ASSIGN);
   ("<-", TOKEN_ARROW);
   (">", TOKEN_GT); (">=", TOKEN_GE); (">>", TOKEN_RSHIFT); (">>=", TOKEN_RSHIFT_ASSIGN);
   ("&", TOKEN_BIT_AND); ("&&", TOKEN_AND); ("&^", TOKEN_AND_NOT); ("&=", TOKEN_AND_ASSIGN);
   ("|", TOKEN_BIT_OR); ("||", TOKEN_OR); ("|=", TOKEN_OR_ASSIGN);
   ("^", TOKEN_BIT_XOR); ("^=", TOKEN_XOR_ASSIGN);
   (".", TOKEN_DOT); ("..", TOKEN_ERROR); ("...", TOKEN_ELLIPSIS)]%string.

Fixpoint is_prefix (p : string) (s : list ascii) : bool :=
  match p, s with
  | EmptyString, _ => true
  | String c p', d :: s' => Ascii.eqb d c && is_prefix p' s'
  | String _ _, [] => false
  end.

Definition longer (best : option (string * TokenType)) (e : string * TokenType) :
    option (string * TokenType) :=
  match best with
  | Some b => if (String.length b.1 <? String.length e.1)%nat then Some e else best
  | None => Some e
  end.

(** The longest entry of the table the text starts with. *)
Definition longest_operator (s : list ascii) : option (string * TokenType) :=
  fold_left longer (List.filter (fun e => is_prefix e.1 s) operators) None.

Definition comment_start (s : list ascii) : bool := is_prefix "//" s || is_prefix "/*" s.

Lemma peek_is_rest lx c r x : lexer_wf lx -> rest lx = c :: r ->
  peek_is lx x = Ascii.eqb (hd zero r) x.
Proof.
  intros Hwf E. destruct (rest_read _ _ _ Hwf E) as (Hc&Hz&_&_).
  unfold peek_is. rewrite peek_rest by congruence. by rewrite E.
Qed.

Lemma rest_same a b : same_scan a b -> rest b = rest a.
Proof. intros []. unfold rest. congruence. Qed.

(** The outcome of an operator case: the token, and the text after its characters. *)
Definition emits (lx : Lexer) (s : lex_step) (op : string) (ty : TokenType) : Prop :=
  exists l, s = Emit (token_new ty (lit op) (String.length op) (pos lx)) l /\
            rest l = drop (String.length op) (rest lx).

Lemma emit1_emits lx l0 c r ty op : lexer_wf lx -> rest lx = c :: r -> same_scan lx l0 ->
  String.length op = 1 -> emits lx (emit1 ty op (pos lx) l0) op ty.
Proof.
  intros Hwf E Hs Hl. unfold emits. rewrite Hl, E. eexists. split; [done|].
  by apply (rest_read l0 c r); [eapply same_scan_wf | rewrite (rest_same _ _ Hs)].
Qed.

Lemma emit2_emits lx c d r ty op : lexer_wf lx -> rest lx = c :: d :: r ->
  String.length op = 2 -> emits lx (emit2 ty op (pos lx) lx) op ty.
Proof.
  intros Hwf E Hl. unfold emits. rewrite Hl, E. eexists. split; [done|].
  destruct (rest_read _ _ _ Hwf E) as (_&_&Hw&E'). by apply (rest_read _ d r).
Qed.

Lemma emit3_emits lx c d e r ty op : lexer_wf lx -> rest lx = c :: d :: e :: r ->
  String.length op = 3 -> emits lx (emit3 ty op (pos lx) lx) op ty.
Proof.
  intros Hwf E Hl. unfold emits. rewrite Hl, E. eexists. split; [done|].
  destruct (rest_read _ _ _ Hwf E) as (_&_&Hw&E').
  destruct (rest_read _ _ _ Hw E') as (_&_&Hw'&E''). by apply (rest_read _ e r).
Qed.

(** The table's entries with a given first character. *)
Definition head_is (c : ascii) (e : string * TokenType) : bool :=
  match e.1 with String k _ => Ascii.eqb c k | EmptyString => false end.
Definition tail_of (op : string) : string :=
  match op with String _ op' => op' | EmptyString => EmptyString end.

Lemma longest_operator_head c r :
  longest_operator (c :: r) =
  fold_left longer (List.filter (fun e => is_prefix (tail_of e.1) r)
                      (List.filter (head_is c) operators)) None.
Proof.
  unfold longest_operator. f_equal.
  assert (Forall (fun e : string * TokenType => e.1 <> EmptyString) operators) as Hn
    by (unfold operators; repeat constructor; done).
  induction Hn as [|[op ty] ops Hne _ IH]; [done|]. cbn in Hne |- *.
  destruct op as [|k op]; [done|]. unfold head_is at 1. cbn.
  destruct (Ascii.eqb c k); cbn; [destruct (is_prefix op r); congruence | done].
Qed.

Lemma filter_none {A} (f : A -> bool) l : Forall (fun x => f x = false) l -> List.filter f l = [].
Proof. induction 1 as [|x l Hx _ IH]; simpl; [done | by rewrite Hx]. Qed.

(** No table entry starts with a character the switch does not test. *)
Ltac by_no_operator H :=
  match type of H with context [head_is ?c] => rewrite (filter_none (head_is c)) in H end;
  [discriminate H|];
  unfold operators; repeat (constructor; [assumption|]); constructor.

(** Evaluates the tests on known characters, in [H] and in the goal, and nothing else. *)
Ltac eval_chars H :=
  cbn [Ascii.eqb Bool.eqb hd List.filter is_prefix tail_of fst snd fold_left longer String.length
       Nat.ltb Nat.leb andb orb] in H;
  cbn [Ascii.eqb Bool.eqb hd zero andb orb].

(** The entries that start with a known character. *)
Ltac known_operators H :=
  match type of H with context [List.filter (head_is ?c) ?ops] =>
    let v := eval vm_compute in (List.filter (head_is c) ops) in
    change (List.filter (head_is c) ops) with v in H
  end.

(** One case of the switch: decide the lookahead tests, then the table and the code agree. *)
Ltac operator_cases Hp Hp2 H Hcom :=
  unfold lex_lparen, lex_rparen, lex_lbrace, lex_rbrace, lex_colon, lex_plus, lex_minus,
    lex_star, lex_percent, lex_slash, lex_equal, lex_bang, lex_less, lex_greater, lex_amp,
    lex_bar, lex_caret, lex_dot;
  known_operators H; rewrite ?Hp, ?(Hp2 _ _ _ eq_refl); eval_chars H; unfold comment_start in Hcom; eval_chars Hcom;
  repeat match goal with
  | |- context [Ascii.eqb ?d ?k] =>
      is_var d; destruct (Ascii.eqb d k) eqn:?E;
      [match goal with X : Ascii.eqb d k = true |- _ => apply aeqb_true in X; subst d end
      |match goal with X : Ascii.eqb d k = false |- _ => rewrite ?X in H, Hcom end];
      eval_chars H; eval_chars Hcom
  end;
  try discriminate; injection H as <- <-;
  lazymatch goal with
  | |- emits _ (emit3 _ _ _ _) _ _ => eapply emit3_emits; [eassumption | eassumption | reflexivity]
  | |- emits _ (emit2 _ _ _ _) _ _ => eapply emit2_emits; [eassumption | eassumption | reflexivity]
  | |- emits _ (emit1 _ _ _ _) _ _ =>
      eapply emit1_emits; [eassumption | eassumption | eassumption | reflexivity]
  end.

Lemma longest_step lx c r : lexer_wf lx -> rest lx = c :: r ->
  comment_start (c :: r) = false -> forall op ty, longest_operator (c :: r) = Some (op, ty) ->
  emits lx (lex_switch (pos lx) lx) op ty.
Proof.
  intros Hwf E Hcom op ty H. destruct (rest_read _ _ _ Hwf E) as (Hc&Hz&Hw1&E1).
  pose proof (fun x => peek_is_rest _ _ _ x Hwf E) as Hp.
  assert (forall x d r', r = d :: r' -> peek_is (lexer_read_char lx) x = Ascii.eqb (hd zero r') x)
    as Hp2 by (intros x d r' ->; by eapply peek_is_rest).
  rewrite longest_operator_head in H. unfold lex_switch. rewrite Hc.
  destruct (Ascii.eqb c zero) eqn:E0; [by apply aeqb_true in E0|].
  destruct (Ascii.eqb c newline) eqn:En; [apply aeqb_true in En; rewrite En in H; known_operators H; discriminate|].
  pose proof (asi_push_scan (token_eqb (prev_token_type lx) TOKEN_VAR) lx).
  pose proof (asi_push_scan (token_eqb (prev_token_type lx) TOKEN_STRUCT
               || token_eqb (prev_token_type lx) TOKEN_INTERFACE) lx).
  pose proof (asi_pop_scan lx). pose proof (same_scan_refl lx).
  destruct r as [|d [|e r]];
  repeat match goal with
  | |- emits _ (if Ascii.eqb c ?k then _ else _) _ _ =>
      destruct (Ascii.eqb c k) eqn:?E;
      [match goal with X : Ascii.eqb c k = true |- _ => apply aeqb_true in X end;
       clear Hz Hw1 E1 Hc E0 En; subst c; solve [operator_cases Hp Hp2 H Hcom] |]
  end; exfalso; by_no_operator H.
Qed.

(** longest match.  Wherever the text is at an operator or punctuation character and not
    at a comment, [lexer_next_token] returns the longest entry of the operator table that is a
    prefix of the unread text (with its kind, spelling and length), and leaves exactly the text
    after it unread; in particular [=>], [&^] and [<<=] are never split. *)
Theorem operator_longest_match lx op ty :
  lexer_wf lx -> comment_start (rest lx) = false ->
  longest_operator (rest lx) = Some (op, ty) ->
  exists l, lexer_next_token lx =
              Some (token_new ty (lit op) (String.length op) (pos lx), l) /\
            rest l = drop (String.length op) (rest lx) /\ lexer_wf l.
Proof.
  intros Hwf Hcom H. destruct (rest lx) as [|c r] eqn:E; [by vm_compute in H|].
  destruct (longest_step lx c r Hwf E Hcom op ty H) as (l&Hl&Hrest).
  destruct (rest_read _ _ _ Hwf E) as (Hc&Hz&_&_).
  assert (lexer_is_whitespace (ch lx) = false) as Hw.
  { rewrite Hc. rewrite longest_operator_head in H. unfold lexer_is_whitespace.
    apply orb_false_iff; split; [apply orb_false_iff; split|]; apply aeqb_false; intros ->;
      known_operators H; discriminate H. }
  rewrite next_token_switch, Hl by done. eexists. split; [done|].
  rewrite (rest_same _ _ (finish_scan _ _)), Hrest, E. split; [done|].
  pose proof (switch_ok (pos lx) lx Hwf) as Hs. rewrite Hl in Hs.
  eapply same_scan_wf; [apply finish_scan|].
  destruct Hs as [(Hz'&_)|(_&_&Hs&_)]; [congruence | done].
Qed.

Definition at_text (s : string) : Lexer := lexer_new (list_ascii_of_string s).

Lemma operator_longest_match_witness :
  longest_operator (rest (at_text "<<=1")) = Some ("<<="%string, TOKEN_LSHIFT_ASSIGN) /\
  exists l, lexer_next_token (at_text "<<=1") =
              Some (token_new TOKEN_LSHIFT_ASSIGN (lit "<<=") 3 (mkPos 1 1 0), l) /\
            rest l = ["1"%char] /\ lexer_wf l.
Proof.
  split; [vm_compute; reflexivity|].
  apply (operator_longest_match (at_text "<<=1") "<<=" TOKEN_LSHIFT_ASSIGN);
    [apply lexer_new_wf | vm_compute; reflexivity | vm_compute; reflexivity].
Defined.

(** ** Words. *)
Definition is_word_char (c : ascii) : bool := lexer_is_letter c || lexer_is_digit c.

(** The kind of a word: the keyword map's entry, or an identifier. *)
Definition word_type (w : list ascii) : TokenType :=
  default TOKEN_IDENT ((list_to_map keywords : gmap string TokenType) !! string_of_list_ascii w).

Lemma scan_keywords_lookup ks w :
  (if scan_is_keyword ks w then scan_keyword_type ks w else TOKEN_IDENT) =
  default TOKEN_IDENT ((list_to_map ks : gmap string TokenType) !! w).
Proof.
  induction ks as [|[k t] ks IH]; simpl; [by rewrite lookup_empty|].
  destruct (String.eqb_spec w k) as [->|Hne].
  - by rewrite lookup_insert_eq.
  - rewrite lookup_insert_ne by done. exact IH.
Qed.

Lemma next_token_emit lx t l :
  lexer_is_whitespace (ch lx) = false -> lex_switch (pos lx) lx = Emit t l ->
  lexer_next_token lx = Some (t, lex_finish t l).
Proof. intros Hw Hs. by rewrite next_token_switch, Hs. Qed.

(** The switch reaches its default case on letters and digits. *)
Lemma switch_default p lx :
  isalpha (ch lx) || Ascii.eqb (ch lx) "_" || isdigit (ch lx) = true ->
  lexer_is_whitespace (ch lx) = false /\ lex_switch p lx = lex_default p lx.
Proof.
  intros H. split.
  - unfold lexer_is_whitespace.
    apply orb_false_iff; split; [apply orb_false_iff; split|]; apply aeqb_false; intros E;
      rewrite E in H; discriminate H.
  - unfold lex_switch.
    repeat match goal with
    | |- (if Ascii.eqb (ch lx) ?k then _ else _) = _ =>
        destruct (Ascii.eqb (ch lx) k) eqn:E;
        [apply aeqb_true in E; rewrite E in H; discriminate H | clear E]
    end. done.
Qed.

Lemma take_all_zero (w : list ascii) : take (length w) (w ++ [zero]) = w.
Proof. by rewrite take_app_length. Qed.

(** words.  At a letter or underscore, the next token is the maximal run of letters, digits
    and underscores; its kind is the keyword table's for that spelling and [TOKEN_IDENT] for
    any other, and the text after the run stays unread. *)
Theorem word_token lx :
  lexer_wf lx -> lexer_is_letter (ch lx) = true ->
  let w := take_while is_word_char (rest lx) in
  exists l, lexer_next_token lx = Some (mkToken (word_type w) (Some w) (length w) (pos lx), l) /\
            rest l = drop_while is_word_char (rest lx).
Proof.
  intros Hwf Hl w. destruct (switch_default (pos lx) lx) as [Hw Hs].
  { unfold lexer_is_letter in Hl. by rewrite Hl. }
  destruct (read_class is_word_char (S (left_to_read lx)) lx eq_refl Hwf ltac:(lia))
    as (Hwf'&Hrest&Hslice). fold w in Hslice.
  pose proof (run_while _ (S (left_to_read lx)) lx stops_word) as Hrun.
  pose proof (length_slice _ _ Hwf Hrun) as Hlen.
  unfold lex_default in Hs. rewrite Hl in Hs. unfold lexer_read_identifier in Hs.
  cbv beta iota zeta in Hs.
  change (fun l => lexer_is_letter (ch l) || lexer_is_digit (ch l))
    with (fun l => is_word_char (ch l)) in Hrun, Hlen, Hs.
  set (l1 := read_while _ _ lx) in *. rewrite <- !(slice_run lx l1) in Hs by done.
  rewrite Hslice in Hlen, Hs. rewrite <- Hlen in Hs.
  erewrite next_token_emit; [|done|exact Hs]. eexists. split.
  - unfold token_is_keyword, token_keyword_type. rewrite scan_keywords_lookup.
    unfold token_new, option_map. rewrite take_all_zero. fold (word_type w). reflexivity.
  - by rewrite (rest_same _ _ (finish_scan _ _)).
Qed.

Lemma word_token_witness :
  exists l, lexer_next_token (at_text "func2 x") =
    Some (mkToken TOKEN_IDENT (lit "func2") 5 (mkPos 1 1 0), l) /\ rest l = [" "; "x"]%char.
Proof.
  pose proof (word_token (at_text "func2 x") (lexer_new_wf _) eq_refl) as H.
  destruct H as (l&H1&H2). exists l. split; [rewrite H1; reflexivity | rewrite H2; reflexivity].
Defined.

(** ** String literals. *)
Definition hex_char (d : Z) : ascii :=
  ascii_of_nat (if (d <? 10)%Z then code "0" + Z.to_nat d else code "a" + Z.to_nat (d - 10)).

(** A canonical spelling of one byte inside double quotes. *)
Definition quote_byte (c : ascii) : list ascii :=
  if Ascii.eqb c "\" then ["\"; "\"]%char
  else if Ascii.eqb c "034" then ["\"; "034"]%char
  else if in_range " " "~" c then [c]
  else ["\"%char; "x"%char; hex_char (Z.shiftr (Z.of_nat (code c)) 4);
        hex_char (Z.land (Z.of_nat (code c)) 15)].

Definition quote (s : list ascii) : list ascii :=
  ["034"%char] ++ flat_map quote_byte s ++ ["034"%char].

(** The scanning loop of [lexer_read_string], on the unread text. *)
Fixpoint scan_body (s : list ascii) : list ascii :=
  match s with
  | [] => []
  | c :: s' =>
      if Ascii.eqb c "034" then s
      else if Ascii.eqb c "\" then match s' with [] => [] | _ :: s'' => scan_body s'' end
      else scan_body s'
  end.

Lemma scan_string_body_rest fuel lx : lexer_wf lx -> left_to_read lx < fuel ->
  lexer_wf (scan_string_body fuel lx) /\ rest (scan_string_body fuel lx) = scan_body (rest lx).
Proof.
  revert lx. induction fuel as [|f IH]; intros lx Hwf Hf; [lia|]. simpl.
  destruct (Ascii.eqb (ch lx) zero) eqn:E0.
  { rewrite orb_true_r. split; [done|]. apply aeqb_true in E0. by rewrite (proj1 (rest_nil _ Hwf) E0). }
  chars. pose proof (rest_cons _ Hwf E0) as Hr. rewrite orb_false_r, Hr.
  pose proof (left_to_read_step _ Hwf E0). pose proof (read_char_wf _ Hwf E0) as Hw1. simpl.
  destruct (Ascii.eqb (ch lx) "034"); [by rewrite <- Hr|].
  destruct (Ascii.eqb (ch lx) "\"); [|apply IH; [done|lia]].
  set (l1 := lexer_read_char lx) in *. destruct (Ascii.eqb (ch l1) zero) eqn:E1.
  - apply aeqb_true, (rest_nil _ Hw1) in E1. rewrite E1.
    destruct (IH l1) as [? ->]; [done|lia|]. by rewrite E1.
  - apply aeqb_false in E1. rewrite (rest_cons _ Hw1 E1).
    pose proof (left_to_read_step _ Hw1 E1). apply IH; [by apply read_char_wf | lia].
Qed.

Lemma scan_body_byte c r : scan_body (quote_byte c ++ r) = scan_body r.
Proof. by destruct c as [[] [] [] [] [] [] [] []]. Qed.

Lemma decode_byte c r : decode_escapes (quote_byte c ++ r) = option_map (cons c) (decode_escapes r).
Proof. by destruct c as [[] [] [] [] [] [] [] []]. Qed.

Lemma scan_body_quote s tail : scan_body (flat_map quote_byte s ++ "034"%char :: tail) =
  "034"%char :: tail.
Proof.
  induction s as [|c s IH]; [done|]. cbn [flat_map].
  by rewrite <- (assoc_L app), scan_body_byte.
Qed.

Lemma decode_quote s : decode_escapes (flat_map quote_byte s) = Some s.
Proof.
  induction s as [|c s IH]; [done|]. cbn [flat_map]. by rewrite decode_byte, IH.
Qed.

Lemma read_string_rest lx body tail : lexer_wf lx ->
  rest lx = "034"%char :: body ++ "034"%char :: tail ->
  scan_body (body ++ "034"%char :: tail) = "034"%char :: tail ->
  exists l, lexer_wf l /\ rest l = tail /\
    lexer_read_string lx =
      match decode_escapes body with
      | Some out => (Some out, l)
      | None => (None, scan_string_body (S (left_to_read (lexer_read_char lx))) (lexer_read_char lx))
      end.
Proof.
  intros Hwf E Hscan. destruct (rest_read _ _ _ Hwf E) as (_&_&Hw1&E1).
  unfold lexer_read_string. set (l1 := lexer_read_char lx) in *.
  destruct (scan_string_body_rest (S (left_to_read l1)) l1 Hw1 ltac:(lia)) as [Hw2 E2].
  pose proof (scan_string_body_run (S (left_to_read l1)) l1) as Hrun.
  set (l2 := scan_string_body _ l1) in *. rewrite E1, Hscan in E2.
  pose proof (slice_rest l1 l2 _ Hw1 Hrun eq_refl) as Hslice. rewrite E1, E2 in Hslice.
  apply app_inv_tail in Hslice. rewrite Hslice.
  destruct (rest_read _ _ _ Hw2 E2) as (Hc&_&Hw3&E3). rewrite Hc.
  exists (lexer_read_char l2). by split_and!; [..|destruct (decode_escapes body)].
Qed.

(** C3: string literals round-trip.  For every byte string [s], the literal that spells it
    (printable bytes as themselves, backslash and quote escaped, every other byte as [\xNN])
    lexes to one TOKEN_STRING whose bytes are exactly [s], NUL and non-ASCII included, with the
    text after the closing quote unread. *)
Theorem string_literal_roundtrip lx s tail :
  lexer_wf lx -> rest lx = quote s ++ tail ->
  exists l, lexer_next_token lx = Some (mkToken TOKEN_STRING (Some s) (length s) (pos lx), l) /\
            rest l = tail.
Proof.
  intros Hwf E. unfold quote in E. rewrite <- !(assoc_L app) in E. cbn [app] in E.
  destruct (rest_read _ _ _ Hwf E) as (Hc&_&_&_).
  destruct (read_string_rest lx _ _ Hwf E (scan_body_quote s tail)) as (l&Hl&Hrest&Hrs).
  rewrite decode_quote in Hrs.
  erewrite next_token_emit; [|by rewrite Hc | unfold lex_switch; rewrite Hc; cbn [Ascii.eqb Bool.eqb];
    unfold lex_string; by rewrite Hrs].
  eexists. unfold token_new, option_map. rewrite take_all_zero. split; [reflexivity|].
  by rewrite (rest_same _ _ (finish_scan _ _)).
Qed.

Definition odd_bytes : list ascii := ["a"; zero; "034"; "\"; "255"; newline]%char.

Lemma string_literal_roundtrip_witness :
  rest (lexer_new (quote odd_bytes ++ [";"%char])) = quote odd_bytes ++ [";"%char] /\
  exists l, lexer_next_token (lexer_new (quote odd_bytes ++ [";"%char])) =
    Some (mkToken TOKEN_STRING (Some odd_bytes) 6 (mkPos 1 1 0), l) /\ rest l = [";"%char].
Proof.
  split; [reflexivity|].
  apply (string_literal_roundtrip (lexer_new (quote odd_bytes ++ [";"%char])) odd_bytes [";"%char]);
    [apply lexer_new_wf | reflexivity].
Defined.

(** ** Rune literals with a numeric escape. *)
Fixpoint hex_digits (n : nat) (v : Z) : list ascii :=
  match n with
  | O => []
  | S k => hex_char ((v / 16 ^ Z.of_nat k) mod 16) :: hex_digits k v
  end.

Lemma hex_char_spec d : (0 <= d < 16)%Z ->
  hex_digit_value (hex_char d) = d /\ hex_char d <> zero /\ hex_char d <> "'"%char.
Proof.
  intros Hd. assert (exists k : nat, k < 16 /\ d = Z.of_nat k) as (k&Hk&->).
  { exists (Z.to_nat d). lia. }
  do 16 (destruct k as [|k]; [split_and!; [reflexivity | discriminate | discriminate]|]). lia.
Qed.

Lemma mod_digit v k : (0 <= v)%Z -> (0 <= k)%Z ->
  (v mod (16 ^ (k + 1)) = (v / 16 ^ k) mod 16 * 16 ^ k + v mod 16 ^ k)%Z.
Proof.
  intros Hv Hk. rewrite Z.pow_add_r, Z.pow_1_r by lia.
  rewrite Z.rem_mul_r by (try apply Z.pow_nonzero; lia). lia.
Qed.

Lemma decode_hex_spec n v acc : (0 <= v)%Z -> (0 <= acc)%Z ->
  decode_hex_digits acc (hex_digits n v) =
  Some (acc * 16 ^ Z.of_nat n + v mod 16 ^ Z.of_nat n)%Z.
Proof.
  intros Hv. revert acc. induction n as [|k IH]; intros acc Hacc.
  { simpl. by rewrite Z.mod_1_r, Z.mul_1_r, Z.add_0_r. }
  cbn [hex_digits decode_hex_digits]. set (d := ((v / 16 ^ Z.of_nat k) mod 16)%Z).
  assert (0 <= d < 16)%Z as Hd by (apply Z.mod_pos_bound; lia).
  destruct (hex_char_spec d Hd) as (->&_&_). destruct (Z.ltb_spec d 0); [lia|].
  rewrite lor_shiftl_add by lia. change (2 ^ 4)%Z with 16%Z. rewrite IH by lia. f_equal.
  replace (Z.of_nat (S k)) with (Z.of_nat k + 1)%Z by lia.
  rewrite mod_digit by lia. fold d. rewrite Z.pow_add_r, Z.pow_1_r by lia. ring.
Qed.

Lemma hex_digits_ok n v : length (hex_digits n v) = n /\
  Forall (fun c => c <> zero /\ c <> "'"%char) (hex_digits n v).
Proof.
  induction n as [|k [IH1 IH2]]; cbn [hex_digits]; [done|]. split; [simpl; by rewrite IH1|].
  constructor; [|done]. apply hex_char_spec, Z.mod_pos_bound. lia.
Qed.

Lemma read_escape_tail_rest ds r lx : lexer_wf lx -> rest lx = ds ++ r ->
  Forall (fun c => c <> zero /\ c <> "'"%char) ds ->
  lexer_wf (read_escape_tail (length ds) lx) /\ rest (read_escape_tail (length ds) lx) = r.
Proof.
  revert lx. induction ds as [|d ds IH]; intros lx Hwf E Hf; [done|].
  apply Forall_cons in Hf as [[Hz Hq] Hf]. cbn [length read_escape_tail].
  destruct (rest_read _ _ _ Hwf E) as (->&_&Hw&E').
  apply aeqb_false in Hz, Hq. rewrite Hz, Hq. by apply IH.
Qed.

Lemma escape_selector sel : escape_digits sel <> 0 ->
  sel = "x"%char \/ sel = "u"%char \/ sel = "U"%char.
Proof.
  unfold escape_digits. intros H.
  destruct (Ascii.eqb sel "x") eqn:E1; [apply aeqb_true in E1; auto|].
  destruct (Ascii.eqb sel "u") eqn:E2; [apply aeqb_true in E2; auto|].
  destruct (Ascii.eqb sel "U") eqn:E3; [apply aeqb_true in E3; auto | done].
Qed.

Lemma decode_numeric_escape sel n v : escape_digits sel = n -> n <> 0 ->
  (0 <= v < 16 ^ Z.of_nat n)%Z ->
  lexer_decode_char_value ("\"%char :: sel :: hex_digits n v) = Some v.
Proof.
  intros Hn Hn0 Hv. destruct (hex_digits_ok n v) as [Hlen _].
  assert (decode_hex_digits 0 (hex_digits n v) = Some v) as Hd.
  { rewrite decode_hex_spec by lia. rewrite Z.mod_small by lia. done. }
  unfold lexer_decode_char_value. cbn [Ascii.eqb Bool.eqb negb nth].
  assert (Ascii.eqb sel "x" || Ascii.eqb sel "u" || Ascii.eqb sel "U" = true) as ->
    by (destruct (escape_selector sel ltac:(lia)) as [->|[->| ->]]; reflexivity).
  rewrite Hn. cbn [length]. rewrite Hlen. cbn [Nat.add]. rewrite Nat.eqb_refl. exact Hd.
Qed.

(** rune literals with a numeric escape.  A backslash followed by x, u or U and the 2, 4 or
    8 hex digits of [v] lexes, between single quotes, to one TOKEN_INT carrying the decimal
    spelling of [v].  The statement covers every [v] the digits can spell: up to 2^32 - 1 for
    the 8-digit form, beyond the int32 range and the last code point. *)
Theorem rune_escape_roundtrip lx sel n v tail :
  lexer_wf lx -> escape_digits sel = n -> n <> 0 -> (0 <= v < 16 ^ Z.of_nat n)%Z ->
  rest lx = ["'"; "\"; sel]%char ++ hex_digits n v ++ ["'"%char] ++ tail ->
  exists l, lexer_next_token lx =
              Some (mkToken TOKEN_INT (Some (decimal v)) (length (decimal v)) (pos lx), l) /\
            rest l = tail.
Proof.
  intros Hwf Hn Hn0 Hv E. cbn [app] in E. destruct (hex_digits_ok n v) as [Hlen Hf].
  destruct (rest_read _ _ _ Hwf E) as (Hc&Hz&Hw1&E1). set (l1 := lexer_read_char lx) in *.
  destruct (rest_read _ _ _ Hw1 E1) as (Hc1&Hz1&Hw2&E2). set (l2 := lexer_read_char l1) in *.
  destruct (rest_read _ _ _ Hw2 E2) as (Hc2&Hz2&Hw3&E3). set (l3 := lexer_read_char l2) in *.
  destruct (read_escape_tail_rest _ _ _ Hw3 E3 Hf) as [Hw4 E4]. rewrite Hlen in Hw4, E4.
  pose proof (read_escape_tail_run n l3) as Hr. set (l4 := read_escape_tail n l3) in *.
  destruct (rest_read _ _ _ Hw4 E4) as (Hc4&_&Hw5&E5). set (l5 := lexer_read_char l4) in *.
  assert (run l1 l4) as Hr14.
  { eapply run_trans; [apply run1_run, run1_read; by rewrite Hc1|].
    eapply run_trans; [apply run1_run, run1_read; fold l2; by rewrite Hc2 | exact Hr]. }
  pose proof (slice_rest l1 l4 _ Hw1 Hr14 eq_refl) as Hs. rewrite E1, E4 in Hs.
  assert (slice_of l4 (position l1) (position l4 - position l1) =
          "\"%char :: sel :: hex_digits n v) as Hsl.
  { apply (app_inv_tail ("'"%char :: tail)). exact Hs. }
  assert (lexer_read_char_literal lx = (Some ("\"%char :: sel :: hex_digits n v), l5)) as Hl.
  { unfold lexer_read_char_literal. cbv zeta. fold l1. rewrite Hc1. fold l2. rewrite Hc2.
    cbn [Ascii.eqb Bool.eqb]. apply aeqb_false in Hz2. rewrite Hz2. cbn [negb]. fold l3.
    rewrite Hn. fold l4. rewrite Hc4. cbn [Ascii.eqb Bool.eqb negb]. by rewrite Hsl. }
  erewrite next_token_emit; [|by rewrite Hc | unfold lex_switch; rewrite Hc; cbn [Ascii.eqb Bool.eqb];
    unfold lex_char; rewrite Hl; cbn [mbind option_bind];
    rewrite (decode_numeric_escape sel n v) by done; reflexivity].
  eexists. unfold token_new, option_map. rewrite take_all_zero. split; [reflexivity|].
  by rewrite (rest_same _ _ (finish_scan _ _)).
Qed.

Definition rune_text : list ascii := list_ascii_of_string "'\u00e9')".

Lemma rune_escape_roundtrip_witness :
  exists l, lexer_next_token (lexer_new rune_text) =
    Some (mkToken TOKEN_INT (lit "233") 3 (mkPos 1 1 0), l) /\ rest l = [")"%char].
Proof.
  apply (rune_escape_roundtrip (lexer_new rune_text) "u" 4 233 [")"%char]);
    [apply lexer_new_wf | reflexivity | discriminate | lia | reflexivity].
Defined.
