(* ===== verification/Types.v ===== *)
(** * Types: the type representation of [include/types.h] and [src/types/types.c].

    A [Type*] is a [ty]; [NULL] is the null pointer.  The header fields every kind shares are a
    [thdr]; each kind carries the members of its arm of the C union.  Struct fields, interface
    methods and enum variants are reached through a pointer in C and may lead back to the type
    (recursive structs), so here they are keys of a [Store].  Kinds without members of their own
    ([void], the integers, [string], ...) are [TBasic].

    The second half are the operations of types.c on them: constructors, equality, substitution,
    unification, assignability, predicates, name mangling, variables and scopes, and the
    type-parameter helpers of expression_checker.c. *)
From Stdlib Require Import ZArith Lia String Bool.
From stdpp Require Import base list numbers option gmap strings pretty.
From S2P Require Import Prelude.

#[local] Open Scope string_scope.
#[local] Open Scope Z_scope.

(** ** Kinds *)
Inductive TypeKind : Set :=
| TYPE_VOID | TYPE_BOOL
| TYPE_INT8 | TYPE_INT16 | TYPE_INT32 | TYPE_INT64
| TYPE_UINT8 | TYPE_UINT16 | TYPE_UINT32 | TYPE_UINT64
| TYPE_FLOAT32 | TYPE_FLOAT64 | TYPE_STRING | TYPE_CHAR
| TYPE_ARRAY | TYPE_SLICE | TYPE_MAP | TYPE_CHANNEL | TYPE_FUNCTION | TYPE_POINTER
| TYPE_REFERENCE | TYPE_STRUCT | TYPE_ENUM | TYPE_INTERFACE
| TYPE_ERROR_UNION | TYPE_NULLABLE | TYPE_QUALIFIED | TYPE_CONCEPT
| TYPE_PARAM | TYPE_PARAM_HKT | TYPE_CONSTRUCTOR | TYPE_APPLICATION
| TYPE_PACKAGE | TYPE_UNKNOWN | TYPE_POISON.

#[export] Instance TypeKind_eq_dec : EqDecision TypeKind.
Proof. solve_decision. Defined.

(** The value of the enumerator. *)
Definition kind_code (k : TypeKind) : Z :=
  match k with
  | TYPE_VOID => 0 | TYPE_BOOL => 1
  | TYPE_INT8 => 2 | TYPE_INT16 => 3 | TYPE_INT32 => 4 | TYPE_INT64 => 5
  | TYPE_UINT8 => 6 | TYPE_UINT16 => 7 | TYPE_UINT32 => 8 | TYPE_UINT64 => 9
  | TYPE_FLOAT32 => 10 | TYPE_FLOAT64 => 11 | TYPE_STRING => 12 | TYPE_CHAR => 13
  | TYPE_ARRAY => 14 | TYPE_SLICE => 15 | TYPE_MAP => 16 | TYPE_CHANNEL => 17
  | TYPE_FUNCTION => 18 | TYPE_POINTER => 19 | TYPE_REFERENCE => 20 | TYPE_STRUCT => 21
  | TYPE_ENUM => 22 | TYPE_INTERFACE => 23 | TYPE_ERROR_UNION => 24 | TYPE_NULLABLE => 25
  | TYPE_QUALIFIED => 26 | TYPE_CONCEPT => 27 | TYPE_PARAM => 28 | TYPE_PARAM_HKT => 29
  | TYPE_CONSTRUCTOR => 30 | TYPE_APPLICATION => 31 | TYPE_PACKAGE => 32
  | TYPE_UNKNOWN => 33 | TYPE_POISON => 34
  end.

(** The kinds whose union arm is unused. *)
Definition basic_kind (k : TypeKind) : bool :=
  (kind_code k <=? 13) || (32 <=? kind_code k).

Inductive ChannelPattern : Set :=
| CHAN_PATTERN_BASIC | CHAN_PATTERN_PUB | CHAN_PATTERN_SUB | CHAN_PATTERN_REQ
| CHAN_PATTERN_REP | CHAN_PATTERN_PUSH | CHAN_PATTERN_PULL.

Inductive OwnershipKind : Set :=
| OWNERSHIP_NONE | OWNERSHIP_OWNED | OWNERSHIP_BORROWED | OWNERSHIP_SHARED.

Inductive MutabilityKind : Set := MUTABILITY_IMMUTABLE | MUTABILITY_MUTABLE.

#[export] Instance ChannelPattern_eq_dec : EqDecision ChannelPattern.
Proof. solve_decision. Defined.
#[export] Instance OwnershipKind_eq_dec : EqDecision OwnershipKind.
Proof. solve_decision. Defined.
#[export] Instance MutabilityKind_eq_dec : EqDecision MutabilityKind.
Proof. solve_decision. Defined.

(** ** Types *)
Record thdr : Set := Hdr {
  size : Z;
  align : Z;
  tname : option string;
  owner_package : option positive
}.

Local Unset Elimination Schemes.
Inductive ty : Set :=
| NULL
| TBasic (h : thdr) (k : TypeKind) (basic : Is_true (basic_kind k))
| TArray (h : thdr) (element_type : ty) (length : Z) (comptime_length : bool)
| TSlice (h : thdr) (element_type : ty)
| TMap (h : thdr) (key_type value_type : ty)
| TChannel (h : thdr) (element_type : ty) (pattern : ChannelPattern) (endpoint : option string)
| TFunction (h : thdr) (param_types : list ty) (return_type : ty)
    (is_variadic has_comptime_params : bool)
| TPointer (h : thdr) (pointee_type : ty)
| TReference (h : thdr) (referenced_type : ty) (is_mutable : bool)
| TStruct (h : thdr) (name : option string) (fields : positive)
| TEnum (h : thdr) (name : option string) (variants : positive)
| TInterface (h : thdr) (name : option string) (methods : positive)
| TErrorUnion (h : thdr) (value_type error_type : ty)
| TNullable (h : thdr) (base_type : ty)
| TQualified (h : thdr) (base_type : ty) (ownership : OwnershipKind) (mutability : MutabilityKind)
| TConcept (h : thdr) (name : string)
| TParam (h : thdr) (name : string) (index : Z) (constraint : ty)
| THkt (h : thdr) (name : string) (index arity : Z) (kind_signature : string) (constraint : ty)
| TConstructor (h : thdr) (name : string) (arity : Z) (kind_signature : string)
| TApplication (h : thdr) (constructor : ty) (arguments : list ty).
Local Set Elimination Schemes.

(** Induction with the hypothesis for every parameter and argument of the nested lists. *)
Section ty_ind.
Context (P : ty -> Prop).
Hypothesis (HNULL : P NULL).
Hypothesis (HBasic : forall h k b, P (TBasic h k b)).
Hypothesis (HArray : forall h e n c, P e -> P (TArray h e n c)).
Hypothesis (HSlice : forall h e, P e -> P (TSlice h e)).
Hypothesis (HMap : forall h k v, P k -> P v -> P (TMap h k v)).
Hypothesis (HChannel : forall h e p ep, P e -> P (TChannel h e p ep)).
Hypothesis (HFunction : forall h ps r v c, Forall P ps -> P r -> P (TFunction h ps r v c)).
Hypothesis (HPointer : forall h t, P t -> P (TPointer h t)).
Hypothesis (HReference : forall h t m, P t -> P (TReference h t m)).
Hypothesis (HStruct : forall h n f, P (TStruct h n f)).
Hypothesis (HEnum : forall h n f, P (TEnum h n f)).
Hypothesis (HInterface : forall h n f, P (TInterface h n f)).
Hypothesis (HErrorUnion : forall h v e, P v -> P e -> P (TErrorUnion h v e)).
Hypothesis (HNullable : forall h t, P t -> P (TNullable h t)).
Hypothesis (HQualified : forall h t o m, P t -> P (TQualified h t o m)).
Hypothesis (HConcept : forall h n, P (TConcept h n)).
Hypothesis (HParam : forall h n i c, P c -> P (TParam h n i c)).
Hypothesis (HHkt : forall h n i a s c, P c -> P (THkt h n i a s c)).
Hypothesis (HConstructor : forall h n a s, P (TConstructor h n a s)).
Hypothesis (HApplication : forall h c args, P c -> Forall P args -> P (TApplication h c args)).

Fixpoint ty_ind (t : ty) : P t :=
  let all := fix all (ts : list ty) : Forall P ts :=
    match ts with
    | [] => @List.Forall_nil _ P
    | t :: ts => @List.Forall_cons _ P _ _ (ty_ind t) (all ts)
    end in
  match t with
  | NULL => HNULL
  | TBasic h k b => HBasic h k b
  | TArray h e n c => HArray h e n c (ty_ind e)
  | TSlice h e => HSlice h e (ty_ind e)
  | TMap h k v => HMap h k v (ty_ind k) (ty_ind v)
  | TChannel h e p ep => HChannel h e p ep (ty_ind e)
  | TFunction h ps r v c => HFunction h ps r v c (all ps) (ty_ind r)
  | TPointer h t => HPointer h t (ty_ind t)
  | TReference h t m => HReference h t m (ty_ind t)
  | TStruct h n f => HStruct h n f
  | TEnum h n f => HEnum h n f
  | TInterface h n f => HInterface h n f
  | TErrorUnion h v e => HErrorUnion h v e (ty_ind v) (ty_ind e)
  | TNullable h t => HNullable h t (ty_ind t)
  | TQualified h t o m => HQualified h t o m (ty_ind t)
  | TConcept h n => HConcept h n
  | TParam h n i c => HParam h n i c (ty_ind c)
  | THkt h n i a s c => HHkt h n i a s c (ty_ind c)
  | TConstructor h n a s => HConstructor h n a s
  | TApplication h c args => HApplication h c args (ty_ind c) (all args)
  end.
End ty_ind.

Record StructField : Set := Field {
  f_name : option string;
  f_type : ty;
  f_offset : Z;
  f_ownership : OwnershipKind;
  f_mutability : MutabilityKind;
  is_embedded : bool
}.

Record InterfaceMethod : Set := Method { m_name : option string; m_type : ty }.

Record EnumVariant : Set := Variant { ev_name : option string; ev_payload : ty; ev_tag : Z }.

(** The arrays (or linked lists) the struct, interface and enum types point to. *)
Record Store : Type := {
  fields_at : gmap positive (list StructField);
  methods_at : gmap positive (list InterfaceMethod);
  variants_at : gmap positive (list EnumVariant)
}.

(** ** Reading a type *)
Definition hdr0 : thdr := Hdr 0 0 None None.

Definition hdr (t : ty) : thdr :=
  match t with
  | NULL => hdr0
  | TBasic h _ _ | TArray h _ _ _ | TSlice h _ | TMap h _ _ | TChannel h _ _ _
  | TFunction h _ _ _ _ | TPointer h _ | TReference h _ _ | TStruct h _ _ | TEnum h _ _
  | TInterface h _ _ | TErrorUnion h _ _ | TNullable h _ | TQualified h _ _ _ | TConcept h _
  | TParam h _ _ _ | THkt h _ _ _ _ _ | TConstructor h _ _ _ | TApplication h _ _ => h
  end.

(** [t->kind]; a null pointer has none. *)
Definition kind (t : ty) : option TypeKind :=
  match t with
  | NULL => None
  | TBasic _ k _ => Some k
  | TArray _ _ _ _ => Some TYPE_ARRAY
  | TSlice _ _ => Some TYPE_SLICE
  | TMap _ _ _ => Some TYPE_MAP
  | TChannel _ _ _ _ => Some TYPE_CHANNEL
  | TFunction _ _ _ _ _ => Some TYPE_FUNCTION
  | TPointer _ _ => Some TYPE_POINTER
  | TReference _ _ _ => Some TYPE_REFERENCE
  | TStruct _ _ _ => Some TYPE_STRUCT
  | TEnum _ _ _ => Some TYPE_ENUM
  | TInterface _ _ _ => Some TYPE_INTERFACE
  | TErrorUnion _ _ _ => Some TYPE_ERROR_UNION
  | TNullable _ _ => Some TYPE_NULLABLE
  | TQualified _ _ _ _ => Some TYPE_QUALIFIED
  | TConcept _ _ => Some TYPE_CONCEPT
  | TParam _ _ _ _ => Some TYPE_PARAM
  | THkt _ _ _ _ _ _ => Some TYPE_PARAM_HKT
  | TConstructor _ _ _ _ => Some TYPE_CONSTRUCTOR
  | TApplication _ _ _ => Some TYPE_APPLICATION
  end.

Definition is_NULL (t : ty) : bool := match t with NULL => true | _ => false end.

Definition has_kind (k : TypeKind) (t : ty) : bool := bool_decide (kind t = Some k).

(** ** Constructors *)
(** [snprintf(buf, cap, ...)] keeps at most [cap - 1] characters. *)
Definition snprintf (cap : nat) (s : string) : string := substring 0 (cap - 1) s.

Definition type_to_string (t : ty) : string :=
  match t with
  | NULL => "null"
  | TStruct _ n _ => default "struct" n
  | _ => default "?" (tname (hdr t))
  end.

(** [t->name ? t->name : "?"] *)
Definition name_or_q (t : ty) : string := default "?" (tname (hdr t)).

Definition hdr_of (sz al : Z) (n : string) : thdr := Hdr sz al (Some n) None.

Definition type_void : ty := TBasic (hdr_of 0 1 "void") TYPE_VOID I.
Definition type_bool : ty := TBasic (hdr_of 1 1 "bool") TYPE_BOOL I.
Definition type_poison : ty := TBasic (hdr_of 0 1 "<poisoned>") TYPE_POISON I.
Definition type_string_type : ty := TBasic (hdr_of 8 8 "string") TYPE_STRING I.
Definition type_char : ty := TBasic (hdr_of 1 1 "char") TYPE_CHAR I.

Definition type_int (bits : Z) (is_signed : bool) : ty :=
  match bits, is_signed with
  | 8, true => TBasic (hdr_of 1 1 "int8") TYPE_INT8 I
  | 8, false => TBasic (hdr_of 1 1 "uint8") TYPE_UINT8 I
  | 16, true => TBasic (hdr_of 2 2 "int16") TYPE_INT16 I
  | 16, false => TBasic (hdr_of 2 2 "uint16") TYPE_UINT16 I
  | 32, true => TBasic (hdr_of 4 4 "int32") TYPE_INT32 I
  | 32, false => TBasic (hdr_of 4 4 "uint32") TYPE_UINT32 I
  | 64, true => TBasic (hdr_of 8 8 "int64") TYPE_INT64 I
  | 64, false => TBasic (hdr_of 8 8 "uint64") TYPE_UINT64 I
  | _, _ => NULL
  end.

Definition type_float (bits : Z) : ty :=
  match bits with
  | 32 => TBasic (hdr_of 4 4 "float32") TYPE_FLOAT32 I
  | 64 => TBasic (hdr_of 8 8 "float64") TYPE_FLOAT64 I
  | _ => NULL
  end.

Definition type_array (e : ty) (length : Z) : ty :=
  if is_NULL e then NULL else
  TArray (hdr_of (u64 (size (hdr e) * length)) (align (hdr e))
            (snprintf 64 ("[" +:+ pretty length +:+ "]" +:+ name_or_q e)))
    e length false.

(** [dim] is the identifier of the length expression, if it is one. *)
Definition type_array_mark_comptime (t : ty) (dim : option string) : ty :=
  match t with
  | TArray h e n _ =>
      TArray (Hdr (size h) (align h)
                (Some ("[" +:+ default "comptime" dim +:+ "]" +:+
                       (if is_NULL e then "?" else name_or_q e))) (owner_package h)) e n true
  | _ => t
  end.

Definition type_slice (e : ty) : ty :=
  if is_NULL e then NULL else
  TSlice (hdr_of 24 8 (snprintf 64 ("[]" +:+ type_to_string e))) e.

Definition type_map (k v : ty) : ty :=
  if is_NULL k || is_NULL v then NULL else
  TMap (hdr_of 8 8 (snprintf 128 ("map[" +:+ type_to_string k +:+ "]" +:+ type_to_string v))) k v.

Definition pattern_str (p : ChannelPattern) : string :=
  match p with
  | CHAN_PATTERN_PUB => "pub " | CHAN_PATTERN_SUB => "sub "
  | CHAN_PATTERN_REQ => "req " | CHAN_PATTERN_REP => "rep "
  | CHAN_PATTERN_PUSH => "push " | CHAN_PATTERN_PULL => "pull "
  | CHAN_PATTERN_BASIC => ""
  end.

Definition type_channel (e : ty) (pattern : ChannelPattern) : ty :=
  if is_NULL e then NULL else
  TChannel (hdr_of 8 8 (snprintf 128 (pattern_str pattern +:+ "chan " +:+ name_or_q e)))
    e pattern None.

(** The text of a parameter list: the strings with [", "] between them. *)
Fixpoint comma_join (names : list string) : string :=
  match names with
  | [] => ""
  | [n] => n
  | n :: rest => n +:+ ", " +:+ comma_join rest
  end.

Definition param_string (p : ty) : string := if is_NULL p then "?" else type_to_string p.

Definition type_function (ps : list ty) (r : ty) : ty :=
  let has_return := negb (is_NULL r) && negb (has_kind TYPE_VOID r) in
  TFunction (hdr_of 8 8 ("func(" +:+ comma_join (map param_string ps) +:+ ")" +:+
                         (if has_return then " " +:+ type_to_string r else "")))
    ps r false false.

Definition type_strip_receiver (m : ty) : ty :=
  match m with
  | TFunction _ (_ :: ps) r v _ =>
      match type_function ps r with
      | TFunction h ps' r' _ c => TFunction h ps' r' v c
      | t => t
      end
  | _ => NULL
  end.

Definition type_pointer (t : ty) : ty :=
  if is_NULL t then NULL else
  TPointer (hdr_of 8 8 (snprintf 64 ("*" +:+ type_to_string t))) t.

Definition type_reference (t : ty) (is_mutable : bool) : ty :=
  if is_NULL t then NULL else
  TReference (hdr_of 8 8
    (snprintf 80 ((if is_mutable then "mut &" else "&") +:+ type_to_string t))) t is_mutable.

Definition type_error_union (v e : ty) : ty :=
  if is_NULL v then NULL else
  TErrorUnion (hdr_of (u64 (size (hdr v) + 4)) (if 4 <? align (hdr v) then align (hdr v) else 4)
    (snprintf 64 ("!" +:+ type_to_string v))) v e.

Definition type_nullable (b : ty) : ty :=
  if is_NULL b then NULL else
  TNullable (hdr_of (u64 (size (hdr b) + 1)) (align (hdr b))
    (snprintf 64 ("?" +:+ type_to_string b))) b.

Definition ownership_str (o : OwnershipKind) : string :=
  match o with
  | OWNERSHIP_OWNED => "owned " | OWNERSHIP_BORROWED => "borrowed "
  | OWNERSHIP_SHARED => "shared " | OWNERSHIP_NONE => ""
  end.

Definition type_qualified (b : ty) (o : OwnershipKind) (m : MutabilityKind) : ty :=
  if is_NULL b then NULL else
  TQualified (hdr_of (size (hdr b)) (align (hdr b))
    (snprintf 128 (ownership_str o +:+ (if decide (m = MUTABILITY_MUTABLE) then "mut " else "") +:+
                   name_or_q b))) b o m.

Definition type_concept (name : string) : ty := TConcept (hdr_of 0 0 name) name.

Definition type_param (name : string) (index : Z) (constraint : ty) : ty :=
  TParam (hdr_of 0 0 name) name index constraint.

(** The display name gets [strlen(name) + 10] bytes. *)
Definition type_param_hkt (name : string) (index arity : Z) (sig : option string)
    (constraint : ty) : ty :=
  THkt (hdr_of 0 0 (snprintf (String.length name + 10) (name +:+ "<_>")))
    name index arity (default "* -> *" sig) constraint.

Definition type_constructor (name : string) (arity : Z) (sig : option string) : ty :=
  TConstructor (hdr_of 0 0 name) name arity (default "*" sig).

(** [None]: a null argument is dereferenced for its name. *)
Definition type_application (c : ty) (args : list ty) : option ty :=
  match args with
  | [] => Some NULL
  | _ =>
    if is_NULL c then Some NULL else
    match tname (hdr c) with
    | None => Some (TApplication (Hdr 0 0 None None) c args)
    | Some cn =>
        if existsb is_NULL args then None
        else Some (TApplication
               (hdr_of 0 0 (cn +:+ "<" +:+ comma_join (map name_or_q args) +:+ ">")) c args)
    end
  end.

(** ** Predicates *)
Definition type_is_integer (t : ty) : bool :=
  match kind t with
  | None => false
  | Some k => (kind_code TYPE_INT8 <=? kind_code k) && (kind_code k <=? kind_code TYPE_UINT64)
  end.

Definition type_is_float (t : ty) : bool := has_kind TYPE_FLOAT32 t || has_kind TYPE_FLOAT64 t.

Definition type_is_numeric (t : ty) : bool := type_is_integer t || type_is_float t.

Definition type_is_signed (t : ty) : bool :=
  has_kind TYPE_INT8 t || has_kind TYPE_INT16 t || has_kind TYPE_INT32 t || has_kind TYPE_INT64 t
  || has_kind TYPE_FLOAT32 t || has_kind TYPE_FLOAT64 t.

Definition type_is_pointer_like (t : ty) : bool :=
  has_kind TYPE_POINTER t || has_kind TYPE_SLICE t || has_kind TYPE_MAP t
  || has_kind TYPE_CHANNEL t || has_kind TYPE_STRING t.

Definition type_is_nilable_ref_kind (t : ty) : bool :=
  has_kind TYPE_POINTER t || has_kind TYPE_SLICE t || has_kind TYPE_MAP t
  || has_kind TYPE_CHANNEL t || has_kind TYPE_FUNCTION t.

Definition type_is_nullable (t : ty) : bool := has_kind TYPE_NULLABLE t.
Definition type_is_error_union (t : ty) : bool := has_kind TYPE_ERROR_UNION t.
Definition type_is_error (t : ty) : bool := bool_decide (tname (hdr t) = Some "error").
Definition type_is_poison (t : ty) : bool := has_kind TYPE_POISON t.
Definition type_size (t : ty) : Z := size (hdr t).
Definition type_align (t : ty) : Z := if is_NULL t then 1 else align (hdr t).

(** ** Equality *)
Fixpoint type_equals (a b : ty) : bool :=
  if is_NULL a || is_NULL b then is_NULL a && is_NULL b else
  if negb (bool_decide (kind a = kind b)) then false else
  match a, b with
  | TArray _ e n _, TArray _ e' n' _ => (n =? n') && type_equals e e'
  | TSlice _ e, TSlice _ e' => type_equals e e'
  | TMap _ k v, TMap _ k' v' => type_equals k k' && type_equals v v'
  | TChannel _ e p _, TChannel _ e' p' _ => bool_decide (p = p') && type_equals e e'
  | TPointer _ t, TPointer _ t' => type_equals t t'
  | TReference _ t m, TReference _ t' m' => Bool.eqb m m' && type_equals t t'
  | TErrorUnion _ v e, TErrorUnion _ v' e' => type_equals v v' && type_equals e e'
  | TNullable _ t, TNullable _ t' => type_equals t t'
  | TQualified _ t o m, TQualified _ t' o' m' =>
      bool_decide (o = o') && bool_decide (m = m') && type_equals t t'
  | TParam _ n i _, TParam _ n' i' _ => (n =? n')%string && (i =? i')
  | THkt _ n i ar _ _, THkt _ n' i' ar' _ _ => (n =? n')%string && (i =? i') && (ar =? ar')
  | TConstructor _ n ar _, TConstructor _ n' ar' _ => (n =? n')%string && (ar =? ar')
  | TApplication _ c args, TApplication _ c' args' =>
      if type_equals c c' then
        if Nat.eqb (List.length args) (List.length args') then all2 type_equals args args' else false
      else false
  | TFunction _ ps r v _, TFunction _ ps' r' v' _ =>
      if Bool.eqb v v' then
        if Nat.eqb (List.length ps) (List.length ps') then
          if all2 type_equals ps ps' then type_equals r r' else false
        else false
      else false
  | _, _ => true
  end.

(** ** Substitution and unification *)
(** [bindings[i]] for [0 <= i < n]; an unset entry is null. *)
Definition binding (bs : list ty) (i : Z) : ty :=
  if (0 <=? i) && (i <? Z.of_nat (List.length bs)) then default NULL (bs !! Z.to_nat i) else NULL.

Definition set_variadic (v : bool) (t : ty) : ty :=
  match t with TFunction h ps r _ c => TFunction h ps r v c | _ => t end.

Fixpoint type_substitute (t : ty) (bs : list ty) : ty :=
  match t with
  | TParam _ _ i _ => let b := binding bs i in if is_NULL b then t else b
  | TSlice _ e => type_slice (type_substitute e bs)
  | TPointer _ p => type_pointer (type_substitute p bs)
  | TFunction _ ps r v _ =>
      set_variadic v (type_function (map (fun p => type_substitute p bs) ps)
                                    (type_substitute r bs))
  | _ => t
  end.

(** The loop over the parameters: it stops at the first failure. *)
Definition unify_lists (unify : ty -> ty -> list ty -> bool * list ty) :=
  fix go (ps qs : list ty) (bs : list ty) : bool * list ty :=
    match ps, qs with
    | p :: ps, q :: qs =>
        match unify p q bs with
        | (true, bs') => go ps qs bs'
        | (false, bs') => (false, bs')
        end
    | _, _ => (true, bs)
    end.

(** The result and the bindings as the call leaves them, on failure too. *)
Fixpoint unify_types (param arg : ty) (bs : list ty) {struct param} : bool * list ty :=
  if is_NULL param || is_NULL arg then (false, bs) else
  match param with
  | TParam _ _ i _ =>
      if negb ((0 <=? i) && (i <? Z.of_nat (List.length bs))) then (false, bs) else
      let b := binding bs i in
      if is_NULL b then (true, <[Z.to_nat i := arg]> bs) else (type_equals b arg, bs)
  | _ =>
    if negb (bool_decide (kind param = kind arg)) then (false, bs) else
    match param, arg with
    | TSlice _ e, TSlice _ e' => unify_types e e' bs
    | TPointer _ t, TPointer _ t' => unify_types t t' bs
    | TFunction _ ps r _ _, TFunction _ ps' r' _ _ =>
        if negb (Nat.eqb (List.length ps) (List.length ps')) then (false, bs) else
        match unify_lists unify_types ps ps' bs with
        | (true, bs') => unify_types r r' bs'
        | (false, bs') => (false, bs')
        end
    | _, _ => (type_equals param arg, bs)
    end
  end.

(** ** Assignability.  [None]: a null pointer is dereferenced for its kind. *)
Fixpoint type_compatible (from to : ty) {struct to} : option bool :=
  if type_equals from to then Some true else
  if type_is_numeric from && type_is_numeric to then
    Some (negb (type_is_float from && type_is_integer to))
  else
  match to with
  | NULL => None
  | TNullable _ base =>
      if is_NULL from then None else
      if has_kind TYPE_UNKNOWN from then Some true else type_compatible from base
  | _ =>
    if is_NULL from then None else
    if has_kind TYPE_UNKNOWN from && type_is_nilable_ref_kind to then Some true else
    match from, to with
    | TQualified _ b _ _, TQualified _ b' _ _ => type_compatible b b'
    | _, _ => Some false
    end
  end.

(** ** Structs, results and names *)
Definition struct_fields (S : Store) (t : ty) : option (list StructField) :=
  match t with TStruct _ _ f => fields_at S !! f | _ => None end.

Definition type_is_error_result_tuple (S : Store) (t : ty) : bool :=
  match struct_fields S t with
  | Some [_; f2] => type_is_error (f_type f2)
  | _ => false
  end.

(** The field kinds the comparator takes as they are. *)
Definition scalar_field (f : ty) : bool :=
  match kind f with
  | Some (TYPE_STRING | TYPE_BOOL | TYPE_CHAR | TYPE_FLOAT32 | TYPE_FLOAT64 | TYPE_POINTER) => true
  | _ => type_is_integer f
  end.

(** [None]: the recursion is deeper than the fuel.  C has no bound: it recurses until the stack
    ends when a struct contains itself by value. *)
Fixpoint type_struct_fields_comparable (fuel : nat) (S : Store) (t : ty) : option bool :=
  match fuel with
  | O => None
  | Datatypes.S fuel =>
    match t with
    | TStruct _ _ key =>
      let each := fix each (fs : list StructField) : option bool :=
        match fs with
        | [] => Some true
        | f :: fs =>
            match f_type f with
            | NULL => Some false
            | TStruct _ _ _ =>
                match type_struct_fields_comparable fuel S (f_type f) with
                | Some true => each fs
                | r => r
                end
            | _ => if scalar_field (f_type f) then each fs else Some false
            end
        end in
      each (default [] (fields_at S !! key))
    | _ => Some false
    end
  end.

(** The sibling predicate of type_checker.c for map keys; the second component is [*why]. *)
Inductive KeyReject : Set := WhyArray | WhyNoncomparable.

Fixpoint struct_is_comparable_key (fuel : nat) (S : Store) (t : ty)
    : option (bool * option KeyReject) :=
  match fuel with
  | O => None
  | Datatypes.S fuel =>
    match t with
    | TStruct _ _ key =>
      let each := fix each (fs : list StructField) : option (bool * option KeyReject) :=
        match fs with
        | [] => Some (true, None)
        | f :: fs =>
            match f_type f with
            | NULL => Some (false, None)
            | TStruct _ _ _ =>
                match struct_is_comparable_key fuel S (f_type f) with
                | Some (true, _) => each fs
                | r => r
                end
            | TArray _ _ _ _ => Some (false, Some WhyArray)
            | _ => if scalar_field (f_type f) then each fs else Some (false, Some WhyNoncomparable)
            end
        end in
      each (default [] (fields_at S !! key))
    | _ => Some (false, None)
    end
  end.

Definition type_method_mangled_name (type_name method_name : option string) : option string :=
  match type_name, method_name with
  | Some t, Some m => Some (t +:+ "__" +:+ m)
  | _, _ => None
  end.

(** [*T] becomes [T] (once). *)
Definition unwrap_receiver (t : ty) : ty :=
  match t with TPointer _ p => if is_NULL p then t else p | _ => t end.

Definition type_receiver_name (t : ty) : option string :=
  if is_NULL t then None else
  let t := unwrap_receiver t in
  match t with
  | TStruct _ (Some n) _ => Some n
  | _ => tname (hdr t)
  end.

Definition type_receiver_owner_package (t : ty) : option positive :=
  owner_package (hdr (unwrap_receiver t)).

(** ** Type parameters in signatures and interfaces (expression_checker.c) *)
Fixpoint type_contains_type_param (t : ty) : bool :=
  match t with
  | TParam _ _ _ _ => true
  | TSlice _ e | TArray _ e _ _ => type_contains_type_param e
  | TPointer _ p | TNullable _ p => type_contains_type_param p
  | TFunction _ ps r _ _ =>
      existsb type_contains_type_param ps || type_contains_type_param r
  | _ => false
  end.

Fixpoint generic_param_constraint (t : ty) (idx : Z) : ty :=
  let first := fix first (ps : list ty) : ty :=
    match ps with
    | [] => NULL
    | p :: ps => let c := generic_param_constraint p idx in if is_NULL c then first ps else c
    end in
  match t with
  | TParam _ _ i c => if i =? idx then c else NULL
  | TSlice _ e => generic_param_constraint e idx
  | TPointer _ p => generic_param_constraint p idx
  | TFunction _ ps r _ _ =>
      let c := first ps in if is_NULL c then generic_param_constraint r idx else c
  | _ => NULL
  end.

Definition void_result (r : ty) : bool := is_NULL r || has_kind TYPE_VOID r.

Definition iface_method_sig_equals (have_fn want_fn : ty) : bool :=
  match have_fn, want_fn with
  | TFunction _ ps hr _ _, TFunction _ qs wr _ _ =>
      Nat.eqb (List.length ps) (List.length qs) && all2 type_equals ps qs &&
      Bool.eqb (void_result hr) (void_result wr) &&
      (void_result hr || type_equals hr wr)
  | _, _ => false
  end.

Definition iface_methods (S : Store) (t : ty) : list InterfaceMethod :=
  match t with TInterface _ _ m => default [] (methods_at S !! m) | _ => [] end.

Definition method_matches (want have : InterfaceMethod) : bool :=
  match m_name have, m_name want with
  | Some hn, Some wn => (hn =? wn)%string && iface_method_sig_equals (m_type have) (m_type want)
  | _, _ => false
  end.

Definition interface_covers (S : Store) (have_iface want_iface : ty) : bool :=
  match want_iface with
  | TInterface _ _ _ =>
      match iface_methods S want_iface with
      | [] => true
      | want =>
          has_kind TYPE_INTERFACE have_iface &&
          forallb (fun w => existsb (method_matches w) (iface_methods S have_iface)) want
      end
  | _ => false
  end.

(** ** Variables and scopes *)
Record Variable_t : Set := mkVariable {
  v_name : string;
  v_type : ty;
  v_ownership : OwnershipKind;
  v_mutability : MutabilityKind;
  is_moved : bool;
  is_borrowed : bool;
  borrow_count : Z;
  is_initialized : bool;
  is_builtin : bool;
  is_captured : bool;
  is_loop_var : bool;
  const_int_value : option Z;      (* [has_const_int_value] and the value *)
  is_generic : bool;
  type_param_count : Z;
  package : option positive;       (* the package a marker stands for *)
  is_comptime_param : bool         (* of its declaration node *)
}.

Definition variable_new (name : string) (type : ty) : Variable_t := {|
  v_name := name; v_type := type; v_ownership := OWNERSHIP_OWNED;
  v_mutability := MUTABILITY_IMMUTABLE; is_moved := false; is_borrowed := false;
  borrow_count := 0; is_initialized := false; is_builtin := false; is_captured := false;
  is_loop_var := false; const_int_value := None; is_generic := false; type_param_count := 0;
  package := None; is_comptime_param := false |}.

(** A scope and, after it, its ancestors: [parent] of an entry is the next one. *)
Record VarScope : Set := mkScope {
  variables : list Variable_t;
  scope_id : Z;
  is_function_boundary : bool
}.
Abbreviation ScopeChain := (list VarScope).

Definition scope_new (parent : ScopeChain) : ScopeChain :=
  mkScope [] (match parent with [] => 0 | p :: _ => scope_id p + 1 end) false :: parent.

Fixpoint find_variable (vars : list Variable_t) (name : string) : option Variable_t :=
  match vars with
  | [] => None
  | v :: vars => if (v_name v =? name)%string then Some v else find_variable vars name
  end.

(** [None] is the 0 of a redeclaration (or of a null scope). *)
Definition scope_add_variable (scope : ScopeChain) (var : Variable_t) : option ScopeChain :=
  match scope with
  | [] => None
  | s :: parents =>
      match find_variable (variables s) (v_name var) with
      | Some _ => None
      | None => Some (mkScope (var :: variables s) (scope_id s) (is_function_boundary s) :: parents)
      end
  end.

Fixpoint scope_lookup_variable (scope : ScopeChain) (name : string) : option Variable_t :=
  match scope with
  | [] => None
  | s :: parents =>
      match find_variable (variables s) name with
      | Some v => Some v
      | None => scope_lookup_variable parents name
      end
  end.
