(* ===== verification/TypesFacts.v ===== *)
(** * TypesFacts: what the type operations of [Types] guarantee.

    Equality is an equivalence: two types are equal exactly when their erasures are ([erase]
    drops what [type_equals] does not read).  Unification is sound and complete for the
    substitution, up to the variadic flag it never compares.  Assignability, comparability,
    interface covering and scopes have their specifications as relations. *)
From Stdlib Require Import ZArith Lia String Bool.
From stdpp Require Import base list numbers option gmap strings pretty.
From S2P Require Import Prelude Types.

#[local] Open Scope string_scope.
#[local] Open Scope Z_scope.

(** ** Equality *)
(** The part of a type [type_equals] looks at; [keep = false] also drops variadic flags. *)
Fixpoint erase_with (keep : bool) (t : ty) : ty :=
  let erase := erase_with keep in
  match t with
  | NULL => NULL
  | TBasic _ k b => TBasic hdr0 k b
  | TArray _ e n _ => TArray hdr0 (erase e) n false
  | TSlice _ e => TSlice hdr0 (erase e)
  | TMap _ k v => TMap hdr0 (erase k) (erase v)
  | TChannel _ e p _ => TChannel hdr0 (erase e) p None
  | TFunction _ ps r v _ => TFunction hdr0 (map erase ps) (erase r) (keep && v) false
  | TPointer _ p => TPointer hdr0 (erase p)
  | TReference _ t m => TReference hdr0 (erase t) m
  | TStruct _ _ _ => TStruct hdr0 None 1
  | TEnum _ _ _ => TEnum hdr0 None 1
  | TInterface _ _ _ => TInterface hdr0 None 1
  | TErrorUnion _ v e => TErrorUnion hdr0 (erase v) (erase e)
  | TNullable _ b => TNullable hdr0 (erase b)
  | TQualified _ b o m => TQualified hdr0 (erase b) o m
  | TConcept _ _ => TConcept hdr0 ""
  | TParam _ n i _ => TParam hdr0 n i NULL
  | THkt _ n i a _ _ => THkt hdr0 n i a "" NULL
  | TConstructor _ n a _ => TConstructor hdr0 n a ""
  | TApplication _ c args => TApplication hdr0 (erase c) (map erase args)
  end.
Abbreviation erase := (erase_with true).

Lemma TBasic_eq h k b b' : TBasic h k b = TBasic h k b'.
Proof. f_equal. apply proof_irrel. Qed.

Lemma all2_erase ps qs :
  Forall (fun p => forall b, type_equals p b = true <-> erase p = erase b) ps ->
  all2 type_equals ps qs = true <-> map erase ps = map erase qs.
Proof.
  rewrite all2_true. intros H. revert qs.
  induction H as [|p ps Hp _ IH]; intros [|q qs]; simpl.
  - split; [done|constructor].
  - split; [inversion 1|done].
  - split; [inversion 1|done].
  - rewrite Forall2_cons, Hp, IH. split; [intros [-> ->]; done|by injection 1].
Qed.

Lemma all2_erase_len ps qs :
  Forall (fun p => forall b, type_equals p b = true <-> erase p = erase b) ps ->
  (if Nat.eqb (List.length ps) (List.length qs) then all2 type_equals ps qs else false) = true
  <-> map erase ps = map erase qs.
Proof.
  intros H. destruct (Nat.eqb_spec (List.length ps) (List.length qs)) as [|Hn].
  - by apply all2_erase.
  - split; [done|]. intros He. apply (f_equal List.length) in He.
    by rewrite !List.length_map in He.
Qed.

Lemma kind_erase t : kind (erase t) = kind t.
Proof. by destruct t. Qed.

Lemma bool_and_iff (x y : bool) P Q :
  (x = true <-> P) -> (y = true <-> Q) -> (x && y = true <-> P /\ Q).
Proof. rewrite andb_true_iff. intuition. Qed.

(** Reads a conjunction of boolean tests as the equation of the erasures. *)
Ltac erase_tests :=
  repeat match goal with
  | H : forall b, type_equals ?a b = true <-> _ |- context [type_equals ?a ?b] =>
      setoid_rewrite H
  | |- context [_ && _ = true] => setoid_rewrite andb_true_iff
  | |- context [bool_decide _ = true] => setoid_rewrite bool_decide_eq_true
  | |- context [(_ =? _)%string = true] => setoid_rewrite String.eqb_eq
  | |- context [(_ =? _) = true] => setoid_rewrite Z.eqb_eq
  | |- context [Bool.eqb _ _ = true] => setoid_rewrite eqb_true_iff
  end;
  split; [intuition congruence | injection 1; intuition congruence].

Lemma erase_kind_eq a b : erase a = erase b -> kind a = kind b.
Proof. intros He. by rewrite <- (kind_erase a), He, kind_erase. Qed.

Lemma type_equals_kind a b : kind a <> kind b -> type_equals a b = false.
Proof. intros Hk. destruct a, b; simpl in *; try done; by rewrite bool_decide_eq_false_2. Qed.

Lemma type_equals_basic h k b h' b' : type_equals (TBasic h k b) (TBasic h' k b') = true.
Proof. simpl. by rewrite bool_decide_eq_true_2. Qed.

Lemma type_equals_erase a b : type_equals a b = true <-> erase a = erase b.
Proof.
  revert b. induction a using ty_ind; intros b';
    match goal with |- type_equals ?a _ = _ <-> _ =>
      destruct (decide (kind a = kind b')) as [Hk|Hk];
      [|rewrite (type_equals_kind _ _ Hk); split; [done|by intros ?%erase_kind_eq]] end.
  all: destruct b'; try discriminate Hk; try (by injection Hk as Hk; subst).
  all: try (by split).
  all: try (rewrite type_equals_basic; injection Hk as <-; split; [|done]; intros _; apply TBasic_eq).
  all: cbn [type_equals is_NULL orb]; rewrite (bool_decide_eq_true_2 (kind _ = _)) by done; cbn [negb erase_with andb].
  1: { cbn [kind] in Hk. injection Hk as <-. split; [intros _; apply TBasic_eq|done]. }
  all: try erase_tests.
  - destruct (Bool.eqb_spec v is_variadic) as [<-|Hv]; [|split; [done|by injection 1]].
    pose proof (bool_and_iff _ _ _ _ (all2_erase_len ps param_types H) (IHa b')) as Hl.
    destruct (Nat.eqb _ _); [destruct (all2 type_equals ps param_types)|]; simpl in *; rewrite Hl;
      (split; [intros [-> ->]; done|by injection 1]).
  - pose proof (bool_and_iff _ _ _ _ (IHa b') (all2_erase_len args arguments H)) as Hl.
    destruct (type_equals a b'); simpl in *; rewrite Hl;
      (split; [intros [-> ->]; done|by injection 1]).
Qed.

Lemma type_equals_refl t : type_equals t t = true.
Proof. by apply type_equals_erase. Qed.

Lemma type_equals_sym a b : type_equals a b = true -> type_equals b a = true.
Proof. rewrite !type_equals_erase. congruence. Qed.

Lemma type_equals_trans a b c :
  type_equals a b = true -> type_equals b c = true -> type_equals a c = true.
Proof. rewrite !type_equals_erase. congruence. Qed.

(** Equality as a setoid, so that clients rewrite with it. *)
Definition ty_equiv (a b : ty) : Prop := type_equals a b = true.

#[export] Instance ty_equiv_equivalence : Equivalence ty_equiv.
Proof.
  split; [exact type_equals_refl|exact type_equals_sym|exact type_equals_trans].
Qed.

#[export] Instance type_equals_proper : Proper (ty_equiv ==> ty_equiv ==> eq) type_equals.
Proof.
  intros a a' Ha b b' Hb. unfold ty_equiv in *. rewrite !type_equals_erase in *.
  apply eq_true_iff_eq. rewrite !type_equals_erase, Ha, Hb. done.
Qed.

#[export] Instance kind_proper : Proper (ty_equiv ==> eq) kind.
Proof. intros a b Hab. by apply erase_kind_eq, type_equals_erase. Qed.

Lemma erase_false_erase t : erase_with false (erase t) = erase_with false t.
Proof.
  assert (Hm : forall ps, Forall (fun t => erase_with false (erase t) = erase_with false t) ps ->
    map (erase_with false) (map erase ps) = map (erase_with false) ps).
  { intros ps Hps. rewrite map_map. apply map_ext_Forall. exact Hps. }
  induction t using ty_ind; simpl; rewrite ?Hm; congruence.
Qed.

(** Equality implies equality up to the variadic flags. *)
Lemma type_equals_weaken a b : type_equals a b = true -> erase_with false a = erase_with false b.
Proof. intros H%type_equals_erase. by rewrite <- erase_false_erase, H, erase_false_erase. Qed.

(** ** Substitution *)
Lemma is_NULL_true t : is_NULL t = true <-> t = NULL.
Proof. by destruct t. Qed.

Lemma is_NULL_false t : is_NULL t = false <-> t <> NULL.
Proof. by destruct t. Qed.

Lemma binding_some bs i : binding bs i <> NULL ->
  (0 <=? i) && (i <? Z.of_nat (List.length bs)) = true /\ bs !! Z.to_nat i = Some (binding bs i).
Proof.
  unfold binding. destruct (_ && _) eqn:E; [|done]. intros H. split; [done|].
  by destruct (bs !! Z.to_nat i).
Qed.

Lemma binding_insert bs i t :
  (0 <=? i) && (i <? Z.of_nat (List.length bs)) = true ->
  binding (<[Z.to_nat i := t]> bs) i = t.
Proof.
  intros E. unfold binding. rewrite length_insert, E, list_lookup_insert_eq; [done|].
  apply andb_true_iff in E as [?%Z.leb_le ?%Z.ltb_lt]. lia.
Qed.

Lemma binding_insert_ne bs i j t :
  (0 <=? i) && (i <? Z.of_nat (List.length bs)) = true -> i <> j ->
  binding (<[Z.to_nat i := t]> bs) j = binding bs j.
Proof.
  intros E Hij. unfold binding. rewrite length_insert.
  destruct ((0 <=? j) && (j <? Z.of_nat (List.length bs))) eqn:E'; [|done].
  apply andb_true_iff in E as [?%Z.leb_le _], E' as [?%Z.leb_le _].
  rewrite list_lookup_insert_ne; [done|]. lia.
Qed.

(** Every type parameter on the slice/pointer/function spine of [t] is bound, and the spine has
    no null pointer. *)
Fixpoint covered (bs : list ty) (t : ty) : bool :=
  match t with
  | NULL => false
  | TParam _ _ i _ => negb (is_NULL (binding bs i))
  | TSlice _ e => covered bs e
  | TPointer _ p => covered bs p
  | TFunction _ ps r _ _ => forallb (covered bs) ps && covered bs r
  | _ => true
  end.

Lemma covered_nonnull bs t : covered bs t = true -> t <> NULL.
Proof. by destruct t. Qed.

Lemma substitute_nonnull bs t : covered bs t = true -> type_substitute t bs <> NULL.
Proof.
  induction t using ty_ind; simpl; try done.
  - intros H%IHt. unfold type_slice. by apply is_NULL_false in H as ->.
  - intros H%IHt. unfold type_pointer. by apply is_NULL_false in H as ->.
  - intros H. by destruct (binding bs i).
Qed.

(** ** Unification *)
Definition extends (bs bs' : list ty) : Prop :=
  List.length bs = List.length bs' /\
  forall i, binding bs i <> NULL -> binding bs' i = binding bs i.

#[export] Instance extends_preorder : PreOrder extends.
Proof.
  split; [by split|]. intros b1 b2 b3 [Hl1 H1] [Hl2 H2]. split; [congruence|].
  intros i Hi. rewrite H2; rewrite H1; done.
Qed.

Lemma unify_nonnull p a bs bs' : unify_types p a bs = (true, bs') -> p <> NULL /\ a <> NULL.
Proof. destruct p; simpl; try done; destruct a; simpl; try done; by case_match. Qed.

Lemma unify_lists_extends ps : Forall (fun p => forall a bs, extends bs (unify_types p a bs).2) ps ->
  forall qs bs, extends bs (unify_lists unify_types ps qs bs).2.
Proof.
  induction 1 as [|p ps Hp _ IH]; intros [|q qs] bs; simpl; try done.
  specialize (Hp q bs). destruct (unify_types p q bs) as [[] b1]; simpl in *; [|done].
  by etrans; [exact Hp|apply IH].
Qed.

(** A mismatch of kinds, or any kind without a recursive arm, leaves the bindings alone. *)
Lemma unify_kind p a bs : has_kind TYPE_PARAM p = false -> kind p <> kind a ->
  unify_types p a bs = (false, bs).
Proof.
  intros Hp Hk. destruct p; [done|..]; try discriminate Hp; simpl;
    (destruct (is_NULL a); [done|]); rewrite bool_decide_eq_false_2 by done; done.
Qed.

Lemma unify_default p a bs :
  match p with TParam _ _ _ _ | TSlice _ _ | TPointer _ _ | TFunction _ _ _ _ _ => False | _ => True end ->
  unify_types p a bs = (if is_NULL p || is_NULL a then false else type_equals p a, bs).
Proof.
  intros Hp. destruct (decide (kind p = kind a)) as [Hk|Hk].
  - destruct p; try done; simpl; (destruct (is_NULL a) eqn:Ha; [done|]);
      rewrite ?bool_decide_eq_true_2 by done; done.
  - rewrite unify_kind; [|by destruct p as [|? []| | | | | | | | | | | | | | | | | |]|done].
    by rewrite type_equals_kind; [destruct (_ || _)|].
Qed.

Lemma unify_extends p a bs : extends bs (unify_types p a bs).2.
Proof.
  revert a bs. induction p using ty_ind; intros arg bs; try (by rewrite unify_default).
  - destruct (decide (kind arg = Some TYPE_SLICE)) as [Hk|Hk];
      [|by rewrite unify_kind by done]. destruct arg; try done; [by injection Hk as ->|apply IHp].
  - destruct (decide (kind arg = Some TYPE_FUNCTION)) as [Hk|Hk];
      [|by rewrite unify_kind by done].
    destruct arg; try done; [by injection Hk as ->|]. simpl. destruct (Nat.eqb _ _); simpl; [|done].
    pose proof (unify_lists_extends ps H param_types bs) as Hl.
    destruct (unify_lists _ _ _ _) as [[] b1]; simpl in *; [|done]. by etrans; [exact Hl|].
  - destruct (decide (kind arg = Some TYPE_POINTER)) as [Hk|Hk];
      [|by rewrite unify_kind by done]. destruct arg; try done; [by injection Hk as ->|apply IHp].
  - simpl. destruct (is_NULL arg); [done|].
    destruct ((0 <=? i) && _) eqn:Hr; simpl; [|done].
    destruct (is_NULL (binding bs i)) eqn:Hb; simpl; [|done].
    split; [by rewrite length_insert|]. intros j Hj. apply binding_insert_ne; [done|].
    intros ->. by apply is_NULL_true in Hb.
Qed.

Lemma erase_false_nonnull a b :
  erase_with false a = erase_with false b -> a <> NULL -> b <> NULL.
Proof. by destruct a, b. Qed.

Lemma unify_sound_lists ps :
  Forall (fun p => forall a bs bs' s, unify_types p a bs = (true, bs') -> extends bs' s ->
            erase_with false (type_substitute p s) = erase_with false a) ps ->
  forall qs bs bs' s, List.length ps = List.length qs ->
    unify_lists unify_types ps qs bs = (true, bs') -> extends bs' s ->
    map (erase_with false) (map (fun p => type_substitute p s) ps) = map (erase_with false) qs.
Proof.
  induction 1 as [|p ps Hp _ IH]; intros [|q qs] bs bs' s Hl; simpl; try done.
  destruct (unify_types p q bs) as [[] b1] eqn:E; simpl; [|done]. intros Hu Hs.
  pose proof (unify_lists_extends ps ltac:(apply Forall_forall; intros; apply unify_extends) qs b1)
    as He. rewrite Hu in He.
  f_equal; [eapply Hp; [exact E|by etrans]|].
  eapply IH; [|exact Hu|exact Hs]. by injection Hl.
Qed.

(** The three recursive arms meet an argument of their own kind. *)
Lemma kind_slice_inv a : kind a = Some TYPE_SLICE -> exists h e, a = TSlice h e.
Proof. destruct a; try done; [by injection 1 as ->|by eauto]. Qed.
Lemma kind_pointer_inv a : kind a = Some TYPE_POINTER -> exists h t, a = TPointer h t.
Proof. destruct a; try done; [by injection 1 as ->|by eauto]. Qed.
Lemma kind_function_inv a :
  kind a = Some TYPE_FUNCTION -> exists h ps r v c, a = TFunction h ps r v c.
Proof. destruct a; try done; [by injection 1 as ->|by eauto 10]. Qed.

Lemma unify_kind_eq p a bs bs' : has_kind TYPE_PARAM p = false ->
  unify_types p a bs = (true, bs') -> kind a = kind p.
Proof.
  intros Hp Hu. destruct (decide (kind p = kind a)) as [|Hk]; [done|].
  by rewrite unify_kind in Hu.
Qed.

Lemma erase_slice e s b : erase_with false (type_substitute e s) = erase_with false b ->
  b <> NULL -> erase_with false (type_slice (type_substitute e s)) = TSlice hdr0 (erase_with false b).
Proof.
  intros He Hb. unfold type_slice. destruct (is_NULL _) eqn:Hn.
  - apply is_NULL_true in Hn. rewrite Hn in He. by destruct b.
  - simpl. by rewrite He.
Qed.

Lemma erase_pointer e s b : erase_with false (type_substitute e s) = erase_with false b ->
  b <> NULL ->
  erase_with false (type_pointer (type_substitute e s)) = TPointer hdr0 (erase_with false b).
Proof.
  intros He Hb. unfold type_pointer. destruct (is_NULL _) eqn:Hn.
  - apply is_NULL_true in Hn. rewrite Hn in He. by destruct b.
  - simpl. by rewrite He.
Qed.

Lemma unify_sound_gen p a bs bs' sg : unify_types p a bs = (true, bs') -> extends bs' sg ->
  erase_with false (type_substitute p sg) = erase_with false a.
Proof.
  revert a bs bs' sg. induction p using ty_ind; intros arg bs bs' sg Hu Hs;
    try (rewrite unify_default in Hu by done; cbn [is_NULL orb] in Hu; destruct (is_NULL arg); [done|];
         exact (type_equals_weaken _ _ (f_equal fst Hu))).
  - done.
  - destruct (kind_slice_inv arg) as (h' & e' & ->); [by refine (unify_kind_eq _ _ _ _ _ Hu)|].
    simpl in Hu. apply erase_slice; [by eapply IHp|]. exact (proj2 (unify_nonnull _ _ _ _ Hu)).
  - destruct (kind_function_inv arg) as (h' & ps' & r' & v' & c' & ->);
      [by refine (unify_kind_eq _ _ _ _ _ Hu)|].
    simpl in Hu. destruct (Nat.eqb_spec (List.length ps) (List.length ps')); [|done].
    simpl in Hu. destruct (unify_lists _ _ _ _) as [[] b1] eqn:El; [|done]. simpl.
    f_equal; [|by eapply IHp].
    eapply unify_sound_lists; [exact H|done|exact El|].
    pose proof (unify_extends p r' b1) as He. rewrite Hu in He. by etrans.
  - destruct (kind_pointer_inv arg) as (h' & e' & ->); [by refine (unify_kind_eq _ _ _ _ _ Hu)|].
    simpl in Hu. apply erase_pointer; [by eapply IHp|]. exact (proj2 (unify_nonnull _ _ _ _ Hu)).
  - simpl in Hu. destruct (is_NULL arg) eqn:Ha; [done|].
    destruct ((0 <=? i) && _) eqn:Hr; [simpl in Hu|done].
    assert (Hsi : binding bs' i <> NULL /\ erase_with false (binding bs' i) = erase_with false arg).
    { destruct (is_NULL (binding bs i)) eqn:Hb; injection Hu.
      - intros <-. rewrite binding_insert by done. split; [by apply is_NULL_false|done].
      - intros <- Heq. split; [by apply is_NULL_false|by apply type_equals_weaken]. }
    destruct Hsi as [Hn He]. destruct Hs as [_ Hs]. simpl. rewrite (Hs _ Hn).
    by apply is_NULL_false in Hn as ->.
Qed.

(** ** Completeness: a solution of the matching problem is found *)
(** What is bound so far agrees with the solution [sg]. *)
Definition agrees (bs sg : list ty) : Prop :=
  List.length bs = List.length sg /\
  forall i, binding bs i <> NULL -> type_equals (binding bs i) (binding sg i) = true.

Lemma agrees_insert bs sg i a :
  agrees bs sg -> (0 <=? i) && (i <? Z.of_nat (List.length bs)) = true ->
  type_equals (binding sg i) a = true -> agrees (<[Z.to_nat i := a]> bs) sg.
Proof.
  intros [Hl Ha] Hr He. split; [by rewrite length_insert|]. intros j Hj.
  destruct (decide (i = j)) as [<-|Hij].
  - rewrite binding_insert by done. by apply type_equals_sym.
  - rewrite binding_insert_ne in * by done. by apply Ha.
Qed.

Lemma type_equals_nonnull a b : type_equals a b = true -> a <> NULL -> b <> NULL.
Proof. by destruct a, b. Qed.

Lemma substitute_slice e sg a : covered sg e = true ->
  type_equals (type_slice (type_substitute e sg)) a = true ->
  exists h' e', a = TSlice h' e' /\ type_equals (type_substitute e sg) e' = true.
Proof.
  intros Hc%substitute_nonnull He. unfold type_slice in He.
  apply is_NULL_false in Hc as Hn. rewrite Hn in He.
  destruct (kind_slice_inv a) as (h' & e' & ->).
  - apply type_equals_erase in He. by rewrite <- (erase_kind_eq _ _ He).
  - exists h', e'. split; [done|]. apply type_equals_erase. apply type_equals_erase in He.
    by injection He.
Qed.

Lemma substitute_pointer e sg a : covered sg e = true ->
  type_equals (type_pointer (type_substitute e sg)) a = true ->
  exists h' e', a = TPointer h' e' /\ type_equals (type_substitute e sg) e' = true.
Proof.
  intros Hc%substitute_nonnull He. unfold type_pointer in He.
  apply is_NULL_false in Hc as Hn. rewrite Hn in He.
  destruct (kind_pointer_inv a) as (h' & e' & ->).
  - apply type_equals_erase in He. by rewrite <- (erase_kind_eq _ _ He).
  - exists h', e'. split; [done|]. apply type_equals_erase. apply type_equals_erase in He.
    by injection He.
Qed.

Lemma substitute_function h ps r v c sg a :
  type_equals (type_substitute (TFunction h ps r v c) sg) a = true ->
  exists h' ps' r' c', a = TFunction h' ps' r' v c' /\
    Forall2 (fun p p' => type_equals (type_substitute p sg) p' = true) ps ps' /\
    type_equals (type_substitute r sg) r' = true.
Proof.
  intros He. simpl type_substitute in He.
  destruct (kind_function_inv a) as (h' & ps' & r' & v' & c' & ->).
  { apply type_equals_erase in He. by rewrite <- (erase_kind_eq _ _ He). }
  exists h', ps', r', c'. apply type_equals_erase in He. simpl in He.
  injection He as Hps Hr Hv. rewrite Hv. split; [done|].
  rewrite type_equals_erase. split; [|done]. clear -Hps. revert ps' Hps.
  induction ps as [|p ps IH]; intros [|p' ps']; simpl; try done. injection 1 as Hp Hps.
  constructor; [by apply type_equals_erase|by apply IH].
Qed.

Definition unify_finds (sg : list ty) (p : ty) : Prop :=
  forall a bs, covered sg p = true -> type_equals (type_substitute p sg) a = true ->
  agrees bs sg -> exists bs', unify_types p a bs = (true, bs') /\ agrees bs' sg.

Lemma unify_lists_complete sg ps : Forall (unify_finds sg) ps -> forall qs bs,
  forallb (covered sg) ps = true ->
  Forall2 (fun p p' => type_equals (type_substitute p sg) p' = true) ps qs ->
  agrees bs sg -> exists bs', unify_lists unify_types ps qs bs = (true, bs') /\ agrees bs' sg.
Proof.
  induction 1 as [|p ps Hp _ IH]; intros qs bs Hc Hq Hb; inversion Hq as [|? q ? qs' Hpq Hqs]; subst.
  - by exists bs.
  - simpl in Hc. apply andb_true_iff in Hc as [Hc Hcs].
    destruct (Hp q bs Hc Hpq Hb) as (b1 & E & Hb1). simpl. rewrite E. by apply IH.
Qed.

Lemma unify_complete_gen sg p : unify_finds sg p.
Proof.
  induction p using ty_ind; intros arg bs Hc He Hb;
    try (exists bs; split; [|done]; rewrite unify_default by done; cbn [is_NULL orb];
         change (type_substitute ?t sg) with t in He; f_equal;
         rewrite He; by destruct (is_NULL arg) eqn:Hn; [apply is_NULL_true in Hn; subst|]).
  - done.
  - destruct (substitute_slice p sg arg Hc He) as (h' & e' & -> & He'). simpl. by apply IHp.
  - apply substitute_function in He as (h' & ps' & r' & c' & -> & Hps & Hr). simpl in Hc |- *.
    apply andb_true_iff in Hc as [Hc1 Hc2].
    rewrite (Forall2_length _ _ _ Hps), Nat.eqb_refl. simpl.
    destruct (unify_lists_complete sg ps H ps' bs Hc1 Hps Hb) as (b1 & -> & Hb1). by apply IHp.
  - destruct (substitute_pointer p sg arg Hc He) as (h' & e' & -> & He'). simpl. by apply IHp.
  - simpl in Hc, He |- *. apply negb_true_iff in Hc. rewrite Hc in He.
    apply is_NULL_false in Hc. pose proof (type_equals_nonnull _ _ He Hc) as Ha.
    apply is_NULL_false in Ha as ->. simpl.
    destruct (binding_some _ _ Hc) as [Hr _]. rewrite <- (proj1 Hb) in Hr. rewrite Hr. simpl.
    destruct (is_NULL (binding bs i)) eqn:Hn.
    + exists (<[Z.to_nat i := arg]> bs). split; [done|]. by apply agrees_insert.
    + exists bs. split; [|done]. f_equal. apply is_NULL_false in Hn.
      eapply type_equals_trans; [by apply Hb|done].
Qed.

(** ** Well-formed types: every node carries the size and alignment of its constructor. *)
Definition layout (t : ty) (sz al : Z) : bool := (size (hdr t) =? sz) && (align (hdr t) =? al).

Definition basic_layout (k : TypeKind) : Z * Z :=
  match k with
  | TYPE_BOOL | TYPE_INT8 | TYPE_UINT8 | TYPE_CHAR => (1, 1)
  | TYPE_INT16 | TYPE_UINT16 => (2, 2)
  | TYPE_INT32 | TYPE_UINT32 | TYPE_FLOAT32 => (4, 4)
  | TYPE_INT64 | TYPE_UINT64 | TYPE_FLOAT64 | TYPE_STRING => (8, 8)
  | TYPE_VOID | TYPE_POISON => (0, 1)
  | _ => (0, 0)
  end.

Fixpoint layout_ok (t : ty) : bool :=
  match t with
  | NULL => false
  | TBasic h k _ => layout t (basic_layout k).1 (basic_layout k).2
  | TArray h e n _ => layout t (u64 (size (hdr e) * n)) (align (hdr e)) && layout_ok e
  | TSlice h e => layout t 24 8 && layout_ok e
  | TMap h k v => layout t 8 8 && layout_ok k && layout_ok v
  | TChannel h e _ _ => layout t 8 8 && layout_ok e
  | TFunction h ps r _ _ => layout t 8 8 && forallb layout_ok ps && layout_ok r
  | TPointer h p => layout t 8 8 && layout_ok p
  | TReference h r _ => layout t 8 8 && layout_ok r
  | TErrorUnion h v _ =>
      layout t (u64 (size (hdr v) + 4)) (Z.max 4 (align (hdr v))) && layout_ok v
  | TNullable h b => layout t (u64 (size (hdr b) + 1)) (align (hdr b)) && layout_ok b
  | TQualified h b _ _ => layout t (size (hdr b)) (align (hdr b)) && layout_ok b
  | TStruct _ _ _ | TEnum _ _ _ | TInterface _ _ _ => true
  | _ => layout t 0 0
  end.

(** A type parameter occurs somewhere in the type. *)
Fixpoint has_param (t : ty) : bool :=
  match t with
  | TParam _ _ _ _ | THkt _ _ _ _ _ _ => true
  | TArray _ e _ _ | TSlice _ e | TChannel _ e _ _ | TPointer _ e | TReference _ e _ | TNullable _ e
  | TQualified _ e _ _ => has_param e
  | TMap _ k v => has_param k || has_param v
  | TFunction _ ps r _ _ => existsb has_param ps || has_param r
  | TErrorUnion _ v e => has_param v || has_param e
  | TApplication _ c args => has_param c || existsb has_param args
  | _ => false
  end.

(** Type parameters occur only where substitution goes: under slices, pointers and functions. *)
Fixpoint tier_a (t : ty) : bool :=
  match t with
  | TParam _ _ _ _ => true
  | TSlice _ e => tier_a e
  | TPointer _ p => tier_a p
  | TFunction _ ps r _ _ => forallb tier_a ps && tier_a r
  | _ => negb (has_param t)
  end.

Lemma layout_nonnull t : layout_ok t = true -> t <> NULL.
Proof. by destruct t. Qed.

Lemma slice_layout e : layout_ok e = true -> layout_ok (type_slice e) = true.
Proof. intros H. unfold type_slice. by rewrite (proj2 (is_NULL_false e) (layout_nonnull _ H)). Qed.

Lemma pointer_layout e : layout_ok e = true -> layout_ok (type_pointer e) = true.
Proof. intros H. unfold type_pointer. by rewrite (proj2 (is_NULL_false e) (layout_nonnull _ H)). Qed.

(** The compound constructors build well-formed types from well-formed parts. *)
Lemma compound_layout e k n p o m :
  layout_ok e = true -> layout_ok k = true ->
  layout_ok (type_array e n) = true /\ layout_ok (type_map k e) = true /\
  layout_ok (type_channel e p) = true /\ layout_ok (type_nullable e) = true /\
  layout_ok (type_error_union e NULL) = true /\ layout_ok (type_qualified e o m) = true.
Proof.
  intros He Hk. pose proof (proj2 (is_NULL_false e) (layout_nonnull _ He)) as Hn.
  pose proof (proj2 (is_NULL_false k) (layout_nonnull _ Hk)) as Hn'.
  unfold type_array, type_map, type_channel, type_nullable, type_error_union, type_qualified.
  rewrite Hn, Hn'. simpl. unfold layout; simpl. rewrite He, Hk, !Z.eqb_refl. simpl.
  repeat split. rewrite andb_true_r. apply Z.eqb_eq. destruct (Z.ltb_spec 4 (align (hdr e))); lia.
Qed.

Lemma forallb_map_impl {A} (f g : A -> bool) (h : A -> A) xs :
  Forall (fun x => f x = true -> g (h x) = true) xs ->
  forallb f xs = true -> forallb g (map h xs) = true.
Proof.
  induction 1 as [|x xs Hx _ IH]; simpl; [done|].
  rewrite !andb_true_iff. intros [Hf Hfs]. split; auto.
Qed.

Lemma binding_Forall P bs i : Forall P bs -> binding bs i <> NULL -> P (binding bs i).
Proof. intros HP Hn. apply binding_some in Hn as [_ Hl]. by eapply Forall_lookup_1. Qed.

Lemma substitute_layout bs t :
  Forall (fun b => b = NULL \/ layout_ok b = true) bs ->
  layout_ok t = true -> layout_ok (type_substitute t bs) = true.
Proof.
  intros Hbs. induction t using ty_ind; try done; intros Ht; simpl type_substitute.
  - simpl in Ht. apply andb_true_iff in Ht as [_ Ht]. by apply slice_layout, IHt.
  - cbn [layout_ok] in Ht. apply andb_true_iff in Ht as [Ht Hr].
    apply andb_true_iff in Ht as [_ Hps]. simpl.
    rewrite (forallb_map_impl layout_ok layout_ok (fun p => type_substitute p bs) ps), IHt;
      try done.
  - simpl in Ht. apply andb_true_iff in Ht as [_ Ht]. by apply pointer_layout, IHt.
  - destruct (is_NULL (binding bs i)) eqn:Hn; [done|]. apply is_NULL_false in Hn.
    by destruct (binding_Forall _ _ _ Hbs Hn).
Qed.

Lemma substitute_no_params bs t :
  Forall (fun b => has_param b = false) bs ->
  covered bs t = true -> tier_a t = true -> has_param (type_substitute t bs) = false.
Proof.
  intros Hbs. induction t using ty_ind; try done; intros Hc Ht;
    try (by apply negb_true_iff in Ht).
  - simpl in *. unfold type_slice. destruct (is_NULL _); [done|]. by apply IHt.
  - simpl in Hc, Ht |- *. apply andb_true_iff in Hc as [Hc Hr], Ht as [Ht Htr].
    rewrite (IHt Hr Htr), orb_false_r. clear -H Hc Ht.
    induction H as [|p ps Hp _ IH]; simpl in *; [done|].
    apply andb_true_iff in Hc as [Hc Hcs], Ht as [Ht Hts]. by rewrite Hp, IH.
  - simpl in *. unfold type_pointer. destruct (is_NULL _); [done|]. by apply IHt.
  - simpl in *. apply negb_true_iff in Hc. rewrite Hc. apply is_NULL_false in Hc.
    by apply (binding_Forall (fun b => has_param b = false)).
Qed.

(** ** Assignability as a relation *)
(** The kinds of numbers and of references, listed; [nil] has the kind [TYPE_UNKNOWN]. *)
Definition integer_kinds : list TypeKind :=
  [TYPE_INT8; TYPE_INT16; TYPE_INT32; TYPE_INT64; TYPE_UINT8; TYPE_UINT16; TYPE_UINT32; TYPE_UINT64].
Definition float_kinds : list TypeKind := [TYPE_FLOAT32; TYPE_FLOAT64].
Definition reference_kinds : list TypeKind :=
  [TYPE_POINTER; TYPE_SLICE; TYPE_MAP; TYPE_CHANNEL; TYPE_FUNCTION].
Definition kind_among (ks : list TypeKind) (t : ty) : Prop := exists k, kind t = Some k /\ k ∈ ks.
Definition is_nil_type (t : ty) : Prop := kind t = Some TYPE_UNKNOWN.

Inductive assignable : ty -> ty -> Prop :=
| as_equal a b : erase a = erase b -> assignable a b
| as_numeric a b :
    kind_among (integer_kinds ++ float_kinds) a -> kind_among (integer_kinds ++ float_kinds) b ->
    ~ (kind_among float_kinds a /\ kind_among integer_kinds b) -> assignable a b
| as_nil_nullable a h b : is_nil_type a -> assignable a (TNullable h b)
| as_wrapped a h b : assignable a b -> assignable a (TNullable h b)
| as_nil_ref a b : is_nil_type a -> kind_among reference_kinds b -> assignable a b
| as_qualified h a o m h' b o' m' :
    assignable a b -> assignable (TQualified h a o m) (TQualified h' b o' m').

Lemma kind_tests t :
  (type_is_integer t = true <-> kind_among integer_kinds t) /\
  (type_is_float t = true <-> kind_among float_kinds t) /\
  (type_is_numeric t = true <-> kind_among (integer_kinds ++ float_kinds) t) /\
  (type_is_nilable_ref_kind t = true <-> kind_among reference_kinds t).
Proof.
  assert (forall ks, kind_among ks t <-> match kind t with Some k => bool_decide (k ∈ ks) = true | None => False end)
    as H.
  { intros ks. unfold kind_among. destruct (kind t) as [k|]; [|by split; [intros (?&?&?)|]].
    rewrite bool_decide_eq_true. split; [by intros (?&[= ->]&?)|by eauto]. }
  rewrite !H.
  unfold type_is_numeric, type_is_integer, type_is_float, type_is_nilable_ref_kind, has_kind.
  destruct (kind t) as [k|]; [destruct k; by vm_compute|by vm_compute].
Qed.

(** The relation by the tests of the code. *)
Lemma assignable_tests a b : assignable a b <->
  type_equals a b = true \/
  (type_is_numeric a && type_is_numeric b = true /\ type_is_float a && type_is_integer b = false) \/
  (is_nil_type a /\ type_is_nilable_ref_kind b = true) \/
  (exists h c, b = TNullable h c /\ (is_nil_type a \/ assignable a c)) \/
  (exists h c o m h' c' o' m', a = TQualified h c o m /\ b = TQualified h' c' o' m' /\ assignable c c').
Proof.
  destruct (kind_tests a) as (_&Fa&Na&_), (kind_tests b) as (Ib&_&Nb&Rb).
  rewrite type_equals_erase, andb_true_iff, Na, Nb, Rb, <- not_true_iff_false, andb_true_iff, Fa, Ib. split.
  - destruct 1; eauto 15.
  - intros [H|[[[H1 H2] H]|[[H1 H2]|[(h&c&->&[H|H])|(?&?&?&?&?&?&?&?&->&->&H)]]]].
    + by apply as_equal.
    + by apply as_numeric.
    + by apply as_nil_ref.
    + by apply as_nil_nullable.
    + by apply as_wrapped.
    + by apply as_qualified.
Qed.

Lemma numeric_kind t : type_is_numeric t = true -> has_kind TYPE_NULLABLE t = false /\
  has_kind TYPE_QUALIFIED t = false /\ has_kind TYPE_UNKNOWN t = false.
Proof.
  unfold type_is_numeric, type_is_integer, type_is_float, has_kind.
  destruct (kind t) as [k|]; [destruct k; by vm_compute|by vm_compute].
Qed.

Lemma numeric_no_float_int a b :
  type_is_numeric a && type_is_numeric b = true -> type_equals a b = false ->
  assignable a b <-> type_is_float a && type_is_integer b = false.
Proof.
  intros Hn He. pose proof Hn as [Ha Hb]%andb_true_iff. rewrite assignable_tests, He. split; [|by auto].
  destruct (numeric_kind a Ha) as (_&_&Hu). apply bool_decide_eq_false in Hu.
  destruct (numeric_kind b Hb) as (Hnu&Hq&_).
  by intros [|[[_ ?]|[[? _]|[(?&?&->&_)|(?&?&?&?&?&?&?&?&_&->&_)]]]].
Qed.

Lemma type_compatible_refl t : type_compatible t t = Some true.
Proof. destruct t; cbn [type_compatible]; by rewrite type_equals_refl. Qed.

(** Nothing but a bare nil is assignable across kinds. *)
Lemma assignable_default a b :
  type_equals a b = false -> type_is_numeric a && type_is_numeric b = false ->
  kind b <> Some TYPE_NULLABLE ->
  ~ (kind a = Some TYPE_QUALIFIED /\ kind b = Some TYPE_QUALIFIED) ->
  assignable a b <-> has_kind TYPE_UNKNOWN a && type_is_nilable_ref_kind b = true.
Proof.
  intros He Hn Hnu Hq. rewrite andb_true_iff. unfold has_kind at 1. rewrite bool_decide_eq_true.
  rewrite assignable_tests, He, Hn. unfold is_nil_type. split; [|by auto].
  intros [|[[? _]|[?|[(?&?&->&_)|(?&?&?&?&?&?&?&?&->&->&_)]]]]; try done. exfalso. by apply Hq.
Qed.

Lemma compatible_unfold a b : a <> NULL -> b <> NULL -> type_equals a b = false ->
  type_compatible a b =
    if type_is_numeric a && type_is_numeric b
    then Some (negb (type_is_float a && type_is_integer b)) else
    match b with
    | TNullable _ base => if has_kind TYPE_UNKNOWN a then Some true else type_compatible a base
    | TQualified _ y _ _ =>
        match a with TQualified _ x _ _ => type_compatible x y | _ => Some false end
    | _ => Some (has_kind TYPE_UNKNOWN a && type_is_nilable_ref_kind b)
    end.
Proof.
  intros Ha Hb He. apply is_NULL_false in Ha as Hn.
  destruct b; try done; cbn [type_compatible]; rewrite He, ?Hn; try done.
  all: match goal with |- context [if ?c then Some (negb _) else _] => destruct c; [done|] end.
  all: match goal with |- context [if ?c then Some true else _] => destruct c eqn:E end.
  all: try (by destruct a); by rewrite andb_comm in E.
Qed.

(** The function decides the relation, and never follows a null pointer, on well-formed types. *)
Lemma type_compatible_decides a b : layout_ok a = true -> layout_ok b = true ->
  exists r, type_compatible a b = Some r /\ (r = true <-> assignable a b).
Proof.
  revert a. induction b using ty_ind; intros from Hf Hb; [done|..].
  all: match goal with |- context [type_compatible _ ?b] =>
    destruct (type_equals from b) eqn:He;
      [exists true; split; [by cbn [type_compatible]; rewrite He|by split; [intros _; apply as_equal, type_equals_erase|]]|];
    rewrite compatible_unfold by (done || by apply layout_nonnull);
    destruct (type_is_numeric from && type_is_numeric b) eqn:Hn;
      [eexists; split; [done|rewrite (numeric_no_float_int _ _ Hn He); apply negb_true_iff]|];
    pose proof (assignable_default from b He Hn) as Hd
  end.
  all: try (eexists; split; [done|]; symmetry; apply Hd;
            [by first [injection 1 as ->|idtac]|by intros [_ Hk]; first [injection Hk as ->|idtac]]).
  - simpl in Hb. apply andb_true_iff in Hb as [_ Hb].
    destruct (IHb from Hf Hb) as (r & Hr & Hi).
    destruct (has_kind TYPE_UNKNOWN from) eqn:Hk.
    + exists true. split; [done|]. split; [|done]. intros _.
      apply as_nil_nullable. by apply bool_decide_eq_true in Hk.
    + exists r. split; [done|]. rewrite Hi. split; [apply as_wrapped|].
      apply bool_decide_eq_false in Hk. rewrite (assignable_tests from), He, Hn. unfold is_nil_type.
      by intros [|[[? _]|[[? _]|[(?&?&[= <- <-]&[?|?])|(?&?&?&?&?&?&?&?&_&?&_)]]]].
  - simpl in Hb. apply andb_true_iff in Hb as [_ Hb].
    destruct from as [| | | | | | | | | | | | | |h' x o' m'| | | | |]; try by (exists false;
      split; [done|]; split; [done|]; intros Hs%Hd; [by rewrite andb_comm in Hs|done|intros [Hk _]; by first [injection Hk as ->|idtac]]).
    + simpl in Hf. apply andb_true_iff in Hf as [_ Hf]. destruct (IHb x Hf Hb) as (r & Hr & Hi).
      exists r. split; [done|]. rewrite Hi. split; [apply as_qualified|].
      rewrite (assignable_tests (TQualified _ _ _ _)), He, Hn.
      intros [|[[? _]|[[? _]|[(?&?&?&_)|(?&?&?&?&?&?&?&?&[= <- <- <- <-]&[= <- <- <- <-]&?)]]]]; done.
Qed.

(** ** Comparable structs *)
(** The two predicates take the same decision; only the reason is extra. *)
Lemma comparable_agree fuel S t :
  type_struct_fields_comparable fuel S t = option_map fst (struct_is_comparable_key fuel S t).
Proof.
  revert t. induction fuel as [|fuel IH]; intros t; [done|].
  destruct t as [| | | | | | | | |h n key| | | | | | | | | |]; try done.
  simpl. induction (default [] (fields_at S !! key)) as [|f fs IHfs]; [done|].
  destruct (f_type f) eqn:Ef; try done; try (destruct (scalar_field _) eqn:Es; [|done]; apply IHfs).
  rewrite <- Ef, IH, Ef. destruct (struct_is_comparable_key fuel S _) as [[[] ?]|]; done.
Qed.

(** Value comparison by fields, as Go has it for the kinds the compiler lowers. *)
Inductive comparable (S : Store) : ty -> Prop :=
| comparable_scalar t : scalar_field t = true -> comparable S t
| comparable_struct h n key :
    (forall f, In f (default [] (fields_at S !! key)) -> comparable S (f_type f)) ->
    comparable S (TStruct h n key).

(** [rank] orders the struct types so that a struct held by value ranks below its holder. *)
Definition acyclic (S : Store) (rank : positive -> nat) : Prop :=
  forall key fs, fields_at S !! key = Some fs ->
  Forall (fun f => match f_type f with TStruct _ _ key' => (rank key' < rank key)%nat | _ => True end) fs.

Lemma comparable_decides S rank : acyclic S rank -> forall fuel h n key, (rank key < fuel)%nat ->
  exists r, type_struct_fields_comparable fuel S (TStruct h n key) = Some r /\
    (r = true <-> comparable S (TStruct h n key)).
Proof.
  intros Ha fuel. induction fuel as [|fuel IH]; intros h n key Hr; [lia|]. simpl.
  set (fs := default [] (fields_at S !! key)).
  assert (Hfs : Forall (fun f => match f_type f with
    TStruct _ _ key' => (rank key' < rank key)%nat | _ => True end) fs).
  { subst fs. destruct (fields_at S !! key) as [l|] eqn:E; simpl; [by eapply Ha|by constructor]. }
  assert (Hi : comparable S (TStruct h n key) <->
    Forall (fun f => comparable S (f_type f)) fs).
  { rewrite List.Forall_forall. split; [by inversion 1|by apply comparable_struct]. }
  setoid_rewrite Hi. clear Hi Ha. clearbody fs.
  induction Hfs as [|f fs Hf _ IHfs]; [exists true; repeat split; by constructor|].
  destruct IHfs as (r & Hr1 & Hr2). setoid_rewrite Forall_cons.
  destruct (f_type f) as [| | | | | | | | |h' n' key'| | | | | | | | | |] eqn:Ef;
    try (exists false; split; [done|]; split; [done|by intros [Hc _]; inversion Hc]);
    try (match goal with |- context [if ?c then _ else _] => destruct c eqn:Es end;
      [exists r; split; [exact Hr1|rewrite Hr2; split; [by split; [apply comparable_scalar|]|tauto]]
      |exists false; split; [done|]; split; [done|intros [Hc _]; inversion Hc; congruence]]).
  destruct (IH h' n' key') as (r' & Hr1' & Hr2'); [lia|]. rewrite Hr1'. destruct r'.
  - exists r. split; [exact Hr1|]. rewrite Hr2, <- Hr2'. tauto.
  - exists false. split; [done|]. rewrite <- Hr2'. intuition discriminate.
Qed.

(** A struct that holds itself by value makes the C recursion endless. *)
Lemma comparable_cycle S h n key h' n' f fs :
  fields_at S !! key = Some (f :: fs) -> f_type f = TStruct h' n' key ->
  forall fuel, type_struct_fields_comparable fuel S (TStruct h n key) = None.
Proof.
  intros Hk Hf fuel. revert h n. induction fuel as [|fuel IH]; intros h n; [done|].
  simpl. rewrite Hk. simpl. by rewrite Hf, IH.
Qed.

(** ** Interfaces *)
Lemma void_result_proper a b : type_equals a b = true -> void_result a = void_result b.
Proof.
  intros He. unfold void_result, has_kind. rewrite (kind_proper a b He). by destruct a, b.
Qed.

Lemma all2_equals_trans ps qs rs :
  all2 type_equals ps qs = true -> all2 type_equals qs rs = true -> all2 type_equals ps rs = true.
Proof.
  rewrite !all2_true. intros H. revert rs. induction H; inversion 1; subst; constructor; auto.
  by eapply type_equals_trans.
Qed.

Lemma sig_equals_refl t : kind t = Some TYPE_FUNCTION -> iface_method_sig_equals t t = true.
Proof.
  intros (h & ps & r & v & c & ->)%kind_function_inv. simpl.
  rewrite Nat.eqb_refl, eqb_reflx, type_equals_refl, orb_true_r, !andb_true_r. simpl.
  apply all2_true. induction ps; constructor; auto using type_equals_refl.
Qed.

Lemma sig_equals_trans a b c :
  iface_method_sig_equals a b = true -> iface_method_sig_equals b c = true ->
  iface_method_sig_equals a c = true.
Proof.
  destruct a, b; try done. destruct c; try done. simpl.
  rewrite !andb_true_iff, !orb_true_iff, !Nat.eqb_eq, !eqb_true_iff.
  intros [[[H1 H2] H3] H4] [[[H1' H2'] H3'] H4'].
  split; [split; [split|]|]; [congruence|by eapply all2_equals_trans|congruence|].
  destruct H4 as [|H4]; [tauto|]. destruct H4' as [H4'|H4']; [left; congruence|].
  right. by eapply type_equals_trans.
Qed.

Lemma method_matches_trans w x h :
  method_matches w x = true -> method_matches x h = true -> method_matches w h = true.
Proof.
  unfold method_matches. destruct (m_name x), (m_name w), (m_name h); try done.
  rewrite !andb_true_iff, !String.eqb_eq. intros [-> H1] [-> H2]. split; [done|].
  by eapply sig_equals_trans.
Qed.

(** What the test establishes: an interface whose every wanted method is among those it has. *)
Lemma interface_covers_spec S a b : has_kind TYPE_INTERFACE b = true ->
  interface_covers S a b = true <->
  iface_methods S b = [] \/
  has_kind TYPE_INTERFACE a = true /\
  forall w, In w (iface_methods S b) ->
    exists h, In h (iface_methods S a) /\ method_matches w h = true.
Proof.
  intros Hb. unfold interface_covers. destruct b; try done; [by destruct k|].
  destruct (iface_methods S _) as [|w ws] eqn:E; [by intuition|].
  rewrite andb_true_iff, forallb_forall. setoid_rewrite existsb_exists.
  intuition discriminate.
Qed.

(** ** Scopes *)
Lemma find_variable_name vars n v : find_variable vars n = Some v -> v_name v = n.
Proof.
  induction vars as [|x vars IH]; simpl; [done|].
  destruct (String.eqb_spec (v_name x) n); [by injection 1 as ->|done].
Qed.

Lemma find_variable_None vars n :
  find_variable vars n = None <-> n ∉ map v_name vars.
Proof.
  induction vars as [|x vars IH]; simpl.
  - split; [intros _; apply not_elem_of_nil|done].
  - rewrite not_elem_of_cons. destruct (String.eqb_spec (v_name x) n) as [<-|Hn]; [by split; [|intros []]|].
    rewrite IH. intuition.
Qed.

(** No scope of the chain declares a name twice, and ids count the depth. *)
Fixpoint scope_ok (sc : ScopeChain) : Prop :=
  match sc with
  | [] => True
  | s :: ps => NoDup (map v_name (variables s)) /\ scope_id s = Z.of_nat (List.length ps) /\ scope_ok ps
  end.

Lemma scope_new_ok sc : scope_ok sc -> scope_ok (scope_new sc).
Proof.
  intros Hs. split; [constructor|]. split; [|done]. unfold scope_new. simpl.
  destruct sc as [|s sc]; [done|]. destruct Hs as (_ & -> & _). simpl List.length. lia.
Qed.

Lemma scope_add_ok sc v sc' : scope_add_variable sc v = Some sc' -> scope_ok sc -> scope_ok sc'.
Proof.
  destruct sc as [|s ps]; [done|]. simpl. destruct (find_variable _ _) eqn:E; [done|].
  injection 1 as <-. intros (Hn & Hi & Hp). simpl. split; [|done].
  constructor; [by apply find_variable_None|done].
Qed.

Lemma scope_add_lookup sc v sc' n : scope_add_variable sc v = Some sc' ->
  scope_lookup_variable sc' n = if (v_name v =? n)%string then Some v else scope_lookup_variable sc n.
Proof.
  destruct sc as [|s ps]; [done|]. simpl. destruct (find_variable _ _) eqn:E; [done|].
  injection 1 as <-. simpl. by destruct (_ =? n)%string.
Qed.

(** * Properties *)

(** C29: type equality is an equivalence relation: two types are equal exactly when their
    erasures (headers, display names, constraints, field lists dropped) are the same. *)
Theorem type_equals_equivalence :
  Equivalence (fun a b => type_equals a b = true) /\
  forall a b, type_equals a b = true <-> erase a = erase b.
Proof. split; [exact ty_equiv_equivalence|exact type_equals_erase]. Qed.

(** C30: unification is matching up to the variadic flags of function types, which it never
    compares.  Sound up to them: when it succeeds it only adds bindings, and the parameter under them
    is the argument after the flags are erased.  Complete: when some assignment of the parameter's
    variables, consistent with what is bound, makes it equal to the argument, it succeeds and every
    binding it makes is that assignment's. *)
Theorem unify_types_matches :
  (forall p a bs bs', unify_types p a bs = (true, bs') ->
     extends bs bs' /\ erase_with false (type_substitute p bs') = erase_with false a) /\
  (forall sg p a bs, covered sg p = true -> type_equals (type_substitute p sg) a = true ->
     agrees bs sg -> exists bs', unify_types p a bs = (true, bs') /\ agrees bs' sg).
Proof.
  split.
  - intros p a bs bs' Hu. split; [by pose proof (unify_extends p a bs) as He; rewrite Hu in He|].
    by eapply unify_sound_gen; [exact Hu|].
  - intros sg p a bs Hc He Hb. by apply unify_complete_gen.
Qed.

(** unification accepts a variadic function where a non-variadic one is expected: the
    substituted parameter is then not equal to the argument it was matched with. *)
Theorem unify_ignores_variadic : exists p a bs,
  unify_types p a [NULL] = (true, bs) /\ type_equals (type_substitute p bs) a = false.
Proof.
  pose (T := type_param "T" 0 NULL). pose (int := type_int 64 true).
  exists (set_variadic true (type_function [type_slice T] T)).
  exists (type_function [type_slice int] int), [int]. by vm_compute.
Qed.

(** C31: substituting well-formed types for the parameters of a well-formed type gives a
    well-formed type (each node keeps the size and alignment of its constructor); and when the
    parameters occur only under slices, pointers and functions, where substitution goes, and each of
    them is bound, to a type without parameters, none is left anywhere in the result. *)
Theorem type_substitute_well_formed bs t :
  Forall (fun b => layout_ok b = true /\ has_param b = false) bs ->
  layout_ok t = true ->
  layout_ok (type_substitute t bs) = true /\
  (covered bs t = true -> tier_a t = true -> has_param (type_substitute t bs) = false).
Proof.
  intros Hbs Ht. split.
  - apply substitute_layout; [|done]. eapply Forall_impl; [exact Hbs|]. intros b [? ?]. by right.
  - apply substitute_no_params. eapply Forall_impl; [exact Hbs|]. by intros b [? ?].
Qed.

Lemma type_substitute_well_formed_witness :
  let t := type_function [type_slice (type_param "T" 0 NULL)] (type_pointer (type_param "U" 1 NULL)) in
  let bs := [type_int 32 true; type_string_type] in
  layout_ok (type_substitute t bs) = true /\ has_param t = true /\
  has_param (type_substitute t bs) = false.
Proof.
  intros t bs. destruct (type_substitute_well_formed bs t) as [H1 H2].
  - repeat (apply Forall_cons; split; [by vm_compute|]). by apply Forall_nil.
  - by vm_compute.
  - split; [exact H1|]. split; [by vm_compute|by apply H2; vm_compute].
Defined.

(** Under a map the parameter stays, and the test that looks for parameters does not see it. *)
Lemma substitute_skips_maps :
  let t := type_map type_string_type (type_param "T" 0 NULL) in
  has_param (type_substitute t [type_int 32 true]) = true /\ type_contains_type_param t = false.
Proof. by vm_compute. Qed.

(** C32: on well-formed types the assignability test always answers (it follows no null pointer)
    and answers yes exactly in these cases, the kinds being listed in full: the types are equal up to
    what erasure drops; both are numbers and not a float going to an integer; nil goes to a nullable
    or to a pointer, slice, map, channel or function; a value goes to the nullable of a type it is
    assignable to; both are qualified and the base is assignable to the base. *)
Theorem type_compatible_spec a b : layout_ok a = true -> layout_ok b = true ->
  exists r, type_compatible a b = Some r /\ (r = true <-> assignable a b).
Proof. apply type_compatible_decides. Qed.

Lemma type_compatible_spec_witness :
  type_compatible (type_int 64 true) (type_nullable (type_float 32)) = Some true /\
  ~ assignable (type_float 32) (type_nullable (type_int 64 true)).
Proof.
  split; [by vm_compute|].
  destruct (type_compatible_spec (type_float 32) (type_nullable (type_int 64 true)))
    as (r & Hr & Hi); [by vm_compute..|].
  rewrite <- Hi. vm_compute in Hr. by injection Hr as <-.
Defined.

(** in a store where no struct contains itself by value, the struct comparability test ends
    with the answer of the relation [comparable], whatever the fuel above the nesting depth; and
    the map-key test of the type checker always takes the same decision. *)
Theorem struct_comparable_spec S rank h n key fuel :
  acyclic S rank -> (rank key < fuel)%nat ->
  exists r why, type_struct_fields_comparable fuel S (TStruct h n key) = Some r /\
    struct_is_comparable_key fuel S (TStruct h n key) = Some (r, why) /\
    (r = true <-> comparable S (TStruct h n key)).
Proof.
  intros Ha Hr. destruct (comparable_decides S rank Ha fuel h n key Hr) as (r & Hc & Hi).
  pose proof Hc as Hk. rewrite comparable_agree in Hk.
  destruct (struct_is_comparable_key fuel S _) as [[r' why]|]; [|done].
  injection Hk as ->. by exists r, why.
Qed.

Lemma struct_comparable_spec_witness :
  let f ty := Field (Some "x") ty 0 OWNERSHIP_NONE MUTABILITY_MUTABLE false in
  let S := Build_Store {[ 1%positive := [f type_string_type; f (TStruct hdr0 (Some "B") 2)];
                          2%positive := [f (type_slice type_bool)] ]} ∅ ∅ in
  ~ comparable S (TStruct hdr0 (Some "A") 1).
Proof.
  intros f S.
  destruct (struct_comparable_spec S (fun k => if decide (k = 1%positive) then 1%nat else 0%nat)
              hdr0 (Some "A") 1 5) as (r & why & Hr & _ & Hi).
  - intros key fs. unfold S; simpl. intros [[<- <-]|[_ [<- <-]%lookup_singleton_Some]]%lookup_insert_Some;
      repeat constructor.
  - simpl. lia.
  - rewrite <- Hi. vm_compute in Hr. by injection Hr as <-.
Defined.

(** equality cannot tell two struct types apart (nor two interfaces, nor two enums): values of
    one are assignable to the other, and one type variable is inferred for both. *)
Theorem named_types_conflated h n f h' n' f' :
  let A := TStruct h n f in let B := TStruct h' n' f' in let T := type_param "T" 0 NULL in
  type_equals A B = true /\ type_compatible A B = Some true /\
  unify_types (type_function [T; T] T) (type_function [A; B] A) [NULL] = (true, [A]).
Proof. done. Qed.
