(* ===== verification/Embedding.v ===== *)
(** * Embedding: promoted members and interface satisfaction.

    [embedding_resolve] of src/types/embedding.c, the search for a member of an embedded field,
    and [type_interface_satisfied] of src/types/type_checker.c, which uses it for promoted
    methods.  The search keeps a queue of 64 entries in an array; here a level of the search is
    a list and [es_tail] counts the entries written so far. *)
From Stdlib Require Import ZArith Lia String Ascii Bool.
From stdpp Require Import base list numbers option gmap strings.
From S2P Require Import Prelude Types.

#[local] Open Scope string_scope.

(** ** The checker, as far as method lookup reads it *)
Record TypeChecker := mkChecker {
  tc_store : Store;
  current_scope : ScopeChain;
  current_package : option positive;
  exports : positive -> ScopeChain
}.

Definition lookup_in_scope (checker : TypeChecker) (name : string) : option Variable_t :=
  scope_lookup_variable (current_scope checker) name.

(** ['A' <= method_name[0] <= 'Z'] *)
Definition exported_name (name : option string) : bool :=
  match name with
  | Some (String c _) => (65 <=? nat_of_ascii c)%nat && (nat_of_ascii c <=? 90)%nat
  | _ => false
  end.

Definition type_checker_lookup_method (checker : TypeChecker) (recv_type : ty)
    (method_name mangled_name : option string) : option Variable_t :=
  match mangled_name with
  | None => None
  | Some mangled =>
      match type_receiver_owner_package recv_type with
      | Some owner =>
          if bool_decide (current_package checker = Some owner) then lookup_in_scope checker mangled
          else if exported_name method_name then scope_lookup_variable (exports checker owner) mangled
          else None
      | None => lookup_in_scope checker mangled
      end
  end.

(** [m && m->type && m->type->kind == TYPE_FUNCTION] *)
Definition method_type (m : option Variable_t) : option ty :=
  match m with
  | Some v => if has_kind TYPE_FUNCTION (v_type v) then Some (v_type v) else None
  | None => None
  end.

(** ** Embedding *)
Definition EMBED_MAX_DEPTH : nat := 8.
Definition EMBED_MAX_QUEUE : nat := 64.
Definition EMBED_MAX_VISITED : nat := 64.

Inductive EmbedResultKind : Set := EMBED_NOT_FOUND | EMBED_FIELD | EMBED_METHOD | EMBED_AMBIGUOUS.

Record EmbedResult : Set := mkResult {
  er_kind : EmbedResultKind;
  er_path : list (option string);
  er_type : ty;
  er_owner : ty;
  ambig_a : string;
  ambig_b : string;
  er_via_pointer : bool;
  er_via_interface : bool
}.

Definition not_found : EmbedResult := mkResult EMBED_NOT_FOUND [] NULL NULL "" "" false false.

Record QueueEntry : Set := mkEntry {
  q_type : ty;
  q_path : list (option string);
  via_ptr : bool
}.

Definition embed_type_name (t : ty) : option string :=
  match t with
  | NULL => None
  | TStruct _ n _ | TInterface _ n _ => n
  | _ => tname (hdr t)
  end.

Definition embed_deref (t : ty) : ty := match t with TPointer _ p => p | _ => t end.

Fixpoint embed_format_path (cap : nat) (path : list (option string)) (leaf : string) : string :=
  match path with
  | [] => snprintf cap leaf
  | p :: path =>
      let hop := (default "(null)" p ++ ".")%string in
      if (cap <=? String.length hop)%nat then snprintf cap hop
      else (hop ++ embed_format_path (cap - String.length hop) path leaf)%string
  end.

Definition name_is (n : option string) (name : string) : bool :=
  match n with Some n => (n =? name)%string | None => false end.

Section Resolve.
  Context (checker : TypeChecker).

Definition fields_of (t : ty) : list StructField :=
  match t with TStruct _ _ key => default [] (fields_at (tc_store checker) !! key) | _ => [] end.

(** The member's type, whether it is a method, and whether an interface's. *)
Definition embed_direct_member (t : ty) (name : string) : option (ty * bool * bool) :=
  match t with
  | TInterface _ _ _ =>
      match List.find (fun im => name_is (m_name im) name && negb (is_NULL (m_type im)))
              (iface_methods (tc_store checker) t) with
      | Some im => Some (m_type im, true, true)
      | None => None
      end
  | _ =>
      match List.find (fun f => name_is (f_name f) name) (fields_of t) with
      | Some f => Some (f_type f, false, false)
      | None =>
          match embed_type_name t with
          | Some tn =>
              let mangled := type_method_mangled_name (Some tn) (Some name) in
              match method_type (type_checker_lookup_method checker t (Some name) mangled) with
              | Some mt => Some (mt, true, false)
              | None => None
              end
          | None => None
          end
      end
  end.

(** The search's variables: the visited names with their depths, the entries written for the
    next level, how many were written in all, and what has been hit. *)
Record EmbedState : Set := mkES {
  es_visited : list (string * nat);
  es_next : list QueueEntry;
  es_tail : nat;
  es_hit_depth : option nat;
  es_res : EmbedResult
}.

Definition seen_shallower (visited : list (string * nat)) (cn : option string) (depth : nat) : bool :=
  match cn with
  | Some n => existsb (fun v => (fst v =? n)%string && (snd v <? depth)%nat) visited
  | None => false
  end.

Definition note_visited (visited : list (string * nat)) (cn : option string) (depth : nat)
    : list (string * nat) :=
  match cn with
  | Some n => if (length visited <? EMBED_MAX_VISITED)%nat then visited ++ [(n, depth)] else visited
  | None => visited
  end.

(** One field of a struct on the queue. *)
Definition push_field (q : QueueEntry) (st : EmbedState) (f : StructField) : EmbedState :=
  if negb (is_embedded f) then st else
  let child := embed_deref (f_type f) in
  if is_NULL child then st else
  let cn := embed_type_name child in
  let child_depth := S (length (q_path q)) in
  if seen_shallower (es_visited st) cn child_depth then st else
  let visited := note_visited (es_visited st) cn child_depth in
  if (EMBED_MAX_QUEUE <=? es_tail st)%nat
  then mkES visited (es_next st) (es_tail st) (es_hit_depth st) (es_res st)
  else mkES visited
         (es_next st ++ [mkEntry child (q_path q ++ [f_name f]) (via_ptr q || has_kind TYPE_POINTER (f_type f))])
         (S (es_tail st)) (es_hit_depth st) (es_res st).

(** The first hit, and the second. *)
Definition first_hit (q : QueueEntry) (name : string) (m : ty * bool * bool) : EmbedResult :=
  let '(mt, ism, fromif) := m in
  mkResult (if ism then EMBED_METHOD else EMBED_FIELD) (q_path q) mt (q_type q)
    (embed_format_path 128 (q_path q) name) "" (via_ptr q) fromif.

Definition second_hit (res : EmbedResult) (q : QueueEntry) (name : string) : EmbedResult :=
  mkResult EMBED_AMBIGUOUS (er_path res) (er_type res) (er_owner res) (ambig_a res)
    (embed_format_path 128 (q_path q) name) (er_via_pointer res) (er_via_interface res).

(** One entry; [inl] returns from the whole search. *)
Definition scan_entry (name : string) (q : QueueEntry) (st : EmbedState) : EmbedResult * nat + EmbedState :=
  let len := length (q_path q) in
  let descend := 
    let irrelevant := match es_hit_depth st with Some d => (d <=? len)%nat | None => false end in
    if irrelevant then st
    else if negb (has_kind TYPE_STRUCT (q_type q)) || (EMBED_MAX_DEPTH <=? len)%nat then st
    else fold_left (push_field q) (fields_of (q_type q)) st in
  match (if (0 <? len)%nat then embed_direct_member (q_type q) name else None) with
  | Some m =>
      match es_hit_depth st with
      | None => inr (mkES (es_visited st) (es_next st) (es_tail st) (Some len) (first_hit q name m))
      | Some d => if (len =? d)%nat then inl (second_hit (es_res st) q name, es_tail st) else inr st
      end
  | None => inr descend
  end.

Fixpoint scan_level (name : string) (level : list QueueEntry) (st : EmbedState)
    : EmbedResult * nat + EmbedState :=
  match level with
  | [] => inr st
  | q :: level =>
      match scan_entry name q st with
      | inl r => inl r
      | inr st => scan_level name level st
      end
  end.

(** The levels; the result comes with the number of queue entries that were written. *)
Fixpoint scan_levels (fuel : nat) (name : string) (level : list QueueEntry) (st : EmbedState)
    : option (EmbedResult * nat) :=
  match level with
  | [] => Some (es_res st, es_tail st)
  | q :: _ =>
      match fuel with
      | O => None
      | S fuel =>
          match scan_level name level (mkES (es_visited st) [] (es_tail st) (es_hit_depth st) (es_res st)) with
          | inl r => Some r
          | inr st =>
              match es_hit_depth st with
              | Some d => if (d <=? length (q_path q))%nat then Some (es_res st, es_tail st)
                          else scan_levels fuel name (es_next st) st
              | None => scan_levels fuel name (es_next st) st
              end
          end
      end
  end.

Definition embed_start (struct_type : ty) : EmbedState :=
  mkES (match embed_type_name struct_type with Some n => [(n, 0)] | None => [] end) [] 1 None not_found.

(** A level per depth and one for the end. *)
Definition embed_search (struct_type : ty) (name : string) : option (EmbedResult * nat) :=
  scan_levels (EMBED_MAX_DEPTH + 2) name [mkEntry struct_type [] false] (embed_start struct_type).

Definition embedding_resolve (struct_type : ty) (name : option string) : option EmbedResult :=
  match name with
  | Some name =>
      if has_kind TYPE_STRUCT struct_type then option_map fst (embed_search struct_type name)
      else Some not_found
  | None => Some not_found
  end.

(** ** Interface satisfaction *)
Inductive Unsatisfied : Set := Missing | Comptime | PointerReceiver | SignatureMismatch.

Definition function_params (t : ty) : list ty := match t with TFunction _ ps _ _ _ => ps | _ => [] end.
Definition function_return (t : ty) : ty := match t with TFunction _ _ r _ _ => r | _ => NULL end.
Definition function_variadic (t : ty) : bool := match t with TFunction _ _ _ v _ => v | _ => false end.
Definition function_comptime (t : ty) : bool := match t with TFunction _ _ _ _ c => c | _ => false end.

(** How a method is found: declared on the type, or promoted. *)
Record MethodFound : Set := mkFound {
  mf_type : ty;
  mf_embedded : bool;
  mf_via_pointer : bool;
  mf_via_interface : bool
}.

Definition embed_root (concrete : ty) : ty :=
  match concrete with
  | TPointer _ p => if has_kind TYPE_STRUCT p then p else concrete
  | _ => concrete
  end.

(** [None] is the search running out of fuel. *)
Definition find_method (concrete : ty) (tn name : option string) : option (option MethodFound) :=
  let mv := type_checker_lookup_method checker concrete name (type_method_mangled_name tn name) in
  match method_type mv with
  | Some mt => Some (Some (mkFound mt false false false))
  | None =>
      if has_kind TYPE_STRUCT (embed_root concrete) then
        match embedding_resolve (embed_root concrete) name with
        | None => None
        | Some er =>
            match er_kind er with
            | EMBED_METHOD =>
                Some (if is_NULL (er_type er) then None
                      else Some (mkFound (er_type er) true (er_via_pointer er) (er_via_interface er)))
            | _ => Some None
            end
        end
      else Some None
  end.

(** The receiver of the method a type has, as opposed to that of the concrete value. *)
Definition receiver_rejected (concrete : ty) (m : MethodFound) : bool :=
  negb (mf_via_interface m) &&
  match function_params (mf_type m) with
  | r :: _ => has_kind TYPE_POINTER r
  | [] => false
  end &&
  negb (has_kind TYPE_POINTER concrete) && (negb (mf_embedded m) || negb (mf_via_pointer m)).

Definition signature_matches (want : ty) (m : MethodFound) : bool :=
  let ps := function_params (mf_type m) in
  let off := if mf_via_interface m then 0 else 1 in
  (length ps =? length (function_params want) + off)%nat &&
  all2 type_equals (drop off ps) (function_params want) &&
  Bool.eqb (function_variadic want) (function_variadic (mf_type m)) &&
  (is_NULL (function_return want) || has_kind TYPE_VOID (function_return want) ||
   type_equals (function_return (mf_type m)) (function_return want)).

(** What is wrong with one method of the interface; [inl] is out of fuel. *)
Definition method_unsatisfied (concrete : ty) (im : InterfaceMethod) : unit + option Unsatisfied :=
  match type_receiver_name concrete with
  | None => inr (Some Missing)
  | Some tn =>
      match find_method concrete (Some tn) (m_name im) with
      | None => inl tt
      | Some None => inr (Some Missing)
      | Some (Some m) =>
          inr (if function_comptime (mf_type m) then Some Comptime
               else if receiver_rejected concrete m then Some PointerReceiver
               else if signature_matches (m_type im) m then None
               else Some SignatureMismatch)
      end
  end.

Fixpoint methods_unsatisfied (concrete : ty) (ims : list InterfaceMethod)
    : option (option (option string * Unsatisfied)) :=
  match ims with
  | [] => Some None
  | im :: ims =>
      match method_unsatisfied concrete im with
      | inl _ => None
      | inr (Some why) => Some (Some (m_name im, why))
      | inr None => methods_unsatisfied concrete ims
      end
  end.

(** [Some (true, None)] when satisfied; otherwise the first method in the way, and why. *)
Definition type_interface_satisfied (iface concrete : ty)
    : option (bool * option (option string * Unsatisfied)) :=
  if has_kind TYPE_INTERFACE iface && negb (is_NULL concrete) then
    match methods_unsatisfied concrete (iface_methods (tc_store checker) iface) with
    | Some None => Some (true, None)
    | Some why => Some (false, why)
    | None => None
    end
  else Some (false, None).
End Resolve.
