(* ===== verification/EmbeddingFacts.v ===== *)
(** * EmbeddingFacts: the search for promoted members, level by level.

    [level] is the tree of embedded fields that the search walks, without its visited set, and
    [promoted] the members at the shallowest of its levels that has any; [search_promoted] says that
    the search finds those while its queue does not overflow and names tell types apart, and
    [embed_search_total] that it ends.  [PromotionFacts] relates the tree to Go's rule. *)
From Stdlib Require Import ZArith Lia String Ascii Bool.
From stdpp Require Import base list numbers option gmap strings.
From S2P Require Import Prelude Types TypesFacts Embedding.

#[local] Open Scope string_scope.
#[local] Open Scope list_scope.

Section Search.
  Context (checker : TypeChecker) (name : string).

(** ** The tree of embedded fields *)
Definition child_of (q : QueueEntry) (f : StructField) : option QueueEntry :=
    if is_embedded f && negb (is_NULL (embed_deref (f_type f))) then
      Some (mkEntry (embed_deref (f_type f)) (q_path q ++ [f_name f]) (via_ptr q || has_kind TYPE_POINTER (f_type f)))
    else None.

Definition expand (q : QueueEntry) : list QueueEntry :=
    omap (child_of q) (fields_of checker (q_type q)).

Fixpoint level (root : ty) (d : nat) : list QueueEntry :=
    match d with
    | O => [mkEntry root [] false]
    | S d => flat_map expand (level root d)
    end.

Definition is_hit (q : QueueEntry) : bool :=
    match embed_direct_member checker (q_type q) name with Some _ => true | None => false end.

Definition hits (root : ty) (d : nat) : list QueueEntry := List.filter is_hit (level root d).

(** The shallowest depth with a member of the name, and the members there. *)
Definition promoted (root : ty) : option (list QueueEntry) :=
    option_map (hits root) (List.find (fun d => match hits root d with [] => false | _ => true end) (seq 1 EMBED_MAX_DEPTH)).

(** Names tell the types of the tree apart. *)
Definition names_distinct (root : ty) : Prop :=
    forall i j a b n, i <= EMBED_MAX_DEPTH -> j <= EMBED_MAX_DEPTH -> a ∈ level root i -> b ∈ level root j ->
    embed_type_name (q_type a) = Some n -> embed_type_name (q_type b) = Some n -> q_type a = q_type b.

Lemma flat_map_elem {A B} (f : A -> list B) l y : y ∈ flat_map f l <-> exists x, x ∈ l /\ y ∈ f x.
  Proof using.
    rewrite list_elem_of_In, in_flat_map. split; intros (x&Hx&Hy); exists x; by rewrite ?list_elem_of_In in *.
  Qed.

Lemma expand_length q c : c ∈ expand q -> length (q_path c) = S (length (q_path q)).
  Proof using.
    intros H. apply list_elem_of_omap in H as (f&_&H). unfold child_of in H.
    destruct (_ && _); [|done]. injection H as <-. simpl. rewrite length_app. simpl. lia.
  Qed.

Lemma level_length root d q : q ∈ level root d -> length (q_path q) = d.
  Proof using.
    revert q. induction d as [|d IH]; intros q; simpl.
    - by intros ->%list_elem_of_singleton.
    - intros (p&Hp&Hq)%flat_map_elem. apply expand_length in Hq. by rewrite Hq, (IH p Hp).
  Qed.

(** What two entries of one type lead to is the same but for the paths. *)
Definition same_types (a b : list QueueEntry) : Prop := map q_type a = map q_type b.

Lemma child_types p q f : option_map q_type (child_of p f) = option_map q_type (child_of q f).
  Proof using. unfold child_of. by destruct (_ && _). Qed.

Lemma expand_types p q : q_type p = q_type q -> same_types (expand p) (expand q).
  Proof using.
    unfold same_types, expand. intros ->. induction (fields_of checker (q_type q)) as [|f fs IH]; [done|].
    cbn [omap list_omap]. pose proof (child_types p q f) as Hf.
    destruct (child_of p f), (child_of q f); simplify_eq/=; [|exact IH]. f_equal; [done|exact IH].
  Qed.

Fixpoint descend (n : nat) (es : list QueueEntry) : list QueueEntry :=
    match n with O => es | S n => descend n (flat_map expand es) end.

Lemma descend_types n a b : same_types a b -> same_types (descend n a) (descend n b).
  Proof using.
    revert a b. induction n as [|n IH]; intros a b H; simpl; [done|]. apply IH. clear IH. unfold same_types in *.
    revert b H. induction a as [|p a IH]; intros [|q b] H; try done.
    simpl in *. injection H as H1 H2. rewrite !map_app. f_equal; [by apply expand_types|by apply IH].
  Qed.

Lemma descend_app n a b : descend n (a ++ b) = descend n a ++ descend n b.
  Proof using. revert a b. induction n as [|n IH]; intros a b; simpl; [done|]. by rewrite flat_map_app, IH. Qed.

Lemma descend_flat n es : descend n es = flat_map (fun q => descend n [q]) es.
  Proof using.
    induction es as [|q es IH]; simpl; [by induction n|].
    change (q :: es) with ([q] ++ es). by rewrite descend_app, IH.
  Qed.

Lemma level_descend root d n : level root (d + n) = descend n (level root d).
  Proof using.
    revert d. induction n as [|n IH]; intros d; simpl; [by rewrite Nat.add_0_r|].
    replace (d + S n) with (S d + n) by lia. by rewrite IH.
  Qed.

Lemma hit_types a b : same_types a b -> existsb is_hit a = existsb is_hit b.
  Proof using.
    unfold same_types. revert b. induction a as [|p a IH]; intros [|q b] H; try done.
    simpl in *. injection H as H1 H2. unfold is_hit at 1 3. by rewrite H1, (IH b H2).
  Qed.

(** ** One level of the search *)
Definition kept (visited : list (string * nat)) (d : nat) (c : QueueEntry) : bool :=
    negb (seen_shallower visited (embed_type_name (q_type c)) d).

Definition named (d : nat) (cs : list QueueEntry) : list (string * nat) :=
    omap (fun c => option_map (fun n => (n, d)) (embed_type_name (q_type c))) cs.

Lemma named_length d cs : length (named d cs) <= length cs.
  Proof using.
    induction cs as [|c cs IH]; [simpl; lia|]. unfold named in *. cbn [omap list_omap].
    destruct (embed_type_name (q_type c)); simpl; etrans; try apply le_n_S; eauto using Nat.le_succ_diag_r.
  Qed.

Lemma named_elem d cs n j : (n, j) ∈ named d cs <-> j = d /\ exists c, c ∈ cs /\ embed_type_name (q_type c) = Some n.
  Proof using.
    unfold named. rewrite list_elem_of_omap. split.
    - intros (c&Hc&H). destruct (embed_type_name (q_type c)) as [m|] eqn:E; [|done]. injection H as -> ->. eauto.
    - intros (->&c&Hc&E). exists c. by rewrite E.
  Qed.

Lemma seen_same V W d cn : (forall n j, (n, j) ∈ W -> d <= j) -> seen_shallower (V ++ W) cn d = seen_shallower V cn d.
  Proof using.
    intros H. unfold seen_shallower. destruct cn as [n|]; [|done]. rewrite existsb_app.
    replace (existsb _ W) with false; [by rewrite orb_false_r|]. symmetry. apply not_true_is_false. intros E.
    apply existsb_exists in E as ([m j]&Hin&E). apply andb_true_iff in E as [_ E]. apply Nat.ltb_lt in E. simpl in E.
    apply list_elem_of_In in Hin. specialize (H m j Hin). lia.
  Qed.

Lemma push_mono q st f : es_tail st <= es_tail (push_field q st f).
  Proof using. unfold push_field. repeat case_match; simpl; lia. Qed.

Lemma pushes_mono q fs st : es_tail st <= es_tail (fold_left (push_field q) fs st).
  Proof using.
    revert st. induction fs as [|f fs IH]; intros st; simpl; [done|]. etrans; [apply (push_mono q st f)|apply IH].
  Qed.

(** One field, while the queue has room. *)
Lemma push_spec V q f st W : let d := S (length (q_path q)) in
    es_visited st = V ++ W -> (forall n j, (n, j) ∈ W -> d <= j) -> length (V ++ W) <= es_tail st ->
    es_tail (push_field q st f) < EMBED_MAX_QUEUE ->
    let cs := List.filter (kept V d) (match child_of q f with Some c => [c] | None => [] end) in
    push_field q st f =
      mkES (V ++ W ++ named d cs) (es_next st ++ cs) (es_tail st + length cs) (es_hit_depth st) (es_res st).
  Proof using.
    intros d HV HW Hl Ht. pose proof (push_mono q st f) as Hm. unfold child_of. unfold push_field in *.
    assert (st = mkES (V ++ W ++ []) (es_next st ++ []) (es_tail st + 0) (es_hit_depth st) (es_res st)) as Hst
      by (rewrite !app_nil_r, Nat.add_0_r, <- HV; by destruct st).
    destruct (is_embedded f); cbn [negb andb] in *; [|exact Hst].
    destruct (is_NULL (embed_deref (f_type f))); cbn [negb] in *; [exact Hst|].
    cbn [List.filter]. unfold kept. cbn [q_type]. fold d. rewrite HV in *. rewrite (seen_same V W) in * by done.
    destruct (seen_shallower V _ d) eqn:Es; cbn [negb]; [exact Hst|].
    destruct (Nat.leb_spec EMBED_MAX_QUEUE (es_tail st)) as [Hge|Hlt]; cbn [es_tail] in *; [lia|].
    unfold note_visited, named. cbn [omap list_omap q_type length].
    destruct (embed_type_name (embed_deref (f_type f))) as [n|]; cbn [option_map].
    - destruct (Nat.ltb_spec (length (V ++ W)) EMBED_MAX_VISITED) as [|Hge].
      + rewrite Nat.add_1_r, <- app_assoc. done.
      + unfold EMBED_MAX_QUEUE, EMBED_MAX_VISITED in *. lia.
    - by rewrite !app_nil_r, Nat.add_1_r.
  Qed.

Lemma pushes_hit q fs st : es_hit_depth (fold_left (push_field q) fs st) = es_hit_depth st.
  Proof using.
    revert st. induction fs as [|f fs IH]; intros st; [done|]. cbn [fold_left]. rewrite IH.
    unfold push_field. by repeat case_match.
  Qed.

(** The fields of one entry. *)
Lemma pushes_spec V q fs st W : let d := S (length (q_path q)) in
    es_visited st = V ++ W -> (forall n j, (n, j) ∈ W -> d <= j) -> length (V ++ W) <= es_tail st ->
    es_tail (fold_left (push_field q) fs st) < EMBED_MAX_QUEUE ->
    let cs := List.filter (kept V d) (omap (child_of q) fs) in
    fold_left (push_field q) fs st =
      mkES (V ++ W ++ named d cs) (es_next st ++ cs) (es_tail st + length cs) (es_hit_depth st) (es_res st).
  Proof using.
    intros d. revert st W. induction fs as [|f fs IH]; intros st W HV HW Hl Ht.
    { cbn. rewrite !app_nil_r, Nat.add_0_r, <- HV. by destruct st. }
    cbn [fold_left] in *. pose proof (pushes_mono q fs (push_field q st f)) as Hm.
    pose proof (push_spec V q f st W HV HW Hl ltac:(lia)) as E. cbv zeta in E.
    set (c1 := List.filter _ _) in E. rewrite E in *. cbv zeta. rewrite (IH _ (W ++ named d c1)).
    - assert (List.filter (kept V d) (omap (child_of q) (f :: fs)) = c1 ++ List.filter (kept V d) (omap (child_of q) fs)) as ->.
      { subst c1. fold d. rewrite <- List.filter_app. cbn [omap list_omap]. by destruct (child_of q f). }
      cbn [es_next es_tail es_hit_depth es_res]. unfold named. rewrite omap_app, length_app, <- !app_assoc. f_equal. lia.
    - done.
    - intros n j [H|H]%elem_of_app; [exact (HW n j H)|]. apply named_elem in H as [-> _]. done.
    - cbn [es_tail]. pose proof (named_length d c1). rewrite !length_app in *. lia.
    - exact Ht.
  Qed.
(** ** The levels of the search *)
Definition search_next (V : list (string * nat)) (k : nat) (es : list QueueEntry) : list QueueEntry :=
    if (EMBED_MAX_DEPTH <=? k)%nat then [] else flat_map (fun q => List.filter (kept V (S k)) (expand q)) es.

Fixpoint search_level (root : ty) (k : nat) : list (string * nat) * list QueueEntry :=
    match k with
    | O => (es_visited (embed_start root), [mkEntry root [] false])
    | S k => let '(V, es) := search_level root k in
             (V ++ named (S k) (search_next V k es), search_next V k es)
    end.

(** An entry without the member: its fields go on the queue. *)
Lemma scan_entry_miss q st : es_hit_depth st = None -> is_hit q = false ->
    scan_entry checker name q st =
      inr (if (EMBED_MAX_DEPTH <=? length (q_path q))%nat then st
           else fold_left (push_field q) (fields_of checker (q_type q)) st).
  Proof using.
    intros Hn Hh. unfold scan_entry, is_hit in *. destruct (embed_direct_member checker (q_type q) name); [done|].
    rewrite Hn. replace (if (0 <? _)%nat then None else None) with (@None (ty * bool * bool)) by (by destruct (0 <? _)%nat).
    destruct (_ <=? _)%nat; [by rewrite orb_true_r|]. rewrite orb_false_r.
    destruct (has_kind TYPE_STRUCT (q_type q)) eqn:E; [done|]. by destruct (q_type q).
  Qed.

Lemma scan_entry_mono q st :
    match scan_entry checker name q st with inl (_, t) => es_tail st <= t | inr st' => es_tail st <= es_tail st' end.
  Proof using.
    unfold scan_entry. destruct (if (0 <? _)%nat then _ else _) as [m|].
    - destruct (es_hit_depth st); [|done]. by destruct (_ =? _)%nat.
    - destruct (match es_hit_depth st with Some _ => _ | None => _ end); [done|]. destruct (_ || _); [done|].
      apply pushes_mono.
  Qed.

Lemma scan_level_mono es st :
    match scan_level checker name es st with inl (_, t) => es_tail st <= t | inr st' => es_tail st <= es_tail st' end.
  Proof using.
    revert st. induction es as [|q es IH]; intros st; cbn [scan_level]; [done|].
    pose proof (scan_entry_mono q st) as H. destruct (scan_entry checker name q st) as [[r t]|st']; [done|].
    specialize (IH st'). destruct (scan_level checker name es st') as [[r t]|st'']; lia.
  Qed.

Lemma scan_levels_mono fuel es st r t : scan_levels checker fuel name es st = Some (r, t) -> es_tail st <= t.
  Proof using.
    revert es st. induction fuel as [|fuel IH]; intros [|q es] st; cbn [scan_levels].
    1,3: by intros [= <- <-]. 1: done.
    pose proof (scan_level_mono (q :: es) (mkES (es_visited st) [] (es_tail st) (es_hit_depth st) (es_res st))) as H.
    destruct (scan_level _ _ _ _) as [[r' t']|st']; cbn [es_tail] in *; [by intros [= <- <-]|].
    destruct (es_hit_depth st') as [d|]; [destruct (d <=? _)%nat|]; intros E; try (apply IH in E; lia).
    injection E as <- <-. done.
  Qed.

(** A level without the member. *)
Lemma scan_level_miss V k es st W st' :
    Forall (fun q => length (q_path q) = k /\ is_hit q = false) es ->
    es_visited st = V ++ W -> (forall n j, (n, j) ∈ W -> S k <= j) -> length (V ++ W) <= es_tail st ->
    es_hit_depth st = None -> scan_level checker name es st = inr st' -> es_tail st' < EMBED_MAX_QUEUE ->
    let next := search_next V k es in
    st' = mkES (V ++ W ++ named (S k) next) (es_next st ++ next) (es_tail st + length next) None (es_res st).
  Proof using.
    intros HF. revert st W. induction HF as [|q es [Hk Hh] HF IH]; intros st W HV HW Hl Hn E Ht; cbn [scan_level] in E.
    { injection E as <-. unfold search_next. destruct (_ <=? _)%nat; cbn; rewrite !app_nil_r, Nat.add_0_r, <- HV, <- Hn;
        by destruct st. }
    rewrite (scan_entry_miss q st Hn Hh), Hk in E. unfold search_next in *. destruct (EMBED_MAX_DEPTH <=? k)%nat.
    { by apply (IH st W). }
    set (st1 := fold_left _ _ _) in E. pose proof (scan_level_mono es st1) as Hm. rewrite E in Hm.
    pose proof (pushes_spec V q (fields_of checker (q_type q)) st W) as Hp. cbv zeta in Hp. rewrite Hk in Hp.
    specialize (Hp HV HW Hl ltac:(fold st1; lia)). fold st1 in Hp. fold (expand q) in Hp.
    set (c1 := List.filter (kept V (S k)) (expand q)) in *. rewrite Hp in *. cbv zeta in *.
    rewrite (IH (mkES (V ++ W ++ named (S k) c1) (es_next st ++ c1) (es_tail st + length c1) (es_hit_depth st) (es_res st))
      (W ++ named (S k) c1)); try done.
    - cbn [flat_map es_next es_tail es_res]. fold c1. unfold named. rewrite omap_app, length_app, <- !app_assoc. f_equal. lia.
    - intros n j [H|H]%elem_of_app; [exact (HW n j H)|]. apply named_elem in H as [-> _]. done.
    - cbn [es_tail]. pose proof (named_length (S k) c1). rewrite !length_app in *. lia.
  Qed.
(** *** What the search reports *)
Definition hit_result (q : QueueEntry) : EmbedResult :=
    match embed_direct_member checker (q_type q) name with Some m => first_hit q name m | None => not_found end.

Definition classify (hs : list QueueEntry) : EmbedResult :=
    match hs with
    | [] => not_found
    | [q] => hit_result q
    | q1 :: q2 :: _ => second_hit (hit_result q1) q2 name
    end.

(** The rest of a level, after its first hit. *)
Lemma scan_level_after k es st : 0 < k -> es_hit_depth st = Some k -> Forall (fun q => length (q_path q) = k) es ->
    scan_level checker name es st =
      match List.filter is_hit es with
      | [] => inr st
      | q :: _ => inl (second_hit (es_res st) q name, es_tail st)
      end.
  Proof using.
    intros Hk Hh HF. induction HF as [|q es Hq HF IH]; [done|]. cbn [scan_level List.filter].
    unfold scan_entry, is_hit at 1. rewrite Hh, Hq, Nat.leb_refl, Nat.eqb_refl.
    destruct (Nat.ltb_spec 0 k); [|lia]. by destruct (embed_direct_member checker (q_type q) name).
  Qed.

(** A level with the member: the result is that of the level's hits. *)
Lemma scan_level_hits k es st : 0 < k -> es_hit_depth st = None -> Forall (fun q => length (q_path q) = k) es ->
    List.filter is_hit es <> [] ->
    match scan_level checker name es st with
    | inl (r, _) => r = classify (List.filter is_hit es)
    | inr st' => es_hit_depth st' = Some k /\ es_res st' = classify (List.filter is_hit es)
    end.
  Proof using.
    intros Hk. revert st. induction es as [|q es IH]; intros st Hn HF Hne; [done|].
    inversion HF as [|? ? Hq HF']; subst. cbn [scan_level List.filter] in *. destruct (is_hit q) eqn:Eh.
    - unfold scan_entry, is_hit in *. destruct (Nat.ltb_spec 0 (length (q_path q))); [|lia].
      destruct (embed_direct_member checker (q_type q) name) as [m|] eqn:Em; [|done]. rewrite Hn.
      rewrite (scan_level_after (length (q_path q))) by done. cbn [es_res es_tail].
      fold is_hit. unfold classify, hit_result. rewrite Em.
      change (List.filter _ es) with (List.filter is_hit es). by destruct (List.filter is_hit es).
    - rewrite (scan_entry_miss q st Hn Eh). apply IH; try done.
      destruct (_ <=? _)%nat; [done|]. by rewrite pushes_hit.
  Qed.

(** The first level with hits, of those from [k] on. *)
Fixpoint first_nonempty (hss : list (list QueueEntry)) : list QueueEntry :=
    match hss with [] => [] | [] :: hss => first_nonempty hss | hs :: _ => hs end.

Definition search_hits (root : ty) (k : nat) : list QueueEntry := List.filter is_hit (search_level root k).2.

Lemma search_level_length root k : Forall (fun q => length (q_path q) = k) (search_level root k).2.
  Proof using.
    induction k as [|k IH]; cbn [search_level]; [by repeat constructor|].
    destruct (search_level root k) as [V es]. cbn [snd] in *. unfold search_next.
    destruct (_ <=? _)%nat; [constructor|]. apply Forall_forall. intros c (q&Hq&Hc)%flat_map_elem.
    rewrite Forall_forall in IH. specialize (IH q Hq). apply list_elem_of_In, filter_In in Hc as [Hc _].
    apply list_elem_of_In in Hc. apply expand_length in Hc. lia.
  Qed.

Lemma search_level_nil root k : (search_level root k).2 = [] -> (search_level root (S k)).2 = [].
  Proof using.
    cbn [search_level]. destruct (search_level root k) as [V es]. cbn [snd]. intros ->. unfold search_next.
    by destruct (_ <=? _)%nat.
  Qed.

Lemma search_hits_nil root k ks : (search_level root k).2 = [] -> first_nonempty (map (search_hits root) (seq k ks)) = [].
  Proof using.
    revert k. induction ks as [|ks IH]; intros k H; [done|]. cbn. unfold search_hits at 1. rewrite H. cbn.
    apply IH. by apply search_level_nil.
  Qed.
Lemma search_level_S root k : search_level root (S k) =
    ((search_level root k).1 ++ named (S k) (search_next (search_level root k).1 k (search_level root k).2),
     search_next (search_level root k).1 k (search_level root k).2).
  Proof using. cbn [search_level]. by destruct (search_level root k). Qed.

Lemma search_level_deep root k : EMBED_MAX_DEPTH <= k -> (search_level root (S k)).2 = [].
  Proof using.
    intros H. cbn [search_level]. destruct (search_level root k) as [V es]. unfold search_next. cbn [snd].
    by destruct (Nat.leb_spec EMBED_MAX_DEPTH k); [|lia].
  Qed.

Lemma scan_level_inr es st : es_hit_depth st = None -> List.filter is_hit es = [] ->
    exists st', scan_level checker name es st = inr st'.
  Proof using.
    revert st. induction es as [|q es IH]; intros st Hn; cbn [List.filter scan_level]; [eauto|].
    destruct (is_hit q) eqn:Eh; [done|]. rewrite (scan_entry_miss q st Hn Eh). apply IH.
    destruct (_ <=? _)%nat; [done|]. by rewrite pushes_hit.
  Qed.

Lemma filter_nil_Forall {A} (p : A -> bool) l : List.filter p l = [] <-> Forall (fun x => p x = false) l.
  Proof using.
    induction l as [|x l IH]; cbn; [done|]. destruct (p x) eqn:E; rewrite List.Forall_cons_iff.
    - split; [done|]. by intros [? _]; congruence.
    - rewrite IH. tauto.
  Qed.

Lemma scan_levels_spec root fuel k n st r t : search_hits root 0 = [] -> k + n = S EMBED_MAX_DEPTH ->
    scan_levels checker fuel name (search_level root k).2 st = Some (r, t) -> t < EMBED_MAX_QUEUE ->
    es_visited st = (search_level root k).1 -> length (search_level root k).1 <= es_tail st ->
    es_hit_depth st = None -> es_res st = not_found ->
    r = classify (first_nonempty (map (search_hits root) (seq k n))).
  Proof using.
    intros H0. revert k n st. induction fuel as [|fuel IH]; intros k n st Hkn E Ht HV Hl Hn Hr;
      destruct ((search_level root k).2) as [|q es] eqn:Ek; cbn [scan_levels] in E; try done.
    1,2: injection E as <- <-; by rewrite search_hits_nil.
    destruct n as [|n]; [destruct k as [|k]; [done|]; rewrite search_level_deep in Ek by lia; done|].
    pose proof (search_level_length root k) as HL. rewrite Ek in HL.
    assert (length (q_path q) = k) as Hq by by inversion HL. rewrite Hq in E.
    set (st1 := mkES _ _ _ _ _) in E. cbn [seq map]. destruct (search_hits root k) as [|h hs] eqn:Eh.
    - assert (List.filter is_hit (q :: es) = []) as Hh by (rewrite <- Ek; exact Eh).
      destruct (scan_level_inr (q :: es) st1 Hn Hh) as [st' E1]. rewrite E1 in E.
      apply filter_nil_Forall in Hh. pose proof (scan_level_miss (search_level root k).1 k (q :: es) st1 [] st') as Hm.
      cbv zeta in Hm. rewrite !app_nil_r in Hm. cbn [es_tail es_next es_res st1] in Hm.
      assert (es_tail st' <= t) as Hle.
      { destruct (es_hit_depth st') as [d|]; [destruct (d <=? k)%nat|]; try (apply scan_levels_mono in E; done).
        by injection E as <- <-. }
      rewrite Hm in E; try done; [|by apply Forall_and|by intros ?? ?%elem_of_nil|lia].
      cbn [es_hit_depth es_next app] in E.
      pose proof (search_level_S root k) as Hs. rewrite Ek in Hs.
      apply (IH (S k) n (mkES ((search_level root k).1 ++ named (S k) (search_next (search_level root k).1 k (q :: es)))
        (search_next (search_level root k).1 k (q :: es))
        (es_tail st + length (search_next (search_level root k).1 k (q :: es))) None (es_res st))); try done.
      + lia.
      + by rewrite Hs.
      + by rewrite Hs.
      + rewrite Hs. cbn [fst es_tail]. rewrite length_app. pose proof (named_length (S k) (search_next (search_level root k).1 k (q :: es))). lia.
    - destruct k as [|k]; [congruence|]. cbn [first_nonempty].
      pose proof (scan_level_hits (S k) (q :: es) st1 ltac:(lia) Hn HL) as Hs. unfold search_hits in Eh. rewrite Ek in Eh.
      rewrite Eh in Hs. specialize (Hs ltac:(done)). destruct (scan_level _ _ _ st1) as [[r' t']|st'].
      + by injection E as <- <-.
      + destruct Hs as [Hd <-]. rewrite Hd, Nat.leb_refl in E. by injection E as <- <-.
  Qed.
(** ** The visited set loses no winner *)
Lemma level_step root k q c : q ∈ level root k -> c ∈ expand q -> c ∈ level root (S k).
  Proof using. intros Hq Hc. cbn [level]. apply flat_map_elem. eauto. Qed.

Lemma search_subset root k q : q ∈ (search_level root k).2 -> q ∈ level root k.
  Proof using.
    revert q. induction k as [|k IH]; intros q; [done|]. rewrite search_level_S. cbn [snd]. unfold search_next.
    destruct (_ <=? _)%nat; [by intros ?%elem_of_nil|]. intros (p&Hp&Hq)%flat_map_elem.
    apply list_elem_of_In, filter_In in Hq as [Hq _]. apply list_elem_of_In in Hq. by apply (level_step root k p q (IH p Hp)).
  Qed.

Lemma visited_level root k n j : (n, j) ∈ (search_level root k).1 ->
    j <= k /\ exists b, b ∈ level root j /\ embed_type_name (q_type b) = Some n.
  Proof using.
    induction k as [|k IH].
    - cbn. destruct (embed_type_name root) as [m|] eqn:E; [|by intros ?%elem_of_nil].
      intros [= -> ->]%list_elem_of_singleton. split; [done|]. eexists; split; [by apply list_elem_of_singleton|done].
    - pose proof (search_level_S root k) as Hs. pose proof (search_subset root (S k)) as Hsub. rewrite Hs in *. cbn [fst snd] in *.
      intros [H|H]%elem_of_app; [destruct (IH H) as [? ?]; split; [lia|done]|].
      apply named_elem in H as [-> (c&Hc&E)]. split; [done|]. exists c. split; [by apply Hsub|done].
  Qed.

(** There is a hit [n] levels below [q]. *)
Definition reaches (n : nat) (q : QueueEntry) : bool := existsb is_hit (descend n [q]).

Lemma existsb_flat_map {A B} (p : B -> bool) (f : A -> list B) l :
    existsb p (flat_map f l) = existsb (fun x => existsb p (f x)) l.
  Proof using. induction l as [|x l IH]; [done|]. cbn. by rewrite existsb_app, IH. Qed.

Lemma reaches_step n q : reaches (S n) q = existsb (reaches n) (expand q).
  Proof using. unfold reaches. cbn [descend flat_map]. rewrite app_nil_r. by rewrite descend_flat, existsb_flat_map. Qed.

Lemma filter_flat_map {A B} (p : B -> bool) (f : A -> list B) l :
    List.filter p (flat_map f l) = flat_map (fun x => List.filter p (f x)) l.
  Proof using. induction l as [|x l IH]; [done|]. cbn. by rewrite List.filter_app, IH. Qed.

Lemma flat_map_relevant {A B} (r : A -> bool) (f : A -> list B) l :
    (forall x, r x = false -> f x = []) -> flat_map f l = flat_map f (List.filter r l).
  Proof using.
    intros H. induction l as [|x l IH]; [done|]. cbn. destruct (r x) eqn:E; cbn; rewrite IH; [done|]. by rewrite (H x E).
  Qed.

Lemma existsb_filter {A} (p : A -> bool) l : existsb p l = false -> List.filter p l = [].
  Proof using. induction l as [|x l IH]; [done|]. cbn. by destruct (p x). Qed.

Lemma filter_filter_in {A} (p r : A -> bool) l : (forall x, x ∈ l -> p x = true -> r x = true) ->
    List.filter p (List.filter r l) = List.filter p l.
  Proof using.
    induction l as [|x l IH]; intros H; [done|]. cbn. pose proof (H x ltac:(by left)) as Hx.
    destruct (r x), (p x) eqn:Ep; cbn; rewrite ?Ep, ?IH; try done; try (intros y ? ?; by apply H; [right|]). by specialize (Hx eq_refl).
  Qed.

Lemma reaches_kept root d k c : names_distinct root -> (forall j, j < d -> hits root j = []) -> d <= EMBED_MAX_DEPTH ->
    S k <= d -> c ∈ level root (S k) -> reaches (d - S k) c = true -> kept (search_level root k).1 (S k) c = true.
  Proof using.
    intros Hd Hmin Hmax Hk Hc Hr. unfold kept, seen_shallower.
    destruct (embed_type_name (q_type c)) as [n|] eqn:En; [|done].
    destruct (existsb _ _) eqn:E; [|done]. exfalso.
    apply existsb_exists in E as ([m j]&Hin&E). apply andb_true_iff in E as [Em%String.eqb_eq Hj%Nat.ltb_lt].
    cbn in Em, Hj. subst m.
    apply list_elem_of_In, visited_level in Hin as [Hjk (b&Hb&Hbn)].
    assert (q_type b = q_type c) as Ht by (apply (Hd j (S k) b c n); [lia|lia|done|done|done|done]).
    unfold reaches in Hr. rewrite (hit_types _ (descend (d - S k) [b])) in Hr
      by (apply descend_types; unfold same_types; cbn; by rewrite Ht).
    apply existsb_exists in Hr as (h&Hh&Hhit).
    assert (h ∈ hits root (j + (d - S k))) as Hin.
    { unfold hits. apply list_elem_of_In, filter_In. split; [|done]. apply list_elem_of_In. rewrite level_descend, descend_flat.
      apply flat_map_elem. exists b. split; [done|by apply list_elem_of_In]. }
    rewrite (Hmin (j + (d - S k))) in Hin by lia. by apply elem_of_nil in Hin.
  Qed.

(** At the depths where it matters, the visited set changes nothing. *)
Lemma search_level_reaches root d k : names_distinct root -> (forall j, j < d -> hits root j = []) -> d <= EMBED_MAX_DEPTH ->
    k <= d -> List.filter (reaches (d - k)) (search_level root k).2 = List.filter (reaches (d - k)) (level root k).
  Proof using.
    intros Hd Hmin Hmax. induction k as [|k IH]; intros Hk; [done|]. specialize (IH ltac:(lia)).
    pose proof (search_subset root k) as Hsub. rewrite search_level_S. cbn [snd level]. unfold search_next.
    destruct (Nat.leb_spec EMBED_MAX_DEPTH k); [lia|]. rewrite !filter_flat_map.
    replace (d - k) with (S (d - S k)) in IH by lia.
    set (g := fun q => List.filter (reaches (d - S k)) (expand q)).
    assert (forall q, reaches (S (d - S k)) q = false -> g q = []) as Hg.
    { intros q Hq. rewrite reaches_step in Hq. by apply existsb_filter. }
    transitivity (flat_map g (search_level root k).2).
    - revert Hsub. generalize ((search_level root k).2). intros es. induction es as [|q es IHe]; intros Hsub; [done|].
      cbn [flat_map]. f_equal; [|apply IHe; intros ? ?; apply Hsub; by right]. apply filter_filter_in. intros c Hc Hr. apply (reaches_kept root d k c); try done.
      apply (level_step root k q c); [apply Hsub; by left|done].
    - by rewrite (flat_map_relevant _ g (search_level root k).2 Hg), (flat_map_relevant _ g (level root k) Hg), IH.
  Qed.

Lemma search_hits_eq root d : names_distinct root -> (forall j, j < d -> hits root j = []) -> d <= EMBED_MAX_DEPTH ->
    search_hits root d = hits root d.
  Proof using.
    intros Hd Hmin Hmax. pose proof (search_level_reaches root d d Hd Hmin Hmax (le_n d)) as H.
    rewrite Nat.sub_diag in H. assert (forall l, List.filter (reaches 0) l = List.filter is_hit l) as Hf.
    { intros l. apply filter_ext. intros q. unfold reaches. cbn. apply orb_false_r. }
    rewrite !Hf in H. exact H.
  Qed.
Lemma search_hits_all root ks : names_distinct root -> hits root 0 = [] -> ks <= EMBED_MAX_DEPTH ->
    forall j, (forall i, i < j -> hits root i = []) -> j + ks = S EMBED_MAX_DEPTH ->
    first_nonempty (map (search_hits root) (seq j ks)) = first_nonempty (map (hits root) (seq j ks)).
  Proof using.
    intros Hd H0. induction ks as [|ks IH]; intros Hks j Hmin Hj; [done|]. cbn [seq map].
    rewrite (search_hits_eq root j Hd Hmin) by lia. cbn [first_nonempty]. destruct (hits root j) eqn:E; [|done].
    apply IH; [lia| |lia]. intros i Hi. destruct (decide (i = j)) as [->|]; [done|apply Hmin; lia].
  Qed.

Lemma promoted_first root : default [] (promoted root) = first_nonempty (map (hits root) (seq 1 EMBED_MAX_DEPTH)).
  Proof using.
    unfold promoted. induction (seq 1 EMBED_MAX_DEPTH) as [|d ds IH]; [done|]. cbn [List.find map first_nonempty].
    destruct (hits root d) eqn:E; [exact IH|]. cbn. by rewrite E.
  Qed.

Lemma search_promoted root r used : names_distinct root -> hits root 0 = [] ->
    embed_search checker root name = Some (r, used) -> used < EMBED_MAX_QUEUE ->
    r = classify (default [] (promoted root)).
  Proof using.
    intros Hd H0 E Hu. rewrite promoted_first.
    rewrite (scan_levels_spec root _ 0 (S EMBED_MAX_DEPTH) _ r used H0 eq_refl E Hu eq_refl); [|cbn; destruct (embed_type_name root); cbn; lia|done..].
    change (seq 0 (S EMBED_MAX_DEPTH)) with (0 :: seq 1 EMBED_MAX_DEPTH). cbn [map first_nonempty].
    change (search_hits root 0) with (hits root 0). rewrite H0. f_equal.
    apply search_hits_all; try done. intros i Hi. by replace i with 0 by lia.
  Qed.

(** ** Termination *)
Definition next_ok (k : nat) (st : EmbedState) : Prop :=
    Forall (fun q => length (q_path q) = S k) (es_next st) /\ (EMBED_MAX_DEPTH <= k -> es_next st = []).

Lemma scan_entry_next k q st st' : length (q_path q) = k -> next_ok k st -> scan_entry checker name q st = inr st' ->
    next_ok k st'.
  Proof using.
    intros Hk Hst. unfold scan_entry. destruct (if (0 <? _)%nat then _ else _) as [m|].
    { destruct (es_hit_depth st) as [d|]; [destruct (_ =? d)%nat; [done|]|]; intros [= <-]; exact Hst. }
    destruct (match es_hit_depth st with Some _ => _ | None => _ end); [by intros [= <-]|].
    destruct (Nat.leb_spec EMBED_MAX_DEPTH (length (q_path q))) as [|Hlt]; [rewrite orb_true_r; by intros [= <-]|].
    destruct (negb _ || false); intros [= <-]; [done|]. split; [|lia].
    destruct Hst as [Hst _]. revert st Hst. induction (fields_of checker (q_type q)) as [|f fs IH]; intros st Hst; [done|].
    cbn [fold_left]. apply IH. unfold push_field. repeat case_match; try done. cbn [es_next].
    apply Forall_app. split; [done|]. repeat constructor. cbn. rewrite length_app. cbn. lia.
  Qed.

Lemma scan_level_next k es st st' : Forall (fun q => length (q_path q) = k) es -> next_ok k st ->
    scan_level checker name es st = inr st' -> next_ok k st'.
  Proof using.
    intros HF. revert st. induction HF as [|q es Hq HF IH]; intros st Hst; cbn [scan_level]; [by intros [= <-]|].
    destruct (scan_entry checker name q st) as [r|st1] eqn:E; [done|]. apply IH. by apply (scan_entry_next k q st).
  Qed.

Lemma scan_levels_total fuel k es st : Forall (fun q => length (q_path q) = k) es -> k <= S EMBED_MAX_DEPTH ->
    (k = S EMBED_MAX_DEPTH -> es = []) -> S EMBED_MAX_DEPTH <= k + fuel -> exists r, scan_levels checker fuel name es st = Some r.
  Proof using.
    revert k es st. induction fuel as [|fuel IH]; intros k [|q es] st HF Hk H9 Hf; cbn [scan_levels]; eauto.
    { specialize (H9 ltac:(lia)). done. }
    destruct (decide (k = S EMBED_MAX_DEPTH)) as [E|Hne]; [by specialize (H9 E)|].
    set (st1 := mkES _ _ _ _ _). destruct (scan_level checker name (q :: es) st1) as [r|st'] eqn:E; [eauto|].
    destruct (scan_level_next k (q :: es) st1 st' HF ltac:(by split; [constructor|]) E) as [HF' H8].
    assert (exists r, scan_levels checker fuel name (es_next st') st' = Some r) as Hnext
      by (apply (IH (S k)); [done|lia|intros; apply H8; lia|lia]).
    destruct (es_hit_depth st') as [d|]; [destruct (d <=? _)%nat|]; eauto.
  Qed.

Lemma embed_search_total root : exists r, embed_search checker root name = Some r.
  Proof using. apply (scan_levels_total _ 0); [by repeat constructor|lia|done|lia]. Qed.
End Search.
