(* ===== verification/Promotion.v ===== *)
(** * Promotion: Go's rules for embedded fields and for implementing an interface.

    The specification of [embedding_resolve] and [type_interface_satisfied], written from the
    rules of the language and not from the code: the tree of embedded fields is unfolded to any
    depth, without a queue, a visited set or a limit, and a type's methods are those it declares
    and those promoted to it.  Of [Embedding] it takes only the data: the checker with its
    scopes, the entries (a type with the path that leads to it) and the results. *)
From Stdlib Require Import ZArith Lia String Ascii Bool.
From stdpp Require Import base list numbers option gmap strings.
From S2P Require Import Prelude Types TypesFacts Embedding.

#[local] Open Scope string_scope.
#[local] Open Scope list_scope.

(** What a pointer points to; any other type itself. *)
Definition pointee (t : ty) : ty :=
  match t with TPointer _ NULL => t | TPointer _ p => p | _ => t end.

Definition declared_name (t : ty) : option string :=
  match t with NULL => None | TStruct _ n _ | TInterface _ n _ => n | _ => tname (hdr t) end.

(** A name other packages see starts with a capital. *)
Definition is_capital (c : ascii) : bool :=
  existsb (Ascii.eqb c) (list_ascii_of_string "ABCDEFGHIJKLMNOPQRSTUVWXYZ").

Definition visible_abroad (name : string) : bool :=
  match name with String c _ => is_capital c | EmptyString => false end.

Inductive MemberKind : Set := A_field | A_method | An_interface_method.

#[global] Instance MemberKind_eq : EqDecision MemberKind.
Proof. solve_decision. Defined.

Section Rules.
  Context (checker : TypeChecker).

(** The method [name] declared for the type named [tn]: a function [tn__name], looked up where the type is
    declared, and if that is another package only under an exported name. *)
Definition declared_method (t : ty) (tn name : string) : option ty :=
  v ← (match owner_package (hdr (pointee t)) with
       | Some p =>
           if decide (current_package checker = Some p)
           then scope_lookup_variable (current_scope checker) (tn +:+ "__" +:+ name)
           else if visible_abroad name then scope_lookup_variable (exports checker p) (tn +:+ "__" +:+ name)
           else None
       | None => scope_lookup_variable (current_scope checker) (tn +:+ "__" +:+ name)
       end);
  if decide (kind (v_type v) = Some TYPE_FUNCTION) then Some (v_type v) else None.

Definition own_fields (t : ty) : list StructField :=
  match t with TStruct _ _ key => default [] (fields_at (tc_store checker) !! key) | _ => [] end.

Definition interface_methods (t : ty) : list InterfaceMethod :=
  match t with TInterface _ _ key => default [] (methods_at (tc_store checker) !! key) | _ => [] end.

(** The type of the first of [l] under the name. *)
Fixpoint under (name : string) (l : list (option string * ty)) : option ty :=
  match l with
  | [] => None
  | (n, t) :: l => if decide (n = Some name) then Some t else under name l
  end.

(** What a type has of its own under a name: a field, a declared method, an interface's method. *)
Definition own_member (t : ty) (name : string) : option (ty * MemberKind) :=
  match t with
  | TInterface _ _ _ =>
      mt ← under name (map (fun im => (m_name im, m_type im))
                         (List.filter (fun im => negb (is_NULL (m_type im))) (interface_methods t)));
      Some (mt, An_interface_method)
  | _ =>
      match under name (map (fun f => (f_name f, f_type f)) (own_fields t)) with
      | Some ft => Some (ft, A_field)
      | None => tn ← declared_name t; mt ← declared_method t tn name; Some (mt, A_method)
      end
  end.

(** ** Promotion *)
(** The type an embedded field contributes: its own, or what it points to. *)
Definition contributes (f : StructField) : option ty :=
  if is_embedded f then
    match f_type f with NULL | TPointer _ NULL => None | TPointer _ p => Some p | t => Some t end
  else None.

Definition embedded_in (q : QueueEntry) : list QueueEntry :=
  omap (fun f => t ← contributes f;
    Some (mkEntry t (q_path q ++ [f_name f])
      (via_ptr q || bool_decide (kind (f_type f) = Some TYPE_POINTER)))) (own_fields (q_type q)).

(** The fields embedded [d] levels down. *)
Fixpoint embedded_at (root : ty) (d : nat) : list QueueEntry :=
  match d with
  | O => [mkEntry root [] false]
  | S d => flat_map embedded_in (embedded_at root d)
  end.

Definition has_member (name : string) (q : QueueEntry) : bool := match own_member (q_type q) name with Some _ => true | None => false end.

Definition members (root : ty) (name : string) (d : nat) : list QueueEntry :=
  List.filter (has_member name) (embedded_at root d).

(** The members at the shallowest depth that has any are those the name selects. *)
Definition promotes (root : ty) (name : string) (qs : list QueueEntry) : Prop :=
  exists d, 0 < d /\ members root name d = qs /\ qs <> [] /\ forall j, 0 < j < d -> members root name j = [].

Definition unpromoted (root : ty) (name : string) : Prop := forall d, 0 < d -> members root name d = [].

Lemma promotes_unique root name ps qs : promotes root name ps -> promotes root name qs -> ps = qs.
  Proof using.
    intros (i&Hi&<-&Hp&Hip) (j&Hj&<-&Hq&Hjq). destruct (lt_eq_lt_dec i j) as [[H|H]|H].
    - exfalso. apply Hp, Hjq. lia.
    - congruence.
    - exfalso. apply Hq, Hip. lia.
  Qed.

Lemma promotes_some root name qs : promotes root name qs -> ~ unpromoted root name.
  Proof using. intros (d&Hd&<-&Hne&_) H. by apply Hne, H. Qed.

(** What is to be reported: the path with dots, cut to the 127 characters of its buffer. *)
Definition dotted (path : list (option string)) (name : string) : string :=
  fold_right (fun hop rest => default "(null)" hop +:+ "." +:+ rest) name path.

Definition one_promoted (q : QueueEntry) (name : string) : EmbedResult :=
  match own_member (q_type q) name with
  | Some (mt, k) =>
      mkResult (if decide (k = A_field) then EMBED_FIELD else EMBED_METHOD) (q_path q) mt (q_type q)
        (substring 0 127 (dotted (q_path q) name)) "" (via_ptr q) (bool_decide (k = An_interface_method))
  | None => not_found
  end.

Definition report (qs : list QueueEntry) (name : string) : EmbedResult :=
  match qs with
  | [] => not_found
  | [q] => one_promoted q name
  | q1 :: q2 :: _ =>
      let r := one_promoted q1 name in
      mkResult EMBED_AMBIGUOUS (er_path r) (er_type r) (er_owner r) (ambig_a r)
        (substring 0 127 (dotted (q_path q2) name)) (er_via_pointer r) (er_via_interface r)
  end.

(** ** Methods *)
(** The method a selector [concrete.name] means: the one declared for the type, or the only one
    promoted to it, where the type has neither a field nor a method of that name itself. *)
Inductive selects (concrete : ty) (tn name : string) : MethodFound -> Prop :=
| sel_declared mt : declared_method concrete tn name = Some mt ->
    selects concrete tn name (mkFound mt false false false)
| sel_promoted q mt k : declared_method concrete tn name = None ->
    kind (pointee concrete) = Some TYPE_STRUCT -> own_member (pointee concrete) name = None ->
    promotes (pointee concrete) name [q] -> own_member (q_type q) name = Some (mt, k) -> k <> A_field ->
    selects concrete tn name (mkFound mt true (via_ptr q) (bool_decide (k = An_interface_method))).

Lemma selects_unique concrete tn name m m' :
  selects concrete tn name m -> selects concrete tn name m' -> m = m'.
  Proof using.
    intros [mt H|q mt k H Hk Ho Hp Hq _]; intros [mt' H'|q' mt' k' H' Hk' Ho' Hp' Hq' _]; try congruence.
    pose proof (promotes_unique _ _ _ _ Hp Hp') as E. assert (q = q') as <- by congruence.
    rewrite Hq in Hq'. injection Hq' as <- <-. done.
  Qed.
End Rules.

(** A method on a pointer is in the method set of the pointer, or of a value that holds the
    receiver behind an embedded pointer. *)
Definition pointer_receiver (m : MethodFound) : Prop :=
  mf_via_interface m = false /\ exists r ps, function_params (mf_type m) = r :: ps /\ kind r = Some TYPE_POINTER.

Definition in_method_set (concrete : ty) (m : MethodFound) : Prop :=
  pointer_receiver m -> kind concrete = Some TYPE_POINTER \/ mf_embedded m = true /\ mf_via_pointer m = true.

Definition same_type (p q : ty) : Prop := erase p = erase q.

(** The parameters after the receiver, which an interface's method does not have. *)
Definition same_parameters (want : ty) (m : MethodFound) : Prop :=
  function_variadic want = function_variadic (mf_type m) /\
  exists ps, Forall2 same_type ps (function_params want) /\
    if mf_via_interface m then function_params (mf_type m) = ps
    else exists r, function_params (mf_type m) = r :: ps.

Definition without_result (f : ty) : Prop :=
  function_return f = NULL \/ kind (function_return f) = Some TYPE_VOID.

Definition same_result (want have : ty) : Prop :=
  without_result want /\ without_result have \/ same_type (function_return have) (function_return want).

Section Implements.
  Context (checker : TypeChecker) (concrete : ty) (tn : string).

(** The type has the interface's method, with the parameters wanted and a result that is [fine]. *)
Definition has_method (fine : ty -> ty -> Prop) (im : InterfaceMethod) : Prop :=
  exists name m, m_name im = Some name /\ selects checker concrete tn name m /\
    function_comptime (mf_type m) = false /\ in_method_set concrete m /\
    same_parameters (m_type im) m /\ fine (m_type im) (mf_type m).

Definition implements : InterfaceMethod -> Prop := has_method same_result.

(** The interface's method has no result and the type's method has one. *)
Definition drops_result (want have : ty) : Prop := without_result want /\ ~ without_result have.

(** Why it does not. *)
Definition obstacle (im : InterfaceMethod) (why : Unsatisfied) : Prop :=
  exists name, m_name im = Some name /\
  match why with
  | Missing => forall m, ~ selects checker concrete tn name m
  | Comptime => exists m, selects checker concrete tn name m /\ function_comptime (mf_type m) = true
  | PointerReceiver => exists m, selects checker concrete tn name m /\ ~ in_method_set concrete m
  | SignatureMismatch => exists m, selects checker concrete tn name m /\ in_method_set concrete m /\
      ~ (same_parameters (m_type im) m /\
         (without_result (m_type im) \/ same_type (function_return (mf_type m)) (function_return (m_type im))))
  end.
End Implements.
