(* ===== verification/PromotionFacts.v ===== *)
(** * PromotionFacts: the search's tree and members are those of [Promotion].

    The definitions of [EmbeddingFacts] say what the search walks through with the code's own
    helpers; here each is shown to be the rule's. *)
From Stdlib Require Import ZArith Lia String Ascii Bool.
From stdpp Require Import base list numbers option gmap strings.
From S2P Require Import Prelude Types TypesFacts Embedding EmbeddingFacts Promotion.

#[local] Open Scope string_scope.
#[local] Open Scope list_scope.

Lemma exported_visible name : exported_name (Some name) = visible_abroad name.
Proof.
  destruct name as [|c s]; [done|]. unfold visible_abroad, exported_name.
  by destruct c as [[] [] [] [] [] [] [] []].
Qed.

Lemma unwrap_pointee t : unwrap_receiver t = pointee t.
Proof. destruct t; try done. cbn. by destruct t. Qed.

Section Agree.
  Context (checker : TypeChecker).

Lemma declared_method_ok t tn name :
    method_type (type_checker_lookup_method checker t (Some name) (type_method_mangled_name (Some tn) (Some name)))
    = declared_method checker t tn name.
  Proof using.
    unfold type_checker_lookup_method, declared_method, type_method_mangled_name, type_receiver_owner_package.
    rewrite unwrap_pointee, exported_visible. unfold method_type, has_kind, lookup_in_scope.
    assert (forall o : option Variable_t,
      match o with
      | Some v => if bool_decide (kind (v_type v) = Some TYPE_FUNCTION) then Some (v_type v) else None
      | None => None
      end = o ≫= fun v => if decide (kind (v_type v) = Some TYPE_FUNCTION) then Some (v_type v) else None) as E.
    { intros [v|]; [|done]. cbn [mbind option_bind]. case_bool_decide; by case_decide. }
    rewrite <- E. destruct (owner_package _) as [p|]; [|done]. destruct (decide (current_package checker = Some p)) as [H|H].
    - by rewrite (bool_decide_eq_true_2 _ H).
    - rewrite (bool_decide_eq_false_2 _ H). by destruct (visible_abroad name).
  Qed.

Lemma name_is_decide (n : option string) name : name_is n name = bool_decide (n = Some name).
  Proof using.
    destruct n as [n|]; cbn; [|symmetry; by apply bool_decide_eq_false].
    destruct (String.eqb_spec n name) as [->|]; symmetry; [by apply bool_decide_eq_true|].
    apply bool_decide_eq_false. congruence.
  Qed.

Lemma find_under {A} (key : A -> option string) (val : A -> ty) name l :
    option_map val (List.find (fun x => name_is (key x) name) l) = under name (map (fun x => (key x, val x)) l).
  Proof using.
    induction l as [|x l IH]; [done|]. cbn. rewrite name_is_decide. case_bool_decide; by case_decide.
  Qed.

Lemma find_filter {A} (p r : A -> bool) l : List.find (fun x => p x && r x) l = List.find p (List.filter r l).
  Proof using.
    induction l as [|x l IH]; [done|]. cbn. destruct (r x); cbn; rewrite ?andb_true_r, ?andb_false_r, IH; done.
  Qed.

Definition as_found (m : ty * MemberKind) : ty * bool * bool :=
    let '(mt, k) := m in (mt, negb (bool_decide (k = A_field)), bool_decide (k = An_interface_method)).

Lemma embed_name_declared t : embed_type_name t = declared_name t.
  Proof using. by destruct t. Qed.

Lemma direct_member_ok t name : embed_direct_member checker t name = option_map as_found (own_member checker t name).
  Proof using.
    pose proof (find_under f_name f_type name (own_fields checker t)) as Hf.
    pose proof (embed_name_declared t) as Hn.
    unfold own_member, embed_direct_member, fields_of. fold (own_fields checker t). rewrite Hn.
    set (own := match List.find (fun f => name_is (f_name f) name) (own_fields checker t) with
                | Some f => Some (f_type f, false, false)
                | None => _
                end).
    set (rule := match under name _ with Some ft => Some (ft, A_field) | None => _ end).
    assert (own = option_map as_found rule) as H.
    { unfold own, rule. rewrite <- Hf. destruct (List.find _ _); [done|]. cbn [option_map].
      destruct (declared_name t) as [tn|]; [|done]. cbv zeta. rewrite declared_method_ok. cbn [mbind option_bind].
      by destruct (declared_method checker t tn name). }
    clearbody own rule. destruct t; try exact H.
    pose proof (find_under m_name m_type name (List.filter (fun im => negb (is_NULL (m_type im)))
      (interface_methods checker (TInterface h name0 methods)))) as Hi.
    rewrite find_filter. change (iface_methods _ _) with (interface_methods checker (TInterface h name0 methods)).
    rewrite <- Hi. match goal with |- _ = option_map _ (option_map _ ?o ≫= _) => change (match o with Some im => Some (m_type im, true, true) | None => None end = option_map as_found (option_map m_type o ≫= fun mt => Some (mt, An_interface_method))); by destruct o end.
  Qed.

(** ** The tree *)
Lemma child_ok q f : child_of q f =
    (t ← contributes f; Some (mkEntry t (q_path q ++ [f_name f])
       (via_ptr q || bool_decide (kind (f_type f) = Some TYPE_POINTER)))).
  Proof using.
    unfold child_of, contributes, has_kind. destruct (is_embedded f); [|done].
    destruct (f_type f) as [| | | | | | |? p| | | | | | | | | | | |]; try done. by destruct p.
  Qed.

Lemma expand_ok q : expand checker q = embedded_in checker q.
  Proof using.
    unfold expand, embedded_in. change (fields_of checker (q_type q)) with (own_fields checker (q_type q)).
    apply list_omap_ext, Forall_Forall2_diag, Forall_forall. intros f _. apply child_ok.
  Qed.

Lemma level_ok root d : level checker root d = embedded_at checker root d.
  Proof using. induction d as [|d IH]; [done|]. cbn. rewrite IH. apply flat_map_ext, expand_ok. Qed.

Lemma hits_ok root name d : hits checker name root d = members checker root name d.
  Proof using.
    unfold hits, members. rewrite level_ok. apply filter_ext. intros q. unfold is_hit, has_member.
    rewrite direct_member_ok. by destruct (own_member _ _ _).
  Qed.
End Agree.

(** ** The report *)
Lemma substring_app (a b : string) n : String.length a <= n ->
  substring 0 n (a +:+ b) = a +:+ substring 0 (n - String.length a) b.
Proof.
  revert n. induction a as [|c a IH]; intros n H; cbn in *; [by rewrite Nat.sub_0_r|].
  destruct n as [|n]; [lia|].
  change (String c (substring 0 n (a +:+ b)) = String c (a +:+ substring 0 (n - String.length a) b)).
  f_equal. apply IH. lia.
Qed.

Lemma substring_prefix (a b : string) n : n <= String.length a -> substring 0 n (a +:+ b) = substring 0 n a.
Proof.
  revert n. induction a as [|c a IH]; intros [|n] H; cbn in *; try lia; try done; [by destruct b|].
  change (String c (substring 0 n (a +:+ b)) = String c (substring 0 n a)). f_equal. apply IH. lia.
Qed.

Lemma string_app_assoc (a b c : string) : a +:+ (b +:+ c) = (a +:+ b) +:+ c.
Proof. induction a as [|x a IH]; [done|]. change (String x (a +:+ (b +:+ c)) = String x ((a +:+ b) +:+ c)). by rewrite IH. Qed.

Lemma format_path_ok path leaf : forall cap, 0 < cap ->
  embed_format_path cap path leaf = substring 0 (cap - 1) (dotted path leaf).
Proof.
  induction path as [|hop path IH]; intros cap Hc; [done|]. cbn [embed_format_path dotted fold_right].
  change (fold_right _ leaf path) with (dotted path leaf).
  change (default "(null)" hop +:+ "." +:+ dotted path leaf)
    with (default "(null)" hop +:+ ("." +:+ dotted path leaf)).
  replace (default "(null)" hop +:+ ("." +:+ dotted path leaf))
    with ((default "(null)" hop +:+ ".") +:+ dotted path leaf) by (symmetry; apply string_app_assoc).
  set (h := (default "(null)" hop +:+ ".")%string).
  destruct (Nat.leb_spec cap (String.length h)).
  - unfold snprintf. rewrite substring_prefix by lia. done.
  - rewrite IH by lia. rewrite substring_app by lia.
    by replace (cap - 1 - String.length h) with (cap - String.length h - 1) by lia.
Qed.

Section Report.
  Context (checker : TypeChecker) (name : string).

Lemma hit_result_ok q : hit_result checker name q = one_promoted checker q name.
  Proof using.
    unfold hit_result, one_promoted. rewrite direct_member_ok. destruct (own_member _ _ _) as [[mt k]|]; [|done].
    cbn. unfold first_hit. rewrite format_path_ok by lia. by destruct k.
  Qed.

Lemma classify_ok qs : classify checker name qs = report checker qs name.
  Proof using.
    destruct qs as [|q [|q2 qs]]; [done|apply hit_result_ok|]. cbn. unfold second_hit.
    by rewrite hit_result_ok, format_path_ok by lia.
  Qed.
End Report.
