(* ===== verification/EmbeddingResults.v ===== *)
(** * EmbeddingResults: promotion and interface satisfaction.

    [embedding_resolve_promotes] is the rule of [Promotion] for [embedding_resolve];
    [embedding_misses] are programs where the search's bounds and its visited set of bare names
    hide a member.  [interface_satisfied_spec] compares what [type_interface_satisfied] accepts with
    Go's method sets, [satisfaction_gaps] are programs where they differ, and
    [covered_interface_satisfied] relates it to [interface_covers], the check between the bounds
    of two type parameters. *)
From Stdlib Require Import ZArith Lia String Ascii Bool.
From stdpp Require Import base list numbers option gmap strings.
From S2P Require Import Prelude Types TypesFacts Embedding EmbeddingFacts Promotion PromotionFacts.

#[local] Open Scope string_scope.
#[local] Open Scope list_scope.

(** The search's array of 64 entries does not overflow. *)
Definition queue_fits (checker : TypeChecker) (root : ty) (name : string) : bool :=
  match embed_search checker root name with
  | Some (_, used) => (used <? 64)%nat
  | None => false
  end.

(** Names tell the types embedded in a struct apart, down to the eighth level. *)
Definition distinct_names (checker : TypeChecker) (root : ty) : Prop :=
  forall i j a b n, i <= 8 -> j <= 8 -> a ∈ embedded_at checker root i -> b ∈ embedded_at checker root j ->
  declared_name (q_type a) = Some n -> declared_name (q_type b) = Some n -> q_type a = q_type b.

(** A member that is promoted at all is promoted from the first eight levels. *)
Definition within_eight (checker : TypeChecker) (root : ty) (name : string) : Prop :=
  forall d, 0 < d -> members checker root name d <> [] ->
  exists j, 0 < j <= 8 /\ members checker root name j <> [].

Lemma distinct_names_ok checker root : distinct_names checker root <-> names_distinct checker root.
Proof.
  unfold distinct_names, names_distinct. change EMBED_MAX_DEPTH with 8.
  split; intros H i j a b n; specialize (H i j a b n); rewrite ?level_ok, ?embed_name_declared in *; exact H.
Qed.

Lemma find_seq_first (p : nat -> bool) n : forall s,
  match List.find p (seq s n) with
  | Some d => s <= d < s + n /\ p d = true /\ forall j, s <= j < d -> p j = false
  | None => forall j, s <= j < s + n -> p j = false
  end.
Proof.
  induction n as [|n IH]; intros s; cbn; [lia|]. destruct (p s) eqn:E; [split_and!; [lia|lia|done|lia]|].
  specialize (IH (S s)). assert (forall j, s <= j -> j = s \/ S s <= j) as Hj by lia.
  destruct (List.find p (seq (S s) n)) as [d|].
  - destruct IH as (Hd&Hp&Hm). split_and!; [lia|lia|done|]. intros j Hjd. destruct (Hj j) as [->|]; [lia|done|apply Hm; lia].
  - intros j Hjd. destruct (Hj j) as [->|]; [lia|done|apply IH; lia].
Qed.

(** What the search looks for is what the rule selects. *)
Lemma promoted_rule checker root name : within_eight checker root name ->
  match promoted checker name root with
  | Some qs => promotes checker root name qs
  | None => unpromoted checker root name
  end.
Proof.
  intros Hw. unfold promoted. change EMBED_MAX_DEPTH with 8.
  pose proof (find_seq_first (fun d => match hits checker name root d with [] => false | _ => true end) 8 1) as H.
  assert (forall d, match hits checker name root d with [] => false | _ => true end = false ->
    members checker root name d = []) as Hnil by (intros d; rewrite <- hits_ok; by destruct (hits _ _ _ d)).
  destruct (List.find _ (seq 1 8)) as [d|]; cbn [option_map].
  - destruct H as (Hd&Hp&Hm). exists d. rewrite hits_ok in *. split_and!; [lia|done|by intros E; rewrite E in Hp|].
    intros j Hj. apply Hnil, Hm. lia.
  - intros d Hd. destruct (members checker root name d) as [|q qs] eqn:E; [done|].
    destruct (Hw d Hd ltac:(by rewrite E)) as (j&Hj&Hne). destruct Hne. apply Hnil, H. lia.
Qed.

Lemma resolve_rule checker root name :
  kind root = Some TYPE_STRUCT -> own_member checker root name = None ->
  distinct_names checker root -> queue_fits checker root name = true -> within_eight checker root name ->
  exists r, embedding_resolve checker root (Some name) = Some r /\
    (unpromoted checker root name /\ r = not_found \/
     exists qs, promotes checker root name qs /\ r = report checker qs name).
Proof.
  intros Hs H0 Hd Hf Hw. unfold embedding_resolve, has_kind. rewrite (bool_decide_eq_true_2 _ Hs).
  unfold queue_fits in Hf. destruct (embed_search checker root name) as [[r used]|] eqn:E; [|done].
  apply Nat.ltb_lt in Hf. exists r. split; [done|].
  assert (hits checker name root 0 = []) as H0'.
  { rewrite hits_ok. cbn. unfold has_member. cbn. by rewrite H0. }
  rewrite (search_promoted checker name root r used (proj1 (distinct_names_ok _ _) Hd) H0' E Hf).
  pose proof (promoted_rule checker root name Hw) as H.
  destruct (promoted checker name root) as [qs|]; [right; exists qs|left]; split; try done. apply classify_ok.
Qed.

(** C26: for a struct without a member of the name itself (the callers look there first),
    [embedding_resolve] answers by Go's rule: among the fields embedded at each depth, the
    shallowest depth that has the member decides; one member there is reported with its kind, type and path,
    more are ambiguous, and no member at any depth is reported as not found.  The bounds: names
    tell the embedded types apart, the queue of 64 entries does not overflow, and where the member
    occurs at all it occurs within eight levels; [embedding_misses] are programs outside each. *)
Theorem embedding_resolve_promotes checker root name :
  kind root = Some TYPE_STRUCT -> own_member checker root name = None ->
  distinct_names checker root -> queue_fits checker root name = true -> within_eight checker root name ->
  exists r, embedding_resolve checker root (Some name) = Some r /\
    (unpromoted checker root name /\ r = not_found \/
     exists qs, promotes checker root name qs /\ r = report checker qs name).
Proof. apply resolve_rule. Qed.

(** The search ends, on every struct: nine levels are the most it scans, even for types
    that embed each other. *)
Theorem embedding_resolve_total checker root name : exists r, embedding_resolve checker root name = Some r.
Proof.
  unfold embedding_resolve. destruct name as [name|]; [|eauto]. destruct (has_kind TYPE_STRUCT root); [|eauto].
  destruct (embed_search_total checker name root) as [r ->]. cbn. eauto.
Qed.

(** ** Interface satisfaction *)
Lemma find_method_total checker concrete tn name : exists m, find_method checker concrete tn name = Some m.
Proof.
  unfold find_method. destruct (method_type _); [eauto|]. destruct (has_kind TYPE_STRUCT _); [|eauto].
  destruct (embedding_resolve_total checker (embed_root concrete) name) as [r ->]. destruct (er_kind r); eauto.
Qed.

Lemma has_kind_iff k t : has_kind k t = true <-> kind t = Some k.
Proof. apply bool_decide_eq_true. Qed.

Lemma receiver_rejected_spec concrete m : receiver_rejected concrete m = false <-> in_method_set concrete m.
Proof.
  unfold receiver_rejected, in_method_set, pointer_receiver. setoid_rewrite <- has_kind_iff.
  destruct (mf_via_interface m); cbn; [by intuition|].
  destruct (function_params (mf_type m)) as [|r ps]; cbn; [split; [|done]; by intros _ (_&?&?&?&_)|].
  destruct (has_kind TYPE_POINTER r) eqn:Er; cbn; [|split; [|done]; intros _ (_&?&?&[= -> ->]&?); congruence].
  assert (exists r0 ps0, r :: ps = r0 :: ps0 /\ has_kind TYPE_POINTER r0 = true) by eauto.
  destruct (has_kind TYPE_POINTER concrete), (mf_embedded m), (mf_via_pointer m); cbn; intuition congruence.
Qed.

Lemma void_result_iff f : void_result (function_return f) = true <-> without_result f.
Proof.
  unfold void_result, without_result. rewrite orb_true_iff, has_kind_iff. by destruct (function_return f); cbn; intuition.
Qed.

Lemma same_types_iff ps qs : all2 type_equals ps qs = true <-> Forall2 same_type ps qs.
Proof. rewrite all2_true. split; intros H; eapply Forall2_impl; try exact H; intros p q; by rewrite type_equals_erase. Qed.

(** The signature as the check compares it: a result is asked for only when one is wanted. *)
Definition accepted_signature (want : ty) (m : MethodFound) : Prop :=
  same_parameters want m /\
  (without_result want \/ same_type (function_return (mf_type m)) (function_return want)).

Lemma signature_matches_spec want m : signature_matches want m = true <-> accepted_signature want m.
Proof.
  unfold signature_matches, accepted_signature, same_parameters.
  change (is_NULL (function_return want) || has_kind TYPE_VOID (function_return want))
    with (void_result (function_return want)).
  rewrite !andb_true_iff, orb_true_iff, eqb_true_iff, Nat.eqb_eq, same_types_iff, void_result_iff, type_equals_erase.
  fold (same_type (function_return (mf_type m)) (function_return want)).
  destruct (mf_via_interface m); cbn.
  - rewrite Nat.add_0_r. split.
    + intros [[[_ Hps] ?] ?]. eauto 6.
    + intros ((?&ps&Hps&<-)&?). pose proof (Forall2_length _ _ _ Hps). intuition.
  - rewrite Nat.add_1_r. destruct (function_params (mf_type m)) as [|r ps]; cbn.
    + split; [by intros [[[? _] _] _]|]. by intros ((_&?&_&?&?)&_).
    + rewrite drop_0. split.
      * intros [[[_ Hps] ?] ?]. eauto 8.
      * intros ((?&qs&Hps&?&[= -> ->])&?). pose proof (Forall2_length _ _ _ Hps). intuition.
Qed.

(** What the check accepts of a method that [find_method] has. *)
Definition passes (checker : TypeChecker) (concrete : ty) (im : InterfaceMethod) : Prop :=
  exists tn m, type_receiver_name concrete = Some tn /\
    find_method checker concrete (Some tn) (m_name im) = Some (Some m) /\
    function_comptime (mf_type m) = false /\ in_method_set concrete m /\ accepted_signature (m_type im) m.

Definition fails_by (checker : TypeChecker) (concrete : ty) (im : InterfaceMethod) (why : Unsatisfied) : Prop :=
  let found m := exists tn, type_receiver_name concrete = Some tn /\
                   find_method checker concrete (Some tn) (m_name im) = Some (Some m) in
  match why with
  | Missing => forall tn, type_receiver_name concrete = Some tn ->
                 find_method checker concrete (Some tn) (m_name im) = Some None
  | Comptime => exists m, found m /\ function_comptime (mf_type m) = true
  | PointerReceiver => exists m, found m /\ ~ in_method_set concrete m
  | SignatureMismatch => exists m, found m /\ in_method_set concrete m /\ ~ accepted_signature (m_type im) m
  end.

Lemma method_unsatisfied_spec checker concrete im :
  match method_unsatisfied checker concrete im with
  | inl _ => False
  | inr None => passes checker concrete im
  | inr (Some why) => fails_by checker concrete im why
  end.
Proof.
  unfold method_unsatisfied, passes, fails_by. destruct (type_receiver_name concrete) as [tn|] eqn:En; [|done].
  destruct (find_method_total checker concrete (Some tn) (m_name im)) as [[m|] E]; rewrite E; [|by intros ? [= <-]].
  destruct (function_comptime (mf_type m)) eqn:Ec; [eauto 8|].
  pose proof (receiver_rejected_spec concrete m) as Hr. destruct (receiver_rejected concrete m).
  { exists m. split; [eauto|]. intros H. by apply Hr in H. }
  pose proof (signature_matches_spec (m_type im) m) as Hs. destruct (signature_matches (m_type im) m).
  - exists tn, m. tauto.
  - exists m. split; [eauto|]. split; [by apply Hr|]. intros H. by apply Hs in H.
Qed.

Lemma fails_passes checker concrete im why : fails_by checker concrete im why -> ~ passes checker concrete im.
Proof.
  intros Ho (tn&m&Hn&Hm&Hc&Hr&Hs). unfold fails_by in Ho. destruct why.
  - specialize (Ho tn Hn). congruence.
  - destruct Ho as (m'&(tn'&?&?)&?). congruence.
  - destruct Ho as (m'&(tn'&?&?)&H). apply H. congruence.
  - destruct Ho as (m'&(tn'&?&?)&_&H). apply H. congruence.
Qed.

Lemma methods_unsatisfied_spec checker concrete ims :
  match methods_unsatisfied checker concrete ims with
  | None => False
  | Some None => Forall (passes checker concrete) ims
  | Some (Some (name, why)) => exists pre im post, ims = pre ++ im :: post /\
      Forall (passes checker concrete) pre /\ m_name im = name /\ fails_by checker concrete im why
  end.
Proof.
  induction ims as [|im ims IH]; cbn [methods_unsatisfied]; [constructor|].
  pose proof (method_unsatisfied_spec checker concrete im) as H.
  destruct (method_unsatisfied checker concrete im) as [|[why|]]; [done|by exists [], im, ims|].
  destruct (methods_unsatisfied checker concrete ims) as [[[name why]|]|]; [|by constructor|done].
  destruct IH as (pre&im'&post&->&Hpre&Hn&Ho). exists (im :: pre), im', post. split; [done|]. split; [by constructor|done].
Qed.

(** ** The method set *)
(** Where the search for a promoted method is exact: the type has no field of the method's name,
    the queue does not overflow, and the method is within eight levels if it is promoted at all. *)
Definition searchable (checker : TypeChecker) (concrete : ty) (tn name : string) : Prop :=
  kind (pointee concrete) = Some TYPE_STRUCT -> declared_method checker concrete tn name = None ->
  own_member checker (pointee concrete) name = None /\ queue_fits checker (pointee concrete) name = true /\
  within_eight checker (pointee concrete) name.

Lemma receiver_name_ok concrete tn : declared_name (pointee concrete) = Some tn -> type_receiver_name concrete = Some tn ->
  is_NULL concrete = false.
Proof. by destruct concrete. Qed.

Lemma embed_root_ok concrete :
  (if has_kind TYPE_STRUCT (embed_root concrete) then Some (embed_root concrete) else None) =
  (if has_kind TYPE_STRUCT (pointee concrete) then Some (pointee concrete) else None).
Proof. unfold embed_root. destruct concrete as [| | | | | | |h p| | | | | | | | | | | |]; try done.
  assert (pointee (TPointer h p) = if is_NULL p then TPointer h p else p) as -> by (by destruct p).
  destruct (has_kind TYPE_STRUCT p) eqn:E; [|by destruct (is_NULL p); rewrite ?E].
  assert (is_NULL p = false) as -> by (by destruct p). by rewrite E.
Qed.

Lemma member_type_live checker t name mt k : own_member checker t name = Some (mt, k) -> k <> A_field -> is_NULL mt = false.
Proof.
  assert (forall tn, declared_method checker t tn name = Some mt -> is_NULL mt = false) as Hd.
  { intros tn H. unfold declared_method in H. apply bind_Some in H as (v&_&H). case_decide as E; [|done].
    injection H as <-. by destruct (v_type v). }
  intros H Hk. unfold own_member in H. destruct t; try solve
    [destruct (under _ _); [injection H as _ <-; done|]; apply bind_Some in H as (tn&_&H);
     apply bind_Some in H as (mt'&Hm&[= <- _]); by apply (Hd tn)].
  apply bind_Some in H as (mt'&Hu&[= <- _]).
  generalize dependent (interface_methods checker (TInterface h name0 methods)). intros ims.
  induction ims as [|im ims IH]; [done|]. cbn. destruct (m_type im) eqn:E; cbn; rewrite ?E; try exact IH;
    case_decide; try exact IH; by intros [= <-].
Qed.
(** The method found is the method selected. *)
Lemma find_method_selects checker concrete tn name :
  distinct_names checker (pointee concrete) -> searchable checker concrete tn name ->
  match find_method checker concrete (Some tn) (Some name) with
  | Some (Some m) => selects checker concrete tn name m
  | Some None => forall m, ~ selects checker concrete tn name m
  | None => False
  end.
Proof.
  intros Hd Hs. unfold find_method. rewrite declared_method_ok.
  destruct (declared_method checker concrete tn name) as [mt|] eqn:E; [by constructor|].
  pose proof (embed_root_ok concrete) as Hr.
  destruct (has_kind TYPE_STRUCT (pointee concrete)) eqn:Ek.
  2:{ destruct (has_kind TYPE_STRUCT (embed_root concrete)); [done|].
      intros m [mt H|q mt k _ H _ _ _ _]; [congruence|]. apply has_kind_iff in H. congruence. }
  destruct (has_kind TYPE_STRUCT (embed_root concrete)); [|done]. injection Hr as ->.
  apply has_kind_iff in Ek. destruct (Hs Ek E) as (Ho&Hq&Hw).
  destruct (resolve_rule checker (pointee concrete) name Ek Ho Hd Hq Hw) as (r&->&[[Hu ->]|(qs&Hp&->)]).
  { cbn. intros m [mt H|q mt k _ _ _ H _ _]; [congruence|]. by apply promotes_some in H. }
  assert (forall m q, selects checker concrete tn name m -> qs = [q] -> exists mt k,
    own_member checker (q_type q) name = Some (mt, k) /\ k <> A_field /\
    m = mkFound mt true (via_ptr q) (bool_decide (k = An_interface_method))) as Hsel.
  { intros m q [mt H|q' mt k _ _ _ H Hm Hk] ->; [congruence|].
    pose proof (promotes_unique _ _ _ _ _ Hp H) as [= ->]. eauto. }
  destruct qs as [|q [|q2 qs]]; cbn.
  - destruct Hp as (d&_&_&Hne&_). done.
  - unfold one_promoted. destruct (own_member checker (q_type q) name) as [[mt k]|] eqn:Em; cbn.
    + destruct (decide (k = A_field)) as [->|Hk]; cbn.
      * intros m H. destruct (Hsel m q H eq_refl) as (mt'&k'&E'&Hk'&_). congruence.
      * rewrite (member_type_live _ _ _ _ _ Em Hk). by apply sel_promoted.
    + intros m H. destruct (Hsel m q H eq_refl) as (?&?&?&_). congruence.
  - intros m [mt H|q' mt k _ _ _ H _ _]; [congruence|]. by pose proof (promotes_unique _ _ _ _ _ Hp H).
Qed.

Lemma accepted_split checker concrete tn name im m :
  m_name im = Some name -> selects checker concrete tn name m ->
  (implements checker concrete tn im \/ has_method checker concrete tn drops_result im) <->
  function_comptime (mf_type m) = false /\ in_method_set concrete m /\ accepted_signature (m_type im) m.
Proof.
  intros Hn Hs. unfold implements, has_method, same_result, drops_result, accepted_signature. split.
  - intros [(n&m'&Hn'&Hs'&Hc&Hm&Hp&Hr)|(n&m'&Hn'&Hs'&Hc&Hm&Hp&Hr)]; assert (n = name) as -> by congruence;
      rewrite (selects_unique checker concrete tn name m m' Hs Hs'); tauto.
  - intros (Hc&Hm&Hp&Hr). destruct (void_result (function_return (m_type im))) eqn:Ev.
    + apply void_result_iff in Ev. destruct (void_result (function_return (mf_type m))) eqn:Eh.
      * apply void_result_iff in Eh. left. exists name, m. tauto.
      * right. exists name, m. split_and!; try done. by rewrite <- void_result_iff, Eh.
    + destruct Hr as [Hr|Hr]; [apply void_result_iff in Hr; congruence|]. left. exists name, m. tauto.
Qed.

Section Verdict.
  Context (checker : TypeChecker) (concrete : ty) (tn : string) (Hrn : type_receiver_name concrete = Some tn).
  Context (Hd : distinct_names checker (pointee concrete)).

Lemma passes_accepted name im : m_name im = Some name -> searchable checker concrete tn name ->
    passes checker concrete im ->
    implements checker concrete tn im \/ has_method checker concrete tn drops_result im.
  Proof using Hrn Hd.
    intros Hn Hs (tn'&m&Htn&Hf&Hrest). assert (tn' = tn) as -> by congruence. rewrite Hn in Hf.
    pose proof (find_method_selects checker concrete tn name Hd Hs) as H. rewrite Hf in H.
    by apply (accepted_split checker concrete tn name im m).
  Qed.

Lemma fails_obstacle im name why : searchable checker concrete tn name -> m_name im = Some name ->
    fails_by checker concrete im why ->
    ~ (implements checker concrete tn im \/ has_method checker concrete tn drops_result im) /\
    obstacle checker concrete tn im why.
  Proof using Hrn Hd.
    intros Hs Hn Ho. pose proof (find_method_selects checker concrete tn name Hd Hs) as H.
    assert (forall m, (exists tn', type_receiver_name concrete = Some tn' /\
      find_method checker concrete (Some tn') (m_name im) = Some (Some m)) -> selects checker concrete tn name m) as Hf.
    { intros m (tn'&Htn&Hf). assert (tn' = tn) as -> by congruence. rewrite Hn in Hf. by rewrite Hf in H. }
    unfold obstacle, fails_by in *. destruct why.
    - specialize (Ho tn Hrn). rewrite Hn in Ho. rewrite Ho in H. split; [|by eauto].
      intros [(n&m&Hn'&Hs'&_)|(n&m&Hn'&Hs'&_)]; assert (n = name) as -> by congruence; by apply (H m).
    - destruct Ho as (m&Hm&Hc). apply Hf in Hm. rewrite (accepted_split checker concrete tn name im m Hn Hm).
      split; [|by eauto]. intros (?&_). congruence.
    - destruct Ho as (m&Hm&Hc). apply Hf in Hm. rewrite (accepted_split checker concrete tn name im m Hn Hm).
      split; [|by eauto]. tauto.
    - destruct Ho as (m&Hm&Hi&Hc). apply Hf in Hm. rewrite (accepted_split checker concrete tn name im m Hn Hm).
      split; [tauto|]. exists name. split; [done|]. by exists m.
  Qed.
End Verdict.

(** C27: for a named type whose embedded types have distinct names, and interface methods that are
    searchable on it, [type_interface_satisfied] always answers.  It accepts the type exactly
    when, for every method of the interface, either the type implements it by Go's rule (the
    method the selector means is declared or promoted, is in the method set by its receiver, and
    has the parameters, variadicity and result wanted) or it differs only in returning a result where
    none is wanted ([satisfaction_gaps]).  When it refuses, the method it names is the first for which
    neither holds, and the reason it gives is true. *)
Theorem interface_satisfied_spec checker iface concrete tn :
  declared_name (pointee concrete) = Some tn -> type_receiver_name concrete = Some tn ->
  distinct_names checker (pointee concrete) ->
  Forall (fun im => exists name, m_name im = Some name /\ searchable checker concrete tn name)
    (interface_methods checker iface) ->
  let accepted im := implements checker concrete tn im \/ has_method checker concrete tn drops_result im in
  match type_interface_satisfied checker iface concrete with
  | Some (true, w) => w = None /\ kind iface = Some TYPE_INTERFACE /\ Forall accepted (interface_methods checker iface)
  | Some (false, None) => kind iface <> Some TYPE_INTERFACE
  | Some (false, Some (name, why)) => exists pre im post,
      interface_methods checker iface = pre ++ im :: post /\ Forall accepted pre /\
      m_name im = name /\ ~ accepted im /\ obstacle checker concrete tn im why
  | None => False
  end.
Proof.
  intros Hn Hrn Hd Hall accepted. unfold type_interface_satisfied.
  destruct (has_kind TYPE_INTERFACE iface) eqn:Ei;
    [|cbn; intros H; apply has_kind_iff in H; congruence]. apply has_kind_iff in Ei.
  rewrite (receiver_name_ok concrete tn Hn Hrn). cbn [negb andb].
  change (iface_methods (tc_store checker) iface) with (interface_methods checker iface).
  pose proof (methods_unsatisfied_spec checker concrete (interface_methods checker iface)) as H.
  assert (forall im, im ∈ interface_methods checker iface -> passes checker concrete im -> accepted im) as Hp.
  { intros im Him. rewrite Forall_forall in Hall. destruct (Hall im Him) as (name&Em&Hs). by apply (passes_accepted checker concrete tn Hrn Hd name). }
  destruct (methods_unsatisfied _ _ _) as [[[name why]|]|]; [| |done].
  - destruct H as (pre&im&post&Hi&Hpre&Hname&Ho). rewrite Hi in Hp, Hall.
    apply Forall_app in Hall as [_ Hall]. apply Forall_cons in Hall as [(n&Em&Hs) _].
    destruct (fails_obstacle checker concrete tn Hrn Hd im n why Hs Em Ho) as [? ?].
    exists pre, im, post. split_and!; try done. rewrite Forall_forall in Hpre |- *. intros x Hx.
    apply Hp; [apply elem_of_app; by left|by apply Hpre].
  - split_and!; [done|done|]. rewrite Forall_forall in H |- *. intros x Hx. by apply Hp, H.
Qed.

(** ** Bounds of type parameters *)
Definition same_variadic (checker : TypeChecker) (have want : ty) : Prop :=
  forall h w, h ∈ iface_methods (tc_store checker) have -> w ∈ iface_methods (tc_store checker) want ->
  m_name h = m_name w -> function_variadic (m_type h) = function_variadic (m_type w).

Lemma passes_matching checker concrete w h : method_matches w h = true ->
  function_variadic (m_type h) = function_variadic (m_type w) ->
  passes checker concrete h -> passes checker concrete w.
Proof.
  unfold method_matches. destruct (m_name h) as [hn|] eqn:Eh, (m_name w) as [wn|] eqn:Ew; try done.
  intros [Hn%String.eqb_eq Hs]%andb_true_iff Hv (tn&m&?&Hf&?&?&((Hva&ps&HF&Hps)&Hr)). subst wn.
  exists tn, m. split_and!; try done; [congruence|].
  unfold iface_method_sig_equals in Hs. destruct (m_type h) as [| | | | | |? hps hr| | | | | | | | | | | | |],
    (m_type w) as [| | | | | |? wps wr| | | | | | | | | | | | |]; try done.
  apply andb_true_iff in Hs as [[[_ Hall]%andb_true_iff Hvoid]%andb_true_iff Hret]. apply eqb_prop in Hvoid.
  unfold accepted_signature, same_parameters in *. rewrite <- void_result_iff in *.
  cbn [m_type function_params function_return function_variadic] in *. split; [split; [congruence|]|].
  - exists ps. split; [|done]. rewrite <- same_types_iff in *. exact (all2_equals_trans _ _ _ HF Hall).
  - rewrite <- Hvoid. apply orb_true_iff in Hret as [|Hret]; [by left|]. apply type_equals_erase in Hret.
    unfold same_type in *. intuition congruence.
Qed.

(** The check between two bounds is sound for the checks against types: when the methods of
    one interface cover another's, a type that satisfies the first satisfies the second, as long
    as methods of one name agree on being variadic (which the check does not compare). *)
Theorem covered_interface_satisfied checker have want concrete :
  interface_covers (tc_store checker) have want = true -> same_variadic checker have want ->
  type_interface_satisfied checker have concrete = Some (true, None) ->
  type_interface_satisfied checker want concrete = Some (true, None).
Proof.
  intros Hc Hv Hs. assert (has_kind TYPE_INTERFACE want = true) as Hw by (unfold interface_covers in Hc; by destruct want).
  apply (interface_covers_spec _ _ _ Hw) in Hc. unfold type_interface_satisfied in *. rewrite Hw.
  destruct (has_kind TYPE_INTERFACE have); cbn [andb] in *; [|done].
  destruct (negb (is_NULL concrete)); [|done].
  pose proof (methods_unsatisfied_spec checker concrete (iface_methods (tc_store checker) have)) as H.
  destruct (methods_unsatisfied _ _ _) as [[[? ?]|]|]; try done. rewrite Forall_forall in H.
  assert (Forall (passes checker concrete) (iface_methods (tc_store checker) want)) as HF.
  { apply Forall_forall. intros w Hwin. destruct Hc as [Hn|[_ Hc]]; [rewrite Hn in Hwin; by apply elem_of_nil in Hwin|].
    apply list_elem_of_In in Hwin as Hin. destruct (Hc w Hin) as (h&Hh&Hm). apply list_elem_of_In in Hh.
    apply (passes_matching checker concrete w h Hm); [|by apply H]. apply Hv; try done.
    unfold method_matches in Hm. destruct (m_name h), (m_name w); try done.
    by apply andb_true_iff in Hm as [->%String.eqb_eq _]. }
  pose proof (methods_unsatisfied_spec checker concrete (iface_methods (tc_store checker) want)) as H'.
  destruct (methods_unsatisfied _ _ _) as [[[? why]|]|]; try done. destruct H' as (pre&im&post&E&_&_&Ho).
  exfalso. apply (fails_passes checker concrete im why Ho). rewrite Forall_forall in HF. apply HF. rewrite E.
  apply elem_of_app. right. by left.
Qed.

(** ** Programs *)
Lemma names_distinct_by checker root (f : string -> ty) :
  Forall (fun d => Forall (fun q => match embed_type_name (q_type q) with Some n => q_type q = f n | None => True end)
                     (level checker root d)) (seq 0 (S EMBED_MAX_DEPTH)) ->
  names_distinct checker root.
Proof.
  intros H i j a b n Hi Hj Ha Hb Ea Eb. rewrite Forall_forall in H.
  assert (forall d q, d <= EMBED_MAX_DEPTH -> q ∈ level checker root d -> embed_type_name (q_type q) = Some n -> q_type q = f n) as Hf.
  { intros d q Hd Hq Eq. assert (d ∈ seq 0 (S EMBED_MAX_DEPTH)) as Hin by (apply elem_of_seq; lia).
    specialize (H d Hin). rewrite Forall_forall in H. specialize (H q Hq). by rewrite Eq in H. }
  by rewrite (Hf i a Hi Ha Ea), (Hf j b Hj Hb Eb).
Qed.

Module Programs.
Definition named_struct (n : string) (key : positive) : ty := TStruct (Hdr 8 8 (Some n) None) (Some n) key.
Definition in_package (p : positive) (n : string) (key : positive) : ty := TStruct (Hdr 8 8 (Some n) (Some p)) (Some n) key.
Definition embed (n : string) (t : ty) : StructField := Field (Some n) t 0 OWNERSHIP_NONE MUTABILITY_MUTABLE true.
Definition plain (n : string) (t : ty) : StructField := Field (Some n) t 0 OWNERSHIP_NONE MUTABILITY_MUTABLE false.
Definition checker_of (fs : list (positive * list StructField)) (ms : list (positive * list InterfaceMethod))
    (vars : ScopeChain) : TypeChecker :=
  mkChecker {| fields_at := list_to_map fs; methods_at := list_to_map ms; variants_at := ∅ |} vars None (fun _ => []).
Definition int32 : ty := TBasic (Hdr 4 4 (Some "int32") None) TYPE_INT32 I.

(** [type Root struct { a.T; M }], [type M struct { b.T }], where only [b.T] has [x]. *)
Definition same_names : TypeChecker :=
  checker_of [(1%positive, [embed "T" (in_package 1 "T" 2); embed "M" (named_struct "M" 3)]); (2%positive, []);
              (3%positive, [embed "T" (in_package 2 "T" 4)]); (4%positive, [plain "x" int32])] [] [].

(** A struct of 64 embedded structs, where only the last has [x]. *)
Definition nth_name (i : nat) : string := String (ascii_of_nat (48 + i)) "".
Definition nth_struct (i : nat) : ty := named_struct (nth_name i) (Pos.of_succ_nat (48 + i)).
Definition wide : TypeChecker :=
  checker_of ((1%positive, map (fun i => embed (nth_name i) (nth_struct i)) (seq 0 64)) ::
              [(Pos.of_succ_nat (48 + 63), [plain "x" int32])]) [] [].

(** A chain of nine embedded structs with [x] at its end. *)
Definition deep : TypeChecker :=
  checker_of (map (fun i => (Pos.of_succ_nat i, [embed (nth_name (S i)) (named_struct (nth_name (S i)) (Pos.of_succ_nat (S i)))]))
                (seq 0 9) ++ [(10%positive, [plain "x" int32])]) [] [].

Definition root : ty := named_struct "Root" 1.

Definition wide_type (n : string) : ty :=
  match n with String c "" => nth_struct (nat_of_ascii c - 48) | _ => root end.

Definition found_at (hops : list string) (q : QueueEntry) : Prop := q_path q = map Some hops.
End Programs.
Import Programs.

Lemma wide_distinct : distinct_names wide root.
Proof.
  apply distinct_names_ok, (names_distinct_by wide root wide_type). apply Forall_forall. intros d Hd.
  assert (level wide root 1 = map (fun i => mkEntry (nth_struct i) [Some (nth_name i)] false) (seq 0 64)) as E1
    by (vm_compute; reflexivity).
  assert (level wide root 2 = []) as E2 by (vm_compute; reflexivity).
  destruct d as [|[|d]]; [by repeat constructor| |].
  - rewrite E1. apply Forall_map, Forall_seq. intros i Hi.
    change (nth_struct i = nth_struct (nat_of_ascii (ascii_of_nat (48 + i)) - 48)).
    rewrite nat_ascii_embedding by lia. f_equal. lia.
  - change (S (S d)) with (2 + d). rewrite level_descend, E2. clear. by induction d.
Qed.

(** C28: Members that Go promotes and the search does not report.  A type hides another of the
    same name from a deeper level, even one of another package, since the visited set compares
    bare names; the 64th field embedded in a struct does not fit the queue; and a member nine
    levels down is too deep.  In each the member is the only one and the search answers that
    there is none. *)
Theorem embedding_misses :
  (exists q, promotes same_names root "x" [q] /\ found_at ["M"; "T"] q /\
     queue_fits same_names root "x" = true /\ embedding_resolve same_names root (Some "x") = Some not_found) /\
  (exists q, promotes wide root "x" [q] /\ found_at ["o"] q /\ distinct_names wide root /\
     embedding_resolve wide root (Some "x") = Some not_found) /\
  (exists q, members deep root "x" 9 = [q] /\ (forall d, d < 9 -> members deep root "x" d = []) /\
     embedding_resolve deep root (Some "x") = Some not_found).
Proof.
  split_and!.
  - eexists. split.
    { exists 2. split_and!; [lia|vm_compute; reflexivity|done|]. intros j Hj. by replace j with 1 by lia. }
    split_and!; vm_compute; reflexivity.
  - eexists. split.
    { exists 1. split_and!; [lia|vm_compute; reflexivity|done|lia]. }
    split_and!; [vm_compute; reflexivity|exact wide_distinct|vm_compute; reflexivity].
  - eexists. split_and!; [vm_compute; reflexivity| |vm_compute; reflexivity].
    intros d Hd. do 9 (destruct d as [|d]; [vm_compute; reflexivity|]). lia.
Qed.

(** [type Root struct { A; B }], [type A struct { *C }], [type B struct { C }] and
    [type C struct { x int32; *Root; y int32 }], with [y] in [B] too. *)
Module Diamond.
Definition diamond : TypeChecker :=
  checker_of [(1%positive, [embed "A" (named_struct "A" 2); embed "B" (named_struct "B" 3)]);
              (2%positive, [embed "C" (TPointer hdr0 (named_struct "C" 4))]);
              (3%positive, [embed "C" (named_struct "C" 4); plain "y" int32]);
              (4%positive, [plain "x" int32; embed "Root" (TPointer hdr0 root); plain "y" int32])] [] [].

Definition diamond_type (n : string) : ty :=
  if (n =? "A")%string then named_struct "A" 2 else if (n =? "B")%string then named_struct "B" 3
  else if (n =? "C")%string then named_struct "C" 4 else root.
End Diamond.
Import Diamond.

Lemma diamond_distinct : distinct_names diamond root.
Proof.
  apply distinct_names_ok, (names_distinct_by diamond root diamond_type).
  repeat (apply Forall_cons; split); try apply Forall_nil, I; vm_compute; reflexivity.
Qed.

Lemma diamond_within name d : members diamond root name d <> [] -> 0 < d <= 8 -> within_eight diamond root name.
Proof. intros H Hd _ _ _. by exists d. Qed.

Lemma embedding_resolve_promotes_witness :
  (exists qs, promotes diamond root "x" qs /\ report diamond qs "x" =
    mkResult EMBED_AMBIGUOUS [Some "A"; Some "C"] int32 (named_struct "C" 4) "A.C.x" "B.C.x" true false /\
    embedding_resolve diamond root (Some "x") = Some (report diamond qs "x")) /\
  (exists qs, promotes diamond root "y" qs /\ report diamond qs "y" =
    mkResult EMBED_FIELD [Some "B"] int32 (named_struct "B" 3) "B.y" "" false false /\
    embedding_resolve diamond root (Some "y") = Some (report diamond qs "y")).
Proof.
  split.
  - destruct (embedding_resolve_promotes diamond root "x" eq_refl eq_refl diamond_distinct ltac:(vm_compute; reflexivity)
      (diamond_within "x" 2 ltac:(by vm_compute) ltac:(lia))) as (r&E&[[Hu _]|(qs&Hp&->)]).
    { specialize (Hu 2 ltac:(lia)). by vm_compute in Hu. }
    exists qs. split; [exact Hp|]. split; [|exact E]. assert (Some (report diamond qs "x") = _) as H by (rewrite <- E; vm_compute; reflexivity).
    by injection H.
  - destruct (embedding_resolve_promotes diamond root "y" eq_refl eq_refl diamond_distinct ltac:(vm_compute; reflexivity)
      (diamond_within "y" 1 ltac:(by vm_compute) ltac:(lia))) as (r&E&[[Hu _]|(qs&Hp&->)]).
    { specialize (Hu 1 ltac:(lia)). by vm_compute in Hu. }
    exists qs. split; [exact Hp|]. split; [|exact E]. assert (Some (report diamond qs "y") = _) as H by (rewrite <- E; vm_compute; reflexivity).
    by injection H.
Defined.

(** ** Satisfaction of two interfaces *)
Module Variadics.
Definition func (ps : list ty) (r : ty) (v : bool) : ty := TFunction hdr0 ps r v false.
Definition ints : ty := TSlice hdr0 int32.
Definition void : ty := TBasic hdr0 TYPE_VOID I.
Definition T : ty := named_struct "T" 1.
Definition iface (key : positive) : ty := TInterface hdr0 None key.
Definition methods : list (positive * list InterfaceMethod) :=
  [(1%positive, [Method (Some "Sum") (func [ints] int32 true); Method (Some "Reset") (func [] void false)]);
   (2%positive, [Method (Some "Sum") (func [ints] int32 false)]);
   (3%positive, [Method (Some "Sum") (func [ints] void true)]);
   (4%positive, [Method (Some "Sum") (func [ints] int32 true)])].

(** [func (t T) Sum(ns ...int32) int32] and [func (t T) Reset()]. *)
Definition checker : TypeChecker :=
  checker_of [(1%positive, [])] methods
    [mkScope [variable_new "T__Sum" (func [T; ints] int32 true); variable_new "T__Reset" (func [T] NULL false)] 0 false].

(** [type Outer struct { *Inner }] and [type Shadow struct { *Inner; Sum int32 }], with
    [func ( *Inner) Sum(ns ...int32) int32]. *)
Definition Inner : ty := named_struct "Inner" 2.
Definition Outer : ty := named_struct "Outer" 1.
Definition Shadow : ty := named_struct "Shadow" 3.
Definition promoting : TypeChecker :=
  checker_of [(1%positive, [embed "Inner" (TPointer hdr0 Inner)]); (2%positive, []);
              (3%positive, [embed "Inner" (TPointer hdr0 Inner); plain "Sum" int32])] methods
    [mkScope [variable_new "Inner__Sum" (func [TPointer hdr0 Inner; ints] int32 true)] 0 false].
End Variadics.
Import Variadics.

Lemma outer_distinct : distinct_names promoting Outer.
Proof.
  apply distinct_names_ok,
    (names_distinct_by promoting Outer (fun n => if (n =? "Inner")%string then Inner else Outer)).
  repeat (apply Forall_cons; split); try apply Forall_nil, I; vm_compute; reflexivity.
Qed.

(** A value of [Outer] has [Sum] through the pointer it embeds; wanted without its dots, or by
    an interface that also has [Reset], it does not do. *)
Lemma interface_satisfied_spec_witness :
  implements promoting Outer "Outer" (Method (Some "Sum") (func [ints] int32 true)) /\
  (exists m, selects promoting Outer "Outer" "Sum" m /\ mf_via_pointer m = true) /\
  obstacle promoting Outer "Outer" (Method (Some "Sum") (func [ints] int32 false)) SignatureMismatch.
Proof.
  assert (searchable promoting Outer "Outer" "Sum") as Hs.
  { intros _ _. split_and!; [vm_compute; reflexivity..|]. intros _ _ _. exists 1. split; [lia|by vm_compute]. }
  assert (forall n f, Forall (fun im => exists name, m_name im = Some name /\ searchable promoting Outer "Outer" name)
    [Method (Some "Sum") (func [ints] n f)]) as Hall.
  { intros n f. apply Forall_cons. split; [by exists "Sum"|constructor]. }
  pose proof (interface_satisfied_spec promoting (iface 4) Outer "Outer" eq_refl eq_refl outer_distinct (Hall _ _)) as H.
  pose proof (interface_satisfied_spec promoting (iface 2) Outer "Outer" eq_refl eq_refl outer_distinct (Hall _ _)) as H2.
  assert (type_interface_satisfied promoting (iface 4) Outer = Some (true, None)) as E by (vm_compute; reflexivity).
  assert (type_interface_satisfied promoting (iface 2) Outer = Some (false, Some (Some "Sum", SignatureMismatch)))
    as E2 by (vm_compute; reflexivity).
  cbv zeta in H, H2. rewrite E in H. rewrite E2 in H2. destruct H as (_&_&H). apply Forall_cons in H as [H _].
  assert (implements promoting Outer "Outer" (Method (Some "Sum") (func [ints] int32 true))) as Hi.
  { destruct H as [H|(name&m&_&_&_&_&_&Hn&_)]; [exact H|]. by destruct Hn. }
  split; [exact Hi|]. split.
  - destruct Hi as (name&m&[= <-]&Hm&_). exists m. split; [exact Hm|]. destruct Hm as [mt Hm|q mt k _ _ _ Hp _ _].
    + by vm_compute in Hm.
    + assert (promotes promoting Outer "Sum" [mkEntry Inner [Some "Inner"] true]) as Hq.
      { exists 1. split_and!; [lia|vm_compute; reflexivity|done|lia]. }
      pose proof (promotes_unique _ _ _ _ _ Hp Hq) as E'. by injection E' as ->.
  - destruct H2 as (pre&im&post&Hims&_&_&_&Ho). change (interface_methods promoting (iface 2))
      with [Method (Some "Sum") (func [ints] int32 false)] in Hims.
    destruct pre as [|? [|]]; injection Hims as <- Hr; [exact Ho|done..].
Defined.

(** Three gaps in what is accepted.  [interface_covers] takes [Sum(ns ...int32)] for
    [Sum(ns []int32)], and then no type that satisfies the bound satisfies the interface it is said to
    cover, for [type_interface_satisfied] tells the two apart.  A method with a
    result satisfies an interface whose method has none, which [interface_covers] refuses.  And a
    struct whose own field [Sum] hides the promoted method is taken to have that method. *)
Theorem satisfaction_gaps :
  (interface_covers (tc_store Variadics.checker) (iface 1) (iface 2) = true /\
   type_interface_satisfied Variadics.checker (iface 1) T = Some (true, None) /\
   type_interface_satisfied Variadics.checker (iface 2) T = Some (false, Some (Some "Sum", SignatureMismatch))) /\
  (type_interface_satisfied Variadics.checker (iface 3) T = Some (true, None) /\
   interface_covers (tc_store Variadics.checker) (iface 4) (iface 3) = false) /\
  (type_interface_satisfied promoting (iface 4) Shadow = Some (true, None) /\
   forall m, ~ selects promoting Shadow "Shadow" "Sum" m).
Proof.
  split_and!; try (vm_compute; reflexivity).
  intros m [mt H|q mt k _ _ Ho _ _ _]; [by vm_compute in H|by vm_compute in Ho].
Qed.

Lemma covered_interface_satisfied_witness :
  type_interface_satisfied Variadics.checker (iface 4) T = Some (true, None).
Proof.
  apply (covered_interface_satisfied Variadics.checker (iface 1)); [vm_compute; reflexivity| |vm_compute; reflexivity].
  intros h w Hh Hw Hn.
  repeat (apply elem_of_cons in Hh as [->|Hh]; [|try by apply elem_of_nil in Hh]);
    repeat (apply elem_of_cons in Hw as [->|Hw]; [|try by apply elem_of_nil in Hw]); done.
Defined.
