(* ===== verification/ConstExpr.v ===== *)
(** * ConstExpr: constant expressions, from the digits of a literal to the folded value.

    [node] is the part of the expression AST that constant handling looks at; [Null] is the null
    pointer and [OtherNode] any node it treats as opaque.  The scanner's digits become a number in
    [lexer_bridge.c], are printed again by the grammar action, and are read back by the folder of
    [expression_helpers.c].  The representability tests are those of [type_checker.c]; constant
    groups ([iota]) and grouped parameter names are the hand-written actions of
    [parser_actions.c]. *)
From Stdlib Require Import ZArith Lia Ascii String Bool.
From stdpp Require Import base list numbers option gmap strings pretty.
From S2P Require Import Prelude Numeral Token Types.

#[local] Open Scope string_scope.
#[local] Open Scope Z_scope.

(** ** Signed views *)
(** [(int64_t)v] of a 64-bit pattern. *)
Definition to_i64 (v : Z) : Z := if v <? 2 ^ 63 then v else v - 2 ^ 64.

(** ** Integer literals: scanner text to AST text *)
(** [yylval.integer] for a TOKEN_INT. *)
Definition bridge_int_value (lit : string) : Z :=
  to_i64 match lit with
         | String "0" (String c rest) =>
             if Ascii.eqb c "o" || Ascii.eqb c "O" then strtoull rest 8 else strtoull lit 0
         | _ => strtoull lit 0
         end.

(** The grammar action prints it with [%lld]. *)
Definition literal_text (lit : string) : string := pretty (bridge_int_value lit).

(** ** The expressions *)
Local Unset Elimination Schemes.
Inductive node : Set :=
| Null
| IdentifierNode (name : string)
| LiteralNode (literal_type : TokenType) (value : string)
| UnaryExprNode (op : TokenType) (operand : node)
| BinaryExprNode (op : TokenType) (left right : node)
| CallExprNode (function : node) (args : list node)
| SelectorExprNode (expr : node) (selector : string)
| OtherNode.
Local Set Elimination Schemes.

Section node_ind.
Context (P : node -> Prop).
Hypothesis (HNull : P Null).
Hypothesis (HIdent : forall n, P (IdentifierNode n)).
Hypothesis (HLit : forall t v, P (LiteralNode t v)).
Hypothesis (HUnary : forall o e, P e -> P (UnaryExprNode o e)).
Hypothesis (HBinary : forall o l r, P l -> P r -> P (BinaryExprNode o l r)).
Hypothesis (HCall : forall f args, P f -> Forall P args -> P (CallExprNode f args)).
Hypothesis (HSelector : forall e s, P e -> P (SelectorExprNode e s)).
Hypothesis (HOther : P OtherNode).

Fixpoint node_ind (e : node) : P e :=
  match e with
  | Null => HNull
  | IdentifierNode n => HIdent n
  | LiteralNode t v => HLit t v
  | UnaryExprNode o e => HUnary o e (node_ind e)
  | BinaryExprNode o l r => HBinary o l r (node_ind l) (node_ind r)
  | CallExprNode f args =>
      HCall f args (node_ind f)
        ((fix all (es : list node) : Forall P es :=
            match es with
            | [] => @List.Forall_nil _ P
            | e :: es => @List.Forall_cons _ P _ _ (node_ind e) (all es)
            end) args)
  | SelectorExprNode e s => HSelector e s (node_ind e)
  | OtherNode => HOther
  end.
End node_ind.

(** ** Folding *)
(** The operator arms, on 64-bit patterns; shared by the two folders, whose arms are the same. *)
Definition fold_unary (op : TokenType) (v : Z) : option Z :=
  match op with
  | TOKEN_MINUS => Some (u64 (- v))
  | TOKEN_PLUS => Some v
  | TOKEN_BIT_XOR | TOKEN_BIT_NOT => Some (u64 (Z.lnot v))
  | _ => None
  end.

Definition fold_binary (op : TokenType) (l r : Z) : option Z :=
  match op with
  | TOKEN_PLUS => Some (u64 (l + r))
  | TOKEN_MINUS => Some (u64 (l - r))
  | TOKEN_MULTIPLY => Some (u64 (l * r))
  | TOKEN_DIVIDE => if r =? 0 then None else Some (l / r)
  | TOKEN_MODULO => if r =? 0 then None else Some (l mod r)
  | TOKEN_LSHIFT =>
      if to_i64 r <? 0 then None else Some (if 64 <=? r then 0 else u64 (Z.shiftl l r))
  | TOKEN_RSHIFT =>
      if to_i64 r <? 0 then None else Some (if 64 <=? r then 0 else Z.shiftr l r)
  | TOKEN_BIT_AND => Some (Z.land l r)
  | TOKEN_AND_NOT => Some (Z.land l (u64 (Z.lnot r)))
  | TOKEN_BIT_OR => Some (Z.lor l r)
  | TOKEN_BIT_XOR => Some (Z.lxor l r)
  | _ => None
  end.

(** One step of the [min]/[max] loop: signed comparison of the patterns. *)
Definition minmax_step (is_min : bool) (acc v : Z) : Z :=
  if (if is_min then to_i64 v <? to_i64 acc else to_i64 acc <? to_i64 v) then v else acc.

Definition minmax_name (f : node) : option bool :=
  match f with
  | IdentifierNode n =>
      if (n =? "min")%string then Some true else if (n =? "max")%string then Some false else None
  | _ => None
  end.

(** The argument loop: every argument has to fold. *)
Definition fold_args (fold : node -> option Z) (is_min : bool) :=
  fix go (args : list node) (acc : Z) : option Z :=
    match args with
    | [] => Some acc
    | a :: args => match fold a with Some v => go args (minmax_step is_min acc v) | None => None end
    end.

Fixpoint goo_fold_const_int (e : node) : option Z :=
  match e with
  | LiteralNode TOKEN_INT v => Some (strtoull v 0)
  | UnaryExprNode op e =>
      match goo_fold_const_int e with Some v => fold_unary op v | None => None end
  | BinaryExprNode op l r =>
      match goo_fold_const_int l, goo_fold_const_int r with
      | Some l, Some r => fold_binary op l r
      | _, _ => None
      end
  | CallExprNode f args =>
      match minmax_name f, args with
      | Some is_min, a :: rest =>
          match goo_fold_const_int a with
          | Some v => fold_args goo_fold_const_int is_min rest v
          | None => None
          end
      | _, _ => None
      end
  | _ => None
  end.

(** The scope and the exports of the imported packages, from [checker]. *)
Record Checker : Type := mkChecker {
  current_scope : ScopeChain;
  exports : gmap positive ScopeChain
}.

Definition type_checker_lookup_variable (ck : Checker) (name : string) : option Variable_t :=
  scope_lookup_variable (current_scope ck) name.

Definition goo_lookup_pkg_const (ck : Checker) (e : node) : option Variable_t :=
  match e with
  | SelectorExprNode (IdentifierNode base) sel =>
      match type_checker_lookup_variable ck base with
      | Some marker =>
          match package marker with
          | Some p => scope_lookup_variable (default [] (exports ck !! p)) sel
          | None => None
          end
      | None => None
      end
  | _ => None
  end.

Fixpoint goo_fold_const_int_ctx (ck : Checker) (e : node) : option Z :=
  match e with
  | IdentifierNode n =>
      match type_checker_lookup_variable ck n with Some v => const_int_value v | None => None end
  | SelectorExprNode _ _ =>
      match goo_lookup_pkg_const ck e with Some v => const_int_value v | None => None end
  | UnaryExprNode op e =>
      match goo_fold_const_int_ctx ck e with Some v => fold_unary op v | None => None end
  | BinaryExprNode op l r =>
      match goo_fold_const_int_ctx ck l, goo_fold_const_int_ctx ck r with
      | Some l, Some r => fold_binary op l r
      | _, _ => None
      end
  | CallExprNode f args =>
      match minmax_name f, args with
      | Some is_min, a :: rest =>
          match goo_fold_const_int_ctx ck a with
          | Some v => fold_args (goo_fold_const_int_ctx ck) is_min rest v
          | None => None
          end
      | _, _ => None
      end
  | _ => goo_fold_const_int e
  end.

Fixpoint goo_fold_const_string (e : node) : option string :=
  match e with
  | LiteralNode TOKEN_STRING v => Some v
  | BinaryExprNode TOKEN_PLUS l r =>
      match goo_fold_const_string l with
      | Some a => match goo_fold_const_string r with Some b => Some (a +:+ b) | None => None end
      | None => None
      end
  | _ => None
  end.

Fixpoint goo_expr_references_comptime_param (ck : Checker) (e : node) : bool :=
  match e with
  | IdentifierNode n =>
      match type_checker_lookup_variable ck n with Some v => is_comptime_param v | None => false end
  | UnaryExprNode _ e => goo_expr_references_comptime_param ck e
  | BinaryExprNode _ l r =>
      goo_expr_references_comptime_param ck l || goo_expr_references_comptime_param ck r
  | _ => false
  end.

(** ** Array types in declarations *)
Fixpoint goo_type_contains_array (t : ty) : bool :=
  match t with
  | TArray _ _ _ _ => true
  | TSlice _ e => goo_type_contains_array e
  | TPointer _ p => goo_type_contains_array p
  | TNullable _ b => goo_type_contains_array b
  | _ => false
  end.

Fixpoint goo_type_contains_comptime_array (t : ty) : bool :=
  match t with
  | TArray _ e _ c => if c then true else goo_type_contains_comptime_array e
  | TSlice _ e => goo_type_contains_comptime_array e
  | TPointer _ p => goo_type_contains_comptime_array p
  | TNullable _ b => goo_type_contains_comptime_array b
  | _ => false
  end.

(** ** Result type of integer operators *)
Definition integer_binop_result_type (left right : ty) (is_shift : bool) : ty :=
  if is_shift then left else
  if bool_decide (kind left = kind right) then left else
  if has_kind TYPE_INT64 left then right else
  if has_kind TYPE_INT64 right then left else
  if type_size left <? type_size right then right else left.

(** ** Representability *)
Fixpoint is_untyped_int_const_expr (e : node) : bool :=
  match e with
  | LiteralNode t _ => bool_decide (t = TOKEN_INT)
  | UnaryExprNode op e => bool_decide (op = TOKEN_MINUS) && is_untyped_int_const_expr e
  | BinaryExprNode _ l r => is_untyped_int_const_expr l && is_untyped_int_const_expr r
  | _ => false
  end.

Definition is_negated_int_const_expr (e : node) : bool :=
  match e with UnaryExprNode op _ => bool_decide (op = TOKEN_MINUS) | _ => false end.

Definition is_bare_int_literal (e : node) : bool :=
  match e with LiteralNode t _ => bool_decide (t = TOKEN_INT) | _ => false end.

Definition INT64_MAX : Z := 2 ^ 63 - 1.

Definition int_const_fits_expected (raw : Z) (expected : ty) (negated bare_literal : bool) : bool :=
  let sval := to_i64 raw in
  if type_is_signed expected then
    if bare_literal && (INT64_MAX <? raw) then false else
    match kind expected with
    | Some TYPE_INT8 => (- 2 ^ 7 <=? sval) && (sval <=? 2 ^ 7 - 1)
    | Some TYPE_INT16 => (- 2 ^ 15 <=? sval) && (sval <=? 2 ^ 15 - 1)
    | Some TYPE_INT32 => (- 2 ^ 31 <=? sval) && (sval <=? 2 ^ 31 - 1)
    | _ => true
    end
  else
    match kind expected with
    | Some TYPE_UINT8 => (0 <=? sval) && (sval <=? 2 ^ 8 - 1)
    | Some TYPE_UINT16 => (0 <=? sval) && (sval <=? 2 ^ 16 - 1)
    | Some TYPE_UINT32 => (0 <=? sval) && (sval <=? 2 ^ 32 - 1)
    | _ => negb ((sval <? 0) && negated)
    end.

(** The answer of the gate: no gate applies, it fits, or the diagnostic was issued. *)
Inductive FitsResult : Set := NotChecked | Fits | Overflows.

Definition check_const_int_expr_fits (ck : Checker) (e : node) (target : ty) : FitsResult :=
  if negb (type_is_integer target) then NotChecked else
  if goo_expr_references_comptime_param ck e then NotChecked else
  match goo_fold_const_int_ctx ck e with
  | None => NotChecked
  | Some raw =>
    let pkg_const := goo_lookup_pkg_const ck e in
    let by_variable (var : option Variable_t) :=
      let var_signed := match var with Some v => type_is_signed (v_type v) | None => false end in
      (var_signed && (to_i64 raw <? 0), negb var_signed && (INT64_MAX <? raw)) in
    let '(negated, bare_literal) :=
      match e, pkg_const with
      | _, Some v => by_variable (Some v)
      | IdentifierNode n, None => by_variable (type_checker_lookup_variable ck n)
      | _, None =>
          (is_negated_int_const_expr e,
           is_untyped_int_const_expr e && is_bare_int_literal e)
      end in
    if int_const_fits_expected raw target negated bare_literal then Fits else Overflows
  end.

(** ** Constant groups *)
Fixpoint clone_const_value (e : node) : node :=
  match e with
  | IdentifierNode n => IdentifierNode n
  | LiteralNode t v => LiteralNode t v
  | BinaryExprNode op l r => BinaryExprNode op (clone_const_value l) (clone_const_value r)
  | UnaryExprNode op e => UnaryExprNode op (clone_const_value e)
  | _ => Null
  end.

Fixpoint substitute_iota (e : node) (idx : Z) : node :=
  match e with
  | IdentifierNode n =>
      if (n =? "iota")%string then LiteralNode TOKEN_INT (pretty idx) else e
  | BinaryExprNode op l r => BinaryExprNode op (substitute_iota l idx) (substitute_iota r idx)
  | UnaryExprNode op e => UnaryExprNode op (substitute_iota e idx)
  | _ => e
  end.

(** Declared types; [TypeNull] is the null pointer, [OtherTypeNode] the kinds that are never
    cloned (arrays, functions, structs, ...). *)
Inductive type_node : Set :=
| TypeNull
| BasicTypeNode (name : string) (pkg : option string)
| SliceTypeNode (element_type : type_node)
| MapTypeNode (key_type value_type : type_node)
| ChanTypeNode (element_type : type_node) (pattern : ChannelPattern) (endpoint : option string)
| PointerTypeNode (element_type : type_node)
| ReferenceTypeNode (element_type : type_node) (is_mutable : bool)
| UnsafePtrTypeNode (element_type : type_node)
| NullableTypeNode (base_type : type_node)
| ErrorUnionTypeNode (value_type error_type : type_node)
| OtherTypeNode (id : positive).

Definition is_TypeNull (t : type_node) : bool := match t with TypeNull => true | _ => false end.

Definition clone_const_type (t : type_node) : type_node :=
  match t with BasicTypeNode n p => BasicTypeNode n p | _ => TypeNull end.

Record ConstDecl : Set := mkConst { c_name : string; c_type : type_node; c_values : node }.

Definition is_Null (e : node) : bool := match e with Null => true | _ => false end.

(** The loop of the group: [template] is the pristine clone of the last value, [type_template] the
    last valued spec's type. *)
Fixpoint desugar_specs (specs : list ConstDecl) (template : node)
    (type_template : type_node) (idx : Z) : list ConstDecl :=
  match specs with
  | [] => []
  | c :: rest =>
      if is_Null (c_values c) then
        let c' :=
          if is_Null template then c else
          mkConst (c_name c)
            (if is_TypeNull (c_type c) then clone_const_type type_template else c_type c)
            (substitute_iota (clone_const_value template) idx) in
        c' :: desugar_specs rest template type_template (idx + 1)
      else
        mkConst (c_name c) (c_type c) (substitute_iota (c_values c) idx)
        :: desugar_specs rest (clone_const_value (c_values c)) (c_type c) (idx + 1)
  end.

Definition desugar_const_group (specs : list ConstDecl) : list ConstDecl :=
  desugar_specs specs Null TypeNull 0.

(** ** Grouped parameter names *)
Fixpoint ast_type_clone (t : type_node) : type_node :=
  match t with
  | TypeNull => TypeNull
  | BasicTypeNode n p => BasicTypeNode n p
  | SliceTypeNode e => SliceTypeNode (ast_type_clone e)
  | MapTypeNode k v => MapTypeNode (ast_type_clone k) (ast_type_clone v)
  | ChanTypeNode e p ep => ChanTypeNode (ast_type_clone e) p ep
  | PointerTypeNode e => PointerTypeNode (ast_type_clone e)
  | ReferenceTypeNode e m => ReferenceTypeNode (ast_type_clone e) m
  | UnsafePtrTypeNode e => UnsafePtrTypeNode (ast_type_clone e)
  | NullableTypeNode b => NullableTypeNode (ast_type_clone b)
  | ErrorUnionTypeNode v e => ErrorUnionTypeNode (ast_type_clone v) (ast_type_clone e)
  | OtherTypeNode _ => TypeNull
  end.

(** A parsed parameter or result: the names it has, and its type. *)
Record Param : Set := mkParam { p_names : list string; p_type : type_node }.

Definition has_name (p : Param) : bool := match p_names p with [] => false | _ => true end.

(** The type of the next entry to the right that has a name and a type. *)
Fixpoint group_type (ps : list Param) : type_node :=
  match ps with
  | [] => TypeNull
  | q :: qs => if has_name q && negb (is_TypeNull (p_type q)) then p_type q else group_type qs
  end.

Fixpoint regroup (ps : list Param) : list Param :=
  match ps with
  | [] => []
  | p :: rest =>
      (if has_name p then p else
       match p_type p with
       | BasicTypeNode n _ =>
           if is_TypeNull (group_type rest) then p else
           let cloned := ast_type_clone (group_type rest) in
           if is_TypeNull cloned then p else mkParam [n] cloned
       | _ => p
       end) :: regroup rest
  end.

Definition reinterpret_grouped_names (ps : list Param) : list Param :=
  if existsb has_name ps then regroup ps else ps.
