(* ===== verification/ConstExprFacts.v ===== *)
(** * ConstExprFacts: constant folding against exact arithmetic, representability, constant groups.

    [go_eval] evaluates a constant expression over the integers, as the language defines it.  The
    folder agrees with it modulo 2^64 as long as the operators that look at more than the low bits
    of their operands ([/], [%], [>>], [min], [max], shift counts) get operands the 64-bit pattern
    still determines; beyond that it does not. *)
From Stdlib Require Import ZArith Lia Ascii String Bool.
From stdpp Require Import base list numbers option gmap strings pretty.
From S2P Require Import Prelude Numeral Token Types ConstExpr.

#[local] Open Scope Z_scope.

(** ** Exact evaluation *)
Definition go_unary (op : TokenType) (z : Z) : option Z :=
  match op with
  | TOKEN_MINUS => Some (- z)
  | TOKEN_PLUS => Some z
  | TOKEN_BIT_XOR | TOKEN_BIT_NOT => Some (Z.lnot z)
  | _ => None
  end.

Definition go_binary (op : TokenType) (l r : Z) : option Z :=
  match op with
  | TOKEN_PLUS => Some (l + r)
  | TOKEN_MINUS => Some (l - r)
  | TOKEN_MULTIPLY => Some (l * r)
  | TOKEN_DIVIDE => if r =? 0 then None else Some (Z.quot l r)
  | TOKEN_MODULO => if r =? 0 then None else Some (Z.rem l r)
  | TOKEN_LSHIFT => if r <? 0 then None else Some (Z.shiftl l r)
  | TOKEN_RSHIFT => if r <? 0 then None else Some (Z.shiftr l r)
  | TOKEN_BIT_AND => Some (Z.land l r)
  | TOKEN_AND_NOT => Some (Z.ldiff l r)
  | TOKEN_BIT_OR => Some (Z.lor l r)
  | TOKEN_BIT_XOR => Some (Z.lxor l r)
  | _ => None
  end.

Definition eval_args (eval : node -> option Z) (is_min : bool) :=
  fix go (args : list node) (acc : Z) : option Z :=
    match args with
    | [] => Some acc
    | a :: args =>
        match eval a with
        | Some v => go args (if is_min then Z.min acc v else Z.max acc v)
        | None => None
        end
    end.

Fixpoint go_eval (e : node) : option Z :=
  match e with
  | LiteralNode TOKEN_INT v => Some (strtoull v 0)
  | UnaryExprNode op e => match go_eval e with Some v => go_unary op v | None => None end
  | BinaryExprNode op l r =>
      match go_eval l, go_eval r with Some l, Some r => go_binary op l r | _, _ => None end
  | CallExprNode f args =>
      match minmax_name f, args with
      | Some is_min, a :: rest =>
          match go_eval a with Some v => eval_args go_eval is_min rest v | None => None end
      | _, _ => None
      end
  | _ => None
  end.

Definition fits_u64 (z : Z) : bool := (0 <=? z) && (z <? 2 ^ 64).
Definition fits_i64 (z : Z) : bool := (- 2 ^ 63 <=? z) && (z <? 2 ^ 63).
Definition fits_count (z : Z) : bool := (0 <=? z) && (z <? 2 ^ 63).

Definition on_value (p : Z -> bool) (v : option Z) : bool :=
  match v with Some z => p z | None => true end.

(** The operands the pattern has to determine are within its range. *)
Definition tame_op (op : TokenType) (l r : option Z) : bool :=
  match op with
  | TOKEN_DIVIDE | TOKEN_MODULO => on_value fits_u64 l && on_value fits_u64 r
  | TOKEN_LSHIFT => on_value fits_count r
  | TOKEN_RSHIFT => on_value fits_u64 l && on_value fits_count r
  | _ => true
  end.

Fixpoint tame (e : node) : bool :=
  match e with
  | UnaryExprNode _ e => tame e
  | BinaryExprNode op l r => tame l && tame r && tame_op op (go_eval l) (go_eval r)
  | CallExprNode _ args => forallb (fun a => tame a && on_value fits_i64 (go_eval a)) args
  | _ => true
  end.

(** ** Bit patterns *)
Lemma wrap_testbit z i : 0 <= i -> Z.testbit (u64 z) i = (i <? 64) && Z.testbit z i.
Proof.
  intros Hi. unfold wrap. destruct (Z.ltb_spec i 64).
  - by rewrite Z.mod_pow2_bits_low.
  - by rewrite Z.mod_pow2_bits_high by lia.
Qed.

Ltac by_bits :=
  apply Z.bits_inj'; intros i Hi;
  repeat (rewrite ?wrap_testbit, ?Z.land_spec, ?Z.lor_spec, ?Z.lxor_spec, ?Z.ldiff_spec,
            ?Z.lnot_spec by lia);
  destruct (i <? 64); simpl; rewrite ?andb_true_r, ?andb_false_r; try done;
  try (by destruct (Z.testbit _ i)).

Lemma land_wrap a b : Z.land (u64 a) (u64 b) = u64 (Z.land a b).
Proof. by_bits. Qed.
Lemma lor_wrap a b : Z.lor (u64 a) (u64 b) = u64 (Z.lor a b).
Proof. by_bits. Qed.
Lemma lxor_wrap a b : Z.lxor (u64 a) (u64 b) = u64 (Z.lxor a b).
Proof. by_bits. Qed.
Lemma ldiff_wrap a b : Z.land (u64 a) (u64 (Z.lnot (u64 b))) = u64 (Z.ldiff a b).
Proof. by_bits. Qed.
Lemma lnot_wrap a : u64 (Z.lnot (u64 a)) = u64 (Z.lnot a).
Proof. by_bits. Qed.

Lemma to_i64_range v : 0 <= v < 2 ^ 64 -> - 2 ^ 63 <= to_i64 v < 2 ^ 63.
Proof. unfold to_i64. intros H. destruct (Z.ltb_spec v (2 ^ 63)); lia. Qed.

Lemma to_i64_wrap z : - 2 ^ 63 <= z < 2 ^ 63 -> to_i64 (u64 z) = z.
Proof.
  intros Hz. unfold to_i64, wrap. destruct (Z.leb_spec 0 z).
  - rewrite Z.mod_small by lia. by destruct (Z.ltb_spec z (2 ^ 63)); [|lia].
  - assert (z mod 2 ^ 64 = z + 2 ^ 64) as ->.
    { symmetry. apply (Z.mod_unique_pos _ _ (-1)); lia. }
    destruct (Z.ltb_spec (z + 2 ^ 64) (2 ^ 63)); lia.
Qed.

Lemma wrap_to_i64 v : 0 <= v < 2 ^ 64 -> u64 (to_i64 v) = v.
Proof.
  intros Hv. unfold to_i64. destruct (Z.ltb_spec v (2 ^ 63)); [by apply wrap_small|].
  unfold wrap. symmetry. apply (Z.mod_unique_pos _ _ (-1)); lia.
Qed.

Lemma wrap_eq a b k : a = b + k * 2 ^ 64 -> u64 a = u64 b.
Proof. intros ->. unfold wrap. by apply Z.mod_add. Qed.

Lemma wrap_decompose z : exists k, z = u64 z + k * 2 ^ 64.
Proof. exists (z / 2 ^ 64). unfold wrap. pose proof (Z.div_mod z (2 ^ 64)). lia. Qed.

Lemma add_wrap a b : u64 (u64 a + u64 b) = u64 (a + b).
Proof.
  destruct (wrap_decompose a) as [j Hj], (wrap_decompose b) as [k Hk].
  apply (wrap_eq _ _ (- j - k)). lia.
Qed.
Lemma sub_wrap a b : u64 (u64 a - u64 b) = u64 (a - b).
Proof.
  destruct (wrap_decompose a) as [j Hj], (wrap_decompose b) as [k Hk].
  apply (wrap_eq _ _ (- j + k)). lia.
Qed.
Lemma opp_wrap a : u64 (- u64 a) = u64 (- a).
Proof. destruct (wrap_decompose a) as [j Hj]. apply (wrap_eq _ _ j). lia. Qed.
Lemma mul_wrap a b : u64 (u64 a * u64 b) = u64 (a * b).
Proof. unfold wrap. by rewrite <- Zmult_mod. Qed.

Lemma shiftl_wrap a n : 0 <= n -> (if 64 <=? n then 0 else u64 (Z.shiftl (u64 a) n)) = u64 (Z.shiftl a n).
Proof.
  intros Hn. apply Z.bits_inj'. intros i Hi. rewrite wrap_testbit by done.
  destruct (Z.leb_spec 64 n).
  - rewrite Z.bits_0. destruct (Z.ltb_spec i 64); [|done]. by rewrite Z.shiftl_spec_low by lia.
  - rewrite wrap_testbit by done. destruct (Z.ltb_spec i 64); [|done]. simpl.
    destruct (Z.ltb_spec i n); [by rewrite !Z.shiftl_spec_low by lia|].
    rewrite !Z.shiftl_spec_high, wrap_testbit by lia.
    by destruct (Z.ltb_spec (i - n) 64); [|lia].
Qed.

Lemma shiftr_wrap a n : 0 <= a < 2 ^ 64 -> 0 <= n ->
  (if 64 <=? n then 0 else Z.shiftr (u64 a) n) = u64 (Z.shiftr a n).
Proof.
  intros Ha Hn. assert (Hs : 0 <= Z.shiftr a n <= a).
  { rewrite Z.shiftr_div_pow2 by done. split; [apply Z.div_pos; lia|].
    apply Z.div_le_upper_bound; [lia|]. pose proof (Z.pow_pos_nonneg 2 n). nia. }
  rewrite !wrap_small by lia. destruct (Z.leb_spec 64 n); [|done].
  symmetry. rewrite Z.shiftr_div_pow2 by done. apply Z.div_small.
  pose proof (Z.pow_le_mono_r 2 64 n). lia.
Qed.

(** ** The operators *)
Lemma fold_unary_exact op z v : go_unary op z = Some v -> fold_unary op (u64 z) = Some (u64 v).
Proof.
  destruct op; try done; simpl; injection 1 as <-; f_equal;
    [apply opp_wrap|apply lnot_wrap|apply lnot_wrap].
Qed.

Lemma fits_u64_spec z : fits_u64 z = true <-> 0 <= z < 2 ^ 64.
Proof. unfold fits_u64. rewrite andb_true_iff, Z.leb_le, Z.ltb_lt. done. Qed.
Lemma fits_i64_spec z : fits_i64 z = true <-> - 2 ^ 63 <= z < 2 ^ 63.
Proof. unfold fits_i64. rewrite andb_true_iff, Z.leb_le, Z.ltb_lt. done. Qed.
Lemma fits_count_spec z : fits_count z = true <-> 0 <= z < 2 ^ 63.
Proof. unfold fits_count. rewrite andb_true_iff, Z.leb_le, Z.ltb_lt. done. Qed.

Lemma fold_binary_exact op l r v : tame_op op (Some l) (Some r) = true ->
  go_binary op l r = Some v -> fold_binary op (u64 l) (u64 r) = Some (u64 v).
Proof.
  destruct op; try done; simpl; intros Ht.
  all: try (injection 1 as <-; f_equal; eauto using add_wrap, sub_wrap, mul_wrap, land_wrap,
              lor_wrap, lxor_wrap, ldiff_wrap; done).
  - apply andb_true_iff in Ht as [Hl%fits_u64_spec Hr%fits_u64_spec].
    rewrite (wrap_small 64 l), (wrap_small 64 r) by done. destruct (Z.eqb_spec r 0); [done|].
    injection 1 as <-. f_equal. rewrite Z.quot_div_nonneg by lia. symmetry. apply wrap_small.
    split; [apply Z.div_pos; lia|]. apply Z.div_lt_upper_bound; [lia|]. nia.
  - apply andb_true_iff in Ht as [Hl%fits_u64_spec Hr%fits_u64_spec].
    rewrite (wrap_small 64 l), (wrap_small 64 r) by done. destruct (Z.eqb_spec r 0); [done|].
    injection 1 as <-. f_equal. rewrite Z.rem_mod_nonneg by lia. symmetry. apply wrap_small.
    pose proof (Z.mod_pos_bound l r). lia.
  - apply fits_count_spec in Ht. rewrite (wrap_small 64 r) by lia. unfold to_i64.
    destruct (Z.ltb_spec r 0); [lia|]. destruct (Z.ltb_spec r (2 ^ 63)); [|lia].
    destruct (Z.ltb_spec r 0); [lia|]. injection 1 as <-. f_equal. apply shiftl_wrap. lia.
  - apply andb_true_iff in Ht as [Hl%fits_u64_spec Hr%fits_count_spec].
    rewrite (wrap_small 64 r) by lia. unfold to_i64.
    destruct (Z.ltb_spec r 0); [lia|]. destruct (Z.ltb_spec r (2 ^ 63)); [|lia].
    destruct (Z.ltb_spec r 0); [lia|]. injection 1 as <-. f_equal. apply shiftr_wrap; lia.
Qed.

(** ** min and max *)
Lemma minmax_exact is_min a v : fits_i64 a = true -> fits_i64 v = true ->
  minmax_step is_min (u64 a) (u64 v) = u64 (if is_min then Z.min a v else Z.max a v).
Proof.
  intros Ha%fits_i64_spec Hv%fits_i64_spec. unfold minmax_step. rewrite !to_i64_wrap by done.
  destruct is_min.
  - destruct (Z.ltb_spec v a); f_equal; lia.
  - destruct (Z.ltb_spec a v); f_equal; lia.
Qed.

Definition folds_exactly (e : node) : Prop :=
  forall v, tame e = true -> go_eval e = Some v -> goo_fold_const_int e = Some (u64 v).

Lemma fold_args_exact is_min args acc v :
  Forall folds_exactly args ->
  forallb (fun a => tame a && on_value fits_i64 (go_eval a)) args = true -> fits_i64 acc = true ->
  eval_args go_eval is_min args acc = Some v ->
  fold_args goo_fold_const_int is_min args (u64 acc) = Some (u64 v).
Proof.
  intros Hf. revert acc. induction Hf as [|a args Ha _ IH]; intros acc Ht Hacc; simpl.
  { by injection 1 as <-. }
  simpl in Ht. apply andb_true_iff in Ht as [[Ht Hv]%andb_true_iff Hts].
  destruct (go_eval a) as [x|] eqn:Ex; [|done]. rewrite (Ha x Ht Ex). simpl in Hv.
  rewrite minmax_exact by done. apply IH; [done|].
  apply fits_i64_spec. apply fits_i64_spec in Hacc, Hv. destruct is_min; lia.
Qed.

Lemma fold_exact e : folds_exactly e.
Proof.
  unfold folds_exactly. induction e using node_ind; intros z; try done.
  - destruct t; try done. simpl. intros _. injection 1 as <-.
    by rewrite wrap_small by (by apply strtoull_range).
  - simpl. destruct (go_eval e) as [x|]; [|done]. intros Ht Hz.
    rewrite (IHe x) by done. by apply fold_unary_exact.
  - simpl. intros [[Hl Hr]%andb_true_iff Ho]%andb_true_iff.
    destruct (go_eval e1) as [x|]; [|done]. destruct (go_eval e2) as [y|]; [|done].
    rewrite (IHe1 x), (IHe2 y) by done. by apply fold_binary_exact.
  - simpl. destruct (minmax_name e) as [is_min|]; [|done]. destruct args as [|a args]; [done|].
    inversion H as [|? ? Ha Hargs]; subst. simpl. intros [[Ht Hv]%andb_true_iff Hts]%andb_true_iff.
    destruct (go_eval a) as [x|] eqn:Ex; [|done]. rewrite (Ha x) by done.
    by apply fold_args_exact.
Qed.

(** ** Representability *)
(** The values of an integer type. *)
Definition int_bounds (k : TypeKind) : Z * Z :=
  match k with
  | TYPE_INT8 => (- 2 ^ 7, 2 ^ 7 - 1)
  | TYPE_INT16 => (- 2 ^ 15, 2 ^ 15 - 1)
  | TYPE_INT32 => (- 2 ^ 31, 2 ^ 31 - 1)
  | TYPE_INT64 => (- 2 ^ 63, 2 ^ 63 - 1)
  | TYPE_UINT8 => (0, 2 ^ 8 - 1)
  | TYPE_UINT16 => (0, 2 ^ 16 - 1)
  | TYPE_UINT32 => (0, 2 ^ 32 - 1)
  | _ => (0, 2 ^ 64 - 1)
  end.

Definition representable (k : TypeKind) (z : Z) : bool :=
  ((int_bounds k).1 <=? z) && (z <=? (int_bounds k).2).

(** The shape signals tell the truth about the value: a literal is unsigned 64-bit; anything else
    is in the signed range, and a negative value is written with a leading minus. *)
Definition honest_shape (z : Z) (e : node) : Prop :=
  match e with
  | LiteralNode TOKEN_INT _ => 0 <= z < 2 ^ 64
  | UnaryExprNode TOKEN_MINUS _ => - 2 ^ 63 <= z < 2 ^ 63
  | _ => 0 <= z < 2 ^ 63
  end.

(** The two signals of the code say no more and no less. *)
Lemma honest_shape_signals z e : honest_shape z e ->
  if is_bare_int_literal e then 0 <= z < 2 ^ 64 /\ is_negated_int_const_expr e = false
  else - 2 ^ 63 <= z < 2 ^ 63 /\ (z < 0 -> is_negated_int_const_expr e = true).
Proof.
  unfold honest_shape. destruct e as [| |t v|op e| | | |]; cbn; try (intros; lia).
  - destruct t; first [rewrite bool_decide_eq_false_2 by done|rewrite bool_decide_eq_true_2 by done]; lia.
  - destruct op; first [rewrite bool_decide_eq_false_2 by done|rewrite bool_decide_eq_true_2 by done]; lia.
Qed.

Lemma fits_exact h k b z (negated bare_literal : bool) :
  type_is_integer (TBasic h k b) = true ->
  (if bare_literal then 0 <= z < 2 ^ 64 /\ negated = false
   else - 2 ^ 63 <= z < 2 ^ 63 /\ (z < 0 -> negated = true)) ->
  int_const_fits_expected (u64 z) (TBasic h k b) negated bare_literal = representable k z.
Proof.
  intros Hi Hz. unfold int_const_fits_expected, representable, INT64_MAX in *.
  destruct bare_literal.
  - destruct Hz as [Hz ->]. rewrite wrap_small by done. rewrite andb_false_r. unfold to_i64.
    destruct (Z.ltb_spec (2 ^ 63 - 1) z); destruct (Z.ltb_spec z (2 ^ 63)); try lia;
      destruct k; try discriminate Hi; simpl; zcases; done.
  - destruct Hz as [Hz Hn]. rewrite to_i64_wrap by done.
    destruct k; try discriminate Hi; simpl; zcases; try done.
    all: rewrite ?Hn by lia; done.
Qed.

(** ** Constant groups *)
(** Values [clone_const_value] copies whole. *)
Fixpoint clonable (e : node) : bool :=
  match e with
  | IdentifierNode _ | LiteralNode _ _ => true
  | UnaryExprNode _ e => clonable e
  | BinaryExprNode _ l r => clonable l && clonable r
  | _ => false
  end.

Lemma clone_clonable e : clonable e = true -> clone_const_value e = e.
Proof.
  induction e using node_ind; try done; simpl.
  - intros H%IHe. by rewrite H.
  - intros [H1%IHe1 H2%IHe2]%andb_true_iff. by rewrite H1, H2.
Qed.

Definition valued (c : ConstDecl) : bool := negb (is_Null (c_values c)).

(** The language's rule: a spec without a value repeats the type and the expression of the last
    spec that has one, and [iota] is the spec's position. *)
Fixpoint last_valued (specs : list ConstDecl) (acc : option ConstDecl) : option ConstDecl :=
  match specs with
  | [] => acc
  | c :: specs => last_valued specs (if valued c then Some c else acc)
  end.

Definition implied_spec (specs : list ConstDecl) (i : nat) (c : ConstDecl) : ConstDecl :=
  if valued c then mkConst (c_name c) (c_type c) (substitute_iota (c_values c) (Z.of_nat i)) else
  match last_valued (take i specs) None with
  | None => c
  | Some t => mkConst (c_name c) (if is_TypeNull (c_type c) then clone_const_type (c_type t) else c_type c)
                (substitute_iota (c_values t) (Z.of_nat i))
  end.

(** What the loop carries, against the specs it has passed. *)
Definition carries (acc : option ConstDecl) (template : node) (type_template : type_node) : Prop :=
  match acc with
  | None => template = Null
  | Some t => template = c_values t /\ clonable (c_values t) = true /\ type_template = c_type t
  end.

Lemma desugar_specs_nth specs acc template type_template idx i c :
  Forall (fun c => valued c = true -> clonable (c_values c) = true) specs ->
  carries acc template type_template -> specs !! i = Some c ->
  desugar_specs specs template type_template idx !! i = Some
    (if valued c then mkConst (c_name c) (c_type c) (substitute_iota (c_values c) (idx + Z.of_nat i)) else
     match last_valued (take i specs) acc with
     | None => c
     | Some t => mkConst (c_name c)
                   (if is_TypeNull (c_type c) then clone_const_type (c_type t) else c_type c)
                   (substitute_iota (c_values t) (idx + Z.of_nat i))
     end).
Proof.
  intros Hf. revert acc template type_template idx i.
  induction Hf as [|s specs Hs _ IH]; intros acc template type_template idx i Hc Hi; [done|].
  simpl. unfold valued in *. destruct (is_Null (c_values s)) eqn:Hv; simpl in Hs.
  - destruct i as [|i]; simpl in Hi |- *.
    + injection Hi as ->. rewrite Hv, Z.add_0_r. simpl. destruct acc as [t|]; simpl in Hc.
      * destruct Hc as (-> & Hcl & ->). rewrite clone_clonable by done.
        assert (is_Null (c_values t) = false) as -> by (by destruct (c_values t)). done.
      * by subst template.
    + rewrite (IH acc) by done. unfold valued; rewrite Hv. simpl.
      by replace (idx + 1 + Z.of_nat i) with (idx + Z.of_nat (S i)) by lia.
  - destruct i as [|i]; simpl in Hi |- *.
    + injection Hi as ->. rewrite Hv, Z.add_0_r. done.
    + rewrite (IH (Some s)).
      * unfold valued; rewrite Hv. simpl. by replace (idx + 1 + Z.of_nat i) with (idx + Z.of_nat (S i)) by lia.
      * simpl. rewrite clone_clonable by auto. auto.
      * done.
Qed.

(** ** Grouped names *)
(** Types [ast_type_clone] copies whole. *)
Fixpoint type_clonable (t : type_node) : bool :=
  match t with
  | TypeNull | OtherTypeNode _ => false
  | BasicTypeNode _ _ => true
  | SliceTypeNode e | ChanTypeNode e _ _ | PointerTypeNode e | ReferenceTypeNode e _
  | UnsafePtrTypeNode e | NullableTypeNode e => type_clonable e
  | MapTypeNode k v => type_clonable k && type_clonable v
  | ErrorUnionTypeNode v e => type_clonable v && (is_TypeNull e || type_clonable e)
  end.

Lemma ast_type_clone_clonable t : type_clonable t = true -> ast_type_clone t = t.
Proof.
  induction t; try done; simpl; intros H.
  all: try (by rewrite IHt).
  - apply andb_true_iff in H as [? ?]. by rewrite IHt1, IHt2.
  - apply andb_true_iff in H as [? H]. rewrite IHt1 by done.
    apply orb_true_iff in H as [H|H]; [by destruct t2|by rewrite IHt2].
Qed.

(** A group [x1, ..., xk T] as the grammar parses it, and as the language means it. *)
Record Group : Set := mkGroup { g_init : list string; g_last : string; g_type : type_node }.

Definition parsed_group (g : Group) : list Param :=
  map (fun x => mkParam [] (BasicTypeNode x None)) (g_init g) ++ [mkParam [g_last g] (g_type g)].

Definition meant_group (g : Group) : list Param :=
  map (fun x => mkParam [x] (g_type g)) (g_init g ++ [g_last g]).

Lemma regroup_group g rest : type_clonable (g_type g) = true ->
  regroup (parsed_group g ++ rest) = meant_group g ++ regroup rest.
Proof.
  intros Hg. destruct g as [init last T]; unfold parsed_group, meant_group; simpl in *.
  assert (HT : is_TypeNull T = false) by (by destruct T).
  assert (Hgt : forall xs, group_type ((map (fun x => mkParam [] (BasicTypeNode x None)) xs ++
    [mkParam [last] T]) ++ rest) = T).
  { intros xs. induction xs as [|x xs IH]; simpl; [by rewrite HT|done]. }
  induction init as [|x init IH]; simpl; [done|]. rewrite Hgt, HT. simpl.
  rewrite ast_type_clone_clonable, HT by done. f_equal. exact IH.
Qed.

Lemma regroup_groups gs : Forall (fun g => type_clonable (g_type g) = true) gs ->
  regroup (mjoin (map parsed_group gs)) = mjoin (map meant_group gs).
Proof.
  induction 1 as [|g gs Hg _ IH]; simpl; [done|]. by rewrite regroup_group, IH.
Qed.

(** * Properties *)

Abbreviation int_lit s := (LiteralNode TOKEN_INT s%string).

(** C34: a constant expression that evaluates to [z] folds to [z] modulo 2^64, with intermediate
    values of any size, as long as the operands of [/], [%], [>>] and of shift counts, and the
    arguments of [min] and [max], stay in the range their 64-bit pattern determines. *)
Theorem fold_is_exact_mod_2_64 e z :
  tame e = true -> go_eval e = Some z -> goo_fold_const_int e = Some (u64 z).
Proof. apply fold_exact. Qed.

Lemma fold_is_exact_mod_2_64_witness :
  let e := BinaryExprNode TOKEN_MINUS
             (BinaryExprNode TOKEN_LSHIFT (int_lit "1") (int_lit "64")) (int_lit "1") in
  go_eval e = Some (2 ^ 64 - 1) /\ goo_fold_const_int e = Some (2 ^ 64 - 1).
Proof.
  intros e. assert (E : go_eval e = Some (2 ^ 64 - 1)) by (by vm_compute).
  split; [exact E|]. rewrite (fold_is_exact_mod_2_64 e _ eq_refl E). by vm_compute.
Defined.

(** outside that range folding is wrong: a negative dividend is divided as its unsigned
    pattern, [>>] shifts zeros into a negative number, and a value of 2^64 or more loses its high
    bits before a division or a right shift reads them. *)
Theorem fold_wrong_beyond_pattern :
  let neg e := UnaryExprNode TOKEN_MINUS e in
  let bin := BinaryExprNode in
  let big := bin TOKEN_LSHIFT (int_lit "1") (int_lit "64") in
  (go_eval (bin TOKEN_DIVIDE (neg (int_lit "7")) (int_lit "2")) = Some (-3) /\
   goo_fold_const_int (bin TOKEN_DIVIDE (neg (int_lit "7")) (int_lit "2")) = Some 9223372036854775804) /\
  (go_eval (bin TOKEN_RSHIFT (neg (int_lit "8")) (int_lit "1")) = Some (-4) /\
   goo_fold_const_int (bin TOKEN_RSHIFT (neg (int_lit "8")) (int_lit "1")) = Some 9223372036854775804) /\
  (go_eval (bin TOKEN_RSHIFT big (int_lit "60")) = Some 16 /\
   goo_fold_const_int (bin TOKEN_RSHIFT big (int_lit "60")) = Some 0).
Proof. by vm_compute. Qed.

(** an integer literal keeps its value on the way from the scanner through the parser's
    textual form to the folder: every decimal below 2^64 folds to itself, and anything larger is
    silently clamped to 2^64 - 1. *)
Theorem int_literal_value (n : N) :
  goo_fold_const_int (LiteralNode TOKEN_INT (literal_text (pretty n)))
    = Some (Z.min (Z.of_N n) (2 ^ 64 - 1)).
Proof.
  simpl. f_equal. unfold literal_text.
  assert (Hb : bridge_int_value (pretty n) = to_i64 (strtoull (pretty n) 0)).
  { unfold bridge_int_value. f_equal. destruct (decide (n = 0)%N) as [->|Hn]; [done|].
    unfold pretty, pretty_N. rewrite decide_False by done.
    destruct (pretty_go_head n "" ltac:(lia)) as (c & rest & -> & _ & Hc).
    repeat case_match; simplify_eq; done. }
  rewrite Hb, strtoull_decimal. set (m := Z.min _ _). assert (Hm : 0 <= m < 2 ^ 64) by lia.
  rewrite strtoull_pretty; [by apply wrap_to_i64|]. pose proof (to_i64_range m Hm). lia.
Qed.

(** C35: the representability test is exact.  For a constant whose shape signals are honest (a
    bare literal below 2^64, or a value of the signed 64-bit range that is written with a leading
    minus when it is negative), it accepts precisely the values of the target integer type. *)
Theorem int_const_fits_exact h k b e z :
  type_is_integer (TBasic h k b) = true ->
  goo_fold_const_int e = Some (u64 z) ->
  honest_shape z e ->
  forall raw, goo_fold_const_int e = Some raw ->
  int_const_fits_expected raw (TBasic h k b) (is_negated_int_const_expr e) (is_bare_int_literal e)
    = representable k z.
Proof. intros Hi Hf Hs raw Hr. rewrite Hf in Hr. injection Hr as <-. by apply fits_exact, honest_shape_signals. Qed.

Lemma int_const_fits_exact_witness :
  let e := UnaryExprNode TOKEN_MINUS (int_lit "129") in
  int_const_fits_expected (2 ^ 64 - 129) (type_int 8 true) true false = false.
Proof.
  intros e. exact (int_const_fits_exact _ TYPE_INT8 I e (-129) eq_refl eq_refl
    ltac:(by vm_compute) (2 ^ 64 - 129) eq_refl).
Defined.

(** a negated literal below -2^63 wraps around to a positive pattern before the test sees it:
    [-9223372036854775809] is accepted for int64 (as 9223372036854775807) and for uint64; and a
    negative value without a leading minus is accepted for uint64. *)
Theorem int_const_fits_wraps :
  let e := UnaryExprNode TOKEN_MINUS (LiteralNode TOKEN_INT (literal_text "9223372036854775809")) in
  let d := BinaryExprNode TOKEN_MINUS (int_lit "0") (int_lit "1") in
  go_eval e = Some (- 2 ^ 63 - 1) /\ goo_fold_const_int e = Some (2 ^ 63 - 1) /\
  int_const_fits_expected (2 ^ 63 - 1) (type_int 64 true) (is_negated_int_const_expr e)
    (is_bare_int_literal e) = true /\
  int_const_fits_expected (2 ^ 63 - 1) (type_int 64 false) (is_negated_int_const_expr e)
    (is_bare_int_literal e) = true /\
  go_eval d = Some (-1) /\
  (forall raw, goo_fold_const_int d = Some raw ->
    int_const_fits_expected raw (type_int 64 false) (is_negated_int_const_expr d)
      (is_bare_int_literal d) = true).
Proof.
  intros e d. do 5 (split; [by vm_compute|]).
  intros raw Hr. vm_compute in Hr. injection Hr as <-. by vm_compute.
Qed.

(** a constant group means what the language says: a spec with a value has it with [iota]
    replaced by the spec's position; a bare spec repeats the type and the expression of the last
    spec that has one, with its own position for [iota]; without such a spec it is unchanged. *)
Theorem const_group_spec specs i c :
  Forall (fun c => valued c = true -> clonable (c_values c) = true) specs ->
  specs !! i = Some c ->
  desugar_const_group specs !! i = Some (implied_spec specs i c).
Proof.
  intros Hf Hi. unfold desugar_const_group, implied_spec.
  by rewrite (desugar_specs_nth specs None Null TypeNull 0 i c Hf eq_refl Hi).
Qed.

Lemma const_group_spec_witness :
  let shl := BinaryExprNode TOKEN_LSHIFT (int_lit "1") (IdentifierNode "iota") in
  let int8 := BasicTypeNode "int8" None in
  let specs := [mkConst "A" int8 shl; mkConst "B" TypeNull Null; mkConst "C" TypeNull Null] in
  desugar_const_group specs !! 2%nat =
    Some (mkConst "C" int8 (BinaryExprNode TOKEN_LSHIFT (int_lit "1") (int_lit "2"))).
Proof.
  intros shl int8 specs.
  rewrite (const_group_spec specs 2 (mkConst "C" TypeNull Null)); [by vm_compute| |done].
  repeat (apply Forall_cons; split; [by vm_compute|]). by apply Forall_nil.
Defined.

(** a parameter or result list written in groups [x1, ..., xk T] means that every name has its
    group's type, whenever the groups' types can be cloned. *)
Theorem grouped_names_spec gs :
  gs <> [] -> Forall (fun g => type_clonable (g_type g) = true) gs ->
  reinterpret_grouped_names (mjoin (map parsed_group gs)) = mjoin (map meant_group gs).
Proof.
  intros Hne Hg. unfold reinterpret_grouped_names.
  assert (existsb has_name (mjoin (map parsed_group gs)) = true) as ->; [|by apply regroup_groups].
  destruct gs as [|g gs]; [done|]. simpl. unfold parsed_group. rewrite !existsb_app. simpl.
  by rewrite orb_true_r.
Qed.

Lemma grouped_names_spec_witness :
  let int := BasicTypeNode "int" None in
  let str := SliceTypeNode (BasicTypeNode "string" None) in
  reinterpret_grouped_names
    [mkParam [] (BasicTypeNode "a" None); mkParam ["b"%string] int; mkParam ["c"%string] str] =
  [mkParam ["a"%string] int; mkParam ["b"%string] int; mkParam ["c"%string] str].
Proof.
  intros int str. apply (grouped_names_spec [mkGroup ["a"%string] "b" int; mkGroup [] "c" str]); [done|].
  repeat (apply Forall_cons; split; [by vm_compute|]). by apply Forall_nil.
Defined.

(** An expression that is only partly clonable comes back with a null operand, not null. *)
Lemma clone_partial : exists e, clonable e = false /\ clone_const_value e <> Null.
Proof. by exists (BinaryExprNode TOKEN_PLUS (CallExprNode (IdentifierNode "f") []) (int_lit "1")). Qed.
