(* ===== verification/Bridge.v ===== *)
(** * Bridge: src/parser/lexer_bridge.c, the token stream bison reads.

    The scanner's tokens are renamed to the grammar's; two decisions the grammar cannot take
    with one token of lookahead are taken here: whether a brace opens the body of a control
    statement ([LBRACE_BODY]) or a literal, and whether an empty [[]] begins a slice type
    ([RBRACKET_SLICE]).  [M10] is the state of the first, the pending token that of the second. *)
From Stdlib Require Import ZArith Lia Ascii String Bool.
From stdpp Require Import base list numbers option strings.
From S2P Require Import Prelude Token Lexer ConstExpr.

(** The token kinds of the grammar; [END] is bison's 0. *)
Inductive BTok : Set :=
| END
| IDENTIFIER | INT_LITERAL | FLOAT_LITERAL | STRING_LITERAL | CHAR_LITERAL | TRUE | FALSE | NIL
| BREAK | CASE | CHAN | CONST | CONTINUE | DEFAULT | DEFER | ELSE | FALLTHROUGH | FUNC | GO
| GOTO | IMPORT | INTERFACE | PACKAGE | RANGE | RETURN | STRUCT | TYPE | VAR | COMPTIME
| CONCEPT | PUB | SUB | REQ | REP | PUSH | PULL | TRY | CATCH | UNSAFE | ARENA | OWNED
| BORROWED | SHARED | LET | ENUM | PLUS | MINUS | MULTIPLY | DIVIDE | MODULO | ASSIGN
| SHORT_ASSIGN | PLUS_ASSIGN | MINUS_ASSIGN | MUL_ASSIGN | DIV_ASSIGN | MOD_ASSIGN | AND_ASSIGN
| OR_ASSIGN | XOR_ASSIGN | LSHIFT_ASSIGN | RSHIFT_ASSIGN | EQ | NE | LT | LE | GT | GE | AND
| OR | NOT | BIT_AND | AND_NOT | FAT_ARROW | BIT_OR | BIT_XOR | BIT_NOT | LSHIFT | RSHIFT
| INCREMENT | DECREMENT | ARROW | BANG | QUESTION | SEMICOLON | COMMA | DOT | ELLIPSIS
| NEWLINE | FOR | IF | MAP | SELECT | SWITCH | MATCH | LPAREN | RPAREN | LBRACE | LBRACE_BODY
| RBRACE | LBRACKET | RBRACKET | RBRACKET_SLICE | COLON.

#[global] Instance BTok_eq_dec : EqDecision BTok.
Proof. solve_decision. Defined.

Inductive FrameKind : Set := K_IF | K_FOR | K_MATCH | K_SELECT | K_SWITCH.

#[global] Instance FrameKind_eq_dec : EqDecision FrameKind.
Proof. solve_decision. Defined.

Record M10CondFrame : Set := mkFrame {
  frame_kind : FrameKind;
  paren_depth_at_push : Z;
  literal_pending : bool
}.

Definition M10_MAX_FRAMES : nat := 64.

(** The frame stack, its top first, and the two depths. *)
Record M10 : Set := mkM10 {
  m10_frames : list M10CondFrame;
  m10_paren_depth : Z;
  m10_lit_depth : Z
}.

Definition m10_push_frame (k : FrameKind) (m : M10) : M10 :=
  if (M10_MAX_FRAMES <=? length (m10_frames m))%nat then m
  else mkM10 (mkFrame k (m10_paren_depth m) false :: m10_frames m) (m10_paren_depth m) (m10_lit_depth m).

Definition m10_pop_frame (m : M10) : M10 :=
  mkM10 (tl (m10_frames m)) (m10_paren_depth m) (m10_lit_depth m).

Definition set_pending_literal (b : bool) (m : M10) : M10 :=
  match m10_frames m with
  | f :: fs => mkM10 (mkFrame (frame_kind f) (paren_depth_at_push f) b :: fs) (m10_paren_depth m) (m10_lit_depth m)
  | [] => m
  end.

Definition set_paren_depth (d : Z) (m : M10) : M10 := mkM10 (m10_frames m) d (m10_lit_depth m).
Definition set_lit_depth (d : Z) (m : M10) : M10 := mkM10 (m10_frames m) (m10_paren_depth m) d.

(** The top frame, when it was pushed at the parenthesis depth [d]. *)
Definition frame_at (d : Z) (m : M10) : option M10CondFrame :=
  match m10_frames m with
  | f :: _ => if (paren_depth_at_push f =? d)%Z then Some f else None
  | [] => None
  end.

Definition bridge_prev_ends_operand (bt : BTok) : bool :=
  match bt with
  | IDENTIFIER | RBRACKET | RBRACKET_SLICE | RPAREN | RBRACE | STRING_LITERAL | INT_LITERAL
  | FLOAT_LITERAL | CHAR_LITERAL | TRUE | FALSE | NIL | INCREMENT | DECREMENT => true
  | _ => false
  end.

Definition bridge_token_continues_type (bt : option BTok) : bool :=
  match bt with
  | Some (IDENTIFIER | LBRACKET | RBRACKET | RBRACKET_SLICE | MAP | CHAN | MULTIPLY | DOT
         | STRUCT | FUNC | ENUM | BANG | QUESTION) => true
  | _ => false
  end.

Definition bridge_token_starts_type (bt : BTok) : bool :=
  match bt with
  | IDENTIFIER | LBRACKET | MAP | CHAN | FUNC | STRUCT | ENUM | PUB | SUB | REQ | REP | PUSH | PULL
  | MULTIPLY | BIT_AND | UNSAFE | BANG | QUESTION => true
  | _ => false
  end.

(** Arming of [literal_pending] by [map] and by a type-position bracket. *)
Definition arm (cond : bool) (m : M10) : M10 :=
  match frame_at (m10_paren_depth m) m with
  | Some _ => if (m10_lit_depth m =? 0)%Z && cond then set_pending_literal true m else m
  | None => m
  end.

Definition close_paren (m : M10) : M10 :=
  if (0 <? m10_paren_depth m)%Z then set_paren_depth (m10_paren_depth m - 1) m else m.

Definition map_lbrace (m : M10) : option BTok * M10 :=
  if (0 <? m10_lit_depth m)%Z then (Some LBRACE, set_lit_depth (m10_lit_depth m + 1) m)
  else match frame_at (m10_paren_depth m) m with
       | Some f =>
           if literal_pending f then (Some LBRACE, set_lit_depth 1 (set_pending_literal false m))
           else (Some LBRACE_BODY, m10_pop_frame m)
       | None => (Some LBRACE, m)
       end.

Definition map_colon (m : M10) : option BTok * M10 :=
  match frame_at (m10_paren_depth m) m with
  | Some f => (Some COLON, if decide (frame_kind f = K_IF) then m10_pop_frame m else m)
  | None => (Some COLON, m)
  end.

(** [map_token_to_bison]; [last] is [s_last_emitted], [None] the unknown token -1. *)
Definition map_token_to_bison (last : BTok) (m : M10) (type : TokenType) : option BTok * M10 :=
  let same b := (Some b, m) in
  match type with
  | TOKEN_EOF => same END
  | TOKEN_FOR => (Some FOR, m10_push_frame K_FOR m)
  | TOKEN_IF => (Some IF, m10_push_frame K_IF m)
  | TOKEN_SELECT => (Some SELECT, m10_push_frame K_SELECT m)
  | TOKEN_SWITCH => (Some SWITCH, m10_push_frame K_SWITCH m)
  | TOKEN_MATCH => (Some MATCH, m10_push_frame K_MATCH m)
  | TOKEN_MAP => (Some MAP, arm true m)
  | TOKEN_LPAREN => (Some LPAREN, set_paren_depth (m10_paren_depth m + 1) m)
  | TOKEN_RPAREN => (Some RPAREN, close_paren m)
  | TOKEN_LBRACE => map_lbrace m
  | TOKEN_RBRACE =>
      (Some RBRACE, if (0 <? m10_lit_depth m)%Z then set_lit_depth (m10_lit_depth m - 1) m else m)
  | TOKEN_LBRACKET =>
      let m := arm (negb (bridge_prev_ends_operand last)) m in
      (Some LBRACKET, set_paren_depth (m10_paren_depth m + 1) m)
  | TOKEN_RBRACKET => (Some RBRACKET, close_paren m)
  | TOKEN_COLON => map_colon m
  | TOKEN_IDENT => same IDENTIFIER | TOKEN_INT => same INT_LITERAL
  | TOKEN_FLOAT => same FLOAT_LITERAL | TOKEN_STRING => same STRING_LITERAL
  | TOKEN_CHAR => same CHAR_LITERAL | TOKEN_TRUE => same TRUE | TOKEN_FALSE => same FALSE
  | TOKEN_NIL => same NIL | TOKEN_BREAK => same BREAK | TOKEN_CASE => same CASE
  | TOKEN_CHAN => same CHAN | TOKEN_CONST => same CONST | TOKEN_CONTINUE => same CONTINUE
  | TOKEN_DEFAULT => same DEFAULT | TOKEN_DEFER => same DEFER | TOKEN_ELSE => same ELSE
  | TOKEN_FALLTHROUGH => same FALLTHROUGH | TOKEN_FUNC => same FUNC | TOKEN_GO => same GO
  | TOKEN_GOTO => same GOTO | TOKEN_IMPORT => same IMPORT | TOKEN_INTERFACE => same INTERFACE
  | TOKEN_PACKAGE => same PACKAGE | TOKEN_RANGE => same RANGE | TOKEN_RETURN => same RETURN
  | TOKEN_STRUCT => same STRUCT | TOKEN_TYPE => same TYPE | TOKEN_VAR => same VAR
  | TOKEN_COMPTIME => same COMPTIME | TOKEN_CONCEPT => same CONCEPT | TOKEN_PUB => same PUB
  | TOKEN_SUB => same SUB | TOKEN_REQ => same REQ | TOKEN_REP => same REP
  | TOKEN_PUSH => same PUSH | TOKEN_PULL => same PULL | TOKEN_TRY => same TRY
  | TOKEN_CATCH => same CATCH | TOKEN_UNSAFE => same UNSAFE | TOKEN_ARENA => same ARENA
  | TOKEN_OWNED => same OWNED | TOKEN_BORROWED => same BORROWED | TOKEN_SHARED => same SHARED
  | TOKEN_LET => same LET | TOKEN_ENUM => same ENUM | TOKEN_PLUS => same PLUS
  | TOKEN_MINUS => same MINUS | TOKEN_MULTIPLY => same MULTIPLY | TOKEN_DIVIDE => same DIVIDE
  | TOKEN_MODULO => same MODULO | TOKEN_ASSIGN => same ASSIGN
  | TOKEN_SHORT_ASSIGN => same SHORT_ASSIGN | TOKEN_PLUS_ASSIGN => same PLUS_ASSIGN
  | TOKEN_MINUS_ASSIGN => same MINUS_ASSIGN | TOKEN_MUL_ASSIGN => same MUL_ASSIGN
  | TOKEN_DIV_ASSIGN => same DIV_ASSIGN | TOKEN_MOD_ASSIGN => same MOD_ASSIGN
  | TOKEN_AND_ASSIGN => same AND_ASSIGN | TOKEN_OR_ASSIGN => same OR_ASSIGN
  | TOKEN_XOR_ASSIGN => same XOR_ASSIGN | TOKEN_LSHIFT_ASSIGN => same LSHIFT_ASSIGN
  | TOKEN_RSHIFT_ASSIGN => same RSHIFT_ASSIGN | TOKEN_EQ => same EQ | TOKEN_NE => same NE
  | TOKEN_LT => same LT | TOKEN_LE => same LE | TOKEN_GT => same GT | TOKEN_GE => same GE
  | TOKEN_AND => same AND | TOKEN_OR => same OR | TOKEN_NOT => same NOT
  | TOKEN_BIT_AND => same BIT_AND | TOKEN_AND_NOT => same AND_NOT
  | TOKEN_FAT_ARROW => same FAT_ARROW | TOKEN_BIT_OR => same BIT_OR
  | TOKEN_BIT_XOR => same BIT_XOR | TOKEN_BIT_NOT => same BIT_NOT | TOKEN_LSHIFT => same LSHIFT
  | TOKEN_RSHIFT => same RSHIFT | TOKEN_INCREMENT => same INCREMENT
  | TOKEN_DECREMENT => same DECREMENT | TOKEN_ARROW => same ARROW | TOKEN_BANG => same BANG
  | TOKEN_QUESTION => same QUESTION | TOKEN_SEMICOLON => same SEMICOLON
  | TOKEN_COMMA => same COMMA | TOKEN_DOT => same DOT | TOKEN_ELLIPSIS => same ELLIPSIS
  | TOKEN_NEWLINE => same NEWLINE
  | _ => (None, m)
  end.

(** A stale [literal_pending] is cleared by a token at the frame's level that cannot lead
    from the type to its literal. *)
Definition clear_stale (depth_before : Z) (bt : option BTok) (m : M10) : M10 :=
  match frame_at depth_before m with
  | Some f =>
      if literal_pending f && negb (bool_decide (bt = Some LBRACE)) &&
         negb (bridge_token_continues_type bt)
      then set_pending_literal false m else m
  | None => m
  end.

Definition m10_step (last : BTok) (m : M10) (type : TokenType) : option BTok * M10 :=
  let '(bt, m') := map_token_to_bison last m type in (bt, clear_stale (m10_paren_depth m) bt m').

(** ** Semantic values and locations *)
(** [yylval].  [V_real] keeps the text given to [atof]; [V_fault] is the read of a literal
    that is NULL. *)
Inductive yyval : Set :=
| V_none
| V_string (s : list ascii)
| V_strlit (data : list ascii) (len : nat)
| V_integer (z : Z)
| V_real (text : list ascii)
| V_token (t : TokenType)
| V_fault.

Definition semantic_value (t : Token) : yyval :=
  match tok_type t, tok_literal t with
  | TOKEN_IDENT, Some l => V_string (take (strlen l) l)
  | TOKEN_STRING, Some l => V_strlit (take (tok_length t) l) (tok_length t)
  | TOKEN_STRING, None => if (tok_length t =? 0)%nat then V_strlit [] 0 else V_fault
  | TOKEN_INT, Some l => V_integer (bridge_int_value (string_of_list_ascii (take (strlen l) l)))
  | TOKEN_FLOAT, Some l => V_real (take (strlen l) l)
  | (TOKEN_IDENT | TOKEN_INT | TOKEN_FLOAT), None => V_fault
  | ty, _ => V_token ty
  end.

Definition YYLTYPE : Set := Z * Z * (Z * Z).
Definition bridge_loc_of (p : Position) : YYLTYPE := ((line p, column p), (line p, column p)).

(** What the bridge asks of a scanner: the next token, or NULL. *)
Class TokenSource (S : Type) := next_token : S -> option (Token * S).
#[global] Instance lexer_source : TokenSource Lexer := lexer_next_token.
#[global] Instance list_source : TokenSource (list Token) :=
  fun ts => match ts with t :: ts => Some (t, ts) | [] => None end.

Record Pending : Set := mkPending {
  s_pending_tok : BTok;
  s_pending_val : yyval;
  s_pending_loc : YYLTYPE
}.

Record BridgeState {S : Type} : Type := mkBridge {
  current_lexer : S;
  m10 : M10;
  s_pending : option Pending;
  s_last_emitted : BTok;
  s_last_token_pos : Position;
  yylval : yyval;
  yylloc : YYLTYPE
}.
Arguments BridgeState : clear implicits.
Arguments mkBridge {S}.

Definition m10_reset : M10 := mkM10 [] 0 0.

Section WithSource.
  Context {S : Type} `{TokenSource S}.

(** [s_last_token_line] is the line of [s_last_token_pos] once a token was read. *)
Definition s_last_token_line (b : BridgeState S) : Z := line (s_last_token_pos b).

Definition bridge_reset_cond_state (b : BridgeState S) : BridgeState S :=
  mkBridge (current_lexer b) m10_reset None END (s_last_token_pos b) (yylval b) (yylloc b).

(** [None]: more unknown tokens in a row than [fuel]. *)
Fixpoint bridge_next_mapped (fuel : nat) (b : BridgeState S) : option (BTok * BridgeState S) :=
  match fuel with
  | O => None
  | Datatypes.S fuel =>
      match next_token (current_lexer b) with
      | None => Some (END, b)
      | Some (t, src) =>
          let '(bt, m) := m10_step (s_last_emitted b) (m10 b) (tok_type t) in
          let b' := mkBridge src m (s_pending b) (s_last_emitted b) (tok_pos t)
                             (semantic_value t) (yylloc b) in
          match bt with
          | None => bridge_next_mapped fuel b'
          | Some bt => Some (bt, b')
          end
      end
  end.

Definition set_out (p : option Pending) (last : BTok) (v : yyval) (loc : YYLTYPE)
    (b : BridgeState S) : BridgeState S :=
  mkBridge (current_lexer b) (m10 b) p last (s_last_token_pos b) v loc.

Definition yylex (fuel : nat) (b : BridgeState S) : option (BTok * BridgeState S) :=
  match s_pending b with
  | Some p =>
      Some (s_pending_tok p, set_out None (s_pending_tok p) (s_pending_val p) (s_pending_loc p) b)
  | None =>
      match bridge_next_mapped fuel b with
      | None => None
      | Some (tok, b1) =>
          let loc := bridge_loc_of (s_last_token_pos b1) in
          if bool_decide (tok = RBRACKET) && bool_decide (s_last_emitted b1 = LBRACKET) then
            match bridge_next_mapped fuel b1 with
            | None => None
            | Some (nxt, b2) =>
                let p := mkPending nxt (yylval b2) (bridge_loc_of (s_last_token_pos b2)) in
                let out := if (s_last_token_line b2 =? s_last_token_line b1)%Z &&
                              bridge_token_starts_type nxt
                           then RBRACKET_SLICE else RBRACKET in
                Some (out, set_out (Some p) out (yylval b2) loc b2)
            end
          else Some (tok, set_out None tok (yylval b1) loc b1)
      end
  end.

(** What the parser receives, call after call, up to the end marker. *)
Record Emitted : Set := mkEmitted { e_tok : BTok; e_val : yyval; e_loc : YYLTYPE }.

Fixpoint yylex_all (calls fuel : nat) (b : BridgeState S) : option (list Emitted) :=
  match calls with
  | O => None
  | Datatypes.S calls =>
      match yylex fuel b with
      | None => None
      | Some (tok, b') =>
          let e := mkEmitted tok (yylval b') (yylloc b') in
          if decide (tok = END) then Some [e]
          else option_map (cons e) (yylex_all calls fuel b')
      end
  end.

Definition bridge_start (src : S) : BridgeState S :=
  bridge_reset_cond_state
    (mkBridge src m10_reset None END (mkPos 1 1 0) V_none ((1, 1), (1, 1))%Z).
End WithSource.

(** [parse_input] up to the parser itself: a new lexer, a reset bridge, and the stream
    [yyparse] reads from it. *)
Definition parse_input_stream (src : list ascii) : option (list Emitted) :=
  let fuel := Datatypes.S (Datatypes.S (strlen src)) in
  yylex_all fuel fuel (bridge_start (lexer_new src)).
