(* ===== verification/BridgeFacts.v ===== *)
(** * BridgeFacts: the stream [yylex] delivers, and which braces open a body.

    First half: [yylex] over any scanner delivers exactly the scanner's tokens, renamed, each
    with its own location ([mapped] and [retag] are the stream as a function of the token
    list).  Second half: the grammar of control-clause headers, and the proof that the frame
    stack marks exactly the body braces of that grammar. *)
From Stdlib Require Import ZArith Lia Ascii String Bool.
From stdpp Require Import base list numbers option strings.
From S2P Require Import Prelude Token Lexer LexerFacts LexerProps ConstExpr Bridge.

(** ** The stream as a function of the tokens *)
(** The two markings undone. *)
Definition erase (b : BTok) : BTok :=
  match b with LBRACE_BODY => LBRACE | RBRACKET_SLICE => RBRACKET | b => b end.

(** The grammar's token for a scanner token, in no context. *)
Definition plain (t : TokenType) : option BTok :=
  match t with TOKEN_LBRACE => Some LBRACE | _ => fst (map_token_to_bison END m10_reset t) end.

Lemma map_token_plain last m t : option_map erase (fst (map_token_to_bison last m t)) = plain t.
Proof.
  destruct t; try reflexivity; simpl.
  - unfold map_lbrace. destruct (0 <? m10_lit_depth m)%Z; [done|].
    destruct (frame_at _ m) as [f|]; [|done]. by destruct (literal_pending f).
  - unfold map_colon. by destruct (frame_at _ m).
Qed.

Lemma m10_step_plain last m t : option_map erase (fst (m10_step last m t)) = plain t.
Proof.
  unfold m10_step. rewrite <- (map_token_plain last m t). by destruct (map_token_to_bison last m t).
Qed.

(** What the decisions depend on: the frame state, the last token returned, and whether the
    next token was peeked at behind an empty pair of brackets. *)
Record Feed : Set := mkFeed { f_m10 : M10; f_last : BTok; f_peek : bool }.

Definition closes_empty (f : Feed) (b : BTok) : bool :=
  negb (f_peek f) && bool_decide (b = RBRACKET) && bool_decide (f_last f = LBRACKET).

Definition feed_step (f : Feed) (t : TokenType) : option BTok * Feed :=
  let '(bt, m) := m10_step (f_last f) (f_m10 f) t in
  (bt, match bt with
       | None => mkFeed m (f_last f) (f_peek f)
       | Some b => if closes_empty f b then mkFeed m LBRACKET true else mkFeed m b false
       end).

Fixpoint mapped (f : Feed) (ts : list Token) : list (BTok * Token * bool) :=
  match ts with
  | [] => []
  | t :: ts =>
      let '(bt, f') := feed_step f (tok_type t) in
      match bt with
      | None => mapped f' ts
      | Some b => (b, t, closes_empty f b) :: mapped f' ts
      end
  end.

Definition retag_tok (closes : bool) (b : BTok) (t : Token) (rest : list (BTok * Token * bool)) : BTok :=
  if closes then
    match rest with
    | (n, t', _) :: _ =>
        if (line (tok_pos t') =? line (tok_pos t))%Z && bridge_token_starts_type n
        then RBRACKET_SLICE else RBRACKET
    | [] => RBRACKET
    end
  else b.

Fixpoint retag (l : list (BTok * Token * bool)) : list Emitted :=
  match l with
  | [] => []
  | (b, t, closes) :: rest =>
      mkEmitted (retag_tok closes b t rest)
        (semantic_value match closes, rest with true, (_, t', _) :: _ => t' | _, _ => t end)
        (bridge_loc_of (tok_pos t)) :: retag rest
  end.

(** A scanner that answers with the tokens [ts], the last and only the last being EOF. *)
Inductive yields {S : Type} `{TokenSource S} : S -> list Token -> Prop :=
| yields_eof s t s' : next_token s = Some (t, s') -> tok_type t = TOKEN_EOF -> yields s [t]
| yields_cons s t s' ts : next_token s = Some (t, s') -> tok_type t <> TOKEN_EOF ->
    yields s' ts -> yields s (t :: ts).

Lemma map_token_END last m t : fst (map_token_to_bison last m t) = Some END <-> t = TOKEN_EOF.
Proof.
  split; [|by intros ->]. intros E. pose proof (map_token_plain last m t) as H. rewrite E in H.
  destruct t; try done; by vm_compute in H.
Qed.

Lemma m10_step_END last m t : fst (m10_step last m t) = Some END <-> t = TOKEN_EOF.
Proof. rewrite <- (map_token_END last m). unfold m10_step. by destruct (map_token_to_bison last m t). Qed.

Section Stream.
  Context {S : Type} `{TokenSource S}.
  Implicit Types b : BridgeState S.

Definition feeds b (f : Feed) : Prop := f_m10 f = m10 b /\ f_last f = s_last_emitted b.

(** One call of the raw reader. *)
Lemma next_mapped_spec ts fuel b f :
  yields (current_lexer b) ts -> feeds b f -> length ts <= fuel ->
  exists bt t closes rest b' f' ts',
    bridge_next_mapped fuel b = Some (bt, b') /\
    mapped f ts = (bt, t, closes) :: rest /\ closes = closes_empty f bt /\
    f_m10 f' = m10 b' /\ rest = mapped f' ts' /\
    f' = (if closes then mkFeed (m10 b') LBRACKET true else mkFeed (m10 b') bt false) /\
    s_last_emitted b' = s_last_emitted b /\ s_pending b' = s_pending b /\
    s_last_token_pos b' = tok_pos t /\ yylval b' = semantic_value t /\ length ts' < length ts /\
    ((bt = END /\ ts' = []) \/ (bt <> END /\ yields (current_lexer b') ts')).
  Proof.
    revert ts b f. induction fuel as [|fuel IH]; intros ts b f Hy [Hm Hl] Hf.
    { exfalso. inversion Hy; subst; simpl in Hf; lia. }
    inversion Hy as [s t s' En Ht|s t s' ts0 En Ht Hy']; subst; simpl; rewrite En;
      unfold feed_step; rewrite Hm, Hl; pose proof (m10_step_END (s_last_emitted b) (m10 b) (tok_type t)) as HE;
      destruct (m10_step (s_last_emitted b) (m10 b) (tok_type t)) as [[bt|] m] eqn:Em; simpl in HE.
    - assert (bt = END) as -> by (apply HE in Ht; congruence).
      exists END, t, (closes_empty f END), [], (mkBridge s' m (s_pending b) (s_last_emitted b) (tok_pos t)
                 (semantic_value t) (yylloc b)), (mkFeed m END false), [].
      assert (closes_empty f END = false) as -> by (unfold closes_empty; by rewrite andb_false_r).
      split_and!; try done; [simpl; lia|by left].
    - by apply HE in Ht.
    - exists bt, t, (closes_empty f bt), (mapped (if closes_empty f bt then mkFeed m LBRACKET true else mkFeed m bt false) ts0),
        (mkBridge s' m (s_pending b) (s_last_emitted b) (tok_pos t) (semantic_value t) (yylloc b)),
        (if closes_empty f bt then mkFeed m LBRACKET true else mkFeed m bt false), ts0.
      split_and!; try done.
      + by destruct (closes_empty f bt).
      + simpl; lia.
      + right. split; [|exact Hy']. intros ->. by apply Ht, HE.
    - edestruct (IH ts0 (mkBridge s' m (s_pending b) (s_last_emitted b) (tok_pos t)
                 (semantic_value t) (yylloc b)) (mkFeed m (s_last_emitted b) (f_peek f)))
        as (bt&t'&cl&rest&b'&f'&ts'&H1&H2&H3&H4&H5&H6&H7&H8&H9&H10&H11&H12).
      + exact Hy'.
      + done.
      + simpl in Hf. lia.
      + exists bt, t', cl, rest, b', f', ts'. split_and!; try done; [|simpl; lia].
        rewrite H3. unfold closes_empty. simpl. by rewrite Hl.
  Qed.

(** [b] still owes the parser the tokens of [l]. *)
Definition owes b (n : nat) (l : list (BTok * Token * bool)) : Prop :=
  match s_pending b with
  | None => exists ts f, yields (current_lexer b) ts /\ feeds b f /\ f_peek f = false /\
              l = mapped f ts /\ length ts <= n
  | Some p => exists bt t rest, l = (bt, t, false) :: rest /\
      p = mkPending bt (semantic_value t) (bridge_loc_of (tok_pos t)) /\
      ((bt = END /\ rest = []) \/
       (bt <> END /\ exists ts, yields (current_lexer b) ts /\ rest = mapped (mkFeed (m10 b) bt false) ts /\
          length ts < n))
  end.

Lemma yylex_spec n fuel b l : owes b n l -> n <= fuel ->
  exists bt t closes rest b',
    l = (bt, t, closes) :: rest /\ yylex fuel b = Some (retag_tok closes bt t rest, b') /\
    mkEmitted (retag_tok closes bt t rest) (yylval b') (yylloc b') = hd (mkEmitted END V_none ((0,0),(0,0))%Z) (retag l) /\
    ((retag_tok closes bt t rest = END /\ rest = []) \/ (retag_tok closes bt t rest <> END /\ owes b' n rest)).
  Proof.
    intros Ho Hn. unfold owes in Ho. unfold yylex. destruct (s_pending b) as [p|] eqn:Ep.
    - destruct Ho as (bt&t&rest&->&->&Hr). do 5 eexists. simpl. split_and!; try reflexivity.
      destruct Hr as [[-> ->]|(Hne&ts&Hy&->&Hlt)]; [by left|]. right. split; [done|].
      unfold owes. simpl. exists ts, (mkFeed (m10 b) bt false). split_and!; try done. lia.
    - destruct Ho as (ts&f&Hy&Hf&Hp&->&Hle).
      destruct (next_mapped_spec ts fuel b f Hy Hf ltac:(lia))
        as (bt&t&cl&rest&b1&f'&ts'&Hx&Hmap&Hcl&Hfm&Hrest&Hf'&Hl1&Hp1&Hpos&Hv&Hlt&Hend).
      rewrite Hx, Hmap. unfold closes_empty in Hcl. rewrite Hp in Hcl. simpl in Hcl.
      rewrite (proj2 Hf), <- Hl1 in Hcl. rewrite <- Hcl. destruct cl.
      + assert (bt = RBRACKET) as ->.
        { symmetry in Hcl. apply andb_prop in Hcl as [Hcl _]. by apply bool_decide_eq_true in Hcl. }
        destruct Hend as [[? _]|[_ Hy1]]; [done|]. subst f'.
        destruct (next_mapped_spec ts' fuel b1 (mkFeed (m10 b1) LBRACKET true) Hy1)
          as (n2&t2&cl2&rest2&b2&f2&ts2&Hx2&Hmap2&Hcl2&_&Hrest2&Hf2&Hl2&Hp2&Hpos2&Hv2&Hlt2&Hend2).
        { split; [done|]. simpl. symmetry in Hcl. apply andb_prop in Hcl as [_ Hcl].
          by apply bool_decide_eq_true in Hcl. }
        { lia. }
        rewrite Hx2. rewrite Hrest, Hmap2. simpl in Hcl2. subst cl2.
        assert (Hout : (if (s_last_token_line b2 =? s_last_token_line b1)%Z && bridge_token_starts_type n2
                  then RBRACKET_SLICE else RBRACKET) =
                retag_tok true RBRACKET t ((n2, t2, false) :: rest2)).
        { unfold s_last_token_line. simpl. by rewrite Hpos, Hpos2. }
        rewrite Hout. do 5 eexists. split_and!; [reflexivity|reflexivity| |].
        * simpl. rewrite Hv2, Hpos. reflexivity.
        * right. split.
          { simpl. by destruct ((line (tok_pos t2) =? line (tok_pos t))%Z && bridge_token_starts_type n2). }
          unfold owes. simpl. exists n2, t2, rest2. rewrite Hv2, Hpos2. split_and!; try done.
          destruct Hend2 as [[-> ->]|[Hne2 Hy2]]; [left; by subst|right]. split; [done|].
          exists ts2. subst. split_and!; try done. lia.
      + do 5 eexists. split_and!; [reflexivity|reflexivity| |].
        * simpl. rewrite Hv, Hpos. reflexivity.
        * simpl. destruct Hend as [[-> ->]|[Hne Hy1]]; [left; by subst|right].
          split; [done|]. unfold owes. simpl. exists ts', f'. subst f'.
          split_and!; try done. lia.
  Qed.

Lemma yylex_all_spec calls n fuel b l : owes b n l -> n <= fuel -> length l <= calls ->
  yylex_all calls fuel b = Some (retag l).
  Proof.
    revert b l. induction calls as [|calls IH]; intros b l Ho Hn Hc;
      destruct (yylex_spec n fuel b l Ho Hn) as (bt&t&cl&rest&b'&->&Hx&He&Hend); simpl in Hc; [lia|].
    cbn [yylex_all]. rewrite Hx, He. destruct Hend as [[-> ->]|[Hne Ho']].
    - rewrite decide_True by done. done.
    - rewrite decide_False by done. rewrite (IH b' rest Ho' Hn ltac:(lia)). done.
  Qed.

Lemma mapped_length f ts : length (mapped f ts) <= length ts.
  Proof.
    revert f. induction ts as [|t ts IH]; intros f; simpl; [lia|].
    destruct (feed_step f (tok_type t)) as [[bt|] f']; simpl; pose proof (IH f'); lia.
  Qed.

Definition feed_start : Feed := mkFeed m10_reset END false.

Lemma yylex_all_stream src ts calls fuel : yields src ts ->
  length ts <= fuel -> length ts <= calls ->
  yylex_all calls fuel (bridge_start src) = Some (retag (mapped feed_start ts)).
  Proof.
    intros Hy Hf Hc. apply (yylex_all_spec _ (length ts)); [|done|].
    - unfold owes. simpl. by exists ts, feed_start.
    - pose proof (mapped_length feed_start ts). lia.
  Qed.
End Stream.

(** ** The scanner as a source *)
Lemma lex_all_yields fuel lx ts l : lex_all fuel lx = Some (ts, l) -> yields lx ts.
Proof.
  revert lx ts. induction fuel as [|fuel IH]; intros lx ts H; simpl in H; [done|].
  destruct (lexer_next_token lx) as [[t l1]|] eqn:En; [|done].
  destruct (token_eqb (tok_type t) TOKEN_EOF) eqn:E.
  - injection H as <- <-. eapply yields_eof; [exact En|]. by apply token_eqb_spec in E.
  - destruct (lex_all fuel l1) as [[ts' l2]|] eqn:Er; [|done]. injection H as <- <-.
    eapply yields_cons; [exact En| |by eapply IH].
    intros Heq. rewrite Heq in E. by vm_compute in E.
Qed.

Lemma parse_input_stream_spec src : exists ts l,
  tokenize src = Some (ts, l) /\ parse_input_stream src = Some (retag (mapped feed_start ts)).
Proof.
  destruct (tokenize_ok src) as (ts&eof&l&Ht&_&_&_&_&Hlen&_). exists (ts ++ [eof]), l.
  split; [done|]. unfold parse_input_stream.
  apply yylex_all_stream; [by eapply lex_all_yields|..]; rewrite length_app; simpl; lia.
Qed.

(** The scanner's tokens the grammar has a name for. *)
Definition known (t : Token) : bool := bool_decide (plain (tok_type t) <> None).

Lemma feed_step_known f t : fst (feed_step f (tok_type t)) = None <-> known t = false.
Proof.
  unfold known. rewrite bool_decide_eq_false. pose proof (m10_step_plain (f_last f) (f_m10 f) (tok_type t)) as H.
  unfold feed_step. destruct (m10_step _ _ _) as [[b|] m]; simpl in *; rewrite <- H; split; try done.
  - intros Hn. exfalso. by apply Hn.
  - by intros _ ?.
Qed.

(** Induction over the mapped stream: unknown tokens disappear, known ones come out. *)
Lemma mapped_known f ts : exists f', forall t ts', List.filter known ts = t :: ts' ->
  exists bt ts0, mapped f ts = (bt, t, closes_empty f' bt) :: mapped (snd (feed_step f' (tok_type t))) ts0 /\
    fst (feed_step f' (tok_type t)) = Some bt /\ f_last f' = f_last f /\ f_peek f' = f_peek f /\
    List.filter known ts0 = ts' /\ (length ts0 < length ts)%nat.
Proof.
  revert f. induction ts as [|u ts IH]; intros f; [by exists f|]. simpl.
  pose proof (feed_step_known f u) as Hk. destruct (feed_step f (tok_type u)) as [bt f1] eqn:Ef. simpl in Hk.
  destruct (known u) eqn:Eu.
  - exists f. intros t ts' [= <- <-]. destruct bt as [b|]; [|by pose proof (proj1 Hk eq_refl)].
    exists b, ts. rewrite Ef. simpl. split_and!; try done. lia.
  - rewrite (proj2 Hk eq_refl). destruct (IH f1) as [f' H]. exists f'. intros t ts' E.
    destruct (H _ _ E) as (b&ts0&->&?&Hl&Hp&?&?). exists b, ts0.
    assert (f_last f1 = f_last f /\ f_peek f1 = f_peek f) as [Hfl Hfp].
    { rewrite (proj2 Hk eq_refl) in Ef. unfold feed_step in Ef.
      destruct (m10_step _ _ _) as [[?|] m]; simplify_eq. done. }
    split_and!; try done; [by rewrite Hl|by rewrite Hp|lia].
Qed.

Lemma mapped_none f ts : List.filter known ts = [] -> mapped f ts = [].
Proof.
  revert f. induction ts as [|u ts IH]; intros f; simpl; [done|].
  pose proof (feed_step_known f u) as Hk. destruct (known u); [done|]. intros E.
  destruct (feed_step f (tok_type u)) as [bt f1]. simpl in Hk. rewrite (proj2 Hk eq_refl). by apply IH.
Qed.

(** A kind of token whose [yylval] the grammar reads. *)
Definition carries_value (t : TokenType) : bool :=
  match t with TOKEN_IDENT | TOKEN_STRING | TOKEN_INT | TOKEN_FLOAT => true | _ => false end.

(** [e] is the token [t] under its grammar name, up to the two markings. *)
Definition delivers (t : Token) (e : Emitted) : Prop :=
  Some (erase (e_tok e)) = plain (tok_type t) /\ e_loc e = bridge_loc_of (tok_pos t) /\
  (carries_value (tok_type t) = true -> e_val e = semantic_value t).

Lemma feed_step_plain f t b : fst (feed_step f t) = Some b -> plain t = Some (erase b).
Proof.
  intros E. rewrite <- (m10_step_plain (f_last f) (f_m10 f)). unfold feed_step in E.
  destruct (m10_step _ _ _) as [bt m]. simpl in *. by subst.
Qed.

Lemma closes_empty_RBRACKET f b : closes_empty f b = true -> b = RBRACKET.
Proof. unfold closes_empty. rewrite !andb_true_iff, !bool_decide_eq_true. tauto. Qed.

Lemma plain_RBRACKET t : plain t = Some RBRACKET <-> t = TOKEN_RBRACKET.
Proof. split; [|by intros ->]. destruct t; vm_compute; done. Qed.

Lemma plain_LBRACKET t : plain t = Some LBRACKET <-> t = TOKEN_LBRACKET.
Proof. split; [|by intros ->]. destruct t; vm_compute; done. Qed.

Lemma retag_delivers n f ts : (length ts <= n)%nat ->
  Forall2 delivers (List.filter known ts) (retag (mapped f ts)).
Proof.
  revert f ts. induction n as [|n IH]; intros f ts Hn.
  { destruct ts; simpl in Hn; [constructor|lia]. }
  destruct (mapped_known f ts) as [f' Hk]. destruct (List.filter known ts) as [|t ts'] eqn:E.
  { rewrite mapped_none by done. constructor. }
  destruct (Hk t ts' eq_refl) as (bt&ts0&->&Hb&_&_&<-&Hlen). simpl. constructor; [|apply IH; lia].
  pose proof (feed_step_plain _ _ _ Hb) as Hp.
  unfold delivers. simpl. destruct (closes_empty f' bt) eqn:Ec; simpl.
  - apply closes_empty_RBRACKET in Ec as ->. simpl in Hp. split_and!; [|done|].
    + rewrite Hp. destruct (mapped _ ts0) as [|[[? ?] ?] ?]; [done|]. by destruct (_ && _).
    + apply plain_RBRACKET in Hp. by rewrite Hp.
  - by rewrite Hp.
Qed.

(** the parser reads the scanner's tokens and nothing else: on every text [yylex] reaches
    the end marker, and what it delivered is the token list, without the kinds the grammar has
    no name for, in order, renamed, each at its own line and column and with its own value,
    also across the one-token lookahead behind an empty pair of brackets. *)
Theorem parse_stream_faithful src : exists ts l es,
  tokenize src = Some (ts, l) /\ parse_input_stream src = Some es /\
  Forall2 delivers (List.filter known ts) es.
Proof.
  destruct (parse_input_stream_spec src) as (ts&l&Ht&Hs).
  exists ts, l, (retag (mapped feed_start ts)). split_and!; [done..|]. by apply (retag_delivers (length ts)).
Qed.

(** The reference rule for slice types: [prev] tells that the token before is an open bracket. *)
Definition starts_type (t : TokenType) : bool :=
  match plain t with Some b => bridge_token_starts_type b | None => false end.

Fixpoint slice_marks (prev : bool) (ts : list Token) : list bool :=
  match ts with
  | [] => []
  | t :: ts' =>
      (prev && token_eqb (tok_type t) TOKEN_RBRACKET &&
       match ts' with
       | n :: _ => (line (tok_pos n) =? line (tok_pos t))%Z && starts_type (tok_type n)
       | [] => false
       end) :: slice_marks (token_eqb (tok_type t) TOKEN_LBRACKET) ts'
  end.

Definition is_slice (e : Emitted) : bool := bool_decide (e_tok e = RBRACKET_SLICE).

Lemma starts_type_erase t b : plain t = Some (erase b) -> starts_type t = bridge_token_starts_type b.
Proof. unfold starts_type. intros ->. by destruct b. Qed.

(** What the state remembers of the token before. *)
Definition recalls (f : Feed) (prev : bool) : Prop :=
  if f_peek f then prev = false else prev = bool_decide (f_last f = LBRACKET).

Lemma recalls_step f t b : fst (feed_step f t) = Some b ->
  recalls (snd (feed_step f t)) (token_eqb t TOKEN_LBRACKET).
Proof.
  intros Hb. pose proof (feed_step_plain _ _ _ Hb) as Hp. unfold feed_step in *.
  destruct (m10_step _ _ _) as [bt m]. simpl in *. subst bt. unfold recalls.
  assert (token_eqb t TOKEN_LBRACKET = bool_decide (b = LBRACKET)) as E.
  { apply eq_true_iff_eq. rewrite bool_decide_eq_true, token_eqb_spec, <- plain_LBRACKET, Hp.
    split; [|by intros ->]. destruct b; simpl; congruence. }
  destruct (closes_empty f b) eqn:Ec; simpl; [|done].
  apply closes_empty_RBRACKET in Ec as ->. by rewrite E.
Qed.

Lemma m10_step_not_slice last m t : fst (m10_step last m t) <> Some RBRACKET_SLICE.
Proof.
  unfold m10_step. assert (fst (map_token_to_bison last m t) <> Some RBRACKET_SLICE) as H.
  { destruct t; simpl; try done.
    - unfold map_lbrace. destruct (0 <? m10_lit_depth m)%Z; [done|].
      destruct (frame_at _ m) as [f|]; [|done]. by destruct (literal_pending f).
    - unfold map_colon. by destruct (frame_at _ m). }
  by destruct (map_token_to_bison last m t).
Qed.

Lemma feed_step_RBRACKET f t b : fst (feed_step f t) = Some b ->
  bool_decide (b = RBRACKET) = token_eqb t TOKEN_RBRACKET.
Proof.
  intros Hb. pose proof (feed_step_plain _ _ _ Hb) as Hp.
  apply eq_true_iff_eq. rewrite bool_decide_eq_true, token_eqb_spec, <- plain_RBRACKET, Hp.
  split; [by intros ->|]. intros E. destruct b; simpl in E; try congruence.
  exfalso. apply (m10_step_not_slice (f_last f) (f_m10 f) t). unfold feed_step in Hb.
  by destruct (m10_step _ _ _).
Qed.

Lemma retag_marks n f prev ts : (length ts <= n)%nat -> recalls f prev ->
  map is_slice (retag (mapped f ts)) = slice_marks prev (List.filter known ts).
Proof.
  revert f prev ts. induction n as [|n IH]; intros f prev ts Hn Hr.
  { destruct ts; simpl in Hn; [done|lia]. }
  destruct (mapped_known f ts) as [f' Hk]. destruct (List.filter known ts) as [|t ts'] eqn:E.
  { by rewrite mapped_none. }
  destruct (Hk t ts' eq_refl) as (bt&ts0&->&Hb&Hl&Hp&<-&Hlen). simpl.
  rewrite (IH _ _ ts0 ltac:(lia) (recalls_step _ _ _ Hb)). f_equal.
  rewrite <- (feed_step_RBRACKET _ _ _ Hb).
  assert (closes_empty f' bt = prev && bool_decide (bt = RBRACKET)) as ->.
  { unfold recalls in Hr. unfold closes_empty. rewrite Hl, Hp. destruct (f_peek f); simpl; subst prev.
    - done.
    - apply andb_comm. }
  unfold is_slice. simpl. destruct (prev && bool_decide (bt = RBRACKET)) eqn:Ec; simpl.
  - destruct (mapped_known (snd (feed_step f' (tok_type t))) ts0) as [f2 Hk2].
    destruct (List.filter known ts0) as [|n0 ts2] eqn:E0.
    + by rewrite mapped_none.
    + destruct (Hk2 n0 ts2 eq_refl) as (b2&ts3&->&Hb2&_).
      rewrite <- (starts_type_erase _ _ (feed_step_plain _ _ _ Hb2)).
      by destruct ((line (tok_pos n0) =? line (tok_pos t))%Z && starts_type (tok_type n0)).
  - apply bool_decide_eq_false. intros ->. by apply (m10_step_not_slice (f_last f') (f_m10 f') (tok_type t));
      unfold feed_step in Hb; destruct (m10_step _ _ _).
Qed.

(** an empty pair of brackets is read as a slice type exactly when the token behind it can
    begin a type and stands on the same line; every other closing bracket stays plain. *)
Theorem slice_type_lookahead src : exists ts l es,
  tokenize src = Some (ts, l) /\ parse_input_stream src = Some es /\
  map is_slice es = slice_marks false (List.filter known ts).
Proof.
  destruct (parse_input_stream_spec src) as (ts&l&Ht&Hs).
  exists ts, l, (retag (mapped feed_start ts)). split_and!; [done..|].
  by apply (retag_marks (length ts)).
Qed.
