(* ===== verification/BridgeHeaders.v ===== *)
(** * BridgeHeaders: the frame stack marks the body braces of control statements.

    [nested] is the language of balanced code as the grammar brackets it, with the marking the
    grammar wants: the brace after the header of a control statement is [LBRACE_BODY], every
    other one is [LBRACE].  [header] is a header's language: operands, groups, index brackets,
    bracket- and map-typed literals, conversions, function literals inside parentheses.  The
    bridge, which does not parse, computes the same marking and is back in its state after
    each piece.  At the end, the pieces outside this language on which it does not. *)
From Stdlib Require Import ZArith Lia Ascii String Bool.
From stdpp Require Import base list numbers option strings.
From S2P Require Import Prelude Token Lexer LexerFacts LexerProps ConstExpr Bridge BridgeFacts.

(** ** The grammar of brackets *)
(** A token that neither opens, closes nor separates at the level of the frames. *)
Definition neutral (t : TokenType) : bool :=
  match t with
  | TOKEN_LPAREN | TOKEN_RPAREN | TOKEN_LBRACE | TOKEN_RBRACE | TOKEN_LBRACKET | TOKEN_RBRACKET
  | TOKEN_COLON | TOKEN_MAP | TOKEN_FOR | TOKEN_IF | TOKEN_SELECT | TOKEN_SWITCH | TOKEN_MATCH => false
  | _ => true
  end.

Definition control (t : TokenType) : option (BTok * FrameKind) :=
  match t with
  | TOKEN_IF => Some (IF, K_IF) | TOKEN_FOR => Some (FOR, K_FOR) | TOKEN_SELECT => Some (SELECT, K_SELECT)
  | TOKEN_SWITCH => Some (SWITCH, K_SWITCH) | TOKEN_MATCH => Some (MATCH, K_MATCH)
  | _ => None
  end.

(** The tokens of one piece after which Go's grammar allows an index: names, literals and
    [i++]; groups and literals in brackets end operands too. *)
Definition ends_operand (t : TokenType) : bool :=
  match t with
  | TOKEN_IDENT | TOKEN_INT | TOKEN_FLOAT | TOKEN_STRING | TOKEN_CHAR | TOKEN_TRUE | TOKEN_FALSE
  | TOKEN_NIL | TOKEN_INCREMENT | TOKEN_DECREMENT => true
  | _ => false
  end.

(** The tokens of one piece that a type may have after its brackets or its [map]: type names,
    qualified ones, pointers, channels, error unions and nullable types. *)
Definition in_type (t : TokenType) : bool :=
  match t with
  | TOKEN_IDENT | TOKEN_DOT | TOKEN_MULTIPLY | TOKEN_CHAN | TOKEN_BANG | TOKEN_QUESTION
  | TOKEN_STRUCT | TOKEN_FUNC | TOKEN_ENUM => true
  | _ => false
  end.

(** The elements of a literal at header level; [colon]: a colon is not a guard's end. *)
Inductive literal (colon : bool) : list TokenType -> list BTok -> Prop :=
| li_nil : literal colon [] []
| li_tok t b ts o : neutral t = true -> plain t = Some b -> literal colon ts o ->
    literal colon (t :: ts) (b :: o)
| li_map ts o : literal colon ts o -> literal colon (TOKEN_MAP :: ts) (MAP :: o)
| li_colon ts o : colon = true -> literal colon ts o -> literal colon (TOKEN_COLON :: ts) (COLON :: o)
| li_paren a ao ts o : literal true a ao -> literal colon ts o ->
    literal colon (TOKEN_LPAREN :: a ++ TOKEN_RPAREN :: ts) (LPAREN :: ao ++ RPAREN :: o)
| li_brack a ao ts o : literal true a ao -> literal colon ts o ->
    literal colon (TOKEN_LBRACKET :: a ++ TOKEN_RBRACKET :: ts) (LBRACKET :: ao ++ RBRACKET :: o)
| li_brace a ao ts o : literal colon a ao -> literal colon ts o ->
    literal colon (TOKEN_LBRACE :: a ++ TOKEN_RBRACE :: ts) (LBRACE :: ao ++ RBRACE :: o).

(** Code; parentheses and brackets balance, braces need not.  [n] bounds how deep control
    statements sit in the headers of others. *)
Inductive nested : nat -> list TokenType -> list BTok -> Prop :=
| nd_nil n : nested n [] []
| nd_tok n t b ts o : neutral t = true -> plain t = Some b -> nested n ts o ->
    nested n (t :: ts) (b :: o)
| nd_map n ts o : nested n ts o -> nested n (TOKEN_MAP :: ts) (MAP :: o)
| nd_colon n ts o : nested n ts o -> nested n (TOKEN_COLON :: ts) (COLON :: o)
| nd_paren n a ao ts o : nested n a ao -> nested n ts o ->
    nested n (TOKEN_LPAREN :: a ++ TOKEN_RPAREN :: ts) (LPAREN :: ao ++ RPAREN :: o)
| nd_brack n a ao ts o : nested n a ao -> nested n ts o ->
    nested n (TOKEN_LBRACKET :: a ++ TOKEN_RBRACKET :: ts) (LBRACKET :: ao ++ RBRACKET :: o)
| nd_open n ts o : nested n ts o -> nested n (TOKEN_LBRACE :: ts) (LBRACE :: o)
| nd_close n ts o : nested n ts o -> nested n (TOKEN_RBRACE :: ts) (RBRACE :: o)
| nd_control n t b k h ho ts o : control t = Some (b, k) -> header k n false h ho ->
    nested (S n) ts o ->
    nested (S n) (t :: h ++ TOKEN_LBRACE :: ts) (b :: ho ++ LBRACE_BODY :: o)
| nd_guard n h ho ts o : header K_IF n false h ho -> nested (S n) ts o ->
    nested (S n) (TOKEN_IF :: h ++ TOKEN_COLON :: ts) (IF :: ho ++ COLON :: o)
(** [e]: the token before ends an operand. *)
with header : FrameKind -> nat -> bool -> list TokenType -> list BTok -> Prop :=
| hd_nil k n e : header k n e [] []
| hd_tok k n e t b ts o : neutral t = true -> plain t = Some b ->
    header k n (ends_operand t) ts o -> header k n e (t :: ts) (b :: o)
| hd_paren k n e a ao ts o : nested n a ao -> header k n true ts o ->
    header k n e (TOKEN_LPAREN :: a ++ TOKEN_RPAREN :: ts) (LPAREN :: ao ++ RPAREN :: o)
| hd_index k n a ao ts o : nested n a ao -> a <> [] -> header k n true ts o ->
    header k n true (TOKEN_LBRACKET :: a ++ TOKEN_RBRACKET :: ts) (LBRACKET :: ao ++ RBRACKET :: o)
| hd_literal k n e ty tyo a ao ts o : type_prefix n e ty tyo ->
    literal (bool_decide (k <> K_IF)) a ao -> header k n true ts o ->
    header k n e (ty ++ TOKEN_LBRACE :: a ++ TOKEN_RBRACE :: ts) (tyo ++ LBRACE :: ao ++ RBRACE :: o)
| hd_conversion k n e ty tyo a ao ts o : type_prefix n e ty tyo ->
    nested n a ao -> header k n true ts o ->
    header k n e (ty ++ TOKEN_LPAREN :: a ++ TOKEN_RPAREN :: ts) (tyo ++ LPAREN :: ao ++ RPAREN :: o)
(** A type that starts with [map] or with a bracket in operand position. *)
with type_prefix : nat -> bool -> list TokenType -> list BTok -> Prop :=
| tp_map n e ts o : type_rest n ts o -> type_prefix n e (TOKEN_MAP :: ts) (MAP :: o)
| tp_brack n a ao ts o : nested n a ao -> type_rest n ts o ->
    type_prefix n false (TOKEN_LBRACKET :: a ++ TOKEN_RBRACKET :: ts) (LBRACKET :: ao ++ RBRACKET :: o)
with type_rest : nat -> list TokenType -> list BTok -> Prop :=
| tr_nil n : type_rest n [] []
| tr_tok n t b ts o : neutral t = true -> plain t = Some b ->
    in_type t = true -> type_rest n ts o -> type_rest n (t :: ts) (b :: o)
| tr_map n ts o : type_rest n ts o -> type_rest n (TOKEN_MAP :: ts) (MAP :: o)
| tr_brack n a ao ts o : nested n a ao -> type_rest n ts o ->
    type_rest n (TOKEN_LBRACKET :: a ++ TOKEN_RBRACKET :: ts) (LBRACKET :: ao ++ RBRACKET :: o).

Scheme nested_mut := Induction for nested Sort Prop
  with header_mut := Induction for header Sort Prop
  with type_prefix_mut := Induction for type_prefix Sort Prop
  with type_rest_mut := Induction for type_rest Sort Prop.
Combined Scheme headers_ind from nested_mut, header_mut, type_prefix_mut, type_rest_mut.

(** ** Runs of the bridge over token kinds *)
Fixpoint feed_all (f : Feed) (ts : list TokenType) : list (option BTok) * Feed :=
  match ts with
  | [] => ([], f)
  | t :: ts =>
      let '(b, f1) := feed_step f t in let '(o, f2) := feed_all f1 ts in (b :: o, f2)
  end.

Definition runs (f : Feed) (ts : list TokenType) (out : list BTok) (f' : Feed) : Prop :=
  feed_all f ts = (map Some out, f').

(** The last token returned is the last token read. *)
Definition settled (f : Feed) : Prop := f_peek f = true \/ f_last f <> LBRACKET.

Lemma runs_app f ts1 o1 f1 ts2 o2 f2 : runs f ts1 o1 f1 -> runs f1 ts2 o2 f2 ->
  runs f (ts1 ++ ts2) (o1 ++ o2) f2.
Proof.
  unfold runs. revert f o1. induction ts1 as [|t ts1 IH]; intros f o1; simpl.
  - intros [= E <-]. by destruct o1.
  - destruct (feed_step f t) as [b f0]. destruct (feed_all f0 ts1) as [o f1'] eqn:E1.
    intros [= E <-] H2. destruct o1 as [|b1 o1]; [done|]. simpl in E. injection E as -> ->.
    by rewrite (IH f0 o1 E1 H2).
Qed.

Lemma runs_nil f : runs f [] [] f.
Proof. done. Qed.

(** One token. *)
Lemma runs_cons f t b m ts o f' (f1 := if closes_empty f b then mkFeed m LBRACKET true else mkFeed m b false) :
  m10_step (f_last f) (f_m10 f) t = (Some b, m) -> runs f1 ts o f' -> runs f (t :: ts) (b :: o) f'.
Proof. unfold runs, feed_step. intros H1 H2. simpl. unfold feed_step. rewrite H1. fold f1. by rewrite H2. Qed.

Definition after (f : Feed) (b : BTok) (m : M10) : Feed :=
  if closes_empty f b then mkFeed m LBRACKET true else mkFeed m b false.

Lemma after_m10 f b m : f_m10 (after f b m) = m.
Proof. unfold after. by destruct (closes_empty f b). Qed.

Lemma after_last f b m : b <> RBRACKET \/ settled f -> f_last (after f b m) = b.
Proof.
  intros H. unfold after. destruct (closes_empty f b) eqn:E; [|done]. exfalso.
  unfold closes_empty in E. apply andb_prop in E as [E E3]. apply andb_prop in E as [E1 E2].
  apply bool_decide_eq_true in E2, E3. apply negb_true_iff in E1.
  destruct H as [H|[H|H]]; congruence.
Qed.

Lemma after_settled f b m : b <> LBRACKET -> settled (after f b m).
Proof. intros H. unfold after. destruct (closes_empty f b); [by left|by right]. Qed.


(** ** One token at a level where no frame fires *)
(** All frames were pushed at a smaller depth, no literal is open, room for [n] more frames. *)
Record quiet (n : nat) (m : M10) : Prop := {
  q_depth : (0 <= m10_paren_depth m)%Z;
  q_lit : m10_lit_depth m = 0%Z;
  q_top : match m10_frames m with f :: _ => (paren_depth_at_push f < m10_paren_depth m)%Z | [] => True end;
  q_room : length (m10_frames m) + n <= M10_MAX_FRAMES
}.

Lemma quiet_frame n m d : quiet n m -> (m10_paren_depth m <= d)%Z -> frame_at d m = None.
Proof.
  intros [_ _ Ht _] Hd. unfold frame_at. destruct (m10_frames m) as [|f fs]; [done|].
  destruct (Z.eqb_spec (paren_depth_at_push f) d); [lia|done].
Qed.

Lemma clear_stale_none d b m : frame_at d m = None -> clear_stale d b m = m.
Proof. unfold clear_stale. by intros ->. Qed.

Lemma frame_at_frames d m m' : m10_frames m' = m10_frames m -> frame_at d m' = frame_at d m.
Proof. unfold frame_at. by intros ->. Qed.

Lemma neutral_map t last m : neutral t = true -> map_token_to_bison last m t = (plain t, m).
Proof. destruct t; done. Qed.

(** The bridge asks the same questions of the parser's tokens. *)
Lemma prev_ends_operand t b : neutral t = true -> plain t = Some b ->
  bridge_prev_ends_operand b = ends_operand t.
Proof. destruct t; try done; by intros _ [= <-]. Qed.

Lemma continues_type t b : neutral t = true -> plain t = Some b ->
  bridge_token_continues_type (Some b) = in_type t.
Proof. destruct t; try done; by intros _ [= <-]. Qed.

Lemma plain_neutral_bracket t b : neutral t = true -> plain t = Some b -> b <> RBRACKET /\ b <> LBRACKET.
Proof. intros Hn Hp. split; intros ->; destruct t; done. Qed.

Lemma set_depth_id m : set_paren_depth (m10_paren_depth m) m = m.
Proof. by destruct m. Qed.

Lemma close_open m : (0 <= m10_paren_depth m)%Z ->
  close_paren (set_paren_depth (m10_paren_depth m + 1) m) = m.
Proof.
  intros H. unfold close_paren. destruct m as [fs d l]. cbn in *.
  replace (0 <? d + 1)%Z with true by (symmetry; apply Z.ltb_lt; lia).
  unfold set_paren_depth. cbn. by replace (d + 1 - 1)%Z with d by lia.
Qed.

(** Closing at a depth where every frame is below leaves the frames alone. *)
Lemma step_close last m t b : (0 <= m10_paren_depth m)%Z ->
  (t = TOKEN_RPAREN /\ b = RPAREN \/ t = TOKEN_RBRACKET /\ b = RBRACKET) ->
  frame_at (m10_paren_depth m + 1) m = None ->
  m10_step last (set_paren_depth (m10_paren_depth m + 1) m) t = (Some b, m).
Proof.
  intros Hd Hb Hf. unfold m10_step.
  destruct Hb as [[-> ->]|[-> ->]]; cbn [map_token_to_bison]; rewrite close_open by done;
    (rewrite clear_stale_none; [done|]); exact Hf.
Qed.

Section Quiet.
  Context (n : nat) (m : M10) (Hq : quiet n m).

Lemma quiet_none : frame_at (m10_paren_depth m) m = None.
  Proof using Hq. eapply quiet_frame; [done|]. lia. Qed.

Lemma quiet_simple last t b :
    match t with
    | TOKEN_MAP | TOKEN_COLON | TOKEN_LBRACE | TOKEN_RBRACE => True
    | _ => neutral t = true
    end -> plain t = Some b -> m10_step last m t = (Some b, m).
  Proof using Hq.
    intros Hn Hp. pose proof quiet_none as Hf. unfold m10_step.
    assert (map_token_to_bison last m t = (Some b, m)) as ->.
    { destruct t; simpl in Hn; try done; try (rewrite neutral_map, Hp; done);
        simpl in Hp; injection Hp as <-; simpl; unfold arm, map_lbrace, map_colon; rewrite ?Hf; try done;
        rewrite (q_lit _ _ Hq); done. }
    by rewrite clear_stale_none.
  Qed.

Lemma quiet_open last t b :
    t = TOKEN_LPAREN /\ b = LPAREN \/ t = TOKEN_LBRACKET /\ b = LBRACKET ->
    m10_step last m t = (Some b, set_paren_depth (m10_paren_depth m + 1) m).
  Proof using Hq.
    intros Hb. pose proof quiet_none as Hf. unfold m10_step.
    assert (map_token_to_bison last m t = (Some b, set_paren_depth (m10_paren_depth m + 1) m)) as ->.
    { destruct Hb as [[-> ->]|[-> ->]]; simpl; [done|]. unfold arm. by rewrite Hf. }
    rewrite clear_stale_none; [done|]. exact Hf.
  Qed.

Lemma quiet_inside : quiet n (set_paren_depth (m10_paren_depth m + 1) m).
  Proof using Hq.
    destruct Hq as [H1 H2 H3 H4]. constructor; simpl; try done; [lia|].
    destruct (m10_frames m); [done|lia].
  Qed.

Lemma quiet_close last t b :
    (t = TOKEN_RPAREN /\ b = RPAREN \/ t = TOKEN_RBRACKET /\ b = RBRACKET) ->
    m10_step last (set_paren_depth (m10_paren_depth m + 1) m) t = (Some b, m).
  Proof using Hq.
    intros Hb. apply step_close; [apply Hq|done|]. eapply quiet_frame; [exact Hq|]. lia.
  Qed.
End Quiet.

(** ** One token at the level of a header *)
(** In the header of a [k] statement entered at depth [d]: [p], a type prefix is open; [l],
    the braces of the literal that is open. *)
Definition in_header (k : FrameKind) (d : Z) (fs : list M10CondFrame) (p : bool) (l : Z) : M10 :=
  mkM10 (mkFrame k d p :: fs) d l.

Lemma frame_in_header k d fs p l : frame_at d (in_header k d fs p l) = Some (mkFrame k d p).
Proof. unfold frame_at. simpl. by rewrite Z.eqb_refl. Qed.

Lemma clear_unarmed d b m : (forall f, frame_at d m = Some f -> literal_pending f = false) ->
  clear_stale d b m = m.
Proof. unfold clear_stale. intros H. destruct (frame_at d m) as [f|]; [|done]. by rewrite (H f eq_refl). Qed.

Lemma clear_in_header k d fs l b : clear_stale d b (in_header k d fs false l) = in_header k d fs false l.
Proof. apply clear_unarmed. intros f. rewrite frame_in_header. by intros [= <-]. Qed.

Lemma clear_continues d b m : bridge_token_continues_type (Some b) = true -> clear_stale d (Some b) m = m.
Proof. unfold clear_stale. intros ->. destruct (frame_at d m) as [f|]; [|done]. by rewrite andb_false_r. Qed.

Section Header.
  Context (k : FrameKind) (d : Z) (fs : list M10CondFrame) (Hd : (0 <= d)%Z).
  Abbreviation hm := (in_header k d fs).

Lemma hdr_neutral last t b : neutral t = true -> plain t = Some b ->
    m10_step last (hm false 0) t = (Some b, hm false 0).
  Proof. intros Hn Hp. unfold m10_step. rewrite neutral_map, Hp by done. by rewrite clear_in_header. Qed.

Lemma hdr_type_tok last t b : neutral t = true -> plain t = Some b ->
    bridge_token_continues_type (Some b) = true -> m10_step last (hm true 0) t = (Some b, hm true 0).
  Proof. intros Hn Hp Hc. unfold m10_step. rewrite neutral_map, Hp by done. by rewrite clear_continues. Qed.

Lemma arm_in_header c p : arm c (hm p 0) = hm (c || p) 0.
  Proof.
    unfold arm. change (m10_paren_depth (hm p 0)) with d. rewrite frame_in_header. simpl.
    by destruct c.
  Qed.

Lemma hdr_map last p : m10_step last (hm p 0) TOKEN_MAP = (Some MAP, hm true 0).
  Proof. unfold m10_step. cbn [map_token_to_bison]. rewrite arm_in_header. by rewrite clear_continues. Qed.

Lemma hdr_brack last p :
    m10_step last (hm p 0) TOKEN_LBRACKET =
    (Some LBRACKET, set_paren_depth (d + 1) (hm (negb (bridge_prev_ends_operand last) || p) 0)).
  Proof. unfold m10_step. cbn [map_token_to_bison]. rewrite arm_in_header. by rewrite clear_continues. Qed.

Lemma hdr_paren last p :
    m10_step last (hm p 0) TOKEN_LPAREN = (Some LPAREN, set_paren_depth (d + 1) (hm false 0)).
  Proof.
    unfold m10_step. cbn [map_token_to_bison]. unfold clear_stale.
    rewrite (frame_at_frames _ (hm p 0)) by done. change (m10_paren_depth (hm p 0)) with d.
    rewrite frame_in_header. by destruct p.
  Qed.

Lemma hdr_close last t b p :
    (t = TOKEN_RPAREN /\ b = RPAREN \/ t = TOKEN_RBRACKET /\ b = RBRACKET) ->
    m10_step last (set_paren_depth (d + 1) (hm p 0)) t = (Some b, hm p 0).
  Proof using Hd.
    intros Hb. apply (step_close last (hm p 0)); [done|done|]. unfold frame_at. simpl.
    by destruct (Z.eqb_spec d (d + 1)); [lia|].
  Qed.

Lemma hdr_literal last : m10_step last (hm true 0) TOKEN_LBRACE = (Some LBRACE, hm false 1).
  Proof.
    unfold m10_step. cbn [map_token_to_bison]. unfold map_lbrace.
    change (m10_paren_depth (hm true 0)) with d. rewrite frame_in_header. simpl.
    by rewrite (clear_in_header k d fs 1).
  Qed.

Lemma hdr_literal_end last : m10_step last (hm false 1) TOKEN_RBRACE = (Some RBRACE, hm false 0).
  Proof. unfold m10_step. simpl. by rewrite (clear_in_header k d fs 0). Qed.

Lemma hdr_inside n p : length fs + S n <= M10_MAX_FRAMES -> quiet n (set_paren_depth (d + 1) (hm p 0)).
  Proof using Hd. intros H. constructor; simpl; [lia|done|lia|lia]. Qed.

Lemma hdr_body last : frame_at d (mkM10 fs d 0) = None ->
    m10_step last (hm false 0) TOKEN_LBRACE = (Some LBRACE_BODY, mkM10 fs d 0).
  Proof.
    intros Hf. unfold m10_step. cbn [map_token_to_bison]. unfold map_lbrace.
    change (m10_paren_depth (hm false 0)) with d. rewrite frame_in_header. simpl.
    by rewrite clear_stale_none.
  Qed.
End Header.

Lemma hdr_guard last d fs : frame_at d (mkM10 fs d 0) = None ->
  m10_step last (in_header K_IF d fs false 0) TOKEN_COLON = (Some COLON, mkM10 fs d 0).
Proof.
  intros Hf. unfold m10_step. cbn [map_token_to_bison]. unfold map_colon.
  change (m10_paren_depth (in_header K_IF d fs false 0)) with d. rewrite frame_in_header. simpl.
  by rewrite clear_stale_none.
Qed.

Lemma hdr_enter n last m t b k : quiet (S n) m -> control t = Some (b, k) ->
  m10_step last m t = (Some b, in_header k (m10_paren_depth m) (m10_frames m) false 0).
Proof.
  intros [Hd Hl Ht Hr] Hc. unfold m10_step.
  assert (map_token_to_bison last m t = (Some b, m10_push_frame k m)) as ->.
  { destruct t; simpl in Hc; try done; by injection Hc as <- <-. }
  unfold m10_push_frame.
  destruct (Nat.leb_spec M10_MAX_FRAMES (length (m10_frames m))); [lia|]. rewrite Hl.
  by rewrite (clear_in_header k (m10_paren_depth m) (m10_frames m) 0).
Qed.

(** ** Literals *)
Record in_literal (colon : bool) (m : M10) : Prop := {
  il_depth : (0 <= m10_paren_depth m)%Z;
  il_open : (0 < m10_lit_depth m)%Z;
  il_top : match m10_frames m with
           | f :: _ => (paren_depth_at_push f <= m10_paren_depth m)%Z /\ literal_pending f = false /\
               (colon = true -> frame_kind f <> K_IF \/ (paren_depth_at_push f < m10_paren_depth m)%Z)
           | [] => True
           end
}.

Section Literal.
  Context (colon : bool) (m : M10) (Hl : in_literal colon m).

Lemma lit_clear d b m' : m10_frames m' = m10_frames m -> clear_stale d b m' = m'.
  Proof using Hl.
    intros E. apply clear_unarmed. intros f. rewrite (frame_at_frames _ m) by done. unfold frame_at.
    destruct Hl as [_ _ Ht]. destruct (m10_frames m) as [|g gs]; [done|].
    destruct (paren_depth_at_push g =? d)%Z; [|done]. intros [= <-]. apply Ht.
  Qed.

Lemma lit_no_arm c : arm c m = m.
  Proof using Hl.
    unfold arm. destruct (frame_at _ m); [|done].
    destruct (Z.eqb_spec (m10_lit_depth m) 0) as [E|]; [|done]. destruct Hl. lia.
  Qed.

Lemma lit_simple last t b :
    match t with
    | TOKEN_MAP => True | TOKEN_COLON => colon = true | _ => neutral t = true
    end -> plain t = Some b -> m10_step last m t = (Some b, m).
  Proof using Hl.
    intros Hn Hp. unfold m10_step.
    assert (map_token_to_bison last m t = (Some b, m)) as ->.
    { destruct t; simpl in Hn; try done; try (rewrite neutral_map, Hp; done);
        simpl in Hp; injection Hp as <-; simpl.
      - by rewrite lit_no_arm.
      - unfold map_colon, frame_at. destruct Hl as [_ _ Ht]. destruct (m10_frames m) as [|f fs]; [done|].
        destruct (Z.eqb_spec (paren_depth_at_push f) (m10_paren_depth m)) as [E|]; [|done].
        destruct Ht as (_&_&Hk). destruct (Hk Hn) as [?|?]; [|lia]. by rewrite decide_False. }
    by rewrite lit_clear.
  Qed.

Lemma lit_open last t b :
    t = TOKEN_LPAREN /\ b = LPAREN \/ t = TOKEN_LBRACKET /\ b = LBRACKET ->
    m10_step last m t = (Some b, set_paren_depth (m10_paren_depth m + 1) m).
  Proof using Hl.
    intros Hb. unfold m10_step.
    assert (map_token_to_bison last m t = (Some b, set_paren_depth (m10_paren_depth m + 1) m)) as ->.
    { destruct Hb as [[-> ->]|[-> ->]]; simpl; [done|]. by rewrite lit_no_arm. }
    by rewrite lit_clear.
  Qed.

Lemma lit_inside : in_literal true (set_paren_depth (m10_paren_depth m + 1) m).
  Proof using Hl.
    destruct Hl as [H1 H2 H3]. constructor; simpl; [lia|done|].
    destruct (m10_frames m); [done|]. destruct H3 as (?&?&_). split_and!; [lia|done|]. right. lia.
  Qed.

Lemma lit_close last t b :
    (t = TOKEN_RPAREN /\ b = RPAREN \/ t = TOKEN_RBRACKET /\ b = RBRACKET) ->
    m10_step last (set_paren_depth (m10_paren_depth m + 1) m) t = (Some b, m).
  Proof using Hl.
    intros Hb. apply step_close; [apply Hl|done|]. unfold frame_at. destruct Hl as [_ _ Ht].
    destruct (m10_frames m) as [|f fs]; [done|].
    destruct (Z.eqb_spec (paren_depth_at_push f) (m10_paren_depth m + 1)); [|done].
    destruct Ht as [? _]. lia.
  Qed.

Lemma lit_brace last :
    m10_step last m TOKEN_LBRACE = (Some LBRACE, set_lit_depth (m10_lit_depth m + 1) m).
  Proof using Hl.
    unfold m10_step. cbn [map_token_to_bison]. unfold map_lbrace.
    destruct (Z.ltb_spec 0 (m10_lit_depth m)); [|destruct Hl; lia]. by rewrite lit_clear.
  Qed.

Lemma lit_brace_inside : in_literal colon (set_lit_depth (m10_lit_depth m + 1) m).
  Proof using Hl. destruct Hl as [H1 H2 H3]. constructor; simpl; [done|lia|done]. Qed.

Lemma lit_brace_close last :
    m10_step last (set_lit_depth (m10_lit_depth m + 1) m) TOKEN_RBRACE = (Some RBRACE, m).
  Proof using Hl.
    unfold m10_step. cbn [map_token_to_bison]. cbn [set_lit_depth m10_lit_depth].
    destruct (Z.ltb_spec 0 (m10_lit_depth m + 1)); [|destruct Hl; lia].
    assert (set_lit_depth (m10_lit_depth m + 1 - 1) (set_lit_depth (m10_lit_depth m + 1) m) = m) as ->.
    { unfold set_lit_depth. destruct m as [fs d l]. simpl. by replace (l + 1 - 1)%Z with l by lia. }
    by rewrite lit_clear.
  Qed.
End Literal.

(** ** Runs, by what holds at their end *)
Definition wp (f : Feed) (ts : list TokenType) (out : list BTok) (P : Feed -> Prop) : Prop :=
  exists f', runs f ts out f' /\ P f'.

Lemma wp_nil f (P : Feed -> Prop) : P f -> wp f [] [] P.
Proof. by exists f. Qed.

Lemma wp_cons f t b m ts o P : m10_step (f_last f) (f_m10 f) t = (Some b, m) ->
  wp (after f b m) ts o P -> wp f (t :: ts) (b :: o) P.
Proof. intros Hs (f'&Hr&HP). exists f'. split; [|done]. by eapply runs_cons. Qed.

Lemma wp_app f ts1 o1 ts2 o2 P : wp f ts1 o1 (fun f1 => wp f1 ts2 o2 P) -> wp f (ts1 ++ ts2) (o1 ++ o2) P.
Proof. intros (f1&H1&f2&H2&HP). exists f2. split; [|done]. by eapply runs_app. Qed.

Lemma wp_mono f ts o (P Q : Feed -> Prop) : wp f ts o P -> (forall f', P f' -> Q f') -> wp f ts o Q.
Proof. intros (f'&H&HP) HQ. exists f'. eauto. Qed.

(** The code leaves the frame state as it found it. *)
Definition returns (m : M10) (ts : list TokenType) (out : list BTok) : Prop :=
  forall f, f_m10 f = m ->
  wp f ts out (fun f' => f_m10 f' = m /\ (settled f \/ ts <> [] -> settled f')).

Lemma returns_nil m : returns m [] [].
Proof. intros f Hm. apply wp_nil. split; [done|]. intros [?|?]; done. Qed.

Lemma returns_cons m m1 t b ts o : b <> LBRACKET ->
  (forall last, m10_step last m t = (Some b, m1)) ->
  (forall f, f_m10 f = m1 -> wp f ts o (fun f' => f_m10 f' = m /\ (settled f \/ ts <> [] -> settled f'))) ->
  returns m (t :: ts) (b :: o).
Proof.
  intros Hb Hs Hr f Hm. eapply wp_cons; [rewrite Hm; apply Hs|].
  eapply wp_mono; [apply Hr, after_m10|]. simpl. intros f' [? Hset]. split; [done|].
  intros _. apply Hset. left. by apply after_settled.
Qed.

Lemma wp_group f t1 b1 m1 a ao t2 b2 m2 ts o P :
  m10_step (f_last f) (f_m10 f) t1 = (Some b1, m1) -> returns m1 a ao ->
  (forall last, m10_step last m1 t2 = (Some b2, m2)) -> b2 <> LBRACKET ->
  (forall f2, f_m10 f2 = m2 -> settled f2 -> (b2 <> RBRACKET \/ a <> [] -> f_last f2 = b2) -> wp f2 ts o P) ->
  wp f (t1 :: a ++ t2 :: ts) (b1 :: ao ++ b2 :: o) P.
Proof.
  intros H1 Ha H2 Hb HP. eapply wp_cons; [done|]. apply wp_app.
  eapply wp_mono; [apply Ha, after_m10|]. simpl. intros f1 [Hm1 Hset].
  eapply wp_cons; [rewrite Hm1; apply H2|]. apply HP; [apply after_m10|by apply after_settled|].
  intros H. apply after_last. destruct H as [?|?]; [by left|right; auto].
Qed.

Lemma returns_group m t1 b1 m1 a ao t2 b2 ts o :
  (forall last, m10_step last m t1 = (Some b1, m1)) -> returns m1 a ao ->
  (forall last, m10_step last m1 t2 = (Some b2, m)) -> b2 <> LBRACKET -> returns m ts o ->
  returns m (t1 :: a ++ t2 :: ts) (b1 :: ao ++ b2 :: o).
Proof.
  intros H1 Ha H2 Hb Hr f Hm. eapply wp_group; [rewrite Hm; apply H1|done|done|done|].
  intros f2 Hm2 Hs _. eapply wp_mono; [by apply Hr|]. simpl. intros f' [? Hset].
  split; [done|]. auto.
Qed.

Lemma literal_run colon ts o : literal colon ts o -> forall m, in_literal colon m -> returns m ts o.
Proof.
  induction 1 as [colon|colon t b ts o Hn Hp _ IH|colon ts o _ IH|colon ts o Hc _ IH
    |colon a ao ts o _ IHa _ IH|colon a ao ts o _ IHa _ IH|colon a ao ts o _ IHa _ IH]; intros m Hl.
  - apply returns_nil.
  - eapply returns_cons; [apply (plain_neutral_bracket t b Hn Hp)| |by apply IH].
    intros last. apply (lit_simple colon m Hl); [by destruct t|done].
  - eapply returns_cons; [done| |by apply IH]. intros last. by apply (lit_simple colon m Hl).
  - eapply returns_cons; [done| |by apply IH]. intros last. by apply (lit_simple colon m Hl).
  - eapply returns_group; [intros; apply (lit_open colon m Hl); by left|apply IHa; by eapply lit_inside
      |intros; apply (lit_close colon m Hl); by left|done|by apply IH].
  - eapply returns_group; [intros; apply (lit_open colon m Hl); by right|apply IHa; by eapply lit_inside
      |intros; apply (lit_close colon m Hl); by right|done|by apply IH].
  - eapply returns_group; [intros; apply (lit_brace colon m Hl)|apply IHa; by eapply lit_brace_inside
      |intros; by eapply lit_brace_close|done|by apply IH].
Qed.

(** ** Code, headers and types, by mutual induction *)
Definition at_header (k : FrameKind) (n : nat) (d : Z) (fs : list M10CondFrame) (p : bool) (f : Feed) : Prop :=
  (0 <= d)%Z /\ length fs + S n <= M10_MAX_FRAMES /\ f_m10 f = in_header k d fs p 0.

Definition nested_goes n ts o := forall m, quiet n m -> returns m ts o.
Definition header_goes k n e ts o := forall d fs f, at_header k n d fs false f ->
  bridge_prev_ends_operand (f_last f) = e -> wp f ts o (at_header k n d fs false).
Definition prefix_goes n e ts o := forall k d fs f, at_header k n d fs false f ->
  bridge_prev_ends_operand (f_last f) = e -> wp f ts o (at_header k n d fs true).
Definition rest_goes n ts o := forall k d fs f, at_header k n d fs true f ->
  wp f ts o (at_header k n d fs true).

Lemma at_after k n d fs p f b m : at_header k n d fs p f -> m = in_header k d fs p 0 ->
  at_header k n d fs p (after f b m).
Proof. intros (?&?&_) ->. split_and!; [done|done|]. apply after_m10. Qed.

(** A group at the level of a header. *)
Lemma wp_header_group k n d fs p q f t1 b1 t2 b2 a ao ts o P :
  at_header k n d fs p f ->
  (t1 = TOKEN_LPAREN /\ b1 = LPAREN /\ t2 = TOKEN_RPAREN /\ b2 = RPAREN \/
   t1 = TOKEN_LBRACKET /\ b1 = LBRACKET /\ t2 = TOKEN_RBRACKET /\ b2 = RBRACKET) ->
  m10_step (f_last f) (in_header k d fs p 0) t1 = (Some b1, set_paren_depth (d + 1) (in_header k d fs q 0)) ->
  nested_goes n a ao ->
  (forall f2, at_header k n d fs q f2 -> (b2 <> RBRACKET \/ a <> [] -> f_last f2 = b2) -> wp f2 ts o P) ->
  wp f (t1 :: a ++ t2 :: ts) (b1 :: ao ++ b2 :: o) P.
Proof.
  intros (Hd&Hr&Hm) Hb Hs Ha HP. eapply wp_group; [rewrite Hm; exact Hs| | | |].
  - apply Ha. by apply hdr_inside.
  - intros last. apply hdr_close; [done|]. destruct Hb as [(_&_&->&->)|(_&_&->&->)]; [by left|by right].
  - by destruct Hb as [(_&_&_&->)|(_&_&_&->)].
  - intros f2 Hm2 _ Hl2. apply HP; [|done]. by split_and!.
Qed.

Lemma nested_control n t b k h ho ts o : control t = Some (b, k) -> header_goes k n false h ho ->
  nested_goes (S n) ts o -> nested_goes (S n) (t :: h ++ TOKEN_LBRACE :: ts) (b :: ho ++ LBRACE_BODY :: o).
Proof.
  intros Hc Hh Ht m Hq f Hm. eapply wp_cons; [rewrite Hm; by eapply hdr_enter|]. apply wp_app.
  assert (b <> RBRACKET /\ bridge_prev_ends_operand b = false) as [Hb He].
  { destruct t; simpl in Hc; try done; by injection Hc as <- <-. }
  pose proof Hq as [Hd Hl Htop Hr].
  eapply wp_mono; [apply Hh|].
  - split_and!; [exact Hd| |apply after_m10]. lia.
  - rewrite after_last by (by left). done.
  - simpl. intros f1 (_&_&Hm1).
    assert (mkM10 (m10_frames m) (m10_paren_depth m) 0 = m) as Em by (rewrite <- Hl; by destruct m).
    eapply wp_cons; [rewrite Hm1; apply hdr_body; rewrite Em; eapply quiet_frame; [exact Hq|lia]|].
    rewrite Em. eapply wp_mono; [apply (Ht m Hq), after_m10|]. simpl. intros f2 [? Hs].
    split; [done|]. intros _. apply Hs. left. by apply after_settled.
Qed.

Lemma nested_guard n h ho ts o : header_goes K_IF n false h ho -> nested_goes (S n) ts o ->
  nested_goes (S n) (TOKEN_IF :: h ++ TOKEN_COLON :: ts) (IF :: ho ++ COLON :: o).
Proof.
  intros Hh Ht m Hq f Hm. eapply wp_cons; [rewrite Hm; by eapply (hdr_enter n _ m TOKEN_IF)|]. apply wp_app.
  pose proof Hq as [Hd Hl Htop Hr]. eapply wp_mono; [apply Hh|].
  - split_and!; [exact Hd| |apply after_m10]. lia.
  - rewrite after_last by (by left). done.
  - simpl. intros f1 (_&_&Hm1).
    assert (mkM10 (m10_frames m) (m10_paren_depth m) 0 = m) as Em by (rewrite <- Hl; by destruct m).
    eapply wp_cons; [rewrite Hm1; apply hdr_guard; rewrite Em; eapply quiet_frame; [exact Hq|lia]|].
    rewrite Em. eapply wp_mono; [apply (Ht m Hq), after_m10|]. simpl. intros f2 [? Hs].
    split; [done|]. intros _. apply Hs. left. by apply after_settled.
Qed.

Lemma header_literal k n e ty tyo a ao ts o : prefix_goes n e ty tyo ->
  literal (bool_decide (k <> K_IF)) a ao -> header_goes k n true ts o ->
  header_goes k n e (ty ++ TOKEN_LBRACE :: a ++ TOKEN_RBRACE :: ts) (tyo ++ LBRACE :: ao ++ RBRACE :: o).
Proof.
  intros Hty Ha Ht d fs f Hf He. apply wp_app. eapply wp_mono; [by eapply Hty|]. simpl.
  intros f1 (Hd&Hr&Hm1). eapply wp_group.
  - rewrite Hm1. apply hdr_literal.
  - eapply literal_run; [exact Ha|]. constructor; simpl; [done|lia|]. split_and!; [lia|done|].
    intros Hk. apply bool_decide_eq_true in Hk. by left.
  - intros last. apply hdr_literal_end.
  - done.
  - intros f2 Hm2 _ Hl2. apply Ht; [by split_and!|]. by rewrite Hl2 by (by left).
Qed.

Lemma headers_run :
  (forall n ts o, nested n ts o -> nested_goes n ts o) /\
  (forall k n e ts o, header k n e ts o -> header_goes k n e ts o) /\
  (forall n e ts o, type_prefix n e ts o -> prefix_goes n e ts o) /\
  (forall n ts o, type_rest n ts o -> rest_goes n ts o).
Proof.
  apply headers_ind.
  - intros n m _. apply returns_nil.
  - intros n t b ts o Hn Hp _ IH m Hq.
    eapply returns_cons; [apply (plain_neutral_bracket t b Hn Hp)| |by apply IH].
    intros last. apply (quiet_simple n m Hq); [by destruct t|done].
  - intros n ts o _ IH m Hq. eapply returns_cons; [done| |by apply IH].
    intros. by apply (quiet_simple n m Hq).
  - intros n ts o _ IH m Hq. eapply returns_cons; [done| |by apply IH].
    intros. by apply (quiet_simple n m Hq).
  - intros n a ao ts o _ IHa _ IH m Hq.
    eapply returns_group; [intros; apply (quiet_open n m Hq); by left|apply IHa; by apply quiet_inside
      |intros; apply (quiet_close n m Hq); by left|done|by apply IH].
  - intros n a ao ts o _ IHa _ IH m Hq.
    eapply returns_group; [intros; apply (quiet_open n m Hq); by right|apply IHa; by apply quiet_inside
      |intros; apply (quiet_close n m Hq); by right|done|by apply IH].
  - intros n ts o _ IH m Hq. eapply returns_cons; [done| |by apply IH].
    intros. by apply (quiet_simple n m Hq).
  - intros n ts o _ IH m Hq. eapply returns_cons; [done| |by apply IH].
    intros. by apply (quiet_simple n m Hq).
  - intros n t b k h ho ts o Hc _ Hh _ Ht. by eapply nested_control.
  - intros n h ho ts o _ Hh _ Ht. by apply nested_guard.
  - intros k n e d fs f Hf _. by apply wp_nil.
  - intros k n e t b ts o Hn Hp _ IH d fs f Hf _. pose proof Hf as (Hd&Hr&Hm).
    eapply wp_cons; [rewrite Hm; by apply hdr_neutral|]. apply IH; [by eapply at_after|].
    rewrite after_last; [by apply prev_ends_operand|]. left. apply (plain_neutral_bracket t b Hn Hp).
  - intros k n e a ao ts o _ IHa _ IH d fs f Hf _.
    eapply wp_header_group; [exact Hf|by left|apply hdr_paren|done|]. intros f2 Hf2 Hl.
    apply IH; [done|]. by rewrite Hl by (by left).
  - intros k n a ao ts o _ IHa Hne _ IH d fs f Hf He.
    eapply wp_header_group; [exact Hf|by right|rewrite hdr_brack, He; reflexivity|done|].
    intros f2 Hf2 Hl. apply IH; [done|]. by rewrite Hl by (by right).
  - intros k n e ty tyo a ao ts o _ Hty Ha _ Ht. by apply header_literal.
  - intros k n e ty tyo a ao ts o _ Hty _ IHa _ IH d fs f Hf He.
    apply wp_app. eapply wp_mono; [by eapply Hty|]. intros f1 Hf1.
    eapply wp_header_group; [exact Hf1|by left|apply hdr_paren|done|]. intros f2 Hf2 Hl.
    apply IH; [done|]. by rewrite Hl by (by left).
  - intros n e ts o _ IH k d fs f (Hd&Hr&Hm) _. eapply wp_cons; [rewrite Hm; apply hdr_map|].
    apply IH. split_and!; [done|done|]. apply after_m10.
  - intros n a ao ts o _ IHa _ IH k d fs f Hf He.
    eapply wp_header_group; [exact Hf|by right|rewrite hdr_brack, He; reflexivity|done|].
    intros f2 Hf2 _. by apply IH.
  - intros n k d fs f Hf. by apply wp_nil.
  - intros n t b ts o Hn Hp Hc _ IH k d fs f Hf. pose proof Hf as (Hd&Hr&Hm).
    rewrite <- (continues_type t b Hn Hp) in Hc. eapply wp_cons; [rewrite Hm; by apply hdr_type_tok|]. apply IH. by eapply at_after.
  - intros n ts o _ IH k d fs f Hf. pose proof Hf as (Hd&Hr&Hm).
    eapply wp_cons; [rewrite Hm; apply hdr_map|]. apply IH. by eapply at_after.
  - intros n a ao ts o _ IHa _ IH k d fs f Hf.
    eapply wp_header_group; [exact Hf|by right|rewrite hdr_brack, orb_true_r; reflexivity|done|].
    intros f2 Hf2 _. by apply IH.
Qed.

(** ** On the delivered stream *)
Definition unslice (b : BTok) : BTok := match b with RBRACKET_SLICE => RBRACKET | b => b end.

Lemma mapped_feed_all ts f outs f' : feed_all f (map tok_type ts) = (map Some outs, f') ->
  map (fun e => unslice (e_tok e)) (retag (mapped f ts)) = outs.
Proof.
  revert f outs. induction ts as [|t ts IH]; intros f outs; simpl.
  { intros [= E]. by destruct outs. }
  destruct (feed_step f (tok_type t)) as [bt f1] eqn:Ef.
  destruct (feed_all f1 (map tok_type ts)) as [o f2] eqn:Ea. intros [= E <-].
  destruct outs as [|b outs]; [done|]. simpl in E. injection E as -> ->. simpl.
  rewrite (IH f1 outs Ea). f_equal.
  assert (b <> RBRACKET_SLICE) as Hb.
  { intros ->. apply (m10_step_not_slice (f_last f) (f_m10 f) (tok_type t)).
    unfold feed_step in Ef. destruct (m10_step _ _ _). by injection Ef as -> _. }
  unfold retag_tok. destruct (closes_empty f b) eqn:Ec.
  - apply closes_empty_RBRACKET in Ec as ->. destruct (mapped f1 ts) as [|[[? ?] ?] ?]; [done|].
    by destruct (_ && _).
  - by destruct b.
Qed.


Definition body_example : list ascii :=
  list_ascii_of_string "for _, v := range []int{1} { if a[i] > 0 { f(func() { if ok { } }) } }"%string.
Definition literal_in_if_example : list ascii :=
  list_ascii_of_string "if m := map[int]int{ 1: 2 }; ok { }"%string.
Definition control_in_literal_example : list ascii :=
  list_ascii_of_string "for _, f := range []F{ func() { if ok { } } } { }"%string.
Definition func_literal_type_example : list ascii :=
  list_ascii_of_string "for _, f := range []func(){ f } { }"%string.

Definition is_brace (b : BTok) : bool :=
  match b with LBRACE | LBRACE_BODY | RBRACE => true | _ => false end.

(** The braces of a text as the parser sees them. *)
Definition braces_of (src : list ascii) : option (list BTok) :=
  option_map (fun es => List.filter is_brace (map e_tok es)) (parse_input_stream src).


(** where the marking fails.  The colon of a [map] literal at the level of an [if] header is
    taken for the end of a guard, so the body brace of that [if] comes out plain; and inside a
    literal at header level every brace is plain, also the body brace of a control statement of
    a function literal there; and a literal whose element type is a function type has its own
    brace taken for the body of the loop. *)
Theorem body_braces_missed :
  braces_of literal_in_if_example = Some [LBRACE; RBRACE; LBRACE; RBRACE] /\
  braces_of control_in_literal_example =
    Some [LBRACE; LBRACE; LBRACE; RBRACE; RBRACE; RBRACE; LBRACE_BODY; RBRACE] /\
  braces_of func_literal_type_example = Some [LBRACE_BODY; RBRACE; LBRACE; RBRACE].
Proof. split_and!; vm_compute; reflexivity. Qed.
