(* ===== verification/Monomorph.v ===== *)
(** * Monomorph: instances of generic and comptime functions ([src/codegen/monomorphize.c]).

    A generic function is emitted once per tuple of type arguments and comptime values under a
    mangled symbol.  [mono_instantiate] and [comptime_instantiate] walk the calls of a template's
    body, instantiate what those need first, and then emit the template; a list of symbols seen
    so far stops recursion and repetition, a cap stops runaway recursion.

    The body of a template is the list of its generic calls as [collect_generic_calls] returns
    it.  Emission itself is LLVM code generation: it is the parameter [generate], which says
    whether emitting a symbol succeeds.  The state is what the walk reads and writes: the seen
    list, the count, and the functions of the LLVM module. *)
From Stdlib Require Import ZArith Lia String Bool.
From stdpp Require Import base list numbers option gmap strings pretty.
From S2P Require Import Prelude Types.

#[local] Open Scope string_scope.
#[local] Open Scope Z_scope.

(** ** Symbols *)
Fixpoint codegen_type_mangle_token (t : ty) : string :=
  match t with
  | NULL => "void"
  | TPointer _ p => "ptr_" +:+ codegen_type_mangle_token p
  | TSlice _ e => "slice_" +:+ codegen_type_mangle_token e
  | _ => match type_receiver_name t with Some n => n | None => type_to_string t end
  end.

Definition codegen_mangle_instance (base : string) (args : list ty) : string :=
  foldl (fun out t => out +:+ "__" +:+ codegen_type_mangle_token t) base args.

Definition codegen_mangle_comptime_instance (base : string) (values : list Z) : string :=
  foldl (fun out v => out +:+ "__n" +:+ pretty v) base values.

Definition codegen_mangle_combined_instance (base : string) (targs : list ty) (values : list Z) :=
  codegen_mangle_comptime_instance (codegen_mangle_instance base targs) values.

Definition codegen_pkg_mangled_symbol (pkg base : string) : option string :=
  match pkg with
  | "" => None
  | _ => Some ("goo_pkg__" +:+ pkg +:+ "__" +:+ base)
  end.

Fixpoint type_param_inside (t : ty) : bool :=
  match t with
  | TParam _ _ _ _ => true
  | TSlice _ e => type_param_inside e
  | TPointer _ p => type_param_inside p
  | TFunction _ ps r _ _ => existsb type_param_inside ps || type_param_inside r
  | _ => false
  end.

Definition args_contain_typeparam (args : list ty) : bool := existsb type_param_inside args.

(** ** Templates *)
(** A collected call: the callee's identifier (if the callee is one), and the type and comptime
    arguments the checker recorded; a call with neither is not collected. *)
Record Call : Set := mkCall {
  callee : option string;
  type_args : list ty;
  comptime_value_args : list Z
}.

(** The variable of a function: [decl] are the calls of its body ([func_decl_node]). *)
Record FnVar : Set := mkFnVar {
  fv_name : string;
  fv_generic : bool;
  fv_decl : option (list Call);
  fv_owner_pkg : option string
}.

(** [fn->generic_decl] is set, together with [func_decl_node], for generic functions only. *)
Definition generic_decl (v : FnVar) : option (list Call) :=
  if fv_generic v then fv_decl v else None.

Record MonoState : Set := mkMono {
  seen : list string;
  stamped_count : Z;
  module_fns : list string
}.

Definition MONO_INSTANTIATION_CAP : Z := 4096.

(** Present in the module or in flight. *)
Definition present (st : MonoState) (sym : string) : bool :=
  bool_decide (sym ∈ module_fns st) || bool_decide (sym ∈ seen st).

Definition mark (st : MonoState) (sym : string) : MonoState :=
  mkMono (sym :: seen st) (stamped_count st + 1) (module_fns st).

Definition emit (st : MonoState) (sym : string) : MonoState :=
  mkMono (seen st) (stamped_count st) (sym :: module_fns st).

(** [Some (ok, st)], or [None] when the fuel is used up. *)
Abbreviation MonoResult := (option (bool * MonoState)).

(** [for (x = list; x && ok; x = x->next)] *)
Definition while_ok {A} (step : A -> MonoState -> MonoResult) :=
  fix go (xs : list A) (st : MonoState) : MonoResult :=
    match xs with
    | [] => Some (true, st)
    | x :: xs =>
        match step x st with
        | Some (true, st') => go xs st'
        | r => r
        end
    end.

Section monomorphize.
Context (lookup : string -> option FnVar) (generate : string -> bool).

(** Declaring the function precedes its body, so it is in the module even if that fails. *)
Definition codegen_generate_function_instance (sym : string) (st : MonoState) : bool * MonoState :=
  (generate sym, emit st sym).

(** What the two instantiators share: look the symbol up, check the cap, mark it, walk the
    nested calls, emit. *)
Definition instantiate (sym : string) (body : list Call)
    (step : Call -> MonoState -> MonoResult) (st : MonoState) : MonoResult :=
  if present st sym then Some (true, st) else
  if MONO_INSTANTIATION_CAP <=? stamped_count st then Some (false, st) else
  match while_ok step body (mark st sym) with
  | Some (true, st') => Some (codegen_generate_function_instance sym st')
  | r => r
  end.

Definition mono_symbol (v : FnVar) (args : list ty) (values : list Z) : string :=
  match values with
  | [] => codegen_mangle_instance (fv_name v) args
  | _ => codegen_mangle_combined_instance (fv_name v) args values
  end.

Definition comptime_symbol (v : FnVar) (values : list Z) : option string :=
  match fv_owner_pkg v with
  | Some p => match codegen_pkg_mangled_symbol p (fv_name v) with
              | Some b => Some (codegen_mangle_comptime_instance b values)
              | None => None
              end
  | None => Some (codegen_mangle_comptime_instance (fv_name v) values)
  end.

(** What a nested call asks for. *)
Inductive Request : Set :=
| NoRequest
| MonoRequest (v : FnVar) (args : list ty) (values : list Z)
| ComptimeRequest (v : FnVar) (values : list Z).

(** The arguments after substitution, if they are all there and concrete. *)
Definition concrete_args (targs args : list ty) : option (list ty) :=
  let resolved := map (fun t => type_substitute t args) targs in
  if existsb is_NULL resolved || args_contain_typeparam resolved then None else Some resolved.

Definition nested_request (resolve : list ty -> option (list ty)) (c : Call) : Request :=
  match callee c with
  | None => NoRequest
  | Some name =>
    match lookup name with
    | None => NoRequest
    | Some v =>
      match type_args c, comptime_value_args c with
      | [], [] => NoRequest
      | [], (_ :: _) as values =>
          match fv_decl v with Some _ => ComptimeRequest v values | None => NoRequest end
      | targs, values =>
          match generic_decl v, resolve targs with
          | Some _, Some r => MonoRequest v r values
          | _, _ => NoRequest
          end
      end
    end
  end.

(** A generic template substitutes its own arguments, a comptime-only one takes the recorded
    ones if they are concrete. *)
Definition mono_nested (args : list ty) (c : Call) : Request :=
  nested_request (fun targs => concrete_args targs args) c.

Definition comptime_nested (c : Call) : Request :=
  nested_request (fun targs => if args_contain_typeparam targs then None else Some targs) c.

Fixpoint mono_instantiate (fuel : nat) (v : FnVar) (args : list ty) (values : list Z)
    (st : MonoState) : MonoResult :=
  match fuel, generic_decl v with
  | S fuel, Some body =>
      instantiate (mono_symbol v args values) body
        (fun c st =>
           match mono_nested args c with
           | NoRequest => Some (true, st)
           | MonoRequest v' args' values' => mono_instantiate fuel v' args' values' st
           | ComptimeRequest v' values' => comptime_instantiate fuel v' values' st
           end) st
  | _, _ => None
  end
with comptime_instantiate (fuel : nat) (v : FnVar) (values : list Z) (st : MonoState)
    : MonoResult :=
  match fuel, fv_decl v with
  | O, _ => None
  | S _, None => Some (true, st)
  | S fuel, Some body =>
      match comptime_symbol v values with
      | None => Some (false, st)
      | Some sym =>
        instantiate sym body
          (fun c st =>
             match comptime_nested c with
             | NoRequest => Some (true, st)
             | MonoRequest v' args' values' => mono_instantiate fuel v' args' values' st
             | ComptimeRequest v' values' => comptime_instantiate fuel v' values' st
             end) st
      end
  end.

(** The driver: concrete generic seeds first, then the comptime seeds; [no_errors] is
    [codegen->error_count == 0] at the end. *)
Record MonoSeed : Set := mkSeed { seed_fn : FnVar; seed_args : list ty; seed_values : list Z }.

Definition codegen_monomorphize (fuel : nat) (generics : list MonoSeed)
    (comptimes : list (FnVar * list Z)) (functions : list string) (no_errors : bool) : MonoResult :=
  let st := mkMono [] 0 functions in
  let generic (s : MonoSeed) st :=
    if args_contain_typeparam (seed_args s) then Some (true, st)
    else mono_instantiate fuel (seed_fn s) (seed_args s) (seed_values s) st in
  let comptime (s : FnVar * list Z) st := comptime_instantiate fuel s.1 s.2 st in
  match while_ok generic generics st with
  | Some (true, st') =>
      match while_ok comptime comptimes st' with
      | Some (ok, st'') => Some (ok && no_errors, st'')
      | None => None
      end
  | r => r
  end.
End monomorphize.
