(* ===== verification/MonomorphFacts.v ===== *)
(** * MonomorphFacts: what the instantiation walk of [Monomorph] guarantees.

    It ends on every program (the cap stops polymorphic recursion); it emits each instance once;
    and when it succeeds and no two reachable instances share a symbol, every instance a reachable
    call needs is there.  Symbols are distinct for types built by pointers and slices over
    distinctly named leaves, and not beyond. *)
From Stdlib Require Import ZArith Lia String Bool.
From stdpp Require Import base list numbers option gmap strings pretty.
From S2P Require Import Prelude Types Monomorph.

#[local] Open Scope Z_scope.

(** ** How the state grows *)
(** [st'] comes from [st] by marking [ns] and emitting [es]; when everything went well, all that
    was started is emitted. *)
Definition grows (ok : bool) (st st' : MonoState) : Prop :=
  exists ns es, seen st' = ns ++ seen st /\ module_fns st' = es ++ module_fns st /\
    stamped_count st' = stamped_count st + Z.of_nat (List.length ns) /\
    NoDup ns /\ NoDup es /\ es ⊆ ns /\ Forall (fun x => present st x = false) ns /\
    (stamped_count st' <= Z.max (stamped_count st) MONO_INSTANTIATION_CAP) /\
    (ok = true -> ns ⊆ es).

Lemma grows_refl ok st : grows ok st st.
Proof.
  exists [], []. simpl.
  repeat match goal with |- _ /\ _ => split end; try done; try lia.
  all: first [apply NoDup_nil_2|by apply Forall_nil].
Qed.

Lemma present_false st x : present st x = false <-> (x ∉ module_fns st) /\ (x ∉ seen st).
Proof. unfold present. rewrite orb_false_iff, !bool_decide_eq_false. done. Qed.

Lemma grows_trans ok st1 st2 st3 : grows true st1 st2 -> grows ok st2 st3 -> grows ok st1 st3.
Proof.
  intros (ns1 & es1 & Hs1 & Hm1 & Hc1 & Hn1 & He1 & Hi1 & Hp1 & Hb1 & Ho1).
  intros (ns2 & es2 & Hs2 & Hm2 & Hc2 & Hn2 & He2 & Hi2 & Hp2 & Hb2 & Ho2).
  rewrite Forall_forall in Hp1, Hp2. setoid_rewrite present_false in Hp1.
  setoid_rewrite present_false in Hp2. rewrite Hs1, Hm1 in Hp2.
  exists (ns2 ++ ns1)%list, (es2 ++ es1)%list. rewrite length_app.
  split; [by rewrite Hs2, Hs1, app_assoc|]. split; [by rewrite Hm2, Hm1, app_assoc|].
  split; [lia|]. rewrite !NoDup_app.
  split; [split; [done|split; [|done]]; intros x Hx; by set_solver|].
  split; [split; [done|split; [|done]]; intros x Hx; by set_solver|].
  split; [set_solver|]. split.
  { rewrite Forall_forall. intros x [Hx|Hx]%elem_of_app; apply present_false; [set_solver|by apply Hp1]. }
  split; [lia|]. intros Hok. specialize (Ho1 eq_refl). specialize (Ho2 Hok). set_solver.
Qed.

Lemma while_ok_grows {A} (step : A -> MonoState -> MonoResult) xs :
  (forall x st ok st', step x st = Some (ok, st') -> grows ok st st') ->
  forall st ok st', while_ok step xs st = Some (ok, st') -> grows ok st st'.
Proof.
  intros Hs. induction xs as [|x xs IH]; intros st ok st'; simpl.
  - injection 1 as <- <-. apply grows_refl.
  - destruct (step x st) as [[[] st1]|] eqn:E; [|by injection 1 as <- <-; apply (Hs x)|done].
    intros Hw. eapply grows_trans; [by apply (Hs x)|by apply IH].
Qed.

Lemma while_ok_map {A B} (f : A -> B) (step : B -> MonoState -> MonoResult) xs st :
  while_ok (fun x => step (f x)) xs st = while_ok step (map f xs) st.
Proof.
  revert st. induction xs as [|x xs IH]; intros st; simpl; [done|].
  by destruct (step (f x) st) as [[[] st']|].
Qed.

Lemma while_ok_app {A} (step : A -> MonoState -> MonoResult) xs ys st :
  while_ok step (xs ++ ys) st =
  match while_ok step xs st with Some (true, st') => while_ok step ys st' | r => r end.
Proof.
  revert st. induction xs as [|x xs IH]; intros st; simpl; [done|].
  by destruct (step x st) as [[[] st']|].
Qed.

(** ** One function for both instantiators *)
Section facts.
Context (lookup : string -> option FnVar) (generate : string -> bool).

Definition run (fuel : nat) (r : Request) (st : MonoState) : MonoResult :=
  match r with
  | NoRequest => Some (true, st)
  | MonoRequest v args values => mono_instantiate lookup generate fuel v args values st
  | ComptimeRequest v values => comptime_instantiate lookup generate fuel v values st
  end.

(** The symbol and the body behind a request, if it has both. *)
Definition target (r : Request) : option (string * list Call) :=
  match r with
  | NoRequest => None
  | MonoRequest v args values =>
      match generic_decl v with Some b => Some (mono_symbol v args values, b) | None => None end
  | ComptimeRequest v values =>
      match fv_decl v, comptime_symbol v values with
      | Some b, Some s => Some (s, b)
      | _, _ => None
      end
  end.

Definition nested (r : Request) (c : Call) : Request :=
  match r with
  | NoRequest => NoRequest
  | MonoRequest _ args _ => mono_nested lookup args c
  | ComptimeRequest _ _ => comptime_nested lookup c
  end.

(** A generic request names a template with a declaration. *)
Definition request_ok (r : Request) : Prop :=
  match r with MonoRequest v _ _ => generic_decl v <> None | _ => True end.

Lemma nested_ok r c : request_ok (nested r c).
Proof.
  assert (H : forall resolve, request_ok (nested_request lookup resolve c)).
  { intros resolve. unfold nested_request. destruct (callee c); [|done].
    destruct (lookup s) as [v|]; [|done].
    destruct (type_args c), (comptime_value_args c);
      repeat case_match; cbn [request_ok]; try exact I; congruence. }
  destruct r; [done|apply H..].
Qed.

Lemma while_ok_ext {A} (f g : A -> MonoState -> MonoResult) xs st :
  (forall x st, f x st = g x st) -> while_ok f xs st = while_ok g xs st.
Proof.
  intros H. revert st. induction xs as [|x xs IH]; intros st; simpl; [done|].
  rewrite H. by destruct (g x st) as [[[] st']|].
Qed.

Lemma instantiate_ext sym body f g st : (forall x st, f x st = g x st) ->
  instantiate generate sym body f st = instantiate generate sym body g st.
Proof. intros H. unfold instantiate. by rewrite (while_ok_ext f g). Qed.

(** With a target, a request is an instantiation; without one nothing changes. *)
Lemma run_unfold fuel r st sym body : target r = Some (sym, body) ->
  run (S fuel) r st = instantiate generate sym body (fun c => run fuel (nested r c)) st.
Proof.
  destruct r; simpl; [done| |].
  - destruct (generic_decl v) as [b|]; [|done]. injection 1 as <- <-.
    apply instantiate_ext. intros c st'. by destruct (mono_nested lookup args c).
  - destruct (fv_decl v) as [b|]; [|done]. destruct (comptime_symbol v values); [|done].
    injection 1 as <- <-. apply instantiate_ext. intros c st'. by destruct (comptime_nested lookup c).
Qed.

Lemma run_no_target fuel r st : target r = None -> request_ok r ->
  exists ok, run (S fuel) r st = Some (ok, st).
Proof.
  destruct r; simpl; [by eexists| |].
  - by destruct (generic_decl v).
  - intros Ht _. destruct (fv_decl v); [|by eexists].
    destruct (comptime_symbol v values); [done|by eexists].
Qed.

Lemma instantiate_grows sym body step st ok st' :
  (forall x st ok st', step x st = Some (ok, st') -> grows ok st st') ->
  instantiate generate sym body step st = Some (ok, st') -> grows ok st st'.
Proof.
  intros Hs. unfold instantiate. destruct (present st sym) eqn:Hp.
  { injection 1 as <- <-. apply grows_refl. }
  destruct (Z.leb_spec MONO_INSTANTIATION_CAP (stamped_count st)) as [|Hcap].
  { injection 1 as <- <-. apply grows_refl. }
  assert (Hcommon : forall ok1 st1, grows ok1 (mark st sym) st1 ->
    exists ns es, seen st1 = ns ++ [sym] ++ seen st /\ module_fns st1 = es ++ module_fns st /\
      stamped_count st1 = stamped_count st + 1 + Z.of_nat (List.length ns) /\
      NoDup (ns ++ [sym]) /\ NoDup (sym :: es) /\ es ⊆ ns /\
      Forall (fun x => present st x = false) (ns ++ [sym]) /\
      stamped_count st1 <= MONO_INSTANTIATION_CAP /\ (ok1 = true -> ns ⊆ es)).
  { intros ok1 st1 (ns & es & H1 & H2 & H3 & H4 & H5 & H6 & H7 & H8 & H9). exists ns, es.
    rewrite Forall_forall in H7. setoid_rewrite present_false in H7. simpl in *.
    split; [done|]. split; [done|]. split; [lia|].
    split; [apply NoDup_app; repeat split; [done|set_solver|apply NoDup_singleton]|].
    split; [constructor; [set_solver|done]|]. split; [done|].
    split; [|split; [lia|done]]. apply Forall_app. split; [|by apply Forall_singleton].
    rewrite Forall_forall. intros x Hx. apply present_false. set_solver. }
  destruct (while_ok step body (mark st sym)) as [[[] st1]|] eqn:E; [| |done].
  - unfold codegen_generate_function_instance. injection 1 as <- <-.
    apply (while_ok_grows _ _ Hs) in E.
    destruct (Hcommon _ _ E) as (ns & es & H1 & H2 & H3 & H4 & H5 & H6 & H7 & H8 & H9).
    exists (ns ++ [sym])%list, (sym :: es). rewrite length_app. simpl.
    rewrite H1, H2, <- app_assoc. specialize (H9 eq_refl).
    repeat match goal with |- _ /\ _ => split end; try done; try lia; set_solver.
  - injection 1 as <- <-. apply (while_ok_grows _ _ Hs) in E.
    destruct (Hcommon _ _ E) as (ns & es & H1 & H2 & H3 & H4 & H5 & H6 & H7 & H8 & H9).
    exists (ns ++ [sym])%list, es. rewrite length_app. simpl. rewrite H1, H2, <- app_assoc.
    apply NoDup_cons in H5 as [_ H5].
    repeat match goal with |- _ /\ _ => split end; try done; try lia; set_solver.
Qed.

Lemma run_grows fuel r st ok st' : run fuel r st = Some (ok, st') -> grows ok st st'.
Proof.
  revert r st ok st'. induction fuel as [|fuel IH]; intros r st ok st'.
  { destruct r; simpl; try done. injection 1 as <- <-. apply grows_refl. }
  destruct (target r) as [[sym body]|] eqn:Ht.
  - rewrite (run_unfold _ _ _ _ _ Ht). apply instantiate_grows. intros x. apply IH.
  - destruct r as [|v args values|v values]; simpl in *.
    + injection 1 as <- <-. apply grows_refl.
    + by destruct (generic_decl v).
    + destruct (fv_decl v); [|by injection 1 as <- <-; apply grows_refl].
      destruct (comptime_symbol v values); [done|]. injection 1 as <- <-. apply grows_refl.
Qed.

(** ** Termination *)
(** Marks are counted and capped, so the walk is never deeper than the cap. *)
Definition budget (st : MonoState) : nat := Z.to_nat (MONO_INSTANTIATION_CAP - stamped_count st).

Lemma while_ok_total {A} (step : A -> MonoState -> MonoResult) fuel xs :
  (forall x st ok st', step x st = Some (ok, st') -> grows ok st st') ->
  (forall x st, (budget st < fuel)%nat -> step x st <> None) ->
  forall st, (budget st < fuel)%nat -> while_ok step xs st <> None.
Proof.
  intros Hg Hs. induction xs as [|x xs IH]; intros st Hb; simpl; [done|].
  pose proof (Hs x st Hb) as Hx. destruct (step x st) as [[[] st']|] eqn:E; try done.
  apply IH. apply Hg in E as (ns & es & _ & _ & Hc & _). unfold budget in *. lia.
Qed.

Lemma run_total fuel r st : request_ok r -> (budget st < fuel)%nat -> run fuel r st <> None.
Proof.
  revert r st. induction fuel as [|fuel IH]; intros r st Hr Hb; [lia|].
  destruct (target r) as [[sym body]|] eqn:Ht;
    [|destruct (run_no_target fuel r st Ht Hr) as [ok ->]; done].
  rewrite (run_unfold _ _ _ _ _ Ht). unfold instantiate.
  destruct (present st sym); [done|].
  destruct (Z.leb_spec MONO_INSTANTIATION_CAP (stamped_count st)) as [|Hcap]; [done|].
  assert (Hw : while_ok (fun c => run fuel (nested r c)) body (mark st sym) <> None).
  { apply (while_ok_total _ fuel); [intros c; apply run_grows|intros c st'; apply IH, nested_ok|].
    unfold budget in *. simpl. lia. }
  by destruct (while_ok _ _ _) as [[[] st1]|].
Qed.

(** ** Completeness *)
(** The instances the seeds lead to. *)
Inductive reachable (seeds : Request -> Prop) : Request -> Prop :=
| reach_seed r : seeds r -> reachable seeds r
| reach_nested r sym body c :
    reachable seeds r -> target r = Some (sym, body) -> In c body -> reachable seeds (nested r c).

Definition symbol_of (r : Request) : option string := fst <$> target r.

Context (seeds : Request -> Prop) (functions : list string).
Abbreviation R := (reachable seeds).

(** No two reachable instances have one symbol, and no function of the program has it. *)
Hypothesis distinct : forall r1 r2 s,
  R r1 -> R r2 -> symbol_of r1 = Some s -> symbol_of r2 = Some s -> r1 = r2.
Hypothesis fresh : forall r s, R r -> symbol_of r = Some s -> s ∉ functions.

(** All that a finished instance calls is in flight or done. *)
Definition closed (flight : list string) (st : MonoState) : Prop :=
  (forall s, s ∈ module_fns st -> s ∈ functions \/ s ∈ seen st) /\
  forall r s sym body c s', s ∈ seen st -> s ∉ flight -> R r -> target r = Some (sym, body) ->
    sym = s -> In c body -> symbol_of (nested r c) = Some s' -> s' ∈ seen st.

Lemma walk_closed flight fuel :
  (forall r st st', R r -> closed flight st -> run fuel r st = Some (true, st') ->
     closed flight st' /\ forall s, symbol_of r = Some s -> s ∈ seen st') ->
  forall rs st st', (forall r, In r rs -> R r) -> closed flight st ->
    while_ok (run fuel) rs st = Some (true, st') ->
    closed flight st' /\ forall r s, In r rs -> symbol_of r = Some s -> s ∈ seen st'.
Proof.
  intros Hs rs. induction rs as [|r rs IH]; intros st st' Hr Hc; simpl.
  { injection 1 as <-. by split. }
  destruct (run fuel r st) as [[[] st1]|] eqn:E; try done. intros Hw.
  destruct (Hs r st st1) as [Hc1 Hp1]; [apply Hr; by left|done|done|].
  destruct (IH st1 st') as [Hc2 Hp2]; [intros r' Hr'; apply Hr; by right|done|done|].
  split; [done|]. intros r' s [<-|Hin] Hsym; [|by eapply Hp2].
  apply while_ok_grows in Hw as (ns & es & Hseen & _); [|intros; by eapply run_grows].
  rewrite Hseen. apply elem_of_app. right. by apply Hp1.
Qed.

Lemma run_closed fuel r flight st st' : R r -> closed flight st ->
  run fuel r st = Some (true, st') ->
  closed flight st' /\ forall s, symbol_of r = Some s -> s ∈ seen st'.
Proof.
  revert r flight st st'. induction fuel as [|fuel IH]; intros r flight st st' Hr Hc Hrun.
  { destruct r; try done. injection Hrun as <-. by split. }
  destruct (target r) as [[sym body]|] eqn:Ht.
  2: { assert (st' = st) as ->.
       { destruct r as [|v args values|v values]; simpl in *; [congruence| |].
         - by destruct (generic_decl v).
         - destruct (fv_decl v); [|congruence]. by destruct (comptime_symbol v values). }
       split; [done|]. unfold symbol_of. by rewrite Ht. }
  assert (Hsym : symbol_of r = Some sym) by (unfold symbol_of; by rewrite Ht).
  rewrite (run_unfold _ _ _ _ _ Ht) in Hrun. unfold instantiate in Hrun. rewrite Hsym.
  destruct (present st sym) eqn:Hp.
  { injection Hrun as <-. split; [done|]. intros s [= <-].
    unfold present in Hp. apply orb_true_iff in Hp as [Hp|Hp]; apply bool_decide_eq_true in Hp; [|done].
    apply (proj1 Hc) in Hp as [Hf|]; [|done]. by destruct (fresh _ _ Hr Hsym). }
  destruct (Z.leb_spec MONO_INSTANTIATION_CAP (stamped_count st)) as [|Hcap]; [done|].
  rewrite (while_ok_map (nested r)) in Hrun.
  destruct (while_ok _ _ (mark st sym)) as [[[] st1]|] eqn:Hw; try done.
  unfold codegen_generate_function_instance in Hrun. injection Hrun as Hgen <-.
  assert (Hcm : closed (sym :: flight) (mark st sym)).
  { split; [intros s Hs; destruct (proj1 Hc s Hs); simpl; set_solver|].
    intros r' s sym' body' c s' Hs Hf HR' Ht' <- Hin Hs'. simpl in *.
    apply elem_of_cons. right. eapply (proj2 Hc); [| |exact HR'|exact Ht'|done|exact Hin|exact Hs'];
      set_solver. }
  assert (Hreach : forall r', In r' (map (nested r) body) -> R r').
  { intros r' (c & <- & Hin)%in_map_iff. by eapply reach_nested. }
  destruct (walk_closed (sym :: flight) fuel (fun r' => IH r' (sym :: flight))
              _ _ _ Hreach Hcm Hw) as [Hc1 Hp1].
  assert (Hin : sym ∈ seen st1).
  { apply while_ok_grows in Hw as (ns & es & Hseen & _); [|intros; by eapply run_grows].
    rewrite Hseen. simpl. set_solver. }
  split; [|intros s [= <-]; done]. split.
  - intros s Hs. simpl in Hs. apply elem_of_cons in Hs as [->|Hs]; [by right|]. by apply (proj1 Hc1).
  - intros r' s sym' body' c s' Hs Hf HR' Ht' <- Hinb Hs'. simpl in *.
    destruct (decide (sym' = sym)) as [->|Hne].
    + assert (r' = r) as -> by (eapply distinct; [done|done| |exact Hsym]; unfold symbol_of; by rewrite Ht').
      rewrite Ht in Ht'. injection Ht' as <-. eapply Hp1; [by apply in_map|done].
    + eapply (proj2 Hc1); [exact Hs| |exact HR'|exact Ht'|done|exact Hinb|exact Hs'].
      set_solver.
Qed.
End facts.

(** ** The driver *)
Definition seed_requests (generics : list MonoSeed) (comptimes : list (FnVar * list Z)) : list Request :=
  map (fun s => if args_contain_typeparam (seed_args s) then NoRequest
                else MonoRequest (seed_fn s) (seed_args s) (seed_values s)) generics ++
  map (fun s => ComptimeRequest s.1 s.2) comptimes.

Definition mono_start (functions : list string) : MonoState := mkMono [] 0 functions.

(** The driver is one walk over the seed requests. *)
Lemma monomorphize_run lookup generate fuel generics comptimes functions no_errors :
  codegen_monomorphize lookup generate fuel generics comptimes functions no_errors =
  match while_ok (run lookup generate fuel) (seed_requests generics comptimes) (mono_start functions) with
  | Some (ok, st) => Some (ok && no_errors, st)
  | None => None
  end.
Proof.
  unfold codegen_monomorphize, seed_requests. rewrite while_ok_app, <- !while_ok_map.
  rewrite (while_ok_ext _ (fun s => run lookup generate fuel
    (if args_contain_typeparam (seed_args s) then NoRequest
     else MonoRequest (seed_fn s) (seed_args s) (seed_values s)))).
  - destruct (while_ok _ generics _) as [[[] st]|]; try done. by rewrite <- while_ok_map.
  - intros s st. by destruct (args_contain_typeparam (seed_args s)).
Qed.

(** ** Symbols of types *)
(** The pointer (true) and slice (false) wrappers of a type, and the token of what is inside. *)
Fixpoint spine (t : ty) : list bool * string :=
  match t with
  | TPointer _ p => (true :: (spine p).1, (spine p).2)
  | TSlice _ e => (false :: (spine e).1, (spine e).2)
  | _ => ([], codegen_type_mangle_token t)
  end.

Definition wrapper (w : bool) : string := if w then "ptr_" else "slice_".

Fixpoint render (ws : list bool) (leaf : string) : string :=
  match ws with [] => leaf | w :: ws => String.append (wrapper w) (render ws leaf) end.

Lemma token_render t : codegen_type_mangle_token t = render (spine t).1 (spine t).2.
Proof. induction t using ty_ind; simpl; congruence. Qed.

(** The innermost token does not read as a wrapper. *)
Definition leaf_name_ok (s : string) : bool :=
  negb (String.prefix "ptr_" s) && negb (String.prefix "slice_" s).

Lemma prefix_append a s : String.prefix a (String.append a s) = true.
Proof. induction a as [|c a IH]; simpl; [by destruct s|]. by destruct (Ascii.ascii_dec c c). Qed.

Lemma render_leaf w ws l l' : leaf_name_ok l = true -> render (w :: ws) l' <> l.
Proof.
  intros Hl <-. unfold leaf_name_ok in Hl. apply andb_true_iff in Hl as [H1 H2]. simpl render in *.
  destruct w; unfold wrapper in *; by rewrite prefix_append in *.
Qed.

Lemma append_inj a s s' : String.append a s = String.append a s' -> s = s'.
Proof. induction a; simpl; [done|]. injection 1. auto. Qed.

Lemma render_inj ws1 ws2 l1 l2 : leaf_name_ok l1 = true -> leaf_name_ok l2 = true ->
  render ws1 l1 = render ws2 l2 -> ws1 = ws2 /\ l1 = l2.
Proof.
  intros H1 H2. revert ws2. induction ws1 as [|w1 ws1 IH]; intros [|w2 ws2] He.
  - done.
  - symmetry in He. by apply render_leaf in He.
  - by apply render_leaf in He.
  - simpl in He. destruct w1, w2; try discriminate He;
      apply append_inj in He; by apply IH in He as [-> ->].
Qed.

(** * Properties *)

(** C33: monomorphization ends on every program, whatever the templates call: with one more round
    of fuel than the cap there is a result.  Each symbol is emitted at most once, none is a
    function that was already there, at most the cap are emitted, and on success everything that
    was started is emitted. *)
Theorem monomorphize_total lookup generate generics comptimes functions no_errors fuel :
  Forall (fun s => generic_decl (seed_fn s) <> None) generics ->
  MONO_INSTANTIATION_CAP < Z.of_nat fuel ->
  exists ok st es,
    codegen_monomorphize lookup generate fuel generics comptimes functions no_errors = Some (ok, st) /\
    module_fns st = es ++ functions /\ NoDup es /\ es ## functions /\
    Z.of_nat (List.length es) <= MONO_INSTANTIATION_CAP /\
    (ok = true -> forall s, s ∈ seen st -> s ∈ es).
Proof.
  intros Hs Hf. rewrite monomorphize_run.
  assert (Hok : Forall request_ok (seed_requests generics comptimes)).
  { unfold seed_requests. rewrite Forall_app, !Forall_fmap. split.
    - eapply Forall_impl; [exact Hs|]. intros s Hd. simpl.
      by destruct (args_contain_typeparam (seed_args s)).
    - apply Forall_true. done. }
  assert (Hw : while_ok (run lookup generate fuel) (seed_requests generics comptimes)
                 (mono_start functions) <> None).
  { revert Hok. generalize (seed_requests generics comptimes). intros rs Hrs.
    assert (Hb : (budget (mono_start functions) < fuel)%nat) by (unfold budget, MONO_INSTANTIATION_CAP in *; simpl; lia).
    revert Hb. generalize (mono_start functions). induction Hrs as [|r rs Hr _ IH]; intros st Hb; [done|].
    simpl. pose proof (run_total lookup generate fuel r st Hr Hb) as Hn.
    destruct (run _ _ _ _ _) as [[[] st']|] eqn:E; try done. apply IH.
    apply run_grows in E as (ns & es & _ & _ & Hc & _). unfold budget in *. lia. }
  destruct (while_ok _ _ _) as [[ok st]|] eqn:E; [|done].
  apply while_ok_grows in E as (ns & es & H1 & H2 & H3 & H4 & H5 & H6 & H7 & H8 & H9);
    [|intros; by eapply run_grows].
  rewrite Z.max_r in H8 by (by vm_compute). simpl in H1, H2, H3. rewrite app_nil_r in H1.
  exists (ok && no_errors), st, es.
  split; [done|]. split; [done|]. split; [done|]. split; [|split].
  - intros x Hx Hx'. rewrite Forall_forall in H7. apply H6, H7, present_false in Hx. by destruct Hx.
  - apply NoDup_submseteq, submseteq_length in H6; [|done].
    unfold MONO_INSTANTIATION_CAP in *. lia.
  - intros [Hok1 _]%andb_true_iff s Hin. rewrite H1 in Hin. by apply (H9 Hok1).
Qed.

Lemma monomorphize_total_witness :
  let T := type_param "T" 0 NULL in
  let twice := mkFnVar "Twice" true (Some [mkCall (Some "Id") [type_slice T] [];
                                           mkCall (Some "Twice") [T] []]) None in
  let id := mkFnVar "Id" true (Some []) None in
  let lookup := fun n => if String.eqb n "Id" then Some id
                         else if String.eqb n "Twice" then Some twice else None in
  let seeds := [mkSeed twice [type_int 64 true] []] in
  exists es, NoDup es /\ es = ["Twice__int64"; "Id__slice_int64"] /\
    codegen_monomorphize lookup (fun _ => true) 4097 seeds [] ["main"] true =
      Some (true, mkMono ["Id__slice_int64"; "Twice__int64"] 2 (es ++ ["main"])).
Proof.
  intros T twice id lookup seeds.
  assert (E : codegen_monomorphize lookup (fun _ => true) 4097 seeds [] ["main"] true =
    Some (true, mkMono ["Id__slice_int64"; "Twice__int64"] 2
            ["Twice__int64"; "Id__slice_int64"; "main"])) by (by vm_compute).
  destruct (monomorphize_total lookup (fun _ => true) seeds [] ["main"] true 4097)
    as (ok & st & es & Hr & Hm & Hn & _).
  - apply Forall_cons. split; [done|by apply Forall_nil].
  - by vm_compute.
  - exists es. rewrite E in Hr. injection Hr as <- <-. simpl in Hm.
    change ["Twice__int64"; "Id__slice_int64"; "main"]
      with (["Twice__int64"; "Id__slice_int64"] ++ ["main"]) in Hm.
    apply app_inv_tail in Hm as <-. split; [done|]. split; [done|exact E].
Defined.

(** when monomorphization succeeds, every instance reachable from the concrete seeds through
    nested calls is in the module, provided no two reachable instances mangle to one symbol and
    no function of the program has the symbol of one. *)
Theorem monomorphize_complete lookup generate generics comptimes functions fuel st :
  let R := reachable lookup (fun r => In r (seed_requests generics comptimes)) in
  (forall r1 r2 s, R r1 -> R r2 -> symbol_of r1 = Some s -> symbol_of r2 = Some s -> r1 = r2) ->
  (forall r s, R r -> symbol_of r = Some s -> s ∉ functions) ->
  codegen_monomorphize lookup generate fuel generics comptimes functions true = Some (true, st) ->
  forall r s, R r -> symbol_of r = Some s -> s ∈ module_fns st.
Proof.
  intros R Hd Hf Hm. rewrite monomorphize_run in Hm.
  destruct (while_ok _ _ _) as [[ok st']|] eqn:E; [|done].
  destruct ok; [|done]. injection Hm as ->.
  edestruct (walk_closed lookup generate (fun r => In r (seed_requests generics comptimes)) functions
              [] fuel) as [Hc Hp]; [| | |exact E|].
  { intros r s0 s1. by apply run_closed. }
  { intros r Hr. by apply reach_seed. }
  { split; [by left|]. intros r s sym body c s' Hs. simpl in Hs. by apply elem_of_nil in Hs. }
  assert (Hseen : forall r, R r -> forall s, symbol_of r = Some s -> s ∈ seen st).
  { intros r Hr. induction Hr as [r Hr|r sym body c Hr IH Ht Hin]; [by intros; eapply Hp|].
    intros s Hs. eapply (proj2 Hc r sym); [|set_solver|exact Hr|exact Ht|done|exact Hin|exact Hs].
    apply IH. unfold symbol_of. by rewrite Ht. }
  apply while_ok_grows in E as (ns & es & H1 & H2 & _ & _ & _ & _ & _ & _ & H9);
    [|intros; by eapply run_grows].
  intros r s Hr Hs. rewrite H2. apply elem_of_app. left. apply (H9 eq_refl).
  pose proof (Hseen r Hr s Hs) as Hin. rewrite H1 in Hin. simpl in Hin. by rewrite app_nil_r in Hin.
Qed.

Lemma monomorphize_complete_witness :
  let T := type_param "T" 0 NULL in
  let twice := mkFnVar "Twice" true (Some [mkCall (Some "Id") [type_slice T] [];
                                           mkCall (Some "Twice") [T] []]) None in
  let id := mkFnVar "Id" true (Some []) None in
  let lookup := fun n => if String.eqb n "Id" then Some id
                         else if String.eqb n "Twice" then Some twice else None in
  let seeds := [mkSeed twice [type_int 64 true] []] in
  exists st,
    codegen_monomorphize lookup (fun _ => true) 10 seeds [] ["main"] true = Some (true, st) /\
    "Id__slice_int64" ∈ module_fns st.
Proof.
  intros T twice id lookup seeds. eexists. split; [vm_compute; reflexivity|].
  assert (Hr : forall r, reachable lookup (fun r => In r (seed_requests seeds [])) r ->
    r = MonoRequest twice [type_int 64 true] [] \/ r = MonoRequest id [type_slice (type_int 64 true)] []).
  { induction 1 as [r [<-|[]]|r sym body c _ IH Ht Hin]; [by left|].
    destruct IH as [->| ->]; injection Ht as <- <-; simpl in Hin; [|done].
    destruct Hin as [<-|[<-|[]]]; [by right|by left]. }
  refine (monomorphize_complete lookup (fun _ => true) seeds [] ["main"] 10 _ _ _ _
            (MonoRequest id [type_slice (type_int 64 true)] []) _ _ eq_refl).
  - intros r1 r2 s [->| ->]%Hr [->| ->]%Hr [= <-]; done.
  - intros r s [->| ->]%Hr [= <-]; apply (bool_decide_unpack _); by vm_compute.
  - vm_compute. reflexivity.
  - apply (reach_nested lookup _ (MonoRequest twice [type_int 64 true] []) "Twice__int64"
             [mkCall (Some "Id") [type_slice T] []; mkCall (Some "Twice") [T] []]
             (mkCall (Some "Id") [type_slice T] [])); [|done|by left].
    apply reach_seed. by left.
Defined.

(** the symbol token of a type determines its pointer and slice wrappers and the token of the
    type inside, when the tokens inside do not themselves begin with a wrapper's prefix. *)
Theorem mangle_token_injective t u :
  leaf_name_ok (spine t).2 = true -> leaf_name_ok (spine u).2 = true ->
  codegen_type_mangle_token t = codegen_type_mangle_token u -> spine t = spine u.
Proof.
  intros Ht Hu He. rewrite !token_render in He. apply render_inj in He as [H1 H2]; [|done|done].
  destruct (spine t), (spine u); simpl in *; congruence.
Qed.

Lemma mangle_token_injective_witness :
  let t := type_pointer (type_slice (type_int 32 true)) in
  spine t = spine (TPointer hdr0 (TSlice hdr0 (type_int 32 true))).
Proof. intros t. apply (mangle_token_injective t); by vm_compute. Defined.

(** symbols collide.  Any two enums, any two interfaces, and arrays or channels of any two
    structs share a token, as do [*int64] and a struct called [ptr_int64]; and a function of the
    program that has an instance's symbol takes its place: nothing is emitted for the instance. *)
Theorem mangle_token_collisions :
  (forall n n' v v', let enum n v := TEnum hdr0 (Some n) v in
     codegen_mangle_instance "Id" [enum n v] = codegen_mangle_instance "Id" [enum n' v']) /\
  (forall n n' f f' k, let struct n f := TStruct hdr0 (Some n) f in
     codegen_mangle_instance "Id" [type_array (struct n f) k]
       = codegen_mangle_instance "Id" [type_array (struct n' f') k] /\
     codegen_mangle_instance "Id" [type_channel (struct n f) CHAN_PATTERN_BASIC]
       = codegen_mangle_instance "Id" [type_channel (struct n' f') CHAN_PATTERN_BASIC]) /\
  codegen_mangle_instance "Id" [type_pointer (type_int 64 true)]
    = codegen_mangle_instance "Id" [TStruct hdr0 (Some "ptr_int64") 1] /\
  (forall lookup generate fuel v args values st b,
     generic_decl v = Some b -> mono_symbol v args values ∈ module_fns st ->
     mono_instantiate lookup generate (S fuel) v args values st = Some (true, st)).
Proof.
  split; [done|]. split; [done|]. split; [done|].
  intros lookup generate fuel v args values st b Hb Hin. simpl. rewrite Hb.
  unfold instantiate, present. by rewrite bool_decide_eq_true_2.
Qed.
