(* ===== verification/Terminating.v ===== *)
(** * Terminating: the missing-return analysis of [src/types/terminating_stmt.c].

    Statements are the part of the AST the analysis looks at.  A C node pointer is a [stmt]
    ([Null] is the NULL pointer), a [->next]-chained list a [stmts], and a chain of case
    clauses a [clauses]: [headed] says whether the clause's [exprs] / [types] / [comm] field
    is non-NULL, so [headed = false] is the default clause.  All statement kinds that the
    analysis sends to its [default:] branch (declarations, assignments, [defer], [go], ...)
    are [SimpleStmt].  The C code threads [strict] through every function; so does this. *)
From Stdlib Require Import String Bool Lia.
From stdpp Require Import base list strings.
From S2P Require Import Prelude.

(** ** The statement tree (include/ast.h). *)
Inductive expr : Set :=
| ExprNull
| CallExpr (function : expr)
| IdentifierExpr (name : option string)
| OtherExpr.

Inductive stmt : Set :=
| Null
| ReturnStmt
| GotoStmt (label : string)
| ExprStmt (e : expr)
| IfStmt (then_stmt else_stmt : stmt)
| IfLetStmt (then_stmt else_stmt : stmt)
| ForStmt (condition range_expr : bool) (body : stmt)
| SwitchStmt (cases : clauses)
| TypeSwitch (cases : clauses)
| SelectStmt (cases : clauses)
| BlockStmt (statements : stmts)
| ArenaBlock (body : stmt)
| UnsafeStmt (body : stmt)
| ComptimeBlock (body : stmt)
| LabelStmt (name : string) (body : stmt)
| BreakStmt
| ContinueStmt
| BreakLabelStmt (label : string)
| ContinueLabelStmt (label : string)
| FallthroughStmt
| SimpleStmt
with stmts : Set :=
| SNil
| SCons (s : stmt) (next : stmts)
with clauses : Set :=
| NoClause
| Clause (headed : bool) (body : stmts) (next : clauses).

Scheme stmt_mind := Induction for stmt Sort Prop
with stmts_mind := Induction for stmts Sort Prop
with clauses_mind := Induction for clauses Sort Prop.
Combined Scheme stmt_mutind from stmt_mind, stmts_mind, clauses_mind.

Definition is_null (s : stmt) : bool := match s with Null => true | _ => false end.

(** ** Helpers. *)
Fixpoint last_stmt (first : stmts) : stmt :=
  match first with
  | SNil => Null
  | SCons s SNil => s
  | SCons _ rest => last_stmt rest
  end.

Definition is_panic_call_stmt (e : expr) : bool :=
  match e with
  | CallExpr (IdentifierExpr (Some name)) => String.eqb name "panic"
  | _ => false
  end.

(** [while (last && last->type == AST_LABEL_STMT) last = last->stmt] *)
Fixpoint skip_labels (s : stmt) : stmt :=
  match s with LabelStmt _ s' => skip_labels s' | _ => s end.

Definition is_fallthrough (s : stmt) : bool :=
  match s with FallthroughStmt => true | _ => false end.

Definition clause_ends_in_fallthrough (body : stmts) : bool :=
  is_fallthrough (skip_labels (last_stmt body)).

(** ** [break_targets]: does the statement hold a [break] that leaves the construct? *)
Definition names_label (labels : list string) (l : string) : bool := existsb (String.eqb l) labels.

Fixpoint break_targets (s : stmt) (labels : list string) (crossed : bool) : bool :=
  match s with
  | BreakStmt => negb crossed
  | BreakLabelStmt l => names_label labels l
  | BlockStmt ss => break_targets_list ss labels crossed
  | IfStmt a b | IfLetStmt a b => break_targets a labels crossed || break_targets b labels crossed
  | ForStmt _ _ b => break_targets b labels true
  | SwitchStmt cs | TypeSwitch cs | SelectStmt cs => break_targets_clauses cs labels true
  | ArenaBlock b | UnsafeStmt b | ComptimeBlock b => break_targets b labels crossed
  | LabelStmt _ b => break_targets b labels crossed
  | _ => false
  end
with break_targets_list (first : stmts) (labels : list string) (crossed : bool) : bool :=
  match first with
  | SNil => false
  | SCons s rest => break_targets s labels crossed || break_targets_list rest labels crossed
  end
with break_targets_clauses (cs : clauses) (labels : list string) (crossed : bool) : bool :=
  match cs with
  | NoClause => false
  | Clause _ body next =>
      break_targets_list body labels crossed || break_targets_clauses next labels crossed
  end.

Fixpoint has_default (cs : clauses) : bool :=
  match cs with NoClause => false | Clause headed _ next => negb headed || has_default next end.

(** The capacity of [chain] in the label case. *)
Definition LABEL_CHAIN : nat := 8.

(** ** The predicate.  [terminates chasing s labels]: with [chasing] the call is inside the
    label-chain loop of [AST_LABEL_STMT] and [labels] is the chain so far; otherwise [labels]
    are those of the statement itself and a label statement starts a chain of its own.
    [last_terminates] is [stmt_terminates(last_stmt(ss), strict)] (lemma [last_terminates_eq]),
    written as a recursion the kernel accepts. *)
Fixpoint terminates (strict chasing : bool) (s : stmt) (labels : list string) : bool :=
  match s with
  | ReturnStmt | GotoStmt _ => true
  | ExprStmt e => is_panic_call_stmt e
  | IfStmt a b | IfLetStmt a b =>
      negb (is_null b) && terminates strict false a [] && terminates strict false b []
  | ForStmt condition range_expr b =>
      if condition || range_expr then false else negb (break_targets b labels false)
  | SwitchStmt cs =>
      if break_targets_clauses cs labels false then false
      else if negb (has_default cs) then false
      else chains_terminate strict cs
  | TypeSwitch cs =>
      if break_targets_clauses cs labels false then false
      else if negb (has_default cs) then false
      else bodies_terminate strict cs
  | SelectStmt cs => select_clauses_terminate strict cs labels
  | BlockStmt ss => if strict then last_terminates strict ss else any_terminates strict ss
  | ArenaBlock b => terminates strict false b []
  | LabelStmt l b =>
      let chain := if chasing then labels else [] in
      if (length chain =? LABEL_CHAIN)%nat then false else terminates strict true b (chain ++ [l])
  | _ => false
  end
with last_terminates (strict : bool) (ss : stmts) : bool :=
  match ss with
  | SNil => false
  | SCons s SNil => terminates strict false s []
  | SCons _ rest => last_terminates strict rest
  end
with any_terminates (strict : bool) (ss : stmts) : bool :=
  match ss with
  | SNil => false
  | SCons s rest => if terminates strict false s [] then true else any_terminates strict rest
  end
with clause_chain_terminates (strict : bool) (cs : clauses) : bool :=
  match cs with
  | NoClause => false
  | Clause _ body next =>
      if clause_ends_in_fallthrough body then clause_chain_terminates strict next
      else if strict then last_terminates strict body else any_terminates strict body
  end
with chains_terminate (strict : bool) (cs : clauses) : bool :=
  match cs with
  | NoClause => true
  | Clause _ body next =>
      (if clause_ends_in_fallthrough body then clause_chain_terminates strict next
       else if strict then last_terminates strict body else any_terminates strict body)
      && chains_terminate strict next
  end
with bodies_terminate (strict : bool) (cs : clauses) : bool :=
  match cs with
  | NoClause => true
  | Clause _ body next =>
      (if strict then last_terminates strict body else any_terminates strict body)
      && bodies_terminate strict next
  end
with select_clauses_terminate (strict : bool) (cs : clauses) (labels : list string) : bool :=
  match cs with
  | NoClause => true
  | Clause _ body next =>
      if break_targets_list body labels false then false
      else if negb (if strict then last_terminates strict body else any_terminates strict body)
      then false
      else select_clauses_terminate strict next labels
  end.

Definition block_terminates (first : stmts) (strict : bool) : bool :=
  if strict then last_terminates strict first else any_terminates strict first.
Definition stmt_terminates_labeled (s : stmt) (labels : list string) (strict : bool) : bool :=
  terminates strict false s labels.
Definition stmt_terminates (s : stmt) (strict : bool) : bool := stmt_terminates_labeled s [] strict.
Definition switch_terminates (cs : clauses) (labels : list string) (strict : bool) : bool :=
  if break_targets_clauses cs labels false then false
  else if negb (has_default cs) then false else chains_terminate strict cs.
Definition type_switch_terminates (cs : clauses) (labels : list string) (strict : bool) : bool :=
  if break_targets_clauses cs labels false then false
  else if negb (has_default cs) then false else bodies_terminate strict cs.
Definition select_terminates (cs : clauses) (labels : list string) (strict : bool) : bool :=
  select_clauses_terminate strict cs labels.

(** ** [contains_goto] and the entry point. *)
Fixpoint contains_goto (s : stmt) : bool :=
  match s with
  | GotoStmt _ => true
  | BlockStmt ss => contains_goto_list ss
  | IfStmt a b | IfLetStmt a b => contains_goto a || contains_goto b
  | ForStmt _ _ b => contains_goto b
  | SwitchStmt cs | TypeSwitch cs | SelectStmt cs => contains_goto_clauses cs
  | ArenaBlock b | UnsafeStmt b | ComptimeBlock b | LabelStmt _ b => contains_goto b
  | _ => false
  end
with contains_goto_list (first : stmts) : bool :=
  match first with SNil => false | SCons s rest => contains_goto s || contains_goto_list rest end
with contains_goto_clauses (cs : clauses) : bool :=
  match cs with
  | NoClause => false
  | Clause _ body next => contains_goto_list body || contains_goto_clauses next
  end.

Definition stmt_is_terminating (body : stmt) : bool := stmt_terminates body (contains_goto body).

(** ** The C equations the recursive definition satisfies. *)
Lemma last_terminates_eq strict ss :
  last_terminates strict ss = stmt_terminates (last_stmt ss) strict.
Proof. induction ss as [|s [|s' ss] IH]; [done|done|]. exact IH. Qed.

(** The labels of a statement's own chain and the statement under them. *)
Fixpoint unlabel_from (ls : list string) (s : stmt) : list string * stmt :=
  match s with LabelStmt l b => unlabel_from (ls ++ [l]) b | _ => (ls, s) end.
Definition unlabel (s : stmt) : list string * stmt := unlabel_from [] s.

Lemma unlabel_from_inner ls s : (unlabel_from ls s).2 = skip_labels s.
Proof. revert ls. induction s; simpl; intros; auto. Qed.

Lemma unlabel_from_grows ls s : (length ls <= length (unlabel_from ls s).1)%nat.
Proof.
  revert ls. induction s; simpl; intros ls; try lia.
  specialize (IHs (ls ++ [name])). rewrite length_app in IHs. simpl in IHs. lia.
Qed.

Lemma terminates_chase strict s ls : (length ls <= LABEL_CHAIN)%nat ->
  terminates strict true s ls =
    (length (unlabel_from ls s).1 <=? LABEL_CHAIN)%nat
    && stmt_terminates_labeled (unlabel_from ls s).2 (unlabel_from ls s).1 strict.
Proof.
  revert ls. induction s; intros ls Hls;
    try (cbn [unlabel_from fst snd]; apply Nat.leb_le in Hls as ->; reflexivity).
  cbn [unlabel_from]. cbn [terminates]. destruct (Nat.eqb_spec (length ls) LABEL_CHAIN) as [E|E].
  - pose proof (unlabel_from_grows (ls ++ [name]) s) as H. rewrite length_app in H. simpl in H.
    by destruct (Nat.leb_spec (length (unlabel_from (ls ++ [name]) s).1) LABEL_CHAIN); [lia|].
  - apply IHs. rewrite length_app. simpl. lia.
Qed.

(** [case AST_LABEL_STMT]: judged by the whole chain, and never when it exceeds the cap. *)
Lemma stmt_terminates_unlabel strict s :
  stmt_terminates s strict =
    (length (unlabel s).1 <=? LABEL_CHAIN)%nat
    && stmt_terminates_labeled (unlabel s).2 (unlabel s).1 strict.
Proof.
  destruct s; try reflexivity. unfold unlabel. cbn [unlabel_from].
  rewrite <- terminates_chase by (simpl; unfold LABEL_CHAIN; lia). reflexivity.
Qed.
