(* ===== verification/TerminatingSound.v ===== *)
(** * TerminatingSound: a function body accepted by [stmt_is_terminating] never falls off its end.

    The reference semantics is a small-step machine over the same statement tree, in Go's
    sense: [break]/[continue] leave or restart the innermost construct, their labelled forms
    the enclosing construct carrying the label, [fallthrough] enters the next clause, [goto]
    jumps to any statement that carries the label.  Conditions, clause choice and panics of
    expressions are nondeterministic, so the theorem covers every execution.  A jump without
    a target ends in [Rejected]: such programs are refused by other checks of the compiler. *)
From Stdlib Require Import String Bool Lia.
From stdpp Require Import base list strings relations.
From S2P Require Import Prelude Terminating.

(** ** The reference machine. *)
Inductive cont : Set :=
| Kstop
| Kseq (rest : stmts) (k : cont)
| Kloop (labels : list string) (conditional : bool) (body : stmt) (k : cont)
| Kclause (labels : list string) (next : clauses) (k : cont).

Inductive final : Set := Returned | Panicked | Blocked | FellOff | Rejected.

(** [Run s k] starts [s]; [Done k] has completed a statement normally. *)
Inductive config : Set :=
| Run (s : stmt) (k : cont)
| Done (k : cont)
| Final (f : final).

Fixpoint break_to (k : cont) : config :=
  match k with
  | Kstop => Final Rejected
  | Kseq _ k' => break_to k'
  | Kloop _ _ _ k' | Kclause _ _ k' => Done k'
  end.

Fixpoint break_label_to (l : string) (k : cont) : config :=
  match k with
  | Kstop => Final Rejected
  | Kseq _ k' => break_label_to l k'
  | Kloop ls _ _ k' | Kclause ls _ k' => if names_label ls l then Done k' else break_label_to l k'
  end.

Fixpoint continue_to (k : cont) : config :=
  match k with
  | Kstop => Final Rejected
  | Kseq _ k' | Kclause _ _ k' => continue_to k'
  | Kloop _ _ _ _ => Done k
  end.

Fixpoint continue_label_to (l : string) (k : cont) : config :=
  match k with
  | Kstop => Final Rejected
  | Kseq _ k' | Kclause _ _ k' => continue_label_to l k'
  | Kloop ls _ _ k' => if names_label ls l then Done k else continue_label_to l k'
  end.

Fixpoint fall_to (k : cont) : config :=
  match k with
  | Kseq _ k' => fall_to k'
  | Kclause ls (Clause _ b next) k' => Done (Kseq b (Kclause ls next k'))
  | _ => Final Rejected
  end.

(** Entering a clause of a switch ([falls]: its later clauses are fallthrough targets). *)
Fixpoint enter_clauses (falls : bool) (ls : list string) (cs : clauses) (k : cont) : list config :=
  match cs with
  | NoClause => []
  | Clause _ b next =>
      Done (Kseq b (Kclause ls (if falls then next else NoClause) k)) :: enter_clauses falls ls next k
  end.

(** Every statement of [s] labelled [l], with the continuation it has there. *)
Fixpoint positions (l : string) (ls : list string) (whole s : stmt) (k : cont) : list (stmt * cont) :=
  match s with
  | LabelStmt m b => positions l (ls ++ [m]) whole b k
  | _ =>
      (if names_label ls l then [(whole, k)] else []) ++
      match s with
      | BlockStmt ss => positions_list l ss k
      | IfStmt a b | IfLetStmt a b => positions l [] a a k ++ positions l [] b b k
      | ForStmt c r b => positions l [] b b (Kloop ls (c || r) b k)
      | SwitchStmt cs => positions_clauses l true ls cs k
      | TypeSwitch cs | SelectStmt cs => positions_clauses l false ls cs k
      | ArenaBlock b | UnsafeStmt b | ComptimeBlock b => positions l [] b b k
      | _ => []
      end
  end
with positions_list (l : string) (ss : stmts) (k : cont) : list (stmt * cont) :=
  match ss with
  | SNil => []
  | SCons s rest => positions l [] s s (Kseq rest k) ++ positions_list l rest k
  end
with positions_clauses (l : string) (falls : bool) (ls : list string) (cs : clauses) (k : cont)
    : list (stmt * cont) :=
  match cs with
  | NoClause => []
  | Clause _ b next =>
      positions_list l b (Kclause ls (if falls then next else NoClause) k)
      ++ positions_clauses l falls ls next k
  end.

(** A statement freed of its labels [ls]. *)
Definition enter (body : stmt) (ls : list string) (s : stmt) (k : cont) : list config :=
  match s with
  | Null | SimpleStmt => [Done k; Final Panicked]
  | ReturnStmt => [Final Returned]
  | GotoStmt l =>
      match positions l [] body body Kstop with
      | [] => [Final Rejected]
      | ps => map (fun p => Run p.1 p.2) ps
      end
  | ExprStmt e => if is_panic_call_stmt e then [Final Panicked] else [Done k; Final Panicked]
  | IfStmt a b | IfLetStmt a b => [Run a k; Run b k]
  | ForStmt c r b => Run b (Kloop ls (c || r) b k) :: (if c || r then [Done k] else [])
  | SwitchStmt cs => enter_clauses true ls cs k ++ (if has_default cs then [] else [Done k])
  | TypeSwitch cs => enter_clauses false ls cs k ++ (if has_default cs then [] else [Done k])
  | SelectStmt cs => enter_clauses false ls cs k ++ (if has_default cs then [] else [Final Blocked])
  | BlockStmt ss => [Done (Kseq ss k)]
  | ArenaBlock b | UnsafeStmt b | ComptimeBlock b => [Run b k]
  | LabelStmt _ _ => []
  | BreakStmt => [break_to k]
  | BreakLabelStmt l => [break_label_to l k]
  | ContinueStmt => [continue_to k]
  | ContinueLabelStmt l => [continue_label_to l k]
  | FallthroughStmt => [fall_to k]
  end.

Definition successors (body : stmt) (c : config) : list config :=
  match c with
  | Run s k => enter body (unlabel s).1 (unlabel s).2 k
  | Done Kstop => [Final FellOff]
  | Done (Kseq SNil k) => [Done k]
  | Done (Kseq (SCons s rest) k) => [Run s (Kseq rest k)]
  | Done (Kloop ls c b k) => Run b (Kloop ls c b k) :: (if c then [Done k] else [])
  | Done (Kclause _ _ k) => [Done k]
  | Final _ => []
  end.

Definition step (body : stmt) (c c' : config) : Prop := In c' (successors body c).
Definition reaches (body : stmt) : config -> config -> Prop := rtc (step body).

(** ** The invariant: no normal completion reaches the end of the body. *)
Section invariant.
Context (strict : bool).

(** Completing normally into [k] cannot fall off. *)
Fixpoint ok_done (k : cont) : Prop :=
  match k with
  | Kstop => False
  | Kseq ss k' => block_terminates ss strict = true \/ clause_ends_in_fallthrough ss = true \/ ok_done k'
  | Kloop _ c _ k' => c = true -> ok_done k'
  | Kclause _ _ k' => ok_done k'
  end.

(** The breaks [bt] finds leave only constructs whose exit cannot fall off. *)
Fixpoint ok_breaks (bt : list string -> bool -> bool) (crossed : bool) (k : cont) : Prop :=
  match k with
  | Kstop => True
  | Kseq _ k' => ok_breaks bt crossed k'
  | Kloop ls _ _ k' | Kclause ls _ k' =>
      (bt ls crossed = false \/ ok_done k') /\ ok_breaks bt true k'
  end.

Definition goto_checked (has_goto : bool) : Prop := strict = true \/ has_goto = false.

Fixpoint ok_cont (k : cont) : Prop :=
  match k with
  | Kstop => True
  | Kseq ss k' =>
      ok_breaks (break_targets_list ss) false k' /\ goto_checked (contains_goto_list ss) /\ ok_cont k'
  | Kloop ls c b k' =>
      ok_breaks (break_targets b) false k /\ (c = true -> ok_done k') /\
      goto_checked (contains_goto b) /\ ok_cont k'
  | Kclause ls next k' =>
      ok_breaks (break_targets_clauses next) false k /\
      (chains_terminate strict next = true \/ ok_done k') /\
      goto_checked (contains_goto_clauses next) /\ ok_cont k'
  end.

(** [s] without its labels [ls] may start at [k]. *)
Definition ok_enter (ls : list string) (s : stmt) (k : cont) : Prop :=
  ((length ls <=? LABEL_CHAIN)%nat && stmt_terminates_labeled s ls strict = true
   \/ is_fallthrough s = true \/ ok_done k) /\
  ok_breaks (break_targets s) false k /\ goto_checked (contains_goto s) /\ ok_cont k.

Definition ok_run (s : stmt) (k : cont) : Prop := ok_enter (unlabel s).1 (unlabel s).2 k.

Definition ok_list (ss : stmts) (k : cont) : Prop := ok_done (Kseq ss k) /\ ok_cont (Kseq ss k).

Definition ok_config (c : config) : Prop :=
  match c with
  | Run s k => ok_run s k
  | Done k => ok_done k /\ ok_cont k
  | Final f => f <> FellOff
  end.

Lemma ok_breaks_mono bt1 bt2 c1 c2 k :
  (forall ls, bt1 ls c1 = false -> bt2 ls c2 = false) ->
  (forall ls, bt1 ls true = false -> bt2 ls true = false) ->
  ok_breaks bt1 c1 k -> ok_breaks bt2 c2 k.
Proof.
  revert c1 c2. induction k; simpl; intros c1 c2 H1 H2; [done|eauto| |];
    (intros [[H|H] Hk]; split; [left; auto|eauto|by right|eauto]).
Qed.

Lemma goto_checked_mono a b : (a = false -> b = false) -> goto_checked a -> goto_checked b.
Proof. unfold goto_checked. tauto. Qed.


Lemma break_targets_unlabel ls s : break_targets (unlabel_from ls s).2 = break_targets s.
Proof. revert ls. induction s; simpl; intros; done. Qed.

Lemma contains_goto_unlabel ls s : contains_goto (unlabel_from ls s).2 = contains_goto s.
Proof. revert ls. induction s; simpl; intros; done. Qed.

Lemma ok_run_intro s k :
  (stmt_terminates s strict = true \/ is_fallthrough (skip_labels s) = true \/ ok_done k) ->
  ok_breaks (break_targets s) false k -> goto_checked (contains_goto s) -> ok_cont k ->
  ok_run s k.
Proof.
  intros HT Hb Hg Hk. unfold ok_run, ok_enter, unlabel.
  rewrite break_targets_unlabel, contains_goto_unlabel, unlabel_from_inner.
  split_and!; [|done..]. rewrite stmt_terminates_unlabel in HT.
  unfold unlabel in HT. rewrite unlabel_from_inner in HT. exact HT.
Qed.

(** *** What an admissible statement hands to its parts. *)
Lemma ok_if ls a b k : ok_enter ls (IfStmt a b) k -> ok_run a k /\ ok_run b k.
Proof.
  intros ([HT|[?|HT]]&Hb&Hg&Hk); [|done|].
  all: split; apply ok_run_intro; try done.
  all: try (eapply ok_breaks_mono, Hb; simpl; intros ?; rewrite orb_false_iff; tauto).
  all: try (eapply goto_checked_mono, Hg; simpl; rewrite orb_false_iff; tauto).
  all: try (by right; right).
  all: left; unfold stmt_terminates_labeled in HT; cbn [terminates] in HT;
    rewrite !andb_true_iff in HT; apply HT.
Qed.

Lemma ok_if_let ls a b k : ok_enter ls (IfLetStmt a b) k -> ok_run a k /\ ok_run b k.
Proof. intros H. apply (ok_if ls). exact H. Qed.

Lemma ok_for ls c r b k : ok_enter ls (ForStmt c r b) k -> ok_run b (Kloop ls (c || r) b k).
Proof.
  intros (HT&Hb&Hg&Hk).
  assert (Hout : (c || r = true -> ok_done k) /\ (break_targets b ls false = false \/ ok_done k)).
  { destruct HT as [HT|[?|HT]]; [|done|tauto].
    unfold stmt_terminates_labeled in HT. cbn [terminates] in HT.
    destruct (c || r); [by rewrite andb_false_r in HT|].
    rewrite andb_true_iff, negb_true_iff in HT. split; [done|left; apply HT]. }
  assert (Hin : ok_breaks (break_targets b) false (Kloop ls (c || r) b k)).
  { simpl. split; [apply Hout|]. by eapply ok_breaks_mono, Hb. }
  apply ok_run_intro; [|exact Hin|exact Hg|].
  - right. right. simpl. apply Hout.
  - cbn [ok_cont]. destruct Hout. by split_and!.
Qed.

Lemma ok_block ls ss k : ok_enter ls (BlockStmt ss) k -> ok_list ss k.
Proof.
  intros (HT&Hb&Hg&Hk). split; [|by simpl].
  destruct HT as [HT|[?|HT]]; [|done|]; simpl; [left|tauto].
  rewrite andb_true_iff in HT. exact (proj2 HT).
Qed.

Lemma ok_arena ls b k : ok_enter ls (ArenaBlock b) k -> ok_run b k.
Proof.
  intros ([HT|[?|HT]]&Hb&Hg&Hk); [|done|]; apply ok_run_intro; try done; [left|tauto].
  rewrite andb_true_iff in HT. exact (proj2 HT).
Qed.

(** Blocks that never count as terminating. *)
Lemma ok_opaque ls s b k : stmt_terminates_labeled s ls strict = false -> is_fallthrough s = false ->
  break_targets s = break_targets b -> contains_goto s = contains_goto b ->
  ok_enter ls s k -> ok_run b k.
Proof.
  intros Hno Hf Ebr Eg ([HT|[HT|HT]]&Hb&Hg&Hk).
  - by rewrite Hno, andb_false_r in HT.
  - congruence.
  - apply ok_run_intro; [tauto| | |done]; congruence.
Qed.

Lemma block_terminates_cons s rest :
  block_terminates (SCons s rest) strict = true ->
  stmt_terminates s strict = true \/ block_terminates rest strict = true.
Proof.
  unfold block_terminates. destruct strict.
  - destruct rest; [by left|by right].
  - cbn [any_terminates]. fold (stmt_terminates s false).
    change (terminates false false s []) with (stmt_terminates s false).
    destruct (stmt_terminates s false); tauto.
Qed.

Lemma ends_in_fallthrough_cons s rest :
  clause_ends_in_fallthrough (SCons s rest) = true ->
  (rest = SNil /\ is_fallthrough (skip_labels s) = true) \/ clause_ends_in_fallthrough rest = true.
Proof. destruct rest; [by left|by right]. Qed.

Lemma ok_list_head s rest k : ok_list (SCons s rest) k -> ok_run s (Kseq rest k).
Proof.
  intros [HT (Hb&Hg&Hk)]. apply ok_run_intro.
  - destruct HT as [HT|[HT|HT]]; simpl.
    + apply block_terminates_cons in HT. tauto.
    + apply ends_in_fallthrough_cons in HT. tauto.
    + tauto.
  - simpl. eapply ok_breaks_mono, Hb; intros ?; simpl; rewrite orb_false_iff; tauto.
  - eapply goto_checked_mono, Hg. simpl. rewrite orb_false_iff. tauto.
  - simpl. split_and!; [| |done].
    + eapply ok_breaks_mono, Hb; intros ?; simpl; rewrite orb_false_iff; tauto.
    + eapply goto_checked_mono, Hg. simpl. rewrite orb_false_iff. tauto.
Qed.

Lemma ok_list_tail s rest k :
  strict = true -> rest <> SNil -> ok_list (SCons s rest) k -> ok_list rest k.
Proof.
  intros Hs Hne H. pose proof (ok_list_head _ _ _ H) as (_&_&_&Hk). destruct H as [HT _].
  split; [|exact Hk]. destruct rest as [|s' rest]; [done|]. destruct HT as [HT|[HT|HT]].
  - left. unfold block_terminates in *. by rewrite Hs in *.
  - by right; left.
  - by right; right.
Qed.

(** *** Clauses of a switch-like statement. *)
Definition ok_clauses (falls : bool) (ls : list string) (cs : clauses) (k : cont) : Prop :=
  ((if falls then chains_terminate strict cs else bodies_terminate strict cs) = true \/ ok_done k) /\
  (break_targets_clauses cs ls false = false \/ ok_done k) /\
  ok_breaks (break_targets_clauses cs) true k /\ goto_checked (contains_goto_clauses cs) /\ ok_cont k.

Lemma ok_clauses_cons falls ls h b next k :
  ok_clauses falls ls (Clause h b next) k ->
  ok_list b (Kclause ls (if falls then next else NoClause) k) /\ ok_clauses falls ls next k.
Proof.
  intros (HT&Hl&Hb&Hg&Hk).
  assert (Hnext : ok_clauses falls ls next k).
  { split_and!; [| | | |done].
    - destruct HT as [HT|]; [left|tauto]. destruct falls; simpl in HT; rewrite andb_true_iff in HT; tauto.
    - simpl in Hl. rewrite orb_false_iff in Hl. tauto.
    - eapply ok_breaks_mono, Hb; intros ?; simpl; rewrite orb_false_iff; tauto.
    - eapply goto_checked_mono, Hg. simpl. rewrite orb_false_iff. tauto. }
  split; [|done]. destruct Hnext as (HT'&Hl'&Hb'&Hg'&_). split.
  - simpl. destruct HT as [HT|]; [|tauto].
    destruct falls; cbn [chains_terminate bodies_terminate] in HT; rewrite andb_true_iff in HT.
    + destruct (clause_ends_in_fallthrough b); tauto.
    + tauto.
  - simpl. split_and!.
    + simpl in Hl. rewrite orb_false_iff in Hl. tauto.
    + eapply ok_breaks_mono, Hb; intros ?; simpl; rewrite orb_false_iff; tauto.
    + eapply goto_checked_mono, Hg. simpl. rewrite orb_false_iff. tauto.
    + destruct falls; [done|by left].
    + destruct falls; [done|]. eapply ok_breaks_mono, Hb'; done.
    + destruct falls; [tauto|by left].
    + destruct falls; [done|by right].
    + done.
Qed.

Lemma ok_switch ls cs k : ok_enter ls (SwitchStmt cs) k ->
  ok_clauses true ls cs k /\ (has_default cs = false -> ok_done k).
Proof.
  intros (HT&Hb&Hg&Hk). split; [split_and!|]; try done.
  all: try by (eapply ok_breaks_mono, Hb).
  all: destruct HT as [HT|[?|HT]]; [|done|tauto]; rewrite andb_true_iff in HT; destruct HT as [_ HT];
    unfold stmt_terminates_labeled in HT; cbn [terminates] in HT;
    destruct (break_targets_clauses cs ls false), (has_default cs); simpl in HT; try done; by left.
Qed.

Lemma ok_type_switch ls cs k : ok_enter ls (TypeSwitch cs) k ->
  ok_clauses false ls cs k /\ (has_default cs = false -> ok_done k).
Proof.
  intros (HT&Hb&Hg&Hk). split; [split_and!|]; try done.
  all: try by (eapply ok_breaks_mono, Hb).
  all: destruct HT as [HT|[?|HT]]; [|done|tauto]; rewrite andb_true_iff in HT; destruct HT as [_ HT];
    unfold stmt_terminates_labeled in HT; cbn [terminates] in HT;
    destruct (break_targets_clauses cs ls false), (has_default cs); simpl in HT; try done; by left.
Qed.

Lemma select_clauses_split cs ls :
  select_clauses_terminate strict cs ls = true ->
  bodies_terminate strict cs = true /\ break_targets_clauses cs ls false = false.
Proof.
  induction cs as [|h b next IH]; [done|].
  cbn [select_clauses_terminate bodies_terminate break_targets_clauses].
  destruct (break_targets_list b ls false); [done|].
  destruct (if strict then last_terminates strict b else any_terminates strict b); [exact IH|done].
Qed.

Lemma ok_select ls cs k : ok_enter ls (SelectStmt cs) k -> ok_clauses false ls cs k.
Proof.
  intros (HT&Hb&Hg&Hk). split_and!; try done.
  all: try by (eapply ok_breaks_mono, Hb).
  all: destruct HT as [HT|[?|HT]]; [|done|tauto]; rewrite andb_true_iff in HT; destruct HT as [_ HT];
    unfold stmt_terminates_labeled in HT; cbn [terminates] in HT; apply select_clauses_split in HT; tauto.
Qed.

(** *** The control transfers. *)
Lemma ok_break_to (bt : list string -> bool -> bool) k : (forall ls, bt ls false = true) ->
  ok_breaks bt false k -> ok_cont k -> ok_config (break_to k).
Proof.
  intros Hbt. induction k; simpl.
  - done.
  - tauto.
  - rewrite Hbt. intros [[?|?] _] (_&_&_&?); done.
  - rewrite Hbt. intros [[?|?] _] (_&_&_&?); done.
Qed.

Lemma ok_break_label_to l c k :
  ok_breaks (fun ls _ => names_label ls l) c k -> ok_cont k -> ok_config (break_label_to l k).
Proof.
  revert c. induction k as [|ss k IH|ls cd b k IH|ls next k IH]; simpl; intros c.
  - done.
  - intros ? (_&_&?). eauto.
  - intros [Hb Hr] (_&_&_&Hk). destruct (names_label ls l); [|eauto]. by destruct Hb.
  - intros [Hb Hr] (_&_&_&Hk). destruct (names_label ls l); [|eauto]. by destruct Hb.
Qed.

(** Inside a well-formed continuation a loop can always be restarted. *)
Lemma ok_loop ls c b k : ok_cont (Kloop ls c b k) -> ok_run b (Kloop ls c b k).
Proof.
  intros (Hb&Hc&Hg&Hk). apply ok_run_intro; [by right; right|done|done|]. by cbn [ok_cont].
Qed.

Lemma ok_continue_to k : ok_cont k -> ok_config (continue_to k).
Proof. induction k; simpl; [done|tauto| |tauto]. tauto. Qed.

Lemma ok_continue_label_to l k : ok_cont k -> ok_config (continue_label_to l k).
Proof.
  induction k as [|ss k IH|ls c b k IH|ls next k IH]; cbn [continue_label_to].
  - done.
  - intros (_&_&?). auto.
  - intros H. destruct (names_label ls l); [|apply IH, H].
    split; [exact (proj1 (proj2 H))|exact H].
  - intros (_&_&_&?). auto.
Qed.

Lemma ok_kclause ls next k : ok_cont (Kclause ls next k) -> ok_clauses true ls next k.
Proof. intros ([??]&?&?&?). by split_and!. Qed.

Lemma ok_fall_to k : ok_cont k -> ok_config (fall_to k).
Proof.
  induction k as [|ss k IH|ls c b k IH|ls next k IH]; cbn [fall_to]; try done.
  - intros (_&_&?). auto.
  - intros H. destruct next as [|h b next]; [done|]. apply ok_kclause, ok_clauses_cons in H. apply H.
Qed.

Lemma ok_enter_clauses falls ls cs k :
  ok_clauses falls ls cs k -> Forall ok_config (enter_clauses falls ls cs k).
Proof.
  induction cs as [|h b next IH]; intros H; [constructor|].
  apply ok_clauses_cons in H as [Hb Hn]. constructor; [exact Hb|by apply IH].
Qed.

(** *** Jump targets: in strict mode every labelled statement of the body may start. *)
Definition ok_positions (ps : list (stmt * cont)) : Prop := Forall (fun p => ok_run p.1 p.2) ps.

Lemma ok_positions_self l ls whole k ps : ok_run whole k -> ok_positions ps ->
  ok_positions ((if names_label ls l then [(whole, k)] else []) ++ ps).
Proof. intros. apply Forall_app. split; [|done].
  destruct (names_label ls l); [by apply Forall_singleton|by apply Forall_nil].
Qed.

Lemma positions_ok l : strict = true ->
  (forall s ls whole k, unlabel whole = unlabel_from ls s -> ok_run whole k ->
     ok_positions (positions l ls whole s k)) /\
  (forall ss k, ok_list ss k -> ok_positions (positions_list l ss k)) /\
  (forall cs falls ls k, ok_clauses falls ls cs k ->
     ok_positions (positions_clauses l falls ls cs k)).
Proof.
  intros Hs. apply stmt_mutind; intros.
  all: cbn [positions positions_list positions_clauses]; try exact (Forall_nil_2 _).
  all: try match goal with Hw : unlabel _ = unlabel_from _ (LabelStmt _ _) |- _ => by eauto end.
  all: try (apply ok_positions_self; [done|]).
  all: try exact (Forall_nil_2 _).
  all: try match goal with Hw : unlabel ?w = _, Hr : ok_run ?w _ |- _ =>
         unfold ok_run in Hr; rewrite Hw in Hr; cbn [unlabel_from fst snd] in Hr end.
  - apply ok_if in H2 as [??]. apply Forall_app. split; [by apply H|by apply H0].
  - apply ok_if_let in H2 as [??]. apply Forall_app. split; [by apply H|by apply H0].
  - eapply H; [done|]. by apply ok_for.
  - apply H. by apply ok_switch.
  - apply H. by apply ok_type_switch.
  - apply H. by apply ok_select.
  - apply H. eapply ok_block; eassumption.
  - eapply H; [done|]. eapply ok_arena; eassumption.
  - eapply H; [done|]. eapply ok_opaque; [..|eassumption]; done.
  - eapply H; [done|]. eapply ok_opaque; [..|eassumption]; done.
  - apply Forall_app. split; [eapply H; [done|]; by apply ok_list_head|].
    destruct next as [|s' rest]; [exact (Forall_nil_2 _)|]. apply H0. by eapply ok_list_tail.
  - apply ok_clauses_cons in H1 as [Hb Hn]. apply Forall_app. split; [by apply H|by apply H0].
Qed.

(** *** Preservation. *)
Ltac each := repeat first [apply Forall_nil_2 | apply Forall_cons_2].

Lemma enter_ok body ls s k :
  (strict = true -> ok_run body Kstop) -> skip_labels s = s ->
  ok_enter ls s k -> Forall ok_config (enter body ls s k).
Proof.
  intros Hbody Hun H. pose proof H as (HT&Hb&Hg&Hk).
  assert (Hdone : terminates strict false s ls = false -> is_fallthrough s = false ->
                  ok_config (Done k)).
  { intros H1 H2. unfold stmt_terminates_labeled in HT. rewrite H1, andb_false_r in HT.
    destruct HT as [?|[?|?]]; [done|congruence|done]. }
  destruct s; cbn [enter]; try done.
  all: try (each; try done; by apply Hdone).
  - destruct Hg as [Hg|Hg]; [|done].
    pose proof (proj1 (positions_ok label Hg) body [] body Kstop eq_refl (Hbody Hg)) as Hp.
    destruct (positions label [] body body Kstop); [by each|].
    apply Forall_map. exact Hp.
  - destruct (is_panic_call_stmt e) eqn:E; each; try done. by apply Hdone.
  - apply ok_if in H as [??]. by each.
  - apply ok_if_let in H as [??]. by each.
  - constructor; [by apply ok_for|]. destruct (condition || range_expr) eqn:E; each.
    apply Hdone; cbn [terminates]; by rewrite ?E.
  - apply ok_switch in H as [Hc Hd]. apply Forall_app. split; [by apply ok_enter_clauses|].
    destruct (has_default cases); each; split; auto.
  - apply ok_type_switch in H as [Hc Hd]. apply Forall_app. split; [by apply ok_enter_clauses|].
    destruct (has_default cases); each; split; auto.
  - apply ok_select in H. apply Forall_app. split; [by apply ok_enter_clauses|].
    by destruct (has_default cases); each.
  - constructor; [eapply ok_block; eassumption|constructor].
  - constructor; [eapply ok_arena; eassumption|constructor].
  - constructor; [eapply ok_opaque; [..|exact H]; done|constructor].
  - constructor; [eapply ok_opaque; [..|exact H]; done|constructor].
  - constructor; [|constructor]. by apply (ok_break_to (break_targets BreakStmt)).
  - constructor; [|constructor]. by apply ok_continue_to.
  - constructor; [|constructor]. by apply (ok_break_label_to label false).
  - constructor; [|constructor]. by apply ok_continue_label_to.
  - constructor; [|constructor]. by apply ok_fall_to.
Qed.

Lemma skip_labels_idem s : skip_labels (skip_labels s) = skip_labels s.
Proof. by induction s. Qed.

Lemma step_ok body c c' :
  (strict = true -> ok_run body Kstop) -> ok_config c -> step body c c' -> ok_config c'.
Proof.
  intros Hbody Hc Hs. cut (Forall ok_config (successors body c)).
  { rewrite List.Forall_forall. intros H. by apply H. }
  clear Hs c'. destruct c as [s k|k|f]; cbn [successors].
  - apply enter_ok; [done| |exact Hc]. unfold unlabel. rewrite unlabel_from_inner. apply skip_labels_idem.
  - destruct Hc as [Hd Hk]. destruct k as [|[|s ss] k|ls c b k|ls next k].
    + done.
    + constructor; [|constructor]. destruct Hd as [Hd|[Hd|Hd]].
      * unfold block_terminates in Hd. by destruct strict.
      * done.
      * split; [done|]. by destruct Hk as (_&_&?).
    + constructor; [|constructor]. by apply ok_list_head.
    + constructor; [by apply ok_loop|]. destruct c; each. split; [by apply Hd|].
      by destruct Hk as (_&_&_&?).
    + constructor; [|constructor]. split; [done|]. by destruct Hk as (_&_&_&?).
  - constructor.
Qed.
End invariant.

(** C4: soundness of the missing-return check.  If [stmt_is_terminating] accepts a function
    body, no execution of the body (whatever conditions evaluate to, whichever clauses are
    chosen, with every break, continue, goto and fallthrough followed) ever completes the body
    normally, so a function with results never falls off its end without a return value. *)
Theorem terminating_never_falls_off body c :
  stmt_is_terminating body = true -> reaches body (Run body Kstop) c -> c <> Final FellOff.
Proof.
  intros HT Hr. set (strict := contains_goto body).
  assert (Hbody : ok_run strict body Kstop).
  { apply ok_run_intro; [by left|done| |done].
    unfold goto_checked, strict. destruct (contains_goto body); [by left|by right]. }
  assert (Hc : ok_config strict c).
  { revert c Hr. apply rtc_ind_r; [exact Hbody|]. intros y z _ Hs Hy. by eapply step_ok. }
  intros ->. by apply Hc.
Qed.

(** The body [for { if c { break L } } ; return] with the loop labelled, cf. the reject fixtures. *)
Definition example_body : stmt :=
  BlockStmt (SCons (LabelStmt "L" (ForStmt false false (BlockStmt
    (SCons (IfStmt (BreakLabelStmt "L") Null) SNil))))
    (SCons (IfStmt (BlockStmt (SCons (GotoStmt "M") SNil)) Null)
    (SCons (LabelStmt "M" SimpleStmt) (SCons ReturnStmt SNil)))).

Lemma terminating_never_falls_off_witness :
  stmt_is_terminating example_body = true /\
  reaches example_body (Run example_body Kstop) (Final Returned) /\ Final Returned <> Final FellOff.
Proof.
  assert (Hr : reaches example_body (Run example_body Kstop) (Final Returned)).
  { unfold reaches, example_body.
    do 20 (try (eapply rtc_l; [by left|])). apply rtc_refl. }
  split; [reflexivity|]. split; [exact Hr|].
  exact (terminating_never_falls_off example_body _ eq_refl Hr).
Defined.

(** ** The Go rule (https://go.dev/ref/spec#Terminating_statements) as a relation: [ls] are the
    labels of the statement; [go_tail] is "the list ends in a terminating statement". *)
Inductive go_term : list string -> stmt -> Prop :=
| go_return ls : go_term ls ReturnStmt
| go_goto ls l : go_term ls (GotoStmt l)
| go_panic ls : go_term ls (ExprStmt (CallExpr (IdentifierExpr (Some "panic"%string))))
| go_block ls ss : go_tail ss -> go_term ls (BlockStmt ss)
| go_arena ls b : go_term [] b -> go_term ls (ArenaBlock b)
| go_if ls a b : b <> Null -> go_term [] a -> go_term [] b -> go_term ls (IfStmt a b)
| go_if_let ls a b : b <> Null -> go_term [] a -> go_term [] b -> go_term ls (IfLetStmt a b)
| go_for ls b : break_targets b ls false = false -> go_term ls (ForStmt false false b)
| go_switch ls cs : break_targets_clauses cs ls false = false -> has_default cs = true ->
    go_cases true cs -> go_term ls (SwitchStmt cs)
| go_type_switch ls cs : break_targets_clauses cs ls false = false -> has_default cs = true ->
    go_cases false cs -> go_term ls (TypeSwitch cs)
| go_select ls cs : break_targets_clauses cs ls false = false -> go_cases false cs ->
    go_term ls (SelectStmt cs)
| go_label ls l b : go_term (ls ++ [l]) b -> go_term ls (LabelStmt l b)
with go_tail : stmts -> Prop :=
| go_last s : go_term [] s -> go_tail (SCons s SNil)
| go_more s rest : go_tail rest -> go_tail (SCons s rest)
(** [falls]: a clause may instead end in a possibly labelled [fallthrough], unless it is last. *)
with go_cases : bool -> clauses -> Prop :=
| go_no_case falls : go_cases falls NoClause
| go_case falls h b next : clause_ends_in_fallthrough b && falls = false -> go_tail b ->
    go_cases falls next -> go_cases falls (Clause h b next)
| go_case_falls h b next : clause_ends_in_fallthrough b = true -> next <> NoClause ->
    go_cases true next -> go_cases true (Clause h b next).

(** No statement of the tree carries more than eight labels. *)
Fixpoint short_chains (n : nat) (s : stmt) : bool :=
  match s with
  | LabelStmt _ b => (n <? LABEL_CHAIN)%nat && short_chains (S n) b
  | IfStmt a b | IfLetStmt a b => short_chains 0 a && short_chains 0 b
  | BlockStmt ss => short_list ss
  | SwitchStmt cs | TypeSwitch cs | SelectStmt cs => short_clauses cs
  | ArenaBlock b => short_chains 0 b
  | _ => true
  end
with short_list (ss : stmts) : bool :=
  match ss with SNil => true | SCons s rest => short_chains 0 s && short_list rest end
with short_clauses (cs : clauses) : bool :=
  match cs with NoClause => true | Clause _ b next => short_list b && short_clauses next end.

Lemma terminates_fresh strict s : terminates strict true s [] = terminates strict false s [].
Proof. by destruct s. Qed.

Lemma is_panic_spec e :
  is_panic_call_stmt e = true <-> e = CallExpr (IdentifierExpr (Some "panic"%string)).
Proof.
  destruct e as [|[| |[n|]|]| |]; simpl; try (split; [done|congruence]).
  rewrite String.eqb_eq. split; congruence.
Qed.

Lemma is_null_spec s : negb (is_null s) = true <-> s <> Null.
Proof. by destruct s. Qed.

Lemma select_split cs ls :
  select_clauses_terminate true cs ls = true <->
  bodies_terminate true cs = true /\ break_targets_clauses cs ls false = false.
Proof.
  induction cs as [|h b next IH]; [done|].
  cbn [select_clauses_terminate bodies_terminate break_targets_clauses].
  destruct (break_targets_list b ls false), (last_terminates true b); simpl; try tauto;
    (split; [done|intros [? ?]; done]).
Qed.

Ltac go_inv :=
  match goal with
  | H : go_term _ _ |- _ => inversion H; subst; clear H
  | H : go_tail _ |- _ => inversion H; subst; clear H
  | H : go_cases _ _ |- _ => inversion H; subst; clear H
  end.

(** Case lemmas: the C equation of each construct against the rule. *)
Lemma go_cases_step (b : stmts) h next :
  (last_terminates true b = true <-> go_tail b) ->
  (chains_terminate true next = true <-> go_cases true next) ->
  chains_terminate true (Clause h b next) = true <-> go_cases true (Clause h b next).
Proof.
  intros Hb Hn. cbn [chains_terminate]. rewrite andb_true_iff, Hn.
  destruct (clause_ends_in_fallthrough b) eqn:E.
  - split.
    + intros [Hc Hg]. apply go_case_falls; [done| |done]. by intros ->.
    + intros H. go_inv; [by rewrite E in *|]. split; [|done].
      destruct next as [|h' b' next]; [done|].
      match goal with H : go_cases true _ |- _ => apply Hn in H end.
      cbn [chains_terminate] in *. rewrite andb_true_iff in *. tauto.
  - rewrite Hb. split.
    + intros [??]. by apply go_case; [rewrite E|..].
    + intros H. go_inv; [done|congruence].
Qed.

Lemma strict_go :
  (forall s ls, short_chains (length ls) s = true ->
     terminates true true s ls = true <-> go_term ls s) /\
  (forall ss, short_list ss = true -> last_terminates true ss = true <-> go_tail ss) /\
  (forall cs, short_clauses cs = true ->
     (chains_terminate true cs = true <-> go_cases true cs) /\
     (bodies_terminate true cs = true <-> go_cases false cs)).
Proof.
  apply stmt_mutind.
  all: try (intros; cbn [terminates last_terminates]; split; [done|by intros; go_inv]).
  all: try (intros; cbn [terminates last_terminates chains_terminate bodies_terminate];
            split; split; by constructor).
  all: try (intros; cbn [terminates]; split; by constructor).
  - intros e ls _. cbn [terminates]. rewrite is_panic_spec. split; [intros ->; constructor|].
    intros. by go_inv.
  - intros a IHa b IHb ls [Ha Hb]%andb_prop. cbn [terminates].
    rewrite !andb_true_iff, is_null_spec, <- !terminates_fresh, (IHa [] Ha), (IHb [] Hb).
    split; [intros [[??] ?]; by constructor|intros; by go_inv].
  - intros a IHa b IHb ls [Ha Hb]%andb_prop. cbn [terminates].
    rewrite !andb_true_iff, is_null_spec, <- !terminates_fresh, (IHa [] Ha), (IHb [] Hb).
    split; [intros [[??] ?]; by constructor|intros; by go_inv].
  - intros c r b _ ls _. cbn [terminates]. split.
    + destruct c, r; simpl; try done. rewrite negb_true_iff. by constructor.
    + intros. go_inv. simpl. by rewrite negb_true_iff.
  - intros cs IH ls Hs. cbn [terminates]. destruct (IH Hs) as [IHc _]. split.
    + destruct (break_targets_clauses cs ls false) eqn:?, (has_default cs) eqn:?; try done.
      intros. constructor; tauto.
    + intros. go_inv. rewrite H1, H2. simpl. tauto.
  - intros cs IH ls Hs. cbn [terminates]. destruct (IH Hs) as [_ IHc]. split.
    + destruct (break_targets_clauses cs ls false) eqn:?, (has_default cs) eqn:?; try done.
      intros. constructor; tauto.
    + intros. go_inv. rewrite H1, H2. simpl. tauto.
  - intros cs IH ls Hs. cbn [terminates]. rewrite select_split. destruct (IH Hs) as [_ IHc].
    rewrite IHc. split; [intros [??]; by constructor|intros; by go_inv].
  - intros ss IH ls Hs. cbn [terminates]. rewrite (IH Hs).
    split; [by constructor|intros; by go_inv].
  - intros b IH ls Hs. cbn [terminates]. rewrite <- terminates_fresh, (IH [] Hs).
    split; [by constructor|intros; by go_inv].
  - intros l b IH ls [Hl Hs]%andb_prop. cbn [terminates]. apply Nat.ltb_lt in Hl.
    destruct (Nat.eqb_spec (length ls) LABEL_CHAIN); [lia|].
    rewrite IH by (rewrite length_app; simpl; by rewrite Nat.add_1_r).
    split; [by constructor|intros; by go_inv].
  - intros s IHs rest IHr [Hs Hr]%andb_prop. cbn [last_terminates]. destruct rest as [|s' rest].
    + rewrite <- terminates_fresh, (IHs [] Hs). split; [by constructor|]. intros. go_inv; [done|].
      match goal with H : go_tail SNil |- _ => inversion H end.
    + rewrite (IHr Hr). split; [by constructor|]. intros. by go_inv.
  - intros h b IHb next IHn [Hb Hn]%andb_prop. destruct (IHn Hn) as [IHc IHo].
    split; [by apply go_cases_step, IHc; apply IHb|].
    cbn [bodies_terminate]. rewrite andb_true_iff, (IHb Hb), IHo. split.
    + intros [??]. apply go_case; [by rewrite andb_false_r|done..].
    + intros. by go_inv.
Qed.

(** in strict mode (functions with a [goto]) the check is exactly Go's rule: the C
    predicate holds of a statement whose label chains have at most eight labels if and only if
    the statement is terminating in the sense of the Go specification. *)
Theorem strict_mode_is_go_rule s :
  short_chains 0 s = true -> stmt_terminates s true = true <-> go_term [] s.
Proof.
  intros Hs. unfold stmt_terminates, stmt_terminates_labeled. rewrite <- terminates_fresh.
  by apply strict_go.
Qed.

Lemma strict_mode_is_go_rule_witness :
  short_chains 0 example_body = true /\ go_term [] example_body.
Proof.
  split; [reflexivity|]. apply (strict_mode_is_go_rule example_body eq_refl). reflexivity.
Defined.

(** The relaxed rule of goto-free functions accepts at least what Go's rule accepts. *)
Lemma relaxed_extends :
  (forall s chasing ls, terminates true chasing s ls = true -> terminates false chasing s ls = true) /\
  (forall ss, last_terminates true ss = true -> any_terminates false ss = true) /\
  (forall cs, (clause_chain_terminates true cs = true -> clause_chain_terminates false cs = true) /\
     (chains_terminate true cs = true -> chains_terminate false cs = true) /\
     (bodies_terminate true cs = true -> bodies_terminate false cs = true) /\
     (forall ls, select_clauses_terminate true cs ls = true -> select_clauses_terminate false cs ls = true)).
Proof.
  apply stmt_mutind; try done.
  - intros a IHa b IHb chasing ls. cbn [terminates]. rewrite !andb_true_iff. intuition.
  - intros a IHa b IHb chasing ls. cbn [terminates]. rewrite !andb_true_iff. intuition.
  - intros cs (_&IH&_&_) chasing ls. cbn [terminates].
    destruct (break_targets_clauses cs ls false), (has_default cs); auto.
  - intros cs (_&_&IH&_) chasing ls. cbn [terminates].
    destruct (break_targets_clauses cs ls false), (has_default cs); auto.
  - intros cs (_&_&_&IH) chasing ls. apply IH.
  - intros ss IH chasing ls. apply IH.
  - intros l b IH chasing ls. cbn [terminates].
    destruct (length (if chasing then ls else []) =? LABEL_CHAIN)%nat; auto.
  - intros s IHs rest IHr. cbn [last_terminates any_terminates].
    destruct (terminates false false s []) eqn:E; [done|]. destruct rest; [|exact IHr].
    intros H. apply IHs in H. congruence.
  - intros h b IHb next (IHch&IHc&IHo&IHs).
    cbn [clause_chain_terminates chains_terminate bodies_terminate select_clauses_terminate].
    split_and!.
    + destruct (clause_ends_in_fallthrough b); auto.
    + rewrite !andb_true_iff. destruct (clause_ends_in_fallthrough b); intuition.
    + rewrite !andb_true_iff. intuition.
    + intros ls. destruct (break_targets_list b ls false); [done|].
      destruct (last_terminates true b) eqn:E; [|done]. rewrite IHb by done. apply IHs.
Qed.

(** leniency: whatever Go's rule accepts, the relaxed rule of goto-free functions accepts
    too, so switching modes never rejects a body the Go specification calls terminating. *)
Theorem relaxed_accepts_go_rule s :
  short_chains 0 s = true -> go_term [] s -> stmt_is_terminating s = true.
Proof.
  intros Hs Hg. unfold stmt_is_terminating. assert (stmt_terminates s true = true) as H.
  { unfold stmt_terminates, stmt_terminates_labeled. rewrite <- terminates_fresh.
    by apply strict_go. }
  destruct (contains_goto s); [done|]. by apply relaxed_extends.
Qed.

Lemma relaxed_accepts_go_rule_witness :
  short_chains 0 (BlockStmt (SCons ReturnStmt SNil)) = true /\
  stmt_is_terminating (BlockStmt (SCons ReturnStmt SNil)) = true.
Proof.
  split; [reflexivity|]. apply relaxed_accepts_go_rule; [reflexivity|]. do 3 constructor.
Defined.

Lemma skip_labels_not_label t l u : skip_labels t <> LabelStmt l u.
Proof. induction t; simpl; congruence. Qed.

(** Every configuration of the reference machine that has not finished can take a step. *)
Lemma machine_progress body c : successors body c = [] -> exists f, c = Final f.
Proof.
  assert (Hcl : forall falls ls cs k (d : config), enter_clauses falls ls cs k ++
            (if has_default cs then [] else [d]) <> []) by (intros ? ? [|??[]] ? ?; done).
  destruct c as [s k|[|[|s ss] k|ls [] b k|ls next k]|f]; simpl; try done; [|eauto].
  destruct (unlabel s) as [ls i] eqn:E. simpl.
  assert (Hi : skip_labels i = i).
  { replace i with (unlabel s).2 by (by rewrite E). unfold unlabel. rewrite unlabel_from_inner.
    apply skip_labels_idem. }
  destruct i; cbn [enter]; try done; try (by intros H; apply Hcl in H).
  - destruct (positions label [] body body Kstop); done.
  - destruct (is_panic_call_stmt e); done.
  - by apply skip_labels_not_label in Hi.
Qed.

(** Judging a body with a [goto] by the relaxed rule would be unsound: the [goto] skips the
    [return] that earns the credit. *)
Example relaxed_rule_unsound_with_goto :
  let body := BlockStmt (SCons (GotoStmt "skip") (SCons ReturnStmt
                (SCons (LabelStmt "skip" SimpleStmt) SNil))) in
  stmt_terminates body false = true /\ stmt_is_terminating body = false /\
  reaches body (Run body Kstop) (Final FellOff).
Proof.
  split_and!; [reflexivity..|]. unfold reaches.
  do 10 (try (eapply rtc_l; [by left|])). apply rtc_refl.
Qed.
