(* ===== verification/Comptime.v ===== *)
(** * Comptime: the evaluator of src/comptime/ behind [comptime const] and comptime arguments.

    Expressions are those of [ConstExpr]; [stmt] is the part of the statement tree that the engine
    looks at, [NoStmt] the null pointer.  A context is the chain of its frames, innermost first, and
    the empty chain is the null pointer: an evaluation can only change the innermost frame, so the
    parents are shared by every context built on them without a store.  A call of the C functions
    gives the result struct ([Done]), runs into undefined behaviour ([UB]: a null or dangling pointer
    followed, a signed overflow, a union member read that was not written), or nests user calls
    deeper than the given depth ([Deep]); nothing else in the engine can fail to end, so the depth is
    the only fuel.  The messages of errors are the constructors of [comptime_error]; positions, leaks
    and failing allocations are left out.  [double] is [spec_float]; [atof] and the text [%g] makes
    are libc's and parameters. *)
From Stdlib Require Import ZArith Lia Ascii String Bool SpecFloat.
From stdpp Require Import base list numbers option strings pretty.
From S2P Require Import Prelude Numeral Token Types ConstExpr.
Local Open Scope string_scope.
Local Open Scope Z_scope.

(** ** Statements (include/ast.h). *)
Local Unset Elimination Schemes.
Inductive stmt : Set :=
| NoStmt
| ExprStmt (expr : node)
| ConstDecl (is_comptime : bool) (names : list string) (values : node)
| VarDecl (names : list string) (values : node)
| BlockStmt (statements : list stmt)
| IfStmt (condition : node) (then_stmt else_stmt : stmt)
| ForStmt (init : stmt) (condition : node) (post body : stmt)
| ReturnStmt (values : node)
| FuncDecl (func : FuncDeclNode)
| ComptimeBlock (body : stmt)
| OtherStmt
with FuncDeclNode : Set :=
| mkFunc (name : string) (params : list (list string)) (has_receiver : bool) (body : stmt).

Definition func_name (f : FuncDeclNode) : string := let 'mkFunc n _ _ _ := f in n.
Definition func_params (f : FuncDeclNode) : list (list string) := let 'mkFunc _ p _ _ := f in p.
Definition func_body (f : FuncDeclNode) : stmt := let 'mkFunc _ _ _ b := f in b.

(** ** Values *)
Inductive ComptimeValue : Set :=
| VInt (int_value : Z)
| VFloat (float_value : spec_float)
| VBool (bool_value : bool)
| VString (string_value : option string)
| VArray (elements : list ComptimeValue)
| VStruct (fields : list (string * ComptimeValue))
| VFunction (function_node : option FuncDeclNode)
| VType (type_value : ty)
| VNull
| VUndefined.

Local Set Elimination Schemes.

Inductive ComptimeValueType : Set :=
| COMPTIME_VALUE_INT | COMPTIME_VALUE_FLOAT | COMPTIME_VALUE_BOOL | COMPTIME_VALUE_STRING
| COMPTIME_VALUE_ARRAY | COMPTIME_VALUE_STRUCT | COMPTIME_VALUE_FUNCTION | COMPTIME_VALUE_TYPE
| COMPTIME_VALUE_NULL | COMPTIME_VALUE_UNDEFINED.

Definition value_type (v : ComptimeValue) : ComptimeValueType :=
  match v with
  | VInt _ => COMPTIME_VALUE_INT | VFloat _ => COMPTIME_VALUE_FLOAT | VBool _ => COMPTIME_VALUE_BOOL
  | VString _ => COMPTIME_VALUE_STRING | VArray _ => COMPTIME_VALUE_ARRAY
  | VStruct _ => COMPTIME_VALUE_STRUCT | VFunction _ => COMPTIME_VALUE_FUNCTION
  | VType _ => COMPTIME_VALUE_TYPE | VNull => COMPTIME_VALUE_NULL
  | VUndefined => COMPTIME_VALUE_UNDEFINED
  end.

Definition comptime_value_new (t : ComptimeValueType) : ComptimeValue :=
  match t with
  | COMPTIME_VALUE_INT => VInt 0
  | COMPTIME_VALUE_FLOAT => VFloat (S754_zero false)
  | COMPTIME_VALUE_BOOL => VBool false
  | COMPTIME_VALUE_STRING => VString None
  | COMPTIME_VALUE_ARRAY => VArray []
  | COMPTIME_VALUE_STRUCT => VStruct []
  | COMPTIME_VALUE_FUNCTION => VFunction None
  | COMPTIME_VALUE_TYPE => VType NULL
  | COMPTIME_VALUE_NULL => VNull
  | COMPTIME_VALUE_UNDEFINED => VUndefined
  end.

(** A copy is as deep as the value, but for functions and types, which stay shared. *)
Fixpoint comptime_value_copy (v : ComptimeValue) : ComptimeValue :=
  match v with
  | VArray es => VArray (map comptime_value_copy es)
  | VStruct fs => VStruct (map (fun '(n, v) => (n, comptime_value_copy v)) fs)
  | v => v
  end.

(** ** Errors: what the messages say. *)
Inductive comptime_error : Set :=
| InvalidContextOrExpression
| UnsupportedExpression
| UndefinedVariable (name : string)
| DivisionByZero
| UnsupportedBinaryOperator (op : TokenType)
| TypeErrorInBinary
| UnsupportedUnaryOperator (op : TokenType)
| TypeErrorInUnary
| InvalidFunctionCall
| RequiresOneArgument (intrinsic : string)
| ComplexFunctionCall
| UndefinedFunction (name : string)
| InvalidContextOrStatement
| MultipleConstants
| MultipleVariables
| FailedToBindConstant
| FailedToBindVariable
| UnsupportedStatement
| InvalidContextOrBlock
| InvalidIf
| InvalidFor
| InvalidReturn
| InvalidComptimeBlock
| InvalidFunctionForCall
| MaximumRecursionDepth
| LoopIterationLimit
| FailedToBindFunction
| InvalidIntrinsicArgument (intrinsic : string)
| EmitRequiresString
| NoSizeOfThisType
| OtherError (message : string).

(** ** Outcomes of a C call. *)
Inductive eval (A : Type) : Type :=
| Done (a : A)
| UB (why : string)
| Deep.
Arguments Done {A} _.
Arguments UB {A} _.
Arguments Deep {A}.

Definition ebind {A B} (m : eval A) (k : A -> eval B) : eval B :=
  match m with Done a => k a | UB w => UB w | Deep => Deep end.

Declare Scope comptime_scope.
Delimit Scope comptime_scope with comptime.
Notation "'let!' p ':=' m 'in' k" := (ebind m (fun p => k))
  (at level 200, p pattern, m at level 100, k at level 200) : comptime_scope.
Local Open Scope comptime_scope.

Record ComptimeResult : Set := mkResult {
  value : option ComptimeValue;
  error : option comptime_error;
  result_code : option string;      (* generated_code *)
  is_return : bool
}.

Definition comptime_result_new (v : option ComptimeValue) (e : option comptime_error)
    (code : option string) : ComptimeResult := mkResult v e code false.
Definition result_value (v : ComptimeValue) : ComptimeResult := comptime_result_new (Some v) None None.
Definition result_error (e : comptime_error) : ComptimeResult := comptime_result_new None (Some e) None.
Definition set_is_return (b : bool) (r : ComptimeResult) : ComptimeResult :=
  mkResult (value r) (error r) (result_code r) b.
Definition failed (r : ComptimeResult) : bool := match error r with Some _ => true | None => false end.

(** [if (x->generated_code && !result->generated_code) result->generated_code = xstrdup(...)] *)
Definition copy_code (code : option string) (r : ComptimeResult) : ComptimeResult :=
  match code, result_code r with
  | Some _, None => mkResult (value r) (error r) code (is_return r)
  | _, _ => r
  end.

(** ** Contexts *)
Record frame : Set := mkFrame {
  vars : list (string * ComptimeValue);
  funcs : list (string * FuncDeclNode);
  errors : list comptime_error;
  max_recursion_depth : Z;
  current_recursion_depth : Z;
  generated_code : option string
}.
Abbreviation context := (list frame).

Definition new_frame : frame := mkFrame [] [] [] 100 0 None.
Definition comptime_context_new (parent : context) : context := new_frame :: parent.

Definition set_vars (vs : list (string * ComptimeValue)) (f : frame) : frame :=
  mkFrame vs (funcs f) (errors f) (max_recursion_depth f) (current_recursion_depth f) (generated_code f).
Definition set_funcs (fs : list (string * FuncDeclNode)) (f : frame) : frame :=
  mkFrame (vars f) fs (errors f) (max_recursion_depth f) (current_recursion_depth f) (generated_code f).
Definition set_depth (d : Z) (f : frame) : frame :=
  mkFrame (vars f) (funcs f) (errors f) (max_recursion_depth f) d (generated_code f).
Definition set_code (c : option string) (f : frame) : frame :=
  mkFrame (vars f) (funcs f) (errors f) (max_recursion_depth f) (current_recursion_depth f) c.

(** [None] is the answer [false]. *)
Definition comptime_context_bind_var (ctx : context) (name : string) (v : option ComptimeValue)
  : option context :=
  match ctx, v with
  | f :: parents, Some v => Some (set_vars (vars f ++ [(name, v)]) f :: parents)
  | _, _ => None
  end.

Definition comptime_context_bind_func (ctx : context) (name : string) (fn : FuncDeclNode)
  : option context :=
  match ctx with
  | f :: parents => Some (set_funcs (funcs f ++ [(name, fn)]) f :: parents)
  | [] => None
  end.

Definition comptime_context_add_error (ctx : context) (e : comptime_error) : context :=
  match ctx with
  | f :: parents =>
      mkFrame (vars f) (funcs f) (e :: errors f) (max_recursion_depth f)
        (current_recursion_depth f) (generated_code f) :: parents
  | [] => []
  end.

(** The first entry of that name. *)
Fixpoint named {A} (name : string) (entries : list (string * A)) : option A :=
  match entries with
  | [] => None
  | (n, a) :: entries => if (n =? name)%string then Some a else named name entries
  end.

Fixpoint comptime_context_lookup_var (ctx : context) (name : string) : option ComptimeValue :=
  match ctx with
  | [] => None
  | f :: parents =>
      match named name (vars f) with
      | Some v => Some v
      | None => comptime_context_lookup_var parents name
      end
  end.

Fixpoint comptime_context_lookup_func (ctx : context) (name : string) : option FuncDeclNode :=
  match ctx with
  | [] => None
  | f :: parents =>
      match named name (funcs f) with
      | Some fn => Some fn
      | None => comptime_context_lookup_func parents name
      end
  end.

(** ** Numbers *)
Definition is_i64 (z : Z) : bool := (- 2 ^ 63 <=? z) && (z <? 2 ^ 63).

(** [atoll] on a text without leading blanks; out of range it clamps, as glibc's does. *)
Definition atoll (s : string) : Z :=
  match s with
  | String "-" s' => Z.max (- 2 ^ 63) (- digits 10 0 s')
  | String "+" s' => Z.min (2 ^ 63 - 1) (digits 10 0 s')
  | _ => Z.min (2 ^ 63 - 1) (digits 10 0 s)
  end.

Definition double_of_int (z : Z) : spec_float := binary_normalize 53 1024 z 0 false.
Definition is_zero (f : spec_float) : bool := SFeqb f (S754_zero false).

(** The double that an arm converts an operand to: a float, or [(double)int_value], which is another
    member of the union unless the value is an integer. *)
Definition as_double (v : ComptimeValue) : eval spec_float :=
  match v with
  | VFloat f => Done f
  | VInt z => Done (double_of_int z)
  | _ => UB "int_value of a value that is not an integer"
  end.

Definition is_float (v : ComptimeValue) : bool := match v with VFloat _ => true | _ => false end.
Definition is_string (v : ComptimeValue) : bool := match v with VString _ => true | _ => false end.

(** ** Values *)
Definition comptime_value_from_int (z : Z) : ComptimeValue := VInt z.
Definition comptime_value_from_float (f : spec_float) : ComptimeValue := VFloat f.
Definition comptime_value_from_bool (b : bool) : ComptimeValue := VBool b.
Definition comptime_value_from_string (s : string) : ComptimeValue := VString (Some s).

Definition comptime_value_is_truthy (v : option ComptimeValue) : bool :=
  match v with
  | None => false
  | Some (VInt z) => negb (z =? 0)
  | Some (VFloat f) => negb (is_zero f)
  | Some (VBool b) => b
  | Some (VString s) => match s with Some (String _ _) => true | _ => false end
  | Some (VArray es) => match es with [] => false | _ => true end
  | Some VNull | Some VUndefined => false
  | Some _ => true
  end.

Definition comptime_value_get_type (v : option ComptimeValue) : option ty :=
  match v with
  | Some (VInt _) => Some (TBasic hdr0 TYPE_INT64 I)
  | Some (VFloat _) => Some (TBasic hdr0 TYPE_FLOAT64 I)
  | Some (VBool _) => Some (TBasic hdr0 TYPE_BOOL I)
  | Some (VString _) => Some (TBasic hdr0 TYPE_STRING I)
  | Some (VType t) => Some t
  | _ => None
  end.

Section engine.
Context (atof : string -> spec_float) (format_g : spec_float -> string).

Definition comptime_value_from_literal (t : TokenType) (v : string) : option ComptimeValue :=
  match t with
  | TOKEN_INT => Some (comptime_value_from_int (atoll v))
  | TOKEN_FLOAT => Some (comptime_value_from_float (atof v))
  | TOKEN_TRUE => Some (comptime_value_from_bool true)
  | TOKEN_FALSE => Some (comptime_value_from_bool false)
  | TOKEN_STRING => Some (comptime_value_from_string v)
  | TOKEN_NIL => Some (comptime_value_new COMPTIME_VALUE_NULL)
  | _ => None
  end.

Definition comptime_value_to_string (v : option ComptimeValue) : string :=
  match v with
  | None => "null"
  | Some (VInt z) => pretty z
  | Some (VFloat f) => format_g f
  | Some (VBool b) => if b then "true" else "false"
  | Some (VString s) => default "" s
  | Some VNull => "null"
  | Some VUndefined => "undefined"
  | Some (VArray _) => "[array]"
  | Some (VStruct _) => "{struct}"
  | Some (VFunction _) => "<function>"
  | Some (VType _) => "<type>"
  end.

(** ** Operators *)
(** [+ - *] on two integers: signed overflow is undefined. *)
Definition int_result (z : Z) : eval (option ComptimeValue) :=
  if is_i64 z then Done (Some (comptime_value_from_int z)) else UB "signed overflow".

(** An arm with an integer case, a float case and none else. *)
Definition numeric (on_ints : Z -> Z -> eval (option ComptimeValue))
    (on_floats : spec_float -> spec_float -> option ComptimeValue)
    (other : eval (option ComptimeValue)) (l r : ComptimeValue) : eval (option ComptimeValue) :=
  match l, r with
  | VInt a, VInt b => on_ints a b
  | _, _ =>
      if is_float l || is_float r then
        let! a := as_double l in let! b := as_double r in Done (on_floats a b)
      else other
  end.

Definition no_result : eval (option ComptimeValue) := Done None.

Definition arith (on_ints : Z -> Z -> Z) (on_floats : spec_float -> spec_float -> spec_float) :=
  numeric (fun a b => int_result (on_ints a b))
    (fun a b => Some (comptime_value_from_float (on_floats a b))).

Definition compare (on_ints : Z -> Z -> bool) (on_floats : spec_float -> spec_float -> bool) :=
  numeric (fun a b => Done (Some (comptime_value_from_bool (on_ints a b))))
    (fun a b => Some (comptime_value_from_bool (on_floats a b))).

Definition concat (l r : ComptimeValue) : option ComptimeValue :=
  if is_string l || is_string r then
    Some (comptime_value_from_string
      (comptime_value_to_string (Some l) +:+ comptime_value_to_string (Some r)))
  else None.

Definition on_bools (f : bool -> bool -> bool) (l r : ComptimeValue) : option ComptimeValue :=
  match l, r with
  | VBool a, VBool b => Some (comptime_value_from_bool (f a b))
  | _, _ => None
  end.

(** What an arm leaves: [result_val], or an error of its own. *)
Definition typed (m : eval (option ComptimeValue)) : eval ComptimeResult :=
  let! v := m in
  Done match v with Some v => result_value v | None => result_error TypeErrorInBinary end.

Definition divide (l r : ComptimeValue) : eval ComptimeResult :=
  match l, r with
  | VInt a, VInt b =>
      if b =? 0 then Done (result_error DivisionByZero) else typed (int_result (Z.quot a b))
  | _, _ =>
      if is_float l || is_float r then
        let! a := as_double l in
        let! b := as_double r in
        if is_zero b then Done (result_error DivisionByZero)
        else Done (result_value (comptime_value_from_float (SFdiv 53 1024 a b)))
      else Done (result_error TypeErrorInBinary)
  end.

(** The arms that read the operands' types: a null operand is followed. *)
Definition on_values (k : ComptimeValue -> ComptimeValue -> eval ComptimeResult)
    (l r : option ComptimeValue) : eval ComptimeResult :=
  match l, r with Some l, Some r => k l r | _, _ => UB "type of a null value" end.

Definition binary_operation (op : TokenType) (l r : option ComptimeValue) : eval ComptimeResult :=
  match op with
  | TOKEN_PLUS =>
      on_values (fun l r => typed (arith Z.add (SFadd 53 1024) (Done (concat l r)) l r)) l r
  | TOKEN_MINUS => on_values (fun l r => typed (arith Z.sub (SFsub 53 1024) no_result l r)) l r
  | TOKEN_MULTIPLY => on_values (fun l r => typed (arith Z.mul (SFmul 53 1024) no_result l r)) l r
  | TOKEN_DIVIDE => on_values divide l r
  | TOKEN_EQ =>
      on_values (fun l r => typed (compare Z.eqb SFeqb (Done (on_bools Bool.eqb l r)) l r)) l r
  | TOKEN_NE =>
      on_values (fun l r => typed (compare (fun a b => negb (a =? b)) (fun a b => negb (SFeqb a b))
        (Done (on_bools xorb l r)) l r)) l r
  | TOKEN_LT => on_values (fun l r => typed (compare Z.ltb SFltb no_result l r)) l r
  | TOKEN_LE => on_values (fun l r => typed (compare Z.leb SFleb no_result l r)) l r
  | TOKEN_GT =>
      on_values (fun l r => typed (compare Z.gtb (fun a b => SFltb b a) no_result l r)) l r
  | TOKEN_GE =>
      on_values (fun l r => typed (compare Z.geb (fun a b => SFleb b a) no_result l r)) l r
  | TOKEN_AND =>
      Done (result_value (comptime_value_from_bool
        (comptime_value_is_truthy l && comptime_value_is_truthy r)))
  | TOKEN_OR =>
      Done (result_value (comptime_value_from_bool
        (comptime_value_is_truthy l || comptime_value_is_truthy r)))
  | _ => Done (result_error (UnsupportedBinaryOperator op))
  end.

Definition unary_operation (op : TokenType) (v : option ComptimeValue) : eval ComptimeResult :=
  match op with
  | TOKEN_MINUS =>
      match v with
      | None => UB "type of a null value"
      | Some (VInt z) => typed (int_result (- z))
      | Some (VFloat f) => Done (result_value (comptime_value_from_float (SFopp f)))
      | Some _ => Done (result_error TypeErrorInUnary)
      end
  | TOKEN_PLUS =>
      match v with
      | None => UB "type of a null value"
      | Some (VInt z) => Done (result_value (comptime_value_from_int z))
      | Some (VFloat f) => Done (result_value (comptime_value_from_float f))
      | Some _ => Done (result_error TypeErrorInUnary)
      end
  | TOKEN_NOT =>
      Done (result_value (comptime_value_from_bool (negb (comptime_value_is_truthy v))))
  | _ => Done (result_error (UnsupportedUnaryOperator op))
  end.

(** ** Intrinsics called by name *)
Definition comptime_intrinsic_emit (ctx : context) (code : option ComptimeValue)
  : eval (ComptimeResult * context) :=
  match ctx, code with
  | f :: parents, Some code =>
      match code with
      | VString None => UB "strlen of a null pointer"
      | VString (Some s) =>
          Done (result_value (comptime_value_new COMPTIME_VALUE_NULL),
                set_code (Some (default "" (generated_code f) +:+ s)) f :: parents)
      | _ => Done (result_error EmitRequiresString, ctx)
      end
  | _, _ => Done (result_error (InvalidIntrinsicArgument "@emit"), ctx)
  end.

Definition type_name (t : ComptimeValueType) : string :=
  match t with
  | COMPTIME_VALUE_INT => "int" | COMPTIME_VALUE_FLOAT => "float" | COMPTIME_VALUE_BOOL => "bool"
  | COMPTIME_VALUE_STRING => "string" | COMPTIME_VALUE_ARRAY => "array"
  | COMPTIME_VALUE_STRUCT => "struct" | COMPTIME_VALUE_FUNCTION => "function"
  | COMPTIME_VALUE_TYPE => "type" | COMPTIME_VALUE_NULL => "null"
  | COMPTIME_VALUE_UNDEFINED => "undefined"
  end.

Definition comptime_intrinsic_typeof (ctx : context) (v : option ComptimeValue) : ComptimeResult :=
  match ctx, v with
  | _ :: _, Some v => result_value (comptime_value_from_string (type_name (value_type v)))
  | _, _ => result_error (InvalidIntrinsicArgument "@typeof")
  end.

Definition comptime_intrinsic_sizeof (ctx : context) (v : option ComptimeValue) : ComptimeResult :=
  match ctx, v with
  | _ :: _, Some v =>
      match v with
      | VInt _ | VFloat _ => result_value (comptime_value_from_int 8)
      | VBool _ => result_value (comptime_value_from_int 1)
      | VString s =>
          result_value (comptime_value_from_int
            match s with Some s => Z.of_nat (String.length s) | None => 0 end)
      | VArray es => result_value (comptime_value_from_int (Z.of_nat (List.length es)))
      | _ => result_error NoSizeOfThisType
      end
  | _, _ => result_error (InvalidIntrinsicArgument "@sizeof")
  end.

(** ** Expressions *)
Definition is_intrinsic (name : string) : bool :=
  match name with String c _ => Ascii.eqb c "@" | "" => false end.

Definition comptime_eval_identifier (ctx : context) (name : string) : ComptimeResult :=
  match comptime_context_lookup_var ctx name with
  | Some v => result_value (comptime_value_copy v)
  | None => result_error (UndefinedVariable name)
  end.

(** What a construct does with the result of a part: errors are handed on. *)
Definition then_with (m : eval (ComptimeResult * context))
    (k : ComptimeResult -> context -> eval (ComptimeResult * context))
  : eval (ComptimeResult * context) :=
  let! (r, ctx) := m in if failed r then Done (r, ctx) else k r ctx.

(** The handler of names that begin with [@]; only the first argument is looked at. *)
Definition comptime_eval_function_call
    (evaluate : context -> node -> eval (ComptimeResult * context))
    (ctx : context) (name : string) (args : list node) : eval (ComptimeResult * context) :=
  let with_argument k :=
    match args with
    | [] => Done (result_error (RequiresOneArgument name), ctx)
    | a :: _ => then_with (evaluate ctx a) (fun r ctx => k ctx (value r))
    end in
  if (name =? "@emit")%string then with_argument comptime_intrinsic_emit
  else if (name =? "@typeof")%string then
    with_argument (fun ctx v => Done (comptime_intrinsic_typeof ctx v, ctx))
  else if (name =? "@sizeof")%string then
    with_argument (fun ctx v => Done (comptime_intrinsic_sizeof ctx v, ctx))
  else Done (result_error ComplexFunctionCall, ctx).

Definition MAX_ARGS : nat := 16.

(** The argument loop: the values, or the result that ends the call. *)
Definition eval_args (evaluate : context -> node -> eval (ComptimeResult * context)) :=
  fix go (room : nat) (ctx : context) (args : list node) {struct args}
    : eval ((list ComptimeValue + ComptimeResult) * context) :=
  match args, room with
  | [], _ | _, O => Done (inl [], ctx)
  | a :: args, S room =>
      let! (r, ctx) := evaluate ctx a in
      match error r, value r with
      | None, Some v =>
          let! (rest, ctx) := go room ctx args in
          Done (match rest with inl vs => inl (v :: vs) | inr r => inr r end, ctx)
      | _, _ => Done (inr r, ctx)
      end
  end.

Section calls.
Context (call_user_function : context -> FuncDeclNode -> list ComptimeValue -> eval ComptimeResult).

Definition comptime_eval_function_call_enhanced
    (evaluate : context -> node -> eval (ComptimeResult * context))
    (ctx : context) (function : node) (args : list node) : eval (ComptimeResult * context) :=
  match function with
  | IdentifierNode name =>
      if is_intrinsic name then comptime_eval_function_call evaluate ctx name args
      else match comptime_context_lookup_func ctx name with
           | Some fn =>
               let! (vs, ctx) := eval_args evaluate MAX_ARGS ctx args in
               match vs with
               | inr r => Done (r, ctx)
               | inl vs =>
                   let! r := call_user_function ctx fn vs in
                   Done (set_is_return false r, ctx)
               end
           | None => Done (result_error (UndefinedFunction name), ctx)
           end
  | _ => Done (result_error ComplexFunctionCall, ctx)
  end.

Fixpoint comptime_eval_expression (ctx : context) (expr : node) {struct expr}
  : eval (ComptimeResult * context) :=
  match ctx with
  | [] => Done (result_error InvalidContextOrExpression, ctx)
  | _ =>
    match expr with
    | Null => Done (result_error InvalidContextOrExpression, ctx)
    | LiteralNode t v =>
        Done (comptime_result_new (comptime_value_from_literal t v) None None, ctx)
    | IdentifierNode name => Done (comptime_eval_identifier ctx name, ctx)
    | BinaryExprNode op lhs rhs =>
        then_with (comptime_eval_expression ctx lhs) (fun l ctx =>
        then_with (comptime_eval_expression ctx rhs) (fun r ctx =>
          let! res := binary_operation op (value l) (value r) in Done (res, ctx)))
    | UnaryExprNode op operand =>
        then_with (comptime_eval_expression ctx operand) (fun v ctx =>
          let! res := unary_operation op (value v) in Done (res, ctx))
    | CallExprNode function args =>
        comptime_eval_function_call_enhanced comptime_eval_expression ctx function args
    | SelectorExprNode _ _ | OtherNode => Done (result_error UnsupportedExpression, ctx)
    end
  end.

(** ** Statements *)
Definition bind_or (err : comptime_error) (ctx : context) (name : string) (v : option ComptimeValue)
    (r : ComptimeResult) : eval (ComptimeResult * context) :=
  match comptime_context_bind_var ctx name v with
  | Some ctx => Done (r, ctx)
  | None => Done (result_error err, ctx)
  end.

Definition comptime_eval_statement (ctx : context) (s : stmt) : eval (ComptimeResult * context) :=
  match ctx with
  | [] => Done (result_error InvalidContextOrStatement, ctx)
  | _ =>
    match s with
    | NoStmt => Done (result_error InvalidContextOrStatement, ctx)
    | ExprStmt e => comptime_eval_expression ctx e
    | ConstDecl _ names values =>
        match names with
        | [name] =>
            then_with (comptime_eval_expression ctx values) (fun r ctx =>
              bind_or FailedToBindConstant ctx name (option_map comptime_value_copy (value r)) r)
        | _ => Done (result_error MultipleConstants, ctx)
        end
    | VarDecl names values =>
        match names with
        | [name] =>
            match values with
            | Null =>
                let v := comptime_value_new COMPTIME_VALUE_UNDEFINED in
                bind_or FailedToBindVariable ctx name (Some v) (result_value (comptime_value_copy v))
            | _ =>
                then_with (comptime_eval_expression ctx values) (fun r ctx =>
                  bind_or FailedToBindVariable ctx name (value r)
                    (comptime_result_new (option_map comptime_value_copy (value r)) None None))
            end
        | _ => Done (result_error MultipleVariables, ctx)
        end
    | _ => Done (result_error UnsupportedStatement, ctx)
    end
  end.

(** What [last_result] of a loop points to. *)
Inductive result_ptr : Set := NullResult | Live (r : ComptimeResult) | Dangling.

(** [comptime_result_free]. *)
Definition free_result (p : result_ptr) : eval result_ptr :=
  match p with
  | NullResult => Done NullResult
  | Live _ => Done Dangling
  | Dangling => UB "the result is freed twice"
  end.

Definition MAX_ITERATIONS : nat := 1000.

(** How a round of the loop ends. *)
Inductive loop_exit : Set :=
| Broke (last : result_ptr)             (* the condition does not hold *)
| Exhausted                             (* the limit *)
| Failed (r : ComptimeResult).          (* an error to return *)

Definition should_continue (ctx : context) (condition : node)
  : eval ((bool + ComptimeResult) * context) :=
  match condition with
  | Null => Done (inl true, ctx)
  | _ =>
      let! (r, ctx) := comptime_eval_expression ctx condition in
      Done (if failed r then inr r else inl (comptime_value_is_truthy (value r)), ctx)
  end.

Fixpoint for_loop (rounds : nat) (ctx : context) (condition : node) (post body : stmt)
    (last : result_ptr) : eval (loop_exit * context) :=
  match rounds with
  | O => Done (Exhausted, ctx)
  | S rounds =>
      let! (go_on, ctx) := should_continue ctx condition in
      match go_on with
      | inr r => Done (Failed r, ctx)
      | inl false => Done (Broke last, ctx)
      | inl true =>
          let! _ := free_result last in
          let! (r, ctx) := comptime_eval_statement ctx body in
          if failed r then Done (Failed r, ctx)
          else
            match post with
            | NoStmt => for_loop rounds ctx condition post body (Live r)
            | _ =>
                let! (p, ctx) := comptime_eval_statement ctx post in
                if failed p then Done (Failed p, ctx)
                else for_loop rounds ctx condition post body (Live r)
            end
      end
  end.

(** The loop and what follows it. *)
Definition run_loop (loop_ctx : context) (condition : node) (post body : stmt) (last : result_ptr)
  : eval ComptimeResult :=
  let! (x, loop_ctx) := for_loop MAX_ITERATIONS loop_ctx condition post body last in
  match x with
  | Failed r => Done r
  | Exhausted => Done (result_error LoopIterationLimit)
  | Broke Dangling => UB "a freed result is returned"
  | Broke NullResult => Done (result_value (comptime_value_new COMPTIME_VALUE_NULL))
  | Broke (Live r) =>
      Done (copy_code match loop_ctx with f :: _ => generated_code f | [] => None end r)
  end.

(** The loop has a context of its own on top of [ctx], which it leaves as it was. *)
Definition comptime_eval_for_stmt (ctx : context) (init : stmt) (condition : node) (post body : stmt)
  : eval ComptimeResult :=
  match ctx with
  | [] => Done (result_error InvalidFor)
  | _ =>
      let loop_ctx := comptime_context_new ctx in
      match init with
      | NoStmt => run_loop loop_ctx condition post body NullResult
      | _ =>
          let! (r, loop_ctx) := comptime_eval_statement loop_ctx init in
          if failed r then Done r
          else let! last := free_result (Live r) in run_loop loop_ctx condition post body last
      end
  end.

Definition comptime_eval_return_stmt (ctx : context) (values : node)
  : eval (ComptimeResult * context) :=
  match ctx with
  | [] => Done (result_error InvalidReturn, ctx)
  | _ =>
      match values with
      | Null =>
          Done (set_is_return true (result_value (comptime_value_new COMPTIME_VALUE_NULL)), ctx)
      | _ =>
          then_with (comptime_eval_expression ctx values) (fun r ctx =>
            Done (set_is_return true r, ctx))
      end
  end.

(** The walk over the statements of a block. *)
Definition walk_block (evaluate : context -> stmt -> eval (ComptimeResult * context)) :=
  fix go (ctx : context) (last : option ComptimeResult) (ss : list stmt) {struct ss}
    : eval (ComptimeResult * context) :=
  match ss with
  | [] =>
      Done (default (result_value (comptime_value_new COMPTIME_VALUE_NULL)) last, ctx)
  | s :: ss =>
      let! (r, ctx) := evaluate ctx s in
      if failed r || is_return r then Done (r, ctx) else go ctx (Some r) ss
  end.

(** The block's own context is dropped, with the code generated in it. *)
Definition eval_block_with (evaluate : context -> stmt -> eval (ComptimeResult * context))
    (ctx : context) (statements : list stmt) : eval ComptimeResult :=
  match ctx with
  | [] => Done (result_error InvalidContextOrBlock)
  | _ =>
      let! (r, _) := walk_block evaluate (comptime_context_new ctx) None statements in Done r
  end.

Fixpoint comptime_eval_statement_enhanced (ctx : context) (s : stmt) {struct s}
  : eval (ComptimeResult * context) :=
  match ctx with
  | [] => Done (result_error InvalidContextOrStatement, ctx)
  | _ =>
    match s with
    | NoStmt => Done (result_error InvalidContextOrStatement, ctx)
    | BlockStmt statements =>
        let! r := eval_block_with comptime_eval_statement_enhanced ctx statements in Done (r, ctx)
    | IfStmt condition then_stmt else_stmt =>
        then_with (comptime_eval_expression ctx condition) (fun c ctx =>
          if comptime_value_is_truthy (value c) then comptime_eval_statement_enhanced ctx then_stmt
          else match else_stmt with
               | NoStmt => Done (result_value (comptime_value_new COMPTIME_VALUE_NULL), ctx)
               | _ => comptime_eval_statement_enhanced ctx else_stmt
               end)
    | ForStmt init condition post body =>
        let! r := comptime_eval_for_stmt ctx init condition post body in Done (r, ctx)
    | ReturnStmt values => comptime_eval_return_stmt ctx values
    | FuncDecl fn =>
        match comptime_context_bind_func ctx (func_name fn) fn with
        | Some ctx => Done (result_value (comptime_value_new COMPTIME_VALUE_NULL), ctx)
        | None => Done (result_error FailedToBindFunction, ctx)
        end
    | _ => comptime_eval_statement ctx s
    end
  end.

Definition comptime_eval_block (ctx : context) (block : stmt) : eval ComptimeResult :=
  match block with
  | BlockStmt statements => eval_block_with comptime_eval_statement_enhanced ctx statements
  | _ => Done (result_error InvalidContextOrBlock)
  end.

Definition execute_comptime_block (comptime_block : stmt) (global_ctx : context)
  : eval ComptimeResult :=
  match comptime_block with
  | ComptimeBlock body =>
      let ctx := match global_ctx with [] => comptime_context_new [] | _ => global_ctx end in
      let! r := comptime_eval_block ctx body in
      Done (copy_code match ctx with f :: _ => generated_code f | [] => None end r)
  | _ => Done (result_error InvalidComptimeBlock)
  end.
End calls.

(** ** Calls of user functions *)
(** Parameters and arguments in lockstep, over the declarations and the names of each. *)
Fixpoint bind_params (ctx : context) (params : list string) (args : list ComptimeValue) : context :=
  match params, args with
  | p :: params, a :: args =>
      bind_params (default ctx (comptime_context_bind_var ctx p (Some (comptime_value_copy a))))
        params args
  | _, _ => ctx
  end.

Fixpoint comptime_call_user_function (depth : nat) (ctx : context) (fn : FuncDeclNode)
    (args : list ComptimeValue) : eval ComptimeResult :=
  match depth with
  | O => Deep
  | S depth =>
      match ctx with
      | [] => Done (result_error InvalidFunctionForCall)
      | f :: _ =>
          if max_recursion_depth f <=? current_recursion_depth f then
            Done (result_error MaximumRecursionDepth)
          else
            let func_ctx := set_depth (current_recursion_depth f + 1) new_frame :: ctx in
            let func_ctx := bind_params func_ctx (List.concat (func_params fn)) args in
            let! r :=
              comptime_eval_block (comptime_call_user_function depth) func_ctx (func_body fn) in
            Done (copy_code match func_ctx with f :: _ => generated_code f | [] => None end r)
      end
  end.

(** The engine on an expression, with user calls nested at most [depth] deep. *)
Definition engine (depth : nat) : context -> node -> eval (ComptimeResult * context) :=
  comptime_eval_expression (comptime_call_user_function depth).

(** ** Folding and its test *)
(** The value of a result without an error, which is taken over. *)
Definition folded_value (m : eval (ComptimeResult * context)) : eval (option ComptimeValue * context) :=
  let! (r, ctx) := m in Done (if failed r then None else value r, ctx).

Fixpoint comptime_constant_fold (depth : nat) (ctx : context) (expr : node) {struct expr}
  : eval (option ComptimeValue * context) :=
  match ctx with
  | [] => Done (None, ctx)
  | _ =>
    match expr with
    | LiteralNode t v => Done (comptime_value_from_literal t v, ctx)
    | BinaryExprNode _ lhs rhs =>
        let! (l, ctx) := comptime_constant_fold depth ctx lhs in
        let! (r, ctx) := comptime_constant_fold depth ctx rhs in
        match l, r with
        | Some _, Some _ => folded_value (engine depth ctx expr)
        | _, _ => Done (None, ctx)
        end
    | UnaryExprNode _ operand =>
        let! (v, ctx) := comptime_constant_fold depth ctx operand in
        match v with
        | Some _ => folded_value (engine depth ctx expr)
        | None => Done (None, ctx)
        end
    | IdentifierNode name =>
        Done (option_map comptime_value_copy (comptime_context_lookup_var ctx name), ctx)
    | _ => Done (None, ctx)
    end
  end.

Fixpoint comptime_is_evaluable (ctx : context) (expr : node) : bool :=
  match ctx with
  | [] => false
  | _ =>
    match expr with
    | LiteralNode _ _ => true
    | IdentifierNode name =>
        match comptime_context_lookup_var ctx name with Some _ => true | None => false end
    | BinaryExprNode _ lhs rhs => comptime_is_evaluable ctx lhs && comptime_is_evaluable ctx rhs
    | UnaryExprNode _ operand => comptime_is_evaluable ctx operand
    | CallExprNode (IdentifierNode name) _ =>
        is_intrinsic name ||
        match comptime_context_lookup_func ctx name with Some _ => true | None => false end
    | _ => false
    end
  end.

(** ** The type checker's use of the engine *)
(** The pass that registers every top-level function, methods included, in source order. *)
Definition register_decl (ctx : context) (d : stmt) : context :=
  match d with
  | FuncDecl fn => default ctx (comptime_context_bind_func ctx (func_name fn) fn)
  | _ => ctx
  end.

Definition register_functions (ctx : context) (programs : list (list stmt)) : context :=
  fold_left (fun ctx decls => fold_left register_decl decls ctx) programs ctx.

(** The value that [comptime const] attaches to its variables. *)
Definition comptime_const_value (depth : nat) (raw_ctx : context) (decl : stmt)
  : eval (option ComptimeValue * context) :=
  match decl, raw_ctx with
  | ConstDecl true _ values, _ :: _ =>
      let! (r, raw_ctx) := engine depth raw_ctx values in
      Done (if failed r then None else option_map comptime_value_copy (value r), raw_ctx)
  | _, _ => Done (None, raw_ctx)
  end.

(** An argument of a comptime parameter: the values captured so far with it, or a type error. *)
Definition type_check_capture_comptime_arg (depth : nat) (ck : Checker) (raw_ctx : context)
    (captured : list Z) (arg : node) : eval (option (list Z) * context) :=
  let folded := if goo_expr_references_comptime_param ck arg then None
                else goo_fold_const_int_ctx ck arg in
  match folded, raw_ctx with
  | Some v, _ => Done (Some (captured ++ [to_i64 v])%list, raw_ctx)
  | None, [] => Done (None, raw_ctx)
  | None, _ :: _ =>
      let! (r, raw_ctx) := engine depth raw_ctx arg in
      Done (match value r, error r with
            | Some (VInt z), None => Some (captured ++ [z])%list
            | _, _ => None
            end, raw_ctx)
  end.
End engine.
