(* ===== verification/ComptimeSem.v ===== *)
(** * ComptimeSem: what the functions that the engine evaluates mean.

    A big-step semantics of the integer and boolean functions of the language: scopes are lexical, a
    call sees its parameters only, [&&] and [||] look at their right operand only when they must,
    integers have 64 bits and wrap.  With [strict] the semantics asks in addition that no operation
    overflows and that both operands of [&&] and [||] have values: the runs that the engine is able
    to follow.  [checked_program] is the part of the type checker's verdict that the theorems use:
    the functions have distinct names and none is a method, variables are declared before their use and
    once per scope, operands and arguments have the types their operators and parameters ask for, and
    bodies end in a return by the missing-return analysis of [Terminating].  [table] is what the
    language makes of a name in a call, a function and never a method; [declarations] is what the
    engine searches, every declaration in its order. *)
From Stdlib Require Import ZArith Lia Ascii String Bool SpecFloat.
From stdpp Require Import base list numbers option strings pretty gmap.
From S2P Require Import Prelude Numeral Token Types Terminating ConstExpr Comptime.
Local Open Scope string_scope.
Local Open Scope Z_scope.

(** ** Values *)
Inductive gval : Set := GInt (z : Z) | GBool (b : bool).
Inductive gtype : Set := TInt | TBool.

#[export] Instance gtype_eq_dec : EqDecision gtype.
Proof. solve_decision. Defined.

Definition gtype_of (v : gval) : gtype := match v with GInt _ => TInt | GBool _ => TBool end.
Definition inject (v : gval) : ComptimeValue := match v with GInt z => VInt z | GBool b => VBool b end.

(** Scopes, innermost first. *)
Abbreviation scopes A := (list (gmap string A)).

Fixpoint resolve {A} (env : scopes A) (x : string) : option A :=
  match env with
  | [] => None
  | m :: env => match m !! x with Some a => Some a | None => resolve env x end
  end.

Definition declare {A} (env : scopes A) (x : string) (a : A) : scopes A :=
  match env with [] => [] | m :: env => <[x := a]> m :: env end.

Definition parameters (fn : FuncDeclNode) : list string := List.concat (func_params fn).

(** ** Operators *)
Definition wrap64 (z : Z) : Z := to_i64 (u64 z).

(** The exact result of an operator on two values, before it is wrapped. *)
Definition go_binary (op : TokenType) (a b : gval) : option gval :=
  match op, a, b with
  | TOKEN_PLUS, GInt a, GInt b => Some (GInt (a + b))
  | TOKEN_MINUS, GInt a, GInt b => Some (GInt (a - b))
  | TOKEN_MULTIPLY, GInt a, GInt b => Some (GInt (a * b))
  | TOKEN_DIVIDE, GInt a, GInt b => if b =? 0 then None else Some (GInt (Z.quot a b))
  | TOKEN_LT, GInt a, GInt b => Some (GBool (a <? b))
  | TOKEN_LE, GInt a, GInt b => Some (GBool (a <=? b))
  | TOKEN_GT, GInt a, GInt b => Some (GBool (b <? a))
  | TOKEN_GE, GInt a, GInt b => Some (GBool (b <=? a))
  | TOKEN_EQ, GInt a, GInt b => Some (GBool (a =? b))
  | TOKEN_NE, GInt a, GInt b => Some (GBool (negb (a =? b)))
  | TOKEN_EQ, GBool a, GBool b => Some (GBool (Bool.eqb a b))
  | TOKEN_NE, GBool a, GBool b => Some (GBool (negb (Bool.eqb a b)))
  | _, _, _ => None
  end.

Definition go_unary (op : TokenType) (a : gval) : option gval :=
  match op, a with
  | TOKEN_MINUS, GInt a => Some (GInt (- a))
  | TOKEN_NOT, GBool a => Some (GBool (negb a))
  | _, _ => None
  end.

(** [&&] and [||] on both values, and the left value that decides alone. *)
Definition go_logical (op : TokenType) (a b : bool) : option bool :=
  match op with TOKEN_AND => Some (a && b) | TOKEN_OR => Some (a || b) | _ => None end.
Definition decides (op : TokenType) (a : bool) : bool :=
  match op with TOKEN_AND => negb a | TOKEN_OR => a | _ => false end.

Definition wrapped (v : gval) : gval := match v with GInt z => GInt (wrap64 z) | v => v end.
Definition in_range (v : gval) : bool := match v with GInt z => is_i64 z | GBool _ => true end.

(** ** Runs *)
Inductive flow : Set := Falls | Returns (v : gval).

Section runs.
Context (strict : bool) (prog : list (string * FuncDeclNode)).

(** The frame a call starts with. *)
Definition arguments (fn : FuncDeclNode) (vs : list gval) : gmap string gval :=
  list_to_map (zip (parameters fn) vs).

Inductive evaluates : scopes gval -> node -> gval -> Prop :=
| ev_int env z : is_i64 z = true -> evaluates env (LiteralNode TOKEN_INT (pretty z)) (GInt z)
| ev_true env t : evaluates env (LiteralNode TOKEN_TRUE t) (GBool true)
| ev_false env t : evaluates env (LiteralNode TOKEN_FALSE t) (GBool false)
| ev_var env x v : resolve env x = Some v -> evaluates env (IdentifierNode x) v
| ev_unary env op e v w :
    evaluates env e v -> go_unary op v = Some w -> (strict = true -> in_range w = true) ->
    evaluates env (UnaryExprNode op e) (wrapped w)
| ev_plus env e z : evaluates env e (GInt z) -> evaluates env (UnaryExprNode TOKEN_PLUS e) (GInt z)
| ev_binary env op l r a b w :
    evaluates env l a -> evaluates env r b -> go_binary op a b = Some w ->
    (strict = true -> in_range w = true) ->
    evaluates env (BinaryExprNode op l r) (wrapped w)
| ev_both env op l r a b c :
    evaluates env l (GBool a) -> evaluates env r (GBool b) -> go_logical op a b = Some c ->
    evaluates env (BinaryExprNode op l r) (GBool c)
| ev_left env op l r a :
    strict = false -> evaluates env l (GBool a) -> decides op a = true ->
    evaluates env (BinaryExprNode op l r) (GBool a)
| ev_call env f args fn vs v env' :
    named f prog = Some fn -> evaluate env args vs ->
    executes [arguments fn vs] (func_body fn) (Returns v) env' ->
    evaluates env (CallExprNode (IdentifierNode f) args) v
with evaluate : scopes gval -> list node -> list gval -> Prop :=
| ev_none env : evaluate env [] []
| ev_more env e es v vs : evaluates env e v -> evaluate env es vs -> evaluate env (e :: es) (v :: vs)
with executes : scopes gval -> stmt -> flow -> scopes gval -> Prop :=
| ex_expr env e v : evaluates env e v -> executes env (ExprStmt e) Falls env
| ex_var env x e v :
    evaluates env e v -> executes env (VarDecl [x] e) Falls (declare env x v)
| ex_const env c x e v :
    evaluates env e v -> executes env (ConstDecl c [x] e) Falls (declare env x v)
| ex_block env ss o env' : runs (∅ :: env) ss o env' -> executes env (BlockStmt ss) o env
| ex_if env c t e b o env' :
    evaluates env c (GBool b) -> executes env (if b then t else e) o env' ->
    executes env (IfStmt c t e) o env
| ex_none env : executes env NoStmt Falls env
| ex_return env e v : evaluates env e v -> executes env (ReturnStmt e) (Returns v) env
with runs : scopes gval -> list stmt -> flow -> scopes gval -> Prop :=
| run_nil env : runs env [] Falls env
| run_return env s ss v env' : executes env s (Returns v) env' -> runs env (s :: ss) (Returns v) env'
| run_cons env s ss o env' env'' :
    executes env s Falls env' -> runs env' ss o env'' -> runs env (s :: ss) o env''.
End runs.

Scheme evaluates_mind := Induction for evaluates Sort Prop
with evaluate_mind := Induction for evaluate Sort Prop
with executes_mind := Induction for executes Sort Prop
with runs_mind := Induction for runs Sort Prop.
Combined Scheme run_mutind from evaluates_mind, evaluate_mind, executes_mind, runs_mind.

(** ** The checked programs *)
(** Parameter and result types of the functions. *)
Abbreviation signatures := (gmap string (list gtype * gtype)).

Definition binary_type (op : TokenType) (a b : gtype) : option gtype :=
  match op, a, b with
  | (TOKEN_PLUS | TOKEN_MINUS | TOKEN_MULTIPLY | TOKEN_DIVIDE), TInt, TInt => Some TInt
  | (TOKEN_LT | TOKEN_LE | TOKEN_GT | TOKEN_GE), TInt, TInt => Some TBool
  | (TOKEN_EQ | TOKEN_NE), TInt, TInt | (TOKEN_EQ | TOKEN_NE), TBool, TBool => Some TBool
  | (TOKEN_AND | TOKEN_OR), TBool, TBool => Some TBool
  | _, _, _ => None
  end.

Definition unary_type (op : TokenType) (a : gtype) : option gtype :=
  match op, a with
  | (TOKEN_MINUS | TOKEN_PLUS), TInt => Some TInt
  | TOKEN_NOT, TBool => Some TBool
  | _, _ => None
  end.

Section checking.
Context (sigs : signatures).

Fixpoint type_of (G : scopes gtype) (e : node) : option gtype :=
  match e with
  | LiteralNode TOKEN_INT t => if (pretty (atoll t) =? t)%string then Some TInt else None
  | LiteralNode TOKEN_TRUE _ | LiteralNode TOKEN_FALSE _ => Some TBool
  | IdentifierNode x => resolve G x
  | UnaryExprNode op e => match type_of G e with Some t => unary_type op t | None => None end
  | BinaryExprNode op l r =>
      match type_of G l, type_of G r with Some a, Some b => binary_type op a b | _, _ => None end
  | CallExprNode (IdentifierNode f) args =>
      if is_intrinsic f || bool_decide (is_Some (resolve G f)) || (16 <? Z.of_nat (List.length args))
      then None
      else match sigs !! f with
           | Some (ts, t) =>
               if all2 (fun e t => bool_decide (type_of G e = Some t)) args ts then Some t else None
           | None => None
           end
  | _ => None
  end.

(** A declaration in the innermost scope, where the name is new. *)
Definition declared (G : scopes gtype) (x : string) (t : option gtype) : option (scopes gtype) :=
  match G, t with
  | m :: _, Some t => if bool_decide (is_Some (m !! x)) then None else Some (declare G x t)
  | _, _ => None
  end.

Definition is_branch (s : stmt) : bool :=
  match s with BlockStmt _ | IfStmt _ _ _ => true | _ => false end.

Definition check_list (check : scopes gtype -> stmt -> option (scopes gtype)) :=
  fix go (G : scopes gtype) (ss : list stmt) : bool :=
    match ss with
    | [] => true
    | s :: ss => match check G s with Some G => go G ss | None => false end
    end.

(** The scopes after the statement. *)
Fixpoint check_stmt (ret : gtype) (G : scopes gtype) (s : stmt) : option (scopes gtype) :=
  match s with
  | ExprStmt e => match type_of G e with Some _ => Some G | None => None end
  | VarDecl [x] e | ConstDecl _ [x] e => declared G x (type_of G e)
  | BlockStmt ss => if check_list (check_stmt ret) (∅ :: G) ss then Some G else None
  | IfStmt c t e =>
      if bool_decide (type_of G c = Some TBool) && is_branch t &&
         match check_stmt ret G t with Some _ => true | None => false end &&
         match e with
         | NoStmt => true
         | _ => is_branch e && match check_stmt ret G e with Some _ => true | None => false end
         end
      then Some G else None
  | ReturnStmt e => if bool_decide (type_of G e = Some ret) then Some G else None
  | _ => None
  end.

(** ** The statement as the missing-return analysis sees it *)
Fixpoint shape (s : Comptime.stmt) : Terminating.stmt :=
  match s with
  | NoStmt => Terminating.Null
  | ExprStmt _ => Terminating.ExprStmt OtherExpr
  | BlockStmt ss => Terminating.BlockStmt (foldr (fun s rest => SCons (shape s) rest) SNil ss)
  | IfStmt _ t e => Terminating.IfStmt (shape t) (shape e)
  | ReturnStmt _ => Terminating.ReturnStmt
  | _ => SimpleStmt
  end.

Definition check_function (fn : FuncDeclNode) (ts : list gtype) (t : gtype) : bool :=
  bool_decide (NoDup (parameters fn)) && (List.length (parameters fn) =? List.length ts)%nat &&
  match func_body fn with BlockStmt _ => true | _ => false end &&
  match check_stmt t [list_to_map (zip (parameters fn) ts)] (func_body fn) with
  | Some _ => true
  | None => false
  end &&
  stmt_is_terminating (shape (func_body fn)).
End checking.

Definition has_receiver (fn : FuncDeclNode) : bool := let 'mkFunc _ _ r _ := fn in r.

Definition checked_program (sigs : signatures) (fns : list FuncDeclNode) : bool :=
  bool_decide (NoDup (map func_name fns)) && forallb (fun fn => negb (has_receiver fn)) fns &&
  forallb (fun fn =>
    match sigs !! func_name fn with
    | Some (ts, t) => check_function sigs fn ts t
    | None => false
    end) fns.

(** The context that the type checker builds for them. *)
Definition root_context (fns : list FuncDeclNode) : context :=
  register_functions [new_frame] [map FuncDecl fns].
Definition declarations (fns : list FuncDeclNode) : list (string * FuncDeclNode) :=
  map (fun fn => (func_name fn, fn)) fns.

(** The functions that a call by name can mean: methods are called through their receivers. *)
Definition table (fns : list FuncDeclNode) : list (string * FuncDeclNode) :=
  declarations (List.filter (fun fn => negb (has_receiver fn)) fns).
