(* ===== verification/ComptimeFacts.v ===== *)
(** * ComptimeFacts: the engine and the semantics, operation by operation.

    Literals, operators and lookups, the frames that stand for scopes ([view]), what the
    missing-return analysis says of a run, and the two simulations by induction: from the engine to a
    strict run and from a strict run to the engine. *)
From Stdlib Require Import ZArith Lia Ascii String Bool SpecFloat.
From stdpp Require Import base list numbers option strings pretty gmap.
From S2P Require Import Prelude Numeral Token Types Terminating ConstExpr Comptime ComptimeSem.
Local Open Scope string_scope.
Local Open Scope Z_scope.
Local Open Scope list_scope.

Section stmt_ind.
Context (P : Comptime.stmt -> Prop).
Hypothesis (HNo : P NoStmt).
Hypothesis (HExpr : forall e, P (ExprStmt e)).
Hypothesis (HConst : forall c xs e, P (ConstDecl c xs e)).
Hypothesis (HVar : forall xs e, P (VarDecl xs e)).
Hypothesis (HBlock : forall ss, Forall P ss -> P (BlockStmt ss)).
Hypothesis (HIf : forall c t e, P t -> P e -> P (IfStmt c t e)).
Hypothesis (HFor : forall i c p b, P (ForStmt i c p b)).
Hypothesis (HReturn : forall e, P (ReturnStmt e)).
Hypothesis (HFunc : forall f, P (FuncDecl f)).
Hypothesis (HComptime : forall b, P (ComptimeBlock b)).
Hypothesis (HOther : P OtherStmt).

Fixpoint stmt_ind (s : Comptime.stmt) : P s :=
  match s with
  | NoStmt => HNo
  | ExprStmt e => HExpr e
  | ConstDecl c xs e => HConst c xs e
  | VarDecl xs e => HVar xs e
  | BlockStmt ss =>
      HBlock ss ((fix all (ss : list Comptime.stmt) : Forall P ss :=
        match ss with
        | [] => @List.Forall_nil _ P
        | s :: ss => @List.Forall_cons _ P _ _ (stmt_ind s) (all ss)
        end) ss)
  | IfStmt c t e => HIf c t e (stmt_ind t) (stmt_ind e)
  | ForStmt i c p b => HFor i c p b
  | ReturnStmt e => HReturn e
  | FuncDecl f => HFunc f
  | ComptimeBlock b => HComptime b
  | OtherStmt => HOther
  end.
End stmt_ind.

(** ** Numbers *)
Lemma is_i64_spec z : is_i64 z = true <-> - 2 ^ 63 <= z < 2 ^ 63.
Proof. unfold is_i64. rewrite andb_true_iff, Z.leb_le, Z.ltb_lt. done. Qed.

Lemma wrap64_small z : is_i64 z = true -> wrap64 z = z.
Proof.
  rewrite is_i64_spec. intros Hz. unfold wrap64, to_i64, wrap.
  destruct (decide (0 <= z)).
  - rewrite Z.mod_small by lia. destruct (Z.ltb_spec z (2 ^ 63)); lia.
  - rewrite <- (Z.mod_unique_pos z (2 ^ 64) (-1) (z + 2 ^ 64)) by lia.
    destruct (Z.ltb_spec (z + 2 ^ 64) (2 ^ 63)); lia.
Qed.

Lemma wrapped_in_range w : in_range w = true -> wrapped w = w.
Proof. destruct w as [z|]; simpl; [|done]. intros Hz. by rewrite wrap64_small. Qed.

Lemma decimal_value (n : N) : digits 10 0 (pretty n) = Z.of_N n.
Proof.
  destruct (decide (n = 0)%N) as [->|Hn]; [done|].
  unfold pretty, pretty_N. rewrite decide_False by done.
  destruct (digits_pretty_go n "") as (k & _ & ->). done.
Qed.

Lemma atoll_pretty z : is_i64 z = true -> atoll (pretty z) = z.
Proof.
  rewrite is_i64_spec. intros Hz.
  assert (forall n : N, Z.of_N n < 2 ^ 63 -> atoll (pretty n) = Z.of_N n) as Hn.
  { intros n Hn. destruct (pretty_no_sign n) as (c & rest & E & Hm & Hp). unfold atoll. rewrite E.
    repeat case_match; simplify_eq; rewrite <- E, decimal_value; lia. }
  destruct z as [|p|p].
  - done.
  - change (pretty (Zpos p)) with (pretty (Npos p)). rewrite Hn; simpl; lia.
  - change (atoll (pretty (Zneg p))) with (Z.max (- 2 ^ 63) (- digits 10 0 (pretty (Npos p)))).
    rewrite decimal_value. simpl. lia.
Qed.

Lemma atoll_range s : is_i64 (atoll s) = true.
Proof.
  rewrite is_i64_spec. unfold atoll.
  assert (forall s, 0 <= digits 10 0 s) by (intros; by apply digits_nonneg).
  repeat case_match; match goal with |- context [digits 10 0 ?t] => pose proof (H t) end; lia.
Qed.

(** ** Tables and contexts *)
Lemma root_context_eq fns : root_context fns = [set_funcs (declarations fns) new_frame].
Proof.
  unfold root_context, register_functions, declarations. simpl.
  assert (forall fs, fold_left register_decl (map FuncDecl fns) [set_funcs fs new_frame] =
    [set_funcs (fs ++ map (fun fn => (func_name fn, fn)) fns) new_frame]) as H.
  { induction fns as [|fn fns IH]; intros fs; simpl; [by rewrite app_nil_r|].
    change (set_funcs (fs ++ [(func_name fn, fn)]) (set_funcs fs new_frame))
      with (set_funcs (fs ++ [(func_name fn, fn)]) new_frame).
    rewrite IH. by rewrite <- app_assoc. }
  apply (H []).
Qed.

Lemma named_app {A} x (l k : list (string * A)) :
  named x (l ++ k) = match named x l with Some a => Some a | None => named x k end.
Proof. induction l as [|[y a] l IH]; simpl; [done|]. by destruct (y =? x)%string. Qed.

Lemma named_in_entries {A} x (l : list (string * A)) a : named x l = Some a -> (x, a) ∈ l.
Proof.
  induction l as [|[y b] l IH]; simpl; [done|]. destruct (String.eqb_spec y x); intros H.
  - simplify_eq. by left.
  - right. auto.
Qed.

(** A frame that stands for a scope. *)
Definition frame_ok (f : frame) (m : gmap string gval) : Prop :=
  (forall x, named x (vars f) = inject <$> m !! x) /\ funcs f = [] /\ generated_code f = None.

Definition shallow (ctx : context) : Prop :=
  match ctx with
  | f :: _ => current_recursion_depth f < max_recursion_depth f
  | [] => False
  end.

Section view.
Context (prog : list (string * FuncDeclNode)).

(** [ctx] has the scopes of [env] on top of frames that know the functions. *)
Definition view (ctx : context) (env : scopes gval) : Prop :=
  shallow ctx /\ exists fs base, ctx = fs ++ base /\ Forall2 frame_ok fs env /\
    forall x, comptime_context_lookup_func base x = named x prog.

Definition types (env : scopes gval) : scopes gtype := map (fmap gtype_of) env.

Lemma resolve_types env x : resolve (types env) x = gtype_of <$> resolve env x.
Proof.
  induction env as [|m env IH]; simpl; [done|]. rewrite lookup_fmap.
  by destruct (m !! x); simpl.
Qed.

Lemma types_declare env x v : types (declare env x v) = declare (types env) x (gtype_of v).
Proof. destruct env; simpl; [done|]. by rewrite fmap_insert. Qed.

Lemma view_shallow ctx env : view ctx env -> exists f parents, ctx = f :: parents /\
  current_recursion_depth f < max_recursion_depth f.
Proof. intros [Hs _]. destruct ctx as [|f parents]; [done|]. by exists f, parents. Qed.

Lemma view_var ctx env x v : view ctx env -> resolve env x = Some v ->
  comptime_context_lookup_var ctx x = Some (inject v).
Proof.
  intros (_ & fs & base & -> & Hf & _). induction Hf as [|f m fs env [Hm _] Hf IH]; simpl; [done|].
  rewrite Hm. destruct (m !! x) as [w|]; simpl; [by intros [= ->]|]. exact IH.
Qed.

Lemma view_func ctx env x : view ctx env -> comptime_context_lookup_func ctx x = named x prog.
Proof.
  intros (_ & fs & base & -> & Hf & Hb).
  induction Hf as [|f m fs env (_ & Hm & _) Hf IH]; simpl; [done|]. by rewrite Hm.
Qed.

Lemma frame_ok_new : frame_ok new_frame ∅.
Proof. split; [|done]. intros x. by rewrite lookup_empty. Qed.

Lemma view_block ctx env : view ctx env -> view (comptime_context_new ctx) (∅ :: env).
Proof.
  intros (_ & fs & base & -> & Hf & Hb). split; [done|]. exists (new_frame :: fs), base.
  split; [done|]. split; [|done]. constructor; [apply frame_ok_new|done].
Qed.

Lemma view_bind ctx m env x v : view ctx (m :: env) -> m !! x = None -> exists ctx',
  comptime_context_bind_var ctx x (Some (inject v)) = Some ctx' /\ view ctx' (declare (m :: env) x v).
Proof.
  intros (Hs & fs & base & -> & Hf & Hb) Hx. apply Forall2_cons_inv_r in Hf as (f & fs' & (Hm & Hq & Hg) & Hr & ->).
  simpl. eexists. split; [done|]. split; [exact Hs|].
  eexists (_ :: fs'), base. split; [done|]. split; [|done]. constructor; [|done].
  split; [|done]. intros y. simpl. rewrite named_app, Hm. simpl.
  destruct (String.eqb_spec x y) as [->|Hn].
  - by rewrite lookup_insert_eq, Hx.
  - rewrite lookup_insert_ne by done. by destruct (m !! y).
Qed.

(** The context a body runs in. *)
Lemma bind_params_frame fn vs f parents :
  NoDup (parameters fn) -> List.length vs = List.length (parameters fn) ->
  vars f = [] -> funcs f = [] -> generated_code f = None ->
  exists f', bind_params (f :: parents) (parameters fn) (map inject vs) = f' :: parents /\
    frame_ok f' (arguments fn vs) /\ generated_code f' = None.
Proof.
  intros Hn Hl Hv Hf Hg.
  assert (forall ps vs f (m : gmap string gval), NoDup ps -> List.length vs = List.length ps ->
    frame_ok f m -> (forall x, x ∈ ps -> m !! x = None) ->
    exists f', bind_params (f :: parents) ps (map inject vs) = f' :: parents /\
      frame_ok f' (list_to_map (zip ps vs) ∪ m)) as H.
  { clear. intros ps. induction ps as [|p ps IH]; intros [|v vs] f m Hn Hl Hf Hm; simplify_eq/=.
    - exists f. split; [done|]. by rewrite (left_id_L ∅ (∪)).
    - apply NoDup_cons in Hn as [Hp Hn].
      destruct (IH vs (set_vars (vars f ++ [(p, comptime_value_copy (inject v))]) f) (<[p:=v]> m))
        as (f' & E & Hf'); [done|done| | |].
      + destruct Hf as (Hv & Hq & Hg). split; [|done]. intros x. simpl. rewrite named_app, Hv. simpl.
        destruct (String.eqb_spec p x) as [->|Hx].
        * rewrite lookup_insert_eq, Hm by by left. by destruct v.
        * rewrite lookup_insert_ne by done. by destruct (m !! x).
      + intros x Hx. rewrite lookup_insert_ne by (by intros ->). apply Hm. by right.
      + exists f'. split; [exact E|].
        simpl. rewrite <- insert_union_l, insert_union_r; [exact Hf'|]. apply not_elem_of_list_to_map_1.
        by rewrite fst_zip by lia. }
  destruct (H (parameters fn) vs f ∅ Hn Hl) as (f' & E & Hf'); [|done|].
  - split; [|done]. intros x. by rewrite Hv, lookup_empty.
  - exists f'. rewrite (right_id_L ∅ (∪)) in Hf'. split; [exact E|]. split; [exact Hf'|]. apply Hf'.
Qed.
End view.

(** ** Operators *)
Lemma inject_copy v : comptime_value_copy (inject v) = inject v.
Proof. by destruct v. Qed.

Definition plain (r : ComptimeResult) : Prop := is_return r = false /\ result_code r = None.

(** A result with its value: what the engine makes of a value of the semantics. *)
Definition returns_value (v : gval) : ComptimeResult := result_value (inject v).

(** What a binary operation may give: an error, or a value that the strict semantics has. *)
Definition allowed (op : TokenType) (a b w : gval) : Prop :=
  (exists x, go_binary op a b = Some x /\ in_range x = true /\ w = wrapped x) \/
  (exists x y c, a = GBool x /\ b = GBool y /\ go_logical op x y = Some c /\ w = GBool c).

Section operators.
Context (format_g : spec_float -> string).

Lemma binary_sound op a b t r : binary_type op (gtype_of a) (gtype_of b) = Some t ->
  binary_operation format_g op (Some (inject a)) (Some (inject b)) = Done r ->
  (exists e, r = result_error e) \/
  exists w, r = returns_value w /\ gtype_of w = t /\ allowed op a b w.
Proof.
  intros Ht Hr. unfold allowed.
  destruct op; try discriminate Ht; destruct a as [a|a], b as [b|b]; try discriminate Ht;
    injection Ht as <-; simpl in Hr; unfold typed, arith, compare, numeric, int_result in Hr; simpl in Hr;
    try match type of Hr with context [b =? 0] => destruct (b =? 0) eqn:Hb end;
    try match type of Hr with context [is_i64 ?z] => destruct (is_i64 z) eqn:Hz end;
    simplify_eq/=; try (by left; eexists); right;
    first [ eexists (GInt _); split; [reflexivity|] | eexists (GBool _); split; [reflexivity|] ];
    (split; [reflexivity|]).
  all: try (right; by do 3 eexists).
  all: left; eexists; split; [simpl; try rewrite Hb; reflexivity|]; (split; [simpl; done|]).
  all: simpl; try (by rewrite wrap64_small).
  all: rewrite ?Z.gtb_ltb, ?Z.geb_leb; try done.
  by destruct a, b.
Qed.

Lemma binary_complete op a b w : go_binary op a b = Some w -> in_range w = true ->
  binary_operation format_g op (Some (inject a)) (Some (inject b)) = Done (returns_value (wrapped w)).
Proof.
  intros Hw Hi. destruct op; try discriminate Hw; destruct a as [a|a], b as [b|b]; try discriminate Hw;
    simpl in Hw; simpl; unfold typed, arith, compare, numeric, int_result; simpl;
    try (destruct (b =? 0) eqn:Hb; [discriminate Hw|]); injection Hw as <-; simpl in Hi;
    try rewrite Hi; simpl; rewrite ?wrap64_small, ?Z.gtb_ltb, ?Z.geb_leb by done; try done.
  by destruct a, b.
Qed.

Lemma logical_complete op a b c : go_logical op a b = Some c ->
  binary_operation format_g op (Some (VBool a)) (Some (VBool b)) = Done (returns_value (GBool c)).
Proof. intros Hc. destruct op; try discriminate Hc; simpl in *; by simplify_eq. Qed.

Lemma unary_sound op a t r : unary_type op (gtype_of a) = Some t ->
  unary_operation op (Some (inject a)) = Done r -> exists w, r = returns_value w /\ gtype_of w = t /\
    ((exists x, go_unary op a = Some x /\ in_range x = true /\ w = wrapped x) \/
     (exists z, op = TOKEN_PLUS /\ a = GInt z /\ w = a)).
Proof.
  intros Ht Hr. destruct op; try discriminate Ht; destruct a as [a|a]; try discriminate Ht;
    injection Ht as <-; simpl in Hr; unfold typed, int_result in Hr.
  - simplify_eq. exists (GInt a). split_and!; [done..|]. right. by eexists.
  - destruct (is_i64 (- a)) eqn:Hz; simpl in Hr; [|discriminate Hr]. simplify_eq.
    exists (GInt (- a)). split_and!; [done..|]. left. eexists. split_and!; [done..|]. simpl. by rewrite wrap64_small.
  - simplify_eq. exists (GBool (negb a)). split_and!; [done..|]. left. by eexists.
Qed.

Lemma unary_complete op a w : go_unary op a = Some w -> in_range w = true ->
  unary_operation op (Some (inject a)) = Done (returns_value (wrapped w)).
Proof.
  intros Hw Hi. destruct op; try discriminate Hw; destruct a as [a|a]; try discriminate Hw;
    injection Hw as <-; simpl in Hi; simpl; unfold typed, int_result; simpl; [|done].
  rewrite Hi. simpl. by rewrite wrap64_small.
Qed.
End operators.

(** ** The missing-return analysis on a run *)
Abbreviation shapes := (foldr (fun s rest => SCons (shape s) rest) SNil).

Lemma shape_no_goto s : contains_goto (shape s) = false.
Proof.
  induction s as [| | | |ss Hss|c t e IHt IHe| | | | |] using stmt_ind; simpl; try done.
  - induction Hss as [|s ss Hs _ IH]; simpl; [done|]. by rewrite Hs.
  - by rewrite IHt, IHe.
Qed.

Lemma terminating_returns strict prog :
  (forall env e v, evaluates strict prog env e v -> True) /\
  (forall env es vs, evaluate strict prog env es vs -> True) /\
  (forall env s o env', executes strict prog env s o env' ->
    terminates false false (shape s) [] = true -> o <> Falls) /\
  (forall env ss o env', runs strict prog env ss o env' ->
    any_terminates false (shapes ss) = true -> o <> Falls).
Proof.
  apply run_mutind; try done.
  - intros env c t e b o env' _ _ _ IH. simpl. rewrite !andb_true_iff. intros [[_ Ht] He].
    apply IH. by destruct b.
  - intros env s ss o env' env'' _ IHs _ IH. simpl.
    destruct (terminates false false (shape s) []); [by intros _; contradiction IHs|]. exact IH.
Qed.

Lemma body_returns strict prog env s o env' :
  executes strict prog env s o env' -> stmt_is_terminating (shape s) = true ->
  exists v, o = Returns v.
Proof.
  unfold stmt_is_terminating. rewrite shape_no_goto. intros Hs Ht.
  destruct o as [|v]; [|by exists v]. by destruct (proj1 (proj2 (proj2 (terminating_returns strict prog)))
    env s Falls env' Hs Ht).
Qed.

Lemma branch_scopes strict prog env s o env' :
  executes strict prog env s o env' -> is_branch s = true -> env' = env.
Proof. by destruct 1. Qed.
