(* ===== verification/ComptimeSound.v ===== *)
(** * ComptimeSound: the engine follows the semantics, and the semantics the engine.

    [expr_sound], [stmt_sound] and [call_sound]: where the engine gives a value, a strict run has it;
    by induction on the depth of calls, and on the syntax inside one body.  [strict_runs] is the other
    direction, by induction on the run.  A strict run is a run ([strict_run]), and runs agree on their
    results ([run_unique]). *)
From Stdlib Require Import ZArith Lia Ascii String Bool SpecFloat.
From stdpp Require Import base list numbers option strings pretty gmap.
From S2P Require Import Prelude Numeral Token Types Terminating ConstExpr Comptime ComptimeSem ComptimeFacts.
Local Open Scope string_scope.
Local Open Scope Z_scope.
Local Open Scope list_scope.

Section simulation.
Context (atof : string -> spec_float) (format_g : spec_float -> string).
Context (sigs : signatures) (fns : list FuncDeclNode).
Hypothesis (Hprog : checked_program sigs fns = true).
Let prog := table fns.

Lemma checked_fn f fn ts t : named f prog = Some fn -> sigs !! f = Some (ts, t) ->
  check_function sigs fn ts t = true.
Proof.
  intros Hn Hs. apply named_in_entries in Hn. unfold prog, table, declarations in Hn.
  apply list_elem_of_fmap in Hn as (g & Hg & Hin). injection Hg as -> ->.
  unfold checked_program in Hprog. apply andb_true_iff in Hprog as [_ H]. rewrite forallb_forall in H.
  specialize (H g). rewrite Hs in H. apply H. apply list_elem_of_In, filter_In in Hin. apply Hin.
Qed.

Lemma check_function_inv fn ts t : check_function sigs fn ts t = true ->
  NoDup (parameters fn) /\ List.length (parameters fn) = List.length ts /\
  exists ss G, func_body fn = BlockStmt ss /\
    check_stmt sigs t [list_to_map (zip (parameters fn) ts)] (func_body fn) = Some G /\
    stmt_is_terminating (shape (func_body fn)) = true.
Proof.
  unfold check_function. rewrite !andb_true_iff, bool_decide_eq_true, Nat.eqb_eq.
  intros [[[[Hn Hl] Hb] Hc] Ht]. split; [done|]. split; [done|].
  destruct (func_body fn) as [| | | |ss| | | | | |]; try discriminate Hb.
  destruct (check_stmt _ _ _ _) as [G|]; [|discriminate Hc]. by exists ss, G.
Qed.

Definition knows (ctx : context) : Prop := forall x, comptime_context_lookup_func ctx x = named x prog.

(** The engine on a context that is not null. *)
Lemma expr_unfold call ctx e : shallow ctx ->
  comptime_eval_expression atof format_g call ctx e =
  match e with
  | Null => Done (result_error InvalidContextOrExpression, ctx)
  | LiteralNode t v => Done (comptime_result_new (comptime_value_from_literal atof t v) None None, ctx)
  | IdentifierNode name => Done (comptime_eval_identifier ctx name, ctx)
  | BinaryExprNode op lhs rhs =>
      then_with (comptime_eval_expression atof format_g call ctx lhs) (fun l ctx =>
      then_with (comptime_eval_expression atof format_g call ctx rhs) (fun r ctx =>
        ebind (binary_operation format_g op (value l) (value r)) (fun res => Done (res, ctx))))
  | UnaryExprNode op operand =>
      then_with (comptime_eval_expression atof format_g call ctx operand) (fun v ctx =>
        ebind (unary_operation op (value v)) (fun res => Done (res, ctx)))
  | CallExprNode function args =>
      comptime_eval_function_call_enhanced call (comptime_eval_expression atof format_g call)
        ctx function args
  | SelectorExprNode _ _ | OtherNode => Done (result_error UnsupportedExpression, ctx)
  end.
Proof. destruct ctx as [|f ps]; [done|]. intros _. by destruct e. Qed.

(** What a call must do for its caller. *)
Definition call_ok (call : context -> FuncDeclNode -> list ComptimeValue -> eval ComptimeResult) :=
  forall ctx fn vs t r, shallow ctx -> knows ctx -> check_function sigs fn (map gtype_of vs) t = true ->
  call ctx fn (map inject vs) = Done r -> error r = None ->
  exists v env', value r = Some (inject v) /\ gtype_of v = t /\
    executes true prog [arguments fn vs] (func_body fn) (Returns v) env'.

Section calls.
Context (call : context -> FuncDeclNode -> list ComptimeValue -> eval ComptimeResult).
Hypothesis (Hcall : call_ok call).

(** The result of an expression: a value of its type that a strict run has. *)
Definition value_of (env : scopes gval) (e : node) (t : gtype) (r : ComptimeResult) : Prop :=
  error r = None -> is_return r = false /\ exists v,
    value r = Some (inject v) /\ gtype_of v = t /\ evaluates true prog env e v.

Definition expr_ok (e : node) : Prop :=
  forall ctx env t r ctx', view prog ctx env -> type_of sigs (types env) e = Some t ->
  comptime_eval_expression atof format_g call ctx e = Done (r, ctx') ->
  ctx' = ctx /\ value_of env e t r.

Lemma value_of_error env e t x : value_of env e t (result_error x).
Proof. intros H. discriminate H. Qed.

Lemma then_with_inv m k r ctx : then_with m k = Done (r, ctx) -> exists r1 ctx1, m = Done (r1, ctx1) /\
  ((r = r1 /\ ctx = ctx1 /\ error r <> None) \/ (error r1 = None /\ k r1 ctx1 = Done (r, ctx))).
Proof.
  unfold then_with, ebind, failed. destruct m as [[r1 ctx1]| |]; [|done|done]. intros H.
  exists r1, ctx1. split; [done|]. destruct (error r1) eqn:E; [left|right; done].
  injection H as <- <-. by rewrite E.
Qed.

Lemma args_ok args : Forall expr_ok args -> forall ctx env ts room x ctx',
  view prog ctx env -> all2 (fun e t => bool_decide (type_of sigs (types env) e = Some t)) args ts = true ->
  (List.length args <= room)%nat ->
  eval_args (comptime_eval_expression atof format_g call) room ctx args = Done (x, ctx') ->
  ctx' = ctx /\ match x with
                | inl vs => exists ws, vs = map inject ws /\ map gtype_of ws = ts /\
                              evaluate true prog env args ws
                | inr r => error r <> None
                end.
Proof.
  induction 1 as [|e args He _ IH]; intros ctx env ts room x ctx' Hv Ht Hl Hx.
  - destruct ts; [|discriminate Ht]. destruct room; simpl in Hx; injection Hx as <- <-;
      (split; [done|]); exists []; split_and!; [done|done|constructor|done|done|constructor].
  - destruct ts as [|t ts]; [discriminate Ht|]. destruct room as [|room]; [simpl in Hl; lia|].
    cbn in Ht. destruct (bool_decide (type_of sigs (types env) e = Some t)) eqn:Et; [|discriminate Ht].
    apply bool_decide_eq_true in Et. simpl in Hx.
    destruct (comptime_eval_expression atof format_g call ctx e) as [[r ctx1]| |] eqn:Ee; try discriminate Hx.
    destruct (He _ _ _ _ _ Hv Et Ee) as [-> Hr]. unfold ebind in Hx.
    destruct (error r) as [err|] eqn:Er.
    { assert (Done (inr r, ctx) = Done (x, ctx') :> eval ((list ComptimeValue + ComptimeResult) * context))
        as H by (by destruct (value r)). injection H as <- <-. by rewrite Er. }
    destruct (Hr Er) as (_ & v & Hval & Hty & Hev). rewrite Hval in Hx.
    destruct (eval_args _ room ctx args) as [[y ctx2]| |] eqn:Ea; try discriminate Hx.
    destruct (IH _ _ _ _ _ _ Hv Ht (le_S_n _ _ Hl) Ea) as [-> Hy]. injection Hx as <- <-.
    split; [done|]. destruct y as [vs|r']; [|done]. destruct Hy as (ws & -> & <- & Hws).
    exists (v :: ws). split; [done|]. split; [by rewrite <- Hty|]. by constructor.
Qed.

Lemma value_of_plain env e t v : gtype_of v = t -> evaluates true prog env e v ->
  value_of env e t (returns_value v).
Proof. intros Ht Hv _. split; [done|]. by exists v. Qed.

Lemma binary_ok env op l r a b t res :
  evaluates true prog env l a -> evaluates true prog env r b ->
  binary_type op (gtype_of a) (gtype_of b) = Some t ->
  binary_operation format_g op (Some (inject a)) (Some (inject b)) = Done res ->
  value_of env (BinaryExprNode op l r) t res.
Proof.
  intros Hl Hr Ht Hres. destruct (binary_sound format_g op a b t res Ht Hres) as [[x ->]|(w & -> & Hw & Hop)].
  - apply value_of_error.
  - apply value_of_plain; [done|]. destruct Hop as [(x & Hx & Hi & ->)|(x & y & c & -> & -> & Hc & ->)].
    + by eapply ev_binary.
    + by eapply ev_both.
Qed.

Lemma unary_ok env op e a t res :
  evaluates true prog env e a -> unary_type op (gtype_of a) = Some t ->
  unary_operation op (Some (inject a)) = Done res -> value_of env (UnaryExprNode op e) t res.
Proof.
  intros He Ht Hres. destruct (unary_sound op a t res Ht Hres) as (w & -> & Hw & Hop).
  apply value_of_plain; [done|]. destruct Hop as [(x & Hx & Hi & ->)|(z & -> & -> & ->)].
  - by eapply ev_unary.
  - by constructor.
Qed.

Lemma literal_ok env k s t : type_of sigs (types env) (LiteralNode k s) = Some t ->
  exists v, comptime_value_from_literal atof k s = Some (inject v) /\ gtype_of v = t /\
    evaluates true prog env (LiteralNode k s) v.
Proof.
  intros Ht. destruct k; try discriminate Ht; simpl in Ht.
  - destruct (String.eqb_spec (pretty (atoll s)) s) as [E|]; [|discriminate Ht]. injection Ht as <-.
    exists (GInt (atoll s)). split_and!; [done..|]. rewrite <- E at 1. constructor. apply atoll_range.
  - injection Ht as <-. exists (GBool true). split_and!; [done..|]. constructor.
  - injection Ht as <-. exists (GBool false). split_and!; [done..|]. constructor.
Qed.

(** A call that the checker accepts. *)
Lemma type_of_call G function args t : type_of sigs G (CallExprNode function args) = Some t ->
  exists f ts, function = IdentifierNode f /\ is_intrinsic f = false /\
    (List.length args <= MAX_ARGS)%nat /\ sigs !! f = Some (ts, t) /\
    all2 (fun e t => bool_decide (type_of sigs G e = Some t)) args ts = true.
Proof.
  simpl. destruct function as [|f| | | | | |]; try done.
  destruct (is_intrinsic f || bool_decide (is_Some (resolve G f)) || (16 <? Z.of_nat (List.length args)))
    eqn:E; [done|].
  rewrite !orb_false_iff, Z.ltb_ge in E. destruct E as [[Hi _] Hl].
  destruct (sigs !! f) as [[ts t']|] eqn:Hs; [|done].
  destruct (all2 _ args ts) eqn:Ha; [|done]. intros [= ->]. exists f, ts.
  split_and!; try done. unfold MAX_ARGS. lia.
Qed.

Lemma view_knows ctx env : view prog ctx env -> knows ctx.
Proof. intros Hv x. by eapply view_func. Qed.

Lemma expr_sound e : expr_ok e.
Proof.
  induction e as [|x|k s|op e IH|op l r IHl IHr|f args IHf IHargs|e IH s|] using node_ind;
    intros ctx env t res ctx' Hv Ht Hres; rewrite expr_unfold in Hres by apply Hv;
    try discriminate Ht.
  - injection Hres as <- <-. split; [done|].
    simpl in Ht. rewrite resolve_types in Ht. destruct (resolve env x) as [v|] eqn:Hx; [|done].
    injection Ht as <-. unfold comptime_eval_identifier. rewrite (view_var _ _ _ _ _ Hv Hx), inject_copy.
    apply value_of_plain; [done|]. by constructor.
  - injection Hres as <- <-. split; [done|].
    destruct (literal_ok env k s t Ht) as (v & -> & Hw & Hev). by apply value_of_plain.
  - simpl in Ht.
    destruct (type_of sigs (types env) e) as [a|] eqn:Ea; [|done].
    apply then_with_inv in Hres as (r1 & c1 & He & Hres). destruct (IH _ _ _ _ _ Hv Ea He) as [-> H1].
    destruct Hres as [(-> & -> & Hx)|[Hx Hres]]; [by split|].
    destruct (H1 Hx) as (_ & v & Hval & <- & Hev). rewrite Hval in Hres.
    destruct (unary_operation op _) as [o| |] eqn:Eo; try discriminate Hres. injection Hres as <- <-.
    split; [done|]. by eapply unary_ok.
  - simpl in Ht.
    destruct (type_of sigs (types env) l) as [a|] eqn:Ea; [|done].
    destruct (type_of sigs (types env) r) as [b|] eqn:Eb; [|done].
    apply then_with_inv in Hres as (r1 & c1 & He & Hres). destruct (IHl _ _ _ _ _ Hv Ea He) as [-> H1].
    destruct Hres as [(-> & -> & Hx)|[Hx Hres]]; [by split|].
    apply then_with_inv in Hres as (r2 & c2 & He2 & Hres). destruct (IHr _ _ _ _ _ Hv Eb He2) as [-> H2].
    destruct Hres as [(-> & -> & Hx2)|[Hx2 Hres]]; [by split|].
    destruct (H1 Hx) as (_ & v & Hval & <- & Hev), (H2 Hx2) as (_ & w & Hval2 & <- & Hev2).
    rewrite Hval, Hval2 in Hres.
    destruct (binary_operation _ op _ _) as [o| |] eqn:Eo; try discriminate Hres. injection Hres as <- <-.
    split; [done|]. by eapply binary_ok.
  - apply type_of_call in Ht as (g & ts & -> & Hi & Hl & Hs & Ha).
    unfold comptime_eval_function_call_enhanced in Hres. rewrite Hi in Hres.
    rewrite (view_func _ _ _ g Hv) in Hres. destruct (named g prog) as [fn|] eqn:Hg;
      [|injection Hres as <- <-; split; [done|]; apply value_of_error].
    destruct (eval_args _ _ _ _) as [[x c1]| |] eqn:Ex; try discriminate Hres.
    destruct (args_ok args IHargs _ _ _ _ _ _ Hv Ha Hl Ex) as [-> Hx]. simpl in Hres.
    destruct x as [vs|r1]; [|injection Hres as <- <-; split; [done|]; intros H; by rewrite H in Hx].
    destruct Hx as (ws & -> & <- & Hws).
    destruct (call ctx fn (map inject ws)) as [rc| |] eqn:Ec; try discriminate Hres.
    injection Hres as <- <-. split; [done|]. intros He. split; [done|].
    destruct (Hcall ctx fn ws t rc (proj1 Hv) (view_knows _ _ Hv) (checked_fn _ _ _ _ Hg Hs) Ec He)
      as (v & env' & Hval & Hty & Hex).
    exists v. split_and!; [done|done|]. by eapply ev_call.
Qed.

(** ** Statements *)
Abbreviation statement := (comptime_eval_statement_enhanced atof format_g call).

Lemma stmt_unfold ctx s : shallow ctx ->
  statement ctx s =
  match s with
  | NoStmt => Done (result_error InvalidContextOrStatement, ctx)
  | BlockStmt ss => ebind (eval_block_with statement ctx ss) (fun r => Done (r, ctx))
  | IfStmt c t e =>
      then_with (comptime_eval_expression atof format_g call ctx c) (fun r ctx =>
        if comptime_value_is_truthy (value r) then statement ctx t
        else match e with
             | NoStmt => Done (result_value VNull, ctx)
             | _ => statement ctx e
             end)
  | ForStmt i c p b =>
      ebind (comptime_eval_for_stmt atof format_g call ctx i c p b) (fun r => Done (r, ctx))
  | ReturnStmt e => comptime_eval_return_stmt atof format_g call ctx e
  | FuncDecl fn =>
      match comptime_context_bind_func ctx (func_name fn) fn with
      | Some ctx => Done (result_value VNull, ctx)
      | None => Done (result_error FailedToBindFunction, ctx)
      end
  | _ => comptime_eval_statement atof format_g call ctx s
  end.
Proof. destruct ctx as [|f ps]; [done|]. intros _. by destruct s. Qed.

Definition outcome_of (ret : gtype) (G : scopes gtype) (r : ComptimeResult) (ctx' : context) (o : flow)
    (env' : scopes gval) : Prop :=
  match o with
  | Falls => is_return r = false /\ view prog ctx' env' /\ G = types env'
  | Returns v => is_return r = true /\ value r = Some (inject v) /\ gtype_of v = ret
  end.

Definition stmt_ok (s : Comptime.stmt) : Prop :=
  forall ctx env ret G r ctx', view prog ctx env -> check_stmt sigs ret (types env) s = Some G ->
  statement ctx s = Done (r, ctx') -> error r = None ->
  exists o env', executes true prog env s o env' /\ outcome_of ret G r ctx' o env'.

Lemma declared_inv env x t G : declared (types env) x t = Some G ->
  exists m env1 t1, env = m :: env1 /\ m !! x = None /\ t = Some t1 /\ G = declare (types env) x t1.
Proof.
  destruct env as [|m env1]; [done|]. simpl. destruct t as [t1|]; [|done].
  destruct (bool_decide _) eqn:E; [done|]. apply bool_decide_eq_false in E. intros [= <-].
  exists m, env1, t1. split_and!; [done| |done|done].
  rewrite lookup_fmap in E. destruct (m !! x); [|done]. by contradiction E.
Qed.

Lemma check_if ret G c t e G' : check_stmt sigs ret G (IfStmt c t e) = Some G' ->
  G' = G /\ type_of sigs G c = Some TBool /\
  (is_branch t = true /\ exists G1, check_stmt sigs ret G t = Some G1) /\
  (e = NoStmt \/ is_branch e = true /\ exists G2, check_stmt sigs ret G e = Some G2).
Proof.
  simpl. destruct (_ && _) eqn:E; [|done]. rewrite !andb_true_iff, bool_decide_eq_true in E.
  destruct E as [[[Hc Ht] Hct] He]. intros [= <-]. split_and!; [done..| |].
  - destruct (check_stmt sigs ret G t) as [G1|]; [by exists G1|done].
  - destruct e; try (by left); right; rewrite andb_true_iff in He; destruct He as [Hb He];
      (split; [done|]);
      match type of He with match ?x with Some _ => _ | None => _ end = _ =>
        destruct x; [by eexists|done] end.
Qed.

(** A declaration: the value of its initializer is bound. *)
Lemma declaration_ok err ctx env x e G v r0 r ctx' :
  view prog ctx env -> declared (types env) x (type_of sigs (types env) e) = Some G ->
  type_of sigs (types env) e = Some (gtype_of v) ->
  bind_or err ctx x (Some (inject v)) r0 = Done (r, ctx') ->
  r = r0 /\ view prog ctx' (declare env x v) /\ G = types (declare env x v).
Proof.
  intros Hv Hd Ht Hb. apply declared_inv in Hd as (m & env1 & t & -> & Hx & Hty & ->).
  rewrite Ht in Hty. injection Hty as <-.
  destruct (view_bind prog ctx m env1 x v Hv Hx) as (ctx1 & Hc & Hv'). unfold bind_or in Hb.
  rewrite Hc in Hb. injection Hb as <- <-. by rewrite types_declare.
Qed.

Lemma var_unfold ctx x e : shallow ctx -> e <> Null ->
  comptime_eval_statement atof format_g call ctx (VarDecl [x] e) =
  then_with (comptime_eval_expression atof format_g call ctx e) (fun r ctx =>
    bind_or FailedToBindVariable ctx x (value r)
      (comptime_result_new (option_map comptime_value_copy (value r)) None None)).
Proof. destruct ctx as [|f ps]; [done|]. intros _ He. by destruct e. Qed.

Lemma const_unfold ctx c x e : shallow ctx ->
  comptime_eval_statement atof format_g call ctx (ConstDecl c [x] e) =
  then_with (comptime_eval_expression atof format_g call ctx e) (fun r ctx =>
    bind_or FailedToBindConstant ctx x (option_map comptime_value_copy (value r)) r).
Proof. by destruct ctx. Qed.

Lemma return_unfold ctx e : shallow ctx -> e <> Null ->
  comptime_eval_return_stmt atof format_g call ctx e =
  then_with (comptime_eval_expression atof format_g call ctx e) (fun r ctx =>
    Done (set_is_return true r, ctx)).
Proof. destruct ctx as [|f ps]; [done|]. intros _ He. by destruct e. Qed.

(** An expression inside a statement: the error is the statement's, or there is a value. *)
Lemma part_ok ctx env e t k r ctx' :
  view prog ctx env -> type_of sigs (types env) e = Some t ->
  then_with (comptime_eval_expression atof format_g call ctx e) k = Done (r, ctx') ->
  error r = None -> exists r1 v, value r1 = Some (inject v) /\ gtype_of v = t /\
    error r1 = None /\ is_return r1 = false /\
    evaluates true prog env e v /\ k r1 ctx = Done (r, ctx').
Proof.
  intros Hv Ht Hm He. apply then_with_inv in Hm as (r1 & c1 & Hr1 & Hm).
  destruct (expr_sound e _ _ _ _ _ Hv Ht Hr1) as [-> H1]. destruct Hm as [(-> & -> & Hx)|[Hx Hk]]; [done|].
  destruct (H1 Hx) as (Hp & v & Hval & Hty & Hev). by exists r1, v.
Qed.

Lemma walk_ok ss : Forall stmt_ok ss -> forall ctx env ret last r ctx',
  view prog ctx env -> check_list (check_stmt sigs ret) (types env) ss = true ->
  match last with Some l => is_return l = false | None => True end ->
  walk_block statement ctx last ss = Done (r, ctx') -> error r = None ->
  exists o env', runs true prog env ss o env' /\
    match o with
    | Falls => is_return r = false
    | Returns v => is_return r = true /\ value r = Some (inject v) /\ gtype_of v = ret
    end.
Proof.
  induction 1 as [|s ss Hs _ IH]; intros ctx env ret last r ctx' Hv Hck Hlast Hw Her.
  - simpl in Hw. injection Hw as <- <-. exists Falls, env. split; [constructor|]. by destruct last.
  - simpl in Hck. destruct (check_stmt sigs ret (types env) s) as [G|] eqn:Ec; [|discriminate Hck].
    simpl in Hw. destruct (statement ctx s) as [[r1 c1]| |] eqn:Es; try discriminate Hw.
    unfold ebind, failed in Hw. destruct (error r1) as [x|] eqn:E1; simpl in Hw.
    { injection Hw as <- <-. congruence. }
    destruct (Hs _ _ _ _ _ _ Hv Ec Es E1) as (o & env1 & Hex & Ho).
    destruct o as [|v]; simpl in Ho.
    + destruct Ho as (Hret & Hv1 & ->). rewrite Hret in Hw.
      destruct (IH _ _ _ (Some r1) _ _ Hv1 Hck Hret Hw Her) as (o & env2 & Hr & Ho).
      exists o, env2. split; [by eapply run_cons|done].
    + destruct Ho as (Hret & Hval & Hty). rewrite Hret in Hw. injection Hw as <- <-.
      exists (Returns v), env1. split; [by eapply run_return|done].
Qed.

Lemma stmt_sound s : stmt_ok s.
Proof.
  induction s as [|e|c xs e|xs e|ss IH|c t e IHt IHe|i c p b|e|f|b|] using stmt_ind;
    intros ctx env ret G r ctx' Hv Hc Hs He; rewrite stmt_unfold in Hs by apply Hv; try discriminate Hc.
  - simpl in Hc. destruct (type_of sigs (types env) e) as [t|] eqn:Ht; [|done]. injection Hc as <-.
    destruct ctx as [|f ps]; [by destruct Hv|].
    change (comptime_eval_expression atof format_g call (f :: ps) e = Done (r, ctx')) in Hs.
    destruct (expr_sound e _ _ _ _ _ Hv Ht Hs) as [-> H1]. destruct (H1 He) as (Hp & v & _ & _ & Hev).
    exists Falls, env. split; [by econstructor|done].
  - simpl in Hc. destruct xs as [|x [|]]; try discriminate Hc. rewrite const_unfold in Hs by apply Hv.
    destruct (type_of sigs (types env) e) as [t|] eqn:Ht; [|by destruct env].
    destruct (part_ok _ _ _ _ _ _ _ Hv Ht Hs He) as (r1 & v & Hval & <- & Hr1 & Hp & Hev & Hk).
    rewrite Hval in Hk. simpl in Hk. rewrite inject_copy in Hk. rewrite <- Ht in Hc.
    destruct (declaration_ok _ _ _ _ _ _ _ _ _ _ Hv Hc Ht Hk) as (-> & Hv' & ->).
    exists Falls, (declare env x v). split; [by constructor|done].
  - simpl in Hc. destruct xs as [|x [|]]; try discriminate Hc.
    destruct (type_of sigs (types env) e) as [t|] eqn:Ht; [|by destruct env].
    rewrite var_unfold in Hs; [|apply Hv|by intros ->].
    destruct (part_ok _ _ _ _ _ _ _ Hv Ht Hs He) as (r1 & v & Hval & <- & Hr1 & Hp & Hev & Hk).
    rewrite Hval in Hk. rewrite <- Ht in Hc.
    destruct (declaration_ok _ _ _ _ _ _ _ _ _ _ Hv Hc Ht Hk) as (-> & Hv' & ->).
    exists Falls, (declare env x v). split; [by constructor|done].
  - simpl in Hc. destruct (check_list _ _ ss) eqn:Hl; [|discriminate Hc]. injection Hc as <-.
    destruct (eval_block_with statement ctx ss) as [rb| |] eqn:Eb; try discriminate Hs.
    injection Hs as <- <-.
    assert (exists c1, walk_block statement (comptime_context_new ctx) None ss = Done (rb, c1)) as [c1 Hw].
    { destruct ctx as [|f ps]; [by destruct Hv|]. unfold eval_block_with in Eb.
      destruct (walk_block _ _ _ _) as [[r1 c1]| |]; try discriminate Eb. injection Eb as ->. by exists c1. }
    destruct (walk_ok ss IH _ (∅ :: env) ret None rb c1 (view_block _ _ _ Hv)) as (o & env' & Hr & Ho);
      [by rewrite <- Hl; simpl; rewrite fmap_empty|done|done|done|].
    exists o, env. split; [by econstructor|]. by destruct o.
  - apply check_if in Hc as (-> & Ht & (Hbt & G1 & Hct) & Hce).
    destruct (part_ok _ _ _ _ _ _ _ Hv Ht Hs He) as (r1 & v & Hval & Hty & _ & _ & Hev & Hk).
    destruct v as [|b]; [done|]. rewrite Hval in Hk. simpl in Hk. destruct b.
    + destruct (IHt _ _ _ _ _ _ Hv Hct Hk He) as (o & env' & Hex & Ho).
      pose proof (branch_scopes _ _ _ _ _ _ Hex Hbt) as ->. exists o, env.
      split; [by eapply (ex_if _ _ _ _ _ _ true)|]. destruct o; [|done]. by destruct Ho as (? & ? & _).
    + destruct Hce as [->|(Hbe & G2 & Hce)].
      { injection Hk as <- <-. exists Falls, env. split; [|done].
        eapply (ex_if _ _ _ _ _ _ false); [done|constructor]. }
      assert (statement ctx e = Done (r, ctx')) as Hk' by (by destruct e).
      destruct (IHe _ _ _ _ _ _ Hv Hce Hk' He) as (o & env' & Hex & Ho).
      pose proof (branch_scopes _ _ _ _ _ _ Hex Hbe) as ->. exists o, env.
      split; [by eapply (ex_if _ _ _ _ _ _ false)|]. destruct o; [|done]. by destruct Ho as (? & ? & _).
  - simpl in Hc. destruct (bool_decide (type_of sigs (types env) e = Some ret)) eqn:Ht; [|done].
    apply bool_decide_eq_true in Ht. injection Hc as <-.
    rewrite return_unfold in Hs; [|apply Hv|by intros ->].
    destruct (part_ok _ _ _ _ _ _ _ Hv Ht Hs He) as (r1 & v & Hval & Hty & Hr1 & Hp & Hev & Hk).
    injection Hk as <- <-. exists (Returns v), env. split; [by constructor|done].
Qed.
End calls.

(** ** Calls *)
Lemma arguments_types fn vs :
  types [arguments fn vs] = [list_to_map (zip (parameters fn) (map gtype_of vs))].
Proof.
  unfold types, arguments. simpl. f_equal. revert vs.
  induction (parameters fn) as [|p ps IH]; intros [|v vs]; simpl; rewrite ?fmap_empty; try done.
  by rewrite fmap_insert, IH.
Qed.

(** The frames of a body. *)
Lemma body_view ctx f vs : knows ctx -> frame_ok f vs ->
  view prog (comptime_context_new (f :: ctx)) [∅; vs].
Proof.
  intros Hk Hf. split; [done|]. exists [new_frame; f], ctx. split; [done|]. split; [|done].
  constructor; [apply frame_ok_new|]. by constructor.
Qed.

(** A call at a depth that is left: the walk over the body. *)
Lemma call_unfold depth ctx fn vs ss : shallow ctx -> func_body fn = BlockStmt ss ->
  NoDup (parameters fn) -> List.length vs = List.length (parameters fn) ->
  exists f, frame_ok f (arguments fn vs) /\
    comptime_call_user_function atof format_g (S depth) ctx fn (map inject vs) =
    ebind (walk_block (comptime_eval_statement_enhanced atof format_g
                         (comptime_call_user_function atof format_g depth))
             (comptime_context_new (f :: ctx)) None ss) (fun '(r, _) => Done r).
Proof.
  intros Hs Hb Hn Hl. destruct ctx as [|g ps]; [done|]. simpl in Hs.
  destruct (bind_params_frame fn vs (set_depth (current_recursion_depth g + 1) new_frame) (g :: ps)
    Hn Hl) as (f & Hf & Hok & Hg); [done..|].
  exists f. split; [done|]. simpl.
  replace (max_recursion_depth g <=? current_recursion_depth g) with false by (symmetry; apply Z.leb_gt; lia).
  unfold parameters in Hf. rewrite Hf, Hb, Hg. simpl.
  destruct (walk_block _ _ None ss) as [[r c]| |]; [|done|done]. simpl. by destruct (result_code r).
Qed.

Lemma call_sound depth : call_ok (comptime_call_user_function atof format_g depth).
Proof.
  induction depth as [|depth IH]; intros ctx fn vs t r Hs Hk Hc Hr He; [done|].
  destruct (check_function_inv _ _ _ Hc) as (Hn & Hl & ss & G & Hb & Hck & Ht).
  rewrite length_map in Hl.
  destruct (call_unfold depth ctx fn vs ss Hs Hb Hn (eq_sym Hl)) as (f & Hf & E). rewrite E in Hr.
  destruct (walk_block _ _ None ss) as [[rb c1]| |] eqn:Hw; try discriminate Hr. injection Hr as ->.
  rewrite Hb in Hck. simpl in Hck. destruct (check_list _ _ ss) eqn:Hl2; [|discriminate Hck].
  destruct (walk_ok _ ss ltac:(apply Forall_true; intros s; by apply stmt_sound) _ _ t None r c1 (body_view ctx f _ Hk Hf))
    as (o & env' & Hrun & Ho); [|done..|].
  { rewrite <- Hl2. unfold types. simpl. rewrite fmap_empty. by rewrite <- arguments_types. }
  assert (executes true prog [arguments fn vs] (func_body fn) o [arguments fn vs]) as Hex
    by (rewrite Hb; by econstructor).
  destruct (body_returns _ _ _ _ _ _ Hex Ht) as [v ->]. destruct Ho as (_ & Hval & Hty).
  by exists v, [arguments fn vs].
Qed.

(** ** From a strict run to the engine *)
Abbreviation at_depth d := (comptime_call_user_function atof format_g d).
Abbreviation expression d := (comptime_eval_expression atof format_g (at_depth d)).
Abbreviation statement_at d := (comptime_eval_statement_enhanced atof format_g (at_depth d)).

(** Enough depth, in every context that stands for the scopes. *)
Definition eventually (env : scopes gval) (P : nat -> context -> Prop) : Prop :=
  exists d0, forall d ctx, (d0 <= d)%nat -> view prog ctx env -> P d ctx.

Lemma eventually_both env (P Q R : nat -> context -> Prop) :
  eventually env P -> eventually env Q ->
  (forall d ctx, view prog ctx env -> P d ctx -> Q d ctx -> R d ctx) -> eventually env R.
Proof.
  intros [a Ha] [b Hb] H. exists (Nat.max a b). intros d ctx Hd Hv.
  apply H; [done|apply Ha|apply Hb]; solve [lia|done].
Qed.

Lemma eventually_one env (P R : nat -> context -> Prop) :
  eventually env P -> (forall d ctx, view prog ctx env -> P d ctx -> R d ctx) -> eventually env R.
Proof. intros H HR. apply (eventually_both env P P R H H). auto. Qed.

Lemma eventually_now env (R : nat -> context -> Prop) :
  (forall d ctx, view prog ctx env -> R d ctx) -> eventually env R.
Proof. intros H. exists 0%nat. intros d ctx _. apply H. Qed.

Definition gives env e v := eventually env (fun d ctx => expression d ctx e = Done (returns_value v, ctx)).

Definition returned (v : gval) : ComptimeResult := set_is_return true (returns_value v).

Definition leaves (env' : scopes gval) (o : flow) (r : ComptimeResult) (ctx' : context) : Prop :=
  match o with
  | Falls => error r = None /\ is_return r = false /\ view prog ctx' env'
  | Returns v => r = returned v
  end.

Definition walks env ss o env' := eventually env (fun d ctx => forall last,
  match last with Some l => error l = None /\ is_return l = false | None => True end ->
  exists r ctx', walk_block (statement_at d) ctx last ss = Done (r, ctx') /\ leaves env' o r ctx').

Definition returns_typed (o : flow) (t : gtype) : Prop :=
  match o with Falls => True | Returns v => gtype_of v = t end.

Definition expr_follows env e v := forall t, type_of sigs (types env) e = Some t ->
  gtype_of v = t /\ gives env e v.

Definition args_follow env es vs := forall ts room,
  all2 (fun e t => bool_decide (type_of sigs (types env) e = Some t)) es ts = true ->
  (List.length es <= room)%nat -> map gtype_of vs = ts /\
  eventually env (fun d ctx =>
    eval_args (expression d) room ctx es = Done (inl (map inject vs), ctx)).

Definition stmt_follows env s o env' := forall ret G, check_stmt sigs ret (types env) s = Some G ->
  returns_typed o ret /\ (o = Falls -> G = types env') /\
  eventually env (fun d ctx => exists r ctx', statement_at d ctx s = Done (r, ctx') /\ leaves env' o r ctx') /\
  (forall ss, s = BlockStmt ss -> exists env1, walks (∅ :: env) ss o env1).

Definition run_follows env ss o env' := forall ret,
  check_list (check_stmt sigs ret) (types env) ss = true -> returns_typed o ret /\ walks env ss o env'.

Lemma unary_follows env op e v w : expr_follows env e v -> go_unary op v = Some w ->
  in_range w = true -> expr_follows env (UnaryExprNode op e) (wrapped w).
Proof.
  intros IH Hw Hi t Ht. simpl in Ht. destruct (type_of sigs (types env) e) as [a|] eqn:Ea; [|done].
  destruct (IH a Ea) as [<- Hg]. split.
  - destruct op; try discriminate Hw; destruct v; simplify_eq/=; done.
  - apply (eventually_one _ _ _ Hg). intros d ctx Hv He.
    rewrite expr_unfold by apply Hv. rewrite He. unfold then_with. simpl.
    by rewrite (unary_complete op v w Hw Hi).
Qed.

Lemma binary_follows env op l r a b w : expr_follows env l a -> expr_follows env r b ->
  (forall t, binary_type op (gtype_of a) (gtype_of b) = Some t -> gtype_of w = t) ->
  binary_operation format_g op (Some (inject a)) (Some (inject b)) = Done (returns_value w) ->
  expr_follows env (BinaryExprNode op l r) w.
Proof.
  intros IHl IHr Hty Hop t Ht. simpl in Ht.
  destruct (type_of sigs (types env) l) as [ta|] eqn:Ea; [|done].
  destruct (type_of sigs (types env) r) as [tb|] eqn:Eb; [|done].
  destruct (IHl ta Ea) as [<- Hl], (IHr tb Eb) as [<- Hr]. split; [by apply Hty|].
  apply (eventually_both _ _ _ _ Hl Hr). intros d ctx Hv H1 H2.
  rewrite expr_unfold by apply Hv. rewrite H1. unfold then_with. simpl. rewrite H2. simpl.
  by rewrite Hop.
Qed.

Lemma go_binary_type op a b w t : go_binary op a b = Some w ->
  binary_type op (gtype_of a) (gtype_of b) = Some t -> gtype_of (wrapped w) = t.
Proof.
  intros Hw Ht. destruct op; try discriminate Hw; destruct a, b; try discriminate Hw; simpl in *;
    try case_match; simplify_eq; done.
Qed.

Lemma call_follows env f args fn vs v env' :
  named f prog = Some fn -> args_follow env args vs ->
  stmt_follows [arguments fn vs] (func_body fn) (Returns v) env' ->
  expr_follows env (CallExprNode (IdentifierNode f) args) v.
Proof.
  intros Hf IHargs IHbody t Ht.
  apply type_of_call in Ht as (g & ts & [= <-] & Hi & Hl & Hs & Ha).
  destruct (IHargs ts MAX_ARGS Ha Hl) as [<- Hargs].
  pose proof (checked_fn _ _ _ _ Hf Hs) as Hck.
  destruct (check_function_inv _ _ _ Hck) as (Hn & Hlen & ss & G & Hb & Hc & _).
  rewrite length_map in Hlen. rewrite <- arguments_types in Hc.
  destruct (IHbody t G Hc) as (Hty & _ & _ & Hw). destruct (Hw ss Hb) as (env1 & d1 & Hd1).
  split; [exact Hty|]. destruct Hargs as [d0 Hd0]. exists (S (Nat.max d0 d1)). intros d ctx Hd Hv.
  destruct d as [|d]; [lia|].
  rewrite expr_unfold by apply Hv. unfold comptime_eval_function_call_enhanced. rewrite Hi.
  rewrite (view_func _ _ _ f Hv), Hf, (Hd0 (S d) ctx) by (solve [lia|done]). unfold ebind at 1.
  destruct (call_unfold d ctx fn vs ss (proj1 Hv) Hb Hn (eq_sym Hlen)) as (fr & Hfr & ->).
  destruct (Hd1 d (comptime_context_new (fr :: ctx)) ltac:(lia) (body_view _ _ _ (view_knows _ _ Hv) Hfr) None I)
    as (r & c & -> & ->). done.
Qed.

Lemma declare_follows env x e v s err :
  expr_follows env e v ->
  (forall ret, check_stmt sigs ret (types env) s = declared (types env) x (type_of sigs (types env) e)) ->
  (forall d ctx, shallow ctx -> e <> Null -> expression d ctx e = Done (returns_value v, ctx) ->
    statement_at d ctx s = bind_or err ctx x (Some (inject v)) (returns_value v)) ->
  (forall ss, s <> BlockStmt ss) ->
  stmt_follows env s Falls (declare env x v).
Proof.
  intros IH Hck Hs Hne ret G Hc. rewrite Hck in Hc.
  destruct (declared_inv _ _ _ _ Hc) as (m & env1 & t & Henv & Hx & Ht & ->).
  destruct (IH t Ht) as [Hty Hg]. split; [done|]. split; [by rewrite types_declare, Hty|].
  split; [|intros ss ->; by destruct (Hne ss)]. apply (eventually_one _ _ _ Hg). intros d ctx Hv He.
  rewrite Hs; [|apply Hv|by intros ->|done].
  subst env. destruct (view_bind prog ctx m env1 x v Hv Hx) as (ctx1 & Hb & Hv1).
  unfold bind_or. rewrite Hb. by eexists _, ctx1.
Qed.

Lemma if_follows env c t e (b : bool) o env' :
  expr_follows env c (GBool b) -> stmt_follows env (if b then t else e) o env' ->
  executes true prog env (if b then t else e) o env' -> stmt_follows env (IfStmt c t e) o env.
Proof.
  intros IHc IH Hex ret G Hc. apply check_if in Hc as (-> & Ht & (Hbt & G1 & Hct) & Hce).
  destruct (IHc TBool Ht) as [_ Hg].
  assert (b = false /\ e = NoStmt \/ is_branch (if b then t else e) = true /\
    exists G2, check_stmt sigs ret (types env) (if b then t else e) = Some G2) as [[-> ->]|[Hb [G2 Hc2]]].
  { destruct b; [right; by eauto|]. destruct Hce as [->|Hce]; [by left|by right]. }
  - assert (o = Falls) as -> by (by inversion Hex). split_and!; [done|done| |done].
    apply (eventually_one _ _ _ Hg). intros d ctx Hv He. rewrite stmt_unfold by apply Hv.
    rewrite He. unfold then_with. simpl. by eexists _, ctx.
  - destruct (IH ret G2 Hc2) as (Hty & _ & Hst & _). split_and!; [done|done| |done].
    pose proof (branch_scopes _ _ _ _ _ _ Hex Hb) as ->.
    apply (eventually_both _ _ _ _ Hg Hst). intros d ctx Hv He (r & ctx' & Hs & Hl).
    exists r, ctx'. split; [|done]. rewrite stmt_unfold by apply Hv. rewrite He. unfold then_with. simpl.
    destruct b; [done|]. by destruct e.
Qed.

Lemma return_follows env e v : expr_follows env e v -> stmt_follows env (ReturnStmt e) (Returns v) env.
Proof.
  intros IH ret G Hc. simpl in Hc. destruct (bool_decide _) eqn:Ht; [|done].
  apply bool_decide_eq_true in Ht. destruct (IH ret Ht) as [Hty Hg]. split_and!; [done|done| |done].
  apply (eventually_one _ _ _ Hg). intros d ctx Hv He. rewrite stmt_unfold by apply Hv.
  rewrite return_unfold; [|apply Hv|by intros ->]. rewrite He. by eexists _, ctx.
Qed.

Lemma cons_follows env s ss o env' env'' :
  stmt_follows env s Falls env' -> run_follows env' ss o env'' -> run_follows env (s :: ss) o env''.
Proof.
  intros IHs IH ret Hck. simpl in Hck. destruct (check_stmt sigs ret (types env) s) as [G|] eqn:Hc; [|done].
  destruct (IHs ret G Hc) as (_ & HG & [d1 H1] & _). rewrite HG in Hck by done.
  destruct (IH ret Hck) as [Hty [d2 H2]]. split; [done|]. exists (Nat.max d1 d2).
  intros d ctx Hd Hv last _. destruct (H1 d ctx ltac:(lia) Hv) as (r & ctx1 & Hs & He & Hr & Hv1).
  simpl. rewrite Hs. unfold ebind, failed. rewrite He, Hr. simpl.
  apply (H2 d ctx1 ltac:(lia) Hv1 (Some r)). done.
Qed.

Lemma strict_runs :
  (forall env e v, evaluates true prog env e v -> expr_follows env e v) /\
  (forall env es vs, evaluate true prog env es vs -> args_follow env es vs) /\
  (forall env s o env', executes true prog env s o env' ->
    stmt_follows env s o env' /\ executes true prog env s o env') /\
  (forall env ss o env', runs true prog env ss o env' -> run_follows env ss o env').
Proof.
  apply run_mutind.
  - intros env z Hz t Ht. simpl in Ht. rewrite atoll_pretty, String.eqb_refl in Ht by done.
    injection Ht as <-. split; [done|]. apply eventually_now. intros d ctx Hv.
    rewrite expr_unfold by apply Hv. simpl. unfold comptime_value_from_int. by rewrite atoll_pretty.
  - intros env s t Ht. injection Ht as <-. split; [done|]. apply eventually_now. intros d ctx Hv.
    by rewrite expr_unfold by apply Hv.
  - intros env s t Ht. injection Ht as <-. split; [done|]. apply eventually_now. intros d ctx Hv.
    by rewrite expr_unfold by apply Hv.
  - intros env x v Hx t Ht. simpl in Ht. rewrite resolve_types, Hx in Ht. injection Ht as <-.
    split; [done|]. apply eventually_now. intros d ctx Hv. rewrite expr_unfold by apply Hv.
    unfold comptime_eval_identifier. by rewrite (view_var _ _ _ _ _ Hv Hx), inject_copy.
  - intros env op e v w _ IH Hw Hi. by apply (unary_follows env op e v w IH Hw), Hi.
  - intros env e z _ IH t Ht. simpl in Ht. destruct (type_of sigs (types env) e) as [a|] eqn:Ea; [|done].
    destruct (IH a Ea) as [<- Hg]. injection Ht as <-. split; [done|]. apply (eventually_one _ _ _ Hg).
    intros d ctx Hv He. rewrite expr_unfold by apply Hv. by rewrite He.
  - intros env op l r a b w _ IHl _ IHr Hw Hi. apply (binary_follows env op l r a b _ IHl IHr).
    + intros t. by eapply go_binary_type.
    + apply binary_complete; auto.
  - intros env op l r a b c _ IHl _ IHr Hc. apply (binary_follows env op l r _ _ _ IHl IHr).
    + intros t. destruct op; try discriminate Hc; by intros [= <-].
    + by apply logical_complete.
  - intros env op l r a Hst. discriminate Hst.
  - intros env f args fn vs v env' Hf _ IHargs _ [IHbody _]. by eapply call_follows.
  - intros env ts room Ha Hl. destruct ts; [|done]. split; [done|]. apply eventually_now. by destruct room.
  - intros env e es v vs _ IH _ IHs ts room Ha Hl. destruct ts as [|t ts]; [done|].
    cbn in Ha. destruct (bool_decide (type_of sigs (types env) e = Some t)) eqn:Et; [|discriminate Ha].
    apply bool_decide_eq_true in Et. destruct room as [|room]; [simpl in Hl; lia|].
    destruct (IH t Et) as [<- Hg], (IHs ts room Ha (le_S_n _ _ Hl)) as [<- Hgs]. split; [done|].
    apply (eventually_both _ _ _ _ Hg Hgs). intros d ctx Hv He Hes. simpl. rewrite He. simpl.
    by rewrite Hes.
  - intros env e v Hev IH. split; [|by econstructor]. intros ret G Hc. simpl in Hc.
    destruct (type_of sigs (types env) e) as [t|] eqn:Ht; [|done]. injection Hc as <-.
    destruct (IH t Ht) as [_ Hg]. split_and!; [done|done| |done].
    apply (eventually_one _ _ _ Hg). intros d ctx Hv He. exists (returns_value v), ctx. split; [|done].
    destruct ctx as [|f ps]; [by destruct Hv|]. exact He.
  - intros env x e v Hev IH. split; [|by constructor].
    apply (declare_follows env x e v _ FailedToBindVariable IH); [done| |done].
    intros d ctx Hs Hn He. rewrite stmt_unfold, var_unfold, He by done. simpl. by rewrite inject_copy.
  - intros env c x e v Hev IH. split; [|by constructor].
    apply (declare_follows env x e v _ FailedToBindConstant IH); [done| |done].
    intros d ctx Hs Hn He. rewrite stmt_unfold, const_unfold, He by done. simpl. by rewrite inject_copy.
  - intros env ss o env' Hr IH. split; [|by econstructor]. intros ret G Hc. simpl in Hc.
    destruct (check_list _ _ ss) eqn:Hl; [|done]. injection Hc as <-.
    destruct (IH ret) as [Hty Hw]; [by rewrite <- Hl; unfold types; simpl; rewrite fmap_empty|].
    split_and!; [done|done| |intros ss' [= <-]; by exists env'].
    destruct Hw as [d0 Hd0]. exists d0. intros d ctx Hd Hv.
    destruct (Hd0 d _ Hd (view_block _ _ _ Hv) None I) as (r & c & Hw & Hl2).
    exists r, ctx. rewrite stmt_unfold by apply Hv.
    destruct ctx as [|f ps]; [by destruct Hv|]. unfold eval_block_with. rewrite Hw. split; [done|].
    destruct o; [|done]. destruct Hl2 as (? & ? & _). done.
  - intros env c t e b o env' Hc IHc Hex [IH _]. split; [|by eapply ex_if]. by eapply if_follows.
  - intros env. split; [|by constructor]. intros ret G Hc. discriminate Hc.
  - intros env e v Hev IH. split; [|by constructor]. by apply return_follows.
  - intros env ret _. split; [done|]. apply eventually_now. intros d ctx Hv last Hlast.
    exists (default (result_value VNull) last), ctx. split; [done|].
    destruct last as [l|]; [|done]. by destruct Hlast.
  - intros env s ss v env' _ [IH _] ret Hck. simpl in Hck.
    destruct (check_stmt sigs ret (types env) s) as [G|] eqn:Hc; [|done].
    destruct (IH ret G Hc) as (Hty & _ & Hg & _). split; [done|]. apply (eventually_one _ _ _ Hg).
    intros d ctx Hv (r & ctx' & Hs & Hr) last _. exists r, ctx'. simpl in Hr. subst r. split; [|done].
    simpl. by rewrite Hs.
  - intros env s ss o env' env'' _ [IHs _] _ IH. by eapply cons_follows.
Qed.
End simulation.

(** ** Runs *)
Lemma strict_run prog :
  (forall env e v, evaluates true prog env e v -> evaluates false prog env e v) /\
  (forall env es vs, evaluate true prog env es vs -> evaluate false prog env es vs) /\
  (forall env s o env', executes true prog env s o env' -> executes false prog env s o env') /\
  (forall env ss o env', runs true prog env ss o env' -> runs false prog env ss o env').
Proof.
  apply run_mutind; intros; first
    [ discriminate
    | solve [eauto using evaluates]
    | solve [eauto using evaluate]
    | solve [eauto using executes]
    | solve [eauto using runs] ].
Qed.

Lemma decides_logical op a b c : decides op a = true -> go_logical op a b = Some c -> c = a.
Proof. destruct op; try done; destruct a; simpl; congruence. Qed.

Lemma go_logical_binary op a b w c : go_binary op (GBool a) (GBool b) = Some w -> go_logical op a b <> Some c.
Proof. by destruct op. Qed.

Lemma go_unary_plus v w : go_unary TOKEN_PLUS v <> Some w.
Proof. by destruct v. Qed.

Lemma go_binary_decides op a b w : go_binary op (GBool a) b = Some w -> decides op a = false.
Proof. by destruct op. Qed.

(** Two runs of the same text, side by side. *)
Ltac same_runs :=
  repeat match goal with
  | IH : forall v, evaluates false _ ?env ?e v -> _ = v, H : evaluates false _ ?env ?e _ |- _ =>
      apply IH in H
  | IH : forall v, evaluate false _ ?env ?e v -> _ = v, H : evaluate false _ ?env ?e _ |- _ =>
      apply IH in H
  | IH : forall o env2, executes false _ ?env ?e o env2 -> _, H : executes false _ ?env ?e _ _ |- _ =>
      apply IH in H as [? ?]
  | IH : forall o env2, runs false _ ?env ?e o env2 -> _, H : runs false _ ?env ?e _ _ |- _ =>
      apply IH in H as [? ?]
  | _ => progress simplify_eq
  end.

Lemma run_unique prog :
  (forall env e v, evaluates false prog env e v -> forall v', evaluates false prog env e v' -> v = v') /\
  (forall env es vs, evaluate false prog env es vs -> forall vs', evaluate false prog env es vs' -> vs = vs') /\
  (forall env s o env', executes false prog env s o env' ->
    forall o' env2, executes false prog env s o' env2 -> o = o' /\ env' = env2) /\
  (forall env ss o env', runs false prog env ss o env' ->
    forall o' env2, runs false prog env ss o' env2 -> o = o' /\ env' = env2).
Proof.
  apply run_mutind; intros;
    match goal with
    | H : evaluates false _ _ ?e ?v' |- _ = ?v' => inversion H; clear H; subst
    | H : evaluate false _ _ ?e ?v' |- _ = ?v' => inversion H; clear H; subst
    | H : executes false _ _ _ ?o _ |- _ = ?o /\ _ => inversion H; clear H; subst
    | H : runs false _ _ _ ?o _ |- _ = ?o /\ _ => inversion H; clear H; subst
    end; same_runs; try done.
  all: try (by exfalso; eapply go_unary_plus).
  all: try (by exfalso; eapply go_logical_binary).
  all: try (by erewrite go_binary_decides in * by eassumption).
  all: try (symmetry; f_equal; by eapply decides_logical).
  all: try (f_equal; by eapply decides_logical).
Qed.
