(* ===== verification/ComptimeLimits.v ===== *)
(** * ComptimeLimits: what the engine's two limits do, on any program.

    [quiet]: no evaluation that starts in a context of the type checker's ever reports that calls
    nest too deep, as the count is kept in the context of the parameters and every call is made in
    the context of a block.  [for_stmt_eq]: what a for statement of the grammar comes to, whatever its
    body says. *)
From Stdlib Require Import ZArith Lia Ascii String Bool SpecFloat.
From stdpp Require Import base list numbers option strings pretty gmap.
From S2P Require Import Prelude Numeral Token Types Terminating ConstExpr Comptime ComptimeSem ComptimeFacts.
Local Open Scope string_scope.
Local Open Scope Z_scope.
Local Open Scope list_scope.

#[local] Arguments run_loop : simpl never.
#[local] Arguments comptime_eval_for_stmt : simpl never.

Section limits.
Context (atof : string -> spec_float) (format_g : spec_float -> string).

Definition quiet (r : ComptimeResult) : Prop := error r <> Some MaximumRecursionDepth.

(** A context of the kind that calls are made in. *)
Definition fresh (ctx : context) : Prop :=
  match ctx with
  | f :: _ => max_recursion_depth f = 100 /\ current_recursion_depth f = 0
  | [] => True
  end.

Definition quiet_eval (m : eval (ComptimeResult * context)) : Prop :=
  forall r ctx, m = Done (r, ctx) -> quiet r /\ fresh ctx.

Lemma quiet_done r ctx : quiet r -> fresh ctx -> quiet_eval (Done (r, ctx)).
Proof. intros Hr Hc r' ctx' [= <- <-]. done. Qed.

Lemma quiet_then m k : quiet_eval m -> (forall r ctx, quiet r -> fresh ctx -> quiet_eval (k r ctx)) ->
  quiet_eval (then_with m k).
Proof.
  intros Hm Hk r ctx. unfold then_with. destruct m as [[r1 c1]| |] eqn:E; try done. simpl.
  destruct (Hm r1 c1 eq_refl) as [H1 H2]. destruct (failed r1); [intros [= <- <-]; done|].
  by apply Hk.
Qed.

Lemma fresh_bind ctx name v ctx' : fresh ctx -> comptime_context_bind_var ctx name v = Some ctx' -> fresh ctx'.
Proof. destruct ctx as [|f ps]; [done|]. destruct v as [v|]; [|done]. simpl. by intros ? [= <-]. Qed.

Lemma quiet_bind_or err ctx name v r : err <> MaximumRecursionDepth -> fresh ctx -> quiet r ->
  quiet_eval (bind_or err ctx name v r).
Proof.
  intros He Hc Hr. unfold bind_or. destruct (comptime_context_bind_var ctx name v) as [c|] eqn:E.
  - apply quiet_done; [done|]. by eapply fresh_bind.
  - apply quiet_done; [|done]. intros [= H]. done.
Qed.

Lemma quiet_typed m r : typed m = Done r -> quiet r.
Proof. unfold typed. destruct m as [[v|]| |]; simpl; by intros [= <-]. Qed.

Lemma binary_quiet op l r res : binary_operation format_g op l r = Done res -> quiet res.
Proof.
  intros H. destruct op; simpl in H; try (injection H as <-; done);
    destruct l as [l|], r as [r|]; try discriminate H; simpl in H; try (by eapply quiet_typed).
  unfold divide in H. destruct l, r; simpl in H;
    repeat match type of H with context [if ?b then _ else _] => destruct b end;
    try discriminate H; try (injection H as <-; done); by eapply quiet_typed.
Qed.

Lemma unary_quiet op v res : unary_operation op v = Done res -> quiet res.
Proof.
  intros H. destruct op; simpl in H; try (injection H as <-; done);
    destruct v as [[]|]; try discriminate H; try (injection H as <-; done). by eapply quiet_typed.
Qed.

Section calls.
Context (call : context -> FuncDeclNode -> list ComptimeValue -> eval ComptimeResult).
Hypothesis (Hcall : forall ctx fn args r, fresh ctx -> call ctx fn args = Done r -> quiet r).
Abbreviation expression := (comptime_eval_expression atof format_g call).

Lemma args_quiet args :
  Forall (fun e => forall ctx, fresh ctx -> quiet_eval (expression ctx e)) args ->
  forall room ctx x ctx', fresh ctx -> eval_args expression room ctx args = Done (x, ctx') ->
  match x with inl _ => True | inr r => quiet r end /\ fresh ctx'.
Proof.
  induction 1 as [|e args He _ IH]; intros room ctx x ctx' Hc H.
  - destruct room; simpl in H; by injection H as <- <-.
  - destruct room as [|room]; simpl in H; [by injection H as <- <-|].
    destruct (expression ctx e) as [[r c1]| |] eqn:E; try discriminate H.
    destruct (He ctx Hc _ _ E) as [Hr Hc1]. simpl in H.
    destruct (error r) as [er|] eqn:Er; [injection H as <- <-; by split|].
    destruct (value r) as [v|]; [|injection H as <- <-; by split].
    destruct (eval_args expression room c1 args) as [[y c2]| |] eqn:E2; try discriminate H.
    destruct (IH _ _ _ _ Hc1 E2) as [Hy Hc2]. injection H as <- <-. by destruct y.
Qed.

Lemma intrinsic_quiet name args :
  Forall (fun e => forall ctx, fresh ctx -> quiet_eval (expression ctx e)) args ->
  forall ctx, fresh ctx -> quiet_eval (comptime_eval_function_call expression ctx name args).
Proof.
  intros Hargs ctx Hc. unfold comptime_eval_function_call.
  repeat case_match; try (apply quiet_done; [done|done]); subst;
    apply quiet_then; try (by apply (proj1 (Forall_cons _ _ _) Hargs)); clear ctx Hc;
    intros r ctx _ Hc.
  - unfold comptime_intrinsic_emit. destruct ctx as [|f ps], (value r) as [[]|]; try by apply quiet_done.
    destruct string_value; [by apply quiet_done|done].
  - apply quiet_done; [|done]. unfold comptime_intrinsic_typeof. by destruct ctx, (value r) as [[]|].
  - apply quiet_done; [|done]. unfold comptime_intrinsic_sizeof. by destruct ctx, (value r) as [[]|].
Qed.

Lemma expr_quiet e : forall ctx, fresh ctx -> quiet_eval (expression ctx e).
Proof.
  induction e as [|x|k s|op e IH|op l r IHl IHr|f args IHf IHargs|e IH s|] using node_ind;
    intros [|fr ps] Hc; try (by apply quiet_done).
  - apply quiet_done; [|done]. unfold comptime_eval_identifier.
    destruct (comptime_context_lookup_var _ x); done.
  - simpl. apply quiet_then; [by apply IH|]. intros v ctx _ Hv res c H.
    destruct (unary_operation op (value v)) eqn:E; try discriminate H. injection H as <- <-.
    split; [by eapply unary_quiet|done].
  - simpl. apply quiet_then; [by apply IHl|]. intros v c1 _ Hc1.
    apply quiet_then; [by apply IHr|]. intros w c2 _ Hc2 res c H.
    destruct (binary_operation format_g op (value v) (value w)) eqn:E; try discriminate H.
    injection H as <- <-. split; [by eapply binary_quiet|done].
  - simpl. unfold comptime_eval_function_call_enhanced.
    destruct f as [|name| | | | | |]; try (by apply quiet_done).
    destruct (is_intrinsic name); [by apply intrinsic_quiet|].
    destruct (comptime_context_lookup_func (fr :: ps) name) as [fn|]; [|by apply quiet_done].
    intros res c H. destruct (eval_args expression MAX_ARGS (fr :: ps) args) as [[x c1]| |] eqn:E;
      try discriminate H. destruct (args_quiet args IHargs _ _ _ _ Hc E) as [Hx Hc1]. simpl in H.
    destruct x as [vs|r]; [|injection H as <- <-; done].
    destruct (call c1 fn vs) as [rc| |] eqn:Ec; try discriminate H. injection H as <- <-.
    split; [|done]. apply (Hcall _ _ _ _ Hc1 Ec).
Qed.

Lemma plain_quiet ctx s : fresh ctx -> quiet_eval (comptime_eval_statement atof format_g call ctx s).
Proof.
  intros Hc. destruct ctx as [|f ps]; [by apply quiet_done|].
  destruct s as [|e|c xs e|xs e| | | | | | |]; simpl; try (by apply quiet_done).
  - by apply expr_quiet.
  - destruct xs as [|x [|]]; try (by apply quiet_done).
    apply quiet_then; [by apply expr_quiet|]. intros r ctx Hr Hx. by apply quiet_bind_or.
  - destruct xs as [|x [|]]; try (by apply quiet_done).
    assert (quiet_eval (bind_or FailedToBindVariable (f :: ps) x (Some VUndefined) (result_value VUndefined)))
      as Hnull by (by apply quiet_bind_or).
    assert (quiet_eval (then_with (expression (f :: ps) e) (fun r ctx =>
      bind_or FailedToBindVariable ctx x (value r)
        (comptime_result_new (option_map comptime_value_copy (value r)) None None)))) as Hsome.
    { apply quiet_then; [by apply expr_quiet|]. intros r ctx Hr Hx. by apply quiet_bind_or. }
    by destruct e.
Qed.

Lemma for_loop_quiet rounds : forall ctx condition post body last x ctx', fresh ctx ->
  for_loop atof format_g call rounds ctx condition post body last = Done (x, ctx') ->
  match x with
  | Failed r => quiet r
  | Broke (Live r) => match last with Live l => quiet l | _ => True end -> quiet r
  | _ => True
  end.
Proof.
  induction rounds as [|rounds IH]; intros ctx condition post body last x ctx' Hc H; simpl in H.
  - by injection H as <- <-.
  - destruct (should_continue atof format_g call ctx condition) as [[g c1]| |] eqn:Eg; try discriminate H.
    assert (match g with inr r => quiet r | inl _ => True end /\ fresh c1) as [Hg Hc1].
    { unfold should_continue in Eg. destruct condition; [by injection Eg as <- <-|..];
        match type of Eg with context [comptime_eval_expression _ _ _ ctx ?e] =>
          destruct (comptime_eval_expression atof format_g call ctx e) as [[r c]| |] eqn:Ee;
            try discriminate Eg; destruct (expr_quiet e ctx Hc _ _ Ee) as [Hr Hcc]; simpl in Eg;
            injection Eg as <- <-; by destruct (failed r) end. }
    simpl in H. destruct g as [[|]|r]; [| |by injection H as <- <-].
    + destruct (free_result last); try discriminate H. simpl in H.
      destruct (comptime_eval_statement atof format_g call c1 body) as [[r c2]| |] eqn:Eb; try discriminate H.
      destruct (plain_quiet c1 body Hc1 _ _ Eb) as [Hr Hc2]. simpl in H.
      destruct (failed r); [by injection H as <- <-|].
      assert (forall c, fresh c -> for_loop atof format_g call rounds c condition post body (Live r) =
        Done (x, ctx') -> match x with
          | Failed r => quiet r
          | Broke (Live r) => match last with Live l => quiet l | _ => True end -> quiet r
          | _ => True
          end) as Hrest.
      { intros c Hcc Hl. specialize (IH c condition post body (Live r) x ctx' Hcc Hl).
        destruct x as [[]| |]; try done. intros _. by apply IH. }
      destruct post; try (by apply (Hrest c2));
        match type of H with context [comptime_eval_statement _ _ _ c2 ?p] =>
          destruct (comptime_eval_statement atof format_g call c2 p) as [[q c3]| |] eqn:Ep;
            try discriminate H; destruct (plain_quiet c2 p Hc2 _ _ Ep) as [Hq Hc3]; simpl in H;
            destruct (failed q); [by injection H as <- <-|by apply (Hrest c3)] end.
    + injection H as <- <-. by destruct last.
Qed.

Lemma copy_code_quiet c r : quiet r -> quiet (copy_code c r).
Proof. unfold copy_code, quiet. by destruct c, (result_code r). Qed.

Lemma run_loop_quiet ctx condition post body last r : fresh ctx ->
  match last with Live l => quiet l | _ => True end ->
  run_loop atof format_g call ctx condition post body last = Done r -> quiet r.
Proof.
  intros Hc Hl. unfold run_loop.
  destruct (for_loop _ _ _ _ ctx condition post body last) as [[x c1]| |] eqn:E; try done.
  pose proof (for_loop_quiet _ _ _ _ _ _ _ _ Hc E) as Hx. cbn [ebind].
  destruct x as [[|l|]| |l]; try (by intros [= <-]). intros [= <-]. by apply copy_code_quiet, Hx.
Qed.

(** The part in front of the loop. *)
Lemma init_quiet (run : context -> result_ptr -> eval ComptimeResult) ctx init r : fresh ctx ->
  (forall c last, fresh c -> last = NullResult \/ last = Dangling -> run c last = Done r -> quiet r) ->
  match init with
  | NoStmt => run ctx NullResult
  | _ =>
      ebind (comptime_eval_statement atof format_g call ctx init) (fun '(q, c) =>
        if failed q then Done q else ebind (free_result (Live q)) (fun last => run c last))
  end = Done r -> quiet r.
Proof.
  intros Hc Hrun H.
  assert (init = NoStmt \/ ebind (comptime_eval_statement atof format_g call ctx init) (fun '(q, c) =>
    if failed q then Done q else ebind (free_result (Live q)) (fun last => run c last)) = Done r)
    as [->|Hi] by (destruct init; [by left|by right..]).
  - by apply (Hrun ctx NullResult); [|left|].
  - destruct (comptime_eval_statement _ _ _ ctx init) as [[q c1]| |] eqn:Ei; try discriminate Hi.
    destruct (plain_quiet ctx init Hc _ _ Ei) as [Hq Hc1]. simpl in Hi.
    destruct (failed q); [by injection Hi as <-|]. by apply (Hrun c1 Dangling); [|right|].
Qed.

Lemma for_quiet ctx init condition post body r : fresh ctx ->
  comptime_eval_for_stmt atof format_g call ctx init condition post body = Done r -> quiet r.
Proof.
  intros Hc H. destruct ctx as [|f ps]; [by injection H as <-|]. unfold comptime_eval_for_stmt in H.
  refine (init_quiet (fun c last => run_loop atof format_g call c condition post body last)
    (comptime_context_new (f :: ps)) init r (conj eq_refl eq_refl) _ H).
  intros c last Hcc Hl. apply run_loop_quiet; [done|]. by destruct Hl as [->| ->].
Qed.

Abbreviation statement := (comptime_eval_statement_enhanced atof format_g call).

Lemma walk_quiet ss : Forall (fun s => forall ctx, fresh ctx -> quiet_eval (statement ctx s)) ss ->
  forall ctx last r ctx', fresh ctx -> match last with Some l => quiet l | None => True end ->
  walk_block statement ctx last ss = Done (r, ctx') -> quiet r.
Proof.
  induction 1 as [|s ss Hs _ IH]; intros ctx last r ctx' Hc Hl H; simpl in H.
  - injection H as <- <-. by destruct last.
  - destruct (statement ctx s) as [[r1 c1]| |] eqn:E; try discriminate H.
    destruct (Hs ctx Hc _ _ E) as [Hr Hc1]. simpl in H.
    destruct (failed r1 || is_return r1); [by injection H as <- <-|].
    by apply (IH c1 (Some r1) r ctx' Hc1 Hr).
Qed.

Lemma stmt_quiet s : forall ctx, fresh ctx -> quiet_eval (statement ctx s).
Proof.
  induction s as [|e|c xs e|xs e|ss IH|c t e IHt IHe|i c p b|e|f|b|] using stmt_ind;
    intros [|fr ps] Hc; try (by apply quiet_done); try (by apply plain_quiet).
  - intros r ctx H. cbn -[walk_block] in H.
    destruct (walk_block statement (comptime_context_new (fr :: ps)) None ss) as [[r1 c1]| |] eqn:E;
      try discriminate H. injection H as <- <-. split; [|done].
    by apply (walk_quiet ss IH (comptime_context_new (fr :: ps)) None _ _ (conj eq_refl eq_refl) I E).
  - simpl. apply quiet_then; [by apply expr_quiet|]. intros r ctx Hr Hx.
    destruct (comptime_value_is_truthy (value r)); [by apply IHt|].
    destruct e; try (by apply quiet_done); by apply IHe.
  - intros r ctx H. simpl in H.
    destruct (comptime_eval_for_stmt atof format_g call (fr :: ps) i c p b) as [r1| |] eqn:E;
      try discriminate H. injection H as <- <-. split; [by apply (for_quiet _ _ _ _ _ _ Hc E)|done].
  - simpl. assert (quiet_eval (then_with (expression (fr :: ps) e) (fun r ctx =>
      Done (set_is_return true r, ctx)))) as Hsome.
    { apply quiet_then; [by apply expr_quiet|]. intros r ctx Hr Hx. by apply quiet_done. }
    destruct e; try exact Hsome. by apply quiet_done.
Qed.
End calls.

Lemma call_quiet depth : forall ctx fn args r, fresh ctx ->
  comptime_call_user_function atof format_g depth ctx fn args = Done r -> quiet r.
Proof.
  induction depth as [|depth IH]; intros ctx fn args r Hc H; [done|].
  destruct ctx as [|f ps]; [by injection H as <-|]. destruct Hc as [Hm Hd]. simpl in H.
  rewrite Hm, Hd in H. simpl in H.
  set (func_ctx := bind_params _ _ _) in H.
  destruct (comptime_eval_block _ _ _ func_ctx (func_body fn)) as [rb| |] eqn:E; try discriminate H.
  injection H as <-. apply copy_code_quiet. unfold comptime_eval_block, eval_block_with in E.
  destruct (func_body fn) as [| | | |ss| | | | | |]; try (by injection E as <-).
  destruct func_ctx as [|g qs]; [by injection E as <-|].
  destruct (walk_block _ (comptime_context_new (g :: qs)) None ss) as [[r1 c1]| |] eqn:Ew;
    try discriminate E. injection E as <-.
  refine (walk_quiet _ ss _ (comptime_context_new (g :: qs)) None _ _ (conj eq_refl eq_refl) I Ew).
  apply Forall_true. intros s ctx Hx. by apply (stmt_quiet _ IH).
Qed.

Lemma engine_quiet depth ctx e r ctx' : fresh ctx ->
  engine atof format_g depth ctx e = Done (r, ctx') -> quiet r.
Proof. intros Hc H. by apply (expr_quiet _ (call_quiet depth) e ctx Hc r ctx'). Qed.

(** ** Loops *)
(** What a for statement comes to; it has no body and no post statement. *)
Definition for_meaning (call : context -> FuncDeclNode -> list ComptimeValue -> eval ComptimeResult)
    (ctx : context) (init : stmt) (condition : node) : eval ComptimeResult :=
  match ctx with
  | [] => Done (result_error InvalidFor)
  | _ =>
    let loop_ctx := comptime_context_new ctx in
    match init with
    | NoStmt =>
        ebind (should_continue atof format_g call loop_ctx condition) (fun '(go_on, loop_ctx) =>
          match go_on with
          | inr r => Done r
          | inl true =>
              Done (result_error match loop_ctx with
                                 | [] => InvalidContextOrStatement
                                 | _ => UnsupportedStatement
                                 end)
          | inl false => Done (result_value VNull)
          end)
    | _ =>
        ebind (comptime_eval_statement atof format_g call loop_ctx init) (fun '(r, loop_ctx) =>
          if failed r then Done r
          else ebind (should_continue atof format_g call loop_ctx condition) (fun '(go_on, _) =>
            match go_on with
            | inr r => Done r
            | inl true => UB "the result is freed twice"
            | inl false => UB "a freed result is returned"
            end))
    end
  end.

Lemma run_loop_null call ctx condition post ss :
  run_loop atof format_g call ctx condition post (BlockStmt ss) NullResult =
  ebind (should_continue atof format_g call ctx condition) (fun '(go_on, ctx) =>
    match go_on with
    | inr r => Done r
    | inl true =>
        Done (result_error match ctx with [] => InvalidContextOrStatement | _ => UnsupportedStatement end)
    | inl false => Done (result_value VNull)
    end).
Proof.
  unfold run_loop. change MAX_ITERATIONS with (S 999). generalize 999%nat as n. intros n. simpl.
  destruct (should_continue atof format_g call ctx condition) as [[[[|]|r] c]| |]; try done.
  by destruct c.
Qed.

Lemma run_loop_dangling call ctx condition post body :
  run_loop atof format_g call ctx condition post body Dangling =
  ebind (should_continue atof format_g call ctx condition) (fun '(go_on, _) =>
    match go_on with
    | inr r => Done r
    | inl true => UB "the result is freed twice"
    | inl false => UB "a freed result is returned"
    end).
Proof.
  unfold run_loop. change MAX_ITERATIONS with (S 999). generalize 999%nat as n. intros n. simpl.
  by destruct (should_continue atof format_g call ctx condition) as [[[[|]|r] c]| |].
Qed.

Lemma for_stmt_eq call ctx init condition post ss :
  comptime_eval_for_stmt atof format_g call ctx init condition post (BlockStmt ss) =
  for_meaning call ctx init condition.
Proof.
  unfold comptime_eval_for_stmt, for_meaning. destruct ctx as [|f ps]; [done|].
  destruct init; [apply run_loop_null|..];
    match goal with |- context [comptime_eval_statement _ _ _ _ ?i] =>
      destruct (comptime_eval_statement atof format_g call (comptime_context_new (f :: ps)) i)
        as [[r c]| |]; [|done..] end;
    cbn [ebind free_result]; destruct (failed r); try done; apply run_loop_dangling.
Qed.

Lemma should_continue_failed call ctx condition r ctx' :
  should_continue atof format_g call ctx condition = Done (inr r, ctx') -> error r <> None.
Proof.
  intros H. assert (exists y c, Done (if failed y then inr y else inl (comptime_value_is_truthy (value y)), c)
    = Done (inr r, ctx')) as (y & c & Hy).
  { unfold should_continue in H. destruct condition; [done|..];
      match type of H with context [comptime_eval_expression _ _ _ ctx ?e] =>
        destruct (comptime_eval_expression atof format_g call ctx e) as [[y c]| |]; try done end;
      by exists y, c. }
  unfold failed in Hy. destruct (error y) eqn:Ey; [|done]. injection Hy as <- <-. by rewrite Ey.
Qed.

(** With an init statement there is never a value. *)
Lemma for_meaning_init call ctx init condition r : init <> NoStmt ->
  for_meaning call ctx init condition = Done r -> error r <> None.
Proof.
  intros Hi H. destruct ctx as [|f ps]; [by injection H as <-|]. unfold for_meaning in H.
  assert (exists q c, (if failed q then Done q
          else ebind (should_continue atof format_g call c condition) (fun '(go_on, _) =>
            match go_on with
            | inr r => Done r
            | inl true => UB "the result is freed twice"
            | inl false => UB "a freed result is returned"
            end)) = Done r) as (q & c & Hq).
  { destruct init; [done|..];
      match type of H with context [comptime_eval_statement _ _ _ ?c ?i] =>
        destruct (comptime_eval_statement atof format_g call c i) as [[q c']| |]; try done end;
      by exists q, c'. }
  unfold failed in Hq. destruct (error q) eqn:Eq; [injection Hq as <-; by rewrite Eq|].
  destruct (should_continue atof format_g call c condition) as [[[[|]|x] c2]| |] eqn:Es; try done.
  injection Hq as <-. by eapply should_continue_failed.
Qed.
End limits.
