(* ===== verification/ComptimeResults.v ===== *)
(** * ComptimeResults: what [comptime const] computes, and what it does not.

    [comptime_const_exact] is the theorem on checked programs; [recursion_limit_never_reported] and
    [for_statement_never_loops] hold of any program; [comptime_misses] collects programs on which the
    engine and the language part. *)
From Stdlib Require Import ZArith Lia Ascii String Bool SpecFloat.
From stdpp Require Import base list numbers option strings pretty gmap.
From S2P Require Import Prelude Numeral Token Types Terminating ConstExpr Comptime ComptimeSem.
From S2P Require Import ComptimeFacts ComptimeSound ComptimeLimits.
Local Open Scope string_scope.
Local Open Scope Z_scope.
Local Open Scope list_scope.

(** ** Text of programs *)
Definition int_literal (z : Z) : node := LiteralNode TOKEN_INT (pretty z).
Definition name (x : string) : node := IdentifierNode x.
Definition call (f : string) (args : list node) : node := CallExprNode (name f) args.
Definition binary (l : node) (op : TokenType) (r : node) : node := BinaryExprNode op l r.
Definition func (f : string) (params : list string) (body : list Comptime.stmt) : FuncDeclNode :=
  mkFunc f [params] false (BlockStmt body).
Definition no_atof (_ : string) : spec_float := S754_zero false.
Definition no_format (_ : spec_float) : string := "".

Section results.
Context (atof : string -> spec_float) (format_g : spec_float -> string).

(** A checked program has no methods, so the engine's table is the language's. *)
Lemma checked_table sigs fns : checked_program sigs fns = true -> table fns = declarations fns.
Proof.
  unfold checked_program, table. rewrite !andb_true_iff. intros [[_ H] _]. f_equal.
  induction fns as [|fn fns IH]; [done|]. simpl in *. destruct (has_receiver fn); [done|]. simpl. by rewrite IH.
Qed.

Lemma root_view sigs fns : checked_program sigs fns = true -> view (table fns) (root_context fns) [].
Proof.
  intros Hp. rewrite root_context_eq, <- (checked_table sigs fns Hp).
  split; [done|]. exists [], [set_funcs (table fns) new_frame].
  split; [done|]. split; [constructor|]. intros x. simpl. by destruct (named x (table fns)).
Qed.

(** The engine on an expression of a checked program, from its root context. *)
Lemma engine_value sigs fns e t depth r ctx' :
  checked_program sigs fns = true -> type_of sigs [] e = Some t ->
  engine atof format_g depth (root_context fns) e = Done (r, ctx') -> error r = None ->
  ctx' = root_context fns /\ exists v, value r = Some (inject v) /\ gtype_of v = t /\
    evaluates true (table fns) [] e v.
Proof.
  intros Hp Ht He Hr.
  destruct (expr_sound atof format_g sigs fns Hp _ (call_sound atof format_g sigs fns Hp depth) e
    _ _ _ _ _ (root_view sigs fns Hp) Ht He) as [-> H]. split; [done|]. by apply H.
Qed.

Lemma engine_reaches sigs fns e t v :
  checked_program sigs fns = true -> type_of sigs [] e = Some t ->
  evaluates true (table fns) [] e v ->
  exists d0, forall depth, (d0 <= depth)%nat ->
    engine atof format_g depth (root_context fns) e = Done (returns_value v, root_context fns).
Proof.
  intros Hp Ht Hv.
  destruct (proj1 (strict_runs atof format_g sigs fns Hp) _ _ _ Hv t Ht) as [_ [d0 Hd]].
  exists d0. intros depth Hdepth. by apply (Hd depth _ Hdepth (root_view sigs fns Hp)).
Qed.

(** C36: [comptime const x = e] gets the value that the program gives [e], in the fragment of integers
    and booleans and in programs whose functions have distinct names and are no methods
    ([checked_program]): the engine's value is the result of a run in which no operation overflows and
    both operands of every [&&] and [||] have values, every run of [e] has the same result, and the
    engine finds the value of every such strict run once calls may nest deep enough.  Runs that are not
    strict are not covered: the engine fails on some of them ([comptime_misses]). *)
Theorem comptime_const_exact sigs fns x e t :
  checked_program sigs fns = true -> type_of sigs [] e = Some t ->
  (forall depth cv ctx',
     comptime_const_value atof format_g depth (root_context fns) (ConstDecl true [x] e) =
       Done (Some cv, ctx') ->
     ctx' = root_context fns /\ exists v, cv = inject v /\ gtype_of v = t /\
       evaluates true (table fns) [] e v /\
       forall w, evaluates false (table fns) [] e w -> w = v) /\
  (forall v, evaluates true (table fns) [] e v ->
     exists d0, forall depth, (d0 <= depth)%nat ->
       comptime_const_value atof format_g depth (root_context fns) (ConstDecl true [x] e) =
         Done (Some (inject v), root_context fns)).
Proof.
  intros Hp Ht. unfold comptime_const_value.
  assert (exists f ps, root_context fns = f :: ps) as (f & ps & Hroot)
    by (rewrite root_context_eq; by do 2 eexists).
  rewrite Hroot. rewrite <- Hroot. split.
  - intros depth cv ctx' H.
    destruct (engine atof format_g depth (root_context fns) e) as [[r c]| |] eqn:E; try discriminate H.
    simpl in H. unfold failed in H. destruct (error r) eqn:Er; [discriminate H|].
    destruct (engine_value sigs fns e t depth r c Hp Ht E Er) as (-> & v & Hval & Hty & Hv).
    rewrite Hval in H. simpl in H. rewrite inject_copy in H. injection H as <- <-. split; [done|].
    exists v. split_and!; [done..|]. intros w Hw.
    exact (proj1 (run_unique (table fns)) _ _ _ Hw _ (proj1 (strict_run (table fns)) _ _ _ Hv)).
  - intros v Hv. destruct (engine_reaches sigs fns e t v Hp Ht Hv) as [d0 Hd]. exists d0.
    intros depth Hdepth. rewrite Hd by done. simpl. by rewrite inject_copy.
Qed.
End results.

(** The example of the documentation. *)
Definition fib : FuncDeclNode :=
  func "fib" ["n"]
    [IfStmt (binary (name "n") TOKEN_LT (int_literal 2)) (BlockStmt [ReturnStmt (name "n")]) NoStmt;
     ReturnStmt (binary (call "fib" [binary (name "n") TOKEN_MINUS (int_literal 1)]) TOKEN_PLUS
                   (call "fib" [binary (name "n") TOKEN_MINUS (int_literal 2)]))].
Definition fib_sigs : signatures := {[ "fib" := ([TInt], TInt) ]}.

Lemma comptime_const_exact_witness :
  evaluates true (table [fib]) [] (call "fib" [int_literal 10]) (GInt 55) /\
  forall w, evaluates false (table [fib]) [] (call "fib" [int_literal 10]) w -> w = GInt 55.
Proof.
  destruct (comptime_const_exact no_atof no_format fib_sigs [fib] "FIB10" (call "fib" [int_literal 10])
    TInt ltac:(vm_compute; reflexivity) ltac:(vm_compute; reflexivity)) as [H _].
  destruct (H 12%nat (VInt 55) (root_context [fib]) ltac:(vm_compute; reflexivity))
    as (_ & v & Hv & _ & Hrun & Hu).
  destruct v as [z|b]; [|discriminate Hv]. injection Hv as <-. split; [exact Hrun|exact Hu].
Defined.

(** ** The limits *)
(** [func f(n int) int { return f(n) }] *)
Definition forever : FuncDeclNode := func "f" ["n"] [ReturnStmt (call "f" [name "n"])].

Lemma forever_deep atof format_g depth ctx : shallow ctx ->
  comptime_context_lookup_func ctx "f" = Some forever ->
  comptime_call_user_function atof format_g depth ctx forever [VInt 0] = Deep.
Proof.
  revert ctx. induction depth as [|depth IH]; intros ctx Hs Hf; [done|].
  destruct ctx as [|f ps]; [done|]. simpl in Hs.
  cbn -[comptime_context_lookup_func comptime_call_user_function]. simpl.
  replace (max_recursion_depth f <=? current_recursion_depth f) with false
    by (symmetry; apply Z.leb_gt; lia).
  cbn -[comptime_call_user_function named] in *. cbn [named String.eqb Ascii.eqb Bool.eqb].
  rewrite Hf. cbn -[comptime_call_user_function named].
  rewrite IH; [done|done|]. exact Hf.
Qed.

(** C37: the recursion limit of 100 does not exist in effect: no evaluation from the context that the
    type checker builds, of any program, reports that it was exceeded, and a function that calls
    itself nests deeper than any bound. *)
Theorem recursion_limit_never_reported :
  (forall atof format_g fns e depth r ctx',
     engine atof format_g depth (root_context fns) e = Done (r, ctx') ->
     error r <> Some MaximumRecursionDepth) /\
  (forall atof format_g depth,
     engine atof format_g depth (root_context [forever]) (call "f" [int_literal 0]) = Deep).
Proof.
  split.
  - intros atof format_g fns e depth r ctx' H.
    refine (engine_quiet atof format_g depth (root_context fns) e r ctx' _ H).
    by rewrite root_context_eq.
  - intros atof format_g depth. unfold engine. simpl. by rewrite forever_deep.
Qed.

(** ** Loops *)
(** C38: no for statement of the language loops in the engine: its outcome depends neither on the
    statements of its body nor on its post statement, and with an init statement it is an error or
    undefined behaviour, never a value (the result of the init statement is freed and then freed again
    or returned). *)
Theorem for_statement_never_loops atof format_g fn_call ctx init condition :
  (forall post post' ss ss',
     comptime_eval_for_stmt atof format_g fn_call ctx init condition post (BlockStmt ss) =
     comptime_eval_for_stmt atof format_g fn_call ctx init condition post' (BlockStmt ss')) /\
  (forall post ss r, init <> NoStmt ->
     comptime_eval_for_stmt atof format_g fn_call ctx init condition post (BlockStmt ss) = Done r ->
     error r <> None).
Proof.
  split; [intros; by rewrite !for_stmt_eq|]. intros post ss r Hi H. rewrite for_stmt_eq in H.
  by eapply for_meaning_init.
Qed.

(** [for i := 0; i < 3; i++ {}] *)
Lemma for_statement_never_loops_witness :
  comptime_eval_for_stmt no_atof no_format (fun _ _ _ => Deep) [new_frame]
    (VarDecl ["i"] (int_literal 0)) (binary (name "i") TOKEN_LT (int_literal 3))
    OtherStmt (BlockStmt []) = UB "the result is freed twice".
Proof.
  rewrite (proj1 (for_statement_never_loops no_atof no_format (fun _ _ _ => Deep) [new_frame]
    (VarDecl ["i"] (int_literal 0)) (binary (name "i") TOKEN_LT (int_literal 3))) OtherStmt NoStmt [] []).
  vm_compute. reflexivity.
Defined.

(** ** Where the engine and the language part *)
(** The value that a [comptime const] gets, or the outcome if it gets none. *)
Inductive const_outcome : Set := Value (v : ComptimeValue) | Error (e : comptime_error) | Undefined | TooDeep.

Definition const_value (depth : nat) (fns : list FuncDeclNode) (e : node) : const_outcome :=
  match engine no_atof no_format depth (root_context fns) e with
  | Done (r, _) =>
      match error r, value r with
      | Some x, _ => Error x
      | None, Some v => Value v
      | None, None => Undefined
      end
  | UB _ => Undefined
  | Deep => TooDeep
  end.

(** [func f(x int) int { return g }], [func h(g int) int { return f(0) }] *)
Definition free_name : list FuncDeclNode :=
  [func "f" ["x"] [ReturnStmt (name "g")]; func "h" ["g"] [ReturnStmt (call "f" [int_literal 0])]].

(** [func f(p1, ..., p17 int) int { return p17 }],
    [func h(p17 int) int { return f(1, ..., 17) }] *)
Definition numbers : list Z := map Z.of_nat (seq 1 17).
Definition seventeen : list FuncDeclNode :=
  [func "f" (map (fun z => "p" +:+ pretty z) numbers) [ReturnStmt (name "p17")];
   func "h" ["p17"] [ReturnStmt (call "f" (map int_literal numbers))]].

(** [func f(n int) bool { return n == 0 || 10 / n > 1 }] *)
Definition guarded : FuncDeclNode :=
  func "f" ["n"] [ReturnStmt (binary (binary (name "n") TOKEN_EQ (int_literal 0)) TOKEN_OR
    (binary (binary (int_literal 10) TOKEN_DIVIDE (name "n")) TOKEN_GT (int_literal 1)))].

(** [func (p T) f(x int) int { return 1 }], [func f(x int) int { return 2 }] *)
Definition method_first : list FuncDeclNode :=
  [mkFunc "f" [["p"]; ["x"]] true (BlockStmt [ReturnStmt (int_literal 1)]);
   func "f" ["x"] [ReturnStmt (int_literal 2)]].

(** [comptime { @emit("x") }] *)
Definition emit_call : node := call "@emit" [LiteralNode TOKEN_STRING "x"].
Definition emitting : Comptime.stmt := ComptimeBlock (BlockStmt [ExprStmt emit_call]).

(** The text that an outcome adds to the generated code. *)
Definition emitted {A} (code : A -> option string) (m : eval A) : option string :=
  match m with Done a => code a | _ => None end.

(** [-7 / 2] *)
Definition quotient : node :=
  binary (UnaryExprNode TOKEN_MINUS (int_literal 7)) TOKEN_DIVIDE (int_literal 2).

(** The run of a body that is one return. *)
Lemma call_run strict prog env f args fn vs e v :
  named f prog = Some fn -> evaluate strict prog env args vs -> func_body fn = BlockStmt [ReturnStmt e] ->
  evaluates strict prog [∅; arguments fn vs] e v -> evaluates strict prog env (call f args) v.
Proof.
  intros Hf Ha Hb He. eapply ev_call; [done|done|]. rewrite Hb. eapply ex_block, run_return.
  by constructor.
Qed.

Lemma call_run_inv strict prog env f args v : evaluates strict prog env (call f args) v ->
  exists fn vs env', named f prog = Some fn /\ evaluate strict prog env args vs /\
    executes strict prog [arguments fn vs] (func_body fn) (Returns v) env'.
Proof. inversion 1; subst. by do 3 eexists. Qed.

Lemma return_run_inv strict prog env e v env' :
  executes strict prog env (BlockStmt [ReturnStmt e]) (Returns v) env' ->
  evaluates strict prog (∅ :: env) e v.
Proof.
  inversion 1 as [| | |? ? ? ? Hr| | |]; subst. inversion Hr as [|? ? ? ? ? Hs|? ? ? ? ? ? Hs]; subst.
  - by inversion Hs.
  - by inversion Hs.
Qed.

Lemma free_name_stuck v : ~ evaluates false (table free_name) [] (call "h" [int_literal 2]) v.
Proof.
  intros (fn & vs & env' & [= <-] & Ha & Hb)%call_run_inv.
  apply return_run_inv, call_run_inv in Hb as (gn & ws & env2 & [= <-] & Hc & Hd).
  apply return_run_inv in Hd. inversion Hd as [| | |? ? ? Hx| | | | | |]; subst.
  inversion Hc as [|? ? ? ? ? Hw Hn]; subst. inversion Hn; subst. discriminate Hx.
Qed.

Lemma seventeen_runs : evaluates false (table seventeen) [] (call "h" [int_literal 99]) (GInt 17).
Proof.
  eapply call_run; [done| |done|].
  - constructor; [by apply ev_int|constructor].
  - eapply (call_run _ _ _ _ _ _ (map GInt numbers)); [done| |done|].
    + repeat (constructor; [by apply ev_int|]). constructor.
    + constructor. by vm_compute.
Qed.

Lemma guarded_runs : evaluates false (table [guarded]) [] (call "f" [int_literal 0]) (GBool true).
Proof.
  eapply call_run; [done| |done|].
  - constructor; [by apply ev_int|constructor].
  - eapply ev_left; [done| |done]. eapply (ev_binary _ _ _ _ _ _ (GInt 0) (GInt 0) (GBool true)); [| |done|done].
    + constructor. by vm_compute.
    + by apply (ev_int _ _ _ 0).
Qed.

Lemma method_first_runs : evaluates false (table method_first) [] (call "f" [int_literal 5]) (GInt 2).
Proof.
  eapply call_run; [done| |done|].
  - constructor; [by apply ev_int|constructor].
  - by apply (ev_int _ _ _ 2).
Qed.

Lemma overflow_runs : evaluates false [] [] (binary (int_literal (2 ^ 63 - 1)) TOKEN_PLUS (int_literal 1))
  (GInt (- 2 ^ 63)).
Proof.
  eapply (ev_binary _ _ _ _ _ _ (GInt (2 ^ 63 - 1)) (GInt 1) (GInt (2 ^ 63))); [| |done|done]; by apply ev_int.
Qed.

(** C39: programs on which the engine does not give the value of the program: a name that the function
    does not declare is found in its caller; of more than sixteen arguments the last are dropped,
    without an error when the caller has a variable of the parameter's name; the right operand of [||]
    is evaluated although the left one decides, so a guarded division is an error; an addition that
    wraps is undefined behaviour of the compiler; a method that comes first is called for the function
    of that name, with the argument as its receiver; an [@emit] that adds its text to the context it is
    evaluated in adds nothing from inside a comptime block; and the folder, which is asked first for a comptime argument, divides unsigned where the engine divides
    signed. *)
Theorem comptime_misses :
  (const_value 2 free_name (call "h" [int_literal 2]) = Value (VInt 2) /\
   forall v, ~ evaluates false (table free_name) [] (call "h" [int_literal 2]) v) /\
  (const_value 2 seventeen (call "h" [int_literal 99]) = Value (VInt 99) /\
   evaluates false (table seventeen) [] (call "h" [int_literal 99]) (GInt 17)) /\
  (const_value 1 [guarded] (call "f" [int_literal 0]) = Error DivisionByZero /\
   evaluates false (table [guarded]) [] (call "f" [int_literal 0]) (GBool true)) /\
  (const_value 0 [] (binary (int_literal (2 ^ 63 - 1)) TOKEN_PLUS (int_literal 1)) = Undefined /\
   evaluates false [] [] (binary (int_literal (2 ^ 63 - 1)) TOKEN_PLUS (int_literal 1)) (GInt (- 2 ^ 63))) /\
  (const_value 1 method_first (call "f" [int_literal 5]) = Value (VInt 1) /\
   evaluates false (table method_first) [] (call "f" [int_literal 5]) (GInt 2)) /\
  (emitted (fun '(_, ctx) => match ctx with f :: _ => generated_code f | [] => None end)
     (engine no_atof no_format 0 (root_context []) emit_call) = Some "x" /\
   emitted result_code (execute_comptime_block no_atof no_format (fun _ _ _ => Deep) emitting (root_context [])) = None /\
   execute_comptime_block no_atof no_format (fun _ _ _ => Deep) emitting (root_context []) = Done (result_value VNull)) /\
  (const_value 0 [] quotient = Value (VInt (-3)) /\
   type_check_capture_comptime_arg no_atof no_format 0 (mkChecker [] ∅) (root_context []) [] quotient =
     Done (Some [9223372036854775804], root_context [])).
Proof.
  split_and!; try (vm_compute; reflexivity).
  - apply free_name_stuck.
  - apply seventeen_runs.
  - apply guarded_runs.
  - apply overflow_runs.
  - apply method_first_runs.
Qed.

(** ** Folding is evaluation *)
Section folding.
Context (atof : string -> spec_float) (format_g : spec_float -> string).

(** Expressions without calls. *)
Fixpoint call_free (e : node) : bool :=
  match e with
  | LiteralNode _ _ | IdentifierNode _ => true
  | UnaryExprNode _ e => call_free e
  | BinaryExprNode _ l r => call_free l && call_free r
  | _ => false
  end.

Lemma call_free_frame fn_call e : call_free e = true -> forall ctx r ctx',
  comptime_eval_expression atof format_g fn_call ctx e = Done (r, ctx') -> ctx' = ctx.
Proof.
  induction e as [|x|k s|op e IH|op l r IHl IHr|f args _ _|e s _|] using node_ind; intros Hf ctx res ctx' H;
    try discriminate Hf; (destruct ctx as [|fr ps]; [by injection H as <- <-|]); simpl in Hf.
  - by injection H.
  - by injection H.
  - simpl in H. apply then_with_inv in H as (r1 & c1 & He & H). rewrite (IH Hf _ _ _ He) in H.
    destruct H as [(_ & -> & _)|[_ H]]; [done|].
    destruct (unary_operation op (value r1)); try discriminate H. by injection H.
  - apply andb_true_iff in Hf as [Hl Hr]. simpl in H.
    apply then_with_inv in H as (r1 & c1 & He & H). rewrite (IHl Hl _ _ _ He) in H.
    destruct H as [(_ & -> & _)|[_ H]]; [done|].
    apply then_with_inv in H as (r2 & c2 & He2 & H). rewrite (IHr Hr _ _ _ He2) in H.
    destruct H as [(_ & -> & _)|[_ H]]; [done|].
    destruct (binary_operation format_g op (value r1) (value r2)); try discriminate H. by injection H.
Qed.

Lemma folded_value_inv m v ctx : folded_value m = Done (Some v, ctx) ->
  exists r, m = Done (r, ctx) /\ error r = None /\ value r = Some v.
Proof.
  unfold folded_value, failed. destruct m as [[r c]| |]; try done. simpl. intros H.
  exists r. destruct (error r); [done|]. by injection H as -> ->.
Qed.

(** What [comptime_constant_fold] gives is what the engine gives. *)
Lemma constant_fold_engine depth e : forall ctx v ctx',
  comptime_constant_fold atof format_g depth ctx e = Done (Some v, ctx') ->
  call_free e = true /\ ctx' = ctx /\ exists r,
    engine atof format_g depth ctx e = Done (r, ctx) /\ error r = None /\ value r = Some v.
Proof.
  induction e as [|x|k s|op e IH|op l r IHl IHr|f args _ _|e s _|] using node_ind; intros ctx v ctx' H;
    (destruct ctx as [|fr ps]; [discriminate H|]); try discriminate H.
  - cbn -[comptime_context_lookup_var] in H. unfold engine.
    cbn -[comptime_context_lookup_var]. unfold comptime_eval_identifier.
    destruct (comptime_context_lookup_var (fr :: ps) x) as [w|]; [|discriminate H].
    injection H as <- <-. split_and!; [done|done|]. by eexists.
  - injection H as Hv <-. split_and!; [done|done|]. eexists. split_and!; [done|done|exact Hv].
  - simpl in H. destruct (comptime_constant_fold _ _ depth (fr :: ps) e) as [[[w|] c]| |] eqn:E;
      try discriminate H.
    destruct (IH _ _ _ E) as (Hf & -> & _). simpl in H. apply folded_value_inv in H as (q & Hq & He & Hv).
    pose proof (call_free_frame (comptime_call_user_function atof format_g depth) (UnaryExprNode op e)
      Hf (fr :: ps) q ctx' Hq) as ->. split_and!; [done|done|by exists q].
  - simpl in H. destruct (comptime_constant_fold _ _ depth (fr :: ps) l) as [[[w|] c]| |] eqn:E;
      try discriminate H;
      [|simpl in H; by destruct (comptime_constant_fold _ _ depth c r) as [[o c2]| |]].
    destruct (IHl _ _ _ E) as (Hf & -> & _). simpl in H.
    destruct (comptime_constant_fold _ _ depth (fr :: ps) r) as [[[w2|] c2]| |] eqn:E2; try discriminate H.
    destruct (IHr _ _ _ E2) as (Hf2 & -> & _). simpl in H.
    apply folded_value_inv in H as (q & Hq & He & Hv).
    assert (call_free (BinaryExprNode op l r) = true) as Hb by (simpl; by rewrite Hf, Hf2).
    pose proof (call_free_frame (comptime_call_user_function atof format_g depth) (BinaryExprNode op l r)
      Hb (fr :: ps) q ctx' Hq) as ->. split_and!; [done|done|by exists q].
Qed.
End folding.
