(* ===== verification/ComptimeIntrinsics.v ===== *)
(** * ComptimeIntrinsics: code generation by intrinsics (src/comptime/comptime_intrinsics.c) and types
    from comptime values (comptime_types.c).

    A template is expanded into a block of a size that the code tracks; a store outside it is [UB].
    [template_expands] is the functional theorem for templates whose placeholders are closed,
    [template_overflows] has the two others that leave the block.  The validation of a format string is
    compared with what [printf] reads ([format_check_arguments]).  What [snprintf] writes for one
    argument is libc's and a parameter; [comptime_value_to_ast] and printing are left out. *)
From Stdlib Require Import ZArith Lia Ascii String Bool SpecFloat.
From stdpp Require Import base list numbers option strings pretty.
From S2P Require Import Prelude Numeral Token Types ConstExpr Comptime.
Local Open Scope string_scope.
Local Open Scope Z_scope.
Local Open Scope list_scope.
Local Open Scope comptime_scope.

(** ** Templates *)
Abbreviation text := (list ascii).
Abbreviation chars := list_ascii_of_string.

(** [generated] with its size; [output_pos] is the length of what was written. *)
Record buffer : Set := mkBuffer { output : text; buffer_size : Z }.
Definition output_pos (b : buffer) : Z := Z.of_nat (List.length (output b)).

Definition past_the_block : string := "store past the block".

(** [generated[output_pos++] = c] *)
Definition put (b : buffer) (c : ascii) : eval buffer :=
  if output_pos b <? buffer_size b then Done (mkBuffer (output b ++ [c]) (buffer_size b))
  else UB past_the_block.

(** [strcpy(generated + output_pos, arg_str)], the terminator included. *)
Definition put_text (b : buffer) (t : text) : eval buffer :=
  if output_pos b + Z.of_nat (List.length t) <? buffer_size b then
    Done (mkBuffer (output b ++ t) (buffer_size b))
  else UB past_the_block.

(** What follows two characters [c] at the front. *)
Definition after_two (c : ascii) (t : text) : option text :=
  match t with
  | x :: y :: rest => if Ascii.eqb x c && Ascii.eqb y c then Some rest else None
  | _ => None
  end.

(** The text before the first [}}] and the text after it. *)
Fixpoint find_closing (t : text) : option (text * text) :=
  match after_two "}" t with
  | Some rest => Some ([], rest)
  | None =>
      match t with
      | [] => None
      | c :: t' => match find_closing t' with Some (p, rest) => Some (c :: p, rest) | None => None end
      end
  end.

Definition is_digit (c : ascii) : bool :=
  (48 <=? Z.of_nat (nat_of_ascii c)) && (Z.of_nat (nat_of_ascii c) <=? 57).

(** [atoi]: [strtol] clamped, then narrowed to an int. *)
Definition to_int32 (z : Z) : Z := let v := z mod 2 ^ 32 in if v <? 2 ^ 31 then v else v - 2 ^ 32.
Definition atoi (p : text) : Z := to_int32 (atoll (string_of_list_ascii p)).

Definition PLACEHOLDER : nat := 32.

Section intrinsics.
Context (format_g : spec_float -> string) (sprintf : string -> ComptimeValue -> string).

(** The argument that a placeholder names, as text. *)
Definition placeholder_text (p : text) (args : list ComptimeValue) : option text :=
  if (List.length p <? PLACEHOLDER)%nat then
    match p with
    | c :: _ =>
        if is_digit c then
          let arg_index := atoi p in
          if (0 <=? arg_index) && (arg_index <? Z.of_nat (List.length args)) then
            match args !! Z.to_nat arg_index with
            | Some a => Some (chars (comptime_value_to_string format_g (Some a)))
            | None => None
            end
          else None
        else None
    | [] => None
    end
  else None.

Definition put_placeholder (b : buffer) (p : text) (args : list ComptimeValue) : eval buffer :=
  match placeholder_text p args with
  | None => Done b
  | Some t =>
      let len := Z.of_nat (List.length t) in
      let b := if buffer_size b <=? output_pos b + len
               then mkBuffer (output b) ((output_pos b + len + 1) * 2) else b in
      put_text b t
  end.

Definition put_char (b : buffer) (c : ascii) : eval buffer :=
  put (if buffer_size b - 1 <=? output_pos b then mkBuffer (output b) (buffer_size b * 2) else b) c.

(** The loop over the template; [fuel] is the number of characters left. *)
Fixpoint expand_loop (fuel : nat) (b : buffer) (t : text) (args : list ComptimeValue) : eval buffer :=
  match fuel, t with
  | S fuel, c :: t' =>
      match after_two "{" t with
      | Some inner =>
          match find_closing inner with
          | Some (p, rest) => let! b := put_placeholder b p args in expand_loop fuel b rest args
          | None => let! b := put b c in expand_loop fuel b t' args
          end
      | None => let! b := put_char b c in expand_loop fuel b t' args
      end
  | _, _ => Done b
  end.

Definition expand_template (template : string) (args : list ComptimeValue) : eval string :=
  let t := chars template in
  let len := List.length t in
  let! b := expand_loop len (mkBuffer [] (Z.of_nat len * 2)) t args in
  let! _ := put b "000"%char in
  Done (string_of_list_ascii (output b)).

Definition comptime_intrinsic_generate_template (ctx : context) (template : option ComptimeValue)
    (args : list ComptimeValue) : eval (ComptimeResult * context) :=
  match ctx, template with
  | _ :: _, Some (VString (Some t)) =>
      let! generated := expand_template t args in
      comptime_intrinsic_emit ctx (Some (comptime_value_from_string generated))
  | _ :: _, Some (VString None) => UB "strlen of a null pointer"
  | _, _ => Done (result_error (InvalidIntrinsicArgument "@generate"), ctx)
  end.

Fixpoint generate_loop (rounds : nat) (i : Z) (ctx : context) (template : option ComptimeValue)
    (last : option ComptimeResult) : eval (ComptimeResult * context) :=
  match rounds with
  | O => Done (default (result_value (comptime_value_new COMPTIME_VALUE_NULL)) last, ctx)
  | S rounds =>
      let! (r, ctx) :=
        comptime_intrinsic_generate_template ctx template [comptime_value_from_int i] in
      if failed r then Done (r, ctx) else generate_loop rounds (i + 1) ctx template (Some r)
  end.

Definition comptime_intrinsic_generate_loop (ctx : context) (count template : option ComptimeValue)
  : eval (ComptimeResult * context) :=
  match ctx, count, template with
  | _ :: _, Some (VInt n), Some (VString _) =>
      if (n <? 0) || (1000 <? n) then
        Done (result_error (OtherError "@generate_loop count out of range"), ctx)
      else generate_loop (Z.to_nat n) 0 ctx template None
  | _, _, _ => Done (result_error (InvalidIntrinsicArgument "@generate_loop"), ctx)
  end.

Definition comptime_intrinsic_struct_fields (ctx : context) (struct_type : option ComptimeValue)
  : ComptimeResult :=
  match ctx, struct_type with
  | _ :: _, Some _ =>
      result_value (VArray (map comptime_value_from_string ["id"; "name"; "value"]))
  | _, _ => result_error (InvalidIntrinsicArgument "@struct_fields")
  end.

(** ** Format strings *)
Inductive FmtArgClass : Set := FMT_ARG_INT | FMT_ARG_STR.

Definition one_of (set : string) (c : ascii) : bool := existsb (Ascii.eqb c) (chars set).
Definition is_modifier : ascii -> bool := one_of "-+ #0'123456789.hljztLqI*".

Fixpoint skip_modifiers (t : text) : text :=
  match t with c :: t' => if is_modifier c then skip_modifiers t' else t | [] => [] end.

Definition class_matches (cls : FmtArgClass) (c : ascii) : bool :=
  match cls with FMT_ARG_INT => one_of "diouxXc" c | FMT_ARG_STR => Ascii.eqb c "s" end.

(** [seen] is [conversions > 0]; the fuel is the number of characters left. *)
Fixpoint format_safe (fuel : nat) (t : text) (cls : FmtArgClass) (seen : bool) : bool :=
  match fuel, t with
  | S fuel, c :: t' =>
      match after_two "%" t with
      | Some rest => format_safe fuel rest cls seen
      | None =>
          if negb (Ascii.eqb c "%") then format_safe fuel t' cls seen
          else match skip_modifiers t' with
               | [] => false
               | c :: rest =>
                   if Ascii.eqb c "n" || seen || negb (class_matches cls c) then false
                   else format_safe fuel rest cls true
               end
      end
  | _, _ => true
  end.

Definition comptime_format_one_arg_safe (fmt : string) (cls : FmtArgClass) : bool :=
  format_safe (String.length fmt) (chars fmt) cls false.

Definition arg_class (v : ComptimeValue) : FmtArgClass :=
  match v with VInt _ => FMT_ARG_INT | _ => FMT_ARG_STR end.

(** [snprintf] into a block of [strlen(fmt) + 256] bytes. *)
Definition comptime_intrinsic_format (ctx : context) (format_str : option ComptimeValue)
    (args : list ComptimeValue) : eval ComptimeResult :=
  match ctx, format_str with
  | _ :: _, Some (VString None) => UB "strlen of a null pointer"
  | _ :: _, Some (VString (Some fmt)) =>
      let result_size := (String.length fmt + 256)%nat in
      match args with
      | [a] =>
          if negb (comptime_format_one_arg_safe fmt (arg_class a)) then
            Done (result_error (OtherError "@format: unsafe or unsupported format string"))
          else
            let arg := match a with
                       | VInt _ | VString _ => a
                       | _ => VString (Some (comptime_value_to_string format_g (Some a)))
                       end in
            Done (result_value (comptime_value_from_string (snprintf result_size (sprintf fmt arg))))
      | _ => Done (result_value (comptime_value_from_string fmt))
      end
  | _, _ => Done (result_error (InvalidIntrinsicArgument "@format"))
  end.

(** ** The extended call handler: its intrinsics take fixed arguments. *)
Definition newline : string := String "010"%char "".

Definition is_identifier (e : node) : bool := match e with IdentifierNode _ => true | _ => false end.

Definition comptime_eval_function_call_advanced
    (fallback : context -> node -> list node -> eval (ComptimeResult * context))
    (ctx : context) (function : node) (args : list node) : eval (ComptimeResult * context) :=
  match ctx, function with
  | [], _ => Done (result_error InvalidFunctionCall, ctx)
  | _, IdentifierNode f =>
      if (f =? "@generate")%string && match args with a :: _ => is_identifier a | [] => false end then
        comptime_intrinsic_generate_template ctx
          (Some (comptime_value_from_string ("func generated_{{0}}() { return {{0}}; }" +:+ newline)))
          [comptime_value_from_int 42]
      else if (f =? "@generate_loop")%string then
        comptime_intrinsic_generate_loop ctx (Some (comptime_value_from_int 3))
          (Some (comptime_value_from_string ("func process_{{0}}() { return {{0}}; }" +:+ newline)))
      else if (f =? "@struct_fields")%string then
        Done (comptime_intrinsic_struct_fields ctx (Some (comptime_value_new COMPTIME_VALUE_STRUCT)), ctx)
      else if (f =? "@format")%string then
        let! r := comptime_intrinsic_format ctx (Some (comptime_value_from_string "Value: %d"))
                    [comptime_value_from_int 123] in Done (r, ctx)
      else fallback ctx function args
  | _, _ => fallback ctx function args
  end.
End intrinsics.

(** ** The code generation pipeline *)
Record CodeGenPipeline : Set := mkPipeline {
  generated_functions : list string;
  generated_types : list string;
  generated_constants : list string
}.

Definition comptime_codegen_pipeline_new : CodeGenPipeline := mkPipeline [] [] [].

Definition comptime_codegen_pipeline_add_function (p : CodeGenPipeline) (function_code : string)
  : CodeGenPipeline :=
  mkPipeline (generated_functions p ++ [function_code]) (generated_types p) (generated_constants p).

(** Constants first, then types, then functions, a line break after each. *)
Definition lines (parts : list string) : string :=
  foldr (fun part rest => part +:+ newline +:+ rest) "" parts.

Definition comptime_codegen_pipeline_finalize (p : CodeGenPipeline) : string :=
  lines (generated_constants p) +:+ lines (generated_types p) +:+ lines (generated_functions p).

(** ** Types *)
Fixpoint type_from_value (v : ComptimeValue) : eval (option ty) :=
  match v with
  | VInt _ => Done (Some (type_int 64 true))
  | VFloat _ => Done (Some (type_float 64))
  | VString None => UB "strcmp of a null pointer"
  | VString (Some n) =>
      Done (if (n =? "int")%string then Some (type_int 64 true)
            else if (n =? "int64")%string then Some (type_int 64 true)
            else if (n =? "float")%string then Some (type_float 32)
            else if (n =? "float64")%string then Some (type_float 64)
            else if (n =? "bool")%string then Some type_bool
            else if (n =? "string")%string then Some type_string_type
            else None)
  | VBool _ => Done (Some type_bool)
  | VArray (e :: es) =>
      let! t := type_from_value e in
      Done match t with
           | Some t => Some (type_array t (Z.of_nat (S (List.length es))))
           | None => None
           end
  | _ => Done None
  end.

Definition comptime_type_from_value (v : option ComptimeValue) : eval (option ty) :=
  match v with Some v => type_from_value v | None => Done None end.

Record TypeFunction : Set := mkTypeFunction {
  tf_name : string;
  param_count : nat;
  return_type : option ty
}.

(** The engine's context and the registered functions, the newest first. *)
Record ComptimeTypeContext : Set := mkTypeContext {
  comptime_ctx : list frame;
  type_functions : list TypeFunction
}.

Definition comptime_type_context_new (ctx : context) : ComptimeTypeContext := mkTypeContext ctx [].

Definition comptime_type_register_function (c : ComptimeTypeContext) (f : TypeFunction)
  : ComptimeTypeContext := mkTypeContext (comptime_ctx c) (f :: type_functions c).

Definition comptime_type_lookup_function (c : ComptimeTypeContext) (n : string) : option TypeFunction :=
  find (fun f => (tf_name f =? n)%string) (type_functions c).

Definition comptime_type_register_builtins (c : ComptimeTypeContext) : ComptimeTypeContext :=
  fold_left comptime_type_register_function
    [mkTypeFunction "Array" 2 None; mkTypeFunction "Slice" 1 None; mkTypeFunction "Pointer" 1 None;
     mkTypeFunction "Map" 2 None; mkTypeFunction "Channel" 1 None;
     mkTypeFunction "SizeOf" 1 (Some (type_int 64 false));
     mkTypeFunction "AlignOf" 1 (Some (type_int 64 false))] c.

(** The length of an array type is the argument as a [size_t]. *)
Definition comptime_type_call_function (c : ComptimeTypeContext) (n : string)
    (args : list (option ComptimeValue)) : eval (option ty) :=
  match comptime_type_lookup_function c n with
  | None => Done None
  | Some _ =>
      match args with
      | [a; b] =>
          if (n =? "Array")%string then
            let! t := comptime_type_from_value a in
            match t, b with
            | Some t, Some (VInt z) => Done (Some (type_array t (u64 z)))
            | Some _, None => UB "type of a null value"
            | _, _ => Done None
            end
          else Done None
      | [a] =>
          if (n =? "Slice")%string then
            let! t := comptime_type_from_value a in Done (option_map type_slice t)
          else if (n =? "Pointer")%string then
            let! t := comptime_type_from_value a in Done (option_map type_pointer t)
          else Done None
      | _ => Done None
      end
  end.

Record ComptimeTypeResult : Set := mkTypeResult {
  tr_type : option ty;
  tr_value : option ComptimeValue;
  is_valid : bool;
  tr_error : option comptime_error
}.

Definition comptime_type_result_new (t : option ty) (v : option ComptimeValue) : ComptimeTypeResult :=
  mkTypeResult t v match t with Some _ => true | None => false end None.

(** [evaluate] is the engine. *)
Definition comptime_type_evaluate (evaluate : context -> node -> eval (ComptimeResult * context))
    (c : ComptimeTypeContext) (e : node) : eval ComptimeTypeResult :=
  let! (r, _) := evaluate (comptime_ctx c) e in
  match value r with
  | None => Done (mkTypeResult None None false (error r))
  | Some v =>
      let! t := comptime_type_from_value (Some v) in Done (comptime_type_result_new t (Some v))
  end.

(** The type that checking gives, unless the expression has a comptime value that makes a type. *)
Definition type_check_comptime_expr (evaluate : context -> node -> eval (ComptimeResult * context))
    (c : ComptimeTypeContext) (e : node) (regular_type : option ty) : eval (option ty) :=
  match regular_type with
  | None => Done None
  | Some _ =>
      let! r := comptime_type_evaluate evaluate c e in
      Done match is_valid r, tr_type r with true, Some t => Some t | _, _ => regular_type end
  end.

(** The type checker's context of types; [None] without an engine's context. *)
Definition type_checker_init_comptime (ctx : context) : option ComptimeTypeContext :=
  match ctx with
  | [] => None
  | _ => Some (comptime_type_register_builtins (comptime_type_context_new ctx))
  end.

(** The answer for a comptime block: [None] when it checks, or the error reported.  [statement] is
    [comptime_eval_statement], the evaluator without control flow, on the body. *)
Definition type_check_comptime_block
    (statement : context -> stmt -> eval (ComptimeResult * context))
    (comptime_type_ctx : option ComptimeTypeContext) (body : stmt) : eval (option comptime_error) :=
  match comptime_type_ctx with
  | None => Done None
  | Some c => let! (r, _) := statement (comptime_ctx c) body in Done (error r)
  end.

Definition type_create_dependent (base_type : ty) (constraint_value : option ComptimeValue) : ty :=
  match constraint_value with
  | None => NULL
  | Some _ => type_qualified base_type OWNERSHIP_OWNED MUTABILITY_IMMUTABLE
  end.

Definition type_validate_dependent_constraint (dependent_type : ty) (v : option ComptimeValue) : bool :=
  negb (is_NULL dependent_type) && match v with Some _ => true | None => false end.

(** ** Expansion *)
Section expansion.
Context (format_g : spec_float -> string) (args : list ComptimeValue).

(** The text of a template in which every [{{] has its [}}]. *)
Inductive expands : text -> text -> Prop :=
| expands_nil : expands [] []
| expands_char c t out :
    after_two "{" (c :: t) = None -> expands t out -> expands (c :: t) (c :: out)
| expands_placeholder t inner p rest out :
    after_two "{" t = Some inner -> find_closing inner = Some (p, rest) -> expands rest out ->
    expands t (default [] (placeholder_text format_g p args) ++ out).

Lemma after_two_length c t rest : after_two c t = Some rest -> List.length t = S (S (List.length rest)).
Proof. destruct t as [|x [|y t]]; simpl; try done. destruct (_ && _); [|done]. by intros [= ->]. Qed.

Lemma find_closing_length t p rest : find_closing t = Some (p, rest) ->
  (List.length rest <= List.length t)%nat.
Proof.
  revert p rest. induction t as [|c t IH]; intros p rest H; [done|].
  cbn -[after_two] in H. destruct (after_two "}" (c :: t)) as [r|] eqn:E.
  - injection H as <- <-. apply after_two_length in E. simpl in *. lia.
  - destruct (find_closing t) as [[q r]|]; [|done]. injection H as <- <-.
    specialize (IH _ _ eq_refl). simpl. lia.
Qed.

(** There is room for the terminator. *)
Definition roomy (b : buffer) : Prop := output_pos b < buffer_size b.

Lemma output_pos_app o t n m :
  output_pos (mkBuffer (o ++ t) n) = output_pos (mkBuffer o m) + Z.of_nat (List.length t).
Proof. unfold output_pos. simpl. rewrite length_app. lia. Qed.

Lemma put_placeholder_spec b p : roomy b -> exists n,
  put_placeholder format_g b p args =
    Done (mkBuffer (output b ++ default [] (placeholder_text format_g p args)) n) /\
  roomy (mkBuffer (output b ++ default [] (placeholder_text format_g p args)) n).
Proof.
  destruct b as [o n]. unfold roomy, put_placeholder. simpl. intros Hr.
  destruct (placeholder_text format_g p args) as [t|]; simpl; [|exists n; by rewrite app_nil_r].
  assert (0 <= output_pos (mkBuffer o n)) by (unfold output_pos; lia).
  unfold put_text. destruct (Z.leb_spec n (output_pos (mkBuffer o n) + Z.of_nat (List.length t))) as [Hn|Hn].
  - exists ((output_pos (mkBuffer o n) + Z.of_nat (List.length t) + 1) * 2).
    change (output_pos (mkBuffer o ?m)) with (output_pos (mkBuffer o n)). simpl.
    rewrite (output_pos_app o t _ n).
    replace (_ <? _) with true by (symmetry; apply Z.ltb_lt; unfold output_pos in *; simpl in *; lia).
    split; [done|lia].
  - exists n. simpl. rewrite (output_pos_app o t _ n).
    replace (_ <? _) with true by (symmetry; apply Z.ltb_lt; lia). split; [done|lia].
Qed.

Lemma put_char_spec b c : roomy b -> exists n,
  put_char b c = Done (mkBuffer (output b ++ [c]) n) /\ roomy (mkBuffer (output b ++ [c]) n).
Proof.
  destruct b as [o n]. unfold roomy, put_char, put. simpl. intros Hr.
  assert (0 <= output_pos (mkBuffer o n)) by (unfold output_pos; lia).
  exists (if n - 1 <=? output_pos (mkBuffer o n) then n * 2 else n).
  rewrite (output_pos_app o [c] _ n).
  destruct (Z.leb_spec (n - 1) (output_pos (mkBuffer o n))) as [Hn|Hn]; simpl;
    (replace (_ <? _) with true by (symmetry; apply Z.ltb_lt; unfold output_pos in *; simpl in *; lia));
    (split; [done|simpl; lia]).
Qed.

Lemma expand_loop_spec t out : expands t out -> forall fuel b, roomy b -> (List.length t <= fuel)%nat ->
  exists n, expand_loop format_g fuel b t args = Done (mkBuffer (output b ++ out) n) /\
    roomy (mkBuffer (output b ++ out) n).
Proof.
  induction 1 as [|c t out Ht _ IH|t inner p rest out Ht Hc _ IH]; intros fuel b Hr Hl.
  - destruct b as [o n]. exists n. rewrite app_nil_r. by destruct fuel.
  - destruct fuel as [|fuel]; [simpl in Hl; lia|]. cbn -[after_two]. rewrite Ht.
    destruct (put_char_spec b c Hr) as (n & -> & Hn). cbn [ebind].
    destruct (IH fuel _ Hn ltac:(simpl in Hl; lia)) as (m & -> & Hm). exists m. simpl in *.
    by rewrite <- app_assoc in *.
  - pose proof (after_two_length _ _ _ Ht). pose proof (find_closing_length _ _ _ Hc).
    destruct fuel as [|fuel]; [lia|]. destruct t as [|c t]; [done|]. cbn -[after_two]. rewrite Ht, Hc.
    destruct (put_placeholder_spec b p Hr) as (n & -> & Hn). cbn [ebind].
    destruct (IH fuel _ Hn ltac:(simpl in *; lia)) as (m & -> & Hm). exists m. simpl in *.
    by rewrite <- app_assoc in *.
Qed.

(** a template that is not empty and closes every placeholder is expanded without a store outside
    the block, and the result is its text with every placeholder replaced by its argument. *)
Theorem template_expands template out :
  template <> "" -> expands (chars template) out ->
  expand_template format_g template args = Done (string_of_list_ascii out).
Proof.
  intros Hne Hx. unfold expand_template.
  destruct (expand_loop_spec _ _ Hx (List.length (chars template))
    (mkBuffer [] (Z.of_nat (List.length (chars template)) * 2))) as (n & -> & Hr).
  - unfold roomy, output_pos. destruct template as [|c s]; [done|]. simpl. lia.
  - done.
  - cbn [ebind]. unfold put. by rewrite (proj2 (Z.ltb_lt _ _) Hr).
Qed.
End expansion.

(** A template with an argument that is used twice and one that is not given. *)
Definition demo_template : string := "f{{0}}(x*{{0}}){{1}}".
Definition no_g (_ : spec_float) : string := "".

Ltac expand_text :=
  repeat first
    [ apply expands_nil
    | eapply expands_char; [reflexivity|]
    | eapply expands_placeholder; [reflexivity|reflexivity|] ].

Lemma template_expands_witness :
  expand_template no_g demo_template [VInt 42] = Done "f42(x*42)".
Proof.
  eassert (expands no_g [VInt 42] (chars demo_template) _) as H by (simpl; expand_text).
  rewrite (template_expands no_g [VInt 42] demo_template _ ltac:(discriminate) H).
  vm_compute. reflexivity.
Defined.

(** Two templates that leave the block: the empty one, and one whose last placeholders are not closed
    after an argument that fills the block. *)
Lemma template_overflows :
  expand_template no_g "" [] = UB past_the_block /\
  expand_template no_g "{{0}}{{{" [VString (Some "123456789012345")] = UB past_the_block.
Proof. split; vm_compute; reflexivity. Qed.

(** ** What printf reads *)
(** The grammar of a format, written from the C standard (7.21.6.1) with the flags ['] and [I] and the
    conversions [C], [S] and [m] of glibc. *)
Definition is_flag (c : ascii) : bool :=
  match c with
  | "-" | "+" | " " | "#" | "0" | "'" | "I" => true
  | _ => false
  end%char.

Inductive LengthModifier : Set := L_none | L_hh | L_h | L_l | L_ll | L_q | L_j | L_z | L_t | L_L.

Definition length_text (l : LengthModifier) : text :=
  chars match l with
  | L_none => "" | L_hh => "hh" | L_h => "h" | L_l => "l" | L_ll => "ll" | L_q => "q"
  | L_j => "j" | L_z => "z" | L_t => "t" | L_L => "L"
  end.

(** What a directive takes from the arguments of printf. *)
Inductive c_argument : Set := An_int (bits : Z) | A_char_pointer | A_wchar_pointer | Another.

(** Of a conversion: [None] when the character is none. *)
Definition conversion (l : LengthModifier) (c : ascii) : option (list c_argument) :=
  match c with
  | "d" | "i" | "o" | "u" | "x" | "X" =>
      Some [An_int match l with L_none | L_hh | L_h => 32 | _ => 64 end]
  | "c" => Some [An_int 32]
  | "s" => Some [match l with L_l => A_wchar_pointer | _ => A_char_pointer end]
  | "C" => Some [An_int 32]
  | "S" => Some [A_wchar_pointer]
  | "m" => Some []
  | "n" | "p" | "a" | "A" | "e" | "E" | "f" | "F" | "g" | "G" => Some [Another]
  | _ => None
  end%char.

(** A width or a precision: a number, or [*], which takes an int. *)
Inductive amount : text -> list c_argument -> Prop :=
| a_number ns : Forall (fun c => is_digit c = true) ns -> amount ns []
| a_star : amount ["*"%char] [An_int 32].

Inductive precision : text -> list c_argument -> Prop :=
| p_none : precision [] []
| p_some t takes : amount t takes -> precision ("."%char :: t) takes.

Record directive : Set := mkDirective { d_stars : list c_argument; d_length : LengthModifier; d_conversion : ascii }.

Inductive reads : text -> list directive -> Prop :=
| reads_nil : reads [] []
| reads_char c t ds : c <> "%"%char -> reads t ds -> reads (c :: t) ds
| reads_percent t ds : reads t ds -> reads ("%"%char :: "%"%char :: t) ds
| reads_directive fl w ws p ps l c t ds :
    Forall (fun f => is_flag f = true) fl -> amount w ws -> precision p ps -> conversion l c <> None ->
    reads t ds ->
    reads ("%"%char :: (fl ++ w ++ p ++ length_text l) ++ c :: t) (mkDirective (ws ++ ps) l c :: ds).

(** The arguments that printf takes, in their order. *)
Definition taken (d : directive) : list c_argument :=
  d_stars d ++ default [] (conversion (d_length d) (d_conversion d)).
Definition arguments_taken (ds : list directive) : list c_argument := List.concat (map taken ds).

(** The conversions of integers and of strings. *)
Definition converts (cls : FmtArgClass) (c : ascii) : bool :=
  match cls, c with
  | FMT_ARG_INT, ("d" | "i" | "o" | "u" | "x" | "X" | "c")%char => true
  | FMT_ARG_STR, "s"%char => true
  | _, _ => false
  end.

(** What is passed, an [int64_t] or a [char*], up to the width of the integer and of the characters. *)
Definition fits (cls : FmtArgClass) (a : c_argument) : Prop :=
  match cls, a with
  | FMT_ARG_INT, An_int _ => True
  | FMT_ARG_STR, (A_char_pointer | A_wchar_pointer) => True
  | _, _ => False
  end.

Ltac by_ascii c := by destruct c as [[] [] [] [] [] [] [] []].

Lemma flag_modifier c : is_flag c = true -> is_modifier c = true.
Proof. by_ascii c. Qed.

Lemma digit_modifier c : is_digit c = true -> is_modifier c = true.
Proof. by_ascii c. Qed.

Lemma converts_matches cls c : class_matches cls c = converts cls c.
Proof. destruct cls; by_ascii c. Qed.

Lemma conversion_modifier l c : conversion l c <> None -> is_modifier c = false /\ c <> "%"%char.
Proof. by_ascii c. Qed.

Lemma converts_takes cls l c : converts cls c = true ->
  exists a, conversion l c = Some [a] /\ fits cls a.
Proof. destruct cls; destruct c as [[] [] [] [] [] [] [] []]; try done; intros _; destruct l; by eexists. Qed.

Lemma amount_modifiers w ws : amount w ws -> Forall (fun m => is_modifier m = true) w.
Proof. intros [ns H|]; [|by constructor]. eapply List.Forall_impl; [|exact H]. apply digit_modifier. Qed.

Lemma directive_modifiers fl w ws p ps l :
  Forall (fun f => is_flag f = true) fl -> amount w ws -> precision p ps ->
  Forall (fun m => is_modifier m = true) (fl ++ w ++ p ++ length_text l).
Proof.
  intros Hf Hw Hp. rewrite !List.Forall_app. split_and!.
  - eapply List.Forall_impl; [|exact Hf]. apply flag_modifier.
  - by eapply amount_modifiers.
  - destruct Hp; [constructor|]. constructor; [done|]. by eapply amount_modifiers.
  - destruct l; repeat constructor.
Qed.

Lemma skip_modifiers_app mods c t : Forall (fun m => is_modifier m = true) mods -> is_modifier c = false ->
  skip_modifiers (mods ++ c :: t) = c :: t.
Proof. intros H Hc. induction H as [|m mods Hm _ IH]; cbn -[is_modifier]; [by rewrite Hc|by rewrite Hm]. Qed.

Lemma after_two_other x y t : y <> x -> after_two x (x :: y :: t) = None.
Proof. intros H. simpl. rewrite Ascii.eqb_refl. by destruct (Ascii.eqb_spec y x). Qed.

Lemma after_two_first x y t : y <> x -> after_two x (y :: t) = None.
Proof. intros H. destruct t; [done|]. simpl. by destruct (Ascii.eqb_spec y x). Qed.

(** The scan at a directive. *)
Lemma format_safe_directive fuel mods c t cls seen :
  Forall (fun m => is_modifier m = true) mods -> is_modifier c = false -> c <> "%"%char ->
  format_safe (S fuel) ("%"%char :: mods ++ c :: t) cls seen =
  negb seen && converts cls c && format_safe fuel t cls true.
Proof.
  intros Hm Hc Hp. cbn -[after_two skip_modifiers class_matches].
  assert (after_two "%" ("%"%char :: mods ++ c :: t) = None) as ->.
  { destruct Hm as [|m mods Hmod Hm]; [by apply after_two_other|]. apply after_two_other. by intros ->. }
  rewrite skip_modifiers_app by done. cbn -[class_matches]. rewrite converts_matches.
  destruct (Ascii.eqb_spec c "n") as [->|]; [by destruct cls, seen|]. destruct seen; [done|]. cbn.
  by destruct (converts cls c).
Qed.

Lemma format_safe_reads t ds : reads t ds -> forall fuel cls seen, (List.length t <= fuel)%nat ->
  format_safe fuel t cls seen = true <->
  (List.length ds <= if seen then 0 else 1)%nat /\ Forall (fun d => converts cls (d_conversion d) = true) ds.
Proof.
  induction 1 as [|c t ds Hc _ IH|t ds _ IH|fl w ws p ps l c t ds Hf Hw Hp Hc _ IH]; intros fuel cls seen Hl.
  - destruct fuel; simpl; (split; [split; [lia|constructor]|done]).
  - destruct fuel as [|fuel]; [simpl in Hl; lia|]. cbn -[after_two]. rewrite after_two_first by done.
    destruct (Ascii.eqb_spec c "%"); [done|]. cbn. apply IH. simpl in Hl. lia.
  - destruct fuel as [|fuel]; [simpl in Hl; lia|]. cbn. apply IH. simpl in Hl. lia.
  - destruct fuel as [|fuel]; [simpl in Hl; lia|]. destruct (conversion_modifier l c Hc) as [Hm Hne].
    rewrite format_safe_directive by (try done; by eapply directive_modifiers).
    rewrite !andb_true_iff, IH by (simpl in Hl; rewrite length_app in Hl; simpl in Hl; lia).
    rewrite List.Forall_cons_iff. cbn [List.length d_conversion]. destruct seen; cbn; [intuition; lia|].
    split; [intros [[_ ?] [? ?]]; split_and!; try done; lia|]. intros [? [? ?]]. split_and!; try done. lia.
Qed.

Lemma accepted_reads fmt cls ds : reads (chars fmt) ds ->
  comptime_format_one_arg_safe fmt cls = true <->
  (List.length ds <= 1)%nat /\ Forall (fun d => converts cls (d_conversion d) = true) ds.
Proof.
  intros H. assert (List.length (chars fmt) = String.length fmt) as Hl
    by (clear; induction fmt; simpl; congruence).
  apply (format_safe_reads (chars fmt) ds H (String.length fmt) cls false). lia.
Qed.

(** Not a format: a flag behind the length modifier. *)
Lemma flag_last_unread ds : ~ reads (chars "%l-d") ds.
Proof.
  intros H. inversion H as [|c t ds' Hc _ E| |fl w ws p ps l c t ds' Hf Hw Hp Hc _ E]; [done|]. clear H.
  destruct Hf as [|f fl Hf _]; [|injection E as -> _; discriminate Hf].
  destruct Hw as [ns Hw|]; [|discriminate E].
  destruct Hw as [|n ns Hn _]; [|injection E as -> _; discriminate Hn].
  destruct Hp as [|t' takes _]; [|discriminate E].
  destruct l; try discriminate E; injection E as -> _; by apply Hc.
Qed.


