(* ===== verification/Escape.v ===== *)
(** * Escape: src/types/escape_core.c, the taint engine of the three escape analyses.

    A walk over a function's syntax keeps, for every local name, the set of slots its value may
    carry, and marks the slots that reach a sink, with the reason.  What a slot is, how names
    are bound and where callee summaries come from differs by pass and is a record of hooks
    ([EscapePasses]).  A taint set is the list of its bits; [escape_taint_new] of the C code
    can return no storage when memory is out, which is not modelled. *)
From Stdlib Require Import ZArith Lia Ascii String Bool.
From stdpp Require Import base list numbers option strings.
From S2P Require Import Prelude Token.

(** ** Syntax, as far as the engine tells nodes apart
    The number of a unary expression, a call or a function literal is the identity of its node. *)
Local Unset Elimination Schemes.
Inductive Expr : Set :=
| ENull
| Identifier (name : string)
| Literal
| BinaryExpr (op : TokenType) (left right : Expr)
| UnaryExpr (id : nat) (op : TokenType) (operand : Expr)
| PostfixExpr (operand : Expr)
| IndexExpr (e index : Expr)
| SliceIndexExpr (e low high : Expr)
| SelectorExpr (e : Expr) (selector : string)
| CallExpr (id : nat) (function : Expr) (args : list Expr) (has_spread : bool)
| FuncLit (id : nat) (captured_names : list string)
| StructLiteral (field_values : list Expr)
| SliceLit (elements : list Expr)
| ArrayLit (elements : list Expr)
| KeyedElement (value : Expr)
| MapLit (keys values : list Expr)
| SliceConversion (operand : Expr)
| TypeAssert (e : Expr)
| OtherExpr.

(** What heads a case of [select]: the communication, the name it binds, and whether the binding
    declares the name (1) or assigns to it (0). *)
Record SelectHead : Set := mkHead { sc_comm : Expr; sc_bind_name : option string; sc_is_declare : Z }.

Inductive Stmt : Set :=
| BlockStmt (statements : list Stmt)
| ExprStmt (e : Expr)
| IfStmt (condition : Expr) (then_stmt else_stmt : list Stmt)
| IfLetStmt (var_name : option string) (nullable_expr : Expr) (then_stmt else_stmt : list Stmt)
| ForRangeStmt (key_name value_name : option string) (range_expr : Expr) (body : list Stmt)
| ForStmt (init : list Stmt) (condition : Expr) (post : list Stmt) (body : list Stmt)
| ReturnStmt (values : list Expr)
| GoStmt (call : Expr)
| DeferStmt (call : Expr)
| BreakStmt
| ContinueStmt
| VarDecl (names : list string) (values : list Expr)
| ConstDecl (names : list string) (values : list Expr)
| MultiAssign (targets values : list Expr) (is_short_decl : bool)
| SwitchStmt (tag : Expr) (cases : list (list Expr * list Stmt))
| TypeSwitch (e : Expr) (bind_name : option string) (cases : list (list Stmt))
| SelectStmt (cases : list (SelectHead * list Stmt))
| UnsafeStmt (body : list Stmt)
| ArenaBlock (body : list Stmt)
| AssertStmt (condition message : Expr)
| AssumeStmt (condition : Expr)
| OtherStmt.
Local Set Elimination Schemes.

(** ** Reasons *)
Definition ESCAPE_REASON_NONE : Z := 0.
Definition ESCAPE_REASON_UNCLASSIFIED : Z := 2 ^ 0.
Definition ESCAPE_REASON_RETURN : Z := 2 ^ 1.
Definition ESCAPE_REASON_GLOBAL_STORE : Z := 2 ^ 2.
Definition ESCAPE_REASON_CONTAINER_STORE : Z := 2 ^ 3.
Definition ESCAPE_REASON_SUBSCRIPT_STORE : Z := 2 ^ 4.
Definition ESCAPE_REASON_CALL_RETAIN : Z := 2 ^ 5.
Definition ESCAPE_REASON_CALLEE_VALUE : Z := 2 ^ 6.
Definition ESCAPE_REASON_GO_ARG : Z := 2 ^ 7.
Definition ESCAPE_REASON_DEFER_ARG : Z := 2 ^ 8.
Definition ESCAPE_REASON_CHAN_SEND : Z := 2 ^ 9.
Definition ESCAPE_REASON_CLOSURE_CAPTURE : Z := 2 ^ 10.
Definition ESCAPE_REASON_CALL_OPAQUE : Z := 2 ^ 11.
Definition ESCAPE_REASON_CALL_VARIADIC : Z := 2 ^ 12.
Definition ESCAPE_REASON_ALL : Z := 2 ^ 13 - 1.

(** ** Taint sets *)
Abbreviation TaintSet := (list bool).
Abbreviation Reasons := (list Z).

Definition escape_taint_new (n : nat) : TaintSet := replicate n false.
Definition escape_taint_all (n : nat) : TaintSet := replicate n true.
Definition escape_taint_empty (t : TaintSet) : bool := negb (existsb id t).

(** The bits of [dst] after the loop over the common width. *)
Fixpoint taint_union (dst src : TaintSet) : TaintSet :=
  match dst, src with
  | d :: dst, s :: src => (d || s) :: taint_union dst src
  | dst, _ => dst
  end.

(** Did a bit flip? *)
Fixpoint taint_grows (dst src : TaintSet) : bool :=
  match dst, src with
  | d :: dst, s :: src => (s && negb d) || taint_grows dst src
  | _, _ => false
  end.

Definition escape_taint_union_into (dst src : TaintSet) : bool * TaintSet :=
  (taint_grows dst src, taint_union dst src).

Definition taint_union_all (n : nat) (ts : list TaintSet) : TaintSet :=
  fold_left taint_union ts (escape_taint_new n).

Fixpoint taint_minus (t base : TaintSet) : TaintSet :=
  match t, base with
  | x :: t, b :: base => (x && negb b) :: taint_minus t base
  | t, _ => t
  end.

Fixpoint set_bit (i : nat) (t : TaintSet) : TaintSet :=
  match t, i with
  | [], _ => []
  | _ :: t, O => true :: t
  | x :: t, S i => x :: set_bit i t
  end.

(** ** The environment *)
Record LocalVar : Set := mkVar { lv_name : string; lv_taint : TaintSet }.
Abbreviation LocalEnv := (list LocalVar).

Fixpoint escape_env_find (env : LocalEnv) (name : string) : option TaintSet :=
  match env with
  | [] => None
  | v :: env => if (lv_name v =? name)%string then Some (lv_taint v) else escape_env_find env name
  end.

Fixpoint env_update (env : LocalEnv) (name : string) (t : TaintSet) : LocalEnv :=
  match env with
  | [] => []
  | v :: env =>
      if (lv_name v =? name)%string then mkVar (lv_name v) t :: env else v :: env_update env name t
  end.

Definition escape_env_add_or_union (env : LocalEnv) (name : string) (value : TaintSet)
    : bool * LocalEnv :=
  match escape_env_find env name with
  | Some t => let '(ch, t') := escape_taint_union_into t value in (ch, env_update env name t')
  | None => (true, env ++ [mkVar name value])
  end.

(** ** Marking *)
Definition reason_or_unclassified (why : Z) : Z :=
  if (why =? ESCAPE_REASON_NONE)%Z then ESCAPE_REASON_UNCLASSIFIED else why.

Fixpoint mark_bits (t : TaintSet) (why : Z) (rs : Reasons) : Reasons :=
  match t, rs with
  | b :: t, r :: rs => (if b then Z.lor r why else r) :: mark_bits t why rs
  | _, rs => rs
  end.

Definition escape_mark (t : TaintSet) (why : Z) (rs : Reasons) : Reasons :=
  mark_bits t (reason_or_unclassified why) rs.

Definition escape_mark_all (why : Z) (rs : Reasons) : Reasons :=
  map (fun r => Z.lor r (reason_or_unclassified why)) rs.

Definition is_assign_op (op : TokenType) : bool :=
  match op with
  | TOKEN_ASSIGN | TOKEN_PLUS_ASSIGN | TOKEN_MINUS_ASSIGN | TOKEN_MUL_ASSIGN | TOKEN_DIV_ASSIGN
  | TOKEN_MOD_ASSIGN | TOKEN_AND_ASSIGN | TOKEN_OR_ASSIGN | TOKEN_XOR_ASSIGN | TOKEN_LSHIFT_ASSIGN
  | TOKEN_RSHIFT_ASSIGN => true
  | _ => false
  end.

(** ** Callees that keep nothing (nonretaining.c) *)
Definition is_nonretaining_builtin (name : string) : bool :=
  (name =? "len")%string || (name =? "cap")%string || (name =? "print")%string ||
  (name =? "println")%string.

(** The part of the shim table (shim_signatures.c) the analyses read: package, name,
    [non_retaining], and whether the returned slice owns its elements. *)
Record ShimRow : Set := mkRow {
  sh_pkg : string; sh_name : string; sh_ret_slice : bool; sh_non_retaining : bool; sh_owned_elems : bool
}.

Definition SHIM_TABLE : list ShimRow :=
  [ mkRow "fmt" "Println" false true false; mkRow "fmt" "Print" false true false;
    mkRow "fmt" "Sprint" false true false; mkRow "fmt" "Sprintln" false true false;
    mkRow "fmt" "Printf" false true false; mkRow "fmt" "Sprintf" false true false;
    mkRow "fmt" "Errorf" false false false; mkRow "fmt" "Fprint" false false false;
    mkRow "fmt" "Fprintln" false false false; mkRow "fmt" "Fprintf" false false false;
    mkRow "os" "Exit" false true false; mkRow "os" "Getenv" false false false;
    mkRow "os" "WriteFile" false false false; mkRow "os" "ReadByte" false false false;
    mkRow "os" "FileSize" false false false; mkRow "os" "ReadFile" false false false;
    mkRow "os" "ReadLine" false false false;
    mkRow "math" "Sqrt" false true false; mkRow "math" "Pow" false true false;
    mkRow "math" "Abs" false true false; mkRow "math" "Min" false true false;
    mkRow "math" "Max" false true false;
    mkRow "strings" "Contains" false true false; mkRow "strings" "ToUpper" false true false;
    mkRow "strings" "ToLower" false true false; mkRow "strings" "TrimSpace" false true false;
    mkRow "strings" "Split" true true true; mkRow "strings" "Join" false true false;
    mkRow "strconv" "Itoa" false true false; mkRow "strconv" "Atoi" false true false;
    mkRow "errors" "New" false true false; mkRow "errors" "Unwrap" false false false;
    mkRow "errors" "Is" false true false;
    mkRow "far" "Listen" false false false; mkRow "far" "Dial" false false false;
    mkRow "far" "SendF64" false false false; mkRow "far" "RecvF64" false false false;
    mkRow "far" "Close" false false false ].

Definition shim_signature_find (pkg name : string) : option ShimRow :=
  List.find (fun r => (sh_pkg r =? pkg)%string && (sh_name r =? name)%string) SHIM_TABLE.

Definition shim_signature_is_known_call (pkg name : string) : bool :=
  match shim_signature_find pkg name with Some _ => true | None => false end.

Definition shim_signature_is_non_retaining (pkg name : string) : bool :=
  match shim_signature_find pkg name with Some r => sh_non_retaining r | None => false end.

Definition shim_signature_returns_owned_elems (pkg name : string) : bool :=
  match shim_signature_find pkg name with
  | Some r => sh_ret_slice r && sh_owned_elems r
  | None => false
  end.

Definition goo_callee_is_non_retaining (fn : Expr) : bool :=
  match fn with
  | Identifier name => is_nonretaining_builtin name
  | SelectorExpr (Identifier pkg) sel => shim_signature_is_non_retaining pkg sel
  | _ => false
  end.

(** A callee [base.Sel] whose base is a local, or is no plain name. *)
Definition selector_base_is_local (env : LocalEnv) (fn : Expr) : bool :=
  match fn with
  | SelectorExpr (Identifier base) _ => bool_decide (is_Some (escape_env_find env base))
  | SelectorExpr _ _ => true
  | _ => false
  end.

(** ** What the passes differ by *)
(** [bind] returns whether the environment grew; [callee_retention] the callee's per-parameter
    retention and whether it may return a value made from a parameter. *)
Record EscapeHooks (Owner : Type) : Type := mkHooks {
  bind : Owner -> string -> TaintSet -> LocalEnv -> bool * LocalEnv * Owner;
  expr_source_slot : Owner -> nat -> option nat;
  on_return : Owner -> TaintSet -> Owner;
  callee_retention : Owner -> string -> option (list bool * bool);
  defer_is_like_go : bool
}.
Arguments bind {Owner} _. Arguments expr_source_slot {Owner} _. Arguments on_return {Owner} _.
Arguments callee_retention {Owner} _. Arguments defer_is_like_go {Owner} _.
Arguments mkHooks {Owner}.

Definition TaintFn : Type := Expr -> Reasons -> TaintSet * Reasons.

(** The taints of a list of expressions, left to right. *)
Definition expr_taints (taint : TaintFn) :=
  fix go (es : list Expr) (rs : Reasons) : list TaintSet * Reasons :=
    match es with
    | [] => ([], rs)
    | e :: es => let '(t, rs) := taint e rs in let '(ts, rs) := go es rs in (t :: ts, rs)
    end.

(** ** Expressions *)
Section Taint.
  Context {Owner : Type} (hooks : EscapeHooks Owner) (slot_count : nat).
  Context (env : LocalEnv) (owner : Owner).

(** One argument of a call: does the callee keep it, and which reason is recorded. *)
Definition arg_retention (whitelisted is_append spread : bool) (callee : option (list bool * bool))
    (argc i : nat) : bool * Z :=
  if whitelisted then (false, ESCAPE_REASON_CALL_RETAIN)
  else if spread && (S i =? argc)%nat then (true, ESCAPE_REASON_CALL_VARIADIC)
  else if is_append && (i =? 0)%nat then (false, ESCAPE_REASON_CALL_RETAIN)
  else match callee with
       | Some (esc, _) =>
           match esc !! i with
           | Some r => (r, ESCAPE_REASON_CALL_RETAIN)
           | None => (true, ESCAPE_REASON_CALL_VARIADIC)
           end
       | None => (true, ESCAPE_REASON_CALL_OPAQUE)
       end.

Fixpoint mark_args (ret : nat -> bool * Z) (i : nat) (ts : list TaintSet) (rs : Reasons) : Reasons :=
  match ts with
  | [] => rs
  | t :: ts =>
      let '(retains, why) := ret i in
      mark_args ret (S i) ts (if retains then escape_mark t why rs else rs)
  end.

Definition callee_name (fn : Expr) : option string :=
  match fn with Identifier n => Some n | _ => None end.

(** The callee's value: a plain name is not looked at, any other callee escapes. *)
Definition callee_value (taint : TaintFn) (fn : Expr) (rs : Reasons) : TaintSet * Reasons :=
  match fn with
  | Identifier _ => (escape_taint_new slot_count, rs)
  | _ => let '(t, rs) := taint fn rs in (t, escape_mark t ESCAPE_REASON_CALLEE_VALUE rs)
  end.

Definition call_result (fn : Expr) (spread : bool) (ts : list TaintSet) (callee_taint : TaintSet)
    (rs : Reasons) : TaintSet * Reasons :=
  let callee := match callee_name fn with Some n => callee_retention hooks owner n | None => None end in
  let resolved := match callee with Some _ => true | None => false end in
  let whitelisted :=
    negb resolved && negb (selector_base_is_local env fn) && goo_callee_is_non_retaining fn in
  let is_append :=
    negb resolved && negb whitelisted &&
    match callee_name fn with Some n => (n =? "append")%string | None => false end &&
    negb (selector_base_is_local env fn) in
  let rs := mark_args (arg_retention whitelisted is_append spread callee (length ts)) 0 ts rs in
  let result :=
    if whitelisted then escape_taint_new slot_count
    else match callee with
         | Some (_, return_escapes) =>
             if return_escapes then taint_union_all slot_count ts else escape_taint_new slot_count
         | None => taint_union_all slot_count ts
         end in
  (taint_union result callee_taint, rs).

(** The captured names that are locals. *)
Definition captured_taint (names : list string) : TaintSet :=
  taint_union_all slot_count (omap (escape_env_find env) names).

Definition source_slot (id : nat) : option nat := expr_source_slot hooks owner id.

Fixpoint escape_expr_taint (e : Expr) (rs : Reasons) : TaintSet * Reasons :=
  let all es rs :=
    let '(ts, rs) := expr_taints escape_expr_taint es rs in (taint_union_all slot_count ts, rs) in
  match e with
  | ENull | Literal => (escape_taint_new slot_count, rs)
  | Identifier name =>
      (default (escape_taint_new slot_count) (escape_env_find env name), rs)
  | BinaryExpr _ l r =>
      let '(tl, rs) := escape_expr_taint l rs in
      let '(tr, rs) := escape_expr_taint r rs in (taint_union tl tr, rs)
  | UnaryExpr id _ operand =>
      let '(t, rs) := escape_expr_taint operand rs in
      match source_slot id with
      | Some i => (taint_union (set_bit i (escape_taint_new slot_count)) t, rs)
      | None => (t, rs)
      end
  | PostfixExpr e | SelectorExpr e _ | KeyedElement e | SliceConversion e | TypeAssert e =>
      escape_expr_taint e rs
  | IndexExpr e index =>
      let '(t, rs) := escape_expr_taint e rs in
      let '(_, rs) := escape_expr_taint index rs in (t, rs)
  | SliceIndexExpr e lo hi =>
      let '(t, rs) := escape_expr_taint e rs in
      let '(tl, rs) := escape_expr_taint lo rs in
      let '(th, rs) := escape_expr_taint hi rs in (taint_union (taint_union t tl) th, rs)
  | CallExpr id fn args spread =>
      match source_slot id with
      | Some i => (set_bit i (escape_taint_new slot_count), rs)
      | None =>
          let '(ts, rs) := expr_taints escape_expr_taint args rs in
          let '(ct, rs) := callee_value escape_expr_taint fn rs in
          call_result fn spread ts ct rs
      end
  | FuncLit id captured =>
      let t := captured_taint captured in
      let rs := escape_mark t ESCAPE_REASON_CLOSURE_CAPTURE rs in
      (match source_slot id with Some i => set_bit i t | None => t end, rs)
  | StructLiteral es | SliceLit es | ArrayLit es => all es rs
  | MapLit ks vs =>
      let '(tk, rs) := expr_taints escape_expr_taint ks rs in
      let '(tv, rs) := expr_taints escape_expr_taint vs rs in
      (taint_union_all slot_count (tk ++ tv), rs)
  | OtherExpr =>
      let t := escape_taint_all slot_count in (t, escape_mark t ESCAPE_REASON_UNCLASSIFIED rs)
  end.

(** A [go] call, and a [defer] where it outlives the boundary. *)
Definition handle_go_call (call : Expr) (why : Z) (rs : Reasons) : Reasons :=
  match call with
  | CallExpr _ fn args _ =>
      let '(ft, rs) := escape_expr_taint fn rs in
      let rs := escape_mark ft why rs in
      fold_left (fun rs a => let '(t, rs) := escape_expr_taint a rs in escape_mark t why rs) args rs
  | e => let '(t, rs) := escape_expr_taint e rs in escape_mark t why rs
  end.

Definition handle_defer_call (call : Expr) (rs : Reasons) : Reasons :=
  if defer_is_like_go hooks then handle_go_call call ESCAPE_REASON_DEFER_ARG rs
  else snd (escape_expr_taint call rs).

(** ** Stores *)
Fixpoint mark_lvalue_subscripts (lhs : Expr) (rs : Reasons) : Reasons :=
  match lhs with
  | IndexExpr e index =>
      let '(t, rs) := escape_expr_taint index rs in
      mark_lvalue_subscripts e (escape_mark t ESCAPE_REASON_SUBSCRIPT_STORE rs)
  | SelectorExpr e _ => mark_lvalue_subscripts e rs
  | UnaryExpr _ _ e => mark_lvalue_subscripts e rs
  | _ => rs
  end.

Definition self_store_base (lhs : Expr) : option TaintSet :=
  match lhs with IndexExpr (Identifier n) _ => escape_env_find env n | _ => None end.

(** The value side of a store that is not to a plain name. *)
Definition container_store (lhs : Expr) (t : TaintSet) (rs : Reasons) : Reasons :=
  let t := match self_store_base lhs with Some base => taint_minus t base | None => t end in
  mark_lvalue_subscripts lhs (escape_mark t ESCAPE_REASON_CONTAINER_STORE rs).
End Taint.

(** ** Statements *)
Record Walk {Owner : Type} : Type := mkWalk {
  w_env : LocalEnv;
  w_reasons : Reasons;
  w_owner : Owner;
  w_changed : bool
}.
Arguments Walk : clear implicits.
Arguments mkWalk {Owner}.

Section Engine.
  Context {Owner : Type} (hooks : EscapeHooks Owner) (slot_count : nat).
  Implicit Types w : Walk Owner.

Definition set_reasons w (rs : Reasons) : Walk Owner := mkWalk (w_env w) rs (w_owner w) (w_changed w).

(** An expression evaluated for its taint, and for its sinks only. *)
Definition walk_taint w (e : Expr) : TaintSet * Walk Owner :=
  let '(t, rs) := escape_expr_taint hooks slot_count (w_env w) (w_owner w) e (w_reasons w) in
  (t, set_reasons w rs).

Definition walk_expr w (e : Expr) : Walk Owner := snd (walk_taint w e).

Definition walk_mark w (t : TaintSet) (why : Z) : Walk Owner :=
  set_reasons w (escape_mark t why (w_reasons w)).

Definition walk_bind w (name : string) (t : TaintSet) : Walk Owner :=
  if (name =? "_")%string then w else
  let '(ch, env, o) := bind hooks (w_owner w) name t (w_env w) in
  mkWalk env (w_reasons w) o (w_changed w || ch).

Definition walk_bind_opt w (name : option string) (t : TaintSet) : Walk Owner :=
  match name with Some n => walk_bind w n t | None => w end.

Fixpoint walk_union w (es : list Expr) (t : TaintSet) : TaintSet * Walk Owner :=
  match es with
  | [] => (t, w)
  | e :: es => let '(te, w) := walk_taint w e in walk_union w es (taint_union t te)
  end.

Definition escape_seed_names_from_values w (names : list string) (values : list Expr) : Walk Owner :=
  let '(t, w) := walk_union w values (escape_taint_new slot_count) in
  fold_left (fun w n => walk_bind w n t) names w.

Definition assign_to_lvalue w (lhs : Expr) (t : TaintSet) : Walk Owner :=
  match lhs with
  | ENull => walk_mark w t ESCAPE_REASON_UNCLASSIFIED
  | Identifier name =>
      if (name =? "_")%string then w else
      match escape_env_find (w_env w) name with
      | Some old =>
          let '(ch, new) := escape_taint_union_into old t in
          mkWalk (env_update (w_env w) name new) (w_reasons w) (w_owner w) (w_changed w || ch)
      | None => walk_mark w t ESCAPE_REASON_GLOBAL_STORE
      end
  | _ => set_reasons w (container_store hooks slot_count (w_env w) (w_owner w) lhs t (w_reasons w))
  end.

Definition escape_walk_expr_stmt w (e : Expr) : Walk Owner :=
  match e with
  | ENull => w
  | BinaryExpr op l r =>
      if is_assign_op op then
        let '(t, w) := walk_taint w r in assign_to_lvalue w l t
      else if token_eqb op TOKEN_ARROW then
        let w := walk_expr w l in
        let '(t, w) := walk_taint w r in walk_mark w t ESCAPE_REASON_CHAN_SEND
      else walk_expr w e
  | _ => walk_expr w e
  end.

Definition return_values w (values : list Expr) : Walk Owner :=
  fold_left (fun w v =>
    let '(t, w) := walk_taint w v in
    let w := walk_mark w t ESCAPE_REASON_RETURN in
    mkWalk (w_env w) (w_reasons w) (on_return hooks (w_owner w) t) (w_changed w)) values w.

Definition multi_assign w (targets values : list Expr) (is_short : bool) : Walk Owner :=
  let '(t, w) := walk_union w values (escape_taint_new slot_count) in
  fold_left (fun w tgt =>
    if is_short then
      match tgt with
      | Identifier n => walk_bind w n t
      | _ => walk_mark w t ESCAPE_REASON_UNCLASSIFIED
      end
    else assign_to_lvalue w tgt t) targets w.

Definition in_order {A} (f : A -> Walk Owner -> Walk Owner) :=
  fix go (xs : list A) w : Walk Owner := match xs with [] => w | x :: xs => go xs (f x w) end.

Fixpoint escape_walk_one (s : Stmt) (w : Walk Owner) : Walk Owner :=
  let walk := in_order escape_walk_one in
  match s with
  | BlockStmt ss | UnsafeStmt ss | ArenaBlock ss => walk ss w
  | ExprStmt e => escape_walk_expr_stmt w e
  | IfStmt c th el => walk el (walk th (walk_expr w c))
  | IfLetStmt name e th el =>
      let '(t, w) := walk_taint w e in walk el (walk th (walk_bind_opt w name t))
  | ForRangeStmt key value e body =>
      let '(t, w) := walk_taint w e in
      let w := walk_bind_opt w key (escape_taint_new slot_count) in
      walk body (walk_bind_opt w value t)
  | ForStmt init c post body => walk body (walk post (walk_expr (walk init w) c))
  | ReturnStmt vs => return_values w vs
  | GoStmt call =>
      set_reasons w (handle_go_call hooks slot_count (w_env w) (w_owner w) call
                       ESCAPE_REASON_GO_ARG (w_reasons w))
  | DeferStmt call =>
      set_reasons w (handle_defer_call hooks slot_count (w_env w) (w_owner w) call (w_reasons w))
  | BreakStmt | ContinueStmt => w
  | VarDecl names vs | ConstDecl names vs => escape_seed_names_from_values w names vs
  | MultiAssign tgts vs is_short => multi_assign w tgts vs is_short
  | SwitchStmt tag cases =>
      in_order (fun c w => walk (snd c) (fold_left walk_expr (fst c) w)) cases (walk_expr w tag)
  | TypeSwitch e name cases =>
      let '(t, w) := walk_taint w e in in_order walk cases (walk_bind_opt w name t)
  | SelectStmt cases =>
      in_order (fun c w => walk (snd c) (escape_walk_expr_stmt w (sc_comm (fst c)))) cases w
  | AssertStmt c m => walk_expr (walk_expr w c) m
  | AssumeStmt c => walk_expr w c
  | OtherStmt => set_reasons w (escape_mark_all ESCAPE_REASON_UNCLASSIFIED (w_reasons w))
  end.

Definition escape_walk_stmt (ss : list Stmt) (w : Walk Owner) : Walk Owner :=
  in_order escape_walk_one ss w.

(** The passes' loop: walk until nothing grows; [None] when [passes] walks were not enough. *)
Fixpoint walk_fixpoint (passes : nat) (ss : list Stmt) (w : Walk Owner) : option (Walk Owner) :=
  match passes with
  | O => None
  | S passes =>
      let w := escape_walk_stmt ss (mkWalk (w_env w) (w_reasons w) (w_owner w) false) in
      if w_changed w then walk_fixpoint passes ss w else Some w
  end.
End Engine.

Definition MAX_LOCAL_PASSES : nat := 4096.
