(* ===== verification/EscapePasses.v ===== *)
(** * EscapePasses: the three escape analyses over the engine of [Escape].

    [Param] (src/types/param_escape.c): which parameters a function keeps, for all functions of
    the program at once.  [Local] (local_escape.c): which locals outlive their function.
    [Block] (block_escape.c): which allocations outlive their arena block. *)
From Stdlib Require Import ZArith Lia Ascii String Bool.
From stdpp Require Import base list numbers option strings.
From S2P Require Import Prelude Token Escape.

(** ** Programs *)
(** [fd_params] are the name lists of the parameter groups; a method's receiver is the first.
    No pass looks at [fd_method]. *)
Record FuncDecl : Set := mkFunc {
  fd_name : option string;
  fd_method : bool;
  fd_params : list (list string);
  fd_body : option (list Stmt)
}.

Inductive Decl : Set :=
| FuncDeclaration (f : FuncDecl)
| OtherDecl.

Abbreviation Program := (list Decl).

(** What a finished pass publishes for its readers. *)
Record ParamEscapeSummary : Set := mkSummary {
  ps_name : string;
  ps_escapes : list bool;
  ps_return_escapes : bool
}.

Definition param_escape_lookup (res : option (list ParamEscapeSummary)) (fn : string)
    : option ParamEscapeSummary :=
  match res with
  | Some ss => List.find (fun s => (ps_name s =? fn)%string) ss
  | None => None
  end.

Definition param_escape_param_escapes (res : option (list ParamEscapeSummary)) (fn : string)
    (i : nat) : bool :=
  match param_escape_lookup res fn with
  | Some s => default true (ps_escapes s !! i)
  | None => true
  end.

Module Param.
(** One function of the registry, with its summary so far. *)
Record FuncInfo : Set := mkInfo {
  fi_name : string;
  fi_param_names : list string;
  fi_body : option (list Stmt);
  fi_escapes : list bool;
  fi_return_escapes : bool
}.

Abbreviation Registry := (list FuncInfo).

Definition registry_add (reg : Registry) (name : string) (d : FuncDecl) : Registry :=
  let names := mjoin (fd_params d) in
  reg ++ [mkInfo name names (fd_body d) (replicate (length names) false) false].

Definition registry_find (reg : Registry) (name : string) : option FuncInfo :=
  List.find (fun f => (fi_name f =? name)%string) reg.

Definition collect_functions (p : Program) : Registry :=
  fold_left (fun reg d =>
    match d with
    | FuncDeclaration f => match fd_name f with Some n => registry_add reg n f | None => reg end
    | OtherDecl => reg
    end) p [].

Record ParamOwner : Set := mkOwner { po_reg : Registry; po_return_escapes : bool }.

Definition param_bind (o : ParamOwner) (name : string) (t : TaintSet) (env : LocalEnv)
    : bool * LocalEnv * ParamOwner :=
  let '(ch, env) := escape_env_add_or_union env name t in (ch, env, o).

Definition param_on_return (o : ParamOwner) (t : TaintSet) : ParamOwner :=
  if escape_taint_empty t then o else mkOwner (po_reg o) true.

Definition param_callee_retention (o : ParamOwner) (name : string) : option (list bool * bool) :=
  match registry_find (po_reg o) name with
  | Some f => Some (fi_escapes f, fi_return_escapes f)
  | None => None
  end.

Definition PARAM_HOOKS : EscapeHooks ParamOwner :=
  mkHooks param_bind (fun _ _ => None) param_on_return param_callee_retention false.

(** Each parameter starts with its own bit. *)
Fixpoint seed_params (n i : nat) (names : list string) (env : LocalEnv) : LocalEnv :=
  match names with
  | [] => env
  | x :: names =>
      seed_params n (S i) names (snd (escape_env_add_or_union env x (set_bit i (escape_taint_new n))))
  end.

Definition analyze_function_body (reg : Registry) (f : FuncInfo) : Reasons * bool :=
  let n := length (fi_param_names f) in
  let w := mkWalk (seed_params n 0 (fi_param_names f) []) (replicate n ESCAPE_REASON_NONE)
                  (mkOwner reg false) false in
  match fi_body f with
  | None => (w_reasons w, false)
  | Some body =>
      match walk_fixpoint PARAM_HOOKS n MAX_LOCAL_PASSES body w with
      | Some w => (w_reasons w, po_return_escapes (w_owner w))
      | None => (replicate n ESCAPE_REASON_UNCLASSIFIED, true)
      end
  end.

(** Merging one analysis into the summary, with the change flag. *)
Fixpoint merge_escapes (rs : Reasons) (esc : list bool) : bool * list bool :=
  match rs, esc with
  | r :: rs, e :: esc =>
      let '(ch, esc) := merge_escapes rs esc in
      if negb (r =? ESCAPE_REASON_NONE)%Z && negb e then (true, true :: esc) else (ch, e :: esc)
  | _, esc => (false, esc)
  end.

Definition merge (rs : Reasons) (ret : bool) (f : FuncInfo) : bool * FuncInfo :=
  let '(ch, esc) := merge_escapes rs (fi_escapes f) in
  let flip := ret && negb (fi_return_escapes f) in
  (ch || flip, mkInfo (fi_name f) (fi_param_names f) (fi_body f) esc (fi_return_escapes f || flip)).

(** One sweep over the registry, each function seeing the summaries already updated. *)
Fixpoint sweep (fail_closed : bool) (todo done : Registry) : bool * Registry :=
  match todo with
  | [] => (false, done)
  | f :: todo =>
      let n := length (fi_param_names f) in
      let '(rs, ret) :=
        if fail_closed then (replicate n ESCAPE_REASON_UNCLASSIFIED, true)
        else analyze_function_body (done ++ f :: todo) f in
      let '(ch, f') := merge rs ret f in
      let '(ch', reg) := sweep fail_closed todo (done ++ [f']) in
      (ch || ch', reg)
  end.

(** [cap] sweeps; when the last still changes something, one that fails closed.  The flag tells
    whether that was needed. *)
Fixpoint iterate (cap : nat) (reg : Registry) : bool * Registry :=
  match cap with
  | O => (true, snd (sweep true reg []))
  | S cap =>
      let '(ch, reg) := sweep false reg [] in
      if ch then iterate cap reg else (false, reg)
  end.

Definition iteration_cap (reg : Registry) : nat :=
  list_sum (map (fun f => length (fi_param_names f)) reg) + length reg + 8.

Definition summary_of (f : FuncInfo) : ParamEscapeSummary :=
  mkSummary (fi_name f) (fi_escapes f) (fi_return_escapes f).

Definition param_escape_analyze (p : Program) : list ParamEscapeSummary :=
  let reg := collect_functions p in map summary_of (snd (iterate (iteration_cap reg) reg)).
End Param.

(** The retention hook of the two other passes: a finished result. *)
Definition finished_retention (res : option (list ParamEscapeSummary)) (name : string)
    : option (list bool * bool) :=
  match param_escape_lookup res name with
  | Some s => Some (ps_escapes s, ps_return_escapes s)
  | None => None
  end.

Module Local.
(** [lo_unit] is the list of names found so far during discovery, [None] afterwards. *)
Record LocalOwner : Set := mkOwner {
  lo_summaries : option (list ParamEscapeSummary);
  lo_local_names : list string;
  lo_unit : option (list string)
}.

Definition unit_add_local (names : list string) (name : string) : list string :=
  if (name =? "_")%string then names
  else if existsb (fun n => (n =? name)%string) names then names else names ++ [name].

Fixpoint find_local_index (names : list string) (name : string) : option nat :=
  match names with
  | [] => None
  | n :: names => if (n =? name)%string then Some O else option_map S (find_local_index names name)
  end.

Definition seed_local (o : LocalOwner) (name : string) (t : TaintSet) (env : LocalEnv)
    : bool * LocalEnv * LocalOwner :=
  match lo_unit o with
  | Some names =>
      let o := mkOwner (lo_summaries o) (lo_local_names o) (Some (unit_add_local names name)) in
      let '(ch, env) := escape_env_add_or_union env name t in (ch, env, o)
  | None =>
      let seeded := match find_local_index (lo_local_names o) name with
                    | Some i => set_bit i t
                    | None => t
                    end in
      let '(ch, env) := escape_env_add_or_union env name seeded in (ch, env, o)
  end.

Definition LOCAL_HOOKS : EscapeHooks LocalOwner :=
  mkHooks seed_local (fun _ _ => None) (fun o _ => o)
    (fun o name => finished_retention (lo_summaries o) name) true.

(** Pass A: one walk with taint sets of width 0, for the names alone. *)
Definition discover_locals (sums : option (list ParamEscapeSummary)) (body : list Stmt)
    (names : list string) : list string :=
  let w := escape_walk_stmt LOCAL_HOOKS 0 body (mkWalk [] [] (mkOwner sums [] (Some names)) false) in
  default names (lo_unit (w_owner w)).

(** Pass B. *)
Definition analyze_unit (sums : option (list ParamEscapeSummary)) (body : list Stmt)
    (names : list string) : Reasons :=
  let n := length names in
  match names with
  | [] => []
  | _ =>
      match walk_fixpoint LOCAL_HOOKS n MAX_LOCAL_PASSES body
              (mkWalk [] (replicate n ESCAPE_REASON_NONE) (mkOwner sums names None) false) with
      | Some w => w_reasons w
      | None => replicate n ESCAPE_REASON_UNCLASSIFIED
      end
  end.

Record LocalEscapeSummary : Set := mkLocal {
  ls_function_name : string;
  ls_local_names : list string;
  ls_reasons : Reasons
}.

(** The units are the functions that have a name and a body.  Discovery runs a second time
    inside [analyze_unit]; it adds nothing then. *)
Definition analyze_function (sums : option (list ParamEscapeSummary)) (name : string)
    (body : list Stmt) : LocalEscapeSummary :=
  let names := discover_locals sums body (discover_locals sums body []) in
  mkLocal name names (analyze_unit sums body names).

Definition local_escape_analyze (p : Program) (sums : option (list ParamEscapeSummary))
    : list LocalEscapeSummary :=
  omap (fun d =>
    match d with
    | FuncDeclaration (mkFunc (Some name) _ _ (Some body)) => Some (analyze_function sums name body)
    | _ => None
    end) p.

Fixpoint reason_of (names : list string) (rs : Reasons) (local : string) : Z :=
  match names, rs with
  | n :: names, r :: rs => if (n =? local)%string then r else reason_of names rs local
  | _, _ => ESCAPE_REASON_ALL
  end.

Definition local_escape_local_reasons (res : list LocalEscapeSummary) (fn local : string) : Z :=
  match List.find (fun s => (ls_function_name s =? fn)%string) res with
  | Some s => reason_of (ls_local_names s) (ls_reasons s) local
  | None => ESCAPE_REASON_ALL
  end.

Definition local_escape_local_escapes (res : list LocalEscapeSummary) (fn local : string) : bool :=
  negb (local_escape_local_reasons res fn local =? ESCAPE_REASON_NONE)%Z.
End Local.

Module Block.
(** An arena block and the allocation sites it owns, by node. *)
Record Unit : Set := mkUnit { u_body : list Stmt; u_sites : list nat }.
Abbreviation UnitList := (list Unit).

Definition site_append (us : UnitList) (idx : option nat) (site : nat) : UnitList :=
  match idx with
  | Some i => alter (fun u => mkUnit (u_body u) (u_sites u ++ [site])) i us
  | None => us
  end.

Definition is_new_callee (fn : Expr) : bool :=
  match fn with Identifier n => (n =? "new")%string | _ => false end.

Definition is_addr_of_composite (op : TokenType) (operand : Expr) : bool :=
  token_eqb op TOKEN_BIT_AND && match operand with StructLiteral _ => true | _ => false end.

Section Discover.
  Context (unit_idx : option nat).

Fixpoint discover_expr (e : Expr) (us : UnitList) : UnitList :=
  let all := fix go (es : list Expr) us : UnitList :=
    match es with [] => us | e :: es => go es (discover_expr e us) end in
  match e with
  | BinaryExpr _ l r | IndexExpr l r => discover_expr r (discover_expr l us)
  | UnaryExpr id op operand =>
      discover_expr operand (if is_addr_of_composite op operand then site_append us unit_idx id else us)
  | PostfixExpr e | SelectorExpr e _ | KeyedElement e | SliceConversion e | TypeAssert e =>
      discover_expr e us
  | SliceIndexExpr e lo hi => discover_expr hi (discover_expr lo (discover_expr e us))
  | CallExpr id fn args _ =>
      if is_new_callee fn then site_append us unit_idx id else all args (discover_expr fn us)
  | FuncLit id captured => match captured with [] => us | _ => site_append us unit_idx id end
  | StructLiteral es | SliceLit es | ArrayLit es => all es us
  | MapLit ks vs => all vs (all ks us)
  | ENull | Identifier _ | Literal | OtherExpr => us
  end.

Definition discover_exprs (es : list Expr) (us : UnitList) : UnitList :=
  fold_left (fun us e => discover_expr e us) es us.
End Discover.

Definition discover_list (discover : Stmt -> UnitList -> UnitList) :=
  fix go (ss : list Stmt) (us : UnitList) : UnitList :=
    match ss with [] => us | s :: ss => go ss (discover s us) end.

Definition discover_cases {A} (f : A -> UnitList -> UnitList) :=
  fix go (cs : list A) (us : UnitList) : UnitList :=
    match cs with [] => us | c :: cs => go cs (f c us) end.

(** A select clause's communication is an expression node, which the walk over statements skips. *)
Fixpoint discover_one (s : Stmt) (idx : option nat) (us : UnitList) {struct s} : UnitList :=
  let stmts ss us := discover_list (fun s us => discover_one s idx us) ss us in
  let expr e us := discover_expr idx e us in
  match s with
  | BlockStmt ss | UnsafeStmt ss => stmts ss us
  | ExprStmt e | GoStmt e | DeferStmt e | AssumeStmt e => expr e us
  | IfStmt c th el | IfLetStmt _ c th el => stmts el (stmts th (expr c us))
  | ForRangeStmt _ _ e body => stmts body (expr e us)
  | ForStmt init c post body => stmts body (stmts post (expr c (stmts init us)))
  | ReturnStmt vs | VarDecl _ vs | ConstDecl _ vs => discover_exprs idx vs us
  | MultiAssign tgts vs _ => discover_exprs idx tgts (discover_exprs idx vs us)
  | SwitchStmt tag cases =>
      discover_cases (fun c us => stmts (snd c) (discover_exprs idx (fst c) us)) cases (expr tag us)
  | TypeSwitch e _ cases => discover_cases stmts cases (expr e us)
  | SelectStmt cases => discover_cases (fun c us => stmts (snd c) us) cases us
  | ArenaBlock body =>
      let i := length us in
      discover_list (fun s us => discover_one s (Some i) us) body (us ++ [mkUnit body []])
  | AssertStmt c m => expr m (expr c us)
  | BreakStmt | ContinueStmt | OtherStmt => us
  end.

Definition discover_stmt (ss : list Stmt) (idx : option nat) (us : UnitList) : UnitList :=
  discover_list (fun s us => discover_one s idx us) ss us.

Record BlockOwner : Set := mkOwner {
  bo_summaries : option (list ParamEscapeSummary);
  bo_site_nodes : list nat
}.

Fixpoint find_site_index (sites : list nat) (id : nat) : option nat :=
  match sites with
  | [] => None
  | x :: sites => if (x =? id)%nat then Some O else option_map S (find_site_index sites id)
  end.

Definition block_bind (o : BlockOwner) (name : string) (t : TaintSet) (env : LocalEnv)
    : bool * LocalEnv * BlockOwner :=
  let '(ch, env) := escape_env_add_or_union env name t in (ch, env, o).

Definition BLOCK_HOOKS : EscapeHooks BlockOwner :=
  mkHooks block_bind (fun o id => find_site_index (bo_site_nodes o) id) (fun o _ => o)
    (fun o name => finished_retention (bo_summaries o) name) true.

Definition analyze_unit (sums : option (list ParamEscapeSummary)) (u : Unit) : Reasons :=
  let n := length (u_sites u) in
  match walk_fixpoint BLOCK_HOOKS n MAX_LOCAL_PASSES (u_body u)
          (mkWalk [] (replicate n ESCAPE_REASON_NONE) (mkOwner sums (u_sites u)) false) with
  | Some w => w_reasons w
  | None => replicate n ESCAPE_REASON_UNCLASSIFIED
  end.

Definition discover_program (p : Program) : UnitList :=
  fold_left (fun us d =>
    match d with
    | FuncDeclaration f => match fd_body f with Some b => discover_stmt b None us | None => us end
    | OtherDecl => us
    end) p [].

(** The decisions: each site with whether it escapes its block. *)
Definition block_escape_analyze (p : Program) (sums : option (list ParamEscapeSummary))
    : list (nat * bool) :=
  mjoin (map (fun u =>
    zip (u_sites u) (map (fun r => negb (r =? ESCAPE_REASON_NONE)%Z) (analyze_unit sums u)))
    (discover_program p)).

Definition block_escape_site_escapes (res : list (nat * bool)) (site : nat) : bool :=
  match List.find (fun d => (fst d =? site)%nat) res with
  | Some d => snd d
  | None => true
  end.
End Block.
