(* ===== verification/EscapeFacts.v ===== *)
(** * EscapeFacts: the engine's invariants.

    Taint sets keep the unit's width, marks and bindings are only ever added, a walk that
    reports no change has left the environment alone, and the number of bits bounds how often
    it can report one: the passes' loops end. *)
From Stdlib Require Import ZArith Lia Ascii String Bool.
From stdpp Require Import base list numbers option strings.
From S2P Require Import Prelude Token Escape EscapePasses.

Lemma lookup_map {A B} (f : A -> B) l i : map f l !! i = option_map f (l !! i).
Proof. exact (list_lookup_fmap f l i). Qed.

(** ** Bits *)
Definition bit (t : TaintSet) (i : nat) : Prop := t !! i = Some true.

#[global] Instance bit_dec t i : Decision (bit t i).
Proof. unfold bit. apply _. Defined.

Lemma bit_new n i : ~ bit (escape_taint_new n) i.
Proof. unfold bit, escape_taint_new. rewrite lookup_replicate. naive_solver. Qed.

Lemma bit_all n i : bit (escape_taint_all n) i <-> i < n.
Proof. unfold bit, escape_taint_all. rewrite lookup_replicate. naive_solver. Qed.

Lemma length_taint_union a b : length (taint_union a b) = length a.
Proof. revert b. induction a as [|x a IH]; intros [|y b]; simpl; auto. Qed.

Lemma bit_union a b i : bit (taint_union a b) i <-> bit a i \/ (bit b i /\ i < length a).
Proof.
  unfold bit. revert b i. induction a as [|x a IH]; intros [|y b] [|i]; simpl; rewrite ?lookup_nil.
  1-4: naive_solver lia. 1-2: naive_solver.
  - destruct x, y; simpl; split; intros; destruct_or?; destruct_and?; naive_solver lia.
  - rewrite IH. naive_solver lia.
Qed.

Lemma bit_lt t i : bit t i -> i < length t.
Proof. apply lookup_lt_Some. Qed.

Lemma bit_union_eq a b i : length b = length a -> bit (taint_union a b) i <-> bit a i \/ bit b i.
Proof. intros E. rewrite bit_union. pose proof (bit_lt b i). naive_solver lia. Qed.

Lemma bit_minus t base i : bit (taint_minus t base) i <-> bit t i /\ ~ bit base i.
Proof.
  unfold bit. revert base i. induction t as [|x t IH]; intros [|y b] [|i]; simpl; rewrite ?lookup_nil.
  1-6: naive_solver.
  - destruct x, y; simpl; naive_solver.
  - apply IH.
Qed.

Lemma length_taint_minus t base : length (taint_minus t base) = length t.
Proof. revert base. induction t as [|x t IH]; intros [|y b]; simpl; auto. Qed.

Lemma length_set_bit i t : length (set_bit i t) = length t.
Proof. revert i. induction t as [|x t IH]; intros [|i]; simpl; auto. Qed.

Lemma bit_set_bit i t j : bit (set_bit i t) j <-> (j = i /\ i < length t) \/ bit t j.
Proof.
  unfold bit. revert i j. induction t as [|x t IH]; intros [|i] [|j]; simpl; rewrite ?lookup_nil.
  1-6: naive_solver lia.
  - naive_solver lia.
  - rewrite IH. naive_solver lia.
Qed.

Lemma taint_grows_false a b : taint_grows a b = false -> taint_union a b = a.
Proof.
  revert b. induction a as [|x a IH]; intros [|y b]; simpl; try done.
  rewrite orb_false_iff. intros [H1 H2]. rewrite IH by done. by destruct x, y.
Qed.

(** How many bits are set. *)
Definition weight (t : TaintSet) : nat := length (List.filter id t).

Lemma weight_le t : weight t <= length t.
Proof. unfold weight. apply filter_length_le. Qed.

Lemma weight_union a b : weight a <= weight (taint_union a b) /\
  (taint_grows a b = true -> weight a < weight (taint_union a b)).
Proof.
  unfold weight. revert b. induction a as [|x a IH]; intros [|y b]; simpl; try (split; [lia|done]).
  destruct (IH b) as [H1 H2]. destruct x, y; simpl; split; try lia; rewrite ?orb_false_l; intros; try lia;
    specialize (H2 ltac:(done)); lia.
Qed.

Lemma length_union_all n ts : length (taint_union_all n ts) = n.
Proof.
  unfold taint_union_all. assert (length (escape_taint_new n) = n) as E by apply length_replicate.
  revert E. generalize (escape_taint_new n). induction ts as [|t ts IH]; intros a E; simpl; [done|].
  apply IH. by rewrite length_taint_union.
Qed.

Lemma bit_union_all n ts i : Forall (fun t => length t = n) ts ->
  bit (taint_union_all n ts) i <-> exists t, t ∈ ts /\ bit t i.
Proof.
  intros Hf. unfold taint_union_all.
  assert (length (escape_taint_new n) = n) as E by apply length_replicate.
  assert (forall a, length a = n ->
    bit (fold_left taint_union ts a) i <-> bit a i \/ exists t, t ∈ ts /\ bit t i) as H.
  { clear E. induction Hf as [|t ts Ht _ IH]; intros a Ea; simpl.
    - split; [by left|]. intros [?|(t&Ht&_)]; [done|]. by apply elem_of_nil in Ht.
    - rewrite IH by (by rewrite length_taint_union). rewrite bit_union_eq by lia.
      setoid_rewrite elem_of_cons. naive_solver. }
  rewrite H by done. pose proof (bit_new n i). naive_solver.
Qed.

(** ** Marks *)
Definition marked (rs : Reasons) (i : nat) : Prop := exists r, rs !! i = Some r /\ r <> 0%Z.

(** Marks are only added, the width stays. *)
Definition rs_le (a b : Reasons) : Prop := length b = length a /\ forall i, marked a i -> marked b i.

#[global] Instance rs_le_preorder : PreOrder rs_le.
Proof. split; [done|]. intros a b c [? ?] [? ?]. split; [congruence|auto]. Qed.

Lemma reason_nonzero why : reason_or_unclassified why <> 0%Z.
Proof.
  unfold reason_or_unclassified, ESCAPE_REASON_NONE, ESCAPE_REASON_UNCLASSIFIED.
  destruct (Z.eqb_spec why 0); [done|done].
Qed.

Lemma mark_bits_spec t why rs i : why <> 0%Z ->
  length (mark_bits t why rs) = length rs /\
  (marked (mark_bits t why rs) i <-> marked rs i \/ (bit t i /\ i < length rs)).
Proof.
  intros Hw. unfold marked, bit. revert rs i. induction t as [|b t IH]; intros [|r rs] i; simpl.
  - split; [done|]. split; [by left|]. intros [?|[_ ?]]; [done|lia].
  - split; [done|]. split; [by left|]. intros [?|[H _]]; [done|done].
  - split; [done|]. split; [by left|]. intros [?|[_ ?]]; [done|lia].
  - destruct (IH rs 0) as [-> _]. split; [done|]. destruct i as [|i]; simpl; [|rewrite (proj2 (IH rs i)); naive_solver lia].
    destruct b.
    + split; [intros _; right; split; [done|lia]|]. intros _. eexists. split; [done|].
      rewrite Z.lor_eq_0_iff. tauto.
    + naive_solver.
Qed.

Lemma escape_mark_le t why rs : rs_le rs (escape_mark t why rs).
Proof.
  split; [apply (mark_bits_spec t _ rs 0), reason_nonzero|]. intros i Hi.
  apply mark_bits_spec; [apply reason_nonzero|by left].
Qed.

Lemma escape_mark_marks t why rs i : bit t i -> i < length rs -> marked (escape_mark t why rs) i.
Proof. intros. apply mark_bits_spec; [apply reason_nonzero|by right]. Qed.

Lemma mark_all_spec why rs : rs_le rs (escape_mark_all why rs) /\
  forall i, i < length rs -> marked (escape_mark_all why rs) i.
Proof.
  unfold escape_mark_all. pose proof (reason_nonzero why) as Hw.
  assert (forall r, Z.lor r (reason_or_unclassified why) <> 0%Z) as Hn.
  { intros r. rewrite Z.lor_eq_0_iff. tauto. }
  assert (forall i, i < length rs ->
    marked (map (fun r => Z.lor r (reason_or_unclassified why)) rs) i) as H.
  { intros i Hi. destruct (lookup_lt_is_Some_2 rs i Hi) as [r Hr].
    eexists. rewrite lookup_map, Hr. split; [done|apply Hn]. }
  split; [|exact H]. split; [apply length_map|]. intros i (r&Hr&_). apply H. by apply lookup_lt_Some in Hr.
Qed.

(** ** The environment *)
Definition env_wide (n : nat) (env : LocalEnv) : Prop := Forall (fun v => length (lv_taint v) = n) env.

Lemma env_find_wide n env x t : env_wide n env -> escape_env_find env x = Some t -> length t = n.
Proof.
  induction 1 as [|v env Hv _ IH]; simpl; [done|]. destruct (lv_name v =? x)%string; [|done].
  by intros [= <-].
Qed.

Lemma env_update_wide n env x t : env_wide n env -> length t = n -> env_wide n (env_update env x t).
Proof.
  intros He Ht. induction He as [|v env Hv He IH]; simpl; [constructor|].
  destruct (lv_name v =? x)%string; by constructor.
Qed.

Lemma env_find_update env x t y :
  escape_env_find (env_update env x t) y =
  if (x =? y)%string then option_map (fun _ => t) (escape_env_find env y) else escape_env_find env y.
Proof.
  induction env as [|v env IH]; simpl; [by destruct (x =? y)%string|].
  destruct (String.eqb_spec (lv_name v) x) as [Hx|Hx]; simpl.
  - subst x. by destruct (String.eqb_spec (lv_name v) y).
  - rewrite IH. destruct (String.eqb_spec (lv_name v) y), (String.eqb_spec x y); congruence.
Qed.

Lemma env_update_names env x t : map lv_name (env_update env x t) = map lv_name env.
Proof. induction env as [|v env IH]; simpl; [done|]. destruct (lv_name v =? x)%string; simpl; congruence. Qed.

Lemma env_update_same env x t : escape_env_find env x = Some t -> env_update env x t = env.
Proof.
  induction env as [|v env IH]; simpl; [done|].
  destruct (lv_name v =? x)%string; [intros [= <-]; by destruct v|]. intros H. by rewrite IH.
Qed.

Lemma env_find_app env v y :
  escape_env_find (env ++ [v]) y =
  match escape_env_find env y with
  | Some t => Some t
  | None => if (lv_name v =? y)%string then Some (lv_taint v) else None
  end.
Proof. induction env as [|u env IH]; simpl; [done|]. by destruct (lv_name u =? y)%string. Qed.

Lemma env_find_none env x : escape_env_find env x = None <-> ~ (x ∈ map lv_name env).
Proof.
  induction env as [|v env IH]; simpl; [rewrite elem_of_nil; tauto|].
  rewrite elem_of_cons. destruct (String.eqb_spec (lv_name v) x) as [->|]; [naive_solver|].
  rewrite IH. naive_solver.
Qed.

(** [name] carries at least [value] in [env]. *)
Definition env_holds (env : LocalEnv) (name : string) (value : TaintSet) : Prop :=
  exists t, escape_env_find env name = Some t /\ forall i, bit value i -> bit t i.

(** Bindings only grow. *)
Definition env_le (a b : LocalEnv) : Prop :=
  forall x t, escape_env_find a x = Some t -> env_holds b x t.

#[global] Instance env_le_preorder : PreOrder env_le.
Proof.
  split; [intros a x t H; exists t; auto|]. intros a b c H1 H2 x t Hx.
  destruct (H1 _ _ Hx) as (t'&Ht'&Hb). destruct (H2 _ _ Ht') as (t2&Ht2&Hc). exists t2. eauto.
Qed.

Lemma env_update_le env x old t : escape_env_find env x = Some old ->
  (forall i, bit old i -> bit t i) -> env_le env (env_update env x t).
Proof.
  intros Hx Ho y ty Hy. unfold env_holds. rewrite env_find_update.
  destruct (String.eqb_spec x y) as [->|]; [|by exists ty]. rewrite Hy. simpl.
  exists t. rewrite Hx in Hy. injection Hy as <-. done.
Qed.

(** The number of facts in the environment. *)
Definition env_weight (env : LocalEnv) : nat := list_sum (map (fun v => S (weight (lv_taint v))) env).

Lemma env_weight_update env x old t : escape_env_find env x = Some old ->
  env_weight (env_update env x t) + weight old = env_weight env + weight t.
Proof.
  unfold env_weight. induction env as [|v env IH]; simpl; [done|].
  destruct (lv_name v =? x)%string; simpl.
  - intros [= ->]. lia.
  - intros H. specialize (IH H). lia.
Qed.

Lemma env_weight_bound n env : env_wide n env -> env_weight env <= length env * S n.
Proof.
  unfold env_weight. induction 1 as [|v env Hv _ IH]; simpl; [lia|].
  pose proof (weight_le (lv_taint v)). lia.
Qed.

(** What adding a binding does. *)
Record env_adds (n : nat) (name : string) (value : TaintSet) (a : LocalEnv) (ch : bool) (b : LocalEnv)
    : Prop := {
  ea_wide : env_wide n a -> length value = n -> env_wide n b;
  ea_le : env_le a b;
  ea_holds : env_wide n a -> length value = n -> env_holds b name value;
  ea_names : map lv_name b = if bool_decide (name ∈ map lv_name a) then map lv_name a else map lv_name a ++ [name];
  ea_same : ch = false -> b = a;
  ea_weight : env_weight a <= env_weight b /\ (ch = true -> env_weight a < env_weight b)
}.

Lemma env_union_adds n name old value a : escape_env_find a name = Some old ->
  env_adds n name value a (taint_grows old value) (env_update a name (taint_union old value)).
Proof.
  intros E. assert (name ∈ map lv_name a) as Hin.
  { destruct (decide (name ∈ map lv_name a)) as [|H]; [done|]. apply env_find_none in H. congruence. }
  pose proof (env_weight_update a name old (taint_union old value) E) as Hw.
  destruct (weight_union old value) as [Hw1 Hw2]. constructor.
  - intros Ha _. apply env_update_wide; [done|]. rewrite length_taint_union. by eapply env_find_wide.
  - eapply env_update_le; [done|]. intros i Hi. apply bit_union. by left.
  - intros Ha Hv. exists (taint_union old value). rewrite env_find_update, String.eqb_refl, E. split; [done|].
    intros i Hi. apply bit_union. right. split; [done|]. apply bit_lt in Hi.
    rewrite (env_find_wide _ _ _ _ Ha E). lia.
  - rewrite env_update_names. by rewrite bool_decide_true.
  - intros H. apply taint_grows_false in H. rewrite H. by apply env_update_same.
  - split; [lia|]. intros H. specialize (Hw2 H). lia.
Qed.

Lemma env_add_or_union_adds n name value a :
  env_adds n name value a (fst (escape_env_add_or_union a name value))
           (snd (escape_env_add_or_union a name value)).
Proof.
  unfold escape_env_add_or_union. destruct (escape_env_find a name) as [old|] eqn:E.
  - by apply env_union_adds.
  - pose proof (proj1 (env_find_none _ _) E) as Hn. simpl. constructor.
    + intros Ha Hv. apply Forall_app. by split; [|apply Forall_singleton].
    + intros x t Hx. exists t. rewrite env_find_app, Hx. done.
    + intros _ _. exists value. rewrite env_find_app, E. simpl. by rewrite String.eqb_refl.
    + rewrite bool_decide_false by done. by rewrite map_app.
    + done.
    + unfold env_weight. rewrite map_app, list_sum_app. simpl. lia.
Qed.

(** ** Induction over the syntax *)
Section ExprInd.
  Context (P : Expr -> Prop).
  Context (Hnull : P ENull) (Hid : forall x, P (Identifier x)) (Hlit : P Literal)
    (Hbin : forall op l r, P l -> P r -> P (BinaryExpr op l r))
    (Hun : forall id op e, P e -> P (UnaryExpr id op e))
    (Hpost : forall e, P e -> P (PostfixExpr e))
    (Hidx : forall e i, P e -> P i -> P (IndexExpr e i))
    (Hslice : forall e lo hi, P e -> P lo -> P hi -> P (SliceIndexExpr e lo hi))
    (Hsel : forall e s, P e -> P (SelectorExpr e s))
    (Hcall : forall id fn args sp, P fn -> Forall P args -> P (CallExpr id fn args sp))
    (Hfun : forall id c, P (FuncLit id c))
    (Hstruct : forall es, Forall P es -> P (StructLiteral es))
    (Hslit : forall es, Forall P es -> P (SliceLit es))
    (Harr : forall es, Forall P es -> P (ArrayLit es))
    (Hkey : forall e, P e -> P (KeyedElement e))
    (Hmap : forall ks vs, Forall P ks -> Forall P vs -> P (MapLit ks vs))
    (Hconv : forall e, P e -> P (SliceConversion e))
    (Hass : forall e, P e -> P (TypeAssert e))
    (Hother : P OtherExpr).

Fixpoint Expr_ind (e : Expr) : P e :=
    let all := fix all (es : list Expr) : Forall P es :=
      match es with
      | [] => List.Forall_nil P
      | e :: es => @List.Forall_cons _ _ _ _ (Expr_ind e) (all es)
      end in
    match e with
    | ENull => Hnull | Identifier x => Hid x | Literal => Hlit
    | BinaryExpr op l r => Hbin op l r (Expr_ind l) (Expr_ind r)
    | UnaryExpr id op e => Hun id op e (Expr_ind e)
    | PostfixExpr e => Hpost e (Expr_ind e)
    | IndexExpr e i => Hidx e i (Expr_ind e) (Expr_ind i)
    | SliceIndexExpr e lo hi => Hslice e lo hi (Expr_ind e) (Expr_ind lo) (Expr_ind hi)
    | SelectorExpr e s => Hsel e s (Expr_ind e)
    | CallExpr id fn args sp => Hcall id fn args sp (Expr_ind fn) (all args)
    | FuncLit id c => Hfun id c
    | StructLiteral es => Hstruct es (all es)
    | SliceLit es => Hslit es (all es)
    | ArrayLit es => Harr es (all es)
    | KeyedElement e => Hkey e (Expr_ind e)
    | MapLit ks vs => Hmap ks vs (all ks) (all vs)
    | SliceConversion e => Hconv e (Expr_ind e)
    | TypeAssert e => Hass e (Expr_ind e)
    | OtherExpr => Hother
    end.
End ExprInd.

Section StmtInd.
  Context (P : Stmt -> Prop).
  Abbreviation Q := (Forall P).
  Context (Hblock : forall ss, Q ss -> P (BlockStmt ss)) (Hexpr : forall e, P (ExprStmt e))
    (Hif : forall c th el, Q th -> Q el -> P (IfStmt c th el))
    (Hiflet : forall x e th el, Q th -> Q el -> P (IfLetStmt x e th el))
    (Hrange : forall k v e b, Q b -> P (ForRangeStmt k v e b))
    (Hfor : forall i c p b, Q i -> Q p -> Q b -> P (ForStmt i c p b))
    (Hret : forall vs, P (ReturnStmt vs)) (Hgo : forall c, P (GoStmt c)) (Hdefer : forall c, P (DeferStmt c))
    (Hbreak : P BreakStmt) (Hcont : P ContinueStmt)
    (Hvar : forall ns vs, P (VarDecl ns vs)) (Hconst : forall ns vs, P (ConstDecl ns vs))
    (Hmulti : forall ts vs b, P (MultiAssign ts vs b))
    (Hswitch : forall t cs, Forall (fun c => Q (snd c)) cs -> P (SwitchStmt t cs))
    (Htswitch : forall e x cs, Forall Q cs -> P (TypeSwitch e x cs))
    (Hselect : forall cs, Forall (fun c => Q (snd c)) cs -> P (SelectStmt cs))
    (Hunsafe : forall ss, Q ss -> P (UnsafeStmt ss)) (Harena : forall ss, Q ss -> P (ArenaBlock ss))
    (Hassert : forall c m, P (AssertStmt c m)) (Hassume : forall c, P (AssumeStmt c))
    (Hother : P OtherStmt).

Fixpoint Stmt_ind (s : Stmt) : P s :=
    let all := fix all (ss : list Stmt) : Q ss :=
      match ss with
      | [] => List.Forall_nil P
      | s :: ss => @List.Forall_cons _ _ _ _ (Stmt_ind s) (all ss)
      end in
    let cases {A} := fix cases (cs : list (A * list Stmt)) : Forall (fun c => Q (snd c)) cs :=
      match cs with
      | [] => List.Forall_nil _
      | c :: cs => @List.Forall_cons _ _ _ _ (all (snd c)) (cases cs)
      end in
    match s with
    | BlockStmt ss => Hblock ss (all ss)
    | ExprStmt e => Hexpr e
    | IfStmt c th el => Hif c th el (all th) (all el)
    | IfLetStmt x e th el => Hiflet x e th el (all th) (all el)
    | ForRangeStmt k v e b => Hrange k v e b (all b)
    | ForStmt i c p b => Hfor i c p b (all i) (all p) (all b)
    | ReturnStmt vs => Hret vs
    | GoStmt c => Hgo c
    | DeferStmt c => Hdefer c
    | BreakStmt => Hbreak
    | ContinueStmt => Hcont
    | VarDecl ns vs => Hvar ns vs
    | ConstDecl ns vs => Hconst ns vs
    | MultiAssign ts vs b => Hmulti ts vs b
    | SwitchStmt t cs => Hswitch t cs (cases cs)
    | TypeSwitch e x cs =>
        Htswitch e x cs ((fix go cs : Forall Q cs :=
          match cs with
          | [] => List.Forall_nil Q
          | c :: cs => @List.Forall_cons _ _ _ _ (all c) (go cs)
          end) cs)
    | SelectStmt cs => Hselect cs (cases cs)
    | UnsafeStmt ss => Hunsafe ss (all ss)
    | ArenaBlock ss => Harena ss (all ss)
    | AssertStmt c m => Hassert c m
    | AssumeStmt c => Hassume c
    | OtherStmt => Hother
    end.
End StmtInd.

(** ** Expressions: width and marks *)
Section TaintFacts.
  Context {Owner : Type} (hooks : EscapeHooks Owner) (n : nat) (env : LocalEnv) (o : Owner).
  Context (He : env_wide n env).
  Abbreviation taint := (escape_expr_taint hooks n env o).

Definition taint_ok (tf : TaintFn) (e : Expr) : Prop :=
    forall rs, length (fst (tf e rs)) = n /\ rs_le rs (snd (tf e rs)).

Lemma taints_ok (tf : TaintFn) es : Forall (taint_ok tf) es -> forall rs,
    Forall (fun t => length t = n) (fst (expr_taints tf es rs)) /\
    rs_le rs (snd (expr_taints tf es rs)).
  Proof.
    induction 1 as [|e es H _ IH]; intros rs; simpl; [by split; [constructor|]|].
    destruct (H rs) as [H1 H2]. destruct (tf e rs) as [t rs1]. destruct (IH rs1) as [H3 H4].
    destruct (expr_taints tf es rs1) as [ts rs2]. simpl in *. split; [by constructor|by etrans].
  Qed.

Lemma mark_args_le ret i ts rs : rs_le rs (mark_args ret i ts rs).
  Proof.
    revert i rs. induction ts as [|t ts IH]; intros i rs; simpl; [done|].
    destruct (ret i) as [[] why]; [|apply IH]. etrans; [|apply IH]. apply escape_mark_le.
  Qed.

Lemma call_result_ok fn sp ts ct rs :
    length (fst (call_result hooks n env o fn sp ts ct rs)) = n /\
    rs_le rs (snd (call_result hooks n env o fn sp ts ct rs)).
  Proof.
    unfold call_result. simpl. split; [|apply mark_args_le]. rewrite length_taint_union.
    repeat case_match; try apply length_union_all; apply length_replicate.
  Qed.

Lemma source_bit_ok rs id t : length t = n ->
    length (match source_slot hooks o id with Some i => set_bit i t | None => t end) = n /\ rs_le rs rs.
  Proof. intros Ht. split; [|done]. by destruct (source_slot hooks o id); rewrite ?length_set_bit. Qed.

Lemma callee_value_le (tf : TaintFn) fn rs : rs_le rs (snd (tf fn rs)) ->
    rs_le rs (snd (callee_value n tf fn rs)).
  Proof.
    assert (Hg : forall x : TaintSet * Reasons, rs_le rs (snd x) ->
      rs_le rs (snd (let '(t, rs) := x in (t, escape_mark t ESCAPE_REASON_CALLEE_VALUE rs)))).
    { intros [t rs1] H. etrans; [exact H|apply escape_mark_le]. }
    intros H. destruct fn; try apply Hg, H. done.
  Qed.

Lemma expr_taint_ok e : taint_ok taint e.
  Proof using He.
    assert (Hnew : length (escape_taint_new n) = n) by apply length_replicate.
    assert (Hone : forall e, taint_ok taint e -> forall rs,
      length (fst (taint e rs)) = n /\ rs_le rs (snd (taint e rs))) by auto.
    assert (Hall : forall es, Forall (taint_ok taint) es -> forall rs,
      length (fst (let '(ts, rs) := expr_taints taint es rs in (taint_union_all n ts, rs))) = n /\
      rs_le rs (snd (let '(ts, rs) := expr_taints taint es rs in (taint_union_all n ts, rs)))).
    { intros es Hes rs. destruct (taints_ok _ _ Hes rs) as [_ H].
      destruct (expr_taints taint es rs). simpl in *. split; [apply length_union_all|done]. }
    induction e as [|x| |op l r IHl IHr|id op e IH|e IH|e i IH IHi|e lo hi IH IHl IHh|e s IH
      |id fn args sp IHf IHa|id c|es IH|es IH|es IH|e IH|ks vs IHk IHv|e IH|e IH|] using Expr_ind;
      intros rs; simpl; try (by split); try (by apply IH); try (by apply Hall).
    - split; [|done]. destruct (escape_env_find env x) eqn:E; simpl; [by eapply env_find_wide|done].
    - destruct (IHl rs) as [H1 H2]. destruct (taint l rs) as [tl rs1].
      destruct (IHr rs1) as [H3 H4]. destruct (taint r rs1). simpl in *.
      split; [by rewrite length_taint_union|by etrans].
    - destruct (IH rs) as [H1 H2]. destruct (taint e rs). simpl in *.
      destruct (source_slot hooks o id); simpl; [|done]. by rewrite length_taint_union, length_set_bit.
    - destruct (IH rs) as [H1 H2]. destruct (taint e rs) as [t rs1].
      destruct (IHi rs1) as [H3 H4]. destruct (taint i rs1). simpl in *. split; [done|by etrans].
    - destruct (IH rs) as [H1 H2]. destruct (taint e rs) as [t rs1].
      destruct (IHl rs1) as [H3 H4]. destruct (taint lo rs1) as [tl rs2].
      destruct (IHh rs2) as [H5 H6]. destruct (taint hi rs2). simpl in *.
      split; [by rewrite !length_taint_union|etrans; [done|by etrans]].
    - destruct (source_slot hooks o id); simpl; [by rewrite length_set_bit|].
      destruct (taints_ok _ _ IHa rs) as [_ H2]. destruct (expr_taints taint args rs) as [ts rs1].
      assert (rs_le rs1 (snd (callee_value n taint fn rs1))) as H3.
      { apply callee_value_le, IHf. }
      destruct (callee_value n taint fn rs1) as [ct rs2]. simpl in *.
      destruct (call_result_ok fn sp ts ct rs2) as [H4 H5]. split; [done|]. etrans; [done|by etrans].
    - assert (length (captured_taint n env c) = n) as Hc by apply length_union_all.
      split; [|apply escape_mark_le]. by destruct (source_slot hooks o id); rewrite ?length_set_bit.
    - destruct (taints_ok _ _ IHk rs) as [_ H1]. destruct (expr_taints taint ks rs) as [tk rs1].
      destruct (taints_ok _ _ IHv rs1) as [_ H2]. destruct (expr_taints taint vs rs1) as [tv rs2].
      simpl in *. split; [apply length_union_all|by etrans].
    - split; [apply length_replicate|apply escape_mark_le].
  Qed.

Lemma go_call_le call why rs : rs_le rs (handle_go_call hooks n env o call why rs).
  Proof using He.
    assert (Hm : forall e rs, rs_le rs (let '(t, rs) := taint e rs in escape_mark t why rs)).
    { intros e rs'. pose proof (expr_taint_ok e rs') as [_ H]. destruct (taint e rs').
      etrans; [exact H|apply escape_mark_le]. }
    unfold handle_go_call. destruct call as [| | | | | | | | |id fn args sp| | | | | | | | |]; try apply Hm.
    specialize (Hm fn rs) as H0. destruct (taint fn rs) as [ft rs1]. revert H0.
    generalize (escape_mark ft why rs1). clear rs1. intros rs1 H0. etrans; [exact H0|]. clear H0.
    revert rs1. induction args as [|a args IH]; intros rs1; simpl; [done|]. etrans; [apply (Hm a)|apply IH].
  Qed.

Lemma defer_call_le call rs : rs_le rs (handle_defer_call hooks n env o call rs).
  Proof using He.
    unfold handle_defer_call. destruct (defer_is_like_go hooks); [apply go_call_le|apply expr_taint_ok].
  Qed.

Lemma subscripts_le lhs rs : rs_le rs (mark_lvalue_subscripts hooks n env o lhs rs).
  Proof using He.
    revert rs. induction lhs as [| | |op l r _ _|id op e IH|e _|e i IH _|e lo hi _ _ _|e s IH
      |id fn args sp _ _|id c|es _|es _|es _|e _|ks vs _ _|e _|e _|] using Expr_ind;
      intros rs; simpl; try done; try apply IH.
    pose proof (expr_taint_ok i rs) as [_ H]. destruct (taint i rs) as [t rs1].
    etrans; [exact H|]. etrans; [apply escape_mark_le|apply IH].
  Qed.

Lemma container_store_le lhs t rs : rs_le rs (container_store hooks n env o lhs t rs).
  Proof using He. unfold container_store. etrans; [apply escape_mark_le|apply subscripts_le]. Qed.
End TaintFacts.

(** ** Statements: what a walk preserves *)
(** The names a statement binds. *)
Definition name_of (e : Expr) : list string := match e with Identifier x => [x] | _ => [] end.

Definition option_name (x : option string) : list string := match x with Some x => [x] | None => [] end.

Fixpoint declared (s : Stmt) : list string :=
  let all ss := flat_map declared ss in
  match s with
  | BlockStmt ss | UnsafeStmt ss | ArenaBlock ss => all ss
  | IfStmt _ th el => all th ++ all el
  | IfLetStmt x _ th el => option_name x ++ all th ++ all el
  | ForRangeStmt k v _ b => option_name k ++ option_name v ++ all b
  | ForStmt i _ p b => all i ++ all p ++ all b
  | VarDecl xs _ | ConstDecl xs _ => xs
  | MultiAssign ts _ true => flat_map name_of ts
  | SwitchStmt _ cs => flat_map (fun c => all (snd c)) cs
  | SelectStmt cs => flat_map (fun c => all (snd c)) cs
  | TypeSwitch _ x cs => option_name x ++ flat_map all cs
  | _ => []
  end.

Definition declared_in (ss : list Stmt) : list string := flat_map declared ss.

Section Preserve.
  Context {Owner : Type} (hooks : EscapeHooks Owner) (n : nat) (D : string -> Prop).
  Context (Q : Walk Owner -> Prop).
  Context (Q_wide : forall w, Q w -> env_wide n (w_env w)).
  Context (Q_reasons : forall w rs, Q w -> rs_le (w_reasons w) rs -> Q (set_reasons w rs)).
  Context (Q_bind : forall w x t, Q w -> D x -> length t = n -> Q (walk_bind hooks w x t)).
  Context (Q_union : forall w x old t, Q w -> escape_env_find (w_env w) x = Some old -> length t = n ->
    Q (mkWalk (env_update (w_env w) x (taint_union old t)) (w_reasons w) (w_owner w)
         (w_changed w || taint_grows old t))).
  Context (Q_return : forall w t, Q w ->
    Q (mkWalk (w_env w) (w_reasons w) (on_return hooks (w_owner w) t) (w_changed w))).

Lemma walk_taint_pres w e : Q w ->
    length (fst (walk_taint hooks n w e)) = n /\ Q (snd (walk_taint hooks n w e)).
  Proof using Q_wide Q_reasons.
    intros Hw. unfold walk_taint.
    destruct (expr_taint_ok hooks n (w_env w) (w_owner w) (Q_wide _ Hw) e (w_reasons w)) as [H1 H2].
    destruct (escape_expr_taint _ _ _ _ _ _). simpl in *. auto.
  Qed.

Lemma walk_expr_pres w e : Q w -> Q (walk_expr hooks n w e).
  Proof using Q_wide Q_reasons. intros Hw. by apply walk_taint_pres. Qed.

Lemma walk_mark_pres w t why : Q w -> Q (walk_mark w t why).
  Proof using Q_reasons. intros Hw. apply Q_reasons; [done|apply escape_mark_le]. Qed.

Lemma walk_bind_opt_pres w x t : Q w -> (forall y, y ∈ option_name x -> D y) -> length t = n ->
    Q (walk_bind_opt hooks w x t).
  Proof using Q_bind. intros Hw Hx Ht. destruct x as [x|]; simpl; [|done]. apply Q_bind; try done. apply Hx. by left. Qed.

Lemma walk_union_pres es w t : Q w -> length t = n ->
    length (fst (walk_union hooks n w es t)) = n /\ Q (snd (walk_union hooks n w es t)).
  Proof using Q_wide Q_reasons.
    revert w t. induction es as [|e es IH]; intros w t Hw Ht; simpl; [done|].
    destruct (walk_taint_pres w e Hw) as [H1 H2]. destruct (walk_taint hooks n w e) as [te w1].
    apply IH; [done|]. by rewrite length_taint_union.
  Qed.

Lemma seed_names_pres w names values : Q w -> (forall x, x ∈ names -> D x) ->
    Q (escape_seed_names_from_values hooks n w names values).
  Proof using Q_wide Q_reasons Q_bind.
    intros Hw Hn. unfold escape_seed_names_from_values.
    destruct (walk_union_pres values w (escape_taint_new n) Hw) as [H1 H2]; [apply length_replicate|].
    destruct (walk_union hooks n w values _) as [t w1]. simpl in *. revert w1 H2.
    induction names as [|x names IH]; intros w1 H2; simpl; [done|].
    apply IH; [intros y Hy; apply Hn; by right|]. apply Q_bind; [done|apply Hn; by left|done].
  Qed.

Lemma assign_pres w lhs t : Q w -> length t = n -> Q (assign_to_lvalue hooks n w lhs t).
  Proof using Q_wide Q_reasons Q_union.
    intros Hw Ht.
    assert (Hc : Q (set_reasons w (container_store hooks n (w_env w) (w_owner w) lhs t (w_reasons w)))).
    { apply Q_reasons; [done|]. by apply container_store_le, Q_wide. }
    unfold assign_to_lvalue. destruct lhs; try exact Hc; try by apply walk_mark_pres.
    destruct (_ =? _)%string; [done|]. destruct (escape_env_find (w_env w) name) as [old|] eqn:E.
    - by apply Q_union.
    - by apply walk_mark_pres.
  Qed.

Lemma expr_stmt_pres w e : Q w -> Q (escape_walk_expr_stmt hooks n w e).
  Proof using Q_wide Q_reasons Q_union.
    intros Hw. unfold escape_walk_expr_stmt. destruct e; try by apply walk_expr_pres. { done. }
    destruct (is_assign_op op).
    - destruct (walk_taint_pres w e2 Hw) as [H1 H2]. destruct (walk_taint hooks n w e2). by apply assign_pres.
    - destruct (token_eqb op TOKEN_ARROW); [|by apply walk_expr_pres].
      destruct (walk_taint_pres (walk_expr hooks n w e1) e2) as [H1 H2]; [by apply walk_expr_pres|].
      destruct (walk_taint hooks n _ e2). by apply walk_mark_pres.
  Qed.

Lemma fold_pres {A} (f : Walk Owner -> A -> Walk Owner) xs w :
    (forall w x, x ∈ xs -> Q w -> Q (f w x)) -> Q w -> Q (fold_left f xs w).
  Proof using.
    revert w. induction xs as [|x xs IH]; intros w Hf Hw; simpl; [done|].
    apply IH; [|apply Hf; [by left|done]]. intros w' y Hy. apply Hf. by right.
  Qed.

Lemma in_order_pres {A} (f : A -> Walk Owner -> Walk Owner) xs w :
    Forall (fun x => forall w, Q w -> Q (f x w)) xs -> Q w -> Q (in_order f xs w).
  Proof using.
    intros Hf. revert w. induction Hf as [|x xs Hx _ IH]; intros w Hw; simpl; [done|]. apply IH, Hx, Hw.
  Qed.

Lemma multi_assign_pres w ts vs b : Q w ->
    (forall x, x ∈ declared (MultiAssign ts vs b) -> D x) -> Q (multi_assign hooks n w ts vs b).
  Proof using Q_wide Q_reasons Q_bind Q_union.
    intros Hw HD. unfold multi_assign.
    destruct (walk_union_pres vs w (escape_taint_new n) Hw) as [H1 H2]; [apply length_replicate|].
    destruct (walk_union hooks n w vs _) as [t w1]. simpl in *. apply fold_pres; [|done].
    intros w2 tgt Htgt H3. destruct b; [|by apply assign_pres].
    destruct tgt; try by apply walk_mark_pres. apply Q_bind; [done| |done].
    apply HD. apply list_elem_of_In, in_flat_map. exists (Identifier name). split; [by apply list_elem_of_In|by left].
  Qed.

(** The induction: [walk ss] for lists whose statements are preserving. *)
Definition preserving (s : Stmt) : Prop :=
    (forall x, x ∈ declared s -> D x) -> forall w, Q w -> Q (escape_walk_one hooks n s w).

Lemma list_pres ss w : Forall preserving ss -> (forall x, x ∈ declared_in ss -> D x) -> Q w ->
    Q (in_order (escape_walk_one hooks n) ss w).
  Proof using.
    intros Hf HD Hw. apply in_order_pres; [|done]. apply Forall_forall. intros s Hs w' Hw'.
    rewrite Forall_forall in Hf. apply Hf; try done. intros x Hx. apply HD.
    apply list_elem_of_In, in_flat_map. exists s. by split; apply list_elem_of_In.
  Qed.

Lemma walk_preserves s : preserving s.
  Proof using Q_wide Q_reasons Q_bind Q_union Q_return.
    assert (Hin : forall A (f : A -> list string) (cs : list A) c, c ∈ cs ->
      (forall x, x ∈ flat_map f cs -> D x) -> forall x, x ∈ f c -> D x).
    { intros A f cs c Hc H x Hx. apply H, list_elem_of_In, in_flat_map. exists c. by split; apply list_elem_of_In. }
    assert (Ht : forall e w, Q w -> forall k : TaintSet -> Walk Owner -> Walk Owner,
      (forall t w, length t = n -> Q w -> Q (k t w)) ->
      Q (let '(t, w) := walk_taint hooks n w e in k t w)).
    { intros e w Hw k Hk. destruct (walk_taint_pres w e Hw). destruct (walk_taint hooks n w e). by apply Hk. }
    induction s as [ss IH|e|c th el IHt IHe|x e th el IHt IHe|k v e b IHb|i c p b IHi IHp IHb|vs|c|c| |
      |ns vs|ns vs|ts vs b|t cs IH|e x cs IH|cs IH|ss IH|ss IH|c m|c|] using Stmt_ind;
      intros HD w Hw; simpl in HD |- *; repeat setoid_rewrite elem_of_app in HD.
    - by apply list_pres.
    - by apply expr_stmt_pres.
    - apply list_pres; [done|unfold declared_in; naive_solver|].
      apply list_pres; [done|unfold declared_in; naive_solver|]. by apply walk_expr_pres.
    - apply Ht; [done|]. intros t w1 Hlt Hw1.
      apply list_pres; [done|unfold declared_in; naive_solver|].
      apply list_pres; [done|unfold declared_in; naive_solver|]. apply walk_bind_opt_pres; naive_solver.
    - apply Ht; [done|]. intros t w1 Hlt Hw1. apply list_pres; [done|unfold declared_in; naive_solver|].
      apply walk_bind_opt_pres; [|naive_solver|done].
      apply walk_bind_opt_pres; [done|naive_solver|apply length_replicate].
    - apply list_pres; [done|unfold declared_in; naive_solver|].
      apply list_pres; [done|unfold declared_in; naive_solver|]. apply walk_expr_pres.
      apply list_pres; [done|unfold declared_in; naive_solver|done].
    - apply fold_pres; [|done]. intros w1 v _ Hw1. apply Ht; [done|]. intros t w2 _ Hw2.
      apply (Q_return (walk_mark w2 t ESCAPE_REASON_RETURN) t). by apply walk_mark_pres.
    - apply Q_reasons; [done|]. by apply go_call_le, Q_wide.
    - apply Q_reasons; [done|]. by apply defer_call_le, Q_wide.
    - done.
    - done.
    - by apply seed_names_pres.
    - by apply seed_names_pres.
    - by apply multi_assign_pres.
    - apply in_order_pres; [|by apply walk_expr_pres]. rewrite Forall_forall in IH |- *.
      intros c Hc w1 Hw1. apply list_pres; [by apply IH|by apply (Hin _ (fun c => declared_in (snd c)) cs)|].
      apply fold_pres; [|done]. intros w2 e _ Hw2. by apply walk_expr_pres.
    - apply Ht; [done|]. intros t w1 Hlt Hw1.
      apply in_order_pres; [|apply walk_bind_opt_pres; naive_solver]. rewrite Forall_forall in IH |- *.
      intros c Hc w2 Hw2. apply list_pres; [by apply IH| |done]. apply (Hin _ declared_in cs); naive_solver.
    - apply in_order_pres; [|done]. rewrite Forall_forall in IH |- *.
      intros c Hc w1 Hw1. apply list_pres; [by apply IH|by apply (Hin _ (fun c => declared_in (snd c)) cs)|].
      by apply expr_stmt_pres.
    - by apply list_pres.
    - by apply list_pres.
    - by apply walk_expr_pres, walk_expr_pres.
    - by apply walk_expr_pres.
    - apply Q_reasons; [done|apply mark_all_spec].
  Qed.

Lemma walk_stmt_preserves ss w : (forall x, x ∈ declared_in ss -> D x) -> Q w ->
    Q (escape_walk_stmt hooks n ss w).
  Proof using Q_wide Q_reasons Q_bind Q_union Q_return.
    intros HD Hw. apply list_pres; try done. apply Forall_forall. intros s _. apply walk_preserves.
  Qed.
End Preserve.

(** ** What the engine asks of a pass *)
(** [ok] is the pass's invariant on its own state; [stamp] what binding a name adds to the
    value; [summary] and [site] its constant answers; [returned] the return signal. *)
Class LawfulHooks {Owner : Type} (hooks : EscapeHooks Owner) (n : nat) (ok : Owner -> Prop)
    (stamp : string -> TaintSet -> TaintSet) (summary : string -> option (list bool * bool))
    (site : nat -> option nat) (returned : Owner -> Prop) : Prop := {
  lh_bind o x t env : ok o -> exists o',
    bind hooks o x t env = (escape_env_add_or_union env x (stamp x t), o') /\
    ok o' /\ (returned o -> returned o');
  lh_stamp x t : length t = n -> length (stamp x t) = n /\ forall i, bit t i -> bit (stamp x t) i;
  lh_summary o f : ok o -> callee_retention hooks o f = summary f;
  lh_site o id : ok o -> expr_source_slot hooks o id = site id;
  lh_return o t : ok o -> ok (on_return hooks o t) /\ (returned o -> returned (on_return hooks o t)) /\
    ((exists i, bit t i) -> returned (on_return hooks o t))
}.

Section Lawful.
  Context {Owner : Type} (hooks : EscapeHooks Owner) (n : nat) (ok returned : Owner -> Prop).
  Context (stamp : string -> TaintSet -> TaintSet) (summary : string -> option (list bool * bool)).
  Context (site : nat -> option nat) `{!LawfulHooks hooks n ok stamp summary site returned}.

(** From [a] to [b] a walk over names in [D] has only added. *)
Record grew (D : string -> Prop) (a b : Walk Owner) : Prop := {
  gr_wide : env_wide n (w_env b);
  gr_ok : ok (w_owner b);
  gr_env : env_le (w_env a) (w_env b);
  gr_reasons : rs_le (w_reasons a) (w_reasons b);
  gr_names : forall x, x ∈ map lv_name (w_env b) -> x ∈ map lv_name (w_env a) \/ (D x /\ x <> "_");
  gr_nodup : NoDup (map lv_name (w_env a)) -> NoDup (map lv_name (w_env b));
  gr_changed : w_changed a = true -> w_changed b = true;
  gr_same : w_changed b = false -> w_env b = w_env a;
  gr_weight : env_weight (w_env a) <= env_weight (w_env b);
  gr_progress : w_changed b = true -> w_changed a = true \/ env_weight (w_env a) < env_weight (w_env b);
  gr_returned : returned (w_owner a) -> returned (w_owner b)
}.

Lemma grew_refl D w : env_wide n (w_env w) -> ok (w_owner w) -> grew D w w.
  Proof using. intros. constructor; auto; done. Qed.

Lemma grew_trans D a b c : grew D a b -> grew D b c -> grew D a c.
  Proof using.
    intros [] []. constructor; try done; try (by etrans); auto.
    - intros x Hx. destruct (gr_names1 x Hx); [auto|by right].
    - intros H. rewrite gr_same1 by done. apply gr_same0.
      destruct (w_changed b); [|done]. by rewrite gr_changed1 in H.
    - intros H. destruct (gr_progress1 H) as [H'|]; [|right; lia].
      destruct (gr_progress0 H'); [by left|right; lia].
  Qed.

Lemma grew_env D w (x : string) v ch env o : env_wide n (w_env w) -> ok o ->
    (returned (w_owner w) -> returned o) -> length v = n ->
    (x ∈ map lv_name (w_env w) \/ (D x /\ x <> "_")) -> env_adds n x v (w_env w) ch env ->
    grew D w (mkWalk env (w_reasons w) o (w_changed w || ch)).
  Proof using LawfulHooks0.
    intros Hw Ho Hret Hv HD [A1 A2 A3 A4 A5 A6]. constructor; simpl; try done.
    - by apply A1.
    - intros y Hy. rewrite A4 in Hy. case_bool_decide; [by left|].
      apply elem_of_app in Hy as [?|Hy]; [by left|]. apply list_elem_of_singleton in Hy as ->.
      destruct HD; [done|by right].
    - intros Hnd. rewrite A4. case_bool_decide; [done|]. apply NoDup_app. split_and!; [done| |apply NoDup_singleton].
      intros y Hy Hyx. apply list_elem_of_singleton in Hyx. by subst.
    - by intros ->.
    - intros H. apply orb_false_iff in H as [_ H]. by apply A5.
    - lia.
    - intros H. apply orb_true_iff in H as [H|H]; [by left|right; apply A6, H].
  Qed.

Lemma walk_bind_grew (D : string -> Prop) w x t : env_wide n (w_env w) -> ok (w_owner w) -> D x -> length t = n ->
    grew D w (walk_bind hooks w x t) /\
    (x <> "_" -> env_holds (w_env (walk_bind hooks w x t)) x (stamp x t)).
  Proof using LawfulHooks0.
    intros Hw Ho HD Ht. unfold walk_bind. destruct (String.eqb_spec x "_") as [->|Hx].
    { split; [by apply grew_refl|done]. }
    destruct (lh_bind (w_owner w) x t (w_env w) Ho) as (o'&->&Ho'&Hret).
    destruct (lh_stamp x t Ht) as [Hs _].
    pose proof (env_add_or_union_adds n x (stamp x t) (w_env w)) as Hadd.
    destruct (escape_env_add_or_union (w_env w) x (stamp x t)) as [ch env]. simpl in *.
    split; [|intros _; by apply (ea_holds _ _ _ _ _ _ Hadd)]. apply (grew_env D w x (stamp x t) ch env o'); try done. by right.
  Qed.

Lemma union_grew D w x old t : env_wide n (w_env w) -> ok (w_owner w) -> length t = n ->
    escape_env_find (w_env w) x = Some old ->
    grew D w (mkWalk (env_update (w_env w) x (taint_union old t)) (w_reasons w) (w_owner w)
                (w_changed w || taint_grows old t)).
  Proof using LawfulHooks0.
    intros Hw Ho Ht Hf. eapply grew_env; try done; [|by apply env_union_adds]. left.
    destruct (decide (x ∈ map lv_name (w_env w))) as [|H]; [done|]. apply env_find_none in H. congruence.
  Qed.

Lemma reasons_grew D w rs : env_wide n (w_env w) -> ok (w_owner w) -> rs_le (w_reasons w) rs ->
    grew D w (set_reasons w rs).
  Proof using LawfulHooks0. intros. constructor; simpl; auto; done. Qed.

(** The closure conditions of [walk_preserves] for growth from a fixed start. *)
Lemma grew_closed (D : string -> Prop) w0 :
    (forall w, grew D w0 w -> env_wide n (w_env w)) /\
    (forall w rs, grew D w0 w -> rs_le (w_reasons w) rs -> grew D w0 (set_reasons w rs)) /\
    (forall w x t, grew D w0 w -> D x -> length t = n -> grew D w0 (walk_bind hooks w x t)) /\
    (forall w x old t, grew D w0 w -> escape_env_find (w_env w) x = Some old -> length t = n ->
      grew D w0 (mkWalk (env_update (w_env w) x (taint_union old t)) (w_reasons w) (w_owner w)
        (w_changed w || taint_grows old t))) /\
    (forall w t, grew D w0 w ->
      grew D w0 (mkWalk (w_env w) (w_reasons w) (on_return hooks (w_owner w) t) (w_changed w))).
  Proof using LawfulHooks0.
    split_and!.
    - by intros w [].
    - intros w rs Hw Hrs. pose proof Hw as []. eapply grew_trans; [exact Hw|by apply reasons_grew].
    - intros w x t Hw HD Ht. pose proof Hw as []. eapply grew_trans; [exact Hw|by apply walk_bind_grew].
    - intros w x old t Hw Hf Ht. pose proof Hw as []. eapply grew_trans; [exact Hw|by apply union_grew].
    - intros w t Hw. pose proof Hw as []. eapply grew_trans; [exact Hw|].
      destruct (lh_return (w_owner w) t) as (?&?&_); [done|]. constructor; simpl; auto; done.
  Qed.

Lemma walk_one_grew (D : string -> Prop) s w : (forall x, x ∈ declared s -> D x) ->
    env_wide n (w_env w) -> ok (w_owner w) -> grew D w (escape_walk_one hooks n s w).
  Proof using LawfulHooks0.
    intros HD Hw Ho. destruct (grew_closed D w) as (?&?&?&?&?).
    eapply (walk_preserves hooks n D (grew D w)); try done. by apply grew_refl.
  Qed.

Lemma walk_stmt_grew (D : string -> Prop) ss w : (forall x, x ∈ declared_in ss -> D x) ->
    env_wide n (w_env w) -> ok (w_owner w) -> grew D w (escape_walk_stmt hooks n ss w).
  Proof using LawfulHooks0.
    intros HD Hw Ho. destruct (grew_closed D w) as (?&?&?&?&?).
    eapply (walk_stmt_preserves hooks n D (grew D w)); try done. by apply grew_refl.
  Qed.

(** ** The fixpoint loop *)
(** What a result of the loop is: reached from the start, and left unchanged by a last walk. *)
Record fixed (ss : list Stmt) (a b : Walk Owner) : Prop := {
  fx_names : forall x, x ∈ map lv_name (w_env b) -> x ∈ map lv_name (w_env a) \/ (x ∈ declared_in ss /\ x <> "_");
  fx_wide : env_wide n (w_env b);
  fx_ok : ok (w_owner b);
  fx_env : env_le (w_env a) (w_env b);
  fx_reasons : rs_le (w_reasons a) (w_reasons b);
  fx_returned : returned (w_owner a) -> returned (w_owner b);
  fx_last : exists w, w_changed w = false /\ w_env w = w_env b /\ env_wide n (w_env w) /\ ok (w_owner w) /\
    length (w_reasons w) = length (w_reasons b) /\
    escape_walk_stmt hooks n ss w = b /\ w_changed b = false
}.

Lemma walk_fixpoint_fixed passes ss w w' : env_wide n (w_env w) -> ok (w_owner w) ->
    walk_fixpoint hooks n passes ss w = Some w' -> fixed ss w w'.
  Proof using LawfulHooks0.
    revert w. induction passes as [|passes IH]; intros w Hw Ho; simpl; [done|].
    set (w0 := mkWalk (w_env w) (w_reasons w) (w_owner w) false).
    pose proof (walk_stmt_grew (fun x => x ∈ declared_in ss) ss w0 (fun x H => H) Hw Ho) as [].
    set (w1 := escape_walk_stmt hooks n ss w0) in *. destruct (w_changed w1) eqn:Ec.
    - intros H. destruct (IH w1 gr_wide0 gr_ok0 H). constructor; try done; try (by etrans).
      + intros x Hx. destruct (fx_names0 x Hx); [auto|by right].
      + auto.
    - intros [= <-]. constructor; try done. exists w0. split_and!; try done.
      + by rewrite gr_same0.
      + by destruct gr_reasons0.
  Qed.

(** Enough walks: one per fact the environment can hold, and one more. *)
Lemma walk_fixpoint_total (D : list string) ss w passes :
    env_wide n (w_env w) -> ok (w_owner w) -> NoDup (map lv_name (w_env w)) ->
    (forall x, x ∈ map lv_name (w_env w) -> x ∈ D) -> (forall x, x ∈ declared_in ss -> x ∈ D) ->
    length D * S n < env_weight (w_env w) + passes ->
    is_Some (walk_fixpoint hooks n passes ss w).
  Proof using LawfulHooks0.
    intros Hw Ho Hnd HD Hss. revert w Hw Ho Hnd HD.
    assert (Hb : forall env, env_wide n env -> NoDup (map lv_name env) ->
      (forall x, x ∈ map lv_name env -> x ∈ D) -> env_weight env <= length D * S n).
    { intros env He Hnd HD. pose proof (env_weight_bound n env He).
      assert (length (map lv_name env) <= length D) as Hl.
      { apply submseteq_length, NoDup_submseteq; [done|exact HD]. }
      rewrite length_map in Hl. nia. }
    induction passes as [|passes IH]; intros w Hw Ho Hnd HD Hp; simpl.
    { specialize (Hb _ Hw Hnd HD). lia. }
    set (w0 := mkWalk (w_env w) (w_reasons w) (w_owner w) false).
    pose proof (walk_stmt_grew (fun x => x ∈ D) ss w0 Hss Hw Ho) as [].
    set (w1 := escape_walk_stmt hooks n ss w0) in *. destruct (w_changed w1) eqn:Ec; [|by eexists].
    apply IH; try done; [auto| |].
    - intros x Hx. destruct (gr_names0 x Hx) as [?|[? _]]; auto.
    - destruct (gr_progress0 eq_refl) as [?|Hlt]; [done|]. simpl in Hlt. lia.
  Qed.
End Lawful.
