(* ===== verification/EscapeSem.v ===== *)
(** * EscapeSem: what the escape analyses are about, as executions.

    A run of a function body along any control path, with lexical scopes, in which every value
    carries the slots it was made from.  A slot leaks when a value carrying it is stored
    outside, sent, captured, handed to a goroutine or to an unknown callee, or stored into a
    container that does not carry it; a call of a function of the program runs that function's
    body, with one slot per parameter, and passes on what happened to the parameters.  Code may
    be abandoned at any point (break, continue, goto, panic), and closures, which may run at any
    time, may read the variables they capture and write leaked values into any variable.  The name
    a case of select binds is not bound: a received value carries nothing.  Whether
    variables may hold bound method values is a parameter, [method_values]. *)
From Stdlib Require Import ZArith Lia Ascii String Bool.
From stdpp Require Import base list numbers option strings.
From S2P Require Import Prelude Token Escape EscapePasses.

(** ** States *)
Abbreviation DEnv := (list (string * list nat)).

Record DState : Set := mkSt { ds_env : DEnv; ds_leaked : list nat; ds_returned : list nat }.

(** A unit's slots: how many, and which a binding of a name adds to the value bound; and the
    names its function literals capture. *)
Record Mode : Set := mkMode {
  md_width : nat;
  md_stamp : string -> list nat;
  md_captured : list string
}.

Definition captures_list (captures : Expr -> list string) :=
  fix go (es : list Expr) : list string :=
    match es with [] => [] | e :: es => captures e ++ go es end.

Fixpoint captures (e : Expr) : list string :=
  let all := captures_list captures in
  match e with
  | FuncLit _ xs => xs
  | BinaryExpr _ l r | IndexExpr l r => captures l ++ captures r
  | UnaryExpr _ _ e | PostfixExpr e | SelectorExpr e _ | KeyedElement e | SliceConversion e
  | TypeAssert e => captures e
  | SliceIndexExpr e lo hi => captures e ++ captures lo ++ captures hi
  | CallExpr _ fn args _ => captures fn ++ all args
  | StructLiteral es | SliceLit es | ArrayLit es => all es
  | MapLit ks vs => all ks ++ all vs
  | ENull | Identifier _ | Literal | OtherExpr => []
  end.

Fixpoint captures_stmt (s : Stmt) : list string :=
  let all := flat_map captures_stmt in
  let exprs := flat_map captures in
  match s with
  | BlockStmt ss | UnsafeStmt ss | ArenaBlock ss => all ss
  | ExprStmt e | GoStmt e | DeferStmt e | AssumeStmt e => captures e
  | IfStmt c th el | IfLetStmt _ c th el => captures c ++ all th ++ all el
  | ForRangeStmt _ _ e b => captures e ++ all b
  | ForStmt i c p b => all i ++ captures c ++ all p ++ all b
  | ReturnStmt vs | VarDecl _ vs | ConstDecl _ vs => exprs vs
  | MultiAssign ts vs _ => exprs vs ++ exprs ts
  | SwitchStmt t cs => captures t ++ flat_map (fun c => exprs (fst c) ++ all (snd c)) cs
  | TypeSwitch e _ cs => captures e ++ flat_map all cs
  | SelectStmt cs => flat_map (fun c => captures (sc_comm (fst c)) ++ all (snd c)) cs
  | AssertStmt c m => captures c ++ captures m
  | BreakStmt | ContinueStmt | OtherStmt => []
  end.

Fixpoint dlookup (x : string) (r : DEnv) : option (list nat) :=
  match r with
  | [] => None
  | (y, t) :: r => if (y =? x)%string then Some t else dlookup x r
  end.

Fixpoint dupdate (x : string) (t : list nat) (r : DEnv) : DEnv :=
  match r with
  | [] => []
  | (y, u) :: r => if (y =? x)%string then (y, t) :: r else (y, u) :: dupdate x t r
  end.

Definition leak (l : list nat) (st : DState) : DState :=
  mkSt (ds_env st) (l ++ ds_leaked st) (ds_returned st).

Definition give_back (l : list nat) (st : DState) : DState :=
  mkSt (ds_env st) (ds_leaked st) (l ++ ds_returned st).

Definition with_env (r : DEnv) (st : DState) : DState := mkSt r (ds_leaked st) (ds_returned st).

Definition bind_local (md : Mode) (x : string) (t : list nat) (st : DState) : DState :=
  if (x =? "_")%string then st else with_env ((x, md_stamp md x ++ t) :: ds_env st) st.

Definition bind_opt (md : Mode) (x : option string) (t : list nat) (st : DState) : DState :=
  match x with Some x => bind_local md x t st | None => st end.

Fixpoint bind_all (md : Mode) (xs : list string) (ts : list (list nat)) (st : DState) : DState :=
  match xs, ts with
  | x :: xs, t :: ts => bind_all md xs ts (bind_local md x t st)
  | _, _ => st
  end.

(** One value per name, or all of them for every name. *)
Definition spread_values {A} (xs : list A) (ts : list (list nat)) : list (list nat) :=
  if (length xs =? length ts)%nat then ts else replicate (length xs) (concat ts).

(** Leaving a scope. *)
Definition leave (outer inner : DState) : DState :=
  with_env (drop (length (ds_env inner) - length (ds_env outer)) (ds_env inner)) inner.

(** ** Programs and calls *)
Definition function_of (P : Program) (f : string) : option FuncDecl :=
  match List.find (fun d => match d with
                            | FuncDeclaration (mkFunc (Some n) false _ _) => (n =? f)%string
                            | _ => false
                            end) P with
  | Some (FuncDeclaration fd) => Some fd
  | _ => None
  end.

(** All declared names, methods included. *)
Definition function_names (P : Program) : list string :=
  omap (fun d => match d with FuncDeclaration fd => fd_name fd | OtherDecl => None end) P.

Definition params_of (fd : FuncDecl) : list string := mjoin (fd_params fd).

(** Inside a callee the slots are its parameters. *)
Definition param_mode (fd : FuncDecl) (body : list Stmt) : Mode :=
  mkMode (length (params_of fd)) (fun _ => []) (flat_map captures_stmt body).

Fixpoint number_from (i : nat) (xs : list string) : DEnv :=
  match xs with [] => [] | x :: xs => (x, [i]) :: number_from (S i) xs end.

Definition enter (fd : FuncDecl) : DState := mkSt (number_from 0 (params_of fd)) [] [].

(** The parameter an argument goes into; the last takes all that follow. *)
Definition feeds (nparams i : nat) : nat := Nat.min i (nparams - 1).

(** What the arguments carry whose parameter is among [slots]. *)
Fixpoint passed_from (i nparams : nat) (slots : list nat) (ts : list (list nat)) : list nat :=
  match ts with
  | [] => []
  | t :: ts =>
      (if bool_decide (feeds nparams i ∈ slots) then t else []) ++ passed_from (S i) nparams slots ts
  end.

Definition passed (fd : FuncDecl) (slots : list nat) (ts : list (list nat)) : list nat :=
  passed_from 0 (length (params_of fd)) slots ts.

Definition is_append (fn : Expr) : bool :=
  match fn with Identifier n => (n =? "append")%string | _ => false end.

(** A callee that is neither a function of the program nor one of the known library functions. *)
Definition opaque (P : Program) (r : DEnv) (fn : Expr) : Prop :=
  match fn with
  | Identifier f =>
      is_Some (dlookup f r) \/
      ((f ∉ function_names P) /\ goo_callee_is_non_retaining fn = false /\ f <> "append")
  | SelectorExpr (Identifier pkg) _ =>
      is_Some (dlookup pkg r) \/ goo_callee_is_non_retaining fn = false
  | _ => True
  end.

(** The known callees hold nothing when no local has their name. *)
Definition known_callee (P : Program) (r : DEnv) (fn : Expr) : Prop :=
  match fn with
  | Identifier f => dlookup f r = None /\ (f ∉ function_names P)
  | SelectorExpr (Identifier pkg) _ => dlookup pkg r = None
  | _ => False
  end.

(** ** Shapes of expressions *)
(** The value is the operand's. *)
Definition inner (e : Expr) : option Expr :=
  match e with
  | UnaryExpr _ _ e | PostfixExpr e | SelectorExpr e _ | KeyedElement e | SliceConversion e
  | TypeAssert e => Some e
  | _ => None
  end.

(** The value is made of the elements. *)
Definition elements (e : Expr) : option (list Expr) :=
  match e with
  | BinaryExpr _ l r => Some [l; r]
  | SliceIndexExpr e lo hi => Some [e; lo; hi]
  | StructLiteral es | SliceLit es | ArrayLit es => Some es
  | MapLit ks vs => Some (ks ++ vs)
  | ENull | Literal => Some []
  | _ => None
  end.

(** The local a store goes through, if it is an index of one. *)
Definition container (r : DEnv) (e : Expr) : option (list nat) :=
  match e with Identifier m => dlookup m r | _ => None end.

Definition foreign (t : list nat) (base : option (list nat)) : list nat :=
  match base with Some b => filter (fun s => s ∉ b) t | None => t end.

Definition is_compound (op : TokenType) : bool := negb (token_eqb op TOKEN_ASSIGN).

(** ** Executions *)
Section Semantics.
  Context (P : Program) (method_values : bool).

(** What calling a function value can leak of what it carries.  What a closure carries leaked
    where the closure was made; a bound method value passes its receiver on. *)
Definition callee_carries (fn : Expr) (t : list nat) : list nat :=
  match fn with Identifier _ => if method_values then t else [] | _ => t end.

(** [eval md r e t l]: the value of [e] carries [t], and evaluating it leaks [l]. *)
Inductive eval : Mode -> DEnv -> Expr -> list nat -> list nat -> Prop :=
| ev_name md r x : eval md r (Identifier x) (default [] (dlookup x r)) []
| ev_inner md r e e' t l : inner e = Some e' -> eval md r e' t l -> eval md r e t l
| ev_index md r e i t l ti li : eval md r e t l -> eval md r i ti li ->
    eval md r (IndexExpr e i) t (l ++ li)
| ev_elements md r e es ts l : elements e = Some es -> evals md r es ts l ->
    eval md r e (concat ts) l
| ev_closure md r id xs : let t := concat (omap (fun x => dlookup x r) xs) in
    eval md r (FuncLit id xs) t t
| ev_unknown md r t l : Forall (fun s => s < md_width md) (t ++ l) -> eval md r OtherExpr t l
| ev_call md r id f args sp fd body ts l st c :
    dlookup f r = None -> function_of P f = Some fd -> fd_body fd = Some body ->
    evals md r args ts l -> exec (param_mode fd body) (enter fd) body st c ->
    eval md r (CallExpr id (Identifier f) args sp) (passed fd (ds_returned st) ts)
      (passed fd (ds_leaked st) ts ++ l)
| ev_call_known md r id fn args sp ts l :
    known_callee P r fn -> goo_callee_is_non_retaining fn = true -> evals md r args ts l ->
    eval md r (CallExpr id fn args sp) [] l
| ev_call_append md r id fn args sp ts l :
    known_callee P r fn -> is_append fn = true -> evals md r args ts l ->
    eval md r (CallExpr id fn args sp) (concat ts) (concat (tail ts) ++ l)
| ev_call_opaque md r id fn args sp tf lf ts l :
    opaque P r fn -> eval md r fn tf lf -> evals md r args ts l ->
    eval md r (CallExpr id fn args sp) (concat ts ++ callee_carries fn tf)
      (concat ts ++ callee_carries fn tf ++ lf ++ l)
with evals : Mode -> DEnv -> list Expr -> list (list nat) -> list nat -> Prop :=
| evs_nil md r : evals md r [] [] []
| evs_cons md r e es t ts l ls : eval md r e t l -> evals md r es ts ls ->
    evals md r (e :: es) (t :: ts) (l ++ ls)
(** [assign md st lhs t compound st']: a value carrying [t] is stored. *)
with assign : Mode -> DState -> Expr -> list nat -> bool -> DState -> Prop :=
| as_nothing md st t b : assign md st ENull t b (leak t st)
| as_blank md st t b : assign md st (Identifier "_") t b st
| as_local md st x t b old : x <> "_" -> dlookup x (ds_env st) = Some old ->
    assign md st (Identifier x) t b
      (with_env (dupdate x (if b then old ++ t else t) (ds_env st)) st)
| as_outside md st x t b : x <> "_" -> dlookup x (ds_env st) = None ->
    assign md st (Identifier x) t b (leak t st)
| as_index md st e i t b te le ti li :
    eval md (ds_env st) e te le -> eval md (ds_env st) i ti li ->
    assign md st (IndexExpr e i) t b
      (leak (foreign t (container (ds_env st) e) ++ ti ++ le ++ li) st)
| as_place md st lhs e t b te le : inner lhs = Some e -> eval md (ds_env st) e te le ->
    assign md st lhs t b (leak (t ++ le) st)
with assigns : Mode -> DState -> list Expr -> list (list nat) -> DState -> Prop :=
| ass_nil md st ts : assigns md st [] ts st
| ass_cons md st e es t ts st1 st2 : assign md st e t false st1 -> assigns md st1 es ts st2 ->
    assigns md st (e :: es) (t :: ts) st2
with exec_expr : Mode -> DState -> Expr -> DState -> Prop :=
| xe_null md st : exec_expr md st ENull st
| xe_assign md st op lhs rhs t l st' : is_assign_op op = true ->
    eval md (ds_env st) rhs t l -> assign md (leak l st) lhs t (is_compound op) st' ->
    exec_expr md st (BinaryExpr op lhs rhs) st'
| xe_send md st ch v tc lc t l :
    eval md (ds_env st) ch tc lc -> eval md (ds_env st) v t l ->
    exec_expr md st (BinaryExpr TOKEN_ARROW ch v) (leak (t ++ l ++ lc) st)
| xe_expr md st e t l :
    (forall op lhs rhs, e = BinaryExpr op lhs rhs -> is_assign_op op = false /\ op <> TOKEN_ARROW) ->
    eval md (ds_env st) e t l -> exec_expr md st e (leak l st)
(** [exec md st ss st' c]: [c] tells whether the statements ran to their end. *)
with exec : Mode -> DState -> list Stmt -> DState -> bool -> Prop :=
| ex_end md st : exec md st [] st true
| ex_abandon md st ss : exec md st ss st false
| ex_outside md st x old t ss st' c : Forall (fun s => s ∈ ds_leaked st) t ->
    dlookup x (ds_env st) = Some old ->
    exec md (with_env (dupdate x (old ++ t) (ds_env st)) st) ss st' c -> exec md st ss st' c
(** A captured variable is read by the closure. *)
| ex_captured md st x t ss st' c : x ∈ md_captured md -> dlookup x (ds_env st) = Some t ->
    exec md (leak t st) ss st' c -> exec md st ss st' c
| ex_next md st s ss st1 st2 c : exec1 md st s st1 -> exec md st1 ss st2 c ->
    exec md st (s :: ss) st2 c
with exec1 : Mode -> DState -> Stmt -> DState -> Prop :=
| x1_block md st s ss st' c : (s = BlockStmt ss \/ s = UnsafeStmt ss \/ s = ArenaBlock ss) ->
    exec md st ss st' c -> exec1 md st s (leave st st')
| x1_expr md st e st' : exec_expr md st e st' -> exec1 md st (ExprStmt e) st'
| x1_if md st e th el t l ss st' c : eval md (ds_env st) e t l -> ss = th \/ ss = el ->
    exec md (leak l st) ss st' c -> exec1 md st (IfStmt e th el) (leave st st')
| x1_iflet md st x e th el t l st' c : eval md (ds_env st) e t l ->
    exec md (bind_opt md x t (leak l st)) th st' c ->
    exec1 md st (IfLetStmt x e th el) (leave st st')
| x1_iflet_else md st x e th el t l st' c : eval md (ds_env st) e t l ->
    exec md (leak l st) el st' c -> exec1 md st (IfLetStmt x e th el) (leave st st')
| x1_range md st k v e body t l st' : eval md (ds_env st) e t l ->
    range_loop md k v t body (leak l st) st' -> exec1 md st (ForRangeStmt k v e body) (leave st st')
| x1_for md st init cond post body st1 st2 : exec md st init st1 true ->
    for_loop md cond post body st1 st2 -> exec1 md st (ForStmt init cond post body) (leave st st2)
| x1_return md st vs ts l : evals md (ds_env st) vs ts l ->
    exec1 md st (ReturnStmt vs) (give_back (concat ts) (leak l st))
| x1_go md st id fn args sp tf lf ts l : eval md (ds_env st) fn tf lf ->
    evals md (ds_env st) args ts l ->
    exec1 md st (GoStmt (CallExpr id fn args sp)) (leak (tf ++ concat ts ++ lf ++ l) st)
| x1_go_value md st e t l : eval md (ds_env st) e t l ->
    (forall id fn args sp, e <> CallExpr id fn args sp) -> exec1 md st (GoStmt e) (leak (t ++ l) st)
| x1_defer md st e t l : eval md (ds_env st) e t l -> exec1 md st (DeferStmt e) (leak l st)
| x1_jump md st s : s = BreakStmt \/ s = ContinueStmt -> exec1 md st s st
| x1_declare md st s xs vs ts l : s = VarDecl xs vs \/ s = ConstDecl xs vs ->
    evals md (ds_env st) vs ts l ->
    exec1 md st s (bind_all md xs (spread_values xs ts) (leak l st))
| x1_short md st tgts vs xs ts l : tgts = map Identifier xs -> evals md (ds_env st) vs ts l ->
    exec1 md st (MultiAssign tgts vs true) (bind_all md xs (spread_values xs ts) (leak l st))
| x1_assign md st tgts vs ts l st' : evals md (ds_env st) vs ts l ->
    assigns md (leak l st) tgts (spread_values tgts ts) st' ->
    exec1 md st (MultiAssign tgts vs false) st'
| x1_switch md st tag cases k t l ts ls es body st' c : eval md (ds_env st) tag t l ->
    evals md (ds_env st) (concat (map fst (take k cases))) ts ls ->
    (es, body) ∈ cases -> exec md (leak (ls ++ l) st) body st' c ->
    exec1 md st (SwitchStmt tag cases) (leave st st')
| x1_switch_none md st tag cases t l ts ls : eval md (ds_env st) tag t l ->
    evals md (ds_env st) (concat (map fst cases)) ts ls ->
    exec1 md st (SwitchStmt tag cases) (leak (ls ++ l) st)
| x1_type_switch md st e x cases t l body st' c : eval md (ds_env st) e t l -> body ∈ cases ->
    exec md (bind_opt md x t (leak l st)) body st' c ->
    exec1 md st (TypeSwitch e x cases) (leave st st')
| x1_type_switch_none md st e x cases t l : eval md (ds_env st) e t l ->
    exec1 md st (TypeSwitch e x cases) (leak l st)
| x1_select md st cases head body st1 st' c : (head, body) ∈ cases ->
    exec_expr md st (sc_comm head) st1 -> exec md st1 body st' c ->
    exec1 md st (SelectStmt cases) (leave st st')
| x1_assert md st e m te le tm lm : eval md (ds_env st) e te le -> eval md (ds_env st) m tm lm ->
    exec1 md st (AssertStmt e m) (leak (lm ++ le) st)
| x1_assume md st e t l : eval md (ds_env st) e t l -> exec1 md st (AssumeStmt e) (leak l st)
| x1_unknown md st l : Forall (fun s => s < md_width md) l -> exec1 md st OtherStmt (leak l st)
with for_loop : Mode -> Expr -> list Stmt -> list Stmt -> DState -> DState -> Prop :=
| fl_done md cond post body st : for_loop md cond post body st st
| fl_test md cond post body st t l : eval md (ds_env st) cond t l ->
    for_loop md cond post body st (leak l st)
| fl_next md cond post body st t l st1 c st2 c2 st3 : eval md (ds_env st) cond t l ->
    exec md (leak l st) body st1 c -> exec md (leave st st1) post st2 c2 ->
    for_loop md cond post body (leave st st2) st3 -> for_loop md cond post body st st3
with range_loop : Mode -> option string -> option string -> list nat -> list Stmt -> DState -> DState -> Prop :=
| rl_done md k v t body st : range_loop md k v t body st st
| rl_next md k v t body st st1 c st2 :
    exec md (bind_opt md v t (bind_opt md k [] st)) body st1 c ->
    range_loop md k v t body (leave st st1) st2 -> range_loop md k v t body st st2.
End Semantics.

Scheme eval_mut := Minimality for eval Sort Prop
  with evals_mut := Minimality for evals Sort Prop
  with assign_mut := Minimality for assign Sort Prop
  with assigns_mut := Minimality for assigns Sort Prop
  with exec_expr_mut := Minimality for exec_expr Sort Prop
  with exec_mut := Minimality for exec Sort Prop
  with exec1_mut := Minimality for exec1 Sort Prop
  with for_loop_mut := Minimality for for_loop Sort Prop
  with range_loop_mut := Minimality for range_loop Sort Prop.
Combined Scheme executions_ind from eval_mut, evals_mut, assign_mut, assigns_mut, exec_expr_mut,
  exec_mut, exec1_mut, for_loop_mut, range_loop_mut.
