(* ===== verification/EscapeSound.v ===== *)
(** * EscapeSound: what the analyses call non-escaping does not leak.

    [checks] is the fragment for which this holds: names declared in a unit are not also used
    for something outside it, library and function names are not shadowed, stores go through a
    path that starts at a name, and a value stored through an index of a local shares no slot
    with it beyond what it took from it.  [simulation] is the induction over executions; the
    theorems for [Param] and [Local] follow, and at the end what happens outside the fragment. *)
From Stdlib Require Import ZArith Lia Ascii String Bool.
From stdpp Require Import base list numbers option strings sets.
From S2P Require Import Prelude Token Escape EscapePasses EscapeFacts EscapeSem.

(** ** The fragment *)
Definition mem (x : string) (xs : list string) : bool := existsb (fun y => (y =? x)%string) xs.

(** The names whose values an expression's value may be made of. *)
Fixpoint value_names (e : Expr) : list string :=
  match e with
  | Identifier x => [x]
  | BinaryExpr _ l r => value_names l ++ value_names r
  | UnaryExpr _ _ e | PostfixExpr e | SelectorExpr e _ | KeyedElement e | SliceConversion e
  | TypeAssert e | IndexExpr e _ => value_names e
  | SliceIndexExpr e lo hi => value_names e ++ value_names lo ++ value_names hi
  | CallExpr _ fn args _ =>
      match fn with Identifier _ => [] | _ => value_names fn end ++ flat_map value_names args
  | FuncLit _ xs => xs
  | StructLiteral es | SliceLit es | ArrayLit es => flat_map value_names es
  | MapLit ks vs => flat_map value_names ks ++ flat_map value_names vs
  | ENull | Literal | OtherExpr => []
  end.

Fixpoint disjoint_bits (a b : TaintSet) : bool :=
  match a, b with x :: a, y :: b => negb (x && y) && disjoint_bits a b | _, _ => true end.

(** A store through an index of the local [m]: the other names in the value share no slot with
    it; [m] itself may be among them unless it can change before the store. *)
Definition store_ok (E : LocalEnv) (strict : bool) (lhs : Expr) (names : list string) : bool :=
  match lhs with
  | IndexExpr (Identifier m) _ =>
      match escape_env_find E m with
      | Some base =>
          forallb (fun y => (negb strict && (y =? m)%string) ||
            match escape_env_find E y with Some t => disjoint_bits t base | None => true end) names
      | None => true
      end
  | _ => true
  end.

Fixpoint simple_place (e : Expr) : bool :=
  match e with
  | Identifier _ | ENull => true
  | IndexExpr e _ | SelectorExpr e _ | UnaryExpr _ _ e => simple_place e
  | _ => false
  end.

Definition is_name (e : Expr) : bool := match e with Identifier _ => true | _ => false end.

Section Checks.
  Context (D : list string) (E : LocalEnv).

(** An assigned name is in scope, or no name of the unit. *)
Definition place_ok (sc : list string) (strict : bool) (names : list string) (lhs : Expr) : bool :=
  match lhs with
  | Identifier x => (x =? "_")%string || mem x sc || negb (mem x D)
  | _ => simple_place lhs && store_ok E strict lhs names
  end.

Definition check_expr (sc : list string) (e : Expr) : bool :=
  match e with
  | BinaryExpr op l r => if is_assign_op op then place_ok sc false (value_names r) l else true
  | _ => true
  end.

Definition check_seq (check : Stmt -> list string -> option (list string)) :=
  fix go (ss : list Stmt) (sc : list string) : option (list string) :=
    match ss with
    | [] => Some sc
    | s :: ss => match check s sc with Some sc => go ss sc | None => None end
    end.

(** Nested code is checked in its own scope. *)
Definition scoped (r : option (list string)) : bool := match r with Some _ => true | None => false end.

(** The names in scope behind the statement; [None] outside the fragment. *)
Fixpoint checks (s : Stmt) (sc : list string) : option (list string) :=
  let all ss sc := scoped (check_seq checks ss sc) in
  let keep (b : bool) := if b then Some sc else None in
  match s with
  | BlockStmt ss | UnsafeStmt ss | ArenaBlock ss => keep (all ss sc)
  | ExprStmt e => keep (check_expr sc e)
  | IfStmt _ th el => keep (all th sc && all el sc)
  | IfLetStmt x _ th el => keep (all th (option_name x ++ sc) && all el sc)
  | ForRangeStmt k v _ b => keep (all b (option_name v ++ option_name k ++ sc))
  | ForStmt i _ p b =>
      keep (match check_seq checks i sc with Some sc1 => all b sc1 && all p sc1 | None => false end)
  | VarDecl xs _ | ConstDecl xs _ => Some (xs ++ sc)
  | MultiAssign ts _ true => if forallb is_name ts then Some (flat_map name_of ts ++ sc) else None
  | MultiAssign ts vs false => keep (forallb (place_ok sc (existsb is_name ts) (flat_map value_names vs)) ts)
  | SwitchStmt _ cs => keep (forallb (fun c => all (snd c) sc) cs)
  | TypeSwitch _ x cs => keep (forallb (fun b => all b (option_name x ++ sc)) cs)
  | SelectStmt cs => keep (forallb (fun c => check_expr sc (sc_comm (fst c)) && all (snd c) sc) cs)
  | _ => Some sc
  end.

Definition check_list (ss : list Stmt) (sc : list string) : option (list string) :=
  check_seq checks ss sc.
End Checks.

(** Names no unit may declare: functions of the program, known builtins, library packages. *)
Definition reserved (P : Program) (x : string) : bool :=
  mem x (function_names P) || is_nonretaining_builtin x || (x =? "append")%string ||
  mem x (map sh_pkg SHIM_TABLE).

Lemma mem_spec x xs : mem x xs = true <-> x ∈ xs.
Proof.
  unfold mem. rewrite existsb_exists. split.
  - intros (y&Hy&E). apply String.eqb_eq in E as ->. by apply list_elem_of_In.
  - intros H. exists x. split; [by apply list_elem_of_In|apply String.eqb_refl].
Qed.

Lemma mem_false x xs : mem x xs = false <-> x ∉ xs.
Proof. rewrite <- mem_spec. by destruct (mem x xs). Qed.

Lemma dlookup_in x r t : dlookup x r = Some t -> (x, t) ∈ r.
Proof.
  induction r as [|[y u] r IH]; simpl; [done|]. destruct (String.eqb_spec y x) as [->|].
  - intros [= ->]. by left.
  - intros H. right. auto.
Qed.

Lemma dlookup_none x r : dlookup x r = None <-> x ∉ map fst r.
Proof.
  induction r as [|[y u] r IH]; simpl; [rewrite elem_of_nil; tauto|]. rewrite elem_of_cons.
  destruct (String.eqb_spec y x) as [->|]; [naive_solver|]. rewrite IH. naive_solver.
Qed.

Lemma dupdate_in x t r y u : (y, u) ∈ dupdate x t r -> (y, u) ∈ r \/ (y = x /\ u = t).
Proof.
  induction r as [|[z v] r IH]; simpl; [by left|]. destruct (String.eqb_spec z x) as [->|]; rewrite !elem_of_cons.
  - naive_solver.
  - naive_solver.
Qed.

Lemma dupdate_names x t r : map fst (dupdate x t r) = map fst r.
Proof. induction r as [|[z v] r IH]; simpl; [done|]. destruct (z =? x)%string; simpl; congruence. Qed.

(** ** Units *)
(** A unit of one of the passes at its fixpoint: the final environment and reasons, and the names
    it declares. *)
Record AUnit : Type := mkAUnit {
  au_owner : Type;
  au_hooks : EscapeHooks au_owner;
  au_n : nat;
  au_ok : au_owner -> Prop;
  au_returned : au_owner -> Prop;
  au_stamp : string -> TaintSet -> TaintSet;
  au_summary : string -> option (list bool * bool);
  au_lawful : LawfulHooks au_hooks au_n au_ok au_stamp au_summary (fun _ => None) au_returned;
  au_env : LocalEnv;
  au_reasons : Reasons;
  au_names : list string
}.

#[local] Existing Instance au_lawful.

Section Simulation.
  Context (P : Program) (sums : list ParamEscapeSummary).

(** The unit is one of this program, run in the mode [md]. *)
Record fits (md : Mode) (U : AUnit) : Prop := {
  ft_width : md_width md = au_n U;
  ft_wide : env_wide (au_n U) (au_env U);
  ft_length : length (au_reasons U) = au_n U;
  ft_stamp : forall x t s, s ∈ md_stamp md x -> length t = au_n U -> bit (au_stamp U x t) s;
  ft_names : forall x, x ∈ map lv_name (au_env U) -> x ∈ au_names U;
  ft_reserved : forall x, x ∈ au_names U -> reserved P x = false;
  ft_summary : forall f, au_summary U f = finished_retention (Some sums) f;
  ft_captured : forall x t, x ∈ md_captured md -> escape_env_find (au_env U) x = Some t ->
    forall s, bit t s -> marked (au_reasons U) s
}.

Definition all_marked (U : AUnit) (l : list nat) : Prop := forall s, s ∈ l -> marked (au_reasons U) s.

Definition env_bit (U : AUnit) (x : string) (s : nat) : Prop :=
  exists t, escape_env_find (au_env U) x = Some t /\ bit t s.

Record covers_env (U : AUnit) (r : DEnv) : Prop := {
  ce_bits : forall x t s, (x, t) ∈ r -> s ∈ t -> env_bit U x s \/ marked (au_reasons U) s;
  ce_names : forall x, x ∈ map fst r -> x ∈ au_names U
}.

Record covers (U : AUnit) (sc : list string) (st : DState) : Prop := {
  cv_env : covers_env U (ds_env st);
  cv_leaked : all_marked U (ds_leaked st);
  cv_returned : all_marked U (ds_returned st);
  cv_scope : forall x, x ∈ sc -> x <> "_" -> x ∈ map fst (ds_env st)
}.

(** The static set covers the dynamic one. *)
Definition tin (U : AUnit) (tt : TaintSet) (t : list nat) : Prop :=
  forall s, s ∈ t -> bit tt s \/ marked (au_reasons U) s.

Definition pre (U : AUnit) (w : Walk (au_owner U)) : Prop :=
  env_wide (au_n U) (w_env w) /\ au_ok U (w_owner w).

(** A walk within the last, unchanging one. *)
Record below (U : AUnit) (w : Walk (au_owner U)) : Prop := {
  bl_env : w_env w = au_env U;
  bl_changed : w_changed w = false;
  bl_ok : au_ok U (w_owner w);
  bl_reasons : rs_le (w_reasons w) (au_reasons U)
}.

Definition grew_any (U : AUnit) := grew (au_n U) (au_ok U) (au_returned U) (fun _ => True).

Lemma below_back U w w' : pre U w -> grew_any U w w' -> below U w' -> below U w.
  Proof using.
    intros [_ Hok] [] [He Hc Ho Hr]. constructor; [| |done|by etrans].
    - rewrite <- He. symmetry. by apply gr_same.
    - destruct (w_changed w); [|done]. by rewrite gr_changed in Hc.
  Qed.

(** A step of the walk that only adds. *)
Definition steady (U : AUnit) (f : Walk (au_owner U) -> Walk (au_owner U)) : Prop :=
  forall w, pre U w -> pre U (f w) /\ (below U (f w) -> below U w).

Lemma steady_grew U f : (forall w, pre U w -> grew_any U w (f w)) -> steady U f.
  Proof using.
    intros H w Hw. pose proof (H w Hw) as Hg. split; [by destruct Hg|]. by apply below_back.
  Qed.

Lemma steady_comp U f g : steady U f -> steady U g -> steady U (fun w => g (f w)).
  Proof using.
    intros Hf Hg w Hw. destruct (Hf w Hw) as [H1 H2]. destruct (Hg _ H1) as [H3 H4]. auto.
  Qed.

Lemma closed U w : let Q := grew_any U w in
    (forall w, Q w -> env_wide (au_n U) (w_env w)) /\
    (forall w rs, Q w -> rs_le (w_reasons w) rs -> Q (set_reasons w rs)) /\
    (forall w x t, Q w -> True -> length t = au_n U -> Q (walk_bind (au_hooks U) w x t)) /\
    (forall w x old t, Q w -> escape_env_find (w_env w) x = Some old -> length t = au_n U ->
      Q (mkWalk (env_update (w_env w) x (taint_union old t)) (w_reasons w) (w_owner w)
        (w_changed w || taint_grows old t))) /\
    (forall w t, Q w ->
      Q (mkWalk (w_env w) (w_reasons w) (on_return (au_hooks U) (w_owner w) t) (w_changed w))).
  Proof using.
    exact (grew_closed (au_hooks U) (au_n U) (au_ok U) (au_returned U) (au_stamp U) (au_summary U)
             (fun _ => None) (fun _ => True) w).
  Qed.

Lemma grew_any_refl U w : pre U w -> grew_any U w w.
  Proof using. intros [? ?]. by apply grew_refl. Qed.

Local Ltac closed_from w :=
  let H := fresh in pose proof (grew_any_refl _ w ltac:(eassumption)) as H;
  destruct (closed _ w) as (?&?&?&?&?).

Lemma taint_steady U e w : pre U w ->
    length (fst (walk_taint (au_hooks U) (au_n U) w e)) = au_n U /\
    pre U (snd (walk_taint (au_hooks U) (au_n U) w e)) /\
    (below U (snd (walk_taint (au_hooks U) (au_n U) w e)) -> below U w).
  Proof using.
    intros Hw. closed_from w.
    destruct (walk_taint_pres (au_hooks U) (au_n U) (grew_any U w) ltac:(assumption) ltac:(assumption) w e)
      as [H6 H7]; [done|]. split; [done|]. split; [by destruct H7|by apply below_back].
  Qed.

Lemma expr_steady U e : steady U (fun w => walk_expr (au_hooks U) (au_n U) w e).
  Proof using. intros w Hw. by apply taint_steady. Qed.

Lemma mark_steady U t why : steady U (fun w => walk_mark w t why).
  Proof using. apply steady_grew. intros w Hw. closed_from w. by eapply walk_mark_pres. Qed.

Lemma bind_opt_steady U x t : length t = au_n U -> steady U (fun w => walk_bind_opt (au_hooks U) w x t).
  Proof using.
    intros Ht. apply steady_grew. intros w Hw. closed_from w.
    by eapply (walk_bind_opt_pres _ _ (fun _ => True)).
  Qed.

Lemma bind_steady U x t : length t = au_n U -> steady U (fun w => walk_bind (au_hooks U) w x t).
  Proof using. intros Ht. exact (bind_opt_steady U (Some x) t Ht). Qed.

Lemma union_steady U es t w : pre U w -> length t = au_n U ->
    length (fst (walk_union (au_hooks U) (au_n U) w es t)) = au_n U /\
    pre U (snd (walk_union (au_hooks U) (au_n U) w es t)) /\
    (below U (snd (walk_union (au_hooks U) (au_n U) w es t)) -> below U w).
  Proof using.
    intros Hw Ht. closed_from w.
    destruct (walk_union_pres (au_hooks U) (au_n U) (grew_any U w) ltac:(assumption) ltac:(assumption) es w t)
      as [H6 H7]; [done|done|]. split; [done|]. split; [by destruct H7|by apply below_back].
  Qed.

Lemma assign_steady U lhs t : length t = au_n U ->
    steady U (fun w => assign_to_lvalue (au_hooks U) (au_n U) w lhs t).
  Proof using.
    intros Ht. apply steady_grew. intros w Hw. closed_from w. by eapply assign_pres.
  Qed.

Lemma expr_stmt_steady U e : steady U (fun w => escape_walk_expr_stmt (au_hooks U) (au_n U) w e).
  Proof using. apply steady_grew. intros w Hw. closed_from w. by eapply expr_stmt_pres. Qed.

Lemma list_steady U ss : steady U (escape_walk_stmt (au_hooks U) (au_n U) ss).
  Proof using.
    apply steady_grew. intros w Hw. closed_from w.
    by eapply (walk_stmt_preserves _ _ (fun _ => True)).
  Qed.

Lemma one_steady U s : steady U (escape_walk_one (au_hooks U) (au_n U) s).
  Proof using.
    apply steady_grew. intros w Hw. closed_from w.
    by eapply (walk_preserves _ _ (fun _ => True)).
  Qed.

Lemma in_order_steady {A} U (f : A -> Walk (au_owner U) -> Walk (au_owner U)) xs :
    (forall x, x ∈ xs -> steady U (f x)) -> steady U (in_order f xs).
  Proof using.
    induction xs as [|x xs IH]; intros Hf w Hw; simpl; [done|].
    apply (steady_comp U (f x) (in_order f xs)); [apply Hf; by left| |done].
    apply IH. intros y Hy. apply Hf. by right.
  Qed.

Lemma fold_steady {A} U (f : Walk (au_owner U) -> A -> Walk (au_owner U)) xs :
    (forall x, x ∈ xs -> steady U (fun w => f w x)) -> steady U (fun w => fold_left f xs w).
  Proof using.
    induction xs as [|x xs IH]; intros Hf w Hw; simpl; [done|].
    apply (steady_comp U (fun w => f w x) (fun w => fold_left f xs w)); [apply Hf; by left| |done].
    apply IH. intros y Hy. apply Hf. by right.
  Qed.

(** ** Expressions *)
Local Abbreviation taint_in U o := (escape_expr_taint (au_hooks U) (au_n U) (au_env U) o).
Local Abbreviation go_in U o := (handle_go_call (au_hooks U) (au_n U) (au_env U) o).
Local Abbreviation place_in U o := (mark_lvalue_subscripts (au_hooks U) (au_n U) (au_env U) o).

(** Where the slots of a value come from: names of the expression, or they have leaked. *)
Definition from (U : AUnit) (r : DEnv) (names : list string) (t : list nat) : Prop :=
    forall s, s ∈ t -> marked (au_reasons U) s \/
      exists y ty, y ∈ names /\ dlookup y r = Some ty /\ s ∈ ty.

(** What the induction shows of an evaluated expression: its taint covers the tags, the leaks
    are marked; the same when only the subscripts of a place are looked at; and handed to a
    goroutine, all of it is marked. *)
Record got (U : AUnit) (r : DEnv) (e : Expr) (tt : TaintSet) (t l : list nat) : Prop := {
  got_taint : tin U tt t;
  got_leaks : all_marked U l;
  got_from : from U r (value_names e) t
}.

Local Abbreviation settles U rs := (rs_le rs (au_reasons U)).

Record goal_eval (md : Mode) (r : DEnv) (e : Expr) (t l : list nat) : Prop := {
  ge_taint U o rs : fits md U -> covers_env U r -> au_ok U o -> length rs = au_n U ->
    settles U (snd (taint_in U o e rs)) -> got U r e (fst (taint_in U o e rs)) t l;
  ge_go U o rs why : fits md U -> covers_env U r -> au_ok U o -> length rs = au_n U ->
    settles U (go_in U o e why rs) -> all_marked U (t ++ l);
  ge_place U o rs : fits md U -> covers_env U r -> au_ok U o -> length rs = au_n U ->
    simple_place e = true ->
    settles U (place_in U o e rs) -> all_marked U l
}.

Definition goal_evals md r es ts l : Prop :=
    exists ls, l = concat ls /\ Forall3 (goal_eval md r) es ts ls.

Lemma all_marked_app U l1 l2 : all_marked U (l1 ++ l2) <-> all_marked U l1 /\ all_marked U l2.
  Proof using. unfold all_marked. setoid_rewrite elem_of_app. naive_solver. Qed.

Lemma all_marked_nil U : all_marked U [].
  Proof using. by intros s ?%elem_of_nil. Qed.

Lemma all_marked_sub U l1 l2 : (forall s, s ∈ l1 -> s ∈ l2) -> all_marked U l2 -> all_marked U l1.
  Proof using. intros H H2 s Hs. auto. Qed.

Lemma taint_in_ok md U o e rs : fits md U ->
    length (fst (taint_in U o e rs)) = au_n U /\ rs_le rs (snd (taint_in U o e rs)).
  Proof using. intros Hf. apply expr_taint_ok. apply (ft_wide _ _ Hf). Qed.

Lemma taints_in_ok md U o es rs : fits md U ->
    Forall (fun t => length t = au_n U) (fst (expr_taints (taint_in U o) es rs)) /\
    rs_le rs (snd (expr_taints (taint_in U o) es rs)).
  Proof using.
    intros Hf. apply taints_ok. apply Forall_forall. intros x _ rs'. by apply (taint_in_ok md).
  Qed.

Lemma le_length (n : nat) (a b : Reasons) : rs_le a b -> length a = n -> length b = n.
  Proof using. intros [-> _]. done. Qed.

Lemma marked_le a b i : rs_le a b -> marked a i -> marked b i.
  Proof using. intros [_ H]. apply H. Qed.

(** A marked set: what it covers is marked. *)
Lemma tin_marked U tt t why rs : length rs = au_n U -> length tt = au_n U ->
    settles U (escape_mark tt why rs) -> tin U tt t -> all_marked U t.
  Proof using.
    intros Hn Htt Hle Hin s Hs. destruct (Hin s Hs) as [Hb|]; [|done].
    eapply marked_le; [exact Hle|]. apply escape_mark_marks; [done|]. apply bit_lt in Hb. lia.
  Qed.

Lemma tin_mono U tt tt' t : (forall i, bit tt i -> bit tt' i) -> tin U tt t -> tin U tt' t.
  Proof using. intros H Ht s Hs. destruct (Ht s Hs); auto. Qed.

Lemma tin_sub U tt t t' : (forall s, s ∈ t' -> s ∈ t) -> tin U tt t -> tin U tt t'.
  Proof using. intros H Ht s Hs. auto. Qed.

Lemma tin_nil U tt : tin U tt [].
  Proof using. by intros s ?%elem_of_nil. Qed.

Lemma tin_app U tt t1 t2 : tin U tt t1 -> tin U tt t2 -> tin U tt (t1 ++ t2).
  Proof using. intros H1 H2 s [?|?]%elem_of_app; auto. Qed.

Lemma tin_all_marked U tt t : all_marked U t -> tin U tt t.
  Proof using. intros H s Hs. right. auto. Qed.

Lemma tin_union_l U a b t : tin U a t -> tin U (taint_union a b) t.
  Proof using. apply tin_mono. intros i Hi. apply bit_union. by left. Qed.

Lemma tin_union_r U a b t : length a = length b -> tin U b t -> tin U (taint_union a b) t.
  Proof using. intros E. apply tin_mono. intros i Hi. apply bit_union_eq; [done|by right]. Qed.

(** The union of the elements' taints covers all of their tags. *)
Lemma tin_union_all U n tts ts : Forall (fun t => length t = n) tts -> Forall2 (tin U) tts ts ->
    tin U (taint_union_all n tts) (concat ts).
  Proof using.
    intros Hw H s Hs. apply list_elem_of_In, in_concat in Hs as (t&Ht&Hs).
    apply list_elem_of_In in Ht, Hs. apply list_elem_of_lookup in Ht as [i Ht].
    destruct (Forall2_lookup_r _ _ _ _ _ H Ht) as (tt&Htt&Hin). destruct (Hin s Hs) as [Hb|]; [|by right].
    left. apply bit_union_all; [done|]. exists tt. split; [by eapply list_elem_of_lookup_2|done].
  Qed.

Lemma from_app U r n1 n2 t1 t2 : from U r n1 t1 -> from U r n2 t2 -> from U r (n1 ++ n2) (t1 ++ t2).
  Proof using. intros H1 H2 s [Hs|Hs]%elem_of_app; [destruct (H1 s Hs)|destruct (H2 s Hs)]; set_solver. Qed.

Lemma from_nil U r names : from U r names [].
  Proof using. by intros s ?%elem_of_nil. Qed.

Lemma from_sub U r names names' t t' : (forall y, y ∈ names -> y ∈ names') -> (forall s, s ∈ t' -> s ∈ t) ->
    from U r names t -> from U r names' t'.
  Proof using. intros Hn Ht H s Hs. destruct (H s (Ht s Hs)); set_solver. Qed.

Lemma from_all_marked U r names t : all_marked U t -> from U r names t.
  Proof using. intros H s Hs. left. auto. Qed.

(** A list of expressions. *)
Lemma taints_covered md U r o es ts ls rs : fits md U -> covers_env U r -> au_ok U o ->
    Forall3 (goal_eval md r) es ts ls -> length rs = au_n U ->
    settles U (snd (expr_taints (taint_in U o) es rs)) ->
    Forall2 (tin U) (fst (expr_taints (taint_in U o) es rs)) ts /\ all_marked U (concat ls) /\
    from U r (flat_map value_names es) (concat ts).
  Proof using.
    intros Hf Hr Ho H. revert rs. induction H as [|e t l es ts ls He H IH]; intros rs Hn Hle; simpl in *.
    { split_and!; [constructor|apply all_marked_nil|apply from_nil]. }
    destruct (taint_in_ok md U o e rs Hf) as [H1 H2].
    pose proof (ge_taint _ _ _ _ _ He U o rs Hf Hr Ho Hn) as He'.
    destruct (taint_in U o e rs) as [tt rs1]. simpl in *.
    destruct (taints_in_ok md U o es rs1 Hf) as [_ H3].
    specialize (IH rs1 (le_length _ _ _ H2 Hn)). destruct (expr_taints (taint_in U o) es rs1) as [tts rs2].
    simpl in *. destruct (IH Hle) as (IH1&IH2&IH3). destruct He' as [Ht Hl Hfr]; [by etrans|].
    split_and!; [by constructor|by apply all_marked_app|by apply from_app].
  Qed.

Lemma go_args_le md U o why es rs : fits md U ->
    rs_le rs (fold_left (fun rs a => let '(t, rs) := taint_in U o a rs in escape_mark t why rs) es rs).
  Proof using.
    intros Hf. revert rs. induction es as [|a es IH]; intros rs; simpl; [done|].
    destruct (taint_in_ok md U o a rs Hf) as [_ H]. destruct (taint_in U o a rs) as [ta rs3]. simpl in *.
    etrans; [exact H|]. etrans; [apply (escape_mark_le ta why)|apply IH].
  Qed.

Lemma go_args_covered md U r o es ts ls why rs : fits md U -> covers_env U r -> au_ok U o ->
    Forall3 (goal_eval md r) es ts ls -> length rs = au_n U ->
    settles U (fold_left (fun rs a => let '(t, rs) := taint_in U o a rs in escape_mark t why rs) es rs) ->
    all_marked U (concat ts) /\ all_marked U (concat ls).
  Proof using.
    intros Hf Hr Ho H. revert rs. induction H as [|e t l es ts ls He H IH]; intros rs Hn Hle; simpl in *.
    { split; apply all_marked_nil. }
    destruct (taint_in_ok md U o e rs Hf) as [H1 H2].
    pose proof (ge_taint _ _ _ _ _ He U o rs Hf Hr Ho Hn) as He'.
    destruct (taint_in U o e rs) as [tt rs1]. simpl in *. pose proof (le_length _ _ _ H2 Hn) as Hn1.
    pose proof (escape_mark_le tt why rs1) as H3. pose proof (le_length _ _ _ H3 Hn1) as Hn2.
    pose proof (go_args_le md U o why es (escape_mark tt why rs1) Hf) as H4.
    assert (settles U (escape_mark tt why rs1)) as H5 by (by etrans).
    destruct (IH _ Hn2 Hle) as [IH1 IH2]. destruct He' as [Ht Hl _]; [by etrans|].
    rewrite !all_marked_app. split_and!; try done.
    exact (tin_marked U tt t why rs1 Hn1 H1 H5 Ht).
  Qed.

(** For anything but a call the goroutine case follows from the first. *)
Lemma go_from_taint md U r o e t l why rs : fits md U -> length rs = au_n U ->
    (settles U (snd (taint_in U o e rs)) -> got U r e (fst (taint_in U o e rs)) t l) ->
    (forall id fn args sp, e <> CallExpr id fn args sp) ->
    settles U (go_in U o e why rs) -> all_marked U (t ++ l).
  Proof using.
    intros Hf Hn H He Hle.
    assert (go_in U o e why rs = let '(t, rs) := taint_in U o e rs in escape_mark t why rs) as E.
    { unfold handle_go_call. destruct e; try done. by destruct (He id e args has_spread). }
    rewrite E in Hle. destruct (taint_in_ok md U o e rs Hf) as [H1 H2].
    destruct (taint_in U o e rs) as [tt rs1]. simpl in *.
    destruct H as [H3 H4 _]; [etrans; [apply (escape_mark_le tt why)|exact Hle]|].
    apply all_marked_app. split; [|done].
    eapply (tin_marked U tt); [exact (le_length _ _ _ H2 Hn)|exact H1|exact Hle|exact H3].
  Qed.

Lemma place_le md U o e rs : fits md U -> rs_le rs (place_in U o e rs).
  Proof using. intros Hf. apply subscripts_le. apply (ft_wide _ _ Hf). Qed.

Lemma site_none U o id : au_ok U o -> source_slot (au_hooks U) o id = None.
  Proof using. intros Ho. exact (lh_site (LawfulHooks := au_lawful U) o id Ho). Qed.

(** One expression, not a call: three obligations at once. *)
Lemma goal_plain md r e t l : (forall id fn args sp, e <> CallExpr id fn args sp) ->
    (forall U o rs, fits md U -> covers_env U r -> au_ok U o -> length rs = au_n U ->
      settles U (snd (taint_in U o e rs)) -> got U r e (fst (taint_in U o e rs)) t l) ->
    (forall U o rs, fits md U -> covers_env U r -> au_ok U o -> length rs = au_n U ->
      simple_place e = true -> settles U (place_in U o e rs) -> all_marked U l) ->
    goal_eval md r e t l.
  Proof using.
    intros He Ht Hp. constructor; [exact Ht| |exact Hp]. intros U o rs why Hf Hr Ho Hn.
    apply (go_from_taint md U r); auto.
  Qed.

Lemma env_tin md U r o x rs : fits md U -> covers_env U r ->
    tin U (fst (taint_in U o (Identifier x) rs)) (default [] (dlookup x r)).
  Proof using.
    intros Hf Hr. destruct (dlookup x r) as [t|] eqn:E; [|apply tin_nil].
    intros s Hs. destruct (ce_bits _ _ Hr x t s (dlookup_in _ _ _ E) Hs) as [(tx&Hx&Hb)|]; [left|by right].
    simpl. by rewrite Hx.
  Qed.

Lemma goal_name md r x : goal_eval md r (Identifier x) (default [] (dlookup x r)) [].
  Proof using.
    apply goal_plain; [done| |].
    - intros U o rs Hf Hr Ho Hn Hle. constructor; [by eapply env_tin|apply all_marked_nil|].
      intros s Hs. right. destruct (dlookup x r) as [t|] eqn:E; [|by apply elem_of_nil in Hs].
      exists x, t. by split; [left|].
    - intros. apply all_marked_nil.
  Qed.

Lemma goal_inner md r e e' t l : inner e = Some e' -> goal_eval md r e' t l -> goal_eval md r e t l.
  Proof using.
    intros Hi IH. apply goal_plain; [by destruct e| |].
    - intros U o rs Hf Hr Ho Hn Hle.
      destruct e; try done; injection Hi as ->; simpl in *;
        try (by destruct (ge_taint _ _ _ _ _ IH U o rs Hf Hr Ho Hn Hle); constructor).
      rewrite (site_none U o id Ho) in *.
      pose proof (ge_taint _ _ _ _ _ IH U o rs Hf Hr Ho Hn) as IHt.
      destruct (taint_in U o e' rs) as [tt rs1]. simpl in *. by destruct (IHt Hle); constructor.
    - intros U o rs Hf Hr Ho Hn Hs Hle. destruct e; try done; injection Hi as ->; simpl in *; try done;
        exact (ge_place _ _ _ _ _ IH U o rs Hf Hr Ho Hn Hs Hle).
  Qed.

Lemma goal_index md r e i t l ti li : goal_eval md r e t l -> goal_eval md r i ti li ->
    goal_eval md r (IndexExpr e i) t (l ++ li).
  Proof using.
    intros IHe IHi. apply goal_plain; [done| |].
    - intros U o rs Hf Hr Ho Hn Hle. simpl in *.
      destruct (taint_in_ok md U o e rs Hf) as [_ H1].
      pose proof (ge_taint _ _ _ _ _ IHe U o rs Hf Hr Ho Hn) as He.
      destruct (taint_in U o e rs) as [tt rs1]. pose proof (le_length _ _ _ H1 Hn) as Hn1.
      destruct (taint_in_ok md U o i rs1 Hf) as [_ H2].
      pose proof (ge_taint _ _ _ _ _ IHi U o rs1 Hf Hr Ho Hn1) as Hi.
      destruct (taint_in U o i rs1) as [tti rs2]. simpl in *.
      destruct (Hi Hle). destruct He; [by etrans|]. constructor; [done|by apply all_marked_app|done].
    - intros U o rs Hf Hr Ho Hn Hs Hle. simpl in *.
      destruct (taint_in_ok md U o i rs Hf) as [_ H1].
      pose proof (ge_taint _ _ _ _ _ IHi U o rs Hf Hr Ho Hn) as Hi.
      destruct (taint_in U o i rs) as [tti rs1]. pose proof (le_length _ _ _ H1 Hn) as Hn1. simpl in *.
      pose proof (escape_mark_le tti ESCAPE_REASON_SUBSCRIPT_STORE rs1) as H2.
      pose proof (le_length _ _ _ H2 Hn1) as Hn2.
      pose proof (place_le md U o e (escape_mark tti ESCAPE_REASON_SUBSCRIPT_STORE rs1) Hf) as H3.
      apply all_marked_app. split; [exact (ge_place _ _ _ _ _ IHe U o _ Hf Hr Ho Hn2 Hs Hle)|].
      apply Hi. etrans; [exact H2|]. by etrans.
  Qed.

Lemma forall3_app_inv md r es1 es2 ts ls : Forall3 (goal_eval md r) (es1 ++ es2) ts ls ->
    exists ts1 ts2 ls1 ls2, ts = ts1 ++ ts2 /\ ls = ls1 ++ ls2 /\
      Forall3 (goal_eval md r) es1 ts1 ls1 /\ Forall3 (goal_eval md r) es2 ts2 ls2.
  Proof using.
    intros H. apply Forall3_app_inv_l in H as (ts1&ts2&ls1&ls2&->&->&H1&H2). eauto 10.
  Qed.

(** The value is the union over a list. *)
Lemma union_got md U r o e es ts ls rs : fits md U -> covers_env U r -> au_ok U o ->
    Forall3 (goal_eval md r) es ts ls -> length rs = au_n U -> value_names e = flat_map value_names es ->
    settles U (snd (expr_taints (taint_in U o) es rs)) ->
    got U r e (taint_union_all (au_n U) (fst (expr_taints (taint_in U o) es rs))) (concat ts) (concat ls).
  Proof using.
    intros Hf Hr Ho H Hn E Hle. destruct (taints_covered md U r o es ts ls rs Hf Hr Ho H Hn Hle) as (H1&H2&H3).
    constructor; [|done|by rewrite E]. apply tin_union_all; [|done]. by apply (taints_in_ok md U o es rs Hf).
  Qed.

Lemma taints_app U o es1 es2 rs :
    expr_taints (taint_in U o) (es1 ++ es2) rs =
    let '(t1, rs1) := expr_taints (taint_in U o) es1 rs in
    let '(t2, rs2) := expr_taints (taint_in U o) es2 rs1 in (t1 ++ t2, rs2).
  Proof using.
    revert rs. induction es1 as [|e es1 IH]; intros rs; simpl; [by destruct (expr_taints _ es2 rs)|].
    destruct (taint_in U o e rs) as [t rs1]. rewrite IH.
    destruct (expr_taints _ es1 rs1) as [t1 rs2]. by destruct (expr_taints _ es2 rs2).
  Qed.

(** Unions written out in the code. *)
Lemma union_two n a b : length a = n -> length b = n -> taint_union a b = taint_union_all n [a; b].
  Proof using.
    intros Ha Hb. unfold taint_union_all. simpl. f_equal. clear b Hb. revert n Ha.
    induction a as [|x a IH]; intros [|n] Ha; simplify_eq/=; [done|]. f_equal. by apply IH.
  Qed.

Lemma goal_elements md r e es ts l : elements e = Some es -> goal_evals md r es ts l ->
    goal_eval md r e (concat ts) l.
  Proof using.
    intros He (ls&->&H). apply goal_plain; [by destruct e| |].
    - intros U o rs Hf Hr Ho Hn Hle.
      assert (value_names e = flat_map value_names es) as Hv.
      { destruct e; simplify_eq/=; rewrite ?app_nil_r; try done. by rewrite flat_map_app. }
      pose proof (union_got md U r o e es ts ls rs Hf Hr Ho H Hn Hv) as HG.
      pose proof (taints_in_ok md U o es rs Hf) as [Hw _].
      destruct e; simplify_eq/=; try (by apply HG).
      + destruct (taint_in U o e1 rs) as [t1 rs1]. destruct (taint_in U o e2 rs1) as [t2 rs2]. simpl in *.
        rewrite (union_two (au_n U)); [by apply HG|by decompose_Forall_hyps|by decompose_Forall_hyps].
      + destruct (taint_in U o e1 rs) as [t1 rs1]. destruct (taint_in U o e2 rs1) as [t2 rs2].
        destruct (taint_in U o e3 rs2) as [t3 rs3]. simpl in *.
        rewrite (union_two (au_n U) t1 t2) by (by decompose_Forall_hyps). by apply HG.
      + destruct (expr_taints (taint_in U o) es rs) as [tts rs1]. by apply HG.
      + destruct (expr_taints (taint_in U o) es rs) as [tts rs1]. by apply HG.
      + destruct (expr_taints (taint_in U o) es rs) as [tts rs1]. by apply HG.
      + rewrite taints_app in HG. destruct (expr_taints (taint_in U o) keys rs) as [tk rs1].
        destruct (expr_taints (taint_in U o) values rs1) as [tv rs2]. by apply HG.
    - intros U o rs Hf Hr Ho Hn Hs Hle. destruct e; simplify_eq/=. inversion H. apply all_marked_nil.
  Qed.

Lemma goal_closure md r id xs : let t := concat (omap (fun x => dlookup x r) xs) in
    goal_eval md r (FuncLit id xs) t t.
  Proof using.
    intros t. apply goal_plain; [done| |done].
    intros U o rs Hf Hr Ho Hn Hle. simpl in *. rewrite (site_none U o id Ho) in *.
    assert (forall s, s ∈ t -> exists x tx, x ∈ xs /\ dlookup x r = Some tx /\ s ∈ tx) as Hin.
    { intros s Hs. apply list_elem_of_In, in_concat in Hs as (tx&Ht&Hs). apply list_elem_of_In in Ht, Hs.
      apply list_elem_of_omap in Ht as (x&Hx&E). eauto. }
    assert (tin U (captured_taint (au_n U) (au_env U) xs) t) as Htin.
    { intros s Hs. destruct (Hin s Hs) as (x&tx&Hx&E&Hst).
      destruct (ce_bits _ _ Hr x tx s (dlookup_in _ _ _ E) Hst) as [(tt&Htt&Hb)|]; [left|by right].
      apply bit_union_all.
      - apply Forall_forall. intros u Hu. apply list_elem_of_omap in Hu as (y&_&Hy).
        by eapply env_find_wide; [apply (ft_wide _ _ Hf)|].
      - exists tt. split; [|done]. apply list_elem_of_omap. eauto. }
    constructor; [done| |].
    - eapply (tin_marked U (captured_taint (au_n U) (au_env U) xs)); [exact Hn|apply length_union_all|exact Hle|done].
    - intros s Hs. right. destruct (Hin s Hs) as (x&tx&?&?&?). by exists x, tx.
  Qed.

Lemma goal_unknown md r t l : Forall (fun s => s < md_width md) (t ++ l) -> goal_eval md r OtherExpr t l.
  Proof using.
    intros Hb. apply goal_plain; [done| |done].
    intros U o rs Hf Hr Ho Hn Hle. simpl in *.
    assert (all_marked U (t ++ l)) as [H1 H2]%all_marked_app.
    { apply (tin_marked U (escape_taint_all (au_n U)) _ _ _ Hn (length_replicate _ _) Hle).
      intros s Hs. left. apply bit_all. rewrite <- (ft_width _ _ Hf). rewrite Forall_forall in Hb. auto. }
    constructor; [by apply tin_all_marked|done|by apply from_all_marked].
  Qed.

(** ** Calls *)
Lemma mark_args_marks U ret i ts rs j t : ts !! j = Some t -> fst (ret (i + j)) = true ->
    length rs = au_n U -> length t = au_n U -> settles U (mark_args ret i ts rs) ->
    forall s, bit t s -> marked (au_reasons U) s.
  Proof using.
    revert i j rs. induction ts as [|u ts IH]; intros i [|j] rs Ht Hr Hn Hw Hle s Hs; simplify_eq/=.
    - rewrite Nat.add_0_r in Hr. destruct (ret i) as [b why]. simpl in Hr. subst b.
      eapply marked_le; [exact Hle|]. eapply marked_le; [apply mark_args_le|].
      apply escape_mark_marks; [done|]. apply bit_lt in Hs. lia.
    - destruct (ret i) as [b why]. rewrite Nat.add_succ_r in Hr.
      assert (length (if b then escape_mark u why rs else rs) = au_n U) as Hn1.
      { destruct b; [|done]. eapply le_length; [apply escape_mark_le|done]. }
      exact (IH (S i) j _ Ht Hr Hn1 Hw Hle s Hs).
  Qed.

(** A call, taken apart: its arguments, its callee's value, and what [call_result] does with
    them given the callee's summary. *)
Lemma call_parts md U o id fn args sp rs : fits md U -> au_ok U o -> length rs = au_n U ->
    settles U (snd (taint_in U o (CallExpr id fn args sp) rs)) ->
    exists tts ct rs2, tts = fst (expr_taints (taint_in U o) args rs) /\
      settles U (snd (expr_taints (taint_in U o) args rs)) /\
      (ct, rs2) = callee_value (au_n U) (taint_in U o) fn (snd (expr_taints (taint_in U o) args rs)) /\
      settles U rs2 /\ length rs2 = au_n U /\ length ct = au_n U /\
      taint_in U o (CallExpr id fn args sp) rs =
        call_result (au_hooks U) (au_n U) (au_env U) o fn sp tts ct rs2 /\
      settles U (snd (call_result (au_hooks U) (au_n U) (au_env U) o fn sp tts ct rs2)).
  Proof using.
    intros Hf Ho Hn. simpl. rewrite (site_none U o id Ho). intros Hle.
    destruct (taints_in_ok md U o args rs Hf) as [_ H1].
    destruct (expr_taints (taint_in U o) args rs) as [tts rs1]. simpl in *.
    assert (rs_le rs1 (snd (callee_value (au_n U) (taint_in U o) fn rs1)) /\
      length (fst (callee_value (au_n U) (taint_in U o) fn rs1)) = au_n U) as [H2 H3].
    { destruct (taint_in_ok md U o fn rs1 Hf) as [H2 H3]. split; [by apply callee_value_le|].
      unfold callee_value. destruct fn; try apply length_replicate; by destruct (taint_in U o _ rs1). }
    destruct (callee_value (au_n U) (taint_in U o) fn rs1) as [ct rs2]. simpl in *.
    destruct (call_result_ok (au_hooks U) (au_n U) (au_env U) o fn sp tts ct rs2) as [_ H4].
    pose proof (le_length _ _ _ H1 Hn) as Hn1. pose proof (le_length _ _ _ H2 Hn1) as Hn2.
    exists tts, ct, rs2. split_and!; try done; etrans; try exact Hle; [by etrans|done].
  Qed.

Definition static_callee (U : AUnit) (fn : Expr) : option (list bool * bool) :=
    match callee_name fn with Some n => au_summary U n | None => None end.

Lemma call_result_eq U o fn sp ts ct rs : au_ok U o ->
    call_result (au_hooks U) (au_n U) (au_env U) o fn sp ts ct rs =
    let callee := static_callee U fn in
    let resolved := match callee with Some _ => true | None => false end in
    let whitelisted :=
      negb resolved && negb (selector_base_is_local (au_env U) fn) && goo_callee_is_non_retaining fn in
    let app := negb resolved && negb whitelisted && is_append fn && negb (selector_base_is_local (au_env U) fn) in
    (taint_union
       (if whitelisted then escape_taint_new (au_n U)
        else match callee with
             | Some (_, ret) => if ret then taint_union_all (au_n U) ts else escape_taint_new (au_n U)
             | None => taint_union_all (au_n U) ts
             end) ct,
     mark_args (arg_retention whitelisted app sp callee (length ts)) 0 ts rs).
  Proof using.
    intros Ho. unfold call_result, static_callee.
    assert ((match callee_name fn with Some n => callee_retention (au_hooks U) o n | None => None end) =
      match callee_name fn with Some n => au_summary U n | None => None end) as ->.
    { destruct (callee_name fn) as [n|]; [|done]. exact (lh_summary (LawfulHooks := au_lawful U) o n Ho). }
    assert (match callee_name fn with Some n => (n =? "append")%string | None => false end = is_append fn) as ->.
    { by destruct fn. }
    done.
  Qed.

(** The values in a list of arguments whose retention says they are kept. *)
Lemma args_marked U ret tts ts rs (keep : nat -> bool) : Forall2 (tin U) tts ts ->
    Forall (fun t => length t = au_n U) tts -> length rs = au_n U -> settles U (mark_args ret 0 tts rs) ->
    (forall i, i < length tts -> keep i = true -> fst (ret i) = true) ->
    forall i t, ts !! i = Some t -> keep i = true -> all_marked U t.
  Proof using.
    intros H Hw Hn Hle Hk i t Ht Hi s Hs. destruct (Forall2_lookup_r _ _ _ _ _ H Ht) as (tt&Htt&Hin).
    destruct (Hin s Hs) as [Hb|]; [|done].
    eapply (mark_args_marks U ret 0 tts rs i tt Htt); [|exact Hn| |exact Hle|exact Hb].
    - apply Hk; [|done]. by apply lookup_lt_Some in Htt.
    - exact (Forall_lookup_1 _ _ _ _ Hw Htt).
  Qed.

Lemma elem_of_concat (s : nat) ts : s ∈ concat ts <-> exists i t, ts !! i = Some t /\ s ∈ t.
  Proof using.
    rewrite <- list_elem_of_In, in_concat || rewrite list_elem_of_In, in_concat. split.
    - intros (t&Ht&Hs). apply list_elem_of_In in Ht, Hs. apply list_elem_of_lookup in Ht as [i Hi]. eauto.
    - intros (i&t&Ht&Hs). exists t. split; apply list_elem_of_In; [by eapply list_elem_of_lookup_2|done].
  Qed.

Lemma passed_from_elem (s : nat) k n slots ts : s ∈ passed_from k n slots ts <->
    exists i t, ts !! i = Some t /\ feeds n (k + i) ∈ slots /\ s ∈ t.
  Proof using.
    revert k. induction ts as [|t ts IH]; intros k; simpl.
    { rewrite elem_of_nil. split; [done|]. by intros (i&t&H&_). }
    rewrite elem_of_app, IH. split.
    - intros [H|(i&u&H1&H2&H3)].
      + case_bool_decide; [|by apply elem_of_nil in H]. exists 0, t. by rewrite Nat.add_0_r.
      + exists (S i), u. by rewrite Nat.add_succ_r.
    - intros ([|i]&u&H1&H2&H3); simplify_eq/=.
      + rewrite Nat.add_0_r in H2. left. by rewrite bool_decide_true.
      + rewrite Nat.add_succ_r in H2. right. by exists i, u.
  Qed.

Lemma go_call_parts md U r o id fn args sp ts ls why rs : fits md U -> covers_env U r -> au_ok U o ->
    Forall3 (goal_eval md r) args ts ls -> length rs = au_n U ->
    settles U (go_in U o (CallExpr id fn args sp) why rs) ->
    all_marked U (concat ts) /\ all_marked U (concat ls) /\
    settles U (escape_mark (fst (taint_in U o fn rs)) why (snd (taint_in U o fn rs))).
  Proof using.
    intros Hf Hr Ho H Hn Hle. simpl in Hle. destruct (taint_in_ok md U o fn rs Hf) as [_ H1].
    destruct (taint_in U o fn rs) as [ft rs1]. simpl in *.
    pose proof (le_length _ _ _ (escape_mark_le ft why rs1) (le_length _ _ _ H1 Hn)) as Hn2.
    destruct (go_args_covered md U r o args ts ls why _ Hf Hr Ho H Hn2 Hle). split_and!; try done.
    etrans; [apply (go_args_le md U o why args _ Hf)|exact Hle].
  Qed.

(** A call as a whole, from what holds of it as a value. *)
Lemma goal_of_call md r id fn args sp ts ls t l : Forall3 (goal_eval md r) args ts ls ->
    (forall U o rs tts ct rs2, fits md U -> covers_env U r -> au_ok U o -> length rs = au_n U ->
      Forall2 (tin U) tts ts -> Forall (fun t => length t = au_n U) tts -> all_marked U (concat ls) ->
      from U r (flat_map value_names args) (concat ts) ->
      (ct, rs2) = callee_value (au_n U) (taint_in U o) fn rs -> settles U rs2 ->
      length rs2 = au_n U -> length ct = au_n U ->
      settles U (snd (call_result (au_hooks U) (au_n U) (au_env U) o fn sp tts ct rs2)) ->
      got U r (CallExpr id fn args sp)
        (fst (call_result (au_hooks U) (au_n U) (au_env U) o fn sp tts ct rs2)) t l) ->
    (forall U o rs why, fits md U -> covers_env U r -> au_ok U o -> length rs = au_n U ->
      all_marked U (concat ts) -> all_marked U (concat ls) ->
      settles U (escape_mark (fst (taint_in U o fn rs)) why (snd (taint_in U o fn rs))) ->
      all_marked U (t ++ l)) ->
    goal_eval md r (CallExpr id fn args sp) t l.
  Proof using.
    intros H Ht Hg. constructor; [| |done].
    - intros U o rs Hf Hr Ho Hn Hle.
      destruct (call_parts md U o id fn args sp rs Hf Ho Hn Hle) as (tts&ct&rs2&->&H1&H2&H3&H4&H5&->&H6).
      destruct (taints_covered md U r o args ts ls rs Hf Hr Ho H Hn H1) as (H7&H8&H9).
      destruct (taints_in_ok md U o args rs Hf) as [Hw H0].
      eapply (Ht U o (snd (expr_taints (taint_in U o) args rs))); try done. by eapply le_length.
    - intros U o rs why Hf Hr Ho Hn Hle.
      destruct (go_call_parts md U r o id fn args sp ts ls why rs Hf Hr Ho H Hn Hle) as (H1&H2&H3).
      by eapply (Hg U o rs why).
  Qed.

Lemma from_call U r id fn args sp t ts : (forall s, s ∈ t -> s ∈ concat ts) ->
    from U r (flat_map value_names args) (concat ts) ->
    from U r (value_names (CallExpr id fn args sp)) t.
  Proof using.
    intros Ht. apply from_sub; [|done]. intros y Hy. simpl. apply elem_of_app. by right.
  Qed.

Lemma passed_concat fd slots ts (s : nat) : s ∈ passed fd slots ts -> s ∈ concat ts.
  Proof using. intros (i&t&?&_&?)%passed_from_elem. apply elem_of_concat. eauto. Qed.

(** A function of the program: its summary tells what its body did with the parameters.  A
    parameter that is returned is kept, too. *)
Lemma goal_call md r id f args sp fd ts l st esc ret :
    finished_retention (Some sums) f = Some (esc, ret) -> length esc = length (params_of fd) ->
    (forall i, i ∈ ds_leaked st ++ ds_returned st -> i < length esc -> esc !! i = Some true) ->
    goal_evals md r args ts l ->
    goal_eval md r (CallExpr id (Identifier f) args sp) (passed fd (ds_returned st) ts)
      (passed fd (ds_leaked st) ts ++ l).
  Proof using.
    intros Hsum Hlen Hleak (ls&->&H). eapply goal_of_call; [exact H| |].
    - intros U o rs tts ct rs2 Hf Hr Ho Hn Hin Hw Hl Hfrom Hcv Hs2 Hn2 Hct Hle.
      rewrite (call_result_eq U o) in Hle |- * by done.
      assert (static_callee U (Identifier f) = Some (esc, ret)) as E.
      { unfold static_callee. simpl. by rewrite (ft_summary _ _ Hf). }
      rewrite E in *. simpl in Hle |- *.
      assert (forall slots, (forall i, i ∈ slots -> i < length esc -> esc !! i = Some true) -> all_marked U (passed fd slots ts)) as Hp.
      { intros slots Hsl s (i&t&Ht&Hfd&Hs)%passed_from_elem.
        eapply (args_marked U _ tts ts rs2 (fun i => bool_decide (feeds (length (params_of fd)) i ∈ slots)));
          [exact Hin|exact Hw|exact Hn2|exact Hle| |exact Ht|by apply bool_decide_eq_true|exact Hs].
        intros j _ Hj. apply bool_decide_eq_true in Hj. unfold arg_retention.
        destruct (sp && (S j =? length tts)%nat); [done|]. simpl.
        destruct (esc !! j) as [b|] eqn:Eb; [|done]. simpl. apply lookup_lt_Some in Eb as Hlt.
        unfold feeds in Hj. rewrite Nat.min_l in Hj by lia. apply Hsl in Hj; [congruence|done]. }
      setoid_rewrite elem_of_app in Hleak. constructor.
      + apply tin_all_marked, Hp. auto.
      + apply all_marked_app. split; [apply Hp; auto|done].
      + by eapply from_call; [apply passed_concat|].
    - intros U o rs why Hf Hr Ho Hn Hts Hls _. rewrite !all_marked_app.
      split_and!; try done; by eapply all_marked_sub; [apply passed_concat|].
  Qed.

Lemma goal_call_known md r id fn args sp ts l : goal_evals md r args ts l ->
    goal_eval md r (CallExpr id fn args sp) [] l.
  Proof using.
    intros (ls&->&H). eapply goal_of_call; [exact H| |].
    - intros U o rs tts ct rs2 Hf Hr Ho Hn Hin Hw Hl Hfrom Hcv Hs2 Hn2 Hct Hle.
      constructor; [apply tin_nil|done|apply from_nil].
    - by intros.
  Qed.
(** The summaries are those of the program's functions. *)
  Context (sums_named : forall f, is_Some (finished_retention (Some sums) f) -> f ∈ function_names P).

Lemma reserved_false x : reserved P x = false -> (x ∉ function_names P) /\
    is_nonretaining_builtin x = false /\ x <> "append" /\ (x ∉ map sh_pkg SHIM_TABLE).
  Proof using.
    unfold reserved. intros H. repeat (apply orb_false_iff in H as [H ?]).
    split_and!; [by apply mem_false|done| |by apply mem_false].
    intros ->. by rewrite String.eqb_refl in *.
  Qed.

Lemma not_package pkg sel : pkg ∉ map sh_pkg SHIM_TABLE -> shim_signature_is_non_retaining pkg sel = false.
  Proof using.
    intros H. unfold shim_signature_is_non_retaining, shim_signature_find.
    destruct (List.find _ SHIM_TABLE) as [row|] eqn:E; [|done]. destruct H.
    apply List.find_some in E as [Hin Hb]. apply andb_true_iff in Hb as [Hb _].
    apply String.eqb_eq in Hb as <-. apply list_elem_of_In. by apply in_map.
  Qed.

Lemma no_summary md U f : fits md U -> f ∉ function_names P -> au_summary U f = None.
  Proof using sums_named.
    intros Hf Hn. rewrite (ft_summary _ _ Hf). destruct (finished_retention (Some sums) f) eqn:E; [|done].
    destruct Hn. apply sums_named. by rewrite E.
  Qed.

Lemma local_reserved md U r x t : fits md U -> covers_env U r -> dlookup x r = Some t -> reserved P x = false.
  Proof using.
    intros Hf Hr E. apply (ft_reserved _ _ Hf), (ce_names _ _ Hr).
    apply dlookup_in in E. by apply (list_elem_of_fmap_2 fst) in E.
  Qed.

Lemma opaque_static md U r fn : fits md U -> covers_env U r -> opaque P r fn ->
    static_callee U fn = None /\ goo_callee_is_non_retaining fn = false /\ is_append fn = false.
  Proof using sums_named.
    intros Hf Hr Ho. unfold static_callee.
    destruct fn; try done; simpl in *.
    - destruct Ho as [[t Ht]|(H1&H2&H3)].
      + destruct (reserved_false _ (local_reserved md U r _ _ Hf Hr Ht)) as (H1&H2&H3&_).
        split_and!; [by eapply no_summary|done|by apply String.eqb_neq].
      + split_and!; [by eapply no_summary|done|by apply String.eqb_neq].
    - split_and!; try done. destruct fn; try done. destruct Ho as [[t Ht]|]; [|done].
      apply not_package. by apply (reserved_false _ (local_reserved md U r _ _ Hf Hr Ht)).
  Qed.

Lemma unresolved_result U o fn sp ts ct rs : au_ok U o -> static_callee U fn = None ->
    goo_callee_is_non_retaining fn = false ->
    exists app, call_result (au_hooks U) (au_n U) (au_env U) o fn sp ts ct rs =
      (taint_union (taint_union_all (au_n U) ts) ct,
       mark_args (arg_retention false app sp None (length ts)) 0 ts rs) /\
      (app = true -> is_append fn = true).
  Proof using.
    intros Ho E1 E2. rewrite (call_result_eq U o) by done. rewrite E1, E2. simpl. rewrite andb_false_r. simpl.
    eexists. split; [done|]. intros H. by apply andb_true_iff in H as [H _].
  Qed.

(** [append]: the elements are kept by the result, the first argument only passes through. *)
Lemma goal_call_append md r id fn args sp ts l : known_callee P r fn -> is_append fn = true ->
    goal_evals md r args ts l ->
    goal_eval md r (CallExpr id fn args sp) (concat ts) (concat (tail ts) ++ l).
  Proof using sums_named.
    intros Hk Ha (ls&->&H).
    assert (Htail : forall s : nat, s ∈ concat (tail ts) -> s ∈ concat ts).
    { intros s (i&t&Ht&Hs)%elem_of_concat. apply elem_of_concat. exists (S i), t.
      destruct ts; [by destruct i|done]. }
    eapply goal_of_call; [exact H| |].
    - intros U o rs tts ct rs2 Hf Hr Ho Hn Hin Hw Hl Hfrom Hcv Hs2 Hn2 Hct Hle.
      destruct fn as [|x| | | | | | | | | | | | | | | | |]; try done. simpl in Hk, Ha. destruct Hk as [_ Hk].
      destruct (unresolved_result U o (Identifier x) sp tts ct rs2 Ho) as (app&E&_).
      { by eapply no_summary. } { by apply String.eqb_eq in Ha as ->. }
      rewrite E in *. simpl in Hle |- *. constructor.
      + by apply tin_union_l, tin_union_all.
      + apply all_marked_app. split; [|done]. intros s (i&t&Ht&Hs)%elem_of_concat.
        assert (ts !! S i = Some t) as Ht' by (destruct ts; [by destruct i|done]).
        eapply (args_marked U _ tts ts rs2 (fun i => (0 <? i)%nat)); try done.
        intros [|j] _ Hj; [done|]. unfold arg_retention. simpl. rewrite andb_false_r.
        by destruct (sp && _).
      + by eapply from_call.
    - intros U o rs why Hf Hr Ho Hn Hts Hls _. rewrite !all_marked_app. split_and!; try done.
      by eapply all_marked_sub.
  Qed.

(** Any other callee keeps all it gets, and is kept itself unless it is a plain name. *)
Lemma goal_call_opaque md r id fn args sp tf lf ts l : opaque P r fn -> goal_eval md r fn tf lf ->
    goal_evals md r args ts l ->
    goal_eval md r (CallExpr id fn args sp) (concat ts ++ callee_carries false fn tf)
      (concat ts ++ callee_carries false fn tf ++ lf ++ l).
  Proof using sums_named.
    intros Hop IHf (ls&->&H). eapply goal_of_call; [exact H| |].
    - intros U o rs tts ct rs2 Hf Hr Ho Hn Hin Hw Hl Hfrom Hcv Hs2 Hn2 Hct Hle.
      destruct (opaque_static md U r fn Hf Hr Hop) as (E1&E2&E3).
      destruct (unresolved_result U o fn sp tts ct rs2 Ho E1 E2) as (app&E&Happ).
      rewrite E in *. simpl in Hle |- *.
      assert (all_marked U (concat ts)) as Hts.
      { intros s (i&t&Ht&Hs)%elem_of_concat.
        eapply (args_marked U _ tts ts rs2 (fun _ => true)); try done.
        intros j _ _. unfold arg_retention. destruct app; [by rewrite E3 in Happ; specialize (Happ eq_refl)|].
        by destruct (sp && _). }
      assert (all_marked U (callee_carries false fn tf) /\ all_marked U lf) as [Hc Hlf].
      { destruct (taint_in_ok md U o fn rs Hf) as [H1 H2]. pose proof (le_length _ _ _ H2 Hn) as Hn1.
        pose proof (ge_taint _ _ _ _ _ IHf U o rs Hf Hr Ho Hn) as IHt. clear E Hle Happ.
        assert (forall n, fn = Identifier n -> all_marked U lf) as Hname.
        { intros n ->. unfold callee_value in Hcv. injection Hcv as -> ->. by destruct IHt. }
        destruct fn; try (split; [apply all_marked_nil|by eapply Hname]); unfold callee_value in Hcv;
          match goal with H : context [taint_in U o ?e rs] |- _ => destruct (taint_in U o e rs) as [tt rs1] end;
          injection Hcv as -> ->; simpl in *; (destruct IHt as [Ht' Hl' _];
            [by etrans; [apply (escape_mark_le tt ESCAPE_REASON_CALLEE_VALUE)|]|]);
          (split; [by eapply (tin_marked U tt)|done]). }
      constructor.
      + apply tin_all_marked, all_marked_app. done.
      + rewrite !all_marked_app. done.
      + apply from_all_marked, all_marked_app. done.
    - intros U o rs why Hf Hr Ho Hn Hts Hls Hle.
      destruct (taint_in_ok md U o fn rs Hf) as [H1 H2]. pose proof (le_length _ _ _ H2 Hn) as Hn1.
      pose proof (ge_taint _ _ _ _ _ IHf U o rs Hf Hr Ho Hn) as IHt.
      destruct (taint_in U o fn rs) as [tt rs1]. simpl in *.
      destruct IHt as [Ht' Hl' _]; [by etrans; [apply (escape_mark_le tt why)|]|].
      assert (all_marked U (callee_carries false fn tf)) as Hc.
      { destruct fn; try apply all_marked_nil; by eapply (tin_marked U tt). }
      rewrite !all_marked_app. done.
  Qed.

(** ** Stores *)
Definition same_names (st st' : DState) : Prop := map fst (ds_env st') = map fst (ds_env st).

Lemma below_length md U w : fits md U -> below U w -> length (w_reasons w) = au_n U.
  Proof using. intros Hf [_ _ _ [Hl _]]. rewrite <- Hl. apply (ft_length _ _ Hf). Qed.

Lemma walk_taint_got md U w r e t l : fits md U -> pre U w -> covers_env U r -> goal_eval md r e t l ->
    below U (snd (walk_taint (au_hooks U) (au_n U) w e)) ->
    got U r e (fst (walk_taint (au_hooks U) (au_n U) w e)) t l.
  Proof using.
    intros Hf Hw Hr He Hb. destruct (taint_steady U e w Hw) as (_&_&Hback). specialize (Hback Hb).
    pose proof (below_length _ _ _ Hf Hback) as Hn. destruct Hback as [E _ Ho _]. destruct Hb as [_ _ _ Hle].
    unfold walk_taint in *. rewrite E in *.
    pose proof (ge_taint _ _ _ _ _ He U (w_owner w) (w_reasons w) Hf Hr Ho Hn) as H.
    destruct (taint_in U (w_owner w) e (w_reasons w)). simpl in *. auto.
  Qed.

Lemma walk_mark_marked md U w tt why t : fits md U -> pre U w -> length tt = au_n U ->
    below U (walk_mark w tt why) -> tin U tt t -> all_marked U t.
  Proof using.
    intros Hf Hw Htt Hb Hin. pose proof (proj2 (mark_steady U tt why w Hw) Hb) as Hback.
    eapply (tin_marked U tt); [by eapply below_length|done| |exact Hin]. apply Hb.
  Qed.

(** The bits of a value are those of names it is made of. *)
Definition from_env (U : AUnit) (names : list string) (t : list nat) : Prop :=
    forall s, s ∈ t -> marked (au_reasons U) s \/ exists y, y ∈ names /\ env_bit U y s.

Lemma from_from_env U r names t : covers_env U r -> from U r names t -> from_env U names t.
  Proof using.
    intros Hr H s Hs. destruct (H s Hs) as [?|(y&ty&Hy&E&Hst)]; [by left|].
    destruct (ce_bits _ _ Hr y ty s (dlookup_in _ _ _ E) Hst); [right; eauto|by left].
  Qed.

Lemma covers_leak U sc st l : covers U sc st -> all_marked U l -> covers U sc (leak l st).
  Proof using. intros [] Hl. constructor; simpl; try done. by apply all_marked_app. Qed.

Lemma covers_give_back U sc st l : covers U sc st -> all_marked U l -> covers U sc (give_back l st).
  Proof using. intros [] Hl. constructor; simpl; try done. by apply all_marked_app. Qed.

Lemma covers_scope U sc sc' st : (forall x, x ∈ sc' -> x ∈ sc) -> covers U sc st -> covers U sc' st.
  Proof using. intros Hs []. constructor; auto. Qed.

Lemma covers_update U sc st x t : covers U sc st ->
    (forall s, s ∈ t -> env_bit U x s \/ marked (au_reasons U) s) ->
    covers U sc (with_env (dupdate x t (ds_env st)) st).
  Proof using.
    intros [[Hb Hn] Hl Hr Hs] Ht. constructor; simpl; try done.
    - constructor; [|by rewrite dupdate_names]. intros y u s Hin Hsu.
      destruct (dupdate_in _ _ _ _ _ Hin) as [?|[-> ->]]; eauto.
    - by rewrite dupdate_names.
  Qed.

Definition goal_assign (md : Mode) (st : DState) (lhs : Expr) (t : list nat) (b : bool) (st' : DState) : Prop :=
    forall U w sc strict names tt, fits md U -> pre U w -> length tt = au_n U ->
    below U (assign_to_lvalue (au_hooks U) (au_n U) w lhs tt) ->
    place_ok (au_names U) (au_env U) sc strict names lhs = true ->
    tin U tt t -> from_env U names t -> (strict = false -> from U (ds_env st) names t) ->
    covers U sc st ->
    covers U sc st' /\ same_names st st' /\ (is_name lhs = false -> ds_env st' = ds_env st).

Lemma goal_as_nothing md st t b : goal_assign md st ENull t b (leak t st).
  Proof using.
    intros U w sc strict names tt Hf Hw Htt Hb _ Hin _ _ Hc. split_and!; try done.
    apply covers_leak; [done|]. by eapply walk_mark_marked.
  Qed.

Lemma goal_as_blank md st t b : goal_assign md st (Identifier "_") t b st.
  Proof using. by intros U w sc strict names tt Hf Hw Htt Hb _ Hin _ _ Hc. Qed.

(** A store to a name in the static environment: its taint covers the value. *)
Lemma assign_name_tin md U w x tt t : x <> "_" -> fits md U -> pre U w -> length tt = au_n U ->
    below U (assign_to_lvalue (au_hooks U) (au_n U) w (Identifier x) tt) -> tin U tt t ->
    (exists old, escape_env_find (au_env U) x = Some old /\ tin U old t) \/
    (escape_env_find (au_env U) x = None /\ all_marked U t).
  Proof using.
    intros Hx Hf Hw Htt Hb Hin. pose proof (proj2 (assign_steady U (Identifier x) tt Htt w Hw) Hb) as Hback.
    destruct Hback as [E _ _ _]. simpl in Hb. apply String.eqb_neq in Hx. rewrite Hx, E in Hb.
    destruct (escape_env_find (au_env U) x) as [old|] eqn:Eo.
    - left. exists old. split; [done|]. destruct Hb as [_ Hc _ _]. simpl in Hc.
      apply orb_false_iff in Hc as [_ Hc]. apply taint_grows_false in Hc.
      apply (env_find_wide _ _ _ _ (ft_wide _ _ Hf)) in Eo.
      rewrite <- Hc. apply tin_union_r; [lia|done].
    - right. split; [done|]. by eapply walk_mark_marked.
  Qed.

Lemma goal_as_local md st x t b old : x <> "_" -> dlookup x (ds_env st) = Some old ->
    goal_assign md st (Identifier x) t b
      (with_env (dupdate x (if b then old ++ t else t) (ds_env st)) st).
  Proof using.
    intros Hx E U w sc strict names tt Hf Hw Htt Hb _ Hin _ _ Hc.
    split_and!; [|unfold same_names; simpl; apply dupdate_names|done].
    apply covers_update; [done|]. intros s Hs.
    assert (s ∈ t -> env_bit U x s \/ marked (au_reasons U) s) as Ht.
    { intros Hst. destruct (assign_name_tin md U w x tt t Hx Hf Hw Htt Hb Hin) as [(u&Hu&Hut)|[_ Hm]]; [|auto].
      destruct (Hut s Hst); [left; by exists u|by right]. }
    destruct b; [|auto]. apply elem_of_app in Hs as [Hs|Hs]; [|auto].
    exact (ce_bits _ _ (cv_env _ _ _ Hc) x old s (dlookup_in _ _ _ E) Hs).
  Qed.

Lemma goal_as_outside md st x t b : x <> "_" -> dlookup x (ds_env st) = None ->
    goal_assign md st (Identifier x) t b (leak t st).
  Proof using.
    intros Hx E U w sc strict names tt Hf Hw Htt Hb Hp Hin _ _ Hc. split_and!; try done.
    apply covers_leak; [done|]. apply dlookup_none in E. simpl in Hp.
    destruct (assign_name_tin md U w x tt t Hx Hf Hw Htt Hb Hin) as [(u&Hu&_)|[_ Hm]]; [|done].
    apply orb_true_iff in Hp as [Hp|Hp]; [apply orb_true_iff in Hp as [Hp|Hp]|].
    - by apply String.eqb_eq in Hp.
    - apply mem_spec in Hp. destruct E. by apply (cv_scope _ _ _ Hc).
    - apply negb_true_iff, mem_false in Hp. destruct Hp. apply (ft_names _ _ Hf).
      destruct (decide (x ∈ map lv_name (au_env U))) as [|Hn]; [done|]. apply env_find_none in Hn. congruence.
  Qed.

Definition stored (U : AUnit) (lhs : Expr) (tt : TaintSet) : TaintSet :=
    match self_store_base (au_env U) lhs with Some base => taint_minus tt base | None => tt end.

(** A store that is not to a name, taken apart. *)
Lemma store_parts md U w lhs tt : fits md U -> pre U w -> length tt = au_n U -> is_name lhs = false -> lhs <> ENull ->
    below U (assign_to_lvalue (au_hooks U) (au_n U) w lhs tt) ->
    exists o rs, au_ok U o /\ length rs = au_n U /\ settles U rs /\
      (forall s, bit (stored U lhs tt) s -> marked (au_reasons U) s) /\ settles U (place_in U o lhs rs).
  Proof using.
    intros Hf Hw Htt Hname Hnull Hb.
    pose proof (proj2 (assign_steady U lhs tt Htt w Hw) Hb) as Hback.
    pose proof (below_length _ _ _ Hf Hback) as Hn. destruct Hback as [E _ Ho _].
    assert (w_reasons (assign_to_lvalue (au_hooks U) (au_n U) w lhs tt) =
      place_in U (w_owner w) lhs (escape_mark (stored U lhs tt) ESCAPE_REASON_CONTAINER_STORE (w_reasons w))) as Er.
    { unfold assign_to_lvalue, stored. by destruct lhs; rewrite ?E. }
    destruct Hb as [_ _ _ Hle]. rewrite Er in Hle.
    set (t1 := stored U lhs tt) in *.
    pose proof (escape_mark_le t1 ESCAPE_REASON_CONTAINER_STORE (w_reasons w)) as H1.
    pose proof (place_le md U (w_owner w) lhs (escape_mark t1 ESCAPE_REASON_CONTAINER_STORE (w_reasons w)) Hf) as H2.
    assert (length t1 = au_n U) as Ht1.
    { unfold t1, stored. destruct (self_store_base _ _); [by rewrite length_taint_minus|done]. }
    assert (settles U (escape_mark t1 ESCAPE_REASON_CONTAINER_STORE (w_reasons w))) as H3 by (by etrans).
    exists (w_owner w), (escape_mark t1 ESCAPE_REASON_CONTAINER_STORE (w_reasons w)).
    split_and!; try done; [by eapply le_length|].
    intros s Hs. eapply marked_le; [exact H3|]. apply escape_mark_marks; [done|]. apply bit_lt in Hs. lia.
  Qed.

(** What is stored and not marked was in the container already. *)
Lemma stored_foreign md U w e i tt t sc strict names st : fits md U -> pre U w -> length tt = au_n U ->
    below U (assign_to_lvalue (au_hooks U) (au_n U) w (IndexExpr e i) tt) ->
    store_ok (au_env U) strict (IndexExpr e i) names = true ->
    tin U tt t -> from_env U names t -> (strict = false -> from U (ds_env st) names t) -> covers U sc st ->
    all_marked U (foreign t (container (ds_env st) e)).
  Proof using.
    intros Hf Hw Htt Hb Hs Hin Hfe Hfr Hc s Hst.
    destruct (store_parts md U w (IndexExpr e i) tt) as (o&rs&_&_&_&Hm&_); try done.
    assert (s ∈ t /\ forall b, container (ds_env st) e = Some b -> s ∉ b) as [Hs1 Hs2].
    { unfold foreign in Hst. destruct (container (ds_env st) e) as [b|]; [|done].
      apply list_elem_of_filter in Hst as [? ?]. split; [done|]. by intros ? [= <-]. }
    destruct (Hin s Hs1) as [Hbit|]; [|done]. unfold stored in Hm.
    destruct (self_store_base (au_env U) (IndexExpr e i)) as [base|] eqn:Eb; [|by apply Hm].
    destruct (decide (bit base s)) as [Hbs|Hbs]; [|by apply Hm, bit_minus].
    destruct e; try done. simpl in Eb, Hs, Hs2. rewrite Eb in Hs.
    assert (forall y, y ∈ names -> env_bit U y s -> y = name /\ strict = false) as Hy.
    { intros y Hin' (ty&Ey&Hty). rewrite forallb_forall in Hs.
      specialize (Hs y (proj1 (list_elem_of_In _ _) Hin')). apply orb_true_iff in Hs as [Hs|Hs].
      - apply andb_true_iff in Hs as [H1 H2]. apply String.eqb_eq in H2. by destruct strict.
      - exfalso. rewrite Ey in Hs. clear -Hs Hty Hbs. unfold bit in *. revert base s Hs Hty Hbs.
        induction ty as [|a ty IH]; intros [|b base] [|s] Hs H1 H2; simplify_eq/=; try done.
        apply andb_true_iff in Hs as [_ Hs]. eauto. }
    destruct (Hfe s Hs1) as [|(y&Hin'&Hyb)]; [done|]. destruct (Hy y Hin' Hyb) as [-> ->].
    destruct (Hfr eq_refl s Hs1) as [|(z&tz&Hz&Ez&Hsz)]; [done|].
    destruct (ce_bits _ _ (cv_env _ _ _ Hc) z tz s (dlookup_in _ _ _ Ez) Hsz) as [Hzb|]; [|done].
    destruct (Hy z Hz Hzb) as [-> _]. by destruct (Hs2 tz Ez).
  Qed.

Lemma goal_as_index md st e i t b te le ti li :
    goal_eval md (ds_env st) e te le -> goal_eval md (ds_env st) i ti li ->
    goal_assign md st (IndexExpr e i) t b
      (leak (foreign t (container (ds_env st) e) ++ ti ++ le ++ li) st).
  Proof using.
    intros IHe IHi U w sc strict names tt Hf Hw Htt Hb Hp Hin Hfe Hfr Hc. split_and!; try done.
    simpl in Hp. apply andb_true_iff in Hp as [Hsp Hso].
    destruct (store_parts md U w (IndexExpr e i) tt) as (o&rs&Ho&Hn&_&_&Hle); try done.
    apply covers_leak; [done|]. rewrite app_assoc. apply all_marked_app. split.
    - apply all_marked_app. split; [by eapply stored_foreign|].
      simpl in Hle. destruct (taint_in_ok md U o i rs Hf) as [H1 H2].
      pose proof (ge_taint _ _ _ _ _ IHi U o rs Hf (cv_env _ _ _ Hc) Ho Hn) as Hi.
      destruct (taint_in U o i rs) as [tti rs1]. simpl in *. pose proof (le_length _ _ _ H2 Hn) as Hn1.
      pose proof (place_le md U o e (escape_mark tti ESCAPE_REASON_SUBSCRIPT_STORE rs1) Hf) as H3.
      assert (settles U (escape_mark tti ESCAPE_REASON_SUBSCRIPT_STORE rs1)) as H4 by (by etrans).
      destruct Hi as [Hti _ _]; [by etrans; [apply (escape_mark_le tti ESCAPE_REASON_SUBSCRIPT_STORE)|]|].
      by eapply (tin_marked U tti).
    - exact (ge_place _ _ _ _ _ (goal_index _ _ _ _ _ _ _ _ IHe IHi) U o rs Hf (cv_env _ _ _ Hc) Ho Hn Hsp Hle).
  Qed.

Lemma goal_as_place md st lhs e t b te le : inner lhs = Some e -> goal_eval md (ds_env st) e te le ->
    goal_assign md st lhs t b (leak (t ++ le) st).
  Proof using.
    intros Hi IH U w sc strict names tt Hf Hw Htt Hb Hp Hin Hfe Hfr Hc. split_and!; try done.
    destruct (store_parts md U w lhs tt) as (o&rs&Ho&Hn&_&Hm&Hle); try done; [by destruct lhs..|].
    apply covers_leak; [done|]. apply all_marked_app. split.
    - intros s Hs. destruct (Hin s Hs) as [Hbs|]; [|done]. apply Hm. by destruct lhs.
    - assert (simple_place lhs = true) as Hsp.
      { destruct lhs; try done; by apply andb_true_iff in Hp as [? _]. }
      exact (ge_place _ _ _ _ _ (goal_inner _ _ _ _ _ _ Hi IH) U o rs Hf (cv_env _ _ _ Hc) Ho Hn Hsp Hle).
  Qed.

Definition goal_assigns (md : Mode) (st : DState) (lhs : list Expr) (ts : list (list nat)) (st' : DState) : Prop :=
    forall U w sc strict names tt, fits md U -> pre U w -> length tt = au_n U ->
    below U (fold_left (fun w l => assign_to_lvalue (au_hooks U) (au_n U) w l tt) lhs w) ->
    forallb (place_ok (au_names U) (au_env U) sc strict names) lhs = true ->
    (strict = false -> forallb (fun l => negb (is_name l)) lhs = true) ->
    Forall (fun t => tin U tt t /\ from_env U names t) ts ->
    (strict = false -> Forall (from U (ds_env st) names) ts) ->
    covers U sc st -> covers U sc st' /\ same_names st st'.

Lemma goal_ass_cons md st e es t ts st1 st2 : goal_assign md st e t false st1 -> goal_assigns md st1 es ts st2 ->
    goal_assigns md st (e :: es) (t :: ts) st2.
  Proof using.
    intros IH1 IH2 U w sc strict names tt Hf Hw Htt Hb Hp Hstr Hts Hfr Hc. simpl in *.
    apply andb_true_iff in Hp as [Hp1 Hp2]. apply Forall_cons in Hts as [[Ht1 Ht2] Hts].
    destruct (assign_steady U e tt Htt w Hw) as [Hw1 Hback1].
    pose proof (fold_steady U (fun w l => assign_to_lvalue (au_hooks U) (au_n U) w l tt) es
      (fun l _ => assign_steady U l tt Htt) _ Hw1) as [_ Hback].
    destruct (IH1 U w sc strict names tt) as (Hc1&Hn1&He1); try done; [by apply Hback| |].
    { intros E. specialize (Hfr E). by apply Forall_cons in Hfr as [? _]. }
    destruct (IH2 U _ sc strict names tt Hf Hw1 Htt Hb Hp2) as (Hc2&Hn2); try done.
    - intros E. specialize (Hstr E). by apply andb_true_iff in Hstr as [_ ?].
    - intros E. specialize (Hstr E). apply andb_true_iff in Hstr as [Hname _].
      rewrite He1 by (by apply negb_true_iff). specialize (Hfr E). by apply Forall_cons in Hfr as [_ ?].
    - split; [done|]. unfold same_names in *. congruence.
  Qed.

(** ** Bindings *)
Lemma bind_bits md U w x tt : x <> "_" -> fits md U -> pre U w -> length tt = au_n U ->
    below U (walk_bind (au_hooks U) w x tt) ->
    x ∈ au_names U /\ forall s, bit (au_stamp U x tt) s -> env_bit U x s.
  Proof using.
    intros Hx Hf Hw Htt Hb. destruct Hw as [Hw Ho].
    destruct (walk_bind_grew (LawfulHooks0 := au_lawful U) (au_hooks U) (au_n U) (au_ok U) (au_returned U)
      (au_stamp U) (au_summary U) (fun _ => None) (fun _ => True) w x tt) as [_ H]; try done.
    destruct Hb as [E _ _ _]. rewrite E in H. destruct (H Hx) as (t&Ht&Hbits). split.
    - apply (ft_names _ _ Hf). destruct (decide (x ∈ map lv_name (au_env U))) as [|Hn]; [done|].
      apply env_find_none in Hn. congruence.
    - intros s Hs. exists t. auto.
  Qed.

Lemma bind_covers md U w x tt t sc st : fits md U -> pre U w -> length tt = au_n U ->
    below U (walk_bind (au_hooks U) w x tt) -> tin U tt t -> covers U sc st ->
    covers U (x :: sc) (bind_local md x t st) /\
    exists k, map fst (ds_env (bind_local md x t st)) = k ++ map fst (ds_env st).
  Proof using.
    intros Hf Hw Htt Hb Hin Hc. unfold bind_local. destruct (String.eqb_spec x "_") as [->|Hx].
    { split; [|by exists []]. destruct Hc. constructor; try done. intros x Hx Hne. clear sums_named; set_solver. }
    destruct (bind_bits md U w x tt Hx Hf Hw Htt Hb) as [Hn Hbits].
    split; [|by exists [x]]. destruct Hc as [[H1 H2] H3 H4 H5]. constructor; simpl; try done.
    - constructor; simpl.
      + intros y u s Hin' Hs. apply elem_of_cons in Hin' as [[= -> ->]|Hin']; [|eauto].
        apply elem_of_app in Hs as [Hs|Hs].
        * left. apply Hbits. by apply (ft_stamp _ _ Hf).
        * destruct (Hin s Hs) as [Hbit|]; [left|by right]. apply Hbits.
          by apply (lh_stamp (LawfulHooks := au_lawful U) x tt Htt).
      + intros y Hy. apply elem_of_cons in Hy as [->|]; auto.
    - intros y Hy Hne. apply elem_of_cons. apply elem_of_cons in Hy as [->|]; auto.
  Qed.

Lemma bind_opt_covers md U w x tt t sc st : fits md U -> pre U w -> length tt = au_n U ->
    below U (walk_bind_opt (au_hooks U) w x tt) -> tin U tt t -> covers U sc st ->
    covers U (option_name x ++ sc) (bind_opt md x t st) /\
    exists k, map fst (ds_env (bind_opt md x t st)) = k ++ map fst (ds_env st).
  Proof using.
    intros Hf Hw Htt Hb Hin Hc. destruct x as [x|]; simpl; [by eapply bind_covers|by split; [|exists []]].
  Qed.

Lemma bind_all_covers md U xs ts w tt sc st : fits md U -> pre U w -> length tt = au_n U -> length ts = length xs ->
    below U (fold_left (fun w x => walk_bind (au_hooks U) w x tt) xs w) -> Forall (tin U tt) ts -> covers U sc st ->
    covers U (xs ++ sc) (bind_all md xs ts st) /\
    exists k, map fst (ds_env (bind_all md xs ts st)) = k ++ map fst (ds_env st).
  Proof using.
    intros Hf Hw Htt Hlen Hb Hts. revert ts w sc st Hw Hlen Hb Hts.
    induction xs as [|x xs IH]; intros [|t ts] w sc st Hw Hlen Hb Hts Hc; simplify_eq/=; [by split; [|exists []]|].
    apply Forall_cons in Hts as [Ht Hts]. destruct (bind_steady U x tt Htt w Hw) as [Hw1 _].
    pose proof (fold_steady U (fun w x => walk_bind (au_hooks U) w x tt) xs
      (fun x _ => bind_steady U x tt Htt) _ Hw1) as [_ Hback].
    destruct (bind_covers md U w x tt t sc st Hf Hw Htt (Hback Hb) Ht Hc) as [Hc1 [k1 Hk1]].
    destruct (IH ts _ (x :: sc) _ Hw1 Hlen Hb Hts Hc1) as [Hc2 [k2 Hk2]]. split.
    - eapply covers_scope; [|exact Hc2]. clear sums_named; set_solver.
    - exists (k2 ++ k1). rewrite Hk2, Hk1. by rewrite app_assoc.
  Qed.

(** What a value spread over names is made of. *)
Lemma spread_elem {A} (xs : list A) ts t (s : nat) : t ∈ spread_values xs ts -> s ∈ t -> s ∈ concat ts.
  Proof using.
    unfold spread_values. case_match; intros Ht Hs.
    - apply list_elem_of_In, in_concat. exists t. by split; apply list_elem_of_In.
    - by apply elem_of_replicate_inv in Ht as ->.
  Qed.

Lemma length_spread {A} (xs : list A) ts : length (spread_values xs ts) = length xs.
  Proof using.
    unfold spread_values. destruct (Nat.eqb_spec (length xs) (length ts)); [done|apply length_replicate].
  Qed.

(** The union of several values, as the walk forms it. *)
Lemma walk_union_covered md U w es ts l tt0 r : fits md U -> pre U w -> covers_env U r -> length tt0 = au_n U ->
    goal_evals md r es ts l -> below U (snd (walk_union (au_hooks U) (au_n U) w es tt0)) ->
    tin U (fst (walk_union (au_hooks U) (au_n U) w es tt0)) (concat ts) /\ all_marked U l /\
    from U r (flat_map value_names es) (concat ts) /\
    (forall s, bit tt0 s -> bit (fst (walk_union (au_hooks U) (au_n U) w es tt0)) s).
  Proof using.
    intros Hf Hw Hr Htt (ls&->&H). revert w tt0 Hw Htt.
    induction H as [|e t l es ts ls He H IH]; intros w tt0 Hw Htt Hb; simpl in *.
    { split_and!; [apply tin_nil|apply all_marked_nil|apply from_nil|done]. }
    destruct (taint_steady U e w Hw) as (H1&H2&H3).
    pose proof (walk_taint_got md U w r e t l Hf Hw Hr He) as Hgot.
    destruct (walk_taint (au_hooks U) (au_n U) w e) as [te w1]. simpl in *.
    assert (length (taint_union tt0 te) = au_n U) as Hu by (by rewrite length_taint_union).
    destruct (union_steady U es _ w1 H2 Hu) as (H4&_&H5).
    destruct (IH w1 _ H2 Hu Hb) as (I1&I2&I3&I4). destruct (Hgot (H5 Hb)) as [G1 G2 G3]. split_and!.
    - apply tin_app; [|done]. eapply tin_mono; [exact I4|]. apply tin_union_r; [lia|done].
    - by apply all_marked_app.
    - by apply from_app.
    - intros s Hs. apply I4, bit_union. by left.
  Qed.

(** ** Statements *)
Definition goal_exec_expr (md : Mode) (st : DState) (e : Expr) (st' : DState) : Prop :=
    forall U w sc, fits md U -> pre U w -> below U (escape_walk_expr_stmt (au_hooks U) (au_n U) w e) ->
    check_expr (au_names U) (au_env U) sc e = true -> covers U sc st ->
    covers U sc st' /\ same_names st st'.

Lemma goal_xe_assign md st op lhs rhs t l st' : is_assign_op op = true -> goal_eval md (ds_env st) rhs t l ->
    goal_assign md (leak l st) lhs t (is_compound op) st' -> goal_exec_expr md st (BinaryExpr op lhs rhs) st'.
  Proof using.
    intros Hop IHe IHa U w sc Hf Hw Hb Hck Hc. simpl in *. rewrite Hop in *.
    destruct (taint_steady U rhs w Hw) as (H1&H2&_).
    pose proof (walk_taint_got md U w (ds_env st) rhs t l Hf Hw (cv_env _ _ _ Hc) IHe) as Hgot.
    destruct (walk_taint (au_hooks U) (au_n U) w rhs) as [tt w1]. simpl in *.
    destruct Hgot as [G1 G2 G3]; [exact (proj2 (assign_steady U lhs tt H1 w1 H2) Hb)|].
    destruct (IHa U w1 sc false (value_names rhs) tt) as (Hc'&Hn&_); try done.
    - by eapply from_from_env; [apply (cv_env _ _ _ Hc)|].
    - by apply covers_leak.
  Qed.

Lemma goal_xe_send md st ch v tc lc t l : goal_eval md (ds_env st) ch tc lc -> goal_eval md (ds_env st) v t l ->
    goal_exec_expr md st (BinaryExpr TOKEN_ARROW ch v) (leak (t ++ l ++ lc) st).
  Proof using.
    intros IHc IHv U w sc Hf Hw Hb _ Hc. simpl in Hb. split; [|done]. apply covers_leak; [done|].
    unfold walk_expr in Hb. destruct (taint_steady U ch w Hw) as (_&Hw1&_).
    pose proof (walk_taint_got md U w _ ch tc lc Hf Hw (cv_env _ _ _ Hc) IHc) as Hgc.
    destruct (walk_taint (au_hooks U) (au_n U) w ch) as [ttc w1]. simpl in *.
    destruct (taint_steady U v w1 Hw1) as (Htt&Hw2&Hback).
    pose proof (walk_taint_got md U w1 _ v t l Hf Hw1 (cv_env _ _ _ Hc) IHv) as Hgv.
    destruct (walk_taint (au_hooks U) (au_n U) w1 v) as [tt w2]. simpl in *.
    pose proof (proj2 (mark_steady U tt ESCAPE_REASON_CHAN_SEND w2 Hw2) Hb) as Hb2.
    destruct (Hgc (Hback Hb2)) as [_ Hlc _]. destruct (Hgv Hb2) as [Hin Hl _].
    rewrite !all_marked_app. split_and!; try done. by eapply walk_mark_marked.
  Qed.

Lemma expr_stmt_expr U w e : (forall op lhs rhs, e = BinaryExpr op lhs rhs -> is_assign_op op = false /\ op <> TOKEN_ARROW) ->
    below U (escape_walk_expr_stmt (au_hooks U) (au_n U) w e) ->
    below U (snd (walk_taint (au_hooks U) (au_n U) w e)).
  Proof using.
    intros He Hb. destruct e; try exact Hb; [by destruct w|].
    simpl in Hb. destruct (He op e1 e2 eq_refl) as [H1 H2]. rewrite H1 in Hb.
    destruct (token_eqb op TOKEN_ARROW) eqn:E; [|exact Hb]. by apply token_eqb_spec in E.
  Qed.

Lemma goal_xe_expr md st e t l :
    (forall op lhs rhs, e = BinaryExpr op lhs rhs -> is_assign_op op = false /\ op <> TOKEN_ARROW) ->
    goal_eval md (ds_env st) e t l -> goal_exec_expr md st e (leak l st).
  Proof using.
    intros He IH U w sc Hf Hw Hb _ Hc. split; [|done]. apply covers_leak; [done|].
    by eapply (walk_taint_got md U w _ e t l Hf Hw (cv_env _ _ _ Hc) IH), expr_stmt_expr.
  Qed.

(** The names grow at the front. *)
Definition extends (st st' : DState) : Prop :=
    exists k, map fst (ds_env st') = k ++ map fst (ds_env st).

Lemma extends_same st st' : same_names st st' -> extends st st'.
  Proof using. intros H. by exists []. Qed.

Lemma extends_trans st1 st2 st3 : extends st1 st2 -> extends st2 st3 -> extends st1 st3.
  Proof using. intros [k1 H1] [k2 H2]. exists (k2 ++ k1). rewrite H2, H1. by rewrite app_assoc. Qed.

Lemma leave_covers U sc sc' outer inner : covers U sc outer -> covers U sc' inner -> extends outer inner ->
    covers U sc (leave outer inner) /\ same_names outer (leave outer inner).
  Proof using.
    intros Ho [[H1 H2] H3 H4 _] [k Hk].
    assert (same_names outer (leave outer inner)) as Hn.
    { unfold same_names, leave. simpl. rewrite <- (firstn_skipn (length (ds_env inner) - length (ds_env outer)) (ds_env inner)) in Hk at 1.
      assert (length (ds_env inner) = length k + length (ds_env outer)) as Hl.
      { apply (f_equal length) in Hk. rewrite firstn_skipn, length_app, !length_map in Hk. lia. }
      rewrite map_app in Hk. apply app_inj_1 in Hk as [_ Hk]; [exact Hk|].
      rewrite length_map, length_firstn. lia. }
    split; [|exact Hn]. constructor; simpl; try done.
    - constructor.
      + intros x t s Hin. apply H1. revert Hin. apply subseteq_drop.
      + intros x Hx. apply (ce_names _ _ (cv_env _ _ _ Ho)). rewrite <- Hn. exact Hx.
    - intros x Hx Hne. unfold same_names in Hn. simpl in Hn. rewrite Hn. by apply (cv_scope _ _ _ Ho).
  Qed.

Local Abbreviation walk U ss := (escape_walk_stmt (au_hooks U) (au_n U) ss).

Definition goal_exec (md : Mode) (st : DState) (ss : list Stmt) (st' : DState) (c : bool) : Prop :=
    forall U w sc sc', fits md U -> pre U w -> below U (walk U ss w) ->
    check_list (au_names U) (au_env U) ss sc = Some sc' -> covers U sc st ->
    covers U (if c then sc' else []) st' /\ extends st st'.

Definition goal_exec1 (md : Mode) (st : DState) (s : Stmt) (st' : DState) : Prop :=
    forall U w sc sc', fits md U -> pre U w -> below U (escape_walk_one (au_hooks U) (au_n U) s w) ->
    checks (au_names U) (au_env U) s sc = Some sc' -> covers U sc st ->
    covers U sc' st' /\ extends st st'.

Lemma goal_ex_outside md st x old t ss st' c : Forall (fun s => s ∈ ds_leaked st) t ->
    dlookup x (ds_env st) = Some old ->
    goal_exec md (with_env (dupdate x (old ++ t) (ds_env st)) st) ss st' c -> goal_exec md st ss st' c.
  Proof using.
    intros Ht E IH U w sc sc' Hf Hw Hb Hck Hc. rewrite Forall_forall in Ht.
    destruct (IH U w sc sc' Hf Hw Hb Hck) as [Hc' He].
    - apply covers_update; [done|]. intros s [Hs|Hs]%elem_of_app.
      + exact (ce_bits _ _ (cv_env _ _ _ Hc) x old s (dlookup_in _ _ _ E) Hs).
      + right. apply (cv_leaked _ _ _ Hc). auto.
    - split; [done|]. eapply extends_trans; [|exact He]. apply extends_same.
      unfold same_names. simpl. apply dupdate_names.
  Qed.

Lemma goal_ex_captured md st x t ss st' c : x ∈ md_captured md -> dlookup x (ds_env st) = Some t ->
    goal_exec md (leak t st) ss st' c -> goal_exec md st ss st' c.
  Proof using.
    intros Hx E IH U w sc sc' Hf Hw Hb Hck Hc. apply (IH U w sc sc' Hf Hw Hb Hck).
    apply covers_leak; [done|]. intros s Hs.
    destruct (ce_bits _ _ (cv_env _ _ _ Hc) x t s (dlookup_in _ _ _ E) Hs) as [(tx&Hx'&Hbit)|]; [|done].
    by eapply (ft_captured _ _ Hf).
  Qed.

Lemma goal_ex_next md st s ss st1 st2 c : goal_exec1 md st s st1 -> goal_exec md st1 ss st2 c ->
    goal_exec md st (s :: ss) st2 c.
  Proof using.
    intros IH1 IH2 U w sc sc' Hf Hw Hb Hck Hc. simpl in Hck.
    destruct (checks (au_names U) (au_env U) s sc) as [sc1|] eqn:E; [|done].
    destruct (one_steady U s w Hw) as [Hw1 _]. pose proof (proj2 (list_steady U ss _ Hw1) Hb) as Hb1.
    destruct (IH1 U w sc sc1 Hf Hw Hb1 E Hc) as [Hc1 He1].
    destruct (IH2 U _ sc1 sc' Hf Hw1 Hb Hck Hc1) as [Hc2 He2].
    split; [done|by eapply extends_trans].
  Qed.

(** Code in a scope of its own. *)
Lemma nested md U w sc sc1 st st1 ss st' c : goal_exec md st1 ss st' c -> fits md U -> pre U w ->
    below U (walk U ss w) -> scoped (check_list (au_names U) (au_env U) ss sc1) = true ->
    covers U sc1 st1 -> extends st st1 -> covers U sc st ->
    covers U sc (leave st st') /\ same_names st (leave st st').
  Proof using.
    intros IH Hf Hw Hb Hck Hc1 He Hc. unfold scoped in Hck.
    destruct (check_list (au_names U) (au_env U) ss sc1) as [sc2|] eqn:E; [|done].
    destruct (IH U w sc1 sc2 Hf Hw Hb E Hc1) as [Hc2 He2].
    eapply leave_covers; [exact Hc|exact Hc2|by eapply extends_trans].
  Qed.

(** [checks] of a statement that declares nothing. *)
Lemma keep_some (b : bool) (sc sc' : list string) : (if b then Some sc else None) = Some sc' -> b = true /\ sc' = sc.
  Proof using. by destruct b; intros [=]. Qed.

Lemma same_goal U sc st st' : covers U sc st' /\ same_names st st' -> covers U sc st' /\ extends st st'.
  Proof using. intros [? ?]. split; [done|by apply extends_same]. Qed.

Lemma walk_expr_got md U w st sc e t l : fits md U -> pre U w -> covers U sc st ->
    goal_eval md (ds_env st) e t l -> below U (walk_expr (au_hooks U) (au_n U) w e) ->
    covers U sc (leak l st).
  Proof using.
    intros Hf Hw Hc IH Hb. apply covers_leak; [done|].
    by eapply (walk_taint_got md U w _ e t l Hf Hw (cv_env _ _ _ Hc) IH).
  Qed.

Lemma goal_x1_block md st s ss st' c : (s = BlockStmt ss \/ s = UnsafeStmt ss \/ s = ArenaBlock ss) ->
    goal_exec md st ss st' c -> goal_exec1 md st s (leave st st').
  Proof using.
    intros Hs IH U w sc sc' Hf Hw Hb Hck Hc. apply same_goal.
    assert (below U (walk U ss w) /\ scoped (check_list (au_names U) (au_env U) ss sc) = true /\ sc' = sc)
      as (Hb'&Hck'&->).
    { destruct Hs as [->|[->| ->]]; simpl in *; apply keep_some in Hck as [? ->]; done. }
    apply (nested md U w sc sc st st ss st' c IH Hf Hw Hb' Hck' Hc); [by exists []|done].
  Qed.

Lemma goal_x1_if md st e th el t l ss st' c : goal_eval md (ds_env st) e t l -> ss = th \/ ss = el ->
    goal_exec md (leak l st) ss st' c -> goal_exec1 md st (IfStmt e th el) (leave st st').
  Proof using.
    intros IHe Hss IH U w sc sc' Hf Hw Hb Hck Hc. apply same_goal. simpl in Hck.
    apply keep_some in Hck as [Hck ->]. apply andb_true_iff in Hck as [Hck1 Hck2].
    destruct (expr_steady U e w Hw) as [Hw1 _]. destruct (list_steady U th _ Hw1) as [Hw2 Hback1].
    pose proof (proj2 (list_steady U el _ Hw2) Hb) as Hb2. pose proof (Hback1 Hb2) as Hb1.
    pose proof (walk_expr_got md U w st sc e t l Hf Hw Hc IHe Hb1) as Hcl.
    destruct Hss as [-> | ->].
    - apply (nested md U _ sc sc st (leak l st) th st' c IH Hf Hw1 Hb2 Hck1 Hcl); [by exists []|done].
    - apply (nested md U _ sc sc st (leak l st) el st' c IH Hf Hw2 Hb Hck2 Hcl); [by exists []|done].
  Qed.

(** A value bound on entry to a scope. *)
Lemma bound_value md U w st sc x e t l : fits md U -> pre U w -> covers U sc st -> goal_eval md (ds_env st) e t l ->
    below U (let '(t, w) := walk_taint (au_hooks U) (au_n U) w e in walk_bind_opt (au_hooks U) w x t) ->
    pre U (let '(t, w) := walk_taint (au_hooks U) (au_n U) w e in walk_bind_opt (au_hooks U) w x t) /\
    covers U sc (leak l st) /\ covers U (option_name x ++ sc) (bind_opt md x t (leak l st)) /\
    extends st (bind_opt md x t (leak l st)).
  Proof using.
    intros Hf Hw Hc IH Hb. destruct (taint_steady U e w Hw) as (H1&H2&_).
    pose proof (walk_taint_got md U w _ e t l Hf Hw (cv_env _ _ _ Hc) IH) as Hgot.
    destruct (walk_taint (au_hooks U) (au_n U) w e) as [tt w1]. simpl in *.
    destruct (bind_opt_steady U x tt H1 w1 H2) as [H3 H4]. destruct (Hgot (H4 Hb)) as [G1 G2 _].
    pose proof (covers_leak _ _ _ _ Hc G2) as Hcl.
    destruct (bind_opt_covers md U w1 x tt t sc (leak l st) Hf H2 H1 Hb G1 Hcl) as [H5 H6]. done.
  Qed.

Lemma taint_bind_pre U w e x : pre U w ->
    pre U (let '(t, w) := walk_taint (au_hooks U) (au_n U) w e in walk_bind_opt (au_hooks U) w x t).
  Proof using.
    intros Hw. destruct (taint_steady U e w Hw) as (H1&H2&_).
    destruct (walk_taint (au_hooks U) (au_n U) w e) as [tt w1]. by apply bind_opt_steady.
  Qed.

Lemma iflet_walk U x e th el w :
    escape_walk_one (au_hooks U) (au_n U) (IfLetStmt x e th el) w =
    walk U el (walk U th (let '(t, w) := walk_taint (au_hooks U) (au_n U) w e in walk_bind_opt (au_hooks U) w x t)).
  Proof using. simpl. by destruct (walk_taint (au_hooks U) (au_n U) w e). Qed.

Lemma goal_x1_iflet md st x e th el t l st' c : goal_eval md (ds_env st) e t l ->
    goal_exec md (bind_opt md x t (leak l st)) th st' c -> goal_exec1 md st (IfLetStmt x e th el) (leave st st').
  Proof using.
    intros IHe IH U w sc sc' Hf Hw Hb Hck Hc. apply same_goal. rewrite iflet_walk in Hb. simpl in Hck.
    apply keep_some in Hck as [Hck ->]. apply andb_true_iff in Hck as [Hck _].
    pose proof (taint_bind_pre U w e x Hw) as Hw1. destruct (list_steady U th _ Hw1) as [Hw2 Hback1].
    pose proof (proj2 (list_steady U el _ Hw2) Hb) as Hb2.
    destruct (bound_value md U w st sc x e t l Hf Hw Hc IHe (Hback1 Hb2)) as (_&_&Hc1&He1).
    exact (nested md U _ sc _ st _ th st' c IH Hf Hw1 Hb2 Hck Hc1 He1 Hc).
  Qed.

Lemma goal_x1_iflet_else md st x e th el t l st' c : goal_eval md (ds_env st) e t l ->
    goal_exec md (leak l st) el st' c -> goal_exec1 md st (IfLetStmt x e th el) (leave st st').
  Proof using.
    intros IHe IH U w sc sc' Hf Hw Hb Hck Hc. apply same_goal. rewrite iflet_walk in Hb. simpl in Hck.
    apply keep_some in Hck as [Hck ->]. apply andb_true_iff in Hck as [_ Hck].
    pose proof (taint_bind_pre U w e x Hw) as Hw1. destruct (list_steady U th _ Hw1) as [Hw2 Hback1].
    pose proof (proj2 (list_steady U el _ Hw2) Hb) as Hb2.
    destruct (bound_value md U w st sc x e t l Hf Hw Hc IHe (Hback1 Hb2)) as (_&Hc1&_).
    apply (nested md U _ sc sc st _ el st' c IH Hf Hw2 Hb Hck Hc1); [by exists []|done].
  Qed.

Definition goal_for (md : Mode) (cond : Expr) (post body : list Stmt) (st st' : DState) : Prop :=
    forall U w sc, fits md U -> pre U w -> below U (walk U body (walk U post (walk_expr (au_hooks U) (au_n U) w cond))) ->
    scoped (check_list (au_names U) (au_env U) body sc) = true ->
    scoped (check_list (au_names U) (au_env U) post sc) = true -> covers U sc st ->
    covers U sc st' /\ same_names st st'.

Definition goal_range (md : Mode) (k v : option string) (t : list nat) (body : list Stmt) (st st' : DState) : Prop :=
    forall U w sc tt, fits md U -> pre U w -> length tt = au_n U ->
    below U (walk U body (walk_bind_opt (au_hooks U) (walk_bind_opt (au_hooks U) w k (escape_taint_new (au_n U))) v tt)) ->
    scoped (check_list (au_names U) (au_env U) body (option_name v ++ option_name k ++ sc)) = true ->
    tin U tt t -> covers U sc st -> covers U sc st' /\ same_names st st'.

Lemma same_trans st1 st2 st3 : same_names st1 st2 -> same_names st2 st3 -> same_names st1 st3.
  Proof using. unfold same_names. congruence. Qed.

Lemma goal_fl_next md cond post body st t l st1 c st2 c2 st3 : goal_eval md (ds_env st) cond t l ->
    goal_exec md (leak l st) body st1 c -> goal_exec md (leave st st1) post st2 c2 ->
    goal_for md cond post body (leave st st2) st3 -> goal_for md cond post body st st3.
  Proof using.
    intros IHe IHb IHp IHf U w sc Hf Hw Hb Hck1 Hck2 Hc.
    destruct (expr_steady U cond w Hw) as [Hw1 _]. destruct (list_steady U post _ Hw1) as [Hw2 Hback1].
    pose proof (proj2 (list_steady U body _ Hw2) Hb) as Hb2. pose proof (Hback1 Hb2) as Hb1.
    pose proof (walk_expr_got md U w st sc cond t l Hf Hw Hc IHe Hb1) as Hcl.
    destruct (nested md U _ sc sc st (leak l st) body st1 c IHb Hf Hw2 Hb Hck1 Hcl) as [Hc1 Hn1]; [by exists []|done|].
    destruct (nested md U _ sc sc st (leave st st1) post st2 c2 IHp Hf Hw1 Hb2 Hck2 Hc1) as [Hc2 Hn2];
      [by apply extends_same|done|].
    destruct (IHf U w sc Hf Hw Hb Hck1 Hck2 Hc2) as [Hc3 Hn3]. split; [done|by eapply same_trans].
  Qed.

Lemma goal_x1_for md st init cond post body st1 st2 : goal_exec md st init st1 true ->
    goal_for md cond post body st1 st2 -> goal_exec1 md st (ForStmt init cond post body) (leave st st2).
  Proof using.
    intros IHi IHf U w sc sc' Hf Hw Hb Hck Hc. apply same_goal. simpl in Hck.
    apply keep_some in Hck as [Hck ->].
    destruct (check_seq (checks (au_names U) (au_env U)) init sc) as [sc1|] eqn:E; [|done].
    apply andb_true_iff in Hck as [Hck1 Hck2].
    destruct (list_steady U init w Hw) as [Hw0 _]. destruct (expr_steady U cond _ Hw0) as [Hw1 Hback0].
    destruct (list_steady U post _ Hw1) as [Hw2 Hback1]. pose proof (proj2 (list_steady U body _ Hw2) Hb) as Hb2.
    destruct (IHi U w sc sc1 Hf Hw (Hback0 (Hback1 Hb2)) E Hc) as [Hc1 He1].
    destruct (IHf U _ sc1 Hf Hw0 Hb Hck1 Hck2 Hc1) as [Hc2 Hn2].
    eapply leave_covers; [exact Hc|exact Hc2|]. eapply extends_trans; [exact He1|by apply extends_same].
  Qed.

Lemma goal_rl_next md k v t body st st1 c st2 : goal_exec md (bind_opt md v t (bind_opt md k [] st)) body st1 c ->
    goal_range md k v t body (leave st st1) st2 -> goal_range md k v t body st st2.
  Proof using.
    intros IHb IHr U w sc tt Hf Hw Htt Hb Hck Hin Hc.
    assert (length (escape_taint_new (au_n U)) = au_n U) as Hnew by apply length_replicate.
    destruct (bind_opt_steady U k _ Hnew w Hw) as [Hw1 _]. destruct (bind_opt_steady U v tt Htt _ Hw1) as [Hw2 Hback].
    pose proof (proj2 (list_steady U body _ Hw2) Hb) as Hb2.
    destruct (bind_opt_covers md U w k _ [] sc st Hf Hw Hnew (Hback Hb2) (tin_nil _ _) Hc) as [Hc1 He1].
    destruct (bind_opt_covers md U _ v tt t _ _ Hf Hw1 Htt Hb2 Hin Hc1) as [Hc2 He2].
    destruct (nested md U _ sc _ st _ body st1 c IHb Hf Hw2 Hb Hck Hc2) as [Hc3 Hn3]; [by eapply extends_trans|done|].
    destruct (IHr U w sc tt Hf Hw Htt Hb Hck Hin Hc3) as [Hc4 Hn4]. split; [done|by eapply same_trans].
  Qed.

Lemma goal_x1_range md st k v e body t l st' : goal_eval md (ds_env st) e t l ->
    goal_range md k v t body (leak l st) st' -> goal_exec1 md st (ForRangeStmt k v e body) (leave st st').
  Proof using.
    intros IHe IHr U w sc sc' Hf Hw Hb Hck Hc. apply same_goal. simpl in Hb, Hck.
    apply keep_some in Hck as [Hck ->]. destruct (taint_steady U e w Hw) as (H1&H2&_).
    pose proof (walk_taint_got md U w _ e t l Hf Hw (cv_env _ _ _ Hc) IHe) as Hgot.
    destruct (walk_taint (au_hooks U) (au_n U) w e) as [tt w1]. simpl in *.
    assert (length (escape_taint_new (au_n U)) = au_n U) as Hnew by apply length_replicate.
    destruct (bind_opt_steady U k _ Hnew w1 H2) as [Hw2 Hback1]. destruct (bind_opt_steady U v tt H1 _ Hw2) as [Hw3 Hback2].
    pose proof (proj2 (list_steady U body _ Hw3) Hb) as Hb3.
    destruct (Hgot (Hback1 (Hback2 Hb3))) as [G1 G2 _].
    destruct (IHr U w1 sc tt Hf H2 H1 Hb Hck G1 (covers_leak _ _ _ _ Hc G2)) as [Hc1 Hn1].
    eapply leave_covers; [exact Hc|exact Hc1|by apply extends_same].
  Qed.

Lemma goal_x1_return md st vs ts l : goal_evals md (ds_env st) vs ts l ->
    goal_exec1 md st (ReturnStmt vs) (give_back (concat ts) (leak l st)).
  Proof using.
    intros (ls&->&H) U w sc sc' Hf Hw Hb [= <-] Hc. split; [|by exists []].
    enough (all_marked U (concat ts) /\ all_marked U (concat ls)) as [H1 H2].
    { apply covers_give_back; [|done]. by apply covers_leak. }
    simpl in Hb. revert w Hw Hb. induction H as [|e t l es ts ls He H IH]; intros w Hw Hb.
    { split; apply all_marked_nil. }
    destruct (one_steady U (ReturnStmt [e]) w Hw) as [Hw1 _].
    pose proof (proj2 (one_steady U (ReturnStmt es) _ Hw1) Hb) as Hb1.
    destruct (IH _ Hw1 Hb) as [I1 I2]. simpl in Hb1.
    destruct (taint_steady U e w Hw) as (H1&H2&_).
    pose proof (walk_taint_got md U w _ e t l Hf Hw (cv_env _ _ _ Hc) He) as Hgot.
    destruct (walk_taint (au_hooks U) (au_n U) w e) as [tt w1]. simpl in *.
    assert (below U (walk_mark w1 tt ESCAPE_REASON_RETURN)) as Hbm.
    { eapply below_back; [by apply mark_steady| |exact Hb1].
      destruct (mark_steady U tt ESCAPE_REASON_RETURN w1 H2) as [Hm _].
      pose proof (grew_any_refl U _ Hm) as Hg. destruct (closed U (walk_mark w1 tt ESCAPE_REASON_RETURN)) as (_&_&_&_&Hret).
      exact (Hret _ tt Hg). }
    destruct (Hgot (proj2 (mark_steady U tt ESCAPE_REASON_RETURN w1 H2) Hbm)) as [G1 G2 _].
    split; apply all_marked_app; split; try done. by eapply walk_mark_marked.
  Qed.

Lemma below_parts md U w rs : fits md U -> rs_le (w_reasons w) rs ->
    below U (set_reasons w rs) -> w_env w = au_env U /\ au_ok U (w_owner w) /\ length (w_reasons w) = au_n U /\ settles U rs.
  Proof using.
    intros Hf Hs [H1 H2 H3 H4]. simpl in *. split_and!; try done.
    rewrite <- (proj1 Hs), <- (proj1 H4). apply (ft_length _ _ Hf).
  Qed.

Lemma go_below md U w e why : fits md U -> pre U w ->
    below U (set_reasons w (handle_go_call (au_hooks U) (au_n U) (w_env w) (w_owner w) e why (w_reasons w))) ->
    au_ok U (w_owner w) /\ length (w_reasons w) = au_n U /\ settles U (go_in U (w_owner w) e why (w_reasons w)).
  Proof using.
    intros Hf Hw Hb. destruct (below_parts md U w _ Hf (go_call_le _ _ _ _ (proj1 Hw) _ _ _) Hb) as (E&Ho&Hn&Hle).
    by rewrite E in Hle.
  Qed.

Lemma goal_x1_go md st id fn args sp tf lf ts l : goal_eval md (ds_env st) fn tf lf ->
    goal_evals md (ds_env st) args ts l ->
    goal_exec1 md st (GoStmt (CallExpr id fn args sp)) (leak (tf ++ concat ts ++ lf ++ l) st).
  Proof using.
    intros IHf (ls&->&H) U w sc sc' Hf Hw Hb [= <-] Hc. split; [|by exists []]. apply covers_leak; [done|].
    destruct (go_below md U w _ _ Hf Hw Hb) as (Ho&Hn&Hle).
    destruct (go_call_parts md U (ds_env st) (w_owner w) id fn args sp ts ls _ (w_reasons w) Hf (cv_env _ _ _ Hc) Ho H Hn Hle)
      as (H1&H2&H3).
    destruct (taint_in_ok md U (w_owner w) fn (w_reasons w) Hf) as [H4 H5].
    pose proof (ge_taint _ _ _ _ _ IHf U (w_owner w) (w_reasons w) Hf (cv_env _ _ _ Hc) Ho Hn) as Hgot.
    pose proof (le_length _ _ _ H5 Hn) as Hn1.
    destruct (taint_in U (w_owner w) fn (w_reasons w)) as [tt rs1]. simpl in *.
    destruct Hgot as [G1 G2 _]; [by etrans; [apply (escape_mark_le tt ESCAPE_REASON_GO_ARG)|]|].
    rewrite !all_marked_app. split_and!; try done. by eapply (tin_marked U tt).
  Qed.

Lemma goal_x1_go_value md st e t l : goal_eval md (ds_env st) e t l -> goal_exec1 md st (GoStmt e) (leak (t ++ l) st).
  Proof using.
    intros IH U w sc sc' Hf Hw Hb [= <-] Hc. split; [|by exists []]. apply covers_leak; [done|].
    destruct (go_below md U w _ _ Hf Hw Hb) as (Ho&Hn&Hle).
    exact (ge_go _ _ _ _ _ IH U (w_owner w) (w_reasons w) _ Hf (cv_env _ _ _ Hc) Ho Hn Hle).
  Qed.

Lemma goal_x1_defer md st e t l : goal_eval md (ds_env st) e t l -> goal_exec1 md st (DeferStmt e) (leak l st).
  Proof using.
    intros IH U w sc sc' Hf Hw Hb [= <-] Hc. split; [|by exists []]. simpl in Hb. unfold handle_defer_call in Hb.
    destruct (defer_is_like_go (au_hooks U)).
    - apply covers_leak; [done|]. destruct (go_below md U w _ _ Hf Hw Hb) as (Ho&Hn&Hle).
      by apply (ge_go _ _ _ _ _ IH U (w_owner w) (w_reasons w) _ Hf (cv_env _ _ _ Hc) Ho Hn), all_marked_app in Hle as [_ ?].
    - apply (walk_expr_got md U w st sc e t l Hf Hw Hc IH).
      unfold walk_expr, walk_taint. by destruct (escape_expr_taint _ _ _ _ e _).
  Qed.

(** Declarations and assignments of several names. *)
Lemma values_bound md U w st sc xs vs ts l : fits md U -> pre U w -> covers U sc st ->
    goal_evals md (ds_env st) vs ts l -> below U (escape_seed_names_from_values (au_hooks U) (au_n U) w xs vs) ->
    covers U (xs ++ sc) (bind_all md xs (spread_values xs ts) (leak l st)) /\
    extends st (bind_all md xs (spread_values xs ts) (leak l st)).
  Proof using.
    intros Hf Hw Hc IH Hb. unfold escape_seed_names_from_values in Hb.
    assert (length (escape_taint_new (au_n U)) = au_n U) as Hnew by apply length_replicate.
    destruct (union_steady U vs _ w Hw Hnew) as (H1&H2&_).
    pose proof (walk_union_covered md U w vs ts l _ _ Hf Hw (cv_env _ _ _ Hc) Hnew IH) as Hu.
    destruct (walk_union (au_hooks U) (au_n U) w vs _) as [tt w1]. simpl in *.
    pose proof (proj2 (fold_steady U (fun w x => walk_bind (au_hooks U) w x tt) xs
      (fun x _ => bind_steady U x tt H1) _ H2) Hb) as Hb1.
    destruct (Hu Hb1) as (U1&U2&_&_).
    apply (bind_all_covers md U xs _ w1 tt sc (leak l st)); try done; [apply length_spread| |by apply covers_leak].
    apply Forall_forall. intros t Ht s Hs. apply U1. by eapply spread_elem.
  Qed.

Lemma goal_x1_declare md st s xs vs ts l : s = VarDecl xs vs \/ s = ConstDecl xs vs ->
    goal_evals md (ds_env st) vs ts l ->
    goal_exec1 md st s (bind_all md xs (spread_values xs ts) (leak l st)).
  Proof using.
    intros Hs IH U w sc sc' Hf Hw Hb Hck Hc.
    assert (sc' = xs ++ sc) as -> by (destruct Hs as [->| ->]; by injection Hck).
    apply (values_bound md U w st sc xs vs ts l); try done. by destruct Hs as [->| ->].
  Qed.

Lemma short_is_seed U w ts vs : forallb is_name ts = true ->
    multi_assign (au_hooks U) (au_n U) w ts vs true =
    escape_seed_names_from_values (au_hooks U) (au_n U) w (flat_map name_of ts) vs.
  Proof using.
    intros H. unfold multi_assign, escape_seed_names_from_values.
    destruct (walk_union (au_hooks U) (au_n U) w vs _) as [tt w1]. revert w1.
    induction ts as [|t ts IH]; intros w1; [done|]. simpl in H |- *. apply andb_true_iff in H as [H1 H2].
    destruct t; try done. simpl. by apply IH.
  Qed.

Lemma goal_x1_short md st tgts vs xs ts l : tgts = map Identifier xs -> goal_evals md (ds_env st) vs ts l ->
    goal_exec1 md st (MultiAssign tgts vs true) (bind_all md xs (spread_values xs ts) (leak l st)).
  Proof using.
    intros -> IH U w sc sc' Hf Hw Hb Hck Hc. simpl in Hck.
    assert (forallb is_name (map Identifier xs) = true) as Hnm by (clear; induction xs; simpl; auto).
    rewrite Hnm in Hck. injection Hck as <-.
    assert (flat_map name_of (map Identifier xs) = xs) as Hnames by (clear; induction xs; simpl; congruence).
    rewrite Hnames.
    apply (values_bound md U w st sc xs vs ts l); try done. simpl in Hb. rewrite short_is_seed in Hb by done.
    by rewrite Hnames in Hb.
  Qed.

Lemma goal_x1_assign md st tgts vs ts l st' : goal_evals md (ds_env st) vs ts l ->
    goal_assigns md (leak l st) tgts (spread_values tgts ts) st' ->
    goal_exec1 md st (MultiAssign tgts vs false) st'.
  Proof using.
    intros IHv IHa U w sc sc' Hf Hw Hb Hck Hc. apply same_goal. simpl in Hck, Hb.
    apply keep_some in Hck as [Hck ->]. unfold multi_assign in Hb.
    assert (length (escape_taint_new (au_n U)) = au_n U) as Hnew by apply length_replicate.
    destruct (union_steady U vs _ w Hw Hnew) as (H1&H2&_).
    pose proof (walk_union_covered md U w vs ts l _ _ Hf Hw (cv_env _ _ _ Hc) Hnew IHv) as Hu.
    destruct (walk_union (au_hooks U) (au_n U) w vs _) as [tt w1]. simpl in *.
    pose proof (proj2 (fold_steady U (fun w l => assign_to_lvalue (au_hooks U) (au_n U) w l tt) tgts
      (fun l _ => assign_steady U l tt H1) _ H2) Hb) as Hb1.
    destruct (Hu Hb1) as (U1&U2&U3&_).
    assert (forall t, t ∈ spread_values tgts ts -> from U (ds_env st) (flat_map value_names vs) t) as Hfr.
    { intros t Ht. eapply from_sub; [done| |exact U3]. intros s. exact (spread_elem _ _ _ s Ht). }
    apply (IHa U w1 sc (existsb is_name tgts) (flat_map value_names vs) tt); try done.
    - intros E. apply forallb_forall. intros x Hx. apply negb_true_iff.
      destruct (is_name x) eqn:Ex; [|done]. assert (existsb is_name tgts = true) by (apply existsb_exists; eauto). congruence.
    - apply Forall_forall. intros t Ht. split; [intros s Hs; apply U1; by eapply spread_elem|].
      eapply from_from_env; [apply (cv_env _ _ _ Hc)|auto].
    - intros _. apply Forall_forall. auto.
    - by apply covers_leak.
  Qed.

(** Cases. *)
Lemma in_order_below {A} U (f : A -> Walk (au_owner U) -> Walk (au_owner U)) xs x w : (forall x, steady U (f x)) ->
    x ∈ xs -> pre U w -> below U (in_order f xs w) -> exists w', pre U w' /\ below U (f x w').
  Proof using.
    intros Hf Hx. revert w. induction Hx as [x xs|x y xs Hx IH]; intros w Hw Hb; simpl in Hb.
    - exists w. split; [done|]. eapply (in_order_steady U f xs); [by intros|apply Hf, Hw|exact Hb].
    - apply (IH (f y w)); [apply Hf, Hw|exact Hb].
  Qed.

Lemma fold_below U es e w : e ∈ es -> pre U w -> below U (fold_left (walk_expr (au_hooks U) (au_n U)) es w) ->
    exists w', pre U w' /\ below U (walk_expr (au_hooks U) (au_n U) w' e).
  Proof using.
    intros He. revert w. induction He as [e es|e y es He IH]; intros w Hw Hb; simpl in Hb.
    - exists w. split; [done|]. eapply (fold_steady U (fun w e => walk_expr (au_hooks U) (au_n U) w e) es);
        [intros x _; apply expr_steady|apply expr_steady, Hw|exact Hb].
    - exact (IH _ (proj1 (expr_steady U y w Hw)) Hb).
  Qed.

Lemma evals_leaks md U r es ts l : fits md U -> covers_env U r -> goal_evals md r es ts l ->
    (forall e, e ∈ es -> exists w, pre U w /\ below U (walk_expr (au_hooks U) (au_n U) w e)) -> all_marked U l.
  Proof using.
    intros Hf Hr (ls&->&H). induction H as [|e t l es ts ls He H IH]; intros Hw; simpl; [apply all_marked_nil|].
    apply all_marked_app. split; [|apply IH; intros x Hx; apply Hw; by right].
    destruct (Hw e ltac:(by left)) as (w&Hw1&Hb). by eapply (walk_taint_got md U w r e t l Hf Hw1 Hr He).
  Qed.

Lemma case_steady U (c : list Expr * list Stmt) :
    steady U (fun w => walk U (snd c) (fold_left (walk_expr (au_hooks U) (au_n U)) (fst c) w)).
  Proof using.
    apply (steady_comp U (fun w => fold_left (walk_expr (au_hooks U) (au_n U)) (fst c) w)); [|apply list_steady].
    apply (fold_steady U (fun w e => walk_expr (au_hooks U) (au_n U) w e)). intros e _. apply expr_steady.
  Qed.

(** What the walk of a switch went through. *)
Lemma switch_parts md U w st sc tag cases es t l ts ls : fits md U -> pre U w -> covers U sc st ->
    below U (escape_walk_one (au_hooks U) (au_n U) (SwitchStmt tag cases) w) ->
    goal_eval md (ds_env st) tag t l -> goal_evals md (ds_env st) es ts ls ->
    (forall e, e ∈ es -> exists c, c ∈ cases /\ e ∈ fst c) ->
    covers U sc (leak (ls ++ l) st) /\
    forall es body, (es, body) ∈ cases -> exists w', pre U w' /\ below U (walk U body w').
  Proof using.
    intros Hf Hw Hc Hb IHt IHe Hes. simpl in Hb.
    destruct (expr_steady U tag w Hw) as [Hw1 _].
    pose proof (proj2 (in_order_steady U _ cases (fun c _ => case_steady U c) _ Hw1) Hb) as Hb1.
    assert (Hcase : forall c, c ∈ cases -> exists w', pre U w' /\
      below U (walk U (snd c) (fold_left (walk_expr (au_hooks U) (au_n U)) (fst c) w'))).
    { intros c Hin. exact (in_order_below U _ cases c _ (case_steady U) Hin Hw1 Hb). }
    assert (Hfold : forall (c : list Expr * list Stmt) w, pre U w ->
      pre U (fold_left (walk_expr (au_hooks U) (au_n U)) (fst c) w)).
    { intros c w' Hw'. apply (fold_steady U (fun w e => walk_expr (au_hooks U) (au_n U) w e) (fst c)); [|done].
      intros e _. apply expr_steady. }
    split.
    - apply covers_leak; [done|]. apply all_marked_app. split.
      + eapply (evals_leaks md U _ es); [done|apply (cv_env _ _ _ Hc)|exact IHe|].
        intros e He. destruct (Hes e He) as (c&Hin&Hec). destruct (Hcase c Hin) as (w'&Hw'&Hb').
        apply (fold_below U (fst c) e w'); try done. exact (proj2 (list_steady U (snd c) _ (Hfold c w' Hw')) Hb').
      + by eapply (walk_taint_got md U w _ tag t l Hf Hw (cv_env _ _ _ Hc) IHt).
    - intros es' body Hin. destruct (Hcase _ Hin) as (w'&Hw'&Hb'). eexists. split; [|exact Hb']. by apply (Hfold (es', body)).
  Qed.

Lemma in_conditions {A} (cases : list (list Expr * A)) e : e ∈ concat (map fst cases) -> exists c, c ∈ cases /\ e ∈ fst c.
  Proof using.
    intros He. apply list_elem_of_In, in_concat in He as (es&Hes&He). apply in_map_iff in Hes as (c&<-&Hc).
    exists c. by split; apply list_elem_of_In.
  Qed.

Lemma forallb_elem {A} (f : A -> bool) xs x : forallb f xs = true -> x ∈ xs -> f x = true.
  Proof using. intros H Hx. rewrite forallb_forall in H. by apply H, list_elem_of_In. Qed.

Lemma goal_x1_switch md st tag cases k t l ts ls es body st' c : goal_eval md (ds_env st) tag t l ->
    goal_evals md (ds_env st) (concat (map fst (take k cases))) ts ls ->
    (es, body) ∈ cases -> goal_exec md (leak (ls ++ l) st) body st' c ->
    goal_exec1 md st (SwitchStmt tag cases) (leave st st').
  Proof using.
    intros IHt IHe Hin IHb U w sc sc' Hf Hw Hb Hck Hc. apply same_goal. simpl in Hck.
    apply keep_some in Hck as [Hck ->].
    destruct (switch_parts md U w st sc tag cases _ t l ts ls Hf Hw Hc Hb IHt IHe) as [Hc1 Hbody].
    { intros e He. apply in_conditions in He as (c'&Hc'&?). exists c'. split; [|done]. revert Hc'. apply subseteq_take. }
    destruct (Hbody es body Hin) as (w'&Hw'&Hb').
    apply (nested md U w' sc sc st _ body st' c IHb Hf Hw' Hb'); [|exact Hc1|by exists []|done].
    exact (forallb_elem _ _ _ Hck Hin).
  Qed.

Lemma goal_x1_switch_none md st tag cases t l ts ls : goal_eval md (ds_env st) tag t l ->
    goal_evals md (ds_env st) (concat (map fst cases)) ts ls ->
    goal_exec1 md st (SwitchStmt tag cases) (leak (ls ++ l) st).
  Proof using.
    intros IHt IHe U w sc sc' Hf Hw Hb Hck Hc. simpl in Hck. apply keep_some in Hck as [Hck ->].
    destruct (switch_parts md U w st sc tag cases _ t l ts ls Hf Hw Hc Hb IHt IHe) as [Hc1 _].
    { apply in_conditions. } split; [done|by exists []].
  Qed.

Lemma type_switch_walk U e x cases w :
    escape_walk_one (au_hooks U) (au_n U) (TypeSwitch e x cases) w =
    in_order (escape_walk_stmt (au_hooks U) (au_n U)) cases
      (let '(t, w) := walk_taint (au_hooks U) (au_n U) w e in walk_bind_opt (au_hooks U) w x t).
  Proof using. simpl. by destruct (walk_taint (au_hooks U) (au_n U) w e). Qed.

Lemma type_switch_parts md U w st sc e x cases t l : fits md U -> pre U w -> covers U sc st ->
    below U (escape_walk_one (au_hooks U) (au_n U) (TypeSwitch e x cases) w) -> goal_eval md (ds_env st) e t l ->
    covers U sc (leak l st) /\ covers U (option_name x ++ sc) (bind_opt md x t (leak l st)) /\
    extends st (bind_opt md x t (leak l st)) /\
    forall body, body ∈ cases -> exists w', pre U w' /\ below U (walk U body w').
  Proof using.
    intros Hf Hw Hc Hb IH. rewrite type_switch_walk in Hb. pose proof (taint_bind_pre U w e x Hw) as Hw1.
    pose proof (proj2 (in_order_steady U _ cases (fun c _ => list_steady U c) _ Hw1) Hb) as Hb1.
    destruct (bound_value md U w st sc x e t l Hf Hw Hc IH Hb1) as (_&H1&H2&H3). split_and!; try done.
    intros body Hin. exact (in_order_below U _ cases body _ (list_steady U) Hin Hw1 Hb).
  Qed.

Lemma goal_x1_type_switch md st e x cases t l body st' c : goal_eval md (ds_env st) e t l -> body ∈ cases ->
    goal_exec md (bind_opt md x t (leak l st)) body st' c -> goal_exec1 md st (TypeSwitch e x cases) (leave st st').
  Proof using.
    intros IHe Hin IHb U w sc sc' Hf Hw Hb Hck Hc. apply same_goal. simpl in Hck.
    apply keep_some in Hck as [Hck ->].
    destruct (type_switch_parts md U w st sc e x cases t l Hf Hw Hc Hb IHe) as (_&Hc1&He1&Hbody).
    destruct (Hbody body Hin) as (w'&Hw'&Hb').
    apply (nested md U w' sc (option_name x ++ sc) st _ body st' c IHb Hf Hw' Hb'); [|exact Hc1|done|done].
    exact (forallb_elem _ _ _ Hck Hin).
  Qed.

Lemma goal_x1_type_switch_none md st e x cases t l : goal_eval md (ds_env st) e t l ->
    goal_exec1 md st (TypeSwitch e x cases) (leak l st).
  Proof using.
    intros IHe U w sc sc' Hf Hw Hb Hck Hc. simpl in Hck. apply keep_some in Hck as [_ ->].
    destruct (type_switch_parts md U w st sc e x cases t l Hf Hw Hc Hb IHe) as (Hc1&_). split; [done|by exists []].
  Qed.

Lemma select_steady U (c : SelectHead * list Stmt) :
    steady U (fun w => walk U (snd c) (escape_walk_expr_stmt (au_hooks U) (au_n U) w (sc_comm (fst c)))).
  Proof using.
    apply (steady_comp U (fun w => escape_walk_expr_stmt (au_hooks U) (au_n U) w (sc_comm (fst c))));
      [apply expr_stmt_steady|apply list_steady].
  Qed.

Lemma goal_x1_select md st cases head body st1 st' c : (head, body) ∈ cases ->
    goal_exec_expr md st (sc_comm head) st1 -> goal_exec md st1 body st' c ->
    goal_exec1 md st (SelectStmt cases) (leave st st').
  Proof using.
    intros Hin IHe IHb U w sc sc' Hf Hw Hb Hck Hc. apply same_goal. simpl in Hck.
    apply keep_some in Hck as [Hck ->].
    destruct (in_order_below U _ cases (head, body) w (select_steady U) Hin Hw Hb) as (w'&Hw'&Hb'). simpl in Hb'.
    destruct (expr_stmt_steady U (sc_comm head) w' Hw') as [Hw1 _]. pose proof (proj2 (list_steady U body _ Hw1) Hb') as Hb1.
    pose proof (forallb_elem _ _ _ Hck Hin) as Hc2. simpl in Hc2. apply andb_true_iff in Hc2 as [Hce Hcb].
    destruct (IHe U w' sc Hf Hw' Hb1 Hce Hc) as [Hc1 Hn1].
    apply (nested md U _ sc sc st st1 body st' c IHb Hf Hw1 Hb' Hcb Hc1); [by apply extends_same|done].
  Qed.

Lemma goal_x1_assert md st e m te le tm lm : goal_eval md (ds_env st) e te le -> goal_eval md (ds_env st) m tm lm ->
    goal_exec1 md st (AssertStmt e m) (leak (lm ++ le) st).
  Proof using.
    intros IHe IHm U w sc sc' Hf Hw Hb [= <-] Hc. split; [|by exists []]. simpl in Hb.
    destruct (expr_steady U e w Hw) as [Hw1 _]. pose proof (proj2 (expr_steady U m _ Hw1) Hb) as Hb1.
    pose proof (walk_expr_got md U w st sc e te le Hf Hw Hc IHe Hb1) as Hc1.
    pose proof (walk_expr_got md U _ (leak le st) sc m tm lm Hf Hw1 Hc1 IHm Hb) as Hc2.
    destruct Hc2. constructor; try done. simpl in *. by rewrite <- app_assoc.
  Qed.

Lemma goal_x1_assume md st e t l : goal_eval md (ds_env st) e t l -> goal_exec1 md st (AssumeStmt e) (leak l st).
  Proof using.
    intros IH U w sc sc' Hf Hw Hb [= <-] Hc. split; [|by exists []].
    by apply (walk_expr_got md U w st sc e t l Hf Hw Hc IH).
  Qed.

Lemma goal_x1_unknown md st l : Forall (fun s => s < md_width md) l -> goal_exec1 md st OtherStmt (leak l st).
  Proof using.
    intros Hl U w sc sc' Hf Hw Hb [= <-] Hc. split; [|by exists []]. simpl in Hb.
    destruct (mark_all_spec ESCAPE_REASON_UNCLASSIFIED (w_reasons w)) as [H1 H2].
    destruct (below_parts md U w _ Hf H1 Hb) as (_&_&Hn&Hle).
    apply covers_leak; [done|]. intros s Hs. rewrite Forall_forall in Hl. eapply marked_le; [exact Hle|].
    apply H2. rewrite Hn, <- (ft_width _ _ Hf). auto.
  Qed.

(** ** The simulation *)
(** A function of the program is a unit at its fixpoint, and its summary says what was marked;
    or the summary says that everything escapes. *)
Definition analysed (f : string) (fd : FuncDecl) (body : list Stmt) : Prop :=
    exists esc ret, finished_retention (Some sums) f = Some (esc, ret) /\ length esc = length (params_of fd) /\
    ((forall i, i < length esc -> esc !! i = Some true) \/
     exists U w sc', fits (param_mode fd body) U /\ pre U w /\ below U (walk U body w) /\
       check_list (au_names U) (au_env U) body (params_of fd) = Some sc' /\ covers U (params_of fd) (enter fd) /\
       forall i, marked (au_reasons U) i -> esc !! i = Some true).

  Context (all_analysed : forall f fd body, function_of P f = Some fd -> fd_body fd = Some body -> analysed f fd body).

Lemma goal_ev_call md r id f args sp fd body ts l st c : function_of P f = Some fd -> fd_body fd = Some body ->
    goal_evals md r args ts l -> goal_exec (param_mode fd body) (enter fd) body st c ->
    goal_eval md r (CallExpr id (Identifier f) args sp) (passed fd (ds_returned st) ts)
      (passed fd (ds_leaked st) ts ++ l).
  Proof using all_analysed.
    intros Hfd Hbody IHa IHb. destruct (all_analysed f fd body Hfd Hbody) as (esc&ret&Hsum&Hlen&Hor).
    eapply goal_call; [exact Hsum|exact Hlen| |exact IHa]. intros i Hi Hlt.
    destruct Hor as [Hall|(U&w&sc'&Hf&Hw&Hb&Hck&Hc&Hm)]; [auto|].
    destruct (IHb U w _ sc' Hf Hw Hb Hck Hc) as [[_ Hl Hr _] _].
    apply elem_of_app in Hi as [Hi|Hi]; apply Hm; [by apply Hl|by apply Hr].
  Qed.

Lemma simulation :
    (forall md r e t l, eval P false md r e t l -> goal_eval md r e t l) /\
    (forall md r es ts l, evals P false md r es ts l -> goal_evals md r es ts l) /\
    (forall md st e t b st', assign P false md st e t b st' -> goal_assign md st e t b st') /\
    (forall md st es ts st', assigns P false md st es ts st' -> goal_assigns md st es ts st') /\
    (forall md st e st', exec_expr P false md st e st' -> goal_exec_expr md st e st') /\
    (forall md st ss st' c, exec P false md st ss st' c -> goal_exec md st ss st' c) /\
    (forall md st s st', exec1 P false md st s st' -> goal_exec1 md st s st') /\
    (forall md c p b st st', for_loop P false md c p b st st' -> goal_for md c p b st st') /\
    (forall md k v t b st st', range_loop P false md k v t b st st' -> goal_range md k v t b st st').
  Proof using sums_named all_analysed.
    apply executions_ind; intros.
    - apply goal_name.
    - by eapply goal_inner.
    - by eapply goal_index.
    - by eapply goal_elements.
    - apply goal_closure.
    - by apply goal_unknown.
    - by eapply goal_ev_call.
    - by eapply goal_call_known.
    - by eapply goal_call_append.
    - by eapply goal_call_opaque.
    - exists []. split; [done|constructor].
    - destruct H2 as (ls'&->&H2). exists (l :: ls'). split; [done|by constructor].
    - apply goal_as_nothing.
    - apply goal_as_blank.
    - by apply goal_as_local.
    - by apply goal_as_outside.
    - by eapply goal_as_index.
    - by eapply goal_as_place.
    - intros U w sc strict names tt. done.
    - by eapply goal_ass_cons.
    - intros U w sc. done.
    - by eapply goal_xe_assign.
    - by eapply goal_xe_send.
    - by eapply goal_xe_expr.
    - intros U w sc sc' _ _ _ [= <-]. by split; [|exists []].
    - intros U w sc sc' _ _ _ _ Hc. split; [|by exists []]. by eapply covers_scope; [|exact Hc]; intros x ?%elem_of_nil.
    - by eapply goal_ex_outside.
    - by eapply goal_ex_captured.
    - by eapply goal_ex_next.
    - by eapply goal_x1_block.
    - intros U w sc sc' Hf Hw Hb Hck Hc. simpl in Hck. apply keep_some in Hck as [Hck ->]. apply same_goal. eauto.
    - by eapply goal_x1_if.
    - by eapply goal_x1_iflet.
    - by eapply goal_x1_iflet_else.
    - by eapply goal_x1_range.
    - by eapply goal_x1_for.
    - by apply goal_x1_return.
    - by apply goal_x1_go.
    - by apply goal_x1_go_value.
    - by eapply goal_x1_defer.
    - intros U w sc sc' _ _ _ Hck Hc. split; [|by exists []]. destruct H as [->| ->]; by injection Hck as <-.
    - by eapply goal_x1_declare.
    - by eapply goal_x1_short.
    - by eapply goal_x1_assign.
    - by eapply goal_x1_switch.
    - by eapply goal_x1_switch_none.
    - by eapply goal_x1_type_switch.
    - by eapply goal_x1_type_switch_none.
    - by eapply goal_x1_select.
    - by eapply goal_x1_assert.
    - by eapply goal_x1_assume.
    - by apply goal_x1_unknown.
    - intros U w sc _ _ _ _ _ Hc. done.
    - intros U w sc Hf Hw Hb _ _ Hc. split; [|done].
      destruct (expr_steady U cond w Hw) as [Hw1 _]. destruct (list_steady U post _ Hw1) as [Hw2 Hback1].
      apply (walk_expr_got md U w st sc cond t l Hf Hw Hc); [done|]. exact (Hback1 (proj2 (list_steady U body _ Hw2) Hb)).
    - by eapply goal_fl_next.
    - intros U w sc tt _ _ _ _ _ _ Hc. done.
    - by eapply goal_rl_next.
  Qed.

(** ** Captured names *)
(** Every function literal of a checked unit is looked at by its walk. *)
Definition caught (U : AUnit) (xs : list string) : Prop :=
    forall x t, x ∈ xs -> escape_env_find (au_env U) x = Some t -> forall s, bit t s -> marked (au_reasons U) s.

Lemma caught_app U xs ys : caught U (xs ++ ys) <-> caught U xs /\ caught U ys.
  Proof using.
    unfold caught. split.
    - intros H. split; intros x t Hx; apply H; apply elem_of_app; auto.
    - intros [H1 H2] x t [Hx|Hx]%elem_of_app; eauto.
  Qed.

Lemma caught_nil U : caught U [].
  Proof using. by intros x t ?%elem_of_nil. Qed.

Lemma caught_list md U o es rs : fits md U -> length rs = au_n U -> settles U (snd (expr_taints (taint_in U o) es rs)) ->
    Forall (fun e => forall rs, length rs = au_n U -> settles U (snd (taint_in U o e rs)) -> caught U (captures e)) es ->
    caught U (captures_list captures es).
  Proof using.
    intros Hf Hn Hle H. revert rs Hn Hle. induction H as [|e es He _ IH]; intros rs Hn Hle; simpl in *; [apply caught_nil|].
    destruct (taint_in_ok md U o e rs Hf) as [_ H1]. specialize (He rs Hn). destruct (taint_in U o e rs) as [t rs1].
    destruct (taints_in_ok md U o es rs1 Hf) as [_ H2]. specialize (IH rs1 (le_length _ _ _ H1 Hn)).
    destruct (expr_taints (taint_in U o) es rs1) as [ts rs2]. simpl in *.
    apply caught_app. split; [apply He; by etrans|auto].
  Qed.

Lemma caught_taint md U o e : fits md U -> au_ok U o ->
    forall rs, length rs = au_n U -> settles U (snd (taint_in U o e rs)) -> caught U (captures e).
  Proof using.
    intros Hf Ho.
    assert (Hseq : forall e1 (k : TaintSet -> Reasons -> TaintSet * Reasons) rs, length rs = au_n U ->
      (forall rs, length rs = au_n U -> settles U (snd (taint_in U o e1 rs)) -> caught U (captures e1)) ->
      (forall t rs, rs_le rs (snd (k t rs))) ->
      settles U (snd (let '(t, rs) := taint_in U o e1 rs in k t rs)) ->
      caught U (captures e1) /\ exists t rs, length rs = au_n U /\ settles U (snd (k t rs))).
    { intros e1 k rs Hn He Hk Hle. destruct (taint_in_ok md U o e1 rs Hf) as [_ H1]. specialize (He rs Hn).
      destruct (taint_in U o e1 rs) as [t rs1]. simpl in *. split; [apply He; etrans; [apply Hk|exact Hle]|].
      exists t, rs1. split; [by eapply le_length|exact Hle]. }
    assert (Hk1 : forall e1 (f : TaintSet -> TaintSet) rs, rs_le rs (snd (let '(t, rs) := taint_in U o e1 rs in (f t, rs)))).
    { intros e1 f rs. destruct (taint_in_ok md U o e1 rs Hf) as [_ H1]. by destruct (taint_in U o e1 rs). }
    assert (Hl : forall es (f : list TaintSet -> TaintSet) rs, length rs = au_n U ->
      Forall (fun e => forall rs, length rs = au_n U -> settles U (snd (taint_in U o e rs)) -> caught U (captures e)) es ->
      settles U (snd (let '(ts, rs) := expr_taints (taint_in U o) es rs in (f ts, rs))) -> caught U (captures_list captures es)).
    { intros es f rs Hn H Hle. eapply (caught_list md U o es rs); [done|done| |done].
      by destruct (expr_taints (taint_in U o) es rs). }
    induction e as [|x| |op l r IHl IHr|id op e IH|e IH|e i IH IHi|e lo hi IH IHl IHh|e s IH
      |id fn args sp IHf IHa|id c|es IH|es IH|es IH|e IH|ks vs IHk IHv|e IH|e IH|] using Expr_ind;
      intros rs Hn Hle; simpl in Hle |- *; try apply caught_nil; try (by eapply IH); try (by eapply Hl).
    - apply caught_app. destruct (Hseq l _ rs Hn IHl (fun t rs => Hk1 r (taint_union t) rs) Hle) as (H1&t&rs1&Hn1&Hle1).
      split; [done|]. apply (IHr rs1 Hn1). by destruct (taint_in U o r rs1).
    - rewrite (site_none U o id Ho) in Hle. apply (IH rs Hn). by destruct (taint_in U o e rs).
    - apply caught_app. destruct (Hseq e _ rs Hn IH (fun t rs => Hk1 i (fun _ => t) rs) Hle) as (H1&t&rs1&Hn1&Hle1).
      split; [done|]. apply (IHi rs1 Hn1). by destruct (taint_in U o i rs1).
    - rewrite !caught_app. destruct (Hseq e (fun t rs => let '(tl, rs) := taint_in U o lo rs in
        let '(th, rs) := taint_in U o hi rs in (taint_union (taint_union t tl) th, rs)) rs Hn IH) as (H1&t&rs1&Hn1&Hle1); [|exact Hle|].
      { intros t rs1. destruct (taint_in_ok md U o lo rs1 Hf) as [_ H2]. destruct (taint_in U o lo rs1) as [tl rs2]. simpl in *.
        destruct (taint_in_ok md U o hi rs2 Hf) as [_ H3]. destruct (taint_in U o hi rs2). simpl in *. by etrans. }
      destruct (Hseq lo _ rs1 Hn1 IHl (fun tl rs => Hk1 hi (taint_union (taint_union t tl)) rs) Hle1) as (H2&tl&rs2&Hn2&Hle2).
      split_and!; [done|done|]. apply (IHh rs2 Hn2). by destruct (taint_in U o hi rs2).
    - destruct (call_parts md U o id fn args sp rs Hf Ho Hn Hle) as (tts&ct&rs2&_&H1&H2&H3&H4&_&_&H5).
      apply caught_app. split; [|by eapply (caught_list md U o args rs)].
      destruct (taints_in_ok md U o args rs Hf) as [_ H6]. pose proof (le_length _ _ _ H6 Hn) as Hn1.
      specialize (IHf (snd (expr_taints (taint_in U o) args rs)) Hn1).
      destruct fn; try apply caught_nil; apply IHf; unfold callee_value in H2;
        match goal with |- context [taint_in U o ?e ?rs] => destruct (taint_in U o e rs) as [t1 rs3] end;
        injection H2 as -> ->; (etrans; [apply (escape_mark_le t1 ESCAPE_REASON_CALLEE_VALUE)|exact H3]).
    - intros x t Hx Ht s Hs. eapply marked_le; [exact Hle|].
      apply escape_mark_marks.
      + apply bit_union_all.
        * apply Forall_forall. intros u Hu. apply list_elem_of_omap in Hu as (y&_&Hy).
          by eapply env_find_wide; [apply (ft_wide _ _ Hf)|].
        * exists t. split; [|done]. apply list_elem_of_omap. eauto.
      + apply bit_lt in Hs. rewrite (env_find_wide _ _ _ _ (ft_wide _ _ Hf) Ht) in Hs. lia.
    - apply caught_app. destruct (taints_in_ok md U o ks rs Hf) as [_ H1].
      assert (exists rs1, snd (expr_taints (taint_in U o) ks rs) = rs1 /\ settles U (snd (expr_taints (taint_in U o) vs rs1)))
        as (rs1&E&Hle1).
      { destruct (expr_taints (taint_in U o) ks rs) as [tk rs1]. exists rs1. split; [done|].
        by destruct (expr_taints (taint_in U o) vs rs1). }
      destruct (taints_in_ok md U o vs rs1 Hf) as [_ H2]. subst rs1. split.
      + eapply (caught_list md U o ks rs); [done|done|by etrans|done].
      + exact (caught_list md U o vs _ Hf (le_length _ _ _ H1 Hn) Hle1 IHv).
  Qed.

Lemma caught_place md U o e : fits md U -> au_ok U o -> simple_place e = true ->
    forall rs, length rs = au_n U -> settles U (place_in U o e rs) -> caught U (captures e).
  Proof using.
    intros Hf Ho. induction e using Expr_ind; intros Hs rs Hn Hle; try done; simpl in *; try apply caught_nil; try (by eapply IHe).
    apply caught_app. destruct (taint_in_ok md U o e2 rs Hf) as [_ H1].
    pose proof (caught_taint md U o e2 Hf Ho rs Hn) as H2.
    destruct (taint_in U o e2 rs) as [t rs1]. simpl in *. pose proof (le_length _ _ _ H1 Hn) as Hn1.
    pose proof (escape_mark_le t ESCAPE_REASON_SUBSCRIPT_STORE rs1) as H3. pose proof (le_length _ _ _ H3 Hn1) as Hn2.
    pose proof (place_le md U o e1 (escape_mark t ESCAPE_REASON_SUBSCRIPT_STORE rs1) Hf) as H4.
    split; [exact (IHe1 Hs _ Hn2 Hle)|]. apply H2. etrans; [exact H3|]. by etrans.
  Qed.

Lemma caught_go md U o e why rs : fits md U -> au_ok U o -> length rs = au_n U ->
    settles U (go_in U o e why rs) -> caught U (captures e).
  Proof using.
    intros Hf Ho Hn Hle.
    assert (Hone : forall e rs, length rs = au_n U ->
      settles U (let '(t, rs) := taint_in U o e rs in escape_mark t why rs) -> caught U (captures e)).
    { intros e1 rs1 Hn1 Hle1. apply (caught_taint md U o e1 Hf Ho rs1 Hn1).
      destruct (taint_in U o e1 rs1) as [t rs2]. etrans; [apply (escape_mark_le t why)|exact Hle1]. }
    destruct e; try (match goal with |- caught U (captures ?x) => exact (Hone x rs Hn Hle) end). simpl in Hle |- *. apply caught_app.
    destruct (taint_in_ok md U o e rs Hf) as [_ H1].
    pose proof (Hone e rs Hn) as H2. destruct (taint_in U o e rs) as [ft rs1]. simpl in *.
    pose proof (le_length _ _ _ (escape_mark_le ft why rs1) (le_length _ _ _ H1 Hn)) as Hn2.
    pose proof (go_args_le md U o why args (escape_mark ft why rs1) Hf) as H3.
    split; [apply H2; by etrans|]. clear H1 H2 H3. revert Hn2 Hle. generalize (escape_mark ft why rs1). clear rs1 Hn.
    induction args as [|a args IH]; intros rs1 Hn Hle; simpl in *; [apply caught_nil|].
    destruct (taint_in_ok md U o a rs1 Hf) as [_ H1]. pose proof (Hone a rs1 Hn) as H2.
    destruct (taint_in U o a rs1) as [t rs2]. simpl in *.
    pose proof (le_length _ _ _ (escape_mark_le t why rs2) (le_length _ _ _ H1 Hn)) as Hn2.
    pose proof (go_args_le md U o why args (escape_mark t why rs2) Hf) as H3.
    apply caught_app. split; [apply H2; by etrans|by apply IH in Hle].
  Qed.

Lemma caught_expr md U w e : fits md U -> pre U w -> below U (walk_expr (au_hooks U) (au_n U) w e) -> caught U (captures e).
  Proof using.
    intros Hf Hw Hb. pose proof (proj2 (expr_steady U e w Hw) Hb) as Hback.
    pose proof (below_length md U w Hf Hback) as Hn. destruct Hback as [E _ Ho _]. destruct Hb as [_ _ _ Hle].
    apply (caught_taint md U (w_owner w) e Hf Ho (w_reasons w) Hn).
    unfold walk_expr, walk_taint in Hle. rewrite E in Hle. by destruct (taint_in U (w_owner w) e (w_reasons w)).
  Qed.

Lemma caught_assign md U w lhs tt sc strict names : fits md U -> pre U w -> length tt = au_n U ->
    below U (assign_to_lvalue (au_hooks U) (au_n U) w lhs tt) ->
    place_ok (au_names U) (au_env U) sc strict names lhs = true -> caught U (captures lhs).
  Proof using.
    intros Hf Hw Htt Hb Hp.
    assert (captures lhs = [] \/ (is_name lhs = false /\ lhs <> ENull)) as [-> |[Hn Hnull]].
    { destruct lhs; auto. }
    - apply caught_nil.
    - destruct (store_parts md U w lhs tt) as (o&rs&Ho&Hl&_&_&Hle); try done.
      apply (caught_place md U o lhs Hf Ho) with rs; try done.
      destruct lhs; try done; by apply andb_true_iff in Hp as [? _].
  Qed.

Lemma caught_union md U w es tt : fits md U -> pre U w -> length tt = au_n U ->
    below U (snd (walk_union (au_hooks U) (au_n U) w es tt)) -> caught U (flat_map captures es).
  Proof using.
    intros Hf. revert w tt. induction es as [|e es IH]; intros w tt Hw Htt Hb; simpl in *; [apply caught_nil|].
    destruct (taint_steady U e w Hw) as (H1&H2&_). pose proof (caught_expr md U w e Hf Hw) as H3. unfold walk_expr in H3.
    destruct (walk_taint (au_hooks U) (au_n U) w e) as [te w1]. simpl in *.
    assert (length (taint_union tt te) = au_n U) as Hu by (by rewrite length_taint_union).
    destruct (union_steady U es _ w1 H2 Hu) as (_&_&H4). apply caught_app. split; [auto|by eapply IH].
  Qed.

Lemma caught_exprs U es : (forall e, e ∈ es -> caught U (captures e)) -> caught U (flat_map captures es).
  Proof using.
    induction es as [|e es IH]; intros H; simpl; [apply caught_nil|].
    apply caught_app. split; [apply H; by left|apply IH; intros x Hx; apply H; by right].
  Qed.

Lemma caught_flat {A} U (f : A -> list string) xs : (forall x, x ∈ xs -> caught U (f x)) -> caught U (flat_map f xs).
  Proof using.
    induction xs as [|x xs IH]; intros H; simpl; [apply caught_nil|].
    apply caught_app. split; [apply H; by left|apply IH; intros y Hy; apply H; by right].
  Qed.

Definition catches (md : Mode) (U : AUnit) (s : Stmt) : Prop :=
    forall w sc sc', pre U w -> below U (escape_walk_one (au_hooks U) (au_n U) s w) ->
    checks (au_names U) (au_env U) s sc = Some sc' -> caught U (captures_stmt s).

Lemma caught_stmts md U ss w sc : Forall (catches md U) ss -> pre U w -> below U (walk U ss w) ->
    scoped (check_list (au_names U) (au_env U) ss sc) = true -> caught U (flat_map captures_stmt ss).
  Proof using.
    intros H. revert w sc. induction H as [|s ss Hs _ IH]; intros w sc Hw Hb Hck; simpl in *; [apply caught_nil|].
    destruct (checks (au_names U) (au_env U) s sc) as [sc1|] eqn:E; [|done].
    destruct (one_steady U s w Hw) as [Hw1 _]. pose proof (proj2 (list_steady U ss _ Hw1) Hb) as Hb1.
    apply caught_app. split; [exact (Hs w sc sc1 Hw Hb1 E)|exact (IH _ sc1 Hw1 Hb Hck)].
  Qed.

Lemma caught_expr_stmt md U w e sc : fits md U -> pre U w -> below U (escape_walk_expr_stmt (au_hooks U) (au_n U) w e) ->
    check_expr (au_names U) (au_env U) sc e = true -> caught U (captures e).
  Proof using.
    intros Hf Hw Hb Hck.
    assert (Hx : below U (walk_expr (au_hooks U) (au_n U) w e) -> caught U (captures e)) by (by apply (caught_expr md)).
    destruct e; try exact (Hx Hb); [apply caught_nil|]. simpl in Hb, Hck |- *.
    destruct (is_assign_op op).
    - destruct (taint_steady U e2 w Hw) as (H1&H2&_). pose proof (caught_expr md U w e2 Hf Hw) as H3. unfold walk_expr in H3.
      destruct (walk_taint (au_hooks U) (au_n U) w e2) as [tt w1]. simpl in *.
      apply caught_app. split; [exact (caught_assign md U w1 e1 tt _ _ _ Hf H2 H1 Hb Hck)|].
      apply H3. exact (proj2 (assign_steady U e1 tt H1 w1 H2) Hb).
    - destruct (token_eqb op TOKEN_ARROW); [|exact (Hx Hb)].
      destruct (expr_steady U e1 w Hw) as [Hw1 _].
      pose proof (caught_expr md U w e1 Hf Hw) as H1.
      assert (H2 : below U (snd (walk_taint (au_hooks U) (au_n U) (walk_expr (au_hooks U) (au_n U) w e1) e2)) ->
        caught U (captures e2)) by exact (caught_expr md U _ e2 Hf Hw1).
      destruct (taint_steady U e2 _ Hw1) as (_&Hw2&Hback).
      destruct (walk_taint (au_hooks U) (au_n U) (walk_expr (au_hooks U) (au_n U) w e1) e2) as [tt w2]. simpl in *.
      pose proof (proj2 (mark_steady U tt _ w2 Hw2) Hb) as Hb2. apply caught_app. split; [exact (H1 (Hback Hb2))|exact (H2 Hb2)].
  Qed.

Lemma caught_assigns md U w tgts tt sc strict names : fits md U -> pre U w -> length tt = au_n U ->
    below U (fold_left (fun w l => assign_to_lvalue (au_hooks U) (au_n U) w l tt) tgts w) ->
    forallb (place_ok (au_names U) (au_env U) sc strict names) tgts = true -> caught U (flat_map captures tgts).
  Proof using.
    intros Hf Hw Htt. revert w Hw. induction tgts as [|l tgts IH]; intros w Hw Hb Hck; simpl in *; [apply caught_nil|].
    apply andb_true_iff in Hck as [Hck1 Hck2]. destruct (assign_steady U l tt Htt w Hw) as [Hw1 _].
    pose proof (proj2 (fold_steady U (fun w l => assign_to_lvalue (au_hooks U) (au_n U) w l tt) tgts
      (fun l _ => assign_steady U l tt Htt) _ Hw1) Hb) as Hb1.
    apply caught_app. split; [exact (caught_assign md U w l tt _ _ _ Hf Hw Htt Hb1 Hck1)|exact (IH _ Hw1 Hb Hck2)].
  Qed.

Lemma caught_seed md U w xs vs : fits md U -> pre U w ->
    below U (escape_seed_names_from_values (au_hooks U) (au_n U) w xs vs) -> caught U (flat_map captures vs).
  Proof using.
    intros Hf Hw Hb. unfold escape_seed_names_from_values in Hb.
    assert (length (escape_taint_new (au_n U)) = au_n U) as Hnew by apply length_replicate.
    destruct (union_steady U vs _ w Hw Hnew) as (H1&H2&_).
    pose proof (caught_union md U w vs _ Hf Hw Hnew) as Hu.
    destruct (walk_union (au_hooks U) (au_n U) w vs _) as [tt w1]. simpl in *. apply Hu.
    exact (proj2 (fold_steady U (fun w x => walk_bind (au_hooks U) w x tt) xs (fun x _ => bind_steady U x tt H1) _ H2) Hb).
  Qed.

Lemma caught_multi md U w tgts vs sc : fits md U -> pre U w ->
    below U (multi_assign (au_hooks U) (au_n U) w tgts vs false) ->
    forallb (place_ok (au_names U) (au_env U) sc (existsb is_name tgts) (flat_map value_names vs)) tgts = true ->
    caught U (flat_map captures vs ++ flat_map captures tgts).
  Proof using.
    intros Hf Hw Hb Hck. unfold multi_assign in Hb.
    assert (length (escape_taint_new (au_n U)) = au_n U) as Hnew by apply length_replicate.
    destruct (union_steady U vs _ w Hw Hnew) as (H1&H2&_).
    pose proof (caught_union md U w vs _ Hf Hw Hnew) as Hu.
    destruct (walk_union (au_hooks U) (au_n U) w vs _) as [tt w1]. simpl in *.
    apply caught_app. split; [|exact (caught_assigns md U w1 tgts tt _ _ _ Hf H2 H1 Hb Hck)]. apply Hu.
    exact (proj2 (fold_steady U (fun w l => assign_to_lvalue (au_hooks U) (au_n U) w l tt) tgts (fun l _ => assign_steady U l tt H1) _ H2) Hb).
  Qed.

Lemma caught_taint_bind md U w e x : fits md U -> pre U w ->
    below U (let '(t, w) := walk_taint (au_hooks U) (au_n U) w e in walk_bind_opt (au_hooks U) w x t) ->
    caught U (captures e).
  Proof using.
    intros Hf Hw Hb. destruct (taint_steady U e w Hw) as (H1&H2&_). pose proof (caught_expr md U w e Hf Hw) as H3.
    unfold walk_expr in H3. destruct (walk_taint (au_hooks U) (au_n U) w e) as [tt w1]. simpl in *. apply H3.
    exact (proj2 (bind_opt_steady U x tt H1 w1 H2) Hb).
  Qed.

Lemma caught_return md U w vs : fits md U -> pre U w -> below U (return_values (au_hooks U) (au_n U) w vs) ->
    caught U (flat_map captures vs).
  Proof using.
    intros Hf. revert w. induction vs as [|v vs IH]; intros w Hw Hb; [apply caught_nil|].
    destruct (one_steady U (ReturnStmt [v]) w Hw) as [Hw1 _].
    pose proof (proj2 (one_steady U (ReturnStmt vs) _ Hw1) Hb) as Hb1. pose proof (IH _ Hw1 Hb) as H1.
    simpl. apply caught_app. split; [|exact H1]. simpl in Hb1.
    destruct (taint_steady U v w Hw) as (_&H2&_). pose proof (caught_expr md U w v Hf Hw) as H3. unfold walk_expr in H3.
    destruct (walk_taint (au_hooks U) (au_n U) w v) as [tt w1]. simpl in *. apply H3.
    apply (mark_steady U tt ESCAPE_REASON_RETURN w1 H2).
    eapply below_back; [by apply mark_steady| |exact Hb1].
    destruct (mark_steady U tt ESCAPE_REASON_RETURN w1 H2) as [Hm _].
    pose proof (grew_any_refl U _ Hm) as Hg. destruct (closed U (walk_mark w1 tt ESCAPE_REASON_RETURN)) as (_&_&_&_&Hret).
    exact (Hret _ tt Hg).
  Qed.

Lemma catches_if md U c th el : fits md U -> Forall (catches md U) th -> Forall (catches md U) el ->
    catches md U (IfStmt c th el).
  Proof using.
    intros Hf IHt IHe w sc sc' Hw Hb Hck. simpl in Hck |- *. apply keep_some in Hck as [Hck _].
    apply andb_true_iff in Hck as [Hck1 Hck2].
    destruct (expr_steady U c w Hw) as [Hw1 _]. destruct (list_steady U th _ Hw1) as [Hw2 Hback1].
    pose proof (proj2 (list_steady U el _ Hw2) Hb) as Hb2. rewrite !caught_app. split_and!.
    - exact (caught_expr md U w c Hf Hw (Hback1 Hb2)).
    - exact (caught_stmts md U th _ sc IHt Hw1 Hb2 Hck1).
    - exact (caught_stmts md U el _ sc IHe Hw2 Hb Hck2).
  Qed.

Lemma catches_iflet md U x e th el : fits md U -> Forall (catches md U) th -> Forall (catches md U) el ->
    catches md U (IfLetStmt x e th el).
  Proof using.
    intros Hf IHt IHe w sc sc' Hw Hb Hck. simpl in Hck |- *. apply keep_some in Hck as [Hck _].
    apply andb_true_iff in Hck as [Hck1 Hck2]. rewrite iflet_walk in Hb.
    pose proof (taint_bind_pre U w e x Hw) as Hw1. destruct (list_steady U th _ Hw1) as [Hw2 Hback1].
    pose proof (proj2 (list_steady U el _ Hw2) Hb) as Hb2. rewrite !caught_app. split_and!.
    - exact (caught_taint_bind md U w e x Hf Hw (Hback1 Hb2)).
    - exact (caught_stmts md U th _ _ IHt Hw1 Hb2 Hck1).
    - exact (caught_stmts md U el _ _ IHe Hw2 Hb Hck2).
  Qed.

Lemma catches_range md U k v e b : fits md U -> Forall (catches md U) b -> catches md U (ForRangeStmt k v e b).
  Proof using.
    intros Hf IHb w sc sc' Hw Hb Hck. simpl in Hck, Hb |- *. apply keep_some in Hck as [Hck _].
    destruct (taint_steady U e w Hw) as (H1&H2&_). pose proof (caught_expr md U w e Hf Hw) as H3.
    unfold walk_expr in H3. destruct (walk_taint (au_hooks U) (au_n U) w e) as [tt w1]. simpl in *.
    assert (length (escape_taint_new (au_n U)) = au_n U) as Hnew by apply length_replicate.
    destruct (bind_opt_steady U k _ Hnew w1 H2) as [Hw2 Hback1]. destruct (bind_opt_steady U v tt H1 _ Hw2) as [Hw3 Hback2].
    pose proof (proj2 (list_steady U b _ Hw3) Hb) as Hb3. apply caught_app. split; [auto|].
    exact (caught_stmts md U b _ _ IHb Hw3 Hb Hck).
  Qed.

Lemma catches_for md U i c p b : fits md U -> Forall (catches md U) i -> Forall (catches md U) p ->
    Forall (catches md U) b -> catches md U (ForStmt i c p b).
  Proof using.
    intros Hf IHi IHp IHb w sc sc' Hw Hb Hck. simpl in Hck |- *. apply keep_some in Hck as [Hck _].
    destruct (check_seq (checks (au_names U) (au_env U)) i sc) as [sc1|] eqn:E; [|done].
    apply andb_true_iff in Hck as [Hck1 Hck2].
    destruct (list_steady U i w Hw) as [Hw0 _]. destruct (expr_steady U c _ Hw0) as [Hw1 Hback0].
    destruct (list_steady U p _ Hw1) as [Hw2 Hback1]. pose proof (proj2 (list_steady U b _ Hw2) Hb) as Hb2.
    rewrite !caught_app. split_and!.
    - apply (caught_stmts md U i w sc IHi Hw (Hback0 (Hback1 Hb2))). unfold check_list. by rewrite E.
    - exact (caught_expr md U _ c Hf Hw0 (Hback1 Hb2)).
    - exact (caught_stmts md U p _ sc1 IHp Hw1 Hb2 Hck2).
    - exact (caught_stmts md U b _ sc1 IHb Hw2 Hb Hck1).
  Qed.

Lemma catches_switch md U t cs : fits md U -> Forall (fun c => Forall (catches md U) (snd c)) cs ->
    catches md U (SwitchStmt t cs).
  Proof using.
    intros Hf IH w sc sc' Hw Hb Hck. simpl in Hck, Hb |- *. apply keep_some in Hck as [Hck _].
    rewrite Forall_forall in IH. destruct (expr_steady U t w Hw) as [Hw1 _].
    pose proof (proj2 (in_order_steady U _ cs (fun c _ => case_steady U c) _ Hw1) Hb) as Hb1.
    apply caught_app. split; [exact (caught_expr md U w t Hf Hw Hb1)|]. apply caught_flat. intros c Hc.
    destruct (in_order_below U _ cs c _ (case_steady U) Hc Hw1 Hb) as (w'&Hw'&Hb').
    assert (pre U (fold_left (walk_expr (au_hooks U) (au_n U)) (fst c) w')) as Hw2.
    { apply (fold_steady U (fun w e => walk_expr (au_hooks U) (au_n U) w e) (fst c)); [|done]. intros e _. apply expr_steady. }
    apply caught_app. split.
    - apply caught_flat. intros e He.
      destruct (fold_below U (fst c) e w' He Hw' (proj2 (list_steady U (snd c) _ Hw2) Hb')) as (w2&Hw2'&Hb2).
      exact (caught_expr md U w2 e Hf Hw2' Hb2).
    - exact (caught_stmts md U (snd c) _ sc (IH c Hc) Hw2 Hb' (forallb_elem _ _ _ Hck Hc)).
  Qed.

Lemma catches_type_switch md U e x cs : fits md U -> Forall (Forall (catches md U)) cs -> catches md U (TypeSwitch e x cs).
  Proof using.
    intros Hf IH w sc sc' Hw Hb Hck. simpl in Hck |- *. apply keep_some in Hck as [Hck _].
    rewrite type_switch_walk in Hb. pose proof (taint_bind_pre U w e x Hw) as Hw1.
    pose proof (proj2 (in_order_steady U _ cs (fun c _ => list_steady U c) _ Hw1) Hb) as Hb1.
    apply caught_app. split; [exact (caught_taint_bind md U w e x Hf Hw Hb1)|]. apply caught_flat. intros c Hc.
    destruct (in_order_below U _ cs c _ (list_steady U) Hc Hw1 Hb) as (w'&Hw'&Hb').
    rewrite Forall_forall in IH. exact (caught_stmts md U c _ _ (IH c Hc) Hw' Hb' (forallb_elem _ _ _ Hck Hc)).
  Qed.

Lemma catches_select md U cs : fits md U -> Forall (fun c => Forall (catches md U) (snd c)) cs ->
    catches md U (SelectStmt cs).
  Proof using.
    intros Hf IH w sc sc' Hw Hb Hck. simpl in Hck |- *. apply keep_some in Hck as [Hck _].
    rewrite Forall_forall in IH. apply caught_flat. intros c Hc.
    destruct (in_order_below U _ cs c w (select_steady U) Hc Hw Hb) as (w'&Hw'&Hb').
    destruct (expr_stmt_steady U (sc_comm (fst c)) w' Hw') as [Hw1 _]. pose proof (proj2 (list_steady U (snd c) _ Hw1) Hb') as Hb1.
    pose proof (forallb_elem _ _ _ Hck Hc) as Hc2. apply andb_true_iff in Hc2 as [Hce Hcb].
    apply caught_app. split; [exact (caught_expr_stmt md U w' (sc_comm (fst c)) sc Hf Hw' Hb1 Hce)|].
    exact (caught_stmts md U (snd c) _ sc (IH c Hc) Hw1 Hb' Hcb).
  Qed.

Lemma walk_catches md U s : fits md U -> catches md U s.
  Proof using.
    intros Hf.
    induction s as [ss IH|e|c th el IHt IHe|x e th el IHt IHe|k v e b IHb|i c p b IHi IHp IHb|vs|c|c| |
      |ns vs|ns vs|ts vs b|t cs IH|e x cs IH|cs IH|ss IH|ss IH|c m|c|] using Stmt_ind;
      auto using catches_if, catches_iflet, catches_range, catches_for, catches_switch, catches_type_switch, catches_select;
      intros w sc sc' Hw Hb Hck; simpl in Hck |- *; try apply caught_nil.
    - apply keep_some in Hck as [Hck _]. exact (caught_stmts md U ss w sc IH Hw Hb Hck).
    - apply keep_some in Hck as [Hck _]. exact (caught_expr_stmt md U w e sc Hf Hw Hb Hck).
    - exact (caught_return md U w vs Hf Hw Hb).
    - destruct (go_below md U w _ _ Hf Hw Hb) as (Ho&Hn&Hle). exact (caught_go md U _ c _ _ Hf Ho Hn Hle).
    - simpl in Hb. unfold handle_defer_call in Hb. destruct (defer_is_like_go (au_hooks U)).
      + destruct (go_below md U w _ _ Hf Hw Hb) as (Ho&Hn&Hle). exact (caught_go md U _ c _ _ Hf Ho Hn Hle).
      + apply (caught_expr md U w c Hf Hw). unfold walk_expr, walk_taint. by destruct (escape_expr_taint _ _ _ _ c _).
    - exact (caught_seed md U w ns vs Hf Hw Hb).
    - exact (caught_seed md U w ns vs Hf Hw Hb).
    - destruct b.
      + destruct (forallb is_name ts) eqn:E; [|done]. apply caught_app. split.
        * apply (caught_seed md U w (flat_map name_of ts) vs Hf Hw). by rewrite <- short_is_seed.
        * apply caught_exprs. intros t Ht. pose proof (forallb_elem _ _ _ E Ht). destruct t; try done. apply caught_nil.
      + apply keep_some in Hck as [Hck _]. exact (caught_multi md U w ts vs sc Hf Hw Hb Hck).
    - apply keep_some in Hck as [Hck _]. exact (caught_stmts md U ss w sc IH Hw Hb Hck).
    - apply keep_some in Hck as [Hck _]. exact (caught_stmts md U ss w sc IH Hw Hb Hck).
    - simpl in Hb. destruct (expr_steady U c w Hw) as [Hw1 _]. pose proof (proj2 (expr_steady U m _ Hw1) Hb) as Hb1.
      apply caught_app. split; [exact (caught_expr md U w c Hf Hw Hb1)|exact (caught_expr md U _ m Hf Hw1 Hb)].
    - exact (caught_expr md U w c Hf Hw Hb).
  Qed.

(** All of it: what a checked unit's literals capture is marked. *)
Lemma walk_captures md U body w sc : fits md U -> pre U w -> below U (walk U body w) ->
    scoped (check_list (au_names U) (au_env U) body sc) = true -> caught U (flat_map captures_stmt body).
  Proof using.
    intros Hf. apply (caught_stmts md). apply Forall_forall. intros s _. by apply walk_catches.
  Qed.
End Simulation.
