(* ===== verification/EscapeResults.v ===== *)
(** * EscapeResults: what the escape passes promise, and keep.

    The registry of [Param] reaches its fixpoint before its iteration cap, and the walks theirs
    before [MAX_LOCAL_PASSES] for functions of moderate size.  For programs of the fragment of
    [EscapeSound], a parameter or local that the finished analyses call non-escaping is leaked
    by no execution; and the programs outside of it for which that fails. *)
From Stdlib Require Import ZArith Lia Ascii String Bool.
From stdpp Require Import base list numbers option strings sets.
From S2P Require Import Prelude Token Escape EscapePasses EscapeFacts EscapeSem EscapeSound.

(** ** The hooks *)
#[global] Instance param_lawful n (reg : Param.Registry) :
  LawfulHooks Param.PARAM_HOOKS n (fun o => Param.po_reg o = reg) (fun _ t => t)
    (fun f => Param.param_callee_retention (Param.mkOwner reg false) f) (fun _ => None)
    (fun o => Param.po_return_escapes o = true).
Proof.
  constructor; simpl; unfold Param.param_bind, Param.param_callee_retention, Param.param_on_return; simpl.
  - intros o x t env Ho. exists o. by destruct (escape_env_add_or_union env x t).
  - auto.
  - by intros o f <-.
  - done.
  - intros o t Ho. destruct (escape_taint_empty t) eqn:E; simpl; split_and!; try done.
    intros [i Hi]. unfold escape_taint_empty in E. apply negb_true_iff in E.
    assert (existsb id t = true) as H; [|congruence]. apply existsb_exists. exists true. split; [|done].
    apply list_elem_of_In. by eapply list_elem_of_lookup_2.
Qed.

Definition local_stamp (names : list string) (x : string) (t : TaintSet) : TaintSet :=
  match Local.find_local_index names x with Some i => set_bit i t | None => t end.

#[global] Instance local_lawful n (sums : option (list ParamEscapeSummary)) (names : list string) :
  LawfulHooks Local.LOCAL_HOOKS n
    (fun o => Local.lo_unit o = None /\ Local.lo_local_names o = names /\ Local.lo_summaries o = sums)
    (local_stamp names) (finished_retention sums) (fun _ => None) (fun _ => True).
Proof.
  constructor; simpl; unfold Local.seed_local, local_stamp.
  - intros o x t env (H1 & H2 & H3). exists o. rewrite H1, H2. split; [|done].
    by destruct (escape_env_add_or_union env x _).
  - intros x t Ht. destruct (Local.find_local_index names x) as [i|]; [|auto].
    rewrite length_set_bit. split; [done|]. intros j Hj. apply bit_set_bit. by right.
  - by intros o f (_&_&<-).
  - done.
  - done.
Qed.

(** ** Units from finished walks *)
Section Finished.
  Context (P : Program) (sums : list ParamEscapeSummary).
  Context {Owner : Type} (hooks : EscapeHooks Owner) (n : nat) (ok returned : Owner -> Prop).
  Context (stamp : string -> TaintSet -> TaintSet) (summary : string -> option (list bool * bool)).
  Context `{lawful : !LawfulHooks hooks n ok stamp summary (fun _ => None) returned}.
  Context (stamps : string -> list nat) (body : list Stmt) (params : list string) (w0 w' : Walk Owner).

Definition unit_names : list string := params ++ declared_in body.

Definition unit_of : AUnit :=
    mkAUnit Owner hooks n ok returned stamp summary lawful (w_env w') (w_reasons w') unit_names.

(** The fragment, for a unit whose walk ended in the environment [env]. *)
Definition unit_ok (env : LocalEnv) : bool :=
    scoped (check_list unit_names env body params) && forallb (fun x => negb (reserved P x)) unit_names.

Definition unit_mode : Mode := mkMode n stamps (flat_map captures_stmt body).

  Context (Hfixed : fixed hooks n ok returned body w0 w').
  Context (Hreasons : length (w_reasons w0) = n).
  Context (Hnames : forall x, x ∈ map lv_name (w_env w0) -> x ∈ params).
  Context (Hstamp : forall x t s, s ∈ stamps x -> length t = n -> bit (stamp x t) s).
  Context (Hsummary : forall f, summary f = finished_retention (Some sums) f).
  Context (Hok : unit_ok (w_env w') = true).

Lemma unit_below : exists w, pre unit_of w /\ below unit_of (escape_walk_stmt hooks n body w).
  Proof using Hfixed.
    destruct Hfixed as [_ H1 H2 _ _ _ (w&H3&H4&H5&H6&H7&H8&H9)]. exists w. split; [by split|].
    rewrite H8. by constructor.
  Qed.

Lemma unit_fits : fits P sums unit_mode unit_of.
  Proof using Hfixed Hreasons Hnames Hstamp Hsummary Hok.
    apply andb_true_iff in Hok as [Hck Hres]. destruct Hfixed as [H1 H2 H3 H4 H5 _ _].
    assert (forall caps, (forall x t, x ∈ caps -> escape_env_find (w_env w') x = Some t ->
        forall s, bit t s -> marked (w_reasons w') s) ->
      fits P sums (mkMode n stamps caps) unit_of) as Hfits.
    { intros caps Hcaps. constructor; simpl; try done.
      - by rewrite (proj1 H5).
      - intros x Hx. apply elem_of_app. destruct (H1 x Hx) as [?|[? _]]; auto.
      - intros x Hx. apply negb_true_iff. exact (forallb_elem _ _ _ Hres Hx). }
    apply Hfits. destruct unit_below as (w&Hw&Hb).
    refine (walk_captures P sums _ unit_of body w params _ Hw Hb Hck).
    apply (Hfits []). by intros x t ?%elem_of_nil.
  Qed.
End Finished.

(** ** The registry *)
Module ParamFacts.
Import Param.

(** What analysis leaves alone. *)
Definition static (f : FuncInfo) : string * list string * option (list Stmt) :=
  (fi_name f, fi_param_names f, fi_body f).

Definition sized (f : FuncInfo) : Prop := length (fi_escapes f) = length (fi_param_names f).

(** The facts a summary does not hold yet. *)
Definition unset (bs : list bool) : nat := length (List.filter negb bs).
Definition lacks (f : FuncInfo) : nat := unset (fi_escapes f) + (if fi_return_escapes f then 0 else 1).
Definition lacking (reg : Registry) : nat := list_sum (map lacks reg).

Lemma merge_escapes_spec rs esc :
  length (snd (merge_escapes rs esc)) = length esc /\
  unset (snd (merge_escapes rs esc)) <= unset esc /\
  (fst (merge_escapes rs esc) = true -> unset (snd (merge_escapes rs esc)) < unset esc) /\
  (fst (merge_escapes rs esc) = false -> snd (merge_escapes rs esc) = esc /\
     forall i, marked rs i -> i < length esc -> esc !! i = Some true).
Proof.
  unfold marked. revert esc. induction rs as [|r rs IH]; intros [|e esc]; simpl.
  - split_and!; try done. intros _. split; [done|]. intros i (r&Hr&_). by rewrite lookup_nil in Hr.
  - split_and!; try done. intros _. split; [done|]. intros i (r&Hr&_). by rewrite lookup_nil in Hr.
  - split_and!; try done. intros _. split; [done|]. intros. lia.
  - destruct (IH esc) as (H1&H2&H3&H4). destruct (merge_escapes rs esc) as [ch esc']. simpl in *.
    unfold unset in *. destruct (Z.eqb_spec r ESCAPE_REASON_NONE) as [->|Hr], e; simpl; split_and!; try lia;
      try (intros E; specialize (H3 E); lia); try done;
      intros E; destruct (H4 E) as [-> H5]; (split; [done|]); intros [|i] (r'&Hr'&Hn) Hi; simplify_eq/=;
      try done; apply H5; eauto with lia.
Qed.

Lemma merge_spec rs ret f : sized f ->
  static (snd (merge rs ret f)) = static f /\ sized (snd (merge rs ret f)) /\
  lacks (snd (merge rs ret f)) <= lacks f /\
  (fst (merge rs ret f) = true -> lacks (snd (merge rs ret f)) < lacks f) /\
  (fst (merge rs ret f) = false -> snd (merge rs ret f) = f /\
     (forall i, marked rs i -> i < length (fi_escapes f) -> fi_escapes f !! i = Some true) /\
     (ret = true -> fi_return_escapes f = true)).
Proof.
  intros Hf. unfold merge, sized, static, lacks in *. destruct f as [nm ps body esc re]. simpl in *.
  destruct (merge_escapes_spec rs esc) as (H1&H2&H3&H4). destruct (merge_escapes rs esc) as [ch esc'].
  simpl in *. split_and!; [done|congruence| | |].
  - destruct ret, re; simpl; lia.
  - intros E. destruct ret, re; simpl in *; rewrite ?orb_false_r in E; try (specialize (H3 E)); lia.
  - intros E. apply orb_false_iff in E as [-> E]. destruct (H4 eq_refl) as [-> H5].
    destruct ret, re; try done.
Qed.

(** What one sweep does with the functions still to do. *)
Lemma sweep_spec fc todo done : Forall sized todo ->
  let reg := snd (sweep fc todo done) in
  map static reg = map static (done ++ todo) /\ (Forall sized done -> Forall sized reg) /\
  lacking reg <= lacking (done ++ todo) /\
  (fst (sweep fc todo done) = true -> lacking reg < lacking (done ++ todo)) /\
  (fst (sweep fc todo done) = false -> reg = done ++ todo /\ (fc = false -> forall f, f ∈ todo ->
     let '(rs, ret) := analyze_function_body reg f in merge rs ret f = (false, f))).
Proof.
  revert done. induction todo as [|f todo IH]; intros done Hs; cbv zeta.
  { simpl. rewrite app_nil_r. split_and!; try done. intros _. split; [done|]. by intros _ f ?%elem_of_nil. }
  apply Forall_cons in Hs as [Hf Hs]. cbn [sweep].
  destruct (if fc then _ else _) as [rs ret] eqn:Ea.
  destruct (merge_spec rs ret f Hf) as (M1&M2&M3&M4&M5). destruct (merge rs ret f) as [ch f'] eqn:Em. simpl in M1, M2, M3, M4, M5.
  specialize (IH (done ++ [f']) Hs). cbv zeta in IH. destruct (sweep fc todo (done ++ [f'])) as [ch' reg].
  simpl in *. destruct IH as (I1&I2&I3&I4&I5). unfold lacking in *.
  rewrite !map_app, !list_sum_app in *. simpl in *. rewrite <- !app_assoc in *. simpl in *. split_and!.
  - rewrite I1. by rewrite M1.
  - intros Hd. apply I2, Forall_app. by split; [|apply Forall_singleton].
  - lia.
  - intros E. apply orb_true_iff in E as [E|E]; [specialize (M4 E)|specialize (I4 E)]; lia.
  - intros E. apply orb_false_iff in E as [-> ->]. destruct (M5 eq_refl) as [-> _].
    destruct (I5 eq_refl) as [-> I6]. split; [done|]. intros -> g [->|Hg]%elem_of_cons; [|by apply I6].
    rewrite Ea. exact Em.
Qed.

(** A registry no sweep changes. *)
Definition stable (reg : Registry) : Prop := forall f, f ∈ reg ->
  let '(rs, ret) := analyze_function_body reg f in merge rs ret f = (false, f).

Lemma stable_sweep todo done : (forall f, f ∈ todo ->
    let '(rs, ret) := analyze_function_body (done ++ todo) f in merge rs ret f = (false, f)) ->
  sweep false todo done = (false, done ++ todo).
Proof.
  revert done. induction todo as [|f todo IH]; intros done H; [by rewrite app_nil_r|]. cbn [sweep].
  pose proof (H f ltac:(by left)) as Hf. destruct (analyze_function_body (done ++ f :: todo) f) as [rs ret].
  rewrite Hf. rewrite IH.
  - by rewrite <- app_assoc.
  - intros g Hg. rewrite <- app_assoc. apply H. by right.
Qed.

Lemma iterate_spec cap reg : Forall sized reg -> lacking reg < cap ->
  fst (iterate cap reg) = false /\ stable (snd (iterate cap reg)) /\
  map static (snd (iterate cap reg)) = map static reg /\ Forall sized (snd (iterate cap reg)).
Proof.
  revert reg. induction cap as [|cap IH]; intros reg Hs Hc; [lia|]. simpl.
  destruct (sweep_spec false reg [] Hs) as (S1&S2&S3&S4&S5).
  destruct (sweep false reg []) as [ch reg1]. simpl in *. destruct ch.
  - specialize (S4 eq_refl). specialize (S2 ltac:(constructor)).
    destruct (IH reg1 S2) as (I1&I2&I3&I4); [lia|]. split_and!; try done. congruence.
  - destruct (S5 eq_refl) as [-> S6]. split_and!; try done. intros f Hf. by apply (S6 eq_refl).
Qed.

Lemma unset_fresh n : unset (replicate n false) = n.
Proof. unfold unset. induction n; simpl; congruence. Qed.

Definition fresh (d : Decl) : option FuncInfo :=
  match d with
  | FuncDeclaration f =>
      match fd_name f with
      | Some n => Some (mkInfo n (params_of f) (fd_body f) (replicate (length (params_of f)) false) false)
      | None => None
      end
  | OtherDecl => None
  end.

Lemma collect_functions_eq p : collect_functions p = omap fresh p.
Proof.
  unfold collect_functions. set (g := fun _ _ => _).
  enough (forall reg, fold_left g p reg = reg ++ omap fresh p) as H by apply (H []).
  induction p as [|d p IH]; intros reg; simpl; [by rewrite app_nil_r|]. rewrite IH.
  destruct d as [f|]; simpl; [|done]. destruct (fd_name f) as [n|]; [|done].
  unfold registry_add. by rewrite <- app_assoc.
Qed.

Lemma fresh_facts p : Forall sized (collect_functions p) /\
  lacking (collect_functions p) <= iteration_cap (collect_functions p) - 8 /\
  8 <= iteration_cap (collect_functions p).
Proof.
  rewrite collect_functions_eq. unfold iteration_cap, lacking. split_and!; [|induction p as [|d p IH]|lia]; try (simpl; lia).
  - apply Forall_forall. intros f Hf. apply list_elem_of_omap in Hf as (d&_&Hd).
    destruct d as [fd|]; [|done]. simpl in Hd. destruct (fd_name fd); [|done]. injection Hd as <-.
    unfold sized. simpl. by rewrite length_replicate.
  - simpl in IH |- *. destruct (fresh d) as [f|] eqn:E; [|done].
    assert (lacks f = length (fi_param_names f) + 1) as Hl.
    { destruct d as [fd|]; [|done]. simpl in E. destruct (fd_name fd); [|done]. injection E as <-.
      unfold lacks. simpl. by rewrite unset_fresh. }
    simpl. rewrite Hl. change (list_omap Decl FuncInfo fresh p) with (omap fresh p). lia.
Qed.

(** The finished registry. *)
Definition finished_registry (p : Program) : Registry :=
  snd (iterate (iteration_cap (collect_functions p)) (collect_functions p)).

Lemma finished_facts p :
  fst (iterate (iteration_cap (collect_functions p)) (collect_functions p)) = false /\
  stable (finished_registry p) /\ map static (finished_registry p) = map static (collect_functions p) /\
  Forall sized (finished_registry p).
Proof. destruct (fresh_facts p) as (H1&H2&H3). apply iterate_spec; [done|lia]. Qed.

Lemma finished_names p : map fi_name (finished_registry p) = function_names p.
Proof.
  destruct (finished_facts p) as (_&_&H&_).
  transitivity (map (fun s => fst (fst s)) (map static (finished_registry p))); [by rewrite map_map|].
  rewrite H, map_map, collect_functions_eq. simpl. unfold function_names. clear H.
  induction p as [|[f|] p IH]; simpl; [done| |exact IH].
  destruct (fd_name f); simpl; [f_equal; exact IH|exact IH].
Qed.
End ParamFacts.

Module ParamSound.
Import Param ParamFacts.

(** ** Where a walk over a function starts *)
Definition param_start (reg : Registry) (names : list string) : Walk ParamOwner :=
  mkWalk (seed_params (length names) 0 names []) (replicate (length names) ESCAPE_REASON_NONE)
         (mkOwner reg false) false.

Definition param_walk (reg : Registry) (names : list string) (body : list Stmt) : option (Walk ParamOwner) :=
  walk_fixpoint PARAM_HOOKS (length names) MAX_LOCAL_PASSES body (param_start reg names).

Lemma analyze_eq reg f :
  analyze_function_body reg f =
  match fi_body f with
  | None => (replicate (length (fi_param_names f)) ESCAPE_REASON_NONE, false)
  | Some body =>
      match param_walk reg (fi_param_names f) body with
      | Some w => (w_reasons w, po_return_escapes (w_owner w))
      | None => (replicate (length (fi_param_names f)) ESCAPE_REASON_UNCLASSIFIED, true)
      end
  end.
Proof.
  unfold analyze_function_body, param_walk, param_start. generalize MAX_LOCAL_PASSES. intros passes.
  destruct (fi_body f); reflexivity.
Qed.

(** Seeding: all names, each with its bit. *)
Lemma seed_params_spec n names i env : env_wide n env -> i + length names <= n ->
  env_wide n (seed_params n i names env) /\ env_le env (seed_params n i names env) /\
  (forall x, x ∈ map lv_name (seed_params n i names env) <-> x ∈ map lv_name env \/ x ∈ names) /\
  (NoDup (map lv_name env) -> NoDup (map lv_name (seed_params n i names env))) /\
  forall k x, names !! k = Some x ->
    exists t, escape_env_find (seed_params n i names env) x = Some t /\ bit t (i + k).
Proof.
  revert i env. induction names as [|y names IH]; intros i env Hw Hi; simpl in *.
  { split_and!; try done. intros x. rewrite elem_of_nil. tauto. }
  remember (set_bit i (escape_taint_new n)) as v eqn:Ev.
  assert (length v = n) as Hv by (rewrite Ev, length_set_bit; apply length_replicate).
  pose proof (env_add_or_union_adds n y v env) as [A1 A2 A3 A4 _ _].
  destruct (escape_env_add_or_union env y v) as [ch env1]. simpl in *.
  destruct (IH (S i) env1 (A1 Hw Hv) ltac:(lia)) as (I1&I2&I3&I5&I4). split_and!; [done|by etrans| | |].
  - intros x. rewrite I3, A4, elem_of_cons. case_bool_decide as Hin; [|rewrite elem_of_app, list_elem_of_singleton; tauto].
    split; [tauto|]. intros [?|[->|?]]; tauto.
  - intros Hnd. apply I5. rewrite A4. case_bool_decide; [done|]. apply NoDup_app.
    split_and!; [done| |apply NoDup_singleton]. intros z Hz Hzy. apply list_elem_of_singleton in Hzy. by subst.
  - intros [|k] x Hx; simplify_eq/=.
    + destruct (A3 Hw Hv) as (t&Ht&Hb). destruct (I2 _ _ Ht) as (t'&Ht'&Hb'). exists t'. split; [done|].
      apply Hb', Hb. rewrite Nat.add_0_r. apply bit_set_bit. left. split; [done|].
      unfold escape_taint_new. rewrite length_replicate. lia.
    + destruct (I4 k x Hx) as (t&Ht&Hb). exists t. split; [done|]. by rewrite Nat.add_succ_r.
Qed.

Lemma number_from_elem i names x t : (x, t) ∈ number_from i names -> exists k, names !! k = Some x /\ t = [i + k].
Proof.
  revert i. induction names as [|y names IH]; intros i; simpl; [by intros ?%elem_of_nil|].
  intros [[= -> ->]|H]%elem_of_cons; [exists 0; by rewrite Nat.add_0_r|].
  destruct (IH _ H) as (k&Hk&->). exists (S k). by rewrite Nat.add_succ_r.
Qed.

Lemma number_from_names i names : map fst (number_from i names) = names.
Proof. revert i. induction names as [|y names IH]; intros i; simpl; f_equal; auto. Qed.

(** ** The fragment of a program *)
Definition function_ok (P : Program) (reg : Registry) (f : FuncInfo) : bool :=
  match fi_body f with
  | Some body =>
      match param_walk reg (fi_param_names f) body with
      | Some w => unit_ok P body (fi_param_names f) (w_env w)
      | None => true
      end
  | None => true
  end.

(** No two declarations share a name, and every body is within the fragment. *)
Definition program_ok (P : Program) : bool :=
  bool_decide (NoDup (function_names P)) && forallb (function_ok P (finished_registry P)) (finished_registry P).

(** ** What was found is a fixpoint *)
Lemma lookup_summary reg f : finished_retention (Some (map summary_of reg)) f =
  param_callee_retention (mkOwner reg false) f.
Proof.
  unfold finished_retention, param_callee_retention, param_escape_lookup, registry_find. simpl.
  induction reg as [|g reg IH]; simpl; [done|]. by destruct (fi_name g =? f)%string.
Qed.

Lemma find_unique reg f g : NoDup (map fi_name reg) -> g ∈ reg -> fi_name g = f -> registry_find reg f = Some g.
Proof.
  intros Hnd Hg <-. unfold registry_find. induction reg as [|h reg IH]; [by apply elem_of_nil in Hg|].
  simpl in *. apply NoDup_cons in Hnd as [Hh Hnd]. destruct (String.eqb_spec (fi_name h) (fi_name g)) as [E|E].
  - apply elem_of_cons in Hg as [->|Hg]; [done|]. destruct Hh. rewrite E. by apply (list_elem_of_fmap_2 fi_name).
  - apply elem_of_cons in Hg as [->|Hg]; [done|auto].
Qed.

Lemma function_of_in P f fd : function_of P f = Some fd -> FuncDeclaration fd ∈ P /\ fd_name fd = Some f.
Proof.
  unfold function_of. destruct (List.find _ P) as [[g|]|] eqn:E; try done. intros [= ->].
  apply List.find_some in E as [Hin E]. split; [by apply list_elem_of_In|].
  destruct fd as [[n|] [] ps b]; try done. by apply String.eqb_eq in E as ->.
Qed.

(** A declared function's entry. *)
Lemma entry_of P f fd : FuncDeclaration fd ∈ P -> fd_name fd = Some f -> exists g, g ∈ finished_registry P /\
  fi_name g = f /\ fi_param_names g = params_of fd /\ fi_body g = fd_body fd /\
  length (fi_escapes g) = length (params_of fd).
Proof.
  intros Hin Hn. destruct (finished_facts P) as (_&_&Hst&Hs).
  assert ((f, params_of fd, fd_body fd) ∈ map static (finished_registry P)) as H.
  { rewrite Hst, collect_functions_eq. apply list_elem_of_fmap.
    eexists. split; [|apply list_elem_of_omap; exists (FuncDeclaration fd); split; [exact Hin|simpl; by rewrite Hn]]. done. }
  apply list_elem_of_fmap in H as (g&E&Hg). exists g. injection E as E1 E2 E3.
  rewrite Forall_forall in Hs. specialize (Hs g Hg). unfold sized in Hs. split_and!; congruence.
Qed.

(** A finished walk over a function, as a unit. *)
Section Unit.
  Context (P : Program) (reg : Registry) (fd : FuncDecl) (body : list Stmt) (w' : Walk ParamOwner).
  Context (Hw : param_walk reg (params_of fd) body = Some w').
  Context (Hok : unit_ok P body (params_of fd) (w_env w') = true).
  Abbreviation n := (length (params_of fd)).

Definition param_unit : AUnit :=
    unit_of PARAM_HOOKS n (fun o => po_reg o = reg) (fun o => po_return_escapes o = true) (fun _ t => t)
      (fun f => param_callee_retention (mkOwner reg false) f) body (params_of fd) w'.

Lemma start_facts : env_wide n (w_env (param_start reg (params_of fd))) /\
    (forall x, x ∈ map lv_name (w_env (param_start reg (params_of fd))) <-> x ∈ params_of fd) /\
    NoDup (map lv_name (w_env (param_start reg (params_of fd)))).
  Proof using.
    destruct (seed_params_spec n (params_of fd) 0 []) as (H1&_&H2&H3&_); [constructor|lia|].
    split_and!; [exact H1| |apply H3; constructor]. intros x. simpl. rewrite H2. simpl. rewrite elem_of_nil. tauto.
  Qed.

Lemma param_fixed : fixed PARAM_HOOKS n (fun o => po_reg o = reg) (fun o => po_return_escapes o = true) body
    (param_start reg (params_of fd)) w'.
  Proof using Hw.
    clear Hok. revert Hw. unfold param_walk. generalize MAX_LOCAL_PASSES. intros passes Hw'.
    pose proof (proj1 start_facts) as Hs. revert Hs Hw'. generalize (eq_refl : po_reg (w_owner (param_start reg (params_of fd))) = reg).
    generalize (param_start reg (params_of fd)). intros w Ho Hs Hw'.
    exact (walk_fixpoint_fixed (LawfulHooks0 := param_lawful n reg) _ _ _ _ _ _ _ _ _ _ _ Hs Ho Hw').
  Qed.

Lemma param_fits : fits P (map summary_of reg) (param_mode fd body) param_unit.
  Proof using Hw Hok.
    refine (unit_fits P _ PARAM_HOOKS _ _ _ _ _ (fun _ => []) body _ (param_start reg (params_of fd)) w' param_fixed _ _ _ _ Hok).
    - simpl. apply length_replicate.
    - intros x Hx. by apply start_facts.
    - by intros x t s ?%elem_of_nil.
    - intros f. by rewrite lookup_summary.
  Qed.

Lemma param_entry_covers : covers param_unit (params_of fd) (enter fd).
  Proof using Hw.
    constructor; simpl; try apply all_marked_nil.
    - constructor; simpl.
      + intros x t s Hin Hs. apply number_from_elem in Hin as (k&Hk&->). apply list_elem_of_singleton in Hs as ->.
        left. destruct (seed_params_spec n (params_of fd) 0 []) as (_&_&_&_&H); [constructor|lia|].
        destruct (H k x Hk) as (t&Ht&Hb). destruct (fx_env _ _ _ _ _ _ _ param_fixed x t Ht) as (t'&Ht'&Hb').
        exists t'. auto.
      + intros x. rewrite number_from_names. intros Hx. apply elem_of_app. by left.
    - intros x Hx _. by rewrite number_from_names.
  Qed.

Lemma param_scope : exists sc', check_list (au_names param_unit) (au_env param_unit) body (params_of fd) = Some sc'.
  Proof using Hok.
    apply andb_true_iff in Hok as [H _]. unfold scoped in H. change (au_env param_unit) with (w_env w').
    change (au_names param_unit) with (unit_names body (params_of fd)).
    destruct (check_list _ _ _ _) as [sc'|]; [by exists sc'|done].
  Qed.
End Unit.

Section Program.
  Context (P : Program) (Hok : program_ok P = true).

Lemma names_nodup : NoDup (map fi_name (finished_registry P)).
  Proof using Hok.
    apply andb_true_iff in Hok as [H _]. apply bool_decide_eq_true in H. by rewrite finished_names.
  Qed.

Lemma summaries_named f : is_Some (finished_retention (Some (param_escape_analyze P)) f) -> f ∈ function_names P.
  Proof using.
    change (param_escape_analyze P) with (map summary_of (finished_registry P)).
    rewrite lookup_summary, <- finished_names. unfold param_callee_retention, registry_find. simpl.
    destruct (List.find _ _) as [g|] eqn:E; [|by intros [? ?]]. intros _.
    apply List.find_some in E as [Hin E]. apply String.eqb_eq in E as <-.
    apply (list_elem_of_fmap_2 fi_name). by apply list_elem_of_In.
  Qed.

(** The entry of a function in the summaries, and what its last analysis found. *)
Lemma entry_analysed f fd body : FuncDeclaration fd ∈ P -> fd_name fd = Some f -> fd_body fd = Some body ->
    analysed P (param_escape_analyze P) f fd body.
  Proof using Hok.
    intros Hin Hn Hb. destruct (entry_of P f fd Hin Hn) as (g&Hg&Hgn&Hgp&Hgb&Hlen).
    unfold analysed. change (param_escape_analyze P) with (map summary_of (finished_registry P)).
    exists (fi_escapes g), (fi_return_escapes g). rewrite lookup_summary. unfold param_callee_retention. simpl.
    rewrite (find_unique _ f g names_nodup Hg Hgn). split_and!; [done|done|].
    destruct (finished_facts P) as (_&Hst&_&Hs). rewrite Forall_forall in Hs. specialize (Hst g Hg).
    pose proof (merge_spec (fst (analyze_function_body (finished_registry P) g))
      (snd (analyze_function_body (finished_registry P) g)) g (Hs g Hg)) as (_&_&_&_&M).
    destruct (analyze_function_body (finished_registry P) g) as [rs ret] eqn:Ea. simpl in M. rewrite Hst in M. simpl in M.
    destruct (M eq_refl) as (_&Hm&_). rewrite analyze_eq, Hgb, Hb, Hgp in Ea.
    apply andb_true_iff in Hok as [_ Hfo]. pose proof (forallb_elem _ _ _ Hfo Hg) as Hgo.
    unfold function_ok in Hgo. rewrite Hgb, Hb, Hgp in Hgo. set (reg := finished_registry P) in *.
    destruct (param_walk reg (params_of fd) body) as [w'|] eqn:Ew.
    - right. injection Ea as <- <-. pose proof (param_fixed reg fd body w' Ew) as Hfx.
      destruct (unit_below PARAM_HOOKS _ _ _ _ _ body (params_of fd) _ w' Hfx) as (w&Hw&Hbl).
      destruct (param_scope P reg fd body w' Hgo) as [sc' Hsc].
      exists (param_unit reg fd body w'), w, sc'. split_and!; try done.
      + by apply param_fits.
      + by apply param_entry_covers.
      + intros i Hi. apply Hm; [exact Hi|]. destruct Hi as (r&Hr&_). apply lookup_lt_Some in Hr.
        simpl in Hr. rewrite (proj1 (fx_reasons _ _ _ _ _ _ _ Hfx)) in Hr. simpl in Hr. rewrite length_replicate in Hr. lia.
    - left. injection Ea as <- <-. intros i Hi. apply Hm; [|done].
      exists ESCAPE_REASON_UNCLASSIFIED. split; [|done]. apply lookup_replicate. split; [done|lia].
  Qed.

Lemma all_analysed f fd body : function_of P f = Some fd -> fd_body fd = Some body ->
    analysed P (param_escape_analyze P) f fd body.
  Proof using Hok. intros H. apply function_of_in in H as [H1 H2]. by apply entry_analysed. Qed.

Lemma program_exec md st ss st' c : exec P false md st ss st' c -> goal_exec P (param_escape_analyze P) md st ss st' c.
  Proof using Hok. apply simulation; [apply summaries_named|apply all_analysed]. Qed.
End Program.
End ParamSound.

(** ** What the parameter analysis promises *)
(** the iteration over the registry settles on its own before the cap: the sweep that fails
    closed never runs, and one more sweep would change nothing. *)
Theorem param_sweeps_settle (p : Program) :
  let reg := Param.collect_functions p in
  fst (Param.iterate (Param.iteration_cap reg) reg) = false /\
  Param.sweep false (snd (Param.iterate (Param.iteration_cap reg) reg)) [] =
    (false, snd (Param.iterate (Param.iteration_cap reg) reg)).
Proof.
  cbv zeta. destruct (ParamFacts.finished_facts p) as (H1&H2&_). split; [exact H1|].
  apply (ParamFacts.stable_sweep _ []). exact H2.
Qed.

(** C18: a parameter that any execution of a function leaks or returns is one that
    [param_escape_param_escapes] reports, for programs of the fragment. *)
Theorem param_escape_sound (P : Program) (f : string) (fd : FuncDecl) (body : list Stmt) (st : DState)
    (c : bool) (i : nat) :
  ParamSound.program_ok P = true -> FuncDeclaration fd ∈ P -> fd_name fd = Some f -> fd_body fd = Some body ->
  exec P false (param_mode fd body) (enter fd) body st c -> i ∈ ds_leaked st ++ ds_returned st ->
  param_escape_param_escapes (Some (Param.param_escape_analyze P)) f i = true.
Proof.
  intros Hok Hin Hn Hb Hex Hi. apply (ParamSound.program_exec P Hok) in Hex.
  destruct (ParamSound.entry_analysed P Hok f fd body Hin Hn Hb) as (esc&ret&Hsum&Hlen&Hor).
  unfold param_escape_param_escapes. unfold finished_retention in Hsum.
  destruct (param_escape_lookup _ f) as [s|]; [|done]. injection Hsum as E1 _. rewrite E1.
  destruct (decide (i < length esc)) as [Hlt|Hlt]; [|by rewrite lookup_ge_None_2 by lia].
  enough (esc !! i = Some true) as -> by done.
  destruct Hor as [Hall|(U&w&sc'&Hf&Hw&Hbl&Hck&Hc&Hm)]; [auto|].
  destruct (Hex U w _ sc' Hf Hw Hbl Hck Hc) as [[_ Hl Hr _] _].
  apply Hm. apply elem_of_app in Hi as [Hi|Hi]; [by apply Hl|by apply Hr].
Qed.

Module LocalSound.
Import Local.

(** ** Locals: a slot per name, taken on by every value the name is declared with *)
Definition local_mode (names : list string) (body : list Stmt) : Mode :=
  mkMode (length names) (fun x => option_list (find_local_index names x)) (flat_map captures_stmt body).

Definition local_enter (fd : FuncDecl) : DState := mkSt (map (fun x => (x, [])) (params_of fd)) [] [].

Definition local_start (sums : option (list ParamEscapeSummary)) (names : list string) : Walk LocalOwner :=
  mkWalk [] (replicate (length names) ESCAPE_REASON_NONE) (mkOwner sums names None) false.

Definition local_walk (sums : option (list ParamEscapeSummary)) (names : list string) (body : list Stmt)
    : option (Walk LocalOwner) :=
  walk_fixpoint LOCAL_HOOKS (length names) MAX_LOCAL_PASSES body (local_start sums names).

Lemma analyze_unit_eq sums body names :
  analyze_unit sums body names =
  match names with
  | [] => []
  | _ => match local_walk sums names body with
         | Some w => w_reasons w
         | None => replicate (length names) ESCAPE_REASON_UNCLASSIFIED
         end
  end.
Proof.
  unfold analyze_unit, local_walk, local_start. generalize MAX_LOCAL_PASSES. intros passes.
  by destruct names.
Qed.

(** The fragment, for the locals of a function. *)
Definition locals_ok (P : Program) (sums : option (list ParamEscapeSummary)) (fd : FuncDecl) (body : list Stmt)
    (names : list string) : bool :=
  match local_walk sums names body with
  | Some w => unit_ok P body (params_of fd) (w_env w)
  | None => true
  end.

Lemma find_index_lt names x i : find_local_index names x = Some i -> i < length names.
Proof.
  revert i. induction names as [|y names IH]; intros i; simpl; [done|]. destruct (y =? x)%string; [intros [= <-]; lia|].
  destruct (find_local_index names x) as [j|]; [|done]. intros [= <-]. specialize (IH j eq_refl). lia.
Qed.

Lemma reason_of_index names rs x i r : find_local_index names x = Some i -> rs !! i = Some r ->
  reason_of names rs x = r.
Proof.
  revert rs i. induction names as [|y names IH]; intros rs i; simpl; [done|].
  destruct (y =? x)%string; [intros [= <-]; destruct rs; [done|by intros [= <-]]|].
  destruct (find_local_index names x) as [j|]; [|done]. intros [= <-] Hr. destruct rs as [|r' rs]; [done|].
  by apply (IH rs j).
Qed.

Section Unit.
  Context (P : Program) (sums : list ParamEscapeSummary) (fd : FuncDecl) (body : list Stmt).
  Context (names : list string) (w' : Walk LocalOwner).
  Context (Hw : local_walk (Some sums) names body = Some w').
  Context (Hok : unit_ok P body (params_of fd) (w_env w') = true).
  Abbreviation n := (length names).
  Abbreviation owned := (fun o => lo_unit o = None /\ lo_local_names o = names /\ lo_summaries o = Some sums).

Definition local_unit : AUnit :=
    unit_of LOCAL_HOOKS n owned (fun _ => True) (local_stamp names) (finished_retention (Some sums)) body (params_of fd) w'.

Lemma local_fixed : fixed LOCAL_HOOKS n owned (fun _ => True) body (local_start (Some sums) names) w'.
  Proof using Hw.
    clear Hok. assert (env_wide n (w_env (local_start (Some sums) names))) as Hs by constructor.
    assert (owned (w_owner (local_start (Some sums) names))) as Ho by done.
    revert Hw Hs Ho. unfold local_walk. generalize MAX_LOCAL_PASSES (local_start (Some sums) names). intros passes w Hw' Hs Ho.
    exact (walk_fixpoint_fixed (LawfulHooks0 := local_lawful n (Some sums) names) _ _ _ _ _ _ _ _ _ _ _ Hs Ho Hw').
  Qed.

Lemma local_fits : fits P sums (local_mode names body) local_unit.
  Proof using Hw Hok.
    refine (unit_fits P sums LOCAL_HOOKS n _ _ _ _ (fun x => option_list (find_local_index names x)) body (params_of fd)
      (local_start (Some sums) names) w' local_fixed _ _ _ _ Hok).
    - simpl. apply length_replicate.
    - by intros x ?%elem_of_nil.
    - intros x t s Hs Ht. unfold local_stamp. destruct (find_local_index names x) as [i|] eqn:E; simpl in Hs.
      + apply list_elem_of_singleton in Hs as ->. apply bit_set_bit. left. split; [done|].
        rewrite Ht. by eapply find_index_lt.
      + by apply elem_of_nil in Hs.
    - done.
  Qed.

Lemma local_entry_covers : covers local_unit (params_of fd) (local_enter fd).
  Proof using.
    assert (map fst (map (fun x : string => (x, @nil nat)) (params_of fd)) = params_of fd) as E.
    { rewrite map_map. simpl. apply map_id. }
    constructor; simpl; try apply all_marked_nil.
    - constructor; simpl.
      + intros x t s Hin Hs. apply list_elem_of_In, in_map_iff in Hin as (y&[= <- <-]&_). by apply elem_of_nil in Hs.
      + intros x. rewrite E. intros Hx. apply elem_of_app. by left.
    - intros x Hx _. by rewrite E.
  Qed.

  Context (HP : ParamSound.program_ok P = true) (Hsums : sums = Param.param_escape_analyze P).

(** What an execution leaks of the function's slots was marked by the walk. *)
Lemma local_marked st c i : exec P false (local_mode names body) (local_enter fd) body st c ->
    i ∈ ds_leaked st ++ ds_returned st -> marked (w_reasons w') i.
  Proof using Hw Hok HP Hsums.
    intros Hex Hi. pose proof (ParamSound.program_exec P HP _ _ _ _ _ Hex) as Hg. rewrite <- Hsums in Hg.
    destruct (unit_below LOCAL_HOOKS _ _ _ _ _ body (params_of fd) _ w' local_fixed) as (w&Hpre&Hbl).
    pose proof (proj1 (andb_prop _ _ Hok)) as Hsc. unfold scoped in Hsc.
    destruct (check_list (unit_names body (params_of fd)) (w_env w') body (params_of fd)) as [sc'|] eqn:E; [|done].
    destruct (Hg local_unit w _ sc' local_fits Hpre Hbl E local_entry_covers) as [[_ Hl Hr _] _].
    apply elem_of_app in Hi as [Hi|Hi]; [by apply Hl|by apply Hr].
  Qed.
End Unit.

Lemma ls_reasons_eq sums f body : ls_reasons (analyze_function sums f body) =
  analyze_unit sums body (ls_local_names (analyze_function sums f body)).
Proof. reflexivity. Qed.

(** The reason the summary of a function gives for a local. *)
Lemma reasons_found P sums f body x i r :
  List.find (fun s => (ls_function_name s =? f)%string) (local_escape_analyze P sums) =
    Some (analyze_function sums f body) ->
  find_local_index (ls_local_names (analyze_function sums f body)) x = Some i ->
  analyze_unit sums body (ls_local_names (analyze_function sums f body)) !! i = Some r ->
  local_escape_local_reasons (local_escape_analyze P sums) f x = r.
Proof.
  intros Hfind Hx Hr. unfold local_escape_local_reasons. rewrite Hfind.
  apply (reason_of_index _ _ _ i); [exact Hx|]. rewrite ls_reasons_eq. exact Hr.
Qed.

(** A local whose slot was marked, or whose analysis was given up. *)
Lemma marked_reported sums body names w i : names <> [] -> local_walk sums names body = Some w ->
  marked (w_reasons w) i -> exists r, analyze_unit sums body names !! i = Some r /\ r <> ESCAPE_REASON_NONE.
Proof. intros Hn Hw Hm. rewrite analyze_unit_eq, Hw. destruct names; [done|exact Hm]. Qed.

Lemma given_up_reported sums body names i : local_walk sums names body = None -> i < length names ->
  exists r, analyze_unit sums body names !! i = Some r /\ r <> ESCAPE_REASON_NONE.
Proof.
  intros Hw Hi. rewrite analyze_unit_eq, Hw. exists ESCAPE_REASON_UNCLASSIFIED. split; [|done].
  destruct names; [simpl in Hi; lia|by apply lookup_replicate].
Qed.

Lemma locals_ok_eq P sums fd body names : locals_ok P sums fd body names =
  match local_walk sums names body with
  | Some w => unit_ok P body (params_of fd) (w_env w)
  | None => true
  end.
Proof. reflexivity. Qed.

Lemma local_reported P fd sums body names st c i :
  ParamSound.program_ok P = true -> sums = Some (Param.param_escape_analyze P) ->
  locals_ok P sums fd body names = true ->
  exec P false (local_mode names body) (local_enter fd) body st c -> i < length names ->
  i ∈ ds_leaked st ++ ds_returned st ->
  exists r, analyze_unit sums body names !! i = Some r /\ r <> ESCAPE_REASON_NONE.
Proof.
  intros HP Hs Hok Hex Hlt Hi. rewrite locals_ok_eq in Hok.
  destruct (local_walk sums names body) as [w'|] eqn:Ew; [|by apply given_up_reported].
  apply (marked_reported _ _ _ w'); [by intros ->; simpl in Hlt; lia|exact Ew|]. subst sums.
  exact (local_marked P _ fd body names w' Ew Hok HP eq_refl st c i Hex Hi).
Qed.

(** The unit of a declared function is the one found under its name. *)
Lemma find_summary P sums f m ps body : NoDup (function_names P) ->
  FuncDeclaration (mkFunc (Some f) m ps (Some body)) ∈ P ->
  List.find (fun s => (ls_function_name s =? f)%string) (local_escape_analyze P sums) =
    Some (analyze_function sums f body).
Proof.
  intros Hnd Hin. unfold local_escape_analyze. induction P as [|d P IH]; [by apply elem_of_nil in Hin|].
  apply elem_of_cons in Hin as [<-|Hin].
  { simpl. by rewrite String.eqb_refl. }
  assert (f ∈ function_names P) as Hf.
  { unfold function_names. apply list_elem_of_omap. exists (FuncDeclaration (mkFunc (Some f) m ps (Some body))). done. }
  unfold function_names in Hnd. simpl in Hnd. destruct d as [[[g|] m' ps' [b|]]|]; simpl in *; try by apply IH.
  - apply NoDup_cons in Hnd as [Hg Hnd]. destruct (String.eqb_spec g f) as [->|]; [by destruct Hg|by apply IH].
  - apply NoDup_cons in Hnd as [_ Hnd]. by apply IH.
Qed.
End LocalSound.

(** C19: a local any of whose values an execution of its function leaks or returns is one that
    [local_escape_local_escapes] reports, when program and function are of the fragment. *)
Theorem local_escape_sound (P : Program) (f : string) (m : bool) (ps : list (list string)) (body : list Stmt)
    (st : DState) (c : bool) (x : string) (i : nat) :
  let sums := Some (Param.param_escape_analyze P) in
  let fd := mkFunc (Some f) m ps (Some body) in
  let names := Local.ls_local_names (Local.analyze_function sums f body) in
  ParamSound.program_ok P = true -> LocalSound.locals_ok P sums fd body names = true ->
  FuncDeclaration fd ∈ P ->
  exec P false (LocalSound.local_mode names body) (LocalSound.local_enter fd) body st c ->
  Local.find_local_index names x = Some i -> i ∈ ds_leaked st ++ ds_returned st ->
  Local.local_escape_local_escapes (Local.local_escape_analyze P sums) f x = true.
Proof.
  intros sums fd names HP Hok Hin Hex Hx Hi.
  assert (NoDup (function_names P)) as Hnd.
  { by apply andb_true_iff in HP as [H%bool_decide_eq_true _]. }
  pose proof (LocalSound.find_summary P sums f m ps body Hnd Hin) as Hfind.
  destruct (LocalSound.local_reported P fd sums body names st c i) as (r&Hr&Hne); try done.
  { by eapply LocalSound.find_index_lt. }
  unfold Local.local_escape_local_escapes.
  rewrite (LocalSound.reasons_found P sums f body x i r Hfind Hx Hr).
  by apply negb_true_iff, Z.eqb_neq.
Qed.

(** ** How many walks are enough *)
Definition unit_size (params : list string) (body : list Stmt) (slots : nat) : nat :=
  length (unit_names body params) * S slots.

(** the walk over a function ends with a fixpoint within [MAX_LOCAL_PASSES] when the names
    it binds, times the slots plus one, are fewer: for parameters and for locals. *)
Theorem walks_settle (P : Program) (reg : Param.Registry) (sums : option (list ParamEscapeSummary))
    (fd : FuncDecl) (body : list Stmt) (names : list string) :
  unit_size (params_of fd) body (length (params_of fd)) < MAX_LOCAL_PASSES ->
  unit_size [] body (length names) < MAX_LOCAL_PASSES ->
  is_Some (ParamSound.param_walk reg (params_of fd) body) /\
  is_Some (LocalSound.local_walk sums names body).
Proof.
  unfold unit_size, ParamSound.param_walk, LocalSound.local_walk. generalize MAX_LOCAL_PASSES. intros passes H1 H2. split.
  - destruct (ParamSound.start_facts reg fd) as (Hw&Hn&Hnd).
    eapply (walk_fixpoint_total (LawfulHooks0 := param_lawful (length (params_of fd)) reg)
      Param.PARAM_HOOKS _ _ _ _ _ _ (unit_names body (params_of fd))); try done.
    + intros x Hx. apply elem_of_app. left. by apply Hn.
    + intros x Hx. apply elem_of_app. by right.
    + lia.
  - eapply (walk_fixpoint_total (LawfulHooks0 := local_lawful (length names) sums names)
      Local.LOCAL_HOOKS _ _ _ _ _ _ (unit_names body [])); try done; try constructor.
    + by intros x ?%elem_of_nil.
Qed.
