(* ===== verification/EscapeMisses.v ===== *)
(** * EscapeMisses: the escape analyses on concrete programs.

    One program of the fragment on which [EscapeResults] applies, and programs outside of it
    where a parameter leaks that [param_escape_param_escapes] calls non-escaping. *)
From Stdlib Require Import ZArith Lia Ascii String Bool.
From stdpp Require Import base list numbers option strings sets.
From S2P Require Import Prelude Token Escape EscapePasses EscapeFacts EscapeSem EscapeSound EscapeResults.

Definition named (x : string) : Expr := Identifier x.
Definition call_of (f : string) (args : list Expr) : Expr := CallExpr 0 (Identifier f) args false.
Definition store (lhs rhs : Expr) : Stmt := ExprStmt (BinaryExpr TOKEN_ASSIGN lhs rhs).
Definition func (f : string) (params : list string) (body : list Stmt) : FuncDecl :=
  mkFunc (Some f) false [params] (Some body).

(** The parameter [i] of [f] leaks in some execution, and the analysis says that it does not. *)
Definition missed (method_values : bool) (P : Program) (f : string) (i : nat) : Prop :=
  exists fd body st c, FuncDeclaration fd ∈ P /\ fd_name fd = Some f /\ fd_body fd = Some body /\
    exec P method_values (param_mode fd body) (enter fd) body st c /\ i ∈ ds_leaked st /\
    param_escape_param_escapes (Some (Param.param_escape_analyze P)) f i = false.

(** [G = x] and the like, run alone. *)
Lemma run_one P mv md st s st' : exec1 P mv md st s st' -> exec P mv md st [s] st' true.
Proof. intros H. eapply ex_next; [exact H|apply ex_end]. Qed.

Lemma eval_name P mv md r x t : dlookup x r = Some t -> eval P mv md r (Identifier x) t [].
Proof. intros E. pose proof (ev_name P mv md r x) as H. by rewrite E in H. Qed.

Lemma store_outside P mv md st x y t : x <> "_"%string -> dlookup x (ds_env st) = None ->
  dlookup y (ds_env st) = Some t -> exec1 P mv md st (store (named x) (named y)) (leak t (leak [] st)).
Proof.
  intros Hx Ho Hy. apply x1_expr. eapply xe_assign; [done|by apply eval_name|]. by apply as_outside.
Qed.

(** [func keep(p) { G = p }] *)
Definition keep : FuncDecl := func "keep" ["p"%string] [store (named "G") (named "p")].

Lemma keep_leaks P mv : exec P mv (param_mode keep [store (named "G") (named "p")]) (enter keep)
  [store (named "G") (named "p")] (leak [0] (leak [] (enter keep))) true.
Proof. apply run_one. by apply store_outside. Qed.

(** A call of [keep] leaks its argument. *)
Lemma call_keep P mv md r x t : function_of P "keep" = Some keep -> dlookup "keep" r = None ->
  dlookup x r = Some t -> eval P mv md r (call_of "keep" [named x]) [] ((t ++ []) ++ [] ++ []).
Proof.
  intros Hf Hk Hx.
  refine (ev_call P mv md r 0 "keep" [named x] false keep _ [t] ([] ++ []) _ true Hk Hf eq_refl _ (keep_leaks P mv)).
  apply evs_cons; [by apply eval_name|apply evs_nil].
Qed.

(** [func user(a, b) { x := a; keep(x) }], after [keep]. *)
Definition user_body : list Stmt := [VarDecl ["x"%string] [named "a"]; ExprStmt (call_of "keep" [named "x"])].
Definition user : FuncDecl := func "user" ["a"; "b"]%string user_body.
Definition keep_user : Program := [FuncDeclaration keep; FuncDeclaration user].

Lemma user_leaks : exec keep_user false (param_mode user user_body) (enter user) user_body
  (mkSt [("x", [0]); ("a", [0]); ("b", [1])]%string [0] []) true.
Proof.
  eapply ex_next.
  - eapply (x1_declare _ _ _ _ _ ["x"%string] [named "a"] [[0]]); [by left|].
    eapply evs_cons; [by apply eval_name|apply evs_nil].
  - apply run_one, x1_expr.
    apply (xe_expr _ _ _ (mkSt [("x", [0]); ("a", [0]); ("b", [1])]%string [] []) _ [] [0]); [done|].
    by apply (call_keep _ _ _ _ "x" [0]).
Qed.

Lemma param_escape_sound_witness :
  ParamSound.program_ok keep_user = true /\
  param_escape_param_escapes (Some (Param.param_escape_analyze keep_user)) "user" 0 = true /\
  param_escape_param_escapes (Some (Param.param_escape_analyze keep_user)) "user" 1 = false.
Proof.
  assert (ParamSound.program_ok keep_user = true) as Hok by (vm_compute; reflexivity).
  split; [exact Hok|]. split; [|vm_compute; reflexivity].
  apply (param_escape_sound keep_user "user" user user_body _ true 0 Hok ltac:(by right; left) eq_refl eq_refl user_leaks).
  by left.
Defined.

Lemma user_local_leaks : exec keep_user false (LocalSound.local_mode ["x"%string] user_body)
  (LocalSound.local_enter user) user_body (mkSt [("x", [0]); ("a", []); ("b", [])]%string [0] []) true.
Proof.
  eapply ex_next.
  - eapply (x1_declare _ _ _ _ _ ["x"%string] [named "a"] [[]]); [by left|].
    eapply evs_cons; [by apply eval_name|apply evs_nil].
  - apply run_one, x1_expr.
    apply (xe_expr _ _ _ (mkSt [("x", [0]); ("a", []); ("b", [])]%string [] []) _ [] [0]); [done|].
    by apply (call_keep _ _ _ _ "x" [0]).
Qed.

Lemma local_escape_sound_witness :
  let sums := Some (Param.param_escape_analyze keep_user) in
  LocalSound.locals_ok keep_user sums user user_body ["x"%string] = true /\
  Local.local_escape_local_escapes (Local.local_escape_analyze keep_user sums) "user" "x" = true.
Proof.
  assert (ParamSound.program_ok keep_user = true) as HP by (vm_compute; reflexivity).
  assert (Local.ls_local_names (Local.analyze_function (Some (Param.param_escape_analyze keep_user)) "user" user_body)
    = ["x"%string]) as En by (vm_compute; reflexivity).
  assert (LocalSound.locals_ok keep_user (Some (Param.param_escape_analyze keep_user)) user user_body ["x"%string] = true)
    as Hok by (vm_compute; reflexivity).
  split; [exact Hok|].
  pose proof (local_escape_sound keep_user "user" false [["a"; "b"]%string] user_body
    (mkSt [("x", [0]); ("a", []); ("b", [])]%string [0] []) true "x" 0) as H.
  cbv zeta in H. rewrite En in H. apply (H HP Hok ltac:(by right; left) user_local_leaks eq_refl). by left.
Defined.

Lemma walks_settle_witness :
  is_Some (ParamSound.param_walk (ParamFacts.finished_registry keep_user) (params_of user) user_body) /\
  is_Some (LocalSound.local_walk (Some (Param.param_escape_analyze keep_user)) ["x"%string] user_body).
Proof.
  apply (walks_settle keep_user (ParamFacts.finished_registry keep_user)
    (Some (Param.param_escape_analyze keep_user)) user user_body ["x"%string]);
    apply Nat.ltb_lt; vm_compute; reflexivity.
Defined.

(** ** Outside of the fragment *)
(** [func f(p) { m := p; m = G; m[0] = p }]: what [m] held once is taken to be in it still. *)
Definition overwritten_body : list Stmt :=
  [VarDecl ["m"%string] [named "p"]; store (named "m") (named "G"); store (IndexExpr (named "m") Literal) (named "p")].

Definition overwritten : Program := [FuncDeclaration (func "f" ["p"%string] overwritten_body)].

(** [func f(p, v) { keep(p)[0] = v }]: the call in the place is not looked at. *)
Definition called_place_body : list Stmt := [store (IndexExpr (call_of "keep" [named "p"]) Literal) (named "v")].

Definition called_place : Program :=
  [FuncDeclaration keep; FuncDeclaration (func "f" ["p"; "v"]%string called_place_body)].

(** [func f(p) { { x := 0 }; x = p }]: the global [x] is taken for the inner one. *)
Definition same_name_body : list Stmt := [BlockStmt [VarDecl ["x"%string] [Literal]]; store (named "x") (named "p")].

Definition same_name : Program := [FuncDeclaration (func "f" ["p"%string] same_name_body)].

(** [func f(p, len) { len(p) }]: the local [len] is taken for the builtin. *)
Definition shadowed_body : list Stmt := [ExprStmt (call_of "len" [named "p"])].

Definition shadowed : Program := [FuncDeclaration (func "f" ["p"; "len"]%string shadowed_body)].

(** [func (r) keep(p) {}], [func keep(p) { G = p }], [func f(p) { keep(p) }]: the method's
    summary is the first under the name. *)
Definition method_first_body : list Stmt := [ExprStmt (call_of "keep" [named "p"])].

Definition method_first : Program :=
  [FuncDeclaration (mkFunc (Some "keep"%string) true [["r"%string]; ["p"%string]] (Some []));
   FuncDeclaration keep; FuncDeclaration (func "f" ["p"%string] method_first_body)].

(** [func f(p) { g := p.Keep; g() }]: the receiver goes along with the method value. *)
Definition method_value_body : list Stmt :=
  [VarDecl ["g"%string] [SelectorExpr (named "p") "Keep"]; ExprStmt (call_of "g" [])].

Definition method_value : Program := [FuncDeclaration (func "f" ["p"%string] method_value_body)].

Ltac misses fd st :=
  exists fd; eexists; exists st, true; split; [apply list_elem_of_In; cbv; auto|]; split; [reflexivity|];
  split; [reflexivity|]; split; [|split; [by left|vm_compute; reflexivity]].

Lemma overwritten_missed : missed false overwritten "f" 0.
Proof.
  misses (func "f" ["p"%string] overwritten_body) (mkSt [("m", []); ("p", [0])]%string [0] []).
  eapply ex_next; [|eapply ex_next; [|apply run_one]].
  - eapply (x1_declare _ _ _ _ _ ["m"%string] [named "p"] [[0]]); [by left|].
    eapply evs_cons; [by apply eval_name|apply evs_nil].
  - apply x1_expr. apply (xe_assign _ _ _ (mkSt [("m", [0]); ("p", [0])]%string [] []) _ _ _ [] []);
      [done|exact (ev_name _ _ _ [("m", [0]); ("p", [0])]%string "G")|].
    by apply (as_local _ _ _ (mkSt [("m", [0]); ("p", [0])]%string [] []) "m" [] _ [0]).
  - apply x1_expr.
    apply (xe_assign _ _ _ (mkSt [("m", []); ("p", [0])]%string [] []) _ _ _ [0] []); [done|by apply eval_name|].
    refine (as_index _ _ _ (mkSt [("m", []); ("p", [0])]%string [] []) (named "m") Literal [0] false [] [] [] [] _ _);
      [by apply eval_name|].
    by apply (ev_elements _ _ _ _ Literal [] [] []); [|apply evs_nil].
Qed.

Lemma called_place_missed : missed false called_place "f" 0.
Proof.
  exists (func "f" ["p"; "v"]%string called_place_body), called_place_body,
    (mkSt [("p", [0]); ("v", [1])]%string [1; 0] []), true.
  split; [by right; left|]. split; [reflexivity|]. split; [reflexivity|].
  split; [|split; [by right; left|vm_compute; reflexivity]].
  apply run_one, x1_expr.
  apply (xe_assign _ _ _ (mkSt [("p", [0]); ("v", [1])]%string [] []) _ _ _ [1] []); [done|by apply eval_name|].
  refine (as_index _ _ _ (mkSt [("p", [0]); ("v", [1])]%string [] []) (call_of "keep" [named "p"]) Literal [1] false
    [] [0] [] [] _ _).
  - by apply (call_keep _ _ _ _ "p" [0]).
  - by apply (ev_elements _ _ _ _ Literal [] [] []); [|apply evs_nil].
Qed.

Lemma same_name_missed : missed false same_name "f" 0.
Proof.
  misses (func "f" ["p"%string] same_name_body) (mkSt [("p", [0])]%string [0] []).
  eapply ex_next; [|apply run_one].
  - eapply (x1_block _ _ _ _ _ _ (mkSt [("x", []); ("p", [0])]%string [] [])); [by left|]. apply run_one.
    refine (x1_declare _ _ _ (mkSt [("p", [0])]%string [] []) _ ["x"%string] [Literal] [[]] ([] ++ []) _ _); [by left|].
    eapply evs_cons; [|apply evs_nil]. by apply (ev_elements _ _ _ _ Literal [] [] []); [|apply evs_nil].
  - by apply (store_outside _ _ _ (mkSt [("p", [0])]%string [] []) "x" "p" [0]).
Qed.

Lemma shadowed_missed : missed false shadowed "f" 0.
Proof.
  misses (func "f" ["p"; "len"]%string shadowed_body) (mkSt [("p", [0]); ("len", [1])]%string [0] []).
  apply run_one, x1_expr.
  apply (xe_expr _ _ _ (mkSt [("p", [0]); ("len", [1])]%string [] []) _ [0] [0]); [done|].
  apply (ev_call_opaque _ false _ _ 0 (named "len") [named "p"] false [1] [] [[0]] ([] ++ [])).
  - left. by exists [1].
  - by apply eval_name.
  - apply evs_cons; [by apply eval_name|apply evs_nil].
Qed.

Lemma method_first_missed : missed false method_first "f" 0.
Proof.
  misses (func "f" ["p"%string] method_first_body) (mkSt [("p", [0])]%string [0] []).
  apply run_one, x1_expr. apply (xe_expr _ _ _ (mkSt [("p", [0])]%string [] []) _ [] [0]); [done|].
  by apply (call_keep _ _ _ _ "p" [0]).
Qed.

Lemma method_value_missed : missed true method_value "f" 0.
Proof.
  misses (func "f" ["p"%string] method_value_body) (mkSt [("g", [0]); ("p", [0])]%string [0] []).
  eapply ex_next; [|apply run_one].
  - eapply (x1_declare _ _ _ _ _ ["g"%string] _ [[0]]); [by left|].
    eapply evs_cons; [|apply evs_nil]. eapply ev_inner; [reflexivity|by apply eval_name].
  - apply x1_expr. apply (xe_expr _ _ _ (mkSt [("g", [0]); ("p", [0])]%string [] []) _ [0] [0]); [done|].
    apply (ev_call_opaque _ true _ _ 0 (named "g") [] false [0] [] [] []).
    + left. by exists [0].
    + by apply eval_name.
    + apply evs_nil.
Qed.

(** C20: outside of the fragment a parameter can leak that the analysis calls non-escaping: an
    overwritten container, a call in an assigned place, a global with the name of an inner local,
    a shadowed builtin, a method with the name of a function, and a bound method value. *)
Theorem param_escape_misses :
  missed false overwritten "f" 0 /\ missed false called_place "f" 0 /\ missed false same_name "f" 0 /\
  missed false shadowed "f" 0 /\ missed false method_first "f" 0 /\ missed true method_value "f" 0.
Proof.
  split_and!; [apply overwritten_missed|apply called_place_missed|apply same_name_missed|apply shadowed_missed
    |apply method_first_missed|apply method_value_missed].
Qed.
