(* ===== verification/Release.v ===== *)
(** * Release: src/types/release_decision.c, which locals a function may release.

    A walk over a function's body collects, for every local name, the values bound to it, how
    often it is bound and where it is declared, and marks the locals whose value is stored into
    something that outlives the iteration of their loop; [decide] turns the record of a local and
    the answers of the escape passes into a verdict.  Code generation frees what an approved
    local holds: before a store to it, at the end of the scope it was declared in, and when the
    function ends.

    A NULL expression is [ENull].  The depths of [WalkCtx] are raised and lowered around a
    statement's parts: they are parameters here ([Place]).  Expression nodes are told apart by
    their position in the list of sites.  Running out of memory is not modelled. *)
From Stdlib Require Import ZArith Lia Ascii String Bool.
From stdpp Require Import base list numbers option strings.
From S2P Require Import Prelude Token Escape EscapePasses.
Local Open Scope Z_scope.

(** ** What is collected *)
Record LocalRecord : Set := mkRecord {
  lr_name : string;
  bound_value : Expr;
  binding_count : nat;
  block_depth : Z;
  arena_depth : Z;
  lr_declared : bool;
  block_escapes : bool;
  loop_header : bool;
  lr_values : list Expr;
  has_unsafe_value : bool
}.

Record Collected : Set := mkCollected {
  items : list LocalRecord;
  unreadable : bool;
  key_sites : list Expr;
  concat_sites : list Expr;
  elem_sites : list (string * Expr);
  loop_locals_unreadable : bool
}.

Definition nothing_collected : Collected := mkCollected [] false [] [] [] false.

Record Place : Set := mkPlace { pl_block : Z; pl_arena : Z; pl_header : bool }.
Definition function_scope : Place := mkPlace 0 0 false.
Definition deeper (p : Place) : Place := mkPlace (pl_block p + 1) (pl_arena p) (pl_header p).
Definition in_arena (p : Place) : Place := mkPlace (pl_block p) (pl_arena p + 1) (pl_header p).
Definition in_header (p : Place) : Place := mkPlace (pl_block p) (pl_arena p) true.

(** *** Updates *)
Definition set_items (rs : list LocalRecord) (c : Collected) : Collected :=
  mkCollected rs (unreadable c) (key_sites c) (concat_sites c) (elem_sites c)
    (loop_locals_unreadable c).
Definition set_unreadable (c : Collected) : Collected :=
  mkCollected (items c) true (key_sites c) (concat_sites c) (elem_sites c) (loop_locals_unreadable c).
Definition set_loop_locals_unreadable (c : Collected) : Collected :=
  mkCollected (items c) (unreadable c) (key_sites c) (concat_sites c) (elem_sites c) true.
Definition add_key_site (e : Expr) (c : Collected) : Collected :=
  mkCollected (items c) (unreadable c) (key_sites c ++ [e]) (concat_sites c) (elem_sites c)
    (loop_locals_unreadable c).
Definition add_concat_sites (es : list Expr) (c : Collected) : Collected :=
  mkCollected (items c) (unreadable c) (key_sites c) (concat_sites c ++ es) (elem_sites c)
    (loop_locals_unreadable c).
Definition add_elem_site (x : string) (e : Expr) (c : Collected) : Collected :=
  mkCollected (items c) (unreadable c) (key_sites c) (concat_sites c) (elem_sites c ++ [(x, e)])
    (loop_locals_unreadable c).

Fixpoint find_in (rs : list LocalRecord) (name : string) : option LocalRecord :=
  match rs with
  | [] => None
  | r :: rs => if (lr_name r =? name)%string then Some r else find_in rs name
  end.

Definition find_record (c : Collected) (name : string) : option LocalRecord := find_in (items c) name.

(** The record a pointer of [find_record] is written through. *)
Fixpoint update_in (f : LocalRecord -> LocalRecord) (rs : list LocalRecord) (name : string)
    : list LocalRecord :=
  match rs with
  | [] => []
  | r :: rs => if (lr_name r =? name)%string then f r :: rs else r :: update_in f rs name
  end.

Definition update_record (f : LocalRecord -> LocalRecord) (name : string) (c : Collected) : Collected :=
  set_items (update_in f (items c) name) c.

Definition new_record (name : string) : LocalRecord :=
  mkRecord name ENull 0 0 0 false false false [] false.

Definition intern_record (name : string) (c : Collected) : Collected :=
  match find_record c name with
  | Some _ => c
  | None => set_items (items c ++ [new_record name]) c
  end.

Definition record_value (v : Expr) (r : LocalRecord) : LocalRecord :=
  mkRecord (lr_name r) (bound_value r) (binding_count r) (block_depth r) (arena_depth r)
    (lr_declared r) (block_escapes r) (loop_header r) (lr_values r ++ [v]) (has_unsafe_value r).
Definition count_binding (r : LocalRecord) : LocalRecord :=
  mkRecord (lr_name r) (bound_value r) (S (binding_count r)) (block_depth r) (arena_depth r)
    (lr_declared r) (block_escapes r) (loop_header r) (lr_values r) (has_unsafe_value r).
Definition mark_unsafe (r : LocalRecord) : LocalRecord :=
  mkRecord (lr_name r) (bound_value r) (binding_count r) (block_depth r) (arena_depth r)
    (lr_declared r) (block_escapes r) (loop_header r) (lr_values r) true.
Definition mark_block_escape (r : LocalRecord) : LocalRecord :=
  mkRecord (lr_name r) (bound_value r) (binding_count r) (block_depth r) (arena_depth r)
    (lr_declared r) true (loop_header r) (lr_values r) (has_unsafe_value r).
Definition declare_at (p : Place) (v : Expr) (r : LocalRecord) : LocalRecord :=
  mkRecord (lr_name r) v (binding_count r) (pl_block p) (pl_arena p) true (block_escapes r)
    (pl_header p) (lr_values r) (has_unsafe_value r).

(** ** Condition 6: the mention scanner *)
Definition scan_list (scan : Expr -> Collected -> Collected) :=
  fix go (es : list Expr) (c : Collected) : Collected :=
    match es with [] => c | e :: es => go es (scan e c) end.

Definition mark_if_deeper (target_depth : Z) (r : LocalRecord) : LocalRecord :=
  if target_depth <? block_depth r then mark_block_escape r else r.

Fixpoint mark_mentions (target_depth : Z) (e : Expr) (c : Collected) {struct e} : Collected :=
  let mark := mark_mentions target_depth in
  let all := scan_list mark in
  match e with
  | ENull | Literal => c
  | Identifier name => update_record (mark_if_deeper target_depth) name c
  | BinaryExpr _ l r | IndexExpr l r => mark r (mark l c)
  | UnaryExpr _ _ e | SelectorExpr e _ => mark e c
  | CallExpr _ fn args _ => all args (mark fn c)
  | SliceIndexExpr e lo hi => mark hi (mark lo (mark e c))
  | SliceLit es | ArrayLit es | StructLiteral es => all es c
  | MapLit ks vs => all vs (all ks c)
  | PostfixExpr _ | FuncLit _ _ | KeyedElement _ | SliceConversion _ | TypeAssert _ | OtherExpr =>
      set_loop_locals_unreadable c
  end.

(** ** The operands of concatenations *)
Definition not_null (e : Expr) : bool := match e with ENull => false | _ => true end.

Fixpoint note_concat_operands (e : Expr) (c : Collected) {struct e} : Collected :=
  let note := note_concat_operands in
  let all := scan_list note in
  match e with
  | BinaryExpr op l r =>
      let c := if token_eqb op TOKEN_PLUS then add_concat_sites (List.filter not_null [l; r]) c else c in
      note r (note l c)
  | UnaryExpr _ _ e | SelectorExpr e _ => note e c
  | CallExpr _ fn args _ => all args (note fn c)
  | IndexExpr l r => note r (note l c)
  | SliceIndexExpr e lo hi => note hi (note lo (note e c))
  | SliceLit es | ArrayLit es | StructLiteral es => all es c
  | MapLit ks vs => all vs (all ks c)
  | ENull | Identifier _ | Literal | PostfixExpr _ | FuncLit _ _ | KeyedElement _
  | SliceConversion _ | TypeAssert _ | OtherExpr => c
  end.

Definition note_concat_operand_list (es : list Expr) (c : Collected) : Collected :=
  scan_list note_concat_operands es c.

(** ** Bindings *)
Definition INT_MAX : Z := 2 ^ 31 - 1.

Definition target_lifetime_depth (c : Collected) (lhs : Expr) : Z :=
  match lhs with
  | Identifier name =>
      if (name =? "_")%string then INT_MAX
      else match find_record c name with
           | Some r => if lr_declared r then block_depth r else -1
           | None => -1
           end
  | _ => -1
  end.

Definition note_elem_site (target : string) (e : Expr) (c : Collected) : Collected :=
  if not_null e then add_elem_site target e c else c.

Definition note_literal_elems (target : string) (value : Expr) (c : Collected) : Collected :=
  match value with
  | SliceLit es => scan_list (note_elem_site target) es c
  | _ => c
  end.

Definition note_append_elems (target : string) (rhs : Expr) (c : Collected) : Collected :=
  match rhs with
  | CallExpr _ _ (_ :: added) _ => scan_list (note_elem_site target) added c
  | _ => c
  end.

Definition declared_already (c : Collected) (name : string) : bool :=
  match find_record c name with Some r => lr_declared r | None => false end.

(** The value is scanned before the name counts as declared. *)
Definition note_declaration (p : Place) (name : string) (value : Expr) (c : Collected) : Collected :=
  if (name =? "_")%string then c else
  let c := intern_record name c in
  let c := mark_mentions (pl_block p) value c in
  let c :=
    if declared_already c name then c
    else note_literal_elems name value (update_record (declare_at p value) name c) in
  update_record count_binding name (update_record (record_value value) name c).

Definition is_self_append (target : string) (rhs : Expr) : bool :=
  match rhs with
  | CallExpr _ (Identifier f) (Identifier a :: _) _ => (f =? "append")%string && (a =? target)%string
  | _ => false
  end.

Definition release_decision_is_self_append : string -> Expr -> bool := is_self_append.

Fixpoint note_key_site (lhs : Expr) (c : Collected) : Collected :=
  match lhs with
  | IndexExpr e index => note_key_site e (add_key_site index c)
  | _ => c
  end.

Definition note_assignment (lhs rhs : Expr) (plain_assign : bool) (c : Collected) : Collected :=
  match lhs with
  | ENull => c
  | _ =>
      let c := note_key_site lhs (mark_mentions (target_lifetime_depth c lhs) rhs c) in
      match lhs with
      | Identifier name =>
          if (name =? "_")%string then c else
          let c := intern_record name c in
          if plain_assign && is_self_append name rhs then note_append_elems name rhs c
          else
            let c := update_record (if plain_assign then record_value rhs else mark_unsafe) name c in
            update_record count_binding name c
      | _ => c
      end
  end.

(** The names of a declaration and their values: pairwise, or the one value for every name. *)
Definition seed_values {A} (names : list A) (values : list Expr) : list (A * Expr) :=
  if (length values =? length names)%nat then zip names values
  else
    let single := match values with [v] => v | _ => ENull end in
    map (fun n => (n, single)) names.

Definition note_declarations (p : Place) (bs : list (string * Expr)) (c : Collected) : Collected :=
  fold_left (fun c b => note_declaration p (fst b) (snd b) c) bs c.

Definition seed_names (p : Place) (names : list string) (values : list Expr) (c : Collected) : Collected :=
  note_declarations p (seed_values names values) c.

Definition note_declaration_opt (p : Place) (name : option string) (c : Collected) : Collected :=
  match name with Some n => note_declaration p n ENull c | None => c end.

Definition min_target_depth (c : Collected) (targets : list Expr) : Z :=
  fold_left (fun m t => Z.min m (target_lifetime_depth c t)) targets INT_MAX.

(** [a, b = f()]: the value reaches every target, so the one that lives longest decides. *)
Definition scan_mismatch (targets values : list Expr) (c : Collected) : Collected :=
  if (length targets =? length values)%nat then c
  else scan_list (mark_mentions (min_target_depth c targets)) values c.

Definition declare_targets (p : Place) (targets values : list Expr) (c : Collected) : Collected :=
  fold_left (fun c b => match fst b with Identifier n => note_declaration p n (snd b) c | _ => c end)
    (seed_values targets values) c.

Definition pair_targets (targets values : list Expr) : list (Expr * Expr) :=
  if (length targets =? length values)%nat then zip targets values
  else map (fun t => (t, ENull)) targets.

Definition assign_targets (targets values : list Expr) (c : Collected) : Collected :=
  fold_left (fun c b => note_assignment (fst b) (snd b) true c)
    (pair_targets targets values) (scan_mismatch targets values c).

(** ** The walk *)
Definition note_expression_assignment (e : Expr) (c : Collected) : Collected :=
  match e with
  | BinaryExpr op l r =>
      if is_assign_op op then note_assignment l r (token_eqb op TOKEN_ASSIGN) c else c
  | _ => c
  end.

(** What a case of select binds.  A name assigned to holds a value that is recorded nowhere. *)
Definition note_select_bind (p : Place) (h : SelectHead) (c : Collected) : Collected :=
  match sc_bind_name h with
  | Some x =>
      if (x =? "_")%string then c
      else if sc_is_declare h =? 1 then note_declaration p x ENull c
      else if sc_is_declare h =? 0 then
        update_record count_binding x (update_record mark_unsafe x (intern_record x c))
      else c
  | None => c
  end.

Definition walk_list (walk : Stmt -> Collected -> Collected) :=
  fix go (ss : list Stmt) (c : Collected) : Collected :=
    match ss with [] => c | s :: ss => go ss (walk s c) end.

Definition walk_cases {A} (f : A -> Collected -> Collected) :=
  fix go (cs : list A) (c : Collected) : Collected :=
    match cs with [] => c | x :: cs => go cs (f x c) end.

Fixpoint walk_stmt (p : Place) (s : Stmt) (c : Collected) {struct s} : Collected :=
  let walk p := walk_list (walk_stmt p) in
  match s with
  | BlockStmt ss | UnsafeStmt ss => walk p ss c
  | ExprStmt e => note_expression_assignment e (note_concat_operands e c)
  | VarDecl names vs | ConstDecl names vs => seed_names p names vs (note_concat_operand_list vs c)
  | MultiAssign ts vs is_short =>
      let c := note_concat_operand_list vs c in
      if is_short then declare_targets p ts vs c else assign_targets ts vs c
  | IfStmt _ th el => walk p el (walk p th c)
  | ForStmt init _ post body =>
      let q := deeper p in
      walk q body (walk (in_header q) post (walk (in_header q) init c))
  | ForRangeStmt k v _ body =>
      let q := deeper p in
      walk q body
        (note_declaration_opt (in_header q) v (note_declaration_opt (in_header q) k c))
  | ArenaBlock ss => walk (in_arena p) ss c
  | SwitchStmt _ cases => walk_cases (fun cl => walk (deeper p) (snd cl)) cases c
  | TypeSwitch _ x cases =>
      walk_cases (walk (deeper p)) cases (note_declaration_opt (deeper p) x c)
  | SelectStmt cases =>
      walk_cases (fun cl c =>
        walk (deeper p) (snd cl)
          (note_select_bind (deeper p) (fst cl) (note_expression_assignment (sc_comm (fst cl)) c)))
        cases c
  | IfLetStmt x _ th el => walk p el (walk p th (note_declaration_opt p x c))
  | ReturnStmt vs => note_concat_operand_list vs c
  | BreakStmt | ContinueStmt | GoStmt _ | DeferStmt _ => c
  | AssertStmt _ _ | AssumeStmt _ | OtherStmt => set_unreadable c
  end.

Definition walk_stmts (p : Place) : list Stmt -> Collected -> Collected := walk_list (walk_stmt p).

Definition collect (body : list Stmt) : Collected := walk_stmts function_scope body nothing_collected.

(** ** Condition 2: ownership of a value, decided on its expression *)
Definition is_new_call (e : Expr) : bool :=
  match e with CallExpr _ fn _ _ => Block.is_new_callee fn | _ => false end.

Definition is_addr_of_composite (e : Expr) : bool :=
  match e with UnaryExpr _ op operand => Block.is_addr_of_composite op operand | _ => false end.

Definition is_local (c : Collected) (name : string) : bool :=
  match find_record c name with Some _ => true | None => false end.

Definition selector_base_is_local (c : Collected) (fn : Expr) : bool :=
  match fn with SelectorExpr (Identifier base) _ => is_local c base | _ => false end.

Section Ownership.
  Context (c : Collected) (pe : option (list ParamEscapeSummary)).

Definition call_result_is_owned (fn : Expr) : bool :=
  match fn with
  | Identifier name =>
      match param_escape_lookup pe name with Some s => negb (ps_return_escapes s) | None => false end
  | SelectorExpr (Identifier pkg) sel =>
      negb (selector_base_is_local c fn) && shim_signature_is_non_retaining pkg sel
  | _ => false
  end.

Definition binding_returns_owned_elems (name : string) : bool :=
  match find_record c name with
  | Some r =>
      lr_declared r && (binding_count r =? 1)%nat &&
      match bound_value r with
      | CallExpr _ (SelectorExpr (Identifier pkg) sel as fn) _ _ =>
          negb (selector_base_is_local c fn) && shim_signature_returns_owned_elems pkg sel
      | _ => false
      end
  | None => false
  end.

Definition binding_is_owned (value : Expr) : bool :=
  is_new_call value || is_addr_of_composite value ||
  match value with
  | StructLiteral _ | SliceLit _ | ArrayLit _ | MapLit _ _ => true
  | CallExpr _ fn _ _ => call_result_is_owned fn
  | BinaryExpr op _ _ => token_eqb op TOKEN_PLUS
  | _ => false
  end.

(** ** Rebound locals: every value may be freed by a store *)
Definition value_is_release_safe (value : Expr) : bool :=
  match value with ENull => false | Literal => true | _ => binding_is_owned value end.

Definition all_values_release_safe (r : LocalRecord) : bool :=
  negb (has_unsafe_value r) && negb (length (lr_values r) =? 0)%nat &&
  forallb value_is_release_safe (lr_values r).

(** ** Condition 7: aliases
    The first component tells whether the name was found, the second whether an expression was
    met that cannot be searched; a list stops at the first find. *)
Definition names_in (names : Expr -> bool * bool) :=
  fix go (es : list Expr) : bool * bool :=
    match es with
    | [] => (false, false)
    | e :: es =>
        let '(found, unknown) := names e in
        if found then (true, unknown)
        else let '(found, unknown') := go es in (found, unknown || unknown')
    end.

Fixpoint expr_names_local (target : string) (e : Expr) {struct e} : bool * bool :=
  let names := expr_names_local target in
  let or a b :=
    match a with
    | (true, u) => (true, u)
    | (false, u) => let '(found, u') := b in (found, u || u')
    end in
  let all := names_in names in
  match e with
  | ENull | Literal => (false, false)
  | Identifier n => ((n =? target)%string, false)
  | BinaryExpr _ l r | IndexExpr l r => or (names l) (names r)
  | UnaryExpr _ _ e | PostfixExpr e | SelectorExpr e _ => names e
  | CallExpr _ fn args _ => or (names fn) (all args)
  | SliceIndexExpr e lo hi => or (or (names e) (names lo)) (names hi)
  | SliceLit es | ArrayLit es | StructLiteral es => all es
  | MapLit ks vs => or (all ks) (all vs)
  | FuncLit _ _ | KeyedElement _ | SliceConversion _ | TypeAssert _ | OtherExpr => (false, true)
  end.

Definition value_may_alias (name : string) (v : Expr) : bool :=
  not_null v && negb (binding_is_owned v) &&
  let '(found, unknown) := expr_names_local name v in found || unknown.

Definition has_alias (name : string) : bool :=
  existsb (fun other => negb (lr_name other =? name)%string &&
                        existsb (value_may_alias name) (lr_values other)) (items c).

(** ** Map keys that are plain names (ADR 0005) *)
Definition names_key (name : string) (k : Expr) : bool :=
  match k with Identifier other => (other =? name)%string | _ => false end.

Context (le : list Local.LocalEscapeSummary) (fn : string).

Definition identifier_key_is_owned (key : Expr) : bool :=
  match key with
  | Identifier name =>
      match find_record c name with
      | Some r =>
          negb (has_unsafe_value r) && negb (length (lr_values r) =? 0)%nat &&
          forallb binding_is_owned (lr_values r) &&
          (Local.local_escape_local_reasons le fn name =? ESCAPE_REASON_SUBSCRIPT_STORE) &&
          (length (List.filter (names_key name) (key_sites c)) =? 1)%nat
      | None => false
      end
  | _ => false
  end.

(** ** Verdicts *)
End Ownership.

Inductive ReleaseVerdict : Set :=
| RELEASE_OK
| RELEASE_NO_ESCAPES
| RELEASE_NO_NOT_OWNED
| RELEASE_NO_ARENA
| RELEASE_NO_LOOP_SCOPE
| RELEASE_NO_REBOUND
| RELEASE_NO_ALIASED
| RELEASE_NO_BLOCK_ESCAPE
| RELEASE_NO_NO_BINDING
| RELEASE_NO_UNKNOWN.

Definition release_verdict_name (v : ReleaseVerdict) : string :=
  match v with
  | RELEASE_OK => "RELEASE_OK"
  | RELEASE_NO_ESCAPES => "RELEASE_NO_ESCAPES"
  | RELEASE_NO_NOT_OWNED => "RELEASE_NO_NOT_OWNED"
  | RELEASE_NO_ARENA => "RELEASE_NO_ARENA"
  | RELEASE_NO_LOOP_SCOPE => "RELEASE_NO_LOOP_SCOPE"
  | RELEASE_NO_REBOUND => "RELEASE_NO_REBOUND"
  | RELEASE_NO_ALIASED => "RELEASE_NO_ALIASED"
  | RELEASE_NO_BLOCK_ESCAPE => "RELEASE_NO_BLOCK_ESCAPE"
  | RELEASE_NO_NO_BINDING => "RELEASE_NO_NO_BINDING"
  | RELEASE_NO_UNKNOWN => "RELEASE_NO_UNKNOWN"
  end%string.

#[global] Instance ReleaseVerdict_eq_dec : EqDecision ReleaseVerdict.
Proof. solve_decision. Defined.

Section Decide.
  Context (c : Collected) (pe : option (list ParamEscapeSummary)) (le : list Local.LocalEscapeSummary)
    (fn : string).

Definition decide_bindings (r : LocalRecord) : ReleaseVerdict :=
  if (1 <? binding_count r)%nat then
    if negb (all_values_release_safe c pe r) then RELEASE_NO_NOT_OWNED
    else if has_alias c pe (lr_name r) then RELEASE_NO_ALIASED
    else RELEASE_OK
  else if negb (binding_is_owned c pe (bound_value r)) then RELEASE_NO_NOT_OWNED
  else RELEASE_OK.

Definition decide (r : LocalRecord) : ReleaseVerdict :=
  if unreadable c then RELEASE_NO_UNKNOWN
  else if negb (lr_declared r) then RELEASE_NO_NO_BINDING
  else if Local.local_escape_local_escapes le fn (lr_name r) then RELEASE_NO_ESCAPES
  else if 0 <? arena_depth r then RELEASE_NO_ARENA
  else if (0 <? block_depth r) && loop_header r then RELEASE_NO_LOOP_SCOPE
  else if (0 <? block_depth r) && (loop_locals_unreadable c || block_escapes r) then
    RELEASE_NO_BLOCK_ESCAPE
  else decide_bindings r.

Definition slice_owns_elems (name : string) : bool :=
  let stored := List.filter (fun s => (fst s =? name)%string) (elem_sites c) in
  forallb (fun s => binding_is_owned c pe (snd s)) stored &&
  (negb (length stored =? 0)%nat || binding_returns_owned_elems c name).

Definition key_is_owned (key : Expr) : bool :=
  binding_is_owned c pe key || identifier_key_is_owned c pe le fn key.
End Decide.

(** ** Plans *)
Record ReleaseDecision : Set := mkDecision {
  local_name : string;
  verdict : ReleaseVerdict;
  owns_elems : bool;
  diagnostic_reasons : Z
}.

(** An owned key or operand is the number of its site. *)
Record ReleasePlanFunction : Set := mkPlanFunction {
  function_name : string;
  decisions : list ReleaseDecision;
  owned_keys : list nat;
  owned_concat_operands : list nat
}.

Fixpoint owned_sites (owned : Expr -> bool) (i : nat) (sites : list Expr) : list nat :=
  match sites with
  | [] => []
  | e :: sites => if owned e then i :: owned_sites owned (S i) sites else owned_sites owned (S i) sites
  end.

Definition plan_function (pe : option (list ParamEscapeSummary)) (le : list Local.LocalEscapeSummary)
    (fn : string) (body : list Stmt) : ReleasePlanFunction :=
  let c := collect body in
  mkPlanFunction fn
    (map (fun r => mkDecision (lr_name r) (decide c pe le fn r) (slice_owns_elems c pe (lr_name r))
                     (Local.local_escape_local_reasons le fn (lr_name r))) (items c))
    (owned_sites (key_is_owned c pe le fn) 0 (key_sites c))
    (owned_sites (binding_is_owned c pe) 0 (concat_sites c)).

Definition plan_decl (pe : option (list ParamEscapeSummary)) (le : list Local.LocalEscapeSummary) (d : Decl)
    : option ReleasePlanFunction :=
  match d with
  | FuncDeclaration fd =>
      match fd_name fd with
      | Some n => Some (plan_function pe le n (default [] (fd_body fd)))
      | None => None
      end
  | OtherDecl => None
  end.

Definition release_plan_analyze (program : Program) : list ReleasePlanFunction :=
  let pe := Some (Param.param_escape_analyze program) in
  let le := Local.local_escape_analyze program pe in
  omap (plan_decl pe le) program.

(** A function's plan is the first of its name, a local's decision the first of its name. *)
Definition plan_lookup (plan : list ReleasePlanFunction) (fn : string) : option ReleasePlanFunction :=
  List.find (fun pf => (function_name pf =? fn)%string) plan.

Definition decision_lookup (plan : list ReleasePlanFunction) (fn local : string)
    : option ReleaseDecision :=
  match plan_lookup plan fn with
  | Some pf => List.find (fun d => (local_name d =? local)%string) (decisions pf)
  | None => None
  end.

Definition release_plan_verdict (plan : list ReleasePlanFunction) (fn local : string) : ReleaseVerdict :=
  match decision_lookup plan fn local with Some d => verdict d | None => RELEASE_NO_NO_BINDING end.

Definition release_plan_should_release (plan : list ReleasePlanFunction) (fn local : string) : bool :=
  bool_decide (release_plan_verdict plan fn local = RELEASE_OK).

Definition release_plan_slice_owns_elems (plan : list ReleasePlanFunction) (fn local : string) : bool :=
  match decision_lookup plan fn local with Some d => owns_elems d | None => false end.

Definition release_plan_diagnostic_reasons (plan : list ReleasePlanFunction) (fn local : string) : Z :=
  match decision_lookup plan fn local with
  | Some d => diagnostic_reasons d
  | None => ESCAPE_REASON_ALL
  end.

Definition release_plan_key_is_owned (plan : list ReleasePlanFunction) (fn : string) (site : nat) : bool :=
  match plan_lookup plan fn with
  | Some pf => existsb (Nat.eqb site) (owned_keys pf)
  | None => false
  end.

Definition release_plan_concat_operand_is_owned (plan : list ReleasePlanFunction) (fn : string)
    (site : nat) : bool :=
  match plan_lookup plan fn with
  | Some pf => existsb (Nat.eqb site) (owned_concat_operands pf)
  | None => false
  end.
