(* ===== verification/ReleaseSem.v ===== *)
(** * ReleaseSem: what the releases of an approved local do, as executions.

    A run of a function body along any control path.  A local's slot holds a value: the heap
    object a release of the slot would free ([prim]), and the objects the value contains.
    Objects allocated by the run have numbers; memory that is not the function's own to free (a
    parameter's, an arena's) is [Foreign].  Where an expression's value comes from is an
    over-approximation: an allocation holds what its operands hold, anything else some of what
    the names it mentions hold, and any evaluation may put objects it reads outside.  A read of a
    freed object, a second release and a release of foreign memory end the run ([Crashed]).

    Releases are where code generation emits them: before a store to an approved local that is
    not a self-append, at the end of an iteration, at [break] and [continue] (for the innermost
    scope only) and at the function's end.  A range loop keeps the value it ranges over.  Names
    are looked up in one table: the runs are those of a body that declares each of its names
    once.  The results that one call gives to several names may be one object.  The bodies of
    function literals do not run, the elements of a released slice stay, and a statement the
    analysis cannot read does not run: nothing is approved where there is one. *)
From Stdlib Require Import ZArith Lia Ascii String Bool.
From stdpp Require Import base list numbers option strings gmap.
From S2P Require Import Prelude Token Escape EscapePasses Release.
Local Open Scope Z_scope.

(** ** Values and states *)
Inductive Prim : Set :=
| Nil
| Immortal
| Foreign
| Obj (n : nat).

Record Value : Set := mkValue { prim : Prim; contents : gset nat }.

Definition prim_objects (q : Prim) : gset nat := match q with Obj n => {[n]} | _ => ∅ end.
Definition objects (v : Value) : gset nat := prim_objects (prim v) ∪ contents v.
Definition no_value : Value := mkValue Nil ∅.

(** A slot outlives its name: the name is [s_live] while its scope is open. *)
Record Slot : Set := mkSlot { s_value : Value; s_place : Place; s_live : bool }.

(** The value a range loop goes over, with the depth of the loop and the name of its elements. *)
Record Kept : Set := mkKept { k_depth : Z; k_name : option string; k_objects : gset nat }.

(** [mine] are the objects an approved local was ever bound to, [outside] those stored where the
    locals' scopes do not reach, [temps] the values being ranged over. *)
Record State : Set := mkState {
  env : gmap string Slot;
  next : nat;
  freed : gset nat;
  outside : gset nat;
  mine : gset nat;
  temps : list Kept
}.

Definition start : State := mkState ∅ 0 ∅ ∅ ∅ [].

Inductive Fault : Set := UseAfterFree | DoubleFree | BadFree.

Inductive Outcome : Set :=
| Done
| Broke
| Continued
| Returned
| Panicked
| Crashed (why : Fault).

Definition live_value (st : State) (x : string) : option Value :=
  match env st !! x with Some s => if s_live s then Some (s_value s) else None | None => None end.

(** ** Where values come from *)
Section Flow.
  Context (fresh_call : string -> bool) (shadowed : string -> bool).

(** Calls whose result is made from none of their arguments. *)
Definition copies (fn : Expr) : bool :=
  Block.is_new_callee fn ||
  match fn with
  | Identifier f => fresh_call f
  | SelectorExpr (Identifier pkg) sel => negb (shadowed pkg) && shim_signature_is_non_retaining pkg sel
  | _ => false
  end.

Definition is_composite (e : Expr) : bool :=
  match e with
  | StructLiteral _ | SliceLit _ | ArrayLit _ | MapLit _ _ => true
  | _ => is_addr_of_composite e
  end.

Definition allocates (e : Expr) : bool :=
  is_composite e ||
  match e with
  | CallExpr _ fn _ _ => copies fn
  | BinaryExpr op _ _ => token_eqb op TOKEN_PLUS
  | _ => false
  end.

Definition is_static (e : Expr) : bool := match e with ENull | Literal => true | _ => false end.

Definition any_of (f : Expr -> bool) :=
  fix go (es : list Expr) : bool := match es with [] => false | e :: es => f e || go es end.

(** May the value of [e] hold what the local [x] holds? *)
Fixpoint may_hold (x : string) (e : Expr) : bool :=
  let all := any_of (may_hold x) in
  match e with
  | ENull | Literal | BinaryExpr _ _ _ => false
  | Identifier y => (y =? x)%string
  | UnaryExpr _ _ e | PostfixExpr e | SelectorExpr e _ | KeyedElement e | SliceConversion e
  | TypeAssert e | IndexExpr e _ | SliceIndexExpr e _ _ => may_hold x e
  | CallExpr _ fn args _ => negb (copies fn) && (may_hold x fn || all args)
  | FuncLit _ captured => existsb (fun y => (y =? x)%string) captured
  | StructLiteral es | SliceLit es | ArrayLit es => all es
  | MapLit ks vs => all ks || all vs
  | OtherExpr => true
  end.

(** Does evaluating [e] read the local [x]? *)
Fixpoint reads (x : string) (e : Expr) : bool :=
  let all := any_of (reads x) in
  match e with
  | ENull | Literal => false
  | Identifier y => (y =? x)%string
  | BinaryExpr _ l r | IndexExpr l r => reads x l || reads x r
  | UnaryExpr _ _ e | PostfixExpr e | SelectorExpr e _ | KeyedElement e | SliceConversion e
  | TypeAssert e => reads x e
  | SliceIndexExpr e lo hi => reads x e || reads x lo || reads x hi
  | CallExpr _ fn args _ => reads x fn || all args
  | FuncLit _ captured => existsb (fun y => (y =? x)%string) captured
  | StructLiteral es | SliceLit es | ArrayLit es => all es
  | MapLit ks vs => all ks || all vs
  | OtherExpr => true
  end.

Definition dangling (st : State) (e : Expr) : Prop :=
  exists x v n, reads x e = true /\ live_value st x = Some v /\ n ∈ objects v /\ n ∈ freed st.

Definition held (st : State) (es : list Expr) (n : nat) : Prop :=
  n ∈ outside st \/
  exists e x v, e ∈ es /\ may_hold x e = true /\ live_value st x = Some v /\ n ∈ objects v.

Definition holds_only (st : State) (es : list Expr) (ns : gset nat) : Prop :=
  forall n, n ∈ ns -> held st es n.

Definition own_prim (st : State) (arena : bool) (q : Prim) : Prop :=
  q = Nil \/ q = Immortal \/ q = Obj (next st) \/ (arena = true /\ q = Foreign).

Definition value_of (arena : bool) (st : State) (e : Expr) (v : Value) : Prop :=
  if is_static e then (prim v = Nil \/ prim v = Immortal) /\ contents v = ∅
  else if allocates e then own_prim st arena (prim v) /\ holds_only st [e] (contents v)
  else holds_only st [e] (objects v).

(** The state after an evaluation that may have put objects it read outside. *)
Inductive evaluated (st : State) (e : Expr) : State -> Prop :=
| evaluated_as out : ~ dangling st e -> outside st ⊆ out ->
    (forall n, n ∈ out -> n ∈ outside st \/
       exists x v, reads x e = true /\ live_value st x = Some v /\ n ∈ objects v) ->
    evaluated st e (mkState (env st) (S (next st)) (freed st) out (mine st) (temps st)).

Inductive evaluateds : State -> list Expr -> State -> Prop :=
| evaluateds_nil st : evaluateds st [] st
| evaluateds_cons st e es st1 st2 : evaluated st e st1 -> evaluateds st1 es st2 ->
    evaluateds st (e :: es) st2.

Inductive eval (arena : bool) (st : State) (e : Expr) : Value -> State -> Prop :=
| eval_as v st' : evaluated st e st' -> value_of arena st e v -> eval arena st e v st'.

Inductive evals (arena : bool) : State -> list Expr -> list Value -> State -> Prop :=
| evals_nil st : evals arena st [] [] st
| evals_cons st e es v vs st1 st2 : eval arena st e v st1 -> evals arena st1 es vs st2 ->
    evals arena st (e :: es) (v :: vs) st2.
End Flow.

(** ** Slots *)
Definition with_env (m : gmap string Slot) (st : State) : State :=
  mkState m (next st) (freed st) (outside st) (mine st) (temps st).
Definition put_outside (ns : gset nat) (st : State) : State :=
  mkState (env st) (next st) (freed st) (ns ∪ outside st) (mine st) (temps st).
Definition with_temps (ts : list Kept) (st : State) : State :=
  mkState (env st) (next st) (freed st) (outside st) (mine st) ts.

(** The scopes deeper than [d] end; a loop's header lives on through its iterations. *)
Definition ends_iteration (d : Z) (s : Slot) : bool :=
  let b := pl_block (s_place s) in
  (d + 1 <? b) || ((b =? d + 1) && negb (pl_header (s_place s))).
Definition ends_scope (d : Z) (s : Slot) : bool := d <? pl_block (s_place s).

Definition close (ends : Slot -> bool) (st : State) : State :=
  with_env ((fun s => if ends s then mkSlot (s_value s) (s_place s) false else s) <$> env st) st.

Definition kill_iteration (d : Z) : State -> State := close (ends_iteration d).
Definition kill (d : Z) : State -> State := close (ends_scope d).

Definition target_arena (st : State) (t : Expr) : bool :=
  match t with
  | Identifier x => match env st !! x with
                    | Some s => s_live s && (0 <? pl_arena (s_place s))
                    | None => false
                    end
  | _ => false
  end.

(** ** Executions *)
Definition in_arena_block (p : Place) : bool := 0 <? pl_arena p.
Definition place_of (t : Expr) : Expr := match t with Identifier _ => ENull | _ => t end.
Definition grows (t e : Expr) : bool :=
  match t with Identifier x => is_self_append x e | _ => false end.
Definition added (e : Expr) : list Expr :=
  match e with CallExpr _ _ (_ :: es) _ => es | _ => [] end.
Definition grow (old v : Value) : Value := mkValue (prim old) (contents old ∪ objects v).

(** The names a statement declares, each with its expression. *)
Definition named_targets (bs : list (Expr * Expr)) : list (string * Expr) :=
  omap (fun b => match fst b with Identifier n => Some (n, snd b) | _ => None end) bs.

Definition declarations (s : Stmt) : option (list (string * Expr)) :=
  match s with
  | VarDecl ns vs | ConstDecl ns vs => Some (seed_values ns vs)
  | MultiAssign ts vs true => Some (named_targets (seed_values ts vs))
  | _ => None
  end.

(** Is there a value for each name?  Otherwise one call gives all of them. *)
Definition paired (s : Stmt) : bool :=
  match s with
  | VarDecl ns vs | ConstDecl ns vs => (length vs =? length ns)%nat
  | MultiAssign ts vs _ => (length vs =? length ts)%nat
  | _ => false
  end.

(** The expressions an expression statement and any other statement start by evaluating; a store
    to a name does not read it. *)
Definition expr_heads (e : Expr) : list Expr :=
  match e with BinaryExpr TOKEN_ASSIGN l r => [r; place_of l] | _ => [e] end.

Definition heads (s : Stmt) : list Expr :=
  match s with
  | GoStmt e | DeferStmt e | IfStmt e _ _ | IfLetStmt _ e _ _ | ForRangeStmt _ _ e _
  | TypeSwitch e _ _ => [e]
  | ReturnStmt vs | VarDecl _ vs | ConstDecl _ vs => vs
  | MultiAssign ts vs b => vs ++ (if b then [] else map place_of ts)
  | SwitchStmt t cs => t :: concat (map fst cs)
  | _ => []
  end.

Definition outcome_of (f : option Fault) : Outcome :=
  match f with Some w => Crashed w | None => Done end.

Section Semantics.
  Context (sites : list string) (fresh_call shadowed : string -> bool).
  Abbreviation eval := (eval fresh_call shadowed).
  Abbreviation evals := (evals fresh_call shadowed).
  Abbreviation holds_only := (holds_only fresh_call shadowed).

Definition bind (x : string) (p : Place) (v : Value) (st : State) : State :=
  mkState (<[x := mkSlot v p true]> (env st)) (next st) (freed st) (outside st)
    (if bool_decide (x ∈ sites) then prim_objects (prim v) ∪ mine st else mine st) (temps st).

Definition declare (p : Place) (x : string) (v : Value) (st : State) : State :=
  if (x =? "_")%string then st else bind x p v st.

Definition declare_opt (p : Place) (x : option string) (v : Value) (st : State) : State :=
  match x with Some x => declare p x v st | None => st end.

Fixpoint declare_all (p : Place) (xs : list string) (vs : list Value) (st : State) : State :=
  match xs, vs with
  | x :: xs, v :: vs => declare_all p xs vs (declare p x v st)
  | _, _ => st
  end.

Definition release_slot (x : string) (s : Slot) (st : State) : State * option Fault :=
  match prim (s_value s) with
  | Obj n =>
      if bool_decide (n ∈ freed st) then (st, Some DoubleFree)
      else (mkState (<[x := mkSlot no_value (s_place s) (s_live s)]> (env st)) (next st)
              ({[n]} ∪ freed st) (outside st) (mine st) (temps st), None)
  | Foreign => (st, Some BadFree)
  | Nil | Immortal => (st, None)
  end.

Definition and_then (m : State * option Fault) (f : State -> State * option Fault)
    : State * option Fault :=
  match m with (st, None) => f st | (st, Some w) => (st, Some w) end.

(** The approved locals declared deeper than [d]. *)
Fixpoint release_deeper (d : Z) (xs : list string) (st : State) : State * option Fault :=
  match xs with
  | [] => (st, None)
  | x :: xs =>
      and_then
        (match env st !! x with
         | Some s => if d <? pl_block (s_place s) then release_slot x s st else (st, None)
         | None => (st, None)
         end) (release_deeper d xs)
  end.

Definition store (t : Expr) (grow_it : bool) (v : Value) (st : State) : State * option Fault :=
  match t with
  | ENull => (st, None)
  | Identifier x =>
      if (x =? "_")%string then (st, None) else
      match env st !! x with
      | Some s =>
          if negb (s_live s) then (put_outside (objects v) st, None)
          else if grow_it then (bind x (s_place s) (grow (s_value s) v) st, None)
          else and_then (if bool_decide (x ∈ sites) then release_slot x s st else (st, None))
                 (fun st => (bind x (s_place s) v st, None))
      | None => (put_outside (objects v) st, None)
      end
  | _ => (put_outside (objects v) st, None)
  end.

Fixpoint store_all (bs : list (Expr * Expr)) (vs : list Value) (st : State) : State * option Fault :=
  match bs, vs with
  | (t, e) :: bs, v :: vs => and_then (store t (grows t e) v st) (store_all bs vs)
  | _, _ => (st, None)
  end.

(** The values of an assignment, all computed before the first store. *)
Inductive assign_evals : State -> list (Expr * Expr) -> list Value -> State -> Prop :=
| ae_nil st : assign_evals st [] [] st
| ae_cons st t e bs v vs st1 st2 st3 :
    evaluated st e st1 -> evaluated st1 (place_of t) st2 ->
    (if grows t e then holds_only st (added e) (objects v)
     else value_of fresh_call shadowed (target_arena st t) st e v) ->
    assign_evals st2 bs vs st3 -> assign_evals st ((t, e) :: bs) (v :: vs) st3.

Definition end_iteration (d : Z) (o : Outcome) (st : State) : State * Outcome :=
  match o with
  | Done =>
      match release_deeper d sites st with
      | (st, None) => (kill_iteration d st, Done)
      | (st, Some w) => (st, Crashed w)
      end
  | Continued => (kill_iteration d st, Done)
  | Broke => (kill d st, Broke)
  | _ => (st, o)
  end.

Definition end_scope (d : Z) (o : Outcome) (st : State) : State * Outcome :=
  match o with
  | Done | Broke => (kill d st, Done)
  | Continued => (kill d st, Continued)
  | _ => (st, o)
  end.

Definition loop_outcome (o : Outcome) : Outcome := match o with Broke => Done | _ => o end.

(** An expression as a statement. *)
Inductive exec_expr (st : State) : Expr -> State -> Outcome -> Prop :=
| xe_crash e e' : e' ∈ expr_heads e -> dangling st e' -> exec_expr st e st (Crashed UseAfterFree)
| xe_value e st' : (forall op l r, e = BinaryExpr op l r -> is_assign_op op = false) ->
    evaluated st e st' -> exec_expr st e st' Done
| xe_compound op l r v st1 st2 f : is_assign_op op = true -> op <> TOKEN_ASSIGN ->
    evaluated st (BinaryExpr op l r) st1 -> own_prim st false (prim v) -> contents v = ∅ ->
    store l false v st1 = (st2, f) -> exec_expr st (BinaryExpr op l r) st2 (outcome_of f)
| xe_assign l r vs st1 st2 f : assign_evals st [(l, r)] vs st1 ->
    store_all [(l, r)] vs st1 = (st2, f) -> exec_expr st (BinaryExpr TOKEN_ASSIGN l r) st2 (outcome_of f).

(** What a case of select receives. *)
Definition received (p : Place) (h : SelectHead) (v : Value) (st : State) : State * option Fault :=
  match sc_bind_name h with
  | Some x =>
      if sc_is_declare h =? 1 then (declare p x v st, None)
      else if sc_is_declare h =? 0 then store (Identifier x) false v st
      else (st, None)
  | None => (st, None)
  end.

Inductive exec : Place -> State -> list Stmt -> State -> Outcome -> Prop :=
| ex_end p st : exec p st [] st Done
| ex_panic p st ss : exec p st ss st Panicked
| ex_next p st s ss st1 st2 o : exec1 p st s st1 Done -> exec p st1 ss st2 o ->
    exec p st (s :: ss) st2 o
| ex_stop p st s ss st1 o : exec1 p st s st1 o -> o <> Done -> exec p st (s :: ss) st1 o
with exec1 : Place -> State -> Stmt -> State -> Outcome -> Prop :=
| x1_crash p st s e : e ∈ heads s -> dangling st e -> exec1 p st s st (Crashed UseAfterFree)
| x1_block p st s ss st' o : s = BlockStmt ss \/ s = UnsafeStmt ss -> exec p st ss st' o ->
    exec1 p st s st' o
| x1_arena p st ss st' o : exec (in_arena p) st ss st' o -> exec1 p st (ArenaBlock ss) st' o
| x1_expr p st e st' o : exec_expr st e st' o -> exec1 p st (ExprStmt e) st' o
| x1_assign p st ts vs us st1 st2 f : assign_evals st (seed_values ts vs) us st1 ->
    store_all (seed_values ts vs) us st1 = (st2, f) ->
    exec1 p st (MultiAssign ts vs false) st2 (outcome_of f)
| x1_declare p st s ds vs st1 : declarations s = Some ds -> paired s = true ->
    evals (in_arena_block p) st (map snd ds) vs st1 ->
    exec1 p st s (declare_all p (map fst ds) vs st1) Done
| x1_declare_all p st s ds vs st1 : declarations s = Some ds -> paired s = false ->
    evaluateds st (heads s) st1 ->
    Forall2 (value_of fresh_call shadowed (in_arena_block p) st) (map snd ds) vs ->
    exec1 p st s (declare_all p (map fst ds) vs st1) Done
| x1_if p st c th el ss st1 st2 o : evaluated st c st1 -> ss = th \/ ss = el ->
    exec p st1 ss st2 o -> exec1 p st (IfStmt c th el) st2 o
| x1_iflet p st x e th el v st1 st2 o : eval (in_arena_block p) st e v st1 ->
    exec p (declare_opt p x v st1) th st2 o -> exec1 p st (IfLetStmt x e th el) st2 o
| x1_iflet_else p st x e th el st1 st2 o : evaluated st e st1 -> exec p st1 el st2 o ->
    exec1 p st (IfLetStmt x e th el) st2 o
| x1_range p st k w e body v st1 st2 o : eval (in_arena_block p) st e v st1 ->
    range_loop p k w body (objects v) (with_temps (mkKept (pl_block p) w (objects v) :: temps st1) st1) st2 o ->
    exec1 p st (ForRangeStmt k w e body)
      (match o with Done => with_temps (temps st1) st2 | _ => st2 end) o
| x1_for p st init c post body st1 st2 o : exec (in_header (deeper p)) st init st1 Done ->
    for_loop p c post body st1 st2 o -> exec1 p st (ForStmt init c post body) st2 o
| x1_for_init p st init c post body st1 o : exec (in_header (deeper p)) st init st1 o -> o <> Done ->
    exec1 p st (ForStmt init c post body) st1 o
| x1_return p st vs us st1 : evals false st vs us st1 ->
    exec1 p st (ReturnStmt vs) (put_outside (⋃ (objects <$> us)) st1) Returned
| x1_go p st s e st1 : s = GoStmt e \/ s = DeferStmt e -> evaluated st e st1 ->
    (forall x v n, reads x e = true -> live_value st x = Some v -> n ∈ objects v -> n ∈ outside st1) ->
    exec1 p st s st1 Done
| x1_jump p st s j st' f : (s = BreakStmt /\ j = Broke) \/ (s = ContinueStmt /\ j = Continued) ->
    0 < pl_block p -> release_deeper (pl_block p - 1) sites st = (st', f) ->
    exec1 p st s st' (match f with Some w => Crashed w | None => j end)
| x1_switch p st tag cases es body st1 st2 o st3 o3 :
    evaluateds st (tag :: concat (map fst cases)) st1 -> (es, body) ∈ cases ->
    exec (deeper p) st1 body st2 o -> end_scope (pl_block p) o st2 = (st3, o3) ->
    exec1 p st (SwitchStmt tag cases) st3 o3
| x1_switch_none p st tag cases st1 : evaluateds st (tag :: concat (map fst cases)) st1 ->
    exec1 p st (SwitchStmt tag cases) st1 Done
| x1_type_switch p st e x cases v body st1 st2 o st3 o3 : eval (in_arena_block p) st e v st1 ->
    body ∈ cases -> exec (deeper p) (declare_opt (deeper p) x v st1) body st2 o ->
    end_scope (pl_block p) o st2 = (st3, o3) -> exec1 p st (TypeSwitch e x cases) st3 o3
| x1_type_switch_none p st e x cases st1 : evaluated st e st1 ->
    exec1 p st (TypeSwitch e x cases) st1 Done
| x1_select p st cases h body st1 v st2 st3 o st4 o4 : (h, body) ∈ cases ->
    exec_expr st (sc_comm h) st1 Done ->
    objects v ⊆ outside st1 -> received (deeper p) h v st1 = (st2, None) ->
    exec (deeper p) st2 body st3 o -> end_scope (pl_block p) o st3 = (st4, o4) ->
    exec1 p st (SelectStmt cases) st4 o4
| x1_select_fault p st cases h body st1 v st2 w : (h, body) ∈ cases ->
    exec_expr st (sc_comm h) st1 Done ->
    objects v ⊆ outside st1 -> received (deeper p) h v st1 = (st2, Some w) ->
    exec1 p st (SelectStmt cases) st2 (Crashed w)
| x1_select_stop p st cases h body st1 o : (h, body) ∈ cases ->
    exec_expr st (sc_comm h) st1 o -> o <> Done -> exec1 p st (SelectStmt cases) st1 o
with for_loop : Place -> Expr -> list Stmt -> list Stmt -> State -> State -> Outcome -> Prop :=
| fl_crash p c post body st : dangling st c -> for_loop p c post body st st (Crashed UseAfterFree)
| fl_end p c post body st st1 : evaluated st c st1 ->
    for_loop p c post body st (kill (pl_block p) st1) Done
| fl_next p c post body st st1 st2 o st3 st4 st5 o5 : evaluated st c st1 ->
    exec (deeper p) st1 body st2 o -> end_iteration (pl_block p) o st2 = (st3, Done) ->
    exec (in_header (deeper p)) st3 post st4 Done -> for_loop p c post body st4 st5 o5 ->
    for_loop p c post body st st5 o5
| fl_stop p c post body st st1 st2 o st3 o3 : evaluated st c st1 ->
    exec (deeper p) st1 body st2 o -> end_iteration (pl_block p) o st2 = (st3, o3) -> o3 <> Done ->
    for_loop p c post body st st3 (loop_outcome o3)
| fl_post p c post body st st1 st2 o st3 st4 o4 : evaluated st c st1 ->
    exec (deeper p) st1 body st2 o -> end_iteration (pl_block p) o st2 = (st3, Done) ->
    exec (in_header (deeper p)) st3 post st4 o4 -> o4 <> Done -> for_loop p c post body st st4 o4
with range_loop : Place -> option string -> option string -> list Stmt -> gset nat ->
    State -> State -> Outcome -> Prop :=
| rl_crash p k w body ns st n : n ∈ ns -> n ∈ freed st ->
    range_loop p k w body ns st st (Crashed UseAfterFree)
| rl_end p k w body ns st : range_loop p k w body ns st (kill (pl_block p) st) Done
| rl_next p k w body ns st v st1 o st2 st3 o3 : objects v ⊆ ns ->
    (forall n, n ∈ ns -> n ∉ freed st) ->
    exec (deeper p) (declare_opt (in_header (deeper p)) w v
                       (declare_opt (in_header (deeper p)) k no_value st)) body st1 o ->
    end_iteration (pl_block p) o st1 = (st2, Done) -> range_loop p k w body ns st2 st3 o3 ->
    range_loop p k w body ns st st3 o3
| rl_stop p k w body ns st v st1 o st2 o2 : objects v ⊆ ns ->
    (forall n, n ∈ ns -> n ∉ freed st) ->
    exec (deeper p) (declare_opt (in_header (deeper p)) w v
                       (declare_opt (in_header (deeper p)) k no_value st)) body st1 o ->
    end_iteration (pl_block p) o st1 = (st2, o2) -> o2 <> Done ->
    range_loop p k w body ns st st2 (loop_outcome o2).

(** A call of the function: the body, then the releases at its end. *)
Inductive run (body : list Stmt) : State -> Outcome -> Prop :=
| run_end st o st' f : exec function_scope start body st o -> o = Done \/ o = Returned ->
    release_deeper (-1) sites st = (st', f) -> run body st' (outcome_of f)
| run_stopped st o : exec function_scope start body st o -> o <> Done -> o <> Returned -> run body st o.
End Semantics.

Scheme exec_mut := Minimality for exec Sort Prop
  with exec1_mut := Minimality for exec1 Sort Prop
  with for_loop_mut := Minimality for for_loop Sort Prop
  with range_loop_mut := Minimality for range_loop Sort Prop.
Combined Scheme release_runs_ind from exec_mut, exec1_mut, for_loop_mut, range_loop_mut.

(** No object of an approved local has been put outside. *)
Definition confined (st : State) : Prop := outside st ## mine st.
