(* ===== verification/ReleaseFacts.v ===== *)
(** * ReleaseFacts: what the walk of the release decisions collects.

    [extends]: a later state of the walk knows everything an earlier one knew.  [grown] bounds
    what a part of a body adds, [mark_mentions_marks] is what a scan of a value marks, and
    [approved] spells out what the verdict RELEASE_OK says of a local's record. *)
From Stdlib Require Import ZArith Lia Ascii String Bool.
From stdpp Require Import base list numbers option strings gmap.
From S2P Require Import Prelude Token Escape EscapePasses EscapeFacts Release ReleaseSem.
Local Open Scope Z_scope.

(** ** Records that grow *)
Record rec_le (r r' : LocalRecord) : Prop := {
  le_name : lr_name r' = lr_name r;
  le_declared : lr_declared r = true -> lr_declared r' = true /\ block_depth r' = block_depth r /\
    arena_depth r' = arena_depth r /\ loop_header r' = loop_header r /\ bound_value r' = bound_value r;
  le_count : (binding_count r <= binding_count r')%nat;
  le_escapes : block_escapes r = true -> block_escapes r' = true;
  le_unsafe : has_unsafe_value r = true -> has_unsafe_value r' = true;
  le_values : forall v, v ∈ lr_values r -> v ∈ lr_values r'
}.

#[global] Instance rec_le_preorder : PreOrder rec_le.
Proof.
  split.
  - intros r. split; auto.
  - intros r1 r2 r3 [N1 D1 C1 E1 U1 V1] [N2 D2 C2 E2 U2 V2]. split; auto; [congruence| |lia].
    intros H. destruct (D1 H) as (H2&?&?&?&?). destruct (D2 H2) as (?&?&?&?&?).
    repeat split; congruence.
Qed.

Record extends (c c' : Collected) : Prop := {
  ex_unreadable : unreadable c = true -> unreadable c' = true;
  ex_loops : loop_locals_unreadable c = true -> loop_locals_unreadable c' = true;
  ex_records : forall x r, find_record c x = Some r ->
    exists r', find_record c' x = Some r' /\ rec_le r r'
}.

#[global] Instance extends_preorder : PreOrder extends.
Proof.
  split.
  - intros c. split; eauto. intros x r H. exists r. by split.
  - intros c1 c2 c3 [U1 L1 R1] [U2 L2 R2]. split; auto. intros x r H.
    destruct (R1 _ _ H) as (r2&H2&?). destruct (R2 _ _ H2) as (r3&H3&?). exists r3. split; [done|].
    by transitivity r2.
Qed.

Lemma collected_same c c' : items c' = items c -> unreadable c' = unreadable c ->
  loop_locals_unreadable c' = loop_locals_unreadable c -> extends c c'.
Proof.
  intros Hi Hu Hl. split; [congruence|congruence|]. intros x r. unfold find_record. rewrite Hi.
  intros H. by exists r.
Qed.

(** *** Finding *)
Lemma find_in_name rs x r : find_in rs x = Some r -> lr_name r = x.
Proof.
  induction rs as [|r' rs IH]; simpl; [done|]. destruct (lr_name r' =? x)%string eqn:E; [|done].
  intros [= ->]. by apply String.eqb_eq.
Qed.

Lemma find_record_in c x r : find_record c x = Some r -> r ∈ items c /\ lr_name r = x.
Proof.
  unfold find_record. intros H. split; [|by eapply find_in_name].
  induction (items c) as [|r' rs IH]; simpl in *; [done|]. destruct (lr_name r' =? x)%string; [|set_solver].
  injection H as <-. set_solver.
Qed.

Lemma find_update f x y c : (forall r, lr_name (f r) = lr_name r) ->
  find_record (update_record f x c) y = if (x =? y)%string then f <$> find_record c y else find_record c y.
Proof.
  intros Hf. unfold find_record, update_record. simpl. induction (items c) as [|r rs IH]; simpl.
  - by destruct (x =? y)%string.
  - destruct (lr_name r =? x)%string eqn:Ex; simpl.
    + apply String.eqb_eq in Ex as <-. rewrite Hf. by destruct (lr_name r =? y)%string eqn:Ey.
    + rewrite IH. destruct (x =? y)%string eqn:Exy; [|done]. apply String.eqb_eq in Exy as <-. by rewrite Ex.
Qed.

Lemma find_in_app rs r x : find_in (rs ++ [r]) x =
  match find_in rs x with Some r' => Some r' | None => if (lr_name r =? x)%string then Some r else None end.
Proof. induction rs as [|r' rs IH]; simpl; [done|]. by destruct (lr_name r' =? x)%string. Qed.

Lemma find_same c c' x : items c = items c' -> find_record c x = find_record c' x.
Proof. unfold find_record. by intros ->. Qed.

Lemma find_intern x y c : find_record (intern_record x c) y =
  match find_record c y with
  | Some r => Some r
  | None => if (x =? y)%string then Some (new_record x) else None
  end.
Proof.
  unfold intern_record. destruct (find_record c x) eqn:E.
  - destruct (find_record c y) eqn:Ey; [done|]. destruct (String.eqb_spec x y) as [->|]; [congruence|done].
  - unfold find_record. simpl. apply find_in_app.
Qed.

Lemma update_extends f x c : (forall r, lr_name (f r) = lr_name r) ->
  (forall r, find_record c x = Some r -> rec_le r (f r)) -> extends c (update_record f x c).
Proof.
  intros Hn Hf. split; [done..|]. intros y r H. rewrite find_update by done.
  destruct (String.eqb_spec x y) as [->|]; [|by exists r]. rewrite H. exists (f r). split; [done|]. by apply Hf.
Qed.

Lemma intern_extends x c : extends c (intern_record x c).
Proof.
  split; try (unfold intern_record; by destruct (find_record c x)).
  intros y r H. exists r. by rewrite find_intern, H.
Qed.

(** ** What a step of the walk may add
    Declared names have been counted. *)
Definition counted (c : Collected) : Prop := forall x r, find_record c x = Some r ->
  lr_declared r = true -> (1 <= binding_count r)%nat.

Definition declares (c : Collected) (x : string) : Prop :=
  exists r, find_record c x = Some r /\ lr_declared r = true.

Definition placed (p : Place) (r : LocalRecord) : Prop :=
  pl_block p <= block_depth r /\
  (loop_header r = true -> pl_block p < block_depth r \/ pl_header p = true).

Definition grown (p : Place) (names : list string) (c c' : Collected) : Prop :=
  extends c c' /\ (counted c -> counted c') /\
  forall y r', find_record c' y = Some r' -> lr_declared r' = true ->
    declares c y \/ (y ∈ names /\ placed p r').

Lemma grown_refl p c : grown p [] c c.
Proof. split; [done|]. split; [done|]. intros y r' H Hd. left. by exists r'. Qed.

Lemma grown_trans p n1 n2 c1 c2 c3 : grown p n1 c1 c2 -> grown p n2 c2 c3 -> grown p (n1 ++ n2) c1 c3.
Proof.
  intros (E1&C1&N1) (E2&C2&N2). split; [by transitivity c2|]. split; [auto|]. intros y r3 H3 Hd.
  destruct (N2 y r3 H3 Hd) as [(r2&H2&Hd2)|[Hin Hp]]; [|right; split; [set_solver|done]].
  destruct (N1 y r2 H2 Hd2) as [?|[Hin [Hb Hh]]]; [by left|]. right. split; [set_solver|].
  destruct (ex_records _ _ E2 _ _ H2) as (r&Hr&Hle). rewrite H3 in Hr. injection Hr as <-.
  destruct (le_declared _ _ Hle Hd2) as (_&Hbe&_&He&_). unfold placed. by rewrite Hbe, He.
Qed.

Lemma grown_weaken p q names names' c c' : (forall r, placed p r -> placed q r) ->
  (forall x, x ∈ names -> x ∈ names') -> grown p names c c' -> grown q names' c c'.
Proof.
  intros Hp Hn (E&C&N). split; [done|]. split; [done|]. intros y r' H Hd.
  destruct (N y r' H Hd) as [?|[? ?]]; [by left|right; auto].
Qed.

Lemma grown_same p c c' : items c' = items c -> unreadable c' = unreadable c ->
  loop_locals_unreadable c' = loop_locals_unreadable c -> grown p [] c c'.
Proof.
  intros Hi Hu Hl. assert (forall x, find_record c' x = find_record c x) as Hf
    by (intros x; unfold find_record; by rewrite Hi).
  split; [by apply collected_same|]. split; [|intros y r'; rewrite Hf; intros; left; by exists r'].
  intros Hc x r. rewrite Hf. apply Hc.
Qed.

(** A change of one record that declares nothing. *)
Lemma grown_update p f x c : (forall r, lr_name (f r) = lr_name r) -> (forall r, rec_le r (f r)) ->
  (forall r, lr_declared (f r) = lr_declared r) -> grown p [] c (update_record f x c).
Proof.
  intros Hn Hle Hd. split; [by apply update_extends|].
  assert (forall y r', find_record (update_record f x c) y = Some r' -> exists r, find_record c y = Some r /\
    lr_declared r = lr_declared r' /\ (binding_count r <= binding_count r')%nat) as Hback.
  { intros y r'. rewrite find_update by done. destruct (x =? y)%string; [|by exists r'].
    destruct (find_record c y) as [r|]; [|done]. intros [= <-]. exists r. split; [done|]. split; [by rewrite Hd|].
    apply (le_count _ _ (Hle r)). }
  split.
  - intros Hc y r' H Hd'. destruct (Hback y r' H) as (r&Hr&Hdr&Hcnt). specialize (Hc y r Hr).
    rewrite Hdr in Hc. specialize (Hc Hd'). lia.
  - intros y r' H Hd'. destruct (Hback y r' H) as (r&Hr&Hdr&_). left. exists r. by rewrite Hdr.
Qed.

Lemma grown_intern p x c : grown p [] c (intern_record x c).
Proof.
  split; [apply intern_extends|]. split.
  - intros Hc y r. rewrite find_intern. destruct (find_record c y) eqn:E.
    + intros [= <-]. by apply (Hc y).
    + destruct (x =? y)%string; [|done]. by intros [= <-].
  - intros y r. rewrite find_intern. destruct (find_record c y) as [r0|] eqn:E.
    + intros [= <-] Hd. left. by exists r0.
    + destruct (x =? y)%string; [|done]. by intros [= <-].
Qed.

(** Like transitivity, for steps that add no names before the last. *)
Lemma grown_then p names c1 c2 c3 : grown p [] c1 c2 -> grown p names c2 c3 -> grown p names c1 c3.
Proof. apply (grown_trans p []). Qed.

Lemma grown_scan_list p scan es c : (forall e c, grown p [] c (scan e c)) -> grown p [] c (scan_list scan es c).
Proof.
  intros Hs. revert c. induction es as [|e es IH]; intros c; simpl; [apply grown_refl|].
  eapply grown_then; [apply Hs|apply IH].
Qed.

Ltac le_record := split; simpl; auto; try (intros; set_solver).
Lemma mark_le d r : rec_le r (mark_if_deeper d r).
Proof. unfold mark_if_deeper. destruct (d <? block_depth r); le_record. Qed.
Lemma record_value_le v r : rec_le r (record_value v r).
Proof. le_record. Qed.
Lemma count_binding_le r : rec_le r (count_binding r).
Proof. le_record. Qed.
Lemma mark_unsafe_le r : rec_le r (mark_unsafe r).
Proof. le_record. Qed.
Lemma mark_name d r : lr_name (mark_if_deeper d r) = lr_name r.
Proof. unfold mark_if_deeper. by destruct (d <? block_depth r). Qed.
Lemma mark_declared d r : lr_declared (mark_if_deeper d r) = lr_declared r.
Proof. unfold mark_if_deeper. by destruct (d <? block_depth r). Qed.

#[local] Hint Resolve mark_le record_value_le count_binding_le mark_unsafe_le mark_name mark_declared
  grown_refl grown_intern : core.

Lemma grown_loops p c : grown p [] c (set_loop_locals_unreadable c).
Proof.
  split; [|split; [done|intros y r' H Hd; left; by exists r']]. split; [done..|]. intros x r H. exists r. by split.
Qed.

Lemma grown_unreadable p c : grown p [] c (set_unreadable c).
Proof.
  split; [|split; [done|intros y r' H Hd; left; by exists r']]. split; [done..|]. intros x r H. exists r. by split.
Qed.

(** ** Scans *)
Lemma grown_scans p scan es c : Forall (fun e => forall c, grown p [] c (scan e c)) es ->
  grown p [] c (scan_list scan es c).
Proof.
  intros Hs. revert c. induction Hs as [|e es He _ IH]; intros c; simpl; [apply grown_refl|].
  eapply grown_then; [apply He|apply IH].
Qed.

Lemma mark_mentions_grown p d e c : grown p [] c (mark_mentions d e c).
Proof.
  revert c. induction e using Expr_ind; intros c0; simpl; auto; try apply grown_loops.
  - by apply grown_update.
  - eapply grown_then; [apply IHe1|apply IHe2].
  - eapply grown_then; [apply IHe1|apply IHe2].
  - eapply grown_then; [eapply grown_then; [apply IHe1|apply IHe2]|apply IHe3].
  - eapply grown_then; [apply IHe|]. by apply grown_scans.
  - by apply grown_scans.
  - by apply grown_scans.
  - by apply grown_scans.
  - eapply grown_then; by apply grown_scans.
Qed.

Lemma note_elems_grown p x es c : grown p [] c (scan_list (note_elem_site x) es c).
Proof.
  apply grown_scan_list. intros e c'. unfold note_elem_site.
  destruct (not_null e); [by apply grown_same|apply grown_refl].
Qed.

Lemma note_literal_elems_grown p x e c : grown p [] c (note_literal_elems x e c).
Proof. destruct e; simpl; auto using note_elems_grown. Qed.

Lemma note_append_elems_grown p x e c : grown p [] c (note_append_elems x e c).
Proof. destruct e as [| | | | | | | | |? ? [|? ?]| | | | | | | | |]; simpl; auto using note_elems_grown. Qed.

Lemma note_concat_grown p e c : grown p [] c (note_concat_operands e c).
Proof.
  revert c. induction e using Expr_ind; intros c0; simpl; auto.
  - eapply grown_then; [|eapply grown_then; [apply IHe1|apply IHe2]].
    destruct (token_eqb op TOKEN_PLUS); [by apply grown_same|done].
  - eapply grown_then; [apply IHe1|apply IHe2].
  - eapply grown_then; [eapply grown_then; [apply IHe1|apply IHe2]|apply IHe3].
  - eapply grown_then; [apply IHe|]. by apply grown_scans.
  - by apply grown_scans.
  - by apply grown_scans.
  - by apply grown_scans.
  - eapply grown_then; by apply grown_scans.
Qed.

Lemma note_concats_grown p es c : grown p [] c (note_concat_operand_list es c).
Proof. apply grown_scan_list. intros. apply note_concat_grown. Qed.

Lemma note_key_site_grown p e c : grown p [] c (note_key_site e c).
Proof.
  revert c. induction e using Expr_ind; intros c0; simpl; auto. eapply grown_then; [|apply IHe1]. by apply grown_same.
Qed.

(** *** Marks *)
Definition marked (c : Collected) (x : string) : Prop :=
  loop_locals_unreadable c = true \/ exists r, find_record c x = Some r /\ block_escapes r = true.

Lemma marked_extends c c' x : extends c c' -> marked c x -> marked c' x.
Proof.
  intros He [H|(r&Hr&Hb)]; [left; by apply (ex_loops _ _ He)|right].
  destruct (ex_records _ _ He _ _ Hr) as (r'&Hr'&Hle). exists r'. split; [done|]. by apply (le_escapes _ _ Hle).
Qed.

(** The local is declared, deeper than [d]. *)
Definition below (c : Collected) (d : Z) (x : string) : Prop :=
  exists r, find_record c x = Some r /\ lr_declared r = true /\ d < block_depth r.

Lemma below_extends c c' d x : extends c c' -> below c d x -> below c' d x.
Proof.
  intros He (r&Hr&Hd&Hb). destruct (ex_records _ _ He _ _ Hr) as (r'&Hr'&Hle). exists r'.
  destruct (le_declared _ _ Hle Hd) as (?&->&_). done.
Qed.

Section Marks.
  Context (fresh_call shadowed : string -> bool) (d : Z) (x : string).
  Abbreviation holds := (may_hold fresh_call shadowed x).
  Abbreviation mark := (mark_mentions d).

Definition marks (e : Expr) : Prop := forall c, holds e = true -> below c d x -> marked (mark e c) x.

Lemma mark_extends e c : extends c (mark e c).
Proof using. apply (mark_mentions_grown function_scope). Qed.

Lemma marks_list_extends es c : extends c (scan_list mark es c).
Proof using. apply (grown_scan_list function_scope). intros. apply mark_mentions_grown. Qed.

Lemma marks_list es c : Forall marks es -> any_of holds es = true -> below c d x ->
  marked (scan_list mark es c) x.
Proof using.
  intros He. revert c. induction He as [|e es He _ IH]; intros c Ha Hb; simpl in *; [done|].
  apply orb_true_iff in Ha as [Ha|Ha].
  - eapply marked_extends; [apply marks_list_extends|]. by apply He.
  - apply IH; [done|]. eapply below_extends; [apply mark_extends|done].
Qed.

Lemma mark_mentions_marks e : marks e.
Proof using.
  induction e using Expr_ind; intros c0 Hh Hb; simpl in *; try discriminate; try (by left); auto.
  - apply String.eqb_eq in Hh as ->. right. destruct Hb as (r&Hr&_&Hlt). exists (mark_block_escape r).
    rewrite find_update, String.eqb_refl, Hr by (intros; apply mark_name). simpl. unfold mark_if_deeper.
    by rewrite (proj2 (Z.ltb_lt _ _) Hlt).
  - eapply marked_extends; [apply mark_extends|]. by apply IHe1.
  - do 2 (eapply marked_extends; [apply mark_extends|]). by apply IHe1.
  - apply andb_true_iff in Hh as [_ Hh]. apply orb_true_iff in Hh as [Hh|Hh].
    + eapply marked_extends; [apply marks_list_extends|]. by apply IHe.
    + apply marks_list; [done|done|]. eapply below_extends; [apply mark_extends|done].
  - by apply marks_list.
  - by apply marks_list.
  - by apply marks_list.
  - apply orb_true_iff in Hh as [Hh|Hh].
    + eapply marked_extends; [apply marks_list_extends|]. by apply marks_list.
    + apply marks_list; [done|done|]. eapply below_extends; [apply marks_list_extends|done].
Qed.

Lemma any_of_existsb f es : any_of f es = existsb f es.
Proof using. induction es as [|e es IH]; simpl; [done|by rewrite IH]. Qed.

(** The arguments of any call are marked. *)
Lemma mark_call_args id fn args sp c : existsb holds args = true -> below c d x ->
  marked (mark (CallExpr id fn args sp) c) x.
Proof using.
  intros Ha Hb. simpl. apply marks_list; [apply Forall_true, mark_mentions_marks|by rewrite any_of_existsb|].
  eapply below_extends; [apply mark_extends|done].
Qed.

(** What a binding takes its value from: the added elements of a self-append, else the value. *)
Lemma sources_marked t e c : existsb holds (if grows t e then added e else [e]) = true -> below c d x ->
  marked (mark e c) x.
Proof using.
  destruct (grows t e) eqn:Eg.
  - destruct t; try done. destruct e as [| | | | | | | | |? fn [|a args] ?| | | | | | | | |]; try done.
    intros Ha. apply mark_call_args. simpl in *. rewrite Ha. apply orb_true_r.
  - simpl. rewrite orb_false_r. apply mark_mentions_marks.
Qed.
End Marks.

(** ** Declarations and assignments *)
Definition one_name (x : string) : list string := if (x =? "_")%string then [] else [x].

Lemma find_declared f x c r : (forall r, lr_name (f r) = lr_name r) -> find_record c x = Some r ->
  find_record (update_record f x c) x = Some (f r).
Proof. intros Hf H. by rewrite find_update, String.eqb_refl, H. Qed.

(** The state after the scan of the value. *)
Definition scanned (d : Z) (x : string) (e : Expr) (c : Collected) : Collected :=
  mark_mentions d e (intern_record x c).

Definition declared_record (p : Place) (e : Expr) (r : LocalRecord) : LocalRecord :=
  count_binding (record_value e (if lr_declared r then r else declare_at p e r)).

Lemma scan_list_elems x es c : let c' := scan_list (note_elem_site x) es c in
  items c' = items c /\ unreadable c' = unreadable c /\
  loop_locals_unreadable c' = loop_locals_unreadable c.
Proof.
  revert c. induction es as [|e es IH]; intros c; simpl; [done|].
  destruct (IH (note_elem_site x e c)) as (->&->&->). unfold note_elem_site. by destruct (not_null e).
Qed.

Lemma note_literal_same x e c : let c' := note_literal_elems x e c in
  items c' = items c /\ unreadable c' = unreadable c /\
  loop_locals_unreadable c' = loop_locals_unreadable c.
Proof. destruct e; simpl; auto using scan_list_elems. Qed.

Lemma note_append_same x e c : let c' := note_append_elems x e c in
  items c' = items c /\ unreadable c' = unreadable c /\
  loop_locals_unreadable c' = loop_locals_unreadable c.
Proof. destruct e as [| | | | | | | | |? ? [|? ?]| | | | | | | | |]; simpl; auto using scan_list_elems. Qed.

Lemma find_scanned d x e c : exists r, find_record (scanned d x e c) x = Some r.
Proof.
  destruct (find_record (intern_record x c) x) as [r|] eqn:E.
  - destruct (mark_mentions_grown function_scope d e (intern_record x c)) as [He _].
    destruct (ex_records _ _ He _ _ E) as (r'&Hr'&_). by exists r'.
  - rewrite find_intern, String.eqb_refl in E. by destruct (find_record c x).
Qed.

Lemma find_declaration p x e c r : x <> "_"%string -> find_record (scanned (pl_block p) x e c) x = Some r ->
  let c' := note_declaration p x e c in
  (forall y, find_record c' y =
     if (x =? y)%string then Some (declared_record p e r) else find_record (scanned (pl_block p) x e c) y) /\
  unreadable c' = unreadable (scanned (pl_block p) x e c) /\
  loop_locals_unreadable c' = loop_locals_unreadable (scanned (pl_block p) x e c).
Proof.
  intros Hx Hr. unfold note_declaration. apply String.eqb_neq in Hx. rewrite Hx. fold (scanned (pl_block p) x e c).
  set (c1 := scanned _ _ _ _) in *. unfold declared_already. rewrite Hr. unfold declared_record.
  destruct (lr_declared r).
  - split; [|done]. intros y. rewrite !find_update by done. destruct (String.eqb_spec x y) as [<-|]; [|done].
    by rewrite Hr.
  - destruct (note_literal_same x e (update_record (declare_at p e) x c1)) as (Hi&Hu&Hl).
    split; [|by split; simpl; rewrite ?Hu, ?Hl]. intros y. rewrite !find_update by done. rewrite (find_same _ _ y Hi), find_update by done.
    destruct (String.eqb_spec x y) as [<-|]; [|done]. by rewrite Hr.
Qed.

Lemma declared_record_le p e r : rec_le r (declared_record p e r).
Proof. unfold declared_record. destruct (lr_declared r) eqn:E; split; simpl; auto; try congruence; set_solver. Qed.

Lemma scanned_grown p d x e c : grown p [] c (scanned d x e c).
Proof. eapply grown_then; [apply grown_intern|apply mark_mentions_grown]. Qed.

Lemma note_declaration_grown p x e c : grown p (one_name x) c (note_declaration p x e c).
Proof.
  unfold one_name. destruct (String.eqb_spec x "_") as [->|Hx]; [apply grown_refl|].
  eapply grown_then; [apply (scanned_grown p (pl_block p) x e c)|].
  destruct (find_scanned (pl_block p) x e c) as [r Hr].
  destruct (find_declaration p x e c r Hx Hr) as (Hf&Hu&Hl). set (c1 := scanned _ _ _ _) in *. split; [|split].
  - split; [by rewrite Hu|by rewrite Hl|]. intros y ry Hy. rewrite Hf.
    destruct (String.eqb_spec x y) as [<-|]; [|by exists ry]. rewrite Hr in Hy. injection Hy as <-.
    eexists. split; [done|]. apply declared_record_le.
  - intros Hc y ry. rewrite Hf. destruct (String.eqb_spec x y) as [<-|]; [|apply Hc]. intros [= <-] _. simpl. lia.
  - intros y ry. rewrite Hf. destruct (String.eqb_spec x y) as [<-|]; [|intros H Hd; left; by exists ry].
    intros [= <-] _. destruct (lr_declared r) eqn:Ed; [left; by exists r|]. right. split; [set_solver|].
    unfold declared_record. rewrite Ed. split; simpl; [lia|auto].
Qed.

Lemma note_declaration_extends p x e c : extends c (note_declaration p x e c).
Proof. apply (note_declaration_grown p x e c). Qed.

Lemma note_declaration_marks fresh_call shadowed p x e c z : x <> "_"%string ->
  may_hold fresh_call shadowed z e = true -> below c (pl_block p) z -> marked (note_declaration p x e c) z.
Proof.
  intros Hx Hh Hb. destruct (find_scanned (pl_block p) x e c) as [r Hr].
  destruct (find_declaration p x e c r Hx Hr) as (Hf&_&Hl).
  assert (marked (scanned (pl_block p) x e c) z) as [Hm|(rz&Hz&Hm)].
  { eapply mark_mentions_marks; [done|]. eapply below_extends; [apply intern_extends|done]. }
  - left. by rewrite Hl.
  - right. rewrite Hf. destruct (String.eqb_spec x z) as [<-|]; [|by exists rz]. rewrite Hr in Hz. injection Hz as <-.
    eexists. split; [done|]. by apply (le_escapes _ _ (declared_record_le p e r)).
Qed.

(** The record a declaration leaves. *)
Lemma note_declaration_record p x e c : x <> "_"%string -> exists r,
  find_record (note_declaration p x e c) x = Some r /\ lr_declared r = true /\ e ∈ lr_values r /\
  (~ declares c x -> bound_value r = e /\ block_depth r = pl_block p /\ arena_depth r = pl_arena p /\
     loop_header r = pl_header p).
Proof.
  intros Hx. destruct (find_scanned (pl_block p) x e c) as [r Hr].
  destruct (find_declaration p x e c r Hx Hr) as (Hf&_). rewrite Hf, String.eqb_refl. eexists. split; [done|].
  unfold declared_record. split; [by destruct (lr_declared r) eqn:E|]. split; [destruct (lr_declared r); simpl; set_solver|].
  intros Hn. destruct (lr_declared r) eqn:E; [|done]. exfalso. apply Hn.
  destruct (scanned_grown p (pl_block p) x e c) as (_&_&Hb). destruct (Hb x r Hr E) as [?|[? _]]; [done|set_solver].
Qed.

(** ** Assignments *)
Definition assigned_count (rhs : Expr) (plain : bool) (r : LocalRecord) : LocalRecord :=
  count_binding ((if plain then record_value rhs else mark_unsafe) r).

Lemma assigned_count_le rhs plain r : rec_le r (assigned_count rhs plain r).
Proof. unfold assigned_count. destruct plain; le_record. Qed.

(** The scan comes first, whatever the target is. *)
Definition store_scanned (lhs rhs : Expr) (c : Collected) : Collected :=
  note_key_site lhs (mark_mentions (target_lifetime_depth c lhs) rhs c).

Lemma store_scanned_grown p lhs rhs c : grown p [] c (store_scanned lhs rhs c).
Proof. eapply grown_then; [apply mark_mentions_grown|apply note_key_site_grown]. Qed.

Lemma count_update_grown p rhs (plain : bool) x c : grown p [] c
  (update_record count_binding x (update_record (if plain then record_value rhs else mark_unsafe) x c)).
Proof. eapply grown_then; [|by apply grown_update]. by destruct plain; apply grown_update. Qed.

Lemma after_scan_grown p lhs rhs plain c : lhs <> ENull ->
  grown p [] (store_scanned lhs rhs c) (note_assignment lhs rhs plain c).
Proof.
  intros Hl. unfold note_assignment. fold (store_scanned lhs rhs c).
  destruct lhs; try done; try apply grown_refl. set (c1 := store_scanned _ _ _).
  destruct (name =? "_")%string; [apply grown_refl|]. eapply grown_then; [apply grown_intern|].
  destruct (plain && is_self_append name rhs); [apply note_append_elems_grown|apply count_update_grown].
Qed.

Lemma note_assignment_grown p lhs rhs plain c : grown p [] c (note_assignment lhs rhs plain c).
Proof.
  destruct (not_null lhs) eqn:E; [|destruct lhs; try done; apply grown_refl].
  eapply grown_then; [apply store_scanned_grown|]. apply after_scan_grown. by destruct lhs.
Qed.

Lemma note_assignment_scanned lhs rhs plain c : lhs <> ENull ->
  extends (mark_mentions (target_lifetime_depth c lhs) rhs c) (note_assignment lhs rhs plain c).
Proof.
  intros Hl. etransitivity; [apply (note_key_site_grown function_scope)|]. by apply (after_scan_grown function_scope).
Qed.

Lemma note_assignment_marks fresh_call shadowed lhs rhs plain c z : lhs <> ENull ->
  may_hold fresh_call shadowed z rhs = true -> below c (target_lifetime_depth c lhs) z ->
  marked (note_assignment lhs rhs plain c) z.
Proof.
  intros Hl Hh Hb. eapply marked_extends; [apply (after_scan_grown function_scope); done|].
  eapply marked_extends; [apply (note_key_site_grown function_scope)|]. by eapply mark_mentions_marks.
Qed.

(** A plain store that is no self-append is counted, and its value recorded. *)
Lemma note_assignment_record x rhs plain c : x <> "_"%string -> plain && is_self_append x rhs = false ->
  exists r, find_record (note_assignment (Identifier x) rhs plain c) x = Some r /\
    (plain = true -> rhs ∈ lr_values r) /\ (plain = false -> has_unsafe_value r = true) /\
    forall r0, find_record c x = Some r0 -> (S (binding_count r0) <= binding_count r)%nat.
Proof.
  intros Hx Ha. unfold note_assignment. rewrite (proj2 (String.eqb_neq _ _) Hx), Ha.
  fold (store_scanned (Identifier x) rhs c). set (c1 := store_scanned _ _ _). destruct (store_scanned_grown function_scope (Identifier x) rhs c) as [He _]. fold c1 in He.
  assert (exists r1, find_record (intern_record x c1) x = Some r1 /\
    forall r0, find_record c x = Some r0 -> (binding_count r0 <= binding_count r1)%nat) as (r1&Hr1&Hcnt).
  { rewrite find_intern, String.eqb_refl. destruct (find_record c1 x) as [r1|] eqn:E; eexists; split; [done| |done|];
      intros r0 H0; destruct (ex_records _ _ He _ _ H0) as (r'&Hr'&Hle); rewrite E in Hr'; [|done].
    injection Hr' as <-. apply (le_count _ _ Hle). }
  exists (assigned_count rhs plain r1).
  rewrite !find_update, !String.eqb_refl, Hr1 by (done || by destruct plain). split; [done|].
  unfold assigned_count. destruct plain; simpl; repeat split; try done; try set_solver;
    intros; specialize (Hcnt _ H); lia.
Qed.

(** ** Bodies
    The names a statement declares, in the order of the walk. *)
Definition opt_name (x : option string) : list string := match x with Some x => one_name x | None => [] end.
Definition target_name (t : Expr) : list string := match t with Identifier n => one_name n | _ => [] end.
Definition head_name (h : SelectHead) : list string :=
  if sc_is_declare h =? 1 then opt_name (sc_bind_name h) else [].

Fixpoint introduced (s : Stmt) : list string :=
  let all := flat_map introduced in
  match s with
  | BlockStmt ss | UnsafeStmt ss | ArenaBlock ss => all ss
  | IfStmt _ th el => all th ++ all el
  | IfLetStmt x _ th el => opt_name x ++ all th ++ all el
  | ForRangeStmt k v _ body => opt_name k ++ opt_name v ++ all body
  | ForStmt init _ post body => all init ++ all post ++ all body
  | VarDecl ns _ | ConstDecl ns _ => flat_map one_name ns
  | MultiAssign ts _ true => flat_map target_name ts
  | SwitchStmt _ cs => flat_map (fun c => all (snd c)) cs
  | TypeSwitch _ x cs => opt_name x ++ flat_map all cs
  | SelectStmt cs => flat_map (fun c => head_name (fst c) ++ all (snd c)) cs
  | _ => []
  end.

Abbreviation introduced_in := (flat_map introduced).

Lemma placed_deeper p q r : pl_block p < pl_block q -> placed q r -> placed p r.
Proof. intros Hb [H1 H2]. split; [lia|]. intros Hh. left. lia. Qed.

Lemma grown_deeper p q names c c' : pl_block p < pl_block q -> grown q names c c' -> grown p names c c'.
Proof. intros Hb. apply grown_weaken; [|done]. intros r. by apply placed_deeper. Qed.

(** The names of a pairing are those given. *)
Lemma seed_names_of {A} (ns : list A) vs : map fst (seed_values ns vs) = ns.
Proof.
  unfold seed_values. destruct (length vs =? length ns)%nat eqn:E.
  - apply Nat.eqb_eq in E. revert vs E. induction ns as [|n ns IH]; intros [|v vs] E; simpl in *; try done.
    f_equal. apply IH. lia.
  - rewrite map_map. simpl. by rewrite map_id.
Qed.

Lemma note_declarations_grown p bs c :
  grown p (flat_map one_name (map fst bs)) c (note_declarations p bs c).
Proof.
  revert c. induction bs as [|[x e] bs IH]; intros c; simpl; [apply grown_refl|].
  eapply grown_trans; [apply note_declaration_grown|apply IH].
Qed.

Lemma seed_names_grown p ns vs c : grown p (flat_map one_name ns) c (seed_names p ns vs c).
Proof. unfold seed_names. pose proof (note_declarations_grown p (seed_values ns vs) c) as H. by rewrite seed_names_of in H. Qed.

(** A list of targets declares the identifiers among them. *)
Lemma declare_targets_eq p ts vs c :
  declare_targets p ts vs c = note_declarations p (named_targets (seed_values ts vs)) c.
Proof.
  unfold declare_targets, note_declarations. generalize (seed_values ts vs). intros bs. revert c.
  induction bs as [|[t e] bs IH]; intros c; simpl; [done|]. rewrite IH. by destruct t.
Qed.

Lemma named_targets_names bs : flat_map one_name (map fst (named_targets bs)) = flat_map target_name (map fst bs).
Proof. induction bs as [|[t e] bs IH]; simpl; [done|]. destruct t; simpl; try done. by rewrite IH. Qed.

Lemma declare_targets_grown p ts vs c : grown p (flat_map target_name ts) c (declare_targets p ts vs c).
Proof.
  rewrite declare_targets_eq. pose proof (note_declarations_grown p (named_targets (seed_values ts vs)) c) as H.
  by rewrite named_targets_names, seed_names_of in H.
Qed.

Lemma note_declaration_opt_grown p x c : grown p (opt_name x) c (note_declaration_opt p x c).
Proof. destruct x; [apply note_declaration_grown|apply grown_refl]. Qed.

Lemma assignments_grown p plain bs c :
  grown p [] c (fold_left (fun c b => note_assignment (fst b) (snd b) plain c) bs c).
Proof.
  revert c. induction bs as [|[t e] bs IH]; intros c; simpl; [apply grown_refl|].
  eapply grown_then; [apply note_assignment_grown|apply IH].
Qed.

Lemma scan_mismatch_grown p ts vs c : grown p [] c (scan_mismatch ts vs c).
Proof.
  unfold scan_mismatch. destruct (_ =? _)%nat; [apply grown_refl|]. apply grown_scan_list. intros. apply mark_mentions_grown.
Qed.

Lemma note_expression_assignment_grown p e c : grown p [] c (note_expression_assignment e c).
Proof.
  destruct e; try apply grown_refl. simpl. destruct (is_assign_op op); [apply note_assignment_grown|apply grown_refl].
Qed.

Lemma note_select_bind_grown p h c : grown p (head_name h) c (note_select_bind p h c).
Proof.
  unfold note_select_bind, head_name, opt_name, one_name.
  destruct (sc_bind_name h) as [x|]; [|destruct (_ =? 1); apply grown_refl].
  destruct (x =? "_")%string eqn:Ex; [destruct (_ =? 1); apply grown_refl|].
  destruct (sc_is_declare h =? 1).
  - pose proof (note_declaration_grown p x ENull c) as H. unfold one_name in H. by rewrite Ex in H.
  - destruct (sc_is_declare h =? 0); [|apply grown_refl]. eapply grown_then; [apply grown_intern|].
    eapply grown_then; by apply grown_update.
Qed.

Lemma walk_list_grown p walk ss c : Forall (fun s => forall c, grown p (introduced s) c (walk s c)) ss ->
  grown p (introduced_in ss) c (walk_list walk ss c).
Proof.
  intros Hs. revert c. induction Hs as [|s ss Hs _ IH]; intros c; simpl; [apply grown_refl|].
  eapply grown_trans; [apply Hs|apply IH].
Qed.

Lemma walk_cases_grown {A} p (f : A -> Collected -> Collected) (names : A -> list string) cs c :
  Forall (fun x => forall c, grown p (names x) c (f x c)) cs -> grown p (flat_map names cs) c (walk_cases f cs c).
Proof.
  intros Hs. revert c. induction Hs as [|s ss Hs _ IH]; intros c; simpl; [apply grown_refl|].
  eapply grown_trans; [apply Hs|apply IH].
Qed.

Definition walks (s : Stmt) : Prop := forall p c, grown p (introduced s) c (walk_stmt p s c).

Lemma walks_list ss p c : Forall walks ss -> grown p (introduced_in ss) c (walk_stmts p ss c).
Proof. intros H. apply walk_list_grown. eapply Forall_impl; [exact H|]. by intros s Hs c'. Qed.

Lemma walks_list_deeper ss p q c : pl_block p < pl_block q -> Forall walks ss ->
  grown p (introduced_in ss) c (walk_stmts q ss c).
Proof. intros Hb H. eapply grown_deeper; [exact Hb|]. by apply walks_list. Qed.

Lemma deeper_block p : pl_block p < pl_block (deeper p). Proof. simpl. lia. Qed.
Lemma header_block p : pl_block p < pl_block (in_header (deeper p)). Proof. simpl. lia. Qed.
#[export] Hint Resolve deeper_block header_block : core.

Lemma walk_grown s : walks s.
Proof.
  induction s using Stmt_ind; intros q c0; simpl; fold walk_stmts; try apply grown_refl; try apply grown_unreadable.
  - by apply walks_list.
  - eapply grown_then; [apply note_concat_grown|apply note_expression_assignment_grown].
  - eapply grown_trans; by apply walks_list.
  - eapply grown_trans; [apply note_declaration_opt_grown|]. eapply grown_trans; by apply walks_list.
  - eapply grown_trans; [eapply grown_deeper; [apply header_block|apply note_declaration_opt_grown]|].
    eapply grown_trans; [eapply grown_deeper; [apply header_block|apply note_declaration_opt_grown]|].
    by apply walks_list_deeper.
  - eapply grown_trans; [by apply walks_list_deeper|]. eapply grown_trans; by apply walks_list_deeper.
  - apply note_concats_grown.
  - eapply grown_then; [apply note_concats_grown|apply seed_names_grown].
  - eapply grown_then; [apply note_concats_grown|apply seed_names_grown].
  - eapply grown_then; [apply note_concats_grown|]. destruct b; [apply declare_targets_grown|].
    eapply grown_then; [apply scan_mismatch_grown|apply assignments_grown].
  - apply (walk_cases_grown q (fun cl => walk_stmts (deeper q) (snd cl)) (fun c => introduced_in (snd c))).
    eapply Forall_impl; [eassumption|]. intros cl Hcl c1. by apply walks_list_deeper.
  - eapply grown_trans; [eapply grown_deeper; [apply deeper_block|apply note_declaration_opt_grown]|].
    apply (walk_cases_grown q (walk_stmts (deeper q)) introduced_in).
    eapply Forall_impl; [eassumption|]. intros cl Hcl c1. by apply walks_list_deeper.
  - apply (walk_cases_grown q _ (fun c => head_name (fst c) ++ introduced_in (snd c))).
    eapply Forall_impl; [eassumption|]. intros cl Hcl c1.
    eapply grown_trans; [|by apply walks_list_deeper]. eapply grown_then; [apply note_expression_assignment_grown|].
    eapply grown_deeper; [apply deeper_block|apply note_select_bind_grown].
  - by apply walks_list.
  - eapply grown_weaken; [| |by apply walks_list]; [|done]. intros r [H1 H2]. split; [done|exact H2].
Qed.

Lemma walk_stmts_grown p ss c : grown p (introduced_in ss) c (walk_stmts p ss c).
Proof. apply walks_list. apply Forall_true. apply walk_grown. Qed.

Lemma walk_extends p ss c : extends c (walk_stmts p ss c).
Proof. apply (walk_stmts_grown p ss c). Qed.

(** ** Approved locals *)
Record approved (c : Collected) (pe : option (list ParamEscapeSummary)) (x : string) (r : LocalRecord) : Prop := {
  ap_found : find_record c x = Some r;
  ap_readable : unreadable c = false;
  ap_declared : lr_declared r = true;
  ap_arena : arena_depth r <= 0;
  ap_loop : 0 < block_depth r -> loop_header r = false /\ loop_locals_unreadable c = false /\
    block_escapes r = false;
  ap_rebound : (1 < binding_count r)%nat -> all_values_release_safe c pe r = true /\ has_alias c pe x = false;
  ap_once : (binding_count r <= 1)%nat -> binding_is_owned c pe (bound_value r) = true
}.

Lemma decide_bindings_ok c pe r : decide_bindings c pe r = RELEASE_OK ->
  ((1 < binding_count r)%nat -> all_values_release_safe c pe r = true /\ has_alias c pe (lr_name r) = false) /\
  ((binding_count r <= 1)%nat -> binding_is_owned c pe (bound_value r) = true).
Proof.
  unfold decide_bindings. destruct (Nat.ltb_spec 1 (binding_count r)).
  - destruct (all_values_release_safe c pe r); [|done]. destruct (has_alias c pe (lr_name r)); [done|]. intros _. by split; [|lia].
  - destruct (binding_is_owned c pe (bound_value r)); [|done]. intros _. split; [lia|done].
Qed.

Lemma decide_approved c pe le fn x r : find_record c x = Some r -> decide c pe le fn r = RELEASE_OK ->
  approved c pe x r /\ Local.local_escape_local_escapes le fn x = false.
Proof.
  intros Hf. pose proof (find_in_name _ _ _ Hf) as Hn. unfold decide. rewrite Hn.
  destruct (unreadable c) eqn:Eu; [done|]. destruct (lr_declared r) eqn:Ed; [simpl|done].
  destruct (Local.local_escape_local_escapes le fn x); [done|].
  destruct (Z.ltb_spec 0 (arena_depth r)); [done|]. destruct (Z.ltb_spec 0 (block_depth r)) as [Hb|Hb]; simpl.
  - destruct (loop_header r) eqn:Eh; [done|]. destruct (loop_locals_unreadable c) eqn:El; [done|].
    destruct (block_escapes r) eqn:Ee; [done|]. intros [H1 H2]%decide_bindings_ok. rewrite Hn in H1. by split.
  - intros [H1 H2]%decide_bindings_ok. rewrite Hn in H1. split; [|done]. by split; try lia.
Qed.
