(* ===== verification/ReleaseFlow.v ===== *)
(** * ReleaseFlow: which local's value may end up in which other local.

    The analysis looks at one assignment at a time; [flows] lists what every binding of a body
    makes a name hold, and [flow_ok] tells, for one of them, whether what the analysis decided
    of the two names agrees.  Three things make it disagree: a composite literal that holds a
    rebound local, a binding whose value is not recorded, and a local whose own value goes to
    something that lives longer. *)
From Stdlib Require Import ZArith Lia Ascii String Bool.
From stdpp Require Import base list numbers option strings gmap.
From S2P Require Import Prelude Token Escape EscapePasses EscapeFacts Release ReleaseSem ReleaseFacts.
Local Open Scope Z_scope.

(** A flow without a target is the value a range loop keeps.  It is hidden when the analysis
    records no value for it. *)
Record Flow : Set := mkFlow { fl_target : option string; fl_sources : list Expr; fl_hidden : bool }.

Definition flow_of (b : string * Expr) : Flow := mkFlow (Some (fst b)) [snd b] false.

Definition assign_flow (recorded : bool) (b : Expr * Expr) : list Flow :=
  match b with
  | (Identifier x, e) =>
      if is_self_append x e then [mkFlow (Some x) (added e) true]
      else [mkFlow (Some x) [e] (negb recorded)]
  | _ => []
  end.

Definition expr_flows (e : Expr) : list Flow :=
  match e with BinaryExpr TOKEN_ASSIGN l r => assign_flow true (l, r) | _ => [] end.

Definition opt_flow (x : option string) (e : Expr) : list Flow :=
  match x with Some x => [mkFlow (Some x) [e] true] | None => [] end.

Fixpoint flows (s : Stmt) : list Flow :=
  let all := flat_map flows in
  match s with
  | BlockStmt ss | UnsafeStmt ss | ArenaBlock ss => all ss
  | ExprStmt e => expr_flows e
  | VarDecl ns vs | ConstDecl ns vs => map flow_of (seed_values ns vs)
  | MultiAssign ts vs true => map flow_of (named_targets (seed_values ts vs))
  | MultiAssign ts vs false =>
      flat_map (assign_flow (length ts =? length vs)%nat) (seed_values ts vs)
  | IfStmt _ th el => all th ++ all el
  | IfLetStmt x e th el => opt_flow x e ++ all th ++ all el
  | ForRangeStmt _ v e body => mkFlow None [e] true :: opt_flow v e ++ all body
  | ForStmt init _ post body => all init ++ all post ++ all body
  | SwitchStmt _ cs => flat_map (fun c => all (snd c)) cs
  | TypeSwitch e x cs => opt_flow x e ++ flat_map all cs
  | SelectStmt cs => flat_map (fun c => expr_flows (sc_comm (fst c)) ++ all (snd c)) cs
  | _ => []
  end.

Abbreviation flows_in := (flat_map flows).

Section FlowCheck.
  Context (C : Collected) (sites : list string) (fresh_call shadowed : string -> bool).

Definition holds_any (x : string) (es : list Expr) : bool :=
  existsb (may_hold fresh_call shadowed x) es.

(** [x] is the local whose value flows, [f] the flow. *)
Definition stays_single (r : LocalRecord) (f : Flow) : bool :=
  negb (bool_decide (lr_name r ∈ sites) && (1 <? binding_count r)%nat) ||
  (negb (fl_hidden f) && negb (existsb is_composite (fl_sources f))).

Definition target_agrees (r ry : LocalRecord) : bool :=
  negb (block_escapes ry) && (negb (loop_header ry) || (block_depth r <? block_depth ry)).

Definition marks_agree (r : LocalRecord) (f : Flow) : bool :=
  negb (0 <? block_depth r) || block_escapes r ||
  match fl_target f with
  | Some y => match find_record C y with Some ry => target_agrees r ry | None => true end
  | None => true
  end.

Definition is_blank (x : option string) : bool :=
  match x with Some x => (x =? "_")%string | None => false end.

Definition flow_ok (f : Flow) : bool :=
  is_blank (fl_target f) ||
  forallb (fun r => negb (holds_any (lr_name r) (fl_sources f)) ||
                    (stays_single r f && marks_agree r f)) (items C).

Definition flows_ok (ss : list Stmt) : bool := forallb flow_ok (flows_in ss).

Lemma holds_any_spec x es e : e ∈ es -> may_hold fresh_call shadowed x e = true -> holds_any x es = true.
Proof using.
  intros He Hh. unfold holds_any. apply existsb_exists. exists e. split; [by apply list_elem_of_In|done].
Qed.

Record flow_fine (f : Flow) (x : string) (r : LocalRecord) : Prop := {
  ff_single : x ∈ sites -> (1 < binding_count r)%nat ->
    fl_hidden f = false /\ forall e, e ∈ fl_sources f -> is_composite e = false;
  ff_marks : 0 < block_depth r -> block_escapes r = false ->
    forall y ry, fl_target f = Some y -> find_record C y = Some ry ->
      block_escapes ry = false /\ (loop_header ry = true -> block_depth r < block_depth ry)
}.

Lemma flow_ok_spec f x r : flow_ok f = true -> is_blank (fl_target f) = false -> find_record C x = Some r ->
  holds_any x (fl_sources f) = true -> flow_fine f x r.
Proof using.
  unfold flow_ok. intros Hok Hbl Hr Hh. rewrite Hbl in Hok. apply find_record_in in Hr as [Hin Hn]. simpl in Hok.
  rewrite forallb_forall in Hok. specialize (Hok r (proj1 (list_elem_of_In _ _) Hin)).
  rewrite Hn, Hh in Hok. simpl in Hok. apply andb_true_iff in Hok as [Hs Hm]. split.
  - intros Hx Hc. unfold stays_single in Hs. rewrite Hn, bool_decide_true, (proj2 (Nat.ltb_lt _ _) Hc) in Hs by done.
    simpl in Hs. apply andb_true_iff in Hs as [H1 H2]. split; [by destruct (fl_hidden f)|]. intros e He.
    apply negb_true_iff in H2. destruct (is_composite e) eqn:E; [|done].
    rewrite <- H2. symmetry. apply existsb_exists. exists e. split; [by apply list_elem_of_In|done].
  - intros Hb He y ry Hy Hry. unfold marks_agree in Hm. rewrite (proj2 (Z.ltb_lt _ _) Hb), He, Hy, Hry in Hm. simpl in Hm.
    unfold target_agrees in Hm. apply andb_true_iff in Hm as [H1 H2]. split; [by destruct (block_escapes ry)|].
    intros H. rewrite H in H2. simpl in H2. by apply Z.ltb_lt.
Qed.
End FlowCheck.

(** ** Bodies the check covers
    A header's statements are simple ones, and a loop's last one declares nothing.  Of several
    names that one call gives values to, none is approved. *)
Section Covered.
  Context (sites : list string).

Definition apart_results (s : Stmt) : bool :=
  match declarations s with
  | Some ds =>
      let names := flat_map one_name (map fst ds) in
      paired s || (length names <=? 1)%nat || forallb (fun x => negb (bool_decide (x ∈ sites))) names
  | None => true
  end.

Fixpoint covered (header : bool) (s : Stmt) : bool :=
  let all h := forallb (covered h) in
  match s with
  | BlockStmt ss | UnsafeStmt ss | ArenaBlock ss => all header ss
  | IfStmt _ th el | IfLetStmt _ _ th el => all header th && all header el
  | ForRangeStmt _ _ _ body => negb header && all false body
  | ForStmt init _ post body =>
      negb header && all true init && all true post &&
      (length (flat_map introduced post) =? 0)%nat && all false body
  | VarDecl _ _ | ConstDecl _ _ | MultiAssign _ _ true => apart_results s
  | SwitchStmt _ cs => forallb (fun c => all header (snd c)) cs
  | TypeSwitch _ _ cs => forallb (all header) cs
  | SelectStmt cs => forallb (fun c => all header (snd c)) cs
  | _ => true
  end.
End Covered.

(** ** What an approved local's values are *)
Section Owned.
  Context (C : Collected) (pe : option (list ParamEscapeSummary)) (fresh_call shadowed : string -> bool).
  Hypothesis Hfresh : forall f s, param_escape_lookup pe f = Some s -> ps_return_escapes s = false ->
    fresh_call f = true.
  Hypothesis Hshadow : forall x, shadowed x = true -> is_local C x = true.
  Abbreviation holds := (may_hold fresh_call shadowed).

Lemma call_owned_copies fn : call_result_is_owned C pe fn = true -> copies fresh_call shadowed fn = true.
Proof using Hfresh Hshadow.
  unfold copies. intros H. apply orb_true_iff. right. destruct fn as [|f| | | | | | |e sel| | | | | | | | | |]; try done.
  - simpl in H. destruct (param_escape_lookup pe f) as [s|] eqn:E; [|done]. apply (Hfresh f s E).
    by destruct (ps_return_escapes s).
  - destruct e; try done. simpl in H. apply andb_true_iff in H as [H1 ->].
    destruct (shadowed name) eqn:E; [|done]. by rewrite (Hshadow _ E) in H1.
Qed.

Lemma owned_allocates e : binding_is_owned C pe e = true -> allocates fresh_call shadowed e = true.
Proof using Hfresh Hshadow.
  unfold binding_is_owned, allocates. intros H. apply orb_true_iff.
  apply orb_true_iff in H as [H|H]; [apply orb_true_iff in H as [H|H]|].
  - destruct e as [| | | | | | | | |id fn args sp| | | | | | | | |]; try done. right. unfold copies. simpl in H. by rewrite H.
  - left. unfold is_composite. destruct e; done.
  - destruct e; try done; try (left; done); right; [done|by apply call_owned_copies].
Qed.

Lemma owned_holds e x : binding_is_owned C pe e = true -> is_composite e = false -> holds x e = false.
Proof using Hfresh Hshadow.
  intros Ho Hc. pose proof (owned_allocates e Ho) as Ha. unfold allocates in Ha. rewrite Hc in Ha. simpl in Ha.
  destruct e; try done. simpl. by rewrite Ha.
Qed.

Lemma release_safe_sources e : value_is_release_safe C pe e = true ->
  is_static e = true \/ binding_is_owned C pe e = true.
Proof using. destruct e; simpl; auto. Qed.

Lemma release_safe_holds e x : value_is_release_safe C pe e = true -> is_composite e = false -> holds x e = false.
Proof using Hfresh Hshadow.
  intros H Hc. destruct (release_safe_sources e H) as [Hs|Ho]; [by destruct e|by apply owned_holds].
Qed.

(** *** Aliases the search finds *)
Definition found (x : string) (e : Expr) : Prop := fst (expr_names_local x e) = true \/ snd (expr_names_local x e) = true.

Lemma names_in_found (f : Expr -> bool * bool) (h : Expr -> bool) es :
  Forall (fun e => h e = true -> fst (f e) = true \/ snd (f e) = true) es -> any_of h es = true ->
  fst (names_in f es) = true \/ snd (names_in f es) = true.
Proof using.
  intros Hf. induction Hf as [|e es He _ IH]; simpl; [done|]. intros H. destruct (f e) as [a u]. simpl in *.
  destruct a; [by left|]. destruct (names_in f es) as [a' u']. simpl in *. apply orb_true_iff in H as [H|H].
  - destruct (He H) as [?| ->]; [done|]. right. done.
  - destruct (IH H) as [->| ->]; [by left|right; apply orb_true_r].
Qed.

Lemma holds_found e x : holds x e = true -> found x e.
Proof using.
  unfold found. induction e using Expr_ind; simpl; intros Hh; try discriminate; auto.
  - specialize (IHe1 Hh). destruct (expr_names_local x e1) as [[] ?]; [by left|]. simpl in *.
    destruct (expr_names_local x e2) as [? ?]. simpl. right. by destruct IHe1 as [?| ->].
  - specialize (IHe1 Hh). destruct (expr_names_local x e1) as [[] u1]; [by left|]. simpl in *.
    destruct IHe1 as [?| ->]; [done|]. destruct (expr_names_local x e2) as [[] u2]; [by left|].
    destruct (expr_names_local x e3) as [a3 u3]. by right.
  - apply andb_true_iff in Hh as [_ Hh]. apply orb_true_iff in Hh as [Hh|Hh].
    + specialize (IHe Hh). destruct (expr_names_local x e) as [[] u]; [by left|]. simpl in *.
      destruct (names_in _ args) as [a' u']. right. by destruct IHe as [?| ->].
    + destruct (expr_names_local x e) as [[] u]; [by left|].
      pose proof (names_in_found (expr_names_local x) (holds x) args H Hh) as Hn.
      destruct (names_in _ args) as [a' u']. simpl in *. destruct Hn as [->| ->]; [by left|right; apply orb_true_r].
  - by apply (names_in_found _ (holds x)).
  - by apply (names_in_found _ (holds x)).
  - by apply (names_in_found _ (holds x)).
  - apply orb_true_iff in Hh as [Hh|Hh].
    + pose proof (names_in_found (expr_names_local x) (holds x) ks H Hh) as Hn.
      destruct (names_in _ ks) as [[] u]; [by left|]. simpl in *. destruct (names_in _ vs) as [a' u'].
      right. by destruct Hn as [?| ->].
    + destruct (names_in _ ks) as [[] u]; [by left|].
      pose proof (names_in_found (expr_names_local x) (holds x) vs H0 Hh) as Hn.
      destruct (names_in _ vs) as [a' u']. simpl in *. destruct Hn as [->| ->]; [by left|right; apply orb_true_r].
Qed.

(** A recorded value of another local holds no rebound one, composites apart. *)
Lemma no_alias_holds x y ry e : has_alias C pe x = false -> find_record C y = Some ry -> y <> x ->
  e ∈ lr_values ry -> is_composite e = false -> holds x e = false.
Proof using Hfresh Hshadow.
  intros Ha Hy Hne He Hc. destruct (holds x e) eqn:Hh; [|done]. exfalso.
  apply find_record_in in Hy as [Hin Hn].
  assert (has_alias C pe x = true) as Ht; [|congruence].
  unfold has_alias. apply existsb_exists. exists ry. split; [by apply list_elem_of_In|].
  rewrite Hn, (proj2 (String.eqb_neq y x) Hne). apply existsb_exists. exists e.
  split; [by apply list_elem_of_In|]. unfold value_may_alias.
  destruct (binding_is_owned C pe e) eqn:Ho; [by rewrite (owned_holds e x Ho Hc) in Hh|].
  assert (not_null e = true) as -> by (by destruct e). simpl.
  pose proof (holds_found e x Hh) as Hf. unfold found in Hf. destruct (expr_names_local x e) as [a u]. simpl in Hf.
  destruct Hf as [->| ->]; [done|apply orb_true_r].
Qed.

(** What an approved local is bound to is static or owned. *)
Definition bound_safely (e : Expr) : Prop := is_static e = true \/ allocates fresh_call shadowed e = true.

Lemma safe_bound_safely e : value_is_release_safe C pe e = true -> bound_safely e.
Proof using Hfresh Hshadow. intros H. destruct (release_safe_sources e H); [by left|right; by apply owned_allocates]. Qed.

Lemma approved_values x r e : approved C pe x r -> e ∈ lr_values r -> (1 < binding_count r)%nat ->
  value_is_release_safe C pe e = true.
Proof using.
  intros Hap He Hc. destruct (ap_rebound _ _ _ _ Hap Hc) as [Hv _]. unfold all_values_release_safe in Hv.
  apply andb_true_iff in Hv as [_ Hv]. rewrite forallb_forall in Hv. apply Hv. by apply list_elem_of_In.
Qed.

Lemma approved_safe x r : approved C pe x r -> (1 < binding_count r)%nat -> has_unsafe_value r = false.
Proof using.
  intros Hap Hc. destruct (ap_rebound _ _ _ _ Hap Hc) as [Hv _]. unfold all_values_release_safe in Hv.
  by destruct (has_unsafe_value r).
Qed.
End Owned.
