(* ===== verification/ReleaseRuns.v ===== *)
(** * ReleaseRuns: lemmas on the executions of [ReleaseSem].

    What a run puts outside stays outside ([runs_widen]); what a sweep of releases does to the
    slots; how ending scopes composes. *)
From Stdlib Require Import ZArith Lia Ascii String Bool.
From stdpp Require Import base list numbers option strings gmap.
From S2P Require Import Prelude Token Escape EscapePasses Release ReleaseSem.
Local Open Scope Z_scope.

Definition wider (st st' : State) : Prop := outside st ⊆ outside st' /\ mine st ⊆ mine st'.

#[global] Instance wider_preorder : PreOrder wider.
Proof. split; [by intros st|]. intros a b c [H1 H2] [H3 H4]. split; set_solver. Qed.

Lemma confined_wider st st' : wider st st' -> confined st' -> confined st.
Proof. unfold wider, confined. set_solver. Qed.

Lemma evaluated_wider st e st' : evaluated st e st' -> wider st st'.
Proof. intros [out _ Ho _]. by split. Qed.

Lemma evaluateds_wider st es st' : evaluateds st es st' -> wider st st'.
Proof. induction 1; [done|]. etransitivity; [by eapply evaluated_wider|done]. Qed.

Lemma evals_wider fresh_call shadowed a st es vs st' : evals fresh_call shadowed a st es vs st' -> wider st st'.
Proof.
  induction 1 as [|??????? He _ IH]; [done|]. etransitivity; [|exact IH]. destruct He as [? ? He _].
  by eapply evaluated_wider.
Qed.

Lemma assign_evals_wider fresh_call shadowed st bs vs st' : assign_evals fresh_call shadowed st bs vs st' -> wider st st'.
Proof.
  induction 1 as [|????????? H1 H2 _ _ IH]; [done|]. etransitivity; [by eapply evaluated_wider|].
  etransitivity; [by eapply evaluated_wider|done].
Qed.

Lemma bind_wider sites x p v st : wider st (bind sites x p v st).
Proof. split; simpl; [done|]. case_bool_decide; set_solver. Qed.

Lemma declare_wider sites p x v st : wider st (declare sites p x v st).
Proof. unfold declare. destruct (_ =? _)%string; [done|apply bind_wider]. Qed.

Lemma declare_opt_wider sites p x v st : wider st (declare_opt sites p x v st).
Proof. destruct x; [apply declare_wider|done]. Qed.

Lemma declare_all_wider sites p xs vs st : wider st (declare_all sites p xs vs st).
Proof.
  revert vs st. induction xs as [|x xs IH]; intros [|v vs] st; simpl; try done.
  etransitivity; [apply declare_wider|apply IH].
Qed.

Lemma release_slot_wider x s st st' f : release_slot x s st = (st', f) -> wider st st'.
Proof. unfold release_slot. intros H. destruct (prim (s_value s)); try case_bool_decide; by simplify_eq. Qed.

Lemma and_then_wider st m k st' f : wider st (fst m) -> (forall st1 st2 f, k st1 = (st2, f) -> wider st1 st2) ->
  and_then m k = (st', f) -> wider st st'.
Proof.
  intros Hm Hk. destruct m as [st1 [w|]]; simpl in *; [by intros [= <- _]|]. intros H.
  etransitivity; [exact Hm|by eapply Hk].
Qed.

Lemma release_deeper_wider d xs st st' f : release_deeper d xs st = (st', f) -> wider st st'.
Proof.
  revert st st' f. induction xs as [|x xs IH]; intros st st' f; simpl; [by intros [= <- _]|].
  apply and_then_wider; [|exact IH]. destruct (env st !! x) as [s|]; [|done].
  destruct (d <? pl_block (s_place s)); [|done]. destruct (release_slot x s st) eqn:E. by eapply release_slot_wider.
Qed.

Lemma put_outside_wider ns st : wider st (put_outside ns st).
Proof. split; simpl; set_solver. Qed.

Lemma store_wider sites t g v st st' f : store sites t g v st = (st', f) -> wider st st'.
Proof.
  unfold store. destruct t; intros H; simplify_eq; try apply put_outside_wider; try done.
  destruct (name =? "_")%string; [by simplify_eq|]. destruct (env st !! name) as [s|]; [|simplify_eq; apply put_outside_wider].
  destruct (negb (s_live s)); [simplify_eq; apply put_outside_wider|]. destruct g; [simplify_eq; apply bind_wider|].
  revert H. apply and_then_wider; [|intros ??? [= <- _]; apply bind_wider]. case_bool_decide; [|done].
  destruct (release_slot name s st) eqn:E. by eapply release_slot_wider.
Qed.

Lemma store_all_wider sites bs vs st st' f : store_all sites bs vs st = (st', f) -> wider st st'.
Proof.
  revert vs st st' f. induction bs as [|[t e] bs IH]; intros [|v vs] st st' f; simpl; try by intros [= <- _].
  apply and_then_wider; [|apply IH]. destruct (store sites t (grows t e) v st) eqn:E. by eapply store_wider.
Qed.

Lemma close_wider ends st : wider st (close ends st).
Proof. done. Qed.

Lemma end_iteration_wider sites d o st st' o' : end_iteration sites d o st = (st', o') -> wider st st'.
Proof.
  destruct o; simpl; try by intros [= <- _]. destruct (release_deeper d sites st) as [st1 f] eqn:E.
  pose proof (release_deeper_wider _ _ _ _ _ E). by destruct f; intros [= <- _].
Qed.

Lemma end_scope_wider d o st st' o' : end_scope d o st = (st', o') -> wider st st'.
Proof. by destruct o; intros [= <- _]. Qed.

Lemma received_wider sites p h v st st' f : received sites p h v st = (st', f) -> wider st st'.
Proof.
  unfold received. destruct (sc_bind_name h); [|by intros [= <- _]].
  destruct (_ =? 1); [intros [= <- _]; apply declare_wider|].
  destruct (_ =? 0); [apply store_wider|by intros [= <- _]].
Qed.

(** *** The whole run *)
Ltac widens := repeat match goal with
  | H : evaluated _ _ _ |- _ => apply evaluated_wider in H
  | H : evaluateds _ _ _ |- _ => apply evaluateds_wider in H
  | H : eval _ _ _ _ _ _ _ |- _ => destruct H as [? ? H _]
  | H : evals _ _ _ _ _ _ _ |- _ => apply evals_wider in H
  | H : assign_evals _ _ _ _ _ _ |- _ => apply assign_evals_wider in H
  | H : store_all _ _ _ _ = _ |- _ => apply store_all_wider in H
  | H : store _ _ _ _ _ = _ |- _ => apply store_wider in H
  | H : release_deeper _ _ _ = _ |- _ => apply release_deeper_wider in H
  | H : end_iteration _ _ _ _ = _ |- _ => apply end_iteration_wider in H
  | H : end_scope _ _ _ = _ |- _ => apply end_scope_wider in H
  | H : received _ _ _ _ _ = _ |- _ => apply received_wider in H
  | H : wider (declare_opt _ _ _ _ _) _ |- _ => apply (transitivity (declare_opt_wider _ _ _ _ _)) in H
  end.
Ltac widen := widens; repeat (etransitivity; [eassumption|]); try done.

Lemma exec_expr_wider sites fresh_call shadowed st e st' o :
  exec_expr sites fresh_call shadowed st e st' o -> wider st st'.
Proof. destruct 1; by widen. Qed.

Section Runs.
  Context (sites : list string) (fresh_call shadowed : string -> bool).

Lemma runs_widen :
  (forall p st ss st' o, exec sites fresh_call shadowed p st ss st' o -> wider st st') /\
  (forall p st s st' o, exec1 sites fresh_call shadowed p st s st' o -> wider st st') /\
  (forall p c post body st st' o, for_loop sites fresh_call shadowed p c post body st st' o -> wider st st') /\
  (forall p k w body ns st st' o, range_loop sites fresh_call shadowed p k w body ns st st' o -> wider st st').
Proof.
  apply release_runs_ind; intros;
    repeat match goal with H : exec_expr _ _ _ _ _ _ _ |- _ => apply exec_expr_wider in H end; try by widen.
  - widen. apply declare_all_wider.
  - widen. apply declare_all_wider.
  - widens. assert (wider st st2) by (etransitivity; [exact H|exact H1]). by destruct o.
  - widen. apply put_outside_wider.
Qed.
End Runs.

(** ** Objects *)
Lemma prim_object q n : q = Obj n -> n ∈ prim_objects q.
Proof. intros ->. simpl. set_solver. Qed.

Lemma no_value_objects n : n ∉ objects no_value.
Proof. unfold objects. simpl. set_solver. Qed.

Lemma grow_objects old v n : n ∈ objects (grow old v) <-> n ∈ objects old \/ n ∈ objects v.
Proof. unfold objects. simpl. unfold objects. set_solver. Qed.

(** ** Sweeps of releases *)
Section Sweeps.
  Context (sites : list string).

Definition releasable (st : State) (q : Prim) : Prop :=
  match q with Obj n => (n ∉ freed st) /\ n ∈ mine st | Foreign => False | Nil | Immortal => True end.

(** Every approved slot can be released, and no two of them release one object. *)
Record exit_ok (st : State) : Prop := {
  eo_prim : forall x s, x ∈ sites -> env st !! x = Some s -> releasable st (prim (s_value s));
  eo_distinct : forall x y sx sy n, x ∈ sites -> y ∈ sites -> x <> y -> env st !! x = Some sx ->
    env st !! y = Some sy -> prim (s_value sx) = Obj n -> prim (s_value sy) = Obj n -> False
}.

(** [st] is [st0] after releases of slots that satisfy [R]. *)
Record swept (R : string -> Slot -> Prop) (st0 st : State) : Prop := {
  sw_next : next st = next st0;
  sw_outside : outside st = outside st0;
  sw_mine : mine st = mine st0;
  sw_temps : temps st = temps st0;
  sw_slot : forall x s, env st !! x = Some s -> exists s0, env st0 !! x = Some s0 /\
    s_place s = s_place s0 /\ s_live s = s_live s0 /\ (s_value s = s_value s0 \/ s_value s = no_value);
  sw_freed : forall n, n ∈ freed st -> n ∈ freed st0 \/
    exists x s0, x ∈ sites /\ R x s0 /\ env st0 !! x = Some s0 /\ prim (s_value s0) = Obj n
}.

Lemma swept_refl R st : swept R st st.
Proof. split; auto. intros x s H. exists s. auto. Qed.

Lemma swept_trans (R : string -> Slot -> Prop) st0 st1 st2 :
  (forall x s s', s_place s = s_place s' -> R x s -> R x s') ->
  swept R st0 st1 -> swept R st1 st2 -> swept R st0 st2.
Proof.
  intros HR [N1 O1 M1 T1 S1 F1] [N2 O2 M2 T2 S2 F2]. split; try congruence.
  - intros x s H. destruct (S2 x s H) as (s1&H1&P1&L1&V1). destruct (S1 x s1 H1) as (s0&H0&P0&L0&V0).
    exists s0. repeat split; try congruence. destruct V1 as [->|]; [done|by right].
  - intros n H. destruct (F2 n H) as [H'|(x&s1&Hx&Hr&H1&Hp)]; [by apply F1|].
    destruct (S1 x s1 H1) as (s0&H0&P0&_&[V|V]); [|rewrite V in Hp; done]. right. exists x, s0.
    repeat split; try done; [by eapply HR|congruence].
Qed.

Lemma swept_none R x st st' : swept R st st' -> env st !! x = None -> env st' !! x = None.
Proof.
  intros Hs H. destruct (env st' !! x) as [s|] eqn:E; [|done]. destruct (sw_slot _ _ _ Hs x s E) as (?&?&_). congruence.
Qed.

Lemma release_slot_ok (R : string -> Slot -> Prop) x s st : x ∈ sites -> R x s -> exit_ok st -> env st !! x = Some s ->
  exists st', release_slot x s st = (st', None) /\ exit_ok st' /\ swept R st st' /\ is_Some (env st' !! x).
Proof.
  intros Hx Hr [Hp Hd] Hs. unfold release_slot. pose proof (Hp x s Hx Hs) as Hq. unfold releasable in Hq.
  destruct (prim (s_value s)) as [| | |n] eqn:E;
    [exists st; split; [done|]; split; [by split|]; split; [apply swept_refl|by exists s]
    |exists st; split; [done|]; split; [by split|]; split; [apply swept_refl|by exists s]|done|].
  destruct Hq as [Hf Hm]. rewrite bool_decide_false by done. eexists. split; [done|].
  assert (forall y sy, y <> x -> env st !! y = Some sy -> y ∈ sites -> prim (s_value sy) <> Obj n) as Hother.
  { intros y sy Hne Hy Hin Heq. by apply (Hd x y s sy n). }
  split; [split|split; [split|]]; simpl; auto.
  - intros y sy Hin. rewrite lookup_insert_Some. intros [[<- <-]|[Hne Hy]]; [done|].
    pose proof (Hp y sy Hin Hy) as Hq. unfold releasable in *. pose proof (Hother y sy (not_eq_sym Hne) Hy Hin).
    destruct (prim (s_value sy)); try done. simpl. split; [|apply Hq]. set_solver.
  - intros y z sy sz m Hy Hz Hne. rewrite !lookup_insert_Some. intros [[<- <-]|[? ?]] [[<- <-]|[? ?]]; simpl; try done.
    by apply (Hd y z).
  - intros y sy. rewrite lookup_insert_Some. intros [[<- <-]|[? ?]]; [|by exists sy; auto]. exists s. auto.
  - intros m Hm'. apply elem_of_union in Hm' as [Hm'|]; [|by left]. apply elem_of_singleton in Hm' as ->. right.
    by exists x, s.
  - by rewrite lookup_insert_eq.
Qed.

Lemma release_deeper_ok d xs st : (forall x, x ∈ xs -> x ∈ sites) -> exit_ok st ->
  exists st', release_deeper d xs st = (st', None) /\ exit_ok st' /\
    swept (fun _ s => d < pl_block (s_place s)) st st'.
Proof.
  revert st. induction xs as [|x xs IH]; intros st Hin Hok; simpl.
  - exists st. split; [done|]. split; [done|]. apply swept_refl.
  - assert (exists st1, match env st !! x with
             | Some s => if d <? pl_block (s_place s) then release_slot x s st else (st, None)
             | None => (st, None) end = (st1, None) /\ exit_ok st1 /\
             swept (fun _ s => d < pl_block (s_place s)) st st1) as (st1&->&Hok1&Hs1).
    { destruct (env st !! x) as [s|] eqn:E; [|exists st; auto using swept_refl].
      destruct (Z.ltb_spec d (pl_block (s_place s))); [|exists st; auto using swept_refl].
      destruct (release_slot_ok (fun _ s => d < pl_block (s_place s)) x s st) as (st1&?&?&?&_); try done; [|by exists st1].
      apply Hin. set_solver. }
    simpl. destruct (IH st1) as (st2&->&Hok2&Hs2); [set_solver|done|]. exists st2. split; [done|]. split; [done|].
    eapply swept_trans; [|done|done]. intros ? s s' ->. done.
Qed.
End Sweeps.

(** ** Ending scopes *)
Lemma close_lookup ends st x s : env (close ends st) !! x = Some s -> exists s0, env st !! x = Some s0 /\
  s_value s = s_value s0 /\ s_place s = s_place s0 /\ (s_live s = true -> s_live s0 = true /\ ends s0 = false).
Proof.
  simpl. rewrite lookup_fmap_Some. intros (s0&<-&H). exists s0. split; [done|]. by destruct (ends s0).
Qed.

Definition by_place (ends : Slot -> bool) : Prop := forall s s', s_place s = s_place s' -> ends s = ends s'.

Lemma ends_iteration_place d : by_place (ends_iteration d).
Proof. intros s s'. unfold ends_iteration. by intros ->. Qed.
Lemma ends_scope_place d : by_place (ends_scope d).
Proof. intros s s'. unfold ends_scope. by intros ->. Qed.

Lemma close_close f g st : by_place f -> by_place g ->
  close f (close g st) = close (fun s => f s || g s) st.
Proof.
  intros Hf Hg. unfold close, with_env. simpl. f_equal. rewrite <- map_fmap_compose. apply map_fmap_ext. intros x s _.
  simpl. destruct (g s) eqn:Eg; simpl.
  - rewrite (Hf _ s) by done. by destruct (f s).
  - destruct (f s); done.
Qed.

Lemma close_ext f g st : (forall s, f s = g s) -> close f st = close g st.
Proof. intros H. unfold close, with_env. f_equal. apply map_fmap_ext. intros x s _. by rewrite H. Qed.

Lemma close_comm f g st : by_place f -> by_place g -> close f (close g st) = close g (close f st).
Proof. intros. rewrite !close_close by done. apply close_ext. intros s. apply orb_comm. Qed.

(** Leaving the loop ends whatever ending an iteration does. *)
Lemma kill_after_iteration d st : kill d (kill_iteration d st) = kill d st.
Proof.
  unfold kill, kill_iteration. rewrite close_close by auto using ends_scope_place, ends_iteration_place.
  apply close_ext. intros s. unfold ends_scope, ends_iteration.
  destruct (Z.ltb_spec d (pl_block (s_place s))), (Z.ltb_spec (d + 1) (pl_block (s_place s))),
    (Z.eqb_spec (pl_block (s_place s)) (d + 1)); simpl; try done; try lia.
Qed.
