(* ===== verification/ReleaseInv.v ===== *)
(** * ReleaseInv: the invariant of runs with releases.

    [Inv] holds at every point of a run that corresponds to a point of the walk.  [share] is what
    one flow may do to it, [bind_inv] what one binding does, [process_all_ok] what the stores of
    one statement do, which all come after its evaluations. *)
From Stdlib Require Import ZArith Lia Ascii String Bool.
From stdpp Require Import base list numbers option strings gmap.
From S2P Require Import Prelude Token Escape EscapePasses EscapeFacts Release ReleaseSem ReleaseFacts.
From S2P Require Import ReleaseFlow ReleaseRuns.
Local Open Scope Z_scope.

(** What the runs of a function rely on: each site is an approved local, calls that the summaries
    say return none of their arguments do so, and a name that shadows a package is a local. *)
Class Approvals (C : Collected) (pe : option (list ParamEscapeSummary)) (sites : list string)
    (fresh_call shadowed : string -> bool) : Prop := {
  ap_site : forall x, x ∈ sites -> exists r, approved C pe x r;
  ap_fresh : forall f s, param_escape_lookup pe f = Some s -> ps_return_escapes s = false ->
    fresh_call f = true;
  ap_shadow : forall x, shadowed x = true -> is_local C x = true
}.

Section Invariant.
  Context {C : Collected} {pe : option (list ParamEscapeSummary)} {sites : list string}.
  Context {fresh_call shadowed : string -> bool} {HA : Approvals C pe sites fresh_call shadowed}.
  Abbreviation holds := (may_hold fresh_call shadowed).
  Abbreviation held := (held fresh_call shadowed).

Lemma approved_record x r : x ∈ sites -> find_record C x = Some r -> approved C pe x r.
Proof. intros Hx Hr. destruct (ap_site x Hx) as [r' Ha]. pose proof (ap_found _ _ _ _ Ha). congruence. Qed.

(** ** The invariant *)
Definition unused (st : State) (m : nat) : Prop :=
  (forall x s, env st !! x = Some s -> (m ∉ objects (s_value s))) /\ (m ∉ freed st) /\ (m ∉ mine st) /\
  (m ∉ outside st) /\ forall k, k ∈ temps st -> (m ∉ k_objects k).

(** An approved local's object may be held by [y] as well. *)
Definition may_share (r : LocalRecord) (y : string) (pl : Place) : Prop :=
  (binding_count r <= 1)%nat /\
  (0 < block_depth r -> block_depth r <= pl_block pl /\
     (forall ry, find_record C y = Some ry -> block_escapes ry = false) /\
     (pl_header pl = true -> block_depth r < pl_block pl)).

(** An approved local's object may be part of a value that is ranged over. *)
Definition keepable (r : LocalRecord) (k : Kept) : Prop :=
  (binding_count r <= 1)%nat /\ block_depth r <= k_depth k /\
  (0 < block_depth r -> forall y ry, k_name k = Some y -> y <> "_"%string -> find_record C y = Some ry -> block_escapes ry = false).

Definition at_place (pl : Place) (r : LocalRecord) : Prop :=
  lr_declared r = true /\ block_depth r = pl_block pl /\ arena_depth r = pl_arena pl /\
  loop_header r = pl_header pl.

Record Inv (p : Place) (c : Collected) (st : State) : Prop := {
  i_ok : exit_ok sites st;
  i_place : 0 <= pl_block p;
  i_known : forall x s, env st !! x = Some s -> exists r, find_record C x = Some r /\ at_place (s_place s) r;
  i_live : forall x s, env st !! x = Some s -> s_live s = true ->
    declares c x /\ pl_block (s_place s) <= pl_block p;
  i_bound : forall m, (next st <= m)%nat -> unused st m;
  i_mine : freed st ⊆ mine st;
  i_reads : forall x s n, env st !! x = Some s -> s_live s = true -> n ∈ objects (s_value s) -> (n ∉ freed st);
  i_holders : forall x r sx n y sy, x ∈ sites -> find_record C x = Some r -> env st !! x = Some sx ->
    prim (s_value sx) = Obj n -> y <> x -> env st !! y = Some sy -> s_live sy = true ->
    n ∈ objects (s_value sy) -> may_share r y (s_place sy);
  i_temps : forall k, k ∈ temps st -> k_depth k < pl_block p /\ forall n, n ∈ k_objects k -> (n ∉ freed st) /\
    forall x r sx, x ∈ sites -> find_record C x = Some r -> env st !! x = Some sx ->
      prim (s_value sx) = Obj n -> keepable r k
}.

Lemma live_value_slot st x v : live_value st x = Some v <->
  exists s, env st !! x = Some s /\ s_live s = true /\ s_value s = v.
Proof.
  unfold live_value. destruct (env st !! x) as [s|]; [|by split; [|intros (?&?&_)]].
  destruct (s_live s) eqn:E; split; try done.
  - intros [= <-]. by exists s.
  - by intros (s'&[= <-]&_&<-).
  - intros (s'&[= <-]&?&_). congruence.
Qed.

Lemma no_dangling p c st e : Inv p c st -> ~ dangling st e.
Proof.
  intros Hi (x&v&n&_&Hv&Hn&Hf). apply live_value_slot in Hv as (s&Hs&Hl&<-). by apply (i_reads _ _ _ Hi x s n).
Qed.

Lemma start_slot x s : env start !! x = Some s -> False.
Proof. simpl. by rewrite lookup_empty. Qed.

Lemma start_inv : Inv function_scope nothing_collected start.
Proof.
  pose proof start_slot as He. split.
  - split; [intros x s _ Hs|intros x y sx sy n _ _ _ Hs]; by destruct (He _ _ Hs).
  - done.
  - intros x s Hs. by destruct (He _ _ Hs).
  - intros x s Hs. by destruct (He _ _ Hs).
  - intros m _. split; [intros x s Hs; by destruct (He _ _ Hs)|]. simpl. repeat split; set_solver.
  - done.
  - intros x s n Hs. by destruct (He _ _ Hs).
  - intros x r sx n y sy _ _ Hs. by destruct (He _ _ Hs).
  - intros k Hin. simpl in Hin. set_solver.
Qed.

Lemma inv_extends p c c' st : extends c c' -> Inv p c st -> Inv p c' st.
Proof.
  intros He [? ? ? Hl]. split; auto. intros x s Hs Hv. destruct (Hl x s Hs Hv) as [(r&Hr&Hd)?]. split; [|done].
  destruct (ex_records _ _ He _ _ Hr) as (r'&Hr'&Hle). exists r'. split; [done|]. by apply (le_declared _ _ Hle).
Qed.

Lemma inv_place p q c st : pl_block p <= pl_block q -> Inv p c st -> Inv q c st.
Proof.
  intros Hb [? ? ? Hl ? ? ? ? Ht]. split; auto; [lia| |].
  - intros x s Hs Hv. destruct (Hl x s Hs Hv). split; [done|lia].
  - intros k Hin. destruct (Ht k Hin) as [? ?]. split; [lia|done].
Qed.

(** *** Changes that free nothing and bind nothing *)
Lemma evaluated_unused p c st e st' m : Inv p c st -> evaluated st e st' -> (next st <= m)%nat -> unused st' m.
Proof.
  intros Hi [out _ Hin Hout] Hm. destruct (i_bound _ _ _ Hi m Hm) as (H1&H2&H3&H4&H5). repeat split; simpl; auto.
  intros Hm'. destruct (Hout m Hm') as [?|(x&v&_&Hv&Hn)]; [done|]. apply live_value_slot in Hv as (s&Hs&_&<-).
  by apply (H1 x s).
Qed.

Lemma evaluated_inv p c st e st' : Inv p c st -> evaluated st e st' -> Inv p c st'.
Proof.
  intros Hi He. pose proof (fun m => evaluated_unused p c st e st' m Hi He) as Hu. destruct Hi as [[Hp Hd] ? ? ? ? ? ? ? ?].
  destruct He as [out ? ? ?]. split; simpl in *; auto; [by split|]. intros m Hm. apply Hu. lia.
Qed.

Lemma evaluateds_inv p c st es st' : Inv p c st -> evaluateds st es st' -> Inv p c st'.
Proof. intros Hi He. induction He as [|????? H1 _ IH]; [done|]. apply IH. by eapply evaluated_inv. Qed.

Lemma put_outside_inv p c ns st : (forall m, (next st <= m)%nat -> m ∉ ns) -> Inv p c st -> Inv p c (put_outside ns st).
Proof.
  intros Hns [[Hp Hd] ? ? ? Hb ? ? ? ?]. split; simpl in *; auto; [by split|]. intros m Hm.
  destruct (Hb m Hm) as (?&?&?&?&?). repeat split; auto. simpl. specialize (Hns m Hm). set_solver.
Qed.

Lemma objects_bound p c st x s n : Inv p c st -> env st !! x = Some s -> n ∈ objects (s_value s) -> (n < next st)%nat.
Proof.
  intros Hi Hs Hn. destruct (Nat.le_gt_cases (next st) n) as [Hle|]; [|done].
  by destruct (proj1 (i_bound _ _ _ Hi n Hle) x s Hs).
Qed.

Lemma close_inv p c ends st : Inv p c st -> Inv p c (close ends st).
Proof.
  intros [[Hp Hd] ? Hk Hl Hb ? Hr Hh Ht]. pose proof (close_lookup ends st) as Hc. split; auto.
  - split.
    + intros x s Hx Hs. destruct (Hc x s Hs) as (s0&Hs0&Hv&_). rewrite Hv. by apply (Hp x).
    + intros x y sx sy n Hx Hy Hne Hsx Hsy. destruct (Hc x sx Hsx) as (s0&Hs0&->&_), (Hc y sy Hsy) as (s1&Hs1&->&_).
      by apply (Hd x y).
  - intros x s Hs. destruct (Hc x s Hs) as (s0&Hs0&_&->&_). by apply Hk.
  - intros x s Hs Hv. destruct (Hc x s Hs) as (s0&Hs0&_&->&Hl'). apply (Hl x s0 Hs0). by apply Hl'.
  - intros m Hm. destruct (Hb m Hm) as (H1&?&?&?&?). repeat split; auto. intros x s Hs.
    destruct (Hc x s Hs) as (s0&Hs0&->&_). by apply (H1 x).
  - intros x s n Hs Hv. destruct (Hc x s Hs) as (s0&Hs0&->&_&Hl'). apply (Hr x s0 n Hs0). by apply Hl'.
  - intros x r sx n y sy Hx Hrx Hsx Hpx Hne Hsy Hv Hn. destruct (Hc x sx Hsx) as (s0&Hs0&Hv0&_).
    destruct (Hc y sy Hsy) as (s1&Hs1&Hv1&->&Hl'). rewrite Hv0 in Hpx. rewrite Hv1 in Hn.
    by apply (Hh x r s0 n y s1); try done; apply Hl'.
  - intros k Hin. destruct (Ht k Hin) as [? Hns]. split; [done|]. intros n Hn. destruct (Hns n Hn) as [? Hx].
    split; [done|]. intros x r sx Hxs Hrx Hsx. destruct (Hc x sx Hsx) as (s0&Hs0&->&_). by apply (Hx x r s0).
Qed.

(** ** What one flow may do *)
Lemma held_cases st es n : confined st -> held st es n -> n ∈ mine st -> exists e z sz, e ∈ es /\ holds z e = true /\
  env st !! z = Some sz /\ s_live sz = true /\ n ∈ objects (s_value sz).
Proof using.
  intros Hcf [Ho|(e&z&v&He&Hh&Hv&Hn)] Hm; [destruct (Hcf n Ho Hm)|].
  apply live_value_slot in Hv as (sz&Hs&Hl&<-). by exists e, z, sz.
Qed.

Section Share.
  Context (p : Place) (c : Collected) (st : State) (Hi : Inv p c st) (Hcf : confined st).
  Context (y : string) (pl : Place) (es : list Expr) (hidden : bool).
  Context (Hok : flow_ok C sites fresh_call shadowed (mkFlow (Some y) es hidden) = true) (Hy : y <> "_"%string).
  Context (Hdepth : forall z sz, holds_any fresh_call shadowed z es = true -> env st !! z = Some sz ->
    s_live sz = true -> pl_block (s_place sz) <= pl_block pl \/ marked C z).
  Context (Hrec : hidden = false -> forall e, e ∈ es -> exists ry, find_record C y = Some ry /\ e ∈ lr_values ry).
  Context (Hpl : exists ry, find_record C y = Some ry /\ at_place pl ry).

Lemma site_mine x sx n : x ∈ sites -> env st !! x = Some sx -> prim (s_value sx) = Obj n -> n ∈ mine st.
Proof.
  intros Hx Hs Hp. pose proof (eo_prim _ _ (i_ok _ _ _ Hi) x sx Hx Hs) as H. rewrite Hp in H. apply H.
Qed.

Lemma flow_of_y x r : find_record C x = Some r -> holds_any fresh_call shadowed x es = true ->
  flow_fine C sites (mkFlow (Some y) es hidden) x r.
Proof. intros Hr Hh. eapply flow_ok_spec; try done. simpl. by apply String.eqb_neq. Qed.

Lemma unmarked x r : approved C pe x r -> 0 < block_depth r -> ~ marked C x.
Proof.
  intros Ha Hb [H|(r'&Hr'&He)]; destruct (ap_loop _ _ _ _ Ha Hb) as (_&?&?); [congruence|].
  pose proof (ap_found _ _ _ _ Ha). congruence.
Qed.

(** The holder's own mark and place decide for the target. *)
Lemma target_agreed x r z rz e : approved C pe x r -> 0 < block_depth r ->
  find_record C z = Some rz -> block_escapes rz = false -> block_depth r <= block_depth rz ->
  e ∈ es -> holds z e = true -> block_depth rz <= pl_block pl ->
  block_depth r <= pl_block pl /\ (forall ry, find_record C y = Some ry -> block_escapes ry = false) /\
  (pl_header pl = true -> block_depth r < pl_block pl).
Proof.
  intros Ha Hb Hz Hez Hle He Hh Hd. split; [lia|].
  pose proof (flow_of_y z rz Hz (holds_any_spec fresh_call shadowed z es e He Hh)) as Hf.
  assert (forall ry, find_record C y = Some ry -> block_escapes ry = false /\
    (loop_header ry = true -> block_depth rz < block_depth ry)) as Hy'.
  { intros ry Hry. apply (ff_marks _ _ _ _ _ Hf ltac:(lia) Hez y ry); done. }
  split; [intros ry Hry; by apply Hy'|]. intros Hhd.
  destruct Hpl as (ry&Hry&_&Hb'&_&Hh'). destruct (Hy' ry Hry) as [_ H]. rewrite Hh', Hb' in H.
  specialize (H Hhd). lia.
Qed.

Lemma share n x r sx : x ∈ sites -> find_record C x = Some r -> env st !! x = Some sx ->
  prim (s_value sx) = Obj n -> x <> y -> held st es n -> may_share r y pl.
Proof.
  intros Hx Hr Hs Hp Hne Hh. pose proof (approved_record x r Hx Hr) as Ha.
  destruct (held_cases st es n Hcf Hh (site_mine x sx n Hx Hs Hp)) as (e&z&sz&He&Hz&Hsz&Hl&Hn).
  pose proof (holds_any_spec fresh_call shadowed z es e He Hz) as Hzs.
  destruct (String.eq_dec z x) as [->|Hzx].
  - pose proof (flow_of_y x r Hr Hzs) as Hf. split.
    + destruct (Nat.le_gt_cases (binding_count r) 1) as [|Hc]; [done|]. exfalso.
      destruct (ff_single _ _ _ _ _ Hf Hx Hc) as [Hhid Hcomp]. destruct (Hrec Hhid e He) as (ry&Hry&Hin).
      destruct (ap_rebound _ _ _ _ Ha Hc) as [_ Hal].
      pose proof (no_alias_holds C pe fresh_call shadowed ap_fresh ap_shadow x y ry e Hal Hry ltac:(congruence) Hin (Hcomp e He)).
      congruence.
    + intros Hb. destruct (ap_loop _ _ _ _ Ha Hb) as (_&_&Hesc).
      apply (target_agreed x r x r e); try done.
      destruct (Hdepth x sz Hzs Hsz Hl) as [Hd|Hm]; [|by destruct (unmarked x r Ha Hb)].
      destruct (i_known _ _ _ Hi x sz Hsz) as (r'&Hr'&_&Hb'&_). rewrite Hr in Hr'. injection Hr' as <-. lia.
  - destruct (i_holders _ _ _ Hi x r sx n z sz Hx Hr Hs Hp Hzx Hsz Hl Hn) as [Hc Hrest]. split; [done|].
    intros Hb. destruct (Hrest Hb) as (Hd&Hun&_). destruct (i_known _ _ _ Hi z sz Hsz) as (rz&Hrz&_&Hbz&_).
    apply (target_agreed x r z rz e); try done; [by apply Hun|lia|].
    destruct (Hdepth z sz Hzs Hsz Hl) as [Hd'|[Hm|(r'&Hr'&Hm)]]; [lia| |].
    + destruct (ap_loop _ _ _ _ Ha Hb) as (_&?&_). congruence.
    + specialize (Hun r' Hr'). congruence.
Qed.

(** A store to an approved local does not put back what it releases. *)
Lemma no_self n r sy : y ∈ sites -> find_record C y = Some r -> (1 < binding_count r)%nat ->
  (hidden = false -> forall e, e ∈ es -> value_is_release_safe C pe e = true) -> env st !! y = Some sy ->
  prim (s_value sy) = Obj n -> held st es n -> False.
Proof.
  intros Hys Hr Hc Hsafe Hs Hp Hh. destruct (held_cases st es n Hcf Hh (site_mine y sy n Hys Hs Hp)) as (e&z&sz&He&Hz&Hsz&Hl&Hn).
  destruct (String.eq_dec z y) as [->|Hzy].
  - pose proof (flow_of_y y r Hr (holds_any_spec fresh_call shadowed y es e He Hz)) as Hf.
    destruct (ff_single _ _ _ _ _ Hf Hys Hc) as [Hhid Hcomp].
    pose proof (release_safe_holds C pe fresh_call shadowed ap_fresh ap_shadow e y (Hsafe Hhid e He) (Hcomp e He)). congruence.
  - destruct (i_holders _ _ _ Hi y r sy n z sz Hys Hr Hs Hp Hzy Hsz Hl Hn) as [Hc' _]. lia.
Qed.
End Share.

(** ** One binding *)
Definition own (st : State) (x : string) (v : Value) : Prop :=
  prim v = Nil \/ prim v = Immortal \/ (exists m, prim v = Obj m /\ unused st m) \/
  exists s, env st !! x = Some s /\ prim v = prim (s_value s).

Definition shares (st : State) (x : string) (pl : Place) (v : Value) : Prop :=
  forall z r sz n, z ∈ sites -> find_record C z = Some r -> env st !! z = Some sz ->
    prim (s_value sz) = Obj n -> z <> x -> n ∈ objects v -> may_share r x pl.

Definition fits (p : Place) (c : Collected) (x : string) (pl : Place) : Prop :=
  pl_block pl <= pl_block p /\ declares c x /\ exists r, find_record C x = Some r /\ at_place pl r.

Section Bind.
  Context (p : Place) (c : Collected) (st : State) (x : string) (pl : Place) (v : Value).
  Context (Hi : Inv p c st) (Hfit : fits p c x pl) (Hown : x ∈ sites -> own st x v) (Hsh : shares st x pl v).
  Context (Hb : forall n, n ∈ objects v -> (n < next st)%nat /\ (n ∉ freed st)).

Lemma own_releasable : x ∈ sites -> releasable (bind sites x pl v st) (prim v).
Proof.
  intros Hx. destruct (Hown Hx) as [Hq|[Hq|[(m&Hq&Hu)|(s&Hs&Hp)]]]; try by rewrite Hq.
  - rewrite Hq. simpl. rewrite bool_decide_true by done. split; [apply Hu|]. apply elem_of_union_l. by apply prim_object.
  - pose proof (eo_prim _ _ (i_ok _ _ _ Hi) x s Hx Hs) as Hr. rewrite <- Hp in Hr. unfold releasable in *.
    destruct (prim v); try done. simpl. rewrite bool_decide_true by done. destruct Hr. split; [done|].
    by apply elem_of_union_r.
Qed.

Lemma own_apart y sy n : x ∈ sites -> y ∈ sites -> y <> x -> env st !! y = Some sy ->
  prim v = Obj n -> prim (s_value sy) = Obj n -> False.
Proof.
  intros Hx Hy Hne Hsy Hv Hpy. destruct (Hown Hx) as [E|[E|[(m&E&Hu)|(s&Hs&E)]]]; rewrite Hv in E; try done.
  - injection E as <-. apply (proj1 Hu y sy Hsy). unfold objects. apply elem_of_union_l. by apply prim_object.
  - by apply (eo_distinct _ _ (i_ok _ _ _ Hi) y x sy s n).
Qed.

(** Another live holder of the new object shares it as before. *)
Lemma own_holders r n y sy : x ∈ sites -> find_record C x = Some r -> prim v = Obj n -> y <> x ->
  env st !! y = Some sy -> s_live sy = true -> n ∈ objects (s_value sy) -> may_share r y (s_place sy).
Proof.
  intros Hx Hr Hv Hne Hsy Hl Hn. destruct (Hown Hx) as [E|[E|[(m&E&Hu)|(s&Hs&E)]]]; rewrite Hv in E; try done.
  - injection E as <-. by destruct (proj1 Hu y sy Hsy).
  - by apply (i_holders _ _ _ Hi x r s n y sy).
Qed.

Lemma own_temps n k : x ∈ sites -> prim v = Obj n -> k ∈ temps st -> n ∈ k_objects k ->
  forall r, find_record C x = Some r -> keepable r k.
Proof.
  intros Hx Hv Hin Hn r Hr. destruct (Hown Hx) as [E|[E|[(m&E&Hu)|(s&Hs&E)]]]; rewrite Hv in E; try done.
  - injection E as <-. destruct Hu as (_&_&_&_&Hu). by destruct (Hu k Hin).
  - destruct (i_temps _ _ _ Hi k Hin) as [_ H]. destruct (H n Hn) as [_ Ht]. by apply (Ht x r s).
Qed.

Lemma bind_inv : Inv p c (bind sites x pl v st).
Proof.
  pose proof Hi as [[Hp Hd] Hpl0 Hk Hl Hbd Hm Hrd Hh Ht]. destruct Hfit as (Hfb&Hfd&Hfr).
  assert (mine st ⊆ mine (bind sites x pl v st)) as Hmine by (simpl; case_bool_decide; [apply union_subseteq_r|done]).
  split; simpl; auto.
  - split.
    + intros y sy Hy. simpl. rewrite lookup_insert_Some. intros [[<- <-]|[Hne Hsy]]; [by apply own_releasable|].
      pose proof (Hp y sy Hy Hsy) as Hq. unfold releasable in *. destruct (prim (s_value sy)); try done.
      split; [apply Hq|]. apply Hmine, Hq.
    + intros y z sy sz n Hy Hz Hne. simpl. rewrite !lookup_insert_Some.
      intros [[<- <-]|[Hy' Hsy]] [[<- <-]|[Hz' Hsz]]; simpl; [done| | |by apply (Hd y z)].
      * intros Hv Hq. by apply (own_apart z sz n).
      * intros Hq Hv. by apply (own_apart y sy n).
  - intros y sy. rewrite lookup_insert_Some. intros [[<- <-]|[_ Hsy]]; [done|by apply Hk].
  - intros y sy. rewrite lookup_insert_Some. intros [[<- <-]|[_ Hsy]]; [done|by apply Hl].
  - intros m Hmn. destruct (Hbd m Hmn) as (H1&H2&H3&H4&H5).
    assert (m ∉ objects v) as Hv by (intros Hin; specialize (Hb m Hin); simpl in *; lia).
    repeat split; simpl; auto.
    + intros y sy. rewrite lookup_insert_Some. intros [[<- <-]|[_ Hsy]]; [done|by apply (H1 y)].
    + case_bool_decide; [|done]. apply not_elem_of_union. split; [|done]. intros Hin. apply Hv. unfold objects.
      by apply elem_of_union_l.
  - etransitivity; [exact Hm|exact Hmine].
  - intros y sy n. rewrite lookup_insert_Some. intros [[<- <-]|[_ Hsy]]; [|by apply (Hrd y)]. simpl. intros _ Hn. by apply Hb.
  - intros z r sz n y sy Hz Hr. rewrite !lookup_insert_Some.
    intros [[<- <-]|[Hz' Hsz]] Hq Hne [[<- <-]|[Hy' Hsy]] Hlv Hn; simpl in *; [done| | |by apply (Hh z r sz n)].
    + by apply (own_holders r n).
    + by apply (Hsh z r sz n).
  - intros k Hin. destruct (Ht k Hin) as [? Hns]. split; [done|]. intros n Hn. destruct (Hns n Hn) as [? Hx].
    split; [done|]. intros z r sz Hz Hr. rewrite lookup_insert_Some. intros [[<- <-]|[_ Hsz]]; [|by apply (Hx z r sz)].
    simpl. intros Hq. by apply (own_temps n k).
Qed.
End Bind.

(** ** One release before a store *)
Lemma release_inv p c st x s r : Inv p c st -> x ∈ sites -> find_record C x = Some r -> (1 < binding_count r)%nat ->
  env st !! x = Some s -> exists st', release_slot x s st = (st', None) /\ Inv p c st' /\
    swept sites (fun y _ => y = x) st st' /\ exists s', env st' !! x = Some s' /\ s_live s' = s_live s /\ s_place s' = s_place s.
Proof.
  intros Hi Hx Hr Hc Hs. destruct (release_slot_ok sites (fun y _ => y = x) x s st Hx eq_refl (i_ok _ _ _ Hi) Hs)
    as (st'&Heq&Hok&Hsw&[s' Hs']). exists st'. split; [done|].
  assert (exists s', env st' !! x = Some s' /\ s_live s' = s_live s /\ s_place s' = s_place s) as Hx'.
  { destruct (sw_slot _ _ _ _ Hsw x s' Hs') as (s0&Hs0&?&?&_). exists s'. split; [done|]. by simplify_eq. }
  split; [|done]. pose proof Hi as [[Hp Hd] Hpl0 Hk Hl Hbd Hm Hrd Hh Ht]. destruct Hsw as [Hn Ho Hmi Htm Hsl Hfr].
  assert (forall n, n ∈ freed st' -> n ∈ freed st \/ (prim (s_value s) = Obj n)) as Hfreed.
  { intros n H. destruct (Hfr n H) as [?|(z&s0&_&->&Hz&?)]; [by left|right]. by simplify_eq. }
  assert (forall n, prim (s_value s) = Obj n -> n ∈ mine st) as Hmn by (intros n Hq; exact (site_mine p c st Hi x s n Hx Hs Hq)).
  split; auto.
  - intros y sy Hsy. destruct (Hsl y sy Hsy) as (s0&Hs0&->&_). by apply Hk.
  - intros y sy Hsy. destruct (Hsl y sy Hsy) as (s0&Hs0&->&->&_). by apply Hl.
  - intros m Hmm. rewrite Hn in Hmm. destruct (Hbd m Hmm) as (H1&H2&H3&H4&H5). repeat split; rewrite ?Ho, ?Hmi, ?Htm; auto.
    + intros y sy Hsy. destruct (Hsl y sy Hsy) as (s0&Hs0&_&_&[->| ->]); [by apply (H1 y)|]. apply no_value_objects.
    + intros Hf. destruct (Hfreed m Hf) as [?|Hq]; [done|]. apply (H1 x s Hs). unfold objects. apply elem_of_union_l.
      by apply prim_object.
  - rewrite Hmi. intros n H. destruct (Hfreed n H) as [?|?]; [by apply Hm|by apply Hmn].
  - intros y sy n Hsy Hlv Hin Hf. destruct (Hsl y sy Hsy) as (s0&Hs0&Hpl&Hlv0&[Hv|Hv]); rewrite Hv in Hin;
      [|by apply no_value_objects in Hin].
    destruct (Hfreed n Hf) as [?|Hq]; [apply (Hrd y s0 n); by rewrite <- ?Hlv0|].
    destruct (String.eq_dec y x) as [->|Hne].
    + rewrite Hs in Hs0. injection Hs0 as <-. unfold release_slot in Heq. rewrite Hq in Heq.
      assert (n ∉ freed st) as Hnf by (pose proof (Hp x s Hx Hs) as Hrl; rewrite Hq in Hrl; apply Hrl).
      rewrite bool_decide_false in Heq by done. injection Heq as <-. simpl in Hsy. rewrite lookup_insert_eq in Hsy.
      injection Hsy as <-. simpl in Hv. rewrite <- Hv in Hq. done.
    + destruct (Hh x r s n y s0 Hx Hr Hs Hq Hne Hs0 ltac:(by rewrite <- Hlv0) Hin) as [? _]. lia.
  - intros z rz sz n y sy Hz Hrz Hsz Hq Hne Hsy Hlv Hin. destruct (Hsl z sz Hsz) as (sz0&Hsz0&_&_&[Hv|Hv]);
      rewrite Hv in Hq; [|done]. destruct (Hsl y sy Hsy) as (sy0&Hsy0&->&Hlv0&[Hv'|Hv']); rewrite Hv' in Hin;
      [|by apply no_value_objects in Hin]. apply (Hh z rz sz0 n y sy0); try done. by rewrite <- Hlv0.
  - rewrite Htm. intros k Hin. destruct (Ht k Hin) as [? Hns]. split; [done|]. intros n Hnn.
    destruct (Hns n Hnn) as [Hnf Hxs]. split.
    + intros Hf. destruct (Hfreed n Hf) as [?|Hq]; [done|]. destruct (Hxs x r s Hx Hr Hs Hq). lia.
    + intros z rz sz Hz Hrz Hsz Hq. destruct (Hsl z sz Hsz) as (sz0&Hsz0&_&_&[Hv|Hv]); rewrite Hv in Hq; [|done].
      by apply (Hxs z rz sz0).
Qed.

(** ** Several bindings at once
    What is to be done with each of the values of a statement. *)
Inductive Kind : Set :=
| KDeclare (x : string) (pl : Place)
| KStore (x : string) (pl : Place)
| KGrow (x : string) (pl : Place)
| KOut
| KDrop.

Definition target (k : Kind) : option (string * Place) :=
  match k with KDeclare x pl | KStore x pl | KGrow x pl => Some (x, pl) | KOut | KDrop => None end.
Definition assigned (k : Kind) : option (string * Place) :=
  match k with KStore x pl | KGrow x pl => Some (x, pl) | _ => None end.
Definition replaces (k : Kind) : option string :=
  match k with KDeclare x _ | KStore x _ => Some x | _ => None end.

Definition fresh_of (a : Kind * Value) (m : nat) : Prop :=
  match replaces (fst a) with Some x => x ∈ sites /\ prim (snd a) = Obj m | None => False end.

Definition process (a : Kind * Value) (st : State) : State * option Fault :=
  match fst a with
  | KDeclare x pl => (bind sites x pl (snd a) st, None)
  | KStore x pl =>
      match env st !! x with
      | Some s =>
          and_then (if bool_decide (x ∈ sites) then release_slot x s st else (st, None))
            (fun st => (bind sites x pl (snd a) st, None))
      | None => (st, None)
      end
  | KGrow x pl =>
      match env st !! x with
      | Some s => (bind sites x pl (grow (s_value s) (snd a)) st, None)
      | None => (st, None)
      end
  | KOut => (put_outside (objects (snd a)) st, None)
  | KDrop => (st, None)
  end.

Record good (p : Place) (c : Collected) (st : State) (a : Kind * Value) : Prop := {
  g_next : forall n, n ∈ objects (snd a) -> (n < next st)%nat;
  g_freed : forall x pl n, target (fst a) = Some (x, pl) -> n ∈ objects (snd a) -> (n ∉ freed st);
  g_fits : forall x pl, target (fst a) = Some (x, pl) -> fits p c x pl;
  g_slot : forall x pl, assigned (fst a) = Some (x, pl) ->
    exists s, env st !! x = Some s /\ s_live s = true /\ s_place s = pl;
  g_fresh : forall m, fresh_of a m -> unused st m;
  g_prim : forall x, replaces (fst a) = Some x -> x ∈ sites -> prim (snd a) <> Foreign;
  g_shares : forall x pl, target (fst a) = Some (x, pl) -> shares st x pl (snd a);
  g_count : forall x pl r, fst a = KStore x pl -> x ∈ sites -> find_record C x = Some r ->
    (1 < binding_count r)%nat;
  g_self : forall x pl r s n, assigned (fst a) = Some (x, pl) -> x ∈ sites -> find_record C x = Some r ->
    (1 < binding_count r)%nat -> env st !! x = Some s -> prim (s_value s) = Obj n -> (n ∉ objects (snd a))
}.

Record apart (a b : Kind * Value) : Prop := {
  ap_left : forall m, fresh_of a m -> (m ∉ objects (snd b));
  ap_right : forall m, fresh_of b m -> (m ∉ objects (snd a));
  ap_names : forall x pl pl', target (fst a) = Some (x, pl) -> target (fst b) = Some (x, pl') ->
    assigned (fst a) = Some (x, pl) /\ assigned (fst b) = Some (x, pl')
}.

(** [b] stays good when [x]'s slot is bound to [v] after [freed] grew by its old object. *)
Record rebound (st st' : State) (x : string) (pl : Place) (v : Value) : Prop := {
  rb_env : env st' !! x = Some (mkSlot v pl true);
  rb_others : forall y, y <> x -> env st' !! y = env st !! y;
  rb_next : next st' = next st;
  rb_outside : outside st' = outside st;
  rb_temps : temps st' = temps st;
  rb_mine : forall m, m ∈ mine st' -> m ∈ mine st \/ (x ∈ sites /\ prim v = Obj m);
  rb_freed : forall m, m ∈ freed st' -> m ∈ freed st \/
    exists s r, env st !! x = Some s /\ prim (s_value s) = Obj m /\ x ∈ sites /\
      find_record C x = Some r /\ (1 < binding_count r)%nat
}.

Section GoodAfter.
  Context (p : Place) (c : Collected) (st st' : State) (x : string) (pl : Place) (v : Value) (a b : Kind * Value).
  Context (Hr : rebound st st' x pl v) (Ht : target (fst a) = Some (x, pl)).
  (** The new value is the one of [a], added to the old one or alone. *)
  Context (Hobj : forall n, n ∈ objects v -> n ∈ objects (snd a) \/
    exists s, env st !! x = Some s /\ n ∈ objects (s_value s)).
  Context (Hpr : forall m, prim v = Obj m -> x ∈ sites -> fresh_of a m \/
    exists s, env st !! x = Some s /\ prim (s_value s) = Obj m).
  Context (Hpl : forall s, assigned (fst a) = Some (x, pl) -> env st !! x = Some s -> s_place s = pl).
  Context (Hb : good p c st b) (Hap : apart a b).

Lemma other_slot y s : y <> x -> env st' !! y = Some s -> env st !! y = Some s.
Proof. intros Hne. by rewrite (rb_others _ _ _ _ _ Hr y Hne). Qed.

Lemma same_target ply : target (fst b) = Some (x, ply) -> assigned (fst b) = Some (x, ply).
Proof. intros Hy. by apply (ap_names _ _ Hap x pl ply). Qed.

Lemma freed_after y ply n : target (fst b) = Some (y, ply) -> n ∈ objects (snd b) -> n ∉ freed st'.
Proof.
  intros Hy Hn Hf. destruct (rb_freed _ _ _ _ _ Hr n Hf) as [?|(s&r&Hs&Hq&Hx&Hrx&Hc)];
    [by apply (g_freed _ _ _ _ Hb y ply n)|].
  destruct (String.eq_dec x y) as [<-|Hne].
  - by apply (g_self _ _ _ _ Hb x ply r s n (same_target ply Hy)).
  - destruct (g_shares _ _ _ _ Hb y ply Hy x r s n) as [? _]; try done. lia.
Qed.

Lemma fresh_after m : fresh_of b m -> unused st' m.
Proof.
  intros Hm. destruct (g_fresh _ _ _ _ Hb m Hm) as (H1&H2&H3&H4&H5). pose proof (ap_right _ _ Hap m Hm) as Hma.
  split; [|split; [|split; [|split]]].
  - intros y s Hs. destruct (String.eq_dec y x) as [->|Hne]; [|by apply (H1 y s), other_slot].
    rewrite (rb_env _ _ _ _ _ Hr) in Hs. injection Hs as <-. simpl. intros Hin.
    destruct (Hobj m Hin) as [?|(s&Hs&?)]; [done|by apply (H1 x s)].
  - intros Hf. destruct (rb_freed _ _ _ _ _ Hr m Hf) as [?|(s&r&Hs&Hq&_)]; [done|]. apply (H1 x s Hs).
    unfold objects. apply elem_of_union_l. by apply prim_object.
  - intros Hi. destruct (rb_mine _ _ _ _ _ Hr m Hi) as [?|[Hx Hq]]; [done|].
    destruct (Hobj m) as [?|(s&Hs&?)]; [unfold objects; apply elem_of_union_l; by apply prim_object|done|by apply (H1 x s)].
  - by rewrite (rb_outside _ _ _ _ _ Hr).
  - intros k. rewrite (rb_temps _ _ _ _ _ Hr). apply H5.
Qed.

(** The slot's object is an old one or not in [b]. *)
Lemma prim_after s m : env st' !! x = Some s -> prim (s_value s) = Obj m -> x ∈ sites ->
  (m ∉ objects (snd b)) \/ exists s0, env st !! x = Some s0 /\ prim (s_value s0) = Obj m.
Proof.
  rewrite (rb_env _ _ _ _ _ Hr). intros [= <-] Hq Hx. destruct (Hpr m Hq Hx) as [Hf|?]; [left|by right].
  by apply (ap_left _ _ Hap).
Qed.

Lemma good_after : good p c st' b.
Proof.
  split.
  - intros n. rewrite (rb_next _ _ _ _ _ Hr). apply (g_next _ _ _ _ Hb).
  - exact freed_after.
  - exact (g_fits _ _ _ _ Hb).
  - intros y ply Hy. destruct (g_slot _ _ _ _ Hb y ply Hy) as (s&Hs&Hl&Hp).
    destruct (String.eq_dec y x) as [->|Hne]; [|exists s; by rewrite (rb_others _ _ _ _ _ Hr y Hne)].
    assert (target (fst b) = Some (x, ply)) as Hty by (by destruct (fst b)).
    rewrite (rb_env _ _ _ _ _ Hr). eexists. split; [done|]. split; [done|]. simpl.
    rewrite <- Hp. symmetry. apply (Hpl s); [|done]. by apply (ap_names _ _ Hap x pl ply).
  - exact fresh_after.
  - exact (g_prim _ _ _ _ Hb).
  - intros y ply Hy z r s n Hz Hrz Hs Hq Hne Hn. destruct (String.eq_dec z x) as [->|Hzx].
    + destruct (prim_after s n Hs Hq Hz) as [?|(s0&Hs0&Hq0)]; [done|]. by apply (g_shares _ _ _ _ Hb y ply Hy x r s0 n).
    + apply (g_shares _ _ _ _ Hb y ply Hy z r s n); try done. by apply other_slot.
  - exact (g_count _ _ _ _ Hb).
  - intros y ply r s n Hy Hys Hry Hc Hs Hq. destruct (String.eq_dec y x) as [->|Hne].
    + destruct (prim_after s n Hs Hq Hys) as [?|(s0&Hs0&Hq0)]; [done|]. by apply (g_self _ _ _ _ Hb x ply r s0 n).
    + apply (g_self _ _ _ _ Hb y ply r s n); try done. by apply other_slot.
Qed.
End GoodAfter.

Lemma bind_rebound x pl v st : rebound st (bind sites x pl v st) x pl v.
Proof.
  split; simpl; auto.
  - by rewrite lookup_insert_eq.
  - intros y Hne. by rewrite lookup_insert_ne by congruence.
  - intros m. case_bool_decide; [|by left]. intros Hm. apply elem_of_union in Hm as [Hm|?]; [right|by left].
    split; [done|]. destruct (prim v); simpl in Hm; try by apply elem_of_empty in Hm. apply elem_of_singleton in Hm. congruence.
Qed.

Lemma good_own st p c a x : good p c st a -> replaces (fst a) = Some x -> x ∈ sites -> own st x (snd a).
Proof.
  intros Hg Hx Hs. pose proof (g_prim _ _ _ _ Hg x Hx Hs). destruct (prim (snd a)) as [| | |m] eqn:E; try done.
  - by left.
  - right. by left.
  - right. right. left. exists m. split; [done|]. apply (g_fresh _ _ _ _ Hg). unfold fresh_of. by rewrite Hx.
Qed.

(** What the slots are after the release that precedes a store. *)
Lemma swept_good p c st st1 a x pl s r : Inv p c st -> good p c st a -> fst a = KStore x pl -> x ∈ sites ->
  env st !! x = Some s -> find_record C x = Some r -> swept sites (fun y _ => y = x) st st1 ->
  own st1 x (snd a) /\ shares st1 x pl (snd a) /\ forall n, n ∈ objects (snd a) -> n ∉ freed st1.
Proof.
  intros Hi Hg Ha Hx Hs Hr [Hn Ho Hm Ht Hsl Hf]. assert (target (fst a) = Some (x, pl)) as Hta by (by rewrite Ha).
  assert (assigned (fst a) = Some (x, pl)) as Has by (by rewrite Ha).
  pose proof (g_count _ _ _ _ Hg x pl r Ha Hx Hr) as Hc.
  assert (forall n, n ∈ freed st1 -> n ∈ freed st \/ prim (s_value s) = Obj n) as Hfr.
  { intros n H. destruct (Hf n H) as [?|(z&s0&_&->&Hz&?)]; [by left|right]. by simplify_eq. }
  split; [|split].
  - destruct (good_own st p c a x Hg ltac:(by rewrite Ha) Hx) as [?|[?|[(m&Hq&Hu)|Hold]]]; [by left|by right; left| |].
    + right. right. left. exists m. split; [done|]. destruct Hu as (H1&H2&H3&H4&H5). unfold unused. rewrite Ho, Hm, Ht.
      split; [|split; [|done]].
      * intros y sy Hsy. destruct (Hsl y sy Hsy) as (s0&Hs0&_&_&[->| ->]); [by apply (H1 y)|apply no_value_objects].
      * intros Hfm. destruct (Hfr m Hfm) as [?|Hqs]; [done|]. apply (H1 x s Hs). unfold objects. apply elem_of_union_l.
        by apply prim_object.
    + destruct (prim (snd a)) as [| | |m] eqn:E; [by left|by right; left| |].
      * destruct (g_prim _ _ _ _ Hg x ltac:(by rewrite Ha) Hx E).
      * destruct Hold as (s0&Hs0&Hq). exfalso. rewrite Hs in Hs0. injection Hs0 as <-.
        apply (g_self _ _ _ _ Hg x pl r s m Has Hx Hr Hc Hs (eq_sym Hq)). unfold objects. apply elem_of_union_l.
        by apply prim_object.
  - intros z rz sz n Hz Hrz Hsz Hq Hne Hin. destruct (Hsl z sz Hsz) as (s0&Hs0&_&_&[Hv|Hv]); rewrite Hv in Hq; [|done].
    by apply (g_shares _ _ _ _ Hg x pl Hta z rz s0 n).
  - intros n Hin Hfn. destruct (Hfr n Hfn) as [?|Hq]; [by apply (g_freed _ _ _ _ Hg x pl n)|].
    by apply (g_self _ _ _ _ Hg x pl r s n).
Qed.

Lemma store_rebound st st1 x pl v s r : x ∈ sites -> env st !! x = Some s -> find_record C x = Some r ->
  (1 < binding_count r)%nat -> swept sites (fun y _ => y = x) st st1 ->
  (forall y, y <> x -> env st1 !! y = env st !! y) -> rebound st (bind sites x pl v st1) x pl v.
Proof.
  intros Hx Hs Hr Hc [Hn Ho Hm Ht Hsl Hf] Hoth. destruct (bind_rebound x pl v st1) as [B1 B2 B3 B4 B5 B6 B7].
  split; try congruence.
  - intros y Hne. rewrite B2 by done. by apply Hoth.
  - intros m Hmm. destruct (B6 m Hmm) as [?|?]; [left; congruence|by right].
  - intros m Hmm. simpl in Hmm. destruct (Hf m Hmm) as [?|(z&s0&_&->&Hz&Hq)]; [by left|right].
    rewrite Hs in Hz. injection Hz as <-. by exists s, r.
Qed.

Lemma release_slot_others x s st st' f y : release_slot x s st = (st', f) -> y <> x -> env st' !! y = env st !! y.
Proof.
  unfold release_slot. intros H Hne. destruct (prim (s_value s)); try case_bool_decide; simplify_eq; try done.
  simpl. by rewrite lookup_insert_ne by congruence.
Qed.

Definition keeps (p : Place) (c : Collected) (st : State) (a : Kind * Value) (st' : State) : Prop :=
  Inv p c st' /\ temps st' = temps st /\ forall b, good p c st b -> apart a b -> good p c st' b.

Lemma keep_store p c st x pl v : Inv p c st -> good p c st (KStore x pl, v) ->
  exists st', process (KStore x pl, v) st = (st', None) /\ keeps p c st (KStore x pl, v) st'.
Proof.
  intros Hi Hg. destruct (g_slot _ _ _ _ Hg x pl eq_refl) as (s&Hs&Hl&Hp). unfold process. simpl. rewrite Hs.
  destruct (g_fits _ _ _ _ Hg x pl eq_refl) as (Hfb&Hfd&r&Hr&Hat).
  assert (forall s0, assigned (KStore x pl) = Some (x, pl) -> env st !! x = Some s0 -> s_place s0 = pl) as Hpl
    by (intros; simplify_eq; done).
  case_bool_decide as Hx.
  - pose proof (g_count _ _ _ _ Hg x pl r eq_refl Hx Hr) as Hc.
    destruct (release_inv p c st x s r Hi Hx Hr Hc Hs) as (st1&Heq&Hi1&Hsw&_). rewrite Heq. simpl. eexists. split; [done|].
    destruct (swept_good p c st st1 (KStore x pl, v) x pl s r Hi Hg eq_refl Hx Hs Hr Hsw) as (Ho&Hsh&Hf).
    split; [apply (bind_inv p c st1 x pl v Hi1 (g_fits _ _ _ _ Hg x pl eq_refl) (fun _ => Ho) Hsh)|].
    { intros n Hn. split; [|by apply Hf]. rewrite (sw_next _ _ _ _ Hsw). by apply (g_next _ _ _ _ Hg). }
    split; [apply (sw_temps _ _ _ _ Hsw)|]. intros b Hb Hab.
    apply (good_after p c st _ x pl v (KStore x pl, v) b); auto.
    + apply (store_rebound st st1 x pl v s r); try done. intros y. by eapply release_slot_others.
    + intros m Hq _. left. by split.
  - simpl. eexists. split; [done|]. split; [apply bind_inv; try done|].
    + by apply (g_fits _ _ _ _ Hg).
    + apply (g_shares _ _ _ _ Hg x pl eq_refl).
    + intros n Hn. split; [by apply (g_next _ _ _ _ Hg)|by apply (g_freed _ _ _ _ Hg x pl n)].
    + split; [done|]. intros b Hb Hab. apply (good_after p c st _ x pl v (KStore x pl, v) b); auto.
      * apply bind_rebound.
      * intros m Hq Hxs. done.
Qed.

Lemma keep_grow p c st x pl v : Inv p c st -> good p c st (KGrow x pl, v) ->
  exists st', process (KGrow x pl, v) st = (st', None) /\ keeps p c st (KGrow x pl, v) st'.
Proof.
  intros Hi Hg. destruct (g_slot _ _ _ _ Hg x pl eq_refl) as (s&Hs&Hl&Hp). unfold process. simpl. rewrite Hs.
  eexists. split; [done|]. split; [apply bind_inv; try done|split; [done|]].
  - by apply (g_fits _ _ _ _ Hg).
  - intros _. right. right. right. by exists s.
  - intros z r sz n Hz Hr Hsz Hq Hne Hn. apply grow_objects in Hn as [Hn|Hn].
    + rewrite <- Hp. by apply (i_holders _ _ _ Hi z r sz n x s).
    + by apply (g_shares _ _ _ _ Hg x pl eq_refl z r sz n).
  - intros n Hn. apply grow_objects in Hn as [Hn|Hn].
    + split; [by eapply objects_bound|by apply (i_reads _ _ _ Hi x s n)].
    + split; [by apply (g_next _ _ _ _ Hg)|by apply (g_freed _ _ _ _ Hg x pl n)].
  - intros b Hb Hab. apply (good_after p c st _ x pl (grow (s_value s) v) (KGrow x pl, v) b); auto.
    + apply bind_rebound.
    + intros n Hn. apply grow_objects in Hn as [Hn|Hn]; [right; by exists s|by left].
    + intros m Hq _. right. by exists s.
    + intros s0 _ Hs0. congruence.
Qed.

Lemma keep_declare p c st x pl v : Inv p c st -> good p c st (KDeclare x pl, v) ->
  keeps p c st (KDeclare x pl, v) (bind sites x pl v st).
Proof.
  intros Hi Hg. split; [apply bind_inv; try done|split; [done|]].
  - by apply (g_fits _ _ _ _ Hg).
  - by apply (good_own st p c (KDeclare x pl, v)).
  - apply (g_shares _ _ _ _ Hg x pl eq_refl).
  - intros n Hn. split; [by apply (g_next _ _ _ _ Hg)|by apply (g_freed _ _ _ _ Hg x pl n)].
  - intros b Hb Hab. apply (good_after p c st _ x pl v (KDeclare x pl, v) b); auto.
    + apply bind_rebound.
    + intros m Hq Hx. left. by split.
    + done.
Qed.

Lemma keep_out p c st v : Inv p c st -> good p c st (KOut, v) -> keeps p c st (KOut, v) (put_outside (objects v) st).
Proof.
  intros Hi Hg. split; [|split; [done|]].
  - apply put_outside_inv; [|done]. intros m Hm Hin. pose proof (g_next _ _ _ _ Hg m Hin). lia.
  - intros b [B1 B2 B3 B4 B5 B6 B7 B8 B9] Hab. split; auto. intros m Hf. destruct (B5 m Hf) as (H1&H2&H3&H4&H5).
    repeat split; auto. simpl. apply not_elem_of_union. split; [|done]. by apply (ap_right _ _ Hab).
Qed.

Lemma process_ok p c st a : Inv p c st -> good p c st a ->
  exists st', process a st = (st', None) /\ keeps p c st a st'.
Proof.
  destruct a as [[x pl|x pl|x pl| |] v]; intros Hi Hg.
  - eexists. split; [done|]. by apply keep_declare.
  - by apply keep_store.
  - by apply keep_grow.
  - eexists. split; [done|]. by apply keep_out.
  - eexists. split; [done|]. split; [done|]. split; [done|]. by intros.
Qed.

Fixpoint process_all (l : list (Kind * Value)) (st : State) : State * option Fault :=
  match l with [] => (st, None) | a :: l => and_then (process a st) (process_all l) end.

Lemma process_all_ok p c l st : Inv p c st -> Forall (good p c st) l -> ForallOrdPairs apart l ->
  exists st', process_all l st = (st', None) /\ Inv p c st' /\ temps st' = temps st.
Proof.
  intros Hi Hg Ha. revert st Hi Hg. induction Ha as [|a l Hal _ IH]; intros st Hi Hg; simpl; [by exists st|].
  inversion Hg as [|? ? Hga Hgl]; subst. destruct (process_ok p c st a Hi Hga) as (st1&->&Hi1&Ht1&Hk). simpl.
  destruct (IH st1 Hi1) as (st2&->&Hi2&Ht2).
  - rewrite Forall_forall in *. intros b Hb. apply Hk; auto.
  - exists st2. split; [done|]. split; [done|]. congruence.
Qed.
End Invariant.
