(* ===== verification/ReleaseSteps.v ===== *)
(** * ReleaseSteps: one statement's evaluations and stores.

    A statement first evaluates, then binds: [batch] is a sequence of evaluations with what is to
    be done with each value, [batch_ok] that all of it may be done.  [leave_ok] is the end of a
    scope: the approved locals of the scope are released, and its names are gone. *)
From Stdlib Require Import ZArith Lia Ascii String Bool.
From stdpp Require Import base list numbers option strings gmap.
From S2P Require Import Prelude Token Escape EscapePasses EscapeFacts Release ReleaseSem ReleaseFacts.
From S2P Require Import ReleaseFlow ReleaseRuns ReleaseInv.
Local Open Scope Z_scope.

(** ** Evaluations leave the slots alone *)
Record later (st st' : State) : Prop := {
  la_env : env st' = env st;
  la_next : (next st <= next st')%nat;
  la_freed : freed st' = freed st;
  la_mine : mine st' = mine st;
  la_temps : temps st' = temps st;
  la_wider : outside st ⊆ outside st';
  la_outside : forall n, n ∈ outside st' -> n ∈ outside st \/
    exists x s, env st !! x = Some s /\ n ∈ objects (s_value s)
}.

#[global] Instance later_preorder : PreOrder later.
Proof.
  split.
  - intros st. split; auto.
  - intros a b c [E1 N1 F1 M1 T1 W1 O1] [E2 N2 F2 M2 T2 W2 O2]. split; try congruence; [lia|set_solver|].
    intros n Hn. destruct (O2 n Hn) as [?|(x&s&Hs&?)]; [by apply O1|]. right. exists x, s. by rewrite <- E1.
Qed.

Lemma evaluated_later st e st' : evaluated st e st' -> later st st' /\ next st' = S (next st).
Proof.
  intros [out _ Hw Ho]. split; [|done]. split; simpl; auto. intros n Hn. destruct (Ho n Hn) as [?|(x&v&_&Hv&Hi)]; [by left|].
  apply live_value_slot in Hv as (s&Hs&_&<-). right. by exists x, s.
Qed.

Lemma evaluateds_later st es st' : evaluateds st es st' -> later st st'.
Proof. induction 1 as [|????? H _ IH]; [done|]. etransitivity; [by eapply evaluated_later|done]. Qed.

Lemma evaluateds_next st es st' : evaluateds st es st' -> es <> [] -> (S (next st) <= next st')%nat.
Proof.
  destruct 1 as [|????? H Hr]; [done|]. intros _. apply evaluated_later in H as [_ <-].
  apply (la_next _ _ (evaluateds_later _ _ _ Hr)).
Qed.

Lemma later_unused st st' m : later st st' -> unused st m -> unused st' m.
Proof.
  intros [He _ Hf Hm Ht _ Ho] (H1&H2&H3&H4&H5). unfold unused. rewrite He, Hf, Hm, Ht. repeat split; auto.
  intros Hin. destruct (Ho m Hin) as [?|(x&s&Hs&?)]; [done|by apply (H1 x s)].
Qed.

Lemma later_confined st st' : later st st' -> confined st' -> confined st.
Proof. intros [_ _ _ Hm _ Hw _]. apply confined_wider. split; [done|by rewrite Hm]. Qed.

(** ** The declarations of a statement, blanks left out *)
Fixpoint declares_as (p : Place) (xs : list string) (vs : list Value) : list (Kind * Value) :=
  match xs, vs with
  | x :: xs, v :: vs =>
      if (x =? "_")%string then declares_as p xs vs else (KDeclare x p, v) :: declares_as p xs vs
  | _, _ => []
  end.

Lemma declares_as_in p xs vs a : a ∈ declares_as p xs vs -> exists x, fst a = KDeclare x p /\ x ∈ flat_map one_name xs.
Proof.
  revert vs. induction xs as [|x xs IH]; intros [|v vs]; simpl; try (intros Hin; set_solver). unfold one_name at 1.
  destruct (x =? "_")%string; [apply IH|]. intros Hin. apply elem_of_cons in Hin as [->|Hin]; [exists x; set_solver|].
  destruct (IH vs Hin) as (y&?&?). exists y. set_solver.
Qed.

Section Steps.
  Context {C : Collected} {pe : option (list ParamEscapeSummary)} {sites : list string}.
  Context {fresh_call shadowed : string -> bool} {HA : Approvals C pe sites fresh_call shadowed}.
  Abbreviation Inv := (@Inv C sites).
  Abbreviation good := (@good C sites).
  Abbreviation apart := (@apart sites).
  Abbreviation process := (@process sites).
  Abbreviation process_all := (@process_all sites).
  Abbreviation holds := (may_hold fresh_call shadowed).
  Abbreviation holds_any := (holds_any fresh_call shadowed).
  Abbreviation held := (held fresh_call shadowed).
  Abbreviation value_of := (value_of fresh_call shadowed).
  Abbreviation flow_ok := (flow_ok C sites fresh_call shadowed).

Lemma later_inv p c st st' : later st st' -> Inv p c st -> Inv p c st'.
Proof.
  intros Hl Hi. pose proof (fun m Hm => later_unused st st' m Hl (i_bound _ _ _ Hi m Hm)) as Hu.
  destruct Hi as [[Hp Hd] ? Hk Hlv Hb Hm Hr Hh Ht], Hl as [He Hn Hf Hmi Htm Hw Ho].
  split; rewrite ?He, ?Hf, ?Hmi, ?Htm; auto.
  - split; rewrite ?He; [|done]. intros x s Hx Hs. specialize (Hp x s Hx Hs). unfold releasable in *. by rewrite Hf, Hmi.
  - intros m Hmm. apply Hu. lia.
Qed.

(** ** Where a value's objects come from *)
Definition taken (st : State) (es : list Expr) (v : Value) : Prop :=
  forall n, n ∈ objects v -> n = next st \/ held st es n.

Definition own_fresh (st : State) (v : Value) : Prop :=
  prim v = Nil \/ prim v = Immortal \/ prim v = Obj (next st).

Lemma value_of_taken arena st e v : value_of arena st e v -> taken st [e] v.
Proof.
  unfold value_of, taken, objects. intros Hv n Hn. destruct (is_static e).
  - destruct Hv as [[Hq|Hq] Hc]; rewrite Hq, Hc in Hn; simpl in Hn; set_solver.
  - destruct (allocates _ _ e); [|right; by apply Hv]. destruct Hv as [Hq Hc].
    apply elem_of_union in Hn as [Hn|Hn]; [|right; by apply Hc]. left.
    destruct Hq as [Hq|[Hq|[Hq|[_ Hq]]]]; rewrite Hq in Hn; simpl in Hn; set_solver.
Qed.

Lemma value_of_own st e v : bound_safely fresh_call shadowed e -> value_of false st e v -> own_fresh st v.
Proof.
  unfold value_of, own_fresh. intros [Hs|Ha] Hv; [rewrite Hs in Hv; tauto|].
  destruct (is_static e); [tauto|]. rewrite Ha in Hv. destruct Hv as [[?|[?|[?|[? _]]]] _]; auto. done.
Qed.

(** ** One evaluation and what is done with its value *)
Record sourced (p : Place) (c : Collected) (st : State) (a : Kind * Value) (es : list Expr) (hidden : bool) : Prop := {
  so_taken : taken st es (snd a);
  so_target : forall x pl, target (fst a) = Some (x, pl) -> x <> "_"%string /\ fits (C := C) p c x pl /\
    flow_ok (mkFlow (Some x) es hidden) = true /\
    (forall z sz, holds_any z es = true -> env st !! z = Some sz -> s_live sz = true ->
       pl_block (s_place sz) <= pl_block pl \/ marked C z) /\
    (hidden = false -> forall e, e ∈ es -> exists ry, find_record C x = Some ry /\ e ∈ lr_values ry);
  so_slot : forall x pl, assigned (fst a) = Some (x, pl) ->
    exists s, env st !! x = Some s /\ s_live s = true /\ s_place s = pl;
  so_own : forall x, replaces (fst a) = Some x -> x ∈ sites -> own_fresh st (snd a);
  so_count : forall x pl r, fst a = KStore x pl -> x ∈ sites -> find_record C x = Some r -> (1 < binding_count r)%nat;
  so_safe : forall x pl r, assigned (fst a) = Some (x, pl) -> x ∈ sites -> find_record C x = Some r ->
    (1 < binding_count r)%nat -> hidden = false -> forall e, e ∈ es -> value_is_release_safe C pe e = true
}.

Lemma fresh_of_objects a m : fresh_of (sites := sites) a m -> m ∈ objects (snd a).
Proof using.
  unfold fresh_of, objects. destruct (replaces (fst a)); [|done]. intros [_ Hq]. apply elem_of_union_l. by apply prim_object.
Qed.

Section Item.
  Context (p : Place) (c : Collected) (st : State) (a : Kind * Value) (es : list Expr) (hidden : bool).
  Context (Hi : Inv p c st) (Hcf : confined st) (Hs : sourced p c st a es hidden).

Lemma held_old n : held st es n -> n ∈ outside st \/ exists x s, env st !! x = Some s /\ s_live s = true /\ n ∈ objects (s_value s).
Proof.
  intros [?|(e&z&v&_&_&Hv&Hn)]; [by left|right]. apply live_value_slot in Hv as (s&?&?&<-). by exists z, s.
Qed.

Lemma held_next n : held st es n -> (n < next st)%nat.
Proof.
  intros Hh. destruct (held_old n Hh) as [Ho|(x&s&Hx&_&Hn)]; [|by eapply objects_bound].
  destruct (Nat.le_gt_cases (next st) n) as [Hle|]; [|done]. by destruct (i_bound _ _ _ Hi n Hle) as (_&_&_&?&_).
Qed.

Lemma held_unfreed n : held st es n -> n ∉ freed st.
Proof.
  intros Hh Hf. destruct (held_old n Hh) as [Ho|(x&s&Hx&Hl&Hn)]; [|by apply (i_reads _ _ _ Hi x s n)].
  apply (Hcf n Ho). by apply (i_mine _ _ _ Hi).
Qed.

Lemma next_unused : unused st (next st).
Proof. by apply (i_bound _ _ _ Hi). Qed.

Lemma fresh_of_next m : fresh_of (sites := sites) a m -> m = next st.
Proof.
  unfold fresh_of. destruct (replaces (fst a)) as [x|] eqn:E; [|done]. intros [Hx Hm].
  destruct (so_own _ _ _ _ _ _ Hs x E Hx) as [Hq|[Hq|Hq]]; congruence.
Qed.

Lemma slot_not_next x s : env st !! x = Some s -> prim (s_value s) = Obj (next st) -> False.
Proof.
  intros Hx Hq. apply (proj1 next_unused x s Hx). unfold objects. apply elem_of_union_l. by apply prim_object.
Qed.

Lemma item_good st' : later st st' -> (forall n, n ∈ objects (snd a) -> (n < next st')%nat) -> good p c st' a.
Proof.
  intros Hl Hnx. destruct Hs as [Htk Htg Hsl Hown Hcnt Hsafe]. pose proof Hl as [He _ Hf _ _ _ _].
  split; rewrite ?He, ?Hf.
  - exact Hnx.
  - intros x pl n _ Hn. destruct (Htk n Hn) as [->|Hh]; [apply next_unused|by apply held_unfreed].
  - intros x pl Hx. by apply Htg.
  - exact Hsl.
  - intros m Hm. eapply later_unused; [done|]. rewrite (fresh_of_next m Hm). apply next_unused.
  - intros x Hx Hxs Hq. destruct (Hown x Hx Hxs) as [?|[?|?]]; congruence.
  - intros x pl Hx z r sz n Hz Hr Hsz Hq Hne Hn. rewrite He in Hsz. destruct (Htk n Hn) as [->|Hh]; [by destruct (slot_not_next z sz)|].
    destruct (Htg x pl Hx) as (Hb&(_&_&Hfit)&Hok&Hd&Hrec). by apply (share p c st Hi Hcf x pl es hidden Hok Hb Hd Hrec Hfit n z r sz).
  - exact Hcnt.
  - intros x pl r s n Hx Hxs Hr Hc Hsz Hq Hn. destruct (Htk n Hn) as [->|Hh]; [by destruct (slot_not_next x s)|].
    assert (target (fst a) = Some (x, pl)) as Hx' by (by destruct (fst a)).
    destruct (Htg x pl Hx') as (Hb&(_&_&Hfit)&Hok&Hd&Hrec).
    by apply (no_self p c st Hi Hcf x es hidden Hok Hb n r s Hxs Hr Hc (Hsafe x pl r Hx Hxs Hr Hc)).
Qed.
End Item.

(** *** Several *)
Inductive batch (p : Place) (c : Collected) : State -> list (Kind * Value) -> State -> Prop :=
| batch_nil st : batch p c st [] st
| batch_cons st a es hidden l st1 st2 : sourced p c st a es hidden -> later st st1 ->
    (forall n, n ∈ objects (snd a) -> (n < next st1)%nat) -> batch p c st1 l st2 -> batch p c st (a :: l) st2
| batch_skip st l st1 st2 : later st st1 -> batch p c st1 l st2 -> batch p c st l st2.

Lemma batch_later p c st l st' : batch p c st l st' -> later st st'.
Proof using. induction 1 as [|??????????? IH|?????? IH]; [done|by etransitivity..]. Qed.

(** What an item of a later evaluation can hold of an earlier state. *)
Definition since (st : State) (b : Kind * Value) : Prop :=
  (forall n, n ∈ objects (snd b) -> (n < next st)%nat ->
     n ∈ outside st \/ exists x s, env st !! x = Some s /\ n ∈ objects (s_value s)) /\
  forall m, fresh_of (sites := sites) b m -> (next st <= m)%nat.

Lemma since_later st st' b : later st st' -> since st' b -> since st b.
Proof using.
  intros Hl [Ho Hf]. pose proof (la_next _ _ Hl). split.
  - intros n Hn Hlt. destruct (Ho n Hn ltac:(lia)) as [Hout|Hin]; [by apply (la_outside _ _ Hl)|right]. by rewrite <- (la_env _ _ Hl).
  - intros m Hm. specialize (Hf m Hm). lia.
Qed.

Lemma batch_since p c st l st' : batch p c st l st' -> Forall (since st) l.
Proof.
  induction 1 as [|st a es hidden l st1 st2 Hs Hl Hn _ IH|st l st1 st2 Hl _ IH]; [constructor|constructor|].
  - split; [|intros m Hm; by rewrite (fresh_of_next p c st a es hidden Hs m Hm)].
    intros n Hin Hlt. destruct (so_taken _ _ _ _ _ _ Hs n Hin) as [->|Hh]; [lia|].
    destruct (held_old st es n Hh) as [?|(x&s&?&_&?)]; [by left|right; by exists x, s].
  - eapply Forall_impl; [exact IH|]. intros b. by apply since_later.
  - eapply Forall_impl; [exact IH|]. intros b. by apply since_later.
Qed.

Lemma batch_good p c st l st' : Inv p c st -> confined st' -> batch p c st l st' -> Forall (good p c st') l.
Proof.
  intros Hi Hcf Hb. induction Hb as [|st a es hidden l st1 st2 Hs Hl Hn Hb IH|st l st1 st2 Hl Hb IH]; [constructor|constructor|].
  - pose proof (batch_later _ _ _ _ _ Hb) as Hl'. assert (later st st2) as Hl2 by (by etransitivity).
    apply (item_good p c st a es hidden Hi (later_confined _ _ Hl2 Hcf) Hs st2 Hl2).
    intros n Hin. specialize (Hn n Hin). pose proof (la_next _ _ Hl'). lia.
  - apply IH; [by eapply later_inv|done].
  - apply IH; [by eapply later_inv|done].
Qed.

Definition names_apart (a b : Kind * Value) : Prop := forall x pl pl',
  target (fst a) = Some (x, pl) -> target (fst b) = Some (x, pl') ->
  assigned (fst a) = Some (x, pl) /\ assigned (fst b) = Some (x, pl').

Lemma batch_apart p c st l st' : Inv p c st -> batch p c st l st' -> ForallOrdPairs names_apart l ->
  ForallOrdPairs apart l.
Proof.
  intros Hi Hb. induction Hb as [|st a es hidden l st1 st2 Hs Hl Hn Hb IH|st l st1 st2 Hl Hb IH]; intros Hna;
    [constructor| |apply IH; [by eapply later_inv|done]].
  inversion Hna as [|? ? Hna1 Hna2]; subst. assert (Inv p c st1) as Hi1 by (by eapply later_inv).
  constructor; [|by apply IH]. rewrite Forall_forall in *. intros b Hin.
  pose proof (batch_since _ _ _ _ _ Hb) as Hsi. rewrite Forall_forall in Hsi. destruct (Hsi b Hin) as [Hso Hsf].
  split; [| |by apply Hna1].
  - intros m Hm Hmb. pose proof (fresh_of_next p c st a es hidden Hs m Hm) as ->.
    destruct (later_unused st st1 (next st) Hl (next_unused p c st Hi)) as (H1&_&_&H4&_).
    destruct (Hso _ Hmb (Hn _ (fresh_of_objects a _ Hm))) as [?|(x&s&Hx&?)]; [done|by apply (H1 x s)].
  - intros m Hm Hma. specialize (Hsf m Hm). specialize (Hn m Hma). lia.
Qed.

Lemma batch_ok p c st l st' : Inv p c st -> batch p c st l st' -> confined st' -> ForallOrdPairs names_apart l ->
  exists st2, process_all l st' = (st2, None) /\ Inv p c st2 /\ temps st2 = temps st.
Proof.
  intros Hi Hb Hcf Hna. pose proof (batch_later _ _ _ _ _ Hb) as Hl.
  destruct (process_all_ok p c l st' (later_inv _ _ _ _ Hl Hi) (batch_good _ _ _ _ _ Hi Hcf Hb)
    (batch_apart _ _ _ _ _ Hi Hb Hna)) as (st2&?&?&Ht). exists st2. split; [done|]. split; [done|].
  by rewrite Ht, (la_temps _ _ Hl).
Qed.

(** Several bindings of one evaluation: at most one, or none of an approved local. *)
Lemma shared_ok p c st l st' : Inv p c st -> later st st' -> confined st' ->
  (forall a, a ∈ l -> (exists es hidden, sourced p c st a es hidden) /\ forall n, n ∈ objects (snd a) -> (n < next st')%nat) ->
  (length l <= 1)%nat \/ (forall a x, a ∈ l -> replaces (fst a) = Some x -> x ∉ sites) -> ForallOrdPairs names_apart l ->
  exists st2, process_all l st' = (st2, None) /\ Inv p c st2 /\ temps st2 = temps st.
Proof.
  intros Hi Hl Hcf Hall Hone Hna.
  destruct (process_all_ok p c l st' (later_inv _ _ _ _ Hl Hi)) as (st2&?&?&Ht).
  - rewrite Forall_forall. intros a Ha. destruct (Hall a Ha) as [(es&hidden&Hs) Hn].
    apply (item_good p c st a es hidden Hi (later_confined _ _ Hl Hcf) Hs st' Hl Hn).
  - destruct Hone as [Hlen|Hnone]; [destruct l as [|a [|b l]]; simpl in Hlen; [constructor|repeat constructor|lia]|].
    assert (forall a m, a ∈ l -> ~ fresh_of (sites := sites) a m) as Hnf.
    { intros a m Ha. unfold fresh_of. destruct (replaces (fst a)) as [x|] eqn:E; [|tauto]. intros [Hx _]. by apply (Hnone a x). }
    clear Hall. induction Hna as [|a l Hal _ IH]; constructor.
    + rewrite Forall_forall in *. intros b Hb. split; [intros m Hm|intros m Hm|by apply Hal].
      * destruct (Hnf a m); [set_solver|done].
      * destruct (Hnf b m); [set_solver|done].
    + apply IH; intros; [eapply Hnone|eapply Hnf]; set_solver.
  - exists st2. split; [done|]. split; [done|]. by rewrite Ht, (la_temps _ _ Hl).
Qed.

(** *** Stores as kinds *)
Definition kind_of (st : State) (t : Expr) (grow_it : bool) : Kind :=
  match t with
  | ENull => KDrop
  | Identifier x =>
      if (x =? "_")%string then KDrop else
      match env st !! x with
      | Some s => if s_live s then if grow_it then KGrow x (s_place s) else KStore x (s_place s) else KOut
      | None => KOut
      end
  | _ => KOut
  end.

Definition same_slots (st0 st : State) : Prop := forall x,
  (fun s => (s_live s, s_place s)) <$> env st !! x = (fun s => (s_live s, s_place s)) <$> env st0 !! x.

Lemma bind_same st0 st x v s : same_slots st0 st -> env st0 !! x = Some s -> s_live s = true ->
  same_slots st0 (bind sites x (s_place s) v st).
Proof using.
  intros Hs Hx Hl y. simpl. destruct (String.eq_dec x y) as [<-|Hne]; [|by rewrite lookup_insert_ne].
  rewrite lookup_insert_eq, Hx. simpl. by rewrite Hl.
Qed.

Lemma release_same st0 st x s st' f : same_slots st0 st -> env st !! x = Some s -> release_slot x s st = (st', f) ->
  same_slots st0 st'.
Proof using.
  intros Hs Hx Hr y. rewrite <- Hs. unfold release_slot in Hr. destruct (prim (s_value s)); try case_bool_decide; simplify_eq; try done.
  simpl. destruct (String.eq_dec x y) as [<-|Hne]; [by rewrite lookup_insert_eq, Hx|by rewrite lookup_insert_ne].
Qed.

Lemma store_process st0 st t g v : same_slots st0 st -> store sites t g v st = process (kind_of st0 t g, v) st.
Proof using.
  intros Hs. unfold process, ReleaseInv.process. destruct t; try done. simpl. destruct (name =? "_")%string; [done|].
  specialize (Hs name). destruct (env st !! name) as [s|] eqn:E, (env st0 !! name) as [s0|]; try done.
  simpl in Hs. injection Hs as -> ->. destruct (s_live s0); [|done]. destruct g; simpl; by rewrite E.
Qed.

Lemma process_same st0 st t g v st' f : same_slots st0 st -> process (kind_of st0 t g, v) st = (st', f) -> same_slots st0 st'.
Proof using.
  unfold process, ReleaseInv.process. intros Hs. destruct t; simpl; try by intros [= <- _].
  destruct (name =? "_")%string; [by intros [= <- _]|].
  destruct (env st0 !! name) as [s0|] eqn:E0; [|by intros [= <- _]]. destruct (s_live s0) eqn:El; [|by intros [= <- _]].
  destruct g; simpl; destruct (env st !! name) as [s|] eqn:E; try by intros [= <- _].
  - intros [= <- _]. by eapply bind_same.
  - case_bool_decide; simpl; [|intros [= <- _]; by eapply bind_same].
    destruct (release_slot name s st) as [st1 [w|]] eqn:Er; simpl; intros [= <- _].
    + by eapply release_same.
    + eapply bind_same; [by eapply release_same|done..].
Qed.

Definition stores (st : State) (bs : list (Expr * Expr)) (vs : list Value) : list (Kind * Value) :=
  zip (map (fun b => kind_of st (fst b) (grows (fst b) (snd b))) bs) vs.

Lemma store_all_process st0 bs vs st : same_slots st0 st -> store_all sites bs vs st = process_all (stores st0 bs vs) st.
Proof using.
  revert vs st. induction bs as [|[t e] bs IH]; intros [|v vs] st Hs; simpl; try done.
  rewrite (store_process st0) by done. destruct (ReleaseInv.process _ _) as [st1 [w|]] eqn:E; simpl; [done|].
  apply IH. by eapply process_same.
Qed.

Lemma kind_of_env st st' t g : env st = env st' -> kind_of st t g = kind_of st' t g.
Proof using. intros He. unfold kind_of. by rewrite He. Qed.

Lemma same_later st st' : later st st' -> same_slots st st'.
Proof using. intros Hl x. by rewrite (la_env _ _ Hl). Qed.

Lemma kind_of_assigned st t g x pl : target (kind_of st t g) = Some (x, pl) ->
  assigned (kind_of st t g) = Some (x, pl) /\ t = Identifier x /\ x <> "_"%string /\
  exists s, env st !! x = Some s /\ s_live s = true /\ s_place s = pl.
Proof using.
  destruct t; simpl; try done. destruct (String.eqb_spec name "_") as [->|Hb]; [done|].
  destruct (env st !! name) as [s|] eqn:E; [|done]. destruct (s_live s) eqn:El; [|done].
  destruct g; intros [= <- <-]; (split; [done|split; [done|split; [done|by exists s]]]).
Qed.

Lemma stores_apart st bs vs : ForallOrdPairs names_apart (stores st bs vs).
Proof.
  unfold stores. revert vs. induction bs as [|[t e] bs IH]; intros [|v vs]; simpl; try constructor; [|apply IH].
  rewrite Forall_forall. intros [k v'] Hin x pl pl' Ht Hk. simpl in *. split; [by apply kind_of_assigned|].
  apply elem_of_zip_l in Hin. apply list_elem_of_In, in_map_iff in Hin as ([t' e']&<-&_). by apply kind_of_assigned.
Qed.

(** *** Declarations as kinds *)
Lemma declare_all_process p xs vs st : process_all (declares_as p xs vs) st = (declare_all sites p xs vs st, None).
Proof using.
  revert vs st. induction xs as [|x xs IH]; intros [|v vs] st; simpl; try done. unfold declare.
  destruct (x =? "_")%string; [apply IH|]. simpl. apply IH.
Qed.

Lemma declares_apart p xs vs : NoDup (flat_map one_name xs) -> ForallOrdPairs names_apart (declares_as p xs vs).
Proof.
  revert vs. induction xs as [|x xs IH]; intros [|v vs]; simpl; try constructor. unfold one_name at 1.
  destruct (x =? "_")%string; [apply IH|]. simpl. intros Hnd. apply NoDup_cons in Hnd as [Hx Hnd].
  constructor; [|by apply IH]. rewrite Forall_forall. intros b Hb y pl pl' Ha Ht. destruct (declares_as_in _ _ _ _ Hb) as (z&Hz&Hin).
  simpl in Ha. rewrite Hz in Ht. simpl in Ht. simplify_eq. done.
Qed.

(** ** The ends of scopes *)
Lemma inv_lower p q c st : 0 <= pl_block p -> Inv q c st ->
  (forall x s, env st !! x = Some s -> s_live s = true -> pl_block (s_place s) <= pl_block p) ->
  (forall k, k ∈ temps st -> k_depth k < pl_block p) -> Inv p c st.
Proof using.
  intros Hp [? _ ? Hl ? ? ? ? Ht] Hlow Hk. split; auto.
  - intros x s Hs Hv. destruct (Hl x s Hs Hv). split; [done|by apply (Hlow x s)].
  - intros k Hin. split; [by apply Hk|by apply (Ht k)].
Qed.

Lemma kill_low d st x s : env (kill d st) !! x = Some s -> s_live s = true -> pl_block (s_place s) <= d.
Proof using.
  intros Hs Hl. destruct (close_lookup _ _ _ _ Hs) as (s0&_&_&->&H). destruct (H Hl) as [_ He].
  unfold ends_scope in He. by apply Z.ltb_ge in He.
Qed.

Lemma kill_inv p q c st : 0 <= pl_block p -> Inv q c st -> (forall k, k ∈ temps st -> k_depth k < pl_block p) ->
  Inv p c (kill (pl_block p) st).
Proof using. intros Hp Hi Hk. eapply inv_lower; [done|by apply close_inv|apply kill_low|done]. Qed.

Lemma close_exit_ok ends st : exit_ok sites st -> exit_ok sites (close ends st).
Proof using.
  intros [Hp Hd]. split.
  - intros x s Hx Hs. destruct (close_lookup _ _ _ _ Hs) as (s0&Hs0&->&_). by apply (Hp x).
  - intros x y sx sy n Hx Hy Hne Hsx Hsy. destruct (close_lookup _ _ _ _ Hsx) as (s0&Hs0&->&_),
      (close_lookup _ _ _ _ Hsy) as (s1&Hs1&->&_). by apply (Hd x y).
Qed.

(** A local that lives on past the end of an iteration is no approved one's holder. *)
Definition stays (d : Z) (pl : Place) : Prop := pl_block pl <= d \/ (pl_block pl = d + 1 /\ pl_header pl = true).

Lemma kill_iteration_stays d st x s : env (kill_iteration d st) !! x = Some s -> s_live s = true -> stays d (s_place s).
Proof using.
  intros Hs Hl. destruct (close_lookup _ _ _ _ Hs) as (s0&_&_&->&H). destruct (H Hl) as [_ He].
  unfold ends_iteration in He. apply orb_false_iff in He as [H1 H2]. apply Z.ltb_ge in H1.
  destruct (Z.eqb_spec (pl_block (s_place s0)) (d + 1)); [right|left; lia]. split; [done|].
  simpl in H2. by destruct (pl_header (s_place s0)).
Qed.

Section Leave.
  Context (p : Place) (c : Collected) (st st' : State) (d : Z) (Hi : Inv p c st) (Hd : 0 <= d) (Hp : pl_block p = d + 1).
  Context (Hsw : swept sites (fun _ s => d < pl_block (s_place s)) st st').

(** What was released belonged to a local of the scope. *)
Lemma swept_freed n : n ∈ freed st' -> n ∈ freed st \/ exists x s r, x ∈ sites /\ env st !! x = Some s /\
  prim (s_value s) = Obj n /\ find_record C x = Some r /\ d < block_depth r /\ loop_header (r) = false /\
  pl_block (s_place s) = block_depth r /\ pl_header (s_place s) = loop_header r.
Proof.
  intros Hn. destruct (sw_freed _ _ _ _ Hsw n Hn) as [?|(x&s&Hx&Hlt&Hs&Hq)]; [by left|right].
  destruct (i_known _ _ _ Hi x s Hs) as (r&Hr&_&Hb&_&Hh). exists x, s, r.
  pose proof (approved_record x r Hx Hr) as Ha. simpl in Hlt. rewrite <- Hb in Hlt.
  destruct (ap_loop _ _ _ _ Ha ltac:(lia)) as (?&_&_). done.
Qed.

Lemma stays_unfreed x s n : env st !! x = Some s -> s_live s = true -> stays d (s_place s) -> n ∈ objects (s_value s) ->
  n ∉ freed st'.
Proof.
  intros Hs Hl Hst Hn Hf. destruct (swept_freed n Hf) as [?|(y&sy&r&Hy&Hsy&Hq&Hr&Hlt&Hh&Hb&Hhp)];
    [by apply (i_reads _ _ _ Hi x s n)|].
  destruct (String.eq_dec x y) as [->|Hne].
  - rewrite Hs in Hsy. injection Hsy as <-. destruct Hst as [?|[_ ?]]; [lia|congruence].
  - destruct (i_holders _ _ _ Hi y r sy n x s Hy Hr Hsy Hq Hne Hs Hl Hn) as [_ H].
    destruct (H ltac:(lia)) as (Hle&_&Hhd). destruct Hst as [?|[? Hh']]; [lia|]. specialize (Hhd Hh'). lia.
Qed.

Lemma leave_inv : exit_ok sites st' -> Inv p c (kill_iteration d st').
Proof.
  intros Hok. pose proof Hi as [_ Hpl Hk Hl Hb Hm Hr Hh Ht]. pose proof Hsw as [Hn Ho Hmi Htm Hsl _].
  assert (forall x s, env (kill_iteration d st') !! x = Some s -> exists s0, env st !! x = Some s0 /\
    s_place s = s_place s0 /\ (s_value s = s_value s0 \/ s_value s = no_value) /\ (s_live s = true -> s_live s0 = true)) as Hback.
  { intros x s Hs. destruct (close_lookup _ _ _ _ Hs) as (s1&Hs1&Hv&Hpl1&Hl1). destruct (Hsl x s1 Hs1) as (s0&Hs0&?&Hl0&Hv0).
    exists s0. split; [done|]. split; [congruence|]. split; [destruct Hv0; [left|right]; congruence|].
    intros Hl'. rewrite <- Hl0. by apply Hl1. }
  split; [by apply close_exit_ok|done| | | | | | |]; simpl; rewrite ?Hn, ?Htm.
  - intros x s Hs. destruct (Hback x s Hs) as (s0&Hs0&->&_). by apply Hk.
  - intros x s Hs Hv. destruct (Hback x s Hs) as (s0&Hs0&->&_&Hlv). apply (Hl x s0 Hs0). by apply Hlv.
  - intros m Hmm. destruct (Hb m Hmm) as (H1&H2&H3&H4&H5). repeat split; simpl; rewrite ?Ho, ?Hmi, ?Htm; auto.
    + intros x s Hs. destruct (Hback x s Hs) as (s0&Hs0&_&[->| ->]&_); [by apply (H1 x)|apply no_value_objects].
    + intros Hf. destruct (sw_freed _ _ _ _ Hsw m Hf) as [?|(x&s&_&_&Hs&Hq)]; [done|]. apply (H1 x s Hs).
      unfold objects. apply elem_of_union_l. by apply prim_object.
  - rewrite Hmi. intros n Hf. destruct (sw_freed _ _ _ _ Hsw n Hf) as [?|(x&s&Hx&_&Hs&Hq)]; [by apply Hm|].
    by apply (site_mine p c st Hi x s n).
  - intros x s n Hs Hlv Hin. destruct (Hback x s Hs) as (s0&Hs0&Hpl0&[Hv|Hv]&Hl0); rewrite Hv in Hin; [|by apply no_value_objects in Hin].
    apply (stays_unfreed x s0 n); [done|by apply Hl0| |done]. rewrite <- Hpl0. by apply (kill_iteration_stays d st' x s).
  - intros x r sx n y sy Hx Hrx Hsx Hq Hne Hsy Hlv Hin. destruct (Hback x sx Hsx) as (s0&Hs0&_&[Hv0|Hv0]&_); rewrite Hv0 in Hq; [|done].
    destruct (Hback y sy Hsy) as (s1&Hs1&->&[Hv1|Hv1]&Hl1); rewrite Hv1 in Hin; [|by apply no_value_objects in Hin].
    apply (Hh x r s0 n y s1); try done. by apply Hl1.
  - intros k Hin. destruct (Ht k Hin) as [Hkd Hks]. split; [done|]. intros n Hnn. destruct (Hks n Hnn) as [Hnf Hx]. split.
    + intros Hf. destruct (swept_freed n Hf) as [?|(y&sy&r&Hy&Hsy&Hq&Hry&Hlt&_)]; [done|].
      destruct (Hx y r sy Hy Hry Hsy Hq) as (_&?&_). lia.
    + intros x r sx Hxs Hrx Hsx Hq. destruct (Hback x sx Hsx) as (s0&Hs0&_&[Hv|Hv]&_); rewrite Hv in Hq; [|done].
      by apply (Hx x r s0).
Qed.
End Leave.

Lemma leave_ok p c st d : Inv p c st -> 0 <= d -> pl_block p = d + 1 ->
  exists st', release_deeper d sites st = (st', None) /\ Inv p c (kill_iteration d st') /\ temps st' = temps st.
Proof.
  intros Hi Hd Hp. destruct (release_deeper_ok sites d sites st (fun _ H => H) (i_ok _ _ _ Hi)) as (st'&Heq&Hok&Hsw).
  exists st'. split; [done|]. split; [by eapply leave_inv|by apply (sw_temps _ _ _ _ Hsw)].
Qed.
End Steps.
