(* ===== verification/ReleaseWalk.v ===== *)
(** * ReleaseWalk: what the walk knows of the bindings of a statement.

    The walk visits a statement once, an execution may reach it often.  These lemmas turn what
    the walk recorded of a declaration or an assignment into what [ReleaseSteps] asks of its
    evaluations. *)
From Stdlib Require Import ZArith Lia Ascii String Bool.
From stdpp Require Import base list numbers option strings gmap.
From S2P Require Import Prelude Token Escape EscapePasses EscapeFacts Release ReleaseSem ReleaseFacts.
From S2P Require Import ReleaseFlow ReleaseRuns ReleaseInv ReleaseSteps.
Local Open Scope Z_scope.

Section Walk.
  Context {C : Collected} {pe : option (list ParamEscapeSummary)} {sites : list string}.
  Context {fresh_call shadowed : string -> bool} {HA : Approvals C pe sites fresh_call shadowed}.
  Abbreviation Inv := (@Inv C sites).
  Abbreviation holds_any := (holds_any fresh_call shadowed).
  Abbreviation flow_ok := (flow_ok C sites fresh_call shadowed).
  Abbreviation evals := (evals fresh_call shadowed).
  Abbreviation assign_evals := (assign_evals fresh_call shadowed).
  Abbreviation sourced := (@sourced C pe sites fresh_call shadowed).
  Abbreviation batch := (@batch C pe sites fresh_call shadowed).
  Abbreviation bound_safely := (bound_safely fresh_call shadowed).

(** ** Declarations *)
Definition known (pl : Place) (x : string) (e : Expr) : Prop :=
  exists r, find_record C x = Some r /\ at_place pl r /\ e ∈ lr_values r /\ bound_value r = e.

Lemma declaration_known pl x e c : x <> "_"%string -> ~ declares c x -> extends (note_declaration pl x e c) C ->
  known pl x e /\ declares (note_declaration pl x e c) x.
Proof.
  intros Hb Hn He. destruct (note_declaration_record pl x e c Hb) as (r&Hr&Hd&Hin&Hplace).
  destruct (Hplace Hn) as (Hv&Hbd&Har&Hlh). destruct (ex_records _ _ He _ _ Hr) as (r'&Hr'&Hle).
  destruct (le_declared _ _ Hle Hd) as (Hd'&Hbd'&Har'&Hlh'&Hv'). split; [|by exists r].
  exists r'. split; [done|]. split; [|split; [by apply (le_values _ _ Hle)|congruence]].
  split; [done|]. split; [congruence|]. split; congruence.
Qed.

Lemma known_safe pl x e : known pl x e -> x ∈ sites -> pl_arena pl <= 0 /\
  (value_is_release_safe C pe e = true \/ binding_is_owned C pe e = true).
Proof.
  intros (r&Hr&(_&_&Har&_)&Hin&Hv) Hx. pose proof (approved_record x r Hx Hr) as Ha.
  split; [rewrite <- Har; apply (ap_arena _ _ _ _ Ha)|]. destruct (Nat.le_gt_cases (binding_count r) 1) as [Hc|Hc].
  - right. rewrite <- Hv. by apply (ap_once _ _ _ _ Ha).
  - left. by eapply approved_values.
Qed.

Lemma known_bound pl x e : known pl x e -> x ∈ sites -> bound_safely e /\ in_arena_block pl = false.
Proof.
  intros Hk Hx. destruct (known_safe pl x e Hk Hx) as [Har Hs]. split; [|by apply Z.ltb_ge].
  destruct Hs as [Hs|Hs]; [by apply (safe_bound_safely C pe fresh_call shadowed ap_fresh ap_shadow)|right].
  by apply (owned_allocates C pe fresh_call shadowed ap_fresh ap_shadow).
Qed.

(** What an [if let], a type switch, a range loop or a case binds is not recorded. *)
Lemma known_null pl x : known pl x ENull -> x ∉ sites.
Proof. intros Hk Hx. by destruct (known_safe pl x ENull Hk Hx) as [_ [?|?]]. Qed.

Lemma sourced_declare q pl c c' st x v e es hidden : Inv q c st -> x <> "_"%string -> known pl x e -> declares c' x ->
  pl_block pl = pl_block q -> taken (fresh_call := fresh_call) (shadowed := shadowed) st es v ->
  flow_ok (mkFlow (Some x) es hidden) = true ->
  (hidden = false -> es = [e]) -> (x ∈ sites -> own_fresh st v) -> sourced q c' st (KDeclare x pl, v) es hidden.
Proof.
  intros Hi Hb (r&Hr&Hat&Hin&_) Hd Hpl Htk Hf Hes Hown. split; simpl; try done.
  - intros ? ? [= <- <-]. split; [done|]. split; [split; [lia|split; [done|by exists r]]|]. split; [done|]. split.
    + intros z sz _ Hz Hl. left. destruct (i_live _ _ _ Hi z sz Hz Hl). lia.
    + intros Hh e' He'. exists r. rewrite (Hes Hh) in He'. apply list_elem_of_singleton in He' as ->. done.
  - intros ? [= <-] Hx. by apply Hown.
Qed.

Lemma value_of_own_at pl x e st v : known pl x e -> x ∈ sites ->
  value_of fresh_call shadowed (in_arena_block pl) st e v -> own_fresh st v.
Proof.
  intros Hk Hx Hv. destruct (known_bound pl x e Hk Hx) as [Hbs Har]. rewrite Har in Hv. by eapply value_of_own.
Qed.

Lemma evaluated_bound p c st e st' v es : Inv p c st -> evaluated st e st' ->
  taken (fresh_call := fresh_call) (shadowed := shadowed) st es v -> forall n, n ∈ objects v -> (n < next st')%nat.
Proof.
  intros Hi He Htk n Hn. apply evaluated_later in He as [_ ->]. destruct (Htk n Hn) as [->|Hh]; [lia|].
  pose proof (held_next p c st es Hi n Hh). lia.
Qed.

Lemma declarations_extends p ds c : extends c (note_declarations p ds c).
Proof using. apply (note_declarations_grown p ds c). Qed.

(** The walk of a declaration's names, one by one. *)
Record declaring (p : Place) (ds : list (string * Expr)) (c : Collected) : Prop := {
  dc_extends : extends (note_declarations p ds c) C;
  dc_nodup : NoDup (flat_map one_name (map fst ds));
  dc_new : forall x, x ∈ flat_map one_name (map fst ds) -> ~ declares c x;
  dc_flows : forall f, f ∈ map flow_of ds -> flow_ok f = true
}.

Lemma declaring_step p x e ds c : declaring p ((x, e) :: ds) c -> declaring p ds (note_declaration p x e c).
Proof.
  intros [He Hnd Hnew Hf]. simpl in *. apply NoDup_app in Hnd as (_&Hdis&Hnd). split; [done|done| |].
  - intros y Hy (r&Hr&Hd). destruct (note_declaration_grown p x e c) as (_&_&Hb).
    destruct (Hb y r Hr Hd) as [Hdec|[Hin _]]; [|by apply (Hdis y)].
    apply (Hnew y); [|done]. apply elem_of_app. by right.
  - intros f Hin. apply Hf. set_solver.
Qed.

Lemma declaring_head p x e ds c : declaring p ((x, e) :: ds) c -> x <> "_"%string ->
  known p x e /\ declares (note_declarations p ((x, e) :: ds) c) x /\ flow_ok (mkFlow (Some x) [e] false) = true.
Proof.
  intros [He _ Hnew Hf] Hb. simpl in *. destruct (declaration_known p x e c Hb) as [Hk (r&Hr&Hd)].
  - apply Hnew. unfold one_name. rewrite (proj2 (String.eqb_neq _ _) Hb). set_solver.
  - etransitivity; [apply (declarations_extends p ds)|exact He].
  - split; [done|]. split; [|apply Hf; set_solver].
    destruct (ex_records _ _ (declarations_extends p ds _) _ _ Hr) as (r'&Hr'&Hle). exists r'. split; [done|].
    by apply (le_declared _ _ Hle).
Qed.

Lemma declares_extends c c' x : extends c c' -> declares c x -> declares c' x.
Proof using.
  intros He (r&Hr&Hd). destruct (ex_records _ _ He _ _ Hr) as (r'&Hr'&Hle). exists r'. split; [done|]. by apply (le_declared _ _ Hle).
Qed.

Lemma declarations_batch p c0 c c' ds vs st st1 : declaring p ds c -> extends (note_declarations p ds c) c' ->
  Inv p c0 st -> evals (in_arena_block p) st (map snd ds) vs st1 -> batch p c' st (declares_as p (map fst ds) vs) st1.
Proof.
  revert c vs st. induction ds as [|[x e] ds IH]; intros c vs st Hdc He Hi Hev; inversion Hev; subst; [constructor|].
  match goal with H : eval _ _ _ _ _ _ _ |- _ => inversion H as [? ? Hevd Hval]; subst end.
  destruct (evaluated_later _ _ _ Hevd) as [Hl _].
  match goal with H : evals _ _ _ _ st1 |- _ => pose proof (IH _ _ _ (declaring_step _ _ _ _ _ Hdc) He (later_inv _ _ _ _ Hl Hi) H) as Hb end.
  simpl. destruct (String.eqb_spec x "_") as [->|Hne]; [by eapply batch_skip|].
  destruct (declaring_head p x e ds c Hdc Hne) as (Hk&Hd&Hf). pose proof (value_of_taken _ _ _ _ Hval) as Htk.
  eapply batch_cons; [|exact Hl|by eapply evaluated_bound|exact Hb].
  eapply sourced_declare; try done; [by eapply declares_extends|]. intros Hx. by eapply value_of_own_at.
Qed.

(** One call that gives its results to several names. *)
Definition one_owner (xs : list string) : Prop := (length xs <= 1)%nat \/ forall x, x ∈ xs -> x ∉ sites.

Lemma apart_results_spec s ds : apart_results sites s = true -> declarations s = Some ds -> paired s = false ->
  one_owner (flat_map one_name (map fst ds)).
Proof using.
  unfold apart_results, one_owner. intros Ha Hd Hp. rewrite Hd, Hp in Ha. simpl in Ha. apply orb_true_iff in Ha as [Ha|Ha]; [left; by apply Nat.leb_le|right].
  intros x Hin Hx. rewrite forallb_forall in Ha. specialize (Ha x (proj1 (list_elem_of_In _ _) Hin)).
  by rewrite bool_decide_true in Ha.
Qed.

Lemma declares_as_names p xs vs : (length (declares_as p xs vs) <= length (flat_map one_name xs))%nat.
Proof using.
  revert vs. induction xs as [|x xs IH]; intros [|v vs]; simpl; try lia. unfold one_name at 1.
  specialize (IH vs). destruct (x =? "_")%string; simpl; lia.
Qed.

Lemma declares_as_sourced p c0 c c' ds vs st : declaring p ds c -> extends (note_declarations p ds c) c' -> Inv p c0 st ->
  Forall2 (value_of fresh_call shadowed (in_arena_block p) st) (map snd ds) vs ->
  forall a, a ∈ declares_as p (map fst ds) vs -> exists x e, (x, e) ∈ ds /\ fst a = KDeclare x p /\
    value_of fresh_call shadowed (in_arena_block p) st e (snd a) /\ sourced p c' st a [e] false.
Proof.
  revert c vs. induction ds as [|[x e] ds IH]; intros c vs Hdc He Hi Hv a Ha; inversion Hv as [|? v ? vs' Hval Hvs]; subst;
    [by apply elem_of_nil in Ha|].
  simpl in Ha. destruct (String.eqb_spec x "_") as [->|Hne].
  - destruct (IH _ _ (declaring_step _ _ _ _ _ Hdc) He Hi Hvs a Ha) as (y&e'&Hin&?). exists y, e'. split; [set_solver|done].
  - apply elem_of_cons in Ha as [->|Ha].
    + destruct (declaring_head p x e ds c Hdc Hne) as (Hk&Hd&Hf). exists x, e. split; [set_solver|]. split; [done|]. split; [done|].
      eapply sourced_declare; try done; [by eapply declares_extends|by eapply value_of_taken|]. intros Hx. by eapply value_of_own_at.
    + destruct (IH _ _ (declaring_step _ _ _ _ _ Hdc) He Hi Hvs a Ha) as (y&e'&Hin&?). exists y, e'. split; [set_solver|done].
Qed.

(** ** Assignments *)
Definition sources (t e : Expr) : list Expr := if grows t e then added e else [e].

Lemma assignment_stored x e plain c : x <> "_"%string -> plain && is_self_append x e = false -> declares c x ->
  counted c -> extends (note_assignment (Identifier x) e plain c) C -> exists r, find_record C x = Some r /\
    (1 < binding_count r)%nat /\ (plain = true -> e ∈ lr_values r) /\ (plain = false -> has_unsafe_value r = true).
Proof.
  intros Hb Ha (r0&Hr0&Hd0) Hc He. destruct (note_assignment_record x e plain c Hb Ha) as (r&Hr&Hv&Hu&Hcnt).
  destruct (ex_records _ _ He _ _ Hr) as (r'&Hr'&Hle). exists r'. split; [done|].
  pose proof (Hcnt r0 Hr0). pose proof (Hc x r0 Hr0 Hd0). pose proof (le_count _ _ Hle). split; [lia|].
  split; intros; [apply (le_values _ _ Hle)|apply (le_unsafe _ _ Hle)]; auto.
Qed.

Lemma assignment_safe x e plain c r : x <> "_"%string -> plain && is_self_append x e = false -> declares c x ->
  counted c -> extends (note_assignment (Identifier x) e plain c) C -> x ∈ sites -> find_record C x = Some r ->
  plain = true /\ (1 < binding_count r)%nat /\ value_is_release_safe C pe e = true.
Proof.
  intros Hb Ha Hd Hc He Hx Hr. destruct (assignment_stored x e plain c Hb Ha Hd Hc He) as (r'&Hr'&Hcnt&Hv&Hu).
  rewrite Hr in Hr'. injection Hr' as <-. pose proof (approved_record x r Hx Hr) as Hap.
  pose proof (approved_safe C pe x r Hap Hcnt) as Hsafe. destruct plain; [|by rewrite Hu in Hsafe].
  split; [done|]. split; [done|]. eapply approved_values; [done|by apply Hv|done].
Qed.

Lemma declared_depth c x r : declares c x -> extends c C -> find_record C x = Some r -> x <> "_"%string ->
  target_lifetime_depth c (Identifier x) = block_depth r.
Proof using.
  intros (r0&Hr0&Hd) He Hr Hb. destruct (ex_records _ _ He _ _ Hr0) as (r'&Hr'&Hle). rewrite Hr in Hr'. injection Hr' as <-.
  destruct (le_declared _ _ Hle Hd) as (_&Hbd&_). simpl. by rewrite (proj2 (String.eqb_neq _ _) Hb), Hr0, Hd.
Qed.

Lemma note_assignment_extends lhs rhs plain c : extends c (note_assignment lhs rhs plain c).
Proof using. apply (note_assignment_grown function_scope lhs rhs plain c). Qed.

(** What a binding of [x] may take from a deeper local is marked. *)
Definition scanned_for (c : Collected) (x : string) (es : list Expr) : Prop := forall r z, find_record C x = Some r ->
  holds_any z es = true -> below c (block_depth r) z -> marked C z.

Lemma assignment_scanned x e plain c : x <> "_"%string -> declares c x ->
  extends (note_assignment (Identifier x) e plain c) C -> scanned_for c x (sources (Identifier x) e).
Proof.
  intros Hb Hd He r z Hr Hh Hz. eapply marked_extends; [etransitivity; [by apply (note_assignment_scanned (Identifier x))|exact He]|].
  eapply sources_marked; [exact Hh|]. rewrite (declared_depth c x r); try done.
  etransitivity; [apply note_assignment_extends|exact He].
Qed.

Lemma live_or_below p c st z sz d : Inv p c st -> env st !! z = Some sz -> s_live sz = true -> extends c C ->
  pl_block (s_place sz) <= d \/ below c d z.
Proof.
  intros Hi Hz Hl He. destruct (Z.le_gt_cases (pl_block (s_place sz)) d) as [|Hd]; [by left|right].
  destruct (i_live _ _ _ Hi z sz Hz Hl) as [(r&Hr&Hdr) _]. destruct (ex_records _ _ He _ _ Hr) as (r'&Hr'&Hle).
  destruct (i_known _ _ _ Hi z sz Hz) as (r''&Hr''&_&Hb&_). destruct (le_declared _ _ Hle Hdr) as (_&Hbd&_).
  exists r. split; [done|]. split; [done|]. rewrite Hr' in Hr''. injection Hr'' as <-. lia.
Qed.

(** A store, whatever its target is. *)
Lemma sourced_store p c c' st t g v es hidden : Inv p c st -> extends c C -> extends c c' ->
  taken (fresh_call := fresh_call) (shadowed := shadowed) st es v ->
  (forall x s, t = Identifier x -> x <> "_"%string -> env st !! x = Some s -> s_live s = true -> declares c x ->
     flow_ok (mkFlow (Some x) es hidden) = true /\ scanned_for c x es /\
     forall r, find_record C x = Some r -> at_place (s_place s) r ->
       (hidden = false -> forall e, e ∈ es -> e ∈ lr_values r) /\
       (x ∈ sites -> (g = false -> own_fresh st v /\ (1 < binding_count r)%nat) /\
          ((1 < binding_count r)%nat -> hidden = false -> forall e, e ∈ es -> value_is_release_safe C pe e = true))) ->
  sourced p c' st (kind_of st t g, v) es hidden.
Proof.
  intros Hi HeC Hec Htk Hst.
  assert (forall x pl, target (kind_of st t g) = Some (x, pl) -> exists s r, t = Identifier x /\ x <> "_"%string /\
    env st !! x = Some s /\ s_live s = true /\ s_place s = pl /\ declares c x /\ pl_block pl <= pl_block p /\
    find_record C x = Some r /\ at_place pl r) as Hk.
  { intros x pl Ht. destruct (kind_of_assigned st t g x pl Ht) as (_&->&Hb&s&Hs&Hl&<-).
    destruct (i_live _ _ _ Hi x s Hs Hl) as [Hd Hpl]. destruct (i_known _ _ _ Hi x s Hs) as (r&Hr&Hat). by exists s, r. }
  assert (forall x pl, assigned (kind_of st t g) = Some (x, pl) -> target (kind_of st t g) = Some (x, pl)) as Hat
    by (intros x pl; by destruct (kind_of st t g)).
  split; simpl; [done| | | | |].
  - intros x pl Ht. destruct (Hk x pl Ht) as (s&r&Hid&Hb&Hs&Hl&Hpl&Hd&Hle&Hr&Hatr).
    destruct (Hst x s Hid Hb Hs Hl Hd) as (Hf&Hsc&Hrest). rewrite Hpl in Hrest. destruct (Hrest r Hr Hatr) as [Hv _].
    split; [done|]. split; [split; [done|]; split; [by eapply declares_extends|by exists r]|]. split; [done|]. split.
    + intros z sz Hh Hz Hzl. destruct (live_or_below p c st z sz (pl_block pl) Hi Hz Hzl HeC) as [?|Hbl]; [by left|right].
      apply (Hsc r z Hr Hh). destruct Hatr as (_&->&_). done.
    + intros Hhid e Hin. exists r. split; [done|by apply Hv].
  - intros x pl Ha. destruct (Hk x pl (Hat x pl Ha)) as (s&r&_&_&Hs&Hl&Hpl&_). by exists s.
  - intros x Hx Hxs. destruct (kind_of st t g) as [y pl|y pl|y pl| |] eqn:E; try done; injection Hx as ->;
      destruct (Hk x pl eq_refl) as (s&r&Hid&Hb&Hs&Hl&Hpl&Hd&_&Hr&Hatr).
    + pose proof (kind_of_assigned st t g x pl) as H. rewrite E in H. by destruct (H eq_refl).
    + destruct (Hst x s Hid Hb Hs Hl Hd) as (_&_&Hrest). rewrite Hpl in Hrest. destruct (Hrest r Hr Hatr) as [_ Hsite].
      apply (Hsite Hxs). subst t. simpl in E. destruct (x =? "_")%string; [done|]. rewrite Hs, Hl in E. by destruct g.
  - intros x pl r Hks Hxs Hr. destruct (Hk x pl) as (s&r'&Hid&Hb&Hs&Hl&Hpl&Hd&_&Hr'&Hatr); [by rewrite Hks|].
    destruct (Hst x s Hid Hb Hs Hl Hd) as (_&_&Hrest). rewrite Hpl in Hrest. rewrite Hr in Hr'. injection Hr' as <-.
    destruct (Hrest r Hr Hatr) as [_ Hsite]. apply (Hsite Hxs). subst t. simpl in Hks. destruct (x =? "_")%string; [done|].
    rewrite Hs, Hl in Hks. by destruct g.
  - intros x pl r Ha Hxs Hr Hc. destruct (Hk x pl (Hat x pl Ha)) as (s&r'&Hid&Hb&Hs&Hl&Hpl&Hd&_&Hr'&Hatr).
    destruct (Hst x s Hid Hb Hs Hl Hd) as (_&_&Hrest). rewrite Hpl in Hrest. rewrite Hr in Hr'. injection Hr' as <-.
    destruct (Hrest r Hr Hatr) as [_ Hsite]. by apply (Hsite Hxs).
Qed.
End Walk.
