(* ===== verification/ReleaseStmts.v ===== *)
(** * ReleaseStmts: the statements that bind keep the invariant. *)
From Stdlib Require Import ZArith Lia Ascii String Bool.
From stdpp Require Import base list numbers option strings gmap.
From S2P Require Import Prelude Token Escape EscapePasses EscapeFacts Release ReleaseSem ReleaseFacts.
From S2P Require Import ReleaseFlow ReleaseRuns ReleaseInv ReleaseSteps ReleaseWalk.
Local Open Scope Z_scope.

Section Statements.
  Context {C : Collected} {pe : option (list ParamEscapeSummary)} {sites : list string}.
  Context {fresh_call shadowed : string -> bool} {HA : Approvals C pe sites fresh_call shadowed}.
  Abbreviation Inv := (@Inv C sites).
  Abbreviation holds_any := (holds_any fresh_call shadowed).
  Abbreviation flow_ok := (flow_ok C sites fresh_call shadowed).
  Abbreviation evals := (evals fresh_call shadowed).
  Abbreviation value_of := (value_of fresh_call shadowed).
  Abbreviation assign_evals := (assign_evals fresh_call shadowed).
  Abbreviation sourced := (@sourced C pe sites fresh_call shadowed).
  Abbreviation batch := (@batch C pe sites fresh_call shadowed).
  Abbreviation taken := (@taken fresh_call shadowed).
  Abbreviation declaring := (@declaring C sites fresh_call shadowed).
  Abbreviation scanned_for := (@scanned_for C fresh_call shadowed).

(** ** Declarations *)
Lemma declare_ok p c c' ds vs st st1 : declaring p ds c -> extends (note_declarations p ds c) c' -> Inv p c st ->
  evals (in_arena_block p) st (map snd ds) vs st1 -> confined (declare_all sites p (map fst ds) vs st1) ->
  Inv p c' (declare_all sites p (map fst ds) vs st1) /\ temps (declare_all sites p (map fst ds) vs st1) = temps st.
Proof.
  intros Hdc He Hi Hev Hcf. pose proof (declarations_batch p c c c' ds vs st st1 Hdc He Hi Hev) as Hb.
  assert (Inv p c' st) as Hi' by (eapply inv_extends; [|exact Hi]; etransitivity; [apply declarations_extends|exact He]).
  destruct (batch_ok p c' st _ st1 Hi' Hb) as (st2&Heq&?&?); [|by apply declares_apart, (dc_nodup _ _ _ Hdc)|].
  - eapply confined_wider; [apply declare_all_wider|exact Hcf].
  - rewrite declare_all_process in Heq. by injection Heq as <-.
Qed.

Lemma value_bound e arena st st1 v p c : Inv p c st -> value_of arena st e v -> (prim v = Obj (next st) -> (next st < next st1)%nat) ->
  (next st <= next st1)%nat -> forall n, n ∈ objects v -> (n < next st1)%nat.
Proof.
  intros Hi Hv Hn Hle n Hin. unfold ReleaseSem.value_of in Hv. pose proof (held_next (fresh_call := fresh_call) (shadowed := shadowed) p c st [e] Hi) as Hh.
  destruct (is_static e); [destruct Hv as [[Hq|Hq] Hc]; unfold objects in Hin; rewrite Hq, Hc in Hin; simpl in Hin; set_solver|].
  destruct (allocates fresh_call shadowed e); [|specialize (Hh n (Hv n Hin)); lia]. destruct Hv as [Hq Hc].
  unfold objects in Hin. apply elem_of_union in Hin as [Hin|Hin]; [|specialize (Hh n (Hc n Hin)); lia].
  destruct Hq as [Hq|[Hq|[Hq|[_ Hq]]]]; rewrite Hq in Hin; simpl in Hin; try by apply elem_of_empty in Hin.
  apply elem_of_singleton in Hin as ->. auto.
Qed.

(** The expression of names that one call gives values to is the call, or none. *)
Lemma seed_spread {A} (ns : list A) vs x e : (length vs =? length ns)%nat = false -> (x, e) ∈ seed_values ns vs ->
  e = ENull \/ vs = [e].
Proof using.
  unfold seed_values. intros -> Hin. apply list_elem_of_In, in_map_iff in Hin as (n&[= _ <-]&_).
  destruct vs as [|v [|v' vs]]; auto.
Qed.

Lemma declare_shared_ok p c c' ds vs us st st1 : declaring p ds c -> extends (note_declarations p ds c) c' -> Inv p c st ->
  one_owner (sites := sites) (flat_map one_name (map fst ds)) -> (forall x e, (x, e) ∈ ds -> e = ENull \/ vs = [e]) ->
  evaluateds st vs st1 -> Forall2 (value_of (in_arena_block p) st) (map snd ds) us ->
  confined (declare_all sites p (map fst ds) us st1) ->
  Inv p c' (declare_all sites p (map fst ds) us st1) /\ temps (declare_all sites p (map fst ds) us st1) = temps st.
Proof.
  intros Hdc He Hi Hone Hseed Hev Hv Hcf. pose proof (evaluateds_later _ _ _ Hev) as Hl.
  assert (Inv p c' st) as Hi' by (eapply inv_extends; [|exact Hi]; etransitivity; [apply declarations_extends|exact He]).
  pose proof (declares_as_sourced p c c c' ds us st Hdc He Hi Hv) as Hs.
  destruct (shared_ok p c' st (declares_as p (map fst ds) us) st1 Hi' Hl) as (st2&Heq&?&?).
  - eapply confined_wider; [apply declare_all_wider|exact Hcf].
  - intros a Ha. destruct (Hs a Ha) as (x&e&Hin&_&Hval&Hsr). split; [by exists [e], false|].
    apply (value_bound e (in_arena_block p) st st1 (snd a) p c Hi Hval); [|apply (la_next _ _ Hl)].
    intros Hq. destruct (Hseed x e Hin) as [->|Hvs].
    + destruct Hval as [[?|?] _]; congruence.
    + pose proof (evaluateds_next _ _ _ Hev) as Hnx. rewrite Hvs in Hnx. specialize (Hnx ltac:(done)). lia.
  - destruct Hone as [Hlen|Hnone]; [left; pose proof (declares_as_names p (map fst ds) us); lia|right].
    intros a x Ha Hx. destruct (declares_as_in _ _ _ _ Ha) as (y&Hy&Hin). rewrite Hy in Hx. injection Hx as <-. by apply Hnone.
  - by apply declares_apart, (dc_nodup _ _ _ Hdc).
  - rewrite declare_all_process in Heq. by injection Heq as <-.
Qed.

(** What a statement binds to one name without recording it. *)
Lemma bind_hidden_ok q pl c c' x e v es st st1 : Inv q c st -> later st st1 -> taken st es v ->
  (forall n, n ∈ objects v -> (n < next st1)%nat) -> pl_block pl = pl_block q ->
  extends (note_declaration pl x e c) C -> (x <> "_"%string -> ~ declares c x) ->
  (x <> "_"%string -> flow_ok (mkFlow (Some x) es true) = true) -> e = ENull ->
  extends (note_declaration pl x e c) c' -> confined st1 ->
  Inv q c' (declare sites pl x v st1) /\ temps (declare sites pl x v st1) = temps st.
Proof.
  intros Hi Hl Htk Hn Hpl HeC Hnew Hf -> Hec Hcf.
  assert (Inv q c' st) as Hi' by (eapply inv_extends; [|exact Hi]; etransitivity; [apply note_declaration_extends|exact Hec]).
  unfold declare. destruct (String.eqb_spec x "_") as [->|Hb]; [split; [by eapply later_inv|by apply la_temps]|].
  destruct (declaration_known pl x ENull c Hb (Hnew Hb) HeC) as [Hk Hd].
  destruct (shared_ok q c' st [(KDeclare x pl, v)] st1 Hi' Hl Hcf) as (st2&Heq&?&?).
  - intros a Ha. apply list_elem_of_singleton in Ha as ->. split; [|done]. exists es, true.
    apply (sourced_declare q pl c c' st x v ENull es true Hi Hb Hk); try done; [by eapply declares_extends|by apply Hf|].
    intros Hx. by destruct (known_null pl x Hk).
  - left. simpl. lia.
  - repeat constructor.
  - simpl in Heq. by injection Heq as <-.
Qed.

(** ** Assignments *)
Definition assigned_ok (c : Collected) (recorded : bool) (t e : Expr) : Prop := forall x, t = Identifier x ->
  x <> "_"%string -> declares c x -> scanned_for c x (sources t e) /\
  (is_self_append x e = false -> forall r, find_record C x = Some r ->
     (recorded = true -> e ∈ lr_values r) /\
     (x ∈ sites -> recorded = true /\ (1 < binding_count r)%nat /\ value_is_release_safe C pe e = true)).

Lemma site_no_arena st x s r : x ∈ sites -> env st !! x = Some s -> find_record C x = Some r -> at_place (s_place s) r ->
  target_arena st (Identifier x) = false.
Proof.
  intros Hx Hs Hr (_&_&Har&_). simpl. rewrite Hs, <- Har. pose proof (ap_arena _ _ _ _ (approved_record x r Hx Hr)).
  rewrite (proj2 (Z.ltb_ge _ _)) by done. by destruct (s_live s).
Qed.

Lemma assign_sourced p c c' st t e v recorded : Inv p c st -> extends c C -> extends c c' -> assigned_ok c recorded t e ->
  (forall f, f ∈ assign_flow recorded (t, e) -> flow_ok f = true) ->
  (if grows t e then holds_only fresh_call shadowed st (added e) (objects v)
   else value_of (target_arena st t) st e v) ->
  exists es hidden, sourced p c' st (kind_of st t (grows t e), v) es hidden.
Proof.
  intros Hi HeC Hec Hok Hf Hv. exists (sources t e), (grows t e || negb recorded).
  apply (sourced_store p c c'); try done.
  - unfold sources. destruct (grows t e); [|by eapply value_of_taken]. intros n Hn. right. by apply Hv.
  - intros x s -> Hb Hs Hl Hd. destruct (Hok x eq_refl Hb Hd) as [Hsc Hst]. unfold sources in *. cbn [grows assign_flow] in *.
    split; [|split; [done|]].
    + destruct (is_self_append x e); apply Hf; set_solver.
    + intros r Hr Hat. destruct (is_self_append x e); simpl; [split; [done|]; intros _; by split|].
      destruct (Hst eq_refl r Hr) as [Hrec Hsite]. split.
      * intros Hn e' Hin. apply list_elem_of_singleton in Hin as ->. apply Hrec. by destruct recorded.
      * intros Hx. destruct (Hsite Hx) as (_&Hc&Hsafe). split; [intros _; split; [|done]|].
        -- rewrite (site_no_arena st x s r Hx Hs Hr Hat) in Hv. eapply value_of_own; [|exact Hv].
           by apply (safe_bound_safely C pe fresh_call shadowed ap_fresh ap_shadow).
        -- intros _ _ e' Hin. by apply list_elem_of_singleton in Hin as ->.
Qed.

Lemma assigns_batch p c c' st0 bs vs st st1 recorded : assign_evals st bs vs st1 -> env st0 = env st -> Inv p c st ->
  extends c C -> extends c c' -> (forall t e, (t, e) ∈ bs -> assigned_ok c recorded t e) ->
  (forall f, f ∈ flat_map (assign_flow recorded) bs -> flow_ok f = true) -> batch p c' st (stores st0 bs vs) st1.
Proof.
  intros Hev He Hi HeC Hec. revert Hi He. induction Hev as [st|st t e bs v vs st1 st2 st3 H1 H2 Hv _ IH]; intros Hi He Hok Hf; [constructor|].
  assert (later st st2) as Hl by (etransitivity; by eapply evaluated_later).
  unfold stores. simpl. rewrite (kind_of_env st0 st) by done.
  destruct (assign_sourced p c c' st t e v recorded Hi HeC Hec) as (es&hidden&Hs); [apply Hok; set_solver| |exact Hv|].
  { intros f Hin. apply Hf. simpl. apply elem_of_app. by left. }
  eapply batch_cons; [exact Hs|exact Hl| |].
  - intros n Hn. pose proof (la_next _ _ (proj1 (evaluated_later _ _ _ H2))).
    pose proof (evaluated_bound p c st e st1 v es Hi H1 (so_taken _ _ _ _ _ _ Hs) n Hn). lia.
  - apply IH; [by eapply later_inv|by rewrite (la_env _ _ Hl)| |].
    + intros t' e' Hin. apply Hok. set_solver.
    + intros f Hin. apply Hf. simpl. apply elem_of_app. by right.
Qed.

Lemma assigns_ok p c c' bs vs st st1 st2 f recorded : assign_evals st bs vs st1 -> Inv p c st ->
  extends c C -> extends c c' -> (forall t e, (t, e) ∈ bs -> assigned_ok c recorded t e) ->
  (forall f, f ∈ flat_map (assign_flow recorded) bs -> flow_ok f = true) ->
  store_all sites bs vs st1 = (st2, f) -> confined st2 -> f = None /\ Inv p c' st2 /\ temps st2 = temps st.
Proof.
  intros Hev Hi HeC Hec Hok Hf Hst Hcf. pose proof (assigns_batch p c c' st bs vs st st1 recorded Hev eq_refl Hi HeC Hec Hok Hf) as Hb.
  rewrite (store_all_process st) in Hst by (apply same_later; by eapply batch_later).
  destruct (batch_ok p c' st _ st1 (inv_extends _ _ _ _ Hec Hi) Hb) as (st3&Heq&?&?).
  - eapply confined_wider; [|exact Hcf]. rewrite <- (store_all_process st) in Hst by (apply same_later; by eapply batch_later).
    by eapply store_all_wider.
  - apply stores_apart.
  - rewrite Heq in Hst. by injection Hst as <- <-.
Qed.

(** *** What the walk knows of a list of assignments *)
Definition note_assignments (bs : list (Expr * Expr)) (c : Collected) : Collected :=
  fold_left (fun c b => note_assignment (fst b) (snd b) true c) bs c.

Lemma note_assignments_extends bs c : extends c (note_assignments bs c).
Proof using. apply (assignments_grown function_scope true bs c). Qed.

Lemma note_assignments_in bs c t e : (t, e) ∈ bs -> extends (note_assignments bs c) C -> counted c ->
  exists c1, extends c c1 /\ counted c1 /\ extends (note_assignment t e true c1) C.
Proof using.
  revert c. induction bs as [|[t' e'] bs IH]; intros c Hin He Hc; [by apply elem_of_nil in Hin|].
  unfold note_assignments in He. simpl in He. fold (note_assignments bs (note_assignment t' e' true c)) in He.
  apply elem_of_cons in Hin as [[= -> ->]|Hin].
  - exists c. split; [done|]. split; [done|]. etransitivity; [apply note_assignments_extends|exact He].
  - destruct (IH _ Hin He) as (c1&Hc1&?&?).
    + by apply (note_assignment_grown function_scope t' e' true c).
    + exists c1. split; [|done]. etransitivity; [apply note_assignment_extends|exact Hc1].
Qed.

Lemma assigned_ok_one c c1 t e : extends c c1 -> counted c1 -> extends (note_assignment t e true c1) C -> assigned_ok c true t e.
Proof.
  intros Hcc Hc He x -> Hb Hd. pose proof (declares_extends _ _ _ Hcc Hd) as Hd1. split.
  - intros r z Hr Hh Hz. apply (assignment_scanned x e true c1 Hb Hd1 He r z Hr Hh). by eapply below_extends.
  - intros Ha r Hr. destruct (assignment_stored x e true c1 Hb Ha Hd1 Hc He) as (r'&Hr'&_&Hv&_).
    rewrite Hr in Hr'. injection Hr' as <-. split; [by intros _; apply Hv|]. intros Hx.
    destruct (assignment_safe x e true c1 r Hb Ha Hd1 Hc He Hx Hr) as (_&?&?). done.
Qed.

Lemma min_depth_le c ts t m : t ∈ ts -> fold_left (fun m t => Z.min m (target_lifetime_depth c t)) ts m <= target_lifetime_depth c t.
Proof using.
  assert (forall ts m, fold_left (fun m t => Z.min m (target_lifetime_depth c t)) ts m <= m) as Hle.
  { intros l. induction l as [|t' l IH]; intros m'; simpl; [lia|]. etransitivity; [apply IH|lia]. }
  revert m. induction ts as [|t' ts IH]; intros m Hin; [by apply elem_of_nil in Hin|]. simpl.
  apply elem_of_cons in Hin as [->|Hin]; [|by apply IH]. etransitivity; [apply Hle|lia].
Qed.

Lemma below_lower c d d' x : d' <= d -> below c d x -> below c d' x.
Proof using. intros Hle (r&?&?&?). exists r. split; [done|]. split; [done|lia]. Qed.

Lemma assigned_ok_mismatch c ts vs t e : (length ts =? length vs)%nat = false -> extends (assign_targets ts vs c) C ->
  counted c -> (t, e) ∈ seed_values ts vs -> assigned_ok c false t e.
Proof.
  intros Hlen He Hc Hin. assert (t ∈ ts) as Hts by (rewrite <- (seed_names_of ts vs); apply list_elem_of_In, in_map_iff;
    exists (t, e); split; [done|by apply list_elem_of_In]).
  assert ((length vs =? length ts)%nat = false) as Hlen' by (by rewrite Nat.eqb_sym).
  destruct (scan_mismatch_grown function_scope ts vs c) as (Hs&Hcs&_). pose proof (seed_spread ts vs t e Hlen' Hin) as Hv.
  change (assign_targets ts vs c) with (note_assignments (pair_targets ts vs) (scan_mismatch ts vs c)) in He.
  pose proof (note_assignments_extends (pair_targets ts vs) (scan_mismatch ts vs c)) as Hn.
  intros x -> Hb Hd. split.
  - intros r z Hr Hh Hz. destruct Hv as [->| ->]; [done|]. eapply marked_extends; [etransitivity; [exact Hn|exact He]|].
    unfold scan_mismatch. rewrite Hlen. simpl. eapply sources_marked; [exact Hh|].
    eapply below_lower; [|exact Hz]. etransitivity; [by apply (min_depth_le c ts (Identifier x))|].
    rewrite (declared_depth (C := C) c x r); try done. do 2 (etransitivity; [done|]). exact He.
  - intros Ha r Hr. split; [done|]. intros Hx. exfalso.
    destruct (note_assignments_in (pair_targets ts vs) (scan_mismatch ts vs c) (Identifier x) ENull) as (c1&Hc1&Hcc&He1); [|done|by apply Hcs|].
    + unfold pair_targets. rewrite Hlen. apply list_elem_of_In, in_map_iff. exists (Identifier x). split; [done|by apply list_elem_of_In].
    + destruct (assignment_safe x ENull true c1 r Hb eq_refl) as (_&_&?); try done.
      eapply declares_extends; [|exact Hd]. by etransitivity.
Qed.

Lemma multi_assign_ok p c c' ts vs us st st1 st2 f : assign_evals st (seed_values ts vs) us st1 -> Inv p c st -> counted c ->
  extends (assign_targets ts vs c) C -> extends (assign_targets ts vs c) c' ->
  (forall f, f ∈ flat_map (assign_flow (length ts =? length vs)%nat) (seed_values ts vs) -> flow_ok f = true) ->
  store_all sites (seed_values ts vs) us st1 = (st2, f) -> confined st2 -> f = None /\ Inv p c' st2 /\ temps st2 = temps st.
Proof.
  intros Hev Hi Hc HeC Hec Hf Hst Hcf.
  assert (extends c (assign_targets ts vs c)) as Hg.
  { etransitivity; [apply (scan_mismatch_grown function_scope ts vs c)|apply (note_assignments_extends (pair_targets ts vs))]. }
  apply (assigns_ok p c c' (seed_values ts vs) us st st1 st2 f (length ts =? length vs)%nat); try done; try by etransitivity.
  intros t e Hin. destruct (length ts =? length vs)%nat eqn:Hlen; [|by eapply assigned_ok_mismatch].
  assert (pair_targets ts vs = seed_values ts vs) as Hp by (unfold pair_targets, seed_values; by rewrite (Nat.eqb_sym (length vs)), Hlen).
  destruct (note_assignments_in (pair_targets ts vs) c t e) as (c1&?&?&?); try done; [by rewrite Hp| |by eapply assigned_ok_one].
  unfold assign_targets, scan_mismatch in HeC. by rewrite Hlen in HeC.
Qed.

(** ** Expression statements *)
Lemma flow_ok_nil t h : flow_ok (mkFlow t [] h) = true.
Proof using. unfold ReleaseFlow.flow_ok. simpl. apply orb_true_iff. right. by apply forallb_forall. Qed.

(** A store of something the analysis records nothing of goes to no approved local. *)
Lemma unrecorded_store_ok p c c' t x v st st1 st2 f : Inv p c st -> later st st1 ->
  taken st [] v -> (forall n, n ∈ objects v -> (n < next st1)%nat) -> extends c C -> extends c c' ->
  (t = Identifier x -> x <> "_"%string -> declares c x -> x ∉ sites) -> (forall y, t = Identifier y -> y = x) ->
  store sites t false v st1 = (st2, f) -> confined st2 -> f = None /\ Inv p c' st2 /\ temps st2 = temps st.
Proof.
  intros Hi Hl Htk Hn HeC Hec Hx Ht Hst Hcf.
  destruct (shared_ok p c' st [(kind_of st t false, v)] st1 (inv_extends _ _ _ _ Hec Hi) Hl) as (st3&Heq&?&?).
  - eapply confined_wider; [by eapply store_wider|exact Hcf].
  - intros a Ha. apply list_elem_of_singleton in Ha as ->. split; [|done]. exists [], true.
    apply (sourced_store p c c'); try done. intros y s Hy Hb _ _ Hd. split; [apply flow_ok_nil|]. split; [done|].
    intros r _ _. split; [done|]. intros Hs. pose proof (Ht y Hy). subst y. by destruct (Hx Hy Hb Hd).
  - left. simpl. lia.
  - repeat constructor.
  - rewrite (store_process st) in Hst by (by apply same_later). simpl in Heq.
    destruct (process _ st1) as [st4 [w|]]; simpl in *; simplify_eq. done.
Qed.

Lemma exec_expr_ok p c c' st e st' o : exec_expr sites fresh_call shadowed st e st' o -> Inv p c st -> counted c ->
  extends (note_expression_assignment e c) C -> extends (note_expression_assignment e c) c' ->
  (forall f, f ∈ expr_flows e -> flow_ok f = true) -> confined st' -> o = Done /\ Inv p c' st' /\ temps st' = temps st.
Proof.
  intros Hx Hi Hc HeC Hec Hf Hcf. pose proof (note_expression_assignment_grown function_scope e c) as (Hg&_).
  destruct Hx as [e e' _ Hdg|e st' Hne Hev|op l r v st1 st2 f Hop Hneq Hev Hq Hct Hst|l r vs st1 st2 f Hev Hst].
  - by destruct (no_dangling _ _ _ _ Hi Hdg).
  - split; [done|]. destruct (evaluated_later _ _ _ Hev) as [Hl _]. split; [|by apply la_temps].
    eapply later_inv; [exact Hl|]. eapply inv_extends; [|exact Hi]. by etransitivity.
  - assert (token_eqb op TOKEN_ASSIGN = false) as Htok by (by destruct op). simpl in HeC, Hec, Hg. rewrite Hop, Htok in *.
    destruct (evaluated_later _ _ _ Hev) as [Hl _].
    assert (taken st [] v) as Htk.
    { intros n Hn. left. unfold objects in Hn. rewrite Hct in Hn. destruct Hq as [Hq|[Hq|[Hq|[? _]]]]; [..|done];
        rewrite Hq in Hn; simpl in Hn; set_solver. }
    destruct (unrecorded_store_ok p c c' l (match l with Identifier x => x | _ => ""%string end) v st st1 st2 f) as (->&?&?);
      try done; try by etransitivity.
    + by eapply evaluated_bound.
    + destruct l; try done. intros _ Hb Hd Hx. destruct (declares_extends _ C _ ltac:(by etransitivity) Hd) as (rx&Hr&_).
      by destruct (assignment_safe name r false c rx Hb eq_refl Hd Hc HeC Hx Hr).
    + by destruct l; intros y; try done; intros [= ->].
  - destruct (assigns_ok p c c' [(l, r)] vs st st1 st2 f true) as (->&?&?); try done; try by etransitivity.
    + intros t e [= -> ->]%list_elem_of_singleton. by apply (assigned_ok_one c c).
    + intros g Hg'. apply Hf. cbn [flat_map] in Hg'. by rewrite app_nil_r in Hg'.
Qed.

(** ** What a case of select receives *)
Lemma received_ok q pl c c' h v st st2 f : received sites pl h v st = (st2, f) -> objects v ⊆ outside st -> Inv q c st ->
  counted c -> extends c C -> pl_block pl = pl_block q -> extends (note_select_bind pl h c) C ->
  extends (note_select_bind pl h c) c' -> (forall x, x ∈ head_name h -> ~ declares c x) -> confined st2 ->
  f = None /\ Inv q c' st2 /\ temps st2 = temps st.
Proof.
  pose proof (note_select_bind_grown pl h c) as [Hg _]. revert Hg.
  unfold received, note_select_bind, head_name. intros Hg Hrc Hout Hi Hc HcC Hpl HeC Hec Hnew Hcf.
  assert (taken st [] v) as Htk by (intros n Hn; right; left; by apply Hout).
  assert (forall n, n ∈ objects v -> (n < next st)%nat) as Hn.
  { intros n Hin. apply (held_next (fresh_call := fresh_call) (shadowed := shadowed) q c st [] Hi). left. by apply Hout. }
  destruct (sc_bind_name h) as [x|]; [|simplify_eq; split; [done|]; split; [by eapply inv_extends|done]].
  unfold opt_name, one_name in Hnew.
  destruct (sc_is_declare h =? 1).
  - injection Hrc as <- <-. split; [done|]. unfold declare in *.
    destruct (String.eqb_spec x "_") as [_|Hb]; [split; [by eapply inv_extends|done]|].
    pose proof (bind_hidden_ok q pl c c' x ENull v [] st st Hi (reflexivity _) Htk Hn Hpl HeC) as H. unfold declare in H.
    rewrite (proj2 (String.eqb_neq _ _) Hb) in H. apply H; try done; [intros _; apply Hnew; set_solver|intros _; apply flow_ok_nil|].
    eapply confined_wider; [|exact Hcf]. apply bind_wider.
  - destruct (sc_is_declare h =? 0).
    + destruct (String.eqb_spec x "_") as [Hxb|Hb]; [rewrite Hxb in Hrc; simpl in Hrc; simplify_eq; split; [done|]; split; [by eapply inv_extends|done]|].
      apply (unrecorded_store_ok q c c' (Identifier x) x v st st st2 f); try done; [etransitivity; [exact Hg|exact Hec]| |intros y Hy; by injection Hy].
      intros _ _ (r0&Hr0&Hd0) Hx. pose proof (Hc x r0 Hr0 Hd0) as Hcnt.
      assert (find_record (update_record count_binding x (update_record mark_unsafe x (intern_record x c))) x =
        Some (count_binding (mark_unsafe r0))) as Hr1 by (by rewrite !find_update, String.eqb_refl, find_intern, Hr0).
      destruct (ex_records _ _ HeC _ _ Hr1) as (r&Hr&Hle). pose proof (le_count _ _ Hle) as Hcl. simpl in Hcl.
      pose proof (approved_safe C pe x r (approved_record x r Hx Hr) ltac:(lia)) as Hs.
      rewrite (le_unsafe _ _ Hle) in Hs; done.
    + simplify_eq. split; [done|]. split; [|done]. eapply inv_extends; [|exact Hi]. by destruct (_ =? _)%string.
Qed.

(** ** The value a range loop keeps *)
Section Kept.
  Context (p : Place) (c : Collected) (st : State) (e : Expr) (w : option string) (Hi : Inv p c st) (Hcf : confined st).
  Context (Hnone : flow_ok (mkFlow None [e] true) = true) (Hw : forall f, f ∈ opt_flow w e -> flow_ok f = true).

Lemma flow_of_e t z r : flow_ok (mkFlow t [e] true) = true -> is_blank t = false -> find_record C z = Some r ->
  may_hold fresh_call shadowed z e = true -> flow_fine C sites (mkFlow t [e] true) z r.
Proof using. intros Hf Hb Hr Hh. eapply flow_ok_spec; try done. simpl. by rewrite Hh. Qed.

(** The name of the elements is marked as the holder is. *)
Lemma element_unmarked z r y ry : find_record C z = Some r -> may_hold fresh_call shadowed z e = true ->
  0 < block_depth r -> block_escapes r = false -> w = Some y -> y <> "_"%string -> find_record C y = Some ry ->
  block_escapes ry = false.
Proof.
  intros Hr Hh Hb He -> Hy Hry. assert (flow_ok (mkFlow (Some y) [e] true) = true) as Hf by (apply Hw; simpl; set_solver).
  assert (flow_fine C sites (mkFlow (Some y) [e] true) z r) as Hff by (apply flow_of_e; try done; simpl; by apply String.eqb_neq).
  by apply (ff_marks _ _ _ _ _ Hff Hb He y ry).
Qed.

Lemma held_keepable n ns x r sx : held fresh_call shadowed st [e] n -> x ∈ sites -> find_record C x = Some r ->
  env st !! x = Some sx -> prim (s_value sx) = Obj n -> keepable (C := C) r (mkKept (pl_block p) w ns).
Proof.
  intros Hh Hx Hr Hs Hq. destruct (held_cases st [e] n Hcf Hh (site_mine p c st Hi x sx n Hx Hs Hq)) as (e'&z&sz&He&Hz&Hsz&Hl&Hn).
  apply list_elem_of_singleton in He as ->. destruct (i_live _ _ _ Hi z sz Hsz Hl) as [_ Hpl].
  destruct (i_known _ _ _ Hi z sz Hsz) as (rz&Hrz&_&Hbz&_). pose proof (approved_record x r Hx Hr) as Ha.
  pose proof (flow_of_e None z rz Hnone eq_refl Hrz Hz) as Hf. destruct (String.eq_dec z x) as [->|Hne].
  - rewrite Hr in Hrz. injection Hrz as <-. split; [|split; [simpl; lia|]].
    + destruct (Nat.le_gt_cases (binding_count r) 1) as [|Hc]; [done|]. by destruct (ff_single _ _ _ _ _ Hf Hx Hc).
    + intros Hb y ry Hy Hyb Hry. destruct (ap_loop _ _ _ _ Ha Hb) as (_&_&He). by eapply (element_unmarked x r y).
  - destruct (i_holders _ _ _ Hi x r sx n z sz Hx Hr Hs Hq Hne Hsz Hl Hn) as [Hc Hrest]. split; [done|]. split.
    + simpl. destruct (Z.le_gt_cases (block_depth r) 0) as [|Hb]; [pose proof (i_place _ _ _ Hi); lia|].
      destruct (Hrest ltac:(lia)) as [? _]. lia.
    + intros Hb y ry Hy Hyb Hry. destruct (Hrest Hb) as (Hle&Hun&_).
      by apply (element_unmarked z rz y ry Hrz Hz ltac:(lia) (Hun rz Hrz)).
Qed.

Lemma keep_value q arena v st1 : evaluated st e st1 -> value_of arena st e v -> pl_block p < pl_block q ->
  Inv q c (with_temps (mkKept (pl_block p) w (objects v) :: temps st1) st1).
Proof.
  intros Hev Hv Hq. pose proof (value_of_taken _ _ _ _ Hv) as Htk. pose proof (evaluated_bound p c st e st1 v [e] Hi Hev Htk) as Hn.
  destruct (evaluated_later _ _ _ Hev) as [Hl _]. pose proof (inv_place p q c st1 ltac:(lia) (later_inv _ _ _ _ Hl Hi)) as Hi1.
  destruct Hi1 as [[Hp Hd] ? ? ? Hb ? ? ? Ht]. split; auto; [by split| |].
  - intros m Hm. destruct (Hb m Hm) as (?&?&?&?&Hk). repeat split; auto. simpl. intros k Hin.
    apply elem_of_cons in Hin as [->|Hin]; [|by apply Hk]. simpl. intros Hmo. specialize (Hn m Hmo). simpl in Hm. lia.
  - simpl. intros k Hin. apply elem_of_cons in Hin as [->|Hin]; [|by apply Ht]. simpl. split; [done|]. intros n Hno.
    rewrite (la_env _ _ Hl), (la_freed _ _ Hl). destruct (Htk n Hno) as [->|Hh].
    + split; [apply (next_unused p c st Hi)|]. intros x r sx _ _ Hs Hpr. by destruct (slot_not_next p c st Hi x sx).
    + split; [by apply (held_unfreed p c st [e] Hi Hcf n Hh)|]. intros x r sx Hx Hr Hs Hpr. by apply (held_keepable n (objects v) x r sx).
Qed.
End Kept.

(** Each iteration binds its names anew. *)
Lemma bind_element_ok q pl c k y v st : Inv q c st -> k ∈ temps st -> objects v = ∅ \/ k_name k = Some y ->
  objects v ⊆ k_objects k -> pl_block pl = pl_block q -> (y <> "_"%string -> known (C := C) pl y ENull /\ declares c y) ->
  Inv q c (declare sites pl y v st) /\ temps (declare sites pl y v st) = temps st.
Proof.
  intros Hi Hin Hk Hv Hpl Hkn. destruct (i_temps _ _ _ Hi k Hin) as [Hkd Hks].
  unfold declare. destruct (String.eqb_spec y "_") as [->|Hb]; [done|]. split; [|done].
  destruct (Hkn Hb) as [Hkw Hd]. pose proof Hkw as (r&Hr&Hat&_). apply bind_inv; try done.
  - split; [lia|]. split; [done|by exists r].
  - intros Hx. by destruct (known_null pl y Hkw).
  - intros z rz sz n Hz Hrz Hs Hq Hne Hn. destruct (Hks n (Hv n Hn)) as [_ Hkp].
    destruct (Hkp z rz sz Hz Hrz Hs Hq) as (Hc&Hdp&Hun). split; [done|]. intros Hb'. split; [lia|]. split; [|lia].
    intros ry Hry. destruct Hk as [Hk|Hk]; [rewrite Hk in Hn; by apply elem_of_empty in Hn|by apply (Hun Hb' y ry)].
  - intros n Hn. destruct (Hks n (Hv n Hn)) as [Hf _]. split; [|done].
    destruct (Nat.le_gt_cases (next st) n) as [Hle|]; [|done]. destruct (i_bound _ _ _ Hi n Hle) as (_&_&_&_&Hu).
    destruct (Hu k Hin). by apply Hv.
Qed.
End Statements.
