(* ===== verification/ReleaseSound.v ===== *)
(** * ReleaseSound: no run of a covered body crashes.

    By induction on the run: where a part of the body starts in a state with the invariant, it
    ends in one, and the releases it met were fit to be made. *)
From Stdlib Require Import ZArith Lia Ascii String Bool.
From stdpp Require Import base list numbers option strings gmap.
From S2P Require Import Prelude Token Escape EscapePasses EscapeFacts Release ReleaseSem ReleaseFacts.
From S2P Require Import ReleaseFlow ReleaseRuns ReleaseInv ReleaseSteps ReleaseWalk ReleaseStmts.
Local Open Scope Z_scope.

Section Sound.
  Context {C : Collected} {pe : option (list ParamEscapeSummary)} {sites : list string}.
  Context {fresh_call shadowed : string -> bool} {HA : Approvals C pe sites fresh_call shadowed}.
  Abbreviation Inv := (@Inv C sites).
  Abbreviation flow_ok := (flow_ok C sites fresh_call shadowed).
  Abbreviation exec := (exec sites fresh_call shadowed).
  Abbreviation exec1 := (exec1 sites fresh_call shadowed).
  Abbreviation for_loop := (for_loop sites fresh_call shadowed).
  Abbreviation range_loop := (range_loop sites fresh_call shadowed).

(** ** What is asked of a part of the body *)
Record side (names : list string) (fl : list Flow) (c c' : Collected) : Prop := {
  sd_extends : extends c' C;
  sd_flows : forall f, f ∈ fl -> flow_ok f = true;
  sd_nodup : NoDup names;
  sd_new : forall x, x ∈ names -> ~ declares c x;
  sd_counted : counted c
}.

Lemma side_split p n1 n2 f1 f2 c c1 c2 : grown p n1 c c1 -> extends c1 c2 -> side (n1 ++ n2) (f1 ++ f2) c c2 ->
  side n1 f1 c c1 /\ side n2 f2 c1 c2.
Proof using.
  intros (Hg&Hc&Hb) He [HC Hf Hnd Hnew Hct]. apply NoDup_app in Hnd as (Hn1&Hdis&Hn2). split; split; auto.
  - by etransitivity.
  - intros f Hin. apply Hf, elem_of_app. by left.
  - intros x Hx. apply Hnew, elem_of_app. by left.
  - intros f Hin. apply Hf, elem_of_app. by right.
  - intros x Hx (r&Hr&Hd). destruct (Hb x r Hr Hd) as [?|[? _]]; [|by apply (Hdis x)].
    apply (Hnew x); [|done]. apply elem_of_app. by right.
Qed.

Lemma side_after p names fl c c1 c2 : grown p [] c c1 -> extends c1 c2 -> side names fl c c2 -> side names fl c1 c2.
Proof using. intros Hg He Hs. by apply (side_split p [] names [] fl c c1 c2 Hg He). Qed.

Lemma side_less names fl fl' c c' : (forall f, f ∈ fl' -> f ∈ fl) -> side names fl c c' -> side names fl' c c'.
Proof using. intros Hin [? ? ? ? ?]. split; auto. Qed.

Lemma walk_cases_extends {A} p (f : A -> Collected -> Collected) (names : A -> list string) cs c :
  (forall x c, grown p (names x) c (f x c)) -> extends c (walk_cases f cs c).
Proof using. intros Hg. apply (walk_cases_grown p f names). by apply Forall_true. Qed.

Lemma side_case {A} p (f : A -> Collected -> Collected) (names : A -> list string) (fl : A -> list Flow) cs x c :
  (forall x c, grown p (names x) c (f x c)) -> x ∈ cs -> side (flat_map names cs) (flat_map fl cs) c (walk_cases f cs c) ->
  exists c1, extends c c1 /\ side (names x) (fl x) c1 (f x c1) /\ extends (f x c1) (walk_cases f cs c).
Proof using.
  intros Hg. revert c. induction cs as [|y cs IH]; intros c Hin Hs; [by apply elem_of_nil in Hin|]. simpl in *.
  destruct (side_split p (names y) (flat_map names cs) (fl y) (flat_map fl cs) c (f y c) _ (Hg y c)
    (walk_cases_extends p f names cs (f y c) Hg) Hs) as [H1 H2].
  apply elem_of_cons in Hin as [->|Hin].
  - exists c. split; [done|]. split; [done|]. by eapply walk_cases_extends.
  - destruct (IH _ Hin H2) as (c1&?&?&?). exists c1. split; [|done]. etransitivity; [apply (Hg y c)|done].
Qed.

Definition ready (p : Place) (ss : list Stmt) (c : Collected) : Prop :=
  side (flat_map introduced ss) (flat_map flows ss) c (walk_stmts p ss c) /\
  forallb (covered sites (pl_header p)) ss = true.
Definition ready1 (p : Place) (s : Stmt) (c : Collected) : Prop :=
  side (introduced s) (flows s) c (walk_stmt p s c) /\ covered sites (pl_header p) s = true.

Lemma ready_cons p s ss c : ready p (s :: ss) c -> ready1 p s c /\ ready p ss (walk_stmt p s c).
Proof using.
  intros [Hs Hc]. simpl in *. apply andb_true_iff in Hc as [Hc1 Hc2].
  destruct (side_split p (introduced s) (flat_map introduced ss) (flows s) (flat_map flows ss) c (walk_stmt p s c) _
    (walk_grown s p c) (walk_extends p ss _) Hs). by split; split.
Qed.

(** ** What holds afterwards *)
Definition post (p : Place) (c : Collected) (st : State) (o : Outcome) (st' : State) : Prop :=
  match o with
  | Done => Inv p c st' /\ temps st' = temps st
  | Broke | Continued => Inv p c (kill_iteration (pl_block p - 1) st') /\ temps st' = temps st
  | Returned => exit_ok sites st'
  | Panicked => True
  | Crashed _ => False
  end.

Lemma post_extends p c c' st o st' : extends c c' -> post p c st o st' -> post p c' st o st'.
Proof using. intros He. destruct o; simpl; try done; intros [? ?]; (split; [by eapply inv_extends|done]). Qed.

Lemma post_from p c st st1 o st' : temps st1 = temps st -> post p c st1 o st' -> post p c st o st'.
Proof using. intros Ht. destruct o; simpl; try done; intros [? ?]; (split; [done|congruence]). Qed.

Lemma post_place p q c st o st' : pl_block q = pl_block p -> post q c st o st' -> post p c st o st'.
Proof using.
  intros Hq. destruct o; simpl; try done; rewrite ?Hq; intros [? ?]; (split; [|done]); (apply (inv_place q p); [lia|done]).
Qed.

Definition low (d : Z) (ks : list Kept) : Prop := forall k, k ∈ ks -> k_depth k < d.

Lemma inv_temps_low p c st : Inv p c st -> low (pl_block p) (temps st).
Proof using. intros Hi k Hk. by apply (i_temps _ _ _ Hi k Hk). Qed.

Lemma kill_iteration_again d st : kill_iteration (d - 1) (kill_iteration d st) = kill_iteration (d - 1) st.
Proof using.
  unfold kill_iteration. rewrite close_close by auto using ends_iteration_place. apply close_ext. intros s.
  unfold ends_iteration. destruct (Z.ltb_spec (d - 1 + 1) (pl_block (s_place s))), (Z.ltb_spec (d + 1) (pl_block (s_place s))),
    (Z.eqb_spec (pl_block (s_place s)) (d - 1 + 1)), (Z.eqb_spec (pl_block (s_place s)) (d + 1));
    try lia; by destruct (pl_header (s_place s)).
Qed.

(** What leaves an inner scope without ending it. *)
Lemma post_lower p q c st o st' : pl_block q = pl_block p + 1 -> 0 <= pl_block p -> low (pl_block p) (temps st) -> o <> Done ->
  post q c st o st' -> post p c st o st'.
Proof using.
  intros Hq Hp Hlow Hne. assert (Inv q c (kill_iteration (pl_block q - 1) st') -> temps st' = temps st ->
    Inv p c (kill_iteration (pl_block p - 1) st')) as H.
  { intros Hi Ht. assert (pl_block q - 1 = pl_block p) as Hb by lia. rewrite Hb in Hi.
    rewrite <- kill_iteration_again. eapply inv_lower; [done|by apply close_inv| |].
    - intros x s Hs Hl. pose proof (kill_iteration_stays _ _ x s Hs Hl) as [?|[? _]]; lia.
    - intros k. simpl. rewrite Ht. apply Hlow. }
  destruct o; simpl; try done; intros [? ?]; split; auto.
Qed.

Lemma end_scope_ok p q c st o st' o3 st3 : pl_block q = pl_block p + 1 -> 0 <= pl_block p -> low (pl_block p) (temps st) ->
  post q c st o st' -> end_scope (pl_block p) o st' = (st3, o3) -> post p c st o3 st3.
Proof using.
  intros Hq Hp Hlow. assert (pl_block q - 1 = pl_block p) as Hb by lia. destruct o; simpl; rewrite ?Hb; intros Hpost [= <- <-]; simpl; try done.
  - destruct Hpost as [Hi Ht]. split; [|done]. apply (kill_inv p q c st' Hp Hi). by rewrite Ht.
  - destruct Hpost as [Hi Ht]. split; [|done]. rewrite <- kill_after_iteration. apply (kill_inv p q c _ Hp Hi). simpl. by rewrite Ht.
  - destruct Hpost as [Hi Ht]. split; [|done]. apply close_inv. rewrite <- kill_after_iteration.
    apply (kill_inv p q c _ Hp Hi). simpl. by rewrite Ht.
Qed.

Definition only_low (d : Z) (st : State) : Prop := forall x s, env st !! x = Some s -> s_live s = true -> pl_block (s_place s) <= d.
Definition only_stays (d : Z) (st : State) : Prop := forall x s, env st !! x = Some s -> s_live s = true -> stays d (s_place s).

Lemma end_iteration_ok p q c st o st' o3 st3 : pl_block q = pl_block p + 1 -> 0 <= pl_block p ->
  post q c st o st' -> end_iteration sites (pl_block p) o st' = (st3, o3) ->
  post q c st (loop_outcome o3) st3 /\ o3 <> Continued /\ (o3 = Done -> only_stays (pl_block p) st3) /\
  (o3 = Broke -> only_low (pl_block p) st3).
Proof.
  intros Hq Hp. assert (pl_block q - 1 = pl_block p) as Hb by lia. destruct o; simpl; rewrite ?Hb; intros Hpost; try by intros [= <- <-].
  - destruct Hpost as [Hi Ht]. destruct (leave_ok q c st' (pl_block p) Hi Hp Hq) as (st2&->&Hi2&Ht2). intros [= <- <-].
    split; [split; [done|simpl; congruence]|]. split; [done|]. split; [|done]. intros _ x s. apply kill_iteration_stays.
  - destruct Hpost as [Hi Ht]. intros [= <- <-]. split; [split; [|done]|].
    + rewrite <- kill_after_iteration. by apply close_inv.
    + split; [done|]. split; [done|]. intros _ x s. apply kill_low.
  - destruct Hpost as [Hi Ht]. intros [= <- <-]. split; [by split|]. split; [done|]. split; [|done].
    intros _ x s. apply kill_iteration_stays.
Qed.

(** ** From one iteration to the next *)
Lemma inv_back q c c' st : (forall x s, env st !! x = Some s -> s_live s = true -> declares c' x -> declares c x) ->
  Inv q c' st -> Inv q c st.
Proof using. intros Hb [? ? ? Hl ? ? ? ? ?]. split; auto. intros x s Hs Hv. destruct (Hl x s Hs Hv). split; [by eapply Hb|done]. Qed.

(** The names of a body are gone at the end of an iteration. *)
Lemma inv_iterated p names c c' st : pl_header p = false -> grown (deeper p) names c c' -> extends c' C ->
  Inv (deeper p) c' st -> only_stays (pl_block p) st -> Inv (deeper p) c st.
Proof using.
  intros Hh (_&_&Hg) HC Hi Hst. eapply inv_back; [|exact Hi]. intros x s Hs Hl (r&Hr&Hd).
  destruct (Hg x r Hr Hd) as [?|[_ [Hb Hhd]]]; [done|]. exfalso. simpl in Hb, Hhd.
  destruct (ex_records _ _ HC _ _ Hr) as (r'&Hr'&Hle). destruct (le_declared _ _ Hle Hd) as (_&Hbe&_&Hhe&_).
  destruct (i_known _ _ _ Hi x s Hs) as (r2&Hr2&_&Hpb&_&Hph). rewrite Hr' in Hr2. injection Hr2 as <-.
  destruct (Hst x s Hs Hl) as [?|[? Hhdr]]; [lia|]. rewrite <- Hph, Hhe in Hhdr. destruct (Hhd Hhdr) as [?|?]; [lia|congruence].
Qed.

Lemma inv_no_names p q c c' st : grown p [] c c' -> Inv q c' st -> Inv q c st.
Proof using.
  intros (_&_&Hg) Hi. eapply inv_back; [|exact Hi]. intros x s _ _ (r&Hr&Hd).
  destruct (Hg x r Hr Hd) as [?|[Hin _]]; [done|by apply elem_of_nil in Hin].
Qed.

(** ** The statements *)
Definition keeps_exec p st ss st' o : Prop := forall c, ready p ss c -> Inv p c st -> confined st' ->
  post p (walk_stmts p ss c) st o st'.
Definition keeps_exec1 p st s st' o : Prop := forall c, ready1 p s c -> Inv p c st -> confined st' ->
  post p (walk_stmt p s c) st o st'.

Lemma exec_wider p st ss st' o : exec p st ss st' o -> wider st st'.
Proof using. apply runs_widen. Qed.
Lemma exec1_wider p st s st' o : exec1 p st s st' o -> wider st st'.
Proof using. apply runs_widen. Qed.
Lemma for_wider p cond pst body st st' o : for_loop p cond pst body st st' o -> wider st st'.
Proof using. apply runs_widen. Qed.
Lemma range_wider p k w body ns st st' o : range_loop p k w body ns st st' o -> wider st st'.
Proof using. apply runs_widen. Qed.

Lemma keep_next p st s ss st1 st2 o : keeps_exec1 p st s st1 Done -> exec p st1 ss st2 o ->
  keeps_exec p st1 ss st2 o -> keeps_exec p st (s :: ss) st2 o.
Proof using.
  intros H1 Hx H2 c Hr Hi Hcf. destruct (ready_cons p s ss c Hr) as [Hr1 Hr2].
  destruct (H1 c Hr1 Hi) as [Hi1 Ht]; [eapply confined_wider; [by eapply exec_wider|done]|].
  eapply post_from; [exact Ht|]. by apply H2.
Qed.

Lemma keep_stop p st s ss st1 o : keeps_exec1 p st s st1 o -> keeps_exec p st (s :: ss) st1 o.
Proof using.
  intros H1 c Hr Hi Hcf. destruct (ready_cons p s ss c Hr) as [Hr1 _]. eapply post_extends; [apply (walk_extends p ss)|]. by apply H1.
Qed.

Lemma later_post p c st st1 o st2 : later st st1 -> post p c st1 o st2 -> post p c st o st2.
Proof using. intros Hl. apply post_from. by apply la_temps. Qed.

Lemma keep_if p st cnd th el ss st1 st2 o : evaluated st cnd st1 -> ss = th \/ ss = el ->
  keeps_exec p st1 ss st2 o -> keeps_exec1 p st (IfStmt cnd th el) st2 o.
Proof using.
  intros Hev Hss H c [Hs Hc] Hi Hcf. destruct (evaluated_later _ _ _ Hev) as [Hl _].
  simpl in Hs, Hc. apply andb_true_iff in Hc as [Hc1 Hc2].
  destruct (side_split p (flat_map introduced th) (flat_map introduced el) (flat_map flows th) (flat_map flows el) c
    (walk_stmts p th c) _ (walk_stmts_grown p th c) (walk_extends p el _) Hs) as [Hs1 Hs2].
  eapply later_post; [exact Hl|]. pose proof (later_inv p c st st1 Hl Hi) as Hi1. destruct Hss as [->| ->].
  - eapply post_extends; [apply (walk_extends p el)|]. by apply H.
  - apply H; try done. eapply inv_extends; [apply walk_extends|done].
Qed.

Lemma binds_grown p q x c : pl_block p <= pl_block q -> (pl_header q = true -> pl_block p < pl_block q \/ pl_header p = true) ->
  grown p (opt_name x) c (note_declaration_opt q x c).
Proof using.
  intros Hb Hh. eapply grown_weaken; [|done|apply note_declaration_opt_grown]. intros r [H1 H2]. split; [lia|].
  intros H. destruct (H2 H) as [?|H']; [left; lia|]. destruct (Hh H') as [?|?]; [left; lia|by right].
Qed.

(** A name bound to the value of an expression that the walk does not record. *)
Lemma bind_opt_ok p q pl c c' x e arena v st st1 : Inv p c st -> pl_block p <= pl_block q -> pl_block pl = pl_block q ->
  eval fresh_call shadowed arena st e v st1 -> side (opt_name x) (opt_flow x e) c (note_declaration_opt pl x c) ->
  extends (note_declaration_opt pl x c) c' -> confined st1 ->
  Inv q c' (declare_opt sites pl x v st1) /\ temps (declare_opt sites pl x v st1) = temps st.
Proof.
  intros Hi Hpq Hpl [v' st' Hev Hval] [HC Hf _ Hnew _] Hec Hcf. destruct (evaluated_later _ _ _ Hev) as [Hl _].
  destruct x as [x|]; simpl in *.
  - apply (bind_hidden_ok q pl c c' x ENull v' [e] st st'); try done; [by apply (inv_place p q)|by eapply value_of_taken| | |].
    + eapply evaluated_bound; [exact Hi|exact Hev|by eapply value_of_taken].
    + intros Hb. apply Hnew. unfold one_name. rewrite (proj2 (String.eqb_neq _ _) Hb). set_solver.
    + intros _. apply Hf. set_solver.
  - split; [|by apply la_temps]. eapply inv_extends; [exact Hec|]. eapply inv_place; [exact Hpq|]. by eapply later_inv.
Qed.

Lemma keep_iflet p st x e th el v st1 st2 o : eval fresh_call shadowed (in_arena_block p) st e v st1 ->
  exec p (declare_opt sites p x v st1) th st2 o -> keeps_exec p (declare_opt sites p x v st1) th st2 o ->
  keeps_exec1 p st (IfLetStmt x e th el) st2 o.
Proof.
  intros Hev Hx H c [Hs Hc] Hi Hcf. simpl in Hs, Hc. apply andb_true_iff in Hc as [Hc1 Hc2].
  set (cx := note_declaration_opt p x c) in *.
  destruct (side_split p (opt_name x) _ (opt_flow x e) _ c cx _ (note_declaration_opt_grown p x c)
    ltac:(etransitivity; [apply (walk_extends p th)|apply (walk_extends p el)]) Hs) as [Hsx Hs'].
  destruct (side_split p (flat_map introduced th) (flat_map introduced el) (flat_map flows th) (flat_map flows el) cx
    (walk_stmts p th cx) _ (walk_stmts_grown p th cx) (walk_extends p el _) Hs') as [Hs1 _].
  destruct (bind_opt_ok p p p c cx x e _ v st st1 Hi ltac:(lia) eq_refl Hev Hsx (reflexivity _)) as [Hi1 Ht].
  { eapply confined_wider; [|exact Hcf]. etransitivity; [apply declare_opt_wider|by eapply exec_wider]. }
  eapply post_from; [exact Ht|]. eapply post_extends; [apply (walk_extends p el)|]. by apply H.
Qed.

Lemma keep_iflet_else p st x e th el st1 st2 o : evaluated st e st1 -> keeps_exec p st1 el st2 o ->
  keeps_exec1 p st (IfLetStmt x e th el) st2 o.
Proof using.
  intros Hev H c [Hs Hc] Hi Hcf. simpl in Hs, Hc. apply andb_true_iff in Hc as [Hc1 Hc2].
  set (cx := note_declaration_opt p x c) in *. destruct (evaluated_later _ _ _ Hev) as [Hl _].
  destruct (side_split p (opt_name x) _ (opt_flow x e) _ c cx _ (note_declaration_opt_grown p x c)
    ltac:(etransitivity; [apply (walk_extends p th)|apply (walk_extends p el)]) Hs) as [_ Hs'].
  destruct (side_split p (flat_map introduced th) (flat_map introduced el) (flat_map flows th) (flat_map flows el) cx
    (walk_stmts p th cx) _ (walk_stmts_grown p th cx) (walk_extends p el _) Hs') as [_ Hs2].
  eapply later_post; [exact Hl|]. apply H; try done. eapply inv_extends; [|by eapply later_inv].
  etransitivity; [apply (note_declaration_opt_grown p x c)|apply walk_extends].
Qed.

Lemma keep_expr p st e st' o : exec_expr sites fresh_call shadowed st e st' o -> keeps_exec1 p st (ExprStmt e) st' o.
Proof.
  intros Hx c [Hs _] Hi Hcf. simpl in Hs.
  pose proof (side_after p _ _ c _ _ (note_concat_grown p e c) (proj1 (note_expression_assignment_grown p e _)) Hs) as Hs1.
  destruct (exec_expr_ok p (note_concat_operands e c) (walk_stmt p (ExprStmt e) c) st e st' o Hx) as (->&?&?); try done.
  - eapply inv_extends; [apply (note_concat_grown p)|exact Hi].
  - apply (sd_counted _ _ _ _ Hs1).
  - apply (sd_extends _ _ _ _ Hs1).
  - apply (sd_flows _ _ _ _ Hs1).
Qed.

Lemma keep_assign p st ts vs us st1 st2 f : assign_evals fresh_call shadowed st (seed_values ts vs) us st1 ->
  store_all sites (seed_values ts vs) us st1 = (st2, f) -> keeps_exec1 p st (MultiAssign ts vs false) st2 (outcome_of f).
Proof.
  intros Hev Hst c [Hs _] Hi Hcf. simpl in Hs. pose proof (note_concats_grown p vs c) as Hg.
  assert (side [] (flat_map (assign_flow (length ts =? length vs)%nat) (seed_values ts vs)) (note_concat_operand_list vs c)
    (walk_stmt p (MultiAssign ts vs false) c)) as Hs1.
  { apply (side_after p _ _ c); [exact Hg| |exact Hs]. simpl. etransitivity; [apply (scan_mismatch_grown p ts vs)|].
    apply (assignments_grown p true). }
  destruct (multi_assign_ok p (note_concat_operand_list vs c) (walk_stmt p (MultiAssign ts vs false) c) ts vs us st st1 st2 f Hev)
    as (->&?&?); try done.
  - eapply inv_extends; [apply Hg|exact Hi].
  - apply (sd_counted _ _ _ _ Hs1).
  - apply (sd_extends _ _ _ _ Hs1).
  - apply (sd_flows _ _ _ _ Hs1).
Qed.

(** *** Declarations *)
Record declaring_stmt (p : Place) (s : Stmt) (ds : list (string * Expr)) (c : Collected) : Prop := {
  ds_walk : walk_stmt p s c = note_declarations p ds (note_concat_operand_list (heads s) c);
  ds_flows : flows s = map flow_of ds;
  ds_names : introduced s = flat_map one_name (map fst ds);
  ds_covered : forall h, covered sites h s = apart_results sites s;
  ds_seed : paired s = false -> forall x e, (x, e) ∈ ds -> e = ENull \/ heads s = [e]
}.

Lemma named_targets_in bs x e : (x, e) ∈ named_targets bs -> exists t, (t, e) ∈ bs.
Proof using.
  unfold named_targets. rewrite list_elem_of_omap. intros ([t e']&Hin&Heq). simpl in Heq. destruct t; try done.
  injection Heq as <- <-. by eexists.
Qed.

Lemma declarations_stmt p s ds c : declarations s = Some ds -> declaring_stmt p s ds c.
Proof using.
  destruct s; simpl; try done; try (intros [= <-]; split; simpl; try done;
    [by rewrite seed_names_of|intros Hp x e; by apply seed_spread]).
  destruct is_short_decl; [|done]. intros [= <-]. split; simpl; try done.
  - by rewrite app_nil_r, declare_targets_eq.
  - by rewrite named_targets_names, seed_names_of.
  - intros Hp x e Hin. rewrite app_nil_r. destruct (named_targets_in _ _ _ Hin) as [t Ht]. by apply (seed_spread targets values t).
Qed.

Lemma declaring_of p s ds c : declarations s = Some ds -> ready1 p s c ->
  declaring (C := C) (sites := sites) (fresh_call := fresh_call) (shadowed := shadowed) p ds (note_concat_operand_list (heads s) c).
Proof using.
  intros Hd [Hs _]. destruct (declarations_stmt p s ds c Hd) as [Hw Hf Hn _ _]. rewrite Hw, Hf, Hn in Hs.
  pose proof (side_after p _ _ c _ _ (note_concats_grown p (heads s) c) (declarations_extends p ds _) Hs) as [? ? ? ? ?].
  by split.
Qed.

Lemma keep_declare_stmt p st s ds vs st1 : declarations s = Some ds -> evals fresh_call shadowed (in_arena_block p) st (map snd ds) vs st1 ->
  keeps_exec1 p st s (declare_all sites p (map fst ds) vs st1) Done.
Proof.
  intros Hd Hev c Hr Hi Hcf. pose proof (declaring_of p s ds c Hd Hr) as Hdc. simpl.
  rewrite (ds_walk _ _ _ _ (declarations_stmt p s ds c Hd)).
  eapply declare_ok; [exact Hdc|done| |exact Hev|exact Hcf]. eapply inv_extends; [apply (note_concats_grown p)|exact Hi].
Qed.

Lemma keep_declare_all p st s ds us st1 : declarations s = Some ds -> paired s = false -> evaluateds st (heads s) st1 ->
  Forall2 (value_of fresh_call shadowed (in_arena_block p) st) (map snd ds) us ->
  keeps_exec1 p st s (declare_all sites p (map fst ds) us st1) Done.
Proof.
  intros Hd Hp Hev Hv c Hr Hi Hcf. pose proof (declaring_of p s ds c Hd Hr) as Hdc. simpl. destruct Hr as [_ Hc].
  destruct (declarations_stmt p s ds c Hd) as [-> _ _ Hcov Hseed]. rewrite Hcov in Hc.
  eapply (declare_shared_ok p _ _ ds (heads s) us st st1); try done.
  - eapply inv_extends; [apply (note_concats_grown p)|exact Hi].
  - by eapply apart_results_spec.
  - by apply Hseed.
Qed.

(** *** Jumps *)
Lemma keep_jump p st s j st' f : (s = BreakStmt /\ j = Broke) \/ (s = ContinueStmt /\ j = Continued) -> 0 < pl_block p ->
  release_deeper (pl_block p - 1) sites st = (st', f) -> keeps_exec1 p st s st' (match f with Some w => Crashed w | None => j end).
Proof.
  intros Hs Hp Hr c _ Hi _. destruct (leave_ok p c st (pl_block p - 1) Hi ltac:(lia) ltac:(lia)) as (st1&Heq&Hi1&Ht).
  rewrite Heq in Hr. injection Hr as <- <-. by destruct Hs as [[-> ->]|[-> ->]].
Qed.

Lemma keep_return p st vs us st1 : evals fresh_call shadowed false st vs us st1 ->
  keeps_exec1 p st (ReturnStmt vs) (put_outside (⋃ (objects <$> us)) st1) Returned.
Proof using.
  intros Hev c _ Hi _. simpl. assert (Inv p c st1) as Hi1.
  { clear - Hev Hi. induction Hev as [|??????? He _ IH]; [done|]. apply IH. destruct He as [? ? He _]. by eapply evaluated_inv. }
  pose proof (i_ok _ _ _ Hi1) as [? ?]. by split.
Qed.

(** *** Cases *)
Lemma keep_switch p st tag cases es body st1 st2 o st3 o3 : evaluateds st (tag :: concat (map fst cases)) st1 ->
  (es, body) ∈ cases -> keeps_exec (deeper p) st1 body st2 o -> end_scope (pl_block p) o st2 = (st3, o3) ->
  keeps_exec1 p st (SwitchStmt tag cases) st3 o3.
Proof using.
  intros Hev Hin H He c [Hs Hc] Hi Hcf. simpl in Hs, Hc. pose proof (evaluateds_later _ _ _ Hev) as Hl.
  destruct (side_case p (fun cl => walk_stmts (deeper p) (snd cl)) (fun cl => flat_map introduced (snd cl))
    (fun cl => flat_map flows (snd cl)) cases (es, body) c) as (c1&Hc1&Hsb&Hce); try done.
  { intros cl c'. eapply grown_deeper; [apply deeper_block|apply walk_stmts_grown]. }
  rewrite forallb_forall in Hc. specialize (Hc (es, body) (proj1 (list_elem_of_In _ _) Hin)).
  eapply post_extends; [exact Hce|]. eapply later_post; [exact Hl|]. assert (Inv p c1 st1) as Hi1
    by (eapply inv_extends; [exact Hc1|by eapply later_inv]).
  apply (end_scope_ok p (deeper p) _ st1 o st2 o3 st3); [done|apply (i_place _ _ _ Hi)|by eapply inv_temps_low| |done].
  apply H; [by split|apply (inv_place p); [simpl; lia|done]|]. eapply confined_wider; [by eapply end_scope_wider|done].
Qed.

Lemma keep_type_switch p st e x cases v body st1 st2 o st3 o3 : eval fresh_call shadowed (in_arena_block p) st e v st1 ->
  body ∈ cases -> exec (deeper p) (declare_opt sites (deeper p) x v st1) body st2 o ->
  keeps_exec (deeper p) (declare_opt sites (deeper p) x v st1) body st2 o -> end_scope (pl_block p) o st2 = (st3, o3) ->
  keeps_exec1 p st (TypeSwitch e x cases) st3 o3.
Proof.
  intros Hev Hin Hx H He c [Hs Hc] Hi Hcf. simpl in Hs, Hc. set (q := deeper p) in *. set (cx := note_declaration_opt q x c) in *.
  assert (forall body c', grown p (flat_map introduced body) c' (walk_stmts q body c')) as Hg.
  { intros b c'. eapply grown_deeper; [apply deeper_block|apply walk_stmts_grown]. }
  assert (grown p (opt_name x) c cx) as Hgx by (apply binds_grown; simpl; [lia|by right]).
  destruct (side_split p (opt_name x) _ (opt_flow x e) _ c cx _ Hgx (walk_cases_extends p _ _ cases cx Hg) Hs) as [Hsx Hs'].
  destruct (side_case p (walk_stmts q) (flat_map introduced) (flat_map flows) cases body cx Hg Hin Hs') as (c1&Hc1&Hsb&Hce).
  rewrite forallb_forall in Hc. specialize (Hc body (proj1 (list_elem_of_In _ _) Hin)).
  assert (confined st2) as Hcf2 by (eapply confined_wider; [by eapply end_scope_wider|done]).
  destruct (bind_opt_ok p q q c c1 x e _ v st st1 Hi ltac:(simpl; lia) eq_refl Hev Hsx Hc1) as [Hi1 Ht].
  { eapply confined_wider; [|exact Hcf2]. etransitivity; [apply declare_opt_wider|by eapply exec_wider]. }
  eapply post_extends; [exact Hce|]. eapply post_from; [exact Ht|].
  apply (end_scope_ok p q _ (declare_opt sites q x v st1) o st2 o3 st3); [done|apply (i_place _ _ _ Hi)| | |done].
  - rewrite Ht. by eapply inv_temps_low.
  - by apply H.
Qed.

Definition select_arm (p : Place) (cl : SelectHead * list Stmt) (c : Collected) : Collected :=
  walk_stmts (deeper p) (snd cl) (note_select_bind (deeper p) (fst cl) (note_expression_assignment (sc_comm (fst cl)) c)).

Lemma select_bind_deeper p h c : grown p (head_name h) c (note_select_bind (deeper p) h c).
Proof using. eapply grown_deeper; [apply deeper_block|apply note_select_bind_grown]. Qed.

Lemma select_arm_grown p cl c : grown p (head_name (fst cl) ++ flat_map introduced (snd cl)) c (select_arm p cl c).
Proof using.
  unfold select_arm. eapply grown_then; [apply note_expression_assignment_grown|].
  eapply grown_trans; [apply select_bind_deeper|]. eapply grown_deeper; [apply deeper_block|apply walk_stmts_grown].
Qed.

Record case_sides (p : Place) (h : SelectHead) (body : list Stmt) (c c' c1 c2 c3 : Collected) : Prop := {
  cs_before : extends c c1;
  cs_comm : c2 = note_expression_assignment (sc_comm h) c1;
  cs_bound : c3 = note_select_bind (deeper p) h c2;
  cs_expr : side [] (expr_flows (sc_comm h)) c1 c2;
  cs_head : side (head_name h) [] c2 c3;
  cs_body : ready (deeper p) body c3;
  cs_after : extends (walk_stmts (deeper p) body c3) c'
}.

Lemma select_sides p cases h body c : ready1 p (SelectStmt cases) c -> (h, body) ∈ cases ->
  exists c1 c2 c3, case_sides p h body c (walk_stmt p (SelectStmt cases) c) c1 c2 c3.
Proof using.
  intros [Hs Hc] Hin. simpl in Hs, Hc.
  destruct (side_case p (select_arm p) (fun cl => head_name (fst cl) ++ flat_map introduced (snd cl))
    (fun cl => expr_flows (sc_comm (fst cl)) ++ flat_map flows (snd cl)) cases (h, body) c) as (c1&Hc1&Hsb&Hce); try done.
  { intros cl c'. apply select_arm_grown. }
  set (c2 := note_expression_assignment (sc_comm h) c1). set (c3 := note_select_bind (deeper p) h c2).
  pose proof (walk_extends (deeper p) body c3) as Hw. pose proof (select_bind_deeper p h c2) as Hg3.
  destruct (side_split p [] _ (expr_flows (sc_comm h)) _ c1 c2 _ (note_expression_assignment_grown p (sc_comm h) c1)
    ltac:(etransitivity; [apply Hg3|exact Hw]) Hsb) as [He Hr].
  destruct (side_split p (head_name h) (flat_map introduced body) [] (flat_map flows body) c2 c3 _ Hg3 Hw Hr) as [Hh Hb].
  rewrite forallb_forall in Hc. specialize (Hc (h, body) (proj1 (list_elem_of_In _ _) Hin)).
  exists c1, c2, c3. by split.
Qed.

(** The communication, then what it binds. *)
Lemma select_bound p st h v st1 o st2 f c c' body c1 c2 c3 : case_sides p h body c c' c1 c2 c3 -> Inv p c st ->
  exec_expr sites fresh_call shadowed st (sc_comm h) st1 o -> objects v ⊆ outside st1 ->
  received sites (deeper p) h v st1 = (st2, f) -> confined st2 -> f = None /\ Inv (deeper p) c3 st2 /\ temps st2 = temps st.
Proof.
  intros Hcs Hi Hx Hv Hrc Hcf. pose proof (cs_expr _ _ _ _ _ _ _ _ Hcs) as He. pose proof (cs_head _ _ _ _ _ _ _ _ Hcs) as Hh.
  destruct (exec_expr_ok p c1 c2 st (sc_comm h) st1 o Hx) as (_&Hi1&Ht1).
  - eapply inv_extends; [apply (cs_before _ _ _ _ _ _ _ _ Hcs)|done].
  - apply (sd_counted _ _ _ _ He).
  - rewrite <- (cs_comm _ _ _ _ _ _ _ _ Hcs). apply (sd_extends _ _ _ _ He).
  - by rewrite <- (cs_comm _ _ _ _ _ _ _ _ Hcs).
  - apply (sd_flows _ _ _ _ He).
  - eapply confined_wider; [by eapply received_wider|done].
  - destruct (received_ok (fresh_call := fresh_call) (shadowed := shadowed) (deeper p) (deeper p) c2 c3 h v st1 st2 f Hrc Hv) as (?&?&?); try done.
    + apply (inv_place p); [simpl; lia|done].
    + apply (sd_counted _ _ _ _ Hh).
    + apply (sd_extends _ _ _ _ He).
    + rewrite <- (cs_bound _ _ _ _ _ _ _ _ Hcs). apply (sd_extends _ _ _ _ Hh).
    + by rewrite <- (cs_bound _ _ _ _ _ _ _ _ Hcs).
    + apply (sd_new _ _ _ _ Hh).
    + split; [done|]. split; [done|congruence].
Qed.

Lemma keep_select p st cases h body st1 v st2 st3 o st4 o4 : (h, body) ∈ cases ->
  exec_expr sites fresh_call shadowed st (sc_comm h) st1 Done -> objects v ⊆ outside st1 ->
  received sites (deeper p) h v st1 = (st2, None) -> exec (deeper p) st2 body st3 o -> keeps_exec (deeper p) st2 body st3 o ->
  end_scope (pl_block p) o st3 = (st4, o4) -> keeps_exec1 p st (SelectStmt cases) st4 o4.
Proof.
  intros Hin Hx Hv Hrc Hex H He c Hr Hi Hcf. destruct (select_sides p cases h body c Hr Hin) as (c1&c2&c3&Hcs).
  assert (confined st3) as Hcf3 by (eapply confined_wider; [by eapply end_scope_wider|done]).
  destruct (select_bound p st h v st1 Done st2 None c _ body c1 c2 c3 Hcs Hi Hx Hv Hrc) as (_&Hi2&Ht).
  { eapply confined_wider; [by eapply exec_wider|done]. }
  eapply post_extends; [apply (cs_after _ _ _ _ _ _ _ _ Hcs)|]. eapply post_from; [exact Ht|].
  apply (end_scope_ok p (deeper p) _ st2 o st3 o4 st4); [done|apply (i_place _ _ _ Hi)| | |done].
  - rewrite Ht. by eapply inv_temps_low.
  - apply H; try done. apply (cs_body _ _ _ _ _ _ _ _ Hcs).
Qed.

Lemma keep_select_fault p st cases h body st1 v st2 w : (h, body) ∈ cases ->
  exec_expr sites fresh_call shadowed st (sc_comm h) st1 Done -> objects v ⊆ outside st1 ->
  received sites (deeper p) h v st1 = (st2, Some w) -> keeps_exec1 p st (SelectStmt cases) st2 (Crashed w).
Proof.
  intros Hin Hx Hv Hrc c Hr Hi Hcf. destruct (select_sides p cases h body c Hr Hin) as (c1&c2&c3&Hcs).
  by destruct (select_bound p st h v st1 Done st2 (Some w) c _ body c1 c2 c3 Hcs Hi Hx Hv Hrc Hcf).
Qed.

Lemma keep_select_stop p st cases h body st1 o : (h, body) ∈ cases ->
  exec_expr sites fresh_call shadowed st (sc_comm h) st1 o -> o <> Done -> keeps_exec1 p st (SelectStmt cases) st1 o.
Proof.
  intros Hin Hx Ho c Hr Hi Hcf. destruct (select_sides p cases h body c Hr Hin) as (c1&c2&c3&Hcs).
  pose proof (cs_expr _ _ _ _ _ _ _ _ Hcs) as He.
  destruct (exec_expr_ok p c1 c2 st (sc_comm h) st1 o Hx) as (?&_); try done.
  - eapply inv_extends; [apply (cs_before _ _ _ _ _ _ _ _ Hcs)|done].
  - apply (sd_counted _ _ _ _ He).
  - rewrite <- (cs_comm _ _ _ _ _ _ _ _ Hcs). apply (sd_extends _ _ _ _ He).
  - by rewrite <- (cs_comm _ _ _ _ _ _ _ _ Hcs).
  - apply (sd_flows _ _ _ _ He).
Qed.

(** *** Loops *)
Definition loop_post (p : Place) (c : Collected) (st : State) (o : Outcome) (st' : State) : Prop :=
  post (deeper p) c st o st' /\ (o = Done -> only_low (pl_block p) st').

Record loop_ready (p : Place) (pst body : list Stmt) (c : Collected) : Prop := {
  lp_header : pl_header p = false;
  lp_place : 0 <= pl_block p;
  lp_post : ready (in_header (deeper p)) pst c;
  lp_body : ready (deeper p) body (walk_stmts (in_header (deeper p)) pst c);
  lp_none : flat_map introduced pst = []
}.

Definition loop_walk (p : Place) (pst body : list Stmt) (c : Collected) : Collected :=
  walk_stmts (deeper p) body (walk_stmts (in_header (deeper p)) pst c).

Definition keeps_for p pst body st st' o : Prop := forall c, loop_ready p pst body c -> Inv (deeper p) c st -> confined st' ->
  loop_post p (loop_walk p pst body c) st o st'.

Lemma inv_header p c st : Inv (in_header p) c st <-> Inv p c st.
Proof using. split; apply inv_place; simpl; lia. Qed.

Lemma loop_stop_post p c st o st' o3 st3 : 0 <= pl_block p -> post (deeper p) c st o st' ->
  end_iteration sites (pl_block p) o st' = (st3, o3) -> o3 <> Done ->
  loop_post p c st (loop_outcome o3) st3 /\ loop_outcome o3 <> Broke /\ loop_outcome o3 <> Continued.
Proof.
  intros Hp Hpost He Hne. destruct (end_iteration_ok p (deeper p) c st o st' o3 st3 eq_refl Hp Hpost He) as (H1&H2&_&H4).
  split; [split; [done|]|by destruct o3]. destruct o3; simpl; try done. intros _. by apply H4.
Qed.

(** The state in which the next iteration starts. *)
Lemma next_inv p names c c' st o st' st3 : pl_header p = false -> 0 <= pl_block p -> grown (deeper p) names c c' ->
  extends c' C -> post (deeper p) c' st o st' -> end_iteration sites (pl_block p) o st' = (st3, Done) ->
  Inv (deeper p) c st3 /\ temps st3 = temps st.
Proof.
  intros Hh Hp Hg HC Hpost He. destruct (end_iteration_ok p (deeper p) c' st o st' Done st3 eq_refl Hp Hpost He) as ([Hi Ht]&_&Hst&_).
  split; [|done]. by apply (inv_iterated p names c c'); try done; apply Hst.
Qed.

Lemma loop_extends p pst body c : loop_ready p pst body c -> extends (loop_walk p pst body c) C.
Proof using. intros [_ _ _ [Hb _] _]. apply (sd_extends _ _ _ _ Hb). Qed.

Lemma post_grown p pst body c : loop_ready p pst body c -> grown (deeper p) [] c (walk_stmts (in_header (deeper p)) pst c).
Proof using.
  intros [_ _ _ _ Hn]. pose proof (walk_stmts_grown (in_header (deeper p)) pst c) as Hg. rewrite Hn in Hg.
  destruct Hg as (?&?&Hb). split; [done|]. split; [done|]. intros y r Hr Hd. destruct (Hb y r Hr Hd) as [?|[Hin _]]; [by left|].
  by apply elem_of_nil in Hin.
Qed.

Lemma body_inv p pst c st cnd st1 : Inv (deeper p) c st -> evaluated st cnd st1 ->
  Inv (deeper p) (walk_stmts (in_header (deeper p)) pst c) st1.
Proof using.
  intros Hi Hev. eapply inv_extends; [apply walk_extends|]. by eapply evaluated_inv.
Qed.

Lemma for_iterates p cnd pst body st st1 st2 o st3 c : loop_ready p pst body c -> Inv (deeper p) c st -> evaluated st cnd st1 ->
  keeps_exec (deeper p) st1 body st2 o -> end_iteration sites (pl_block p) o st2 = (st3, Done) -> confined st2 ->
  Inv (deeper p) c st3 /\ temps st3 = temps st.
Proof.
  intros Hl Hi Hev H He Hcf. pose proof (evaluated_later _ _ _ Hev) as [Hlt _].
  pose proof (H _ (lp_body _ _ _ _ Hl) (body_inv p pst c st cnd st1 Hi Hev) Hcf) as Hpost.
  destruct (next_inv p _ _ _ st1 o st2 st3 (lp_header _ _ _ _ Hl) (lp_place _ _ _ _ Hl) (walk_stmts_grown (deeper p) body _)
    (loop_extends _ _ _ _ Hl) Hpost He) as [Hi3 Ht].
  split; [|by rewrite Ht, (la_temps _ _ Hlt)]. eapply inv_no_names; [by eapply post_grown|done].
Qed.

Lemma keep_for_next p cnd pst body st st1 st2 o st3 st4 st5 o5 : evaluated st cnd st1 -> keeps_exec (deeper p) st1 body st2 o ->
  end_iteration sites (pl_block p) o st2 = (st3, Done) -> exec (in_header (deeper p)) st3 pst st4 Done ->
  keeps_exec (in_header (deeper p)) st3 pst st4 Done -> for_loop p cnd pst body st4 st5 o5 -> keeps_for p pst body st4 st5 o5 ->
  keeps_for p pst body st st5 o5.
Proof.
  intros Hev Hb He Hpx Hp Hlx Hl c Hr Hi Hcf.
  assert (confined st4) as Hcf4 by (eapply confined_wider; [by eapply for_wider|done]).
  assert (confined st3) as Hcf3 by (eapply confined_wider; [by eapply exec_wider|done]).
  assert (confined st2) as Hcf2 by (eapply confined_wider; [by eapply end_iteration_wider|done]).
  destruct (for_iterates p cnd pst body st st1 st2 o st3 c Hr Hi Hev Hb He Hcf2) as [Hi3 Ht3].
  destruct (Hp c (lp_post _ _ _ _ Hr)) as [Hi4 Ht4]; [by apply inv_header|done|].
  rewrite inv_header in Hi4. destruct (Hl c Hr) as [Hpost Hlow]; [eapply inv_no_names; [by eapply post_grown|done]|done|].
  split; [|done]. eapply post_from; [|exact Hpost]. congruence.
Qed.

Lemma keep_for_stop p cnd pst body st st1 st2 o st3 o3 : evaluated st cnd st1 -> keeps_exec (deeper p) st1 body st2 o ->
  end_iteration sites (pl_block p) o st2 = (st3, o3) -> o3 <> Done -> keeps_for p pst body st st3 (loop_outcome o3).
Proof.
  intros Hev H He Hne c Hr Hi Hcf. pose proof (evaluated_later _ _ _ Hev) as [Hlt _].
  assert (confined st2) as Hcf2 by (eapply confined_wider; [by eapply end_iteration_wider|done]).
  pose proof (H _ (lp_body _ _ _ _ Hr) (body_inv p pst c st cnd st1 Hi Hev) Hcf2) as Hpost.
  apply (loop_stop_post p _ st o st2 o3 st3 (lp_place _ _ _ _ Hr)); [|done|done]. by eapply later_post.
Qed.

Lemma keep_for_post p cnd pst body st st1 st2 o st3 st4 o4 : evaluated st cnd st1 -> keeps_exec (deeper p) st1 body st2 o ->
  end_iteration sites (pl_block p) o st2 = (st3, Done) -> exec (in_header (deeper p)) st3 pst st4 o4 ->
  keeps_exec (in_header (deeper p)) st3 pst st4 o4 -> o4 <> Done -> keeps_for p pst body st st4 o4.
Proof.
  intros Hev Hb He Hpx Hp Hne c Hr Hi Hcf.
  assert (confined st3) as Hcf3 by (eapply confined_wider; [by eapply exec_wider|done]).
  assert (confined st2) as Hcf2 by (eapply confined_wider; [by eapply end_iteration_wider|done]).
  destruct (for_iterates p cnd pst body st st1 st2 o st3 c Hr Hi Hev Hb He Hcf2) as [Hi3 Ht3].
  split; [|done]. eapply post_from; [exact Ht3|]. eapply post_extends; [apply (walk_extends (deeper p) body)|].
  eapply (post_place (deeper p) (in_header (deeper p))); [done|]. apply Hp; [apply (lp_post _ _ _ _ Hr)|by apply inv_header|done].
Qed.

(** Out of the loop. *)
Lemma loop_left p c st o st' : loop_post p c st o st' -> 0 <= pl_block p -> low (pl_block p) (temps st) -> post p c st o st'.
Proof using.
  intros [Hpost Hlow] Hp Ht. destruct o; try (eapply (post_lower p (deeper p)); done).
  destruct Hpost as [Hi Heq]. split; [|done]. apply (inv_lower p (deeper p)); try done; [by apply Hlow|by rewrite Heq].
Qed.

Lemma for_ready p init cnd pst body c : ready1 p (ForStmt init cnd pst body) c -> 0 <= pl_block p ->
  ready (in_header (deeper p)) init c /\ loop_ready p pst body (walk_stmts (in_header (deeper p)) init c).
Proof using.
  intros [Hs Hc] Hp. simpl in Hs, Hc. repeat (apply andb_true_iff in Hc as [Hc ?]).
  assert (pl_header p = false) as Hh by (by destruct (pl_header p)). set (hq := in_header (deeper p)) in *.
  set (ci := walk_stmts hq init c) in *. set (cp := walk_stmts hq pst ci).
  assert (forall ss c', grown p (flat_map introduced ss) c' (walk_stmts hq ss c')) as Hg
    by (intros ss c'; eapply grown_deeper; [apply header_block|apply walk_stmts_grown]).
  pose proof (walk_extends (deeper p) body cp) as Hw.
  destruct (side_split p (flat_map introduced init) _ (flat_map flows init) _ c ci _ (Hg init c)
    ltac:(etransitivity; [apply (walk_extends hq pst)|exact Hw]) Hs) as [Hsi Hs'].
  destruct (side_split p (flat_map introduced pst) _ (flat_map flows pst) _ ci cp _ (Hg pst ci) Hw Hs') as [Hsp Hsb].
  split; [by split|]. split; [done|done|by split| |by apply length_zero_iff_nil, Nat.eqb_eq].
  split; [done|]. simpl. by rewrite Hh.
Qed.

Lemma keep_for p st init cnd pst body st1 st2 o : keeps_exec (in_header (deeper p)) st init st1 Done ->
  for_loop p cnd pst body st1 st2 o -> keeps_for p pst body st1 st2 o -> keeps_exec1 p st (ForStmt init cnd pst body) st2 o.
Proof.
  intros Hin Hx Hl c Hr Hi Hcf. pose proof (i_place _ _ _ Hi) as Hp. destruct (for_ready p init cnd pst body c Hr Hp) as [Hri Hrl].
  destruct (Hin c Hri) as [Hi1 Ht1]; [apply (inv_place p); [simpl; lia|done]|eapply confined_wider; [by eapply for_wider|done]|].
  rewrite inv_header in Hi1. eapply post_from; [exact Ht1|]. apply loop_left; [by apply Hl|done|].
  rewrite Ht1. by eapply inv_temps_low.
Qed.

Lemma keep_for_init p st init cnd pst body st1 o : keeps_exec (in_header (deeper p)) st init st1 o -> o <> Done ->
  keeps_exec1 p st (ForStmt init cnd pst body) st1 o.
Proof.
  intros Hin Hne c Hr Hi Hcf. pose proof (i_place _ _ _ Hi) as Hp. destruct (for_ready p init cnd pst body c Hr Hp) as [Hri Hrl].
  apply (post_lower p (in_header (deeper p))); [done|done|by eapply inv_temps_low|done|].
  eapply post_extends; [|apply Hin; [exact Hri|apply (inv_place p); [simpl; lia|done]|done]].
  etransitivity; [apply (walk_extends (in_header (deeper p)) pst)|apply (walk_extends (deeper p) body)].
Qed.

(** *** Range loops *)
Definition element_ok (p : Place) (x : option string) (c : Collected) : Prop := forall y, x = Some y -> y <> "_"%string ->
  known (C := C) (in_header (deeper p)) y ENull /\ declares c y.

Record range_ready (p : Place) (k w : option string) (body : list Stmt) (c : Collected) : Prop := {
  rg_header : pl_header p = false;
  rg_place : 0 <= pl_block p;
  rg_key : element_ok p k c;
  rg_value : element_ok p w c;
  rg_body : ready (deeper p) body c
}.

Definition kept (st : State) (w : option string) (ns : gset nat) : Prop :=
  exists kp, kp ∈ temps st /\ k_name kp = w /\ k_objects kp = ns.

Definition keeps_range p k w body ns st st' o : Prop := forall c, range_ready p k w body c -> kept st w ns ->
  Inv (deeper p) c st -> confined st' ->
  loop_post p (walk_stmts (deeper p) body c) st o st' /\ o <> Broke /\ o <> Continued.

Definition element_state (p : Place) (k w : option string) (v : Value) (st : State) : State :=
  declare_opt sites (in_header (deeper p)) w v (declare_opt sites (in_header (deeper p)) k no_value st).

Lemma bind_one p c kp x v st : Inv (deeper p) c st -> kp ∈ temps st -> element_ok p x c -> objects v = ∅ \/ k_name kp = x ->
  objects v ⊆ k_objects kp -> Inv (deeper p) c (declare_opt sites (in_header (deeper p)) x v st) /\
  temps (declare_opt sites (in_header (deeper p)) x v st) = temps st.
Proof.
  intros Hi Hin He Hv Hs. destruct x as [y|]; [|done]. apply (bind_element_ok (deeper p) (in_header (deeper p)) c kp y v st Hi Hin Hv Hs eq_refl).
  intros Hb. by apply He.
Qed.

Lemma bind_elements p c k w body ns v st : range_ready p k w body c -> kept st w ns -> Inv (deeper p) c st -> objects v ⊆ ns ->
  Inv (deeper p) c (element_state p k w v st) /\ temps (element_state p k w v st) = temps st.
Proof.
  intros Hr (kp&Hin&Hk&<-) Hi Hv. assert (objects no_value = ∅) as Hno by done.
  destruct (bind_one p c kp k no_value st Hi Hin (rg_key _ _ _ _ _ Hr) (or_introl Hno)) as [Hi1 Ht1]; [rewrite Hno; apply empty_subseteq|].
  destruct (bind_one p c kp w v _ Hi1) as [Hi2 Ht2]; [by rewrite Ht1|apply (rg_value _ _ _ _ _ Hr)|by right|done|].
  split; [done|]. unfold element_state. congruence.
Qed.

Lemma keep_range_next p k w body ns st v st1 o st2 st3 o3 : objects v ⊆ ns -> keeps_exec (deeper p) (element_state p k w v st) body st1 o ->
  end_iteration sites (pl_block p) o st1 = (st2, Done) -> range_loop p k w body ns st2 st3 o3 ->
  keeps_range p k w body ns st2 st3 o3 -> keeps_range p k w body ns st st3 o3.
Proof.
  intros Hv Hb He Hlx Hl c Hr Hk Hi Hcf. destruct (bind_elements p c k w body ns v st Hr Hk Hi Hv) as [Hi0 Ht0].
  assert (confined st2) as Hcf2 by (eapply confined_wider; [by eapply range_wider|done]).
  assert (confined st1) as Hcf1 by (eapply confined_wider; [by eapply end_iteration_wider|done]).
  pose proof (Hb c (rg_body _ _ _ _ _ Hr) Hi0 Hcf1) as Hpost.
  destruct (next_inv p _ c _ _ o st1 st2 (rg_header _ _ _ _ _ Hr) (rg_place _ _ _ _ _ Hr) (walk_stmts_grown (deeper p) body c)
    (sd_extends _ _ _ _ (proj1 (rg_body _ _ _ _ _ Hr))) Hpost He) as [Hi2 Ht2].
  rewrite Ht0 in Ht2. destruct (Hl c Hr) as ([Hpost' Hlow]&?&?); [unfold kept; by rewrite Ht2|done|done|].
  split; [|done]. split; [|done]. by eapply post_from.
Qed.

Lemma keep_range_stop p k w body ns st v st1 o st2 o2 : objects v ⊆ ns -> keeps_exec (deeper p) (element_state p k w v st) body st1 o ->
  end_iteration sites (pl_block p) o st1 = (st2, o2) -> o2 <> Done -> keeps_range p k w body ns st st2 (loop_outcome o2).
Proof.
  intros Hv Hb He Hne c Hr Hk Hi Hcf. destruct (bind_elements p c k w body ns v st Hr Hk Hi Hv) as [Hi0 Ht0].
  assert (confined st1) as Hcf1 by (eapply confined_wider; [by eapply end_iteration_wider|done]).
  pose proof (Hb c (rg_body _ _ _ _ _ Hr) Hi0 Hcf1) as Hpost.
  apply (loop_stop_post p _ st o st1 o2 st2 (rg_place _ _ _ _ _ Hr)); [|done|done]. by eapply post_from.
Qed.

Lemma keep_range_end p k w body ns st : keeps_range p k w body ns st (kill (pl_block p) st) Done.
Proof using.
  intros c Hr _ Hi _. split; [|done]. split; [|intros _ x s; apply kill_low]. split; [|done].
  apply close_inv. eapply inv_extends; [apply walk_extends|done].
Qed.

Lemma keep_range_crash p k w body ns st n : n ∈ ns -> n ∈ freed st -> keeps_range p k w body ns st st (Crashed UseAfterFree).
Proof using.
  intros Hn Hf c _ (kp&Hin&_&<-) Hi _. destruct (i_temps _ _ _ Hi kp Hin) as [_ H]. by destruct (H n Hn).
Qed.

(** The names of the key and the element. *)
Lemma opt_known pl x c : side (opt_name x) [] c (note_declaration_opt pl x c) -> forall y, x = Some y -> y <> "_"%string ->
  known (C := C) pl y ENull /\ declares (note_declaration_opt pl x c) y.
Proof.
  intros [HC _ _ Hnew _] y -> Hb. simpl in *. apply declaration_known; [done| |done].
  apply Hnew. unfold one_name. rewrite (proj2 (String.eqb_neq _ _) Hb). set_solver.
Qed.

Lemma range_of p k w e body c : ready1 p (ForRangeStmt k w e body) c -> 0 <= pl_block p -> exists cw,
  range_ready p k w body cw /\ extends c cw /\ walk_stmt p (ForRangeStmt k w e body) c = walk_stmts (deeper p) body cw /\
  flow_ok (mkFlow None [e] true) = true /\ forall f, f ∈ opt_flow w e -> flow_ok f = true.
Proof.
  intros [Hs Hc] Hp. simpl in Hs, Hc. apply andb_true_iff in Hc as [Hh Hc]. set (hq := in_header (deeper p)) in *.
  assert (pl_header p = false) as Hh' by (by destruct (pl_header p)).
  set (ck := note_declaration_opt hq k c) in *. set (cw := note_declaration_opt hq w ck) in *. exists cw.
  assert (forall x c', grown p (opt_name x) c' (note_declaration_opt hq x c')) as Hg by (intros x c'; apply binds_grown; simpl; [lia|left; lia]).
  pose proof (sd_flows _ _ _ _ Hs) as Hf. pose proof (walk_extends (deeper p) body cw) as Hw.
  assert (side (opt_name k ++ opt_name w ++ flat_map introduced body) ([] ++ [] ++ flat_map flows body) c (walk_stmts (deeper p) body cw)) as Hs1.
  { eapply side_less; [|exact Hs]. intros f Hin. simpl in Hin. right. apply elem_of_app. by right. }
  destruct (side_split p (opt_name k) _ [] _ c ck _ (Hg k c) ltac:(etransitivity; [apply (Hg w ck)|exact Hw]) Hs1) as [Hk Hs2].
  destruct (side_split p (opt_name w) _ [] _ ck cw _ (Hg w ck) Hw Hs2) as [Hwv Hb].
  split; [|split; [etransitivity; [apply (Hg k c)|apply (Hg w ck)]|split; [done|]]].
  - split; try done.
    + intros y Hy Hyb. destruct (opt_known hq k c Hk y Hy Hyb) as [? Hd]. split; [done|]. eapply declares_extends; [apply (Hg w ck)|done].
    + intros y Hy Hyb. by apply (opt_known hq w ck Hwv).
    + split; [done|]. simpl. by rewrite Hh'.
  - split; [apply Hf; set_solver|]. intros f Hin. apply Hf. right. apply elem_of_app. by left.
Qed.

Lemma pop_inv p c kp ts st : Inv p c st -> temps st = kp :: ts -> Inv p c (with_temps ts st).
Proof using.
  intros [[Hp Hd] ? ? ? Hb ? ? ? Ht] He. rewrite He in Ht. split; auto; [by split| |].
  - intros m Hm. destruct (Hb m Hm) as (?&?&?&?&Hk). repeat split; auto. intros k Hin. apply Hk. rewrite He. by right.
  - simpl. intros k Hin. apply Ht. by right.
Qed.

Lemma keep_range p st k w e body v st1 st2 o : eval fresh_call shadowed (in_arena_block p) st e v st1 ->
  range_loop p k w body (objects v) (with_temps (mkKept (pl_block p) w (objects v) :: temps st1) st1) st2 o ->
  keeps_range p k w body (objects v) (with_temps (mkKept (pl_block p) w (objects v) :: temps st1) st1) st2 o ->
  keeps_exec1 p st (ForRangeStmt k w e body) (match o with Done => with_temps (temps st1) st2 | _ => st2 end) o.
Proof.
  intros [v' st' Hev Hval] Hx Hl c Hr Hi Hcf. pose proof (i_place _ _ _ Hi) as Hp. destruct (evaluated_later _ _ _ Hev) as [Hlt _].
  destruct (range_of p k w e body c Hr Hp) as (cw&Hrr&Hcw&->&Hf1&Hf2).
  assert (confined st2) as Hcf2 by (by destruct o). assert (confined st') as Hcf1.
  { apply (confined_wider _ st2); [|done]. apply range_wider in Hx. exact Hx. }
  pose proof (keep_value p c st e w Hi (later_confined _ _ Hlt Hcf1) Hf1 Hf2 (deeper p) _ v' st' Hev Hval ltac:(simpl; lia)) as Hk.
  destruct (Hl cw Hrr) as ([Hpost Hlow]&Hnb&Hnc); [|by eapply inv_extends|done|].
  { eexists. split; [simpl; left|done]. }
  destruct o; simpl in *; try done. destruct Hpost as [Hi2 Ht2]. simpl in Ht2. split; [|by rewrite <- (la_temps _ _ Hlt)].
  apply (inv_lower p (deeper p)); [done|by eapply pop_inv|by apply Hlow|]. simpl. rewrite (la_temps _ _ Hlt). by eapply inv_temps_low.
Qed.

(** ** Every run *)
Lemma keep_arena p st ss st' o : keeps_exec (in_arena p) st ss st' o -> keeps_exec1 p st (ArenaBlock ss) st' o.
Proof using.
  intros H c [Hs Hc] Hi Hcf. apply (post_place p (in_arena p)); [done|]. apply H; [by split|by apply (inv_place p)|done].
Qed.

Lemma keep_block p st s ss st' o : s = BlockStmt ss \/ s = UnsafeStmt ss -> keeps_exec p st ss st' o -> keeps_exec1 p st s st' o.
Proof using. by intros [-> | ->] H c [Hs Hc] Hi Hcf; apply H. Qed.

Lemma keep_evaluated p st s st1 : later st st1 -> keeps_exec1 p st s st1 Done.
Proof using.
  intros Hl c _ Hi _. split; [|by apply la_temps]. eapply inv_extends; [apply (walk_grown s p c)|by eapply later_inv].
Qed.

Lemma runs_keep :
  (forall p st ss st' o, exec p st ss st' o -> keeps_exec p st ss st' o) /\
  (forall p st s st' o, exec1 p st s st' o -> keeps_exec1 p st s st' o) /\
  (forall p cnd pst body st st' o, for_loop p cnd pst body st st' o -> keeps_for p pst body st st' o) /\
  (forall p k w body ns st st' o, range_loop p k w body ns st st' o -> keeps_range p k w body ns st st' o).
Proof.
  apply release_runs_ind; intros.
  - by intros c _ Hi _.
  - by intros c _ Hi _.
  - by eapply keep_next.
  - by eapply keep_stop.
  - intros c _ Hi _. by eapply no_dangling.
  - by eapply keep_block.
  - by apply keep_arena.
  - by apply keep_expr.
  - by eapply keep_assign.
  - by eapply keep_declare_stmt.
  - by eapply keep_declare_all.
  - by eapply keep_if.
  - by eapply keep_iflet.
  - by eapply keep_iflet_else.
  - by eapply keep_range.
  - by eapply keep_for.
  - by eapply keep_for_init.
  - by eapply keep_return.
  - eapply keep_evaluated. by eapply evaluated_later.
  - by eapply keep_jump.
  - by eapply keep_switch.
  - eapply keep_evaluated. by eapply evaluateds_later.
  - by eapply keep_type_switch.
  - eapply keep_evaluated. by eapply evaluated_later.
  - by eapply keep_select.
  - by eapply keep_select_fault.
  - by eapply keep_select_stop.
  - intros c0 _ Hi _. split; [|done]. by eapply no_dangling.
  - intros c0 _ Hi _. destruct (evaluated_later _ _ _ H) as [Hl _].
    split; [|intros _ x s; apply kill_low]. split; [|by apply (la_temps _ _ Hl)].
    apply close_inv. eapply inv_extends; [|by eapply later_inv]. etransitivity; [apply walk_extends|apply (walk_extends (deeper p) body)].
  - by eapply keep_for_next.
  - by eapply keep_for_stop.
  - by eapply keep_for_post.
  - by eapply keep_range_crash.
  - apply keep_range_end.
  - by eapply keep_range_next.
  - by eapply keep_range_stop.
Qed.

(** ** The function *)
Theorem run_safe body st o : C = collect body -> flows_ok C sites fresh_call shadowed body = true ->
  forallb (covered sites false) body = true -> NoDup (flat_map introduced body) ->
  run sites fresh_call shadowed body st o -> confined st -> forall w, o <> Crashed w.
Proof.
  intros HC Hf Hc Hn Hr Hcf w.
  assert (ready function_scope body nothing_collected) as Hrd.
  { split; [|done]. split; [by rewrite HC|intros f; unfold flows_ok in Hf; rewrite forallb_forall in Hf; rewrite list_elem_of_In; apply Hf|done| |].
    - by intros x _ (r&Hx&_).
    - by intros x r Hx. }
  assert (forall st1 o1, exec function_scope start body st1 o1 -> confined st1 -> post function_scope (walk_stmts function_scope body nothing_collected) start o1 st1) as Hp.
  { intros st1 o1 Hx Hcf1. apply (proj1 runs_keep _ _ _ _ _ Hx); [done|apply start_inv|done]. }
  destruct Hr as [st o st' f Hx Ho Hrel|st o Hx Ho1 Ho2].
  - specialize (Hp st o Hx). assert (exit_ok sites st) as Hok.
    { destruct Ho as [-> | ->]; [apply (i_ok _ _ _ (proj1 (Hp ltac:(eapply confined_wider; [by eapply release_deeper_wider|done]))))|apply Hp].
      eapply confined_wider; [by eapply release_deeper_wider|done]. }
    destruct (release_deeper_ok sites (-1) sites st (fun _ H => H) Hok) as (st1&Heq&_). rewrite Heq in Hrel. by injection Hrel as <- <-.
  - specialize (Hp st o Hx Hcf). by destruct o.
Qed.
End Sound.
