(* ===== verification/ReleaseResults.v ===== *)
(** * ReleaseResults: what the release plan promises, and where it does not keep it.

    The plan of a program, applied to a body that [ReleaseFlow] checks: no run in which nothing
    of an approved local leaves the function frees twice, frees foreign memory or reads freed
    memory.  The check is not part of the analysis: programs that fail it, and that the analysis
    approves, have runs that crash. *)
From Stdlib Require Import ZArith Lia Ascii String Bool.
From stdpp Require Import base list numbers option strings gmap.
From S2P Require Import Prelude Token Escape EscapePasses EscapeFacts Release ReleaseSem ReleaseFacts.
From S2P Require Import ReleaseFlow ReleaseRuns ReleaseInv ReleaseSteps ReleaseWalk ReleaseStmts ReleaseSound.
Local Open Scope Z_scope.

(** ** The plan's approvals *)
Definition summaries (P : Program) : option (list ParamEscapeSummary) := Some (Param.param_escape_analyze P).

(** The body of the first function of that name. *)
Fixpoint function_body (P : Program) (f : string) : option (list Stmt) :=
  match P with
  | [] => None
  | FuncDeclaration fd :: P =>
      match fd_name fd with
      | Some n => if (n =? f)%string then Some (default [] (fd_body fd)) else function_body P f
      | None => function_body P f
      end
  | OtherDecl :: P => function_body P f
  end.

(** The locals whose memory code generation releases. *)
Definition approved_locals (P : Program) (f : string) (body : list Stmt) : list string :=
  List.filter (release_plan_should_release (release_plan_analyze P) f) (map lr_name (items (collect body))).

(** The calls whose result the analysis takes to be made of none of the arguments. *)
Definition returns_own (P : Program) (f : string) : bool :=
  match param_escape_lookup (summaries P) f with Some s => negb (ps_return_escapes s) | None => false end.

Lemma plan_lookup_function pe le P f : plan_lookup (omap (plan_decl pe le) P) f = plan_function pe le f <$> function_body P f.
Proof.
  unfold plan_lookup. induction P as [|d P IH]; simpl; [done|]. destruct d as [fd|]; simpl; [|done].
  destruct (fd_name fd) as [n|]; simpl; [|done]. destruct (String.eqb_spec n f) as [->|]; [done|apply IH].
Qed.

Lemma find_decision (g : LocalRecord -> ReleaseDecision) rs x : (forall r, local_name (g r) = lr_name r) ->
  List.find (fun d => (local_name d =? x)%string) (map g rs) = g <$> find_in rs x.
Proof.
  intros Hg. induction rs as [|r rs IH]; simpl; [done|]. rewrite Hg. by destruct (lr_name r =? x)%string.
Qed.

Lemma should_release_approved P f body x : function_body P f = Some body ->
  release_plan_should_release (release_plan_analyze P) f x = true ->
  exists r, approved (collect body) (summaries P) x r.
Proof.
  intros Hb. unfold release_plan_should_release, release_plan_verdict, decision_lookup, release_plan_analyze.
  rewrite plan_lookup_function, Hb. simpl. rewrite find_decision by done. intros Hv. apply bool_decide_eq_true in Hv.
  destruct (find_in (items (collect body)) x) as [r|] eqn:E; [|done]. simpl in Hv. exists r.
  by eapply decide_approved.
Qed.

#[global] Instance plan_approvals P f body (Hb : function_body P f = Some body) :
  Approvals (collect body) (summaries P) (approved_locals P f body) (returns_own P) (is_local (collect body)).
Proof.
  split.
  - intros x Hx. apply list_elem_of_In, filter_In in Hx as [_ Hx]. by eapply should_release_approved.
  - intros g s Hs Hr. unfold returns_own. by rewrite Hs, Hr.
  - done.
Qed.

(** The runs of a function with the releases of its plan. *)
Definition plan_run (P : Program) (f : string) (body : list Stmt) : State -> Outcome -> Prop :=
  run (approved_locals P f body) (returns_own P) (is_local (collect body)) body.

(** The bodies the promise is kept for. *)
Definition checked (P : Program) (f : string) (body : list Stmt) : bool :=
  bool_decide (NoDup (flat_map introduced body)) && forallb (covered (approved_locals P f body) false) body &&
  flows_ok (collect body) (approved_locals P f body) (returns_own P) (is_local (collect body)) body.

(** C21: the releases that the plan of a program decides on are safe in a checked body: no run of
    the function, along any path through its loops, switches and jumps, that keeps the objects
    of the approved locals inside the function frees an object twice, frees memory the function
    does not own or reads what was freed. *)
Theorem release_plan_safe P f body st o : function_body P f = Some body -> checked P f body = true ->
  plan_run P f body st o -> confined st -> forall w, o <> Crashed w.
Proof.
  intros Hb Hc Hr Hcf. unfold checked in Hc. apply andb_true_iff in Hc as [[Hn Hcov]%andb_true_iff Hf].
  apply bool_decide_eq_true in Hn. pose proof (plan_approvals P f body Hb) as HA.
  by eapply (run_safe (HA := HA)).
Qed.

(** ** Concrete programs *)
Definition named (x : string) : Expr := Identifier x.
Definition calling (f : string) (args : list Expr) : Expr := CallExpr 0 (Identifier f) args false.
Definition assigning (x : string) (e : Expr) : Stmt := ExprStmt (BinaryExpr TOKEN_ASSIGN (named x) e).
Definition declaring_one (x : string) (e : Expr) : Stmt := VarDecl [x] [e].
Definition function (f : string) (params : list string) (body : list Stmt) : Decl :=
  FuncDeclaration (mkFunc (Some f) false [params] (Some body)).

(** [func use(p) {}], and [f] with the body given. *)
Definition program (body : list Stmt) : Program := [function "use" ["p"%string] []; function "f" ["a"; "b"]%string body].
Definition text : Expr := BinaryExpr TOKEN_PLUS (named "a") (named "b").

(** An evaluation that puts nothing outside. *)
Definition quiet (st : State) : State := mkState (env st) (S (next st)) (freed st) (outside st) (mine st) (temps st).

(** Does [e] read freed memory? *)
Definition reads_freed (st : State) (e : Expr) : bool :=
  existsb (fun xs => reads (fst xs) e && s_live (snd xs) && negb (bool_decide (objects (s_value (snd xs)) ## freed st)))
    (map_to_list (env st)).

Lemma not_dangling st e : reads_freed st e = false -> ~ dangling st e.
Proof.
  intros Hr (x&v&n&Hx&Hv&Hn&Hf). apply live_value_slot in Hv as (s&Hs&Hl&<-).
  assert (reads_freed st e = true) as H; [|congruence]. unfold reads_freed. apply existsb_exists. exists (x, s).
  split; [by apply list_elem_of_In, elem_of_map_to_list|]. simpl. rewrite Hx, Hl. simpl.
  rewrite bool_decide_false; [done|]. intros Hd. by apply (Hd n).
Qed.

Lemma quietly st e : reads_freed st e = false -> evaluated st e (quiet st).
Proof. intros Hr. apply evaluated_as; [by apply not_dangling|done|]. auto. Qed.

(** A new object that holds nothing, or what one of the names of a composite holds. *)
Definition fresh_value (st : State) : Value := mkValue (Obj (next st)) ∅.
Definition holding (st : State) (ns : gset nat) : Value := mkValue (Obj (next st)) ns.

Section Fresh.
  Context (fresh_call shadowed : string -> bool).

Lemma fresh_value_of arena st e : is_static e = false -> allocates fresh_call shadowed e = true ->
  value_of fresh_call shadowed arena st e (fresh_value st).
Proof. intros Hs Ha. unfold value_of. rewrite Hs, Ha. split; [right; right; by left|]. intros n Hn. by apply elem_of_empty in Hn. Qed.

(** What a name that the expression may hold gives to its value. *)
Lemma held_name st e x v n : may_hold fresh_call shadowed x e = true -> live_value st x = Some v -> n ∈ objects v ->
  held fresh_call shadowed st [e] n.
Proof. intros Hh Hv Hn. right. exists e, x, v. split; [by left|done]. Qed.

Lemma holding_of arena st e x v : is_static e = false -> allocates fresh_call shadowed e = true ->
  may_hold fresh_call shadowed x e = true -> live_value st x = Some v ->
  value_of fresh_call shadowed arena st e (holding st (objects v)).
Proof.
  intros Hs Ha Hh Hv. unfold value_of. rewrite Hs, Ha. split; [right; right; by left|]. intros n Hn. by eapply held_name.
Qed.

Lemma copied_value_of arena st x v : live_value st x = Some v -> value_of fresh_call shadowed arena st (Identifier x) v.
Proof. intros Hv. unfold value_of. simpl. intros n Hn. eapply held_name; [simpl; by rewrite String.eqb_refl|done|done]. Qed.

Lemma static_value_of arena st : value_of fresh_call shadowed arena st Literal no_value.
Proof. by split; [left|]. Qed.
End Fresh.

(** *** A run that the promise covers
    [s := a + b; for { t := a + b; use(t) }; s = b + a] *)
Definition looping_body : list Stmt :=
  [declaring_one "s" text;
   ForStmt [] ENull [] [declaring_one "t" text; ExprStmt (calling "use" [named "t"])];
   assigning "s" (BinaryExpr TOKEN_PLUS (named "b") (named "a"))].
Definition looping : Program := program looping_body.

Example looping_approved : approved_locals looping "f" looping_body = ["s"; "t"]%string.
Proof. vm_compute. reflexivity. Qed.
Example looping_checked : checked looping "f" looping_body = true.
Proof. vm_compute. reflexivity. Qed.

Ltac evaluating := apply quietly; vm_compute; reflexivity.
Ltac new_value := apply fresh_value_of; vm_compute; reflexivity.
Ltac computed := lazymatch goal with |- ?t = _ => let r := eval vm_compute in t in
  transitivity r; [vm_cast_no_check (eq_refl r)|reflexivity] end.
Ltac declaring_fresh := eapply x1_declare; [reflexivity|reflexivity|];
  eapply evals_cons; [eapply eval_as; [evaluating|new_value]|apply evals_nil].
Ltac assigning_fresh := eapply x1_expr, (xe_assign _ _ _ _ _ _ _ _ _ None);
  [eapply ae_cons; [evaluating|evaluating|new_value|apply ae_nil]|computed].
Ltac calls := eapply x1_expr, xe_value; [done|evaluating].

Lemma looping_run : exists st, plan_run looping "f" looping_body st Done /\ confined st.
Proof.
  unfold plan_run. eexists. split.
  - refine (run_end _ _ _ _ _ Done _ None _ _ _); [|by left|].
    + eapply ex_next; [declaring_fresh|]. eapply ex_next.
      * eapply x1_for; [apply ex_end|]. eapply fl_next; [evaluating|eapply ex_next; [declaring_fresh|eapply ex_next; [calls|apply ex_end]]
          |computed|apply ex_end|apply fl_end; evaluating].
      * eapply ex_next; [assigning_fresh|apply ex_end].
    + computed.
  - apply (bool_decide_unpack _). vm_compute. exact I.
Qed.

(** ** Where the promise is not kept
    The plan releases [x] of [f], a body without two names alike, and a run that puts none of
    its approved objects outside crashes. *)
Definition missed (P : Program) (x : string) : Prop := exists body st w, function_body P "f" = Some body /\
  NoDup (flat_map introduced body) /\ release_plan_should_release (release_plan_analyze P) "f" x = true /\
  plan_run P "f" body st (Crashed w) /\ confined st.

Lemma dangles st e : reads_freed st e = true -> dangling st e.
Proof.
  unfold reads_freed. intros Hr. apply existsb_exists in Hr as ([x s]&Hin&H). simpl in H.
  apply list_elem_of_In, elem_of_map_to_list in Hin. apply andb_true_iff in H as [[Hx Hl]%andb_true_iff Hd].
  apply negb_true_iff, bool_decide_eq_false in Hd.
  destruct (set_choose_or_empty (objects (s_value s) ∩ freed st)) as [[n Hn]|Hno].
  - apply elem_of_intersection in Hn as [? ?]. exists x, (s_value s), n. split; [done|]. split; [|done].
    apply live_value_slot. by exists s.
  - destruct Hd. by apply disjoint_intersection.
Qed.

(** [last := a + b; p := []string{last}; last = a + b; use(p)] *)
Definition composite : Program := program
  [declaring_one "last" text; declaring_one "p" (SliceLit [named "last"]); assigning "last" text;
   ExprStmt (calling "use" [named "p"])].

(** [head := T{nil}; head = T{head}; use(head)] *)
Definition push : Program := program
  [declaring_one "head" (StructLiteral [Literal]); assigning "head" (StructLiteral [named "head"]);
   ExprStmt (calling "use" [named "head"])].

(** [err := a + b; if let e := err { err = a + b; use(e) }] *)
Definition unwrapped : Program := program
  [declaring_one "err" text;
   IfLetStmt (Some "e"%string) (named "err") [assigning "err" text; ExprStmt (calling "use" [named "e"])] []].

(** [for p := ""; ; { use(p); q := a + b; p = q }] *)
Definition header : Program := program
  [ForStmt [declaring_one "p" Literal] ENull []
     [ExprStmt (calling "use" [named "p"]); declaring_one "q" text; assigning "p" (named "q")]].

(** [last := ""; for { s := a + b; t := s; last = t }; use(last)] *)
Definition passed_on : Program := program
  [declaring_one "last" Literal;
   ForStmt [] ENull [] [declaring_one "s" text; declaring_one "t" (named "s"); assigning "last" (named "t")];
   ExprStmt (calling "use" [named "last"])].

(** [func twice() { s := T{}; return s, s }], [x, y := twice()] *)
Definition twins : Program :=
  [function "twice" [] [declaring_one "s" (StructLiteral []); ReturnStmt [named "s"; named "s"]];
   function "f" [] [VarDecl ["x"; "y"]%string [calling "twice" []]]].

Ltac a_miss := unfold missed; eexists _, _, _; split; [reflexivity|]; split; [apply (bool_decide_unpack _); vm_compute; exact I|];
  split; [vm_compute; reflexivity|]; split.
Ltac inside := apply (bool_decide_unpack _); vm_compute; exact I.
Ltac stopping := eapply run_stopped; [|done|done].
Ltac reading_freed := eapply ex_stop; [eapply x1_expr, xe_crash; [by left|apply dangles; vm_compute; reflexivity]|done].
Ltac assigning_value tac := eapply x1_expr, (xe_assign _ _ _ _ _ _ _ _ _ None);
  [eapply ae_cons; [evaluating|evaluating|tac|apply ae_nil]|computed].
Ltac declaring_value tac := eapply x1_declare; [reflexivity|reflexivity|];
  eapply evals_cons; [eapply eval_as; [evaluating|tac]|apply evals_nil].
Ltac holding_name x := eapply (holding_of _ _ _ _ _ x); [reflexivity|reflexivity|reflexivity|computed].
Ltac copying := eapply copied_value_of; computed.

Lemma composite_missed : missed composite "last".
Proof.
  a_miss.
  { stopping. eapply ex_next; [declaring_fresh|].
  eapply ex_next; [declaring_value ltac:(holding_name "last"%string)|]. eapply ex_next; [assigning_fresh|]. reading_freed. }
  inside.
Qed.

Lemma push_missed : missed push "head".
Proof.
  a_miss.
  { stopping. eapply ex_next; [declaring_fresh|].
  eapply ex_next; [assigning_value ltac:(holding_name "head"%string)|]. reading_freed. }
  inside.
Qed.

Lemma unwrapped_missed : missed unwrapped "err".
Proof.
  a_miss.
  { stopping. eapply ex_next; [declaring_fresh|].
  eapply ex_stop; [|done]. eapply x1_iflet; [eapply eval_as; [evaluating|copying]|].
  eapply ex_next; [assigning_fresh|]. reading_freed. }
  inside.
Qed.

Lemma header_missed : missed header "q".
Proof.
  a_miss.
  { stopping. eapply ex_stop; [|done].
  eapply x1_for; [eapply ex_next; [declaring_value ltac:(apply static_value_of)|apply ex_end]|].
  eapply fl_next; [evaluating| | | |].
  - eapply ex_next; [calls|]. eapply ex_next; [declaring_fresh|]. eapply ex_next; [assigning_value ltac:(copying)|apply ex_end].
  - computed.
  - apply ex_end.
  - eapply (fl_stop _ _ _ _ _ _ _ _ _ _ _ _ (Crashed UseAfterFree)); [evaluating|reading_freed|computed|done]. }
  inside.
Qed.

Lemma passed_on_missed : missed passed_on "s".
Proof.
  a_miss.
  { stopping. eapply ex_next; [declaring_value ltac:(apply static_value_of)|]. eapply ex_next.
  - eapply x1_for; [apply ex_end|]. eapply fl_next; [evaluating| | |apply ex_end|].
    + eapply ex_next; [declaring_fresh|]. eapply ex_next; [declaring_value copying|].
      eapply ex_next; [assigning_value copying|apply ex_end].
    + computed.
    + apply fl_end. evaluating.
  - reading_freed. }
  inside.
Qed.

Lemma twins_missed : missed twins "x".
Proof.
  a_miss.
  - refine (run_end _ _ _ _ _ Done _ (Some DoubleFree) _ _ _); [|by left|].
    + eapply ex_next; [|apply ex_end].
      apply (x1_declare_all _ _ _ _ _ _ [("x"%string, calling "twice" []); ("y"%string, calling "twice" [])]
               [fresh_value start; fresh_value start] (quiet start)); [reflexivity|reflexivity| |].
      * eapply evaluateds_cons; [evaluating|apply evaluateds_nil].
      * apply Forall2_cons_2; [new_value|apply Forall2_cons_2; [new_value|apply Forall2_nil_2]].
    + computed.
  - inside.
Qed.

(** C22: the analysis approves locals whose release crashes the function, each for a different
    reason: a composite literal holds a local that is then rebound ([composite], [push]), a
    binding that the walk does not record holds it ([unwrapped]), the variable of a loop's
    header holds a local of one iteration ([header]), a second local carries it out of the loop
    ([passed_on]), and one call gives the same object to two names ([twins]). *)
Theorem release_plan_misses : missed composite "last" /\ missed push "head" /\ missed unwrapped "err" /\
  missed header "q" /\ missed passed_on "s" /\ missed twins "x".
Proof.
  split; [exact composite_missed|]. split; [exact push_missed|]. split; [exact unwrapped_missed|].
  split; [exact header_missed|]. split; [exact passed_on_missed|exact twins_missed].
Qed.

Lemma release_plan_safe_witness : exists st, plan_run looping "f" looping_body st Done /\ confined st /\
  forall w, Done <> Crashed w.
Proof.
  destruct looping_run as (st&Hr&Hc). exists st. split; [exact Hr|]. split; [exact Hc|].
  exact (release_plan_safe looping "f" looping_body st Done eq_refl looping_checked Hr Hc).
Defined.
