(* ===== verification/Lane.v ===== *)
(** * Lane: src/types/lane_ownership.c, the checks on lanes.Partition and lanes.Run.

    One walk per function keeps the table of names moved into a partition, the table of
    partitions already run, and the partition bindings; inside the body of a run it also keeps
    the names derived from the lane's context.  The tables hold at most
    [LANE_OWNERSHIP_MAX_MOVES_PER_FUNC] entries and what does not fit is dropped.  [NullStmt]
    and [ENull] are null pointers; [OtherExpr] and [OtherStmt] are the node kinds of no case of
    their own, with the expressions and statements below them.  The walk gives diagnostics as
    values, oldest first; that the block of a binding cannot be allocated is not modelled. *)
From Stdlib Require Import ZArith Lia Ascii String Bool.
From stdpp Require Import base list numbers option strings gmap.
From S2P Require Import Prelude Token Types ConstExpr.

(** ** Syntax *)
Local Unset Elimination Schemes.
Inductive Expr : Set :=
| ENull
| Identifier (pos : Position) (name : string)
| Literal (literal_type : TokenType) (value : string)
| BinaryExpr (op : TokenType) (left right : Expr)
| UnaryExpr (op : TokenType) (operand : Expr)
| PostfixExpr (operand : Expr)
| IndexExpr (e index : Expr)
| SliceIndexExpr (e low high : Expr)
| SliceLit (elements : list Expr)
| SelectorExpr (pos : Position) (e : Expr) (selector : string)
| CallExpr (function : Expr) (args : list Expr)
| FuncLit (pos : Position) (params : list (list string)) (captured_names : list string) (body : Stmt)
| OtherExpr (children : list Expr)
with Stmt : Set :=
| NullStmt
| BlockStmt (statements : list Stmt)
| ExprStmt (e : Expr)
| VarDecl (names : list string) (values : list Expr)
| IfStmt (condition : Expr) (then_stmt else_stmt : Stmt)
| ForStmt (init : Stmt) (condition : Expr) (post : Stmt) (vars : list string) (range_expr : Expr)
    (body : Stmt)
| ReturnStmt (values : list Expr)
| DeferStmt (call : Expr)
| GoStmt (pos : Position) (call : Expr)
| LabelStmt (s : Stmt)
| SwitchStmt (tag : Expr) (cases : list Stmt)
| CaseClause (exprs : list Expr) (body : list Stmt)
| MultiAssign (targets values : list Expr) (is_short_decl : bool)
| OtherStmt (children : list Stmt).
Local Set Elimination Schemes.

(** The expression as constant folding sees it. *)
Fixpoint as_node (e : Expr) : node :=
  match e with
  | ENull => Null
  | Identifier _ x => IdentifierNode x
  | Literal t v => LiteralNode t v
  | BinaryExpr op l r => BinaryExprNode op (as_node l) (as_node r)
  | UnaryExpr op e => UnaryExprNode op (as_node e)
  | SelectorExpr _ e sel => SelectorExprNode (as_node e) sel
  | CallExpr f args => CallExprNode (as_node f) (map as_node args)
  | _ => OtherNode
  end.

(** ** State *)
Definition LANE_OWNERSHIP_MAX_MOVES_PER_FUNC : nat := 64.
Definition LANE_DERIVED_MAX : nat := LANE_OWNERSHIP_MAX_MOVES_PER_FUNC.

Record LanePartitionBinding : Type := mkBinding {
  binding_name : string;
  source_name : string;
  partition_pos : Position;
  lane_count : option Z
}.

Inductive LaneError : Set :=
| UseAfterMove (name : string) (moved_at : Position)
| UseAfterConsume (name : string) (consumed_at : Position)
| ViewEscapes (view : string)
| MayNotCapture (name : string).

Abbreviation LaneDerivedSet := (list string).
Abbreviation NameTable := (list (string * Position)).

Record LaneWalkContext : Type := mkCtx {
  checker : Checker;
  moved : NameTable;
  bindings : list LanePartitionBinding;
  consumed : NameTable;
  outer_derived : option LaneDerivedSet;
  errors : list (Position * LaneError)
}.

Definition lane_ctx_init (ck : Checker) : LaneWalkContext := mkCtx ck [] [] [] None [].

Definition lane_ctx_reset_for_function (c : LaneWalkContext) : LaneWalkContext :=
  mkCtx (checker c) [] [] [] None (errors c).

Definition type_error (p : Position) (e : LaneError) (c : LaneWalkContext) : LaneWalkContext :=
  mkCtx (checker c) (moved c) (bindings c) (consumed c) (outer_derived c) (errors c ++ [(p, e)]).

Definition with_moved (t : NameTable) (c : LaneWalkContext) : LaneWalkContext :=
  mkCtx (checker c) t (bindings c) (consumed c) (outer_derived c) (errors c).

Definition with_consumed (t : NameTable) (c : LaneWalkContext) : LaneWalkContext :=
  mkCtx (checker c) (moved c) (bindings c) t (outer_derived c) (errors c).

Definition with_outer (o : option LaneDerivedSet) (c : LaneWalkContext) : LaneWalkContext :=
  mkCtx (checker c) (moved c) (bindings c) (consumed c) o (errors c).

Definition with_checker (ck : Checker) (c : LaneWalkContext) : LaneWalkContext :=
  mkCtx ck (moved c) (bindings c) (consumed c) (outer_derived c) (errors c).

Definition add_binding (b : LanePartitionBinding) (c : LaneWalkContext) : LaneWalkContext :=
  mkCtx (checker c) (moved c) (b :: bindings c) (consumed c) (outer_derived c) (errors c).

(** ** The tables *)
Definition table_add (name : string) (p : Position) (t : NameTable) : NameTable :=
  if (length t <? LANE_OWNERSHIP_MAX_MOVES_PER_FUNC)%nat then t ++ [(name, p)] else t.

Fixpoint table_find (name : string) (t : NameTable) : option Position :=
  match t with
  | [] => None
  | (n, p) :: t => if (n =? name)%string then Some p else table_find name t
  end.

Definition table_remove (name : string) (t : NameTable) : NameTable :=
  List.filter (fun '(n, _) => negb (n =? name)%string) t.

(** [mark_variable_moved] of ownership_checker.c: the first variable of that name. *)
Definition set_moved (v : Variable_t) : Variable_t := {|
  v_name := v_name v; v_type := v_type v; v_ownership := v_ownership v;
  v_mutability := v_mutability v; is_moved := true; is_borrowed := is_borrowed v;
  borrow_count := borrow_count v; is_initialized := is_initialized v; is_builtin := is_builtin v;
  is_captured := is_captured v; is_loop_var := is_loop_var v;
  const_int_value := const_int_value v; is_generic := is_generic v;
  type_param_count := type_param_count v; package := package v;
  is_comptime_param := is_comptime_param v |}.

Fixpoint mark_in (name : string) (vars : list Variable_t) : list Variable_t :=
  match vars with
  | [] => []
  | v :: vars => if (v_name v =? name)%string then set_moved v :: vars else v :: mark_in name vars
  end.

Fixpoint mark_in_chain (name : string) (scope : ScopeChain) : ScopeChain :=
  match scope with
  | [] => []
  | s :: parents =>
      match find_variable (variables s) name with
      | Some _ =>
          mkScope (mark_in name (variables s)) (scope_id s) (is_function_boundary s) :: parents
      | None => s :: mark_in_chain name parents
      end
  end.

Definition mark_variable_moved (name : string) (ck : Checker) : Checker :=
  mkChecker (mark_in_chain name (current_scope ck)) (exports ck).

Definition lane_mark_moved (name : string) (p : Position) (c : LaneWalkContext) : LaneWalkContext :=
  with_checker (mark_variable_moved name (checker c)) (with_moved (table_add name p (moved c)) c).

Definition lane_name_is_moved (c : LaneWalkContext) (name : string) : option Position :=
  table_find name (moved c).

Definition lane_clear_moved (name : string) (c : LaneWalkContext) : LaneWalkContext :=
  with_moved (table_remove name (moved c)) c.

(** ** The derived set *)
Definition lane_derived_contains (set : LaneDerivedSet) (name : string) : bool :=
  existsb (fun n => (n =? name)%string) set.

Definition lane_derived_add (set : LaneDerivedSet) (name : string) : LaneDerivedSet :=
  if lane_derived_contains set name then set
  else if (length set <? LANE_DERIVED_MAX)%nat then set ++ [name] else set.

(** The first answer, left to right. *)
Definition first_of {A} (f : A -> option string) :=
  fix go (xs : list A) : option string :=
    match xs with
    | [] => None
    | x :: xs => match f x with Some n => Some n | None => go xs end
    end.

Definition or_else (a b : option string) : option string :=
  match a with Some n => Some n | None => b end.

Fixpoint lane_derived_find_in_expr (set : LaneDerivedSet) (e : Expr) : option string :=
  match e with
  | Identifier _ n => if lane_derived_contains set n then Some n else None
  | BinaryExpr _ l r => or_else (lane_derived_find_in_expr set l) (lane_derived_find_in_expr set r)
  | UnaryExpr _ e | PostfixExpr e | SelectorExpr _ e _ => lane_derived_find_in_expr set e
  | IndexExpr e i => or_else (lane_derived_find_in_expr set e) (lane_derived_find_in_expr set i)
  | SliceIndexExpr e lo hi =>
      or_else (lane_derived_find_in_expr set e)
        (or_else (lane_derived_find_in_expr set lo) (lane_derived_find_in_expr set hi))
  | SliceLit es => first_of (lane_derived_find_in_expr set) es
  | CallExpr f args =>
      or_else (lane_derived_find_in_expr set f) (first_of (lane_derived_find_in_expr set) args)
  | ENull | Literal _ _ | FuncLit _ _ _ _ | OtherExpr _ => None
  end.

(** ** The walk *)
Definition for_each {A S} (f : A -> S -> S) :=
  fix go (xs : list A) (c : S) : S :=
    match xs with [] => c | x :: xs => go xs (f x c) end.

Definition lane_funclit_first_param_name (params : list (list string)) : option string :=
  match params with (n :: _) :: _ => Some n | _ => None end.

Definition lane_name_is_partition_binding (c : LaneWalkContext) (name : string) : bool :=
  existsb (fun b => (binding_name b =? name)%string) (bindings c).

Definition capture_violates (c : LaneWalkContext) (outer : option LaneDerivedSet) (name : string)
    : bool :=
  lane_name_is_partition_binding c name ||
  match lane_name_is_moved c name with Some _ => true | None => false end ||
  match outer with Some set => lane_derived_contains set name | None => false end.

Definition lane_check_capture_rule (p : Position) (captured_names : list string)
    (outer : option LaneDerivedSet) (c : LaneWalkContext) : LaneWalkContext :=
  for_each (fun name c =>
    if capture_violates c outer name then type_error p (MayNotCapture name) c else c)
    captured_names c.

Section Walk.
(** The import path of each package a marker may stand for. *)
Context (import_path : gmap positive string).

Definition lane_call_is_lanes_selector (ck : Checker) (call : Expr) : option string :=
  match call with
  | CallExpr (SelectorExpr _ (Identifier _ pkg) sel) _ =>
      match type_checker_lookup_variable ck pkg with
      | Some marker =>
          match package marker with
          | Some p =>
              match import_path !! p with
              | Some path => if (path =? "lanes")%string then Some sel else None
              | None => None
              end
          | None => None
          end
      | None => None
      end
  | _ => None
  end.

Definition lane_call_is (which : string) (ck : Checker) (call : Expr) : bool :=
  match lane_call_is_lanes_selector ck call with
  | Some sel => (sel =? which)%string
  | None => false
  end.
Definition lane_call_is_partition : Checker -> Expr -> bool := lane_call_is "Partition".
Definition lane_call_is_run : Checker -> Expr -> bool := lane_call_is "Run".

Definition expr_pos (e : Expr) : Position :=
  match e with
  | Identifier p _ | SelectorExpr p _ _ | FuncLit p _ _ _ => p
  | _ => mkPos 0 0 0
  end.

(** Obligation 3, inside one run body: the state is the context and the derived set. *)
Definition view_escapes (p : Position) (v : option string)
    (cs : LaneWalkContext * LaneDerivedSet) : LaneWalkContext * LaneDerivedSet :=
  match v with
  | Some view => (type_error p (ViewEscapes view) (fst cs), snd cs)
  | None => cs
  end.

Definition launched_captures (f : Expr) : list string :=
  match f with FuncLit _ _ names _ => names | _ => [] end.

Fixpoint lane_body_walk_stmt (s : Stmt) (cs : LaneWalkContext * LaneDerivedSet)
    : LaneWalkContext * LaneDerivedSet :=
  match s with
  | BlockStmt ss => for_each lane_body_walk_stmt ss cs
  | VarDecl names (e :: _) =>
      match lane_derived_find_in_expr (snd cs) e with
      | Some _ => (fst cs, fold_left lane_derived_add names (snd cs))
      | None => cs
      end
  | GoStmt p (CallExpr f args) =>
      let cs := for_each (fun a cs =>
        view_escapes p (lane_derived_find_in_expr (snd cs) a) cs) args cs in
      for_each (fun name cs =>
        view_escapes p (if lane_derived_contains (snd cs) name then Some name else None) cs)
        (launched_captures f) cs
  | IfStmt _ th el => lane_body_walk_stmt el (lane_body_walk_stmt th cs)
  | ForStmt init _ post _ _ body =>
      lane_body_walk_stmt body (lane_body_walk_stmt post (lane_body_walk_stmt init cs))
  | SwitchStmt _ cases => for_each lane_body_walk_stmt cases cs
  | CaseClause _ body => for_each lane_body_walk_stmt body cs
  | LabelStmt s => lane_body_walk_stmt s cs
  | _ => cs
  end.

(** Obligation 2: a partition is run once. *)
Definition consume (a0 : Expr) (c : LaneWalkContext) : LaneWalkContext :=
  match a0 with
  | Identifier p pname =>
      match table_find pname (consumed c) with
      | Some at_ => type_error p (UseAfterConsume pname at_) c
      | None => with_consumed (table_add pname p (consumed c)) c
      end
  | _ => c
  end.

(** Obligations 3 and 4 for the body of a run; the set its nested runs get to see. *)
Definition enter_body (p : Position) (params : list (list string)) (captured_names : list string)
    (body : Stmt) (c : LaneWalkContext) : LaneWalkContext * LaneDerivedSet :=
  let c := lane_check_capture_rule p captured_names (outer_derived c) c in
  let derived :=
    match lane_funclit_first_param_name params with Some n => lane_derived_add [] n | None => [] end in
  lane_body_walk_stmt body (c, derived).

(** The move and the binding a declaration [names = lanes.Partition(arr, count)] records. *)
Definition record_partition (names : list string) (move_pos : Position) (arr : Expr)
    (count_arg : list Expr) (c : LaneWalkContext) : LaneWalkContext :=
  match arr with
  | Identifier _ src =>
      let c := lane_mark_moved src move_pos c in
      match names with
      | n :: _ =>
          let count :=
            match count_arg with
            | e :: _ => goo_fold_const_int_ctx (checker c) (as_node e)
            | [] => None
            end in
          add_binding (mkBinding n src move_pos count) c
      | [] => c
      end
  | _ => c
  end.

(** The handlers take the two walkers: [reads] of an expression, [walk] of a statement. *)
Definition lane_handle_run_boundary (reads : Expr -> LaneWalkContext -> LaneWalkContext)
    (walk : Stmt -> LaneWalkContext -> LaneWalkContext) (args : list Expr) (c : LaneWalkContext)
    : LaneWalkContext :=
  match args with
  | [] => c
  | [a0] => consume a0 (reads a0 c)
  | a0 :: a1 :: rest =>
      let c := consume a0 (reads a1 (reads a0 c)) in
      match rest with
      | FuncLit p params names body :: _ =>
          let '(c', derived) := enter_body p params names body c in
          with_outer (outer_derived c) (walk body (with_outer (Some derived) c'))
      | _ => c
      end
  end.

Definition lane_handle_expr_stmt (reads : Expr -> LaneWalkContext -> LaneWalkContext) (e : Expr)
    (c : LaneWalkContext) : LaneWalkContext :=
  match e with
  | BinaryExpr op l r =>
      match op with
      | TOKEN_ASSIGN =>
          let c := reads r c in
          match l with Identifier _ name => lane_clear_moved name c | _ => reads l c end
      | _ => reads r (reads l c)
      end
  | _ => reads e c
  end.

Definition lane_handle_var_decl (reads : Expr -> LaneWalkContext -> LaneWalkContext)
    (names : list string) (values : list Expr) (c : LaneWalkContext) : LaneWalkContext :=
  match values with
  | [] => c
  | v :: _ =>
      if lane_call_is_partition (checker c) v then
        match v with
        | CallExpr f (arr :: count_arg) =>
            for_each reads count_arg (record_partition names (expr_pos f) arr count_arg c)
        | _ => c
        end
      else reads v c
  end.

Fixpoint lane_check_reads (e : Expr) (c : LaneWalkContext) : LaneWalkContext :=
  match e with
  | Identifier p name =>
      match lane_name_is_moved c name with
      | Some moved_at => type_error p (UseAfterMove name moved_at) c
      | None => c
      end
  | BinaryExpr _ l r | IndexExpr l r => lane_check_reads r (lane_check_reads l c)
  | UnaryExpr _ e | PostfixExpr e | SelectorExpr _ e _ => lane_check_reads e c
  | SliceIndexExpr e lo hi => lane_check_reads hi (lane_check_reads lo (lane_check_reads e c))
  | SliceLit es => for_each lane_check_reads es c
  | CallExpr f args =>
      if lane_call_is_run (checker c) e
      then lane_handle_run_boundary lane_check_reads lane_walk_stmt args c
      else for_each lane_check_reads args (lane_check_reads f c)
  | FuncLit _ _ _ body => lane_walk_stmt body c
  | ENull | Literal _ _ | OtherExpr _ => c
  end
with lane_walk_stmt (s : Stmt) (c : LaneWalkContext) : LaneWalkContext :=
  match s with
  | BlockStmt ss => for_each lane_walk_stmt ss c
  | ExprStmt e => lane_handle_expr_stmt lane_check_reads e c
  | VarDecl names values => lane_handle_var_decl lane_check_reads names values c
  | IfStmt e th el => lane_walk_stmt el (lane_walk_stmt th (lane_check_reads e c))
  | ForStmt init e post _ range body =>
      lane_walk_stmt body
        (lane_check_reads range (lane_walk_stmt post (lane_check_reads e (lane_walk_stmt init c))))
  | ReturnStmt (e :: _) => lane_check_reads e c
  | DeferStmt e | GoStmt _ e => lane_check_reads e c
  | LabelStmt s => lane_walk_stmt s c
  | SwitchStmt tag cases => for_each lane_walk_stmt cases (lane_check_reads tag c)
  | CaseClause es body => for_each lane_walk_stmt body (for_each lane_check_reads es c)
  | MultiAssign _ values _ => for_each lane_check_reads values c
  | NullStmt | ReturnStmt [] | OtherStmt _ => c
  end.

(** ** A program: the bodies of its functions, in order *)
Inductive Decl : Set :=
| FuncDecl (body : Stmt)
| OtherDecl.

Definition walk_decl (d : Decl) (c : LaneWalkContext) : LaneWalkContext :=
  match d with
  | FuncDecl body => lane_walk_stmt body (lane_ctx_reset_for_function c)
  | OtherDecl => c
  end.

(** The answer, and what was reported.  The checker may hold earlier errors; they do not count. *)
Definition lane_ownership_check_program (ck : Checker) (program : list Decl)
    : bool * list (Position * LaneError) :=
  let c := lane_ctx_reset_for_function (for_each walk_decl program (lane_ctx_init ck)) in
  (bool_decide (errors c = []), errors c).
End Walk.
