(* ===== verification/LaneSem.v ===== *)
(** * LaneSem: what the lane checks are about, as executions, and the programs they follow.

    A run of a function body along any control path.  The state has a flag for every variable in
    scope, innermost first: has its array been moved into a partition?  Reading a variable whose
    flag is up is a use after the move and is recorded.  Every call of lanes.Partition moves its
    argument, wherever it stands; the body of lanes.Run is run once per lane, any number of
    times.  [exec] may stop anywhere (a panic); [false] says that the statements were left early,
    which ends the enclosing loop or switch or the function.  [goto] is not among the jumps, and
    function literals other than lane bodies are given no effect: [followed] excludes them. *)
From Stdlib Require Import ZArith Lia Ascii String Bool.
From stdpp Require Import base list numbers option strings gmap.
From S2P Require Import Prelude Token Types ConstExpr Lane.

(** ** States *)
Abbreviation Env := (list (string * bool)).

Record State : Set := mkState { env : Env; uses : list string }.

Fixpoint flagged (x : string) (r : Env) : bool :=
  match r with [] => false | (y, b) :: r => if (y =? x)%string then b else flagged x r end.

Fixpoint set_flag (x : string) (b : bool) (r : Env) : Env :=
  match r with
  | [] => []
  | (y, c) :: r => if (y =? x)%string then (y, b) :: r else (y, c) :: set_flag x b r
  end.

Definition with_env (r : Env) (st : State) : State := mkState r (uses st).

Definition use (x : string) (st : State) : State :=
  if flagged x (env st) then mkState (env st) (uses st ++ [x]) else st.

Definition move (x : string) (st : State) : State := with_env (set_flag x true (env st)) st.
Definition revive (x : string) (st : State) : State := with_env (set_flag x false (env st)) st.

Definition fresh (xs : list string) : Env := map (fun x => (x, false)) xs.

(** Later names shadow earlier ones. *)
Definition declare (xs : list string) (st : State) : State :=
  with_env (fresh (rev xs) ++ env st) st.

Definition leave (outer inner : State) : State :=
  with_env (drop (length (env inner) - length (env outer)) (env inner)) inner.

(** ** Shapes *)
Section Shapes.
  Context (import_path : gmap positive string) (ck : Checker).

(** A call of lanes.Partition on a name, and its other arguments. *)
Definition partition_source (e : Expr) : option (string * list Expr) :=
  match e with
  | CallExpr _ (Identifier _ x :: rest) =>
      if lane_call_is_partition import_path ck e then Some (x, rest) else None
  | _ => None
  end.

(** A call of lanes.Run with a literal body: the other arguments, the parameters, the body. *)
Definition run_parts (e : Expr) : option (list Expr * list string * Stmt) :=
  match e with
  | CallExpr _ (a0 :: a1 :: FuncLit _ params _ body :: rest) =>
      if lane_call_is_run import_path ck e then Some (a0 :: a1 :: rest, mjoin params, body) else None
  | _ => None
  end.

(** The expressions evaluated on the way to [e], where nothing else happens. *)
Definition operands (e : Expr) : option (list Expr) :=
  match e with
  | ENull | Literal _ _ | FuncLit _ _ _ _ => Some []
  | BinaryExpr _ l r | IndexExpr l r => Some [l; r]
  | UnaryExpr _ e | PostfixExpr e | SelectorExpr _ e _ => Some [e]
  | SliceIndexExpr e lo hi => Some [e; lo; hi]
  | SliceLit es | OtherExpr es => Some es
  | CallExpr f args =>
      match lane_call_is_lanes_selector import_path ck e with
      | Some _ => Some args
      | None => Some (f :: args)
      end
  | Identifier _ _ => None
  end.

Definition parts (e : Expr) : option (list Expr) :=
  match partition_source e, run_parts e with None, None => operands e | _, _ => None end.

Definition plain_assign (e : Expr) : option (Expr * Expr) :=
  match e with
  | BinaryExpr TOKEN_ASSIGN l r => Some (l, r)
  | _ => None
  end.

Definition clause_exprs (s : Stmt) : list Expr :=
  match s with CaseClause es _ => es | _ => [] end.
Definition clause_body (s : Stmt) : list Stmt :=
  match s with CaseClause _ body => body | _ => [] end.

Definition single_partition (vs : list Expr) : option (string * list Expr) :=
  match vs with [v] => partition_source v | _ => None end.

(** ** Executions *)
Inductive eval : State -> Expr -> State -> Prop :=
| ev_name st p x : eval st (Identifier p x) (use x st)
| ev_parts st e es st' : parts e = Some es -> evals st es st' -> eval st e st'
| ev_partition st e x rest st' : partition_source e = Some (x, rest) -> evals st rest st' ->
    eval st e (move x st')
| ev_run st e args params body st1 st2 : run_parts e = Some (args, params, body) ->
    evals st args st1 -> lanes params body st1 st2 -> eval st e st2
with evals : State -> list Expr -> State -> Prop :=
| evs_nil st : evals st [] st
| evs_cons st e es st1 st2 : eval st e st1 -> evals st1 es st2 -> evals st (e :: es) st2
with lanes : list string -> Stmt -> State -> State -> Prop :=
| ln_done params body st : lanes params body st st
| ln_next params body st st1 c st2 : exec1 (declare params st) body st1 c ->
    lanes params body (leave st st1) st2 -> lanes params body st st2
with store : State -> Expr -> State -> Prop :=
| st_name st p x : store st (Identifier p x) (revive x st)
| st_place st e st' : (forall p x, e <> Identifier p x) -> eval st e st' -> store st e st'
with stores : State -> list Expr -> State -> Prop :=
| sts_nil st : stores st [] st
| sts_cons st e es st1 st2 : store st e st1 -> stores st1 es st2 -> stores st (e :: es) st2
with exec : State -> list Stmt -> State -> bool -> Prop :=
| ex_end st : exec st [] st true
| ex_stop st ss : exec st ss st false
| ex_next st s ss st1 st2 c : exec1 st s st1 true -> exec st1 ss st2 c -> exec st (s :: ss) st2 c
| ex_left st s ss st1 : exec1 st s st1 false -> exec st (s :: ss) st1 false
with exec1 : State -> Stmt -> State -> bool -> Prop :=
| x_null st : exec1 st NullStmt st true
| x_block st ss st' c : exec st ss st' c -> exec1 st (BlockStmt ss) (leave st st') c
| x_assign st e l r st1 st2 : plain_assign e = Some (l, r) -> eval st r st1 -> store st1 l st2 ->
    exec1 st (ExprStmt e) st2 true
| x_expr st e st' : plain_assign e = None -> eval st e st' -> exec1 st (ExprStmt e) st' true
| x_partition st names vs x rest st' : single_partition vs = Some (x, rest) -> evals st rest st' ->
    exec1 st (VarDecl names vs) (declare names (move x st')) true
| x_declare st names vs st' : single_partition vs = None -> evals st vs st' ->
    exec1 st (VarDecl names vs) (declare names st') true
| x_if st e th el s st1 st2 c : eval st e st1 -> s = th \/ s = el -> exec1 st1 s st2 c ->
    exec1 st (IfStmt e th el) (leave st1 st2) c
| x_for st init e post vars range body st1 st2 st3 c : exec1 st init st1 true ->
    eval st1 range st2 -> loop e post vars body st2 st3 ->
    exec1 st (ForStmt init e post vars range body) (leave st st3) c
| x_return st vs st' : evals st vs st' -> exec1 st (ReturnStmt vs) st' false
| x_defer st e st' : eval st e st' -> exec1 st (DeferStmt e) st' true
| x_go st p e st' : eval st e st' -> exec1 st (GoStmt p e) st' true
| x_label st s st' c : exec1 st s st' c -> exec1 st (LabelStmt s) st' c
| x_switch st tag cases k ss st1 st2 st3 c : eval st tag st1 ->
    evals st1 (take k (flat_map clause_exprs cases)) st2 -> sublist ss cases ->
    bodies ss st2 st3 -> exec1 st (SwitchStmt tag cases) st3 c
| x_short st targets vs st' : evals st vs st' ->
    exec1 st (MultiAssign targets vs true)
      (declare (omap (fun e => match e with Identifier _ x => Some x | _ => None end) targets) st') true
| x_multi st targets vs st1 st2 : evals st vs st1 -> stores st1 targets st2 ->
    exec1 st (MultiAssign targets vs false) st2 true
(** Any other statement runs some of what is under it, in order. *)
| x_other st ss ss' st' c : sublist ss' ss -> exec st ss' st' c ->
    exec1 st (OtherStmt ss) (leave st st') c
(** The clauses of a switch that run: the chosen one and those fallen into. *)
with bodies : list Stmt -> State -> State -> Prop :=
| bd_done st : bodies [] st st
| bd_next s ss st st1 c st2 : exec st (clause_body s) st1 c -> bodies ss (leave st st1) st2 ->
    bodies (s :: ss) st st2
with loop : Expr -> Stmt -> list string -> Stmt -> State -> State -> Prop :=
| lp_exit e post vars body st st' : eval st e st' -> loop e post vars body st st'
| lp_left e post vars body st st1 st2 c : eval st e st1 ->
    exec1 (declare vars st1) body st2 c -> loop e post vars body st (leave st1 st2)
| lp_next e post vars body st st1 st2 c st3 c' st4 : eval st e st1 ->
    exec1 (declare vars st1) body st2 c -> exec1 (leave st1 st2) post st3 c' ->
    loop e post vars body (leave st1 st3) st4 -> loop e post vars body st st4.

(** ** The programs the walk follows *)
(** The names some declaration moves. *)
Fixpoint sources_expr (e : Expr) : list string :=
  match e with
  | ENull | Identifier _ _ | Literal _ _ => []
  | BinaryExpr _ l r | IndexExpr l r => sources_expr l ++ sources_expr r
  | UnaryExpr _ e | PostfixExpr e | SelectorExpr _ e _ => sources_expr e
  | SliceIndexExpr e lo hi => sources_expr e ++ sources_expr lo ++ sources_expr hi
  | SliceLit es | OtherExpr es => flat_map sources_expr es
  | CallExpr f args => sources_expr f ++ flat_map sources_expr args
  | FuncLit _ _ _ body => sources body
  end
with sources (s : Stmt) : list string :=
  match s with
  | NullStmt => []
  | BlockStmt ss | OtherStmt ss => flat_map sources ss
  | ExprStmt e | DeferStmt e | GoStmt _ e => sources_expr e
  | VarDecl _ vs =>
      match vs with
      | CallExpr _ (Identifier _ x :: _) as v :: _ =>
          if lane_call_is_partition import_path ck v then [x] else []
      | _ => []
      end ++ flat_map sources_expr vs
  | IfStmt e th el => sources_expr e ++ sources th ++ sources el
  | ForStmt init e post _ range body =>
      sources init ++ sources_expr e ++ sources post ++ sources_expr range ++ sources body
  | ReturnStmt vs => flat_map sources_expr vs
  | LabelStmt s => sources s
  | SwitchStmt tag cases => sources_expr tag ++ flat_map sources cases
  | CaseClause es body => flat_map sources_expr es ++ flat_map sources body
  | MultiAssign ts vs _ => flat_map sources_expr vs ++ flat_map sources_expr ts
  end.

Context (T : list string).

Definition mem (x : string) (xs : list string) : bool := existsb (String.eqb x) xs.

Definition once (x : string) (xs : list string) : bool :=
  (length (List.filter (String.eqb x) xs) <=? 1)%nat.

(** A plain assignment to a name that is moved somewhere stands on every path and is to the only
    variable of that name in scope. *)
Definition revival_ok (conditional : bool) (scope : list string) (x : string) : bool :=
  negb (mem x T) || (negb conditional && once x scope).

Definition and_then {A B} (a : option A) (f : A -> option B) : option B :=
  match a with Some x => f x | None => None end.

Definition guard (b : bool) {A} (r : option A) : option A := if b then r else None.

Definition ok {A} (o : option A) : bool := match o with Some _ => true | None => false end.

(** Statements in sequence, each adding to the scope. *)
Definition in_sequence (f : Stmt -> list string -> option (list string)) :=
  fix go (ss : list Stmt) (inner : list string) : option (list string) :=
    match ss with [] => Some inner | s :: ss => and_then (f s inner) (go ss) end.

Definition target_name (e : Expr) : option string :=
  match e with Identifier _ x => Some x | _ => None end.

(** [inner] are the variables declared since the innermost loop or lane body began, [outer] the
    others: only the former may be moved.  The answer is [inner] after the statement. *)
Fixpoint followed_expr (scope : list string) (e : Expr) : bool :=
  match e with
  | ENull | Identifier _ _ | Literal _ _ => true
  | BinaryExpr _ l r | IndexExpr l r => followed_expr scope l && followed_expr scope r
  | UnaryExpr _ e | PostfixExpr e | SelectorExpr _ e _ => followed_expr scope e
  | SliceIndexExpr e lo hi => followed_expr scope e && followed_expr scope lo && followed_expr scope hi
  | SliceLit es => forallb (followed_expr scope) es
  | CallExpr f args =>
      if lane_call_is_partition import_path ck e then false
      else if lane_call_is_run import_path ck e then
        match args with
        | [a0; a1; FuncLit _ params _ body] =>
            followed_expr scope a0 && followed_expr scope a1 &&
            ok (followed_stmt true scope body (rev (mjoin params)))
        | _ => false
        end
      else followed_expr scope f && forallb (followed_expr scope) args
  | FuncLit _ _ _ _ | OtherExpr _ => false
  end
with followed_stmt (conditional : bool) (outer : list string) (s : Stmt) (inner : list string)
    : option (list string) :=
  let scope := inner ++ outer in
  let expr := followed_expr scope in
  let branch s := ok (followed_stmt true outer s inner) in
  match s with
  | NullStmt => Some inner
  | BlockStmt ss => guard (ok (in_sequence (followed_stmt conditional outer) ss inner)) (Some inner)
  | ExprStmt e =>
      match e with
      | BinaryExpr op l r =>
          match op with
          | TOKEN_ASSIGN =>
              guard (expr r && match l with
                               | Identifier _ x => revival_ok conditional scope x
                               | _ => expr l
                               end) (Some inner)
          | _ => guard (expr l && expr r) (Some inner)
          end
      | _ => guard (expr e) (Some inner)
      end
  | VarDecl names vs =>
      match vs with
      | [] => Some (rev names ++ inner)
      | [v] =>
          match v with
          | CallExpr _ (Identifier _ x :: rest) =>
              if lane_call_is_partition import_path ck v then
                guard (mem x inner && mem x T && forallb expr rest) (Some (rev names ++ inner))
              else guard (expr v) (Some (rev names ++ inner))
          | _ => guard (expr v) (Some (rev names ++ inner))
          end
      | _ => None
      end
  | IfStmt e th el => guard (expr e && branch th && branch el) (Some inner)
  | ForStmt init e post vars range body =>
      and_then (followed_stmt conditional outer init inner) (fun inner' =>
        let scope' := inner' ++ outer in
        guard (followed_expr scope' e && followed_expr scope' range &&
               ok (followed_stmt true scope' post []) &&
               ok (followed_stmt true scope' body (rev vars))) (Some inner))
  | ReturnStmt vs => guard (forallb expr vs && (length vs <=? 1)%nat) (Some inner)
  | DeferStmt e | GoStmt _ e => guard (expr e) (Some inner)
  | LabelStmt s => followed_stmt conditional outer s inner
  | SwitchStmt tag cases =>
      guard (expr tag &&
             forallb (fun s => match s with
                               | CaseClause es body =>
                                   forallb expr es && ok (in_sequence (followed_stmt true outer) body inner)
                               | _ => false
                               end) cases) (Some inner)
  | MultiAssign ts vs short =>
      guard (forallb expr vs && forallb (fun e => ok (target_name e)) ts)
        (Some (if short then rev (omap target_name ts) ++ inner else inner))
  | OtherStmt [] => Some inner
  | CaseClause _ _ | OtherStmt (_ :: _) => None
  end.
End Shapes.

(** A function with the variables [vars] in scope at its start. *)
Definition followed (import_path : gmap positive string) (ck : Checker) (vars : list string)
    (body : Stmt) : bool :=
  ok (followed_stmt import_path ck (sources import_path ck body) false [] body vars) &&
  (length (sources import_path ck body) <=? LANE_OWNERSHIP_MAX_MOVES_PER_FUNC)%nat.

Definition start (vars : list string) : State := mkState (fresh vars) [].

Scheme eval_mut := Minimality for eval Sort Prop
  with evals_mut := Minimality for evals Sort Prop
  with lanes_mut := Minimality for lanes Sort Prop
  with store_mut := Minimality for store Sort Prop
  with stores_mut := Minimality for stores Sort Prop
  with exec_mut := Minimality for exec Sort Prop
  with exec1_mut := Minimality for exec1 Sort Prop
  with bodies_mut := Minimality for bodies Sort Prop
  with loop_mut := Minimality for loop Sort Prop.
Combined Scheme runs_ind from eval_mut, evals_mut, lanes_mut, store_mut, stores_mut, exec_mut,
  exec1_mut, bodies_mut, loop_mut.
