(* ===== verification/LaneSound.v ===== *)
(** * LaneSound: a walk without a diagnostic covers every execution of a followed program.

    The invariant is [covered]: a variable whose flag is up has its name in the table of moves.
    [Calm] says of a walk that it reports nothing and that the table has room for the moves it
    may record.  [runs_sound] is the induction on executions. *)
From Stdlib Require Import ZArith Lia Ascii String Bool.
From stdpp Require Import base list numbers option strings gmap.
From S2P Require Import Prelude Token Types ConstExpr Lane LaneSem LaneFacts.

(** ** Environments *)
(** The same variables, no flag raised. *)
Definition flag_le (a b : string * bool) : Prop := a.1 = b.1 /\ (a.2 = true -> b.2 = true).
Definition env_le : Env -> Env -> Prop := Forall2 flag_le.

#[local] Instance flag_le_po : PreOrder flag_le.
Proof. split; [by intros a|]. intros a b c [E1 F1] [E2 F2]. split; [congruence|auto]. Qed.

#[export] Instance env_le_po : PreOrder env_le.
Proof. unfold env_le. apply _. Qed.

Lemma env_le_names r r' : env_le r r' -> map fst r = map fst r'.
Proof. induction 1 as [|a b ? ? [E _] _ IH]; cbn; congruence. Qed.

Lemma env_le_app r1 r2 r1' r2' : env_le r1 r1' -> env_le r2 r2' -> env_le (r1 ++ r2) (r1' ++ r2').
Proof. apply Forall2_app. Qed.

Lemma env_le_drop n r r' : env_le r r' -> env_le (drop n r) (drop n r').
Proof. apply Forall2_drop. Qed.

Lemma env_le_raised r r' x : env_le r r' -> (x, true) ∈ r -> (x, true) ∈ r'.
Proof.
  induction 1 as [|[y b] [y' b'] ? ? [E1 E2] _ IH]; [done|]. cbn in *. subst y'.
  rewrite !elem_of_cons. intros [[= <- <-]|H]; [left; by rewrite E2|right; auto].
Qed.

Lemma env_le_lower x r : env_le (set_flag x false r) r.
Proof.
  induction r as [|[y b] r IH]; [constructor|]. cbn.
  destruct (y =? x)%string; [|by constructor]. constructor; [done|reflexivity].
Qed.

Lemma set_flag_names x b r : map fst (set_flag x b r) = map fst r.
Proof. induction r as [|[y c] r IH]; [done|]. cbn. destruct (y =? x)%string; cbn; congruence. Qed.

Lemma set_flag_app x b r1 r2 : x ∈ map fst r1 -> set_flag x b (r1 ++ r2) = set_flag x b r1 ++ r2.
Proof.
  induction r1 as [|[y c] r1 IH]; cbn; [by intros ?%elem_of_nil|].
  destruct (String.eqb_spec y x) as [->|Hn]; [done|]. rewrite elem_of_cons.
  intros [->|H]; [done|]. by rewrite IH.
Qed.

Lemma raised_set x y r : (y, true) ∈ set_flag x true r -> y = x \/ (y, true) ∈ r.
Proof.
  induction r as [|[z c] r IH]; cbn; [by intros ?%elem_of_nil|].
  destruct (String.eqb_spec z x) as [->|Hn]; rewrite !elem_of_cons.
  - intros [[= ->]|H]; auto.
  - intros [[= -> <-]|H]; [auto|]. destruct (IH H); auto.
Qed.

Lemma flagged_raised x r : flagged x r = true -> (x, true) ∈ r.
Proof.
  induction r as [|[y b] r IH]; [done|]. cbn. rewrite elem_of_cons.
  destruct (String.eqb_spec y x) as [->|_]; [intros ->; by left|auto].
Qed.

Lemma raised_name x (r : Env) : (x, true) ∈ r -> x ∈ map fst r.
Proof.
  intros H. apply list_elem_of_In, in_map_iff. exists (x, true). split; [done|]. by apply list_elem_of_In.
Qed.

(** With one variable of the name, lowering its flag leaves none up. *)
Lemma lowered x r : once x (map fst r) = true -> (x, true) ∉ set_flag x false r.
Proof.
  unfold once. induction r as [|[y b] r IH]; cbn; [by intros _ ?%elem_of_nil|].
  rewrite String.eqb_sym. destruct (String.eqb_spec y x) as [->|Hn]; cbn; rewrite elem_of_cons.
  - intros H [[=]|Hin]. apply raised_name in Hin. apply Nat.leb_le in H.
    assert (x ∈ List.filter (String.eqb x) (map fst r)) as Hf.
    { apply list_elem_of_In, filter_In. split; [by apply list_elem_of_In|apply String.eqb_refl]. }
    destruct (List.filter _ _); [by apply elem_of_nil in Hf|cbn in H; lia].
  - intros H [[= ->]|Hin]; [done|]. by apply IH.
Qed.

Section Sound.
  Context (import_path : gmap positive string) (ck : Checker) (T : list string).
  Local Abbreviation reads := (lane_check_reads import_path).
  Local Abbreviation walk := (lane_walk_stmt import_path).
  Local Abbreviation src_e := (sources_expr import_path ck).
  Local Abbreviation src := (sources import_path ck).
  Local Abbreviation fexpr := (followed_expr import_path ck T).
  Local Abbreviation fstmt := (followed_stmt import_path ck T).
  Local Abbreviation framed := (framed ck).
  Local Abbreviation keeps := (keeps ck T).

(** ** The invariant *)
Definition covered (c : LaneWalkContext) (r : Env) : Prop :=
  forall x, (x, true) ∈ r -> x ∈ T /\ in_table c x.

Lemma covered_le c r r' : covered c r -> env_le r' r -> covered c r'.
Proof. intros H L x Hx. apply H. by eapply env_le_raised. Qed.

Lemma covered_app c r1 r2 : covered c (r1 ++ r2) <-> covered c r1 /\ covered c r2.
Proof.
  unfold covered. split.
  - intros H. split; intros x Hx; apply H; rewrite elem_of_app; auto.
  - intros [H1 H2] x [Hx|Hx]%elem_of_app; auto.
Qed.

Lemma covered_drop n c r : covered c r -> covered c (drop n r).
Proof. rewrite <- (take_drop n r) at 1. by intros [_ H]%covered_app. Qed.

Lemma covered_fresh xs c : covered c (fresh xs).
Proof.
  intros x H. apply list_elem_of_In, in_map_iff in H as (y & [= ] & _).
Qed.

Lemma covered_keeps f c r : keeps f -> same_markers (checker c) ck -> covered c r -> covered (f c) r.
Proof. intros K M H x Hx. destruct (H x Hx) as [HT Ht]. split; [done|]. by apply K. Qed.

(** ** Walks that report nothing *)
Record Calm (n : nat) (f : LaneWalkContext -> LaneWalkContext) (c : LaneWalkContext) : Prop := {
  ca_markers : same_markers (checker c) ck;
  ca_errors : errors (f c) = errors c;
  ca_room : length (moved c) + n <= LANE_OWNERSHIP_MAX_MOVES_PER_FUNC
}.

Lemma calm_split n m k f g c : framed n f -> framed m g -> n + m <= k ->
  Calm k (fun c => g (f c)) c -> Calm n f c /\ Calm m g (f c).
Proof.
  intros Hf Hg Hk [M E R]. destruct (Hf c M) as [[e1 E1] M1 L1 _].
  assert (same_markers (checker (f c)) ck) as M' by (by transitivity (checker c)).
  destruct (Hg _ M') as [[e2 E2] _ _ _].
  rewrite E2, E1, <- app_assoc in E. rewrite <- app_nil_r in E. apply app_inv_head in E.
  apply app_eq_nil in E as [-> ->].
  split; split; try done; try lia.
  - by rewrite E1, app_nil_r.
  - by rewrite E2, app_nil_r.
Qed.

Lemma calm_then (a b : list string) f g c : framed (length a) f -> framed (length b) g ->
  Calm (length (a ++ b)) (fun c => g (f c)) c -> Calm (length a) f c /\ Calm (length b) g (f c).
Proof. intros Hf Hg. apply (calm_split _ _ _ _ _ _ Hf Hg). by rewrite length_app. Qed.

Lemma calm_weaken n m f c : Calm n f c -> m <= n -> Calm m f c.
Proof. intros [M E R] H. split; [done|done|lia]. Qed.

(** ** What executions preserve *)
Definition names (st : State) : list string := map fst (env st).

(** Nothing used, no flag raised. *)
Definition Still (st st' : State) : Prop := uses st' = uses st /\ env_le (env st') (env st).

(** Reading [e] is reported by no walk that covers the state. *)
Definition ready (scope : list string) (r : Env) (e : Expr) : Prop :=
  fexpr scope e = true /\ exists c, Calm (length (src_e e)) (reads e) c /\ covered c r.

Definition EvalSound (st : State) (e : Expr) (st' : State) : Prop :=
  ready (names st) (env st) e -> Still st st'.
Definition EvalsSound (st : State) (es : list Expr) (st' : State) : Prop :=
  Forall (ready (names st) (env st)) es -> Still st st'.

Definition BodyReady (cond : bool) (outer inner : list string) (body : Stmt) (c : LaneWalkContext) : Prop :=
  ok (fstmt cond outer body inner) = true /\ Calm (length (src body)) (walk body) c.

Definition LanesSound (params : list string) (body : Stmt) (st st' : State) : Prop :=
  forall c, BodyReady true (names st) (rev params) body c -> covered c (env st) -> Still st st'.

(** The walk of an assignment's left side. *)
Definition walk_target (l : Expr) (c : LaneWalkContext) : LaneWalkContext :=
  match l with Identifier _ x => lane_clear_moved x c | _ => reads l c end.

Definition target_ok (cond : bool) (scope : list string) (l : Expr) : bool :=
  match l with Identifier _ x => revival_ok T cond scope x | _ => fexpr scope l end.

Definition StoreSound (st : State) (l : Expr) (st' : State) : Prop :=
  forall cond c, target_ok cond (names st) l = true -> Calm (length (src_e l)) (walk_target l) c ->
    covered c (env st) -> Still st st' /\ covered (walk_target l c) (env st').

(** Plain assignments of a multiple assignment leave the table alone. *)
Definition StoresSound (st : State) (ts : list Expr) (st' : State) : Prop :=
  forallb (fun e => ok (target_name e)) ts = true -> Still st st'.

(** After statements that began in [st] with scope [inner ++ outer]; [b]: they ran to their end,
    and left the scope [i ++ outer]. *)
Definition After (cond : bool) (outer inner i : list string) (c : LaneWalkContext) (st st' : State)
    (b : bool) : Prop :=
  uses st' = uses st /\
  (exists pre e1 e2, env st' = e1 ++ e2 /\ map fst e1 = pre ++ inner /\
     env_le e2 (drop (length inner) (env st)) /\ (b = true -> pre ++ inner = i)) /\
  (b = true \/ cond = true -> covered c (env st')).

Definition ExecSound (st : State) (ss : list Stmt) (st' : State) (b : bool) : Prop :=
  forall cond outer inner i c, in_sequence (fstmt cond outer) ss inner = Some i ->
    Calm (length (flat_map src ss)) (for_each walk ss) c -> names st = inner ++ outer ->
    covered c (env st) -> After cond outer inner i (for_each walk ss c) st st' b.

Definition Exec1Sound (st : State) (s : Stmt) (st' : State) (b : bool) : Prop :=
  forall cond outer inner i c, fstmt cond outer s inner = Some i ->
    Calm (length (src s)) (walk s) c -> names st = inner ++ outer ->
    covered c (env st) -> After cond outer inner i (walk s c) st st' b.

Definition BodiesSound (ss : list Stmt) (st st' : State) : Prop :=
  forall cases outer inner c, sublist ss cases ->
    forallb (followed_clause import_path ck T outer inner) cases = true ->
    Calm (length (flat_map src cases)) (for_each walk cases) c -> names st = inner ++ outer ->
    covered c (env st) -> After true outer inner inner (for_each walk cases c) st st' true.

Definition LoopSound (e : Expr) (post : Stmt) (vars : list string) (body : Stmt) (st st' : State) : Prop :=
  forall cp cb, ready (names st) (env st) e -> BodyReady true (names st) [] post cp ->
    BodyReady true (names st) (rev vars) body cb -> covered cp (env st) -> covered cb (env st) ->
    Still st st'.

(** ** Reading and leaving *)
Lemma still_refl st : Still st st.
Proof. by split. Qed.

Lemma still_trans st1 st2 st3 : Still st1 st2 -> Still st2 st3 -> Still st1 st3.
Proof. intros [U1 L1] [U2 L2]. split; [congruence|by transitivity (env st2)]. Qed.

Lemma still_names st st' : Still st st' -> names st' = names st.
Proof. intros [_ L]. exact (env_le_names _ _ L). Qed.

Lemma still_covered c st st' : Still st st' -> covered c (env st) -> covered c (env st').
Proof. intros [_ L] H. by eapply covered_le. Qed.

Lemma ready_still scope st st' e : Still st st' -> ready scope (env st) e -> ready scope (env st') e.
Proof. intros S (E & c & Ca & Co). split; [done|]. exists c. split; [done|by eapply still_covered]. Qed.

Lemma body_keeps cond outer inner s c : BodyReady cond outer inner s c -> cond = true -> keeps (walk s).
Proof. intros [[i E]%ok_some _] ->. by eapply walk_keeps. Qed.

(** Part of [e] is read first, the rest after. *)
Lemma ready_parts scope r c (a b : Expr) : fexpr scope a = true -> fexpr scope b = true ->
  Calm (length (src_e a ++ src_e b)) (fun c => reads b (reads a c)) c -> covered c r ->
  ready scope r a /\ ready scope r b.
Proof.
  intros Ea Eb Ca Co. pose proof (ca_markers _ _ _ Ca) as M.
  apply calm_then in Ca as [Ca Cb]; [|apply reads_frame|apply reads_frame].
  split; (split; [done|]); [by exists c|]. exists (reads a c). split; [done|].
  apply covered_keeps; [|done|done]. by eapply reads_keep.
Qed.

Lemma ready_all scope r es c : forallb (fexpr scope) es = true ->
  Calm (length (flat_map src_e es)) (for_each reads es) c -> covered c r ->
  Forall (ready scope r) es /\ covered (for_each reads es c) r.
Proof.
  revert c. induction es as [|e es IH]; intros c E Ca Co; [done|].
  apply andb_prop in E as [E1 E2]. pose proof (ca_markers _ _ _ Ca) as M.
  apply (calm_then (src_e e) (flat_map src_e es) (reads e) (for_each reads es)) in Ca as [Ca Cb];
    [|apply reads_frame|apply all_reads_frame].
  assert (covered (reads e c) r) as Co' by (apply covered_keeps; [by eapply reads_keep|done|done]).
  destruct (IH _ E2 Cb Co') as [Hf Hc]. split; [|exact Hc].
  constructor; [|done]. split; [done|]. by exists c.
Qed.

(** ** Expressions *)
Lemma calm_list es n f c : Calm n f c -> length (flat_map src_e es) <= n ->
  f c = for_each reads es c -> Calm (length (flat_map src_e es)) (for_each reads es) c.
Proof. intros [M E R] Hn Hf. split; [done|by rewrite <- Hf|lia]. Qed.

Lemma followed_run scope f args : fexpr scope (CallExpr f args) = true ->
  lane_call_is_run import_path ck (CallExpr f args) = true ->
  exists a0 a1 p params names body i, args = [a0; a1; FuncLit p params names body] /\
    fexpr scope a0 = true /\ fexpr scope a1 = true /\
    fstmt true scope body (rev (mjoin params)) = Some i.
Proof.
  intros E Hr. rewrite followed_call, Hr in E.
  destruct (lane_call_is_partition import_path ck (CallExpr f args)); [done|].
  destruct args as [|a0 [|a1 [|a2 [|]]]]; try done; [|by destruct a2].
  destruct a2; try done. apply andb_prop in E as [[E0 E1]%andb_prop [i Eb]%ok_some].
  by do 7 eexists.
Qed.

Lemma ready_pair scope r c l rr : (fexpr scope l && fexpr scope rr) = true ->
  Calm (length (src_e l ++ src_e rr)) (fun c => reads rr (reads l c)) c -> covered c r ->
  Forall (ready scope r) [l; rr].
Proof.
  intros [E1 E2]%andb_prop Ca Co. destruct (ready_parts scope r c l rr E1 E2 Ca Co) as [H1 H2].
  exact (Forall_cons_2 _ _ _ H1 (Forall_cons_2 _ _ _ H2 (Forall_nil_2 _))).
Qed.

Lemma ready_one scope r e : ready scope r e -> Forall (ready scope r) [e].
Proof. intros H. exact (Forall_cons_2 _ _ _ H (Forall_nil_2 _)). Qed.

Lemma ready_call scope r f args es : ready scope r (CallExpr f args) ->
  run_parts import_path ck (CallExpr f args) = None ->
  operands import_path ck (CallExpr f args) = Some es -> Forall (ready scope r) es.
Proof.
  intros (E & c & Ca & Co) Hr Ho. pose proof (ca_markers _ _ _ Ca) as M.
  destruct (lane_call_is_run import_path ck (CallExpr f args)) eqn:Er.
  { destruct (followed_run _ _ _ E Er) as (a0 & a1 & p & ps & xs & body & i & -> & _).
    unfold run_parts in Hr. rewrite Er in Hr. discriminate Hr. }
  rewrite followed_call, Er in E.
  destruct (lane_call_is_partition import_path ck (CallExpr f args)); [discriminate E|].
  apply andb_prop in E as [Ef Ea].
  assert (Calm (length (src_e f ++ flat_map src_e args)) (fun c => for_each reads args (reads f c)) c) as Ca'.
  { destruct Ca as [_ Er' R]. split; [done| |exact R]. rewrite <- Er', reads_call.
    unfold lane_call_is_run in *. by rewrite (call_is_markers _ _ _ _ _ M), Er. }
  apply (calm_then (src_e f) (flat_map src_e args) (reads f) (for_each reads args)) in Ca' as [C1 C2];
    [|apply reads_frame|apply all_reads_frame].
  assert (covered (reads f c) r) as Co' by (apply covered_keeps; [by eapply reads_keep|done|done]).
  destruct (ready_all scope r args _ Ea C2 Co') as [Hargs _].
  cbn [operands] in Ho. destruct (lane_call_is_lanes_selector _ _ _); injection Ho as <-; [exact Hargs|].
  refine (Forall_cons_2 _ _ _ _ Hargs). split; [exact Ef|]. by exists c.
Qed.

Lemma ready_operands scope r e es : ready scope r e -> run_parts import_path ck e = None ->
  operands import_path ck e = Some es -> Forall (ready scope r) es.
Proof.
  intros H Hr Ho. destruct e; try discriminate Ho;
    try (injection Ho as <-; first [exact (Forall_nil_2 _)|apply ready_one; exact H]);
    try (injection Ho as <-; destruct H as (E & c & Ca & Co); exact (ready_pair _ _ _ _ _ E Ca Co)).
  - injection Ho as <-. destruct H as (E & c & Ca & Co). apply andb_prop in E as [[E1 E2]%andb_prop E3].
    refine (proj1 (ready_all scope r [e1; e2; e3] c _ (calm_list _ _ _ _ Ca _ _) Co)).
    + exact (andb_true_intro (conj E1 (andb_true_intro (conj E2 (andb_true_intro (conj E3 eq_refl)))))).
    + change (length (src_e e1 ++ src_e e2 ++ src_e e3 ++ []) <= length (src_e e1 ++ src_e e2 ++ src_e e3)).
      by rewrite app_nil_r.
    + done.
  - injection Ho as <-. destruct H as (E & c & Ca & Co). exact (proj1 (ready_all scope r elements c E Ca Co)).
  - exact (ready_call scope r e args es H Hr Ho).
  - by destruct H as [E _].
Qed.

Lemma parts_sound st e es st' : parts import_path ck e = Some es -> EvalsSound st es st' ->
  EvalSound st e st'.
Proof.
  intros Hp IH H. apply IH. unfold parts in Hp.
  destruct (partition_source import_path ck e); [done|].
  destruct (run_parts import_path ck e) eqn:Hr; [done|]. by eapply ready_operands.
Qed.

Lemma name_sound st p x : EvalSound st (Identifier p x) (use x st).
Proof.
  intros (_ & c & Ca & Co). unfold use. destruct (flagged x (env st)) eqn:F; [|apply still_refl].
  apply flagged_raised in F. destruct (Co x F) as [_ Ht]. apply name_is_moved_spec in Ht as [q Hq].
  pose proof (ca_errors _ _ _ Ca) as E. cbn in E. rewrite Hq in E. cbn in E.
  apply (f_equal length) in E. rewrite length_app in E. cbn in E. lia.
Qed.

Lemma partition_unsound st e x rest st' : partition_source import_path ck e = Some (x, rest) ->
  EvalSound st e st'.
Proof.
  intros (f & p & -> & Hp)%partition_source_spec (E & _). apply followed_not_partition in E. congruence.
Qed.

Lemma evals_cons_sound st e es st1 st2 : EvalSound st e st1 -> EvalsSound st1 es st2 ->
  EvalsSound st (e :: es) st2.
Proof.
  intros He Hes H. apply Forall_cons in H as [H1 H2]. specialize (He H1).
  eapply still_trans; [exact He|]. apply Hes. rewrite (still_names _ _ He).
  eapply Forall_impl; [exact H2|]. intros a. exact (ready_still _ _ _ a He).
Qed.

(** ** Lane bodies *)
Lemma calm_run_body n p ps xs body c r : framed n (walk body) ->
  Calm n (run_body import_path p ps xs body) c -> covered c r ->
  exists c', Calm n (walk body) c' /\ covered c' r.
Proof.
  intros Hb [M E R] Co. destruct (run_body_inner import_path ck p ps xs body c M) as (c1 & d & Eq & F & Em).
  rewrite Eq in E. cbn in E. pose proof (frame_markers _ _ _ _ F M) as M1.
  exists (with_outer (Some d) c1). destruct (fr_errors _ _ _ F) as [e1 E1].
  destruct (fr_errors _ _ _ (Hb (with_outer (Some d) c1) M1)) as [e2 E2]. cbn in E2.
  rewrite E2, E1, <- app_assoc in E. rewrite <- app_nil_r in E. apply app_inv_head in E.
  apply app_eq_nil in E as [-> ->]. split; [split|].
  - exact M1.
  - rewrite E2. by rewrite app_nil_r.
  - cbn. by rewrite Em.
  - intros x Hx. destruct (Co x Hx) as [HT Ht]. split; [done|]. unfold in_table. cbn. by rewrite Em.
Qed.

Lemma run_parts_spec e args params body : run_parts import_path ck e = Some (args, params, body) ->
  exists f a0 a1 p ps xs rest, e = CallExpr f (a0 :: a1 :: FuncLit p ps xs body :: rest) /\
    lane_call_is_run import_path ck e = true /\ args = a0 :: a1 :: rest /\ params = mjoin ps.
Proof.
  destruct e; try done. destruct args0 as [|a0 [|a1 [|a2 rest]]]; try done. destruct a2; try done.
  unfold run_parts. destruct (lane_call_is_run _ _ _) eqn:E; [|done].
  intros [= <- <- <-]. by do 7 eexists.
Qed.

Lemma run_sound st e args params body st1 st2 :
  run_parts import_path ck e = Some (args, params, body) -> EvalsSound st args st1 ->
  LanesSound params body st1 st2 -> EvalSound st e st2.
Proof.
  intros (f & a0 & a1 & p & ps & xs & rest & -> & Hr & -> & ->)%run_parts_spec IHa IHl (E & c & Ca & Co).
  destruct (followed_run _ _ _ E Hr) as (? & ? & ? & ? & ? & ? & i & [= <- <- <- <- <- <- ->] & E0 & E1 & Eb).
  pose proof (ca_markers _ _ _ Ca) as M.
  set (n2 := length (src_e a0 ++ src_e a1)). set (n := length (src body)).
  assert (Calm (n2 + n) (fun c => run_body import_path p ps xs body (consume a0 (reads a1 (reads a0 c)))) c)
    as Ca'.
  { destruct Ca as [_ Er R]. split; [done| |].
    - rewrite reads_call in Er. unfold lane_call_is_run in *.
      rewrite (call_is_markers _ _ _ _ _ M), Hr, run_boundary_eq in Er. exact Er.
    - rewrite sources_call, !length_app in R. cbn [flat_map] in R. rewrite !length_app in R.
      change (length (src_e (FuncLit p ps xs body))) with n in R. unfold n2. rewrite length_app. lia. }
  pose proof (framed_then ck _ _ _ _ (reads_frame import_path ck a0) (reads_frame import_path ck a1)) as F01.
  pose proof (framed_comp ck n2 0 n2 _ _ F01 (framed_consume ck a0) ltac:(lia)) as F02.
  destruct (calm_split n2 n (n2 + n) _ _ c F02 (framed_run_body _ _ _ p ps xs body (walk_frame import_path ck body))
    (Nat.le_refl _) Ca') as [C1 C2].
  destruct (calm_split n2 0 n2 _ _ c F01 (framed_consume ck a0) ltac:(lia) C1) as [C3 _].
  destruct (ready_parts _ _ c a0 a1 E0 E1 C3 Co) as [R0 R1].
  assert (Still st st1) as S by (apply IHa; repeat constructor; apply R0 || apply R1).
  eapply still_trans; [exact S|].
  assert (covered (consume a0 (reads a1 (reads a0 c))) (env st1)) as Co1.
  { eapply still_covered; [exact S|]. refine (covered_keeps (fun c => consume a0 (reads a1 (reads a0 c))) _ _ _ M Co).
    refine (keeps_comp _ _ _ (consume a0) (keeps_comp _ _ _ _ _ _) (keeps_consume _ _ _));
      by eapply reads_keep. }
  destruct (calm_run_body n p ps xs body _ _ (walk_frame import_path ck body) C2 Co1) as (c' & Cb & Co').
  apply (IHl c'); [|exact Co']. split; [|exact Cb]. rewrite (still_names _ _ S). unfold names in *. by rewrite Eb.
Qed.

(** ** Composition *)
Lemma names_split st inner outer : names st = inner ++ outer -> exists e1 e2, env st = e1 ++ e2 /\
  map fst e1 = inner /\ map fst e2 = outer /\ drop (length inner) (env st) = e2.
Proof.
  intros H. exists (take (length inner) (env st)), (drop (length inner) (env st)).
  unfold names in H. rewrite <- fmap_take, <- fmap_drop || idtac.
  change (map fst (take (length inner) (env st))) with (fst <$> take (length inner) (env st)).
  change (map fst (drop (length inner) (env st))) with (fst <$> drop (length inner) (env st)).
  rewrite fmap_take, fmap_drop. change (fst <$> env st) with (map fst (env st)). rewrite H.
  rewrite take_app_length, drop_app_length, take_drop. done.
Qed.

Lemma drop_names (e1 e2 : Env) l : map fst e1 = l -> drop (length l) (e1 ++ e2) = e2.
Proof. intros <-. rewrite length_map. apply drop_app_length. Qed.

Lemma still_after cond outer inner c st st' b : Still st st' -> names st = inner ++ outer ->
  (b = true \/ cond = true -> covered c (env st')) -> After cond outer inner inner c st st' b.
Proof.
  intros [U L] N Co. split; [done|]. split; [|done].
  pose proof (env_le_names _ _ L) as N'. change (names st' = names st) in N'. rewrite N in N'.
  destruct (names_split st' inner outer N') as (e1 & e2 & E & E1 & _ & D).
  exists [], e1, e2. split; [done|]. split; [done|]. split; [|done]. rewrite <- D. by apply env_le_drop.
Qed.

Lemma after_then cond outer inner i1 i c1 c2 st st1 st2 b :
  After cond outer inner i1 c1 st st1 true -> After cond outer i1 i c2 st1 st2 b ->
  After cond outer inner i c2 st st2 b.
Proof.
  intros (U1 & (p1 & e1 & e1' & E1 & N1 & L1 & I1) & _) (U2 & (p2 & e2 & e2' & E2 & N2 & L2 & I2) & C2).
  specialize (I1 eq_refl). split; [congruence|]. split; [|done].
  exists (p2 ++ p1), e2, e2'. split; [done|]. split; [by rewrite N2, <- I1, app_assoc|].
  split; [|by rewrite <- app_assoc, I1]. rewrite E1 in L2.
  rewrite (drop_names e1 e1' i1) in L2 by congruence. by transitivity e1'.
Qed.

Lemma after_names cond outer inner i c st st' : After cond outer inner i c st st' true ->
  names st = inner ++ outer -> names st' = i ++ outer.
Proof.
  intros (_ & (p & e1 & e2 & E & N1 & L & I) & _) N. specialize (I eq_refl). unfold names in *.
  rewrite E, map_app, N1, I. f_equal. rewrite (env_le_names _ _ L).
  destruct (names_split st inner outer N) as (? & ? & _ & _ & <- & ->). done.
Qed.

Lemma after_still cond outer inner i c st st1 st2 b : Still st st1 ->
  After cond outer inner i c st1 st2 b -> After cond outer inner i c st st2 b.
Proof.
  intros [U L] (U2 & (p & e1 & e2 & E & N & L2 & I) & C). split; [congruence|]. split; [|done].
  exists p, e1, e2. do 2 (split; [done|]). split; [|done].
  etransitivity; [exact L2|]. by apply env_le_drop.
Qed.

(** Leaving early: the answer is not needed, the moves are where nothing is revived. *)
Lemma after_false cond outer inner i i' c c' st st' :
  After cond outer inner i c st st' false -> (cond = true -> covered c (env st') -> covered c' (env st')) ->
  After cond outer inner i' c' st st' false.
Proof.
  intros (U & (p & e1 & e2 & E & N & L & _) & C) H. split; [done|].
  split; [exists p, e1, e2; by repeat split|]. intros [?|Hc]; [done|]. auto.
Qed.

Lemma after_any cond outer inner i c st st' b : After cond outer inner i c st st' true ->
  After cond outer inner i c st st' b.
Proof.
  intros (U & (p & e1 & e2 & E & N & L & I) & C). split; [done|].
  split; [exists p, e1, e2; repeat split; auto|auto].
Qed.

(** Whatever happens in a branch is covered afterwards. *)
Lemma after_branch cond outer inner i c c' st st' b : After true outer inner i c st st' b ->
  (covered c (env st') -> covered c' (env st')) -> After cond outer inner i c' st st' b.
Proof. intros (U & E & C) H. split; [done|]. split; [done|]. auto. Qed.

Lemma after_leave cond outer inner i c st0 st st' b : names st = inner ++ outer ->
  names st0 = names st -> After cond outer inner i c st st' b -> forall b',
  (b' = true -> b = true \/ cond = true) -> After cond outer inner inner c st (leave st0 st') b'.
Proof.
  intros N N0 (U & (p & e1 & e2 & E & N1 & L & I) & C) b' Hb. split; [done|]. split.
  2:{ intros H. cbn. apply covered_drop. apply C. destruct H; auto. }
  assert (length (env st0) = length inner + length outer) as L0.
  { apply (f_equal length) in N0. unfold names in *. rewrite N in N0. rewrite length_map, length_app in N0. lia. }
  destruct (names_split st inner outer N) as (d1 & d2 & _ & _ & Nd & Dd). rewrite Dd in L.
  pose proof (env_le_names _ _ L) as N2. rewrite Nd in N2.
  assert (length e1 = length p + length inner) as L1.
  { rewrite <- (length_map fst), N1, length_app. done. }
  assert (length e2 = length outer) as L2 by (by rewrite <- (length_map fst), N2).
  exists [], (drop (length p) e1), e2. rewrite Dd. split; [|split; [|split]]; [| |done|done].
  - cbn. rewrite E, length_app, L0, L1, L2.
    replace (length p + length inner + length outer - (length inner + length outer)) with (length p) by lia.
    rewrite drop_app_le by lia. done.
  - change (map fst (drop (length p) e1)) with (fst <$> drop (length p) e1).
    rewrite fmap_drop. change (fst <$> e1) with (map fst e1). rewrite N1. apply drop_app_length.
Qed.

Lemma after_declare cond outer inner c xs st st' : Still st st' -> names st = inner ++ outer ->
  covered c (env st') -> After cond outer inner (rev xs ++ inner) c st (declare xs st') true.
Proof.
  intros [U L] N Co. split; [done|]. split.
  - pose proof (env_le_names _ _ L) as N'. change (names st' = names st) in N'. rewrite N in N'.
    destruct (names_split st' inner outer N') as (e1 & e2 & E & E1 & _ & D).
    exists (rev xs), (fresh (rev xs) ++ e1), e2. cbn. rewrite E, <- app_assoc. split; [done|].
    split; [|split; [|done]].
    + rewrite map_app, E1. f_equal. unfold fresh. rewrite map_map. apply map_id.
    + rewrite <- D. by apply env_le_drop.
  - intros _. cbn. apply covered_app. split; [apply covered_fresh|done].
Qed.

Lemma names_declare xs st : names (declare xs st) = rev xs ++ names st.
Proof. unfold names. cbn. rewrite map_app. f_equal. unfold fresh. rewrite map_map. apply map_id. Qed.

Lemma covered_declare c xs st : covered c (env st) -> covered c (env (declare xs st)).
Proof. intros H. apply covered_app. split; [apply covered_fresh|done]. Qed.

(** The body of a loop or lane changes no variable outside it. *)
Lemma body_leaves xs i c st st' b : After true (names st) (rev xs) i c (declare xs st) st' b ->
  Still st (leave st st').
Proof.
  intros (U & (p & e1 & e2 & E & N1 & L & I) & C). split; [done|].
  replace (drop (length (rev xs)) (env (declare xs st))) with (env st) in L.
  2:{ cbn. rewrite drop_names; [done|]. unfold fresh. rewrite map_map. apply map_id. }
  cbn. rewrite E, length_app, (Forall2_length _ _ _ L).
  replace (length e1 + length (env st) - length (env st)) with (length e1) by lia.
  by rewrite drop_app_length.
Qed.

(** ** The rules *)
Lemma lanes_next_sound params body st st1 b st2 : Exec1Sound (declare params st) body st1 b ->
  LanesSound params body (leave st st1) st2 -> LanesSound params body st st2.
Proof.
  intros IH1 IH2 c [[i Eb]%ok_some Ca] Co.
  pose proof (IH1 true (names st) (rev params) i c Eb Ca (names_declare params st)
    (covered_declare c params st Co)) as A.
  apply body_leaves in A. eapply still_trans; [exact A|]. apply (IH2 c).
  - rewrite (still_names _ _ A). split; [by rewrite Eb|exact Ca].
  - by eapply still_covered.
Qed.

Lemma revive_sound st p x : StoreSound st (Identifier p x) (revive x st).
Proof.
  intros cond c Ht Ca Co. assert (Still st (revive x st)) as S by (split; [done|apply env_le_lower]).
  split; [exact S|]. intros y Hy. destruct (still_covered _ _ _ S Co y Hy) as [HT Hc].
  split; [exact HT|]. apply in_table_clear. split; [exact Hc|]. intros ->.
  apply (proj2 (mem_elem x T)) in HT. cbn [target_ok] in Ht. unfold revival_ok in Ht. rewrite HT in Ht.
  cbn in Ht. apply andb_prop in Ht as [_ Ho]. by apply (lowered x (env st)) in Ho.
Qed.

Lemma place_target l cond scope : (forall p x, l <> Identifier p x) ->
  target_ok cond scope l = fexpr scope l /\ forall c, walk_target l c = reads l c.
Proof. intros H. destruct l; try done. by destruct (H pos name). Qed.

Lemma place_sound st l st' : (forall p x, l <> Identifier p x) -> EvalSound st l st' ->
  StoreSound st l st'.
Proof.
  intros Hl IH cond c Ht Ca Co. destruct (place_target l cond (names st) Hl) as [E Ew].
  rewrite E in Ht. rewrite Ew. pose proof (ca_markers _ _ _ Ca) as M.
  assert (Calm (length (src_e l)) (reads l) c) as Ca'.
  { destruct Ca as [_ Er R]. split; [done|by rewrite <- Ew|done]. }
  assert (Still st st') as S by (apply IH; split; [done|by exists c]).
  split; [exact S|]. apply covered_keeps; [by eapply reads_keep|done|by eapply still_covered].
Qed.

Lemma stores_cons_sound st e es st1 st2 : store import_path ck st e st1 -> StoresSound st1 es st2 ->
  StoresSound st (e :: es) st2.
Proof.
  intros Hs IH H. apply andb_prop in H as [[x Hx]%ok_some H].
  destruct e; try discriminate Hx. eapply still_trans; [|exact (IH H)].
  inversion Hs as [? ? ? | ? ? ? Hn]; subst; [split; [done|apply env_le_lower]|by destruct (Hn pos name)].
Qed.

Lemma all_keep_stmts ss : Forall (LaneFacts.keeps_stmt import_path ck T) ss.
Proof.
  apply Forall_true. intros s. exact (proj1 (proj2 (keeps_followed_all import_path ck T) s)).
Qed.

Lemma in_order_keeps outer ss inner i : in_sequence (fstmt true outer) ss inner = Some i ->
  keeps (for_each walk ss).
Proof. apply keeps_in_order, all_keep_stmts. Qed.

Lemma calm_cons s ss c : Calm (length (flat_map src (s :: ss))) (for_each walk (s :: ss)) c ->
  Calm (length (src s)) (walk s) c /\ Calm (length (flat_map src ss)) (for_each walk ss) (walk s c).
Proof.
  intros Ca. exact (calm_then (src s) (flat_map src ss) (walk s) (for_each walk ss) c
    (walk_frame import_path ck s) (all_walk_frame import_path ck ss) Ca).
Qed.

Lemma ex_stop_sound st ss : ExecSound st ss st false.
Proof.
  intros cond outer inner i c E Ca N Co. eapply after_false.
  - apply (still_after cond outer inner (for_each walk ss c) st st false); [apply still_refl|done|].
    intros [?| ->]; [done|]. apply covered_keeps; [by eapply in_order_keeps|exact (ca_markers _ _ _ Ca)|done].
  - done.
Qed.

Lemma ex_next_sound st s ss st1 st2 b : Exec1Sound st s st1 true -> ExecSound st1 ss st2 b ->
  ExecSound st (s :: ss) st2 b.
Proof.
  intros IH1 IH2 cond outer inner i c E Ca N Co. cbn [in_sequence] in E.
  destruct (fstmt cond outer s inner) as [i1|] eqn:E1; [|discriminate E].
  apply calm_cons in Ca as [C1 C2].
  pose proof (IH1 cond outer inner i1 c E1 C1 N Co) as A1. pose proof (after_names _ _ _ _ _ _ _ A1 N) as N1.
  eapply after_then; [exact A1|]. apply (IH2 cond outer i1 i _ E C2 N1).
  destruct A1 as (_ & _ & Co1). auto.
Qed.

Lemma ex_left_sound st s ss st1 : Exec1Sound st s st1 false -> ExecSound st (s :: ss) st1 false.
Proof.
  intros IH cond outer inner i c E Ca N Co. cbn [in_sequence] in E.
  destruct (fstmt cond outer s inner) as [i1|] eqn:E1; [|discriminate E].
  apply calm_cons in Ca as [C1 C2]. eapply after_false; [exact (IH cond outer inner i1 c E1 C1 N Co)|].
  intros -> Co1. apply (covered_keeps (for_each walk ss)); [|exact (ca_markers _ _ _ C2)|done].
  by eapply in_order_keeps.
Qed.

Lemma x_block_sound st ss st' b : ExecSound st ss st' b -> Exec1Sound st (BlockStmt ss) (leave st st') b.
Proof.
  intros IH cond outer inner i c E Ca N Co. apply guard_some in E as [[j E]%ok_some [= <-]].
  exact (after_leave _ _ _ _ _ _ _ _ _ N eq_refl (IH cond outer inner j c E Ca N Co) b (@or_introl _ _)).
Qed.

Lemma framed_target l : framed (length (src_e l)) (walk_target l).
Proof.
  destruct l; try exact (reads_frame import_path ck _).
  refine (framed_weaken ck 0 _ _ (framed_remove ck name) _). lia.
Qed.

Lemma x_assign_sound st l r st1 st2 : EvalSound st r st1 -> StoreSound st1 l st2 ->
  Exec1Sound st (ExprStmt (BinaryExpr TOKEN_ASSIGN l r)) st2 true.
Proof.
  intros IHr IHl cond outer inner i c E Ca N Co. rewrite followed_assign in E.
  apply guard_some in E as [[Er El]%andb_prop [= <-]]. pose proof (ca_markers _ _ _ Ca) as M.
  assert (Calm (length (src_e l ++ src_e r)) (fun c => walk_target l (reads r c)) c) as Ca' by exact Ca.
  apply (calm_split (length (src_e r)) (length (src_e l))) in Ca' as [C1 C2];
    [|apply reads_frame|apply framed_target|rewrite length_app; lia].
  assert (Still st st1) as S1.
  { apply IHr. unfold names in N. rewrite <- N in Er. split; [exact Er|]. by exists c. }
  assert (covered (reads r c) (env st1)) as Co1.
  { apply covered_keeps; [by eapply reads_keep|done|by eapply still_covered]. }
  destruct (IHl cond (reads r c)) as [S2 Co2]; [|exact C2|exact Co1|].
  { rewrite (still_names _ _ S1), N. by destruct l. }
  apply still_after; [by eapply still_trans|exact N|]. intros _. exact Co2.
Qed.

Lemma eval_here st e st' scope c : EvalSound st e st' -> names st = scope -> fexpr scope e = true ->
  Calm (length (src_e e)) (reads e) c -> covered c (env st) ->
  Still st st' /\ covered (reads e c) (env st').
Proof.
  intros IH <- E Ca Co. assert (Still st st') as S by (apply IH; split; [exact E|]; by exists c).
  split; [exact S|]. apply covered_keeps; [by eapply reads_keep|exact (ca_markers _ _ _ Ca)|].
  by eapply still_covered.
Qed.

Lemma evals_here st es st' scope c : EvalsSound st es st' -> names st = scope ->
  forallb (fexpr scope) es = true -> Calm (length (flat_map src_e es)) (for_each reads es) c ->
  covered c (env st) -> Still st st' /\ covered (for_each reads es c) (env st').
Proof.
  intros IH <- E Ca Co. destruct (ready_all _ _ _ _ E Ca Co) as [H Hc].
  pose proof (IH H) as S. split; [exact S|by eapply still_covered].
Qed.

Lemma x_expr_sound st e st' : plain_assign e = None -> EvalSound st e st' ->
  Exec1Sound st (ExprStmt e) st' true.
Proof.
  intros Hp IH cond outer inner i c E Ca N Co. rewrite followed_plain in E by done.
  apply guard_some in E as [E [= <-]].
  assert (Calm (length (src_e e)) (reads e) c) as Ca'.
  { destruct Ca as [M Er R]. split; [done| |exact R]. by rewrite <- Er, walk_plain. }
  destruct (eval_here _ _ _ _ _ IH N E Ca' Co) as [S Co'].
  apply still_after; [done|done|]. intros _. by rewrite walk_plain.
Qed.

(** [defer] and [go] evaluate their call. *)
Lemma x_call_sound st e st' s : (s = DeferStmt e \/ exists p, s = GoStmt p e) -> EvalSound st e st' ->
  Exec1Sound st s st' true.
Proof.
  intros Hs IH cond outer inner i c E Ca N Co.
  assert (fexpr (inner ++ outer) e = true /\ i = inner) as [E' ->].
  { destruct Hs as [->|[p ->]]; by apply guard_some in E as [? [= <-]]. }
  assert (Calm (length (src_e e)) (reads e) c) as Ca' by (destruct Hs as [->|[p ->]]; exact Ca).
  destruct (eval_here _ _ _ _ _ IH N E' Ca' Co) as [S Co'].
  apply still_after; [done|done|]. intros _. destruct Hs as [->|[p ->]]; exact Co'.
Qed.

Lemma x_return_sound st vs st' : EvalsSound st vs st' -> Exec1Sound st (ReturnStmt vs) st' false.
Proof.
  intros IH cond outer inner i c E Ca N Co. apply guard_some in E as [[E Hl]%andb_prop [= <-]].
  destruct vs as [|v [|]]; [| |done].
  - apply still_after; [apply IH; constructor|done|]. intros _. eapply still_covered; [|exact Co].
    apply IH. constructor.
  - assert (Calm (length (flat_map src_e [v])) (for_each reads [v]) c) as Ca' by exact Ca.
    destruct (evals_here _ _ _ _ _ IH N E Ca' Co) as [S Co']. by apply still_after.
Qed.

Lemma x_declare_sound st xs vs st' : single_partition import_path ck vs = None ->
  EvalsSound st vs st' -> Exec1Sound st (VarDecl xs vs) (declare xs st') true.
Proof.
  intros Hp IH cond outer inner i c E Ca N Co. rewrite followed_var_decl in E.
  destruct vs as [|v [|]]; [| |done].
  - injection E as <-. assert (Still st st') as S by (apply IH; constructor).
    apply after_declare; [exact S|exact N|by eapply still_covered].
  - cbn [single_partition] in Hp. rewrite Hp in E. apply guard_some in E as [E [= <-]].
    pose proof (ca_markers _ _ _ Ca) as M. pose proof (walk_declare import_path ck T xs v _ c M E) as Ew.
    assert (Calm (length (flat_map src_e [v])) (for_each reads [v]) c) as Ca'.
    { destruct Ca as [_ Er R]. split; [done|by rewrite <- Er, Ew|].
      rewrite sources_var_decl, length_app in R. lia. }
    destruct (evals_here _ _ _ _ _ IH N ltac:(apply andb_true_intro; split; [exact E|done]) Ca' Co) as [S Co'].
    rewrite Ew. by apply after_declare.
Qed.

Lemma after_partition cond outer inner c xs x st st' : Still st st' -> names st = inner ++ outer ->
  covered c (env st') -> x ∈ inner -> x ∈ T -> in_table c x ->
  After cond outer inner (rev xs ++ inner) c st (declare xs (move x st')) true.
Proof.
  intros [U L] N Co Hx HT Hin. pose proof (env_le_names _ _ L) as N'.
  change (names st' = names st) in N'. rewrite N in N'.
  destruct (names_split st' inner outer N') as (e1 & e2 & Ee & E1 & _ & D).
  split; [exact U|]. split.
  - exists (rev xs), (fresh (rev xs) ++ set_flag x true e1), e2. cbn.
    rewrite Ee, set_flag_app by (by rewrite E1). rewrite app_assoc. split; [done|].
    split; [|split; [rewrite <- D; by apply env_le_drop|done]].
    rewrite map_app, set_flag_names, E1. f_equal. unfold fresh. rewrite map_map. apply map_id.
  - intros _. cbn. apply covered_app. split; [apply covered_fresh|].
    intros y [-> |Hy]%raised_set; [by split|]. exact (Co y Hy).
Qed.

Lemma x_partition_sound st xs vs x rest st' : single_partition import_path ck vs = Some (x, rest) ->
  EvalsSound st rest st' -> Exec1Sound st (VarDecl xs vs) (declare xs (move x st')) true.
Proof.
  intros Hp IH cond outer inner i c E Ca N Co. destruct vs as [|v [|]]; try discriminate Hp.
  rewrite followed_var_decl in E. cbn [single_partition] in Hp. rewrite Hp in E.
  apply guard_some in E as [[[Hx HT]%andb_prop Er]%andb_prop [= <-]].
  apply mem_elem in Hx, HT. pose proof (ca_markers _ _ _ Ca) as M.
  destruct (walk_partition import_path ck xs v x rest c M Hp) as (p & p' & Ew).
  assert (Calm (1 + length (flat_map src_e rest))
            (fun c => for_each reads rest (record_partition xs p (Identifier p' x) rest c)) c) as Ca'.
  { destruct Ca as [_ Ee R]. split; [done|by rewrite <- Ee, Ew|].
    apply partition_source_spec in Hp as (f & q & -> & Hq).
    rewrite sources_var_decl in R. cbn [declared_source flat_map] in R.
    rewrite Hq, sources_call, !length_app in R. cbn [flat_map length] in R.
    rewrite length_app in R. lia. }
  apply (calm_split 1 (length (flat_map src_e rest)) _ _ _ _ (framed_record ck xs p (Identifier p' x) rest)
    (all_reads_frame import_path ck rest) (Nat.le_refl _)) in Ca' as [C1 C2].
  set (c1 := record_partition xs p (Identifier p' x) rest c) in *.
  assert (covered c1 (env st)) as Co1 by (apply covered_keeps; [apply keeps_record|done|done]).
  destruct (evals_here _ _ _ _ _ IH N Er C2 Co1) as [S Co2].
  assert (in_table (for_each reads rest c1) x) as Hin.
  { apply (keeps_exprs import_path ck T (inner ++ outer) rest); [|exact Er|exact (ca_markers _ _ _ C2)|exact HT|].
    - apply Forall_true. intros e. exact (proj1 (proj1 (keeps_followed_all import_path ck T) e)).
    - pose proof (ca_room _ _ _ C1) as R.
      unfold c1. destruct xs; apply (in_table_marked c x p); lia. }
  rewrite Ew. by apply after_partition.
Qed.

(** ** Branches, loops and switches *)
Lemma branch_sound cond outer inner st s st' b c : Exec1Sound st s st' b ->
  ok (fstmt true outer s inner) = true -> Calm (length (src s)) (walk s) c ->
  names st = inner ++ outer -> covered c (env st) ->
  forall st0, names st0 = names st -> After cond outer inner inner (walk s c) st (leave st0 st') b.
Proof.
  intros IH [i E]%ok_some Ca N Co st0 N0. eapply after_branch; [|exact (fun H => H)].
  exact (after_leave _ _ _ _ _ _ _ _ _ N N0 (IH true outer inner i c E Ca N Co) b (fun _ => or_intror eq_refl)).
Qed.

Lemma x_if_sound st e th el s st1 st2 b : EvalSound st e st1 -> s = th \/ s = el ->
  Exec1Sound st1 s st2 b -> Exec1Sound st (IfStmt e th el) (leave st1 st2) b.
Proof.
  intros IHe Hs IHs cond outer inner i c E Ca N Co.
  apply guard_some in E as [[[Ee E1]%andb_prop E2]%andb_prop [= <-]].
  apply (calm_then (src_e e) (src th ++ src el) (reads e) (fun c => walk el (walk th c))) in Ca as [Ca C2];
    [|apply reads_frame|exact (framed_then ck _ _ _ _ (walk_frame import_path ck th) (walk_frame import_path ck el))].
  apply (calm_then (src th) (src el) (walk th) (walk el)) in C2 as [C1 C2]; [|apply walk_frame|apply walk_frame].
  destruct (eval_here _ _ _ _ _ IHe N Ee Ca Co) as [S Co1].
  eapply after_still; [exact S|]. pose proof (still_names _ _ S) as N1. rewrite N in N1.
  assert (keeps (walk th)) as K1 by (apply ok_some in E1 as [j E1]; by eapply walk_keeps).
  assert (keeps (walk el)) as K2 by (apply ok_some in E2 as [j E2]; by eapply walk_keeps).
  destruct Hs as [->| ->].
  - eapply after_branch; [exact (branch_sound true _ _ _ _ _ _ _ IHs E1 C1 N1 Co1 st1 eq_refl)|].
    intros H. exact (covered_keeps _ _ _ K2 (ca_markers _ _ _ C2) H).
  - pose proof (covered_keeps _ _ _ K1 (ca_markers _ _ _ C1) Co1) as Co2.
    exact (branch_sound cond _ _ _ _ _ _ _ IHs E2 C2 N1 Co2 st1 eq_refl).
Qed.

Lemma loop_exit_sound e post vars body st st' : EvalSound st e st' -> LoopSound e post vars body st st'.
Proof. intros IH cp cb R _ _ _ _. exact (IH R). Qed.

Lemma body_still vars body st st' b cb : Exec1Sound (declare vars st) body st' b ->
  BodyReady true (names st) (rev vars) body cb -> covered cb (env st) -> Still st (leave st st').
Proof.
  intros IH [[i E]%ok_some Ca] Co. apply (body_leaves vars i (walk body cb) st st' b).
  exact (IH true (names st) (rev vars) i cb E Ca (names_declare vars st) (covered_declare cb vars st Co)).
Qed.

Lemma loop_left_sound e post vars body st st1 st2 b : EvalSound st e st1 ->
  Exec1Sound (declare vars st1) body st2 b -> LoopSound e post vars body st (leave st1 st2).
Proof.
  intros IHe IHb cp cb R _ Rb _ Cb. pose proof (IHe R) as S. eapply still_trans; [exact S|].
  rewrite <- (still_names _ _ S) in Rb. exact (body_still _ _ _ _ _ _ IHb Rb (still_covered _ _ _ S Cb)).
Qed.

Lemma ready_names st st' e : Still st st' -> ready (names st) (env st) e -> ready (names st') (env st') e.
Proof. intros S. rewrite (still_names _ _ S). exact (ready_still _ _ _ _ S). Qed.

Lemma loop_next_sound e post vars body st st1 st2 b st3 b' st4 : EvalSound st e st1 ->
  Exec1Sound (declare vars st1) body st2 b -> Exec1Sound (leave st1 st2) post st3 b' ->
  LoopSound e post vars body (leave st1 st3) st4 -> LoopSound e post vars body st st4.
Proof.
  intros IHe IHb IHp IHl cp cb R Rp Rb Cp Cb.
  pose proof (IHe R) as S1. rewrite <- (still_names _ _ S1) in Rp, Rb.
  pose proof (still_covered _ _ _ S1 Cp) as Cp1. pose proof (still_covered _ _ _ S1 Cb) as Cb1.
  pose proof (body_still _ _ _ _ _ _ IHb Rb Cb1) as S2.
  set (sb := leave st1 st2) in *.
  assert (Still sb (leave sb st3)) as S3.
  { apply (body_still [] post sb st3 b' cp).
    - change (declare [] sb) with (with_env (env sb) sb). by destruct sb.
    - rewrite (still_names _ _ S2). exact Rp.
    - exact (still_covered _ _ _ S2 Cp1). }
  assert (leave sb st3 = leave st1 st3) as El.
  { unfold leave. f_equal. do 2 f_equal. destruct S2 as [_ L]. exact (Forall2_length _ _ _ L). }
  rewrite El in S3. pose proof (still_trans _ _ _ S1 (still_trans _ _ _ S2 S3)) as S.
  eapply still_trans; [exact S|]. apply (IHl cp cb).
  - exact (ready_names _ _ _ S R).
  - rewrite (still_names _ _ S3), (still_names _ _ S2). exact Rp.
  - rewrite (still_names _ _ S3), (still_names _ _ S2). exact Rb.
  - exact (still_covered _ _ _ S Cp).
  - exact (still_covered _ _ _ S Cb).
Qed.

Lemma calm_for init e post vars range body c :
  Calm (length (src (ForStmt init e post vars range body))) (walk (ForStmt init e post vars range body)) c ->
  exists c1 c2 c3 c4, c1 = walk init c /\ c2 = reads e c1 /\ c3 = walk post c2 /\ c4 = reads range c3 /\
    Calm (length (src init)) (walk init) c /\ Calm (length (src_e e)) (reads e) c1 /\
    Calm (length (src post)) (walk post) c2 /\ Calm (length (src_e range)) (reads range) c3 /\
    Calm (length (src body)) (walk body) c4.
Proof.
  intros Ca.
  pose proof (framed_then ck _ _ _ _ (reads_frame import_path ck range) (walk_frame import_path ck body)) as F4.
  pose proof (framed_then ck _ _ _ _ (walk_frame import_path ck post) F4) as F3.
  pose proof (framed_then ck _ _ _ _ (reads_frame import_path ck e) F3) as F2.
  destruct (calm_then _ _ _ _ c (walk_frame import_path ck init) F2 Ca) as [C0 C1].
  destruct (calm_then _ _ _ _ _ (reads_frame import_path ck e) F3 C1) as [C1' C2].
  destruct (calm_then _ _ _ _ _ (walk_frame import_path ck post) F4 C2) as [C2' C3].
  destruct (calm_then _ _ _ _ _ (reads_frame import_path ck range) (walk_frame import_path ck body) C3) as [C3' C4].
  do 4 eexists. do 4 (split; [reflexivity|]).
  exact (conj C0 (conj C1' (conj C2' (conj C3' C4)))).
Qed.

Lemma x_for_sound st init e post vars range body st1 st2 st3 b : Exec1Sound st init st1 true ->
  EvalSound st1 range st2 -> LoopSound e post vars body st2 st3 ->
  Exec1Sound st (ForStmt init e post vars range body) (leave st st3) b.
Proof.
  intros IHi IHr IHl cond outer inner i c E Ca N Co. cbn [followed_stmt] in E.
  destruct (fstmt cond outer init inner) as [i1|] eqn:Ei; [|discriminate E].
  apply guard_some in E as [[[[Ee Er]%andb_prop Ep]%andb_prop Eb]%andb_prop [= <-]].
  destruct (calm_for _ _ _ _ _ _ _ Ca) as (c1 & c2 & c3 & c4 & E1 & E2 & E3 & E4 & C0 & C1 & C2 & C3 & C4).
  pose proof (IHi cond outer inner i1 c Ei C0 N Co) as A. rewrite <- E1 in A.
  pose proof (after_names _ _ _ _ _ _ _ A N) as N1.
  assert (covered c1 (env st1)) as Co1 by (destruct A as (_ & _ & ?); auto).
  assert (covered c2 (env st1)) as Co2.
  { rewrite E2. apply covered_keeps; [by eapply reads_keep|exact (ca_markers _ _ _ C1)|done]. }
  assert (covered c3 (env st1)) as Co3.
  { rewrite E3. apply ok_some in Ep as [j Ep].
    apply covered_keeps; [by eapply walk_keeps|exact (ca_markers _ _ _ C2)|done]. }
  destruct (eval_here _ _ _ _ _ IHr N1 Er C3 Co3) as [S2 Co4]. rewrite <- E4 in Co4.
  pose proof (still_names _ _ S2) as N2. rewrite N1 in N2.
  assert (Still st2 st3) as S3.
  { apply (IHl c2 c4); [| | | |exact Co4].
    - rewrite N2. split; [exact Ee|]. exists c1. split; [exact C1|exact (still_covered _ _ _ S2 Co1)].
    - rewrite N2. by split.
    - rewrite N2. by split.
    - exact (still_covered _ _ _ S2 Co2). }
  assert (covered (walk body c4) (env st3)) as Co5.
  { eapply still_covered; [exact S3|]. apply ok_some in Eb as [j Eb].
    apply covered_keeps; [by eapply walk_keeps|exact (ca_markers _ _ _ C4)|done]. }
  change (walk (ForStmt init e post vars range body) c) with
    (walk body (reads range (walk post (reads e (walk init c))))).
  rewrite <- E1, <- E2, <- E3, <- E4. 
  refine (after_leave _ _ _ _ _ _ _ _ true N eq_refl _ b (fun _ => or_introl eq_refl)).
  eapply after_then; [exact A|]. apply still_after; [by eapply still_trans|exact N1|done].
Qed.

Lemma clause_calm es body c : Calm (length (src (CaseClause es body))) (walk (CaseClause es body)) c ->
  Calm (length (flat_map src_e es)) (for_each reads es) c /\
  Calm (length (flat_map src body)) (for_each walk body) (for_each reads es c).
Proof.
  apply (calm_then (flat_map src_e es) (flat_map src body) (for_each reads es) (for_each walk body));
    [apply all_reads_frame|apply all_walk_frame].
Qed.

Lemma all_sub_keeps ss : Forall (sub_keeps_stmt import_path ck T) ss.
Proof. apply Forall_true. exact (proj2 (keeps_followed_all import_path ck T)). Qed.

Lemma clause_keeps outer inner s : followed_clause import_path ck T outer inner s = true -> keeps (walk s).
Proof. exact (keeps_clause _ _ _ _ _ s (proj2 (keeps_followed_all import_path ck T) s)). Qed.

Lemma clauses_keep outer inner ss : forallb (followed_clause import_path ck T outer inner) ss = true ->
  keeps (for_each walk ss).
Proof. intros E. exact (keeps_for_each _ _ _ _ (keeps_clauses _ _ _ _ _ _ (all_sub_keeps ss) E)). Qed.

Lemma ready_clauses outer inner cases r c :
  forallb (followed_clause import_path ck T outer inner) cases = true ->
  Calm (length (flat_map src cases)) (for_each walk cases) c -> covered c r ->
  Forall (ready (inner ++ outer) r) (flat_map clause_exprs cases).
Proof.
  revert c. induction cases as [|s cases IH]; intros c E Ca Co; [constructor|].
  apply andb_prop in E as [E1 E2]. pose proof (ca_markers _ _ _ Ca) as M. apply calm_cons in Ca as [C1 C2].
  apply Forall_app_2.
  - destruct s; try constructor. apply andb_prop in E1 as [E1 _]. apply clause_calm in C1 as [C1 _].
    exact (proj1 (ready_all _ _ _ _ E1 C1 Co)).
  - apply (IH (walk s c) E2 C2). apply covered_keeps; [by eapply clause_keeps|done|done].
Qed.

Lemma bodies_done_sound st : BodiesSound [] st st.
Proof.
  intros cases outer inner c _ E Ca N Co. apply still_after; [apply still_refl|exact N|]. intros _.
  apply covered_keeps; [by eapply clauses_keep|exact (ca_markers _ _ _ Ca)|done].
Qed.

Lemma bodies_next_sound s ss st st1 b st2 : ExecSound st (clause_body s) st1 b ->
  BodiesSound ss (leave st st1) st2 -> BodiesSound (s :: ss) st st2.
Proof.
  intros IH1 IH2 cases. induction cases as [|k cases IHc]; intros outer inner c Hs E Ca N Co; [inversion Hs|].
  apply andb_prop in E as [E1 E2]. pose proof (ca_markers _ _ _ Ca) as M. apply calm_cons in Ca as [C1 C2].
  inversion Hs as [|x l1 l2 Hsub|x l1 l2 Hsub]; subst.
  - destruct k; try discriminate E1. apply andb_prop in E1 as [Ex [j Eb]%ok_some].
    apply clause_calm in C1 as [C1 C3]. pose proof (ca_markers _ _ _ C3) as M3.
    assert (covered (for_each reads exprs c) (env st)) as Co1 by (eapply ready_all; [exact Ex|exact C1|exact Co]).
    pose proof (after_leave _ _ _ _ _ _ _ _ _ N eq_refl (IH1 true outer inner j _ Eb C3 N Co1) true
      (fun _ => or_intror eq_refl)) as A.
    eapply after_then; [exact A|]. apply (IH2 cases outer inner _ Hsub E2 C2).
    + exact (after_names _ _ _ _ _ _ _ A N).
    + destruct A as (_ & _ & Co2). auto.
  - apply (IHc outer inner (walk k c) Hsub E2 C2 N).
    apply covered_keeps; [by eapply clause_keeps|done|done].
Qed.

Lemma x_switch_sound st tag cases k ss st1 st2 st3 b : EvalSound st tag st1 ->
  EvalsSound st1 (take k (flat_map clause_exprs cases)) st2 -> sublist ss cases ->
  BodiesSound ss st2 st3 -> Exec1Sound st (SwitchStmt tag cases) st3 b.
Proof.
  intros IHt IHe Hs IHb cond outer inner i c E Ca N Co. rewrite followed_switch in E.
  apply guard_some in E as [[Et Ec]%andb_prop [= <-]].
  apply (calm_then (src_e tag) (flat_map src cases) (reads tag) (for_each walk cases)) in Ca as [C1 C2];
    [|apply reads_frame|apply all_walk_frame].
  destruct (eval_here _ _ _ _ _ IHt N Et C1 Co) as [S1 Co1].
  pose proof (still_names _ _ S1) as N1. rewrite N in N1.
  assert (Still st1 st2) as S2.
  { apply IHe. rewrite N1. apply Forall_take. exact (ready_clauses _ _ _ _ _ Ec C2 Co1). }
  apply after_any. eapply after_still; [exact (still_trans _ _ _ S1 S2)|].
  eapply after_branch; [|exact (fun H => H)].
  refine (IHb cases outer inner (reads tag c) Hs Ec C2 _ (still_covered _ _ _ S2 Co1)).
  by rewrite (still_names _ _ S2), N1.
Qed.

Lemma x_short_sound st ts vs st' : EvalsSound st vs st' ->
  Exec1Sound st (MultiAssign ts vs true) (declare (omap target_name ts) st') true.
Proof.
  intros IH cond outer inner i c E Ca N Co. apply guard_some in E as [[Ev _]%andb_prop [= <-]].
  assert (Calm (length (flat_map src_e vs)) (for_each reads vs) c) as Ca'.
  { destruct Ca as [M Er R]. split; [exact M|exact Er|].
    change (src (MultiAssign ts vs true)) with (flat_map src_e vs ++ flat_map src_e ts) in R.
    rewrite length_app in R. lia. }
  destruct (evals_here _ _ _ _ _ IH N Ev Ca' Co) as [S Co']. by apply after_declare.
Qed.

Lemma x_multi_sound st ts vs st1 st2 : EvalsSound st vs st1 -> StoresSound st1 ts st2 ->
  Exec1Sound st (MultiAssign ts vs false) st2 true.
Proof.
  intros IH1 IH2 cond outer inner i c E Ca N Co. apply guard_some in E as [[Ev Et]%andb_prop [= <-]].
  assert (Calm (length (flat_map src_e vs)) (for_each reads vs) c) as Ca'.
  { destruct Ca as [M Er R]. split; [exact M|exact Er|].
    change (src (MultiAssign ts vs false)) with (flat_map src_e vs ++ flat_map src_e ts) in R.
    rewrite length_app in R. lia. }
  destruct (evals_here _ _ _ _ _ IH1 N Ev Ca' Co) as [S1 Co1]. pose proof (IH2 Et) as S2.
  apply still_after; [exact (still_trans _ _ _ S1 S2)|exact N|]. intros _.
  exact (still_covered _ _ _ S2 Co1).
Qed.

Lemma x_other_sound st ss ss' st' b : sublist ss' ss -> ExecSound st ss' st' b ->
  Exec1Sound st (OtherStmt ss) (leave st st') b.
Proof.
  intros Hs IH cond outer inner i c E Ca N Co. destruct ss as [|s ss]; [|discriminate E].
  injection E as <-. inversion Hs; subst.
  exact (after_leave _ _ _ _ _ _ _ _ _ N eq_refl (IH cond outer inner inner c eq_refl Ca N Co) b
    (@or_introl _ _)).
Qed.

(** Every execution of a followed program is covered by the walk of it. *)
Theorem runs_sound :
  (forall st e st', eval import_path ck st e st' -> EvalSound st e st') /\
  (forall st es st', evals import_path ck st es st' -> EvalsSound st es st') /\
  (forall ps body st st', lanes import_path ck ps body st st' -> LanesSound ps body st st') /\
  (forall st l st', store import_path ck st l st' -> StoreSound st l st') /\
  (forall st ts st', stores import_path ck st ts st' -> StoresSound st ts st') /\
  (forall st ss st' b, exec import_path ck st ss st' b -> ExecSound st ss st' b) /\
  (forall st s st' b, exec1 import_path ck st s st' b -> Exec1Sound st s st' b) /\
  (forall ss st st', bodies import_path ck ss st st' -> BodiesSound ss st st') /\
  (forall e post vars body st st', loop import_path ck e post vars body st st' ->
     LoopSound e post vars body st st').
Proof.
  apply runs_ind.
  - exact name_sound.
  - intros st e es st' Hp _ IH. exact (parts_sound st e es st' Hp IH).
  - intros st e x rest st' Hp _ _. exact (partition_unsound st e x rest _ Hp).
  - intros st e args params body st1 st2 Hr _ IHa _ IHl. exact (run_sound _ _ _ _ _ _ _ Hr IHa IHl).
  - intros st _. apply still_refl.
  - intros st e es st1 st2 _ IH1 _ IH2. exact (evals_cons_sound _ _ _ _ _ IH1 IH2).
  - intros params body st c _ _. apply still_refl.
  - intros params body st st1 b st2 _ IH1 _ IH2. exact (lanes_next_sound _ _ _ _ _ _ IH1 IH2).
  - exact revive_sound.
  - intros st e st' Hn _ IH. exact (place_sound _ _ _ Hn IH).
  - intros st _. apply still_refl.
  - intros st e es st1 st2 Hs _ _ IH. exact (stores_cons_sound _ _ _ _ _ Hs IH).
  - intros st cond outer inner i c E Ca N Co. injection E as <-.
    apply still_after; [apply still_refl|exact N|]. intros _. exact Co.
  - exact ex_stop_sound.
  - intros st s ss st1 st2 b _ IH1 _ IH2. exact (ex_next_sound _ _ _ _ _ _ IH1 IH2).
  - intros st s ss st1 _ IH. exact (ex_left_sound _ _ _ _ IH).
  - intros st cond outer inner i c E Ca N Co. injection E as <-.
    apply still_after; [apply still_refl|exact N|]. intros _. exact Co.
  - intros st ss st' b _ IH. exact (x_block_sound _ _ _ _ IH).
  - intros st e l r st1 st2 ->%plain_assign_spec _ IHr _ IHl. exact (x_assign_sound _ _ _ _ _ IHr IHl).
  - intros st e st' Hp _ IH. exact (x_expr_sound _ _ _ Hp IH).
  - intros st xs vs x rest st' Hp _ IH. exact (x_partition_sound _ _ _ _ _ _ Hp IH).
  - intros st xs vs st' Hp _ IH. exact (x_declare_sound _ _ _ _ Hp IH).
  - intros st e th el s st1 st2 b _ IHe Hs _ IHs. exact (x_if_sound _ _ _ _ _ _ _ _ IHe Hs IHs).
  - intros st init e post vars range body st1 st2 st3 b _ IHi _ IHr _ IHl.
    exact (x_for_sound _ _ _ _ _ _ _ _ _ _ _ IHi IHr IHl).
  - intros st vs st' _ IH. exact (x_return_sound _ _ _ IH).
  - intros st e st' _ IH. exact (x_call_sound _ _ _ _ (or_introl eq_refl) IH).
  - intros st p e st' _ IH. exact (x_call_sound _ _ _ _ (or_intror (ex_intro _ p eq_refl)) IH).
  - intros st s st' b _ IH. exact IH.
  - intros st tag cases k ss st1 st2 st3 b _ IHt _ IHe Hs _ IHb.
    exact (x_switch_sound _ _ _ _ _ _ _ _ _ IHt IHe Hs IHb).
  - intros st ts vs st' _ IH. exact (x_short_sound _ _ _ _ IH).
  - intros st ts vs st1 st2 _ IH1 _ IH2. exact (x_multi_sound _ _ _ _ _ IH1 IH2).
  - intros st ss ss' st' b Hs _ IH. exact (x_other_sound _ _ _ _ _ Hs IH).
  - exact bodies_done_sound.
  - intros s ss st st1 b st2 _ IH1 _ IH2. exact (bodies_next_sound _ _ _ _ _ _ IH1 IH2).
  - intros e post vars body st st' _ IH. exact (loop_exit_sound _ _ _ _ _ _ IH).
  - intros e post vars body st st1 st2 b _ IHe _ IHb. exact (loop_left_sound _ _ _ _ _ _ _ _ IHe IHb).
  - intros e post vars body st st1 st2 b st3 b' st4 _ IHe _ IHb _ IHp _ IHl.
    exact (loop_next_sound _ _ _ _ _ _ _ _ _ _ _ IHe IHb IHp IHl).
Qed.
End Sound.
