(* ===== verification/LaneResults.v ===== *)
(** * LaneResults: what the lane checks guarantee, and what gets past them. *)
From Stdlib Require Import ZArith Lia Ascii String Bool.
From stdpp Require Import base list numbers option strings gmap.
From S2P Require Import Prelude Token Types ConstExpr Lane LaneSem LaneFacts LaneSound.


(** ** Whole programs *)
Section Programs.
  Context (import_path : gmap positive string) (ck : Checker).

Lemma walk_decl_frame d c : same_markers (checker c) ck ->
  (exists new, errors (walk_decl import_path d c) = errors c ++ new) /\
  same_markers (checker (walk_decl import_path d c)) ck.
Proof.
  intros Hc. destruct d as [body|]; [|split; [by exists []; rewrite app_nil_r|done]].
  destruct (walk_frame import_path ck body (lane_ctx_reset_for_function c) Hc) as [E M _ _].
  split; [exact E|]. by transitivity (checker c).
Qed.

(** A function of an accepted program is walked without a diagnostic, from empty tables. *)
Lemma accepted_function program body : forall c, same_markers (checker c) ck ->
  errors (for_each (walk_decl import_path) program c) = errors c -> FuncDecl body ∈ program ->
  exists c', same_markers (checker c') ck /\ moved c' = [] /\
    errors (lane_walk_stmt import_path body c') = errors c'.
Proof.
  induction program as [|d program IH]; intros c Hc E Hin; [by apply elem_of_nil in Hin|].
  cbn [for_each] in E. destruct (walk_decl_frame d c Hc) as [[n1 E1] M1].
  assert (forall p c, same_markers (checker c) ck ->
    exists new, errors (for_each (walk_decl import_path) p c) = errors c ++ new) as Hall.
  { clear. induction p as [|d p IH]; intros c Hc; [by exists []; rewrite app_nil_r|].
    destruct (walk_decl_frame d c Hc) as [[n1 E1] M1]. destruct (IH _ M1) as [n2 E2].
    exists (n1 ++ n2). cbn [for_each]. by rewrite E2, E1, app_assoc. }
  destruct (Hall program _ M1) as [n2 E2].
  rewrite E2, E1, <- app_assoc in E. rewrite <- app_nil_r in E. apply app_inv_head in E.
  apply app_eq_nil in E as [-> ->]. rewrite app_nil_r in E1, E2.
  apply elem_of_cons in Hin as [<-|Hin]; [|exact (IH _ M1 E2 Hin)].
  by exists (lane_ctx_reset_for_function c).
Qed.

(** ** No use after a move *)
(** C23: In a program the lane checks accept, no execution of a function whose flow of control the
    walk follows reads an array after it was moved into a partition, other than to partition it
    again: not in branches, loops, switches or the bodies of lanes. *)
Theorem lane_no_use_after_move program body vars st' b :
  fst (lane_ownership_check_program import_path ck program) = true ->
  FuncDecl body ∈ program -> followed import_path ck vars body = true ->
  exec1 import_path ck (start vars) body st' b -> uses st' = [].
Proof.
  intros Hacc Hin [[i Hf]%ok_some Hn]%andb_prop Hrun. apply bool_decide_eq_true in Hacc. cbn in Hacc.
  destruct (accepted_function program body (lane_ctx_init ck) ltac:(reflexivity) Hacc Hin)
    as (c & M & Em & Ee).
  set (T := sources import_path ck body) in *.
  destruct (runs_sound import_path ck T) as (_ & _ & _ & _ & _ & _ & S & _).
  destruct (S _ _ _ _ Hrun false [] vars i c Hf) as [U _].
  - split; [exact M|exact Ee|]. rewrite Em. apply Nat.leb_le in Hn. exact Hn.
  - unfold names. cbn. rewrite app_nil_r. unfold fresh. rewrite map_map. apply map_id.
  - apply covered_fresh.
  - exact U.
Qed.

(** ** Programs without lanes *)
Lemma no_selector c e : (forall p, import_path !! p <> Some "lanes"%string) ->
  lane_call_is_lanes_selector import_path c e = None.
Proof.
  intros H. destruct e; try done. destruct e; try done. destruct e; try done. cbn.
  destruct (type_checker_lookup_variable c name) as [v|]; [|done]. destruct (package v) as [p|]; [|done].
  specialize (H p). destruct (import_path !! p) as [s|]; [|done].
  destruct (String.eqb_spec s "lanes"%string) as [->|]; [by destruct H|done].
Qed.

Lemma silent_for_each {A} (w : A -> LaneWalkContext -> LaneWalkContext) xs c :
  Forall (fun x => forall c, moved c = [] -> w x c = c) xs -> moved c = [] -> for_each w xs c = c.
Proof. intros H Hc. induction H as [|x xs Hx _ IH]; [done|]. cbn. by rewrite Hx. Qed.

Lemma clear_nothing x c : moved c = [] -> lane_clear_moved x c = c.
Proof. destruct c. cbn. by intros ->. Qed.

Definition idle (f : LaneWalkContext -> LaneWalkContext) : Prop := forall c, moved c = [] -> f c = c.

Definition idle_expr (e : Expr) : Prop :=
  idle (lane_check_reads import_path e) /\
  match e with
  | BinaryExpr _ l r => idle (lane_check_reads import_path l) /\ idle (lane_check_reads import_path r)
  | _ => True
  end.

Lemma idle_comp f g : idle f -> idle g -> idle (fun c => g (f c)).
Proof. intros Hf Hg c Hc. rewrite (Hf c Hc). by apply Hg. Qed.

Lemma idle_each es : Forall idle_expr es -> idle (for_each (lane_check_reads import_path) es).
Proof.
  intros H c Hc. apply silent_for_each; [|done]. eapply Forall_impl; [exact H|]. by intros e [? _].
Qed.

Lemma idle_expr_stmt e : idle_expr e -> idle (lane_walk_stmt import_path (ExprStmt e)).
Proof.
  intros [He Hb]. destruct (plain_assign e) as [[l r]|] eqn:Hp.
  - apply plain_assign_spec in Hp as ->. destruct Hb as [Hl Hr].
    destruct l; try exact (idle_comp _ _ Hr Hl).
    exact (idle_comp _ _ Hr (fun c Hc => clear_nothing name c Hc)).
  - intros c Hc. rewrite (walk_plain import_path e c Hp). exact (He c Hc).
Qed.

Lemma idle_walk : (forall p, import_path !! p <> Some "lanes"%string) ->
  (forall e, idle_expr e) /\ (forall s, idle (lane_walk_stmt import_path s)).
Proof.
  intros Hno. pose proof (fun w c e => eq_trans
    (f_equal (fun o => match o with Some sel => (sel =? w)%string | None => false end)
       (no_selector c e Hno)) (eq_refl false)) as Hsel.
  apply syntax_ind.
  - split; [by intros c|exact I].
  - intros p x. split; [|exact I]. intros c Hc. cbn. unfold lane_name_is_moved. by rewrite Hc.
  - split; [by intros c|exact I].
  - intros op l r [Hl _] [Hr _]. exact (conj (idle_comp _ _ Hl Hr) (conj Hl Hr)).
  - intros op e [He _]. exact (conj He I).
  - intros e [He _]. exact (conj He I).
  - intros l r [Hl _] [Hr _]. exact (conj (idle_comp _ _ Hl Hr) I).
  - intros e lo hi [He _] [Hl _] [Hh _]. exact (conj (idle_comp _ _ He (idle_comp _ _ Hl Hh)) I).
  - intros es H. exact (conj (idle_each es H) I).
  - intros p e s [He _]. exact (conj He I).
  - intros f args [Hf _] H. split; [|exact I]. intros c Hc. rewrite reads_call.
    unfold lane_call_is_run, lane_call_is. rewrite (Hsel "Run"%string).
    exact (idle_comp _ _ Hf (idle_each args H) c Hc).
  - intros p ps xs body H. exact (conj H I).
  - split; [by intros c|exact I].
  - by intros c.
  - intros ss H c Hc. exact (silent_for_each _ _ _ H Hc).
  - exact idle_expr_stmt.
  - intros xs vs H. destruct vs as [|v vs]; [by intros c|]. intros c Hc.
    cbn [lane_walk_stmt lane_handle_var_decl]. unfold lane_call_is_partition, lane_call_is.
    rewrite (Hsel "Partition"%string). exact (proj1 (Forall_inv H) c Hc).
  - intros e th el [He _] Ht Hl. exact (idle_comp _ _ He (idle_comp _ _ Ht Hl)).
  - intros init e post xs range body Hi [He _] Hp [Hr _] Hb.
    exact (idle_comp _ _ Hi (idle_comp _ _ He (idle_comp _ _ Hp (idle_comp _ _ Hr Hb)))).
  - intros vs H. destruct vs as [|v vs]; [by intros c|]. exact (proj1 (Forall_inv H)).
  - intros e [He _]. exact He.
  - intros p e [He _]. exact He.
  - intros s Hs. exact Hs.
  - intros tag cases [Ht _] H. exact (idle_comp _ _ Ht (fun c Hc => silent_for_each _ _ c H Hc)).
  - intros es body H Hb. exact (idle_comp _ _ (idle_each es H) (fun c Hc => silent_for_each _ _ c Hb Hc)).
  - intros ts vs b _ H. exact (idle_each vs H).
  - intros ss _. by intros c.
Qed.

(** The checks say nothing about a program that imports no package with the path lanes,
    whatever names and shapes it uses. *)
Theorem lane_silent_without_lanes program : (forall p, import_path !! p <> Some "lanes"%string) ->
  lane_ownership_check_program import_path ck program = (true, []).
Proof.
  intros Hno.
  assert (forall p c, errors c = [] -> errors (for_each (walk_decl import_path) p c) = []) as H.
  { induction p as [|d p IH]; intros c Hc; [done|]. apply IH. destruct d as [body|]; [|done].
    cbn [walk_decl]. by rewrite (proj2 (idle_walk Hno) body). }
  unfold lane_ownership_check_program. cbn. rewrite H by done. done.
Qed.
End Programs.

(** ** Programs on which it is silent *)
Module Samples.
Definition lanes_marker : Variable_t := {|
  v_name := "lanes"; v_type := NULL; v_ownership := OWNERSHIP_OWNED;
  v_mutability := MUTABILITY_IMMUTABLE; is_moved := false; is_borrowed := false;
  borrow_count := 0; is_initialized := true; is_builtin := false; is_captured := false;
  is_loop_var := false; const_int_value := None; is_generic := false; type_param_count := 0;
  package := Some 1%positive; is_comptime_param := false |}.

Definition imports : gmap positive string := {[1%positive := "lanes"%string]}.
Definition ck0 : Checker := mkChecker [mkScope [lanes_marker] 0 false] ∅.

Definition p0 : Position := mkPos 1 1 0.
Definition name (x : string) : Expr := Identifier p0 x.
Definition lanes_call (sel : string) (args : list Expr) : Expr :=
  CallExpr (SelectorExpr p0 (name "lanes") sel) args.
Definition partition (x : string) : Expr := lanes_call "Partition" [name x; Literal TOKEN_INT "2"].
Definition run (x : string) (body : list Stmt) : Expr :=
  lanes_call "Run" [name x; Literal TOKEN_INT "1"; FuncLit p0 [["ctx"%string]] [] (BlockStmt body)].
Definition use_of (x : string) : Stmt := ExprStmt (CallExpr (name "print") [name x]).
Definition assign (x : string) (e : Expr) : Stmt := ExprStmt (BinaryExpr TOKEN_ASSIGN (name x) e).
Definition one : Expr := Literal TOKEN_INT "1".

(** The documented program: partition, run, assign a new array, partition again. *)
Definition repartition : Stmt := BlockStmt
  [ VarDecl ["p"%string] [partition "data"];
    VarDecl ["out"%string] [run "p" [
      VarDecl ["t"%string] [CallExpr (SelectorExpr p0 (name "ctx") "Own") []];
      ExprStmt (BinaryExpr TOKEN_ASSIGN (IndexExpr (name "t") one) one) ]];
    assign "data" (SliceLit [one; one]);
    use_of "data";
    VarDecl ["q"%string] [partition "data"];
    ReturnStmt [name "out"] ].

Definition moved_data (rest : list Stmt) : Stmt :=
  BlockStmt (VarDecl ["p"%string] [partition "data"] :: rest).

Definition next_iteration : Stmt :=
  ForStmt NullStmt ENull NullStmt [] ENull
    (BlockStmt [use_of "data"; VarDecl ["p"%string] [partition "data"]]).
Definition second_result : Stmt := moved_data [ReturnStmt [one; name "data"]].
Definition indexed_target : Stmt :=
  moved_data [MultiAssign [IndexExpr (name "data") one; name "n"] [one; one] false].
Definition other_branch : Stmt :=
  moved_data [IfStmt (name "n") (assign "data" one) NullStmt; use_of "data"].
Definition inner_variable : Stmt :=
  moved_data [BlockStmt [VarDecl ["data"%string] [one]; assign "data" one]; use_of "data"].
Definition struct_field : Stmt := moved_data [ExprStmt (OtherExpr [name "data"])].
Definition assigned_partition : Stmt := BlockStmt [assign "p" (partition "data"); use_of "data"].

Definition partitioned_twice : Stmt := moved_data [VarDecl ["q"%string] [partition "data"]].
Definition run_in_loop : Stmt :=
  moved_data [ForStmt NullStmt ENull NullStmt [] ENull (BlockStmt [ExprStmt (run "p" [])])].
Definition run_reassigned : Stmt :=
  moved_data [ExprStmt (run "p" []); assign "p" (partition "other"); ExprStmt (run "p" [])].

Definition check (body : Stmt) : bool * list (Position * LaneError) :=
  lane_ownership_check_program imports ck0 [FuncDecl body].

Definition uses_data (body : Stmt) : Prop :=
  exists st b, exec1 imports ck0 (start ["data"%string; "n"%string]) body st b /\ uses st = ["data"%string].
End Samples.

(** ** Execution of samples *)
Ltac lane_eval := first [apply ev_name|eapply ev_parts; [reflexivity|lane_evals]
                        |eapply ev_partition; [reflexivity|lane_evals]]
with lane_evals := first [apply evs_nil|eapply evs_cons; [lane_eval|lane_evals]].

Ltac lane_store := first [apply st_name|apply st_place; [congruence|lane_eval]].
Ltac lane_stores := first [apply sts_nil|eapply sts_cons; [lane_store|lane_stores]].

Ltac lane_step :=
  first [ eapply x_assign; [reflexivity|lane_eval|lane_store]
        | eapply x_expr; [reflexivity|lane_eval]
        | eapply x_partition; [reflexivity|lane_evals]
        | eapply x_declare; [reflexivity|lane_evals]
        | eapply x_return; lane_evals
        | eapply x_multi; [lane_evals|lane_stores] ].

Ltac lane_block := first [apply ex_end|eapply ex_next; [lane_step|lane_block]|eapply ex_left; lane_step].

Lemma data_declared : start ["data"%string; "n"%string] =
  mkState [("data"%string, false); ("n"%string, false)] [].
Proof. done. Qed.

Lemma next_iteration_uses : Samples.uses_data Samples.next_iteration.
Proof.
  eexists _, true. split.
  - eapply x_for; [apply x_null|lane_eval|].
    eapply lp_next; [lane_eval|apply x_block; lane_block|apply x_null|].
    eapply lp_left with (c := true); [lane_eval|apply x_block; lane_block].
  - vm_compute. reflexivity.
Qed.

Lemma second_result_uses : Samples.uses_data Samples.second_result.
Proof. eexists _, _. split; [apply x_block; lane_block|]. vm_compute. reflexivity. Qed.

Lemma indexed_target_uses : Samples.uses_data Samples.indexed_target.
Proof. eexists _, _. split; [apply x_block; lane_block|]. vm_compute. reflexivity. Qed.

Lemma struct_field_uses : Samples.uses_data Samples.struct_field.
Proof. eexists _, _. split; [apply x_block; lane_block|]. vm_compute. reflexivity. Qed.

Lemma assigned_partition_uses : Samples.uses_data Samples.assigned_partition.
Proof. eexists _, _. split; [apply x_block; lane_block|]. vm_compute. reflexivity. Qed.

Lemma other_branch_uses : Samples.uses_data Samples.other_branch.
Proof.
  eexists _, _. split.
  - apply x_block. eapply ex_next; [lane_step|]. eapply ex_next; [|lane_block].
    eapply x_if; [lane_eval|right; reflexivity|apply x_null].
  - vm_compute. reflexivity.
Qed.

Lemma inner_variable_uses : Samples.uses_data Samples.inner_variable.
Proof.
  eexists _, _. split.
  - apply x_block. eapply ex_next; [lane_step|]. eapply ex_next; [apply x_block; lane_block|lane_block].
  - vm_compute. reflexivity.
Qed.

(** C24: Programs accepted without a diagnostic although an execution reads data after its move: in
    the second iteration of a loop that moves it; as the second of several results; as the base
    of an indexed target of a multiple assignment; after an assignment that stands in a branch
    not taken, or that is to an inner variable of the same name; inside a composite literal; and
    after a partition that is assigned and not declared.  Also accepted are a second partition of
    the moved array and a loop that runs one partition again and again; a partition variable that
    was given a new partition is rejected. *)
Theorem lane_checks_miss :
  let missed body := Samples.check body = (true, []) /\ Samples.uses_data body in
  missed Samples.next_iteration /\ missed Samples.second_result /\ missed Samples.indexed_target /\
  missed Samples.other_branch /\ missed Samples.inner_variable /\ missed Samples.struct_field /\
  missed Samples.assigned_partition /\
  Samples.check Samples.partitioned_twice = (true, []) /\
  Samples.check Samples.run_in_loop = (true, []) /\
  Samples.check Samples.run_reassigned =
    (false, [(Samples.p0, UseAfterConsume "p" Samples.p0)]).
Proof.
  intros missed. unfold missed.
  split; [split; [vm_compute; reflexivity|exact next_iteration_uses]|].
  split; [split; [vm_compute; reflexivity|exact second_result_uses]|].
  split; [split; [vm_compute; reflexivity|exact indexed_target_uses]|].
  split; [split; [vm_compute; reflexivity|exact other_branch_uses]|].
  split; [split; [vm_compute; reflexivity|exact inner_variable_uses]|].
  split; [split; [vm_compute; reflexivity|exact struct_field_uses]|].
  split; [split; [vm_compute; reflexivity|exact assigned_partition_uses]|].
  split; [|split]; vm_compute; reflexivity.
Qed.

Lemma repartition_runs : exists st b,
  exec1 Samples.imports Samples.ck0 (start ["data"%string]) Samples.repartition st b /\ b = false.
Proof.
  eexists _, false. split; [|reflexivity]. apply x_block.
  eapply ex_next; [lane_step|]. eapply ex_next.
  - eapply x_declare; [reflexivity|]. eapply evs_cons; [|apply evs_nil].
    eapply ev_run; [reflexivity|lane_evals|].
    eapply ln_next; [apply x_block; lane_block|]. eapply ln_next; [apply x_block; lane_block|apply ln_done].
  - lane_block.
Qed.

Lemma lane_no_use_after_move_witness :
  Samples.check Samples.repartition = (true, []) /\
  exists st b, exec1 Samples.imports Samples.ck0 (start ["data"%string]) Samples.repartition st b /\
    uses st = [].
Proof.
  split; [vm_compute; reflexivity|].
  destruct repartition_runs as (st & b & H & _). exists st, b. split; [exact H|].
  refine (lane_no_use_after_move Samples.imports Samples.ck0 [FuncDecl Samples.repartition]
    Samples.repartition ["data"%string] st b _ _ _ H); [vm_compute; reflexivity| |vm_compute; reflexivity].
  left.
Defined.

Lemma lane_silent_without_lanes_witness :
  lane_ownership_check_program {[1%positive := "fmt"%string]} Samples.ck0
    [FuncDecl Samples.partitioned_twice] = (true, []).
Proof.
  apply lane_silent_without_lanes. intros p. destruct (decide (p = 1%positive)) as [->|Hp].
  - by rewrite lookup_singleton_eq.
  - by rewrite lookup_singleton_ne.
Defined.
