(* ===== verification/Sched.v ===== *)
(** * Sched: the goroutine scheduler of src/runtime/concurrency.c.

    Worker threads take goroutines from an intrusive list, switch to them with [swapcontext],
    and on the way back free those that exited and requeue those that yielded.  A goroutine is
    an object of [heap]; freeing removes it, and an allocation may use a freed address again.
    Every thread is at a program counter; the code between two of them is one step: a critical
    section of [scheduler_mutex], or statements on the thread's own data.  Goroutines run any
    code, so what a goroutine calls next is a choice of the step.  A step that reads or frees an
    object that is not there, or resumes a context that is not saved, is a [Fault]. *)
From Stdlib Require Import ZArith Lia String Ascii Bool.
From stdpp Require Import base list numbers option gmap.
From S2P Require Import Prelude.

#[local] Open Scope string_scope.
#[local] Open Scope list_scope.

(** ** Data *)
Definition GOO_MAX_OS_THREADS : Z := 16.
Definition ASLEEP_POLLS : nat := 100.

Abbreviation gid := positive.

Inductive goo_goroutine_state : Set :=
| GOO_GOROUTINE_READY | GOO_GOROUTINE_RUNNING | GOO_GOROUTINE_BLOCKED | GOO_GOROUTINE_DONE.

(** What [context] holds: nothing; [goroutine_wrapper] (after [makecontext]); the return from
    the [swapcontext] of [goo_yield]; or the registers of a run that has gone on since. *)
Inductive context : Set := NoContext | AtEntry | AtYield | Stale.

Record goo_goroutine : Set := mkGoroutine {
  g_state : goo_goroutine_state;
  g_id : Z;
  g_context : context;
  g_next : option gid
}.

Abbreviation Heap := (gmap gid goo_goroutine).

Record goo_scheduler : Set := mkScheduler {
  ready_queue : option gid;
  running : bool;
  next_goroutine_id : Z;
  num_goroutines : Z;
  context_switches : Z;
  scheduler_cycles : Z;
  blocked_goroutines : Z;
  main_in_wait : bool
}.

Definition set_queue (q : option gid) (s : goo_scheduler) : goo_scheduler :=
  mkScheduler q (running s) (next_goroutine_id s) (num_goroutines s) (context_switches s) (scheduler_cycles s)
    (blocked_goroutines s) (main_in_wait s).
Definition set_running (r : bool) (s : goo_scheduler) : goo_scheduler :=
  mkScheduler (ready_queue s) r (next_goroutine_id s) (num_goroutines s) (context_switches s) (scheduler_cycles s)
    (blocked_goroutines s) (main_in_wait s).
Definition set_count (id n : Z) (s : goo_scheduler) : goo_scheduler :=
  mkScheduler (ready_queue s) (running s) id n (context_switches s) (scheduler_cycles s)
    (blocked_goroutines s) (main_in_wait s).
Definition set_stats (switches cycles : Z) (s : goo_scheduler) : goo_scheduler :=
  mkScheduler (ready_queue s) (running s) (next_goroutine_id s) (num_goroutines s) switches cycles
    (blocked_goroutines s) (main_in_wait s).
Definition set_blocked (b : Z) (s : goo_scheduler) : goo_scheduler :=
  mkScheduler (ready_queue s) (running s) (next_goroutine_id s) (num_goroutines s) (context_switches s)
    (scheduler_cycles s) b (main_in_wait s).
Definition set_main_in_wait (s : goo_scheduler) : goo_scheduler :=
  mkScheduler (ready_queue s) (running s) (next_goroutine_id s) (num_goroutines s) (context_switches s)
    (scheduler_cycles s) (blocked_goroutines s) true.

Definition with_state (st : goo_goroutine_state) (g : goo_goroutine) : goo_goroutine :=
  mkGoroutine st (g_id g) (g_context g) (g_next g).
Definition with_id (i : Z) (g : goo_goroutine) : goo_goroutine :=
  mkGoroutine (g_state g) i (g_context g) (g_next g).
Definition with_context (c : context) (g : goo_goroutine) : goo_goroutine :=
  mkGoroutine (g_state g) (g_id g) c (g_next g).
Definition with_next (n : option gid) (g : goo_goroutine) : goo_goroutine :=
  mkGoroutine (g_state g) (g_id g) (g_context g) n.

(** ** The number of threads *)
Definition is_blank (c : ascii) : bool :=
  let n := nat_of_ascii c in (n =? 32)%nat || ((9 <=? n)%nat && (n <=? 13)%nat).

Definition digit_of (c : ascii) : option Z :=
  let n := Z.of_nat (nat_of_ascii c) in
  if (48 <=? n)%Z && (n <=? 57)%Z then Some (n - 48)%Z else None.

(** The digits at the front of a text, and what is left. *)
Fixpoint decimal_digits (s : string) (acc : Z) : Z * string :=
  match s with
  | String c s' => match digit_of c with Some d => decimal_digits s' (acc * 10 + d)%Z | None => (acc, s) end
  | EmptyString => (acc, s)
  end.

Fixpoint skip_blanks (s : string) : string :=
  match s with String c s' => if is_blank c then skip_blanks s' else s | EmptyString => s end.

Definition clamp_long (z : Z) : Z := Z.max (- 2 ^ 63) (Z.min z (2 ^ 63 - 1)).

(** [strtol(env, &end, 10)]: the value and the text from [end] on; [None] when [end == env]. *)
Definition strtol10 (env : string) : option (Z * string) :=
  let '(neg, rest) :=
    match skip_blanks env with
    | String c s => if Ascii.eqb c "-"%char then (true, s) else if Ascii.eqb c "+"%char then (false, s) else (false, String c s)
    | EmptyString => (false, EmptyString)
    end in
  match rest with
  | String c _ =>
      match digit_of c with
      | Some _ => let '(n, end_) := decimal_digits rest 0 in Some (clamp_long (if neg : bool then - n else n), end_)
      | None => None
      end
  | EmptyString => None
  end.

(** [getenv("GOMAXPROCS")] and [sysconf(_SC_NPROCESSORS_ONLN)]. *)
Definition goo_default_thread_count (env : option string) (ncpu : Z) : Z :=
  let by_cpus :=
    let ncpu := if (ncpu <? 1)%Z then 1%Z else ncpu in
    if (GOO_MAX_OS_THREADS <? ncpu)%Z then GOO_MAX_OS_THREADS else ncpu in
  match env with
  | Some e =>
      match strtol10 e with
      | Some (n, EmptyString) =>
          if (1 <=? n)%Z then (if (GOO_MAX_OS_THREADS <? n)%Z then GOO_MAX_OS_THREADS else n) else by_cpus
      | _ => by_cpus
      end
  | None => by_cpus
  end.

Definition init_threads (num_threads : Z) : Z :=
  let n := if (num_threads <=? 0)%Z then 1%Z else num_threads in
  if (GOO_MAX_OS_THREADS <? n)%Z then GOO_MAX_OS_THREADS else n.

(** ** Threads *)
(** Code that calls the runtime, in a goroutine or on the main thread: between two calls, or
    inside one. *)
Inductive code : Set :=
| Body
| GoCount (g : gid)      (* goo_go: before the section that numbers and counts it *)
| GoContext (g : gid)    (* before makecontext *)
| GoEnqueue (g : gid)    (* before scheduler_add_goroutine *)
| InBlock                (* between goo_sched_block_begin and goo_sched_block_end *)
| YieldSwap              (* goo_yield: before swapcontext *)
| ExitCount              (* goo_goroutine_exit: before the section *)
| ExitReap.              (* before t_reap = current *)

(** What code does next when it is free to choose; [CallGo] comes with the address the allocator
    returns. *)
Inductive call : Set :=
| CallGo (addr : gid) | CallYield | CallBlock | Unblock | Return | CallWait | CallShutdown.

Record thread_locals : Set := mkTL {
  t_current : option gid;
  t_reap : option gid;
  t_requeue : option gid
}.

Inductive worker_pc : Set :=
| WTest                  (* while (g_scheduler->running) *)
| WGet                   (* scheduler_get_next_goroutine *)
| WSetup (g : gid)       (* t_current = goroutine ... *)
| WCount (g : gid)       (* context_switches++ *)
| WSwap (g : gid)        (* swapcontext *)
| WCode (c : code)       (* on the goroutine's stack *)
| WReap                  (* if (t_reap) *)
| WRequeue               (* if (t_requeue) *)
| WCycle                 (* scheduler_cycles++ *)
| WExited.

Record worker : Set := mkWorker { w_pc : worker_pc; w_tl : thread_locals }.

Inductive main_pc : Set :=
| MCode (c : code)
| MPoll (asleep_streak : nat)
| MJoin                  (* goo_scheduler_shutdown: in pthread_join *)
| MFreed                 (* g_scheduler is freed *)
| MDeadlock.             (* goo_deadlock_abort *)

Record sched_sys : Type := mkSys {
  sched : goo_scheduler;
  heap : Heap;
  workers : list worker;
  main : main_pc
}.

(** A read or write through a goroutine's pointer. *)
Definition access (h : Heap) (g : gid) : res goo_goroutine :=
  match h !! g with Some o => Next o | None => Fault "use of a freed goroutine" end.

Definition modify (h : Heap) (g : gid) (f : goo_goroutine -> goo_goroutine) : res Heap :=
  rbind (access h g) (fun o => Next (<[g := f o]> h)).

(** ** The queue *)
Definition scheduler_get_next_goroutine (s : goo_scheduler) (h : Heap)
    : res (goo_scheduler * Heap * option gid) :=
  match ready_queue s with
  | None => Next (s, h, None)
  | Some g =>
      rbind (access h g) (fun o => Next (set_queue (g_next o) s, <[g := with_next None o]> h, Some g))
  end.

Definition scheduler_add_goroutine (s : goo_scheduler) (h : Heap) (g : gid) : res (goo_scheduler * Heap) :=
  rbind (modify h g (with_next (ready_queue s))) (fun h => Next (set_queue (Some g) s, h)).

(** ** The calls *)
Inductive after : Set :=
| Stay (c : code)        (* goes on in this thread's code *)
| Swapped                (* back on the worker's own stack *)
| Deadlock.              (* goo_deadlock_abort *)

Record code_result : Type := mkCR { r_sched : goo_scheduler; r_heap : Heap; r_tl : thread_locals; r_after : after }.

Definition goo_go (addr : gid) (s : goo_scheduler) (h : Heap) (tl : thread_locals) : res code_result :=
  match h !! addr with
  | Some _ => Disabled      (* the allocator returns no address in use *)
  | None => Next (mkCR s (<[addr := mkGoroutine GOO_GOROUTINE_READY 0 NoContext None]> h) tl (Stay (GoCount addr)))
  end.

Definition goo_yield (s : goo_scheduler) (h : Heap) (tl : thread_locals) : res code_result :=
  match t_current tl with
  | None => Next (mkCR s h tl (Stay Body))
  | Some g =>
      rbind (modify h g (with_state GOO_GOROUTINE_READY)) (fun h =>
      Next (mkCR s h (mkTL (Some g) (t_reap tl) (Some g)) (Stay YieldSwap)))
  end.

Definition goo_sched_block_begin (s : goo_scheduler) (h : Heap) (tl : thread_locals) : code_result :=
  match t_current tl with
  | Some _ => mkCR (set_blocked (blocked_goroutines s + 1) s) h tl (Stay InBlock)
  | None =>
      let deadlock := (num_goroutines s =? 0)%Z && negb (bool_decide (is_Some (ready_queue s))) in
      mkCR s h tl (if deadlock then Deadlock else Stay InBlock)
  end.

Definition goo_sched_block_end (s : goo_scheduler) (h : Heap) (tl : thread_locals) : code_result :=
  match t_current tl with
  | Some _ =>
      mkCR (if (0 <? blocked_goroutines s)%Z then set_blocked (blocked_goroutines s - 1) s else s) h tl (Stay Body)
  | None => mkCR s h tl (Stay Body)
  end.

(** [goo_goroutine_exit], which [goroutine_wrapper] calls when the function returns. *)
Definition goo_goroutine_exit (s : goo_scheduler) (h : Heap) (tl : thread_locals) : res code_result :=
  match t_current tl with
  | None => Disabled
  | Some g =>
      rbind (modify h g (with_state GOO_GOROUTINE_DONE)) (fun h => Next (mkCR s h tl (Stay ExitCount)))
  end.

Definition code_step (c : code) (k : call) (s : goo_scheduler) (h : Heap) (tl : thread_locals) : res code_result :=
  match c with
  | Body =>
      match k with
      | CallGo addr => goo_go addr s h tl
      | CallYield => goo_yield s h tl
      | CallBlock => Next (goo_sched_block_begin s h tl)
      | Return => goo_goroutine_exit s h tl
      | _ => Disabled
      end
  | GoCount g =>
      rbind (modify h g (with_id (next_goroutine_id s))) (fun h =>
      Next (mkCR (set_count (next_goroutine_id s + 1) (num_goroutines s + 1) s) h tl (Stay (GoContext g))))
  | GoContext g =>
      rbind (modify h g (with_context AtEntry)) (fun h => Next (mkCR s h tl (Stay (GoEnqueue g))))
  | GoEnqueue g =>
      rbind (scheduler_add_goroutine s h g) (fun '(s, h) => Next (mkCR s h tl (Stay Body)))
  | InBlock => match k with Unblock => Next (goo_sched_block_end s h tl) | _ => Disabled end
  | YieldSwap =>
      match t_current tl with
      | Some g => rbind (modify h g (with_context AtYield)) (fun h => Next (mkCR s h tl Swapped))
      | None => Disabled
      end
  | ExitCount => Next (mkCR (set_count (next_goroutine_id s) (num_goroutines s - 1) s) h tl (Stay ExitReap))
  | ExitReap => Next (mkCR s h (mkTL (t_current tl) (t_current tl) (t_requeue tl)) Swapped)
  end.

(** ** The workers *)
Definition resume (h : Heap) (g : gid) : res Heap :=
  rbind (access h g) (fun o =>
  match g_context o with
  | AtEntry | AtYield => Next (<[g := with_context Stale o]> h)
  | NoContext | Stale => Fault "switch to a context that is not saved"
  end).

Definition reap (h : Heap) (g : gid) : res Heap :=
  rbind (access h g) (fun _ => Next (delete g h)).

(** [scheduler_main_loop]. *)
Definition worker_step (k : call) (s : goo_scheduler) (h : Heap) (w : worker)
    : res (goo_scheduler * Heap * worker * bool) :=
  let tl := w_tl w in
  match w_pc w with
  | WTest => Next (s, h, mkWorker (if running s then WGet else WExited) tl, false)
  | WGet =>
      rbind (scheduler_get_next_goroutine s h) (fun '(s, h, g) =>
      Next (s, h, mkWorker (match g with Some g => WSetup g | None => WCycle end) tl, false))
  | WSetup g =>
      rbind (modify h g (with_state GOO_GOROUTINE_RUNNING)) (fun h =>
      Next (s, h, mkWorker (WCount g) (mkTL (Some g) None None), false))
  | WCount g => Next (set_stats (context_switches s + 1) (scheduler_cycles s) s, h, mkWorker (WSwap g) tl, false)
  | WSwap g => rbind (resume h g) (fun h => Next (s, h, mkWorker (WCode Body) tl, false))
  | WCode c =>
      rbind (code_step c k s h tl) (fun r =>
      match r_after r with
      | Stay c => Next (r_sched r, r_heap r, mkWorker (WCode c) (r_tl r), false)
      | Swapped => Next (r_sched r, r_heap r, mkWorker WReap (r_tl r), false)
      | Deadlock => Next (r_sched r, r_heap r, mkWorker (WCode c) (r_tl r), true)
      end)
  | WReap =>
      match t_reap tl with
      | Some g =>
          rbind (reap h g) (fun h => Next (s, h, mkWorker WRequeue (mkTL (t_current tl) None (t_requeue tl)), false))
      | None => Next (s, h, mkWorker WRequeue tl, false)
      end
  | WRequeue =>
      match t_requeue tl with
      | Some g =>
          rbind (scheduler_add_goroutine s h g) (fun '(s, h) =>
          Next (s, h, mkWorker WCycle (mkTL None (t_reap tl) None), false))
      | None => Next (s, h, mkWorker WCycle (mkTL None (t_reap tl) None), false)
      end
  | WCycle => Next (set_stats (context_switches s) (scheduler_cycles s + 1) s, h, mkWorker WTest tl, false)
  | WExited => Disabled
  end.

(** ** The main thread *)
Definition no_goroutine : thread_locals := mkTL None None None.

(** One poll of [goo_scheduler_wait]. *)
Definition wait_done (s : goo_scheduler) : bool :=
  (num_goroutines s =? 0)%Z && negb (bool_decide (is_Some (ready_queue s))).
Definition all_asleep (s : goo_scheduler) : bool :=
  (0 <? num_goroutines s)%Z && (blocked_goroutines s =? num_goroutines s)%Z &&
  negb (bool_decide (is_Some (ready_queue s))).

Definition poll (s : goo_scheduler) (asleep_streak : nat) : main_pc :=
  let streak := if all_asleep s then S asleep_streak else 0%nat in
  if (ASLEEP_POLLS <=? streak)%nat then MDeadlock
  else if wait_done s || negb (running s) then MCode Body
  else MPoll streak.

Definition exited (w : worker) : bool := match w_pc w with WExited => true | _ => false end.

Definition main_step (k : call) (x : sched_sys) : res sched_sys :=
  match main x with
  | MCode c =>
      match c, k with
      | Body, CallWait => Next (mkSys (set_main_in_wait (sched x)) (heap x) (workers x) (MPoll 0))
      | Body, CallShutdown => Next (mkSys (set_running false (sched x)) (heap x) (workers x) MJoin)
      | _, _ =>
          rbind (code_step c k (sched x) (heap x) no_goroutine) (fun r =>
          Next (mkSys (r_sched r) (r_heap r) (workers x)
                  (match r_after r with Stay c => MCode c | Swapped => MCode c | Deadlock => MDeadlock end)))
      end
  | MPoll streak => Next (mkSys (sched x) (heap x) (workers x) (poll (sched x) streak))
  | MJoin => if forallb exited (workers x) then Next (mkSys (sched x) (heap x) (workers x) MFreed) else Disabled
  | MFreed | MDeadlock => Disabled
  end.

(** ** The system *)
Inductive action : Set := Worker (i : nat) (k : call) | Main (k : call).

(** A worker that still runs after [g_scheduler] is freed reads freed memory; after the
    deadlock abort nothing runs. *)
Definition step (x : sched_sys) (a : action) : res sched_sys :=
  match main x with
  | MDeadlock => Disabled
  | _ =>
    match a with
    | Main k => main_step k x
    | Worker i k =>
        match workers x !! i with
        | None => Disabled
        | Some w =>
            match main x, w_pc w with
            | MFreed, WExited => Disabled
            | MFreed, _ => Fault "use of the freed scheduler"
            | _, _ =>
                rbind (worker_step k (sched x) (heap x) w) (fun '(s, h, w', deadlock) =>
                Next (mkSys s h (<[i := w']> (workers x)) (if deadlock : bool then MDeadlock else main x)))
            end
        end
    end
  end.

(** Every interleaving: actions that are not enabled are passed over. *)
Fixpoint exec (x : sched_sys) (acts : list action) : res sched_sys :=
  match acts with
  | [] => Next x
  | a :: acts =>
      match step x a with
      | Next x => exec x acts
      | Disabled => exec x acts
      | Fault why => Fault why
      end
  end.

(** [goo_scheduler_init]. *)
Definition goo_scheduler_init (num_threads : Z) : sched_sys :=
  mkSys (mkScheduler None true 1 0 0 0 0 false) ∅
    (replicate (Z.to_nat (init_threads num_threads)) (mkWorker WTest no_goroutine)) (MCode Body).

(** The main thread's calls before there is a scheduler. *)
Inductive first_result : Type := Started (x : res sched_sys) | DeadlockAtOnce | ReturnsAtOnce.

Definition first_call (env : option string) (ncpu : Z) (k : call) : first_result :=
  match k with
  | CallGo _ => Started (step (goo_scheduler_init (goo_default_thread_count env ncpu)) (Main k))
  | CallBlock => DeadlockAtOnce
  | _ => ReturnsAtOnce
  end.
