(* ===== verification/SchedFacts.v ===== *)
(** * SchedFacts: where every goroutine is.

    [Inv] holds in every state the scheduler can reach: each goroutine object is claimed
    exactly once, by the queue or by one thread, and its state and context are what that place
    requires; the counters are those of the claims.  [sched_step_inv] is its preservation, which also
    shows that no step faults. *)
From Stdlib Require Import ZArith Lia String Bool Permutation.
From stdpp Require Import base list numbers option gmap.
From S2P Require Import Prelude Sched.

#[local] Open Scope list_scope.

(** ** Claims *)
Inductive status : Set :=
| Queued      (* ready to be switched to *)
| Switching   (* marked running, context still saved *)
| Active      (* its code runs *)
| Yielding    (* in goo_yield, before the swap *)
| Exiting     (* finished, still counted *)
| Exited      (* finished, to be freed *)
| Created     (* by goo_go, not yet counted *)
| Counted.    (* counted, without a context *)

Definition saved (c : context) : bool := match c with AtEntry | AtYield => true | _ => false end.

Definition fits (st : status) (o : goo_goroutine) : Prop :=
  match st with
  | Queued => g_state o = GOO_GOROUTINE_READY /\ saved (g_context o) = true
  | Switching => g_state o = GOO_GOROUTINE_RUNNING /\ saved (g_context o) = true
  | Active => g_state o = GOO_GOROUTINE_RUNNING /\ g_context o = Stale
  | Yielding => g_state o = GOO_GOROUTINE_READY /\ g_context o = Stale
  | Exiting | Exited => g_state o = GOO_GOROUTINE_DONE
  | Created | Counted => g_state o = GOO_GOROUTINE_READY /\ g_context o = NoContext
  end.

Definition counted (st : status) : Z := match st with Created | Exited => 0 | _ => 1 end.

Abbreviation claim := (gid * status)%type.

Definition counts (C : list claim) : Z := foldr (fun c n => counted c.2 + n)%Z 0%Z C.

Definition claim_of (st : status) (g : option gid) : list claim := match g with Some g => [(g, st)] | None => [] end.

Definition code_claims (tl : thread_locals) (c : code) : list claim :=
  match c with
  | Body | InBlock => claim_of Active (t_current tl)
  | GoCount a => (a, Created) :: claim_of Active (t_current tl)
  | GoContext a => (a, Counted) :: claim_of Active (t_current tl)
  | GoEnqueue a => (a, Queued) :: claim_of Active (t_current tl)
  | YieldSwap => claim_of Yielding (t_current tl)
  | ExitCount => claim_of Exiting (t_current tl)
  | ExitReap => claim_of Exited (t_current tl)
  end.

Definition worker_claims (w : worker) : list claim :=
  match w_pc w with
  | WSetup g => [(g, Queued)]
  | WCount g | WSwap g => [(g, Switching)]
  | WCode c => code_claims (w_tl w) c
  | WReap => claim_of Exited (t_reap (w_tl w)) ++ claim_of Queued (t_requeue (w_tl w))
  | WRequeue => claim_of Queued (t_requeue (w_tl w))
  | _ => []
  end.

Definition main_claims (m : main_pc) : list claim :=
  match m with MCode c => code_claims no_goroutine c | _ => [] end.

(** Threads in a channel operation that are counted as blocked. *)
Definition code_blocked (tl : thread_locals) (c : code) : Z :=
  match c, t_current tl with InBlock, Some _ => 1 | _, _ => 0 end.

Definition worker_blocked (w : worker) : Z := match w_pc w with WCode c => code_blocked (w_tl w) c | _ => 0 end.

Definition total (f : worker -> Z) (ws : list worker) : Z := foldr (fun w n => f w + n)%Z 0%Z ws.

(** ** Threads' own data *)
Definition code_ok (tl : thread_locals) (c : code) : Prop :=
  t_reap tl = None /\
  match c with
  | YieldSwap => is_Some (t_current tl) /\ t_requeue tl = t_current tl
  | ExitCount | ExitReap => is_Some (t_current tl) /\ t_requeue tl = None
  | _ => t_requeue tl = None
  end.

Definition worker_ok (w : worker) : Prop :=
  match w_pc w with
  | WCount g | WSwap g => w_tl w = mkTL (Some g) None None
  | WCode c => is_Some (t_current (w_tl w)) /\ code_ok (w_tl w) c
  | WReap => t_reap (w_tl w) = None \/ t_requeue (w_tl w) = None
  | _ => True
  end.

Definition main_ok (m : main_pc) : Prop :=
  match m with MCode c => code_ok no_goroutine c | _ => True end.

(** ** The heap *)
Definition wf (C : list claim) (h : Heap) : Prop :=
  NoDup C.*1 /\ (forall g, is_Some (h !! g) <-> g ∈ C.*1) /\
  (forall g st, (g, st) ∈ C -> exists o, h !! g = Some o /\ fits st o).

Fixpoint chain (h : Heap) (q : option gid) (l : list gid) : Prop :=
  match l with
  | [] => q = None
  | g :: l => q = Some g /\ exists o, h !! g = Some o /\ chain h (g_next o) l
  end.

Lemma wf_perm C C' h : C ≡ₚ C' -> wf C h -> wf C' h.
Proof.
  intros Hp (Hn&Hd&Hf). split_and!.
  - by rewrite <- Hp.
  - intros g. by rewrite <- Hp.
  - intros g st. rewrite <- Hp. apply Hf.
Qed.

Lemma wf_lookup C g st h : wf ((g, st) :: C) h -> exists o, h !! g = Some o /\ fits st o.
Proof. intros (_&_&Hf). apply Hf. by left. Qed.

Lemma wf_notin C g st h : wf ((g, st) :: C) h -> g ∉ C.*1.
Proof. intros (Hn&_). cbn in Hn. by apply NoDup_cons in Hn as [? _]. Qed.

Lemma wf_update C g st st' o h : wf ((g, st) :: C) h -> fits st' o -> wf ((g, st') :: C) (<[g := o]> h).
Proof.
  intros Hw Ho. pose proof (wf_notin C g st h Hw) as Hg. destruct Hw as (Hn&Hd&Hf). split_and!; [done| |].
  - intros g'. destruct (decide (g = g')) as [->|Hne].
    + rewrite lookup_insert_eq. split; [intros _; by left|eauto].
    + rewrite lookup_insert_ne by done. apply Hd.
  - intros g' s' [[= -> ->]|Hin]%elem_of_cons.
    + exists o. by rewrite lookup_insert_eq.
    + rewrite lookup_insert_ne; [apply Hf; by right|]. intros ->. apply Hg. apply list_elem_of_fmap. by exists (g', s').
Qed.

Lemma wf_insert C g st o h : wf C h -> h !! g = None -> fits st o -> wf ((g, st) :: C) (<[g := o]> h).
Proof.
  intros (Hn&Hd&Hf) Hg Ho. assert (g ∉ C.*1) as Hgi by (rewrite <- Hd, Hg; by intros [? ?]). split_and!.
  - cbn. by apply NoDup_cons.
  - intros g'. cbn. rewrite elem_of_cons, <- Hd. destruct (decide (g = g')) as [->|Hne].
    + rewrite lookup_insert_eq. split; [by left|eauto].
    + rewrite lookup_insert_ne by done. split; [by right|]. by intros [->|].
  - intros g' s' [[= -> ->]|Hin]%elem_of_cons; [exists o; by rewrite lookup_insert_eq|].
    rewrite lookup_insert_ne; [by apply Hf|]. intros ->. apply Hgi. apply list_elem_of_fmap. by exists (g', s').
Qed.

Lemma wf_delete C g st h : wf ((g, st) :: C) h -> wf C (delete g h).
Proof.
  intros Hw. pose proof (wf_notin C g st h Hw) as Hg. destruct Hw as (Hn&Hd&Hf). cbn in Hn. apply NoDup_cons in Hn as [_ Hn].
  split_and!; [done| |].
  - intros g'. destruct (decide (g = g')) as [->|Hne].
    + rewrite lookup_delete_eq. split; [by intros [? ?]|]. by intros H.
    + rewrite lookup_delete_ne, Hd by done. cbn. rewrite elem_of_cons. split; [by intros [->|]|by right].
  - intros g' s' Hin. rewrite lookup_delete_ne; [apply Hf; by right|]. intros ->. apply Hg.
    apply list_elem_of_fmap. by exists (g', s').
Qed.

Lemma chain_other h h' q l : (forall g, g ∈ l -> h' !! g = h !! g) -> chain h q l -> chain h' q l.
Proof.
  revert q. induction l as [|g l IH]; intros q Hh; [done|]. intros (->&o&Ho&Hc). split; [done|]. exists o.
  rewrite Hh by (by left). split; [done|]. apply IH; [intros; apply Hh; by right|done].
Qed.

(** ** The scheduler from the place of one thread: its claims [C], the others' [O]. *)
Definition queued (l : list gid) : list claim := map (fun g => (g, Queued)) l.

Definition linv (s : goo_scheduler) (h : Heap) (C O : list claim) (B : Z) : Prop :=
  exists l, chain h (ready_queue s) l /\ wf (C ++ O ++ queued l) h /\
    num_goroutines s = counts (C ++ O ++ queued l) /\ blocked_goroutines s = B.

Lemma counts_app C C' : counts (C ++ C') = (counts C + counts C')%Z.
Proof. unfold counts. induction C as [|c C IH]; cbn in *; [done|]. rewrite IH. lia. Qed.

Lemma counts_perm C C' : C ≡ₚ C' -> counts C = counts C'.
Proof. unfold counts. induction 1; cbn in *; lia. Qed.

Lemma linv_perm s h C O C' O' B B' : C ++ O ≡ₚ C' ++ O' -> B = B' -> linv s h C O B -> linv s h C' O' B'.
Proof.
  intros Hp <- (l&Hc&Hw&Hn&Hb). exists l. assert (C ++ O ++ queued l ≡ₚ C' ++ O' ++ queued l) as Hq
    by (by rewrite !app_assoc, Hp). split_and!; [done|by apply (wf_perm _ _ _ Hq)|by rewrite <- (counts_perm _ _ Hq)|done].
Qed.

Lemma not_queued C O l g st h : wf (((g, st) :: C) ++ O ++ queued l) h -> forall g', g' ∈ l -> g' <> g.
Proof.
  intros Hw g' Hg' ->. change (wf ((g, st) :: (C ++ O ++ queued l)) h) in Hw. apply wf_notin in Hw. apply Hw.
  rewrite !fmap_app. apply elem_of_app. right. apply elem_of_app. right.
  unfold queued. apply list_elem_of_fmap. exists (g, Queued). split; [done|]. apply list_elem_of_fmap. by exists g.
Qed.

(** A write through a pointer this thread claims. *)
Lemma linv_modify s s' h C g st st' O B f :
  linv s h ((g, st) :: C) O B -> (forall o, fits st o -> fits st' (f o)) -> (forall o, g_next (f o) = g_next o) ->
  ready_queue s' = ready_queue s -> blocked_goroutines s' = blocked_goroutines s ->
  num_goroutines s' = (num_goroutines s + counted st' - counted st)%Z ->
  exists h', modify h g f = Next h' /\ linv s' h' ((g, st') :: C) O B.
Proof.
  intros (l&Hc&Hw&Hn&Hb) Hf _ Hq Hb' Hn'. destruct (wf_lookup _ _ _ _ Hw) as (o&Ho&Hfit).
  exists (<[g := f o]> h). unfold modify, access. rewrite Ho. split; [done|]. exists l. rewrite Hq. split_and!.
  - apply (chain_other h); [|done]. intros g' Hg'. rewrite lookup_insert_ne; [done|].
    intros <-. by apply (not_queued C O l g st h Hw g).
  - by apply (wf_update _ _ st); [|apply Hf].
  - cbn in *. lia.
  - congruence.
Qed.

(** A section on the counters alone. *)
Lemma linv_counters s s' h C g st st' O B B' :
  linv s h ((g, st) :: C) O B -> (forall o, fits st o -> fits st' o) ->
  ready_queue s' = ready_queue s -> blocked_goroutines s' = (blocked_goroutines s + B' - B)%Z ->
  num_goroutines s' = (num_goroutines s + counted st' - counted st)%Z ->
  linv s' h ((g, st') :: C) O B'.
Proof.
  intros (l&Hc&Hw&Hn&Hb) Hf Hq Hb' Hn'. exists l. rewrite Hq. split_and!; [done| |cbn in *; lia|lia].
  destruct (wf_lookup _ _ _ _ Hw) as (o&Ho&Hfit). rewrite <- (insert_id h g o Ho).
  by apply (wf_update _ _ st); [|apply Hf].
Qed.

Lemma linv_same s s' h C O B : ready_queue s' = ready_queue s -> blocked_goroutines s' = blocked_goroutines s ->
  num_goroutines s' = num_goroutines s -> linv s h C O B -> linv s' h C O B.
Proof. intros Hq Hb Hn (l&H). exists l. by rewrite Hq, Hb, Hn. Qed.

Lemma linv_add s h g C O B : linv s h ((g, Queued) :: C) O B ->
  exists s' h', scheduler_add_goroutine s h g = Next (s', h') /\ linv s' h' C O B /\ running s' = running s.
Proof.
  intros (l&Hc&Hw&Hn&Hb). destruct (wf_lookup _ _ _ _ Hw) as (o&Ho&Hfit).
  unfold scheduler_add_goroutine, modify, access. rewrite Ho. cbn [rbind]. eexists _, _. split; [done|]. split; [|done].
  exists (g :: l). cbn [ready_queue set_queue num_goroutines blocked_goroutines].
  assert (((g, Queued) :: C) ++ O ++ queued l ≡ₚ C ++ O ++ queued (g :: l)) as Hp.
  { cbn. rewrite !app_assoc. apply Permutation_middle. }
  split_and!.
  - split; [done|]. exists (with_next (ready_queue s) o). rewrite lookup_insert_eq. split; [done|]. cbn.
    apply (chain_other h); [|done]. intros g' Hg'. rewrite lookup_insert_ne; [done|].
    intros <-. by apply (not_queued C O l g Queued h Hw g).
  - apply (wf_perm _ _ _ Hp). by apply (wf_update _ _ Queued).
  - by rewrite <- (counts_perm _ _ Hp).
  - done.
Qed.

Lemma linv_get s h C O B : linv s h C O B ->
  exists s' h' g, scheduler_get_next_goroutine s h = Next (s', h', g) /\ linv s' h' (claim_of Queued g ++ C) O B /\
    running s' = running s.
Proof.
  intros (l&Hc&Hw&Hn&Hb). unfold scheduler_get_next_goroutine, access. destruct l as [|g l].
  - cbn in Hc. rewrite Hc. exists s, h, None. split; [done|]. split; [|done]. exists []. by rewrite Hc.
  - destruct Hc as (Hq&o&Ho&Hc). rewrite Hq, Ho. cbn [rbind]. eexists _, _, (Some g). split; [done|]. split; [|done].
    assert (C ++ O ++ queued (g :: l) ≡ₚ ((g, Queued) :: C) ++ O ++ queued l) as Hp.
    { cbn. rewrite !app_assoc. symmetry. apply Permutation_middle. }
    apply (wf_perm _ _ _ Hp) in Hw. exists l. cbn [ready_queue set_queue num_goroutines blocked_goroutines]. split_and!.
    + apply (chain_other h); [|done]. intros g' Hg'. rewrite lookup_insert_ne; [done|].
      intros <-. by apply (not_queued C O l g Queued h Hw g).
    + apply (wf_update _ _ Queued); [done|]. destruct (wf_lookup _ _ _ _ Hw) as (o'&Ho'&Hf). by simplify_eq.
    + rewrite Hn. by apply counts_perm.
    + done.
Qed.

Lemma linv_alloc s h g o C O B : linv s h C O B -> h !! g = None -> fits Created o ->
  linv s (<[g := o]> h) ((g, Created) :: C) O B.
Proof.
  intros (l&Hc&Hw&Hn&Hb) Hg Ho. exists l. split_and!; [|by apply (wf_insert _ g Created o)|done|done].
  apply (chain_other h); [|done]. intros g' Hg'. rewrite lookup_insert_ne; [done|]. intros <-.
  destruct Hw as (_&Hd&_). assert (is_Some (h !! g)) as [? ?]; [|congruence]. apply Hd. rewrite !fmap_app.
  apply elem_of_app. right. apply elem_of_app. right. unfold queued.
  apply list_elem_of_fmap. exists (g, Queued). split; [done|]. apply list_elem_of_fmap. by exists g.
Qed.

Lemma linv_free s h g C O B : linv s h ((g, Exited) :: C) O B ->
  exists h', reap h g = Next h' /\ linv s h' C O B.
Proof.
  intros (l&Hc&Hw&Hn&Hb). destruct (wf_lookup _ _ _ _ Hw) as (o&Ho&_). exists (delete g h).
  unfold reap, access. rewrite Ho. split; [done|]. exists l. split_and!; [|by apply (wf_delete _ g Exited)|done|done].
  apply (chain_other h); [|done]. intros g' Hg'. rewrite lookup_delete_ne; [done|].
  intros <-. by apply (not_queued C O l g Exited h Hw g).
Qed.

Lemma linv_resume s h g C O B : linv s h ((g, Switching) :: C) O B ->
  exists h', resume h g = Next h' /\ linv s h' ((g, Active) :: C) O B.
Proof.
  intros Hi. destruct Hi as (l&Hc&Hw&Hn&Hb). destruct (wf_lookup _ _ _ _ Hw) as (o&Ho&[Hs Hsv]).
  exists (<[g := with_context Stale o]> h). unfold resume, access. rewrite Ho. split; [cbn; by destruct (g_context o)|].
  exists l. split_and!; [| |done|done].
  - apply (chain_other h); [|done]. intros g' Hg'. rewrite lookup_insert_ne; [done|].
    intros <-. by apply (not_queued C O l g Switching h Hw g).
  - by apply (wf_update _ _ Switching).
Qed.

(** ** Every step keeps it. *)
Definition code_post (s : goo_scheduler) (h : Heap) (tl : thread_locals) (O : list claim) (B : Z)
    (r : res code_result) : Prop :=
  match r with
  | Next r => running (r_sched r) = running s /\
      match r_after r with
      | Stay c => t_current (r_tl r) = t_current tl /\ code_ok (r_tl r) c /\
          linv (r_sched r) (r_heap r) (code_claims (r_tl r) c) O (B + code_blocked (r_tl r) c)
      | Swapped => is_Some (t_current tl) /\ (t_reap (r_tl r) = None \/ t_requeue (r_tl r) = None) /\
          linv (r_sched r) (r_heap r) (claim_of Exited (t_reap (r_tl r)) ++ claim_of Queued (t_requeue (r_tl r))) O B
      | Deadlock => t_current tl = None /\ wait_done s = true /\ linv (r_sched r) (r_heap r) [] O B
      end
  | Disabled => True
  | Fault _ => False
  end.

Ltac linv_side := first [done | by eexists | by rewrite ?Z.add_0_r in * | by left | by right | by intros ? [? ?] | by cbn; lia].

Lemma code_step_ok c k s h tl O B : code_ok tl c -> (0 <= B)%Z ->
  linv s h (code_claims tl c) O (B + code_blocked tl c) -> code_post s h tl O B (code_step c k s h tl).
Proof.
  intros [Hr Hok] HB Hi. unfold code_step. destruct c as [|a|a|a| | | |]; cbn [code_claims code_blocked] in Hi.
  - destruct k as [a| | | | | |]; try done.
    + unfold goo_go. destruct (h !! a) eqn:Ha; [done|]. cbn. split_and!; try done. by apply linv_alloc.
    + unfold goo_yield. destruct (t_current tl) as [g|] eqn:Eg; cbn [claim_of] in Hi.
      * destruct (linv_modify s s h [] g Active Yielding O B (with_state GOO_GOROUTINE_READY)) as (h'&->&Hi'); [linv_side..|].
        cbn. rewrite Eg. split_and!; linv_side.
      * cbn. rewrite Eg. by rewrite Z.add_0_r in *.
    + unfold goo_sched_block_begin. destruct (t_current tl) as [g|] eqn:Eg; cbn [claim_of] in Hi.
      * cbn. rewrite Eg. split_and!; try done. rewrite Z.add_0_r in Hi.
        apply (linv_counters s _ h [] g Active Active O B (B + 1)); try done; cbn; lia.
      * cbn. destruct ((num_goroutines s =? 0)%Z && _) eqn:Ed; cbn; rewrite ?Eg; by rewrite ?Z.add_0_r in *.
    + unfold goo_goroutine_exit. destruct (t_current tl) as [g|] eqn:Eg; [|done]. cbn [claim_of] in Hi.
      destruct (linv_modify s s h [] g Active Exiting O B (with_state GOO_GOROUTINE_DONE)) as (h'&->&Hi'); [linv_side..|].
        cbn. rewrite Eg. split_and!; linv_side.
  - set (s1 := set_count _ _ s).
    destruct (linv_modify s s1 h (claim_of Active (t_current tl)) a Created Counted O B (with_id (next_goroutine_id s)))
      as (h'&->&Hi'); [linv_side..|]. cbn. split_and!; linv_side.
  - destruct (linv_modify s s h (claim_of Active (t_current tl)) a Counted Queued O B (with_context AtEntry))
      as (h'&->&Hi'); [linv_side..|].
    cbn. split_and!; linv_side.
  - destruct (linv_add s h a (claim_of Active (t_current tl)) O (B + 0) Hi) as (s'&h'&->&Hi'&Hrun).
    cbn. split_and!; done.
  - destruct k; try done. unfold goo_sched_block_end. destruct (t_current tl) as [g|] eqn:Eg; cbn [claim_of] in Hi.
    + assert (blocked_goroutines s = B + 1)%Z as Hb by (by destruct Hi as (l&_&_&_&?)).
      destruct (Z.ltb_spec 0 (blocked_goroutines s)); [|lia]. cbn. rewrite Eg. split_and!; try done.
      apply (linv_counters s _ h [] g Active Active O (B + 1) (B + 0)); try done; cbn; lia.
    + cbn. by rewrite Eg.
  - destruct Hok as [[g Eg] Hq]. rewrite Eg in *. cbn [claim_of] in Hi.
    destruct (linv_modify s s h [] g Yielding Queued O B (with_context AtYield)) as (h'&->&Hi'); [linv_side..|].
        cbn. rewrite Hr, Hq. split_and!; linv_side.
  - destruct Hok as [[g Eg] Hq]. rewrite Eg in Hi. cbn [claim_of] in Hi. cbn. split; [done|]. rewrite Eg.
    split_and!; [linv_side..|]. rewrite Z.add_0_r in *.
    apply (linv_counters s _ h [] g Exiting Exited O B B); try done; cbn; lia.
  - destruct Hok as [[g Eg] Hq]. rewrite Eg in Hi. cbn [claim_of] in Hi. cbn. rewrite Eg, Hq. split_and!; linv_side.
Qed.

Definition worker_post (s : goo_scheduler) (w : worker) (O : list claim) (B : Z)
    (r : res (goo_scheduler * Heap * worker * bool)) : Prop :=
  match r with
  | Next (s', h', w', deadlock) => deadlock = false /\ running s' = running s /\ worker_ok w' /\
      (w_pc w <> WExited) /\ (w_pc w' = WExited -> running s = false) /\
      linv s' h' (worker_claims w') O (B + worker_blocked w')
  | Disabled => True
  | Fault _ => False
  end.

Lemma worker_step_ok k s h w O B : worker_ok w -> (0 <= B)%Z ->
  linv s h (worker_claims w) O (B + worker_blocked w) -> worker_post s w O B (worker_step k s h w).
Proof.
  destruct w as [pc tl]. unfold worker_ok, worker_claims, worker_blocked, worker_step. cbn [w_pc w_tl].
  intros Hok HB Hi. destruct pc as [| |g|g|g|c| | | |]; cbn [rbind worker_post].
  - split_and!; try done; cbn; destruct (running s); done.
  - destruct (linv_get s h [] O (B + 0) Hi) as (s'&h'&g&->&Hi'&Hr). cbn. destruct g; split_and!; done.
  - destruct (linv_modify s s h [] g Queued Switching O (B + 0) (with_state GOO_GOROUTINE_RUNNING)) as (h'&->&Hi');
      [linv_side..|]. cbn. split_and!; done.
  - split_and!; done.
  - destruct (linv_resume s h g [] O (B + 0) Hi) as (h'&->&Hi'). rewrite Hok. cbn. split_and!; linv_side.
  - destruct Hok as [[g Eg] Hok]. pose proof (code_step_ok c k s h tl O B Hok HB Hi) as H. unfold code_post in H.
    destruct (code_step c k s h tl) as [r| |]; [|done..]. destruct H as [Hr H]. cbn [rbind].
    destruct (r_after r) as [c'| |]; cbn.
    + destruct H as (Ec&Hok'&Hi'). split_and!; try done. rewrite Ec. by eexists.
    + destruct H as (_&Ho&Hi'). split_and!; try done. by rewrite Z.add_0_r.
    + destruct H as (Ec&_). congruence.
  - destruct tl as [cur [g|] rq]; cbn [t_reap t_requeue claim_of] in *.
    + destruct (linv_free s h g (claim_of Queued rq) O (B + 0) Hi) as (h'&->&Hi'). cbn. split_and!; done.
    + split_and!; done.
  - destruct (t_requeue tl) as [g|]; cbn [claim_of] in Hi.
    + destruct (linv_add s h g [] O (B + 0) Hi) as (s'&h'&->&Hi'&Hr). cbn. split_and!; done.
    + split_and!; done.
  - split_and!; done.
  - done.
Qed.

(** ** The system *)
Definition all_claims (x : sched_sys) : list claim := concat (map worker_claims (workers x)) ++ main_claims (main x).

Definition Inv (x : sched_sys) : Prop :=
  Forall worker_ok (workers x) /\ main_ok (main x) /\
  linv (sched x) (heap x) (all_claims x) [] (total worker_blocked (workers x)) /\
  match main x with
  | MJoin => running (sched x) = false
  | MFreed => Forall (fun w => w_pc w = WExited) (workers x)
  | _ => True
  end.

Lemma total_app f ws ws' : total f (ws ++ ws') = (total f ws + total f ws')%Z.
Proof. unfold total. induction ws as [|w ws IH]; cbn in *; [done|]. rewrite IH. lia. Qed.

Lemma total_cons f w ws : total f (w :: ws) = (f w + total f ws)%Z.
Proof. done. Qed.

Lemma total_nonneg ws : (0 <= total worker_blocked ws)%Z.
Proof.
  unfold total. induction ws as [|w ws IH]; cbn in *; [done|]. assert (0 <= worker_blocked w)%Z; [|lia].
  unfold worker_blocked, code_blocked. destruct (w_pc w); try done. destruct c; try done. by destruct (t_current _).
Qed.

Lemma claims_split pre w post m :
  concat (map worker_claims (pre ++ w :: post)) ++ main_claims m ≡ₚ
  worker_claims w ++ concat (map worker_claims (pre ++ post)) ++ main_claims m.
Proof.
  rewrite !map_app, !concat_app. cbn. rewrite !app_assoc. do 2 f_equiv. by rewrite (Permutation_app_comm _ (worker_claims w)).
Qed.

Lemma worker_split x i w : workers x !! i = Some w ->
  exists pre post, workers x = pre ++ w :: post /\ forall w', <[i := w']> (workers x) = pre ++ w' :: post.
Proof.
  intros Hi. exists (take i (workers x)), (drop (S i) (workers x)).
  split; [by rewrite take_drop_middle|]. intros w'. apply insert_take_drop. by apply lookup_lt_Some in Hi.
Qed.

Lemma step_worker_inv x i k w : Inv x -> workers x !! i = Some w -> main x <> MDeadlock -> main x <> MFreed ->
  match rbind (worker_step k (sched x) (heap x) w) (fun '(s, h, w', deadlock) =>
          Next (mkSys s h (<[i := w']> (workers x)) (if deadlock : bool then MDeadlock else main x))) with
  | Next x' => Inv x' /\ main x' = main x
  | Disabled => True
  | Fault _ => False
  end.
Proof.
  intros (Hw&Hm&Hi&Hx) Hl Hd Hf. destruct (worker_split x i w Hl) as (pre&post&Hws&Hins).
  unfold all_claims in Hi. rewrite Hws in Hi, Hw. apply Forall_app in Hw as [Hpre Hpost]. apply Forall_cons in Hpost as [Hok Hpost].
  pose proof (total_nonneg (pre ++ post)) as HB. rewrite total_app in Hi, HB. rewrite total_cons in Hi.
  apply (linv_perm _ _ _ _ (worker_claims w) (concat (map worker_claims (pre ++ post)) ++ main_claims (main x)) _
    (total worker_blocked pre + total worker_blocked post + worker_blocked w)) in Hi;
    [|by rewrite app_nil_r, claims_split|lia].
  pose proof (worker_step_ok k _ _ _ _ _ Hok HB Hi) as H.
  destruct (worker_step k (sched x) (heap x) w) as [[[[s h] w'] dl]| |]; [|done|done].
  destruct H as (->&Hr&Hok'&_&_&Hi'). cbn. split; [|done]. rewrite Hins. split_and!.
  - apply Forall_app. split; [done|]. by apply Forall_cons.
  - done.
  - unfold all_claims. cbn [workers main sched heap]. refine (linv_perm _ _ _ _ _ _ _ _ _ _ Hi').
    + by rewrite app_nil_r, claims_split.
    + cbn [workers]. rewrite total_app, total_cons. lia.
  - cbn. destruct (main x); try done. by rewrite Hr.
Qed.

Lemma code_blocked_main tl c : t_current tl = None -> code_blocked tl c = 0%Z.
Proof. intros E. unfold code_blocked. destruct c; by rewrite ?E. Qed.

Lemma code_claims_main tl c : t_current tl = None -> code_claims tl c = code_claims no_goroutine c.
Proof. intros E. destruct c; cbn; by rewrite ?E. Qed.

(** What the main thread is at does not matter to the others. *)
Lemma inv_main x s h m : Forall worker_ok (workers x) -> main_ok m ->
  linv s h (main_claims m) (concat (map worker_claims (workers x))) (total worker_blocked (workers x)) ->
  match m with
  | MJoin => running s = false | MFreed => Forall (fun w => w_pc w = WExited) (workers x) | _ => True
  end -> Inv (mkSys s h (workers x) m).
Proof.
  intros Hw Hm Hi Hx. split_and!; try done. unfold all_claims. cbn. refine (linv_perm _ _ _ _ _ _ _ _ _ eq_refl Hi).
  rewrite app_nil_r. apply Permutation_app_comm.
Qed.

Lemma main_code_inv x c k : Inv x -> main x = MCode c ->
  match rbind (code_step c k (sched x) (heap x) no_goroutine) (fun r =>
          Next (mkSys (r_sched r) (r_heap r) (workers x)
            (match r_after r with Stay c => MCode c | Swapped => MCode c | Deadlock => MDeadlock end))) with
  | Next x' => Inv x' | Disabled => True | Fault _ => False
  end.
Proof.
  intros (Hw&Hm&Hi&_) Em. rewrite Em in Hm. pose proof (total_nonneg (workers x)) as HB. unfold all_claims in Hi. rewrite Em in Hi.
  apply (linv_perm _ _ _ _ (code_claims no_goroutine c) (concat (map worker_claims (workers x))) _
    (total worker_blocked (workers x) + code_blocked no_goroutine c)) in Hi;
    [|rewrite app_nil_r; apply Permutation_app_comm|rewrite code_blocked_main by done; lia].
  pose proof (code_step_ok c k _ _ _ _ _ Hm HB Hi) as H.
  destruct (code_step c k (sched x) (heap x) no_goroutine) as [r| |]; [|done..]. destruct H as [Hr H]. cbn [rbind].
  destruct (r_after r) as [c'| |].
  - destruct H as (Ec&[Hreap Hok]&Hi'). cbn in Ec. rewrite code_claims_main, code_blocked_main, Z.add_0_r in Hi' by done.
    apply inv_main; try done. split; [done|]. destruct c'; try done; destruct Hok as [[g Eg] _]; congruence.
  - by destruct H as [[? ?] _].
  - destruct H as (_&_&Hi'). by apply inv_main.
Qed.

Lemma main_step_inv k x : Inv x ->
  match main_step k x with Next x' => Inv x' | Disabled => True | Fault _ => False end.
Proof.
  intros HI. pose proof HI as (Hw&Hm&Hi&Hx). unfold main_step.
  assert (linv (sched x) (heap x) (main_claims (main x)) (concat (map worker_claims (workers x)))
            (total worker_blocked (workers x))) as Hi'.
  { refine (linv_perm _ _ _ _ _ _ _ _ _ eq_refl Hi). unfold all_claims. rewrite app_nil_r. apply Permutation_app_comm. }
  destruct (main x) as [c|n| | |] eqn:Em; try done.
  - pose proof (main_code_inv x c k HI Em) as Hcode. destruct c, k; try exact Hcode.
    + by apply inv_main.
    + by apply inv_main.
  - apply inv_main; try done; unfold poll; destruct (_ <=? _)%nat; try done; by destruct (_ || _).
  - destruct (forallb exited (workers x)) eqn:E; [|done]. apply inv_main; try done.
    apply Forall_forall. intros w Hin. rewrite forallb_forall in E. specialize (E w).
    rewrite <- list_elem_of_In in E. specialize (E Hin). unfold exited in E. by destruct (w_pc w).
Qed.

Lemma sched_step_inv x a : Inv x -> match step x a with Next x' => Inv x' | Disabled => True | Fault _ => False end.
Proof.
  intros HI. unfold step. destruct (main x) as [c|n| | |] eqn:Em; try done; destruct a as [i k|k];
    try exact (main_step_inv k x HI); destruct (workers x !! i) as [w|] eqn:El; try done.
  1-3: assert (main x <> MDeadlock /\ main x <> MFreed) as [Hd Hf] by (by rewrite Em);
       pose proof (step_worker_inv x i k w HI El Hd Hf) as H; rewrite Em in H;
       destruct (rbind _ _); [by destruct H|done|done].
  destruct HI as (_&_&_&Hx). rewrite Em in Hx. rewrite Forall_forall in Hx.
  assert (w_pc w = WExited) as Ew by (apply Hx; by apply list_elem_of_lookup_2 in El). by rewrite Ew.
Qed.

Lemma exec_inv x acts : Inv x -> match exec x acts with Next x' => Inv x' | Disabled => True | Fault _ => False end.
Proof.
  revert x. induction acts as [|a acts IH]; intros x HI; [done|]. cbn [exec].
  pose proof (sched_step_inv x a HI) as H. destruct (step x a); [by apply IH|by apply IH|done].
Qed.

Lemma total_replicate n : total worker_blocked (replicate n (mkWorker WTest no_goroutine)) = 0%Z.
Proof. induction n as [|n IH]; [done|]. cbn [replicate]. by rewrite total_cons, IH. Qed.

Lemma init_inv n : Inv (goo_scheduler_init n).
Proof.
  unfold goo_scheduler_init. set (k := Z.to_nat _). split_and!; try done; cbn [workers sched heap].
  - induction k; cbn; by constructor.
  - exists []. rewrite total_replicate. assert (concat (map worker_claims (replicate k (mkWorker WTest no_goroutine))) = []) as E
      by (induction k; by cbn). unfold all_claims. cbn. rewrite E. split_and!; try done. split_and!; cbn; [constructor| |].
    + intros g. split; [by intros [? ?]|by intros ?%elem_of_nil].
    + by intros g st ?%elem_of_nil.
Qed.

Lemma exec_disabled x acts : exec x acts <> Disabled.
Proof. revert x. induction acts as [|a acts IH]; intros x; [done|]. cbn. destruct (step x a); auto. Qed.
