(* ===== verification/SchedResults.v ===== *)
(** * SchedResults: what holds of every run of the scheduler.

    [scheduler_safe]: no run faults, and no goroutine is at two places.  [goroutine_count] and
    [deadlock_abort_sound] are about the counters and what is concluded from them,
    [shutdown_reclaims] about the end.  [blocked_workers_stall] and [yield_starves] are runs
    without progress. *)
From Stdlib Require Import ZArith Lia String Bool Permutation.
From stdpp Require Import base list numbers option gmap.
From S2P Require Import Prelude Sched SchedFacts.

#[local] Open Scope list_scope.

(** The goroutine a worker has taken from the queue and not given back. *)
Definition runs (w : worker) : option gid :=
  match w_pc w with
  | WSetup g | WCount g | WSwap g => Some g
  | WCode _ => t_current (w_tl w)
  | _ => None
  end.

Definition reachable (x : sched_sys) : Prop := exists n acts, exec (goo_scheduler_init n) acts = Next x.

Definition unfinished (o : goo_goroutine) : Prop := g_state o <> GOO_GOROUTINE_DONE.
#[export] Instance goroutine_state_eq_dec : EqDecision goo_goroutine_state.
Proof. solve_decision. Defined.

(** Threads inside [goo_go] before it counts, and inside [goo_goroutine_exit] before it does. *)
Definition creating_code (c : code) : Z := match c with GoCount _ => 1 | _ => 0 end.
Definition exiting_code (c : code) : Z := match c with ExitCount => 1 | _ => 0 end.
Definition of_worker (f : code -> Z) (w : worker) : Z := match w_pc w with WCode c => f c | _ => 0 end.
Definition of_main (f : code -> Z) (m : main_pc) : Z := match m with MCode c => f c | _ => 0 end.

(** The worker is blocked in a channel operation of goroutine [g]. *)
Definition blocked_in (w : worker) (g : gid) : Prop := w_pc w = WCode InBlock /\ t_current (w_tl w) = Some g.

Lemma reachable_inv x : reachable x -> Inv x.
Proof. intros (n&acts&E). pose proof (exec_inv _ acts (init_inv n)) as H. by rewrite E in H. Qed.

Lemma runs_claimed w g : worker_ok w -> runs w = Some g -> g ∈ (worker_claims w).*1.
Proof.
  unfold runs, worker_claims, worker_ok. destruct (w_pc w) as [| |g'|g'|g'|c| | | |]; try done.
  1-3: intros _ [= ->]; cbn; by left.
  intros _ E. unfold code_claims. rewrite E. destruct c; cbn; set_solver.
Qed.

Lemma claims_parts x i w : workers x !! i = Some w ->
  exists rest, all_claims x ≡ₚ worker_claims w ++ rest /\
    forall j w', j <> i -> workers x !! j = Some w' -> worker_claims w' ⊆ rest.
Proof.
  intros Hi. exists (concat (map worker_claims (take i (workers x) ++ drop (S i) (workers x))) ++ main_claims (main x)).
  split.
  - unfold all_claims. rewrite <- (take_drop_middle (workers x) i w Hi) at 1. apply claims_split.
  - intros j w' Hj Hl c Hc. apply elem_of_app. left. apply list_elem_of_In, in_concat.
    exists (worker_claims w'). split; [|by apply list_elem_of_In]. apply in_map, list_elem_of_In, elem_of_app.
    destruct (decide (j < i)) as [Hlt|Hge].
    + left. apply list_elem_of_lookup. exists j. by rewrite lookup_take_lt.
    + right. apply list_elem_of_lookup. exists (j - S i). rewrite lookup_drop. by replace (S i + (j - S i)) with j by lia.
Qed.

(** C8: In every interleaving of any number of workers, the main thread and the code the
    goroutines run, nothing faults: no freed goroutine is read, written, switched to or freed
    again, and no context is resumed that is not saved.  Always the queue is a proper list of
    ready goroutines with saved contexts, a goroutine runs on one worker at most, and not while
    it is queued. *)
Theorem scheduler_safe n acts :
  match exec (goo_scheduler_init n) acts with
  | Next x => exists l, chain (heap x) (ready_queue (sched x)) l /\ NoDup l /\
      (forall g, g ∈ l -> exists o, heap x !! g = Some o /\ g_state o = GOO_GOROUTINE_READY /\ saved (g_context o) = true) /\
      (forall i w g, workers x !! i = Some w -> runs w = Some g ->
         is_Some (heap x !! g) /\ ~ g ∈ l /\
         forall j w', workers x !! j = Some w' -> runs w' = Some g -> j = i)
  | Disabled | Fault _ => False
  end.
Proof.
  pose proof (exec_inv _ acts (init_inv n)) as H. pose proof (exec_disabled (goo_scheduler_init n) acts) as Hd.
  destruct (exec (goo_scheduler_init n) acts) as [x| |]; [|done..].
  destruct H as (Hw&_&(l&Hc&Hwf&_&_)&_). rewrite app_nil_l in Hwf. exists l.
  assert (NoDup (all_claims x ++ queued l).*1) as Hnd by (by destruct Hwf). rewrite fmap_app in Hnd.
  apply NoDup_app in Hnd as (Hnd1&Hdis&Hnd2).
  assert ((queued l).*1 = l) as Hql by (unfold queued; clear; induction l as [|g l IH]; cbn; [done|by f_equal]).
  rewrite Hql in *. split_and!; try done.
  - intros g Hg. destruct Hwf as (_&_&Hf). destruct (Hf g Queued) as (o&Ho&Hs&Hsv); [|by exists o].
    apply elem_of_app. right. unfold queued. apply list_elem_of_fmap. by exists g.
  - intros i w g Hi Hr. assert (worker_ok w) as Hok by (rewrite Forall_forall in Hw; apply Hw; by apply list_elem_of_lookup_2 in Hi).
    pose proof (runs_claimed w g Hok Hr) as Hg. destruct (claims_parts x i w Hi) as (rest&Hp&Hrest).
    assert (g ∈ (all_claims x).*1) as Hga by (rewrite Hp, fmap_app; apply elem_of_app; by left).
    split_and!.
    + destruct Hwf as (_&Hd'&_). apply Hd'. rewrite fmap_app. apply elem_of_app. by left.
    + by apply Hdis.
    + intros j w' Hj Hr'. destruct (decide (j = i)) as [|Hne]; [done|]. exfalso.
      assert (worker_ok w') as Hok' by (rewrite Forall_forall in Hw; apply Hw; by apply list_elem_of_lookup_2 in Hj).
      pose proof (runs_claimed w' g Hok' Hr') as Hg'. rewrite Hp, fmap_app in Hnd1.
      apply NoDup_app in Hnd1 as (_&Hx&_). apply (Hx g Hg). apply list_elem_of_fmap in Hg' as (c&->&Hc').
      apply list_elem_of_fmap. exists c. split; [done|]. by apply (Hrest j w').
Qed.

(** ** The counters *)
Lemma counts_nonneg C : (0 <= counts C)%Z.
Proof. unfold counts. induction C as [|[g st] C IH]; cbn in *; [done|]. destruct st; cbn; lia. Qed.

Lemma counts_in C g st : (g, st) ∈ C -> (counted st <= counts C)%Z.
Proof.
  intros Hin. apply list_elem_of_split in Hin as (C1&C2&->). rewrite counts_app.
  pose proof (counts_nonneg C1). pose proof (counts_nonneg C2). unfold counts in *. cbn. lia.
Qed.

Lemma counts_concat ws : counts (concat (map worker_claims ws)) = total (fun w => counts (worker_claims w)) ws.
Proof. induction ws as [|w ws IH]; [done|]. cbn [map concat]. by rewrite counts_app, total_cons, IH. Qed.

Lemma blocked_le w : worker_ok w -> (worker_blocked w <= counts (worker_claims w))%Z.
Proof.
  intros _. pose proof (counts_nonneg (worker_claims w)) as H. unfold worker_blocked, worker_claims, code_claims, code_blocked in *.
  destruct (w_pc w); try done. destruct c; try done. destruct (t_current (w_tl w)); unfold counts in *; cbn in *; lia.
Qed.

(** When all that is counted is blocked, nothing else is counted. *)
Lemma total_squeeze ws : Forall worker_ok ws ->
  (total (fun w => counts (worker_claims w)) ws <= total worker_blocked ws)%Z ->
  Forall (fun w => counts (worker_claims w) = worker_blocked w) ws.
Proof.
  assert (forall ws, Forall worker_ok ws -> total worker_blocked ws <= total (fun w => counts (worker_claims w)) ws)%Z as Hle.
  { intros ws' HF. induction HF as [|w ws' Hw HF IH]; [done|]. rewrite !total_cons. cbn beta. pose proof (blocked_le w Hw). lia. }
  induction 1 as [|w ws Hw HF IH]; intros H; [constructor|]. rewrite !total_cons in H. cbn beta in H.
  pose proof (blocked_le w Hw). pose proof (Hle ws HF). constructor; [lia|]. apply IH. lia.
Qed.

Lemma worker_claims_unfinished w : worker_ok w -> forall g st o, (g, st) ∈ worker_claims w -> fits st o -> unfinished o ->
  counts (worker_claims w) = worker_blocked w -> blocked_in w g.
Proof.
  unfold worker_claims, worker_blocked, worker_ok, blocked_in. intros Hok g st o Hin Hf Hu Hc.
  destruct (w_pc w) as [| |g'|g'|g'|c| | | |]; cbn in Hc; try done; try (by apply elem_of_nil in Hin).
  - destruct Hok as [[cur Ec] _]. unfold code_blocked in Hc. rewrite Ec in Hc. unfold code_claims in *. rewrite Ec in *.
    destruct c; cbn in *; try lia.
    + apply list_elem_of_singleton in Hin as [= -> ->]. done.
    + apply list_elem_of_singleton in Hin as [= -> ->]. done.
  - destruct Hok as [Hn|Hn]; rewrite Hn in *; cbn in *.
    + destruct (t_requeue (w_tl w)); cbn in *; [lia|by apply elem_of_nil in Hin].
    + rewrite app_nil_r in Hin. destruct (t_reap (w_tl w)); cbn in *; [|by apply elem_of_nil in Hin].
      by apply list_elem_of_singleton in Hin as [= -> ->].
  - destruct (t_requeue (w_tl w)); cbn in *; [lia|by apply elem_of_nil in Hin].
Qed.

(** All claims are one thread's or the queue's. *)
Lemma all_asleep_blocked x : Inv x -> match main x with MCode (GoCount _) => False | _ => True end ->
  (num_goroutines (sched x) <= blocked_goroutines (sched x))%Z ->
  forall g o, heap x !! g = Some o -> unfinished o -> exists i w, workers x !! i = Some w /\ blocked_in w g.
Proof.
  intros (Hw&Hm&(l&Hc&Hwf&Hn&Hb)&_) Hmain Hle g o Hg Hu. rewrite app_nil_l in *.
  unfold all_claims in *. rewrite !counts_app, counts_concat in Hn.
  pose proof (counts_nonneg (main_claims (main x))). pose proof (counts_nonneg (queued l)).
  assert (Forall (fun w => counts (worker_claims w) = worker_blocked w) (workers x)) as HF by (apply total_squeeze; [done|lia]).
  assert (total (fun w => counts (worker_claims w)) (workers x) = total worker_blocked (workers x)) as Ht.
  { clear -HF. induction HF as [|w ws E HF IH]; [done|]. rewrite !total_cons. congruence. }
  destruct Hwf as (_&Hd&Hf). assert (g ∈ ((concat (map worker_claims (workers x)) ++ main_claims (main x)) ++ queued l).*1) as Hin
    by (apply Hd; by eexists).
  apply list_elem_of_fmap in Hin as ([g' st]&Hg'&Hin). cbn in Hg'. subst g'.
  destruct (Hf g st Hin) as (o'&Ho'&Hfit). assert (o' = o) as -> by congruence.
  apply elem_of_app in Hin as [[Hin|Hin]%elem_of_app|Hin].
  - apply list_elem_of_In, in_concat in Hin as (cs&Hcs&Hin). apply in_map_iff in Hcs as (w&<-&Hww).
    apply list_elem_of_In in Hin, Hww. rewrite Forall_forall in HF, Hw.
    apply list_elem_of_lookup in Hww as [i Hi]. exists i, w. split; [done|].
    assert (w ∈ workers x) by (by apply list_elem_of_lookup_2 in Hi).
    exact (worker_claims_unfinished w (Hw w ltac:(done)) g st o Hin Hfit Hu (HF w ltac:(done))).
  - exfalso. assert (counts (main_claims (main x)) = 0%Z) as Hz by lia.
    pose proof (counts_in _ _ _ Hin) as Hle'. rewrite Hz in Hle'. unfold main_claims in Hin.
    destruct (main x) as [c| | | |]; try (by apply elem_of_nil in Hin). cbn in Hm. destruct Hm as [_ Hm].
    destruct c; cbn in Hin; try (by apply elem_of_nil in Hin); try done;
      apply list_elem_of_singleton in Hin as [= -> ->]; cbn in Hle'; lia.
  - exfalso. pose proof (counts_in _ _ _ Hin) as Hle'. unfold queued in Hin. apply list_elem_of_fmap in Hin as (?&[= -> ->]&_).
    cbn in Hle'. lia.
Qed.

(** *** What the counter counts *)
Definition unfinished_status (st : status) : Z := match st with Exiting | Exited => 0 | _ => 1 end.
Definition is_created (st : status) : Z := match st with Created => 1 | _ => 0 end.
Definition is_exiting (st : status) : Z := match st with Exiting => 1 | _ => 0 end.
Definition weigh (f : status -> Z) (C : list claim) : Z := foldr (fun c n => f c.2 + n)%Z 0%Z C.

Lemma weigh_app f C C' : weigh f (C ++ C') = (weigh f C + weigh f C')%Z.
Proof. unfold weigh. induction C as [|c C IH]; cbn in *; [done|]. rewrite IH. lia. Qed.

Lemma weigh_concat f ws : weigh f (concat (map worker_claims ws)) = total (fun w => weigh f (worker_claims w)) ws.
Proof. induction ws as [|w ws IH]; [done|]. cbn [map concat]. by rewrite weigh_app, total_cons, IH. Qed.

Lemma total_ext f f' ws : Forall (fun w => f w = f' w) ws -> total f ws = total f' ws.
Proof. induction 1 as [|w ws E HF IH]; [done|]. by rewrite !total_cons, E, IH. Qed.

Definition count_unfinished (h : Heap) : nat := size (filter (fun go : gid * goo_goroutine => unfinished go.2) h).

Lemma count_delete g o h : h !! g = Some o ->
  Z.of_nat (count_unfinished h) = ((if decide (unfinished o) then 1 else 0) + Z.of_nat (count_unfinished (delete g h)))%Z.
Proof.
  intros Ho. unfold count_unfinished. rewrite <- (insert_delete_id h g o Ho) at 1. case_decide as Hu.
  - rewrite map_filter_insert_True by done. rewrite map_size_insert_None; [lia|].
    apply map_lookup_filter_None. left. apply lookup_delete_eq.
  - rewrite map_filter_insert_False, delete_delete_eq by exact Hu. lia.
Qed.

Lemma wf_count C h : wf C h -> Z.of_nat (count_unfinished h) = weigh unfinished_status C.
Proof.
  revert h. induction C as [|[g st] C IH]; intros h Hw.
  - destruct Hw as (_&Hd&_). assert (h = ∅) as ->;
      [|by unfold count_unfinished; rewrite map_filter_empty, map_size_empty]. apply map_eq. intros g.
    rewrite lookup_empty. destruct (h !! g) eqn:E; [|done]. exfalso. apply (elem_of_nil g). apply Hd. by eexists.
  - destruct (wf_lookup _ _ _ _ Hw) as (o&Ho&Hf). rewrite (count_delete g o h Ho), (IH _ (wf_delete _ _ _ _ Hw)).
    unfold weigh. cbn. f_equal. unfold unfinished in *. destruct st; cbn in *; case_decide as Hu; try done;
      exfalso; destruct_and?; first [congruence | apply Hu; congruence].
Qed.

Lemma counts_weigh C : counts C = (weigh unfinished_status C - weigh is_created C +
  weigh is_exiting C)%Z.
Proof. unfold counts, weigh. induction C as [|[g st] C IH]; [done|]. cbn in *. destruct st; cbn; lia. Qed.

Lemma weigh_code (tl : thread_locals) c : code_ok tl c ->
  weigh is_created (code_claims tl c) = creating_code c /\
  weigh is_exiting (code_claims tl c) = exiting_code c.
Proof.
  intros [_ Hok]. destruct c; cbn; try (destruct (t_current tl); done). by destruct Hok as [[g ->] _].
Qed.

Lemma weigh_worker w : worker_ok w ->
  weigh is_created (worker_claims w) = of_worker creating_code w /\
  weigh is_exiting (worker_claims w) = of_worker exiting_code w.
Proof.
  unfold worker_ok, worker_claims, of_worker. destruct (w_pc w); try done.
  - intros [_ H]. by apply weigh_code.
  - by destruct (t_reap (w_tl w)), (t_requeue (w_tl w)).
  - by destruct (t_requeue (w_tl w)).
Qed.

Lemma weigh_main m : main_ok m ->
  weigh is_created (main_claims m) = of_main creating_code m /\
  weigh is_exiting (main_claims m) = of_main exiting_code m.
Proof. destruct m; cbn; try done. apply weigh_code. Qed.

Lemma weigh_queued f l : f Queued = 0%Z -> weigh f (queued l) = 0%Z.
Proof. intros E. unfold weigh, queued. induction l as [|g l IH]; [done|]. cbn in *. by rewrite E. Qed.

(** [num_goroutines] is the number of goroutines whose function has not returned, less
    those that a thread in [goo_go] has allocated and not counted yet, plus those that are in
    [goo_goroutine_exit] before it counts; and [blocked_goroutines] is the number of goroutines
    inside a channel operation. *)
Theorem goroutine_count x : reachable x ->
  num_goroutines (sched x) =
    (Z.of_nat (count_unfinished (heap x)) -
     (total (of_worker creating_code) (workers x) + of_main creating_code (main x)) +
     (total (of_worker exiting_code) (workers x) + of_main exiting_code (main x)))%Z /\
  blocked_goroutines (sched x) = total worker_blocked (workers x).
Proof.
  intros Hr. destruct (reachable_inv x Hr) as (Hw&Hm&(l&Hc&Hwf&Hn&Hb)&_). rewrite app_nil_l in *. split; [|done].
  rewrite Hn, counts_weigh, <- (wf_count _ _ Hwf). unfold all_claims. rewrite !weigh_app, !weigh_concat.
  destruct (weigh_main _ Hm) as [-> ->]. rewrite !(weigh_queued _ l) by done.
  rewrite (total_ext (fun w => weigh is_created (worker_claims w)) (of_worker creating_code)),
    (total_ext (fun w => weigh is_exiting (worker_claims w)) (of_worker exiting_code)); [lia| |];
    apply Forall_forall; intros w Hin; rewrite Forall_forall in Hw; by destruct (weigh_worker w (Hw w Hin)).
Qed.

(** ** Deadlock and the end *)
Lemma num_zero_finished x : Inv x -> match main x with MCode (GoCount _) => False | _ => True end ->
  num_goroutines (sched x) = 0%Z -> forall g o, heap x !! g = Some o -> g_state o = GOO_GOROUTINE_DONE.
Proof.
  intros HI Hm Hz g o Hg. destruct (decide (g_state o = GOO_GOROUTINE_DONE)) as [|Hu]; [done|exfalso].
  pose proof HI as (Hw&_&(l&_&_&Hn&Hb)&_). pose proof (total_nonneg (workers x)) as HB.
  destruct (all_asleep_blocked x HI Hm ltac:(lia) g o Hg Hu) as (i&w&Hi&Hpc&Hcur).
  rewrite app_nil_l in Hn. unfold all_claims in Hn. rewrite !counts_app in Hn.
  pose proof (counts_nonneg (main_claims (main x))). pose proof (counts_nonneg (queued l)).
  assert (1 <= counts (concat (map worker_claims (workers x))))%Z; [|lia].
  apply (counts_in _ g Active). apply list_elem_of_In, in_concat. exists (worker_claims w). split.
  - apply in_map, list_elem_of_In. by apply list_elem_of_lookup_2 in Hi.
  - apply list_elem_of_In. unfold worker_claims. rewrite Hpc. cbn. rewrite Hcur. by left.
Qed.

Lemma code_step_deadlock c k s h tl r : code_step c k s h tl = Next r -> r_after r = Deadlock ->
  c = Body /\ wait_done s = true.
Proof.
  unfold code_step, goo_go, goo_yield, goo_sched_block_begin, goo_sched_block_end, goo_goroutine_exit, rbind.
  intros E Ha. repeat case_match; simplify_eq/=; done.
Qed.

(** C9: The runtime concludes rightly.  When the main thread aborts with "all goroutines are
    asleep", the queue is empty and every goroutine that has not returned is blocked in a
    channel operation; and when [goo_scheduler_wait] returns while the scheduler runs, every
    goroutine has returned. *)
Theorem deadlock_abort_sound x k x' : reachable x -> step x (Main k) = Next x' ->
  (main x' = MDeadlock -> ready_queue (sched x) = None /\
     forall g o, heap x !! g = Some o -> unfinished o -> exists i w, workers x !! i = Some w /\ blocked_in w g) /\
  (forall n, main x = MPoll n -> main x' = MCode Body -> running (sched x) = true ->
     forall g o, heap x !! g = Some o -> g_state o = GOO_GOROUTINE_DONE).
Proof.
  intros Hr Hs. pose proof (reachable_inv x Hr) as HI. unfold step in Hs.
  assert (forall s, wait_done s = true -> num_goroutines s = 0%Z /\ ready_queue s = None) as Hdone.
  { intros s [E1%Z.eqb_eq E2]%andb_true_iff. split; [done|]. by destruct (ready_queue s). }
  assert (forall s, all_asleep s = true -> blocked_goroutines s = num_goroutines s /\ ready_queue s = None) as Hasleep.
  { intros s [[_ E1%Z.eqb_eq]%andb_true_iff E2]%andb_true_iff. split; [done|]. by destruct (ready_queue s). }
  pose proof HI as (_&_&(l&_&_&_&Hb)&_). pose proof (total_nonneg (workers x)) as HB.
  destruct (main x) as [c|n| | |] eqn:Em; try done; cbn in Hs; unfold main_step in Hs; rewrite Em in Hs.
  - split; [|done]. intros Hd. assert (exists r, code_step c k (sched x) (heap x) no_goroutine = Next r /\ r_after r = Deadlock)
      as (r&Er&Ha).
    { destruct (code_step c k (sched x) (heap x) no_goroutine) as [r| |] eqn:Er; [exists r|destruct c, k; simplify_eq..].
      split; [done|]. cbn in Hs. destruct (r_after r); [|..|done]; destruct c, k; simplify_eq. }
    destruct (code_step_deadlock _ _ _ _ _ _ Er Ha) as [-> Ew]. destruct (Hdone _ Ew) as [Hz ->]. split; [done|].
    apply all_asleep_blocked; [done|by rewrite Em|lia].
  - injection Hs as <-. cbn. unfold poll. split.
    + destruct (_ <=? _)%nat eqn:E; [|by destruct (_ || _)]. intros _. destruct (all_asleep (sched x)) eqn:Ea; [|done].
      destruct (Hasleep _ Ea) as [Hz ->]. split; [done|]. apply all_asleep_blocked; [done|by rewrite Em|lia].
    + intros _ _. destruct (_ <=? _)%nat; [done|]. destruct (wait_done (sched x)) eqn:Ew.
      * intros _ _. destruct (Hdone _ Ew) as [Hz _]. apply num_zero_finished; [done|by rewrite Em|done].
      * intros Hm Hrun. by rewrite Hrun in Hm.
  - by destruct (forallb _ _); simplify_eq.
  - done.
Qed.

(** Nothing leaks over a shutdown: when [goo_scheduler_shutdown] has joined the workers,
    the goroutines that are left are those of the queue, which never ran to their end; if every
    goroutine had returned, all are freed. *)
Theorem shutdown_reclaims x : reachable x -> main x = MFreed ->
  (exists l, chain (heap x) (ready_queue (sched x)) l /\ forall g, is_Some (heap x !! g) <-> g ∈ l) /\
  (num_goroutines (sched x) = 0%Z -> heap x = ∅).
Proof.
  intros Hr Hm. destruct (reachable_inv x Hr) as (_&_&(l&Hc&Hwf&Hn&_)&Hx). rewrite Hm in Hx.
  assert (all_claims x = []) as E.
  { unfold all_claims. rewrite Hm. cbn. rewrite app_nil_r. clear -Hx. induction Hx as [|w ws E HF IH]; [done|]. cbn.
    rewrite IH. unfold worker_claims. by rewrite E. }
  rewrite E, !app_nil_l in *. destruct Hwf as (_&Hd&_).
  assert (forall g, g ∈ (queued l).*1 <-> g ∈ l) as Hq.
  { intros g. unfold queued. rewrite <- list_fmap_compose. cbn. by rewrite list_fmap_id. }
  split; [exists l; split; [done|]; intros g; by rewrite Hd|].
  intros Hz. assert (l = []) as ->.
  { destruct l as [|g l]; [done|exfalso]. rewrite Hz in Hn. unfold counts in Hn. cbn in Hn.
    pose proof (counts_nonneg (queued l)). unfold counts in *. unfold queued in *. lia. }
  apply map_eq. intros g. rewrite lookup_empty. destruct (heap x !! g) eqn:Eg; [|done]. exfalso.
  apply (elem_of_nil g). apply Hd. by eexists.
Qed.

(** ** Runs without progress *)
(** Every worker is inside a channel operation of its goroutine. *)
Definition workers_blocked (ws : list worker) : Prop := Forall (fun w => w_pc w = WCode InBlock) ws.

(** The main thread waits; what the workers do is free. *)
Definition main_waits (a : action) : Prop := match a with Worker _ _ => True | Main k => k = CallWait end.
Definition is_unblock (a : action) : bool := match a with Worker _ Unblock => true | _ => false end.

Lemma stuck_step x a x' : workers_blocked (workers x) -> is_Some (ready_queue (sched x)) -> (0 < num_goroutines (sched x))%Z ->
  (main x = MCode Body \/ exists n, main x = MPoll n) -> running (sched x) = true -> main_waits a -> is_unblock a = false -> step x a = Next x' ->
  workers x' = workers x /\ heap x' = heap x /\ ready_queue (sched x') = ready_queue (sched x) /\
  num_goroutines (sched x') = num_goroutines (sched x) /\ running (sched x') = true /\ exists n, main x' = MPoll n.
Proof.
  intros Hb [g Hq] Hn Hm Hrun Ha Hu E. unfold step in E. destruct a as [i k|k]; cbn in Ha.
  - destruct (workers x !! i) as [w|] eqn:Ei; [|by destruct Hm as [->|[? ->]] in E].
    assert (w_pc w = WCode InBlock) as Ew
      by (unfold workers_blocked in Hb; rewrite Forall_forall in Hb; apply Hb; by apply list_elem_of_lookup_2 in Ei).
    unfold worker_step in E. rewrite Ew in E. destruct Hm as [Hm|[n Hm]]; rewrite Hm in E; by destruct k.
  - subst k. destruct Hm as [Hm|[n Hm]]; unfold main_step in E; rewrite Hm in E; cbn in E; injection E as <-; cbn.
    + split_and!; try done. by eexists.
    + split_and!; try done. unfold poll, all_asleep, wait_done. rewrite Hq, Hrun.
      rewrite bool_decide_eq_true_2 by (by eexists). cbn [negb]. rewrite !andb_false_r. by eexists.
Qed.

(** C10: A goroutine that blocks keeps its worker: when every worker is inside a blocking operation,
    goroutines of the queue, also those the others wait for, run only after one of these operations
    has returned.  In every run in which the main thread waits, whatever the workers do, either some
    worker leaves a blocking operation, or the queue, the workers and the goroutines are what they
    were, and [goo_scheduler_wait] has neither returned nor reported a deadlock. *)
Theorem blocked_workers_stall x acts x' :
  workers_blocked (workers x) -> is_Some (ready_queue (sched x)) -> (0 < num_goroutines (sched x))%Z ->
  (main x = MCode Body \/ exists n, main x = MPoll n) -> running (sched x) = true ->
  Forall main_waits acts -> exec x acts = Next x' ->
  existsb is_unblock acts = true \/
  workers x' = workers x /\ heap x' = heap x /\ ready_queue (sched x') = ready_queue (sched x) /\
  (main x' = MCode Body \/ exists n, main x' = MPoll n).
Proof.
  intros Hb Hq Hn Hm Hrun HF. revert x Hb Hq Hn Hm Hrun.
  induction HF as [|a acts Ha HF IH]; intros x Hb Hq Hn Hm Hrun E; cbn in E.
  { right. by injection E as <-. }
  cbn [existsb]. destruct (is_unblock a) eqn:Hu; [by left|]. cbn [orb].
  destruct (step x a) as [x1| |] eqn:E1; [|by apply IH|done].
  destruct (stuck_step x a x1 Hb Hq Hn Hm Hrun Ha Hu E1) as (Hw1&Hh1&Hq1&Hn1&Hr1&Hm1).
  rewrite <- Hw1, <- Hh1, <- Hq1. apply IH; [by rewrite Hw1|by rewrite Hq1|by rewrite Hn1|by right|done|done].
Qed.

(** Two goroutines and one worker: the second, which waits for the first on a channel, is taken
    first. *)
Definition start_two : list action :=
  [Main (CallGo 1); Main Return; Main Return; Main Return; Main (CallGo 2); Main Return; Main Return; Main Return;
   Worker 0 Return; Worker 0 Return; Worker 0 Return; Worker 0 Return; Worker 0 Return; Worker 0 CallBlock].

Lemma blocked_workers_stall_witness :
  exists x, exec (goo_scheduler_init 1) start_two = Next x /\
    forall n x', exec x (repeat (Main CallWait) n) = Next x' ->
      ready_queue (sched x') = Some 1%positive /\ main x' <> MDeadlock.
Proof.
  eexists. split; [vm_compute; reflexivity|]. intros n x' E.
  pose proof (fun b q p m r F => blocked_workers_stall _ _ x' b q p m r F E) as H.
  destruct H as [H|(_&_&Hq&Hm)].
  - repeat constructor.
  - by eexists.
  - done.
  - by left.
  - done.
  - clear. induction n as [|n IH]; cbn; constructor; done.
  - exfalso. clear -H. induction n as [|n IH]; [done|by apply IH].
  - split; [exact Hq|]. by destruct Hm as [->|[? ->]].
Defined.

(** *** Yielding *)
(** The worker's goroutine does nothing but yield, and the main thread waits. *)
Definition yield_action (a : action) : Prop := match a with Worker _ k => k = CallYield | Main k => k = CallWait end.

(** One worker has [g], or is about to take it again; [l] waits in the queue. *)
Definition starving (g : gid) (l : list gid) (x : sched_sys) : Prop :=
  exists pc tl, workers x = [mkWorker pc tl] /\
  match pc with
  | WCode Body => tl = mkTL (Some g) None None /\ chain (heap x) (ready_queue (sched x)) l
  | WCode YieldSwap => tl = mkTL (Some g) None (Some g) /\ chain (heap x) (ready_queue (sched x)) l
  | WReap | WRequeue => tl = mkTL (Some g) None (Some g) /\ chain (heap x) (ready_queue (sched x)) l
  | WSetup g' => g' = g /\ chain (heap x) (ready_queue (sched x)) l
  | WCount g' | WSwap g' => g' = g /\ tl = mkTL (Some g) None None /\ chain (heap x) (ready_queue (sched x)) l
  | WCycle | WTest | WGet => chain (heap x) (ready_queue (sched x)) (g :: l)
  | WExited => True
  | WCode _ => False
  end.

Lemma chain_insert h g o q l : ~ g ∈ l -> chain h q l -> chain (<[g := o]> h) q l.
Proof. intros Hg. apply chain_other. intros g' Hg'. rewrite lookup_insert_ne; [done|]. by intros ->. Qed.

Lemma starving_worker g l k x s h w dl : ~ g ∈ l -> k = CallYield -> starving g l x ->
  (exists w0, workers x = [w0] /\ worker_step k (sched x) (heap x) w0 = Next (s, h, w, dl)) ->
  forall m, starving g l (mkSys s h [w] m).
Proof.
  intros Hg -> (pc&tl&Hw&Hst) (w0&Hw0&E) m. rewrite Hw in Hw0. injection Hw0 as <-.
  unfold worker_step in E. cbn [w_pc w_tl] in E.
  destruct pc as [| |g'|g'|g'|c| | | |]; cbn beta iota in Hst.
  - injection E as <- <- <- <-. destruct (running (sched x)); by eexists _, _.
  - destruct Hst as (Hq&o&Ho&Hc). unfold scheduler_get_next_goroutine, access in E. rewrite Hq, Ho in E. cbn in E.
    injection E as <- <- <- <-. eexists _, _. split; [done|]. cbn. split; [done|]. by apply chain_insert.
  - destruct Hst as (->&Hc). unfold modify, access in E. destruct (heap x !! g) as [o|]; [|done]. cbn in E.
    injection E as <- <- <- <-. eexists _, _. split; [done|]. cbn. split_and!; try done. by apply chain_insert.
  - destruct Hst as (->&->&Hc). injection E as <- <- <- <-. by eexists _, _.
  - destruct Hst as (->&->&Hc). unfold resume, access in E. destruct (heap x !! g) as [o|]; [|done]. cbn in E.
    destruct (g_context o); try done; injection E as <- <- <- <-; eexists _, _; (split; [done|]); cbn; split; try done;
      by apply chain_insert.
  - destruct c; try done; destruct Hst as (->&Hc); cbn in E; unfold goo_yield, modify, access in E; cbn in E;
      destruct (heap x !! g) as [o|]; try done; cbn in E; injection E as <- <- <- <-;
      eexists _, _; (split; [done|]); cbn; split; try done; by apply chain_insert.
  - destruct Hst as (->&Hc). cbn in E. injection E as <- <- <- <-. by eexists _, _.
  - destruct Hst as (->&Hc). cbn in E. unfold scheduler_add_goroutine, modify, access in E.
    destruct (heap x !! g) as [o|] eqn:Ho; [|done]. cbn in E. injection E as <- <- <- <-.
    eexists _, _. split; [done|]. cbn. split; [done|]. eexists. rewrite lookup_insert_eq. split; [done|]. cbn. by apply chain_insert.
  - injection E as <- <- <- <-. by eexists _, _.
  - done.
Qed.

Lemma starving_step g l a x x' : ~ g ∈ l -> yield_action a -> (main x = MCode Body \/ main x = MDeadlock \/ exists n, main x = MPoll n) ->
  starving g l x -> step x a = Next x' ->
  starving g l x' /\ (main x' = MCode Body \/ main x' = MDeadlock \/ exists n, main x' = MPoll n).
Proof.
  intros Hg Ha Hm Hst E. unfold step in E. destruct Hm as [Hm|[Hm|[n Hm]]]; [|by rewrite Hm in E|]; rewrite Hm in E.
  all: destruct a as [i k|k]; cbn in Ha.
  1, 3: destruct (workers x !! i) as [w|] eqn:Ei; [|done]; destruct Hst as (pc&tl&Hw&Hst'); pose proof Ei as Ei';
    rewrite Hw in Ei'; apply list_lookup_singleton_Some in Ei' as [-> <-];
    destruct (worker_step k (sched x) (heap x) _) as [[[[s h] w'] dl]| |] eqn:Ew; try done; cbn in E; injection E as <-;
    rewrite Hw; cbn;
    (split; [apply (starving_worker g l k x s h w' dl Hg Ha); [by exists pc, tl|by eexists]|]); destruct dl; eauto.
  all: subst k; unfold main_step in E; rewrite Hm in E; cbn in E; injection E as <-; cbn.
  - split; [exact Hst|]. right. right. by eexists.
  - split; [exact Hst|]. unfold poll. destruct (_ <=? _)%nat; [by right; left|]. destruct (_ || _); [by left|]. right. right. by eexists.
Qed.

(** The queue is a stack.  A goroutine that yields is the next its worker takes; with one
    worker, one that yields in a loop keeps every other goroutine from running, for ever. *)
Theorem yield_starves x g l acts x' :
  workers x = [mkWorker (WCode Body) (mkTL (Some g) None None)] -> main x = MCode Body ->
  chain (heap x) (ready_queue (sched x)) l -> ~ g ∈ l -> Forall yield_action acts -> exec x acts = Next x' ->
  forall g' w, g' ∈ l -> w ∈ workers x' -> runs w <> Some g'.
Proof.
  intros Hw Hm Hc Hg HF E. assert (starving g l x) as Hst by (by eexists _, _).
  assert (starving g l x') as (pc&tl&Hw'&Hst').
  { assert (main x = MCode Body \/ main x = MDeadlock \/ exists n, main x = MPoll n) as Hm' by (by left).
    clear Hw Hm Hc. revert x Hst Hm' E. induction HF as [|a acts Ha HF IH]; intros x Hst Hm E; cbn in E; [by injection E as <-|].
    destruct (step x a) as [x1| |] eqn:E1; [|by apply (IH x)|done].
    destruct (starving_step g l a x x1 Hg Ha Hm Hst E1) as [Hst1 Hm1]. by apply (IH x1). }
  intros g' w Hg' Hin Hr. rewrite Hw' in Hin. apply list_elem_of_singleton in Hin as ->.
  assert (g = g') as <-; [|done]. unfold runs in Hr. cbn in Hr.
  destruct pc as [| |g1|g1|g1|c| | | |]; try done; [destruct Hst' as [-> _]..|destruct c; try done; destruct Hst' as [-> _]];
    cbn in Hr; congruence.
Qed.

(** The number of workers is between 1 and 16, whatever the environment says, and
    [goo_scheduler_init] takes it as it is. *)
Lemma thread_count_range env ncpu :
  (1 <= goo_default_thread_count env ncpu <= GOO_MAX_OS_THREADS)%Z /\
  init_threads (goo_default_thread_count env ncpu) = goo_default_thread_count env ncpu.
Proof.
  assert (1 <= goo_default_thread_count env ncpu <= GOO_MAX_OS_THREADS)%Z as H.
  { unfold goo_default_thread_count, GOO_MAX_OS_THREADS. destruct (Z.ltb_spec ncpu 1), env as [e|]; cbv zeta;
      try (destruct (strtol10 e) as [[n [|c r]]|]); zcases. }
  split; [done|]. unfold init_threads, GOO_MAX_OS_THREADS in *. zcases.
Qed.

(** ** Runs *)
Lemma goroutine_count_witness :
  exists x, reachable x /\ num_goroutines (sched x) = 2%Z /\ blocked_goroutines (sched x) = 1%Z /\
    num_goroutines (sched x) =
      (Z.of_nat (count_unfinished (heap x)) -
       (total (of_worker creating_code) (workers x) + of_main creating_code (main x)) +
       (total (of_worker exiting_code) (workers x) + of_main exiting_code (main x)))%Z.
Proof.
  assert (exists x, exec (goo_scheduler_init 1) start_two = Next x /\ num_goroutines (sched x) = 2%Z /\
            blocked_goroutines (sched x) = 1%Z) as (x&E&?&?) by (eexists; split; [vm_compute; reflexivity|split; reflexivity]).
  exists x. assert (reachable x) as Hr by (by exists 1%Z, start_two).
  split; [exact Hr|]. split; [assumption|]. split; [assumption|]. exact (proj1 (goroutine_count x Hr)).
Defined.

(** One goroutine that blocks, and the main thread's polls. *)
Definition start_asleep : list action :=
  [Main (CallGo 1); Main Return; Main Return; Main Return;
   Worker 0 Return; Worker 0 Return; Worker 0 Return; Worker 0 Return; Worker 0 Return; Worker 0 CallBlock] ++
  repeat (Main CallWait) 100.

Lemma deadlock_abort_sound_witness :
  exists x x', reachable x /\ step x (Main CallWait) = Next x' /\ main x' = MDeadlock /\
    forall g o, heap x !! g = Some o -> unfinished o -> exists i w, workers x !! i = Some w /\ blocked_in w g.
Proof.
  assert (exists x x', exec (goo_scheduler_init 1) start_asleep = Next x /\ step x (Main CallWait) = Next x' /\ main x' = MDeadlock)
    as (x&x'&E&Es&Em) by (eexists _, _; split; [vm_compute; reflexivity|split; [vm_compute; reflexivity|reflexivity]]).
  exists x, x'. assert (reachable x) as Hr by (by exists 1%Z, start_asleep).
  split; [exact Hr|]. split; [exact Es|]. split; [exact Em|].
  exact (proj2 (proj1 (deadlock_abort_sound x CallWait x' Hr Es) Em)).
Defined.
