(* ===== verification/Sync.v ===== *)
(** * Sync: sync.Mutex and sync.WaitGroup (src/runtime/sync_shim.c, src/runtime/sync.c).

    A Goo variable of these types is a slot, zero at first; its first use allocates the real
    object and publishes it in the slot.  Here any number of OS threads call the shim on any
    number of slots.  A thread is at a point of the C code; a step is one atomic access, one
    pthread operation or one statement on an object.  The critical section of a wait group has
    no wait inside but the condition variable's, so it is one step.  [goo_panic] ends the
    process: nothing steps after it.  What POSIX leaves undefined is a [Fault]. *)
From Stdlib Require Import ZArith Lia String Bool.
From stdpp Require Import base list numbers option gmap.
From S2P Require Import Prelude.

#[local] Open Scope string_scope.
#[local] Open Scope list_scope.

Abbreviation slot := positive.
Abbreviation address := positive.
Abbreviation tid := nat.

(** ** Objects *)
(** [goo_mutex_t]: the owner is that of the [pthread_mutex_t]. *)
Record goo_mutex : Set := mkMutex { m_owner : option tid; m_locked : bool }.

(** [goo_waitgroup_t]; [wg_added] is history: the sum of the deltas. *)
Record goo_waitgroup : Set := mkWaitgroup { wg_counter : Z; wg_added : Z }.

Inductive sync_object : Set := OMutex (m : goo_mutex) | OWaitgroup (g : goo_waitgroup).

Definition goo_mutex_new : goo_mutex := mkMutex None false.
Definition goo_waitgroup_new : goo_waitgroup := mkWaitgroup 0 0.

(** ** Threads *)
Inductive sync_op : Set :=
| goo_sync_mutex_lock | goo_sync_mutex_unlock
| goo_sync_wg_add (delta : Z) | goo_sync_wg_done | goo_sync_wg_wait.

Definition on_mutex (o : sync_op) : bool :=
  match o with goo_sync_mutex_lock | goo_sync_mutex_unlock => true | _ => false end.

Inductive sync_pc : Set :=
| Idle
| EnsureLoad (s : slot) (o : sync_op)                 (* p = atomic load of *slot *)
| EnsureLock (s : slot) (o : sync_op)                 (* lock g_sync_init_lock *)
| EnsureCheck (s : slot) (o : sync_op)                (* load again *)
| EnsureStore (s : slot) (o : sync_op) (p : address)  (* store the new object *)
| EnsureUnlock (s : slot) (o : sync_op) (p : address) (* unlock g_sync_init_lock *)
| Ensured (s : slot) (o : sync_op) (p : address)      (* the operation itself *)
| LockSet (s : slot) (p : address)                    (* mutex->locked = 1 *)
| UnlockClear (s : slot) (p : address)                (* mutex->locked = 0 *)
| UnlockRelease (s : slot) (p : address)              (* pthread_mutex_unlock *)
| WaitAsleep (s : slot) (p : address).                (* in pthread_cond_wait *)

(** [held]: the slots whose [Lock] returned and whose [Unlock] has not been called. *)
Record sync_thread : Type := mkThread { th_pc : sync_pc; held : gset slot }.

Record sync_sys : Type := mkSync {
  slots : gmap slot address;
  objects : gmap address sync_object;
  init_lock : option tid;          (* g_sync_init_lock *)
  sync_threads : list sync_thread;
  panicked : option string
}.

(** A thread calls an operation; goes on, where an allocation takes address [addr]; or is woken
    from [pthread_cond_wait] without a broadcast. *)
Inductive sync_action : Set :=
| Call (i : tid) (s : slot) (o : sync_op)
| Continue (i : tid) (addr : address)
| Spurious (i : tid).

Definition set_thread (x : sync_sys) (i : tid) (t : sync_thread) : sync_sys :=
  mkSync (slots x) (objects x) (init_lock x) (<[i := t]> (sync_threads x)) (panicked x).
Definition set_slot_to (x : sync_sys) (s : slot) (p : address) : sync_sys :=
  mkSync (<[s := p]> (slots x)) (objects x) (init_lock x) (sync_threads x) (panicked x).
Definition set_object (x : sync_sys) (p : address) (o : sync_object) : sync_sys :=
  mkSync (slots x) (<[p := o]> (objects x)) (init_lock x) (sync_threads x) (panicked x).
Definition set_init_lock (x : sync_sys) (l : option tid) : sync_sys :=
  mkSync (slots x) (objects x) l (sync_threads x) (panicked x).
Definition goo_panic (x : sync_sys) (msg : string) : sync_sys :=
  mkSync (slots x) (objects x) (init_lock x) (sync_threads x) (Some msg).

(** ** Mutexes *)
Definition pthread_mutex_lock (m : goo_mutex) (i : tid) : res goo_mutex :=
  match m_owner m with None => Next (mkMutex (Some i) (m_locked m)) | Some _ => Disabled end.

Definition pthread_mutex_unlock (m : goo_mutex) (i : tid) : res goo_mutex :=
  if bool_decide (m_owner m = Some i) then Next (mkMutex None (m_locked m))
  else Fault "a thread unlocks a mutex it does not own".

Definition mutex_at (x : sync_sys) (p : address) : res goo_mutex :=
  match objects x !! p with Some (OMutex m) => Next m | _ => Fault "not a mutex" end.
Definition waitgroup_at (x : sync_sys) (p : address) : res goo_waitgroup :=
  match objects x !! p with Some (OWaitgroup g) => Next g | _ => Fault "not a wait group" end.

Definition unlock_unlocked : string := "sync: unlock of unlocked mutex".
Definition negative_counter : string := "sync: negative WaitGroup counter".

(** ** Wait groups *)
(** A C [int]. *)
Definition to_int (z : Z) : Z := (z + 2 ^ 31) mod 2 ^ 32 - 2 ^ 31.

Definition wake_waiter (p : address) (t : sync_thread) : sync_thread :=
  match th_pc t with
  | WaitAsleep s q => if bool_decide (q = p) then mkThread (Ensured s goo_sync_wg_wait p) (held t) else t
  | _ => t
  end.

Definition pthread_cond_broadcast (x : sync_sys) (p : address) : sync_sys :=
  mkSync (slots x) (objects x) (init_lock x) (map (wake_waiter p) (sync_threads x)) (panicked x).

(** [goo_waitgroup_add(wg, (int)delta)]. *)
Definition goo_waitgroup_add (x : sync_sys) (p : address) (delta : Z) : res sync_sys :=
  rbind (waitgroup_at x p) (fun g =>
  let counter := to_int (wg_counter g + to_int delta) in
  let x := set_object x p (OWaitgroup (mkWaitgroup counter (wg_added g + delta))) in
  if (counter <? 0)%Z then Next (goo_panic x negative_counter)
  else Next (if (counter =? 0)%Z then pthread_cond_broadcast x p else x)).

(** ** Steps *)
(** The operation on the object, from [Ensured] on. *)
Definition operate (x : sync_sys) (i : tid) (t : sync_thread) (s : slot) (o : sync_op) (p : address) : res sync_sys :=
  let idle := mkThread Idle (held t) in
  match o with
  | goo_sync_mutex_lock =>
      rbind (mutex_at x p) (fun m =>
      rbind (pthread_mutex_lock m i) (fun m => Next (set_thread (set_object x p (OMutex m)) i (mkThread (LockSet s p) (held t)))))
  | goo_sync_mutex_unlock =>
      rbind (mutex_at x p) (fun m =>
      if m_locked m then Next (set_thread x i (mkThread (UnlockClear s p) (held t)))
      else Next (goo_panic x unlock_unlocked))
  | goo_sync_wg_add delta => goo_waitgroup_add (set_thread x i idle) p delta
  | goo_sync_wg_done => goo_waitgroup_add (set_thread x i idle) p (-1)
  | goo_sync_wg_wait =>
      rbind (waitgroup_at x p) (fun g =>
      Next (set_thread x i (if (0 <? wg_counter g)%Z then mkThread (WaitAsleep s p) (held t) else idle)))
  end.

Definition thread_step (x : sync_sys) (i : tid) (t : sync_thread) (addr : address) : res sync_sys :=
  match th_pc t with
  | Idle | WaitAsleep _ _ => Disabled
  | EnsureLoad s o =>
      Next (set_thread x i (mkThread (match slots x !! s with Some p => Ensured s o p | None => EnsureLock s o end) (held t)))
  | EnsureLock s o =>
      match init_lock x with
      | None => Next (set_thread (set_init_lock x (Some i)) i (mkThread (EnsureCheck s o) (held t)))
      | Some _ => Disabled
      end
  | EnsureCheck s o =>
      match slots x !! s with
      | Some p => Next (set_thread x i (mkThread (EnsureUnlock s o p) (held t)))
      | None =>
          match objects x !! addr with
          | Some _ => Disabled
          | None =>
              Next (set_thread (set_object x addr (if on_mutex o then OMutex goo_mutex_new else OWaitgroup goo_waitgroup_new))
                      i (mkThread (EnsureStore s o addr) (held t)))
          end
      end
  | EnsureStore s o p => Next (set_thread (set_slot_to x s p) i (mkThread (EnsureUnlock s o p) (held t)))
  | EnsureUnlock s o p =>
      if bool_decide (init_lock x = Some i)
      then Next (set_thread (set_init_lock x None) i (mkThread (Ensured s o p) (held t)))
      else Fault "a thread unlocks a mutex it does not own"
  | Ensured s o p => operate x i t s o p
  | LockSet s p =>
      rbind (mutex_at x p) (fun m =>
      Next (set_thread (set_object x p (OMutex (mkMutex (m_owner m) true))) i (mkThread Idle ({[s]} ∪ held t))))
  | UnlockClear s p =>
      rbind (mutex_at x p) (fun m =>
      Next (set_thread (set_object x p (OMutex (mkMutex (m_owner m) false))) i (mkThread (UnlockRelease s p) (held t))))
  | UnlockRelease s p =>
      rbind (mutex_at x p) (fun m =>
      rbind (pthread_mutex_unlock m i) (fun m => Next (set_thread (set_object x p (OMutex m)) i (mkThread Idle (held t)))))
  end.

Definition sync_step (x : sync_sys) (a : sync_action) : res sync_sys :=
  match panicked x with
  | Some _ => Disabled
  | None =>
    match a with
    | Call i s o =>
        match sync_threads x !! i with
        | Some t =>
            match th_pc t with
            | Idle => Next (set_thread x i (mkThread (EnsureLoad s o)
                        (match o with goo_sync_mutex_unlock => held t ∖ {[s]} | _ => held t end)))
            | _ => Disabled
            end
        | None => Disabled
        end
    | Continue i addr =>
        match sync_threads x !! i with Some t => thread_step x i t addr | None => Disabled end
    | Spurious i =>
        match sync_threads x !! i with
        | Some t => match th_pc t with
                    | WaitAsleep s p => Next (set_thread x i (mkThread (Ensured s goo_sync_wg_wait p) (held t)))
                    | _ => Disabled
                    end
        | None => Disabled
        end
    end
  end.

Fixpoint sync_exec (x : sync_sys) (acts : list sync_action) : res sync_sys :=
  match acts with
  | [] => Next x
  | a :: acts =>
      match sync_step x a with
      | Next x => sync_exec x acts
      | Disabled => sync_exec x acts
      | Fault why => Fault why
      end
  end.

Definition sync_start (n : nat) : sync_sys := mkSync ∅ ∅ None (replicate n (mkThread Idle ∅)) None.

(** ** Programs *)
(** The types of the variables: [is_mutex s] says that slot [s] is a sync.Mutex.  A disciplined
    program unlocks only what the same thread has locked. *)
Section programs.
  Context (is_mutex : slot -> bool).

Definition well_typed (a : sync_action) : bool :=
    match a with Call _ s o => Bool.eqb (on_mutex o) (is_mutex s) | _ => true end.

Definition disciplined (x : sync_sys) (a : sync_action) : bool :=
    match a with
    | Call i s goo_sync_mutex_unlock =>
        match sync_threads x !! i with Some t => bool_decide (s ∈ held t) | None => true end
    | _ => true
    end.

Inductive sync_reachable (n : nat) : sync_sys -> Prop :=
  | sync_reach_start : sync_reachable n (sync_start n)
  | sync_reach_step x a x' : sync_reachable n x -> well_typed a = true -> disciplined x a = true ->
      sync_step x a = Next x' -> sync_reachable n x'.
End programs.
