(* ===== verification/SyncFacts.v ===== *)
(** * SyncFacts: the invariant of the sync shim.

    [sync_inv] holds in every state a well-typed, disciplined program reaches: a slot's object is
    published once and is the slot's own, a thread that has a lock is the owner of its mutex,
    and who sleeps in [Wait] sleeps on a positive counter.  [sync_results] are its consequences. *)
From Stdlib Require Import ZArith Lia String Bool.
From stdpp Require Import base list numbers option gmap.
From S2P Require Import Prelude Sync.

#[local] Open Scope list_scope.

Section inv.
  Context (is_mutex : slot -> bool).

(** ** What a thread knows *)
Definition op_of (c : sync_pc) : option (slot * sync_op) :=
    match c with
    | EnsureLoad s o | EnsureLock s o | EnsureCheck s o | EnsureStore s o _ | EnsureUnlock s o _ | Ensured s o _ => Some (s, o)
    | _ => None
    end.

(** The slot whose mutex the thread has by where it is. *)
Definition owning (c : sync_pc) : option slot :=
    match c with
    | LockSet s _ | UnlockClear s _ | UnlockRelease s _ => Some s
    | _ => match op_of c with Some (s, goo_sync_mutex_unlock) => Some s | _ => None end
    end.

Definition has_lock (t : sync_thread) (s : slot) : Prop := s ∈ held t \/ owning (th_pc t) = Some s.

(** It has been told so, and not yet cleared [locked]. *)
Definition expects_locked (t : sync_thread) (s : slot) : Prop :=
    s ∈ held t \/ op_of (th_pc t) = Some (s, goo_sync_mutex_unlock).

Definition new_object (o : sync_op) : sync_object := if on_mutex o then OMutex goo_mutex_new else OWaitgroup goo_waitgroup_new.

Definition pc_ok (sl : gmap slot address) (ob : gmap address sync_object) (il : option tid) (i : tid) (c : sync_pc) : Prop :=
    match c with
    | EnsureCheck _ _ => il = Some i
    | EnsureStore s o p => il = Some i /\ sl !! s = None /\ ob !! p = Some (new_object o) /\ forall s', sl !! s' <> Some p
    | EnsureUnlock s _ p => il = Some i /\ sl !! s = Some p
    | Ensured s _ p => sl !! s = Some p
    | LockSet s p | UnlockClear s p | UnlockRelease s p => sl !! s = Some p
    | WaitAsleep s p => sl !! s = Some p /\ is_mutex s = false /\
        exists g, ob !! p = Some (OWaitgroup g) /\ (0 < wg_counter g)%Z
    | _ => True
    end.

Definition lock_ok (sl : gmap slot address) (ob : gmap address sync_object) (i : tid) (t : sync_thread) : Prop :=
    forall s, has_lock t s -> exists p m, sl !! s = Some p /\ ob !! p = Some (OMutex m) /\ m_owner m = Some i /\
      (expects_locked t s -> m_locked m = true).

Definition duties (sl : gmap slot address) (ob : gmap address sync_object) (i : tid) (t : sync_thread) : Prop :=
    lock_ok sl ob i t /\
    (forall s, owning (th_pc t) = Some s -> ~ s ∈ held t) /\
    (forall s o, op_of (th_pc t) = Some (s, o) -> on_mutex o = is_mutex s).

Definition thread_ok (sl : gmap slot address) (ob : gmap address sync_object) (il : option tid) (i : tid) (t : sync_thread) : Prop :=
    pc_ok sl ob il i (th_pc t) /\ duties sl ob i t.

(** ** The invariant *)
Definition object_fits (s : slot) (o : sync_object) : Prop :=
    match o with OMutex _ => is_mutex s = true | OWaitgroup _ => is_mutex s = false end.

Definition waitgroup_ok (g : goo_waitgroup) : Prop := (0 <= wg_counter g)%Z /\ wg_counter g = to_int (wg_added g).

Record sync_state_ok (x : sync_sys) : Prop := mkStateOk {
    ok_kind : forall s p, slots x !! s = Some p -> exists o, objects x !! p = Some o /\ object_fits s o;
    ok_inj : forall s s' p, slots x !! s = Some p -> slots x !! s' = Some p -> s = s';
    ok_wg : forall p g, objects x !! p = Some (OWaitgroup g) -> waitgroup_ok g;
    ok_threads : forall i t, sync_threads x !! i = Some t -> thread_ok (slots x) (objects x) (init_lock x) i t
  }.

Definition sync_inv (x : sync_sys) : Prop :=
    match panicked x with None => sync_state_ok x | Some msg => msg = negative_counter end.

(** ** What one thread's step leaves alone *)
Lemma in_section sl ob il i c : pc_ok sl ob il i c -> match c with EnsureCheck _ _ | EnsureStore _ _ _ | EnsureUnlock _ _ _ => True | _ => False end ->
    il = Some i.
Proof. destruct c; cbn; try done; by intros []. Qed.

Lemma thread_ok_lock sl ob il il' i j t : i <> j -> (il = None \/ il = Some i) ->
    thread_ok sl ob il j t -> thread_ok sl ob il' j t.
Proof.
    intros Hne Hil (Hpc&Hl&Hr). split; [|done]. destruct (th_pc t); cbn in *; try done;
      destruct_and?; destruct Hil; congruence.
Qed.

Lemma thread_ok_alloc sl ob il i t p o : ob !! p = None -> thread_ok sl ob il i t -> thread_ok sl (<[p := o]> ob) il i t.
Proof.
    intros Hp (Hpc&Hl&Hr). split; [|split; [|done]].
    - destruct (th_pc t) as [|s o'|s o'|s o'|s o' q|s o' q|s o' q|s q|s q|s q|s q]; cbn in *; try done.
      + destruct Hpc as (?&?&Ho&?). split_and!; try done. rewrite lookup_insert_ne; [done|congruence].
      + destruct Hpc as (?&?&g&Hg&?). split_and!; try done. exists g. rewrite lookup_insert_ne; [done|congruence].
    - intros s Hs. destruct (Hl s Hs) as (q&m&?&Hm&?). exists q, m. rewrite lookup_insert_ne; [done|congruence].
Qed.

Lemma thread_ok_publish sl ob il i j t s p : i <> j -> il = Some i -> sl !! s = None -> thread_ok sl ob il j t ->
    thread_ok (<[s := p]> sl) ob il j t.
Proof.
    intros Hne -> Hs (Hpc&Hl&Hr). split; [|split; [|done]].
    - destruct (th_pc t) as [|s' o'|s' o'|s' o'|s' o' q|s' o' q|s' o' q|s' q|s' q|s' q|s' q]; cbn in *; try done;
        destruct_and?; split_and?; try congruence; rewrite lookup_insert_ne; congruence.
    - intros s' Hs'. destruct (Hl s' Hs') as (q&m&Hq&?). exists q, m. rewrite lookup_insert_ne; [done|congruence].
Qed.

(** A write to a mutex that the other thread does not own. *)
Lemma thread_ok_mutex sl ob il i t p m m' : ob !! p = Some (OMutex m) -> m_owner m <> Some i ->
    (forall s o q, th_pc t = EnsureStore s o q -> q <> p) ->
    thread_ok sl ob il i t -> thread_ok sl (<[p := OMutex m']> ob) il i t.
Proof.
    intros Hp Ho Hst (Hpc&Hl&Hr). split; [|split; [|done]].
    - destruct (th_pc t) as [|s o'|s o'|s o'|s o' q|s o' q|s o' q|s q|s q|s q|s q]; cbn in *; try done.
      + destruct Hpc as (?&?&Hq&?). split_and!; try done. rewrite lookup_insert_ne; [done|]. intros <-. by apply (Hst s o' p).
      + destruct Hpc as (?&?&g&Hg&?). split_and!; try done. exists g. rewrite lookup_insert_ne; [done|congruence].
    - intros s Hs. destruct (Hl s Hs) as (q&m1&?&Hm&Hown&?). exists q, m1. rewrite lookup_insert_ne; [done|]. congruence.
Qed.
Lemma thread_ok_wg sl ob il i t p g g' : ob !! p = Some (OWaitgroup g) ->
    (forall s o q, th_pc t = EnsureStore s o q -> q <> p) ->
    (forall s, th_pc t = WaitAsleep s p -> (0 < wg_counter g')%Z) ->
    thread_ok sl ob il i t -> thread_ok sl (<[p := OWaitgroup g']> ob) il i t.
Proof.
    intros Hp Hst Hw (Hpc&Hl&Hr). split; [|split; [|done]].
    - destruct (th_pc t) as [|s o'|s o'|s o'|s o' q|s o' q|s o' q|s q|s q|s q|s q]; cbn in *; try done.
      + destruct Hpc as (?&?&Hq&?). split_and!; try done. rewrite lookup_insert_ne; [done|]. intros <-. by apply (Hst s o' p).
      + destruct Hpc as (?&?&g1&Hg&?). split_and!; try done. destruct (decide (p = q)) as [<-|Hne].
        * exists g'. rewrite lookup_insert_eq. split; [done|]. by apply (Hw s).
        * exists g1. by rewrite lookup_insert_ne.
    - intros s Hs. destruct (Hl s Hs) as (q&m1&?&Hm&?). exists q, m1. rewrite lookup_insert_ne; [done|]. congruence.
Qed.

(** ** The steps *)
Lemma each_thread (ths : list sync_thread) (i : tid) t' (P : tid -> sync_thread -> Prop) : P i t' ->
    (forall j t, j <> i -> ths !! j = Some t -> P j t) -> forall j t, <[i := t']> ths !! j = Some t -> P j t.
Proof.
    intros Hi Ho j t Hj. destruct (decide (i = j)) as [<-|Hne].
    - destruct (decide (i < length ths)) as [Hlt|Hge].
      + rewrite list_lookup_insert_eq in Hj by done. by injection Hj as <-.
      + rewrite list_insert_ge in Hj by lia. apply lookup_lt_Some in Hj. lia.
    - rewrite list_lookup_insert_ne in Hj by done. by apply Ho.
Qed.

(** A step that changes the thread only. *)
Lemma ok_move x i t t' : sync_state_ok x -> sync_threads x !! i = Some t ->
    thread_ok (slots x) (objects x) (init_lock x) i t' -> sync_state_ok (set_thread x i t').
Proof.
    intros Hx Hi Ht. split; [apply Hx|apply Hx|apply Hx|]. cbn. apply each_thread; [done|].
    intros j t1 _ Hj. by apply (ok_threads x Hx).
Qed.

(** A thread that stops owning nothing new: its obligations with another program counter. *)
Lemma thread_ok_pc sl ob il i c c' h : duties sl ob i (mkThread c h) -> pc_ok sl ob il i c' ->
    owning c' = owning c \/ owning c' = None ->
    (op_of c' = op_of c \/ op_of c' = None) -> thread_ok sl ob il i (mkThread c' h).
Proof.
    intros (Hl&Hn&Ho) Hpc' Hown Hop. cbn in *. unfold thread_ok, duties; split_and!; cbn; [done| | |].
    - intros s Hs. destruct (Hl s) as (p&m&?&?&?&He).
      + destruct Hs as [Hs|Hs]; [by left|right]. cbn in *. destruct Hown as [E|E]; congruence.
      + exists p, m. split_and!; try done. intros He'. apply He. destruct He' as [He'|He']; [by left|right]. cbn in *.
        destruct Hop as [E|E]; congruence.
    - intros s Hs. apply Hn. destruct Hown as [E|E]; congruence.
    - intros s o Hs. apply Ho. destruct Hop as [E|E]; congruence.
Qed.

Lemma ok_call x i t s o : sync_state_ok x -> sync_threads x !! i = Some t -> th_pc t = Idle ->
    on_mutex o = is_mutex s -> (o = goo_sync_mutex_unlock -> s ∈ held t) ->
    sync_state_ok (set_thread x i (mkThread (EnsureLoad s o)
      (match o with goo_sync_mutex_unlock => held t ∖ {[s]} | _ => held t end))).
Proof.
    intros Hx Hi Hpc Ho Hd. apply (ok_move x i t); [done|done|]. destruct (ok_threads x Hx i t Hi) as (_&Hl&_&_).
    unfold thread_ok, duties; split_and!; cbn; [done| | |by intros s' o' [= <- <-]].
    - intros s' Hs'. destruct (Hl s') as (p&m&?&?&?&He).
      + left. destruct Hs' as [Hs'|Hs']; cbn in *; destruct o; try done; [set_solver|]. injection Hs' as <-. by apply Hd.
      + exists p, m. split_and!; try done. intros _. apply He. left.
        destruct Hs' as [Hs'|Hs']; cbn in *; destruct o; try done; [set_solver|]. injection Hs' as <-. by apply Hd.
    - intros s' Hs'. destruct o; try done. injection Hs' as <-. set_solver.
Qed.
Lemma new_object_fits s o : on_mutex o = is_mutex s -> object_fits s (new_object o).
Proof. intros E. unfold new_object. rewrite E. by destruct (is_mutex s) eqn:Em. Qed.

Lemma ok_ensure_lock x i s o h : sync_state_ok x -> sync_threads x !! i = Some (mkThread (EnsureLock s o) h) ->
    init_lock x = None -> sync_state_ok (set_thread (set_init_lock x (Some i)) i (mkThread (EnsureCheck s o) h)).
Proof.
    intros Hx Hi Hil. split; [apply Hx|apply Hx|apply Hx|]. cbn. apply each_thread.
    - apply (thread_ok_pc _ _ _ _ (EnsureLock s o)); [|done|by left|by left]. by destruct (ok_threads x Hx i _ Hi).
    - intros j t Hj Ht. apply (thread_ok_lock _ _ (init_lock x) _ i); [done|by left|]. by apply (ok_threads x Hx).
Qed.

Lemma ok_ensure_unlock x i s o p h : sync_state_ok x -> sync_threads x !! i = Some (mkThread (EnsureUnlock s o p) h) ->
    sync_state_ok (set_thread (set_init_lock x None) i (mkThread (Ensured s o p) h)).
Proof.
    intros Hx Hi. pose proof (ok_threads x Hx i _ Hi) as Ht. destruct (Ht) as ([Hil Hs]&Hr).
    split; [apply Hx|apply Hx|apply Hx|]. cbn. apply each_thread.
    - apply (thread_ok_pc _ _ _ _ (EnsureUnlock s o p)); [done..|by left|by left].
    - intros j t Hj Htj. apply (thread_ok_lock _ _ (init_lock x) _ i); [done|by right|]. by apply (ok_threads x Hx).
Qed.

Lemma ok_ensure_alloc x i s o p h : sync_state_ok x -> sync_threads x !! i = Some (mkThread (EnsureCheck s o) h) ->
    slots x !! s = None -> objects x !! p = None ->
    sync_state_ok (set_thread (set_object x p (new_object o)) i (mkThread (EnsureStore s o p) h)).
Proof.
    intros Hx Hi Hs Hp. pose proof (ok_threads x Hx i _ Hi) as Ht. assert (forall s', slots x !! s' <> Some p) as Hfresh.
    { intros s' E. destruct (ok_kind x Hx s' p E) as (o'&Ho'&_). congruence. }
    split; cbn.
    - intros s' q Hq. destruct (ok_kind x Hx s' q Hq) as (o'&Ho'&Hf). exists o'. split; [|done].
      rewrite lookup_insert_ne; [done|]. intros <-. by apply (Hfresh s').
    - apply Hx.
    - intros q g Hq. destruct (decide (p = q)) as [<-|Hne].
      + rewrite lookup_insert_eq in Hq. unfold new_object in Hq. destruct (on_mutex o); [done|]. by injection Hq as <-.
      + rewrite lookup_insert_ne in Hq by done. by apply (ok_wg x Hx q).
    - apply each_thread.
      + apply (thread_ok_pc _ _ _ _ (EnsureCheck s o)); [by apply (thread_ok_alloc _ _ (init_lock x))| |by left|by left].
        cbn. rewrite lookup_insert_eq. split_and!; try done. by destruct Ht.
      + intros j t Hj Htj. apply thread_ok_alloc; [done|]. by apply (ok_threads x Hx).
Qed.

Lemma ok_ensure_store x i s o p h : sync_state_ok x -> sync_threads x !! i = Some (mkThread (EnsureStore s o p) h) ->
    sync_state_ok (set_thread (set_slot_to x s p) i (mkThread (EnsureUnlock s o p) h)).
Proof.
    intros Hx Hi. pose proof (ok_threads x Hx i _ Hi) as Ht. destruct (Ht) as ((Hil&Hs&Hp&Hfresh)&Hl&Hn&Ho).
    assert (on_mutex o = is_mutex s) as Hty by by apply Ho.
    split; cbn.
    - intros s' q. destruct (decide (s = s')) as [<-|Hne].
      + rewrite lookup_insert_eq. intros [= <-]. exists (new_object o). split; [done|by apply new_object_fits].
      + rewrite lookup_insert_ne by done. apply (ok_kind x Hx).
    - intros s1 s2 q. destruct (decide (s = s1)) as [<-|H1], (decide (s = s2)) as [<-|H2];
        rewrite ?lookup_insert_eq, ?lookup_insert_ne by done; try done.
      + intros [= <-] E. by apply Hfresh in E.
      + intros E [= <-]. by apply Hfresh in E.
      + apply (ok_inj x Hx).
    - apply Hx.
    - apply each_thread.
      + unfold thread_ok, duties; split_and!; cbn; [split; [done|by rewrite lookup_insert_eq]| | |exact Ho].
        * intros s' Hs'. destruct (Hl s') as (q&m&Hq&Hr); [exact Hs'|]. exists q, m.
          rewrite lookup_insert_ne by congruence. split; [done|]. exact Hr.
        * intros s' Hs'. by apply Hn.
      + intros j t Hj Htj. apply (thread_ok_publish _ _ _ i); try done. by apply (ok_threads x Hx).
Qed.
(** *** On a mutex *)
Lemma slot_not_stored x s p j t s' o q : sync_state_ok x -> slots x !! s = Some p -> sync_threads x !! j = Some t ->
    th_pc t = EnsureStore s' o q -> q <> p.
Proof.
    intros Hx Hs Hj Hpc ->. destruct (ok_threads x Hx j t Hj) as [H _]. rewrite Hpc in H. destruct H as (_&_&_&H). by apply (H s).
Qed.

Lemma ok_mutex_write x i t' s p m m' : sync_state_ok x -> slots x !! s = Some p -> objects x !! p = Some (OMutex m) ->
    (m_owner m = None \/ m_owner m = Some i) ->
    thread_ok (slots x) (<[p := OMutex m']> (objects x)) (init_lock x) i t' ->
    sync_state_ok (set_thread (set_object x p (OMutex m')) i t').
Proof.
    intros Hx Hs Hp Ho Ht'. split; cbn.
    - intros s' q Hq. destruct (ok_kind x Hx s' q Hq) as (o'&Ho'&Hf). destruct (decide (p = q)) as [<-|Hne].
      + exists (OMutex m'). rewrite lookup_insert_eq. split; [done|]. rewrite Hp in Ho'. by injection Ho' as <-.
      + exists o'. by rewrite lookup_insert_ne.
    - apply Hx.
    - intros q g Hq. destruct (decide (p = q)) as [<-|Hne]; [by rewrite lookup_insert_eq in Hq|].
      rewrite lookup_insert_ne in Hq by done. by apply (ok_wg x Hx q).
    - apply each_thread; [done|]. intros j t Hj Htj. apply (thread_ok_mutex _ _ _ _ _ _ m); [done| | |by apply (ok_threads x Hx)].
      + destruct Ho as [->| ->]; congruence.
      + intros s1 o1 q Hpc. by apply (slot_not_stored x s p j t s1 o1).
Qed.

(** The thread's other locks, and the one it writes to. *)
Lemma lock_ok_write x i c h s p m' : sync_state_ok x -> slots x !! s = Some p ->
    lock_ok (slots x) (objects x) i (mkThread c h) -> forall c' h',
    (forall s', s' <> s -> has_lock (mkThread c' h') s' -> has_lock (mkThread c h) s') ->
    (forall s', s' <> s -> expects_locked (mkThread c' h') s' -> expects_locked (mkThread c h) s') ->
    (has_lock (mkThread c' h') s -> m_owner m' = Some i /\ (expects_locked (mkThread c' h') s -> m_locked m' = true)) ->
    lock_ok (slots x) (<[p := OMutex m']> (objects x)) i (mkThread c' h').
Proof.
    intros Hx Hs Hl c' h' Hother Hexp Hself s' Hs'. destruct (decide (s' = s)) as [->|Hne].
    - exists p, m'. rewrite lookup_insert_eq. destruct (Hself Hs') as [? ?]. by split_and!.
    - destruct (Hl s' (Hother s' Hne Hs')) as (q&m&Hq&Hm&Hown&He). exists q, m. rewrite lookup_insert_ne; [by eauto 8|].
      intros <-. apply Hne. by apply (ok_inj x Hx s' s p).
Qed.

Lemma slot_mutex x s p : sync_state_ok x -> slots x !! s = Some p -> is_mutex s = true ->
    exists m, objects x !! p = Some (OMutex m).
Proof. intros Hx Hs Hm. destruct (ok_kind x Hx s p Hs) as ([m|g]&Ho&Hf); [by exists m|]. cbn in Hf. congruence. Qed.

Lemma slot_waitgroup x s p : sync_state_ok x -> slots x !! s = Some p -> is_mutex s = false ->
    exists g, objects x !! p = Some (OWaitgroup g).
Proof. intros Hx Hs Hm. destruct (ok_kind x Hx s p Hs) as ([m|g]&Ho&Hf); [|by exists g]. cbn in Hf. congruence. Qed.

Definition keeps (r : res sync_sys) : Prop := match r with Next x => sync_inv x | Disabled => True | Fault _ => False end.

Lemma keeps_ok x : sync_state_ok x -> panicked x = None -> sync_inv x.
Proof. intros H E. unfold sync_inv. by rewrite E. Qed.

Lemma operate_lock x i s p h : sync_state_ok x -> panicked x = None ->
    sync_threads x !! i = Some (mkThread (Ensured s goo_sync_mutex_lock p) h) ->
    keeps (operate x i (mkThread (Ensured s goo_sync_mutex_lock p) h) s goo_sync_mutex_lock p).
Proof.
    intros Hx Hp Hi. destruct (ok_threads x Hx i _ Hi) as (Hs&Hl&Hn&Ho). cbn in Hs.
    assert (is_mutex s = true) as Hm by (symmetry; by apply (Ho s goo_sync_mutex_lock)).
    destruct (slot_mutex x s p Hx Hs Hm) as [m Em]. unfold operate, mutex_at. rewrite Em. cbn [rbind]. unfold pthread_mutex_lock.
    destruct (m_owner m) as [|] eqn:Eo; [done|]. cbn. apply keeps_ok; [|done].
    assert (s ∉ h) as Hh.
    { intros Hin. destruct (Hl s) as (q&m1&Hq&Hm1&Hown&_); [by left|]. congruence. }
    apply (ok_mutex_write x i _ s p m); try done; [by left|]. split; [done|]. split; [|split].
    - apply (lock_ok_write x i _ _ s p _ Hx Hs Hl).
      + intros s' Hne [H|H]; [by left|]. cbn in H. congruence.
      + intros s' Hne [H|H]; [by left|done].
      + intros _. split; [done|]. by intros [H|H].
    - intros s' [= <-]. done.
    - done.
Qed.

Lemma operate_unlock x i s p h : sync_state_ok x -> panicked x = None ->
    sync_threads x !! i = Some (mkThread (Ensured s goo_sync_mutex_unlock p) h) ->
    keeps (operate x i (mkThread (Ensured s goo_sync_mutex_unlock p) h) s goo_sync_mutex_unlock p).
Proof.
    intros Hx Hp Hi. destruct (ok_threads x Hx i _ Hi) as (Hs&Hl&Hn&Ho). cbn in Hs.
    destruct (Hl s) as (q&m&Hq&Em&Eo&He); [by right|]. assert (q = p) as -> by congruence.
    unfold operate, mutex_at. rewrite Em. cbn [rbind]. rewrite He by (by right). cbn. apply keeps_ok; [|done].
    apply (ok_move x i (mkThread (Ensured s goo_sync_mutex_unlock p) h)); [done|done|].
    apply (thread_ok_pc _ _ _ _ (Ensured s goo_sync_mutex_unlock p)); [done|done|by left|by right].
Qed.
Lemma has_lock_other s s' c c' h : s' <> s -> owning c' = Some s \/ owning c' = None ->
    has_lock (mkThread c' h) s' -> has_lock (mkThread c h) s'.
Proof. intros Hne Ho [H|H]; [by left|]. cbn in H. destruct Ho; congruence. Qed.

Lemma step_lock_set x i s p h addr : sync_state_ok x -> panicked x = None ->
    sync_threads x !! i = Some (mkThread (LockSet s p) h) -> keeps (thread_step x i (mkThread (LockSet s p) h) addr).
Proof.
    intros Hx Hp Hi. destruct (ok_threads x Hx i _ Hi) as (Hs&Hl&Hn&_). cbn in Hs.
    destruct (Hl s) as (q&m&Hq&Em&Eo&_); [by right|]. assert (q = p) as -> by congruence.
    unfold thread_step, mutex_at. cbn [th_pc held]. rewrite Em. cbn [rbind keeps]. apply keeps_ok; [|done].
    apply (ok_mutex_write x i _ s p m); try done; [by right|]. split; [done|]. split; [|done].
    apply (lock_ok_write x i _ _ s p _ Hx Hs Hl).
    - intros s' Hne [H|H]; [left; cbn in *; set_solver|done].
    - intros s' Hne [H|H]; [left; cbn in *; set_solver|done].
    - done.
Qed.

Lemma step_unlock_clear x i s p h addr : sync_state_ok x -> panicked x = None ->
    sync_threads x !! i = Some (mkThread (UnlockClear s p) h) -> keeps (thread_step x i (mkThread (UnlockClear s p) h) addr).
Proof.
    intros Hx Hp Hi. destruct (ok_threads x Hx i _ Hi) as (Hs&Hl&Hn&_). cbn in Hs.
    destruct (Hl s) as (q&m&Hq&Em&Eo&_); [by right|]. assert (q = p) as -> by congruence.
    unfold thread_step, mutex_at. cbn [th_pc held]. rewrite Em. cbn [rbind keeps]. apply keeps_ok; [|done].
    apply (ok_mutex_write x i _ s p m); try done; [by right|]. split; [done|]. split; [|split; [|done]].
    - apply (lock_ok_write x i _ _ s p _ Hx Hs Hl).
      + intros s' Hne. apply (has_lock_other s); [done|by left].
      + intros s' Hne [H|H]; [by left|done].
      + intros _. split; [done|]. intros [H|H]; [|done]. by apply (Hn s) in H.
    - intros s' Hs'. by apply Hn.
Qed.

Lemma step_unlock_release x i s p h addr : sync_state_ok x -> panicked x = None ->
    sync_threads x !! i = Some (mkThread (UnlockRelease s p) h) -> keeps (thread_step x i (mkThread (UnlockRelease s p) h) addr).
Proof.
    intros Hx Hp Hi. destruct (ok_threads x Hx i _ Hi) as (Hs&Hl&Hn&_). cbn in Hs.
    destruct (Hl s) as (q&m&Hq&Em&Eo&_); [by right|]. assert (q = p) as -> by congruence.
    unfold thread_step, mutex_at. cbn [th_pc held]. rewrite Em. cbn [rbind]. unfold pthread_mutex_unlock.
    rewrite bool_decide_eq_true_2 by done. cbn [rbind keeps]. apply keeps_ok; [|done].
    apply (ok_mutex_write x i _ s p m); try done; [by right|]. split; [done|]. split; [|done].
    apply (lock_ok_write x i _ _ s p _ Hx Hs Hl).
    - intros s' Hne. apply (has_lock_other s); [done|by right].
    - intros s' Hne [H|H]; [by left|done].
    - intros [H|H]; [|done]. exfalso. by apply (Hn s).
Qed.

(** *** On a wait group *)
Lemma to_int_range z : (- 2 ^ 31 <= to_int z < 2 ^ 31)%Z.
Proof. unfold to_int. pose proof (Z.mod_pos_bound (z + 2 ^ 31) (2 ^ 32)). lia. Qed.

Lemma to_int_add a b : to_int (to_int a + to_int b) = to_int (a + b).
Proof.
    unfold to_int. f_equal. rewrite <- (Zplus_mod_idemp_l (a + b)).
    set (u := (a + 2 ^ 31)%Z). set (v := (b + 2 ^ 31)%Z).
    replace (u mod 2 ^ 32 - 2 ^ 31 + (v mod 2 ^ 32 - 2 ^ 31) + 2 ^ 31)%Z with ((u mod 2 ^ 32 + v mod 2 ^ 32) - 2 ^ 31)%Z by lia.
    replace (a + b)%Z with (u + v - 2 ^ 31 - 2 ^ 31)%Z by lia.
    rewrite Zminus_mod, <- Zplus_mod, <- Zminus_mod, Zplus_mod_idemp_l. f_equal. lia.
Qed.

Lemma thread_ok_wake sl ob il i t p : thread_ok sl ob il i t -> thread_ok sl ob il i (wake_waiter p t).
Proof.
    intros Ht. unfold wake_waiter. destruct (th_pc t) as [| | | | | | | | | |s q] eqn:Epc; try done. case_bool_decide as Hq; [|done].
    subst q. destruct Ht as (Hpc&Hl&Hn&Ho). rewrite Epc in Hpc. destruct Hpc as (Hs&Hm&_). split; [done|]. split; [|split].
    - intros s' [H|H]; [|done]. destruct (Hl s') as (q&m&?&?&?&He); [by left|]. exists q, m. split_and!; try done.
      intros [H'|H']; [|done]. apply He. by left.
    - done.
    - intros s' o [= <- <-]. done.
Qed.

Lemma ok_waitgroup_write x s p g g' ths : sync_state_ok x -> slots x !! s = Some p -> objects x !! p = Some (OWaitgroup g) ->
    waitgroup_ok g' -> (forall j t, ths !! j = Some t -> thread_ok (slots x) (<[p := OWaitgroup g']> (objects x)) (init_lock x) j t) ->
    sync_state_ok (mkSync (slots x) (<[p := OWaitgroup g']> (objects x)) (init_lock x) ths (panicked x)).
Proof.
    intros Hx Hs Hg Hok Ht. split; cbn.
    - intros s' q Hq. destruct (ok_kind x Hx s' q Hq) as (o'&Ho'&Hf). destruct (decide (p = q)) as [<-|Hne].
      + exists (OWaitgroup g'). rewrite lookup_insert_eq. split; [done|]. rewrite Hg in Ho'. by injection Ho' as <-.
      + exists o'. by rewrite lookup_insert_ne.
    - apply Hx.
    - intros q g1 Hq. destruct (decide (p = q)) as [<-|Hne].
      + rewrite lookup_insert_eq in Hq. by injection Hq as <-.
      + rewrite lookup_insert_ne in Hq by done. by apply (ok_wg x Hx q).
    - exact Ht.
Qed.

Lemma keeps_add x i t s p delta : sync_state_ok x -> panicked x = None -> sync_threads x !! i = Some t ->
    slots x !! s = Some p -> is_mutex s = false ->
    thread_ok (slots x) (objects x) (init_lock x) i (mkThread Idle (held t)) ->
    keeps (goo_waitgroup_add (set_thread x i (mkThread Idle (held t))) p delta).
Proof.
    intros Hx Hp Hi Hs Hm Ht. destruct (slot_waitgroup x s p Hx Hs Hm) as [g Eg].
    unfold goo_waitgroup_add, waitgroup_at. cbn [objects set_thread]. rewrite Eg. cbn [rbind].
    set (c := to_int _). destruct (Z.ltb_spec c 0) as [|Hc]; [done|].
    assert (waitgroup_ok (mkWaitgroup c (wg_added g + delta))) as Hok.
    { split; [done|]. cbn. subst c. destruct (ok_wg x Hx p g Eg) as [_ ->]. apply to_int_add. }
    set (ob := <[p := OWaitgroup (mkWaitgroup c (wg_added g + delta))]> (objects x)).
    assert ((0 < c)%Z \/ c = 0%Z) as Hcc by lia.
    assert (forall j t1, <[i := mkThread Idle (held t)]> (sync_threads x) !! j = Some t1 ->
      thread_ok (slots x) ob (init_lock x) j (if (c =? 0)%Z then wake_waiter p t1 else t1)) as Hths.
    { apply (each_thread (sync_threads x) i _ (fun j t1 => thread_ok (slots x) ob (init_lock x) j (if (c =? 0)%Z then wake_waiter p t1 else t1))).
      - assert (thread_ok (slots x) ob (init_lock x) i (mkThread Idle (held t))) as H by by apply (thread_ok_wg _ _ _ _ _ _ g).
        by destruct (c =? 0)%Z.
      - intros j t1 Hj Htj. pose proof (ok_threads x Hx j t1 Htj) as Ht1. destruct (Z.eqb_spec c 0) as [Ez|Ez].
        + assert (thread_ok (slots x) (objects x) (init_lock x) j (wake_waiter p t1)) as Hw by by apply thread_ok_wake.
          apply (thread_ok_wg _ _ _ _ _ _ g); [done| | |done].
          * intros s1 o q Hpc. apply (slot_not_stored x s p j t1 s1 o); [done..|]. unfold wake_waiter in Hpc.
            destruct (th_pc t1) eqn:E1; try (by rewrite E1 in Hpc). case_bool_decide; [done|]. by rewrite E1 in Hpc.
          * intros s1 Hpc. exfalso. unfold wake_waiter in Hpc. destruct (th_pc t1) eqn:E1; try (by rewrite E1 in Hpc).
            case_bool_decide as Hq; [done|]. rewrite E1 in Hpc. injection Hpc as <- <-. done.
        + apply (thread_ok_wg _ _ _ _ _ _ g); [done| | |done].
          * intros s1 o q Hpc. by apply (slot_not_stored x s p j t1 s1 o).
          * intros s1 Hpc. cbn. lia. }
    cbn [keeps]. apply keeps_ok; [|by destruct (c =? 0)%Z].
    destruct (c =? 0)%Z eqn:Ec.
    - unfold pthread_cond_broadcast. cbn. apply (ok_waitgroup_write x s p g); try done.
      intros j t1. rewrite list_lookup_fmap. intros (t2&Ht2&->)%fmap_Some. by apply Hths.
    - apply (ok_waitgroup_write x s p g); try done.
Qed.
Lemma keeps_wait x i s p h : sync_state_ok x -> panicked x = None ->
    sync_threads x !! i = Some (mkThread (Ensured s goo_sync_wg_wait p) h) ->
    keeps (operate x i (mkThread (Ensured s goo_sync_wg_wait p) h) s goo_sync_wg_wait p).
Proof.
    intros Hx Hp Hi. destruct (ok_threads x Hx i _ Hi) as (Hs&Hd). cbn in Hs.
    assert (is_mutex s = false) as Hm by (symmetry; by apply (proj2 (proj2 Hd) s goo_sync_wg_wait)).
    destruct (slot_waitgroup x s p Hx Hs Hm) as [g Eg]. unfold operate, waitgroup_at. rewrite Eg. cbn [rbind keeps held].
    apply keeps_ok; [|done]. apply (ok_move x i (mkThread (Ensured s goo_sync_wg_wait p) h)); [done|done|].
    destruct (Z.ltb_spec 0 (wg_counter g)).
    - apply (thread_ok_pc _ _ _ _ (Ensured s goo_sync_wg_wait p)); [done| |by left|by right].
      split_and!; try done. by exists g.
    - apply (thread_ok_pc _ _ _ _ (Ensured s goo_sync_wg_wait p)); [done..|by left|by right].
Qed.

Lemma keeps_ensured x i s o p h : sync_state_ok x -> panicked x = None ->
    sync_threads x !! i = Some (mkThread (Ensured s o p) h) -> keeps (operate x i (mkThread (Ensured s o p) h) s o p).
Proof.
    intros Hx Hp Hi. destruct (ok_threads x Hx i _ Hi) as (Hs&Hd). cbn in Hs.
    pose proof (proj2 (proj2 Hd) s o eq_refl) as Hm.
    destruct o as [| |delta| |]; [by apply operate_lock|by apply operate_unlock| | |by apply keeps_wait];
      apply (keeps_add x i (mkThread _ h) s); try done;
      (eapply thread_ok_pc; [exact Hd|done|by left|by right]).
Qed.

Lemma keeps_thread x i t addr : sync_state_ok x -> panicked x = None -> sync_threads x !! i = Some t ->
    keeps (thread_step x i t addr).
Proof.
    intros Hx Hp Hi. destruct t as [c h]. pose proof (ok_threads x Hx i _ Hi) as Ht.
    destruct c as [|s o|s o|s o|s o p|s o p|s o p|s p|s p|s p|s p]; try done.
    - cbn. apply keeps_ok; [|done]. apply (ok_move x i (mkThread (EnsureLoad s o) h)); [done|done|].
      destruct (slots x !! s) eqn:Es; (apply (thread_ok_pc _ _ _ _ (EnsureLoad s o)); [apply Ht|done|by left|by left]).
    - cbn. destruct (init_lock x) eqn:El; [done|]. apply keeps_ok; [|done]. by apply ok_ensure_lock.
    - cbn. destruct (slots x !! s) as [p|] eqn:Es.
      + apply keeps_ok; [|done]. apply (ok_move x i (mkThread (EnsureCheck s o) h)); [done|done|].
        apply (thread_ok_pc _ _ _ _ (EnsureCheck s o)); [apply Ht| |by left|by left]. by split; [apply Ht|].
      + destruct (objects x !! addr) eqn:Eo; [done|]. apply keeps_ok; [|done]. by apply ok_ensure_alloc.
    - cbn. apply keeps_ok; [|done]. by apply ok_ensure_store.
    - cbn. destruct Ht as [[Hil _] _]. rewrite bool_decide_eq_true_2 by done. apply keeps_ok; [|done]. by apply ok_ensure_unlock.
    - by apply keeps_ensured.
    - by apply step_lock_set.
    - by apply step_unlock_clear.
    - by apply step_unlock_release.
Qed.

Lemma keeps_step x a : sync_inv x -> well_typed is_mutex a = true -> disciplined x a = true -> keeps (sync_step x a).
Proof.
    intros Hinv Hty Hdis. unfold sync_step. unfold sync_inv in Hinv. destruct (panicked x) as [|] eqn:Hp; [done|].
    destruct a as [i s o|i addr|i]; destruct (sync_threads x !! i) as [t|] eqn:Hi; try done.
    - destruct (th_pc t) eqn:Epc; try done. apply keeps_ok; [|done]. cbn in Hty. apply eqb_prop in Hty.
      apply ok_call; try done. intros ->. cbn in Hdis. rewrite Hi in Hdis. by apply bool_decide_eq_true in Hdis.
    - by apply keeps_thread.
    - destruct t as [c h]. cbn. destruct c as [| | | | | | | | | |s p]; try done. apply keeps_ok; [|done].
      pose proof (thread_ok_wake _ _ _ i _ p (ok_threads x Hinv i _ Hi)) as Hw. unfold wake_waiter in Hw. cbn in Hw.
      rewrite bool_decide_eq_true_2 in Hw by done. by apply (ok_move x i (mkThread (WaitAsleep s p) h)).
Qed.

Lemma start_ok n : sync_inv (sync_start n).
Proof.
    split; cbn.
    - by intros s p; rewrite lookup_empty.
    - by intros s s' p; rewrite lookup_empty.
    - by intros p g; rewrite lookup_empty.
    - intros i t Hi. apply lookup_replicate in Hi as [-> _]. split; [done|]. split; [|done].
      intros s [H|H]; [set_solver|done].
Qed.

Lemma sync_reachable_inv n x : sync_reachable is_mutex n x -> sync_inv x.
Proof.
    induction 1 as [|x a x' _ IH Hty Hdis E]; [apply start_ok|]. pose proof (keeps_step x a IH Hty Hdis) as H. by rewrite E in H.
Qed.
End inv.

(** ** Results *)
(** C11: The shim keeps Go's promises to any number of threads, for programs in which a lock is
    released by the thread that took it: nothing undefined is done to a mutex, and no unlock
    panics.  A lock is held by one thread at most, also while several threads race for the
    first use of the variable.  No thread sleeps in [Wait] on a counter that is zero, and no
    [Wait] returns before it is. *)
Theorem sync_safe is_mutex n x : sync_reachable is_mutex n x ->
  panicked x <> Some unlock_unlocked /\
  (forall a why, well_typed is_mutex a = true -> disciplined x a = true -> sync_step x a <> Fault why) /\
  (panicked x = None ->
    (forall i j t t' s, sync_threads x !! i = Some t -> sync_threads x !! j = Some t' -> s ∈ held t -> s ∈ held t' -> i = j) /\
    (forall i t s p, sync_threads x !! i = Some t -> th_pc t = WaitAsleep s p ->
       exists g, objects x !! p = Some (OWaitgroup g) /\ (0 < wg_counter g)%Z) /\
    (forall i t s p x', sync_threads x !! i = Some t -> th_pc t = Ensured s goo_sync_wg_wait p ->
       sync_step x (Continue i p) = Next x' -> sync_threads x' !! i = Some (mkThread Idle (held t)) ->
       exists g, objects x !! p = Some (OWaitgroup g) /\ wg_counter g = 0%Z /\ to_int (wg_added g) = 0%Z)).
Proof.
  intros Hr. pose proof (sync_reachable_inv is_mutex n x Hr) as Hinv. split_and!.
  - unfold sync_inv in Hinv. destruct (panicked x) as [m|]; [|done]. by subst m.
  - intros a why Hty Hdis E. pose proof (keeps_step is_mutex x a Hinv Hty Hdis) as H. by rewrite E in H.
  - intros Hp. unfold sync_inv in Hinv. rewrite Hp in Hinv. split_and!.
    + intros i j t t' s Hi Hj Hs Hs'.
      destruct (ok_threads _ x Hinv i t Hi) as (_&Hl&_), (ok_threads _ x Hinv j t' Hj) as (_&Hl'&_).
      destruct (Hl s) as (p&m&?&?&?&_); [by left|]. destruct (Hl' s) as (p'&m'&?&?&?&_); [by left|]. congruence.
    + intros i t s p Hi Hpc. destruct (ok_threads _ x Hinv i t Hi) as (Hok&_). rewrite Hpc in Hok. by destruct Hok as (_&_&?).
    + intros i t s p x' Hi Hpc E Hidle. destruct (ok_threads _ x Hinv i t Hi) as (Hok&Hd). rewrite Hpc in Hok. cbn in Hok.
      assert (is_mutex s = false) as Hm by (symmetry; apply (proj2 (proj2 Hd) s goo_sync_wg_wait); by rewrite Hpc).
      destruct (slot_waitgroup is_mutex x s p Hinv Hok Hm) as [g Eg]. exists g. split; [done|].
      destruct (ok_wg _ x Hinv p g Eg) as [Hg0 Hg]. unfold sync_step in E. rewrite Hp, Hi in E.
      unfold thread_step in E. rewrite Hpc in E. unfold operate, waitgroup_at in E. rewrite Eg in E. cbn in E.
      injection E as <-. cbn in Hidle. rewrite list_lookup_insert_eq in Hidle by (by apply lookup_lt_Some in Hi).
      injection Hidle as Hidle. destruct (Z.ltb_spec 0 (wg_counter g)); [done|]. lia.
Qed.

(** The slot a thread works on, once it has the object. *)
Definition works_on (c : sync_pc) : option (slot * address) :=
  match c with
  | Ensured s _ p | EnsureUnlock s _ p | LockSet s p | UnlockClear s p | UnlockRelease s p | WaitAsleep s p => Some (s, p)
  | _ => None
  end.

(** The first use of a variable is a race that one thread wins: every thread works on the
    object that is published in the slot, different variables have different objects, and what
    is published is never replaced. *)
Theorem lazy_init_once is_mutex n x : sync_reachable is_mutex n x -> panicked x = None ->
  (forall i t s p, sync_threads x !! i = Some t -> works_on (th_pc t) = Some (s, p) -> slots x !! s = Some p) /\
  (forall s s' p, slots x !! s = Some p -> slots x !! s' = Some p -> s = s') /\
  (forall a x' s p, sync_step x a = Next x' -> slots x !! s = Some p -> slots x' !! s = Some p).
Proof.
  intros Hr Hp. pose proof (sync_reachable_inv is_mutex n x Hr) as Hinv. unfold sync_inv in Hinv. rewrite Hp in Hinv. split_and!.
  - intros i t s p Hi Hu. destruct (ok_threads _ x Hinv i t Hi) as (Hok&_).
    destruct (th_pc t); cbn in *; try done; injection Hu as <- <-; destruct_and?; done.
  - apply (ok_inj _ x Hinv).
  - intros a x' s p E Hs. unfold sync_step in E. rewrite Hp in E.
    destruct a as [i s1 o|i addr|i]; destruct (sync_threads x !! i) as [t|] eqn:Hi; try done.
    + destruct (th_pc t); try done. by injection E as <-.
    + destruct (ok_threads _ x Hinv i t Hi) as (Hok&_). unfold thread_step in E.
      destruct (th_pc t) as [|s1 o|s1 o|s1 o|s1 o p1|s1 o p1|s1 o p1|s1 p1|s1 p1|s1 p1|s1 p1]; try done;
        try (cbn in Hok; destruct Hok as (_&Hn&_); injection E as <-; cbn; by rewrite lookup_insert_ne by congruence);
        unfold operate, goo_waitgroup_add, mutex_at, waitgroup_at, pthread_mutex_lock, pthread_mutex_unlock, rbind in E;
        repeat case_match; simplify_eq/=; try done.
    + destruct (th_pc t); try done. by injection E as <-.
Qed.

(** ** Programs *)
(** Two threads race for the first [Lock] of one variable; the first publishes and gets it. *)
Definition first_use : list sync_action :=
  [Call 0 1 goo_sync_mutex_lock; Call 1 1 goo_sync_mutex_lock; Continue 0 1; Continue 1 1; Continue 0 1;
   Continue 1 1; Continue 0 7; Continue 0 1; Continue 0 1; Continue 0 1; Continue 0 1; Continue 1 1; Continue 1 1;
   Continue 1 1; Continue 1 1].

Lemma exec_reachable is_mutex n x acts x' : sync_reachable is_mutex n x ->
  forallb (well_typed is_mutex) acts = true ->
  (fix all (x : sync_sys) (acts : list sync_action) : bool :=
     match acts with
     | [] => true
     | a :: acts => disciplined x a && match sync_step x a with Next x => all x acts | _ => all x acts end
     end) x acts = true ->
  sync_exec x acts = Next x' -> sync_reachable is_mutex n x'.
Proof.
  revert x. induction acts as [|a acts IH]; intros x Hr Hty Hd E; cbn in *; [by injection E as <-|].
  apply andb_true_iff in Hty as [Ha Hty], Hd as [Hda Hd]. destruct (sync_step x a) as [x1| |] eqn:Es; [|by apply (IH x)|done].
  apply (IH x1); try done. by apply (sync_reach_step is_mutex n x a).
Qed.

(** After the race one object is published and the first thread has the lock, so the second
    cannot have it. *)
Lemma sync_safe_witness :
  exists x, sync_reachable (fun _ => true) 2 x /\ slots x !! 1%positive = Some 7%positive /\
    panicked x <> Some unlock_unlocked /\
    forall t, sync_threads x !! 1 = Some t -> ~ 1%positive ∈ held t.
Proof.
  assert (exists x, sync_exec (sync_start 2) first_use = Next x /\ slots x !! 1%positive = Some 7%positive /\ panicked x = None /\
    exists t0, sync_threads x !! 0 = Some t0 /\ bool_decide (1%positive ∈ held t0) = true) as (x&E&Hs&Hp&t0&H0&Hh)
    by (eexists; split; [vm_compute; reflexivity|split; [reflexivity|split; [reflexivity|eexists; split; reflexivity]]]).
  assert (sync_reachable (fun _ => true) 2 x) as Hr
    by (apply (exec_reachable _ 2 (sync_start 2) first_use); [constructor|vm_compute; reflexivity|vm_compute; reflexivity|exact E]).
  destruct (sync_safe (fun _ => true) 2 x Hr) as (Hu&_&Hrest). destruct (Hrest Hp) as (Hex&_).
  exists x. split; [exact Hr|]. split; [exact Hs|]. split; [exact Hu|].
  intros t Ht Hin. apply bool_decide_eq_true in Hh. specialize (Hex 0 1 t0 t 1%positive H0 Ht Hh Hin). discriminate.
Defined.

(** What the shim does with programs outside that discipline, and with large deltas.  A
    mutex locked by one thread and unlocked by another, as Go allows, is unlocked through a
    [pthread_mutex_unlock] by a thread that does not own it.  [Unlock] of a mutex that is not
    locked panics with Go's message.  [Add] of 2^32 adds nothing, so that [Wait] returns, and
    [Add] of 2^31 panics as a negative counter. *)
Theorem sync_misuse :
  (sync_exec (sync_start 2)
     ([Call 0 1 goo_sync_mutex_lock] ++ repeat (Continue 0 7) 7 ++ [Call 1 1 goo_sync_mutex_unlock] ++ repeat (Continue 1 7) 4)
     = Fault "a thread unlocks a mutex it does not own") /\
  (exists x, sync_exec (sync_start 1) ([Call 0 1 goo_sync_mutex_unlock] ++ repeat (Continue 0 7) 6) = Next x /\
     panicked x = Some unlock_unlocked) /\
  (exists x, sync_exec (sync_start 1)
       ([Call 0 1 (goo_sync_wg_add (2 ^ 32))] ++ repeat (Continue 0 7) 6 ++ [Call 0 1 goo_sync_wg_wait] ++ repeat (Continue 0 7) 2)
       = Next x /\ sync_threads x = [mkThread Idle ∅] /\ objects x !! 7%positive = Some (OWaitgroup (mkWaitgroup 0 (2 ^ 32)))) /\
  (exists x, sync_exec (sync_start 1) ([Call 0 1 (goo_sync_wg_add (2 ^ 31))] ++ repeat (Continue 0 7) 6) = Next x /\
     panicked x = Some negative_counter).
Proof.
  split_and!.
  - vm_compute. reflexivity.
  - eexists. split; [vm_compute; reflexivity|reflexivity].
  - eexists. split; [vm_compute; reflexivity|split; reflexivity].
  - eexists. split; [vm_compute; reflexivity|reflexivity].
Qed.
