(* ===== verification/Defer.v ===== *)
(** * Defer: the runtime defer stack (src/runtime/defer.c).

    A function's frame is a growable array of entries; [goo_defer_push] appends one for each
    [defer] that is executed, and [goo_defer_run] calls them at the exit, the last one first.
    What happens is a list of events: the call of an entry's function and the release of its
    environment.  Code and environments are addresses, 0 being NULL; [goo_realloc] ends the
    process rather than fail. *)
From Stdlib Require Import ZArith Lia Bool.
From stdpp Require Import base list numbers.
From S2P Require Import Prelude.

#[local] Open Scope list_scope.
#[local] Open Scope Z_scope.

Record goo_defer_entry : Set := mkDefer { fn : Z; env : Z }.

(** [entries] with what was last stored in each place; [None] is memory never written. *)
Record goo_defer_frame : Set := mkFrame { entries : list (option goo_defer_entry); len : Z; cap : Z }.

Definition empty_frame : goo_defer_frame := mkFrame [] 0 0.
Definition ENTRY_SIZE : Z := 16.

(** [goo_realloc(f->entries, newcap * sizeof(goo_defer_entry_t))] as an array of entries. *)
Definition realloc_entries (es : list (option goo_defer_entry)) (newcap : Z) : list (option goo_defer_entry) :=
  let n := Z.to_nat (u64 (newcap * ENTRY_SIZE) / ENTRY_SIZE) in
  take n es ++ replicate (n - length es) None.

(** [None] is a store past the end of the array. *)
Definition goo_defer_push (f : goo_defer_frame) (e : goo_defer_entry) : option goo_defer_frame :=
  let f := if cap f <=? len f then
             let newcap := if cap f =? 0 then 4 else u64 (cap f * 2) in
             mkFrame (realloc_entries (entries f) newcap) (len f) newcap
           else f in
  if (Z.to_nat (len f) <? length (entries f))%nat
  then Some (mkFrame (<[Z.to_nat (len f) := Some e]> (entries f)) (u64 (len f + 1)) (cap f))
  else None.

Inductive defer_event : Set := Call (fn env : Z) | FreeEnv (env : Z) | FreeEntries.

(** The loop from [i] down; [None] is a read of memory never written. *)
Fixpoint run_entries (es : list (option goo_defer_entry)) (i : nat) : option (list defer_event) :=
  match i with
  | O => Some []
  | S i =>
      match es !! i with
      | Some (Some e) =>
          match run_entries es i with
          | Some evs => Some ((if fn e =? 0 then [] else [Call (fn e) (env e)]) ++ FreeEnv (env e) :: evs)
          | None => None
          end
      | _ => None
      end
  end.

Definition goo_defer_run (f : goo_defer_frame) : option (list defer_event * goo_defer_frame) :=
  match run_entries (entries f) (Z.to_nat (len f)) with
  | Some evs => Some (evs ++ [FreeEntries], empty_frame)
  | None => None
  end.

(** ** The frame holds what was pushed *)
Fixpoint push_all (f : goo_defer_frame) (es : list goo_defer_entry) : option goo_defer_frame :=
  match es with
  | [] => Some f
  | e :: es => match goo_defer_push f e with Some f => push_all f es | None => None end
  end.

Definition events_of (e : goo_defer_entry) : list defer_event :=
  (if fn e =? 0 then [] else [Call (fn e) (env e)]) ++ [FreeEnv (env e)].

(** The first [len] places hold the pushed entries, and [cap] is the array's length. *)
Definition frame_holds (f : goo_defer_frame) (es : list goo_defer_entry) : Prop :=
  len f = Z.of_nat (length es) /\ cap f = Z.of_nat (length (entries f)) /\ len f <= cap f /\ cap f < Z.max 5 (2 * len f + 1) /\
  take (length es) (entries f) = map Some es.

Lemma realloc_length es n : Z.of_nat (length es) <= n -> n < 2 ^ 60 ->
  length (realloc_entries es n) = Z.to_nat n /\ take (length es) (realloc_entries es n) = es.
Proof.
  intros Hl Hn. unfold realloc_entries, ENTRY_SIZE. rewrite wrap_small by lia. rewrite Z.div_mul by lia.
  rewrite length_app, length_take, length_replicate. split; [lia|]. rewrite (take_ge es) by lia. apply take_app_length.
Qed.

Lemma push_holds f es e : frame_holds f es -> Z.of_nat (length es) < 2 ^ 58 ->
  exists f', goo_defer_push f e = Some f' /\ frame_holds f' (es ++ [e]).
Proof.
  intros (Hlen&Hcap&Hle&Hmax&Hes) Hb. unfold goo_defer_push.
  set (f1 := if cap f <=? len f then _ else f).
  assert (len f1 = len f /\ cap f1 = Z.of_nat (length (entries f1)) /\ len f1 < cap f1 /\ cap f1 < Z.max 5 (2 * (len f + 1) + 1) /\
          take (length es) (entries f1) = map Some es) as (H1&H2&H3&H4&H5).
  { subst f1. destruct (Z.leb_spec (cap f) (len f)); [|split_and!; try done; lia]. cbn.
    assert (cap f = len f) as Ec by lia. assert (length (entries f) = length es) as El by lia.
    assert (entries f = map Some es) as Ees by (rewrite <- Hes; rewrite take_ge; [done|lia]).
    set (newcap := if cap f =? 0 then 4 else u64 (cap f * 2)).
    assert (newcap = if cap f =? 0 then 4 else cap f * 2) as En.
    { subst newcap. destruct (cap f =? 0); [done|]. apply wrap_small. lia. }
    assert (len f < newcap /\ newcap < Z.max 5 (2 * (len f + 1) + 1) /\ newcap < 2 ^ 60) as (?&?&?).
    { rewrite En. destruct (Z.eqb_spec (cap f) 0); lia. }
    destruct (realloc_length (entries f) newcap) as [Hr1 Hr2]; [lia|done|]. split_and!; try done; [lia|].
    rewrite <- El, Hr2. exact Ees. }
  destruct (Nat.ltb_spec (Z.to_nat (len f1)) (length (entries f1))); [|lia]. eexists. split; [done|].
  rewrite H1. unfold frame_holds. cbn. rewrite length_app, length_insert. cbn. rewrite wrap_small by lia.
  split_and!; [lia|lia|lia|lia|].
  replace (Z.to_nat (len f)) with (length es) by lia. rewrite Nat.add_1_r, map_app.
  rewrite (take_S_r _ _ (Some e)) by (rewrite list_lookup_insert_eq; [done|lia]).
  rewrite take_insert_ge by lia. by rewrite H5.
Qed.

Lemma push_all_holds f es es' : frame_holds f es -> Z.of_nat (length (es ++ es')) < 2 ^ 58 ->
  exists f', push_all f es' = Some f' /\ frame_holds f' (es ++ es').
Proof.
  revert f es. induction es' as [|e es' IH]; intros f es Hf Hb; cbn.
  - rewrite app_nil_r. eauto.
  - rewrite length_app in Hb. cbn in Hb. destruct (push_holds f es e Hf) as (f'&->&Hf'); [lia|].
    destruct (IH f' (es ++ [e]) Hf') as (f''&->&Hf''); [rewrite !length_app; cbn; lia|].
    exists f''. by rewrite <- app_assoc in Hf''.
Qed.

Lemma run_entries_spec es l : take (length es) l = map Some es ->
  run_entries l (length es) = Some (flat_map events_of (rev es)).
Proof.
  revert l. induction es as [|e es IH] using rev_ind; intros l Hl; [done|].
  rewrite length_app, Nat.add_1_r in *. cbn [run_entries].
  assert (l !! length es = Some (Some e)) as ->.
  { rewrite <- (lookup_take_lt l (S (length es))) by lia. rewrite Hl, map_app, lookup_app_r by (rewrite length_map; lia).
    by rewrite length_map, Nat.sub_diag. }
  rewrite IH.
  - rewrite rev_app_distr. cbn. unfold events_of. by rewrite <- app_assoc.
  - replace (length es) with (length es `min` S (length es))%nat by lia. rewrite <- take_take, Hl, map_app.
    rewrite <- (length_map Some es). apply take_app_length.
Qed.

(** Deferred calls run once each, the last deferred first, each before its environment is freed;
    then the frame is as at the start. *)
Theorem defer_lifo es : Z.of_nat (length es) < 2 ^ 58 ->
  exists f, push_all empty_frame es = Some f /\
    goo_defer_run f = Some (flat_map events_of (rev es) ++ [FreeEntries], empty_frame).
Proof.
  intros Hb. destruct (push_all_holds empty_frame [] es) as (f&Hf&Hlen&_&_&_&Hes); [by split_and!|done|].
  exists f. split; [done|]. unfold goo_defer_run. rewrite Hlen, Nat2Z.id, (run_entries_spec es) by done. done.
Qed.
