(* ===== verification/Arena.v ===== *)
(** * Arena: the bump allocator of [src/runtime/arena.c].

    A [GooArenaBlock] is its data address, capacity and fill; addresses and sizes are [Z] with
    [size_t] wrap-around written out.  The block chain from [first] is
    [before ++ current :: after]: the pointer [current] is the split point.  [live] lists the
    regions handed out by [malloc] and not freed; [malloc] itself is the parameter [place], the
    address the C library picks for a request given what is live ([None]: out of memory).  The
    small headers ([GooArena], [GooArenaBlock]) are not counted as regions. *)
From Stdlib Require Import ZArith Lia String.
From stdpp Require Import base list sorting.
From S2P Require Import Prelude.
Local Open Scope Z_scope.

Definition GOO_ARENA_DEFAULT_BLOCK_SIZE : Z := 64 * 1024.
Definition GOO_ARENA_ALIGNMENT : Z := 16.

Record GooArenaBlock : Set := mkBlock { data : Z; capacity : Z; used : Z }.

Record GooArena : Set := mkArena {
  before : list GooArenaBlock;
  current : GooArenaBlock;
  after : list GooArenaBlock;
  default_block_size : Z
}.

(** A region of memory: its address and its length. *)
Definition region : Type := (Z * Z)%type.
Definition disjoint_regions (r s : region) : Prop := r.1 + r.2 <= s.1 \/ s.1 + s.2 <= r.1.

Definition blocks (a : GooArena) : list GooArenaBlock := before a ++ current a :: after a.
Definition block_region (b : GooArenaBlock) : region := (data b, capacity b).

Section arena.
Context (place : list region -> Z -> option Z) (goo_zerobase : Z).

Definition goo_arena_block_new (live : list region) (cap : Z)
    : outcome (GooArenaBlock * list region) :=
  match place live cap with
  | None => Panic "Out of memory"
  | Some p => Ok (mkBlock p cap 0, (p, cap) :: live)
  end.

Definition goo_arena_new (live : list region) (initial_size : Z)
    : outcome (GooArena * list region) :=
  let block_size :=
    if initial_size <? GOO_ARENA_DEFAULT_BLOCK_SIZE then GOO_ARENA_DEFAULT_BLOCK_SIZE
    else initial_size in
  let block_size := u64 (block_size + GOO_ARENA_ALIGNMENT) in
  obind (goo_arena_block_new live block_size) (fun '(b, live') =>
    Ok (mkArena [] b [] GOO_ARENA_DEFAULT_BLOCK_SIZE, live')).

(** The first 16-aligned address at or after [cursor], and the bytes skipped to reach it. *)
Definition aligned_address (cursor : Z) : Z :=
  Z.ldiff (u64 (cursor + (GOO_ARENA_ALIGNMENT - 1))) (GOO_ARENA_ALIGNMENT - 1).
Definition padding_to (cursor : Z) : Z := u64 (aligned_address cursor - cursor).

(** [goo_arena_alloc] after its two guards; [fuel] bounds the tail call, [None] = no fuel. *)
Fixpoint arena_bump (fuel : nat) (live : list region) (a : GooArena) (size : Z)
    : option (outcome (Z * GooArena * list region)) :=
  match fuel with
  | O => None
  | S f =>
      let block := current a in
      let cursor := u64 (data block + used block) in
      let padding := padding_to cursor in
      if u64 (padding + size) <=? u64 (capacity block - used block) then
        let block' := mkBlock (data block) (capacity block)
                              (u64 (used block + u64 (padding + size))) in
        Some (Ok (aligned_address cursor,
                  mkArena (before a) block' (after a) (default_block_size a), live))
      else
        let needed := u64 (size + GOO_ARENA_ALIGNMENT) in
        let advance next rest live' :=
          arena_bump f live' (mkArena (before a ++ [block]) next rest (default_block_size a)) size in
        let grow :=
          let new_capacity :=
            if default_block_size a <? needed then needed else default_block_size a in
          match goo_arena_block_new live new_capacity with
          | Panic m => Some (Panic m)
          | Ok (next, live') => advance next (after a) live'
          end in
        match after a with
        | [] => grow
        | next :: rest => if capacity next <? needed then grow else advance next rest live
        end
  end.

Definition ARENA_FUEL : nat := 2.

(** A NULL arena ([None]) yields NULL; a zero-size request the shared sentinel. *)
Definition goo_arena_alloc (live : list region) (a : option GooArena) (size : Z)
    : option (outcome (Z * option GooArena * list region)) :=
  match a with
  | None => Some (Ok (0, None, live))
  | Some a =>
      if size =? 0 then Some (Ok (goo_zerobase, Some a, live))
      else match arena_bump ARENA_FUEL live a size with
           | Some (Ok (p, a', live')) => Some (Ok (p, Some a', live'))
           | Some (Panic m) => Some (Panic m)
           | None => None
           end
  end.

Definition reset_block (b : GooArenaBlock) : GooArenaBlock := mkBlock (data b) (capacity b) 0.

Definition arena_rewind (a : GooArena) : GooArena :=
  match before a ++ [current a] with
  | first :: rest =>
      mkArena [] (reset_block first) (map reset_block (rest ++ after a)) (default_block_size a)
  | [] => a
  end.
Definition goo_arena_reset (a : option GooArena) : option GooArena := option_map arena_rewind a.

Definition goo_arena_free (live : list region) (a : option GooArena) : list region :=
  match a with
  | None => live
  | Some a => foldl (fun l b => filter (fun r => r.1 <> data b) l) live (blocks a)
  end.

(** A client: allocations and resets in any order; [handed] are the regions given since the
    last reset. *)
Inductive arena_op : Set := Alloc (size : Z) | Reset.

Fixpoint arena_run (live : list region) (a : option GooArena) (handed : list region) (ops : list arena_op)
    : option (outcome (option GooArena * list region * list region)) :=
  match ops with
  | [] => Some (Ok (a, live, handed))
  | Reset :: ops' => arena_run live (goo_arena_reset a) [] ops'
  | Alloc size :: ops' =>
      match goo_arena_alloc live a size with
      | Some (Ok (p, a', live')) => arena_run live' a' ((p, size) :: handed) ops'
      | Some (Panic m) => Some (Panic m)
      | None => None
      end
  end.
End arena.

(** ** What the arena relies on: [malloc] returns fresh, disjoint, addressable regions. *)
Definition malloc_contract (place : list region -> Z -> option Z) : Prop :=
  forall live n p, place live n = Some p ->
    0 < p /\ p + n < 2 ^ 64 /\ Forall (disjoint_regions (p, n)) live.

(** Requests the arena can serve: positive and below half the address space (larger ones wrap
    around in [padding + size]). *)
Definition op_ok (op : arena_op) : Prop :=
  match op with Alloc size => 0 < size < 2 ^ 63 | Reset => True end.

(** ** Alignment arithmetic. *)
Lemma ldiff_15 x : 0 <= x -> Z.ldiff x 15 = 16 * (x / 16).
Proof.
  intros Hx. change 15 with (Z.ones 4). rewrite Z.ldiff_ones_r by lia.
  rewrite Z.shiftl_mul_pow2, Z.shiftr_div_pow2 by lia. change (2 ^ 4) with 16. lia.
Qed.

(** The padding is under 16 bytes, and unless it runs off the address space the aligned
    address is the cursor plus the padding. *)
Lemma padding_spec c : 0 <= c < 2 ^ 64 ->
  0 <= padding_to c < 16 /\ aligned_address c mod 16 = 0 /\
  (c + padding_to c < 2 ^ 64 -> aligned_address c = c + padding_to c).
Proof.
  intros Hc. unfold padding_to, aligned_address, GOO_ARENA_ALIGNMENT. change (16 - 1) with 15.
  pose proof (wrap_range 64 (c + 15) ltac:(lia)) as Hw. rewrite ldiff_15 by lia.
  set (q := u64 (c + 15) / 16). assert (Hmod : (16 * q) mod 16 = 0) by (rewrite Z.mul_comm; apply Z.mod_mul; lia).
  pose proof (Z.div_mod (u64 (c + 15)) 16 ltac:(lia)) as Hd. fold q in Hd.
  pose proof (Z.mod_pos_bound (u64 (c + 15)) 16 ltac:(lia)) as Hr.
  unfold wrap in *. destruct (Z.lt_ge_cases (c + 15) (2 ^ 64)) as [H|H].
  - rewrite (Z.mod_small (c + 15)) in * by lia. rewrite (Z.mod_small (16 * q - c)) by lia. lia.
  - assert (E : (c + 15) mod 2 ^ 64 = c + 15 - 2 ^ 64).
    { symmetry. apply Z.mod_unique with 1; lia. }
    rewrite E in *. assert (q = 0) as Hq by (apply Z.div_small; lia). rewrite Hq.
    assert (E2 : (16 * 0 - c) mod 2 ^ 64 = 2 ^ 64 - c).
    { symmetry. apply Z.mod_unique with (-1); lia. }
    rewrite E2. split_and!; [lia|lia|reflexivity|lia].
Qed.

(** ** Pairwise disjointness does not depend on the order. *)
Definition pairwise (rs : list region) : Prop := ForallOrdPairs disjoint_regions rs.

Lemma disjoint_regions_sym r s : disjoint_regions r s -> disjoint_regions s r.
Proof. unfold disjoint_regions. lia. Qed.

Lemma pairwise_cons r rs : pairwise (r :: rs) <-> Forall (disjoint_regions r) rs /\ pairwise rs.
Proof. split; [intros H; by inversion H|intros []; by constructor]. Qed.

Lemma pairwise_perm rs rs' : rs ≡ₚ rs' -> pairwise rs -> pairwise rs'.
Proof.
  induction 1 as [|x l l' Hp IH|x y l|l1 l2 l3 _ IH1 _ IH2]; [done| | |by auto].
  - rewrite !pairwise_cons. intros [Hf Hl]. split; [by rewrite <- Hp|auto].
  - rewrite !pairwise_cons, !Forall_cons. intros [[Hyx Hy] [Hx Hl]].
    split_and!; [by apply disjoint_regions_sym|done..].
Qed.

(** ** The invariant. *)
Definition block_ok (live : list region) (b : GooArenaBlock) : Prop :=
  0 <= used b <= capacity b /\ 0 < data b /\ data b + capacity b < 2 ^ 64 /\ In (block_region b) live.

Definition arena_wf (live : list region) (a : GooArena) : Prop :=
  Forall (block_ok live) (blocks a) /\ Forall (fun b => used b = 0) (after a) /\
  pairwise (map block_region (blocks a)) /\ default_block_size a = GOO_ARENA_DEFAULT_BLOCK_SIZE.

(** The region lies in the used part of a block. *)
Definition within (r : region) (b : GooArenaBlock) : Prop :=
  data b <= r.1 /\ r.1 + r.2 <= data b + used b.

Definition handed_ok (a : GooArena) (handed : list region) : Prop :=
  pairwise handed /\
  Forall (fun r => 0 < r.1 /\ r.1 mod GOO_ARENA_ALIGNMENT = 0 /\ Exists (within r) (blocks a)) handed.

(** The guard of the fast path, without wrap-around. *)
Lemma fits_iff live a size : arena_wf live a -> 0 < size < 2 ^ 63 ->
  let b := current a in let pad := padding_to (u64 (data b + used b)) in
  (u64 (pad + size) <=? u64 (capacity b - used b)) = (pad + size <=? capacity b - used b).
Proof.
  intros (Hb&_) Hs b pad. unfold blocks in Hb. rewrite Forall_app, Forall_cons in Hb.
  destruct Hb as (_&(Hu&?&?&_)&_). fold b in Hu, H, H0.
  pose proof (padding_spec (u64 (data b + used b)) (wrap_range 64 _ ltac:(lia))) as (Hp&_).
  fold pad in Hp. rewrite (wrap_small 64 (pad + size)), (wrap_small 64 (capacity b - used b)) by lia.
  done.
Qed.

(** The arena after [n] more bytes of its current block are used, all else unchanged. *)
Definition with_used (a : GooArena) (u : Z) : GooArena :=
  mkArena (before a) (mkBlock (data (current a)) (capacity (current a)) u) (after a) (default_block_size a).

Lemma with_used_wf live a u : arena_wf live a -> 0 <= u <= capacity (current a) ->
  arena_wf live (with_used a u).
Proof.
  intros (Hb&Ha&Hpw&Hd) Hu. unfold blocks in *. split_and!; [|exact Ha| |exact Hd].
  - unfold blocks. rewrite Forall_app, Forall_cons in Hb |- *. destruct Hb as (?&(_&?)&?). by split_and!.
  - unfold blocks. rewrite map_app in *. exact Hpw.
Qed.

(** The unused part of the current block meets no region handed out so far. *)
Lemma unused_disjoint live a r p size : arena_wf live a -> Exists (within r) (blocks a) ->
  data (current a) + used (current a) <= p -> p + size <= data (current a) + capacity (current a) ->
  disjoint_regions (p, size) r.
Proof.
  intros (Hb&_&Hpw&_) Hw Hlo Hhi. unfold blocks in *. set (b := current a) in *.
  rewrite Forall_app, Forall_cons in Hb. destruct Hb as (Hpre&(Hub&_)&Hpost).
  assert (Hdis : Forall (disjoint_regions (block_region b)) (map block_region (before a ++ after a))).
  { apply (pairwise_cons (block_region b)). eapply pairwise_perm, Hpw.
    rewrite !map_app. simpl. symmetry. apply Permutation_middle. }
  rewrite Forall_map, Forall_app in Hdis. destruct Hdis as [Hd1 Hd2].
  rewrite Exists_app, Exists_cons in Hw. destruct Hw as [Hw|[Hw|Hw]].
  2: { unfold within, disjoint_regions in *. simpl. lia. }
  all: apply Exists_exists in Hw as (c&Hc&Hwc).
  all: rewrite Forall_forall in Hd1, Hd2, Hpre, Hpost.
  1: pose proof (Hpre c Hc) as (?&_); pose proof (Hd1 c Hc) as Hdc.
  2: pose proof (Hpost c Hc) as (?&_); pose proof (Hd2 c Hc) as Hdc.
  all: unfold within, disjoint_regions, block_region in *; simpl in *; lia.
Qed.

Lemma handed_grow a u handed : used (current a) <= u -> handed_ok a handed ->
  handed_ok (with_used a u) handed.
Proof.
  intros Hu [Hp Hall]. split; [exact Hp|]. eapply Forall_impl; [exact Hall|].
  intros r (?&?&Hw). split_and!; [done..|]. unfold blocks in *. simpl.
  rewrite Exists_app, Exists_cons in Hw |- *. unfold within in *. simpl. intuition lia.
Qed.

(** Serving a request from the current block. *)
Lemma bump_in_block live a size : arena_wf live a -> 0 < size < 2 ^ 63 ->
  let c := u64 (data (current a) + used (current a)) in
  padding_to c + size <= capacity (current a) - used (current a) ->
  let a' := with_used a (u64 (used (current a) + u64 (padding_to c + size))) in
  arena_wf live a' /\
  forall handed, handed_ok a handed -> handed_ok a' ((aligned_address c, size) :: handed).
Proof.
  intros Hwf Hs c Hfit a'. pose proof Hwf as (Hb&_). unfold blocks in Hb.
  rewrite Forall_app, Forall_cons in Hb. destruct Hb as (_&(Hu&Hd0&Hd1&_)&_).
  pose proof (padding_spec c (wrap_range 64 _ ltac:(lia))) as (Hp&Hm&Hadd).
  assert (Ec : c = data (current a) + used (current a)) by (apply wrap_small; lia).
  assert (Eu : u64 (used (current a) + u64 (padding_to c + size)) = used (current a) + padding_to c + size).
  { rewrite (wrap_small 64 (padding_to c + size)) by lia. rewrite wrap_small; lia. }
  specialize (Hadd ltac:(lia)). unfold a'. rewrite Eu.
  split; [apply with_used_wf; [exact Hwf|lia]|]. intros handed Hh.
  destruct (handed_grow a (used (current a) + padding_to c + size) handed ltac:(lia) Hh) as [Hp' Hall'].
  split.
  - apply pairwise_cons. split; [|exact Hp']. destruct Hh as [_ Hall].
    eapply Forall_impl; [exact Hall|]. intros r (_&_&Hw).
    eapply unused_disjoint; [exact Hwf|exact Hw|lia|lia].
  - constructor; [|exact Hall']. simpl. split_and!; [lia|exact Hm|].
    unfold blocks. rewrite Exists_app, Exists_cons. right; left. unfold within. simpl in *. lia.
Qed.

(** ** Growing. *)
Definition advance_to (a : GooArena) (next : GooArenaBlock) (rest : list GooArenaBlock) : GooArena :=
  mkArena (before a ++ [current a]) next rest (default_block_size a).

Lemma advance_blocks a next rest : blocks (advance_to a next rest) = before a ++ current a :: next :: rest.
Proof. unfold blocks. simpl. by rewrite <- app_assoc. Qed.

Lemma advance_handed a next rest handed : (forall b, In b (after a) -> In b (next :: rest)) ->
  handed_ok a handed -> handed_ok (advance_to a next rest) handed.
Proof.
  intros Hsub [Hp Hall]. split; [exact Hp|]. eapply Forall_impl; [exact Hall|].
  intros r (?&?&Hw). split_and!; [done..|]. rewrite advance_blocks. unfold blocks in Hw.
  rewrite !Exists_app, !Exists_cons in *. destruct Hw as [?|[?|Hw]]; [by left|by right; left|].
  right; right. rewrite <- Exists_cons. rewrite List.Exists_exists in *.
  destruct Hw as (b&?&?). eauto.
Qed.

Lemma advance_wf live a next rest : after a = next :: rest -> arena_wf live a ->
  arena_wf live (advance_to a next rest).
Proof.
  intros E (Hb&Ha&Hpw&Hd). unfold arena_wf. rewrite advance_blocks. unfold blocks in *.
  rewrite E in *. inversion Ha. by split_and!.
Qed.

Lemma block_ok_weaken r live b : block_ok live b -> block_ok (r :: live) b.
Proof. intros (?&?&?&?). split_and!; try done; try lia. by right. Qed.

Lemma grow_wf place live a cap p : malloc_contract place -> arena_wf live a -> 0 <= cap ->
  place live cap = Some p ->
  arena_wf ((p, cap) :: live) (advance_to a (mkBlock p cap 0) (after a)).
Proof.
  intros Hm (Hb&Ha&Hpw&Hd) Hc Hp. apply Hm in Hp as (Hp0&Hp1&Hdis).
  assert (Hnew : Forall (disjoint_regions (p, cap)) (map block_region (blocks a))).
  { rewrite Forall_map. eapply Forall_impl; [exact Hb|]. intros b (_&_&_&Hin).
    rewrite List.Forall_forall in Hdis. by apply Hdis. }
  unfold arena_wf. rewrite advance_blocks. unfold blocks in *. split_and!; [|exact Ha| |exact Hd].
  - rewrite Forall_app, Forall_cons in Hb. destruct Hb as (H1&H2&H3).
    apply Forall_app. split; [|constructor; [by apply block_ok_weaken|constructor]].
    + eapply Forall_impl; [exact H1|]. intros. by apply block_ok_weaken.
    + split_and!; simpl; [lia..|by left].
    + eapply Forall_impl; [exact H3|]. intros. by apply block_ok_weaken.
  - eapply pairwise_perm with (rs := (p, cap) :: map block_region (before a ++ current a :: after a)).
    + rewrite !map_app. simpl. rewrite Permutation_middle. apply Permutation_app_head.
      apply perm_swap.
    + by apply pairwise_cons.
Qed.

(** ** One allocation. *)
Section alloc.
Context (place : list region -> Z -> option Z) (goo_zerobase : Z) (Hmalloc : malloc_contract place).

Definition bump_ok (live : list region) (a : GooArena) (size : Z)
    (r : option (outcome (Z * GooArena * list region))) : Prop :=
  r = Some (Panic "Out of memory") \/
  exists p a' live', r = Some (Ok (p, a', live')) /\ arena_wf live' a' /\
    forall handed, handed_ok a handed -> handed_ok a' ((p, size) :: handed).

Lemma bump_fits f live a size : arena_wf live a -> 0 < size < 2 ^ 63 ->
  let c := u64 (data (current a) + used (current a)) in
  padding_to c + size <= capacity (current a) - used (current a) ->
  bump_ok live a size (arena_bump place (S f) live a size).
Proof.
  intros Hwf Hs c Hfit. right. cbn [arena_bump]. rewrite (fits_iff live) by done.
  apply Z.leb_le in Hfit as Hle. fold c. rewrite Hle.
  do 3 eexists. split; [reflexivity|]. by apply bump_in_block.
Qed.

Lemma bump_fresh f live a size : arena_wf live a -> 0 < size < 2 ^ 63 ->
  used (current a) = 0 -> size + GOO_ARENA_ALIGNMENT <= capacity (current a) ->
  bump_ok live a size (arena_bump place (S f) live a size).
Proof.
  intros Hwf Hs H0 Hc. apply bump_fits; [done|done|]. rewrite H0.
  pose proof (padding_spec (u64 (data (current a) + 0)) (wrap_range 64 _ ltac:(lia))) as (Hp&_).
  unfold GOO_ARENA_ALIGNMENT in Hc. lia.
Qed.

Lemma bump_ok_weaken live live' a a' size r :
  (forall handed, handed_ok a handed -> handed_ok a' handed) ->
  bump_ok live' a' size r -> bump_ok live a size r.
Proof. intros H [?|(p&a2&l2&?&?&Hh)]; [by left|right]. exists p, a2, l2. split_and!; auto. Qed.

Lemma arena_bump_ok live a size : arena_wf live a -> 0 < size < 2 ^ 63 ->
  bump_ok live a size (arena_bump place ARENA_FUEL live a size).
Proof.
  intros Hwf Hs. unfold ARENA_FUEL.
  set (c := u64 (data (current a) + used (current a))).
  destruct (Z.le_gt_cases (padding_to c + size) (capacity (current a) - used (current a))) as [Hfit|Hno];
    [by apply bump_fits|].
  remember 1%nat as one. cbn [arena_bump]. rewrite (fits_iff live) by done. fold c.
  apply Z.leb_gt in Hno as ->. subst one.
  pose proof Hwf as (_&Ha0&_&Hd). rewrite Hd. unfold GOO_ARENA_ALIGNMENT, GOO_ARENA_DEFAULT_BLOCK_SIZE.
  rewrite (wrap_small 64 (size + 16)) by lia.
  set (cap := if 64 * 1024 <? size + 16 then size + 16 else 64 * 1024).
  assert (Hcap : size + 16 <= cap) by (unfold cap; destruct (Z.ltb_spec (64 * 1024) (size + 16)); lia).
  assert (Hgrow : bump_ok live a size (match goo_arena_block_new place live cap with
    | Ok (next, live') => arena_bump place 1 live'
        (mkArena (before a ++ [current a]) next (after a) (64 * 1024)) size
    | Panic m => Some (Panic m) end)).
  { unfold goo_arena_block_new. destruct (place live cap) as [p|] eqn:Ep; [|by left].
    pose proof (grow_wf place live a cap p Hmalloc Hwf ltac:(lia) Ep) as Hwf'.
    unfold advance_to in Hwf'. rewrite Hd in Hwf'.
    eapply bump_ok_weaken; [|apply bump_fresh; [exact Hwf'|exact Hs|done|exact Hcap]].
    intros handed Hh. apply (advance_handed a (mkBlock p cap 0) (after a)) in Hh; [|by right].
    unfold advance_to in Hh. by rewrite Hd in Hh. }
  destruct (after a) as [|next rest] eqn:Ea; [exact Hgrow|].
  destruct (Z.ltb_spec (capacity next) (size + 16)) as [_|Hroom]; [exact Hgrow|].
  pose proof (advance_wf live a next rest Ea Hwf) as Hwf'. unfold advance_to in Hwf'. rewrite Hd in Hwf'.
  eapply bump_ok_weaken; [|apply bump_fresh; [exact Hwf'|exact Hs| |exact Hroom]].
  - intros handed Hh. apply (advance_handed a next rest) in Hh; [|by rewrite Ea].
    unfold advance_to in Hh. by rewrite Hd in Hh.
  - simpl. by inversion Ha0.
Qed.

(** ** Runs of a client. *)
Lemma arena_new_wf live initial a live' : 0 <= initial < 2 ^ 63 ->
  goo_arena_new place live initial = Ok (a, live') -> arena_wf live' a /\ handed_ok a [].
Proof.
  intros Hi. unfold goo_arena_new, goo_arena_block_new, GOO_ARENA_ALIGNMENT, GOO_ARENA_DEFAULT_BLOCK_SIZE.
  set (n := if initial <? 64 * 1024 then 64 * 1024 else initial).
  assert (Hn : 0 < n < 2 ^ 63) by (unfold n; destruct (Z.ltb_spec initial (64 * 1024)); lia).
  rewrite wrap_small by lia. destruct (place live (n + 16)) as [p|] eqn:E; [|done].
  intros [= <- <-]. apply Hmalloc in E as (?&?&_). split; [|by split; constructor].
  unfold arena_wf, blocks. simpl. split_and!; [|by constructor|by repeat constructor|done].
  constructor; [|by constructor]. split_and!; simpl; [lia..|by left].
Qed.

Lemma rewind_blocks a : blocks (arena_rewind a) = map reset_block (blocks a).
Proof.
  unfold arena_rewind, blocks. destruct (before a) as [|b bs]; simpl; [done|].
  by rewrite <- app_assoc.
Qed.

Lemma rewind_wf live a : arena_wf live a -> arena_wf live (arena_rewind a).
Proof.
  intros (Hb&Ha&Hpw&Hd). unfold arena_wf. rewrite rewind_blocks. split_and!.
  - rewrite Forall_map. eapply Forall_impl; [exact Hb|]. intros b (?&?&?&?).
    split_and!; simpl; try done; lia.
  - unfold arena_rewind. destruct (before a); simpl; rewrite Forall_map; by apply Forall_true.
  - rewrite map_map. exact Hpw.
  - unfold arena_rewind. by destruct (before a).
Qed.

Lemma goo_arena_alloc_ok live a size : arena_wf live a -> 0 < size < 2 ^ 63 ->
  let r := goo_arena_alloc place goo_zerobase live (Some a) size in
  r = Some (Panic "Out of memory") \/
  exists p a' live', r = Some (Ok (p, Some a', live')) /\ arena_wf live' a' /\
    forall handed, handed_ok a handed -> handed_ok a' ((p, size) :: handed).
Proof.
  intros Hwf Hs. unfold goo_arena_alloc. destruct (Z.eqb_spec size 0); [lia|].
  destruct (arena_bump_ok live a size Hwf Hs) as [->|(p&a'&live'&->&H1&H2)]; [by left|right].
  by exists p, a', live'.
Qed.

Lemma arena_run_ok ops : Forall op_ok ops -> forall live a handed,
  arena_wf live a -> handed_ok a handed ->
  let r := arena_run place goo_zerobase live (Some a) handed ops in
  r = Some (Panic "Out of memory") \/
  exists a' live' handed', r = Some (Ok (Some a', live', handed')) /\
    arena_wf live' a' /\ handed_ok a' handed'.
Proof.
  induction 1 as [|[size|] ops Hop _ IH]; intros live a handed Hwf Hh; cbn [arena_run].
  - right. by exists a, live, handed.
  - destruct (goo_arena_alloc_ok live a size Hwf Hop) as [->|(p&a'&live'&->&Hwf'&Hh')]; [by left|].
    apply IH; auto.
  - apply IH; [by apply rewind_wf|by split; constructor].
Qed.
End alloc.

(** C5: allocation safety.  Whatever sequence of allocations (of positive size below 2^63) and
    resets a client performs on a new arena, every request is answered (the tail call in
    [goo_arena_alloc] never needs a second growth) unless [malloc] reports out of memory, and
    the regions handed out since the last reset are 16-byte aligned, pairwise disjoint, and
    each inside one block that [malloc] gave and that is still live: growth never moves or
    overlaps an earlier allocation. *)
Theorem arena_allocations_disjoint place goo_zerobase live initial ops a0 live0 :
  malloc_contract place -> 0 <= initial < 2 ^ 63 -> Forall op_ok ops ->
  goo_arena_new place live initial = Ok (a0, live0) ->
  let r := arena_run place goo_zerobase live0 (Some a0) [] ops in
  r = Some (Panic "Out of memory") \/
  exists a live' handed, r = Some (Ok (Some a, live', handed)) /\
    pairwise handed /\
    Forall (fun r => 0 < r.1 /\ r.1 mod 16 = 0 /\
      exists b, In b (blocks a) /\ In (data b, capacity b) live' /\
        data b <= r.1 /\ r.1 + r.2 <= data b + used b /\ used b <= capacity b) handed.
Proof.
  intros Hm Hi Hops Hnew. destruct (arena_new_wf place Hm live initial a0 live0 Hi Hnew) as [Hwf Hh].
  destruct (arena_run_ok place goo_zerobase Hm ops Hops live0 a0 [] Hwf Hh)
    as [?|(a&live'&handed&?&(Hb&_)&Hp&Hall)]; [by left|right].
  exists a, live', handed. split_and!; [done..|]. eapply Forall_impl; [exact Hall|].
  intros r (?&?&Hw). split_and!; [done..|]. apply List.Exists_exists in Hw as (b&Hin&?&?).
  exists b. rewrite List.Forall_forall in Hb. destruct (Hb b Hin) as (?&_&_&?).
  split_and!; try done; lia.
Qed.

(** An allocator that places each request after everything live, within 2^40 bytes. *)
Fixpoint live_top (live : list region) : Z :=
  match live with [] => 1000 | r :: rest => Z.max (r.1 + r.2) (live_top rest) end.
Definition bump_place (live : list region) (n : Z) : option Z :=
  let top := live_top live in
  if top + n <? 2 ^ 40 then Some top else None.

Lemma bump_place_contract : malloc_contract bump_place.
Proof.
  intros live n p. unfold bump_place.
  set (top := live_top live). destruct (Z.ltb_spec (top + n) (2 ^ 40)); [|done].
  intros [= <-]. assert (Htop : 1000 <= top /\ Forall (fun r => r.1 + r.2 <= top) live).
  { unfold top. clear. induction live as [|r live [IH1 IH2]]; simpl; [split; [lia|constructor]|].
    split; [lia|]. constructor; [lia|]. eapply Forall_impl; [exact IH2|]. simpl. lia. }
  destruct Htop as [? Htop]. split_and!; [lia|lia|]. eapply Forall_impl; [exact Htop|].
  unfold disjoint_regions. simpl. lia.
Qed.

Lemma arena_allocations_disjoint_witness :
  exists a live handed,
    arena_run bump_place 7 [(1000, 65552)] (Some (mkArena [] (mkBlock 1000 65552 0) [] 65536)) []
      [Alloc 24; Reset; Alloc 100; Alloc 70000; Alloc 8] = Some (Ok (Some a, live, handed)) /\
    pairwise handed.
Proof.
  destruct (arena_allocations_disjoint bump_place 7 [] 0
              [Alloc 24; Reset; Alloc 100; Alloc 70000; Alloc 8]
              (mkArena [] (mkBlock 1000 65552 0) [] 65536) [(1000, 65552)])
    as [H|(a&live&handed&H&Hp&_)].
  - exact bump_place_contract.
  - lia.
  - repeat constructor.
  - reflexivity.
  - vm_compute in H. discriminate H.
  - exists a, live, handed. by split.
Defined.

(** ** Reset reuses the chain: the same requests get the same addresses, without [malloc]. *)
Section replay.
Context (place : list region -> Z -> option Z) (goo_zerobase : Z).

Fixpoint arena_serve (live : list region) (a : option GooArena) (sizes : list Z)
    : option (outcome (list Z * option GooArena * list region)) :=
  match sizes with
  | [] => Some (Ok ([], a, live))
  | size :: sizes' =>
      match goo_arena_alloc place goo_zerobase live a size with
      | Some (Ok (p, a', live')) =>
          match arena_serve live' a' sizes' with
          | Some (Ok (ps, a'', live'')) => Some (Ok (p :: ps, a'', live''))
          | r => r
          end
      | Some (Panic m) => Some (Panic m)
      | None => None
      end
  end.

Definition chain (a : GooArena) : list region := map block_region (blocks a).
Definition trail (a : GooArena) : list region := map block_region (before a ++ [current a]).
Definition clean (a : GooArena) : Prop := Forall (fun b => used b = 0) (after a).

(** [a'] is at the same point as [a], on the chain [final] the first pass ended with. *)
Definition same_point (final : list region) (a a' : GooArena) : Prop :=
  current a' = current a /\ map block_region (before a') = map block_region (before a) /\
  default_block_size a' = default_block_size a /\ clean a' /\ chain a' = final.

Lemma trail_advance a next rest : trail (advance_to a next rest) = trail a ++ [block_region next].
Proof. unfold trail, advance_to. simpl. by rewrite map_app. Qed.

Lemma chain_trail a : chain a = trail a ++ map block_region (after a).
Proof. unfold chain, trail, blocks. rewrite !map_app. simpl. by rewrite <- app_assoc. Qed.

(** The moves of one allocation: use the current block, or advance to a block with room. *)
Lemma bump_cases f live a size p a1 live1 :
  clean a -> arena_bump place (S f) live a size = Some (Ok (p, a1, live1)) ->
  let b := current a in
  let fits := u64 (padding_to (u64 (data b + used b)) + size) <=? u64 (capacity b - used b) in
  (fits = true /\ live1 = live /\ p = aligned_address (u64 (data b + used b)) /\
   a1 = with_used a (u64 (used b + u64 (padding_to (u64 (data b + used b)) + size)))) \/
  (fits = false /\ exists next rest live2, used next = 0 /\ Forall (fun b => used b = 0) rest /\
     (capacity next <? u64 (size + GOO_ARENA_ALIGNMENT)) = false /\
     arena_bump place f live2 (advance_to a next rest) size = Some (Ok (p, a1, live1))).
Proof.
  intros Hc H b fits. cbn [arena_bump] in H. fold b in H. fold fits in H.
  destruct fits; [left|right; split; [done|]].
  { injection H as <- <- <-. by split_and!. }
  set (needed := u64 (size + GOO_ARENA_ALIGNMENT)) in *.
  set (cap := if default_block_size a <? needed then needed else default_block_size a) in *.
  assert (Hcap : (cap <? needed) = false) by (unfold cap; destruct (Z.ltb_spec (default_block_size a) needed);
    apply Z.ltb_ge; lia).
  assert (Hgrow : match goo_arena_block_new place live cap with
    | Ok (next, live') => arena_bump place f live' (advance_to a next (after a)) size
    | Panic m => Some (Panic m) end = Some (Ok (p, a1, live1)) ->
    exists next rest live2, used next = 0 /\ Forall (fun b => used b = 0) rest /\
      (capacity next <? needed) = false /\
      arena_bump place f live2 (advance_to a next rest) size = Some (Ok (p, a1, live1))).
  { unfold goo_arena_block_new. destruct (place live cap) as [q|]; [|done].
    intros Hg. by exists (mkBlock q cap 0), (after a), ((q, cap) :: live). }
  unfold clean in Hc. destruct (after a) as [|next rest] eqn:Ea; [by apply Hgrow|].
  destruct (capacity next <? needed) eqn:Eroom; [by apply Hgrow|].
  apply Forall_cons in Hc as [??]. by exists next, rest, live.
Qed.

Lemma bump_trail f live a size p a1 live1 : clean a ->
  arena_bump place f live a size = Some (Ok (p, a1, live1)) ->
  trail a `prefix_of` trail a1 /\ clean a1 /\ default_block_size a1 = default_block_size a.
Proof.
  revert live a. induction f as [|f IH]; intros live a Hc; [done|].
  intros H. apply bump_cases in H; [|done].
  destruct H as [(_&_&_&->)|(_&next&rest&live2&_&Hr&_&H)].
  - split; [|by split]. unfold trail, with_used. simpl. by rewrite !map_app.
  - apply IH in H as [Hp ?]; [|done]. split; [|done]. rewrite trail_advance in Hp.
    etrans; [by apply prefix_app_r|exact Hp].
Qed.

Lemma bump_replay f live a size p a1 live1 final a' live' : clean a ->
  arena_bump place f live a size = Some (Ok (p, a1, live1)) ->
  trail a1 `prefix_of` final -> same_point final a a' ->
  exists a1', arena_bump place f live' a' size = Some (Ok (p, a1', live')) /\ same_point final a1 a1'.
Proof.
  revert live a a'. induction f as [|f IH]; intros live a a' Hc H Hpre (Ecur&Ebef&Ed&Hc'&Ech); [done|].
  pose proof H as Htrail. apply bump_cases in H; [|done]. cbn [arena_bump]. rewrite Ecur.
  destruct H as [(Hfit&_&->&->)|(Hfit&next&rest&live2&Hu&Hr&Hroom&H)]; rewrite Hfit.
  - eexists. split; [reflexivity|]. unfold same_point, with_used. simpl. rewrite Ebef, Ed.
    split_and!; try done. rewrite <- Ech. unfold chain, blocks. simpl. rewrite !map_app. simpl.
    by rewrite Ebef, Ecur.
  - pose proof (bump_trail f live2 (advance_to a next rest) size p a1 live1 Hr H) as [Hp _].
    assert (Hnext : exists rest', after a' = next :: rest' /\ Forall (fun b => used b = 0) rest').
    { rewrite trail_advance in Hp. assert (Hf : trail a ++ [block_region next] `prefix_of` chain a').
      { rewrite Ech. by etrans. }
      rewrite chain_trail in Hf. replace (trail a') with (trail a) in Hf
        by (unfold trail; by rewrite !map_app, Ebef, Ecur).
      apply prefix_app_inv in Hf. destruct (after a') as [|n rest'] eqn:Ea'; [by apply prefix_nil_inv in Hf|].
      simpl in Hf. apply prefix_cons_inv_1 in Hf. unfold clean in Hc'. rewrite Ea' in Hc'.
      apply Forall_cons in Hc' as [Hn ?]. exists rest'. split; [|done]. f_equal.
      destruct n, next. unfold block_region in Hf. simpl in *. by injection Hf as <- <-; subst. }
    destruct Hnext as (rest'&Ea'&Hr'). rewrite Ea', Hroom.
    apply (IH live2 (advance_to a next rest) (mkArena (before a' ++ [current a]) next rest' (default_block_size a')));
      [done|done|done|].
    unfold same_point. simpl. rewrite !map_app, Ebef, Ed. split_and!; try done.
    rewrite <- Ech. unfold chain, blocks. simpl. rewrite Ea', Ecur. by rewrite <- app_assoc.
Qed.

Lemma serve_trail sizes : forall live a ps a1 live1, clean a ->
  arena_serve live (Some a) sizes = Some (Ok (ps, Some a1, live1)) ->
  trail a `prefix_of` trail a1 /\ default_block_size a1 = default_block_size a.
Proof.
  induction sizes as [|size sizes IH]; intros live a ps a1 live1 Hc H; cbn [arena_serve] in H.
  { by injection H as _ <- _. }
  unfold goo_arena_alloc in H. destruct (size =? 0).
  - destruct (arena_serve live (Some a) sizes) as [[[[qs [a2|]] l2]|]|] eqn:E; try done.
    injection H as _ <- _. by eapply IH.
  - destruct (arena_bump place ARENA_FUEL live a size) as [[[[p a2] l2]|]|] eqn:Eb; try done.
    apply bump_trail in Eb as (Hp&Hc2&Hd); [|done].
    destruct (arena_serve l2 (Some a2) sizes) as [[[[qs [a3|]] l3]|]|] eqn:E; try done.
    injection H as _ <- _. apply IH in E as [? Hd']; [|done]. split; [by etrans|congruence].
Qed.

Lemma serve_replay sizes : forall live a ps a1 live1 a' live', clean a ->
  arena_serve live (Some a) sizes = Some (Ok (ps, Some a1, live1)) ->
  same_point (chain a1) a a' ->
  exists a1', arena_serve live' (Some a') sizes = Some (Ok (ps, Some a1', live')) /\
              chain a1' = chain a1.
Proof.
  induction sizes as [|size sizes IH]; intros live a ps a1 live1 a' live' Hc H Hs; cbn [arena_serve] in *.
  { injection H as <- <- <-. exists a'. split; [done|]. apply Hs. }
  unfold goo_arena_alloc in *. destruct (size =? 0).
  - destruct (arena_serve live (Some a) sizes) as [[[[qs [a2|]] l2]|]|] eqn:E; try done.
    injection H as <- -> ->. eapply IH in E as (a1'&->&?); [|done|exact Hs]. eauto.
  - destruct (arena_bump place ARENA_FUEL live a size) as [[[[p a2] l2]|]|] eqn:Eb; try done.
    pose proof (bump_trail _ _ _ _ _ _ _ Hc Eb) as (_&Hc2&_).
    destruct (arena_serve l2 (Some a2) sizes) as [[[[qs [a3|]] l3]|]|] eqn:E; try done.
    injection H as <- -> ->. pose proof (serve_trail _ _ _ _ _ _ Hc2 E) as [Hp _].
    destruct (bump_replay _ _ _ _ _ _ _ (chain a1) a' live' Hc Eb) as (a2'&->&Hs2); [|exact Hs|].
    + etrans; [exact Hp|]. rewrite chain_trail. by apply prefix_app_r.
    + eapply IH in E as (a1'&->&?); [|done|exact Hs2]. eauto.
Qed.
End replay.

(** reset reuses memory.  If a fresh arena answers a sequence of requests, then after
    [goo_arena_reset] the same requests are answered with the same addresses, the block chain
    stays what it was, and [malloc] is not called again (the live regions do not change). *)
Theorem arena_reset_replays place goo_zerobase live0 initial a0 live sizes ps a1 live1 :
  goo_arena_new place live0 initial = Ok (a0, live) ->
  arena_serve place goo_zerobase live (Some a0) sizes = Some (Ok (ps, Some a1, live1)) ->
  exists a2, arena_serve place goo_zerobase live1 (goo_arena_reset (Some a1)) sizes
               = Some (Ok (ps, Some a2, live1)) /\
             map block_region (blocks a2) = map block_region (blocks a1).
Proof.
  intros Hnew Hrun. unfold goo_arena_new, goo_arena_block_new in Hnew.
  destruct (place live0 _) as [q|]; [|done]. simpl in Hnew. injection Hnew as <- <-.
  match type of Hrun with arena_serve _ _ _ (Some ?a) _ = _ => set (a0 := a) in * end.
  assert (Hc : clean a0) by apply Forall_nil_2.
  eapply serve_replay; [exact Hc|exact Hrun|].
  pose proof (serve_trail place goo_zerobase _ _ _ _ _ _ Hc Hrun) as [Hp Hd].
  unfold same_point, chain, clean. rewrite rewind_blocks, map_map. unfold arena_rewind.
  unfold trail in Hp. simpl in Hp.
  destruct (before a1 ++ [current a1]) as [|b bs] eqn:Eb; [by destruct (before a1)|].
  simpl in *. apply prefix_cons_inv_1 in Hp. unfold block_region in Hp. simpl in Hp.
  split_and!; try done.
  - unfold reset_block. by injection Hp as -> ->.
  - apply Forall_map, Forall_true. done.
Qed.

Lemma arena_reset_replays_witness :
  exists a1 live1,
    arena_serve bump_place 7 [(1000, 65552)] (Some (mkArena [] (mkBlock 1000 65552 0) [] 65536))
      [24; 70000; 8] = Some (Ok ([1008; 66560; 136560], Some a1, live1)) /\
    exists a2, arena_serve bump_place 7 live1 (goo_arena_reset (Some a1)) [24; 70000; 8]
      = Some (Ok ([1008; 66560; 136560], Some a2, live1)).
Proof.
  eexists _, _. split; [vm_compute; reflexivity|].
  destruct (arena_reset_replays bump_place 7 [] 0 (mkArena [] (mkBlock 1000 65552 0) [] 65536)
              [(1000, 65552)] [24; 70000; 8] [1008; 66560; 136560] _ _ eq_refl eq_refl)
    as (a2&H&_).
  exists a2. exact H.
Defined.

(** ** [goo_arena_free] gives back exactly what the arena took. *)
Section free.
Context (place : list region -> Z -> option Z) (goo_zerobase : Z) (Hmalloc : malloc_contract place)
        (base : list region) (Hbase : Forall (fun r => 0 < r.2) base).

Definition owns (live : list region) (a : GooArena) : Prop :=
  0 < default_block_size a /\
  Forall (fun b => Forall (fun r => r.1 <> data b) base) (blocks a) /\
  exists own, live = own ++ base /\ own ≡ₚ map block_region (blocks a).

Lemma owns_new live cap p : 0 < cap -> place live cap = Some p -> (exists own, live = own ++ base) ->
  Forall (fun r => r.1 <> p) base.
Proof.
  intros Hc Hp [own ->]. apply Hmalloc in Hp as (_&_&Hd). apply Forall_app in Hd as [_ Hd].
  rewrite List.Forall_forall in *. intros r Hr. specialize (Hd r Hr). specialize (Hbase r Hr).
  unfold disjoint_regions in Hd. simpl in Hd. lia.
Qed.

Lemma owns_advance live a next rest : after a = next :: rest ->
  owns live a -> owns live (advance_to a next rest).
Proof. intros E. unfold owns. rewrite advance_blocks. unfold blocks. by rewrite E. Qed.

Lemma owns_grow live a cap p : 0 < cap -> place live cap = Some p -> owns live a ->
  owns ((p, cap) :: live) (advance_to a (mkBlock p cap 0) (after a)).
Proof.
  intros Hc Hp (Hd&Hall&own&->&Hperm). split; [exact Hd|]. rewrite advance_blocks.
  unfold blocks in *. split.
  - rewrite Forall_app, Forall_cons in Hall. destruct Hall as (?&?&?).
    apply Forall_app. split; [done|]. constructor; [done|]. constructor; [|done].
    eapply owns_new; [exact Hc|exact Hp|by exists own].
  - exists ((p, cap) :: own). split; [done|]. rewrite !map_app in *. simpl in *. rewrite Hperm.
    rewrite Permutation_middle. apply Permutation_app_head, perm_swap.
Qed.

Lemma bump_owns f live a size p a1 live1 : owns live a ->
  arena_bump place f live a size = Some (Ok (p, a1, live1)) -> owns live1 a1.
Proof.
  revert live a. induction f as [|f IH]; intros live a Ho H; [done|]. cbn [arena_bump] in H.
  destruct (_ <=? _); [injection H as _ <- <-|].
  { destruct Ho as (?&Hall&own&?&Hperm). unfold owns, blocks in *. simpl. split_and!; [done| |].
    - rewrite Forall_app, Forall_cons in *. naive_solver.
    - exists own. split; [done|]. rewrite map_app in *. exact Hperm. }
  set (needed := u64 (size + GOO_ARENA_ALIGNMENT)) in *.
  set (cap := if default_block_size a <? needed then needed else default_block_size a) in *.
  assert (Hcap : 0 < cap).
  { destruct Ho as [? _]. unfold cap. destruct (Z.ltb_spec (default_block_size a) needed); lia. }
  assert (Hgrow : match goo_arena_block_new place live cap with
    | Ok (next, live') => arena_bump place f live' (advance_to a next (after a)) size
    | Panic m => Some (Panic m) end = Some (Ok (p, a1, live1)) -> owns live1 a1).
  { unfold goo_arena_block_new. destruct (place live cap) as [q|] eqn:E; [|done].
    apply IH. by apply owns_grow. }
  destruct (after a) as [|next rest] eqn:Ea; [by apply Hgrow|].
  destruct (capacity next <? needed); [by apply Hgrow|].
  eapply IH; [|exact H]. by apply owns_advance.
Qed.

Lemma owns_rewind live a : owns live a -> owns live (arena_rewind a).
Proof.
  intros (Hd&Hall&own&?&Hperm). unfold owns. rewrite rewind_blocks, map_map. split_and!.
  - unfold arena_rewind. by destruct (before a).
  - rewrite Forall_map. exact Hall.
  - by exists own.
Qed.

Lemma run_owns ops : forall live a handed a1 live1 handed1, owns live a ->
  arena_run place goo_zerobase live (Some a) handed ops = Some (Ok (Some a1, live1, handed1)) ->
  owns live1 a1.
Proof.
  induction ops as [|[size|] ops IH]; intros live a handed a1 live1 handed1 Ho H; cbn [arena_run] in H.
  - by injection H as <- <- _.
  - unfold goo_arena_alloc in H. destruct (size =? 0); [by eapply IH|].
    destruct (arena_bump place ARENA_FUEL live a size) as [[[[p a2] l2]|]|] eqn:E; try done.
    eapply IH; [|exact H]. by eapply bump_owns.
  - eapply IH; [|exact H]. by apply owns_rewind.
Qed.

Lemma free_blocks_filter (bs : list GooArenaBlock) (live : list region) :
  foldl (fun l b => filter (fun r : region => r.1 <> data b) l) live bs
  = filter (fun r => Forall (fun b => r.1 <> data b) bs) live.
Proof.
  revert live. induction bs as [|b bs IH]; intros live; simpl.
  - induction live as [|r live IHl]; [done|]. rewrite filter_cons_True by constructor. by f_equal.
  - rewrite IH, list_filter_filter. apply list_filter_iff. intros r. rewrite Forall_cons. tauto.
Qed.

Lemma filter_all {A} (P : A -> Prop) `{forall x, Decision (P x)} (l : list A) :
  Forall P l -> filter P l = l.
Proof. induction 1; [done|]. rewrite filter_cons_True by done. by f_equal. Qed.

Lemma filter_no {A} (P : A -> Prop) `{forall x, Decision (P x)} (l : list A) :
  Forall (fun x => ~ P x) l -> filter P l = [].
Proof. induction 1; [done|]. by rewrite filter_cons_False by done. Qed.

Lemma owns_free live a : owns live a -> goo_arena_free live (Some a) = base.
Proof.
  intros (_&Hall&own&->&Hperm). unfold goo_arena_free.
  rewrite free_blocks_filter, filter_app, filter_no, filter_all; [done| |].
  - rewrite List.Forall_forall in Hall |- *. intros r Hr. rewrite List.Forall_forall. intros b Hb.
    specialize (Hall b Hb). rewrite List.Forall_forall in Hall. by apply Hall.
  - rewrite List.Forall_forall. intros r Hr Hn.
    assert (Hin : In r (map block_region (blocks a))) by (by eapply Permutation_in; [exact Hperm|]).
    apply in_map_iff in Hin as (b&<-&Hb). rewrite List.Forall_forall in Hn. by apply (Hn b Hb).
Qed.
End free.

(** no leak and no foreign free: after any run of allocations and resets on a new arena,
    [goo_arena_free] returns exactly the blocks the arena took: the live regions are again
    those that existed before [goo_arena_new]. *)
Theorem arena_free_restores place goo_zerobase base initial ops a0 live0 a live handed :
  malloc_contract place -> 0 <= initial < 2 ^ 63 -> Forall (fun r => 0 < r.2) base ->
  goo_arena_new place base initial = Ok (a0, live0) ->
  arena_run place goo_zerobase live0 (Some a0) [] ops = Some (Ok (Some a, live, handed)) ->
  goo_arena_free live (Some a) = base.
Proof.
  intros Hm Hi Hbase Hnew Hrun. eapply (owns_free base). eapply run_owns; [exact Hm|exact Hbase| |exact Hrun].
  unfold goo_arena_new, goo_arena_block_new, GOO_ARENA_DEFAULT_BLOCK_SIZE, GOO_ARENA_ALIGNMENT in Hnew.
  set (n := if initial <? 64 * 1024 then 64 * 1024 else initial) in Hnew.
  assert (Hn : 0 < n < 2 ^ 63) by (unfold n; destruct (Z.ltb_spec initial (64 * 1024)); lia).
  rewrite wrap_small in Hnew by lia. destruct (place base (n + 16)) as [p|] eqn:E; [|done].
  simpl in Hnew. injection Hnew as <- <-. split; [done|]. unfold blocks. simpl. split.
  - constructor; [|constructor]. eapply (owns_new place Hm base Hbase); [|exact E|]; [lia|].
    by exists [].
  - by exists [(p, n + 16)].
Qed.

Lemma arena_free_restores_witness :
  exists a live handed,
    arena_run bump_place 7 [(1050, 65552); (1000, 50)] (Some (mkArena [] (mkBlock 1050 65552 0) [] 65536)) []
      [Alloc 24; Alloc 70000; Reset; Alloc 100] = Some (Ok (Some a, live, handed)) /\
    goo_arena_free live (Some a) = [(1000, 50)].
Proof.
  eexists _, _, _. split; [vm_compute; reflexivity|].
  apply (arena_free_restores bump_place 7 [(1000, 50)] 0
           [Alloc 24; Alloc 70000; Reset; Alloc 100]
           (mkArena [] (mkBlock 1050 65552 0) [] 65536) [(1050, 65552); (1000, 50)] _ _
           [(1056, 100)]).
  - exact bump_place_contract.
  - lia.
  - repeat constructor.
  - reflexivity.
  - vm_compute. reflexivity.
Defined.
