(* ===== verification/Channel.v ===== *)
(** * Channel: the channels of [src/runtime/channels.c], one critical section at a time.

    Elements are values of a type [V] moved whole by [memcpy]; [zero] is the all-zero element
    [memset] writes.  Channel pointers are keys of a store [gmap nat channel]; a NULL pointer is
    [None], and [None] as the result of a function means that it followed a dangling pointer
    (undefined behaviour in C).  A wake-up ([pthread_cond_signal]/[broadcast]) is part of the
    result; [ChannelConc] gives it its effect on the waiting threads.  Scheduler statistics,
    waiting-state bookkeeping for the deadlock detector, endpoints and ids are left out. *)
From Stdlib Require Import ZArith Lia String Bool.
From stdpp Require Import base list gmap.
From S2P Require Import Prelude.

(** ** Data (include/runtime.h). *)
Inductive goo_channel_pattern_t : Set :=
| GOO_CHANNEL_BASIC | GOO_CHANNEL_PUB | GOO_CHANNEL_SUB
| GOO_CHANNEL_REQ | GOO_CHANNEL_REP | GOO_CHANNEL_PUSH | GOO_CHANNEL_PULL.

#[export] Instance pattern_eq_dec : EqDecision goo_channel_pattern_t.
Proof. solve_decision. Defined.

(** [struct goo_subscriber]; the list is the [next] chain. *)
Record goo_subscriber : Set := mkSub { sub_channel : nat; active : bool }.

(** [workers] of a PULL channel is the address of [goo_chan_add_worker]'s own parameter. *)
Inductive workers_ptr : Set := NullWorkers | Workers (ws : list nat) | ParameterAddress.

(** The union [pattern_data]. *)
Inductive pattern_data_t : Set :=
| NoData
| PubData (subscribers : list goo_subscriber) (subscriber_count : nat)
| SubData (publisher : option nat)
| ReqRepData (paired_channel : option nat) (request_id_counter : nat)
| PushPullData (workers : workers_ptr) (worker_count next_worker_index : nat).

Inductive wake : Set := SignalNotEmpty | BroadcastNotFull | BroadcastAll.

Section channel.
Context {V : Type} (zero : V).

Record channel : Type := mkChan {
  buffer : list V;
  capacity : nat;
  length : nat;
  head : nat;
  tail : nat;
  pattern : goo_channel_pattern_t;
  closed : bool;
  rv_slot : option V;
  rv_full : bool;
  pattern_data : pattern_data_t
}.

Definition set_data (d : pattern_data_t) (ch : channel) : channel :=
  mkChan (buffer ch) (capacity ch) (length ch) (head ch) (tail ch) (pattern ch) (closed ch)
         (rv_slot ch) (rv_full ch) d.

(** ** Creation. *)
Definition goo_make_chan (buffer_size : nat) : channel :=
  mkChan (replicate buffer_size zero) buffer_size 0 0 0 GOO_CHANNEL_BASIC false None false NoData.

Definition initial_pattern_data (p : goo_channel_pattern_t) : pattern_data_t :=
  match p with
  | GOO_CHANNEL_BASIC => NoData
  | GOO_CHANNEL_PUB => PubData [] 0
  | GOO_CHANNEL_SUB => SubData None
  | GOO_CHANNEL_REQ | GOO_CHANNEL_REP => ReqRepData None 0
  | GOO_CHANNEL_PUSH | GOO_CHANNEL_PULL => PushPullData NullWorkers 0 0
  end.

Definition goo_make_pattern_chan (p : goo_channel_pattern_t) : channel :=
  let ch := goo_make_chan 0 in
  mkChan (buffer ch) (capacity ch) (length ch) (head ch) (tail ch) p (closed ch)
         (rv_slot ch) (rv_full ch) (initial_pattern_data p).

(** ** The ring buffer. *)
Definition chan_put (ch : channel) (v : V) : channel :=
  mkChan (<[tail ch := v]> (buffer ch)) (capacity ch) (length ch + 1) (head ch)
         ((tail ch + 1) mod capacity ch) (pattern ch) (closed ch) (rv_slot ch) (rv_full ch)
         (pattern_data ch).

Definition chan_get (ch : channel) : V * channel :=
  (nth (head ch) (buffer ch) zero,
   mkChan (buffer ch) (capacity ch) (length ch - 1) ((head ch + 1) mod capacity ch) (tail ch)
          (pattern ch) (closed ch) (rv_slot ch) (rv_full ch) (pattern_data ch)).

Definition set_closed (ch : channel) : channel :=
  mkChan (buffer ch) (capacity ch) (length ch) (head ch) (tail ch) (pattern ch) true
         (rv_slot ch) (rv_full ch) (pattern_data ch).

Definition set_slot (slot : option V) (full : bool) (ch : channel) : channel :=
  mkChan (buffer ch) (capacity ch) (length ch) (head ch) (tail ch) (pattern ch) (closed ch)
         slot full (pattern_data ch).

(** ** Close. *)
Definition goo_chan_close (ch : option channel) : outcome (channel * wake) :=
  match ch with
  | None => Panic "close of nil channel"
  | Some ch => if closed ch then Panic "close of closed channel" else Ok (set_closed ch, BroadcastAll)
  end.

(** ** Non-blocking operations; [got_lock] is the answer of [goo_mutex_try_lock]. *)
Definition goo_chan_try_send (got_lock : bool) (ch : channel) (v : V)
    : outcome (bool * channel * list wake) :=
  if negb got_lock then Ok (false, ch, [])
  else if closed ch then Panic "send on closed channel"
  else if (0 <? capacity ch)%nat && (length ch <? capacity ch)%nat
  then Ok (true, chan_put ch v, [SignalNotEmpty])
  else Ok (false, ch, []).

(** The second component is what is written to the caller's buffer, if anything. *)
Definition goo_chan_try_recv (got_lock : bool) (ch : channel)
    : bool * option V * channel * list wake :=
  if negb got_lock then (false, None, ch, [])
  else if (0 <? capacity ch)%nat && (0 <? length ch)%nat
  then let '(v, ch') := chan_get ch in (true, Some v, ch', [BroadcastNotFull])
  else if closed ch then (true, Some zero, ch, [])
  else (false, Some zero, ch, []).

Definition goo_chan_is_closed (ch : option channel) : bool :=
  match ch with None => true | Some ch => closed ch end.
Definition goo_chan_len (ch : option channel) : nat :=
  match ch with None => 0 | Some ch => length ch end.
Definition goo_chan_cap (ch : option channel) : nat :=
  match ch with None => 0 | Some ch => capacity ch end.

Definition goo_chan_send_timeout (got_lock : bool) (ch : channel) (v : V) (timeout_ns : Z) :=
  goo_chan_try_send got_lock ch v.
Definition goo_chan_recv_timeout (got_lock : bool) (ch : channel) (timeout_ns : Z) :=
  goo_chan_try_recv got_lock ch.

(** ** The ring holds a queue. *)
Definition contents (ch : channel) : list V :=
  map (fun i => nth ((head ch + i) mod capacity ch) (buffer ch) zero) (seq 0 (length ch)).

Definition ring_wf (ch : channel) : Prop :=
  List.length (buffer ch) = capacity ch /\ length ch <= capacity ch /\
  (0 < capacity ch -> head ch < capacity ch /\ tail ch = (head ch + length ch) mod capacity ch).

Lemma make_chan_wf n : ring_wf (goo_make_chan n) /\ contents (goo_make_chan n) = [].
Proof.
  split; [|done]. unfold ring_wf. simpl. rewrite length_replicate. split_and!; [done|lia|].
  intros. split; [lia|]. by rewrite Nat.mod_small.
Qed.

Lemma contents_length ch : List.length (contents ch) = length ch.
Proof. unfold contents. by rewrite length_map, length_seq. Qed.

Lemma mod_add_inj n h i j : i < n -> j < n -> (h + i) mod n = (h + j) mod n -> i = j.
Proof.
  intros Hi Hj E. assert (Hn : n <> 0) by lia.
  pose proof (Nat.div_mod (h + i) n Hn) as Ei. pose proof (Nat.div_mod (h + j) n Hn) as Ej.
  rewrite E in Ei. set (qi := (h + i) / n) in *. set (qj := (h + j) / n) in *.
  destruct (Nat.lt_trichotomy qi qj) as [?|[?|?]]; nia.
Qed.

Lemma nth_insert (l : list V) i j v :
  i < List.length l -> nth j (<[i := v]> l) zero = if decide (i = j) then v else nth j l zero.
Proof.
  intros Hi. rewrite !nth_lookup. case_decide as E.
  - subst j. by rewrite list_lookup_insert_eq.
  - by rewrite list_lookup_insert_ne.
Qed.

Lemma put_contents ch v : ring_wf ch -> length ch < capacity ch ->
  ring_wf (chan_put ch v) /\ contents (chan_put ch v) = contents ch ++ [v].
Proof.
  intros (Hb&Hl&Hr) Hlt. destruct Hr as [Hh Ht]; [lia|]. split.
  - split_and!; simpl; [by rewrite length_insert|lia|]. intros _. split; [done|].
    rewrite Ht, Nat.Div0.add_mod_idemp_l. f_equal. lia.
  - unfold contents. simpl. rewrite seq_app, map_app. simpl. f_equal.
    + apply map_ext_in. intros i Hi%in_seq. rewrite nth_insert by (rewrite Hb, Ht; apply Nat.mod_upper_bound; lia).
      rewrite decide_False; [done|]. rewrite Ht. intros E. apply mod_add_inj in E; lia.
    + rewrite nth_insert by (rewrite Hb, Ht; apply Nat.mod_upper_bound; lia).
      by rewrite decide_True by (rewrite Ht; f_equal; lia).
Qed.

Lemma get_contents ch : ring_wf ch -> 0 < length ch ->
  ring_wf (chan_get ch).2 /\ contents ch = (chan_get ch).1 :: contents (chan_get ch).2.
Proof.
  intros (Hb&Hl&Hr) Hlt. destruct Hr as [Hh Ht]; [lia|]. split.
  - split_and!; simpl; [done|lia|]. intros _. split; [apply Nat.mod_upper_bound; lia|].
    rewrite Nat.Div0.add_mod_idemp_l, Ht. f_equal. lia.
  - unfold contents. destruct (length ch) as [|n] eqn:El; [lia|]. simpl. rewrite ?Nat.sub_0_r, ?El. simpl. rewrite ?Nat.sub_0_r.
    rewrite Nat.add_0_r, Nat.mod_small by done. f_equal. rewrite <- seq_shift, map_map.
    apply map_ext. intros i. f_equal. rewrite Nat.Div0.add_mod_idemp_l. f_equal. lia.
Qed.
End channel.
Arguments channel : clear implicits.
