(* ===== verification/ChannelConc.v ===== *)
(** * ChannelConc: blocking send, receive and close of [src/runtime/channels.c] by any number
    of goroutines on one channel.

    The mutex makes everything between two waits one atomic step, so a thread is the point of
    the C function it is at ([thread]) and [section] runs it to its next [pthread_cond_wait] or
    return.  [asleep] is membership in the condition variable's wait set: a sleeping thread
    runs again only after a signal, a broadcast or a spurious wake-up.  [sent] and [received]
    are history: the elements stored and taken, in the order of the critical sections; the
    [ticket] of a send is its place in [sent]. *)
From Stdlib Require Import ZArith Lia String Bool.
From stdpp Require Import base list relations.
From S2P Require Import Prelude Channel.

Section conc.
Context {V : Type} (zero : V).

Inductive chan_op : Type := OpSend (v : V) | OpRecv | OpClose.

Inductive thread : Type :=
| Call (op : chan_op)                               (* before [goo_mutex_lock] *)
| AwaitSpace (asleep : bool) (v : V)                (* while (length >= capacity && !closed) *)
| AwaitSlot (asleep : bool) (v : V)                 (* while (rv_full && !closed), before parking *)
| AwaitTaken (asleep : bool) (v : V) (ticket : nat) (* while (rv_full && !closed), after parking *)
| AwaitValue (asleep : bool)                        (* while (length == 0 / !rv_full && !closed) *)
| Sent (v : V) (ticket : nat)
| Received (v : V) (ok : bool)
| Closed
| Panicked (msg : string) (parked : option nat).

(** What a critical section does: the channel and the thread afterwards, its wake-ups, and the
    element it stored and took. *)
Record outcome_of : Type := mkOut {
  out_chan : channel V;
  out_thread : thread;
  out_wakes : list wake;
  out_put : list V;
  out_got : list V
}.

Definition closed_send : string := "send on closed channel".

(** [goo_chan_send], capacity > 0, from the wait loop on. *)
Definition send_buffered (ch : channel V) (v : V) (ticket : nat) : outcome_of :=
  if (capacity ch <=? length ch)%nat && negb (closed ch) then mkOut ch (AwaitSpace true v) [] [] []
  else if closed ch then mkOut ch (Panicked closed_send None) [] [] []
  else mkOut (chan_put ch v) (Sent v ticket) [SignalNotEmpty] [v] [].

(** [goo_chan_send], unbuffered, from the first wait loop on; after parking the second loop's
    condition holds, so the thread waits. *)
Definition send_rendezvous (ch : channel V) (v : V) (ticket : nat) : outcome_of :=
  if rv_full ch && negb (closed ch) then mkOut ch (AwaitSlot true v) [] [] []
  else if closed ch then mkOut ch (Panicked closed_send None) [] [] []
  else mkOut (set_slot (Some v) true ch) (AwaitTaken true v ticket) [SignalNotEmpty] [v] [].

(** The second loop and what follows it. *)
Definition send_taken (ch : channel V) (v : V) (ticket : nat) : outcome_of :=
  if rv_full ch && negb (closed ch) then mkOut ch (AwaitTaken true v ticket) [] [] []
  else if rv_full ch then mkOut ch (Panicked closed_send (Some ticket)) [] [] []
  else mkOut ch (Sent v ticket) [] [] [].

Definition goo_chan_send (ch : channel V) (v : V) (ticket : nat) : outcome_of :=
  if closed ch then mkOut ch (Panicked closed_send None) [] [] []
  else if (0 <? capacity ch)%nat then send_buffered ch v ticket
  else send_rendezvous ch v ticket.

Definition slot_value (ch : channel V) : V := from_option id zero (rv_slot ch).

Definition goo_chan_recv (ch : channel V) : outcome_of :=
  if (0 <? capacity ch)%nat then
    if (length ch =? 0)%nat && negb (closed ch) then mkOut ch (AwaitValue true) [] [] []
    else if (length ch =? 0)%nat && closed ch then mkOut ch (Received zero false) [] [] []
    else let '(v, ch') := chan_get zero ch in
         mkOut ch' (Received v true) [BroadcastNotFull] [] [v]
  else
    if negb (rv_full ch) && negb (closed ch) then mkOut ch (AwaitValue true) [] [] []
    else if negb (rv_full ch) && closed ch then mkOut ch (Received zero false) [] [] []
    else mkOut (set_slot (rv_slot ch) false ch) (Received (slot_value ch) true)
               [BroadcastNotFull] [] [slot_value ch].

Definition close_section (ch : channel V) : outcome_of :=
  match goo_chan_close (Some ch) with
  | Ok (ch', w) => mkOut ch' Closed [w] [] []
  | Panic m => mkOut ch (Panicked m None) [] [] []
  end.

(** One critical section of a thread that can run. *)
Definition section (ticket : nat) (ch : channel V) (t : thread) : option outcome_of :=
  match t with
  | Call (OpSend v) => Some (goo_chan_send ch v ticket)
  | Call OpRecv | AwaitValue false => Some (goo_chan_recv ch)
  | Call OpClose => Some (close_section ch)
  | AwaitSpace false v => Some (send_buffered ch v ticket)
  | AwaitSlot false v => Some (send_rendezvous ch v ticket)
  | AwaitTaken false v k => Some (send_taken ch v k)
  | _ => None
  end.

(** ** Wake-ups. *)
Definition wake_full (t : thread) : thread :=
  match t with
  | AwaitSpace _ v => AwaitSpace false v
  | AwaitSlot _ v => AwaitSlot false v
  | AwaitTaken _ v k => AwaitTaken false v k
  | _ => t
  end.
Definition wake_empty (t : thread) : thread :=
  match t with AwaitValue _ => AwaitValue false | _ => t end.
Definition wake_any (t : thread) : thread := wake_empty (wake_full t).

Definition sleeping_rx (t : thread) : bool := match t with AwaitValue true => true | _ => false end.
Definition woken_rx (t : thread) : bool := match t with AwaitValue false => true | _ => false end.

(** [pthread_cond_signal] wakes one waiter, any one, if there is one. *)
Inductive apply_wake : wake -> list thread -> list thread -> Prop :=
| signal_none ts : Forall (fun t => sleeping_rx t = false) ts -> apply_wake SignalNotEmpty ts ts
| signal_one pre post :
    apply_wake SignalNotEmpty (pre ++ AwaitValue true :: post) (pre ++ AwaitValue false :: post)
| broadcast_full ts : apply_wake BroadcastNotFull ts (map wake_full ts)
| broadcast_all ts : apply_wake BroadcastAll ts (map wake_any ts).

Inductive apply_wakes : list wake -> list thread -> list thread -> Prop :=
| wakes_nil ts : apply_wakes [] ts ts
| wakes_cons w ws ts ts' ts'' :
    apply_wake w ts ts' -> apply_wakes ws ts' ts'' -> apply_wakes (w :: ws) ts ts''.

(** ** The system: goroutines call in at any time. *)
Record sys : Type := mkSys {
  chan : channel V;
  threads : list thread;
  sent : list V;
  received : list V
}.

Inductive sys_step : sys -> sys -> Prop :=
| step_call s op :
    sys_step s (mkSys (chan s) (threads s ++ [Call op]) (sent s) (received s))
| step_spurious s pre t post :
    threads s = pre ++ t :: post ->
    sys_step s (mkSys (chan s) (pre ++ wake_any t :: post) (sent s) (received s))
| step_section s pre t post out ts' :
    threads s = pre ++ t :: post ->
    section (List.length (sent s)) (chan s) t = Some out ->
    apply_wakes (out_wakes out) (pre ++ out_thread out :: post) ts' ->
    sys_step s (mkSys (out_chan out) ts' (sent s ++ out_put out) (received s ++ out_got out)).

Definition start (buffer_size : nat) : sys := mkSys (goo_make_chan zero buffer_size) [] [] [].
Definition reachable (n : nat) (s : sys) : Prop := rtc sys_step (start n) s.

(** The elements stored and not yet taken. *)
Definition stored (ch : channel V) : list V :=
  if (0 <? capacity ch)%nat then contents zero ch
  else if rv_full ch then [slot_value ch] else [].

(** ** The invariant. *)
Definition items (ch : channel V) : nat := List.length (stored ch).

Definition thread_ok (ch : channel V) (snt rcv : list V) (t : thread) : Prop :=
  match t with
  | AwaitSpace a v => 0 < capacity ch /\ (a = true -> length ch = capacity ch /\ closed ch = false)
  | AwaitSlot a v => capacity ch = 0 /\ (a = true -> rv_full ch = true /\ closed ch = false)
  | AwaitTaken a v k => capacity ch = 0 /\ snt !! k = Some v /\
      (a = true -> rv_full ch = true /\ closed ch = false)
  | AwaitValue a => a = true -> closed ch = false
  | Sent v k => snt !! k = Some v /\ (capacity ch = 0 -> rcv !! k = Some v)
  | Received v ok => if ok then v ∈ rcv else closed ch = true /\ v = zero /\ rcv = snt
  | Closed => closed ch = true
  | Call _ | Panicked _ _ => True
  end.

Fixpoint count (f : thread -> bool) (ts : list thread) : nat :=
  match ts with [] => 0 | t :: ts' => (if f t then 1 else 0) + count f ts' end.

(** Sleeping receivers imply that every stored item has a woken receiver on its way. *)
Definition rx_ok (ch : channel V) (ts : list thread) : Prop :=
  0 < count sleeping_rx ts -> items ch <= count woken_rx ts.

Definition chan_ok (ch : channel V) (snt rcv : list V) : Prop :=
  ring_wf ch /\ snt = rcv ++ stored ch /\ (capacity ch = 0 -> length ch = 0).

Definition sys_ok (s : sys) : Prop :=
  chan_ok (chan s) (sent s) (received s) /\
  Forall (thread_ok (chan s) (sent s) (received s)) (threads s) /\
  rx_ok (chan s) (threads s).

Lemma count_app f ts ts' : count f (ts ++ ts') = count f ts + count f ts'.
Proof. induction ts; simpl; lia. Qed.

Lemma count_zero f ts : Forall (fun t => f t = false) ts -> count f ts = 0.
Proof. induction 1 as [|t ts H _ IH]; simpl; [done|]. by rewrite H, IH. Qed.

Lemma count_wake_full f ts : (forall t, f (wake_full t) = f t) -> count f (map wake_full ts) = count f ts.
Proof. intros H. induction ts; simpl; [done|]. by rewrite H, IHts. Qed.

Lemma count_wake_any ts : count sleeping_rx (map wake_any ts) = 0.
Proof. apply count_zero, Forall_map, Forall_true. by intros []. Qed.

(** *** What a section may change without disturbing the other threads. *)
Lemma thread_ok_wake_full ch snt rcv t : thread_ok ch snt rcv t -> thread_ok ch snt rcv (wake_full t).
Proof. destruct t; simpl; try done; intuition discriminate. Qed.
Lemma thread_ok_wake_empty ch snt rcv t : thread_ok ch snt rcv t -> thread_ok ch snt rcv (wake_empty t).
Proof. destruct t; simpl; done. Qed.

Lemma wake_ok w ts ts' ch snt rcv : apply_wake w ts ts' ->
  Forall (thread_ok ch snt rcv) ts -> Forall (thread_ok ch snt rcv) ts'.
Proof.
  destruct 1 as [| | |]; intros Hall.
  - done.
  - rewrite Forall_app, Forall_cons in *. destruct Hall as (?&_&?). by split_and!.
  - apply Forall_map. eapply Forall_impl; [exact Hall|]. apply thread_ok_wake_full.
  - apply Forall_map. eapply Forall_impl; [exact Hall|]. intros.
    by apply thread_ok_wake_empty, thread_ok_wake_full.
Qed.

Lemma wakes_ok ws ts ts' ch snt rcv : apply_wakes ws ts ts' ->
  Forall (thread_ok ch snt rcv) ts -> Forall (thread_ok ch snt rcv) ts'.
Proof. induction 1; [done|]. eauto using wake_ok. Qed.

(** A store: senders cannot be asleep while there is room. *)
Lemma thread_ok_put ch ch' snt rcv v t :
  capacity ch' = capacity ch -> closed ch' = closed ch -> snt = rcv ++ stored ch ->
  (0 < capacity ch -> length ch < capacity ch) -> (capacity ch = 0 -> rv_full ch = false) ->
  closed ch = false ->
  thread_ok ch snt rcv t -> thread_ok ch' (snt ++ [v]) rcv t.
Proof.
  intros Ec Ecl Es Hb Hu Hcl. destruct t; simpl; rewrite ?Ec, ?Ecl; try done.
  - intros [? H]. split; [done|]. intros E. destruct (H E). specialize (Hb ltac:(done)). lia.
  - intros [? H]. split; [done|]. intros E. destruct (H E). rewrite Hu in * by done. done.
  - intros (?&?&H). split_and!; [done|by apply lookup_app_l_Some|].
    intros E. destruct (H E). rewrite Hu in * by done. done.
  - intros [? ?]. split; [by apply lookup_app_l_Some|done].
  - destruct ok; [done|]. intros (?&_). congruence.
Qed.

(** A take, whose broadcast wakes every sender. *)
Lemma thread_ok_take ch ch' snt rcv v t :
  capacity ch' = capacity ch -> closed ch' = closed ch -> snt = rcv ++ v :: stored ch' ->
  thread_ok ch snt rcv t -> thread_ok ch' snt (rcv ++ [v]) (wake_full t).
Proof.
  intros Ec Ecl Es. destruct t; simpl; rewrite ?Ec, ?Ecl; try done.
  - by intros [? _].
  - by intros [? _].
  - by intros (?&?&_).
  - intros [? Hr]. split; [done|]. intros E. apply lookup_app_l_Some. by apply Hr.
  - destruct ok; [intros ?; apply elem_of_app; by left|]. intros (?&?&->).
    apply (f_equal List.length) in Es. rewrite length_app in Es. simpl in Es. lia.
Qed.

Lemma thread_ok_close ch snt rcv t :
  thread_ok ch snt rcv t -> thread_ok (set_closed ch) snt rcv (wake_any t).
Proof.
  destruct t; simpl; try done.
  - by intros [? _].
  - by intros [? _].
  - by intros (?&?&_).
  - destruct ok; [done|]. by intros (_&?&?).
Qed.

(** *** The receivers' half. *)
Lemma rx_ok_replace ch pre t t' post :
  sleeping_rx t = sleeping_rx t' -> woken_rx t = woken_rx t' ->
  rx_ok ch (pre ++ t :: post) -> rx_ok ch (pre ++ t' :: post).
Proof. intros E1 E2. unfold rx_ok. rewrite !count_app. simpl. by rewrite E1, E2. Qed.

Lemma rx_ok_empty ch ts : items ch = 0 -> rx_ok ch ts.
Proof. intros H _. lia. Qed.

Lemma rx_ok_signal ch ch' ts ts' : items ch' = items ch + 1 ->
  apply_wakes [SignalNotEmpty] ts ts' -> rx_ok ch ts -> rx_ok ch' ts'.
Proof.
  intros Ei H Hrx. inversion H as [|? ? ? ? ? Hw Hn]; subst. inversion Hn; subst.
  inversion Hw; subst; unfold rx_ok in *.
  - rewrite count_zero by done. lia.
  - rewrite !count_app in *. simpl in *. lia.
Qed.

Lemma rx_ok_take ch ch' pre t post v ts' : items ch = S (items ch') ->
  sleeping_rx t = false ->
  apply_wakes [BroadcastNotFull] (pre ++ Received v true :: post) ts' ->
  rx_ok ch (pre ++ t :: post) -> rx_ok ch' ts'.
Proof.
  intros Ei Et H Hrx. inversion H as [|? ? ? ? ? Hw Hn]; subst. inversion Hn; subst.
  inversion Hw; subst. unfold rx_ok in *.
  rewrite !count_wake_full by (by intros []). rewrite !count_app in *. simpl in *.
  rewrite Et in Hrx. destruct (woken_rx t); lia.
Qed.

(** *** The stored elements. *)
Lemma stored_put ch v : ring_wf ch ->
  0 < capacity ch -> length ch < capacity ch -> stored (chan_put ch v) = stored ch ++ [v].
Proof.
  intros Hwf Hc Hl. unfold stored. simpl. apply Nat.ltb_lt in Hc as ->.
  by apply put_contents.
Qed.

Lemma stored_take ch : ring_wf ch -> 0 < capacity ch -> 0 < length ch ->
  stored ch = (chan_get zero ch).1 :: stored (chan_get zero ch).2.
Proof.
  intros Hwf Hc Hl. unfold stored. simpl. apply Nat.ltb_lt in Hc as ->. by apply get_contents.
Qed.

Lemma items_ring ch : 0 < capacity ch -> items ch = length ch.
Proof. intros Hc. unfold items, stored. apply Nat.ltb_lt in Hc as ->. apply contents_length. Qed.

Lemma stored_slot ch : capacity ch = 0 -> stored ch = if rv_full ch then [slot_value ch] else [].
Proof. intros Hc. unfold stored. by rewrite Hc. Qed.

(** *** The four effects a critical section can have. *)
Inductive effect (ch : channel V) (snt rcv : list V) (t : thread) : outcome_of -> Prop :=
| eff_quiet t' :
    thread_ok ch snt rcv t' ->
    (sleeping_rx t' = false /\ woken_rx t' = woken_rx t \/ items ch = 0) ->
    effect ch snt rcv t (mkOut ch t' [] [] [])
| eff_put ch' t' v :
    capacity ch' = capacity ch -> closed ch = false -> closed ch' = false ->
    (0 < capacity ch -> length ch < capacity ch) -> (capacity ch = 0 -> rv_full ch = false) ->
    ring_wf ch' -> stored ch' = stored ch ++ [v] -> (capacity ch = 0 -> length ch' = 0) ->
    woken_rx t = false -> sleeping_rx t' = false -> woken_rx t' = false ->
    thread_ok ch' (snt ++ [v]) rcv t' ->
    effect ch snt rcv t (mkOut ch' t' [SignalNotEmpty] [v] [])
| eff_take ch' v :
    capacity ch' = capacity ch -> closed ch' = closed ch ->
    ring_wf ch' -> stored ch = v :: stored ch' -> (capacity ch = 0 -> length ch' = 0) ->
    effect ch snt rcv t (mkOut ch' (Received v true) [BroadcastNotFull] [] [v])
| eff_close : effect ch snt rcv t (mkOut (set_closed ch) Closed [BroadcastAll] [] []).

Section effects.
Context (ch : channel V) (snt rcv : list V) (Hok : chan_ok ch snt rcv).

Lemma send_buffered_effect t v : woken_rx t = false -> 0 < capacity ch ->
  effect ch snt rcv t (send_buffered ch v (List.length snt)).
Proof.
  intros Ht Hc. destruct Hok as (Hwf&Es&_). unfold send_buffered.
  destruct (Nat.leb_spec (capacity ch) (length ch)) as [Hf|Hf], (closed ch) eqn:Ecl; simpl.
  - apply eff_quiet; [done|]. rewrite Ht. by left.
  - apply eff_quiet; [|by left]. split; [done|]. intros _. destruct Hwf as (_&?&_). split; [lia|done].
  - apply eff_quiet; [done|]. rewrite Ht. by left.
  - destruct (put_contents zero ch v Hwf Hf) as [Hwf' _]. apply eff_put; try done; [lia|by apply stored_put|lia|].
    split; [by apply list_lookup_middle|]. simpl. lia.
Qed.

Lemma send_rendezvous_effect t v : woken_rx t = false -> capacity ch = 0 ->
  effect ch snt rcv t (send_rendezvous ch v (List.length snt)).
Proof.
  intros Ht Hc. destruct Hok as (Hwf&Es&Hl0). unfold send_rendezvous.
  destruct (rv_full ch) eqn:Ef, (closed ch) eqn:Ecl; simpl.
  - apply eff_quiet; [done|]. rewrite Ht. by left.
  - apply eff_quiet; [by split|]. by left.
  - apply eff_quiet; [done|]. rewrite Ht. by left.
  - apply eff_put; try done; [lia| |].
    + unfold stored. simpl. by rewrite Hc, Ef.
    + split_and!; [done|by apply list_lookup_middle|]. by intros _.
Qed.

Lemma send_taken_effect v k : thread_ok ch snt rcv (AwaitTaken false v k) ->
  effect ch snt rcv (AwaitTaken false v k) (send_taken ch v k).
Proof.
  intros (Hc&Hk&_). destruct Hok as (Hwf&Es&_). unfold send_taken.
  destruct (rv_full ch) eqn:Ef, (closed ch) eqn:Ecl; simpl; apply eff_quiet; try done; try by left.
  all: split; [done|]; intros _; rewrite stored_slot in Es by done; rewrite Ef, app_nil_r in Es;
    by rewrite <- Es.
Qed.

Lemma recv_effect t : effect ch snt rcv t (goo_chan_recv ch).
Proof.
  destruct Hok as (Hwf&Es&Hl0). unfold goo_chan_recv.
  destruct (Nat.ltb_spec 0 (capacity ch)) as [Hc|Hc].
  - pose proof (items_ring ch Hc) as Ei.
    destruct (Nat.eqb_spec (length ch) 0) as [El|El]; [destruct (closed ch) eqn:Ecl|]; simpl.
    + apply eff_quiet; [|right; lia]. split_and!; [done|done|].
      rewrite Es. destruct (stored ch) eqn:E; [by rewrite app_nil_r|]. unfold items in Ei. rewrite E in Ei. simpl in Ei. lia.
    + apply eff_quiet; [by intros _|right; lia].
    + pose proof (get_contents zero ch Hwf ltac:(lia)) as [Hwf' _].
      pose proof (stored_take ch Hwf Hc ltac:(lia)) as Est.
      destruct (chan_get zero ch) as [v ch'] eqn:Eg. simpl in *.
      unfold chan_get in Eg. injection Eg as <- <-. apply eff_take; try done; simpl; lia.
  - assert (Hc0 : capacity ch = 0) by lia. pose proof (stored_slot ch Hc0) as Est.
    destruct (rv_full ch) eqn:Ef; [|destruct (closed ch) eqn:Ecl]; simpl.
    + apply eff_take; try done. rewrite Est. unfold stored. simpl. by rewrite Hc0.
    + apply eff_quiet; [|right; unfold items; by rewrite Est]. split_and!; [done|done|].
      by rewrite Es, Est, app_nil_r.
    + apply eff_quiet; [by intros _|right; unfold items; by rewrite Est].
Qed.

Lemma close_effect : effect ch snt rcv (Call OpClose) (close_section ch).
Proof.
  unfold close_section, goo_chan_close. destruct (closed ch); [|apply eff_close].
  apply eff_quiet; [done|by left].
Qed.

Lemma section_effect t out : thread_ok ch snt rcv t ->
  section (List.length snt) ch t = Some out -> effect ch snt rcv t out /\ sleeping_rx t = false.
Proof.
  intros Ht. destruct t as [[v| |]|[] v|[] v|[] v k|[]| | | |]; simpl; try done; intros [= <-]; split; try done.
  - unfold goo_chan_send. destruct (closed ch) eqn:Ecl; [apply eff_quiet; [done|by left]|].
    destruct (Nat.ltb_spec 0 (capacity ch)); [by apply send_buffered_effect|].
    apply send_rendezvous_effect; [done|lia].
  - apply recv_effect.
  - apply close_effect.
  - apply send_buffered_effect; [done|]. apply Ht.
  - apply send_rendezvous_effect; [done|]. apply Ht.
  - by apply send_taken_effect.
  - apply recv_effect.
Qed.
End effects.

(** *** Preservation. *)
Lemma effect_ok ch snt rcv pre t post out ts' :
  chan_ok ch snt rcv -> Forall (thread_ok ch snt rcv) (pre ++ t :: post) ->
  rx_ok ch (pre ++ t :: post) -> effect ch snt rcv t out -> sleeping_rx t = false ->
  apply_wakes (out_wakes out) (pre ++ out_thread out :: post) ts' ->
  sys_ok (mkSys (out_chan out) ts' (snt ++ out_put out) (rcv ++ out_got out)).
Proof.
  intros (Hwf&Es&Hl0) Hall Hrx He Ht Hw. rewrite Forall_app, Forall_cons in Hall.
  destruct Hall as (Hpre&Hself&Hpost).
  destruct He as [t' Ht' Hcase|ch' t' v Ec Ecl Ecl' Hb Hu Hwf' Est Hl' Hwt Hst' Hwt' Ht'
                 |ch' v Ec Ecl Hwf' Est Hl'|]; simpl in *.
  - inversion Hw; subst. rewrite !app_nil_r. split_and!; [by split_and!| |].
    + apply Forall_app. split; [done|by constructor].
    + simpl. destruct Hcase as [[E1 E2]|E0]; [|by apply rx_ok_empty].
      eapply rx_ok_replace; [..|exact Hrx]; congruence.
  - assert (Hok : forall u, thread_ok ch snt rcv u -> thread_ok ch' (snt ++ [v]) rcv u).
    { intros u. apply thread_ok_put; try done. congruence. }
    rewrite app_nil_r. split_and!; simpl.
    + split_and!; [done| |by rewrite Ec]. rewrite Est, Es. by rewrite app_assoc.
    + eapply wakes_ok; [exact Hw|]. apply Forall_app. split; [|constructor; [done|]];
        by (eapply Forall_impl; [eassumption|]).
    + eapply rx_ok_signal; [|exact Hw|eapply rx_ok_replace; [..|exact Hrx]; congruence].
      unfold items. rewrite Est, length_app. done.
  - rewrite app_nil_r. split_and!; simpl.
    + split_and!; [done| |by rewrite Ec]. rewrite <- app_assoc. simpl. by rewrite Es, Est.
    + inversion Hw as [|? ? ? ? ? Hb Hn]; subst. inversion Hn; subst. inversion Hb; subst.
      assert (Hok : forall u, thread_ok ch (rcv ++ stored ch) rcv u ->
                thread_ok ch' (rcv ++ stored ch) (rcv ++ [v]) (wake_full u)).
      { intros u. apply thread_ok_take; try done. by rewrite Est. }
      apply Forall_map, Forall_app. split; [by eapply Forall_impl; [exact Hpre|]|].
      constructor; [simpl; apply elem_of_app; right; by left|].
      by eapply Forall_impl; [exact Hpost|].
    + eapply rx_ok_take; [|exact Ht|exact Hw|exact Hrx]. unfold items. by rewrite Est.
  - rewrite !app_nil_r. inversion Hw as [|? ? ? ? ? Hb Hn]; subst. inversion Hn; subst.
    inversion Hb; subst. split_and!; simpl; [by split_and!| |].
    + apply Forall_map, Forall_app. split; [|constructor; [done|]];
        (eapply Forall_impl; [eassumption|]; intros u; apply thread_ok_close).
    + unfold rx_ok. rewrite count_wake_any. lia.
Qed.

Lemma rx_ok_spurious ch pre t post :
  rx_ok ch (pre ++ t :: post) -> rx_ok ch (pre ++ wake_any t :: post).
Proof.
  unfold rx_ok. rewrite !count_app. simpl. destruct t as [| | | |[]| | | |]; simpl; lia.
Qed.

Lemma sys_step_ok s s' : sys_ok s -> sys_step s s' -> sys_ok s'.
Proof.
  intros (Hch&Hall&Hrx) Hs. destruct Hs as [s op|s pre t post E|s pre t post out ts' E Hsec Hw].
  - split_and!; simpl; [done|by apply Forall_app; split; [|repeat constructor]|].
    unfold rx_ok in *. rewrite !count_app. simpl. rewrite !Nat.add_0_r. exact Hrx.
  - rewrite E in *. split_and!; simpl; [done| |by apply rx_ok_spurious].
    rewrite Forall_app, Forall_cons in *. destruct Hall as (?&?&?). split_and!; try done.
    by apply thread_ok_wake_empty, thread_ok_wake_full.
  - rewrite E in *. pose proof Hall as Ht. rewrite Forall_app, Forall_cons in Ht.
    destruct Ht as (_&Ht&_). destruct (section_effect _ _ _ Hch _ _ Ht Hsec).
    by eapply effect_ok.
Qed.

Lemma reachable_ok n s : reachable n s -> sys_ok s.
Proof.
  intros H. unfold reachable in H. revert s H. apply rtc_ind_r.
  - split_and!; [|by constructor|unfold rx_ok; simpl; lia]. split_and!; [apply make_chan_wf| |done].
    unfold stored. simpl. by destruct (0 <? n)%nat.
  - intros y z _ Hs Hy. by eapply sys_step_ok.
Qed.

Lemma step_capacity s s' : sys_step s s' -> capacity (chan s') = capacity (chan s).
Proof.
  destruct 1 as [| |s pre t post out ts' E Hsec Hw]; simpl; try done. revert Hsec.
  destruct t as [[v| |]|[] v|[] v|[] v k|[]| | | |]; simpl; try done; intros [= <-];
    unfold goo_chan_send, send_buffered, send_rendezvous, send_taken, goo_chan_recv, close_section,
      goo_chan_close, chan_get; repeat case_match; simplify_eq/=; done.
Qed.

Lemma reachable_capacity n s : reachable n s -> capacity (chan s) = n.
Proof.
  intros H. unfold reachable in H. revert s H. apply rtc_ind_r; [done|].
  intros y z _ Hs <-. by apply step_capacity.
Qed.
End conc.
Arguments sys : clear implicits.
Arguments thread : clear implicits.

(** ** Properties. *)
Section properties.
Context {V : Type} (zero : V).

(** C6: first in, first out.  In every reachable state of any number of goroutines sending,
    receiving and closing on one channel, the elements received so far followed by those still
    stored (ring buffer or rendezvous slot) are exactly the elements sent, in order: nothing is
    lost, duplicated or reordered; and the store never exceeds its capacity (one when unbuffered). *)
Theorem channel_fifo n s : reachable zero n s ->
  sent s = received s ++ stored zero (chan s) /\
  List.length (stored zero (chan s)) <= Nat.max n 1.
Proof.
  intros H. pose proof (reachable_capacity zero n s H) as Hn.
  destruct (reachable_ok zero n s H) as (((_&Hl&_)&Es&_)&_). split; [exact Es|].
  unfold stored. rewrite Hn in *. destruct (0 <? n)%nat; [rewrite contents_length; lia|].
  destruct (rv_full (chan s)); simpl; lia.
Qed.

(** rendezvous.  On an unbuffered channel a send that has returned was received: whenever
    a goroutine's send of [v] (the [k]-th value parked) has returned success, the [k]-th value
    received is [v]. *)
Theorem rendezvous_delivered s v k : reachable zero 0 s -> In (Sent v k) (threads s) ->
  received s !! k = Some v.
Proof.
  intros H Hin. pose proof (reachable_capacity zero 0 s H) as Hn.
  destruct (reachable_ok zero 0 s H) as (_&Hall&_). rewrite List.Forall_forall in Hall.
  destruct (Hall _ Hin) as [_ Hr]. by apply Hr.
Qed.

(** comma-ok.  A receive reports a closed channel only when the channel is closed and every
    value ever sent has been received, and it then yields the zero value; a successful receive
    yields a value that was sent. *)
Theorem recv_ok_contract n s v ok : reachable zero n s -> In (Received v ok) (threads s) ->
  if ok then v ∈ sent s else closed (chan s) = true /\ v = zero /\ received s = sent s.
Proof.
  intros H Hin. destruct (reachable_ok zero n s H) as ((_&Es&_)&Hall&_).
  rewrite List.Forall_forall in Hall. specialize (Hall _ Hin). simpl in Hall.
  destruct ok; [|exact Hall]. rewrite Es. apply elem_of_app. by left.
Qed.

(** Nobody can run: no call is pending and every waiting thread sleeps. *)
Definition quiescent (s : sys V) : Prop :=
  Forall (fun t => section zero (List.length (sent s)) (chan s) t = None) (threads s).

Definition waiting_sender (t : thread V) : Prop :=
  match t with AwaitSpace _ _ | AwaitSlot _ _ | AwaitTaken _ _ _ => True | _ => False end.

Lemma quiescent_no_woken s : quiescent s -> count woken_rx (threads s) = 0.
Proof.
  intros H. apply count_zero. eapply Forall_impl; [exact H|]. by intros [| | | |[]| | | |].
Qed.

Lemma count_in f (ts : list (thread V)) t : In t ts -> f t = true -> 0 < count f ts.
Proof.
  intros Hin Hf. induction ts as [|u ts IH]; [done|]. simpl.
  destruct Hin as [->|Hin]; [rewrite Hf; lia|]. specialize (IH Hin). lia.
Qed.

(** C7: no lost wake-up.  If no goroutine can run and some receiver sleeps, then the channel is
    open and empty and no sender waits: a receiver and a sender are never both parked on one
    channel, whatever the order of the calls, signals and broadcasts. *)
Theorem no_lost_wakeup n s : reachable zero n s -> quiescent s -> In (AwaitValue true) (threads s) ->
  stored zero (chan s) = [] /\ closed (chan s) = false /\
  Forall (fun t => ~ waiting_sender t) (threads s).
Proof.
  intros H Hq Hin. pose proof (reachable_capacity zero n s H) as Hn.
  destruct (reachable_ok zero n s H) as (_&Hall&Hrx). rewrite List.Forall_forall in Hall.
  assert (Hi : items zero (chan s) = 0).
  { assert (items zero (chan s) <= count woken_rx (threads s)) as Hle
      by (apply Hrx; by eapply count_in).
    rewrite quiescent_no_woken in Hle by done. lia. }
  split_and!; [by apply length_zero_iff_nil|by apply (Hall _ Hin)|].
  apply List.Forall_forall. intros t Ht Hw. specialize (Hall _ Ht).
  unfold quiescent in Hq. rewrite List.Forall_forall in Hq. specialize (Hq _ Ht).
  destruct t as [|[] ?|[] ?|[] ? ?| | | | |]; simpl in *; try done.
  - destruct Hall as [Hc Hf]. rewrite items_ring in Hi by done. destruct (Hf eq_refl). lia.
  - destruct Hall as [Hc Hf]. destruct (Hf eq_refl) as [E _]. unfold items in Hi.
    by rewrite stored_slot, E in Hi.
  - destruct Hall as (Hc&_&Hf). destruct (Hf eq_refl) as [E _]. unfold items in Hi.
    by rewrite stored_slot, E in Hi.
Qed.

Definition is_asleep (t : thread V) : bool :=
  match t with
  | AwaitSpace a _ | AwaitSlot a _ | AwaitTaken a _ _ | AwaitValue a => a
  | _ => false
  end.

(** close releases everybody: once the channel is closed no goroutine sleeps on it, now or
    in any later state. *)
Theorem close_wakes_all n s : reachable zero n s -> closed (chan s) = true ->
  Forall (fun t => is_asleep t = false) (threads s).
Proof.
  intros H Hc. destruct (reachable_ok zero n s H) as (_&Hall&_).
  eapply Forall_impl; [exact Hall|]. intros t Ht.
  destruct t as [|[] ?|[] ?|[] ? ?|[]| | | |]; simpl in *; try done.
  - destruct Ht as [_ Hf]. destruct (Hf eq_refl). congruence.
  - destruct Ht as [_ Hf]. destruct (Hf eq_refl). congruence.
  - destruct Ht as (_&_&Hf). destruct (Hf eq_refl). congruence.
  - rewrite Ht in Hc; done.
Qed.
End properties.

(** ** Concrete runs.  [run_at i] runs the [i]-th thread's critical section, picking the first
    sleeping receiver for a signal. *)
Fixpoint signal_first {V} (ts : list (thread V)) : list (thread V) :=
  match ts with
  | [] => []
  | AwaitValue true :: ts' => AwaitValue false :: ts'
  | t :: ts' => t :: signal_first ts'
  end.
Definition wake_exec {V} (w : wake) (ts : list (thread V)) : list (thread V) :=
  match w with
  | SignalNotEmpty => signal_first ts
  | BroadcastNotFull => map wake_full ts
  | BroadcastAll => map wake_any ts
  end.

Lemma signal_first_spec {V} (ts : list (thread V)) : apply_wake SignalNotEmpty ts (signal_first ts).
Proof.
  assert (H : Forall (fun t => sleeping_rx t = false) ts /\ signal_first ts = ts \/
    exists pre post, ts = pre ++ AwaitValue true :: post /\ signal_first ts = pre ++ AwaitValue false :: post).
  { induction ts as [|t ts IH]; [by left|]. destruct (sleeping_rx t) eqn:E.
    - destruct t as [| | | |[]| | | |]; try done. right. by exists [], ts.
    - assert (Es : signal_first (t :: ts) = t :: signal_first ts) by (by destruct t as [| | | |[]| | | |]).
      rewrite Es. destruct IH as [[Hf ->]|(pre&post&->&->)]; [left; split; [by constructor|done]|].
      right. by exists (t :: pre), post. }
  destruct H as [[Hf ->]|(pre&post&->&->)]; constructor; done.
Qed.

Lemma wakes_exec_spec {V} ws (ts : list (thread V)) : apply_wakes ws ts (foldl (fun l w => wake_exec w l) ts ws).
Proof.
  revert ts. induction ws as [|w ws IH]; intros ts; [constructor|]. simpl. econstructor; [|apply IH].
  destruct w; simpl; [apply signal_first_spec|constructor..].
Qed.

Inductive event (V : Type) : Type := Calls (op : chan_op (V := V)) | Runs (i : nat).
Arguments Calls {V} _.
Arguments Runs {V} _.

Definition exec_event {V} (zero : V) (s : sys V) (e : event V) : option (sys V) :=
  match e with
  | Calls op => Some (mkSys (chan s) (threads s ++ [Call op]) (sent s) (received s))
  | Runs i =>
      match drop i (threads s) with
      | t :: post =>
          match section zero (List.length (sent s)) (chan s) t with
          | Some out =>
              Some (mkSys (out_chan out)
                     (foldl (fun l w => wake_exec w l) (take i (threads s) ++ out_thread out :: post) (out_wakes out))
                     (sent s ++ out_put out) (received s ++ out_got out))
          | None => None
          end
      | [] => None
      end
  end.

Fixpoint exec {V} (zero : V) (s : sys V) (es : list (event V)) : option (sys V) :=
  match es with
  | [] => Some s
  | e :: es' => match exec_event zero s e with Some s' => exec zero s' es' | None => None end
  end.

Lemma exec_steps {V} (zero : V) es : forall s s', exec zero s es = Some s' -> rtc (sys_step zero) s s'.
Proof.
  induction es as [|e es IH]; intros s s'; simpl; [by intros [= ->]|].
  destruct (exec_event zero s e) as [s1|] eqn:E; [|done]. intros H. eapply rtc_l; [|by apply IH].
  destruct e as [op|i]; simpl in E; [injection E as <-; constructor|].
  destruct (drop i (threads s)) as [|t post] eqn:Ed; [done|].
  destruct (section zero _ (chan s) t) as [out|] eqn:Es; [|done]. injection E as <-.
  eapply step_section; [|exact Es|apply wakes_exec_spec].
  by rewrite <- Ed, take_drop.
Qed.

Definition example_events : list (event nat) :=
  [Calls OpRecv; Runs 0; Calls (OpSend 5); Runs 1; Runs 0; Runs 1; Calls OpClose; Runs 2; Calls OpRecv; Runs 3].

Lemma example_reachable : exists s, exec 0 (start 0 0) example_events = Some s /\ reachable 0 0 s /\
  threads s = [Received 5 true; Sent 5 0; Closed; Received 0 false].
Proof.
  eexists. split; [vm_compute; reflexivity|]. split; [|reflexivity].
  by eapply (exec_steps 0 example_events).
Qed.

Lemma channel_fifo_witness : exists s : sys nat, sent s = [5] /\ sent s = received s ++ stored 0 (chan s).
Proof.
  destruct example_reachable as (s&E&H&_). exists s. split.
  - vm_compute in E. by injection E as <-.
  - apply (channel_fifo 0 0 s H).
Defined.

Lemma rendezvous_delivered_witness : exists s : sys nat, received s !! 0 = Some 5.
Proof.
  destruct example_reachable as (s&_&H&Et). exists s.
  apply (rendezvous_delivered 0 s 5 0 H). rewrite Et. by right; left.
Defined.

Lemma recv_ok_contract_witness : exists s : sys nat,
  closed (chan s) = true /\ 0 = 0 /\ received s = sent s.
Proof.
  destruct example_reachable as (s&_&H&Et). exists s.
  apply (recv_ok_contract 0 0 s 0 false H). rewrite Et. by right; right; right; left.
Defined.

Lemma no_lost_wakeup_witness : exists s : sys nat,
  threads s = [AwaitValue true] /\ stored 0 (chan s) = [].
Proof.
  assert (H : reachable 0 2 (mkSys (goo_make_chan 0 2) [AwaitValue true] [] [])).
  { by eapply (exec_steps 0 [Calls OpRecv; Runs 0]). }
  exists (mkSys (goo_make_chan 0 2) [AwaitValue true] [] []). split; [reflexivity|].
  apply (no_lost_wakeup 0 2 _ H); [by repeat constructor|by left].
Defined.

Lemma close_wakes_all_witness : exists s : sys nat,
  closed (chan s) = true /\ Forall (fun t => is_asleep t = false) (threads s).
Proof.
  destruct example_reachable as (s&E&H&_). exists s.
  assert (Hc : closed (chan s) = true) by (vm_compute in E; by injection E as <-).
  split; [exact Hc|]. exact (close_wakes_all 0 0 s H Hc).
Defined.

Definition race : list (event nat) :=
  [Calls (OpSend 1); Calls (OpSend 2); Calls OpRecv; Runs 0; Runs 1; Runs 2; Runs 1; Runs 0].
Definition race_then_close : list (event nat) := race ++ [Calls OpClose; Runs 3; Runs 0].

Lemma race_reachable : exists s, exec 0 (start 0 0) race = Some s /\ reachable 0 0 s.
Proof.
  eexists. split; [vm_compute; reflexivity|]. eapply (exec_steps 0 race). vm_compute. reflexivity.
Qed.

Lemma race_close_reachable : exists s, exec 0 (start 0 0) race_then_close = Some s /\ reachable 0 0 s.
Proof.
  eexists. split; [vm_compute; reflexivity|]. eapply (exec_steps 0 race_then_close).
  vm_compute. reflexivity.
Qed.

(** a delivered send can still be stuck, or panic.  Two senders and a receiver on an
    unbuffered channel reach a state where the first sender's value has been received, nobody
    can run, and that sender still sleeps, because the second sender refilled the slot before
    it woke; if the channel is then closed, the delivered send panics. *)
Theorem delivered_send_stuck :
  (exists s : sys nat, reachable 0 0 s /\ quiescent 0 s /\
     In (AwaitTaken true 1 0) (threads s) /\ received s !! 0 = Some 1) /\
  (exists s : sys nat, reachable 0 0 s /\
     In (Panicked closed_send (Some 0)) (threads s) /\ received s !! 0 = Some 1).
Proof.
  split.
  - destruct race_reachable as (s&E&H). exists s. vm_compute in E. injection E as <-.
    split; [exact H|]. split; [by repeat constructor|]. split; [by left|done].
  - destruct race_close_reachable as (s&E&H). exists s. vm_compute in E. injection E as <-.
    split; [exact H|]. split; [by left|done].
Qed.
