(* ===== verification/ChannelStore.v ===== *)
(** * ChannelStore: select and the channel patterns of [src/runtime/channels.c].

    Several channels in a store; a channel pointer is a key ([None] is NULL).  A result is a
    [call]: a value, a panic, [Dangling] when the code followed a pointer to no channel, or
    [NoFuel] when a loop was cut short.  [try_lock] gives the answers of [goo_mutex_try_lock].
    The wake-ups of the operations are dropped here ([ChannelConc] treats them). *)
From Stdlib Require Import ZArith Lia String Bool.
From stdpp Require Import base list gmap.
From S2P Require Import Prelude Channel.

Inductive call (A : Type) : Type :=
| Value (a : A)
| Panics (msg : string)
| Dangling
| NoFuel.
Arguments Value {A} _.
Arguments Panics {A} _.
Arguments Dangling {A}.
Arguments NoFuel {A}.

Definition cbind {A B} (m : call A) (f : A -> call B) : call B :=
  match m with Value a => f a | Panics s => Panics s | Dangling => Dangling | NoFuel => NoFuel end.
Definition of_outcome {A} (m : outcome A) : call A :=
  match m with Ok a => Value a | Panic s => Panics s end.

Declare Scope call_scope.
Notation "'do' x <- m ; k" := (cbind m (fun x => k))
  (at level 200, x pattern, m at level 100, k at level 200) : call_scope.
Local Open Scope call_scope.

Section store.
Context {V : Type} (zero : V).
Abbreviation store := (gmap nat (channel V)).

Definition deref (h : store) (p : nat) : call (channel V) :=
  match h !! p with Some ch => Value ch | None => Dangling end.

(** ** Single-channel operations on a pointer. *)
Definition try_send (got_lock : bool) (h : store) (p : option nat) (v : V) : call (bool * store) :=
  match p with
  | None => Value (false, h)
  | Some p =>
      do ch <- deref h p;
      do (ok, ch', _) <- of_outcome (goo_chan_try_send got_lock ch v);
      Value (ok, <[p := ch']> h)
  end.

Definition try_recv (got_lock : bool) (h : store) (p : option nat) : call (bool * option V * store) :=
  match p with
  | None => Value (false, None, h)
  | Some p =>
      do ch <- deref h p;
      let '(ok, v, ch', _) := goo_chan_try_recv zero got_lock ch in
      Value (ok, v, <[p := ch']> h)
  end.

Definition goo_chan_free (h : store) (p : option nat) : call store :=
  match p with
  | None => Value h
  | Some p => do _ <- deref h p; Value (delete p h)
  end.

(** ** Select. *)
Record select_case : Type := mkCase {
  case_channel : option nat;
  case_data : V;
  is_send : bool;
  ready : bool
}.

Definition set_case (c : select_case) (d : V) (r : bool) : select_case :=
  mkCase (case_channel c) d (is_send c) r.

(** One pass over the cases from index [i]: the index taken, the cases and the store after. *)
Fixpoint select_scan (try_lock : nat -> bool) (h : store) (cases : list select_case) (i : nat)
    : call (option nat * list select_case * store) :=
  match cases with
  | [] => Value (None, [], h)
  | c :: rest =>
      do (ok, d, h') <-
        (if is_send c
         then do (ok, h') <- try_send (try_lock i) h (case_channel c) (case_data c);
              Value (ok, case_data c, h')
         else do (ok, v, h') <- try_recv (try_lock i) h (case_channel c);
              Value (ok, from_option id (case_data c) v, h'));
      if ok then Value (Some i, set_case c d true :: rest, h')
      else do (r, rest', h'') <- select_scan try_lock h' rest (S i);
           Value (r, set_case c d false :: rest', h'')
  end.

(** Between polls the other goroutines act: [others] changes the store; [now] is the clock at
    each poll. *)
Fixpoint select_loop (fuel : nat) (try_lock : nat -> nat -> bool) (others : nat -> store -> store)
    (now : nat -> Z) (timeout_ns deadline : Z) (round : nat) (h : store) (cases : list select_case)
    : call (Z * list select_case * store) :=
  match fuel with
  | O => NoFuel
  | S f =>
      do (r, cases', h') <- select_scan (try_lock round) h cases 0;
      match r with
      | Some i => Value (Z.of_nat i, cases', h')
      | None =>
          if (timeout_ns =? 0)%Z then Value (-1, cases', h')%Z
          else if (0 <? timeout_ns)%Z && (deadline <=? now round)%Z then Value (-1, cases', h')%Z
          else select_loop f try_lock others now timeout_ns deadline (S round) (others round h') cases'
      end
  end.

Definition goo_select (fuel : nat) (try_lock : nat -> nat -> bool) (others : nat -> store -> store)
    (started : Z) (now : nat -> Z) (timeout_ns : Z) (h : store) (cases : list select_case)
    : call (Z * list select_case * store) :=
  match cases with
  | [] => Value (-1, [], h)%Z
  | _ =>
      let deadline := if (0 <? timeout_ns)%Z then u64 (started + timeout_ns) else 0%Z in
      select_loop fuel try_lock others now timeout_ns deadline 0 h cases
  end.

(** ** Publish/subscribe. *)
Definition same_sub (s : nat) (x : goo_subscriber) : bool := (sub_channel x =? s)%nat.

Fixpoint reactivate (s : nat) (subs : list goo_subscriber) : list goo_subscriber :=
  match subs with
  | [] => []
  | x :: rest => if same_sub s x then mkSub s true :: rest else x :: reactivate s rest
  end.

Fixpoint unlink_sub (s : nat) (subs : list goo_subscriber) : list goo_subscriber :=
  match subs with
  | [] => []
  | x :: rest => if same_sub s x then rest else x :: unlink_sub s rest
  end.

Definition has_pattern (ch : channel V) (p : goo_channel_pattern_t) : bool := bool_decide (pattern ch = p).

Definition goo_chan_subscribe (h : store) (publisher subscriber : option nat) : call (bool * store) :=
  match publisher, subscriber with
  | Some p, Some s =>
      do cp <- deref h p;
      do cs <- deref h s;
      if negb (has_pattern cp GOO_CHANNEL_PUB) || negb (has_pattern cs GOO_CHANNEL_SUB)
      then Value (false, h)
      else match pattern_data cp with
           | PubData subs n =>
               if existsb (same_sub s) subs
               then Value (true, <[p := set_data (PubData (reactivate s subs) n) cp]> h)
               else Value (true, <[s := set_data (SubData (Some p)) cs]>
                                   (<[p := set_data (PubData (mkSub s true :: subs) (S n)) cp]> h))
           | _ => Dangling
           end
  | _, _ => Value (false, h)
  end.

Definition goo_chan_unsubscribe (h : store) (publisher subscriber : option nat) : call (bool * store) :=
  match publisher, subscriber with
  | Some p, Some s =>
      do cp <- deref h p;
      do cs <- deref h s;
      if negb (has_pattern cp GOO_CHANNEL_PUB) || negb (has_pattern cs GOO_CHANNEL_SUB)
      then Value (false, h)
      else match pattern_data cp with
           | PubData subs n =>
               if existsb (same_sub s) subs
               then Value (true, <[s := set_data (SubData None) cs]>
                                   (<[p := set_data (PubData (unlink_sub s subs) (n - 1)) cp]> h))
               else Value (false, h)
           | _ => Dangling
           end
  | _, _ => Value (false, h)
  end.

(** ** Request/reply and push/pull. *)
Definition goo_chan_pair_req_rep (h : store) (req rep : option nat) : call (bool * store) :=
  match req, rep with
  | Some q, Some r =>
      do cq <- deref h q;
      do cr <- deref h r;
      if negb (has_pattern cq GOO_CHANNEL_REQ) || negb (has_pattern cr GOO_CHANNEL_REP)
      then Value (false, h)
      else Value (true, <[r := set_data (ReqRepData (Some q) 0) cr]>
                          (<[q := set_data (ReqRepData (Some r) 0) cq]> h))
  | _, _ => Value (false, h)
  end.

Definition worker_list (w : workers_ptr) : list nat := match w with Workers ws => ws | _ => [] end.

Definition goo_chan_add_worker (h : store) (push pull : option nat) : call (bool * store) :=
  match push, pull with
  | Some q, Some r =>
      do cq <- deref h q;
      do cr <- deref h r;
      if negb (has_pattern cq GOO_CHANNEL_PUSH) || negb (has_pattern cr GOO_CHANNEL_PULL)
      then Value (false, h)
      else match pattern_data cq, pattern_data cr with
           | PushPullData ws n next, PushPullData _ _ next' =>
               Value (true, <[r := set_data (PushPullData ParameterAddress 1 next') cr]>
                              (<[q := set_data (PushPullData (Workers (worker_list ws ++ [r])) (S n) next) cq]> h))
           | _, _ => Dangling
           end
  | _, _ => Value (false, h)
  end.

(** ** The pattern switch of [goo_chan_send]: answered at once, or a plain send on a channel. *)
Inductive route : Set := Answered (ok : bool) | Enters (p : nat).

Fixpoint broadcast (try_lock : nat -> bool) (h : store) (subs : list goo_subscriber) (v : V)
    (sent_count : nat) : call (nat * store) :=
  match subs with
  | [] => Value (sent_count, h)
  | s :: rest =>
      if active s then
        do ch <- deref h (sub_channel s);
        if goo_chan_is_closed (Some ch) then broadcast try_lock h rest v sent_count
        else do (ok, h') <- try_send (try_lock (sub_channel s)) h (Some (sub_channel s)) v;
             broadcast try_lock h' rest v (if ok then S sent_count else sent_count)
      else broadcast try_lock h rest v sent_count
  end.

Fixpoint send_route (fuel : nat) (try_lock : nat -> bool) (h : store) (p : nat) (v : V)
    : call (route * store) :=
  match fuel with
  | O => NoFuel
  | S f =>
      do ch <- deref h p;
      if closed ch then Panics "send on closed channel"
      else match pattern ch, pattern_data ch with
           | GOO_CHANNEL_PUB, PubData subs _ =>
               do (n, h') <- broadcast try_lock h subs v 0;
               Value (Answered (0 <? n)%nat, h')
           | GOO_CHANNEL_REQ, ReqRepData paired _ =>
               match paired with
               | None => Value (Answered false, h)
               | Some rep => send_route f try_lock h rep v
               end
           | GOO_CHANNEL_PUSH, PushPullData ws n next =>
               if (n =? 0)%nat then Value (Answered false, h)
               else match worker_list ws !! next with
                    | None => Dangling
                    | Some worker =>
                        let h1 := <[p := set_data (PushPullData ws n ((next + 1) mod n)) ch]> h in
                        do (ok, h2) <- try_send (try_lock worker) h1 (Some worker) v;
                        Value (Answered ok, h2)
                    end
           | (GOO_CHANNEL_PUB | GOO_CHANNEL_REQ | GOO_CHANNEL_PUSH), _ => Dangling
           | _, _ => Value (Enters p, h)
           end
  end.

(** [goo_chan_recv] serves BASIC, SUB, REP and PULL channels and refuses the others. *)
Definition recv_accepts (p : goo_channel_pattern_t) : bool :=
  match p with
  | GOO_CHANNEL_BASIC | GOO_CHANNEL_SUB | GOO_CHANNEL_REP | GOO_CHANNEL_PULL => true
  | _ => false
  end.

(** ** Failed non-blocking operations leave the store alone. *)
Lemma try_send_false l (h h' : store) p v : try_send l h p v = Value (false, h') -> h' = h.
Proof.
  destruct p as [p|]; simpl; [|by intros [= ->]]. unfold deref.
  destruct (h !! p) as [ch|] eqn:E; simpl; [|done]. unfold goo_chan_try_send.
  destruct l; simpl; [|intros [= <-]; by apply insert_id].
  destruct (closed ch); simpl; [done|].
  destruct ((0 <? capacity ch)%nat && (length ch <? capacity ch)%nat); simpl; [done|].
  intros [= <-]. by apply insert_id.
Qed.

Lemma try_recv_false l (h h' : store) p d : try_recv l h p = Value (false, d, h') -> h' = h.
Proof.
  destruct p as [p|]; simpl; [|by intros [= _ ->]]. unfold deref.
  destruct (h !! p) as [ch|] eqn:E; simpl; [|done]. unfold goo_chan_try_recv.
  destruct l; simpl; [|intros [= _ <-]; by apply insert_id].
  destruct ((0 <? capacity ch)%nat && (0 <? length ch)%nat); simpl; [done|].
  destruct (closed ch); simpl; [done|]. intros [= _ <-]. by apply insert_id.
Qed.

(** The non-blocking operation of one case. *)
Definition attempt (got_lock : bool) (h : store) (c : select_case) : call (bool * store) :=
  if is_send c then try_send got_lock h (case_channel c) (case_data c)
  else do (ok, _, h') <- try_recv got_lock h (case_channel c); Value (ok, h').

Lemma attempt_false l h h' c : attempt l h c = Value (false, h') -> h' = h.
Proof.
  unfold attempt. destruct (is_send c); [apply try_send_false|].
  destruct (try_recv l h (case_channel c)) as [[[ok d] h1]| | |] eqn:E; simpl; try done.
  intros [= -> ->]. by eapply try_recv_false.
Qed.

(** What one pass decides: nothing ready and nothing done, or the first ready case, taken. *)
Definition scan_result (try_lock : nat -> bool) (h : store) (cases : list select_case) (i : nat)
    (r : option nat) (h' : store) : Prop :=
  match r with
  | None => h' = h /\ forall k c, cases !! k = Some c -> attempt (try_lock (i + k)) h c = Value (false, h)
  | Some m => exists k c, m = i + k /\ cases !! k = Some c /\
      attempt (try_lock m) h c = Value (true, h') /\
      forall k' c', k' < k -> cases !! k' = Some c' -> attempt (try_lock (i + k')) h c' = Value (false, h)
  end.

Lemma select_scan_spec try_lock cases : forall h i r cases' h',
  select_scan try_lock h cases i = Value (r, cases', h') -> scan_result try_lock h cases i r h'.
Proof.
  induction cases as [|c cases IH]; intros h i r cases' h'; cbn [select_scan].
  - intros [= <- <- <-]. by split.
  - assert (Hatt : forall ok d h1,
      (if is_send c
       then do (ok, h') <- try_send (try_lock i) h (case_channel c) (case_data c);
            Value (ok, case_data c, h')
       else do (ok, v, h') <- try_recv (try_lock i) h (case_channel c);
            Value (ok, from_option id (case_data c) v, h')) = Value (ok, d, h1) ->
      attempt (try_lock i) h c = Value (ok, h1)).
    { intros ok d h1. unfold attempt. destruct (is_send c).
      - destruct (try_send _ _ _ _) as [[]| | |]; simpl; intros; simplify_eq; done.
      - destruct (try_recv _ _ _) as [[[]]| | |]; simpl; intros; simplify_eq; done. }
    destruct (if is_send c then _ else _) as [[[ok d] h1]| | |]; cbn [cbind]; try done.
    specialize (Hatt ok d h1 eq_refl). destruct ok.
    + intros [= <- _ <-]. exists 0, c. split_and!; [lia|done|done|]. intros. lia.
    + apply attempt_false in Hatt as Eh. subst h1.
      destruct (select_scan try_lock h cases (S i)) as [[[r' rest'] h'']| | |] eqn:E; cbn [cbind]; try done.
      intros [= <- _ <-]. apply IH in E. destruct r' as [m|]; simpl in *.
      * destruct E as (k&c1&->&Hk&Ha&Hn). exists (S k), c1. rewrite Nat.add_succ_r.
        split_and!; [done|done|done|]. intros [|k'] c' Hlt Hk'; simpl in Hk'.
        -- injection Hk' as <-. by rewrite Nat.add_0_r.
        -- rewrite Nat.add_succ_r. apply Hn; [lia|done].
      * destruct E as [-> Hn]. split; [done|]. intros [|k'] c' Hk'; simpl in Hk'.
        -- injection Hk' as <-. by rewrite Nat.add_0_r.
        -- rewrite Nat.add_succ_r. by apply Hn.
Qed.
End store.

(** select takes exactly one ready case.  Every poll of [goo_select] either answers the
    index of the first case whose non-blocking operation succeeds, and performs that operation
    and nothing else on the channels, or finds no case ready and leaves every channel as it
    was.  With a default case ([timeout_ns = 0]) the single poll's answer is final. *)
Theorem select_takes_first_ready {V} (zero : V) f try_lock others started now h cases r cases' h' :
  goo_select zero (S f) try_lock others started now 0 h cases = Value (r, cases', h') ->
  (r = (-1)%Z /\ h' = h /\
     forall k c, cases !! k = Some c -> attempt zero (try_lock 0 k) h c = Value (false, h)) \/
  (exists k c, r = Z.of_nat k /\ cases !! k = Some c /\ attempt zero (try_lock 0 k) h c = Value (true, h') /\
     forall k' c', k' < k -> cases !! k' = Some c' -> attempt zero (try_lock 0 k') h c' = Value (false, h)).
Proof.
  unfold goo_select. destruct cases as [|c0 rest] eqn:Ec; [intros [= <- _ <-]; left; by split_and!|].
  rewrite <- Ec. clear Ec. cbn [select_loop].
  destruct (select_scan zero (try_lock 0) h cases 0) as [[[m cs] h1]| | |] eqn:E; cbn [cbind]; try done.
  apply select_scan_spec in E. destruct m as [m|]; intros [= <- _ <-]; simpl in E.
  - right. destruct E as (k&c&->&?&?&?). by exists k, c.
  - left. by destruct E.
Qed.

Definition one_slot (v : nat) : channel nat := chan_put (goo_make_chan 0 1) v.

Lemma select_takes_first_ready_witness :
  let h : gmap nat (channel nat) := {[1 := one_slot 7; 2 := goo_make_chan 0 1]} in
  goo_select 0 1 (fun _ _ => true) (fun _ h => h) 0 (fun _ => 0%Z) 0 h
    [mkCase None 0 false false; mkCase (Some 1) 3 true false; mkCase (Some 2) 9 true false]
    = Value (2%Z, [mkCase None 0 false false; mkCase (Some 1) 3 true false; mkCase (Some 2) 9 true true],
             <[2 := one_slot 9]> h) /\
  exists c, [mkCase None 0 false false; mkCase (Some 1) 3 true false; mkCase (Some 2) 9 true false] !! 2 = Some c.
Proof.
  intros h. split; [reflexivity|].
  destruct (select_takes_first_ready 0 0 (fun _ _ => true) (fun _ h => h) 0 (fun _ => 0%Z) h
    [mkCase None 0 false false; mkCase (Some 1) 3 true false; mkCase (Some 2) 9 true false]
    2%Z _ _ eq_refl) as [(E&_)|(k&c&Ek&Hc&_)]; [discriminate E|].
  exists c. assert (k = 2) as -> by lia. exact Hc.
Defined.

(** Every channel named is unbuffered and open. *)
Definition unbuffered_open {V} (h : gmap nat (channel V)) (ps : list (option nat)) : Prop :=
  forall p, In (Some p) ps -> exists ch, h !! p = Some ch /\ capacity ch = 0 /\ closed ch = false.

Lemma try_send_unbuffered {V} l (h : gmap nat (channel V)) p v :
  unbuffered_open h [p] -> try_send l h p v = Value (false, h).
Proof.
  intros H. destruct p as [p|]; [|done]. destruct (H p) as (ch&E&Ec&Ecl); [by left|].
  unfold try_send, deref. rewrite E. simpl. unfold goo_chan_try_send. rewrite Ecl, Ec. simpl.
  destruct l; simpl; by rewrite insert_id.
Qed.

Lemma try_recv_unbuffered {V} (zero : V) l (h : gmap nat (channel V)) p :
  unbuffered_open h [p] -> exists d, try_recv zero l h p = Value (false, d, h).
Proof.
  intros H. destruct p as [p|]; [|by eexists]. destruct (H p) as (ch&E&Ec&Ecl); [by left|].
  unfold try_recv, deref. rewrite E. simpl. unfold goo_chan_try_recv. rewrite Ecl, Ec. simpl.
  destruct l; simpl; rewrite insert_id by done; by eexists.
Qed.

Lemma scan_unbuffered {V} (zero : V) try_lock (h : gmap nat (channel V)) cases i :
  unbuffered_open h (map case_channel cases) ->
  exists cases', select_scan zero try_lock h cases i = Value (None, cases', h) /\
    map case_channel cases' = map case_channel cases.
Proof.
  revert i. induction cases as [|c cases IH]; intros i H; cbn [select_scan]; [by eexists|].
  destruct (IH (S i)) as (cases'&E&Em); [intros p Hp; apply H; by right|].
  assert (Hc : unbuffered_open h [case_channel c]).
  { intros p [Hp|[]]. apply H. by left. }
  destruct (is_send c).
  - rewrite try_send_unbuffered by done. cbn [cbind]. rewrite E. cbn [cbind].
    eexists. split; [done|]. simpl. by rewrite Em.
  - destruct (try_recv_unbuffered zero (try_lock i) h (case_channel c) Hc) as [d Ed].
    rewrite Ed. cbn [cbind]. rewrite E. cbn [cbind]. eexists. split; [done|]. simpl. by rewrite Em.
Qed.

Lemma select_loop_blind {V} (zero : V) try_lock others now timeout deadline fuel : (timeout <= 0)%Z ->
  forall h cases round,
  (forall r h0, unbuffered_open h0 (map case_channel cases) ->
                unbuffered_open (others r h0) (map case_channel cases)) ->
  unbuffered_open h (map case_channel cases) ->
  let r := select_loop zero fuel try_lock others now timeout deadline round h cases in
  if (timeout =? 0)%Z then fuel = 0 \/ exists cases', r = Value ((-1)%Z, cases', h) else r = NoFuel.
Proof.
  intros Ht. induction fuel as [|f IH]; intros h cases round Ho Hh; [simpl; by destruct (timeout =? 0)%Z; [left|]|].
  cbn [select_loop]. destruct (scan_unbuffered zero (try_lock round) h cases 0 Hh) as (cases'&->&Em).
  cbn [cbind]. destruct (Z.eqb_spec timeout 0) as [E|E]; [right; by eexists|].
  destruct (Z.ltb_spec 0 timeout); [lia|]. cbn [andb].
  apply IH; rewrite Em; [done|]. by apply Ho.
Qed.

(** a select on unbuffered channels is blind.  If every case's channel is unbuffered and
    open (whether or not a partner is parked on it) and the other goroutines keep it so,
    [goo_select] without default or deadline never answers, however long it polls; with a
    default it always falls through to it. *)
Theorem select_blind_on_unbuffered {V} (zero : V) fuel try_lock others started now timeout h cases :
  (forall r h0, unbuffered_open h0 (map case_channel cases) ->
                unbuffered_open (others r h0) (map case_channel cases)) ->
  unbuffered_open h (map case_channel cases) -> cases <> [] -> (timeout <= 0)%Z ->
  let r := goo_select zero fuel try_lock others started now timeout h cases in
  if (timeout =? 0)%Z then fuel = 0 \/ exists cases', r = Value ((-1)%Z, cases', h) else r = NoFuel.
Proof.
  intros Ho Hh Hne Ht r. unfold r, goo_select. destruct cases as [|c0 rest]; [done|].
  by apply select_loop_blind.
Qed.

Lemma select_blind_on_unbuffered_witness :
  let parked := set_slot (Some 5) true (goo_make_chan 0 0) in
  let h : gmap nat (channel nat) := {[1 := parked]} in
  unbuffered_open h [Some 1] /\
  goo_select 0 1000 (fun _ _ => true) (fun _ h => h) 0 (fun _ => 0%Z) (-1) h
    [mkCase (Some 1) 0 false false] = NoFuel.
Proof.
  intros parked h. assert (H : unbuffered_open h [Some 1]).
  { intros p [[= <-]|[]]. by exists parked. }
  split; [exact H|].
  apply (select_blind_on_unbuffered 0 1000 (fun _ _ => true) (fun _ h => h) 0 (fun _ => 0%Z) (-1) h
           [mkCase (Some 1) 0 false false]); [by auto|exact H|done|lia].
Defined.

(** ** Publishing. *)
Section publish.
Context {V : Type}.
Abbreviation store := (gmap nat (channel V)).

(** The subscriber can take an element now. *)
Definition has_room (ch : channel V) : bool :=
  negb (closed ch) && ((0 <? capacity ch)%nat && (length ch <? capacity ch)%nat).
Definition takes (h : store) (s : goo_subscriber) : bool :=
  active s && match h !! sub_channel s with Some ch => has_room ch | None => false end.

Definition delivered (h : store) (subs : list goo_subscriber) (v : V) (p : nat) : option (channel V) :=
  match h !! p with
  | Some ch => Some (if existsb (fun s => same_sub p s && takes h s) subs then chan_put ch v else ch)
  | None => None
  end.

Lemma try_send_room (h : store) p ch v : h !! p = Some ch -> closed ch = false ->
  try_send true h (Some p) v = Value (has_room ch, if has_room ch then <[p := chan_put ch v]> h else h).
Proof.
  intros E Hc. unfold try_send, deref. rewrite E. simpl. unfold goo_chan_try_send, has_room.
  rewrite Hc. simpl. destruct ((0 <? capacity ch)%nat && (length ch <? capacity ch)%nat); simpl; [done|].
  by rewrite insert_id.
Qed.

(** Delivering to one subscriber does not change what the others see. *)
Lemma takes_insert (h : store) p ch s : sub_channel s <> p -> takes (<[p := ch]> h) s = takes h s.
Proof. intros H. unfold takes. by rewrite lookup_insert_ne. Qed.

Lemma existsb_takes_insert (h : store) p ch subs q :
  ~ In p (map sub_channel subs) ->
  existsb (fun s => same_sub q s && takes (<[p := ch]> h) s) subs
  = existsb (fun s => same_sub q s && takes h s) subs.
Proof.
  induction subs as [|s subs IH]; intros Hn; [done|]. simpl in *.
  rewrite takes_insert by tauto. rewrite IH by tauto. done.
Qed.

Lemma count_takes_insert (h : store) p ch subs : ~ In p (map sub_channel subs) ->
  filter (fun s => takes (<[p := ch]> h) s = true) subs = filter (fun s => takes h s = true) subs.
Proof.
  induction subs as [|s subs IH]; intros Hn; [done|]. simpl in Hn.
  rewrite !filter_cons, takes_insert by tauto. rewrite IH by tauto. done.
Qed.

Lemma existsb_self (h : store) p subs : ~ In p (map sub_channel subs) ->
  existsb (fun s => same_sub p s && takes h s) subs = false.
Proof.
  induction subs as [|s subs IH]; intros Hn; [done|]. simpl in *. rewrite IH by tauto.
  unfold same_sub. destruct (Nat.eqb_spec (sub_channel s) p); [tauto|done].
Qed.

Lemma broadcast_spec try_lock subs v : (forall s, try_lock s = true) -> forall h n,
  NoDup (map sub_channel subs) -> (forall s, In s subs -> is_Some (h !! sub_channel s)) ->
  exists h', broadcast try_lock h subs v n
    = Value (n + List.length (filter (fun s => takes h s = true) subs), h') /\
    forall p, h' !! p = delivered h subs v p.
Proof.
  intros Hl. induction subs as [|s subs IH]; intros h n Hnd Hin.
  { exists h. simpl. rewrite Nat.add_0_r. split; [done|]. intros p. unfold delivered. simpl.
    by destruct (h !! p). }
  inversion Hnd as [|x l Hnot Hnd']; subst. rewrite list_elem_of_In in Hnot.
  assert (Hskip : takes h s = false -> forall h' : store,
    (forall p, h' !! p = delivered h subs v p) -> forall p, h' !! p = delivered h (s :: subs) v p).
  { intros Ht h' Hp p. rewrite Hp. unfold delivered. simpl. by rewrite Ht, andb_false_r. }
  assert (Hrest : takes h s = false -> exists h', broadcast try_lock h subs v n
      = Value (n + List.length (filter (fun s => takes h s = true) (s :: subs)), h') /\
      forall p, h' !! p = delivered h (s :: subs) v p).
  { intros Ht. destruct (IH h n Hnd') as (h'&E&Hp); [intros; apply Hin; by right|].
    exists h'. rewrite filter_cons, Ht. split; [exact E|by apply Hskip]. }
  cbn [broadcast]. destruct (active s) eqn:Ea; [|by apply Hrest; unfold takes; rewrite Ea].
  destruct (Hin s) as [ch Ech]; [by left|]. unfold deref. rewrite Ech. cbn [cbind goo_chan_is_closed].
  destruct (closed ch) eqn:Ecl.
  { apply Hrest. unfold takes, has_room. by rewrite Ea, Ech, Ecl. }
  rewrite Hl, (try_send_room h _ ch) by done. cbn [cbind].
  destruct (has_room ch) eqn:Er; [|apply Hrest; unfold takes; by rewrite Ea, Ech, Er].
  assert (Ht : takes h s = true) by (unfold takes; by rewrite Ea, Ech, Er).
  destruct (IH (<[sub_channel s := chan_put ch v]> h) (S n) Hnd') as (h'&E&Hp).
  { intros s' Hs'. destruct (decide (sub_channel s = sub_channel s')) as [<-|];
      [rewrite lookup_insert_eq; by eexists|rewrite lookup_insert_ne by done; apply Hin; by right]. }
  exists h'. rewrite E, count_takes_insert, filter_cons, Ht by done. simpl. split; [do 2 f_equal; lia|].
  intros p. rewrite Hp. unfold delivered. rewrite existsb_takes_insert by done. simpl. unfold same_sub at 2.
  destruct (Nat.eqb_spec (sub_channel s) p) as [<-|Hne].
  - rewrite lookup_insert_eq, Ech, Ht, existsb_self by done. done.
  - by rewrite lookup_insert_ne.
Qed.

(** publishing.  A send on an open PUB channel (its subscriptions distinct and live, the
    locks free) never blocks: it stores the element in every active, open subscriber that has
    room, once each, changes nothing else, and answers whether anyone took it. *)
Theorem publish_delivers f try_lock (h : store) p ch subs n v :
  h !! p = Some ch -> pattern ch = GOO_CHANNEL_PUB -> pattern_data ch = PubData subs n ->
  closed ch = false -> (forall s, try_lock s = true) ->
  NoDup (map sub_channel subs) -> (forall s, In s subs -> is_Some (h !! sub_channel s)) ->
  exists h', send_route (S f) try_lock h p v = Value (Answered (existsb (takes h) subs), h') /\
    forall q, h' !! q = match h !! q with
      | Some c => Some (if existsb (fun s => same_sub q s && takes h s) subs then chan_put c v else c)
      | None => None
      end.
Proof.
  intros E Ep Ed Ec Hl Hnd Hin. cbn [send_route]. unfold deref. rewrite E. cbn [cbind].
  rewrite Ec, Ep, Ed. destruct (broadcast_spec try_lock subs v Hl h 0 Hnd Hin) as (h'&->&Hp).
  cbn [cbind]. exists h'. split; [|exact Hp]. do 3 f_equal. clear.
  induction subs as [|s subs IH]; [done|]. rewrite filter_cons. simpl.
  destruct (takes h s) eqn:Et; simpl; [done|exact IH].
Qed.

(** the channels [goo_make_pattern_chan] makes never carry a published or pushed value: a
    SUB or PULL channel made by it has no buffer, so whatever the locks answer, publishing to
    such subscribers or pushing to such workers reports failure and changes no buffer. *)
Theorem pattern_channels_never_deliver (zero : V) f try_lock (h : store) p ch v :
  h !! p = Some ch -> closed ch = false ->
  (exists subs n, pattern ch = GOO_CHANNEL_PUB /\ pattern_data ch = PubData subs n /\
     (forall s, In s subs -> h !! sub_channel s = Some (goo_make_pattern_chan zero GOO_CHANNEL_SUB))) \/
  (exists ws n next w, pattern ch = GOO_CHANNEL_PUSH /\ pattern_data ch = PushPullData (Workers ws) n next /\
     ws !! next = Some w /\ w <> p /\ h !! w = Some (goo_make_pattern_chan zero GOO_CHANNEL_PULL)) ->
  exists h', send_route (S f) try_lock h p v = Value (Answered false, h') /\
    forall q, (buffer <$> h' !! q) = (buffer <$> h !! q).
Proof.
  intros E Ecl [(subs&n&Ep&Ed&Hs)|(ws&n&next&w&Ep&Ed&Ew&Hne&Hw)]; cbn [send_route]; unfold deref;
    rewrite E; cbn [cbind]; rewrite Ecl, Ep, Ed.
  - assert (Hb : forall k, broadcast try_lock h subs v k = Value (k, h)).
    { intros k. clear Ed. induction subs as [|s subs IH]; [done|]. cbn [broadcast].
      destruct (active s); [|apply IH; intros; apply Hs; by right].
      unfold deref. rewrite (Hs s) by (by left). cbn [cbind goo_chan_is_closed closed goo_make_pattern_chan goo_make_chan].
      rewrite try_send_unbuffered; [|intros q [[= <-]|[]]; eexists; split; [by apply Hs; left|done]].
      cbn [cbind]. apply IH. intros. apply Hs. by right. }
    rewrite Hb. cbn [cbind]. by exists h.
  - destruct (n =? 0)%nat; [by exists h|]. cbn [worker_list]. rewrite Ew.
    rewrite try_send_unbuffered.
    + cbn [cbind]. eexists. split; [done|]. intros q. destruct (decide (q = p)) as [->|Hq].
      * rewrite lookup_insert_eq, E. done.
      * by rewrite lookup_insert_ne.
    + intros q [[= <-]|[]]. rewrite lookup_insert_ne by done. by eexists.
Qed.
End publish.

Lemma publish_delivers_witness :
  let pub := set_data (PubData [mkSub 2 true; mkSub 3 false; mkSub 4 true] 3)
                      (goo_make_pattern_chan 0 GOO_CHANNEL_PUB) in
  let h : gmap nat (channel nat) :=
    {[1 := pub; 2 := goo_make_chan 0 1; 3 := goo_make_chan 0 1; 4 := one_slot 8]} in
  exists h', send_route 1 (fun _ => true) h 1 5 = Value (Answered true, h') /\
    h' !! 2 = Some (one_slot 5) /\ h' !! 4 = Some (one_slot 8).
Proof.
  intros pub h.
  destruct (publish_delivers 0 (fun _ => true) h 1 pub [mkSub 2 true; mkSub 3 false; mkSub 4 true] 3 5)
    as (h'&E&Hq).
  - reflexivity.
  - reflexivity.
  - reflexivity.
  - reflexivity.
  - done.
  - simpl. apply (bool_decide_unpack (NoDup [2; 3; 4])). reflexivity.
  - intros s [<-|[<-|[<-|[]]]]; by eexists.
  - exists h'. split; [exact E|]. split; rewrite Hq; reflexivity.
Defined.

Lemma pattern_channels_never_deliver_witness :
  let pub := set_data (PubData [mkSub 2 true] 1) (goo_make_pattern_chan 0 GOO_CHANNEL_PUB) in
  let h : gmap nat (channel nat) := {[1 := pub; 2 := goo_make_pattern_chan 0 GOO_CHANNEL_SUB]} in
  exists h', send_route 1 (fun _ => true) h 1 5 = Value (Answered false, h').
Proof.
  intros pub h.
  destruct (pattern_channels_never_deliver 0 0 (fun _ => true) h 1 pub 5) as (h'&E&_).
  - reflexivity.
  - reflexivity.
  - left. exists [mkSub 2 true], 1. split_and!; [reflexivity|reflexivity|].
    intros s [<-|[]]. reflexivity.
  - exists h'. exact E.
Defined.

(** ** Push: round robin. *)
Section push.
Context {V : Type}.
Abbreviation store := (gmap nat (channel V)).

(** The workers aimed at by the successive sends of [vs] on the PUSH channel [p]. *)
Fixpoint push_run (try_lock : nat -> nat -> bool) (round : nat) (h : store) (p : nat) (vs : list V)
    : call (list (option nat) * store) :=
  match vs with
  | [] => Value ([], h)
  | v :: rest =>
      do ch <- deref h p;
      match pattern_data ch with
      | PushPullData ws _ next =>
          do (_, h') <- send_route 1 (try_lock round) h p v;
          do (targets, h'') <- push_run try_lock (S round) h' p rest;
          Value (worker_list ws !! next :: targets, h'')
      | _ => Dangling
      end
  end.

(** [p] is an open PUSH channel over [ws], about to use the worker at [next]. *)
Definition pushes (h : store) (p : nat) (ws : list nat) (next : nat) : Prop :=
  exists ch, h !! p = Some ch /\ pattern ch = GOO_CHANNEL_PUSH /\ closed ch = false /\
    pattern_data ch = PushPullData (Workers ws) (List.length ws) next.
Definition workers_open (h : store) (ws : list nat) : Prop :=
  forall w, In w ws -> exists ch, h !! w = Some ch /\ closed ch = false.

Lemma try_send_open l (h : store) w ch v : h !! w = Some ch -> closed ch = false ->
  exists ok ch', try_send l h (Some w) v = Value (ok, <[w := ch']> h) /\ closed ch' = false.
Proof.
  intros E Hc. unfold try_send, deref. rewrite E. simpl. unfold goo_chan_try_send. rewrite Hc.
  destruct l; simpl; [|by eexists false, ch].
  destruct ((0 <? capacity ch)%nat && (length ch <? capacity ch)%nat); simpl;
    [by eexists true, _|by eexists false, ch].
Qed.

Lemma push_step try_lock (h : store) p ws next v :
  pushes h p ws next -> workers_open h ws -> ~ In p ws -> next < List.length ws ->
  exists ok h', send_route 1 try_lock h p v = Value (Answered ok, h') /\
    pushes h' p ws ((next + 1) mod List.length ws) /\ workers_open h' ws.
Proof.
  intros (ch&E&Ep&Ec&Ed) Hw Hp Hn. cbn [send_route]. unfold deref. rewrite E. cbn [cbind].
  rewrite Ec, Ep, Ed. destruct (Nat.eqb_spec (List.length ws) 0); [lia|]. cbn [worker_list].
  destruct (lookup_lt_is_Some_2 ws next Hn) as [w Ew]. rewrite Ew.
  assert (Hin : In w ws) by (apply list_elem_of_In; by eapply list_elem_of_lookup_2).
  assert (Hpw : p <> w) by (intros ->; done).
  destruct (Hw w Hin) as (cw&Ecw&Hcw).
  set (ch' := set_data _ ch).
  destruct (try_send_open (try_lock w) (<[p := ch']> h) w cw v) as (ok&cw'&->&Hcw');
    [by rewrite lookup_insert_ne|done|].
  cbn [cbind]. eexists _, _. split; [done|]. split.
  - exists ch'. rewrite lookup_insert_ne, lookup_insert_eq by done. by split_and!.
  - intros u Hu. destruct (decide (u = w)) as [->|Hne]; [rewrite lookup_insert_eq; by eexists|].
    rewrite !lookup_insert_ne; [by apply Hw| |done]. intros ->. done.
Qed.

(** push is round robin: however many elements are sent on an open PUSH channel, the [k]-th
    send aims at worker [(next + k) mod worker_count] of the worker list, so any
    [worker_count] consecutive sends visit every worker once; no send ever blocks. *)
Theorem push_round_robin try_lock p ws vs : forall round (h : store) next,
  pushes h p ws next -> workers_open h ws -> ~ In p ws -> next < List.length ws ->
  exists h', push_run try_lock round h p vs =
    Value (map (fun k => ws !! ((next + k) mod List.length ws)) (seq 0 (List.length vs)), h').
Proof.
  induction vs as [|v vs IH]; intros round h next Hps Hw Hp Hn; [by exists h|].
  cbn [push_run]. pose proof Hps as (ch&E&_&_&Ed). unfold deref. rewrite E. cbn [cbind]. rewrite Ed.
  destruct (push_step (try_lock round) h p ws next v Hps Hw Hp Hn) as (ok&h1&->&Hps'&Hw'). cbn [cbind].
  destruct (IH (S round) h1 ((next + 1) mod List.length ws) Hps' Hw' Hp) as (h'&->);
    [apply Nat.mod_upper_bound; lia|].
  cbn [cbind worker_list]. exists h'. do 2 f_equal. simpl. rewrite Nat.add_0_r, (Nat.mod_small next) by done.
  f_equal. rewrite <- seq_shift, map_map. apply map_ext. intros k.
  rewrite Nat.Div0.add_mod_idemp_l. do 2 f_equal. lia.
Qed.

(** ** Subscriptions. *)
Lemma unlink_reverses s subs : existsb (same_sub s) subs = false ->
  unlink_sub s (mkSub s true :: subs) = subs.
Proof. intros _. simpl. unfold same_sub. simpl. by rewrite Nat.eqb_refl. Qed.

Lemma has_pattern_refl (ch : channel V) p : pattern ch = p -> has_pattern ch p = true.
Proof. intros H. unfold has_pattern. by apply bool_decide_eq_true_2. Qed.

(** subscribing is undone by unsubscribing: for a PUB channel and a SUB channel not yet
    subscribed to it, subscribe then unsubscribe succeed and leave both channels as they were,
    except that the subscriber's publisher is reset; a second subscribe in between changes
    nothing. *)
Theorem unsubscribe_undoes_subscribe (h : store) p s cp cs subs n pb :
  h !! p = Some cp -> h !! s = Some cs ->
  pattern cp = GOO_CHANNEL_PUB -> pattern cs = GOO_CHANNEL_SUB ->
  pattern_data cp = PubData subs n -> pattern_data cs = SubData pb ->
  existsb (same_sub s) subs = false ->
  exists h1, goo_chan_subscribe h (Some p) (Some s) = Value (true, h1) /\
    goo_chan_subscribe h1 (Some p) (Some s) = Value (true, h1) /\
    goo_chan_unsubscribe h1 (Some p) (Some s)
      = Value (true, <[s := set_data (SubData None) cs]> h).
Proof.
  intros Ep Es Hp Hs Hd Hds Hnew. assert (Hne : p <> s) by congruence.
  unfold goo_chan_subscribe at 1, deref. rewrite Ep, Es. cbn [cbind].
  rewrite !has_pattern_refl, Hd, Hnew by done. cbn [negb orb]. eexists. split; [done|].
  set (cs1 := set_data (SubData (Some p)) cs). set (cp1 := set_data (PubData (mkSub s true :: subs) (S n)) cp).
  unfold goo_chan_subscribe, goo_chan_unsubscribe, deref.
  rewrite lookup_insert_ne, lookup_insert_eq, lookup_insert_eq by done. cbn [cbind].
  rewrite !has_pattern_refl by done. cbn [negb orb].
  change (pattern_data cp1) with (PubData (mkSub s true :: subs) (S n)).
  assert (Hex : existsb (same_sub s) (mkSub s true :: subs) = true).
  { simpl. unfold same_sub. simpl. by rewrite Nat.eqb_refl. }
  cbv beta iota. rewrite Hex. split.
  - do 2 f_equal. simpl. unfold same_sub at 1. simpl. rewrite Nat.eqb_refl.
    change (set_data (PubData (mkSub s true :: subs) (S n)) cp1) with cp1.
    rewrite insert_id; [done|]. by rewrite lookup_insert_ne, lookup_insert_eq.
  - do 2 f_equal. rewrite unlink_reverses by done. replace (S n - 1) with n by lia.
    assert (E0 : set_data (PubData subs n) cp1 = cp) by (unfold cp1, set_data; simpl; rewrite <- Hd; by destruct cp).
    rewrite E0. change (set_data (SubData None) cs1) with (set_data (SubData None) cs).
    apply map_eq. intros q. destruct (decide (q = s)) as [->|Hqs]; [by rewrite !lookup_insert_eq|].
    rewrite !(lookup_insert_ne _ s q) by done. destruct (decide (q = p)) as [->|Hqp];
      [by rewrite lookup_insert_eq|].
    by rewrite !lookup_insert_ne.
Qed.

(** freeing a subscribed channel leaves the subscription behind: [goo_chan_free] does not
    unsubscribe, so the next publish follows a pointer to the freed channel. *)
Theorem publish_after_free_dangles (zero : V) f try_lock (h : store) p s cp cs rest n v :
  p <> s -> h !! p = Some cp -> closed cp = false -> pattern cp = GOO_CHANNEL_PUB ->
  pattern_data cp = PubData (mkSub s true :: rest) n -> h !! s = Some cs ->
  exists h', goo_chan_free h (Some s) = Value h' /\ send_route (S f) try_lock h' p v = Dangling.
Proof.
  intros Hne Ep Ec Hp Hd Es. unfold goo_chan_free, deref. rewrite Es. cbn [cbind].
  eexists. split; [done|]. cbn [send_route]. unfold deref. rewrite lookup_delete_ne, Ep by done.
  cbn [cbind]. rewrite Ec, Hp, Hd. cbn [broadcast active]. unfold deref. cbn [sub_channel].
  by rewrite lookup_delete_eq.
Qed.
End push.

Lemma push_round_robin_witness :
  let push := set_data (PushPullData (Workers [2; 3]) 2 1) (goo_make_pattern_chan 0 GOO_CHANNEL_PUSH) in
  let h : gmap nat (channel nat) := {[1 := push; 2 := goo_make_chan 0 4; 3 := goo_make_chan 0 4]} in
  exists h', push_run (fun _ _ => true) 0 h 1 [7; 8; 9] = Value ([Some 3; Some 2; Some 3], h').
Proof.
  intros push h.
  apply (push_round_robin (fun _ _ => true) 1 [2; 3] [7; 8; 9] 0 h 1).
  - by exists push.
  - intros w [<-|[<-|[]]]; by eexists.
  - intros [?|[?|[]]]; discriminate.
  - simpl. lia.
Defined.

Lemma unsubscribe_undoes_subscribe_witness :
  let h : gmap nat (channel nat) :=
    {[1 := goo_make_pattern_chan 0 GOO_CHANNEL_PUB; 2 := goo_make_pattern_chan 0 GOO_CHANNEL_SUB]} in
  exists h1, goo_chan_subscribe h (Some 1) (Some 2) = Value (true, h1) /\
    goo_chan_unsubscribe h1 (Some 1) (Some 2) = Value (true, h).
Proof.
  intros h.
  destruct (unsubscribe_undoes_subscribe h 1 2 (goo_make_pattern_chan 0 GOO_CHANNEL_PUB)
              (goo_make_pattern_chan 0 GOO_CHANNEL_SUB) [] 0 None) as (h1&E1&_&E2);
    [reflexivity..|].
  exists h1. split; [exact E1|]. rewrite E2. reflexivity.
Defined.

Lemma publish_after_free_dangles_witness :
  let pub := set_data (PubData [mkSub 2 true] 1) (goo_make_pattern_chan 0 GOO_CHANNEL_PUB) in
  let h : gmap nat (channel nat) := {[1 := pub; 2 := goo_make_chan 0 1]} in
  exists h', goo_chan_free h (Some 2) = Value h' /\ send_route 1 (fun _ => true) h' 1 5 = Dangling.
Proof.
  intros pub h.
  apply (publish_after_free_dangles 0 0 (fun _ => true) h 1 2 pub (goo_make_chan 0 1) [] 1 5);
    [lia|reflexivity..].
Defined.
