(* ===== verification/Utf8.v ===== *)
(** * Utf8: [goo_utf8_decode] and [goo_utf8_encode_rune] of [src/runtime/runtime.c].

    A byte is a [Z] in [0, 256); a string a list of bytes; a rune an [int32_t] as a [Z].  The
    bit operations are written as in C. *)
From Stdlib Require Import ZArith Lia Bool.
From stdpp Require Import base list.
From S2P Require Import Prelude.
Local Open Scope Z_scope.

Definition RUNE_ERROR : Z := 0xFFFD.
Definition byte_at (data : list Z) (i : nat) : Z := nth i data 0.

(** The continuation loop: [k] bytes left to read from index [i]. *)
Fixpoint decode_continuation (data : list Z) (k : nat) (i : nat) (r : Z) : option Z :=
  match k with
  | O => Some r
  | S k' =>
      let bk := byte_at data i in
      if negb (Z.land bk 0xC0 =? 0x80) then None
      else decode_continuation data k' (S i) (Z.lor (Z.shiftl r 6) (Z.land bk 0x3F))
  end.

(** The sequence length and the payload of the lead byte. *)
Definition decode_lead (b0 : Z) : option (nat * Z) :=
  if Z.land b0 0xE0 =? 0xC0 then Some (2%nat, Z.land b0 0x1F)
  else if Z.land b0 0xF0 =? 0xE0 then Some (3%nat, Z.land b0 0x0F)
  else if Z.land b0 0xF8 =? 0xF0 then Some (4%nat, Z.land b0 0x07)
  else None.

(** The rune and its width. *)
Definition goo_utf8_decode (data : list Z) (i : nat) : Z * nat :=
  let b0 := byte_at data i in
  if b0 <? 0x80 then (b0, 1%nat)
  else match decode_lead b0 with
       | None => (RUNE_ERROR, 1%nat)
       | Some (n, r) =>
           if (length data <? i + n)%nat then (RUNE_ERROR, 1%nat)
           else match decode_continuation data (n - 1) (S i) r with
                | None => (RUNE_ERROR, 1%nat)
                | Some r' => (r', n)
                end
       end.

(** [(unsigned char)x] *)
Definition u8 (x : Z) : Z := wrap 8 x.

Definition goo_utf8_encode_rune (r : Z) : list Z :=
  let cp := wrap 32 r in
  let cp := if (r <? 0) || ((0xD800 <=? cp) && (cp <=? 0xDFFF)) || (0x10FFFF <? cp)
            then RUNE_ERROR else cp in
  if cp <=? 0x7F then [u8 cp]
  else if cp <=? 0x7FF then
    [u8 (Z.lor 0xC0 (Z.shiftr cp 6)); u8 (Z.lor 0x80 (Z.land cp 0x3F))]
  else if cp <=? 0xFFFF then
    [u8 (Z.lor 0xE0 (Z.shiftr cp 12)); u8 (Z.lor 0x80 (Z.land (Z.shiftr cp 6) 0x3F));
     u8 (Z.lor 0x80 (Z.land cp 0x3F))]
  else
    [u8 (Z.lor 0xF0 (Z.shiftr cp 18)); u8 (Z.lor 0x80 (Z.land (Z.shiftr cp 12) 0x3F));
     u8 (Z.lor 0x80 (Z.land (Z.shiftr cp 6) 0x3F)); u8 (Z.lor 0x80 (Z.land cp 0x3F))].

(** A Unicode scalar value. *)
Definition valid_rune (r : Z) : bool :=
  (0 <=? r) && (r <=? 0x10FFFF) && negb ((0xD800 <=? r) && (r <=? 0xDFFF)).

(** The range loop of a string: one rune per step. *)
Fixpoint runes_from (fuel : nat) (data : list Z) (i : nat) : list Z :=
  match fuel with
  | O => []
  | S f => if (length data <=? i)%nat then []
           else let '(r, w) := goo_utf8_decode data i in r :: runes_from f data (i + w)
  end.
Definition runes (data : list Z) : list Z := runes_from (length data) data 0.

Definition is_byte (b : Z) : Prop := 0 <= b < 256.

(** ** The masks are arithmetic on bytes. *)
Lemma land_low x n : 0 <= n -> Z.land x (Z.ones n) = x mod 2 ^ n.
Proof. intros. by rewrite Z.land_ones. Qed.

Lemma lor_top a n y : 0 <= n -> 0 <= y < 2 ^ n -> Z.lor (a * 2 ^ n) y = a * 2 ^ n + y.
Proof.
  intros Hn Hy. rewrite <- (Z.shiftl_mul_pow2 a n) by done. rewrite lor_shiftl_add by done.
  by rewrite Z.shiftl_mul_pow2.
Qed.

Definition all_bytes : list Z := map Z.of_nat (seq 0 256).

Lemma all_bytes_spec (P : Z -> bool) : forallb P all_bytes = true -> forall b, is_byte b -> P b = true.
Proof.
  intros H b Hb. rewrite forallb_forall in H. apply H. unfold all_bytes. apply in_map_iff.
  exists (Z.to_nat b). unfold is_byte in Hb. rewrite in_seq. split; lia.
Qed.

(** What the masks of the decoder say of a byte, checked on all 256. *)
Definition classify (b : Z) : option (nat * Z) :=
  if (192 <=? b) && (b <? 224) then Some (2%nat, b - 192)
  else if (224 <=? b) && (b <? 240) then Some (3%nat, b - 224)
  else if (240 <=? b) && (b <? 248) then Some (4%nat, b - 240)
  else None.

Definition same_lead (x y : option (nat * Z)) : bool :=
  match x, y with
  | None, None => true
  | Some (n, r), Some (m, s) => (n =? m)%nat && (r =? s)
  | _, _ => false
  end.

Lemma decode_lead_classify b : is_byte b -> decode_lead b = classify b.
Proof.
  intros Hb.
  assert (H : same_lead (decode_lead b) (classify b) = true).
  { revert b Hb. apply (all_bytes_spec (fun b => same_lead (decode_lead b) (classify b))). by vm_compute. }
  destruct (decode_lead b) as [[n r]|], (classify b) as [[m s]|]; simpl in H; try done.
  apply andb_true_iff in H as [H1%Nat.eqb_eq H2%Z.eqb_eq]. by subst.
Qed.

Lemma continuation_spec b : is_byte b ->
  (Z.land b 0xC0 =? 0x80) = (128 <=? b) && (b <? 192) /\ Z.land b 0x3F = b mod 64.
Proof.
  intros Hb. split; [|exact (land_low b 6 ltac:(lia))].
  assert (H : Bool.eqb (Z.land b 0xC0 =? 0x80) ((128 <=? b) && (b <? 192)) = true).
  { revert b Hb. apply (all_bytes_spec (fun b => Bool.eqb (Z.land b 0xC0 =? 0x80) ((128 <=? b) && (b <? 192)))).
    by vm_compute. }
  by apply Bool.eqb_true_iff.
Qed.

(** ** The encoder in arithmetic. *)
Definition encoded (cp : Z) : list Z :=
  if cp <=? 0x7F then [cp]
  else if cp <=? 0x7FF then [192 + cp / 64; 128 + cp mod 64]
  else if cp <=? 0xFFFF then [224 + cp / 4096; 128 + cp / 64 mod 64; 128 + cp mod 64]
  else [240 + cp / 262144; 128 + cp / 4096 mod 64; 128 + cp / 64 mod 64; 128 + cp mod 64].

Lemma u8_lead a n y : 0 <= n -> 0 <= y < 2 ^ n -> 0 <= a * 2 ^ n + y < 256 ->
  u8 (Z.lor (a * 2 ^ n) y) = a * 2 ^ n + y.
Proof. intros. rewrite lor_top by done. by apply wrap_small. Qed.

Lemma u8_tail x : 0 <= x -> u8 (Z.lor 0x80 (Z.land x 0x3F)) = 128 + x mod 64.
Proof.
  intros Hx. change 0x3F with (Z.ones 6). rewrite (land_low x 6) by lia. change (2 ^ 6) with 64.
  pose proof (Z.mod_pos_bound x 64 ltac:(lia)).
  apply (u8_lead 2 6); simpl; lia.
Qed.

Lemma encode_valid r : valid_rune r = true -> goo_utf8_encode_rune r = encoded r.
Proof.
  unfold valid_rune. rewrite !andb_true_iff, negb_true_iff. intros [[H0%Z.leb_le H1%Z.leb_le] Hs].
  unfold goo_utf8_encode_rune. rewrite (wrap_small 32) by lia.
  destruct (Z.ltb_spec r 0); [lia|]. rewrite Hs. destruct (Z.ltb_spec 0x10FFFF r); [lia|]. simpl orb. cbv iota.
  unfold encoded. rewrite !u8_tail by (rewrite ?Z.shiftr_div_pow2 by lia; try apply Z.div_pos; lia).
  rewrite !Z.shiftr_div_pow2 by lia. change (2 ^ 6) with 64. change (2 ^ 12) with 4096. change (2 ^ 18) with 262144.
  destruct (Z.leb_spec r 0x7F); [by rewrite (wrap_small 8) by lia|].
  destruct (Z.leb_spec r 0x7FF); [|destruct (Z.leb_spec r 0xFFFF)]; f_equal.
  - apply (u8_lead 6 5); [lia| |]; change (2 ^ 5) with 32;
      pose proof (Z.div_pos r 64 ltac:(lia) ltac:(lia));
      pose proof (Z.div_lt_upper_bound r 64 32 ltac:(lia) ltac:(lia)); lia.
  - apply (u8_lead 14 4); [lia| |]; change (2 ^ 4) with 16;
      pose proof (Z.div_pos r 4096 ltac:(lia) ltac:(lia));
      pose proof (Z.div_lt_upper_bound r 4096 16 ltac:(lia) ltac:(lia)); lia.
  - apply (u8_lead 30 3); [lia| |]; change (2 ^ 3) with 8;
      pose proof (Z.div_pos r 262144 ltac:(lia) ltac:(lia));
      pose proof (Z.div_lt_upper_bound r 262144 8 ltac:(lia) ltac:(lia)); lia.
Qed.

(** ** Decoding at a position. *)
Lemma byte_at_app pre l k : byte_at (pre ++ l) (length pre + k) = nth k l 0.
Proof.
  unfold byte_at. rewrite List.app_nth2 by lia. f_equal. lia.
Qed.

(** Reading the tail bytes [t] of a sequence. *)
Definition tail_byte (b : Z) : Prop := 128 <= b < 192.

Lemma continuation_app pre l : forall k n r, Forall tail_byte (take n (drop k l)) -> (k + n <= length l)%nat ->
  decode_continuation (pre ++ l) n (length pre + k) r
  = Some (foldl (fun r b => r * 64 + b mod 64) r (take n (drop k l))).
Proof.
  intros k n. revert k. induction n as [|n IH]; intros k r Ht Hl; [done|].
  cbn [decode_continuation]. rewrite byte_at_app.
  destruct (drop k l) as [|b rest] eqn:Ed.
  { apply (f_equal length) in Ed. rewrite length_drop in Ed. simpl in Ed. lia. }
  assert (Eb : nth k l 0 = b).
  { rewrite <- (Nat.add_0_r k). rewrite <- nth_skipn. change (skipn k l) with (drop k l). by rewrite Ed. }
  rewrite Eb. simpl in Ht. apply Forall_cons in Ht as [Hb Ht]. unfold tail_byte in Hb.
  destruct (continuation_spec b ltac:(unfold is_byte; lia)) as [-> ->].
  destruct (Z.leb_spec 128 b), (Z.ltb_spec b 192); try lia. cbn [andb negb].
  rewrite lor_shiftl_add by (try lia; apply Z.mod_pos_bound; lia). change (2 ^ 6) with 64.
  replace (S (length pre + k)) with (length pre + S k)%nat by lia.
  assert (Er : drop (S k) l = rest).
  { replace (S k) with (k + 1)%nat by lia. rewrite <- drop_drop, Ed. done. }
  rewrite IH; rewrite ?Er; [done|done|lia].
Qed.

(** A well-formed sequence: a lead byte of class [n] and its [n - 1] tail bytes. *)
Lemma decode_sequence pre b0 tl post n r :
  classify b0 = Some (n, r) -> is_byte b0 -> 128 <= b0 -> length tl = (n - 1)%nat -> (1 <= n)%nat ->
  Forall tail_byte tl ->
  goo_utf8_decode (pre ++ (b0 :: tl) ++ post) (length pre)
  = (foldl (fun r b => r * 64 + b mod 64) r tl, n).
Proof.
  intros Hc Hb Hge Htl Hn Ht. unfold goo_utf8_decode.
  pose proof (byte_at_app pre ((b0 :: tl) ++ post) 0) as E0. rewrite Nat.add_0_r in E0. rewrite E0.
  cbn [nth app]. destruct (Z.ltb_spec b0 0x80); [lia|]. rewrite decode_lead_classify, Hc by done.
  destruct (Nat.ltb_spec (length (pre ++ b0 :: tl ++ post)) (length pre + n)) as [H1|_].
  { rewrite length_app in H1. simpl in H1. rewrite length_app in H1. lia. }
  replace (S (length pre)) with (length pre + 1)%nat by lia.
  assert (Et : take (n - 1) (tl ++ post) = tl) by (rewrite <- Htl; apply take_app_length).
  change (b0 :: tl ++ post) with ((b0 :: tl) ++ post).
  rewrite continuation_app; change (drop 1 ((b0 :: tl) ++ post)) with (tl ++ post); rewrite ?Et.
  - done.
  - done.
  - simpl. rewrite length_app. lia.
Qed.

(** Base-64 reassembly. *)
Lemma digits_mod cp : (128 + cp mod 64) mod 64 = cp mod 64.
Proof. rewrite Z.add_mod, Z.mod_mod by lia. change (128 mod 64) with 0. apply Z.mod_mod. lia. Qed.

Lemma tail_ok x : tail_byte (128 + x mod 64).
Proof. unfold tail_byte. pose proof (Z.mod_pos_bound x 64 ltac:(lia)). lia. Qed.

Lemma split_64 x : x / 64 * 64 + x mod 64 = x.
Proof. pose proof (Z.div_mod x 64 ltac:(lia)). lia. Qed.

Lemma decode_encoded pre cp post : 0 <= cp <= 0x10FFFF ->
  goo_utf8_decode (pre ++ encoded cp ++ post) (length pre) = (cp, length (encoded cp)).
Proof.
  intros Hcp. unfold encoded.
  destruct (Z.leb_spec cp 0x7F).
  { unfold goo_utf8_decode. pose proof (byte_at_app pre ([cp] ++ post) 0) as E. rewrite Nat.add_0_r in E.
    rewrite E. cbn [nth app]. by destruct (Z.ltb_spec cp 0x80); [|lia]. }
  destruct (Z.leb_spec cp 0x7FF); [|destruct (Z.leb_spec cp 0xFFFF)].
  - pose proof (Z.div_lt_upper_bound cp 64 32 ltac:(lia) ltac:(lia)). pose proof (Z.div_pos cp 64 ltac:(lia) ltac:(lia)).
    rewrite (decode_sequence pre (192 + cp / 64) [128 + cp mod 64] post 2 (cp / 64)).
    + cbn [foldl]. by rewrite digits_mod, split_64.
    + unfold classify. zcases. simpl. do 2 f_equal. lia.
    + unfold is_byte. lia.
    + lia.
    + done.
    + lia.
    + repeat constructor; apply tail_ok.
  - pose proof (Z.div_lt_upper_bound cp 4096 16 ltac:(lia) ltac:(lia)). pose proof (Z.div_pos cp 4096 ltac:(lia) ltac:(lia)).
    rewrite (decode_sequence pre (224 + cp / 4096) [128 + cp / 64 mod 64; 128 + cp mod 64] post 3 (cp / 4096)).
    + cbn [foldl]. rewrite !digits_mod. change 4096 with (64 * 64). rewrite <- Z.div_div by lia.
      by rewrite !split_64.
    + unfold classify. zcases. simpl. do 2 f_equal. lia.
    + unfold is_byte. lia.
    + lia.
    + done.
    + lia.
    + repeat constructor; apply tail_ok.
  - pose proof (Z.div_lt_upper_bound cp 262144 8 ltac:(lia) ltac:(lia)). pose proof (Z.div_pos cp 262144 ltac:(lia) ltac:(lia)).
    rewrite (decode_sequence pre (240 + cp / 262144)
               [128 + cp / 4096 mod 64; 128 + cp / 64 mod 64; 128 + cp mod 64] post 4 (cp / 262144)).
    + cbn [foldl]. rewrite !digits_mod. change 262144 with (64 * 64 * 64). change 4096 with (64 * 64).
      rewrite <- !Z.div_div by lia. by rewrite !split_64.
    + unfold classify. zcases. simpl. do 2 f_equal. lia.
    + unfold is_byte. lia.
    + lia.
    + done.
    + lia.
    + repeat constructor; apply tail_ok.
Qed.

Lemma valid_range r : valid_rune r = true -> 0 <= r <= 0x10FFFF.
Proof. unfold valid_rune. rewrite !andb_true_iff, !Z.leb_le. tauto. Qed.

Lemma encoded_length cp : (1 <= length (encoded cp) <= 4)%nat.
Proof.
  unfold encoded. destruct (cp <=? 0x7F); [simpl; lia|]. destruct (cp <=? 0x7FF); [simpl; lia|].
  destruct (cp <=? 0xFFFF); simpl; lia.
Qed.

(** C15: UTF-8 round trip.  Decoding at the start of an encoded Unicode scalar value, wherever it
    sits in a string, gives that value back and exactly its encoded width. *)
Theorem utf8_roundtrip pre r post : valid_rune r = true ->
  goo_utf8_decode (pre ++ goo_utf8_encode_rune r ++ post) (length pre)
  = (r, length (goo_utf8_encode_rune r)).
Proof. intros Hr. rewrite encode_valid by done. by apply decode_encoded, valid_range. Qed.

Lemma utf8_roundtrip_witness :
  valid_rune 0x20AC = true /\ goo_utf8_decode [65; 0xE2; 0x82; 0xAC; 66] 1 = (0x20AC, 3%nat).
Proof. split; [reflexivity|]. exact (utf8_roundtrip [65] 0x20AC [66] eq_refl). Defined.

Lemma runes_from_encoded rs : forall fuel pre,
  Forall (fun r => valid_rune r = true) rs ->
  (length (concat (map goo_utf8_encode_rune rs)) <= fuel)%nat ->
  runes_from fuel (pre ++ concat (map goo_utf8_encode_rune rs)) (length pre) = rs.
Proof.
  induction rs as [|r rs IH]; intros fuel pre Hv Hf.
  - destruct fuel; [done|]. simpl. rewrite app_nil_r. by rewrite Nat.leb_refl.
  - apply Forall_cons in Hv as [Hr Hv]. cbn [map concat] in *. rewrite length_app in Hf.
    pose proof (encoded_length r) as Hlen. rewrite <- encode_valid in Hlen by done.
    destruct fuel as [|f]; [lia|]. cbn [runes_from].
    destruct (Nat.leb_spec (length (pre ++ goo_utf8_encode_rune r ++ concat (map goo_utf8_encode_rune rs)))
                (length pre)) as [H|_]; [rewrite !length_app in H; lia|].
    rewrite utf8_roundtrip by done. f_equal.
    rewrite app_assoc, <- length_app. apply IH; [done|lia].
Qed.

(** ranging over a string of encoded runes yields exactly those runes: for every list of
    Unicode scalar values, decoding step by step the concatenation of their encodings gives the
    list back. *)
Theorem range_over_encoded_string rs : Forall (fun r => valid_rune r = true) rs ->
  runes (concat (map goo_utf8_encode_rune rs)) = rs.
Proof. intros H. exact (runes_from_encoded rs _ [] H (Nat.le_refl _)). Qed.

Lemma range_over_encoded_string_witness :
  Forall (fun r => valid_rune r = true) [72; 0xE9; 0x1F600] /\
  runes [72; 0xC3; 0xA9; 0xF0; 0x9F; 0x98; 0x80] = [72; 0xE9; 0x1F600].
Proof.
  split; [by repeat constructor|].
  apply (range_over_encoded_string [72; 0xE9; 0x1F600]). by repeat constructor.
Defined.

(** ** Any bytes. *)
Lemma byte_at_byte data i : Forall is_byte data -> is_byte (byte_at data i).
Proof.
  intros H. unfold byte_at. destruct (decide (i < length data)%nat) as [Hi|Hi].
  - rewrite List.Forall_forall in H. apply H. by apply nth_In.
  - rewrite nth_overflow by lia. unfold is_byte. lia.
Qed.

Lemma continuation_bound data k : forall i r r' b, Forall is_byte data ->
  0 <= r < b -> decode_continuation data k i r = Some r' -> 0 <= r' < b * 64 ^ Z.of_nat k.
Proof.
  induction k as [|k IH]; intros i r r' b Hd Hr; cbn [decode_continuation].
  - intros [= <-]. simpl. lia.
  - destruct (negb _); [done|]. intros H.
    destruct (continuation_spec (byte_at data i) (byte_at_byte data i Hd)) as [_ E]. rewrite E in H.
    pose proof (Z.mod_pos_bound (byte_at data i) 64 ltac:(lia)).
    rewrite lor_shiftl_add in H by lia. change (2 ^ 6) with 64 in H.
    apply (IH _ _ _ (b * 64) Hd) in H; [|lia]. rewrite Nat2Z.inj_succ, Z.pow_succ_r by lia. lia.
Qed.

(** decoding any bytes at any index inside the string consumes between one and four bytes,
    never past the end, and yields a rune below 2^21; so the range loop visits indices in
    strictly increasing order and ends exactly at the end of the string. *)
Theorem utf8_decode_progress data i : Forall is_byte data -> (i < length data)%nat ->
  let '(r, w) := goo_utf8_decode data i in
  (1 <= w <= 4)%nat /\ (i + w <= length data)%nat /\ 0 <= r < 2 ^ 21.
Proof.
  intros Hd Hi. unfold goo_utf8_decode. pose proof (byte_at_byte data i Hd) as Hb.
  assert (Herr : (1 <= 1 <= 4)%nat /\ (i + 1 <= length data)%nat /\ 0 <= RUNE_ERROR < 2 ^ 21).
  { unfold RUNE_ERROR. split_and!; lia. }
  destruct (Z.ltb_spec (byte_at data i) 0x80); [unfold is_byte in Hb; split_and!; lia|].
  rewrite decode_lead_classify by done.
  destruct (classify (byte_at data i)) as [[n r]|] eqn:Ec; [|exact Herr].
  destruct (Nat.ltb_spec (length data) (i + n)); [exact Herr|].
  destruct (decode_continuation data (n - 1) (S i) r) as [r'|] eqn:Ed; [|exact Herr].
  assert (Hn : (n = 2%nat /\ 0 <= r < 32) \/ (n = 3%nat /\ 0 <= r < 16) \/ (n = 4%nat /\ 0 <= r < 8)).
  { unfold classify in Ec. destruct (Z.leb_spec 192 (byte_at data i)), (Z.ltb_spec (byte_at data i) 224),
      (Z.leb_spec 224 (byte_at data i)), (Z.ltb_spec (byte_at data i) 240), (Z.leb_spec 240 (byte_at data i)),
      (Z.ltb_spec (byte_at data i) 248); simpl in Ec; try lia; try done; injection Ec as <- <-; lia. }
  destruct Hn as [[-> ?]|[[-> ?]|[-> ?]]]; (split; [lia|]; split; [lia|]).
  - apply (continuation_bound data 1 _ _ _ 32 Hd) in Ed; [simpl in Ed; lia|lia].
  - apply (continuation_bound data 2 _ _ _ 16 Hd) in Ed; [simpl in Ed; lia|lia].
  - apply (continuation_bound data 3 _ _ _ 8 Hd) in Ed; [simpl in Ed; lia|lia].
Qed.

Lemma utf8_decode_progress_witness :
  goo_utf8_decode [0xF7; 0xBF; 0xBF; 0xBF] 0 = (0x1FFFFF, 4%nat) /\
  (1 <= 4 <= 4)%nat /\ (0 + 4 <= 4)%nat /\ 0 <= 0x1FFFFF < 2 ^ 21.
Proof.
  split; [reflexivity|].
  exact (utf8_decode_progress [0xF7; 0xBF; 0xBF; 0xBF] 0
    ltac:(repeat constructor; done) ltac:(simpl; lia)).
Defined.

(** An invalid code point is encoded as the replacement character. *)
Lemma encode_invalid r : - 2 ^ 31 <= r < 2 ^ 31 -> valid_rune r = false ->
  goo_utf8_encode_rune r = [0xEF; 0xBF; 0xBD].
Proof.
  intros Hr Hv. unfold goo_utf8_encode_rune.
  assert (E : (r <? 0) || ((0xD800 <=? wrap 32 r) && (wrap 32 r <=? 0xDFFF)) || (0x10FFFF <? wrap 32 r) = true).
  { unfold valid_rune in Hv. destruct (Z.ltb_spec r 0); [done|]. rewrite wrap_small by lia.
    destruct (Z.leb_spec 0 r); [|lia]. destruct (Z.ltb_spec 0x10FFFF r); [by rewrite orb_true_r|].
    destruct (Z.leb_spec r 0x10FFFF); [|lia]. simpl in Hv.
    apply negb_false_iff in Hv. by rewrite Hv. }
  rewrite E. reflexivity.
Qed.
