(* ===== verification/RtMap.v ===== *)
(** * RtMap: the runtime's map of [src/runtime/runtime.c] ([GooMapSV]).

    A list of entries with 64-bit key and value slots, scanned linearly.  Whether two key slots
    are equal depends on the map's key kind; [EqLaws] is what the map needs of that test, and
    everything below is proved against it.  Releases ([goo_release] of an owned key) are
    returned as the list of released pointers, in order.  [strings] gives the bytes of the C
    string at an address, up to its NUL. *)
From Stdlib Require Import ZArith Lia Bool String.
From stdpp Require Import base list sorting.
From S2P Require Import Prelude.
Local Open Scope Z_scope.

(** ** Data (include/runtime.h, runtime.c). *)
Inductive map_key_kind : Set :=
| GOO_MAPKEY_STRING | GOO_MAPKEY_INLINE | GOO_MAPKEY_STRUCT | GOO_MAPKEY_IFACE.

Record GooMapEntrySV : Set := mkEntry { key : Z; value : Z; owns_key : bool }.

Record GooMapSV : Type := mkMap {
  head : list GooMapEntrySV;
  key_kind : map_key_kind;
  key_eq : option (Z -> Z -> bool)
}.

Definition with_head (m : GooMapSV) (h : list GooMapEntrySV) : GooMapSV :=
  mkMap h (key_kind m) (key_eq m).

Section map.
Context (strings : Z -> list Z).

Definition goo_map_key_eq (m : GooMapSV) (a b : Z) : bool :=
  match key_kind m with
  | GOO_MAPKEY_STRING =>
      if a =? b then true
      else if (a =? 0) || (b =? 0) then false
      else bool_decide (strings a = strings b)
  | GOO_MAPKEY_STRUCT | GOO_MAPKEY_IFACE =>
      match key_eq m with Some eq => eq a b | None => a =? b end
  | GOO_MAPKEY_INLINE => a =? b
  end.

Definition pointer_keys (m : GooMapSV) : bool :=
  match key_kind m with GOO_MAPKEY_STRING | GOO_MAPKEY_STRUCT => true | _ => false end.

(** The pointers released on behalf of an entry that dies. *)
Definition goo_map_entry_release_key (m : GooMapSV) (e : GooMapEntrySV) : list Z :=
  if owns_key e && pointer_keys m then [key e] else [].

Definition goo_map_new_sv (kind : map_key_kind) (eq : option (Z -> Z -> bool)) : GooMapSV :=
  mkMap [] kind eq.

(** The scan of both setters: the list with the first equal key's value replaced, and that
    key's slot; [None] when no key is equal. *)
Fixpoint scan_set (m : GooMapSV) (es : list GooMapEntrySV) (k v : Z)
    : option (list GooMapEntrySV * Z) :=
  match es with
  | [] => None
  | e :: rest =>
      if goo_map_key_eq m (key e) k then Some (mkEntry (key e) v (owns_key e) :: rest, key e)
      else match scan_set m rest k v with
           | Some (rest', k') => Some (e :: rest', k')
           | None => None
           end
  end.

Definition goo_map_set_sv (m : option GooMapSV) (k v : Z) : outcome GooMapSV :=
  match m with
  | None => Panic "assignment to entry in nil map"
  | Some m =>
      match scan_set m (head m) k v with
      | Some (es, _) => Ok (with_head m es)
      | None => Ok (with_head m (mkEntry k v false :: head m))
      end
  end.

Definition goo_map_set_sv_owning (m : option GooMapSV) (k v : Z) : outcome (GooMapSV * list Z) :=
  match m with
  | None => Panic "assignment to entry in nil map"
  | Some m =>
      match scan_set m (head m) k v with
      | Some (es, k') =>
          Ok (with_head m es, if pointer_keys m && negb (k =? k') then [k] else [])
      | None => Ok (with_head m (mkEntry k v true :: head m), [])
      end
  end.

Fixpoint scan_get (m : GooMapSV) (es : list GooMapEntrySV) (k : Z) : option Z :=
  match es with
  | [] => None
  | e :: rest => if goo_map_key_eq m (key e) k then Some (value e) else scan_get m rest k
  end.

Definition goo_map_get_sv (m : option GooMapSV) (k : Z) : Z :=
  match m with None => 0 | Some m => from_option id 0 (scan_get m (head m) k) end.

(** [*out] and [*found]. *)
Definition goo_map_get_sv_ok (m : option GooMapSV) (k : Z) : Z * bool :=
  match m with
  | None => (0, false)
  | Some m => match scan_get m (head m) k with Some v => (v, true) | None => (0, false) end
  end.

Definition goo_map_len_sv (m : option GooMapSV) : Z :=
  match m with None => 0 | Some m => Z.of_nat (length (head m)) end.

(** A cursor is the rest of the entry list. *)
Definition goo_map_iter_init_sv (m : option GooMapSV) : list GooMapEntrySV :=
  match m with None => [] | Some m => head m end.
Definition goo_map_iter_next_sv (cursor : list GooMapEntrySV)
    : option (Z * Z * list GooMapEntrySV) :=
  match cursor with [] => None | e :: next => Some (key e, value e, next) end.

Fixpoint scan_delete (m : GooMapSV) (es : list GooMapEntrySV) (k : Z)
    : list GooMapEntrySV * list Z :=
  match es with
  | [] => ([], [])
  | e :: rest =>
      if goo_map_key_eq m (key e) k then (rest, goo_map_entry_release_key m e)
      else let '(rest', rel) := scan_delete m rest k in (e :: rest', rel)
  end.

Definition goo_map_delete_sv (m : option GooMapSV) (k : Z) : option GooMapSV * list Z :=
  match m with
  | None => (None, [])
  | Some m => let '(es, rel) := scan_delete m (head m) k in (Some (with_head m es), rel)
  end.

Fixpoint release_all (m : GooMapSV) (es : list GooMapEntrySV) : list Z :=
  match es with
  | [] => []
  | e :: rest => goo_map_entry_release_key m e ++ release_all m rest
  end.

Definition goo_map_clear_sv (m : option GooMapSV) : option GooMapSV * list Z :=
  match m with
  | None => (None, [])
  | Some m => (Some (with_head m []), release_all m (head m))
  end.

Definition goo_map_dtor (m : option GooMapSV) : option GooMapSV * list Z := goo_map_clear_sv m.

(** ** What the map needs of key equality. *)
Class EqLaws (eq : Z -> Z -> bool) : Prop := {
  eq_refl_law a : eq a a = true;
  eq_sym_law a b : eq a b = eq b a;
  eq_trans_law a b c : eq a b = true -> eq b c = true -> eq a c = true
}.

#[local] Instance bits_laws : EqLaws Z.eqb.
Proof.
  split; intros; [apply Z.eqb_refl|apply Z.eqb_sym|].
  rewrite !Z.eqb_eq in *. congruence.
Qed.

(** String keys compare as their bytes, inline keys as their bits, struct and interface keys as
    the map's comparator does. *)
Lemma key_eq_laws m :
  (forall eq, key_eq m = Some eq -> EqLaws eq) -> EqLaws (goo_map_key_eq m).
Proof.
  intros Hc. unfold goo_map_key_eq. destruct (key_kind m).
  - split.
    + intros a. by rewrite Z.eqb_refl.
    + intros a b. rewrite (Z.eqb_sym b a), (orb_comm (b =? 0)). destruct (a =? b), ((a =? 0) || (b =? 0)); try done.
      apply bool_decide_ext. done.
    + intros a b c. destruct (Z.eqb_spec a b) as [->|]; [done|].
      destruct ((a =? 0) || (b =? 0)) eqn:E1; [done|]. intros H1%bool_decide_eq_true_1.
      destruct (Z.eqb_spec b c) as [->|]; [intros _|].
      * destruct (Z.eqb_spec a c); [done|]. rewrite E1. by apply bool_decide_eq_true_2.
      * destruct ((b =? 0) || (c =? 0)) eqn:E2; [done|]. intros H2%bool_decide_eq_true_1.
        destruct (Z.eqb_spec a c); [done|].
        apply orb_false_iff in E1 as [-> _]. apply orb_false_iff in E2 as [_ ->]. simpl.
        apply bool_decide_eq_true_2. congruence.
  - apply bits_laws.
  - destruct (key_eq m) as [eq|] eqn:E; [by apply Hc|apply bits_laws].
  - destruct (key_eq m) as [eq|] eqn:E; [by apply Hc|apply bits_laws].
Qed.
End map.

(** ** The list as a finite map over key classes. *)
Section laws.
Context (strings : Z -> list Z) (m : GooMapSV) `{L : !EqLaws (goo_map_key_eq strings m)}.
Abbreviation eqk := (goo_map_key_eq strings m).

Definition distinct_keys (es : list GooMapEntrySV) : Prop :=
  ForallOrdPairs (fun a b => eqk (key a) (key b) = false) es.
Definition absent (es : list GooMapEntrySV) (k : Z) : Prop :=
  Forall (fun e => eqk (key e) k = false) es.

(** Equal keys are interchangeable. *)
Lemma eqk_cong a b c : eqk a b = true -> eqk c a = eqk c b.
Proof.
  intros H. destruct (eqk c a) eqn:E1, (eqk c b) eqn:E2; try done.
  - by rewrite (eq_trans_law c a b) in E2.
  - rewrite eq_sym_law in H. by rewrite (eq_trans_law c b a) in E1.
Qed.

Lemma distinct_cons e es : distinct_keys (e :: es) <->
  Forall (fun b => eqk (key e) (key b) = false) es /\ distinct_keys es.
Proof. split; [intros H; by inversion H|intros []; by constructor]. Qed.

Lemma scan_get_absent es k : scan_get strings m es k = None <-> absent es k.
Proof.
  induction es as [|e es IH]; simpl; [split; [constructor|done]|].
  unfold absent in *. rewrite Forall_cons. destruct (eqk (key e) k); [split; [done|by intros []]|].
  rewrite IH. split; [by split|tauto].
Qed.

Lemma scan_set_none es k v : scan_set strings m es k v = None <-> absent es k.
Proof.
  induction es as [|e es IH]; simpl; [split; [constructor|done]|].
  unfold absent in *. rewrite Forall_cons. destruct (eqk (key e) k); [split; [done|by intros []]|].
  destruct (scan_set strings m es k v) as [[]|]; rewrite <- IH; [split; [done|by intros []]|].
  split; [by split|done].
Qed.

(** Replacing a value keeps the keys and changes the lookups of that class only. *)
Lemma scan_set_some es k v es' k' : scan_set strings m es k v = Some (es', k') ->
  map key es' = map key es /\ map owns_key es' = map owns_key es /\ In k' (map key es) /\ eqk k' k = true /\
  forall q, scan_get strings m es' q = if eqk k q then Some v else scan_get strings m es q.
Proof.
  revert es'. induction es as [|e es IH]; intros es'; simpl; [done|].
  destruct (eqk (key e) k) eqn:E.
  - intros [= <- <-]. simpl. split_and!; [done|done|by left|done|]. intros q.
    rewrite (eq_sym_law k q), <- (eqk_cong (key e) k q) by done. rewrite (eq_sym_law q).
    by destruct (eqk (key e) q).
  - destruct (scan_set strings m es k v) as [[es1 k1]|]; [|done]. intros [= <- <-].
    destruct (IH es1 eq_refl) as (Hk&Ho&Hin&He&Hg). simpl.
    rewrite Hk, Ho. split_and!; [done|done|by right|done|]. intros q. rewrite Hg.
    destruct (eqk (key e) q) eqn:Eq; [|done]. destruct (eqk k q) eqn:Ek; [|done].
    rewrite (eq_sym_law k q) in Ek. by rewrite (eq_trans_law (key e) q k) in E.
Qed.

Lemma scan_delete_spec es k : distinct_keys es ->
  let es' := (scan_delete strings m es k).1 in
  distinct_keys es' /\ (forall a, absent es a -> absent es' a) /\
  forall q, scan_get strings m es' q = if eqk k q then None else scan_get strings m es q.
Proof.
  induction es as [|e es IH]; simpl; intros Hd.
  - split_and!; [done|done|]. intros q. by destruct (eqk k q).
  - apply distinct_cons in Hd as [Hf Hd]. destruct (eqk (key e) k) eqn:E; simpl.
    + split_and!; [done|intros a Ha; by inversion Ha|]. intros q.
      rewrite (eq_sym_law k q), <- (eqk_cong (key e) k q) by done. rewrite (eq_sym_law q).
      destruct (eqk (key e) q) eqn:Eq; [|done]. apply scan_get_absent.
      eapply Forall_impl; [exact Hf|]. simpl. intros b Hb.
      rewrite <- (eqk_cong (key e) q (key b)) by done. by rewrite eq_sym_law.
    + destruct (scan_delete strings m es k) as [es1 rel]. destruct (IH Hd) as (Hd'&Ha'&Hg). simpl in *.
      split_and!.
      * apply distinct_cons. split; [|done]. eapply Forall_impl; [apply (Ha' (key e))|].
        -- eapply Forall_impl; [exact Hf|]. intros b Hb. by rewrite eq_sym_law.
        -- intros b Hb. simpl in *. by rewrite eq_sym_law.
      * intros a Ha. apply Forall_cons in Ha as [??]. constructor; [done|]. by apply Ha'.
      * intros q. rewrite Hg. destruct (eqk (key e) q) eqn:Eq; [|done].
        destruct (eqk k q) eqn:Ek; [|done]. rewrite (eq_sym_law k q) in Ek.
        by rewrite (eq_trans_law (key e) q k) in E.
Qed.

Lemma distinct_same_keys es es' : map key es' = map key es -> distinct_keys es -> distinct_keys es'.
Proof.
  revert es'. induction es as [|e es IH]; intros [|e' es'] H; try done. simpl in H. injection H as H1 H2.
  rewrite !distinct_cons. intros [Hf Hd]. split; [|by apply IH]. rewrite H1.
  apply (Forall_map key (fun b => eqk (key e) b = false)). rewrite H2. by apply Forall_map.
Qed.
End laws.

(** The scans look at the kind and comparator of the map, not at its entries. *)
Section with_head.
Context (strings : Z -> list Z) (m : GooMapSV) (h : list GooMapEntrySV).

Lemma scan_set_head es k v : scan_set strings (with_head m h) es k v = scan_set strings m es k v.
Proof. induction es as [|e es IH]; simpl; [done|]. by rewrite IH. Qed.
Lemma scan_get_head es k : scan_get strings (with_head m h) es k = scan_get strings m es k.
Proof. induction es as [|e es IH]; simpl; [done|]. by rewrite IH. Qed.
Lemma scan_delete_head es k : scan_delete strings (with_head m h) es k = scan_delete strings m es k.
Proof. induction es as [|e es IH]; simpl; [done|]. by rewrite IH. Qed.
Lemma release_all_head es : release_all (with_head m h) es = release_all m es.
Proof. induction es as [|e es IH]; simpl; [done|]. by rewrite IH. Qed.
End with_head.

(** ** Programs of map operations. *)
Inductive map_op : Set :=
| OpSet (k v : Z)
| OpSetOwning (k v : Z)
| OpDelete (k : Z)
| OpClear.

(** One operation on a map that was made: the map and the released pointers. *)
Definition map_step (strings : Z -> list Z) (m : GooMapSV) (op : map_op) : outcome (GooMapSV * list Z) :=
  match op with
  | OpSet k v => obind (goo_map_set_sv strings (Some m) k v) (fun m' => Ok (m', []))
  | OpSetOwning k v => goo_map_set_sv_owning strings (Some m) k v
  | OpDelete k =>
      let '(m', rel) := goo_map_delete_sv strings (Some m) k in Ok (default m m', rel)
  | OpClear => let '(m', rel) := goo_map_clear_sv (Some m) in Ok (default m m', rel)
  end.

Fixpoint map_run (strings : Z -> list Z) (m : GooMapSV) (ops : list map_op) : outcome (GooMapSV * list Z) :=
  match ops with
  | [] => Ok (m, [])
  | op :: rest =>
      obind (map_step strings m op) (fun '(m1, r1) =>
      obind (map_run strings m1 rest) (fun '(m2, r2) => Ok (m2, r1 ++ r2)))
  end.

(** A [for k, v := range m] loop: the pairs it visits. *)
Fixpoint range_loop (fuel : nat) (cursor : list GooMapEntrySV) : list (Z * Z) :=
  match fuel with
  | O => []
  | S f => match goo_map_iter_next_sv cursor with
           | None => []
           | Some (k, v, next) => (k, v) :: range_loop f next
           end
  end.
Definition goo_map_range (m : option GooMapSV) : list (Z * Z) :=
  range_loop (S (Z.to_nat (goo_map_len_sv m))) (goo_map_iter_init_sv m).

(** *** The specification: a partial function on keys, and the order of live keys. *)
Section spec.
Context (eq : Z -> Z -> bool).

Definition spec_step (f : Z -> option Z) (op : map_op) : Z -> option Z :=
  match op with
  | OpSet k v | OpSetOwning k v => fun q => if eq k q then Some v else f q
  | OpDelete k => fun q => if eq k q then None else f q
  | OpClear => fun _ => None
  end.
Definition spec_run (ops : list map_op) : Z -> option Z := foldl spec_step (fun _ => None) ops.

(** Most recently inserted first; overwriting keeps a key's place. *)
Definition order_step (l : list Z) (op : map_op) : list Z :=
  match op with
  | OpSet k _ | OpSetOwning k _ => if existsb (fun a => eq a k) l then l else k :: l
  | OpDelete k => List.filter (fun a => negb (eq a k)) l
  | OpClear => []
  end.
Definition order_run (ops : list map_op) : list Z := foldl order_step [] ops.
End spec.

Section refinement.
Context (strings : Z -> list Z) (m0 : GooMapSV) `{L : !EqLaws (goo_map_key_eq strings m0)}.
Abbreviation eqk := (goo_map_key_eq strings m0).

Lemma absent_existsb es k : absent strings m0 es k <-> existsb (fun a => eqk a k) (map key es) = false.
Proof.
  unfold absent. induction es as [|e es IH]; simpl; [by split|].
  rewrite Forall_cons, IH, orb_false_iff. done.
Qed.

Lemma filter_absent es k : absent strings m0 es k ->
  List.filter (fun a => negb (eqk a k)) (map key es) = map key es.
Proof.
  unfold absent. induction es as [|e es IH]; [done|]. rewrite Forall_cons. intros [H1 H2].
  cbn [map List.filter]. rewrite H1. cbn. f_equal. by apply IH.
Qed.

Lemma delete_keys es k : distinct_keys strings m0 es ->
  map key (scan_delete strings m0 es k).1 = List.filter (fun a => negb (eqk a k)) (map key es).
Proof.
  induction es as [|e es IH]; [done|]. intros Hd. apply (distinct_cons strings m0) in Hd as [Hf Hd].
  cbn [scan_delete map List.filter]. destruct (eqk (key e) k) eqn:E; cbn.
  - symmetry. apply filter_absent. unfold absent. eapply Forall_impl; [exact Hf|]. simpl. intros b Hb.
    rewrite <- (eqk_cong strings m0 (key e) k (key b)) by done. by rewrite eq_sym_law.
  - specialize (IH Hd). destruct (scan_delete strings m0 es k). cbn in *. by rewrite IH.
Qed.

(** The entry list implements the specification. *)
Definition simulates (es : list GooMapEntrySV) (f : Z -> option Z) (l : list Z) : Prop :=
  distinct_keys strings m0 es /\ map key es = l /\ forall q, scan_get strings m0 es q = f q.

(** The four shapes an operation gives the entry list. *)
Lemma set_simulates es f l k v es1 : simulates es f l ->
  (exists k1, scan_set strings m0 es k v = Some (es1, k1)) \/
  (scan_set strings m0 es k v = None /\ map key es1 = k :: l /\ exists o, es1 = mkEntry k v o :: es) ->
  simulates es1 (fun q => if eqk k q then Some v else f q)
    (if existsb (fun a => eqk a k) l then l else k :: l).
Proof.
  intros (Hd&<-&Hg) [[k1 E]|(E&_&o&->)].
  - destruct (scan_set_some strings m0 es k v es1 k1 E) as (Hk&_&_&_&Hs).
    assert (existsb (fun a => eqk a k) (map key es) = true) as ->.
    { apply not_false_is_true. intros H. apply absent_existsb in H.
      apply (scan_set_none strings m0 es k v) in H. congruence. }
    split_and!; [by apply (distinct_same_keys strings m0 es)|done|]. intros q. by rewrite Hs, Hg.
  - apply scan_set_none in E. rewrite (proj1 (absent_existsb es k) E).
    split_and!; [|done|].
    + apply distinct_cons. split; [|done]. eapply Forall_impl; [exact E|]. simpl. intros b Hb. by rewrite eq_sym_law.
    + intros q. simpl. by rewrite Hg.
Qed.

Lemma step_simulates es f l op : simulates es f l ->
  exists es' rel, map_step strings (with_head m0 es) op = Ok (with_head m0 es', rel) /\
    simulates es' (spec_step eqk f op) (order_step eqk l op).
Proof.
  intros Hs. destruct op as [k v|k v|k|]; simpl.
  - rewrite scan_set_head.
    destruct (scan_set strings m0 es k v) as [[es1 k1]|] eqn:E; simpl; do 2 eexists; split; try reflexivity.
    + apply (set_simulates es); [done|]. left. eauto.
    + apply (set_simulates es); [done|]. right. destruct Hs as (_&<-&_). eauto.
  - rewrite scan_set_head.
    destruct (scan_set strings m0 es k v) as [[es1 k1]|] eqn:E; simpl; do 2 eexists; split; try reflexivity.
    + apply (set_simulates es); [done|]. left. eauto.
    + apply (set_simulates es); [done|]. right. destruct Hs as (_&<-&_). eauto.
  - rewrite scan_delete_head.
    destruct Hs as (Hd&<-&Hg). pose proof (scan_delete_spec strings m0 es k Hd) as (Hd'&_&Hg').
    pose proof (delete_keys es k Hd) as Hk.
    destruct (scan_delete strings m0 es k) as [es1 rel]. simpl in *. do 2 eexists. split; [reflexivity|].
    split_and!; [done|done|]. intros q. by rewrite Hg', Hg.
  - do 2 eexists. split; [reflexivity|]. split_and!; [constructor|done|done].
Qed.

Lemma run_simulates ops : forall es f l, simulates es f l ->
  exists es' rel, map_run strings (with_head m0 es) ops = Ok (with_head m0 es', rel) /\
    simulates es' (foldl (spec_step eqk) f ops) (foldl (order_step eqk) l ops).
Proof.
  induction ops as [|op ops IH]; intros es f l Hs; [exists es, []; by split|].
  destruct (step_simulates es f l op Hs) as (es1&r1&E1&H1).
  destruct (IH _ _ _ H1) as (es2&r2&E2&H2). exists es2, (r1 ++ r2).
  cbn [map_run]. rewrite E1. cbn [obind]. by rewrite E2.
Qed.
End refinement.

(** ** The properties. *)
Lemma new_run strings kind cmp ops : (forall eq, cmp = Some eq -> EqLaws eq) ->
  let m0 := goo_map_new_sv kind cmp in
  let eq := goo_map_key_eq strings m0 in
  exists es rel, map_run strings m0 ops = Ok (with_head m0 es, rel) /\
    simulates strings m0 es (spec_run eq ops) (order_run eq ops).
Proof.
  intros Hc m0 eq. pose proof (key_eq_laws strings m0 Hc) as L.
  apply (run_simulates strings m0 ops [] (fun _ => None) []).
  split_and!; [constructor|done|done].
Qed.


(** The string at 100 and the one at 200 are equal; 300 is another. *)
Definition demo_strings (p : Z) : list Z := if p =? 300 then [98] else [97].
Definition demo_ops : list map_op :=
  [OpSet 100 1; OpSetOwning 300 2; OpSetOwning 200 3; OpDelete 300; OpSet 300 7].


Lemma range_loop_entries es : forall fuel, (length es < fuel)%nat ->
  range_loop fuel es = map (fun e => (key e, value e)) es.
Proof.
  induction es as [|e es IH]; intros [|f] Hf; simpl in Hf; try lia; [done|].
  simpl. f_equal. apply IH. lia.
Qed.

Lemma map_range_entries m : goo_map_range (Some m) = map (fun e => (key e, value e)) (head m).
Proof.
  unfold goo_map_range. cbn [goo_map_len_sv goo_map_iter_init_sv]. rewrite Nat2Z.id.
  apply range_loop_entries. lia.
Qed.

Lemma scan_get_in strings m es q v : scan_get strings m es q = Some v ->
  exists k, In (k, v) (map (fun e => (key e, value e)) es) /\ goo_map_key_eq strings m k q = true.
Proof.
  induction es as [|e es IH]; simpl; [done|]. destruct (goo_map_key_eq strings m (key e) q) eqn:E.
  - intros [= <-]. exists (key e). auto.
  - intros H. destruct (IH H) as (k&?&?). eauto.
Qed.

Lemma scan_get_of_entry strings m (L : EqLaws (goo_map_key_eq strings m)) es k v :
  distinct_keys strings m es ->
  In (k, v) (map (fun e => (key e, value e)) es) -> scan_get strings m es k = Some v.
Proof.
  induction es as [|e es IH]; [done|]. intros [Hf Hd]%distinct_cons [H|H]; simpl.
  - injection H as <- <-. by rewrite eq_refl_law.
  - assert (goo_map_key_eq strings m (key e) k = false) as ->; [|by apply IH].
    apply in_map_iff in H as (e'&[= <- <-]&Hin). rewrite List.Forall_forall in Hf. by apply Hf.
Qed.

(** ranging over a map visits every live key class exactly once, in reverse order of
    insertion (an overwritten key keeps its place), each with its current value, and [len] is
    the number of iterations. *)
Theorem map_range_exact strings kind cmp ops
  (Hcmp : forall eq, cmp = Some eq -> EqLaws eq) :
  let eq := goo_map_key_eq strings (goo_map_new_sv kind cmp) in
  exists m rel, map_run strings (goo_map_new_sv kind cmp) ops = Ok (m, rel) /\
  map fst (goo_map_range (Some m)) = order_run eq ops /\
  ForallOrdPairs (fun a b => eq a b = false) (order_run eq ops) /\
  goo_map_len_sv (Some m) = Z.of_nat (length (order_run eq ops)) /\
  (forall k v, In (k, v) (goo_map_range (Some m)) -> spec_run eq ops k = Some v) /\
  (forall q v, spec_run eq ops q = Some v -> exists k, In (k, v) (goo_map_range (Some m)) /\ eq k q = true).
Proof.
  intros eq. pose proof (key_eq_laws strings (goo_map_new_sv kind cmp) Hcmp) as L.
  destruct (new_run strings kind cmp ops Hcmp) as (es&rel&Hr&Hd&Hk&Hg). fold eq in Hk, Hg.
  exists (with_head (goo_map_new_sv kind cmp) es), rel. rewrite map_range_entries. cbn [with_head head goo_map_len_sv].
  split_and!; [done|by rewrite map_map| |by rewrite <- Hk, length_map| |].
  - rewrite <- Hk. clear -Hd. induction Hd as [|e es Hf Hd IH]; [constructor|].
    constructor; [by apply Forall_map|done].
  - intros k v Hin. rewrite <- Hg. by apply scan_get_of_entry.
  - intros q v Hq. rewrite <- Hg in Hq. by apply scan_get_in in Hq.
Qed.

Lemma map_range_exact_witness : exists m rel,
  map_run demo_strings (goo_map_new_sv GOO_MAPKEY_STRING None) demo_ops = Ok (m, rel) /\
  map fst (goo_map_range (Some m)) = [300; 100] /\ goo_map_len_sv (Some m) = 2.
Proof.
  destruct (map_range_exact demo_strings GOO_MAPKEY_STRING None demo_ops
    ltac:(intros eq H; discriminate H)) as (m&rel&H&Hf&_&Hl&_).
  exists m, rel. split; [exact H|]. split; [exact Hf|exact Hl].
Defined.

(** ** Key ownership. *)
Definition owned_keys (es : list GooMapEntrySV) : list Z := map key (List.filter owns_key es).

(** The key an operation hands over to the map. *)
Definition handed (op : map_op) : list Z := match op with OpSetOwning k _ => [k] | _ => [] end.

(** A handed-over key is a live allocation of its own: no entry's key has its address. *)
Fixpoint fresh_handover (strings : Z -> list Z) (m : GooMapSV) (ops : list map_op) : Prop :=
  match ops with
  | [] => True
  | op :: rest =>
      Forall (fun k => ~ In k (map key (head m))) (handed op) /\
      match map_step strings m op with
      | Ok (m', _) => fresh_handover strings m' rest
      | Panic _ => True
      end
  end.

Section ownership.
Context (strings : Z -> list Z).

Lemma release_all_owned m es : pointer_keys m = true -> release_all m es = owned_keys es.
Proof.
  intros Hp. unfold owned_keys. induction es as [|e es IH]; [done|]. simpl. rewrite IH.
  unfold goo_map_entry_release_key. rewrite Hp. by destruct (owns_key e).
Qed.

Lemma owned_same es es' : map key es' = map key es -> map owns_key es' = map owns_key es ->
  owned_keys es' = owned_keys es.
Proof.
  unfold owned_keys. revert es'. induction es as [|e es IH]; intros [|e' es']; try done.
  simpl. intros [= H1 H2] [= H3 H4]. rewrite H3. destruct (owns_key e); simpl; [rewrite H1; f_equal|]; by apply IH.
Qed.

Lemma scan_set_owned m es k v es' k' : scan_set strings m es k v = Some (es', k') ->
  owned_keys es' = owned_keys es /\ In k' (map key es).
Proof.
  intros H. assert (map key es' = map key es /\ map owns_key es' = map owns_key es /\ In k' (map key es))
    as (H1&H2&H3); [|by split; [apply owned_same|]].
  revert es' H. induction es as [|e es IH]; intros es'; simpl; [done|].
  destruct (goo_map_key_eq strings m (key e) k); [intros [= <- <-]; auto|].
  destruct (scan_set strings m es k v) as [[es1 k1]|]; [|done]. intros [= <- <-].
  destruct (IH es1 eq_refl) as (H1&H2&H3). simpl. rewrite H1, H2. auto.
Qed.

Lemma scan_delete_owned m es k : pointer_keys m = true ->
  owned_keys es ≡ₚ (scan_delete strings m es k).2 ++ owned_keys (scan_delete strings m es k).1.
Proof.
  intros Hp. unfold owned_keys. induction es as [|e es IH]; [done|]. cbn [scan_delete].
  destruct (goo_map_key_eq strings m (key e) k).
  - unfold goo_map_entry_release_key. rewrite Hp. simpl. by destruct (owns_key e).
  - destruct (scan_delete strings m es k) as [es1 rel]. simpl in *.
    destruct (owns_key e); simpl; [|done]. rewrite IH. by rewrite Permutation_middle.
Qed.

Lemma step_ownership m op m' rel : pointer_keys m = true ->
  Forall (fun k => ~ In k (map key (head m))) (handed op) ->
  map_step strings m op = Ok (m', rel) ->
  pointer_keys m' = true /\ handed op ++ owned_keys (head m) ≡ₚ rel ++ owned_keys (head m').
Proof.
  intros Hp Hf. destruct op as [k v|k v|k|]; simpl in *.
  - destruct (scan_set strings m (head m) k v) as [[es k']|] eqn:E; simpl; intros [= <- <-]; [|done].
    apply scan_set_owned in E as [E _]. split; [done|]. simpl. by rewrite E.
  - apply Forall_cons in Hf as [Hf _].
    destruct (scan_set strings m (head m) k v) as [[es k']|] eqn:E; simpl; intros [= <- <-]; [|done].
    apply scan_set_owned in E as [E Hin]. split; [done|]. simpl. rewrite E, Hp.
    destruct (Z.eqb_spec k k') as [->|]; done.
  - pose proof (scan_delete_owned m (head m) k Hp) as Ho.
    destruct (scan_delete strings m (head m) k) as [es rel']. simpl in *. by intros [= <- <-].
  - intros [= <- <-]. split; [done|]. simpl. rewrite (release_all_owned m) by done. by rewrite app_nil_r.
Qed.

Lemma run_ownership ops : forall m m' rel, pointer_keys m = true -> fresh_handover strings m ops ->
  map_run strings m ops = Ok (m', rel) ->
  pointer_keys m' = true /\ flat_map handed ops ++ owned_keys (head m) ≡ₚ rel ++ owned_keys (head m').
Proof.
  induction ops as [|op ops IH]; intros m m' rel Hp Hf; simpl in *; [by intros [= <- <-]|].
  destruct Hf as [H1 H2]. destruct (map_step strings m op) as [[m1 r1]|] eqn:E1; [|done]. simpl.
  destruct (map_run strings m1 ops) as [[m2 r2]|] eqn:E2; [|done]. simpl. intros [= <- <-].
  destruct (step_ownership m op m1 r1 Hp H1 E1) as [Hp1 Hs].
  destruct (IH m1 m2 r2 Hp1 H2 E2) as [Hp2 Hr]. split; [done|].
  rewrite <- !app_assoc, (Permutation_app_comm (handed op)), <- app_assoc,
    (Permutation_app_comm (owned_keys _)), Hs, <- Hr.
  rewrite !app_assoc. by rewrite (Permutation_app_comm (flat_map _ _) r1).
Qed.
End ownership.

(** C14: key ownership is exact.  Over any run of a map with string or struct keys and the
    destructor at its end, the keys released are, as a multiset, exactly the keys that owning
    sets handed over: each of them is released once (when its entry is deleted or cleared, when
    an equal key is already there, or by the destructor), and no borrowed key ever is. *)
Theorem map_key_ownership strings kind cmp ops m rel
  (Hptr : kind = GOO_MAPKEY_STRING \/ kind = GOO_MAPKEY_STRUCT)
  (Hfresh : fresh_handover strings (goo_map_new_sv kind cmp) ops)
  (Hrun : map_run strings (goo_map_new_sv kind cmp) ops = Ok (m, rel)) :
  Permutation (flat_map handed ops) (rel ++ (goo_map_dtor (Some m)).2).
Proof.
  assert (Hp : pointer_keys (goo_map_new_sv kind cmp) = true) by (by destruct Hptr as [-> | ->]).
  destruct (run_ownership strings ops _ _ _ Hp Hfresh Hrun) as [Hp' H]. simpl in H. rewrite app_nil_r in H.
  simpl. by rewrite release_all_owned.
Qed.

Lemma map_key_ownership_witness :
  map_run demo_strings (goo_map_new_sv GOO_MAPKEY_STRING None) demo_ops
  = Ok (mkMap [mkEntry 300 7 false; mkEntry 100 3 false] GOO_MAPKEY_STRING None, [200; 300]) /\
  Permutation (flat_map handed demo_ops) ([200; 300] ++ []).
Proof.
  split; [reflexivity|].
  apply (map_key_ownership demo_strings GOO_MAPKEY_STRING None demo_ops
    (mkMap [mkEntry 300 7 false; mkEntry 100 3 false] GOO_MAPKEY_STRING None)); [by left| |reflexivity].
  simpl. split_and!; try exact I; repeat constructor; simpl; lia.
Defined.
