(* ===== verification/Arc.v ===== *)
(** * Arc: the reference count of [src/runtime/runtime.c] under concurrent use.

    One heap object, shared by any number of goroutines that run at once.  Each call
    ([goo_retain], [goo_release_with] with the [goo_free] it ends in, [goo_make_immortal]) is
    split at its atomic accesses of the header, and any interleaving of those is a schedule.
    The compiler's obligation, that a goroutine retains and releases through a reference it
    holds, is the guard of a call.  Touching the header of a freed object is a fault. *)
From Stdlib Require Import ZArith Lia Bool String.
From stdpp Require Import base list.
From S2P Require Import Prelude.
Local Open Scope Z_scope.

Definition GOO_OBJ_HEADER_SIZE : Z := 16.
Definition GOO_RC_IMMORTAL : Z := 2 ^ 64 - 1.

(** ** Allocation requests.  A pointer is the shared zero-size sentinel or a block. *)
Inductive pointer : Set := NULL | goo_zerobase | Payload (base : Z).

Definition goo_obj_headerless (p : pointer) : bool :=
  match p with NULL | goo_zerobase => true | Payload _ => false end.

(** [malloc] answers the base of a block of the size asked for, or 0. *)
Definition goo_alloc (malloc : Z -> Z) (size : Z) : outcome pointer :=
  if size =? 0 then Ok goo_zerobase
  else if SIZE_MAX - GOO_OBJ_HEADER_SIZE <? size then Panic "Out of memory"
  else let base := malloc (u64 (GOO_OBJ_HEADER_SIZE + size)) in
       if base =? 0 then Panic "Out of memory" else Ok (Payload base).

(** The pointers [goo_slice_release_elems] releases, in order; [load off] is the pointer stored
    at byte [off] of the buffer. *)
Definition goo_slice_release_elems (load : Z -> pointer) (buf : pointer) (len stride : Z) : list pointer :=
  match buf with
  | NULL => []
  | _ => if (len <=? 0) || (stride <=? 0) then []
         else map (fun i => load (Z.of_nat i * stride)) (seq 0 (Z.to_nat len))
  end.

(** ** The object, the goroutines, the faults. *)
Record object : Set := mkObj { rc : Z; freed : bool; dtor_runs : nat; frees : nat }.

Definition with_rc (o : object) (n : Z) : object := mkObj n (freed o) (dtor_runs o) (frees o).

(** What a goroutine does next: the accesses of the three functions, in the order of the code. *)
Inductive pc : Set :=
| Idle
| RetainLoad | RetainAdd
| ReleaseLoad | ReleaseSub | ReleaseDtor | FreeLoad | FreePoison | FreeBase
| ImmortalLoad | ImmortalStore.

#[global] Instance pc_eq_dec : EqDecision pc.
Proof. solve_decision. Defined.

Record thread : Set := mkThread { refs : nat; at_ : pc }.
Definition goto (th : thread) (p : pc) : thread := mkThread (refs th) p.

Inductive fault : Set := UseAfterFree | CountZero.

Record arc : Set := mkArc { obj : object; threads : list thread; failed : option fault }.

(** [obj]'s destructor is the same at every release; poisoning is a process-wide switch. *)
Section code.
Context (has_dtor poison_enabled : bool).

Definition goo_retain_step (o : object) (th : thread) : object * thread :=
  match at_ th with
  | RetainLoad =>
      if rc o =? GOO_RC_IMMORTAL then (o, mkThread (S (refs th)) Idle) else (o, goto th RetainAdd)
  | _ => (with_rc o (u64 (rc o + 1)), mkThread (S (refs th)) Idle)
  end.

Definition goo_release_step (o : object) (th : thread) : object * thread + fault :=
  match at_ th with
  | ReleaseLoad =>
      inl (o, goto th (if rc o =? GOO_RC_IMMORTAL then Idle else ReleaseSub))
  | ReleaseSub =>
      let prev := rc o in
      let o' := with_rc o (u64 (prev - 1)) in
      if prev =? 0 then inr CountZero
      else inl (o', goto th (if prev =? 1 then ReleaseDtor else Idle))
  | _ => inl (mkObj (rc o) (freed o) (if has_dtor then S (dtor_runs o) else dtor_runs o) (frees o),
              goto th FreeLoad)
  end.

Definition goo_free_step (o : object) (th : thread) : object * thread :=
  match at_ th with
  | FreeLoad => (o, goto th (if rc o =? GOO_RC_IMMORTAL then Idle else FreePoison))
  | FreePoison => (if poison_enabled then with_rc o 0 else o, goto th FreeBase)
  | _ => (mkObj (rc o) true (dtor_runs o) (S (frees o)), goto th Idle)
  end.

Definition goo_make_immortal_step (o : object) (th : thread) : object * thread :=
  match at_ th with
  | ImmortalLoad => (o, goto th (if rc o =? GOO_RC_IMMORTAL then Idle else ImmortalStore))
  | _ => (with_rc o GOO_RC_IMMORTAL, goto th Idle)
  end.

Definition access (o : object) (th : thread) : object * thread + fault :=
  if freed o then inr UseAfterFree else
  match at_ th with
  | Idle => inl (o, th)
  | RetainLoad | RetainAdd => inl (goo_retain_step o th)
  | ReleaseLoad | ReleaseSub | ReleaseDtor => goo_release_step o th
  | FreeLoad | FreePoison | FreeBase => inl (goo_free_step o th)
  | ImmortalLoad | ImmortalStore => inl (goo_make_immortal_step o th)
  end.

(** ** Schedules. *)
Inductive action : Set :=
| CallRetain | CallRelease | CallMakeImmortal
| Send (to : nat)      (* hand a reference to another goroutine *)
| Run.                 (* the next atomic access of the call in progress *)

(** A call starts only through a reference its goroutine holds; a release gives it up. *)
Definition begin_call (th : thread) (a : action) : option thread :=
  match at_ th, refs th, a with
  | Idle, S n, CallRetain => Some (mkThread (S n) RetainLoad)
  | Idle, S n, CallRelease => Some (mkThread n ReleaseLoad)
  | Idle, S n, CallMakeImmortal => Some (mkThread (S n) ImmortalLoad)
  | _, _, _ => None
  end.

(** An action that is not enabled does nothing. *)
Definition arc_step (s : arc) (ta : nat * action) : arc :=
  let '(t, a) := ta in
  match failed s, threads s !! t with
  | None, Some th =>
      match a with
      | Run =>
          match at_ th with
          | Idle => s
          | _ => match access (obj s) th with
                 | inl (o, th') => mkArc o (<[t := th']> (threads s)) None
                 | inr f => mkArc (obj s) (threads s) (Some f)
                 end
          end
      | Send to =>
          match at_ th, refs th, <[t := mkThread (pred (refs th)) Idle]> (threads s) !! to with
          | Idle, S _, Some rcv =>
              mkArc (obj s) (<[to := mkThread (S (refs rcv)) (at_ rcv)]>
                               (<[t := mkThread (pred (refs th)) Idle]> (threads s))) None
          | _, _, _ => s
          end
      | _ => match begin_call th a with
             | Some th' => mkArc (obj s) (<[t := th']> (threads s)) None
             | None => s
             end
      end
  | _, _ => s
  end.

Definition arc_run (s : arc) (sched : list (nat * action)) : arc := foldl arc_step s sched.
End code.

(** A fresh object ([goo_alloc] stores count 1) whose only reference goroutine 0 holds. *)
Definition fresh_arc (n : nat) : arc :=
  mkArc (mkObj 1 false 0 0) (mkThread 1 Idle :: replicate n (mkThread 0 Idle)) None.

(** ** Counting references. *)
Definition in_release (p : pc) : bool := match p with ReleaseLoad | ReleaseSub => true | _ => false end.
Definition destroying (p : pc) : bool :=
  match p with ReleaseDtor | FreeLoad | FreePoison | FreeBase => true | _ => false end.
Definition immortalising (p : pc) : bool :=
  match p with ImmortalLoad | ImmortalStore => true | _ => false end.

(** The count a goroutine answers for: the references it holds, and the one it is releasing. *)
Definition owed (th : thread) : nat := refs th + (if in_release (at_ th) then 1 else 0).
Definition total (ths : list thread) : nat := sum_list_with owed ths.

Lemma total_insert ths t th th' : ths !! t = Some th ->
  (total (<[t := th']> ths) + owed th = total ths + owed th')%nat.
Proof.
  unfold total. revert t. induction ths as [|x ths IH]; intros [|t] H; simpl in *; try done.
  - injection H as ->. lia.
  - specialize (IH t H). lia.
Qed.

Lemma total_ge ths t th : ths !! t = Some th -> (owed th <= total ths)%nat.
Proof.
  unfold total. revert t. induction ths as [|x ths IH]; intros [|t] H; simpl in *; try done.
  - injection H as ->. lia.
  - specialize (IH t H). lia.
Qed.

Lemma total_two ths t t' th th' : t <> t' -> ths !! t = Some th -> ths !! t' = Some th' ->
  (owed th + owed th' <= total ths)%nat.
Proof.
  unfold total. revert t t'. induction ths as [|x ths IH]; intros [|t] [|t'] Hne H H'; simpl in *; try done.
  - injection H as ->. pose proof (total_ge ths t' th' H'). unfold total in *. lia.
  - injection H' as ->. pose proof (total_ge ths t th H). unfold total in *. lia.
  - assert (Hne' : t <> t') by congruence. specialize (IH t t' Hne' H H'). lia.
Qed.

(** A retain in progress is through a reference still held. *)
Definition retaining (p : pc) : bool := match p with RetainLoad | RetainAdd => true | _ => false end.
Definition thread_ok (th : thread) : Prop :=
  (retaining (at_ th) = true -> (1 <= refs th)%nat) /\ immortalising (at_ th) = false.

Definition pc_at (ths : list thread) (t : nat) : option pc := at_ <$> ths !! t.
Definition nobody_destroys (ths : list thread) : Prop :=
  forall t p, pc_at ths t = Some p -> destroying p = false.

(** The phases of the object's life.  [d] is how often its destructor is to run. *)
Inductive phase (d : nat) (o : object) (ths : list thread) : Prop :=
| Live : freed o = false -> frees o = 0%nat -> dtor_runs o = 0%nat ->
    rc o = Z.of_nat (total ths) -> (1 <= total ths)%nat -> nobody_destroys ths -> phase d o ths
| Dying t p : pc_at ths t = Some p -> destroying p = true ->
    (forall t' p', t' <> t -> pc_at ths t' = Some p' -> destroying p' = false) ->
    freed o = false -> frees o = 0%nat -> rc o = 0 -> total ths = 0%nat ->
    dtor_runs o = match p with ReleaseDtor => 0%nat | _ => d end -> phase d o ths
| Dead : freed o = true -> frees o = 1%nat -> dtor_runs o = d ->
    total ths = 0%nat -> nobody_destroys ths -> phase d o ths.

Record arc_inv (d bound : nat) (s : arc) : Prop := {
  inv_ok : failed s = None;
  inv_threads : Forall thread_ok (threads s);
  inv_bound : (total (threads s) <= bound)%nat;
  inv_phase : phase d (obj s) (threads s)
}.

Lemma fresh_inv d n : arc_inv d 1 (fresh_arc n).
Proof.
  assert (Ht : total (threads (fresh_arc n)) = 1%nat).
  { unfold total. simpl. assert (sum_list_with owed (replicate n (mkThread 0 Idle)) = 0%nat) as ->; [|done].
    by induction n. }
  split; [done| |lia|].
  - constructor; [by split|]. apply Forall_replicate. by split.
  - apply Live; try done; [by rewrite Ht|by rewrite Ht|].
    intros t p H. apply fmap_Some in H as (th&H&->). apply list_elem_of_lookup_2 in H. simpl in H.
    apply elem_of_cons in H as [->|H]; [done|]. by apply elem_of_replicate in H as [-> _].
Qed.

Lemma pc_at_insert ths t t' th th' : ths !! t = Some th ->
  pc_at (<[t := th']> ths) t' = if decide (t = t') then Some (at_ th') else pc_at ths t'.
Proof.
  intros H. unfold pc_at. destruct (decide (t = t')) as [<-|Hne].
  - rewrite list_lookup_insert_eq; [done|]. by eapply lookup_lt_Some.
  - by rewrite list_lookup_insert_ne.
Qed.

(** Changing goroutines without touching the object, the count, or who destroys. *)
Lemma phase_frame d o ths ths' : phase d o ths -> total ths' = total ths ->
  (forall t p, destroying p = true -> pc_at ths' t = Some p <-> pc_at ths t = Some p) -> phase d o ths'.
Proof.
  intros Hp Ht Hd.
  assert (Hn : nobody_destroys ths -> nobody_destroys ths').
  { intros H t p Hpc. destruct (destroying p) eqn:E; [|done]. apply Hd in Hpc; [|done].
    apply H in Hpc. congruence. }
  destruct Hp as [? ? ? ? ? ?|t p Hpc ? Ho ? ? ? ? ?|]; [apply Live; auto; congruence| |apply Dead; auto; congruence].
  apply (Dying _ _ _ t p); try done; [by apply Hd| |congruence].
  intros t' p' Hne Hpc'. destruct (destroying p') eqn:E; [|done]. apply Hd in Hpc'; [|done].
  apply Ho in Hpc'; [congruence|done].
Qed.

Lemma phase_quiet d o ths t th th' : phase d o ths -> ths !! t = Some th ->
  destroying (at_ th) = false -> destroying (at_ th') = false -> owed th' = owed th ->
  phase d o (<[t := th']> ths) /\ total (<[t := th']> ths) = total ths.
Proof.
  intros Hp Hl Hd Hd' Ho. pose proof (total_insert ths t th th' Hl).
  assert (total (<[t := th']> ths) = total ths) by lia. split; [|done].
  apply (phase_frame d o ths); [done|done|]. intros t' p E. rewrite (pc_at_insert _ _ _ th) by done.
  destruct (decide (t = t')) as [<-|]; [|done]. unfold pc_at. rewrite Hl. simpl.
  split; intros [= <-]; congruence.
Qed.

(** Whoever holds or is giving up a reference sees a live object whose count is the total. *)
Lemma owing_live d o ths t th : phase d o ths -> ths !! t = Some th -> (1 <= owed th)%nat ->
  freed o = false /\ frees o = 0%nat /\ dtor_runs o = 0%nat /\ rc o = Z.of_nat (total ths) /\
  (1 <= total ths)%nat /\ nobody_destroys ths.
Proof. intros Hp Hl Ho. pose proof (total_ge ths t th Hl). destruct Hp; [done|lia|lia]. Qed.

Lemma nobody_insert ths t th th' : nobody_destroys ths -> ths !! t = Some th ->
  destroying (at_ th') = false -> nobody_destroys (<[t := th']> ths).
Proof.
  intros H Hl Hd t' p. rewrite (pc_at_insert _ _ _ th) by done.
  destruct (decide (t = t')) as [<-|]; [by intros [= <-]|apply H].
Qed.

(** A destroying goroutine is the only one, and nobody owes anything. *)
Lemma destroyer_dying d o ths t th : phase d o ths -> ths !! t = Some th -> destroying (at_ th) = true ->
  (forall t' p', t' <> t -> pc_at ths t' = Some p' -> destroying p' = false) /\
  freed o = false /\ frees o = 0%nat /\ rc o = 0 /\ total ths = 0%nat /\
  dtor_runs o = match at_ th with ReleaseDtor => 0%nat | _ => d end.
Proof.
  intros Hp Hl Hd. assert (Hpc : pc_at ths t = Some (at_ th)) by (unfold pc_at; by rewrite Hl).
  destruct Hp as [? ? ? ? ? Hn|t0 p Hpc0 ? Ho ? ? ? ? Hr|? ? ? ? Hn];
    [apply Hn in Hpc; congruence| |apply Hn in Hpc; congruence].
  destruct (decide (t = t0)) as [->|Hne]; [|apply Ho in Hpc; [congruence|done]].
  rewrite Hpc in Hpc0. injection Hpc0 as <-. done.
Qed.

Section preservation.
Context (has_dtor poison : bool).
Abbreviation d := (if has_dtor then 1%nat else 0%nat).

(** What an atomic access has to leave behind. *)
Definition good_access (b : nat) (ths : list thread) (t : nat) (r : object * thread + fault) : Prop :=
  match r with
  | inl (o', th') =>
      thread_ok th' /\ (total (<[t := th']> ths) <= S b)%nat /\ phase d o' (<[t := th']> ths)
  | inr _ => False
  end.

Lemma quiet_access b o ths t th th' : phase d o ths -> ths !! t = Some th -> (total ths <= b)%nat ->
  destroying (at_ th) = false -> destroying (at_ th') = false -> owed th' = owed th -> thread_ok th' ->
  good_access b ths t (inl (o, th')).
Proof.
  intros Hp Hl Hb H1 H2 Ho Hk. destruct (phase_quiet d o ths t th th') as [H Ht]; try done.
  split_and!; [done|lia|done].
Qed.

Lemma not_immortal n b : (n <= b)%nat -> Z.of_nat b < 2 ^ 64 - 1 -> (Z.of_nat n =? GOO_RC_IMMORTAL) = false.
Proof. intros. apply Z.eqb_neq. unfold GOO_RC_IMMORTAL. lia. Qed.

Lemma retain_access b o ths t th : phase d o ths -> ths !! t = Some th -> thread_ok th ->
  (total ths <= b)%nat -> Z.of_nat b < 2 ^ 64 - 1 -> retaining (at_ th) = true ->
  good_access b ths t (access has_dtor poison o th).
Proof.
  intros Hp Hl [Hr _] Hb Hlt Hpc. specialize (Hr Hpc).
  destruct (owing_live d o ths t th Hp Hl) as (Hf&Hfr&Hdr&Hrc&Htot&Hn); [unfold owed; lia|].
  unfold access. rewrite Hf. destruct th as [n p]. simpl in *.
  pose proof (total_insert ths t (mkThread n p) (mkThread (S n) Idle) Hl) as Hins.
  destruct p; try done; unfold goo_retain_step, goto, owed in *; cbn [at_ refs in_release] in *.
  - rewrite Hrc, (not_immortal _ b) by done. by apply (quiet_access _ _ _ _ (mkThread n RetainLoad)).
  - split_and!; [by split|lia|].
    apply Live; try done; cbn; [rewrite Hrc, wrap_small by lia; lia|lia|].
    by apply (nobody_insert _ _ (mkThread n RetainAdd)).
Qed.

Lemma release_access b o ths t th : phase d o ths -> ths !! t = Some th ->
  (total ths <= b)%nat -> Z.of_nat b < 2 ^ 64 - 1 -> in_release (at_ th) = true ->
  good_access b ths t (access has_dtor poison o th).
Proof.
  intros Hp Hl Hb Hlt Hpc.
  destruct (owing_live d o ths t th Hp Hl) as (Hf&Hfr&Hdr&Hrc&Htot&Hn); [unfold owed; rewrite Hpc; lia|].
  unfold access. rewrite Hf. destruct th as [n p]. simpl in *.
  destruct p; try done; unfold goo_release_step, goto; cbn [at_ refs]; rewrite Hrc.
  - rewrite (not_immortal _ b) by done. by apply (quiet_access _ _ _ _ (mkThread n ReleaseLoad)).
  - destruct (Z.eqb_spec (Z.of_nat (total ths)) 0); [lia|].
    destruct (Z.eqb_spec (Z.of_nat (total ths)) 1) as [E|E].
    + pose proof (total_insert ths t _ (mkThread n ReleaseDtor) Hl) as Hins.
      unfold owed in Hins. cbn in Hins. split_and!; [by split|cbn; lia|].
      apply (Dying _ _ _ t ReleaseDtor); cbn; try done; try lia.
      * by rewrite (pc_at_insert _ _ _ (mkThread n ReleaseSub)), decide_True.
      * intros t' p' Hne. rewrite (pc_at_insert _ _ _ (mkThread n ReleaseSub)), decide_False by done. apply Hn.
      * by rewrite E.
    + pose proof (total_insert ths t _ (mkThread n Idle) Hl) as Hins.
      unfold owed in Hins. cbn in Hins. split_and!; [by split|cbn; lia|].
      apply Live; cbn; try done; [rewrite wrap_small by lia; lia|lia|].
      by apply (nobody_insert _ _ (mkThread n ReleaseSub)).
Qed.

(** Destruction runs the destructor once, then frees once. *)
Lemma destroy_access b o ths t th : phase d o ths -> ths !! t = Some th ->
  (total ths <= b)%nat -> destroying (at_ th) = true ->
  good_access b ths t (access has_dtor poison o th).
Proof.
  intros Hp Hl Hb Hpc.
  destruct (destroyer_dying d o ths t th Hp Hl Hpc) as (Ho&Hf&Hfr&Hrc&Htot&Hdr).
  unfold access. rewrite Hf. destruct th as [n p].
  assert (Hins : forall q, destroying q = true \/ q = Idle -> total (<[t := mkThread n q]> ths) = 0%nat).
  { intros q Hq. pose proof (total_insert ths t _ (mkThread n q) Hl) as H. unfold owed in H. cbn in H.
    destruct p, q, Hq; try done; cbn in H; lia. }
  assert (Hdying : forall q o', destroying q = true -> freed o' = false -> frees o' = 0%nat -> rc o' = 0 ->
    dtor_runs o' = match q with ReleaseDtor => 0%nat | _ => d end ->
    good_access b ths t (inl (o', mkThread n q))).
  { intros q o' Hq H1 H2 H3 H4. split_and!; [by destruct q|rewrite Hins by auto; lia|].
    apply (Dying _ _ _ t q); try done; [| |by apply Hins; left].
    - by rewrite (pc_at_insert _ _ _ (mkThread n p)), decide_True.
    - intros t' p' Hne. rewrite (pc_at_insert _ _ _ (mkThread n p)), decide_False by done. by apply Ho. }
  destruct p; try done; unfold goo_release_step, goo_free_step, goto; cbn [at_ refs] in *.
  - apply Hdying; cbn; try done. rewrite Hdr. by destruct has_dtor.
  - rewrite Hrc. cbn. by apply Hdying.
  - apply Hdying; by destruct poison.
  - split_and!; [by split|rewrite Hins by auto; lia|].
    apply Dead; cbn; [done|lia|done|by apply Hins; right|].
    intros t' p'. rewrite (pc_at_insert _ _ _ (mkThread n FreeBase)) by done.
    destruct (decide (t = t')) as [<-|]; [by intros [= <-]|]. apply Ho. congruence.
Qed.

Lemma step_inv b s ta : arc_inv d b s -> Z.of_nat b < 2 ^ 64 - 1 -> ta.2 <> CallMakeImmortal ->
  arc_inv d (S b) (arc_step has_dtor poison s ta).
Proof.
  destruct ta as [t a]. cbn [snd]. intros [Hok Hths Hb Hp] Hlt Ha. unfold arc_step. rewrite Hok.
  assert (Hsame : arc_inv d (S b) s) by (split; [done..|lia|done]).
  destruct (threads s !! t) as [th|] eqn:Hl; [|done].
  pose proof (Forall_lookup_1 _ _ _ _ Hths Hl) as Hth.
  assert (Hacc : forall r, good_access b (threads s) t r -> arc_inv d (S b)
    match r with inl (o, th') => mkArc o (<[t := th']> (threads s)) None
               | inr f => mkArc (obj s) (threads s) (Some f) end).
  { intros [[o th']|] H; [|done]. destruct H as (H1&H2&H3). split; [done|by apply Forall_insert|done..]. }
  destruct a as [| | |to|]; [| |done| |].
  - destruct th as [[|n] []]; try done. apply (Hacc (inl (obj s, mkThread (S n) RetainLoad))).
    apply (quiet_access _ _ _ _ (mkThread (S n) Idle)); try done. split; [cbn; intros; lia|done].
  - destruct th as [[|n] []]; try done. apply (Hacc (inl (obj s, mkThread n ReleaseLoad))).
    apply (quiet_access _ _ _ _ (mkThread (S n) Idle)); try done. unfold owed. cbn. lia.
  - destruct th as [[|n] []]; try done. cbn [at_ refs pred].
    destruct (<[t := mkThread n Idle]> (threads s) !! to) as [rcv|] eqn:Hr; [|done].
    pose proof (total_insert _ t _ (mkThread n Idle) Hl) as H1.
    pose proof (total_insert _ to _ (mkThread (S (refs rcv)) (at_ rcv)) Hr) as H2.
    unfold owed in H1, H2. cbn [refs at_ in_release] in H1, H2.
    assert (Hk : Forall thread_ok (<[t := mkThread n Idle]> (threads s))) by (apply Forall_insert; [done|by split]).
    split; cbn [failed threads obj]; [done| |lia|].
    + apply Forall_insert; [done|]. pose proof (Forall_lookup_1 _ _ _ _ Hk Hr) as [Hx Hy].
      split; [cbn; intros; lia|done].
    + apply (phase_frame d (obj s) (threads s)); [done|lia|]. intros t' p Hdp.
      rewrite (pc_at_insert _ _ _ rcv) by done. rewrite (pc_at_insert _ _ _ (mkThread (S n) Idle)) by done.
      assert (Hrpc : pc_at (<[t := mkThread n Idle]> (threads s)) to = Some (at_ rcv)) by (unfold pc_at; by rewrite Hr).
      rewrite (pc_at_insert _ _ _ (mkThread (S n) Idle)) in Hrpc by done.
      destruct (decide (to = t')) as [->|]; [cbn|]; destruct (decide (t = t')) as [->|]; try done.
      * unfold pc_at. rewrite Hl. cbn. injection Hrpc as <-. done.
      * by rewrite Hrpc.
      * unfold pc_at. rewrite Hl. cbn. by split; intros [= <-].
  - destruct (decide (at_ th = Idle)) as [->|Hni]; [done|].
    assert (Hg : good_access b (threads s) t (access has_dtor poison (obj s) th)).
    { pose proof (proj2 Hth) as Him.
      destruct (at_ th) eqn:E; try done;
        [apply retain_access|apply retain_access|apply release_access|apply release_access|
         apply destroy_access..]; rewrite ?E; done. }
    apply Hacc in Hg. by destruct (at_ th).
Qed.

Lemma run_inv sched : forall b s, arc_inv d b s -> Z.of_nat (b + length sched) < 2 ^ 64 - 1 ->
  Forall (fun ta => ta.2 <> CallMakeImmortal) sched ->
  arc_inv d (b + length sched) (arc_run has_dtor poison s sched).
Proof.
  induction sched as [|ta sched IH]; intros b s Hi Hb Hf; cbn in *; [by rewrite Nat.add_0_r|].
  apply Forall_cons in Hf as [H1 H2]. rewrite Nat.add_succ_r in *. apply (IH (S b)); [|lia|done].
  apply step_inv; [done|lia|done].
Qed.
End preservation.

(** ** The properties. *)
Definition dtor_count (has_dtor : bool) : nat := if has_dtor then 1 else 0.
Definition no_immortal (sched : list (nat * action)) : Prop :=
  Forall (fun ta => ta.2 <> CallMakeImmortal) sched.

(** C12: reference counting is safe under every interleaving.  Goroutines that retain and release
    only through references they hold never touch a freed header and never meet a zero count;
    the object is freed at most once, after its destructor ran exactly once; and as long as any
    goroutine holds a reference the object is alive and its count is the number of references. *)
Theorem arc_safe (has_dtor poison : bool) n sched
  (Hlen : Z.of_nat (length sched) < 2 ^ 64 - 2) (Hni : no_immortal sched) :
  let s := arc_run has_dtor poison (fresh_arc n) sched in
  failed s = None /\ (frees (obj s) <= 1)%nat /\
  (freed (obj s) = true -> frees (obj s) = 1%nat /\ dtor_runs (obj s) = dtor_count has_dtor) /\
  forall t th, threads s !! t = Some th -> (1 <= owed th)%nat ->
    freed (obj s) = false /\ dtor_runs (obj s) = 0%nat /\ rc (obj s) = Z.of_nat (total (threads s)).
Proof.
  intros s. destruct (run_inv has_dtor poison sched 1 (fresh_arc n) (fresh_inv _ n)) as [H1 _ _ H4];
    [lia|done|]. fold s in H1, H4. split_and!; [done|destruct H4; lia|intros; destruct H4; by try congruence|].
  intros t th Hl Ho. destruct (owing_live _ _ _ t th H4 Hl Ho) as (?&?&?&?&?&?). done.
Qed.

(** Two goroutines: 0 retains and hands the reference on, then both release. *)
Definition demo_sched : list (nat * action) :=
  [(0, CallRetain); (0, Run); (0, Run); (0, Send 1); (0, CallRelease); (1, CallRelease);
   (0, Run); (1, Run); (1, Run); (0, Run); (0, Run); (0, Run); (0, Run); (0, Run)]%nat.

Lemma arc_safe_witness :
  let s := arc_run true true (fresh_arc 1) demo_sched in
  failed s = None /\ (frees (obj s) <= 1)%nat.
Proof.
  destruct (arc_safe true true 1 demo_sched ltac:(vm_compute; reflexivity)
    ltac:(repeat (apply Forall_cons; split; [discriminate|]); apply Forall_nil, I)) as (H1&H2&_).
  split; [exact H1|exact H2].
Defined.

(** nothing leaks and nothing is freed twice.  Once every goroutine is idle and no reference
    is left, the destructor has run exactly once and the object was freed exactly once, whatever
    the interleaving of the releases was. *)
Theorem arc_freed_exactly_once (has_dtor poison : bool) n sched
  (Hlen : Z.of_nat (length sched) < 2 ^ 64 - 2) (Hni : no_immortal sched)
  (Hend : Forall (fun th => th = mkThread 0 Idle) (threads (arc_run has_dtor poison (fresh_arc n) sched))) :
  let s := arc_run has_dtor poison (fresh_arc n) sched in
  freed (obj s) = true /\ frees (obj s) = 1%nat /\ dtor_runs (obj s) = dtor_count has_dtor.
Proof.
  intros s. destruct (run_inv has_dtor poison sched 1 (fresh_arc n) (fresh_inv _ n)) as [_ _ _ H4]; [lia|done|].
  fold s in H4, Hend.
  assert (Ht : total (threads s) = 0%nat).
  { unfold total. clear -Hend. induction Hend as [|th ths -> _ IH]; [done|]. simpl. by rewrite IH. }
  destruct H4 as [|t p Hpc Hd|]; [lia| |done].
  apply fmap_Some in Hpc as (th&Hl&->). apply (Forall_lookup_1 _ _ _ _ Hend) in Hl as ->. done.
Qed.

Lemma arc_freed_exactly_once_witness :
  let s := arc_run true true (fresh_arc 1) demo_sched in
  Forall (fun th => th = mkThread 0 Idle) (threads s) /\
  freed (obj s) = true /\ frees (obj s) = 1%nat /\ dtor_runs (obj s) = 1%nat.
Proof.
  assert (H : Forall (fun th => th = mkThread 0 Idle) (threads (arc_run true true (fresh_arc 1) demo_sched))).
  { assert (threads (arc_run true true (fresh_arc 1) demo_sched) = [mkThread 0 Idle; mkThread 0 Idle])
      as -> by (vm_compute; reflexivity).
    apply Forall_cons; split; [reflexivity|]. apply Forall_cons; split; [reflexivity|]. apply Forall_nil, I. }
  split; [exact H|].
  exact (arc_freed_exactly_once true true 1 demo_sched ltac:(vm_compute; reflexivity)
    ltac:(repeat (apply Forall_cons; split; [discriminate|]); apply Forall_nil, I) H).
Defined.

(** *** Immortal objects. *)
Definition immortal_pc (p : pc) : bool :=
  match p with Idle | RetainLoad | ReleaseLoad | ImmortalLoad => true | _ => false end.

Record immortal (s : arc) : Prop := {
  im_ok : failed s = None;
  im_rc : rc (obj s) = GOO_RC_IMMORTAL;
  im_live : freed (obj s) = false;
  im_frees : frees (obj s) = 0%nat;
  im_pcs : Forall (fun th => immortal_pc (at_ th) = true) (threads s)
}.

Lemma immortal_step has_dtor poison s ta : immortal s -> immortal (arc_step has_dtor poison s ta).
Proof.
  destruct ta as [t a]. intros [Hok Hrc Hl Hf Hp]. unfold arc_step. rewrite Hok.
  destruct (threads s !! t) as [th|] eqn:Ht; [|by split].
  pose proof (Forall_lookup_1 _ _ _ _ Hp Ht) as Hpc.
  assert (Hgo : forall th', immortal_pc (at_ th') = true -> immortal (mkArc (obj s) (<[t := th']> (threads s)) None)).
  { intros th' H. split; try done. by apply Forall_insert. }
  destruct th as [n p], a as [| | |to|]; cbn [at_ refs begin_call] in *;
    try (destruct p, n; try done; by apply Hgo).
  - destruct p, n as [|n]; try done. cbn [pred].
    destruct (<[t := _]> (threads s) !! to) as [rcv|] eqn:Hr; [|done].
    assert (Hk : immortal (mkArc (obj s) (<[t := mkThread n Idle]> (threads s)) None)) by by apply Hgo.
    destruct Hk as [_ _ _ _ Hk]. cbn in Hk. split; try done. cbn. apply Forall_insert; [done|].
    by apply (Forall_lookup_1 _ _ _ _ Hk) in Hr.
  - unfold access. rewrite Hl. cbn [at_].
    destruct p; try done; cbn -[GOO_RC_IMMORTAL]; rewrite Hrc, Z.eqb_refl; by apply Hgo.
Qed.

(** marking an object immortal works when nothing is in flight.  If a goroutine runs
    [goo_make_immortal] to its end while the others are idle, then in every continuation the
    object is never freed, its count stays at the sentinel, and no retain or release faults. *)
Theorem immortal_never_freed (has_dtor poison : bool) s t n sched
  (Hok : failed s = None) (Hlive : freed (obj s) = false) (Hfrees : frees (obj s) = 0%nat)
  (Hidle : Forall (fun th => at_ th = Idle) (threads s)) (Ht : threads s !! t = Some (mkThread (S n) Idle)) :
  let s' := arc_run has_dtor poison s ([(t, CallMakeImmortal); (t, Run); (t, Run)] ++ sched) in
  failed s' = None /\ freed (obj s') = false /\ rc (obj s') = GOO_RC_IMMORTAL.
Proof.
  intros s'. assert (H : immortal s').
  { unfold s', arc_run. rewrite foldl_app.
    set (s1 := foldl _ s _).
    assert (H1 : immortal s1).
    { assert (Hlt : (t < length (threads s))%nat) by by eapply lookup_lt_Some.
      unfold s1. cbn -[access]. rewrite Hok, Ht. cbn -[access]. rewrite list_lookup_insert_eq by done.
      unfold access. rewrite Hlive. cbn. destruct (Z.eqb_spec (rc (obj s)) GOO_RC_IMMORTAL) as [E|E];
        rewrite list_insert_insert_eq, list_lookup_insert_eq by done; cbn -[GOO_RC_IMMORTAL];
        [|rewrite Hlive; cbn -[GOO_RC_IMMORTAL]; rewrite list_insert_insert_eq];
        (split; cbn -[GOO_RC_IMMORTAL]; try done; apply Forall_insert; [|done];
         eapply Forall_impl; [exact Hidle|]; by intros th ->). }
    clearbody s1. clear -H1. revert s1 H1. induction sched as [|ta sched IH]; intros s1 H1; [done|].
    cbn. apply IH. by apply immortal_step. }
  by destruct H.
Qed.

Lemma immortal_never_freed_witness :
  let s := arc_run false false (fresh_arc 0)
    ([(0, CallMakeImmortal); (0, Run); (0, Run)] ++ [(0, CallRelease); (0, Run); (0, Run)])%nat in
  failed s = None /\ freed (obj s) = false /\ rc (obj s) = GOO_RC_IMMORTAL.
Proof.
  exact (immortal_never_freed false false (fresh_arc 0) 0 0 [(0%nat, CallRelease); (0%nat, Run); (0%nat, Run)]
    eq_refl eq_refl eq_refl ltac:(apply Forall_cons; split; [reflexivity|apply Forall_nil, I]) eq_refl).
Defined.

(** Goroutine 0 retains and hands the second reference to goroutine 1; while 0 is between the
    load and the increment of another retain, 1 makes the object immortal. *)
Definition immortal_race : list (nat * action) :=
  [(0, CallRetain); (0, Run); (0, Run); (0, Send 1);
   (0, CallRetain); (0, Run);
   (1, CallMakeImmortal); (1, Run); (1, Run);
   (0, Run);
   (0, CallRelease); (0, Run); (0, Run)]%nat.

(** [goo_make_immortal] is not safe against a retain in flight.  There is a schedule of two
    goroutines, each acting only through references it holds, in which the sentinel is
    incremented past its maximum to 0 and the next release of a live reference panics. *)
Theorem immortal_races_retain :
  rc (obj (arc_run false false (fresh_arc 1) (take 10 immortal_race))) = 0 /\
  failed (arc_run false false (fresh_arc 1) immortal_race) = Some CountZero.
Proof. split; reflexivity. Qed.

(** A non-empty allocation asks for its header too, without wrapping. *)
Lemma goo_alloc_request malloc size p : 0 < size < 2 ^ 64 -> goo_alloc malloc size = Ok p ->
  exists base, p = Payload base /\ base <> 0 /\ base = malloc (GOO_OBJ_HEADER_SIZE + size) /\
    GOO_OBJ_HEADER_SIZE + size < 2 ^ 64 /\ goo_obj_headerless p = false.
Proof.
  unfold goo_alloc, SIZE_MAX, GOO_OBJ_HEADER_SIZE. intros Hs.
  destruct (Z.eqb_spec size 0); [lia|]. destruct (Z.ltb_spec (2 ^ 64 - 1 - 16) size); [done|].
  rewrite wrap_small by lia. destruct (Z.eqb_spec (malloc (16 + size)) 0); [done|].
  intros [= <-]. eexists. split_and!; try done. lia.
Qed.
