(* ===== verification/RtSlice.v ===== *)
(** * RtSlice: slices of [src/runtime/runtime.c]: allocation, append, copy, bounds.

    Memory is a finite map from blocks to cells ([None]: a byte never written); a pointer is a
    block with an offset, so a reslice's interior pointer and two slices over one array are
    what they are in C.  [place] is the allocator: the block a [malloc] or [realloc] of a given
    size ends up in, or [None] when memory is out.  [Undefined] is C's undefined behaviour: an
    access outside a live block, or handing libc a pointer it never returned.  Object headers
    are [Arc]'s; here a block is its payload. *)
From Stdlib Require Import ZArith Lia Bool String.
From stdpp Require Import base list gmap.
From S2P Require Import Prelude Arc.
Local Open Scope Z_scope.

Abbreviation cell := (option Z).
Abbreviation heap := (gmap nat (list cell)).

Inductive loc : Set := Null | Zerobase | At (block : nat) (off : Z).

Record goo_slice : Set := mkSlice { data : loc; length : Z; capacity : Z }.

Inductive run (A : Type) : Type :=
| Value (a : A)
| Panics (msg : string)
| Undefined
| Loops.
Arguments Value {A} _.
Arguments Panics {A} _.
Arguments Undefined {A}.
Arguments Loops {A}.

Definition rbind {A B} (m : run A) (f : A -> run B) : run B :=
  match m with Value a => f a | Panics s => Panics s | Undefined => Undefined | Loops => Loops end.
Notation "'run*' x ':=' m 'in' k" := (rbind m (fun x => k))
  (at level 200, x pattern, m at level 100, k at level 200) : goo_scope.
Local Open Scope goo_scope.

(** ** libc over blocks. *)
Definition load_bytes (h : heap) (p : loc) (n : Z) : run (list cell) :=
  if n =? 0 then Value [] else
  match p with
  | At b off =>
      match h !! b with
      | Some bs => if (0 <=? off) && (off + n <=? Z.of_nat (List.length bs))
                   then Value (take (Z.to_nat n) (drop (Z.to_nat off) bs)) else Undefined
      | None => Undefined
      end
  | _ => Undefined
  end.

Definition splice (bs : list cell) (off : nat) (cs : list cell) : list cell :=
  take off bs ++ cs ++ drop (off + List.length cs) bs.

Definition store_bytes (h : heap) (p : loc) (cs : list cell) : run heap :=
  if (List.length cs =? 0)%nat then Value h else
  match p with
  | At b off =>
      match h !! b with
      | Some bs => if (0 <=? off) && (off + Z.of_nat (List.length cs) <=? Z.of_nat (List.length bs))
                   then Value (<[b := splice bs (Z.to_nat off) cs]> h) else Undefined
      | None => Undefined
      end
  | _ => Undefined
  end.

(** [p + n] in bytes. *)
Definition shift (p : loc) (n : Z) : loc :=
  match p with At b off => At b (off + n) | _ => p end.

Section allocator.
Context (place : heap -> option nat -> Z -> option nat).

Definition alloc_block (h : heap) (size : Z) : run (loc * heap) :=
  if size =? 0 then Value (Zerobase, h)
  else if SIZE_MAX - GOO_OBJ_HEADER_SIZE <? size then Panics "Out of memory"
  else match place h None size with
       | None => Panics "Out of memory"
       | Some b => Value (At b 0, <[b := replicate (Z.to_nat size) None]> h)
       end.

Definition free_block (h : heap) (p : loc) : run heap :=
  match p with
  | Null | Zerobase => Value h
  | At b off => if (off =? 0) && bool_decide (is_Some (h !! b)) then Value (delete b h) else Undefined
  end.

(** The first [n] cells of a block that is resized to [n]. *)
Definition resize_cells (bs : list cell) (n : nat) : list cell :=
  take n bs ++ replicate (n - List.length bs) None.

Definition goo_realloc (h : heap) (p : loc) (size : Z) : run (loc * heap) :=
  let p := match p with Zerobase => Null | _ => p end in
  if size =? 0 then run* h' := free_block h p in Value (Null, h')
  else if SIZE_MAX - GOO_OBJ_HEADER_SIZE <? size then Panics "Out of memory"
  else match p with
       | At b off =>
           match h !! b with
           | Some bs =>
               if off =? 0 then
                 match place h (Some b) size with
                 | None => Panics "Out of memory"
                 | Some b' => Value (At b' 0, <[b' := resize_cells bs (Z.to_nat size)]> (delete b h))
                 end
               else Undefined
           | None => Undefined
           end
       | _ => match place h None size with
              | None => Panics "Out of memory"
              | Some b => Value (At b 0, <[b := replicate (Z.to_nat size) None]> h)
              end
       end.

(** ** The slice operations. *)
Definition goo_slice_alloc (h : heap) (count elem_size : Z) : run (loc * heap) :=
  let both := (0 <? count) && (0 <? elem_size) in
  if both && (SIZE_MAX / elem_size <? count) then Panics "Out of memory"
  else
    let bytes := if both then u64 (count * elem_size) else 1 in
    run* (p, h1) := alloc_block h bytes in
    run* h2 := store_bytes h1 p (replicate (Z.to_nat bytes) (Some 0)) in
    Value (p, h2).

(** [\[\]byte(s)] and [string(b)]: copies, the second with a NUL after it. *)
Definition goo_bytes_from_string (h : heap) (p : loc) (len : Z) : run (loc * heap) :=
  let len := if len <? 0 then 0 else len in
  run* (data, h1) := alloc_block h (if 0 <? len then len else 1) in
  run* h2 := (if 0 <? len then run* cs := load_bytes h1 p len in store_bytes h1 data cs else Value h1) in
  Value (data, h2).

Definition goo_cstr_from_bytes (h : heap) (data : loc) (len : Z) : run (loc * heap) :=
  let len := if len <? 0 then 0 else len in
  run* (s, h1) := alloc_block h (u64 (len + 1)) in
  run* h2 := (if 0 <? len then run* cs := load_bytes h1 data len in store_bytes h1 s cs else Value h1) in
  run* h3 := store_bytes h2 (shift s len) [Some 0] in
  Value (s, h3).

(** The product of sizes is not checked here. *)
Definition goo_slice_new (h : heap) (element_size capacity : Z) : run (goo_slice * heap) :=
  if (capacity =? 0) || (element_size =? 0) then Value (mkSlice Null 0 0, h)
  else run* (data, h1) := alloc_block h (u64 (element_size * capacity)) in
       Value (mkSlice data 0 capacity, h1).

Definition goo_slice_free (h : heap) (s : goo_slice) : run heap := free_block h (data s).

Definition goo_bounds_check (index length : Z) : run unit :=
  if length <=? index then Panics "bounds check failed" else Value tt.

Definition goo_slice_get (s : goo_slice) (index elem_size : Z) : run loc :=
  match data s with
  | Null => Panics "slice access on null slice"
  | p => if length s <=? index then Panics "slice index out of bounds"
         else Value (shift p (u64 (index * elem_size)))
  end.

(** The doubling loop; [None] when [fuel] rounds were not enough. *)
Fixpoint grow_loop (fuel : nat) (new_capacity need : Z) : option Z :=
  match fuel with
  | O => None
  | S f => if new_capacity <? need then grow_loop f (u64 (new_capacity * 2)) need
           else Some new_capacity
  end.

Definition GROW_FUEL : nat := 65.

Definition first_capacity (capacity : Z) : Z :=
  let new_capacity := u64 (capacity * 2) in
  if new_capacity =? 0 then 1 else new_capacity.

Definition goo_slice_grow_capacity (capacity need : Z) : run Z :=
  match grow_loop GROW_FUEL (first_capacity capacity) need with
  | Some c => Value c
  | None => Loops
  end.

(** The growth step both appends share: [None] when [goo_realloc] answered NULL. *)
Definition grow_slice (h : heap) (s : goo_slice) (need elem_size : Z) : run (option goo_slice * heap) :=
  run* new_capacity := goo_slice_grow_capacity (capacity s) need in
  run* (new_data, h1) := goo_realloc h (data s) (u64 (new_capacity * elem_size)) in
  match new_data with
  | Null => Value (None, h1)
  | _ => Value (Some (mkSlice new_data (length s) new_capacity), h1)
  end.

Definition write_at_length (h : heap) (s : goo_slice) (cs : list cell) (count elem_size : Z)
    : run (goo_slice * heap) :=
  run* h1 := store_bytes h (shift (data s) (u64 (length s * elem_size))) cs in
  Value (mkSlice (data s) (u64 (length s + count)) (capacity s), h1).

(** The returned flag, the slice and memory afterwards.  [element] is the slot's bytes. *)
Definition goo_slice_append (h : heap) (s : goo_slice) (element : option (list cell)) (elem_size : Z)
    : run (Z * goo_slice * heap) :=
  match element with
  | None => Value (0, s, h)
  | Some e =>
      run* (grown, h1) :=
        (if capacity s <=? length s then grow_slice h s (u64 (length s + 1)) elem_size
         else Value (Some s, h)) in
      match grown with
      | None => Value (0, s, h1)
      | Some s1 =>
          run* (s2, h2) := write_at_length h1 s1 (take (Z.to_nat elem_size) e) 1 elem_size in
          Value (1, s2, h2)
      end
  end.

Definition goo_slice_append_bulk (h : heap) (s : goo_slice) (src : loc) (src_len elem_size : Z)
    : run (goo_slice * heap) :=
  match src with
  | Null => Value (s, h)
  | _ =>
    if (src_len <=? 0) || (elem_size <=? 0) then Value (s, h)
    else
      let bytes := u64 (src_len * elem_size) in
      run* (snap, h1) := alloc_block h bytes in
      run* cs := load_bytes h1 src bytes in
      run* h2 := store_bytes h1 snap cs in
      let need := u64 (length s + src_len) in
      run* (grown, h3) :=
        (if capacity s <? need then grow_slice h2 s need elem_size else Value (Some s, h2)) in
      match grown with
      | None => run* h4 := free_block h3 snap in Value (s, h4)
      | Some s1 =>
          run* cs' := load_bytes h3 snap bytes in
          run* (s2, h4) := write_at_length h3 s1 cs' src_len elem_size in
          run* h5 := free_block h4 snap in
          Value (s2, h5)
      end
  end.

Definition goo_slice_copy_raw (h : heap) (dst : loc) (dst_len : Z) (src : loc) (src_len elem_size : Z)
    : run (Z * heap) :=
  let n := if dst_len <? src_len then dst_len else src_len in
  if (n <=? 0) || (elem_size <=? 0) then Value (0, h)
  else
    run* cs := load_bytes h src (u64 (n * elem_size)) in
    run* h1 := store_bytes h dst cs in
    Value (n, h1).

Definition goo_slice_bounds_check (low high max : Z) : run unit :=
  if (low <? 0) || (high <? low) || (max <? high) then Panics "slice bounds out of range"
  else Value tt.
End allocator.

(** What code generation makes of [base[low:high]] (composite_codegen.c): an interior pointer
    whose capacity shrinks by [low]. *)
Definition slice_expression (s : goo_slice) (low high elem_size : Z) : run goo_slice :=
  run* _ := goo_slice_bounds_check low high (capacity s) in
  Value (mkSlice (shift (data s) (low * elem_size)) (high - low) (capacity s - low)).

(** ** Machine facts. *)
Lemma grow_loop_spec fuel : forall c need, 0 < c -> need <= 2 ^ 63 -> need <= c * 2 ^ Z.of_nat fuel ->
  exists k, grow_loop (S fuel) c need = Some (c * 2 ^ Z.of_nat k) /\ need <= c * 2 ^ Z.of_nat k /\
    (k = 0%nat \/ c * 2 ^ Z.of_nat k < 2 * need).
Proof.
  induction fuel as [|f IH]; intros c need Hc Hn Hf.
  - exists 0%nat. simpl in *. rewrite Z.mul_1_r in *. destruct (Z.ltb_spec c need); [lia|]. auto.
  - change (grow_loop (S (S f)) c need)
      with (if c <? need then grow_loop (S f) (u64 (c * 2)) need else Some c).
    destruct (Z.ltb_spec c need) as [Hlt|Hge].
    + rewrite wrap_small by lia. rewrite Nat2Z.inj_succ, Z.pow_succ_r in Hf by lia.
      destruct (IH (c * 2) need) as (k&Hk&Hle&Hor); [lia|lia|lia|]. exists (S k).
      rewrite Nat2Z.inj_succ, Z.pow_succ_r by lia.
      replace (c * (2 * 2 ^ Z.of_nat k)) with (c * 2 * 2 ^ Z.of_nat k) by lia.
      split; [done|]. split; [done|]. right. destruct Hor as [->|]; [simpl; lia|done].
    + exists 0%nat. simpl. rewrite Z.mul_1_r. auto.
Qed.

Lemma grow_loop_zero fuel need : 0 < need -> grow_loop fuel 0 need = None.
Proof.
  intros Hn. induction fuel as [|f IH]; [done|]. simpl. destruct (Z.ltb_spec 0 need); [|lia].
  by change (u64 (0 * 2)) with 0.
Qed.

(** A growth step in the range of real memory: it ends, covers [need] and at most doubles it. *)
Lemma grow_capacity_ok cap need : 0 <= cap < need -> need < 2 ^ 62 ->
  exists c, goo_slice_grow_capacity cap need = Value c /\ need <= c < 2 * need + 1.
Proof.
  intros Hc Hn. unfold goo_slice_grow_capacity, first_capacity. rewrite wrap_small by lia.
  set (c0 := if cap * 2 =? 0 then 1 else cap * 2).
  assert (H0 : 1 <= c0 <= 2 ^ 62 * 2 /\ (c0 <= 2 * need)).
  { unfold c0. destruct (Z.eqb_spec (cap * 2) 0); lia. }
  destruct (grow_loop_spec 64 c0 need) as (k&Hk&Hle&Hor); [lia|lia|change (2 ^ Z.of_nat 64) with (2 ^ 64); lia|].
  unfold GROW_FUEL. rewrite Hk. eexists. split; [reflexivity|]. split; [done|].
  destruct Hor as [->|]; [simpl; lia|lia].
Qed.

(** Growing a full slice by one element doubles its capacity, from 0 to 1. *)
Lemma grow_capacity_one cap : 0 <= cap -> cap + 1 < 2 ^ 62 ->
  goo_slice_grow_capacity cap (cap + 1) = Value (Z.max 1 (2 * cap)).
Proof.
  intros Hc Hn. unfold goo_slice_grow_capacity, first_capacity, GROW_FUEL. rewrite wrap_small by lia.
  cbn [grow_loop]. destruct (Z.eqb_spec (cap * 2) 0); [destruct (Z.ltb_spec 1 (cap + 1)); [lia|]|
    destruct (Z.ltb_spec (cap * 2) (cap + 1)); [lia|]]; f_equal; lia.
Qed.

(** ** Memory facts. *)
Lemma splice_length bs off cs : (off + List.length cs <= List.length bs)%nat ->
  List.length (splice bs off cs) = List.length bs.
Proof. intros. unfold splice. rewrite !length_app, length_take, length_drop. lia. Qed.

Lemma take_splice bs off cs : (off <= List.length bs)%nat ->
  take (off + List.length cs) (splice bs off cs) = take off bs ++ cs.
Proof.
  intros. unfold splice. rewrite app_assoc.
  assert (E : (off + List.length cs)%nat = List.length (take off bs ++ cs))
    by (rewrite length_app, length_take; lia).
  rewrite E at 1. apply take_app_length.
Qed.

(** A slice that starts at the base of a live block holding its whole capacity. *)
Definition slice_ok (h : heap) (s : goo_slice) (esz : Z) : Prop :=
  0 <= length s <= capacity s /\
  match data s with
  | At b off => off = 0 /\ exists bs, h !! b = Some bs /\ capacity s * esz <= Z.of_nat (List.length bs)
  | _ => capacity s = 0
  end.

(** The bytes of its elements. *)
Definition elements (h : heap) (s : goo_slice) (esz : Z) : list cell :=
  match data s with
  | At b off =>
      take (Z.to_nat (length s * esz)) (drop (Z.to_nat off) (default [] (h !! b)))
  | _ => []
  end.

Definition in_block (s : goo_slice) (b : nat) : Prop := exists off, data s = At b off.

(** What libc promises of the block it picks: not in use, or the block being resized. *)
Definition fair_place (place : heap -> option nat -> Z -> option nat) : Prop :=
  forall h o n b, place h o n = Some b -> h !! b = None \/ o = Some b.

(** The effect of growing or writing a slice in place of [s]. *)
Record updated (h : heap) (s : goo_slice) (esz : Z) (h' : heap) (s' : goo_slice) (added : list cell) : Prop := {
  up_ok : slice_ok h' s' esz;
  up_elements : elements h' s' esz = elements h s esz ++ added;
  up_block : forall b, in_block s' b -> in_block s b \/ h !! b = None;
  up_frame : forall b, ~ in_block s b -> ~ in_block s' b -> h' !! b = h !! b
}.

Section specs.
Context (place : heap -> option nat -> Z -> option nat) (Hplace : fair_place place).
Context (esz : Z) (Hesz : 0 < esz).

(** The only panic of an append: libc had no block. *)
Definition out_of_memory (m : string) : Prop :=
  m = "Out of memory"%string /\ exists h o n, place h o n = None.

Lemma load_ok h b bs off n : h !! b = Some bs -> 0 <= off -> 0 <= n -> off + n <= Z.of_nat (List.length bs) ->
  load_bytes h (At b off) n = Value (take (Z.to_nat n) (drop (Z.to_nat off) bs)).
Proof.
  intros Hb Ho Hn Hfit. unfold load_bytes. destruct (Z.eqb_spec n 0) as [->|]; [done|]. rewrite Hb.
  zcases. done.
Qed.

Lemma store_ok h b bs off cs : h !! b = Some bs -> 0 <= off -> (1 <= List.length cs)%nat ->
  off + Z.of_nat (List.length cs) <= Z.of_nat (List.length bs) ->
  store_bytes h (At b off) cs = Value (<[b := splice bs (Z.to_nat off) cs]> h).
Proof.
  intros Hb Ho Hn Hfit. unfold store_bytes. destruct (Nat.eqb_spec (List.length cs) 0); [lia|]. rewrite Hb.
  zcases. done.
Qed.

Lemma write_spec h s cs k : slice_ok h s esz -> 1 <= k -> length s + k <= capacity s ->
  Z.of_nat (List.length cs) = k * esz -> capacity s * esz < 2 ^ 64 ->
  exists h', write_at_length h s cs k esz = Value (mkSlice (data s) (length s + k) (capacity s), h') /\
    updated h s esz h' (mkSlice (data s) (length s + k) (capacity s)) cs.
Proof.
  intros [Hlen Hd] Hk Hcap Hcs Hmax.
  assert (H1 : length s * esz + k * esz <= capacity s * esz) by nia.
  assert (H2 : 0 <= length s * esz) by nia. assert (H3 : capacity s <= capacity s * esz) by nia.
  unfold write_at_length. rewrite !wrap_small by nia.
  destruct (data s) as [| |b off] eqn:Ed; try lia. destruct Hd as (->&bs&Hb&Hbs).
  cbn [shift]. rewrite Z.add_0_l. rewrite (store_ok h b bs) by (try done; nia). cbn [rbind].
  eexists. split; [reflexivity|].
  assert (Hlen' : List.length (splice bs (Z.to_nat (length s * esz)) cs) = List.length bs) by (apply splice_length; lia).
  split.
  - split; [cbn; lia|]. split; [done|]. eexists. split; [apply lookup_insert_eq|]. cbn. by rewrite Hlen'.
  - unfold elements. rewrite Ed. cbn [data length]. rewrite lookup_insert_eq, Hb. cbn. rewrite !drop_0.
    replace (Z.to_nat ((length s + k) * esz)) with (Z.to_nat (length s * esz) + List.length cs)%nat by nia.
    apply take_splice. lia.
  - intros b' [off' Eb]. cbn in Eb. left. exists off'. by rewrite Ed.
  - intros b' Hn _. rewrite lookup_insert_ne; [done|]. intros ->. apply Hn. by exists 0.
Qed.

Lemma take_resize bs n m : (m <= n)%nat -> (m <= List.length bs)%nat -> take m (resize_cells bs n) = take m bs.
Proof.
  intros H1 H2. unfold resize_cells. rewrite take_app_le by (rewrite length_take; lia).
  rewrite take_take. f_equal. lia.
Qed.

Lemma resize_length bs n : List.length (resize_cells bs n) = n.
Proof. unfold resize_cells. rewrite length_app, length_take, length_replicate. lia. Qed.

Lemma realloc_spec h s size : slice_ok h s esz -> 0 < size <= SIZE_MAX - GOO_OBJ_HEADER_SIZE ->
  match goo_realloc place h (data s) size with
  | Value (p, h') => exists b bs', p = At b 0 /\ h' !! b = Some bs' /\ Z.of_nat (List.length bs') = size /\
      (in_block s b \/ h !! b = None) /\
      (length s * esz <= size -> take (Z.to_nat (length s * esz)) bs' = elements h s esz) /\
      (forall b', ~ in_block s b' -> b' <> b -> h' !! b' = h !! b')
  | Panics m => out_of_memory m
  | _ => False
  end.
Proof.
  intros [Hlen Hd] Hsz. unfold goo_realloc, elements.
  destruct (Z.eqb_spec size 0); [lia|]. destruct (Z.ltb_spec (SIZE_MAX - GOO_OBJ_HEADER_SIZE) size); [lia|].
  destruct (data s) as [| |b off] eqn:Ed.
  1,2: cbn; destruct (place h None size) as [b|] eqn:Ep; [|by split; [done|eauto]];
    exists b, (replicate (Z.to_nat size) None); rewrite lookup_insert_eq, length_replicate;
    (split; [done|]); (split; [done|]); (split; [lia|]); split;
      [right; destruct (Hplace _ _ _ _ Ep); [done|congruence]|split];
      [intros _; replace (length s) with 0 by lia; done|intros b' _ Hne; by rewrite lookup_insert_ne by done].
  destruct Hd as (->&bs&Hb&Hbs). rewrite Hb. cbn.
  destruct (place h (Some b) size) as [b2|] eqn:Ep; [|by split; [done|eauto]].
  exists b2, (resize_cells bs (Z.to_nat size)). rewrite lookup_insert_eq, resize_length.
  split; [done|]. split; [done|]. split; [lia|]. split.
  { destruct (Hplace _ _ _ _ Ep) as [|[= <-]]; [auto|]. left. by exists 0. }
  split.
  - intros Hle. rewrite drop_0. apply take_resize; [lia|]. nia.
  - intros b' Hn Hne. rewrite lookup_insert_ne by done. apply lookup_delete_ne. intros <-. apply Hn. by exists 0.
Qed.

Lemma grow_spec h s need : slice_ok h s esz -> capacity s < need -> need < 2 ^ 62 ->
  (2 * need) * esz <= SIZE_MAX - GOO_OBJ_HEADER_SIZE ->
  match grow_slice place h s need esz with
  | Value (Some s', h') => updated h s esz h' s' [] /\ length s' = length s /\
      need <= capacity s' <= 2 * need /\ goo_slice_grow_capacity (capacity s) need = Value (capacity s')
  | Panics m => out_of_memory m
  | _ => False
  end.
Proof.
  intros Hok Hc Hn Hmax. pose proof Hok as [Hlen _].
  destruct (grow_capacity_ok (capacity s) need) as (c&Ec&Hcr); [lia|done|].
  unfold grow_slice. rewrite Ec. cbn [rbind]. unfold SIZE_MAX, GOO_OBJ_HEADER_SIZE in Hmax.
  assert (Hcz : c * esz <= 2 * need * esz) by nia. assert (0 < c * esz) by nia.
  rewrite wrap_small by lia.
  assert (Hr := realloc_spec h s (c * esz) Hok ltac:(unfold SIZE_MAX, GOO_OBJ_HEADER_SIZE; lia)).
  destruct (goo_realloc place h (data s) (c * esz)) as [[p h']| | |]; [|exact Hr|done..]. cbn [rbind].
  destruct Hr as (b&bs'&->&Hb&Hbs&Hblk&Hel&Hfr). cbn. split; [|split_and!; (lia || done)].
  split.
  - split; cbn; [lia|]. split; [done|]. exists bs'. split; [done|lia].
  - unfold elements at 1. cbn. rewrite Hb, drop_0, app_nil_r. cbn. apply Hel. nia.
  - intros b' [off E]. cbn in E. injection E as <- _. done.
  - intros b' Hnb Hnb'. apply Hfr; [done|]. intros ->. apply Hnb'. by exists 0.
Qed.

(** Growing to [need] elements when that is necessary, as both appends do. *)
Lemma ensure_spec h s need : slice_ok h s esz -> length s < need -> need < 2 ^ 62 ->
  (2 * need) * esz <= SIZE_MAX - GOO_OBJ_HEADER_SIZE -> capacity s * esz < 2 ^ 64 ->
  match (if capacity s <? need then grow_slice place h s need esz else Value (Some s, h)) with
  | Value (Some s', h') => updated h s esz h' s' [] /\ length s' = length s /\
      need <= capacity s' /\ capacity s' * esz < 2 ^ 64 /\
      (need <= capacity s -> s' = s) /\ capacity s' <= Z.max (capacity s) (2 * need) /\
      (capacity s < need -> goo_slice_grow_capacity (capacity s) need = Value (capacity s'))
  | Panics m => out_of_memory m
  | _ => False
  end.
Proof.
  intros Hok Hl Hn Hmax Hcap. destruct (Z.ltb_spec (capacity s) need) as [Hlt|Hge].
  - pose proof (grow_spec h s need Hok Hlt Hn Hmax) as H.
    destruct (grow_slice place h s need esz) as [[[s'|] h']| | |]; try done. destruct H as (H1&H2&H3&H4).
    unfold SIZE_MAX, GOO_OBJ_HEADER_SIZE in Hmax. split_and!; try done; nia.
  - split_and!; try done; [|lia..]. split; [done|by rewrite app_nil_r|auto|done].
Qed.

(** A growth and then a write at the same place. *)
Lemma updated_trans h s h1 s1 a h2 s2 b : updated h s esz h1 s1 a -> updated h1 s1 esz h2 s2 b ->
  data s2 = data s1 -> updated h s esz h2 s2 (a ++ b).
Proof.
  intros [Ha Hb Hc Hd] [Ha' Hb' Hc' Hd'] E.
  assert (Hin : forall c, in_block s2 c <-> in_block s1 c) by (intros c; unfold in_block; by rewrite E).
  split; [done|by rewrite Hb', Hb, app_assoc|intros c; rewrite Hin; auto|].
  intros c Hn Hn2. rewrite Hd' by (rewrite <- ?Hin; done). apply Hd; [done|]. by rewrite <- Hin.
Qed.

Lemma append_spec h s e : slice_ok h s esz -> Z.of_nat (List.length e) = esz ->
  length s + 1 < 2 ^ 62 -> 2 * (length s + 1) * esz <= SIZE_MAX - GOO_OBJ_HEADER_SIZE ->
  capacity s * esz < 2 ^ 64 ->
  match goo_slice_append place h s (Some e) esz with
  | Value (r, s', h') => r = 1 /\ length s' = length s + 1 /\ updated h s esz h' s' e /\
      (length s < capacity s -> data s' = data s /\ capacity s' = capacity s) /\
      capacity s' <= Z.max (capacity s) (2 * (length s + 1)) /\
      (length s = capacity s -> capacity s' = Z.max 1 (2 * capacity s))
  | Panics m => out_of_memory m
  | _ => False
  end.
Proof.
  intros Hok He Hn Hmax Hcap. pose proof Hok as [Hlen _].
  unfold goo_slice_append. rewrite (wrap_small 64) by lia.
  assert (Heq : (capacity s <=? length s) = (capacity s <? length s + 1)).
  { zcases. }
  rewrite Heq. pose proof (ensure_spec h s (length s + 1) Hok ltac:(lia) Hn Hmax Hcap) as Hg.
  destruct (if capacity s <? length s + 1 then _ else _) as [[[s1|] h1]| | |]; cbn [rbind]; try done.
  destruct Hg as (Hu&Hl1&Hc1&Hm1&Hsame&Hbound&Hgrow). rewrite take_ge by lia.
  destruct (write_spec h1 s1 e 1) as (h2&Ew&Hu2); [apply Hu|lia|lia|lia|lia|].
  rewrite Ew. cbn [rbind]. split_and!; [done|cbn; lia| | |done|].
  - rewrite <- (app_nil_l e). by apply (updated_trans _ _ h1 s1).
  - intros Hlt. rewrite Hsame by lia. done.
  - intros Hfull. cbn. specialize (Hgrow ltac:(lia)). rewrite <- Hfull, grow_capacity_one in * by lia. congruence.
Qed.

Lemma slice_ok_frame h h' s : slice_ok h s esz -> (forall b, in_block s b -> h' !! b = h !! b) ->
  slice_ok h' s esz /\ elements h' s esz = elements h s esz.
Proof.
  intros [Hl Hd] Hf. unfold slice_ok, elements. destruct (data s) as [| |b off] eqn:E; try done.
  rewrite (Hf b) by (by exists off). done.
Qed.

Lemma in_block_live h s b : slice_ok h s esz -> in_block s b -> h !! b <> None.
Proof. intros [_ Hd] [off E]. rewrite E in Hd. destruct Hd as (_&bs&->&_). done. Qed.

(** A scratch block does not disturb an update. *)
Lemma updated_scratch h s snap cs h4 s2 added : slice_ok h s esz -> h !! snap = None ->
  updated (<[snap := cs]> h) s esz h4 s2 added -> updated h s esz (delete snap h4) s2 added.
Proof.
  intros Hok Hs [H1 H2 H3 H4].
  assert (Hns : ~ in_block s snap) by (intros Hi; by apply (in_block_live h s snap Hok Hi)).
  assert (Hns2 : ~ in_block s2 snap).
  { intros Hi. destruct (H3 snap Hi) as [|Hnone]; [done|]. by rewrite lookup_insert_eq in Hnone. }
  destruct (slice_ok_frame h4 (delete snap h4) s2) as [Ha Hb]; [done| |].
  { intros b Hi. apply lookup_delete_ne. by intros <-. }
  destruct (slice_ok_frame h (<[snap := cs]> h) s) as [_ Hc]; [done| |].
  { intros b Hi. apply lookup_insert_ne. by intros <-. }
  split; [done|by rewrite Hb, H2, Hc| |].
  - intros b Hi. destruct (H3 b Hi) as [|Hn]; [auto|]. rewrite lookup_insert_ne in Hn; [auto|by intros <-].
  - intros b Hb1 Hb2. destruct (decide (snap = b)) as [<-|Hne]; [by rewrite lookup_delete_eq|].
    rewrite lookup_delete_ne, H4, lookup_insert_ne by done. done.
Qed.

Lemma splice_whole n cs : List.length cs = n -> splice (replicate n None) 0 cs = cs.
Proof.
  intros H. unfold splice. rewrite take_0, drop_ge by (rewrite length_replicate; lia). cbn. apply app_nil_r.
Qed.

(** The snapshot of the source: a fresh block holding its bytes. *)
Lemma snapshot_spec h sb soff sbs n : h !! sb = Some sbs -> 0 <= soff -> 0 < n ->
  soff + n <= Z.of_nat (List.length sbs) -> n <= SIZE_MAX - GOO_OBJ_HEADER_SIZE ->
  let cs := take (Z.to_nat n) (drop (Z.to_nat soff) sbs) in
  match alloc_block place h n with
  | Value (p, h1) => exists snap, p = At snap 0 /\ h !! snap = None /\
      load_bytes h1 (At sb soff) n = Value cs /\ store_bytes h1 p cs = Value (<[snap := cs]> h)
  | Panics m => out_of_memory m
  | _ => False
  end.
Proof.
  intros Hsb Ho Hn Hfit Hmax cs. unfold alloc_block.
  destruct (Z.eqb_spec n 0); [lia|]. destruct (Z.ltb_spec (SIZE_MAX - GOO_OBJ_HEADER_SIZE) n); [lia|].
  destruct (place h None n) as [snap|] eqn:Ep; [|by split; [done|eauto]].
  destruct (Hplace _ _ _ _ Ep) as [Hfresh|]; [|done].
  assert (Hlen : List.length cs = Z.to_nat n) by (unfold cs; rewrite length_take, length_drop; lia).
  exists snap. split; [done|]. split; [done|]. split.
  - apply load_ok; try lia. rewrite lookup_insert_ne; [done|]. intros ->. congruence.
  - rewrite (store_ok _ snap (replicate (Z.to_nat n) None)) by
      (rewrite ?lookup_insert_eq, ?length_replicate; try done; lia).
    rewrite insert_insert_eq, splice_whole by done. done.
Qed.

Lemma append_bulk_spec h s sb soff sbs n : slice_ok h s esz ->
  h !! sb = Some sbs -> 0 <= soff -> 0 < n -> soff + n * esz <= Z.of_nat (List.length sbs) ->
  length s + n < 2 ^ 62 -> 2 * (length s + n) * esz <= SIZE_MAX - GOO_OBJ_HEADER_SIZE ->
  capacity s * esz < 2 ^ 64 ->
  match goo_slice_append_bulk place h s (At sb soff) n esz with
  | Value (s', h') => length s' = length s + n /\
      updated h s esz h' s' (take (Z.to_nat (n * esz)) (drop (Z.to_nat soff) sbs))
  | Panics m => out_of_memory m
  | _ => False
  end.
Proof.
  intros Hok Hsb Ho Hn Hfit Hneed Hmax Hcap. pose proof Hok as [Hlen _].
  assert (Hbytes : 0 < n * esz /\ n * esz <= SIZE_MAX - GOO_OBJ_HEADER_SIZE) by nia.
  assert (H64 : n * esz < 2 ^ 64) by (unfold SIZE_MAX, GOO_OBJ_HEADER_SIZE in *; lia).
  unfold goo_slice_append_bulk. destruct (Z.leb_spec n 0); [lia|]. destruct (Z.leb_spec esz 0); [lia|].
  cbn [orb]. rewrite !(wrap_small 64) by lia.
  pose proof (snapshot_spec h sb soff sbs (n * esz) Hsb Ho ltac:(lia) Hfit ltac:(lia)) as Hs. cbv zeta in Hs.
  destruct (alloc_block place h (n * esz)) as [[p h1]| | |]; cbn [rbind]; try done.
  destruct Hs as (snap&->&Hfresh&Hload&Hstore). rewrite Hload. cbn [rbind]. rewrite Hstore. cbn [rbind].
  set (cs := take (Z.to_nat (n * esz)) (drop (Z.to_nat soff) sbs)) in *.
  assert (Hcs : Z.of_nat (List.length cs) = n * esz) by (unfold cs; rewrite length_take, length_drop; lia).
  assert (Hns : ~ in_block s snap) by (intros Hi; by apply (in_block_live h s snap Hok Hi)).
  destruct (slice_ok_frame h (<[snap := cs]> h) s) as [Hok2 _]; [done| |].
  { intros b Hi. apply lookup_insert_ne. by intros <-. }
  pose proof (ensure_spec (<[snap := cs]> h) s (length s + n) Hok2 ltac:(lia) Hneed Hmax Hcap) as Hg.
  destruct (if capacity s <? length s + n then _ else _) as [[[s1|] h3]| | |]; cbn [rbind]; try done.
  destruct Hg as (Hu&Hl1&Hc1&Hm1&_).
  assert (Hns1 : ~ in_block s1 snap).
  { intros Hi. destruct (up_block _ _ _ _ _ _ Hu snap Hi) as [|Hnone]; [done|]. by rewrite lookup_insert_eq in Hnone. }
  assert (Hsnap3 : h3 !! snap = Some cs).
  { rewrite (up_frame _ _ _ _ _ _ Hu) by done. apply lookup_insert_eq. }
  rewrite (load_ok h3 snap cs) by (try done; lia). change (Z.to_nat 0) with 0%nat.
  rewrite drop_0, take_ge by lia. cbn [rbind].
  destruct (write_spec h3 s1 cs n) as (h4&Ew&Hu2); [apply Hu|lia|lia|lia|lia|]. rewrite Ew. cbn [rbind].
  assert (Hsnap4 : h4 !! snap = Some cs).
  { rewrite (up_frame _ _ _ _ _ _ Hu2); [done|done|]. intros [off E]. apply Hns1. by exists off. }
  unfold free_block. rewrite Hsnap4. cbn. split; [lia|].
  apply (updated_scratch h s snap cs); [done|done|].
  rewrite <- (app_nil_l cs) at 2. by apply (updated_trans _ _ h3 s1).
Qed.
End specs.

(** [make] gives zeroed elements in a block of its own, never an empty one. *)
Lemma slice_alloc_zeroed place h count esz : fair_place place -> 0 < esz ->
  count * esz <= SIZE_MAX - GOO_OBJ_HEADER_SIZE ->
  match goo_slice_alloc place h count esz with
  | Value (p, h') => exists b, p = At b 0 /\ h !! b = None /\
      h' = <[b := replicate (Z.to_nat (Z.max 1 (count * esz))) (Some 0)]> h
  | Panics m => out_of_memory place m
  | _ => False
  end.
Proof.
  intros Hp He Hmax. unfold goo_slice_alloc, SIZE_MAX, GOO_OBJ_HEADER_SIZE in *.
  set (bytes := if (0 <? count) && (0 <? esz) then u64 (count * esz) else 1).
  assert (Hb : bytes = Z.max 1 (count * esz)).
  { unfold bytes. destruct (Z.ltb_spec 0 count), (Z.ltb_spec 0 esz); try lia; cbn [andb]; [|nia].
    rewrite wrap_small; nia. }
  assert ((0 <? count) && (0 <? esz) && ((2 ^ 64 - 1) / esz <? count) = false) as ->.
  { destruct (Z.ltb_spec 0 count), (Z.ltb_spec 0 esz); try lia; cbn [andb].
    apply Z.ltb_ge. apply Z.div_le_lower_bound; lia. }
  rewrite Hb. clearbody bytes. set (n := Z.max 1 (count * esz)) in *. assert (1 <= n <= 2 ^ 64 - 1 - 16) by lia.
  unfold alloc_block, SIZE_MAX, GOO_OBJ_HEADER_SIZE. destruct (Z.eqb_spec n 0); [lia|].
  destruct (Z.ltb_spec (2 ^ 64 - 1 - 16) n); [lia|].
  destruct (place h None n) as [b|] eqn:Ep; cbn [rbind]; [|by split; [done|eauto]].
  destruct (Hp _ _ _ _ Ep) as [Hfresh|]; [|done].
  rewrite (store_ok _ b (replicate (Z.to_nat n) None)) by
    (rewrite ?lookup_insert_eq, ?length_replicate; try done; lia).
  cbn [rbind]. exists b. split; [done|]. split; [done|]. rewrite insert_insert_eq, splice_whole; [done|].
  apply length_replicate.
Qed.

(** ** The properties. *)
(** An allocator for the witnesses: always the first free block, so a [realloc] always moves. *)
Definition moving_place (h : heap) (o : option nat) (n : Z) : option nat := Some (fresh (dom h)).

Lemma moving_fair : fair_place moving_place.
Proof.
  intros h o n b [= <-]. left. apply not_elem_of_dom. apply is_fresh.
Qed.

Lemma moving_never_out m : ~ out_of_memory moving_place m.
Proof. by intros (_&h&o&n&H). Qed.

(** Block 0 holds the elements 10 and 20 of one byte each. *)
Definition demo_heap : heap := {[ 0%nat := [Some 10; Some 20] ]}.
Definition demo_slice : goo_slice := mkSlice (At 0 0) 2 2.

Lemma demo_ok : slice_ok demo_heap demo_slice 1.
Proof. split; [cbn; lia|]. split; [reflexivity|]. exists [Some 10; Some 20]. split; [reflexivity|]. cbn. lia. Qed.

(** C16: for a slice that starts at the base of a live block holding its whole capacity (so not
    for a reslice, see [reslice_append_undefined]), with elements of at least one byte (see
    [zero_size_append_frees]) and with sizes that fit [size_t], appending one element answers 1
    and a slice one longer whose elements are the old ones followed by the new one.  While there
    is capacity the slice stays in its array; a full slice gets exactly twice its capacity, 1 from 0;
    no other block changes; and the only failure is libc running out of memory. *)
Theorem slice_append_correct place h s e esz (Hplace : fair_place place) (Hesz : 0 < esz)
  (Hok : slice_ok h s esz) (He : Z.of_nat (List.length e) = esz) (Hn : length s + 1 < 2 ^ 62)
  (Hmax : 2 * (length s + 1) * esz <= SIZE_MAX - GOO_OBJ_HEADER_SIZE)
  (Hcap : capacity s * esz < 2 ^ 64) :
  match goo_slice_append place h s (Some e) esz with
  | Value (r, s', h') => r = 1 /\ length s' = length s + 1 /\ updated h s esz h' s' e /\
      (length s < capacity s -> data s' = data s /\ capacity s' = capacity s) /\
      capacity s' <= Z.max (capacity s) (2 * (length s + 1)) /\
      (length s = capacity s -> capacity s' = Z.max 1 (2 * capacity s))
  | Panics m => out_of_memory place m
  | _ => False
  end.
Proof. by apply append_spec. Qed.

Lemma slice_append_correct_witness : exists s' h',
  goo_slice_append moving_place demo_heap demo_slice (Some [Some 30]) 1 = Value (1, s', h') /\
  updated demo_heap demo_slice 1 h' s' [Some 30] /\ capacity s' = 4.
Proof.
  assert (E : exists s' h', goo_slice_append moving_place demo_heap demo_slice (Some [Some 30]) 1 = Value (1, s', h'))
    by (do 2 eexists; vm_compute; reflexivity).
  destruct E as (s'&h'&E). exists s', h'. split; [exact E|].
  pose proof (slice_append_correct moving_place demo_heap demo_slice [Some 30] 1 moving_fair
    ltac:(lia) demo_ok eq_refl ltac:(cbn; lia) ltac:(by vm_compute) ltac:(cbn; lia)) as H.
  rewrite E in H. destruct H as (_&_&H&_&_&Hc). split; [exact H|]. exact (Hc eq_refl).
Defined.

(** appending a whole source range gives the old elements followed by the source's bytes as
    they were at the call, wherever the source lies, the slice's own array included
    ([append(b, b...)]); the scratch copy leaves no trace, and no other array changes. *)
Theorem slice_append_bulk_correct place h s sb soff sbs n esz (Hplace : fair_place place) (Hesz : 0 < esz)
  (Hok : slice_ok h s esz) (Hsrc : h !! sb = Some sbs) (Hoff : 0 <= soff) (Hn : 0 < n)
  (Hfit : soff + n * esz <= Z.of_nat (List.length sbs)) (Hneed : length s + n < 2 ^ 62)
  (Hmax : 2 * (length s + n) * esz <= SIZE_MAX - GOO_OBJ_HEADER_SIZE) (Hcap : capacity s * esz < 2 ^ 64) :
  match goo_slice_append_bulk place h s (At sb soff) n esz with
  | Value (s', h') => length s' = length s + n /\
      updated h s esz h' s' (take (Z.to_nat (n * esz)) (drop (Z.to_nat soff) sbs))
  | Panics m => out_of_memory place m
  | _ => False
  end.
Proof. by apply append_bulk_spec. Qed.

(** [append(b, b...)] with a [realloc] that moves the array. *)
Lemma slice_append_bulk_correct_witness : exists s' h',
  goo_slice_append_bulk moving_place demo_heap demo_slice (At 0 0) 2 1 = Value (s', h') /\
  updated demo_heap demo_slice 1 h' s' [Some 10; Some 20].
Proof.
  assert (E : exists s' h', goo_slice_append_bulk moving_place demo_heap demo_slice (At 0 0) 2 1 = Value (s', h'))
    by (do 2 eexists; vm_compute; reflexivity).
  destruct E as (s'&h'&E). exists s', h'. split; [exact E|].
  pose proof (slice_append_bulk_correct moving_place demo_heap demo_slice 0 0 [Some 10; Some 20] 2 1 moving_fair
    ltac:(lia) demo_ok eq_refl ltac:(lia) ltac:(lia) ltac:(cbn; lia) ltac:(cbn; lia) ltac:(by vm_compute) ltac:(cbn; lia)) as H.
  rewrite E in H. exact (proj2 H).
Defined.

Lemma rbind_Value {A B} (m : run A) (f : A -> run B) b : rbind m f = Value b ->
  exists a, m = Value a /\ f a = Value b.
Proof. destruct m; cbn; try done. eauto. Qed.

Lemma store_frame h p cs h' b : store_bytes h p cs = Value h' -> (forall off, p <> At b off) -> h' !! b = h !! b.
Proof.
  unfold store_bytes. destruct (List.length cs =? 0)%nat; [by intros [= <-]|].
  destruct p as [| |b' off]; try done. destruct (h !! b') as [bs|]; [|done].
  destruct (_ && _); [|done]. intros [= <-] Hp. apply lookup_insert_ne. intros ->. by apply (Hp off).
Qed.

(** a growing append frees the array it leaves.  Whenever [realloc] moves the array of a full
    slice, every other slice header over that array reads freed memory afterwards; in Go the
    array lives on. *)
Theorem growing_append_dangles place h s e esz b s' h' (Hdata : data s = At b 0)
  (Hfull : capacity s <= length s)
  (Happ : goo_slice_append place h s (Some e) esz = Value (1, s', h')) (Hmoved : ~ in_block s' b) :
  forall t off n, data t = At b off -> 0 < n -> load_bytes h' (data t) n = Undefined.
Proof.
  intros t off n Ht Hn. rewrite Ht. unfold load_bytes. destruct (Z.eqb_spec n 0); [lia|].
  assert (h' !! b = None) as ->; [|done].
  unfold goo_slice_append in Happ. destruct (Z.leb_spec (capacity s) (length s)); [|lia].
  apply rbind_Value in Happ as ([g h1]&Hg&Happ). unfold grow_slice in Hg.
  apply rbind_Value in Hg as (c&_&Hg). apply rbind_Value in Hg as ([nd h0]&Hr&Hg).
  assert (Hh1 : h1 = h0) by (by destruct nd; injection Hg as <- <-). subst h1.
  rewrite Hdata in Hr. unfold goo_realloc in Hr. cbn -[GOO_OBJ_HEADER_SIZE] in Hr.
  destruct (u64 (c * esz) =? 0).
  { apply rbind_Value in Hr as (hf&_&Hr). injection Hr as <- <-.
    injection Hg as <-. cbn in Happ. discriminate Happ. }
  destruct (SIZE_MAX - GOO_OBJ_HEADER_SIZE <? u64 (c * esz)); [done|].
  destruct (h !! b) as [bs|]; [|done]. destruct (place h (Some b) (u64 (c * esz))) as [b2|]; [|done].
  injection Hr as <- <-. injection Hg as <-.
  apply rbind_Value in Happ as ([s2 h2]&Hw&Happ). injection Happ as <- <-.
  unfold write_at_length in Hw. apply rbind_Value in Hw as (h3&Hst&Hw). injection Hw as <- <-.
  assert (Hne : b2 <> b). { intros ->. apply Hmoved. by exists 0. }
  rewrite (store_frame _ _ _ _ b Hst); [|intros o' E; cbn in E; congruence].
  rewrite lookup_insert_ne by done. apply lookup_delete_eq.
Qed.

(** [b := append(a, 30)], and then [a] is read. *)
Lemma growing_append_dangles_witness : exists s' h',
  goo_slice_append moving_place demo_heap demo_slice (Some [Some 30]) 1 = Value (1, s', h') /\
  load_bytes h' (data demo_slice) 2 = Undefined.
Proof.
  eexists _, _. split; [vm_compute; reflexivity|].
  refine (growing_append_dangles moving_place demo_heap demo_slice [Some 30] 1 0
    (mkSlice (At 1 0) 3 4) _ eq_refl ltac:(cbn; lia) _ _ demo_slice 0 2 eq_refl ltac:(lia)).
  - vm_compute. reflexivity.
  - intros [off E]. discriminate E.
Defined.

(** appending to a full reslice is undefined.  The header of [base[low:high]] points inside
    the array, and growing hands that interior pointer to libc. *)
Theorem reslice_append_undefined place h s low high e esz b t (Hdata : data s = At b 0)
  (Hesz : 0 < esz) (Hlow : 0 < low) (Hslice : slice_expression s low high esz = Value t)
  (Hfull : high = capacity s) (Hcap : capacity s < 2 ^ 61)
  (Hmax : 2 * (capacity s + 1) * esz <= SIZE_MAX - GOO_OBJ_HEADER_SIZE) :
  goo_slice_append place h t (Some e) esz = Undefined.
Proof.
  subst high. unfold slice_expression, goo_slice_bounds_check in Hslice.
  destruct ((low <? 0) || (capacity s <? low) || (capacity s <? capacity s)) eqn:E; [done|].
  apply orb_false_iff in E as [[_ E2%Z.ltb_ge]%orb_false_iff _].
  cbn in Hslice. rewrite Hdata in Hslice. cbn in Hslice. injection Hslice as <-.
  unfold goo_slice_append. cbn [capacity length]. rewrite Z.leb_refl, (wrap_small 64) by lia.
  unfold grow_slice. cbn [capacity].
  destruct (grow_capacity_ok (capacity s - low) (capacity s - low + 1)) as (c&->&Hc); [lia|lia|]. cbn [rbind data].
  unfold SIZE_MAX, GOO_OBJ_HEADER_SIZE in Hmax.
  assert (Hb : 0 < c * esz /\ c * esz <= 2 * (capacity s + 1) * esz) by nia.
  rewrite wrap_small by lia. unfold goo_realloc, SIZE_MAX, GOO_OBJ_HEADER_SIZE.
  destruct (Z.eqb_spec (c * esz) 0); [lia|]. destruct (Z.ltb_spec (2 ^ 64 - 1 - 16) (c * esz)); [lia|].
  destruct (h !! b); [|done]. destruct (Z.eqb_spec (0 + low * esz) 0); [nia|done].
Qed.

Lemma reslice_append_undefined_witness :
  slice_expression demo_slice 1 2 1 = Value (mkSlice (At 0 1) 1 1) /\
  goo_slice_append moving_place demo_heap (mkSlice (At 0 1) 1 1) (Some [Some 30]) 1 = Undefined.
Proof.
  split; [reflexivity|].
  exact (reslice_append_undefined moving_place demo_heap demo_slice 1 2 [Some 30] 1 0 (mkSlice (At 0 1) 1 1)
    eq_refl ltac:(lia) ltac:(lia) eq_refl eq_refl ltac:(cbn; lia) ltac:(by vm_compute)).
Defined.

(** appending to a full slice of zero-size elements loses the element and frees the array:
    the growth asks [goo_realloc] for 0 bytes, which frees and answers NULL; the caller gets the
    old header back, still pointing at the freed block. *)
Theorem zero_size_append_frees place h s e b (Hdata : data s = At b 0) (Hlive : h !! b <> None)
  (Hfull : length s = capacity s) (Hcap : 0 <= capacity s < 2 ^ 61) :
  goo_slice_append place h s (Some e) 0 = Value (0, s, delete b h).
Proof.
  unfold goo_slice_append. rewrite Hfull, Z.leb_refl, (wrap_small 64) by lia. unfold grow_slice.
  destruct (grow_capacity_ok (capacity s) (capacity s + 1)) as (c&->&Hc); [lia|lia|]. cbn [rbind].
  rewrite Z.mul_0_r, Hdata. change (u64 0) with 0. cbn.
  rewrite bool_decide_eq_true_2; [done|]. destruct (h !! b); [by eexists|done].
Qed.

Lemma zero_size_append_frees_witness : demo_heap !! 0%nat <> None /\
  goo_slice_append moving_place demo_heap demo_slice (Some []) 0
  = Value (0, demo_slice, delete 0%nat demo_heap).
Proof.
  split; [discriminate|].
  apply (zero_size_append_frees moving_place demo_heap demo_slice [] 0); [reflexivity|discriminate|reflexivity|].
  cbn. lia.
Defined.

(** Beyond 2^63 the doubling loop of growth never ends: the capacity wraps to 0. *)
Lemma grow_capacity_loops fuel : grow_loop fuel (first_capacity (2 ^ 62)) (2 ^ 63 + 1) = None.
Proof.
  destruct fuel as [|f]; [done|]. change (grow_loop f 0 (2 ^ 63 + 1) = None). by apply grow_loop_zero.
Qed.
