(* ===== verification/RtString.v ===== *)
(** * RtString: the strings of [src/runtime/runtime.c].

    A [goo_string_t] is a pointer with a length; the functions behind package strings take a C
    string instead, the bytes up to the first NUL.  Memory is the heap of [RtSlice].  [malloc] is
    its [place]; [goo_alloc] panics when memory is out.  An array of strings is the list of its
    elements and writing outside it is [Undefined]; so is copying bytes that were never written.
    The locale is C, as no code sets another.  A stack buffer that is copied from is a list of
    bytes.  The out-pointers of the calls are taken not to be NULL, as code generation has it. *)
From Stdlib Require Import ZArith Lia Bool Ascii String.
From stdpp Require Import base list gmap strings pretty.
From S2P Require Import Prelude Numeral Utf8 RtSlice.
Local Open Scope Z_scope.
Local Open Scope goo_scope.

Record goo_string : Set := mkString { str_data : loc; str_length : Z }.
Definition no_string : goo_string := mkString Null 0.

(** ** libc *)
Definition is_null (p : loc) : bool := match p with Null => true | _ => false end.

(** The bytes of written cells. *)
Fixpoint written (cs : list cell) : run (list Z) :=
  match cs with
  | [] => Value []
  | Some z :: cs => run* zs := written cs in Value (z :: zs)
  | None :: _ => Undefined
  end.

Definition read_bytes (h : heap) (p : loc) (n : Z) : run (list Z) :=
  run* cs := load_bytes h p n in written cs.

(** The bytes before the first NUL; running off the block is undefined. *)
Fixpoint until_nul (cs : list cell) : run (list Z) :=
  match cs with
  | [] | None :: _ => Undefined
  | Some z :: cs => if z =? 0 then Value [] else run* zs := until_nul cs in Value (z :: zs)
  end.

Definition c_string (h : heap) (p : loc) : run (list Z) :=
  match p with
  | At b off =>
      match h !! b with
      | Some bs => if 0 <=? off then until_nul (drop (Z.to_nat off) bs) else Undefined
      | None => Undefined
      end
  | _ => Undefined
  end.

Definition c_strlen (h : heap) (p : loc) : run Z :=
  run* v := c_string h p in Value (Z.of_nat (List.length v)).

Fixpoint is_prefix (needle hay : list Z) : bool :=
  match needle, hay with
  | [], _ => true
  | a :: needle, b :: hay => (a =? b) && is_prefix needle hay
  | _, [] => false
  end.

(** Where the needle begins first. *)
Fixpoint find_sub (needle hay : list Z) : option nat :=
  if is_prefix needle hay then Some 0%nat
  else match hay with [] => None | _ :: hay => option_map S (find_sub needle hay) end.

Definition strstr (h : heap) (hay needle : loc) : run (option loc) :=
  run* v := c_string h hay in
  run* w := c_string h needle in
  Value (option_map (fun i => shift hay (Z.of_nat i)) (find_sub w v)).

Fixpoint memcmp (a b : list Z) : Z :=
  match a, b with
  | x :: a, y :: b => if x =? y then memcmp a b else if x <? y then -1 else 1
  | _, _ => 0
  end.

Definition isspace (z : Z) : bool := (z =? 32) || ((9 <=? z) && (z <=? 13)).
Definition toupper (z : Z) : Z := if (97 <=? z) && (z <=? 122) then z - 32 else z.
Definition tolower (z : Z) : Z := if (65 <=? z) && (z <=? 90) then z + 32 else z.

Fixpoint drop_spaces (v : list Z) : list Z :=
  match v with z :: v' => if isspace z then drop_spaces v' else v | [] => [] end.

(** The digits in front, and what follows them. *)
Fixpoint read_digits (acc : Z) (v : list Z) : Z * list Z :=
  match v with
  | z :: v' => if (48 <=? z) && (z <=? 57) then read_digits (acc * 10 + (z - 48)) v' else (acc, v)
  | [] => (acc, v)
  end.

Definition sign_of (v : list Z) : bool * list Z :=
  match v with
  | z :: v' => if z =? 45 then (true, v') else if z =? 43 then (false, v') else (false, v)
  | [] => (false, v)
  end.

(** [strtoll(v, &end, 10)]: the value, or [None] out of range, and the text at [end]. *)
Definition strtoll (v : list Z) : option Z * list Z :=
  let '(neg, t) := sign_of (drop_spaces v) in
  let '(acc, rest) := read_digits 0 t in
  if (List.length rest =? List.length t)%nat then (Some 0, v)
  else let n := if neg then - acc else acc in
       (if (- 2 ^ 63 <=? n) && (n <? 2 ^ 63) then Some n else None, rest).

(** What [%lld] and [%llu] print. *)
Definition bytes_of_text (s : string) : list Z :=
  map (fun c => Z.of_nat (nat_of_ascii c)) (list_ascii_of_string s).
Definition digits_of (v : Z) : list Z := bytes_of_text (pretty v).

Section allocator.
Context (place : heap -> option nat -> Z -> option nat).

(** ** Making strings *)
(** [n + 1] bytes, [n] of them copied and a NUL after them. *)
Definition copy_out (h : heap) (bytes : list Z) : run (loc * heap) :=
  let n := Z.of_nat (List.length bytes) in
  run* (copy, h1) := alloc_block place h (u64 (n + 1)) in
  run* h2 := store_bytes h1 copy (map Some bytes) in
  run* h3 := store_bytes h2 (shift copy n) [Some 0] in
  Value (copy, h3).

(** [goo_string_new_with_length] of a stack buffer. *)
Definition string_of_buffer (h : heap) (bytes : list Z) : run (goo_string * heap) :=
  match bytes with
  | [] => Value (no_string, h)
  | _ =>
      run* (copy, h1) := copy_out h bytes in
      Value (mkString copy (Z.of_nat (List.length bytes)), h1)
  end.

Definition goo_string_new_with_length (h : heap) (data : loc) (length : Z) : run (goo_string * heap) :=
  if is_null data || (length =? 0) then Value (no_string, h)
  else run* bytes := read_bytes h data length in string_of_buffer h bytes.

Definition goo_string_new (h : heap) (data : loc) : run (goo_string * heap) :=
  if is_null data then Value (no_string, h)
  else run* n := c_strlen h data in goo_string_new_with_length h data n.

Definition goo_string_free (h : heap) (s : goo_string) : run heap :=
  if is_null (str_data s) then Value h else free_block h (str_data s).

Definition empty_string (s : goo_string) : bool := is_null (str_data s) || (str_length s =? 0).

Definition goo_string_concat (h : heap) (a b : goo_string) : run (goo_string * heap) :=
  if empty_string a then goo_string_new_with_length h (str_data b) (str_length b)
  else if empty_string b then goo_string_new_with_length h (str_data a) (str_length a)
  else
    let total := u64 (str_length a + str_length b) in
    run* (result, h1) := alloc_block place h (u64 (total + 1)) in
    run* va := read_bytes h1 (str_data a) (str_length a) in
    run* h2 := store_bytes h1 result (map Some va) in
    run* vb := read_bytes h2 (str_data b) (str_length b) in
    run* h3 := store_bytes h2 (shift result (str_length a)) (map Some vb) in
    run* h4 := store_bytes h3 (shift result total) [Some 0] in
    Value (mkString result total, h4).

(** ** Conversions *)
Definition PRINT_BUFFER : Z := 32.

Definition goo_int_to_string (h : heap) (value : Z) : run (goo_string * heap) :=
  let buf := digits_of value in
  let n := Z.of_nat (List.length buf) in
  if PRINT_BUFFER <=? n then Panics "goo_int_to_string: snprintf overflow"
  else run* (data, h1) := copy_out h buf in Value (mkString data n, h1).

Definition goo_uint_to_string (h : heap) (value : Z) : run (goo_string * heap) :=
  let buf := digits_of value in
  if PRINT_BUFFER <=? Z.of_nat (List.length buf) then Panics "goo_uint_to_string: snprintf overflow"
  else string_of_buffer h buf.

Definition goo_bool_to_string (h : heap) (value : bool) : run (goo_string * heap) :=
  let lit := bytes_of_text (if value then "true" else "false") in
  run* (data, h1) := copy_out h lit in Value (mkString data (Z.of_nat (List.length lit)), h1).

Definition goo_string_from_rune (h : heap) (r : Z) : run (goo_string * heap) :=
  string_of_buffer h (goo_utf8_encode_rune r).

(** The bytes of a buffer before its NUL. *)
Fixpoint buffer_text (v : list Z) : list Z :=
  match v with z :: v' => if z =? 0 then [] else z :: buffer_text v' | [] => [] end.

(** [None]: the call returns 0. *)
Definition goo_string_to_int (h : heap) (s : goo_string) : run (option Z) :=
  if str_length s =? 0 then Value None
  else if 32 <=? str_length s then Value None
  else
    run* bytes := read_bytes h (str_data s) (str_length s) in
    let buf := buffer_text bytes in
    match strtoll buf with
    | (None, _) => Value None
    | (Some v, rest) =>
        if (List.length rest =? List.length buf)%nat then Value None
        else match rest with [] => Value (Some v) | _ => Value None end
    end.

(** ** Comparison *)
Definition goo_string_eq (h : heap) (a b : goo_string) : run bool :=
  if negb (str_length a =? str_length b) then Value false
  else if str_length a =? 0 then Value true
  else if is_null (str_data a) || is_null (str_data b) then
    Value (is_null (str_data a) && is_null (str_data b))
  else
    run* va := read_bytes h (str_data a) (str_length a) in
    run* vb := read_bytes h (str_data b) (str_length a) in
    Value (memcmp va vb =? 0).

Definition goo_string_cmp (h : heap) (a b : goo_string) : run Z :=
  let n := if str_length a <? str_length b then str_length a else str_length b in
  run* c :=
    (if (0 <? n) && negb (is_null (str_data a)) && negb (is_null (str_data b)) then
       run* va := read_bytes h (str_data a) n in
       run* vb := read_bytes h (str_data b) n in
       Value (memcmp va vb)
     else Value 0) in
  Value (if negb (c =? 0) then (if c <? 0 then -1 else 1)
         else if str_length a <? str_length b then -1
         else if str_length b <? str_length a then 1 else 0).

(** ** Package strings *)
Definition goo_strings_contains (h : heap) (haystack needle : loc) : run bool :=
  if is_null haystack || is_null needle then Value false
  else run* p := strstr h haystack needle in Value (match p with Some _ => true | None => false end).

Definition goo_strings_map_case (h : heap) (s : loc) (mapper : Z -> Z) : run (goo_string * heap) :=
  run* v := (if is_null s then Value [] else c_string h s) in
  run* (out, h1) := copy_out h (map mapper v) in
  Value (mkString out (Z.of_nat (List.length v)), h1).

Definition goo_strings_to_upper (h : heap) (s : loc) : run (goo_string * heap) :=
  goo_strings_map_case h s toupper.
Definition goo_strings_to_lower (h : heap) (s : loc) : run (goo_string * heap) :=
  goo_strings_map_case h s tolower.

Definition goo_strings_trim_space (h : heap) (s : loc) : run (goo_string * heap) :=
  if is_null s then goo_strings_map_case h Null toupper
  else
    run* v := c_string h s in
    let from_start := drop_spaces v in
    let bytes := rev (drop_spaces (rev from_start)) in
    run* (out, h1) := copy_out h bytes in
    Value (mkString out (Z.of_nat (List.length bytes)), h1).

(** The two loops of Split: counting the separators, then cutting.  Each round of a loop goes on
    behind a separator, so the bytes of [s] bound the rounds. *)
Fixpoint count_separators (fuel : nat) (h : heap) (start sep : loc) (sep_len : Z) (count : Z) : run Z :=
  match fuel with
  | O => Loops
  | S fuel =>
      run* p := strstr h start sep in
      match p with
      | None => Value count
      | Some p => count_separators fuel h (shift p sep_len) sep sep_len (count + 1)
      end
  end.

Definition write_part (parts : list goo_string) (count : Z) (s : goo_string) : run (list goo_string) :=
  if Z.of_nat (List.length parts) <? count then Value (parts ++ [s]) else Undefined.

Definition distance (p q : loc) : Z :=
  match p, q with At _ i, At _ j => i - j | _, _ => 0 end.

Fixpoint cut_parts (fuel : nat) (h : heap) (start sep : loc) (sep_len count : Z)
    (parts : list goo_string) : run (list goo_string * heap) :=
  match fuel with
  | O => Loops
  | S fuel =>
      run* p := strstr h start sep in
      match p with
      | None =>
          run* (s, h1) := goo_string_new h start in
          run* parts := write_part parts count s in
          Value (parts, h1)
      | Some p =>
          run* (s, h1) := goo_string_new_with_length h start (distance p start) in
          run* parts := write_part parts count s in
          cut_parts fuel h1 (shift p sep_len) sep sep_len count parts
      end
  end.

(** [empty] is the literal that stands in for a NULL [s].  The arrays of one and of [count]
    elements are not blocks of the heap. *)
Definition goo_strings_split (h : heap) (empty s sep : loc) : run (list goo_string * heap) :=
  let s := if is_null s then empty else s in
  run* sep_len := (if is_null sep then Value 0 else c_strlen h sep) in
  if sep_len =? 0 then run* (one, h1) := goo_string_new h s in Value ([one], h1)
  else
    run* v := c_string h s in
    let fuel := S (List.length v) in
    run* count := count_separators fuel h s sep sep_len 1 in
    cut_parts fuel h s sep sep_len count [].

(** The copying loop of Join, from position [w] of the buffer. *)
Fixpoint join_loop (h : heap) (out : loc) (w : Z) (elems : list goo_string) (sep : loc) (sep_len : Z)
    : run (Z * heap) :=
  match elems with
  | [] => Value (w, h)
  | e :: rest =>
      run* v := read_bytes h (str_data e) (str_length e) in
      run* h1 := store_bytes h (shift out w) (map Some v) in
      let w := w + str_length e in
      match rest with
      | [] => Value (w, h1)
      | _ =>
          if sep_len =? 0 then join_loop h1 out w rest sep sep_len
          else
            run* u := read_bytes h1 sep sep_len in
            run* h2 := store_bytes h1 (shift out w) (map Some u) in
            join_loop h2 out (w + sep_len) rest sep sep_len
      end
  end.

Definition join_total (elems : list goo_string) (sep_len : Z) : Z :=
  u64 (fold_left (fun t e => u64 (t + str_length e)) elems 0 +
       u64 (sep_len * (Z.of_nat (List.length elems) - 1))).

(** [None] is a NULL slice or array; the string made of the literal [empty] is the empty one. *)
Definition goo_strings_join (h : heap) (empty : loc) (parts : option (list goo_string)) (sep : loc)
    : run (goo_string * heap) :=
  match parts with
  | None | Some [] => goo_string_new h empty
  | Some elems =>
      run* sep_len := (if is_null sep then Value 0 else c_strlen h sep) in
      let total := join_total elems sep_len in
      run* (out, h1) := alloc_block place h (u64 (total + 1)) in
      run* (w, h2) := join_loop h1 out 0 elems sep sep_len in
      run* h3 := store_bytes h2 (shift out w) [Some 0] in
      Value (mkString out total, h3)
  end.
End allocator.

(** [base[low:high]] of a string (composite_codegen.c): a pointer into the same bytes. *)
Definition substring_expression (s : goo_string) (low high : Z) : run goo_string :=
  run* _ := goo_slice_bounds_check low high (str_length s) in
  Value (mkString (shift (str_data s) low) (high - low)).
