(* ===== verification/RtStringFacts.v ===== *)
(** * RtStringFacts: what the string functions compute.

    [holds] says which bytes a Goo string stands for, [c_string] which a C string does.  A
    function allocates fresh blocks and changes no other, [h ⊆ h']; so strings made earlier keep
    their bytes.  The allocator is any that hands out fresh blocks and does not run out. *)
From Stdlib Require Import ZArith Lia Bool Ascii String.
From stdpp Require Import base list gmap strings pretty.
From S2P Require Import Prelude Numeral Utf8 RtSlice RtString.
Local Open Scope Z_scope.
Local Open Scope goo_scope.

(** ** Reading *)
Lemma written_some v : written (map Some v) = Value v.
Proof. induction v as [|z v IH]; [done|]. cbn. by rewrite IH. Qed.

Lemma until_nul_some v cs : Forall (fun z => z <> 0) v -> until_nul (map Some v ++ Some 0 :: cs) = Value v.
Proof.
  induction 1 as [|z v Hz _ IH]; [done|]. cbn. destruct (Z.eqb_spec z 0); [done|]. by rewrite IH.
Qed.

Lemma load_bytes_mono h h' p n cs : h ⊆ h' -> load_bytes h p n = Value cs -> load_bytes h' p n = Value cs.
Proof.
  intros Hs. unfold load_bytes. destruct (n =? 0); [done|]. destruct p as [| |b off]; try done.
  destruct (h !! b) as [bs|] eqn:E; [|done]. by rewrite (lookup_weaken _ _ _ _ E Hs).
Qed.

Lemma read_bytes_mono h h' p n v : h ⊆ h' -> read_bytes h p n = Value v -> read_bytes h' p n = Value v.
Proof.
  intros Hs H. unfold read_bytes in *. destruct (load_bytes h p n) as [cs| | |] eqn:E; try done.
  by rewrite (load_bytes_mono _ _ _ _ _ Hs E).
Qed.

Lemma c_string_mono h h' p v : h ⊆ h' -> c_string h p = Value v -> c_string h' p = Value v.
Proof.
  intros Hs. unfold c_string. destruct p as [| |b off]; try done.
  destruct (h !! b) as [bs|] eqn:E; [|done]. by rewrite (lookup_weaken _ _ _ _ E Hs).
Qed.

(** A Goo string stands for the bytes [v]. *)
Definition holds (h : heap) (s : goo_string) (v : list Z) : Prop :=
  str_length s = Z.of_nat (List.length v) /\
  (v <> [] -> is_null (str_data s) = false /\ read_bytes h (str_data s) (str_length s) = Value v).

Lemma holds_mono h h' s v : h ⊆ h' -> holds h s v -> holds h' s v.
Proof.
  intros Hs [Hl Hr]. split; [done|]. intros Hv. destruct (Hr Hv) as [Hn Hb].
  split; [done|]. by eapply read_bytes_mono.
Qed.

Lemma holds_nothing h : holds h no_string [].
Proof. by split. Qed.

Lemma holds_read h s v : holds h s v -> read_bytes h (str_data s) (str_length s) = Value v.
Proof.
  intros [Hl Hr]. destruct v as [|z v]; [|by apply Hr].
  unfold read_bytes, load_bytes. by rewrite Hl.
Qed.

Lemma holds_empty h s v : holds h s v -> empty_string s = bool_decide (v = []).
Proof.
  intros [Hl Hr]. unfold empty_string. rewrite Hl. destruct v as [|z v].
  - by rewrite orb_true_r.
  - destruct (Hr ltac:(done)) as [-> _]. done.
Qed.

(** A block that holds [v] and a NUL. *)
Definition text_block (v : list Z) : list cell := map Some v ++ [Some 0].

Lemma text_block_length v : List.length (text_block v) = S (List.length v).
Proof. unfold text_block. rewrite length_app, length_map. cbn. lia. Qed.

Lemma read_text h b v : h !! b = Some (text_block v) ->
  read_bytes h (At b 0) (Z.of_nat (List.length v)) = Value v.
Proof.
  intros H. unfold read_bytes, load_bytes. destruct (Z.eqb_spec (Z.of_nat (List.length v)) 0) as [E|E].
  - by destruct v.
  - rewrite H, text_block_length. zcases. cbn -[text_block].
    rewrite Nat2Z.id, drop_0. unfold text_block. rewrite <- (length_map Some v), take_app_length.
    apply written_some.
Qed.

Lemma c_string_text h b v : h !! b = Some (text_block v) -> Forall (fun z => z <> 0) v ->
  c_string h (At b 0) = Value v.
Proof. intros H Hv. unfold c_string. rewrite H. cbn -[text_block]. by apply until_nul_some. Qed.

Lemma holds_text h b v : h !! b = Some (text_block v) ->
  holds h (mkString (At b 0) (Z.of_nat (List.length v))) v.
Proof. intros H. split; [done|]. intros _. split; [done|]. by apply read_text. Qed.

(** ** Allocation *)
Section specs.
Context (place : heap -> option nat -> Z -> option nat) (Hfair : fair_place place).
Context (Hmemory : forall h n, is_Some (place h None n)).

(** Sizes of real memory. *)
Definition fits (v : list Z) : Prop := Z.of_nat (List.length v) < 2 ^ 62.

Lemma alloc_fresh h n : 0 < n < 2 ^ 63 -> exists b, h !! b = None /\
  alloc_block place h n = Value (At b 0, <[b := replicate (Z.to_nat n) None]> h).
Proof.
  intros Hn. unfold alloc_block. destruct (Z.eqb_spec n 0); [lia|].
  destruct (Z.ltb_spec (SIZE_MAX - Arc.GOO_OBJ_HEADER_SIZE) n) as [Hl|_];
    [unfold SIZE_MAX, Arc.GOO_OBJ_HEADER_SIZE in Hl; lia|].
  destruct (Hmemory h n) as [b Hb]. rewrite Hb.
  exists b. split; [|done]. destruct (Hfair _ _ _ _ Hb) as [|[=]]. done.
Qed.

(** Writing piece by piece into a fresh block. *)
Definition filled (n : nat) (v : list Z) : list cell := map Some v ++ replicate (n - List.length v) None.

Lemma store_filled h b n v u : h !! b = Some (filled n v) -> (List.length v + List.length u <= n)%nat ->
  store_bytes h (At b (Z.of_nat (List.length v))) (map Some u) = Value (<[b := filled n (v ++ u)]> h).
Proof.
  intros Hb Hfit. destruct u as [|z u].
  - cbn. by rewrite app_nil_r, insert_id.
  - rewrite (store_ok h b (filled n v)); [|done|lia|cbn; lia|].
    + do 2 f_equal. rewrite Nat2Z.id. unfold splice, filled.
      rewrite <- (length_map Some v) at 1. rewrite take_app_length, map_app, <- app_assoc. f_equal.
      rewrite !length_map, length_app. f_equal.
      rewrite drop_app_ge by (rewrite length_map; lia). rewrite drop_replicate, length_map. f_equal. lia.
    + unfold filled. rewrite length_app, !length_map, length_replicate. lia.
Qed.

Lemma filled_whole v : filled (S (List.length v)) (v ++ [0]) = text_block v.
Proof. unfold filled, text_block. rewrite length_app, map_app. cbn.
  replace (S (List.length v) - (List.length v + 1))%nat with 0%nat by lia. by rewrite app_nil_r. Qed.

Lemma copy_out_spec h v : fits v -> exists b, h !! b = None /\
  copy_out place h v = Value (At b 0, <[b := text_block v]> h).
Proof.
  intros Hv. unfold fits in Hv. unfold copy_out. rewrite wrap_small by lia.
  destruct (alloc_fresh h (Z.of_nat (List.length v) + 1)) as (b & Hb & E); [lia|].
  exists b. split; [done|]. rewrite E. cbn [rbind].
  replace (Z.to_nat (Z.of_nat (List.length v) + 1)) with (S (List.length v)) by lia.
  set (n := S (List.length v)).
  pose proof (store_filled (<[b := replicate n None]> h) b n [] v) as S1. cbn [List.length app] in S1.
  change (Z.of_nat 0) with 0 in S1.
  rewrite S1; [|by rewrite lookup_insert_eq; f_equal; unfold filled; cbn; rewrite Nat.sub_0_r|unfold n; lia].
  cbn [rbind shift]. rewrite insert_insert_eq, Z.add_0_l.
  pose proof (store_filled (<[b := filled n v]> h) b n v [0]) as S2. cbn [map] in S2.
  rewrite S2; [|by rewrite lookup_insert_eq|cbn; unfold n; lia].
  cbn [rbind]. rewrite insert_insert_eq. unfold n. by rewrite filled_whole.
Qed.

(** What a function that makes a string gives back. *)
Definition Makes (h : heap) (r : run (goo_string * heap)) (v : list Z) : Prop :=
  exists s h', r = Value (s, h') /\ h ⊆ h' /\ holds h' s v.

Lemma makes_copy h v : fits v ->
  Makes h (run* (p, h1) := copy_out place h v in Value (mkString p (Z.of_nat (List.length v)), h1)) v.
Proof.
  intros Hv. destruct (copy_out_spec h v Hv) as (b & Hb & E). rewrite E. cbn [rbind].
  do 2 eexists. split; [done|]. split; [by apply insert_subseteq|].
  apply holds_text. by rewrite lookup_insert_eq.
Qed.

Lemma makes_buffer h v : fits v -> Makes h (string_of_buffer place h v) v.
Proof.
  intros Hv. destruct v as [|z v].
  - do 2 eexists. split; [done|]. split; [done|apply holds_nothing].
  - exact (makes_copy h (z :: v) Hv).
Qed.

Lemma makes_with_length h p n v : is_null p = false -> read_bytes h p n = Value v ->
  n = Z.of_nat (List.length v) -> fits v -> Makes h (goo_string_new_with_length place h p n) v.
Proof.
  intros Hp Hr -> Hv. unfold goo_string_new_with_length. rewrite Hp. cbn [orb].
  destruct (Z.eqb_spec (Z.of_nat (List.length v)) 0).
  - destruct v; [|done]. do 2 eexists. split; [done|]. split; [done|apply holds_nothing].
  - rewrite Hr. cbn [rbind]. by apply makes_buffer.
Qed.

Lemma until_nul_prefix cs v : until_nul cs = Value v -> exists rest, cs = map Some v ++ Some 0 :: rest.
Proof.
  revert v. induction cs as [|[z|] cs IH]; intros v H; try done. cbn in H.
  destruct (Z.eqb_spec z 0) as [->|].
  - injection H as <-. by exists cs.
  - destruct (until_nul cs) as [w| | |]; try done. injection H as <-.
    destruct (IH w eq_refl) as [rest ->]. by exists rest.
Qed.

Lemma c_string_no_nul h p v : c_string h p = Value v -> Forall (fun z => z <> 0) v.
Proof.
  unfold c_string. destruct p as [| |b off]; try done. destruct (h !! b) as [bs|]; [|done].
  destruct (0 <=? off); [|done]. generalize (drop (Z.to_nat off) bs). intros cs. revert v.
  induction cs as [|[z|] cs IH]; intros v H; try done. cbn in H.
  destruct (Z.eqb_spec z 0) as [->|]; [by injection H as <-|].
  destruct (until_nul cs) as [w| | |]; try done. injection H as <-. constructor; eauto.
Qed.

(** The cells of a C string, from any of its bytes. *)
Lemma c_string_block h p v : c_string h p = Value v -> exists b off bs rest,
  p = At b (Z.of_nat off) /\ h !! b = Some bs /\ drop off bs = map Some v ++ Some 0 :: rest.
Proof.
  unfold c_string. destruct p as [| |b off]; try done. destruct (h !! b) as [bs|] eqn:E; [|done].
  destruct (Z.leb_spec 0 off) as [Ho|_]; [|done]. intros H. apply until_nul_prefix in H as [rest Hr].
  exists b, (Z.to_nat off), bs, rest. rewrite Z2Nat.id by done. done.
Qed.

Lemma c_string_null h p v : c_string h p = Value v -> is_null p = false.
Proof. by destruct p. Qed.

(** Reading a part of a C string, and going on in the middle of it. *)
Lemma c_string_part h p v i n : c_string h p = Value v -> (i + n <= List.length v)%nat ->
  read_bytes h (shift p (Z.of_nat i)) (Z.of_nat n) = Value (take n (drop i v)).
Proof.
  intros H Hin. destruct (c_string_block h p v H) as (b & off & bs & rest & -> & Hb & Hd).
  unfold read_bytes, load_bytes. cbn [shift].
  destruct (Z.eqb_spec (Z.of_nat n) 0) as [E|E]; [by replace n with 0%nat by lia|].
  rewrite Hb. assert (List.length bs = (off + List.length v + S (List.length rest))%nat) as Hl.
  { apply (f_equal List.length) in Hd. rewrite length_drop, length_app, length_map in Hd. cbn in Hd. lia. }
  destruct (Z.leb_spec 0 (Z.of_nat off + Z.of_nat i)); [|lia].
  destruct (Z.leb_spec (Z.of_nat off + Z.of_nat i + Z.of_nat n) (Z.of_nat (List.length bs))); [|lia].
  cbn [andb rbind]. replace (Z.to_nat (Z.of_nat off + Z.of_nat i)) with (off + i)%nat by lia.
  rewrite Nat2Z.id, <- drop_drop, Hd, drop_app_le by (rewrite length_map; lia).
  rewrite take_app_le by (rewrite length_drop, length_map; lia).
  change (map Some v) with (Some <$> v). rewrite <- fmap_drop, <- fmap_take. apply written_some.
Qed.

Lemma c_string_shift h p v i : c_string h p = Value v -> (i <= List.length v)%nat ->
  c_string h (shift p (Z.of_nat i)) = Value (drop i v).
Proof.
  intros H Hi. pose proof (c_string_no_nul h p v H) as Hn.
  destruct (c_string_block h p v H) as (b & off & bs & rest & -> & Hb & Hd).
  unfold c_string. cbn [shift]. rewrite Hb. destruct (Z.leb_spec 0 (Z.of_nat off + Z.of_nat i)); [|lia].
  replace (Z.to_nat (Z.of_nat off + Z.of_nat i)) with (off + i)%nat by lia.
  rewrite <- drop_drop, Hd, drop_app_le by (rewrite length_map; lia).
  change (map Some v) with (Some <$> v). rewrite <- fmap_drop. apply until_nul_some.
  by apply Forall_drop.
Qed.

Lemma c_string_read h p v : c_string h p = Value v ->
  read_bytes h p (Z.of_nat (List.length v)) = Value v.
Proof.
  intros H. pose proof (c_string_part h p v 0 (List.length v) H ltac:(lia)) as E.
  rewrite drop_0, firstn_all in E. rewrite <- E. f_equal.
  destruct (c_string_block h p v H) as (b & off & _ & _ & -> & _). cbn. f_equal. lia.
Qed.

Lemma makes_new h p v : c_string h p = Value v -> fits v -> Makes h (goo_string_new place h p) v.
Proof.
  intros H Hv. unfold goo_string_new, c_strlen. rewrite (c_string_null _ _ _ H), H. cbn [rbind].
  apply makes_with_length; [by eapply c_string_null|by apply c_string_read|done|done].
Qed.

Lemma makes_concat h a b va vb : holds h a va -> holds h b vb -> fits (va ++ vb) ->
  Makes h (goo_string_concat place h a b) (va ++ vb).
Proof.
  intros Ha Hb Hf. unfold fits in Hf. rewrite length_app in Hf.
  unfold goo_string_concat. rewrite (holds_empty _ _ _ Ha), (holds_empty _ _ _ Hb).
  destruct (decide (va = [])) as [->|Hva].
  { cbn. destruct (decide (vb = [])) as [->|Hvb].
    - destruct Hb as [Hl _]. unfold goo_string_new_with_length. rewrite Hl. cbn. rewrite orb_true_r.
      do 2 eexists. split; [done|]. split; [done|apply holds_nothing].
    - destruct Hb as [Hl Hr]. destruct (Hr Hvb) as [Hn Hrd].
      apply makes_with_length; [done|done|done|]. unfold fits. lia. }
  rewrite bool_decide_eq_false_2 by done. destruct (decide (vb = [])) as [->|Hvb].
  { rewrite bool_decide_eq_true_2, app_nil_r by done. destruct Ha as [Hl Hr]. destruct (Hr Hva) as [Hn Hrd].
    apply makes_with_length; [done|done|done|]. unfold fits. lia. }
  rewrite bool_decide_eq_false_2 by done. rewrite (proj1 Ha), (proj1 Hb).
  set (total := (List.length va + List.length vb)%nat).
  rewrite (wrap_small 64 (Z.of_nat (List.length va) + Z.of_nat (List.length vb))) by lia.
  replace (Z.of_nat (List.length va) + Z.of_nat (List.length vb)) with (Z.of_nat total) by (unfold total; lia).
  rewrite wrap_small by (unfold total; lia).
  destruct (alloc_fresh h (Z.of_nat total + 1)) as (p & Hp & E); [unfold total; lia|].
  rewrite E. cbn [rbind]. replace (Z.to_nat (Z.of_nat total + 1)) with (S total) by lia.
  assert (forall cs, h ⊆ <[p:=cs]> h) as Hsub by (intros; by apply insert_subseteq).
  pose proof (holds_read _ _ _ Ha) as Ra. rewrite (proj1 Ha) in Ra.
  pose proof (holds_read _ _ _ Hb) as Rb. rewrite (proj1 Hb) in Rb.
  rewrite (read_bytes_mono _ _ _ _ _ (Hsub _) Ra). cbn [rbind].
  pose proof (store_filled (<[p := filled (S total) []]> h) p (S total) [] va) as S1.
  change (Z.of_nat (List.length (@nil Z))) with 0 in S1. cbn [app] in S1.
  assert (filled (S total) [] = replicate (S total) None) as Hf0 by (unfold filled; cbn; done).
  rewrite Hf0 in S1. rewrite S1; [|by rewrite lookup_insert_eq|unfold total; cbn; lia].
  cbn [rbind]. rewrite insert_insert_eq, (read_bytes_mono _ _ _ _ _ (Hsub _) Rb). cbn [rbind shift].
  rewrite Z.add_0_l.
  rewrite (store_filled _ p (S total) va vb); [|by rewrite lookup_insert_eq|unfold total; lia].
  cbn [rbind]. rewrite insert_insert_eq, Z.add_0_l.
  pose proof (store_filled (<[p := filled (S total) (va ++ vb)]> h) p (S total) (va ++ vb) [0]) as S3.
  rewrite length_app in S3. fold total in S3. change (map Some [0]) with [Some 0] in S3.
  rewrite S3; [|by rewrite lookup_insert_eq|cbn; lia]. cbn [rbind]. rewrite insert_insert_eq.
  assert (S total = S (List.length (va ++ vb))) as -> by (by rewrite length_app).
  rewrite filled_whole. do 2 eexists. split; [done|]. split; [apply Hsub|].
  replace total with (List.length (va ++ vb)) by (by rewrite length_app).
  apply holds_text. by rewrite lookup_insert_eq.
Qed.

Lemma makes_map_case h p v f : c_string h p = Value v -> fits v ->
  Makes h (goo_strings_map_case place h p f) (map f v).
Proof.
  intros H Hv. unfold goo_strings_map_case. rewrite (c_string_null _ _ _ H), H. cbn [rbind].
  pose proof (makes_copy h (map f v)) as M. rewrite length_map in M. apply M. unfold fits. by rewrite length_map.
Qed.

Definition trimmed (v : list Z) : list Z := rev (drop_spaces (rev (drop_spaces v))).

Lemma drop_spaces_split v : exists l, v = l ++ drop_spaces v /\ Forall (fun z => isspace z = true) l /\
  match drop_spaces v with z :: _ => isspace z = false | [] => True end.
Proof.
  induction v as [|z v (l & E & Hl & Hh)]; [by exists []|]. cbn. destruct (isspace z) eqn:Hz.
  - exists (z :: l). split; [cbn; by rewrite <- E|]. split; [by constructor|done].
  - by exists [].
Qed.

Lemma trimmed_le v : (List.length (trimmed v) <= List.length v)%nat.
Proof.
  unfold trimmed. rewrite length_rev.
  destruct (drop_spaces_split v) as (l & E & _). destruct (drop_spaces_split (rev (drop_spaces v))) as (r & F & _).
  apply (f_equal List.length) in E, F. rewrite length_app in E, F. rewrite length_rev in F. lia.
Qed.

Lemma makes_trim h p v : c_string h p = Value v -> fits v ->
  Makes h (goo_strings_trim_space place h p) (trimmed v).
Proof.
  intros H Hv. unfold goo_strings_trim_space. rewrite (c_string_null _ _ _ H), H. cbn [rbind].
  apply makes_copy. unfold fits in *. pose proof (trimmed_le v). unfold trimmed in *. lia.
Qed.

(** ** Searching *)
Lemma is_prefix_spec w v : is_prefix w v = true <-> exists t, v = w ++ t.
Proof.
  revert v. induction w as [|a w IH]; intros v; [split; [by exists v|done]|].
  destruct v as [|b v]; cbn; [by split; [|intros [t [=]]]|].
  rewrite andb_true_iff, Z.eqb_eq, IH. split.
  - intros [-> [t ->]]. by exists t.
  - intros [t [= -> ->]]. eauto.
Qed.

(** [w] stands at position [i] of [v] and nowhere before. *)
Definition first_at (w v : list Z) (i : nat) : Prop :=
  (i + List.length w <= List.length v)%nat /\ take (List.length w) (drop i v) = w /\
  forall j, (j < i)%nat -> is_prefix w (drop j v) = false.

Definition occurs (w v : list Z) : Prop := exists a b, v = a ++ w ++ b.

Lemma find_sub_some w v i : find_sub w v = Some i -> first_at w v i.
Proof.
  revert i. induction v as [|z v IH]; intros i; cbn; destruct (is_prefix w _) eqn:E; intros H; try done.
  - injection H as <-. apply is_prefix_spec in E as [t E]. destruct w; [|done]. by repeat split; try lia.
  - injection H as <-. apply is_prefix_spec in E as [t E]. rewrite E. split; [rewrite length_app; cbn; lia|].
    split; [by rewrite drop_0, take_app_length|lia].
  - destruct (find_sub w v) as [k|]; [|done]. injection H as <-.
    destruct (IH k eq_refl) as (H1 & H2 & H3). split; [cbn; lia|]. split; [done|].
    intros [|j] Hj; [done|]. apply H3. lia.
Qed.

Lemma find_sub_none w v : find_sub w v = None -> ~ occurs w v.
Proof.
  induction v as [|z v IH]; cbn; destruct (is_prefix w _) eqn:E; intros H; try done;
    intros (a & b & Hv).
  - destruct a; [|done]. cbn in Hv. assert (is_prefix w [] = true) as Hp; [|congruence].
    apply is_prefix_spec. by exists b.
  - destruct a as [|y a].
    + cbn in Hv. assert (is_prefix w (z :: v) = true) as Hp; [|congruence]. apply is_prefix_spec. by exists b.
    + injection Hv as -> ->. destruct (find_sub w (a ++ w ++ b)); [done|]. apply IH; [done|]. by exists a, b.
Qed.

Lemma first_at_cut w v i : first_at w v i -> v = take i v ++ w ++ drop (i + List.length w) v.
Proof.
  intros (H1 & H2 & _). rewrite <- H2 at 1. rewrite <- drop_drop, take_drop, take_drop. done.
Qed.

Lemma find_sub_iff w v : is_Some (find_sub w v) <-> occurs w v.
Proof.
  split.
  - intros [i Hi]. apply find_sub_some, first_at_cut in Hi. by do 2 eexists.
  - intros Ho. destruct (find_sub w v) eqn:E; [done|]. by apply find_sub_none in E.
Qed.

Lemma contains_spec h p q v w : c_string h p = Value v -> c_string h q = Value w ->
  exists b, goo_strings_contains h p q = Value b /\ (b = true <-> occurs w v).
Proof.
  intros Hp Hq. unfold goo_strings_contains, strstr.
  rewrite (c_string_null _ _ _ Hp), (c_string_null _ _ _ Hq), Hp, Hq. cbn [orb rbind].
  eexists. split; [done|]. rewrite <- find_sub_iff. destruct (find_sub w v); cbn.
  - split; [by eexists|done].
  - by split; [|intros []].
Qed.

(** ** Split *)
(** The pieces of [v]: it is cut at the first separator, then what follows is. *)
Fixpoint Pieces (w v : list Z) (ps : list (list Z)) : Prop :=
  match ps with
  | [] => False
  | [p] => p = v /\ ~ occurs w v
  | p :: ps => exists rest, v = p ++ w ++ rest /\ first_at w v (List.length p) /\ Pieces w rest ps
  end.

Fixpoint join_bytes (w : list Z) (ps : list (list Z)) : list Z :=
  match ps with
  | [] => []
  | [p] => p
  | p :: ps => p ++ w ++ join_bytes w ps
  end.

Lemma pieces_join w ps : forall v, Pieces w v ps -> join_bytes w ps = v.
Proof.
  induction ps as [|p ps IH]; intros v H; [done|]. destruct ps as [|q ps].
  - by destruct H.
  - destruct H as (rest & -> & _ & Hr). cbn [join_bytes]. do 2 f_equal. exact (IH rest Hr).
Qed.

Fixpoint cuts (fuel : nat) (w v : list Z) : list (list Z) :=
  match fuel with
  | O => []
  | S fuel =>
      match find_sub w v with
      | None => [v]
      | Some i => take i v :: cuts fuel w (drop (i + List.length w) v)
      end
  end.

Lemma cuts_nonempty fuel w v : cuts (S fuel) w v <> [].
Proof. cbn. by destruct (find_sub w v). Qed.

Lemma cuts_pieces fuel w v : w <> [] -> (List.length v < fuel)%nat -> Pieces w v (cuts fuel w v).
Proof.
  intros Hw. revert v. induction fuel as [|fuel IH]; intros v Hf; [lia|]. cbn [cuts].
  destruct (find_sub w v) as [i|] eqn:E.
  - apply find_sub_some in E. pose proof E as [H1 _].
    assert (0 < List.length w)%nat by (destruct w; [done|cbn; lia]).
    destruct fuel as [|fuel]; [lia|].
    assert (Pieces w (drop (i + List.length w) v) (cuts (S fuel) w (drop (i + List.length w) v))) as Hp
      by (apply IH; rewrite length_drop; lia).
    pose proof (cuts_nonempty fuel w (drop (i + List.length w) v)) as Hne.
    destruct (cuts (S fuel) w _) as [|q qs]; [done|]. exists (drop (i + List.length w) v).
    split; [by apply first_at_cut|]. rewrite length_take. by replace (i `min` List.length v)%nat with i by lia.
  - by apply find_sub_none in E.
Qed.

Section splitting.
Context (w : list Z) (sep : loc) (Hw : w <> []).
Let wl := Z.of_nat (List.length w).

Lemma strstr_some h p v i : c_string h p = Value v -> c_string h sep = Value w -> find_sub w v = Some i ->
  strstr h p sep = Value (Some (shift p (Z.of_nat i))).
Proof. intros Hp Hs E. unfold strstr. rewrite Hp, Hs. cbn [rbind]. by rewrite E. Qed.

Lemma strstr_none h p v : c_string h p = Value v -> c_string h sep = Value w -> find_sub w v = None ->
  strstr h p sep = Value None.
Proof. intros Hp Hs E. unfold strstr. rewrite Hp, Hs. cbn [rbind]. by rewrite E. Qed.

Lemma shift_shift p i j : shift (shift p i) j = shift p (i + j).
Proof. destruct p; [done|done|]. cbn. f_equal. lia. Qed.

Lemma behind h p v i : c_string h p = Value v -> first_at w v i ->
  c_string h (shift (shift p (Z.of_nat i)) wl) = Value (drop (i + List.length w) v).
Proof.
  intros Hp [Hi _]. unfold wl. rewrite shift_shift, <- Nat2Z.inj_add. by apply c_string_shift.
Qed.

Lemma count_separators_spec fuel : forall h p v c, c_string h p = Value v -> c_string h sep = Value w ->
  (List.length v < fuel)%nat ->
  count_separators fuel h p sep wl c = Value (c + Z.of_nat (List.length (cuts fuel w v)) - 1).
Proof.
  induction fuel as [|fuel IH]; intros h p v c Hp Hs Hf; [lia|]. cbn [count_separators cuts].
  destruct (find_sub w v) as [i|] eqn:E.
  - rewrite (strstr_some h p v i Hp Hs E). cbn [rbind]. apply find_sub_some in E.
    pose proof E as [Hi _]. assert (0 < List.length w)%nat by (destruct w; [done|cbn; lia]).
    rewrite (IH h _ _ (c + 1) (behind h p v i Hp E) Hs) by (rewrite length_drop; lia).
    f_equal. cbn [List.length]. lia.
  - rewrite (strstr_none h p v Hp Hs E). cbn. f_equal. lia.
Qed.

Lemma distance_shift h p v i : c_string h p = Value v ->
  distance (shift p (Z.of_nat i)) p = Z.of_nat i.
Proof. intros H. destruct (c_string_block h p v H) as (b & off & _ & _ & -> & _). cbn. lia. Qed.

Lemma cut_parts_spec fuel : forall h p v count parts, c_string h p = Value v -> c_string h sep = Value w ->
  fits v -> (List.length v < fuel)%nat ->
  Z.of_nat (List.length parts + List.length (cuts fuel w v)) <= count ->
  exists ss h', cut_parts place fuel h p sep wl count parts = Value (parts ++ ss, h') /\ h ⊆ h' /\
    Forall2 (holds h') ss (cuts fuel w v).
Proof.
  induction fuel as [|fuel IH]; intros h p v count parts Hp Hs Hv Hf Hc; [lia|].
  cbn [cut_parts cuts] in *. destruct (find_sub w v) as [i|] eqn:E.
  - rewrite (strstr_some h p v i Hp Hs E). cbn [rbind]. apply find_sub_some in E.
    pose proof E as [Hi _]. assert (0 < List.length w)%nat by (destruct w; [done|cbn; lia]).
    pose proof (c_string_part h p v 0 i Hp ltac:(lia)) as Hr. rewrite drop_0 in Hr.
    assert (shift p (Z.of_nat 0) = p) as Es by (destruct p; [done|done|]; cbn; f_equal; lia).
    rewrite Es in Hr. rewrite (distance_shift h p v i Hp).
    destruct (makes_with_length h p (Z.of_nat i) (take i v)) as (s & h1 & E1 & Hsub & Hh).
    { by eapply c_string_null. } { done. } { rewrite length_take. f_equal. lia. }
    { unfold fits in *. rewrite length_take. lia. }
    rewrite E1. cbn [rbind]. unfold write_part. cbn [List.length] in Hc.
    destruct (Z.ltb_spec (Z.of_nat (List.length parts)) count); [|lia]. cbn [rbind].
    destruct (IH h1 _ (drop (i + List.length w) v) count (parts ++ [s])
      (c_string_mono _ _ _ _ Hsub (behind h p v i Hp E)) (c_string_mono _ _ _ _ Hsub Hs)) as (ss & h2 & E2 & Hsub2 & Hf2).
    { unfold fits in *. rewrite length_drop. lia. } { rewrite length_drop. lia. }
    { rewrite length_app. cbn. lia. }
    rewrite E2, <- app_assoc. exists (s :: ss), h2. split; [done|]. split; [by transitivity h1|].
    constructor; [by eapply holds_mono|done].
  - rewrite (strstr_none h p v Hp Hs E). cbn [rbind].
    destruct (makes_new h p v Hp Hv) as (s & h1 & E1 & Hsub & Hh). rewrite E1. cbn [rbind].
    unfold write_part. cbn in Hc. destruct (Z.ltb_spec (Z.of_nat (List.length parts)) count); [|lia].
    cbn [rbind]. exists [s], h1. split; [done|]. split; [done|]. by constructor.
Qed.
End splitting.

Lemma split_spec h empty p q v w : c_string h p = Value v -> c_string h q = Value w -> w <> [] -> fits v ->
  exists parts h', goo_strings_split place h empty p q = Value (parts, h') /\ h ⊆ h' /\
    Forall2 (holds h') parts (cuts (S (List.length v)) w v).
Proof.
  intros Hp Hq Hw Hv. unfold goo_strings_split, c_strlen.
  rewrite (c_string_null _ _ _ Hp), (c_string_null _ _ _ Hq), Hq. cbn [rbind].
  destruct (Z.eqb_spec (Z.of_nat (List.length w)) 0); [by destruct w|]. rewrite Hp. cbn [rbind].
  rewrite (count_separators_spec w q Hw _ h p v 1 Hp Hq) by lia. cbn [rbind].
  destruct (cut_parts_spec w q Hw (S (List.length v)) h p v
    (1 + Z.of_nat (List.length (cuts (S (List.length v)) w v)) - 1) [] Hp Hq Hv) as (ss & h' & E & Hs & Hf);
    [lia|cbn [List.length]; lia|].
  exists ss, h'. by rewrite E.
Qed.

(** ** Join *)
Definition sum_lengths (vs : list (list Z)) : nat := list_sum (map (@List.length Z) vs).

Lemma join_cons w v u vs : join_bytes w (v :: u :: vs) = v ++ w ++ join_bytes w (u :: vs).
Proof. done. Qed.

Lemma join_length w vs : vs <> [] ->
  List.length (join_bytes w vs) = (sum_lengths vs + List.length w * (List.length vs - 1))%nat.
Proof.
  unfold sum_lengths. induction vs as [|v vs IH]; [done|]. intros _. destruct vs as [|u vs].
  - cbn. lia.
  - rewrite join_cons, !length_app, IH by done. cbn. lia.
Qed.

Lemma fold_total elems vs : forall t, Forall2 (fun e v => str_length e = Z.of_nat (List.length v)) elems vs ->
  0 <= t -> t + Z.of_nat (sum_lengths vs) < 2 ^ 64 ->
  fold_left (fun t e => u64 (t + str_length e)) elems t = t + Z.of_nat (sum_lengths vs).
Proof.
  unfold sum_lengths. intros t H. revert t. induction H as [|e v elems vs E _ IH]; intros t Ht Hb.
  - cbn. lia.
  - change (list_sum (map (@List.length Z) (v :: vs))) with
      (List.length v + list_sum (map (@List.length Z) vs))%nat in *.
    cbn [fold_left]. rewrite E, wrap_small by lia. rewrite IH by lia. lia.
Qed.

Lemma join_total_spec elems vs w : Forall2 (fun e v => str_length e = Z.of_nat (List.length v)) elems vs ->
  vs <> [] -> fits (join_bytes w vs) ->
  join_total elems (Z.of_nat (List.length w)) = Z.of_nat (List.length (join_bytes w vs)).
Proof.
  intros H Hne Hf. unfold fits in Hf. rewrite join_length in * by done. unfold join_total.
  rewrite (Forall2_length _ _ _ H). assert (1 <= List.length vs)%nat by (destruct vs; [done|cbn; lia]).
  rewrite (fold_total elems vs 0 H) by lia.
  replace (Z.of_nat (List.length w) * (Z.of_nat (List.length vs) - 1))
    with (Z.of_nat (List.length w * (List.length vs - 1)))
    by (rewrite Nat2Z.inj_mul, Nat2Z.inj_sub by lia; lia).
  set (k := (List.length w * (List.length vs - 1))%nat) in *.
  rewrite (wrap_small 64 (Z.of_nat k)) by lia. rewrite wrap_small by lia. lia.
Qed.

(** The text of a separator; a NULL one is the empty text. *)
Definition sep_text (h : heap) (sep : loc) (w : list Z) : Prop :=
  (sep = Null /\ w = []) \/ c_string h sep = Value w.

Lemma sep_read h sep w : sep_text h sep w -> w <> [] ->
  read_bytes h sep (Z.of_nat (List.length w)) = Value w.
Proof. intros [[_ ->]|H] Hw; [done|]. by apply c_string_read. Qed.

Lemma join_loop_spec h0 b n w sep elems vs : Forall2 (holds h0) elems vs -> vs <> [] ->
  h0 !! b = None -> sep_text h0 sep w -> forall acc,
  (List.length acc + List.length (join_bytes w vs) <= n)%nat ->
  join_loop (<[b := filled n acc]> h0) (At b 0) (Z.of_nat (List.length acc)) elems sep
    (Z.of_nat (List.length w)) =
  Value (Z.of_nat (List.length (acc ++ join_bytes w vs)), <[b := filled n (acc ++ join_bytes w vs)]> h0).
Proof.
  intros H Hne Hb Hsep. assert (forall cs, h0 ⊆ <[b:=cs]> h0) as Hsub by (intros; by apply insert_subseteq).
  induction H as [|e v elems vs He Hrest IH]; [done|]. intros acc Hfit. cbn [join_loop].
  rewrite (read_bytes_mono _ _ _ _ _ (Hsub _) (holds_read _ _ _ He)). cbn [rbind shift]. rewrite Z.add_0_l.
  destruct vs as [|u vs].
  - inversion Hrest; subst. cbn [join_bytes] in *. rewrite (store_filled _ b n acc v);
      [|by rewrite lookup_insert_eq|lia].
    cbn [rbind]. rewrite insert_insert_eq, (proj1 He), length_app. do 2 f_equal. lia.
  - destruct elems as [|e2 elems]; [by inversion Hrest|]. rewrite join_cons in *.
    rewrite !length_app in Hfit. rewrite (store_filled _ b n acc v); [|by rewrite lookup_insert_eq|lia].
    cbn [rbind]. rewrite insert_insert_eq, (proj1 He), <- Nat2Z.inj_add, <- length_app.
    destruct (Z.eqb_spec (Z.of_nat (List.length w)) 0) as [E|E].
    + rewrite IH; [|done|rewrite length_app; lia]. assert (w = []) as -> by (by destruct w).
      cbn [app]. by rewrite <- app_assoc.
    + rewrite (read_bytes_mono _ _ _ _ _ (Hsub _) (sep_read _ _ _ Hsep ltac:(by intros ->))). cbn [rbind].
      rewrite Z.add_0_l. rewrite (store_filled _ b n (acc ++ v) w);
        [|by rewrite lookup_insert_eq|rewrite length_app; lia].
      cbn [rbind]. rewrite insert_insert_eq, <- Nat2Z.inj_add, <- length_app.
      rewrite IH; [|done|rewrite !length_app; lia]. by rewrite <- !app_assoc.
Qed.

Lemma makes_join h empty elems vs sep w : Forall2 (holds h) elems vs -> vs <> [] -> sep_text h sep w ->
  fits (join_bytes w vs) -> Makes h (goo_strings_join place h empty (Some elems) sep) (join_bytes w vs).
Proof.
  intros H Hne Hsep Hf. unfold goo_strings_join. destruct elems as [|e elems]; [by inversion H; subst|].
  assert ((if is_null sep then Value 0 else c_strlen h sep) = Value (Z.of_nat (List.length w))) as ->.
  { destruct Hsep as [[-> ->]|Hs]; [done|]. unfold c_strlen. by rewrite (c_string_null _ _ _ Hs), Hs. }
  cbn [rbind]. rewrite (join_total_spec _ vs w); [|by eapply Forall2_impl; [exact H|]; intros ?? [? _]|done|done].
  set (v := join_bytes w vs) in *. unfold fits in Hf. rewrite wrap_small by lia.
  destruct (alloc_fresh h (Z.of_nat (List.length v) + 1)) as (b & Hb & E); [lia|]. rewrite E. cbn [rbind].
  replace (Z.to_nat (Z.of_nat (List.length v) + 1)) with (S (List.length v)) by lia.
  assert (replicate (S (List.length v)) None = filled (S (List.length v)) []) as -> by done.
  pose proof (join_loop_spec h b (S (List.length v)) w sep (e :: elems) vs H Hne Hb Hsep [] (Nat.le_succ_diag_r (List.length v))) as J.
  change (Z.of_nat (List.length (@nil Z))) with 0 in J. rewrite J. cbn [rbind shift app]. fold v.
  rewrite Z.add_0_l.
  pose proof (store_filled (<[b := filled (S (List.length v)) v]> h) b (S (List.length v)) v [0]) as S3.
  change (map Some [0]) with [Some 0] in S3. rewrite S3; [|by rewrite lookup_insert_eq|cbn; lia].
  cbn [rbind]. rewrite insert_insert_eq, filled_whole. do 2 eexists. split; [done|].
  split; [by apply insert_subseteq|]. apply holds_text. by rewrite lookup_insert_eq.
Qed.
End specs.

(** ** Comparison *)
(** Byte order: a proper prefix is smaller, and else the first difference decides. *)
Fixpoint lex_lt (a b : list Z) : Prop :=
  match a, b with
  | [], _ :: _ => True
  | x :: a, y :: b => x < y \/ (x = y /\ lex_lt a b)
  | _, [] => False
  end.

#[export] Instance lex_lt_strict : StrictOrder lex_lt.
Proof.
  split.
  - intros a H. induction a as [|x a IH]; [done|]. destruct H as [H|[_ H]]; [lia|exact (IH H)].
  - intros a. induction a as [|x a IH]; intros [|y b] [|z c]; cbn; try tauto.
    intros [H1|[-> H1]] [H2|[-> H2]]; [left; lia|left; lia|left; lia|right; eauto].
Qed.

(** Comparing the common part, then the lengths. *)
Definition compare_bytes (a b : list Z) : Z :=
  let n := Nat.min (List.length a) (List.length b) in
  let c := memcmp (take n a) (take n b) in
  if negb (c =? 0) then (if c <? 0 then -1 else 1)
  else if (List.length a <? List.length b)%nat then -1
  else if (List.length b <? List.length a)%nat then 1 else 0.

Lemma compare_bytes_cons z a b : compare_bytes (z :: a) (z :: b) = compare_bytes a b.
Proof. unfold compare_bytes. cbn. by rewrite Z.eqb_refl. Qed.

Lemma compare_bytes_spec a : forall b,
  (compare_bytes a b = -1 /\ lex_lt a b) \/ (compare_bytes a b = 0 /\ a = b) \/
  (compare_bytes a b = 1 /\ lex_lt b a).
Proof.
  induction a as [|x a IH]; intros [|y b]; [by right; left|by left|by right; right|].
  destruct (decide (x = y)) as [->|Hne].
  - rewrite compare_bytes_cons. cbn. destruct (IH b) as [[E H]|[[E ->]|[E H]]]; [left|right; left|right; right]; auto.
  - unfold compare_bytes. cbn [List.length Nat.min take memcmp].
    destruct (Z.eqb_spec x y); [done|]. cbn. destruct (Z.ltb_spec x y); [left|right; right]; (split; [done|left; lia]).
Qed.

Lemma memcmp_eq a : forall b, List.length a = List.length b -> (memcmp a b =? 0) = bool_decide (a = b).
Proof.
  induction a as [|x a IH]; intros [|y b] E; try done. injection E as E. cbn.
  destruct (Z.eqb_spec x y) as [->|Hn].
  - rewrite IH by done. apply bool_decide_ext. naive_solver.
  - rewrite bool_decide_eq_false_2 by naive_solver. by destruct (x <? y).
Qed.

Lemma read_bytes_take h p n m v : read_bytes h p n = Value v -> 0 <= m <= n ->
  n = Z.of_nat (List.length v) -> read_bytes h p m = Value (take (Z.to_nat m) v).
Proof.
  intros H Hm Hn. unfold read_bytes, load_bytes in *. destruct (Z.eqb_spec m 0) as [->|Hm0]; [done|].
  destruct (Z.eqb_spec n 0) as [|Hn0]; [lia|]. destruct p as [| |b off]; try done.
  destruct (h !! b) as [bs|]; [|done].
  destruct (Z.leb_spec 0 off); [|done]. cbn [andb] in *.
  destruct (Z.leb_spec (off + n) (Z.of_nat (List.length bs))); [|done].
  destruct (Z.leb_spec (off + m) (Z.of_nat (List.length bs))); [|lia]. cbn [rbind] in *.
  replace (take (Z.to_nat m) (drop (Z.to_nat off) bs)) with
    (take (Z.to_nat m) (take (Z.to_nat n) (drop (Z.to_nat off) bs))).
  2:{ rewrite take_take. f_equal. lia. }
  revert H. generalize (take (Z.to_nat n) (drop (Z.to_nat off) bs)). intros cs H.
  clear - H. revert v cs H. induction (Z.to_nat m) as [|k IH]; intros v cs H; [done|].
  destruct cs as [|[z|] cs]; [by injection H as <-| |done]. cbn in H.
  destruct (written cs) as [zs| | |] eqn:E; try done. injection H as <-. cbn. by rewrite (IH zs cs E).
Qed.
