(* ===== verification/RtStringResults.v ===== *)
(** * RtStringResults: the theorems on strings, and what the functions do to views. *)
From Stdlib Require Import ZArith Lia Bool Ascii String.
From stdpp Require Import base list gmap strings pretty.
From S2P Require Import Prelude Numeral Utf8 RtSlice RtString RtStringFacts.
Local Open Scope Z_scope.
Local Open Scope goo_scope.

(** ** Decimal text *)
Definition code (c : ascii) : Z := Z.of_nat (nat_of_ascii c).
Definition digit_char (c : ascii) : Prop := 48 <= code c <= 57.

Lemma digit_char_value c : digit_char c -> digit_value c = code c - 48.
Proof. unfold digit_char, code, digit_value. intros H. zcases; simpl; lia. Qed.

Lemma pretty_char_digit x : (x < 10)%N -> digit_char (pretty_N_char x).
Proof.
  intros Hx. assert (x = 0 \/ x = 1 \/ x = 2 \/ x = 3 \/ x = 4 \/ x = 5 \/ x = 6 \/ x = 7 \/
    x = 8 \/ x = 9)%N as Hc by lia. destruct_or! Hc; subst; vm_compute; split; discriminate.
Qed.

Fixpoint all_digits (s : string) : Prop :=
  match s with String c s => digit_char c /\ all_digits s | EmptyString => True end.

Lemma pretty_go_digits x s : all_digits s -> all_digits (pretty_N_go x s).
Proof.
  revert s. induction (N.lt_wf_0 x) as [x _ IH]; intros s Hs. destruct (decide (x = 0)%N) as [->|Hx].
  - by rewrite pretty_N_go_0.
  - rewrite pretty_N_go_step by lia. apply IH; [apply N.div_lt; lia|].
    split; [|done]. apply pretty_char_digit. by apply N.mod_lt.
Qed.

Lemma pretty_go_length k : forall x s, (x < 10 ^ N.of_nat k)%N ->
  (String.length (pretty_N_go x s) <= k + String.length s)%nat.
Proof.
  induction k as [|k IH]; intros x s Hx.
  - assert (x = 0)%N as -> by (cbn in Hx; lia). by rewrite pretty_N_go_0.
  - destruct (decide (x = 0)%N) as [->|H0]; [rewrite pretty_N_go_0; lia|].
    rewrite pretty_N_go_step by lia. etransitivity; [apply IH|cbn; lia].
    rewrite Nat2N.inj_succ, N.pow_succ_r' in Hx. apply N.Div0.div_lt_upper_bound. lia.
Qed.

Lemma pretty_digits (n : N) : all_digits (pretty n) /\ pretty n <> EmptyString.
Proof.
  destruct (decide (n = 0)%N) as [->|Hn]; [vm_compute; repeat split; discriminate|].
  unfold pretty, pretty_N. rewrite decide_False by done. split; [by apply pretty_go_digits|].
  destruct (pretty_go_head n "" ltac:(lia)) as (c & r & -> & _). done.
Qed.

Lemma pretty_length (n : N) : (n < 10 ^ 20)%N -> (String.length (pretty n) <= 20)%nat.
Proof.
  intros Hn. destruct (decide (n = 0)%N) as [->|H0]; [vm_compute; lia|].
  unfold pretty, pretty_N. rewrite decide_False by done. etransitivity; [by apply (pretty_go_length 20)|done].
Qed.

Lemma bytes_length s : List.length (bytes_of_text s) = String.length s.
Proof.
  unfold bytes_of_text. rewrite length_map. induction s as [|c s IH]; [done|]. cbn. by rewrite IH.
Qed.

Lemma read_digits_text s : forall acc, all_digits s ->
  read_digits acc (bytes_of_text s) = (digits 10 acc s, []).
Proof.
  induction s as [|c s IH]; intros acc H; [done|]. destruct H as [Hc Hs].
  change (bytes_of_text (String c s)) with (code c :: bytes_of_text s). cbn [read_digits digits].
  rewrite (digit_char_value c Hc). unfold digit_char in Hc.
  destruct (Z.leb_spec 48 (code c)); [|lia]. destruct (Z.leb_spec (code c) 57); [|lia]. cbn [andb].
  destruct (Z.ltb_spec (code c - 48) 10); [|lia]. by apply IH.
Qed.

Lemma digits_pretty (n : N) : digits 10 0 (pretty n) = Z.of_N n.
Proof.
  destruct (decide (n = 0)%N) as [->|Hx]; [done|]. unfold pretty, pretty_N. rewrite decide_False by done.
  destruct (digits_pretty_go n "") as (k & _ & ->). cbn. lia.
Qed.

Lemma all_digits_text s z : all_digits s -> z ∈ bytes_of_text s -> 48 <= z <= 57.
Proof.
  induction s as [|c s IH]; [by intros _ ?%elem_of_nil|]. intros [Hc Hs].
  change (bytes_of_text (String c s)) with (code c :: bytes_of_text s). rewrite elem_of_cons.
  intros [->|H]; auto.
Qed.

(** Reading printed digits, after a sign or none. *)
Lemma strtoll_digits (n : N) : sign_of (drop_spaces (bytes_of_text (pretty n))) = (false, bytes_of_text (pretty n)).
Proof.
  destruct (pretty_digits n) as [Hd Hne]. destruct (pretty n) as [|c s]; [done|]. destruct Hd as [Hc _].
  change (bytes_of_text (String c s)) with (code c :: bytes_of_text s). unfold digit_char in Hc.
  cbn [drop_spaces]. unfold isspace. destruct (Z.eqb_spec (code c) 32); [lia|].
  destruct (Z.leb_spec (code c) 13); [lia|]. rewrite andb_false_r. cbn [orb sign_of].
  destruct (Z.eqb_spec (code c) 45); [lia|]. destruct (Z.eqb_spec (code c) 43); [lia|done].
Qed.

Lemma strtoll_text v : - 2 ^ 63 <= v < 2 ^ 63 -> strtoll (digits_of v) = (Some v, []).
Proof.
  intros Hv. unfold strtoll, digits_of. destruct v as [|p|p].
  - done.
  - change (pretty (Zpos p)) with (pretty (Npos p)). rewrite strtoll_digits.
    destruct (pretty_digits (Npos p)) as [Hd Hne]. rewrite (read_digits_text _ _ Hd), digits_pretty.
    rewrite bytes_length. destruct (pretty (Npos p)); [done|]. cbn [List.length String.length Nat.eqb].
    destruct (Z.leb_spec (- 2 ^ 63) (Z.of_N (Npos p))); [|lia].
    destruct (Z.ltb_spec (Z.of_N (Npos p)) (2 ^ 63)); [|lia]. done.
  - change (bytes_of_text (pretty (Zneg p))) with (45 :: bytes_of_text (pretty (Npos p))).
    change (sign_of (drop_spaces (45 :: bytes_of_text (pretty (Npos p))))) with
      (true, bytes_of_text (pretty (Npos p))).
    destruct (pretty_digits (Npos p)) as [Hd Hne]. rewrite (read_digits_text _ _ Hd), digits_pretty.
    rewrite bytes_length. destruct (pretty (Npos p)); [done|]. cbn [List.length String.length Nat.eqb].
    destruct (Z.leb_spec (- 2 ^ 63) (- Z.of_N (Npos p))); [|lia].
    destruct (Z.ltb_spec (- Z.of_N (Npos p)) (2 ^ 63)); [|lia]. done.
Qed.

Lemma decimal_shape v : - 2 ^ 63 <= v < 2 ^ 64 ->
  digits_of v <> [] /\ (List.length (digits_of v) <= 21)%nat /\ Forall (fun z => z <> 0) (digits_of v).
Proof.
  intros Hv. unfold digits_of.
  assert (forall n : N, (n < 10 ^ 20)%N -> bytes_of_text (pretty n) <> [] /\
    (List.length (bytes_of_text (pretty n)) <= 20)%nat /\
    Forall (fun z => z <> 0) (bytes_of_text (pretty n))) as H.
  { intros n Hn. destruct (pretty_digits n) as [Hd Hne]. split; [by destruct (pretty n)|].
    split; [rewrite bytes_length; by apply pretty_length|]. apply Forall_forall. intros z Hz.
    pose proof (all_digits_text _ _ Hd Hz). lia. }
  destruct v as [|p|p].
  - vm_compute. split; [done|]. split; [lia|]. by constructor.
  - destruct (H (Npos p)) as (H1 & H2 & H3); [change (10 ^ 20)%N with 100000000000000000000%N; lia|].
    change (pretty (Zpos p)) with (pretty (Npos p)). split; [done|]. split; [lia|done].
  - destruct (H (Npos p)) as (H1 & H2 & H3); [change (10 ^ 20)%N with 100000000000000000000%N; lia|].
    change (bytes_of_text (pretty (Zneg p))) with (45 :: bytes_of_text (pretty (Npos p))).
    split; [done|]. split; [cbn; lia|]. by constructor.
Qed.

Lemma buffer_text_no_nul v : Forall (fun z => z <> 0) v -> buffer_text v = v.
Proof. induction 1 as [|z v Hz _ IH]; [done|]. cbn. destruct (Z.eqb_spec z 0); [done|]. by rewrite IH. Qed.

(** ** Numbers *)
Section theorems.
Context (place : heap -> option nat -> Z -> option nat) (Hfair : fair_place place).
Context (Hmemory : forall h n, is_Some (place h None n)).

(** Every 64-bit signed integer is printed as its decimal text, in a new string that leaves all
    other memory as it was, and parsing that string gives the integer back. *)
Theorem int_text_roundtrip h v : - 2 ^ 63 <= v < 2 ^ 63 ->
  exists s h', goo_int_to_string place h v = Value (s, h') /\ h ⊆ h' /\ holds h' s (digits_of v) /\
    goo_string_to_int h' s = Value (Some v).
Proof.
  intros Hv. destruct (decimal_shape v ltac:(lia)) as (Hne & Hlen & Hnul).
  unfold goo_int_to_string, PRINT_BUFFER. set (d := digits_of v) in *.
  destruct (Z.leb_spec 32 (Z.of_nat (List.length d))); [lia|].
  destruct (makes_copy place Hfair Hmemory h d) as (s & h' & E & Hsub & Hh); [unfold fits; lia|].
  exists s, h'. split; [exact E|]. split; [done|]. split; [done|]. destruct Hh as [Hl Hr].
  destruct (Hr Hne) as [_ Hrd]. unfold goo_string_to_int. rewrite Hl in *.
  destruct (Z.eqb_spec (Z.of_nat (List.length d)) 0) as [Hz|_]; [by destruct d|].
  destruct (Z.leb_spec 32 (Z.of_nat (List.length d))); [lia|]. rewrite Hrd. cbn [rbind].
  rewrite buffer_text_no_nul by done. unfold d. rewrite strtoll_text by done. fold d.
  by destruct d.
Qed.

(** ** Split and Join *)
(** Splitting a C string at a non-empty separator gives Go's pieces (each ends where the
    separator first occurs, the last holds none), written within the array that was counted
    beforehand; joining them with the separator gives the string back, and no earlier memory is
    changed. *)
Theorem split_join h empty p q v w : c_string h p = Value v -> c_string h q = Value w -> w <> [] ->
  fits v ->
  exists parts h1 ps s h2, goo_strings_split place h empty p q = Value (parts, h1) /\
    Forall2 (holds h1) parts ps /\ Pieces w v ps /\
    goo_strings_join place h1 empty (Some parts) q = Value (s, h2) /\ h ⊆ h2 /\ holds h2 s v.
Proof.
  intros Hp Hq Hw Hv.
  destruct (split_spec place Hfair Hmemory h empty p q v w Hp Hq Hw Hv) as (parts & h1 & E & Hsub & Hf).
  set (ps := cuts (S (List.length v)) w v) in *.
  assert (Pieces w v ps) as HP by (apply cuts_pieces; [done|lia]).
  assert (join_bytes w ps = v) as J by exact (pieces_join w ps v HP).
  destruct (makes_join place Hfair Hmemory h1 empty parts ps q w Hf) as (s & h2 & E2 & Hsub2 & Hh).
  { apply cuts_nonempty. } { right. by eapply c_string_mono. } { by rewrite J. }
  exists parts, h1, ps, s, h2. rewrite J in Hh. repeat (split; [done|]). split; [by transitivity h1|done].
Qed.

(** ** Views *)
Lemma until_nul_text v : until_nul (text_block v) = Value (buffer_text v).
Proof.
  unfold text_block. induction v as [|z v IH]; [done|]. cbn. destruct (z =? 0); [done|]. by rewrite IH.
Qed.

Lemma c_string_from h b v low : h !! b = Some (text_block v) -> (low <= List.length v)%nat ->
  c_string h (At b (Z.of_nat low)) = Value (buffer_text (drop low v)).
Proof.
  intros H Hl. unfold c_string. rewrite H. destruct (Z.leb_spec 0 (Z.of_nat low)); [|lia].
  rewrite Nat2Z.id. unfold text_block. rewrite drop_app_le by (rewrite length_map; lia).
  change (map Some v) with (Some <$> v). rewrite <- fmap_drop. apply until_nul_text.
Qed.

Lemma buffer_text_le v : (List.length (buffer_text v) <= List.length v)%nat.
Proof. induction v as [|z v IH]; [done|]. cbn. destruct (z =? 0); cbn; lia. Qed.

Lemma holds_view h b v low high : h !! b = Some (text_block v) -> (low <= high <= List.length v)%nat ->
  holds h (mkString (At b (Z.of_nat low)) (Z.of_nat (high - low))) (take (high - low) (drop low v)).
Proof.
  intros H Hl. split; [cbn; rewrite length_take, length_drop; lia|]. intros _. split; [done|].
  cbn [str_data str_length]. unfold read_bytes, load_bytes.
  destruct (Z.eqb_spec (Z.of_nat (high - low)) 0) as [E|E]; [by replace (high - low)%nat with 0%nat by lia|].
  rewrite H, text_block_length. destruct (Z.leb_spec 0 (Z.of_nat low)); [|lia].
  destruct (Z.leb_spec (Z.of_nat low + Z.of_nat (high - low)) (Z.of_nat (S (List.length v)))); [|lia].
  cbn [andb rbind]. rewrite !Nat2Z.id. unfold text_block.
  rewrite drop_app_le by (rewrite length_map; lia).
  rewrite take_app_le by (rewrite length_drop, length_map; lia).
  change (map Some v) with (Some <$> v). rewrite <- fmap_drop, <- fmap_take. apply written_some.
Qed.

(** C17: ToUpper, ToLower, TrimSpace, Contains and Split (at a separator that is not empty) of
    package strings take their subject as a C string, and Contains its needle, so the end of a substring is lost on them: given any
    substring of a text they compute with everything from its first byte to the end of the whole
    text, or to the first NUL byte if there is one sooner.  (The elements of Join are Goo strings
    and keep their lengths, see [split_join].) *)
Theorem substring_length_ignored h empty b v low high q w : h !! b = Some (text_block v) ->
  (low <= high <= List.length v)%nat -> fits v -> c_string h q = Value w ->
  exists t, substring_expression (mkString (At b 0) (Z.of_nat (List.length v))) (Z.of_nat low)
      (Z.of_nat high) = Value t /\
    holds h t (take (high - low) (drop low v)) /\
    Makes h (goo_strings_to_upper place h (str_data t)) (map toupper (buffer_text (drop low v))) /\
    Makes h (goo_strings_to_lower place h (str_data t)) (map tolower (buffer_text (drop low v))) /\
    Makes h (goo_strings_trim_space place h (str_data t)) (trimmed (buffer_text (drop low v))) /\
    (exists found, goo_strings_contains h (str_data t) q = Value found /\
      (found = true <-> occurs w (buffer_text (drop low v)))) /\
    (exists found, goo_strings_contains h q (str_data t) = Value found /\
      (found = true <-> occurs (buffer_text (drop low v)) w)) /\
    (w <> [] -> exists parts h1 ps, goo_strings_split place h empty (str_data t) q = Value (parts, h1) /\
      h ⊆ h1 /\ Forall2 (holds h1) parts ps /\ Pieces w (buffer_text (drop low v)) ps).
Proof.
  intros H Hl Hv Hq. pose proof (c_string_from h b v low H ltac:(lia)) as Hc.
  assert (fits (buffer_text (drop low v))) as Hf.
  { unfold fits in *. pose proof (buffer_text_le (drop low v)) as Hb. rewrite length_drop in Hb. lia. }
  exists (mkString (At b (Z.of_nat low)) (Z.of_nat (high - low))). split.
  { unfold substring_expression, goo_slice_bounds_check. cbn [str_length str_data shift].
    destruct (Z.ltb_spec (Z.of_nat low) 0); [lia|]. destruct (Z.ltb_spec (Z.of_nat high) (Z.of_nat low)); [lia|].
    destruct (Z.ltb_spec (Z.of_nat (List.length v)) (Z.of_nat high)); [lia|]. cbn [orb rbind].
    rewrite Z.add_0_l, Nat2Z.inj_sub by lia. done. }
  split; [by apply holds_view|]. cbn [str_data].
  split; [by apply makes_map_case|]. split; [by apply makes_map_case|]. split; [by apply makes_trim|].
  split; [by apply contains_spec|]. split; [by apply contains_spec|]. intros Hw.
  destruct (split_spec place Hfair Hmemory h empty _ q _ w Hc Hq Hw Hf) as (parts & h1 & E & Hsub & Hps).
  exists parts, h1, (cuts (S (List.length (buffer_text (drop low v)))) w (buffer_text (drop low v))).
  split_and!; try done. apply cuts_pieces; [done|lia].
Qed.
End theorems.

(** ** Order *)
Lemma holds_prefix h s v n : holds h s v -> 0 <= n <= str_length s ->
  read_bytes h (str_data s) n = Value (take (Z.to_nat n) v).
Proof.
  intros H Hn. pose proof (holds_read h s v H) as Hr. eapply read_bytes_take; [exact Hr|done|exact (proj1 H)].
Qed.

Lemma holds_nonnull h s v : holds h s v -> 0 < str_length s -> is_null (str_data s) = false.
Proof. intros [Hl Hr] Hp. apply Hr. intros ->. cbn in Hl. lia. Qed.

Lemma cmp_value h a b va vb : holds h a va -> holds h b vb ->
  goo_string_cmp h a b = Value (compare_bytes va vb).
Proof.
  intros Ha Hb. unfold goo_string_cmp, compare_bytes. pose proof (proj1 Ha) as La. pose proof (proj1 Hb) as Lb.
  set (n := Nat.min (List.length va) (List.length vb)).
  assert ((if str_length a <? str_length b then str_length a else str_length b) = Z.of_nat n) as ->.
  { rewrite La, Lb. destruct (Z.ltb_spec (Z.of_nat (List.length va)) (Z.of_nat (List.length vb))); lia. }
  assert (forall k : nat, (k <= n)%nat -> 0 <= Z.of_nat k <= str_length a /\ 0 <= Z.of_nat k <= str_length b)
    as Hn by (intros k Hk; rewrite La, Lb; lia).
  assert ((if (0 <? Z.of_nat n) && negb (is_null (str_data a)) && negb (is_null (str_data b)) then
      run* x := read_bytes h (str_data a) (Z.of_nat n) in
      run* y := read_bytes h (str_data b) (Z.of_nat n) in Value (memcmp x y) else Value 0)
    = Value (memcmp (take n va) (take n vb))) as ->.
  { destruct (Z.ltb_spec 0 (Z.of_nat n)) as [Hp|Hp].
    - rewrite (holds_nonnull h a va Ha), (holds_nonnull h b vb Hb) by (rewrite ?La, ?Lb; lia). cbn [andb negb].
      rewrite (holds_prefix h a va _ Ha), (holds_prefix h b vb _ Hb) by (apply (Hn n); lia).
      cbn [rbind]. by rewrite Nat2Z.id.
    - by replace n with 0%nat by lia. }
  cbn [rbind]. destruct (negb _); [done|]. rewrite La, Lb.
  destruct (Z.ltb_spec (Z.of_nat (List.length va)) (Z.of_nat (List.length vb)));
    destruct (Nat.ltb_spec (List.length va) (List.length vb)); try lia; [done|].
  destruct (Z.ltb_spec (Z.of_nat (List.length vb)) (Z.of_nat (List.length va)));
    destruct (Nat.ltb_spec (List.length vb) (List.length va)); try lia; done.
Qed.

(** Comparing two strings decides the lexicographic order of their bytes, a strict total order,
    and agrees with equality, which compares the bytes. *)
Theorem string_order h a b va vb : holds h a va -> holds h b vb ->
  goo_string_eq h a b = Value (bool_decide (va = vb)) /\
  exists c, goo_string_cmp h a b = Value c /\
    ((c = -1 /\ lex_lt va vb) \/ (c = 0 /\ va = vb) \/ (c = 1 /\ lex_lt vb va)).
Proof.
  intros Ha Hb. split; [|by rewrite (cmp_value h a b va vb Ha Hb); eexists; split; [|apply compare_bytes_spec]].
  unfold goo_string_eq. pose proof (proj1 Ha) as La. pose proof (proj1 Hb) as Lb.
  destruct (Z.eqb_spec (str_length a) (str_length b)) as [E|E]; cbn [negb].
  2:{ f_equal. symmetry. apply bool_decide_eq_false_2. intros ->. lia. }
  destruct (Z.eqb_spec (str_length a) 0) as [E0|E0].
  { f_equal. symmetry. apply bool_decide_eq_true_2. destruct va, vb; cbn in *; done || lia. }
  rewrite (holds_nonnull h a va Ha), (holds_nonnull h b vb Hb) by lia. cbn [orb].
  rewrite (holds_read h a va Ha). rewrite E, (holds_read h b vb Hb). cbn [rbind].
  f_equal. apply memcmp_eq. lia.
Qed.

(** ** Examples *)
Definition hello : list Z := bytes_of_text "hello".
Definition comma : list Z := bytes_of_text ",".
Definition sample_heap : heap :=
  {[ 0%nat := text_block hello; 1%nat := text_block (bytes_of_text "a,b,,c"); 2%nat := text_block comma ]}.

Lemma moving_memory h n : is_Some (moving_place h None n).
Proof. by eexists. Qed.

Lemma int_text_roundtrip_witness : exists s h', goo_int_to_string moving_place sample_heap (- 2 ^ 63) = Value (s, h') /\
  goo_string_to_int h' s = Value (Some (- 2 ^ 63)).
Proof.
  destruct (int_text_roundtrip moving_place moving_fair moving_memory sample_heap (- 2 ^ 63) ltac:(lia))
    as (s & h' & H1 & _ & _ & H2).
  exists s, h'. split; [exact H1|exact H2].
Defined.

Lemma split_join_witness : exists parts h1 s h2,
  goo_strings_split moving_place sample_heap Null (At 1 0) (At 2 0) = Value (parts, h1) /\
  goo_strings_join moving_place h1 Null (Some parts) (At 2 0) = Value (s, h2) /\
  holds h2 s (bytes_of_text "a,b,,c").
Proof.
  destruct (split_join moving_place moving_fair moving_memory sample_heap Null (At 1 0) (At 2 0)
    (bytes_of_text "a,b,,c") comma ltac:(vm_compute; reflexivity) ltac:(vm_compute; reflexivity)
    ltac:(discriminate) ltac:(vm_compute; reflexivity)) as (parts & h1 & ps & s & h2 & H1 & _ & _ & H2 & _ & H3).
  exists parts, h1, s, h2. split; [exact H1|]. split; [exact H2|exact H3].
Defined.

Lemma substring_length_ignored_witness : exists t,
  substring_expression (mkString (At 0 0) 5) 0 2 = Value t /\
  holds sample_heap t (bytes_of_text "he") /\
  Makes sample_heap (goo_strings_to_upper moving_place sample_heap (str_data t)) (bytes_of_text "HELLO").
Proof.
  destruct (substring_length_ignored moving_place moving_fair moving_memory sample_heap Null 0 hello 0 2 (At 2 0) comma
    ltac:(vm_compute; reflexivity) ltac:(cbn; lia) ltac:(vm_compute; reflexivity) ltac:(vm_compute; reflexivity))
    as (t & H1 & H2 & H3 & _).
  exists t. split; [exact H1|]. split; [exact H2|exact H3].
Defined.

Lemma string_order_witness : exists c,
  goo_string_cmp sample_heap (mkString (At 0 0) 2) (mkString (At 0 0) 5) = Value c.
Proof.
  destruct (string_order sample_heap (mkString (At 0 0) 2) (mkString (At 0 0) 5) (bytes_of_text "he") hello
    ltac:(by split; [vm_compute|]) ltac:(by split; [vm_compute|])) as [_ (c & H & _)].
  exists c. exact H.
Defined.

(** Atoi takes blanks in front and stops at a NUL byte, and refuses a long text. *)
Lemma atoi_differs :
  let atoi v := goo_string_to_int {[ 0%nat := map Some v ]} (mkString (At 0 0) (Z.of_nat (List.length v))) in
  atoi (bytes_of_text " 12") = Value (Some 12) /\
  atoi (bytes_of_text "12" ++ 0 :: bytes_of_text "x") = Value (Some 12) /\
  atoi (replicate 31 48 ++ bytes_of_text "1") = Value None /\
  atoi (bytes_of_text "12 ") = Value None.
Proof. intros atoi. repeat split; vm_compute; reflexivity. Qed.
